(* ===== verification/_CoqProject ===== *)
-Q . S2P
Prelude.v
BitOps.v
Float32.v
FloatRange.v
EcHash.v
SetAssoc.v
HostModify.v
CacheCoherence.v
DeviceModify.v
DeviceSelect.v
DeviceTop.v
DeviceCoherence.v
DeviceTies.v
CacheContexts.v
DataTypes.v
HostTable.v
StlTable.v
StlFind.v
FlatMapTables.v
RocksTable.v
RocksRefine.v
NvhmTable.v
NvhmFind.v
NvhmExamples.v
ThreadPool.v
InsertHeuristic.v
Buffers.v
DefaultAllocator.v
MemBlock.v
AutoInsert.v
LinearTable.v
Pooling.v
HostLayer.v
Serialization.v
CacheQuery.v
NoCache.v
DeviceOps.v
Streams.v
GpuLayer.v
GpuLayerOrder.v
GpuLayerLookup.v
GpuLayerRace.v
FindAndCombine.v
Dedup.v
Unpack.v
Gradients.v
DeviceHistogram.v
GpuTable.v
GpuAccumulate.v
GpuDevice.v
HierLayer.v
HierTables.v
HierModify.v
LinearLayer.v
Binding.v
