(* ===== verification/Prelude.v ===== *)
(** * The NV embedding cache: data model, operations and their correctness

    The library stores embedding vectors ("rows") under integer keys. A row may
    live in a set-associative cache on the GPU, in a table in host memory, or in
    both; embedding layers combine the two and pool rows into bags. Lookups may
    collect what they missed and insert it into the cache later.

    ** The program and this development

    - [Prelude]: outcomes of a C++ call ([Ok], [Throw], [Undef]), byte memory,
      wrap-around of machine integers, arrays behind raw pointers, list lemmas.
    - [BitOps]: [include/bit_ops.hpp]; [generic_bitmask] is the hit mask of
      every lookup.
    - [Float32]: the [float] arithmetic of counters, priorities and heuristics.
    - [EcHash]: [include/ecache/ec_hash.h], set index and tag of a key.
    - [SetAssoc]: [include/ecache/ec_set_associative.h], class [EmbedCacheSA]:
      sizing, [init] with its error paths, destructor, custom-flow lock,
      metrics.
    - [HostModify]: [include/ecache/ec_set_associative_host_modify.h], class
      [CacheSAHostModify]: [insert], [update], [update_accumulate],
      [invalidate], [clear_cache], [get_keys_stored_in_cache]; and from
      [ec_set_associative.cuh] the modify kernels and [get_address].
    - [CacheCoherence]: the invariant of the cache and its preservation.
    - [DeviceModify], [DeviceSelect], [DeviceTop], [DeviceCoherence], [DeviceTies]:
      [include/ecache/ec_set_associative_device_modify.cuh] and
      [ec_set_associative_modify.cuh], class [CacheSADeviceModify]: the kernels,
      the operations, the bitonic selection of candidates, the invariant, and
      what ties of priorities do to it.
    - [CacheContexts]: creation and destruction of modify and lookup contexts of
      both caches; [NoCache]: [include/ecache/ec_no_cache.h], [ec_no_cache.cuh].
    - [CacheQuery]: the lookup kernels of [include/ecache/ec_set_associative.cuh]
      and [embed_cache.cuh] and the [lookup] methods that launch them.
    - [DataTypes]: [include/nve_types.hpp], [include/json_support.hpp].
    - [HostTable]: [include/host_table.hpp], [src/host_table.cpp],
      [include/host_table_detail.hpp]: partitioners, overflow policy,
      configuration checks, accumulate kernels.
    - [StlTable], [StlFind]: [include/stl_map_backed_table_detail.hpp] and
      [src/stl_map_backed_table.cpp], class [STLContainerTable]: [StlTable] has
      the modifying operations, [StlFind] the parallel lookup [find_].
    - [FlatMapTables]: [plugins/abseil], [plugins/phmap], the STL table over other
      maps; [NvhmTable], [NvhmFind], [NvhmExamples]: [plugins/nvhm], class
      [NvhmMapTable] over the classes [NvhmMap] and [NvhmQueue]; [RocksTable],
      [RocksRefine]: [plugins/rocksdb], class [RocksDBTable] over the class
      [RocksDB].
    - [ThreadPool]: [include/thread_pool_base.hpp], [src/thread_pool.cpp]: the queues,
      the condition variables with their notifications, and the workers.
    - [InsertHeuristic]: [src/insert_heuristic.cpp], a class with one instance
      per heuristic.
    - [Buffers]: [include/resizeable_buffer.hpp], [src/execution_context.cpp],
      [include/buffer_wrapper.hpp], over the interface [Allocator].
    - [DefaultAllocator]: [src/default_allocator.cpp] over the class [Cuda] of the
      calls of the runtime and the system; [MemBlock]: [src/memblock.cpp], blocks of
      the allocator and [NVLMemBlock] over the class [Vmm].
    - [AutoInsert]: [src/layer_utils.cpp], class [AutoInsertHandler] and the
      [ContextRegistry].
    - [LinearTable]: [include/linear_host_table.hpp], [cpu_ops/cpu_gather.h],
      [cpu_ops/cpu_update.h].
    - [Pooling]: [cpu_ops/cpu_pooling.h].
    - [HostLayer]: [src/host_embedding_layer.cpp] over the class [Table] (from
      [include/table.hpp]), which the STL table implements.
    - [Serialization]: [src/serialization.cpp], the NVE, binary and NumPy formats
      over the class [StreamWrapperBase].
    - [DeviceOps]: [cuda_ops/update_accumulate.cuh], [cuda_ops/scatter.cuh];
      [FindAndCombine]: [cuda_ops/find_and_combine_kernel.cuh] and
      [GpuTable::find_and_combine].
    - [Dedup]: [Deduper] of [cuda_ops/cuda_utils.cuh]; [Unpack]: [UnpackDedup] and
      [EmbedPooling] of the same file; [Gradients]:
      [cuda_ops/gradient_calculator.cuh] and [cuda_ops/dedup_grads_kernel.cuh].
    - [DeviceHistogram]: [cuda_ops/gather_keys_data_ptrs.cuh].
    - [GpuTable], [GpuAccumulate], [GpuDevice]: [src/gpu_table.cu] over the class
      [CacheOps]; [GpuDevice] is the default configuration, with the histogram and
      the cache on the device ([FloatRange] bounds its priorities).
    - [Streams]: streams and events of the CUDA runtime, [StreamCoordinator] of
      [include/layer_utils.hpp] and [DefaultECEvent] of
      [include/ecache/embed_cache.h].
    - [GpuLayer], [GpuLayerOrder], [GpuLayerLookup], [GpuLayerRace]:
      [src/gpu_embedding_layer.cu]: the operations, the order of their device
      work, what lookups deliver, and a race.
    - [HierLayer], [HierTables], [HierModify]:
      [src/hierarchical_embedding_layer.cu]: lookup over a list of tables, its
      composition with the GPU and STL tables, the modifying operations.
    - [LinearLayer]: [src/linear_embedding_layer.cu] over the class [UvmTable].
    - [Binding]: [python/pynve/bindings/binding_layers.hpp] over the class
      [EmbeddingLayer], and the pooled lookup of
      [python/pynve/torch_bindings/nve_torch_ops.cu].

    ** How they interact

    [HostLayer.lookup] calls a [Table], whose law is the lookup specification;
    [StlFind] proves the law for the STL table and [HostLayer] registers the
    instance, so the theorem on the layer holds for any table that meets it. The
    tables split a lookup into tasks over words of the hit mask ([BitOps]); the
    tasks run on the pool ([ThreadPool], where every submitted task runs exactly
    once) and their interleavings are quantified over in [StlFind] and
    [LinearTable]. The cache reads rows through the address computation of the
    lookup kernels; its invariant is stated on the shared byte memory. The insert
    heuristics decide when [AutoInsert] starts a collection.

    [ResizeableBuffer] and the memory blocks call the allocator; [Buffers] states what
    it needs of one as the class [Allocator] over whole buffers, [DefaultAllocator] is
    proved against the laws of the runtime ([CudaLaws]), and [MemBlock] uses its
    theorems for the blocks. [Unpack] takes the buffers that [Dedup] leaves behind.

    The tables of the plugins are written against the interfaces of the containers
    they wrap ([NvhmMap], [NvhmQueue], [RocksDB]), and their theorems use the laws of
    these ([NvhmLaws], [QueueLaws], [RocksLaws]), which concrete containers meet.
    The lookup of [NvhmFind] is proved by a simulation of the one of [StlFind].

    The GPU table is written against [CacheOps], and its theorems use the promises
    [CacheLaws] only; the host-managed cache discharges them
    ([GpuTable.host_cache_laws]), and so does the device-managed one for the batches
    it handles ([GpuDevice.device_cache_laws]). The hierarchical layer is written against
    [LayerTable] with the lookup law [find_law]; [HierTables] gives the instances
    for the GPU table and the STL table and composes them. The linear layer is
    written against [UvmTable], with the GPU table as its instance, and calls the
    lock of the automatic-insert handler. The GPU layer has no table below it: its
    operations enqueue work on [Streams], and its lookup kernel is the one of the
    cuEmbed library, a parameter with the laws [CuEmbedLaws]. The Python binding
    is written against [EmbeddingLayer], which the linear layer implements, and
    calls the gradient calculation, which de-duplicates the keys with the sorts of
    CUB (the laws [CubLaws], shared with the device-managed cache).

    ** What the theorems show

    - Cache: after any sequence of inserts, updates, invalidations and clears a
      hit delivers the row that belongs to the key ([lookup_never_stale],
      [device_lookup_never_stale]); each operation preserves the invariant and does
      what it promises ([insert_preserves_invariant], [insert_replacement],
      [update_reaches_all_hits], [invalidate_forgets], [get_keys_exact],
      [device_operations_preserve_invariant], [device_insert_replacement]); the
      parallel selection of candidates on the device is a selection of the
      greatest priorities ([device_best_candidates]); the set hashing is invertible
      ([echash_roundtrip]); memory is sized and carved within the budget
      ([allocation_within_budget], [init_layout]); contexts return what they took
      ([device_context_lifecycle]); the lookup kernels deliver hits, misses and
      masks exactly ([query_hit_mask_correct], [query_missing_correct],
      [no_cache_lookups]).
    - GPU table: lookups are never stale ([gpu_find_never_stale]), updates and
      accumulations reach the cache and the rows in unified memory
      ([gpu_update_correct], [uvm_accumulate_correct]), the histogram
      ([histogram_correct]) and the combining lookup ([find_and_combine_correct]);
      the histogram on the device is that of the host ([device_histogram_agrees])
      and an insert through it is correct ([gpu_device_insert_correct]).
    - STL table: the modifying operations refine a finite map from keys to rows
      ([stl_insert_functional], [stl_erase_update_functional]), overflow keeps
      the promised number of keys and evicts in metadata order
      ([stl_capacity_bound], [stl_eviction]); the lookup meets its specification
      sequentially, with prefetching and in every interleaving ([find_correct],
      [prefetch_equivalent], [find_any_interleaving]).
    - Tables of the plugins: lookups and modifications meet the same contract as
      those of the STL table ([nvhm_find_correct], [nvhm_modify_refines],
      [flat_map_tables_insert], [rocks_find_correct], [rocks_modify_refines],
      [rocks_accumulate_correct]), the queue of prepared lookups changes nothing
      ([nvhm_queue_equivalent]), partitions stay below their margin
      ([nvhm_partition_bounded]), and a failed write leaves whole batches
      ([rocks_failed_insert]).
    - Thread pools: submission, exactly-once execution and termination of every
      run of the workers ([execute_n_runs_all], [submit_runs_task]), shutdown
      ([simple_shutdown_drains]). Workers wait on their condition variable and
      go on only when they are notified, and no notification is lost; the results
      on final states also allow spurious wake-ups.
    - Layers: [host_lookup_correct], [hier_lookup_correct],
      [gpu_over_stl_lookup_correct], [hier_modify_correct],
      [linear_update_then_lookup]; for the GPU layer the absence of unordered
      conflicting kernels over any history ([gpu_layer_race_free]) and what each
      lookup delivers in every execution ([gpu_layer_lookup_correct]).
    - Training: gradients after any history of calls ([backprop_correct]) in buffers
      whose sizes do not wrap and that do not overlap ([gradient_buffers_apart], up to
      the number of keys where they do, [gradient_requirements_overflow]); the tables
      of the hierarchical binding are well formed ([hierarchical_tables_ok]); files of the
      GPU table ([gpu_table_save_load]).
    - Memory: the default allocator refines an abstract heap ([allocator_refines]) and
      its table of mappings is exact after every outcome ([allocator_ok_kept]); huge
      pages are of the largest size that fits and never more than are free
      ([hugepage_mapping_fits]); blocks give back what they took
      ([linear_block_destruction], [nvl_destruction]) and a block over several GPUs has
      every byte on the GPU it should ([nvl_byte_location]).
    - Device kernels: rows spread after de-duplication arrive at every position of
      their key ([unpack_after_dedup]); bags are summed ([embed_pooling_correct]).
    - Helpers: [pooling_is_elementwise], [linear_update_find],
      [auto_insert_collects], the two heuristics against their phases,
      [access_buffer_coherent], [tensor_file_roundtrip], [numpy_roundtrip],
      partitioners, data types, configuration checks.
    - Defects: statements of kind "the code reaches this bad state", each with a
      concrete run ([free_slot_alias], [init_failure_double_free],
      [custom_flow_lock_defects], [invalidate_overflows],
      [stl_undersized_buffer], [mixed_update_leaves_row],
      [hier_empty_lookup_throws], [linear_empty_update_deadlocks],
      [numa_shutdown_hangs], [stride_change_leaks_lock],
      [resize_failure_dangling], [stl_lookup_without_mask],
      [host_context_wild_free], [device_ties_duplicate_key],
      [device_update_wrong_slot], [hier_modify_failure],
      [gpu_layer_staged_keys_race], [linear_strided_update_deadlocks],
      [pooled_lookup_drops_last_bag], [mean_backprop_reads_null],
      [distinct_keys_tie], [rocks_clear_leaves_keys], [rocks_find_overflows],
      [nvhm_lfu_drops_new_key], [failed_registration_leaks], [unpooled_async_leaks],
      [device_allocate_failure], [failed_block_leaks], [unpack_overflows]).

    ** Conventions, bounds and fuel

    - Integers are [Z]; where the width matters the wrap-around is written out
      ([wrapu], [wraps]). Each file says which counts it takes not to overflow;
      byte offsets of the device kernels that the code computes in 32 bits are
      bounded by [2 ^ 32] in the theorems, and the defects show what happens beyond.
    - Memory is a function or finite map from addresses to bytes. Undefined
      behaviour is the outcome [Undef], exceptions are [Throw]; operations with
      error codes return the code.
    - Loops over a bit mask of [nb] bits have fuel [nb + 1], one more than the
      positions they can visit ([miss_iteration] shows that it is enough);
      submission over workgroups has fuel [num_tasks], as each round submits at
      least one task; the selection of candidates has fuel for one chunk per key;
      the loops that read a stream return [None] when their fuel runs out, and the
      theorems say how much is enough or that no amount is
      ([load_batch_exact_or_diverges]); the other loops follow the list they walk.
    - Code outside the repository (allocators, conversions and atomic additions of
      the CUDA headers, the sorts of CUB, the kernels of cuEmbed, random
      generators, the order of [std::unordered_map]) is a parameter, with its
      documented behaviour as a named hypothesis where a theorem needs it.
    - Parallel tasks are interleaved at their accesses to shared words; each
      critical section of a lock is one step. The threads of a kernel run in any
      order of the launched ones. Device work is a list of commands with the
      order that streams and events impose; an execution is any permutation that
      respects it.
    - A kernel launched with zero blocks fails, and so does one with more blocks than a
      grid may have; the check behind the launch throws or returns an error code
      ([launch_grid], [launch_blocks], [launched]). Calls of zero keys are errors where
      the code has no guard, and the theorems on these calls are about at least one key.
      The lookups of the caches and the operations of the host-managed one have a guard.

    ** Not modelled

    Failures of calls of the CUDA runtime in the layers; the pipelined gather
    ([cuda_ops/pipeline_gather.cuh], a parameter of [GpuTable]); managed memory
    blocks and the distributed buffers, which exchange handles over MPI; NUMA queries, the C interface, the registration of the Python classes and PyTorch
    operators, the loading of plugins, the Redis table and JSON parsing (operating
    system, third-party services or glue).

    ** Order of extension

    The pipelined gather; the handles and error codes of the C interface; the Redis
    table, whose atomicity rests on scripts that run on the server. *)
From stdpp Require Export base list gmap strings.
From Stdlib Require Export ZArith Lia Bool.

#[global] Open Scope Z_scope.

(** * Outcomes of C++ calls

    A call returns a value, leaves by an exception ([NVE_CHECK_], [NVE_THROW_]
    and the exceptions of the standard library) or runs into behaviour the
    language leaves undefined (an out-of-bounds access, [back()] of an empty
    vector, a shift by the width of the type). *)
Inductive outcome (A : Type) : Type :=
  | Ok (a : A)
  | Throw (what : string)
  | Undef (why : string).
Arguments Ok {A} a.
Arguments Throw {A} what.
Arguments Undef {A} why.

Definition obind {A B : Type} (m : outcome A) (k : A -> outcome B) : outcome B :=
  match m with
  | Ok a => k a
  | Throw e => Throw e
  | Undef w => Undef w
  end.

Declare Scope nve_scope.
Delimit Scope nve_scope with nve.
Notation "'let!' x ':=' m 'in' k" := (obind m (fun x => k))
  (at level 10, x pattern, m at level 100, k at level 200) : nve_scope.
Notation "'check!' b 'as' e 'in' k" := (if b then k else Throw e)
  (at level 10, b at level 100, e at level 100, k at level 200) : nve_scope.
#[global] Open Scope nve_scope.

(** A call that neither throws nor is undefined. *)
Definition returns {A : Type} (m : outcome A) : Prop := exists a, m = Ok a.
(** A call that stays within defined behaviour (it may throw). *)
Definition defined {A : Type} (m : outcome A) : Prop := forall w, m <> Undef w.

Lemma obind_Ok {A B} (m : outcome A) (k : A -> outcome B) b :
  obind m k = Ok b <-> exists a, m = Ok a /\ k a = Ok b.
Proof.
  destruct m as [a|e|w]; simpl; split.
  - eauto.
  - by intros (a' & [= <-] & Hk).
  - done.
  - by intros (a' & [=] & _).
  - done.
  - by intros (a' & [=] & _).
Qed.

(** A loop whose body may leave by an exception. *)
Fixpoint ofoldl {A B : Type} (f : A -> B -> outcome A) (l : list B) (a : A) : outcome A :=
  match l with
  | [] => Ok a
  | x :: l => let! a := f a x in ofoldl f l a
  end.

Lemma ofoldl_app {A B} (f : A -> B -> outcome A) l1 l2 a :
  ofoldl f (l1 ++ l2) a = obind (ofoldl f l1 a) (ofoldl f l2).
Proof. revert a. induction l1 as [|x l1 IH]; intros a; simpl; [done|]. by destruct (f a x); simpl. Qed.

(** * Fixed-width integers *)

(** Conversion of a mathematical integer to [uint<w>_t] and to [int<w>_t]. *)
Definition wrapu (w x : Z) : Z := x mod 2 ^ w.
Definition wraps (w x : Z) : Z := (x + 2 ^ (w - 1)) mod 2 ^ w - 2 ^ (w - 1).

Definition in_u (w x : Z) : Prop := 0 <= x < 2 ^ w.
Definition in_s (w x : Z) : Prop := - 2 ^ (w - 1) <= x < 2 ^ (w - 1).

Lemma pow2_pos w : 0 <= w -> 0 < 2 ^ w.
Proof. intros; apply Z.pow_pos_nonneg; lia. Qed.

Lemma pow2_half w : 0 < w -> 2 ^ w = 2 * 2 ^ (w - 1).
Proof. intros; rewrite <- Z.pow_succ_r by lia; f_equal; lia. Qed.

Lemma wrapu_range w x : 0 <= w -> in_u w (wrapu w x).
Proof. intros; apply Z.mod_pos_bound, pow2_pos; lia. Qed.

Lemma wrapu_small w x : in_u w x -> wrapu w x = x.
Proof. apply Z.mod_small. Qed.

Lemma wraps_range w x : 0 < w -> in_s w (wraps w x).
Proof.
  intros Hw. unfold in_s, wraps.
  pose proof (Z.mod_pos_bound (x + 2 ^ (w - 1)) (2 ^ w) (pow2_pos w ltac:(lia))).
  rewrite (pow2_half w Hw) in *. lia.
Qed.

Lemma wraps_small w x : 0 < w -> in_s w x -> wraps w x = x.
Proof.
  unfold in_s, wraps. intros Hw H.
  rewrite Z.mod_small; [lia|]. rewrite (pow2_half w Hw). lia.
Qed.

Lemma wraps_wrapu w x : 0 < w -> wraps w (wrapu w x) = wraps w x.
Proof. intros Hw. unfold wraps, wrapu. by rewrite Zplus_mod_idemp_l. Qed.

Lemma wrapu_wraps w x : 0 < w -> wrapu w (wraps w x) = wrapu w x.
Proof.
  intros Hw. unfold wraps, wrapu. rewrite Zminus_mod_idemp_l. f_equal; lia.
Qed.

Create HintDb nve.
#[export] Hint Resolve pow2_pos wrapu_range wraps_range : nve.

(** * Lists *)

Lemma filter_none {A} (P : A -> Prop) `{!forall x, Decision (P x)} (l : list A) :
  (forall x, x ∈ l -> ~ P x) -> filter P l = [].
Proof.
  induction l as [|x l IH]; intros Hl; [done|].
  rewrite filter_cons_False by (apply Hl; by left). apply IH. intros y Hy. apply Hl. by right.
Qed.

Lemma filter_id {A} (P : A -> Prop) `{forall x, Decision (P x)} (l : list A) : (forall x, x ∈ l -> P x) -> filter P l = l.
Proof.
  induction l as [|x l IH]; intros Hl; [done|]. rewrite filter_cons, decide_True by (apply Hl; by left). f_equal. apply IH.
  intros y Hy. apply Hl. by right.
Qed.

Lemma filter_of_fmap {A B} (P : B -> Prop) `{!forall x, Decision (P x)} (f : A -> B) (l : list A) :
  filter P (f <$> l) = f <$> filter (fun x => P (f x)) l.
Proof.
  induction l as [|x l IH]; [done|]. rewrite fmap_cons, !filter_cons.
  destruct (decide (P (f x))); [by rewrite fmap_cons, IH|exact IH].
Qed.

Lemma filter_ext_in {A} (P Q : A -> Prop) `{!forall x, Decision (P x)} `{!forall x, Decision (Q x)}
  (l : list A) :
  (forall x, x ∈ l -> P x <-> Q x) -> filter P l = filter Q l.
Proof.
  induction l as [|x l IH]; intros Hl; [done|].
  rewrite !filter_cons. rewrite IH by (intros y Hy; apply Hl; by right).
  specialize (Hl x ltac:(by left)). destruct (decide (P x)), (decide (Q x)); done || (exfalso; tauto).
Qed.

(** * C++ integer types *)

(** An integer type of the language: [{| width := 64; is_signed := true |}]
    is [int64_t]. [conv t x] is [static_cast<t>(x)]. *)
Record int_type := IntType { width : Z; is_signed : bool }.
Definition int32_t : int_type := IntType 32 true.
Definition int64_t : int_type := IntType 64 true.
Definition uint16_t : int_type := IntType 16 false.
Definition uint32_t : int_type := IntType 32 false.
Definition uint64_t : int_type := IntType 64 false.

Definition conv (t : int_type) (x : Z) : Z :=
  if is_signed t then wraps (width t) x else wrapu (width t) x.
Definition in_range (t : int_type) (x : Z) : Prop :=
  if is_signed t then in_s (width t) x else in_u (width t) x.

Lemma conv_small t x : 0 < width t -> in_range t x -> conv t x = x.
Proof.
  unfold conv, in_range. destruct (is_signed t); intros; [by apply wraps_small|by apply wrapu_small].
Qed.

Lemma conv_mod_eq t x y :
  0 < width t -> x mod 2 ^ width t = y mod 2 ^ width t -> conv t x = conv t y.
Proof.
  intros Hw H. unfold conv. destruct (is_signed t); [|exact H].
  rewrite <- (wraps_wrapu _ x), <- (wraps_wrapu _ y) by done. unfold wrapu. by rewrite H.
Qed.

Lemma wrapu_conv t x : 0 < width t -> wrapu (width t) (conv t x) = wrapu (width t) x.
Proof.
  intros Hw. unfold conv. destruct (is_signed t); [by apply wrapu_wraps|].
  unfold wrapu. by rewrite Zmod_mod.
Qed.

(** Narrowing after a wider wrap: only the low bits matter. *)
Lemma mod_pow2_mod x a b : 0 <= a <= b -> (x mod 2 ^ b) mod 2 ^ a = x mod 2 ^ a.
Proof.
  intros H. replace b with (a + (b - a)) by lia. rewrite Z.pow_add_r by lia.
  pose proof (pow2_pos a ltac:(lia)). pose proof (pow2_pos (b - a) ltac:(lia)).
  rewrite Z.rem_mul_r by lia.
  rewrite Z.mul_comm, Z_mod_plus_full, Zmod_mod. done.
Qed.

(** * Arrays behind a raw pointer and byte-addressed memory *)

(** [p[i]] for a raw pointer: the contents as a function of the index. *)
Definition upd {A : Type} (f : Z -> A) (i : Z) (v : A) : Z -> A :=
  fun j => if j =? i then v else f j.

Lemma upd_eq {A} (f : Z -> A) i v : upd f i v i = v.
Proof. unfold upd. by rewrite Z.eqb_refl. Qed.

Lemma upd_ne {A} (f : Z -> A) i j v : j <> i -> upd f i v j = f j.
Proof. intros H. unfold upd. by rewrite (proj2 (Z.eqb_neq j i)). Qed.

(** Memory maps addresses to bytes; [memcpy dst src n] copies [n] bytes. *)
Abbreviation memory := (Z -> Z).
Definition memcpy (dst src n : Z) (m : memory) : memory :=
  fun a => if (dst <=? a) && (a <? dst + n) then m (src + (a - dst)) else m a.
Definition mem_read (m : memory) (a n : Z) : list Z := m <$> seqZ a n.

(** [n] bytes at [a] and [n'] bytes at [a'] do not overlap. *)
Definition disjoint (a n a' n' : Z) : Prop := a + n <= a' \/ a' + n' <= a.

Lemma mem_read_ext m m' a n :
  (forall x, a <= x < a + n -> m x = m' x) -> mem_read m a n = mem_read m' a n.
Proof.
  intros H. apply list_fmap_ext. intros i x Hx. apply list_elem_of_lookup_2 in Hx.
  apply elem_of_seqZ in Hx. apply H. lia.
Qed.

Lemma mem_read_memcpy_same m dst src n : mem_read (memcpy dst src n m) dst n = mem_read m src n.
Proof.
  unfold mem_read. apply list_eq. intros i. rewrite !list_lookup_fmap.
  destruct (decide (Z.of_nat i < n)).
  - rewrite !lookup_seqZ_lt by lia. simpl. f_equal. unfold memcpy.
    rewrite (proj2 (Z.leb_le _ _)), (proj2 (Z.ltb_lt _ _)) by lia. simpl. f_equal. lia.
  - rewrite !lookup_seqZ_ge by lia. done.
Qed.

Lemma mem_read_memcpy_disjoint m dst src n a k :
  disjoint dst n a k -> mem_read (memcpy dst src n m) a k = mem_read m a k.
Proof.
  intros Hd. apply mem_read_ext. intros x Hx. unfold memcpy.
  destruct (Z.leb_spec dst x), (Z.ltb_spec x (dst + n)); simpl; [|done..].
  unfold disjoint in Hd. lia.
Qed.

(** * Folds over arrays and memory *)

Section FoldUpd.
Context {A B : Type} (idx : B -> Z) (val : B -> A).

Lemma fold_upd_notin l (t : Z -> A) i :
  i ∉ idx <$> l -> fold_left (fun t e => upd t (idx e) (val e)) l t i = t i.
Proof.
  revert t. induction l as [|e l IH]; intros t Hi; simpl; [done|].
  rewrite fmap_cons, not_elem_of_cons in Hi. destruct Hi as [Hne Hi].
  rewrite IH by done. by apply upd_ne.
Qed.

(** Whatever the order and the duplicates, an index written gets a value
    written to it. *)
Lemma fold_upd_in l (t : Z -> A) i :
  i ∈ idx <$> l ->
  exists e, e ∈ l /\ idx e = i /\ fold_left (fun t e => upd t (idx e) (val e)) l t i = val e.
Proof.
  revert t. induction l as [|e l IH]; intros t Hi; simpl; [by apply not_elem_of_nil in Hi|].
  destruct (decide (i ∈ idx <$> l)) as [Hin|Hnin].
  - destruct (IH (upd t (idx e) (val e)) Hin) as (e' & He' & Hi' & ->). exists e'. split; [by right|done].
  - rewrite fold_upd_notin by done. rewrite fmap_cons in Hi.
    apply elem_of_cons in Hi as [->|Hi]; [|done]. exists e. rewrite upd_eq. split; [by left|done].
Qed.
End FoldUpd.

Section FoldMemcpy.
Context {B : Type} (dst src : B -> Z) (n : Z).
Local Abbreviation copy_all := (fold_left (fun m e => memcpy (dst e) (src e) n m)).

Lemma fold_memcpy_disjoint l (m : memory) a k :
  (forall e, e ∈ l -> disjoint (dst e) n a k) ->
  mem_read (copy_all l m) a k = mem_read m a k.
Proof.
  revert m. induction l as [|e l IH]; intros m Hd; simpl; [done|].
  rewrite IH by (intros; apply Hd; by right). apply mem_read_memcpy_disjoint, Hd. by left.
Qed.

(** Copies whose destinations are equal or disjoint and whose sources are not
    overwritten: a destination ends with the contents of one of its sources. *)
Lemma fold_memcpy_in l (m : memory) e0 :
  e0 ∈ l ->
  (forall e e', e ∈ l -> e' ∈ l -> dst e = dst e' \/ disjoint (dst e) n (dst e') n) ->
  (forall e e', e ∈ l -> e' ∈ l -> disjoint (dst e) n (src e') n) ->
  exists e, e ∈ l /\ dst e = dst e0 /\ mem_read (copy_all l m) (dst e0) n = mem_read m (src e) n.
Proof.
  revert m e0. induction l as [|e l IH]; intros m e0 H0 Hdd Hds; [by apply not_elem_of_nil in H0|]. simpl.
  destruct (decide (dst e0 ∈ dst <$> l)) as [Hin|Hnin].
  - apply list_elem_of_fmap in Hin as (e1 & E1 & Hin).
    destruct (IH (memcpy (dst e) (src e) n m) e1 Hin) as (e' & He' & Hd' & Hr).
    + intros; apply Hdd; by right.
    + intros; apply Hds; by right.
    + exists e'. split; [by right|]. split; [congruence|]. rewrite E1, Hr.
      apply mem_read_memcpy_disjoint, Hds; [by left|by right].
  - apply elem_of_cons in H0 as [->|H0].
    2:{ destruct Hnin. by apply list_elem_of_fmap_2. }
    exists e. split; [by left|]. split; [done|].
    rewrite fold_memcpy_disjoint; [apply mem_read_memcpy_same|].
    intros e' He'. destruct (Hdd e' e) as [E|]; [by right|by left| |done].
    destruct Hnin. rewrite <- E. by apply list_elem_of_fmap_2.
Qed.
End FoldMemcpy.

Lemma find_Some_In {A} (f : A -> bool) l x : List.find f l = Some x -> x ∈ l /\ f x = true.
Proof. intros H. apply find_some in H as [H1 H2]. by rewrite list_elem_of_In. Qed.

Lemma find_None_In {A} (f : A -> bool) l x : List.find f l = None -> x ∈ l -> f x = false.
Proof. intros H Hx. eapply find_none; [done|]. by rewrite <- list_elem_of_In. Qed.

Lemma fold_left_ext {A B} (f g : A -> B -> A) l a : (forall a b, f a b = g a b) -> fold_left f l a = fold_left g l a.
Proof. intros H. revert a. induction l as [|b l IH]; intros a; [done|]. simpl. by rewrite H. Qed.
