(* ===== verification/BitOps.v ===== *)
(** * Bit operations: [include/bit_ops.hpp]

    The C++17 helpers ([ceil_div], [has_single_bit], [rotl]/[rotr],
    [bit_ceil], [next_aligned]) and the [generic_bitmask<Repr>] struct that
    every table uses for its hit masks. A mask of [nb = 8 * sizeof(Repr)] bits
    is a [Z] in [0, 2^nb). *)
From S2P Require Import Prelude.

(** [ceil_div(x, n)]: C++ division truncates, hence [Z.quot]. *)
Definition ceil_div (x n : Z) : Z := Z.quot (x + n - 1) n.

(** [has_single_bit(x)]. *)
Definition has_single_bit (x : Z) : bool := (0 <? x) && (Z.land x (x - 1) =? 0).

Fixpoint pos_ctz (p : positive) : Z :=
  match p with
  | xO q => Z.succ (pos_ctz q)
  | _ => 0
  end.

(** [countr_zero]: the builtins leave the result for 0 undefined; the masks
    are tested with [has_next] first. *)
Definition countr_zero (x : Z) : Z := match x with Zpos p => pos_ctz p | _ => 0 end.

Fixpoint pos_popcount (p : positive) : Z :=
  match p with
  | xI q => Z.succ (pos_popcount q)
  | xO q => pos_popcount q
  | xH => 1
  end.

Definition popcount (x : Z) : Z := match x with Zpos p => pos_popcount p | _ => 0 end.

(** [rotl]/[rotr] on a [w]-bit unsigned type. After the masking [n] is in
    [0, w); for [n = 0] the second shift is by the width of the type, which
    C++ leaves undefined. *)
Definition rotl (w x n : Z) : outcome Z :=
  let n := Z.land n (w - 1) in
  if n =? 0 then Undef "shift by the width of the type"
  else Ok (Z.lor (wrapu w (Z.shiftl x n)) (Z.shiftr x (w - n))).

Definition rotr (w x n : Z) : outcome Z :=
  let n := Z.land n (w - 1) in
  if n =? 0 then Undef "shift by the width of the type"
  else Ok (Z.lor (Z.shiftr x n) (wrapu w (Z.shiftl x (w - n)))).

(** The replication loop of [bit_ceil]: [for (n = 1; n <= w/2; n *= 2) x |= x >> n]. *)
Fixpoint bit_ceil_loop (fuel : nat) (w n x : Z) : Z :=
  match fuel with
  | O => x
  | S f => if n <=? w / 2 then bit_ceil_loop f w (2 * n) (Z.lor x (Z.shiftr x n)) else x
  end.

Definition bit_ceil (w x : Z) : Z :=
  let x := wrapu w (x - 1) in
  let x := bit_ceil_loop (Z.to_nat w) w 1 x in
  Z.max (wrapu w (x + 1)) 1.

(** [next_aligned(x, n)] and the template [next_aligned<N>(x)] with its
    power-of-two fast path. *)
Definition next_aligned (x n : Z) : Z := ceil_div x n * n.
Definition next_aligned_const (N x : Z) : Z :=
  if has_single_bit N then Z.land (x + N - 1) (Z.lnot (N - 1)) else next_aligned x N.

Module generic_bitmask.
Section Repr.
Variable nb : Z.

(** Number of words that hold [n] bits. *)
Definition mask_size (n : Z) : Z := ceil_div n nb.
(** Word index of bit [ij]: [&mem[ij / num_bits * size]]. *)
Definition word_of (ij : Z) : Z := Z.quot ij nb.
Definition count (r : Z) : Z := popcount r.
Definition has_next (r : Z) : bool := negb (r =? 0).
Definition next (r : Z) : Z := countr_zero r.
(** [repr & (repr - 1)]; the subtraction is unsigned, so it wraps at 0. *)
Definition skip (r : Z) : Z := Z.land r (wrapu nb (r - 1)).
Definition invert (r : Z) : Z := wrapu nb (Z.lnot r).
Definition join (r0 r1 : Z) : Z := Z.lor r0 r1.
Definition inters (r0 r1 : Z) : Z := Z.land r0 r1.
Definition diff (r0 r1 : Z) : Z := Z.lxor r0 r1.
Definition equals (r0 r1 : Z) : bool := r0 =? r1.
Definition empty : Z := 0.
Definition full : Z := invert empty.
Definition is_empty (r : Z) : bool := equals r empty.
Definition is_full (r : Z) : bool := equals r full.
Definition single (n : Z) : Z := wrapu nb (Z.shiftl 1 n).
Definition partial (n : Z) : Z := invert (wrapu nb (Z.shiftl full n)).
Definition set (r n : Z) : Z := join r (single n).
Definition insert_bit (r n : Z) (bit : bool) : Z := join r (wrapu nb (Z.shiftl (Z.b2z bit) n)).
Definition clip (r n : Z) : Z := if n <? nb then inters r (partial n) else r.
(** [atomic_join]: the word at the address is or-ed in one step. *)
Definition atomic_join (mem : list Z) (w : nat) (r : Z) : list Z := alter (fun x => Z.lor x r) w mem.

(** The iteration idiom of every client,
    [for (it = m; has_next(it); it = skip(it)) ... next(it) ...];
    [None] when the fuel runs out before the loop ends. *)
Fixpoint iterate (fuel : nat) (it : Z) : option (list Z) :=
  match fuel with
  | O => None
  | S f =>
      if has_next it
      then match iterate f (skip it) with Some l => Some (next it :: l) | None => None end
      else Some []
  end.

End Repr.
End generic_bitmask.

(** ** Lemmas: division and alignment *)

Lemma ceil_div_bounds x n : 0 <= x -> 0 < n -> n * (ceil_div x n - 1) < x <= n * ceil_div x n.
Proof.
  intros Hx Hn. unfold ceil_div. rewrite Z.quot_div_nonneg by lia.
  pose proof (Z.div_mod (x + n - 1) n ltac:(lia)).
  pose proof (Z.mod_pos_bound (x + n - 1) n ltac:(lia)). nia.
Qed.

Lemma ceil_div_nonneg x n : 0 <= x -> 0 < n -> 0 <= ceil_div x n.
Proof. intros. unfold ceil_div. rewrite Z.quot_div_nonneg by lia. apply Z.div_pos; lia. Qed.

Lemma has_single_bit_spec x : has_single_bit x = true <-> exists k, 0 <= k /\ x = 2 ^ k.
Proof.
  unfold has_single_bit. rewrite andb_true_iff, Z.ltb_lt, Z.eqb_eq. split.
  - intros [Hx Hl]. exists (Z.log2 x). split; [apply Z.log2_nonneg|].
    pose proof (Z.log2_spec x Hx) as [Hlo Hhi].
    pose proof (pow2_pos (Z.log2 x) (Z.log2_nonneg x)) as Hp.
    destruct (Z.eq_dec x (2 ^ Z.log2 x)) as [E|E]; [exact E|].
    exfalso. assert (Hb : Z.testbit (Z.land x (x - 1)) (Z.log2 x) = true).
    { rewrite Z.land_spec, Z.bit_log2 by lia. simpl.
      rewrite <- (Z.log2_unique' (x - 1) (Z.log2 x) (x - 1 - 2 ^ Z.log2 x)).
      - apply Z.bit_log2. lia.
      - apply Z.log2_nonneg.
      - rewrite Z.pow_succ_r in Hhi by apply Z.log2_nonneg. lia.
      - lia. }
    rewrite Hl, Z.bits_0 in Hb. discriminate.
  - intros (k & Hk & ->). pose proof (pow2_pos k Hk). split; [lia|].
    replace (2 ^ k - 1) with (Z.ones k) by (rewrite Z.ones_equiv; lia).
    rewrite Z.land_ones by lia. apply Z.mod_same. lia.
Qed.

Lemma land_lnot_pred_pow2 y k : 0 <= k -> Z.land y (Z.lnot (2 ^ k - 1)) = 2 ^ k * (y / 2 ^ k).
Proof.
  intros Hk. replace (2 ^ k - 1) with (Z.ones k) by (rewrite Z.ones_equiv; lia).
  rewrite <- Z.ldiff_land, Z.ldiff_ones_r by lia.
  rewrite Z.shiftl_mul_pow2, Z.shiftr_div_pow2 by lia. lia.
Qed.

Lemma next_aligned_spec x n :
  0 <= x -> 0 < n -> x <= next_aligned x n < x + n /\ (n | next_aligned x n).
Proof.
  intros Hx Hn. unfold next_aligned. pose proof (ceil_div_bounds x n Hx Hn).
  split; [nia|]. exists (ceil_div x n). reflexivity.
Qed.

(** The fast path computes what the division does. *)
Lemma next_aligned_const_eq N x : 0 <= x -> 0 < N -> next_aligned_const N x = next_aligned x N.
Proof.
  intros Hx HN. unfold next_aligned_const.
  destruct (has_single_bit N) eqn:E; [|reflexivity].
  apply has_single_bit_spec in E as (k & Hk & ->).
  rewrite land_lnot_pred_pow2 by lia. unfold next_aligned, ceil_div.
  rewrite Z.quot_div_nonneg by lia. lia.
Qed.

(** ** Lemmas: single bits of the mask operations *)

Lemma testbit_wrapu w x i :
  0 <= w -> 0 <= i -> Z.testbit (wrapu w x) i = (i <? w) && Z.testbit x i.
Proof.
  intros Hw Hi. unfold wrapu. rewrite <- Z.land_ones, Z.land_spec by lia.
  rewrite andb_comm. f_equal. destruct (Z.ltb_spec i w).
  - by rewrite Z.ones_spec_low by lia.
  - by rewrite Z.ones_spec_high by lia.
Qed.

Lemma testbit_in_u w x i : 0 <= w -> in_u w x -> w <= i -> Z.testbit x i = false.
Proof.
  intros Hw Hx Hi. rewrite <- (wrapu_small w x Hx), testbit_wrapu by lia.
  by rewrite (proj2 (Z.ltb_ge i w)).
Qed.

Lemma in_u_testbit w x : 0 <= w -> 0 <= x -> (forall i, w <= i -> Z.testbit x i = false) -> in_u w x.
Proof.
  intros Hw Hx Hb. split; [done|].
  destruct (Z.eq_dec x 0) as [->|Hn]; [by apply pow2_pos|].
  apply Z.log2_lt_pow2; [lia|].
  destruct (Z.lt_ge_cases (Z.log2 x) w); [done|].
  exfalso. specialize (Hb (Z.log2 x) ltac:(lia)). rewrite Z.bit_log2 in Hb by lia. discriminate.
Qed.

Lemma testbit_pow2 n i : 0 <= n -> Z.testbit (Z.shiftl 1 n) i = (i =? n).
Proof.
  intros Hn. rewrite Z.shiftl_1_l. destruct (Z.eqb_spec i n) as [->|Hne].
  - by apply Z.pow2_bits_true.
  - apply Z.pow2_bits_false. lia.
Qed.

Lemma pos_ctz_nonneg p : 0 <= pos_ctz p.
Proof. induction p; simpl; lia. Qed.

Lemma pos_ctz_testbit p : Z.testbit (Zpos p) (pos_ctz p) = true.
Proof.
  induction p; simpl pos_ctz; [done| |done].
  rewrite (Pos2Z.inj_xO p). rewrite Z.double_bits_succ. done.
Qed.

Lemma pos_ctz_below p i : 0 <= i < pos_ctz p -> Z.testbit (Zpos p) i = false.
Proof.
  revert i. induction p as [p IH|p IH|]; simpl pos_ctz; intros i Hi; [lia| |lia].
  rewrite (Pos2Z.inj_xO p). destruct (Z.eq_dec i 0) as [->|].
  - apply Z.testbit_even_0.
  - replace i with (Z.succ (i - 1)) by lia. rewrite Z.double_bits_succ. apply IH. lia.
Qed.

Lemma pos_skip_testbit p i :
  0 <= i ->
  Z.testbit (Z.land (Zpos p) (Zpos p - 1)) i = Z.testbit (Zpos p) i && negb (i =? pos_ctz p).
Proof.
  revert i. induction p as [p IH|p IH|]; intros i Hi; simpl pos_ctz.
  - replace (Z.pos p~1 - 1) with (2 * Z.pos p) by lia. rewrite Z.land_spec.
    destruct (Z.eqb_spec i 0) as [->|].
    + by rewrite Z.testbit_even_0, andb_false_r.
    + replace i with (Z.succ (i - 1)) by lia.
      rewrite (Pos2Z.inj_xI p), Z.testbit_odd_succ, Z.double_bits_succ by lia.
      by rewrite andb_diag, andb_true_r.
  - replace (Z.pos p~0 - 1) with (2 * (Z.pos p - 1) + 1) by lia. rewrite Z.land_spec.
    rewrite (Pos2Z.inj_xO p). destruct (Z.eq_dec i 0) as [->|].
    + by rewrite Z.testbit_even_0.
    + replace i with (Z.succ (i - 1)) by lia.
      rewrite Z.double_bits_succ, Z.testbit_odd_succ, <- Z.land_spec, IH by lia.
      do 2 f_equal. destruct (Z.eqb_spec (i - 1) (pos_ctz p)), (Z.eqb_spec (Z.succ (i - 1)) (Z.succ (pos_ctz p))); lia.
  - simpl (1 - 1). rewrite Z.land_0_r, Z.bits_0.
    destruct (Z.eqb_spec i 0) as [->|]; [done|]. rewrite andb_true_r.
    symmetry. apply (testbit_in_u 1); [lia|split; lia|lia].
Qed.

Section Masks.
Context (nb : Z) (Hnb : 0 < nb).

Lemma skip_eq r : in_u nb r -> r <> 0 -> generic_bitmask.skip nb r = Z.land r (r - 1).
Proof. intros [? ?] ?. unfold generic_bitmask.skip. rewrite (wrapu_small nb (r - 1)); [done|split; lia]. Qed.

Lemma skip_testbit r i :
  in_u nb r -> r <> 0 -> 0 <= i ->
  Z.testbit (generic_bitmask.skip nb r) i = Z.testbit r i && negb (i =? countr_zero r).
Proof.
  intros Hr Hn Hi. rewrite skip_eq by done. destruct r; [done| |destruct Hr; lia].
  by apply pos_skip_testbit.
Qed.

Lemma skip_in_u r : in_u nb r -> in_u nb (generic_bitmask.skip nb r).
Proof.
  intros Hr. destruct (Z.eq_dec r 0) as [->|Hn].
  { unfold generic_bitmask.skip. rewrite Z.land_0_l. exact Hr. }
  apply in_u_testbit; [lia| |].
  - rewrite skip_eq by done. apply Z.land_nonneg. destruct Hr; lia.
  - intros i Hi. rewrite skip_testbit by (auto; lia).
    by rewrite (testbit_in_u nb r i ltac:(lia) Hr Hi).
Qed.

Lemma invert_testbit r i :
  0 <= i -> Z.testbit (generic_bitmask.invert nb r) i = (i <? nb) && negb (Z.testbit r i).
Proof. intros Hi. unfold generic_bitmask.invert. by rewrite testbit_wrapu, Z.lnot_spec by lia. Qed.

Lemma full_testbit i : 0 <= i -> Z.testbit (generic_bitmask.full nb) i = (i <? nb).
Proof.
  intros Hi. unfold generic_bitmask.full, generic_bitmask.empty.
  by rewrite invert_testbit, Z.bits_0, andb_true_r.
Qed.

Lemma partial_testbit n i :
  0 <= n < nb -> 0 <= i -> Z.testbit (generic_bitmask.partial nb n) i = (i <? n).
Proof.
  intros Hn Hi. unfold generic_bitmask.partial.
  rewrite invert_testbit, testbit_wrapu, Z.shiftl_spec by lia.
  destruct (Z.ltb_spec i nb), (Z.ltb_spec i n); simpl; try lia; try done.
  - by rewrite Z.testbit_neg_r by lia.
  - rewrite full_testbit by lia. destruct (Z.ltb_spec (i - n) nb); [done|lia].
Qed.

Lemma set_testbit r n i :
  0 <= n < nb -> 0 <= i -> Z.testbit (generic_bitmask.set nb r n) i = Z.testbit r i || (i =? n).
Proof.
  intros Hn Hi. unfold generic_bitmask.set, generic_bitmask.join, generic_bitmask.single.
  rewrite Z.lor_spec, testbit_wrapu, testbit_pow2 by lia.
  destruct (Z.eqb_spec i n) as [->|]; [|by rewrite andb_false_r].
  by rewrite (proj2 (Z.ltb_lt n nb)) by lia.
Qed.

Lemma clip_testbit r n i :
  in_u nb r -> 0 <= n -> 0 <= i ->
  Z.testbit (generic_bitmask.clip nb r n) i = Z.testbit r i && (i <? n).
Proof.
  intros Hr Hn Hi. unfold generic_bitmask.clip, generic_bitmask.inters.
  destruct (Z.ltb_spec n nb).
  - by rewrite Z.land_spec, partial_testbit by lia.
  - destruct (Z.ltb_spec i n); [by rewrite andb_true_r|].
    by rewrite (testbit_in_u nb r i) by (auto; lia).
Qed.

(** The positions of the set bits, ascending. *)
Definition bits (m : Z) : list Z := filter (fun i => Z.testbit m i = true) (seqZ 0 nb).

Lemma bits_skip m :
  in_u nb m -> m <> 0 -> bits m = countr_zero m :: bits (generic_bitmask.skip nb m).
Proof.
  intros Hm Hn. destruct m as [|p|p]; [done| |destruct Hm; lia].
  set (c := pos_ctz p). assert (Hc0 : 0 <= c) by apply pos_ctz_nonneg.
  assert (Hc : c < nb).
  { destruct (Z.lt_ge_cases c nb); [done|].
    pose proof (pos_ctz_testbit p) as E. by rewrite (testbit_in_u nb) in E by (auto; lia). }
  assert (Hsplit : seqZ 0 nb = seqZ 0 c ++ c :: seqZ (c + 1) (nb - c - 1)).
  { replace nb with (c + (nb - c)) at 1 by lia. rewrite seqZ_app by lia. f_equal.
    rewrite Z.add_0_l. rewrite seqZ_cons by lia. f_equal; f_equal; lia. }
  assert (Hlow : forall m', (forall i, 0 <= i < c -> Z.testbit m' i = false) ->
            filter (fun i => Z.testbit m' i = true) (seqZ 0 c) = []).
  { intros m' H. apply filter_none. intros x [? ?]%elem_of_seqZ. rewrite H by lia. done. }
  unfold bits. rewrite Hsplit, !filter_app, !filter_cons, !Hlow.
  - rewrite decide_True by apply pos_ctz_testbit.
    rewrite decide_False by (rewrite skip_testbit by (auto; lia); simpl; by rewrite Z.eqb_refl, andb_false_r).
    simpl. f_equal. apply filter_ext_in. intros x [? ?]%elem_of_seqZ.
    rewrite skip_testbit by (auto; lia). change (countr_zero (Z.pos p)) with c.
    destruct (Z.eqb_spec x c); [lia|]. simpl. by rewrite andb_true_r.
  - intros i Hi. rewrite skip_testbit by (auto; lia). by rewrite pos_ctz_below.
  - intros i Hi. by apply pos_ctz_below.
Qed.

Lemma bits_length m : (length (bits m) <= Z.to_nat nb)%nat.
Proof. unfold bits. etrans; [apply length_filter|]. by rewrite length_seqZ. Qed.

Lemma iterate_bits fuel m :
  in_u nb m -> (length (bits m) < fuel)%nat ->
  generic_bitmask.iterate nb fuel m = Some (bits m).
Proof.
  revert m. induction fuel as [|fuel IH]; intros m Hm Hf; [lia|].
  simpl. unfold generic_bitmask.has_next. destruct (Z.eqb_spec m 0) as [->|Hn]; simpl.
  - f_equal. symmetry. apply filter_none. intros x _. by rewrite Z.bits_0.
  - rewrite bits_skip in Hf |- * by done. simpl in Hf.
    rewrite IH by (try apply skip_in_u; auto; lia). done.
Qed.

End Masks.

Lemma invert_in_u nb r : 0 <= nb -> in_u nb (generic_bitmask.invert nb r).
Proof. intros. by apply wrapu_range. Qed.

Lemma clip_in_u nb r n : 0 < nb -> 0 <= n -> in_u nb r -> in_u nb (generic_bitmask.clip nb r n).
Proof.
  intros Hnb Hn Hr. unfold generic_bitmask.clip. destruct (Z.ltb_spec n nb); [|done].
  apply in_u_testbit; [lia|apply Z.land_nonneg; left; apply Hr|].
  intros i Hi. unfold generic_bitmask.inters. rewrite Z.land_spec, (testbit_in_u nb r i) by (auto; lia). done.
Qed.

Lemma miss_iteration_lemma (nb m n : Z) :
  0 < nb -> in_u nb m -> 0 <= n ->
  generic_bitmask.iterate nb (S (Z.to_nat nb))
    (generic_bitmask.clip nb (generic_bitmask.invert nb m) n)
  = Some (filter (fun i => i < n /\ Z.testbit m i = false) (seqZ 0 nb)).
Proof.
  intros Hnb Hm Hn.
  pose proof (clip_in_u nb _ n Hnb Hn (invert_in_u nb m ltac:(lia))) as Hc.
  rewrite iterate_bits; [|done|done|]. 2:{ pose proof (bits_length nb (generic_bitmask.clip nb (generic_bitmask.invert nb m) n)). lia. }
  f_equal. apply filter_ext_in. intros i [Hi0 Hi]%elem_of_seqZ.
  rewrite clip_testbit by (try apply invert_in_u; lia). rewrite invert_testbit by lia.
  rewrite (proj2 (Z.ltb_lt i nb)) by lia. simpl.
  rewrite andb_true_iff, negb_true_iff, Z.ltb_lt. tauto.
Qed.

Lemma land_double a b : Z.land (2 * a) (2 * b + 1) = 2 * Z.land a b.
Proof.
  apply Z.bits_inj'. intros i Hi. rewrite Z.land_spec.
  destruct (Z.eq_dec i 0) as [->|Hn].
  - by rewrite !Z.testbit_even_0.
  - replace i with (Z.succ (i - 1)) by lia. rewrite !Z.testbit_even_succ, Z.testbit_odd_succ by lia.
    by rewrite Z.land_spec.
Qed.

Lemma popcount_double z : 0 <= z -> popcount (2 * z) = popcount z.
Proof. destruct z; [done|done|lia]. Qed.

Lemma pos_popcount_skip p : pos_popcount p = 1 + popcount (Z.land (Zpos p) (Zpos p - 1)).
Proof.
  induction p as [p IH|p IH|]; [| |done].
  - replace (Zpos p~1 - 1) with (2 * Zpos p) by lia. rewrite Z.land_comm.
    replace (Zpos p~1) with (2 * Zpos p + 1) by lia. rewrite land_double, Z.land_diag.
    change (popcount (2 * Zpos p)) with (pos_popcount p). cbn [pos_popcount]. lia.
  - replace (Zpos p~0 - 1) with (2 * (Zpos p - 1) + 1) by lia.
    replace (Zpos p~0) with (2 * Zpos p) by lia. rewrite land_double.
    rewrite popcount_double by (apply Z.land_nonneg; lia). cbn [pos_popcount]. lia.
Qed.

Section Popcount.
Context (nb : Z) (Hnb : 0 < nb).

Lemma popcount_bits_le k m : (length (bits nb m) <= k)%nat -> in_u nb m -> popcount m = Z.of_nat (length (bits nb m)).
Proof.
  assert (H0 : forall m, m = 0 -> popcount m = Z.of_nat (length (bits nb m))).
  { intros ? ->. unfold bits. rewrite filter_none by (intros x _; by rewrite Z.bits_0). done. }
  revert m. induction k as [|k IH]; intros m Hk Hm; (destruct (Z.eq_dec m 0) as [->|Hn]; [by apply H0|]).
  - rewrite bits_skip in Hk by done. simpl in Hk. lia.
  - rewrite bits_skip in Hk |- * by done. simpl in Hk.
    destruct m as [|p|p]; [done| |destruct Hm; lia].
    simpl popcount. rewrite pos_popcount_skip. rewrite <- (skip_eq nb) by done.
    rewrite IH by (try apply skip_in_u; done || lia). cbn [length]. lia.
Qed.

Lemma popcount_bits m : in_u nb m -> popcount m = Z.of_nat (length (bits nb m)).
Proof. intros. by eapply popcount_bits_le. Qed.

Lemma set_in_u r n : 0 <= n < nb -> in_u nb r -> in_u nb (generic_bitmask.set nb r n).
Proof.
  intros Hn Hr. apply in_u_testbit; [lia| |].
  - unfold generic_bitmask.set, generic_bitmask.join. apply Z.lor_nonneg. split; [apply Hr|apply wrapu_range; lia].
  - intros i Hi. rewrite set_testbit by lia. rewrite (testbit_in_u nb r) by (done || lia).
    by rewrite (proj2 (Z.eqb_neq i n)) by lia.
Qed.

(** Setting a clear bit adds one to the count. *)
Lemma popcount_set r n :
  0 <= n < nb -> in_u nb r -> Z.testbit r n = false -> popcount (generic_bitmask.set nb r n) = popcount r + 1.
Proof.
  intros Hn Hr Hb. rewrite !popcount_bits by (try apply set_in_u; done).
  assert (Hp : bits nb (generic_bitmask.set nb r n) ≡ₚ n :: bits nb r).
  { apply NoDup_Permutation.
    - apply NoDup_filter, NoDup_seqZ.
    - apply NoDup_cons. split; [|apply NoDup_filter, NoDup_seqZ].
      intros [Hx _]%list_elem_of_filter. congruence.
    - intros x. unfold bits. rewrite elem_of_cons, !list_elem_of_filter. split.
      + intros [Hx Hs]. pose proof Hs as [Hx0 _]%elem_of_seqZ. rewrite set_testbit in Hx by lia.
        apply orb_true_iff in Hx as [Hx|Hx%Z.eqb_eq]; auto.
      + intros [->|[Hx Hs] ].
        * split; [rewrite set_testbit by lia; by rewrite Z.eqb_refl, orb_true_r|apply elem_of_seqZ; lia].
        * pose proof Hs as [Hx0 _]%elem_of_seqZ. split; [|done]. rewrite set_testbit by lia. by rewrite Hx. }
  rewrite Hp. cbn [length]. lia.
Qed.
End Popcount.

(** The mask loop of every host table visits the missing keys exactly once, in
    ascending order, and terminates: iterating [clip(invert(m), n)] with
    [has_next]/[next]/[skip] yields the positions below [n] whose bit in the hit
    mask [m] is clear, within [num_bits] rounds. *)
Theorem miss_iteration (nb m n : Z) :
  0 < nb -> in_u nb m -> 0 <= n ->
  generic_bitmask.iterate nb (S (Z.to_nat nb))
    (generic_bitmask.clip nb (generic_bitmask.invert nb m) n)
  = Some (filter (fun i => i < n /\ Z.testbit m i = false) (seqZ 0 nb)).
Proof. apply miss_iteration_lemma. Qed.

Lemma miss_iteration_witness :
  generic_bitmask.iterate 64 65 (generic_bitmask.clip 64 (generic_bitmask.invert 64 5) 6) = Some [1; 3; 4; 5].
Proof. etransitivity; [exact (miss_iteration 64 5 6 ltac:(lia) ltac:(unfold in_u; lia) ltac:(lia))|reflexivity]. Defined.

(** [next_aligned] and its power-of-two fast path agree and return the least
    multiple of [N] that is not below [x]. *)
Theorem next_aligned_least (N x : Z) :
  0 <= x -> 0 < N ->
  next_aligned_const N x = next_aligned x N /\ x <= next_aligned x N /\ (N | next_aligned x N) /\
  forall y, x <= y -> (N | y) -> next_aligned x N <= y.
Proof.
  intros Hx HN. destruct (next_aligned_spec x N Hx HN) as [ [Hlo Hhi] Hd].
  split; [by apply next_aligned_const_eq|]. split; [done|]. split; [done|].
  intros y Hy [q ->]. destruct Hd as [p Hp]. rewrite Hp in *.
  assert (p <= q) by nia. nia.
Qed.

Lemma next_aligned_least_witness : next_aligned_const 16 33 = 48 /\ (16 | next_aligned 33 16).
Proof. destruct (next_aligned_least 16 33 ltac:(lia) ltac:(lia)) as (E & _ & H & _). by rewrite E. Defined.
