(* ===== verification/Float32.v ===== *)
(** * IEEE-754 binary32 and binary64

    The C++ [float] of the counters, priorities, hit rates and thresholds,
    through the executable specification of floating-point arithmetic of the
    standard library (round to nearest even, 24-bit precision, emax 128). *)
From S2P Require Import Prelude.
From Stdlib Require Export SpecFloat.

Abbreviation f32 := spec_float.

Definition f32_add : f32 -> f32 -> f32 := SFadd 24 128.
Definition f32_sub : f32 -> f32 -> f32 := SFsub 24 128.
Definition f32_mul : f32 -> f32 -> f32 := SFmul 24 128.
Definition f32_div : f32 -> f32 -> f32 := SFdiv 24 128.
Definition f32_sqrt : f32 -> f32 := SFsqrt 24 128.
Definition f32_abs : f32 -> f32 := SFabs.

(** [a < b], [a <= b]; false when either is NaN. *)
Definition f32_lt (a b : f32) : bool := SFltb a b.
Definition f32_le (a b : f32) : bool := SFleb a b.

(** [static_cast<float>(z)] for an integer [z]. *)
Definition f32_of_Z (z : Z) : f32 := binary_normalize 24 128 z 0 false.
(** [num / den] for decimal literals such as [0.75f] (exact rational rounded once). *)
Definition f32_ratio (num den : Z) : f32 := f32_div (f32_of_Z num) (f32_of_Z den).

Definition f32_zero : f32 := S754_zero false.
Definition f32_one : f32 := f32_of_Z 1.

(** [std::floor] for [float]: shifting the significand rounds down. *)
Definition f32_floor (x : f32) : f32 :=
  match x with
  | S754_finite s m e => binary_normalize 24 128 (Z.shiftl (if s then Zneg m else Zpos m) e) 0 s
  | _ => x
  end.

Example f32_floor_ex : f32_floor (f32_ratio (-5) 2) = f32_of_Z (-3) /\ f32_floor (f32_ratio 5 2) = f32_of_Z 2.
Proof. split; reflexivity. Qed.

Example f32_literal : f32_ratio 3 4 = S754_finite false 12582912 (-24).
Proof. reflexivity. Qed.

(** [<] on floats is transitive (and false on NaN). *)
Lemma f32_lt_trans a b c : f32_lt a b = true -> f32_lt b c = true -> f32_lt a c = true.
Proof.
  unfold f32_lt, SFltb.
  destruct a as [sa|sa| |sa ma ea], b as [sb|sb| |sb mb eb], c as [sc|sc| |sc mc ec];
    try (destruct sa); try (destruct sb); try (destruct sc); try discriminate; try reflexivity; simpl.
  all: change (PosDef.Pos.compare_cont Eq) with Pos.compare.
  all: destruct (Z.compare_spec ea eb); try discriminate; destruct (Z.compare_spec eb ec); try discriminate;
      destruct (Z.compare_spec ea ec); try reflexivity; try lia.
  all: destruct (Pos.compare_spec ma mb); try discriminate; destruct (Pos.compare_spec mb mc); try discriminate;
      destruct (Pos.compare_spec ma mc); try reflexivity; lia.
Qed.

Lemma f32_lt_irrefl a : f32_lt a a = false.
Proof.
  unfold f32_lt, SFltb. destruct a as [s|s| |s m e]; try done; try (by destruct s). destruct s; simpl;
    change (PosDef.Pos.compare_cont Eq) with Pos.compare; rewrite Z.compare_refl, Pos.compare_refl; done.
Qed.

(** ** Counters: zero, positive or infinite *)

Definition f32_counter (x : f32) : Prop :=
  match x with S754_zero _ | S754_finite false _ _ | S754_infinity false => True | _ => False end.
Definition f32_positive (x : f32) : Prop := match x with S754_finite false _ _ => True | _ => False end.

Lemma shr_1_nonneg r : 0 <= shr_m r -> 0 <= shr_m (shr_1 r).
Proof. destruct r as [ [|p|p] b1 b2]; try done; simpl; intros H; try done; by destruct p. Qed.

Lemma shr_nonneg r e n : 0 <= shr_m r -> 0 <= shr_m (shr r e n).1.
Proof.
  intros Hr. unfold shr. destruct n as [|p|p]; [done| |done]. simpl. revert r Hr.
  induction p as [p IH|p IH|]; intros r Hr; cbn [SpecFloat.iter_pos]; [apply IH, IH|apply IH, IH|]; by try apply shr_1_nonneg.
Qed.

Lemma round_nonneg m l : 0 <= m -> 0 <= round_nearest_even m l.
Proof. intros Hm. unfold round_nearest_even. destruct l as [|[| |] ]; [done|destruct (Z.even m); lia|lia|lia]. Qed.

Lemma round_counter m e l : 0 <= m -> f32_counter (binary_round_aux 24 128 false m e l).
Proof.
  intros Hm. unfold binary_round_aux, shr_fexp.
  destruct (shr (shr_record_of_loc m l) e _) as [r1 e1] eqn:E1.
  assert (H1 : 0 <= shr_m r1).
  { replace r1 with (shr (shr_record_of_loc m l) e (fexp 24 128 (Zdigits2 m + e) - e)).1 by (by rewrite E1).
    apply shr_nonneg. by destruct l as [|[| |] ]. }
  destruct (shr (shr_record_of_loc _ loc_Exact) e1 _) as [r2 e2] eqn:E2.
  assert (H2 : 0 <= shr_m r2).
  { pose proof (shr_nonneg (shr_record_of_loc (round_nearest_even (shr_m r1) (loc_of_shr_record r1)) loc_Exact) e1
      (fexp 24 128 (Zdigits2 (round_nearest_even (shr_m r1) (loc_of_shr_record r1)) + e1) - e1)) as H.
    rewrite E2 in H. apply H. by apply round_nonneg. }
  destruct (shr_m r2) eqn:Em; [done| |lia]. by destruct (e2 <=? 128 - 24).
Qed.

Lemma f32_mul_counter a b : f32_counter a -> f32_positive b -> f32_counter (f32_mul a b).
Proof.
  destruct b as [sb|sb| |sb mb eb]; try done. destruct sb; [done|]. intros Ha _. unfold f32_mul, SFmul.
  destruct a as [sa|sa| |sa ma ea]; try done; destruct sa; try done. by apply round_counter.
Qed.

Lemma f32_add_counter a b : f32_counter a -> f32_counter b -> f32_counter (f32_add a b).
Proof.
  unfold f32_add, SFadd. intros Ha Hb.
  destruct a as [sa|sa| |sa ma ea], b as [sb|sb| |sb mb eb]; try done; try destruct sa; try destruct sb; try done.
  cbn [cond_Zopp]. rewrite <- Pos2Z.inj_add. unfold binary_normalize, binary_round.
  by destruct (shl_align _ _ (fexp _ _ _)) as [mz ez]; apply round_counter.
Qed.

Lemma f32_counter_not_neg a : f32_counter a -> f32_lt a f32_zero = false.
Proof. unfold f32_lt, SFltb. destruct a as [s|s| |s m e]; try done; by destruct s. Qed.

Lemma f32_positive_gt a : f32_positive a -> f32_lt f32_zero a = true.
Proof. by destruct a as [s|s| |s m e]; try destruct s. Qed.

(** Counters are totally ordered: of two that differ one is less. *)
Lemma f32_counter_total a b :
  f32_counter a -> f32_counter b -> SFeqb a b = false -> f32_lt b a = negb (f32_lt a b).
Proof.
  unfold f32_lt, SFltb, SFeqb. intros Ha Hb.
  destruct a as [sa|sa| |sa ma ea], b as [sb|sb| |sb mb eb]; try done; try destruct sa; try destruct sb; try done. simpl.
  rewrite (Z.compare_antisym ea eb). destruct (ea ?= eb); simpl; [|done..].
  change (PosDef.Pos.compare_cont Eq) with Pos.compare. rewrite (Pos.compare_antisym ma mb). by destruct (ma ?= mb)%positive.
Qed.

Lemma f32_eqb_sym a b : SFeqb a b = SFeqb b a.
Proof.
  unfold SFeqb. destruct a as [sa|sa| |sa ma ea], b as [sb|sb| |sb mb eb]; try done; try destruct sa; try destruct sb; try done; simpl.
  all: rewrite (Z.compare_antisym ea eb); destruct (ea ?= eb); simpl; try done.
  all: change (PosDef.Pos.compare_cont Eq) with Pos.compare; rewrite (Pos.compare_antisym ma mb); by destruct (ma ?= mb)%positive.
Qed.

(** ** binary64 *)

Definition f64 : Type := spec_float.
Definition f64_mul : f64 -> f64 -> f64 := SFmul 53 1024.
Definition f64_of_Z (z : Z) : f64 := binary_normalize 53 1024 z 0 false.
Definition f64_ratio (num den : Z) : f64 := SFdiv 53 1024 (f64_of_Z num) (f64_of_Z den).
Definition f64_le (a b : f64) : bool := SFleb a b.

Definition f64_lt (a b : f64) : bool := SFltb a b.
(** The promotion of a [float] operand to [double]: exact. *)
Definition f64_of_f32 (x : f32) : f64 :=
  match x with
  | S754_finite s m e => binary_normalize 53 1024 (if s then Zneg m else Zpos m) e s
  | _ => x
  end.

Example f64_of_f32_ex : f64_of_f32 (f32_ratio 3 4) = f64_ratio 3 4.
Proof. reflexivity. Qed.

(** [static_cast<int64_t>(x)]: truncation, undefined when the value does not fit. *)
Definition f64_trunc (x : f64) : option Z :=
  match x with
  | S754_zero _ => Some 0
  | S754_finite s m e =>
      let q := Z.shiftl (Zpos m) e in Some (if s then - q else q)
  | _ => None
  end.
Definition f64_to_int64 (x : f64) : outcome Z :=
  match f64_trunc x with
  | Some z => if (- 2 ^ 63 <=? z) && (z <? 2 ^ 63) then Ok z else Undef "double does not fit int64_t"
  | None => Undef "double does not fit int64_t"
  end.

Example f64_trunc_ex : f64_to_int64 (f64_mul (f64_of_Z 10) (f64_ratio 8 10)) = Ok 8.
Proof. reflexivity. Qed.
