(* ===== verification/FloatRange.v ===== *)
(** * The range of floating-point results

    A positive [float] has a magnitude: the number of binary digits of its significand plus its
    exponent. Rounding moves a magnitude by at most one; conversions of integers, quotients
    and products of positive numbers of moderate magnitude are positive numbers again, neither
    zero nor infinite. *)
From S2P Require Import Prelude Float32.

(** A positive number whose magnitude lies between [lo] and [hi]. *)
Definition magnitude (lo hi : Z) (x : f32) : Prop :=
  exists m e, x = S754_finite false m e /\ lo <= Zdigits2 (Zpos m) + e <= hi.

Lemma magnitude_positive lo hi x : magnitude lo hi x -> f32_positive x.
Proof. by intros (m & e & -> & _). Qed.

(** ** Digits *)

Lemma digits_bounds m : 0 < m -> 0 < Zdigits2 m /\ 2 ^ (Zdigits2 m - 1) <= m < 2 ^ Zdigits2 m.
Proof.
  destruct m as [|p|p]; try done. intros _. split; [done|]. cbn [Zdigits2].
  assert (G : forall p, 2 ^ Zpos (digits2_pos p) = 2 * 2 ^ (Zpos (digits2_pos p) - 1)).
  { intros q. rewrite <- Z.pow_succ_r by lia. f_equal. lia. }
  induction p as [p IH|p IH|]; [| |done]; simpl digits2_pos; rewrite Pos2Z.inj_succ; rewrite Z.pow_succ_r by lia;
    replace (Z.succ (Zpos (digits2_pos p)) - 1) with (Zpos (digits2_pos p)) by lia; rewrite G in *; lia.
Qed.
Lemma digits_unique m d : 2 ^ (d - 1) <= m < 2 ^ d -> 0 < d -> Zdigits2 m = d.
Proof.
  intros Hm Hd. assert (0 < 2 ^ (d - 1)) by (apply Z.pow_pos_nonneg; lia). destruct (digits_bounds m ltac:(lia)) as [Hp Hb].
  destruct (Z.lt_trichotomy (Zdigits2 m) d) as [H1|[H1|H1]]; [|done|].
  - assert (2 ^ Zdigits2 m <= 2 ^ (d - 1)) by (apply Z.pow_le_mono_r; lia). lia.
  - assert (2 ^ d <= 2 ^ (Zdigits2 m - 1)) by (apply Z.pow_le_mono_r; lia). lia.
Qed.
(** The greatest number of [d] digits, plus one, has [d + 1] digits. *)
Lemma digits_rounded m m' d : 0 < d -> 2 ^ (d - 1) <= m < 2 ^ d -> m <= m' <= m + 1 ->
  (Zdigits2 m' = d /\ m' < 2 ^ d) \/ (Zdigits2 m' = d + 1 /\ m' = 2 ^ d).
Proof.
  intros Hd Hm Hm'. destruct (Z.lt_ge_cases m' (2 ^ d)) as [H|H]; [left; split; [apply digits_unique; lia|done]|right].
  assert (m' = 2 ^ d) as -> by lia. split; [|done]. apply digits_unique; [|lia]. replace (d + 1 - 1) with d by lia.
  split; [lia|]. apply Z.pow_lt_mono_r; lia.
Qed.

(** ** Rounding *)

Lemma shr_1_half r : 0 <= shr_m r -> shr_m (shr_1 r) = shr_m r / 2.
Proof.
  destruct r as [[|p|p] b1 b2]; try done. intros _. cbn [shr_m]. destruct p as [p|p|]; cbn [shr_1 shr_m]; [| |done].
  - rewrite Pos2Z.inj_xI. apply Z.div_unique with 1; lia.
  - rewrite Pos2Z.inj_xO. apply Z.div_unique with 0; lia.
Qed.
Lemma shr_div r e n : 0 <= shr_m r -> 0 <= n -> shr_m (shr r e n).1 = shr_m r / 2 ^ n /\ (shr r e n).2 = e + n.
Proof.
  intros Hr Hn. destruct n as [|p|p]; [by rewrite Z.div_1_r, Z.add_0_r| |lia]. simpl. split; [|done].
  clear Hn. revert r Hr. induction p as [p IH|p IH|]; intros r Hr; cbn [SpecFloat.iter_pos].
  - pose proof (shr_1_nonneg _ Hr) as H1. pose proof (IH _ H1) as E1.
    rewrite IH, E1, shr_1_half by (rewrite ?E1; try apply Z.div_pos; try lia; apply Z.pow_pos_nonneg; lia).
    rewrite !Z.div_div by (try apply Z.pow_nonzero; try apply Z.pow_pos_nonneg; lia). f_equal.
    rewrite Pos2Z.inj_xI. replace (2 * Zpos p + 1) with (1 + (Zpos p + Zpos p)) by lia. rewrite !Z.pow_add_r by lia. ring.
  - pose proof (IH _ Hr) as E1. rewrite IH, E1 by (rewrite E1; apply Z.div_pos; [lia|apply Z.pow_pos_nonneg; lia]).
    rewrite Z.div_div by (try apply Z.pow_nonzero; try apply Z.pow_pos_nonneg; lia). f_equal.
    replace (Zpos p~0) with (Zpos p + Zpos p) by lia. by rewrite Z.pow_add_r by lia.
  - by apply shr_1_half.
Qed.
Lemma shr_keep r e n : n <= 0 -> shr r e n = (r, e).
Proof. by destruct n. Qed.
Lemma round_bounds m l : m <= round_nearest_even m l <= m + 1.
Proof. unfold round_nearest_even. destruct l as [|[| |]]; [lia|destruct (Z.even m); lia|lia|lia]. Qed.

(** One shift to 24 digits, where the exponent is above the least one. *)
Lemma shr_fexp_digits m e l : 0 < m -> -125 <= Zdigits2 m + e ->
  let r := shr_fexp 24 128 m e l in
  exists d, 0 < d <= 24 /\ 2 ^ (d - 1) <= shr_m r.1 < 2 ^ d /\ d + r.2 = Zdigits2 m + e /\ (r.2 = e /\ shr_m r.1 = m \/ d = 24).
Proof.
  intros Hm Hd r. unfold r, shr_fexp. set (n := fexp 24 128 (Zdigits2 m + e) - e).
  assert (En : n = Zdigits2 m - 24) by (unfold n, fexp, emin; lia). destruct (digits_bounds m Hm) as [Hp Hb].
  assert (Em : shr_m (shr_record_of_loc m l) = m) by (by destruct l as [|[| |]]).
  destruct (Z.le_gt_cases n 0) as [Hn|Hn].
  - rewrite shr_keep by done. cbn [fst snd]. rewrite Em. exists (Zdigits2 m). split_and!; lia.
  - destruct (shr_div (shr_record_of_loc m l) e n ltac:(lia) ltac:(lia)) as [E1 E2]. rewrite E1, E2, Em. exists 24. split_and!; try lia.
    + apply Z.div_le_lower_bound; [apply Z.pow_pos_nonneg; lia|]. rewrite <- Z.pow_add_r by lia. replace (n + (24 - 1)) with (Zdigits2 m - 1) by lia. lia.
    + apply Z.div_lt_upper_bound; [apply Z.pow_pos_nonneg; lia|]. rewrite <- Z.pow_add_r by lia. replace (n + 24) with (Zdigits2 m) by lia. lia.
Qed.

Lemma round_magnitude m e l : 0 < m -> -125 <= Zdigits2 m + e <= 100 ->
  magnitude (Zdigits2 m + e) (Zdigits2 m + e + 1) (binary_round_aux 24 128 false m e l).
Proof.
  intros Hm HD. unfold binary_round_aux. destruct (shr_fexp_digits m e l Hm ltac:(lia)) as (d & Hd & Hb & Ed & _). cbv zeta in *.
  destruct (shr_fexp 24 128 m e l) as [r1 e1]. cbn [fst snd] in *. set (m1 := round_nearest_even _ _).
  pose proof (round_bounds (shr_m r1) (loc_of_shr_record r1)) as Hr. fold m1 in Hr. pose proof (Z.pow_pos_nonneg 2 (d - 1) ltac:(lia) ltac:(lia)).
  assert (Hd1 : Zdigits2 m1 = d \/ Zdigits2 m1 = d + 1) by (destruct (digits_rounded (shr_m r1) m1 d ltac:(lia) Hb Hr) as [[-> _]|[-> _]]; auto).
  destruct (shr_fexp_digits m1 e1 loc_Exact ltac:(lia) ltac:(lia)) as (d2 & Hd2 & Hb2 & Ed2 & _). cbv zeta in *.
  destruct (shr_fexp 24 128 m1 e1 loc_Exact) as [r2 e2]. cbn [fst snd] in *. pose proof (Z.pow_pos_nonneg 2 (d2 - 1) ltac:(lia) ltac:(lia)).
  destruct (shr_m r2) as [|p|p] eqn:Em; [lia| |lia]. rewrite (proj2 (Z.leb_le e2 (128 - 24))) by lia.
  exists p, e2. split; [done|]. rewrite (digits_unique (Zpos p) d2) by lia. lia.
Qed.

(** ** Operations *)

Lemma shift_digits m d : Zdigits2 (Zpos (Pos.iter xO m d)) = Zdigits2 (Zpos m) + Zpos d.
Proof.
  induction d as [|d IH] using Pos.peano_ind; [cbn; lia|]. rewrite Pos.iter_succ. cbn [Zdigits2 digits2_pos] in *. lia.
Qed.

Lemma of_Z_magnitude z : 0 < z < 2 ^ 64 -> magnitude (Zdigits2 z) (Zdigits2 z + 1) (f32_of_Z z).
Proof.
  intros Hz. destruct z as [|p|p]; try lia. unfold f32_of_Z, binary_normalize, binary_round.
  assert (Hd : 0 < Zdigits2 (Zpos p) <= 64).
  { destruct (digits_bounds (Zpos p) ltac:(lia)) as [H1 H2]. split; [done|]. destruct (Z.le_gt_cases (Zdigits2 (Zpos p)) 64); [done|].
    assert (2 ^ 64 <= 2 ^ (Zdigits2 (Zpos p) - 1)) by (apply Z.pow_le_mono_r; lia). lia. }
  destruct (shl_align p 0 _) as [mz ez] eqn:Ea.
  assert (E : Zdigits2 (Zpos mz) + ez = Zdigits2 (Zpos p)).
  { unfold shl_align in Ea. destruct (_ - 0) as [|q|q] eqn:En; injection Ea as <- <-; [lia|lia|]. rewrite shift_digits. lia. }
  rewrite <- E. apply round_magnitude; lia.
Qed.

Lemma product_digits a b : 0 < a -> 0 < b -> Zdigits2 a + Zdigits2 b - 1 <= Zdigits2 (a * b) <= Zdigits2 a + Zdigits2 b.
Proof.
  intros Ha Hb. destruct (digits_bounds a Ha) as [Ha0 Ha1], (digits_bounds b Hb) as [Hb0 Hb1], (digits_bounds (a * b) ltac:(nia)) as [H0 H1].
  assert (L : 2 ^ (Zdigits2 a + Zdigits2 b - 2) <= a * b).
  { replace (Zdigits2 a + Zdigits2 b - 2) with ((Zdigits2 a - 1) + (Zdigits2 b - 1)) by lia. rewrite Z.pow_add_r by lia. apply Z.mul_le_mono_nonneg; try lia; apply Z.pow_nonneg; lia. }
  assert (U : a * b < 2 ^ (Zdigits2 a + Zdigits2 b)) by (rewrite Z.pow_add_r by lia; apply Z.mul_lt_mono_nonneg; lia).
  split.
  - destruct (Z.le_gt_cases (Zdigits2 a + Zdigits2 b - 1) (Zdigits2 (a * b))); [done|].
    assert (2 ^ Zdigits2 (a * b) <= 2 ^ (Zdigits2 a + Zdigits2 b - 2)) by (apply Z.pow_le_mono_r; lia). lia.
  - destruct (Z.le_gt_cases (Zdigits2 (a * b)) (Zdigits2 a + Zdigits2 b)); [done|].
    assert (2 ^ (Zdigits2 a + Zdigits2 b) <= 2 ^ (Zdigits2 (a * b) - 1)) by (apply Z.pow_le_mono_r; lia). lia.
Qed.

Lemma mul_magnitude la ha lb hb x y : magnitude la ha x -> magnitude lb hb y -> -124 <= la + lb -> ha + hb <= 100 ->
  magnitude (la + lb - 1) (ha + hb + 1) (f32_mul x y).
Proof.
  intros (m & e & -> & Hx) (m' & e' & -> & Hy) Hl Hh. unfold f32_mul, SFmul. simpl xorb.
  pose proof (product_digits (Zpos m) (Zpos m') ltac:(lia) ltac:(lia)) as Hp. change (Zpos m * Zpos m') with (Zpos (m * m')) in Hp.
  destruct (round_magnitude (Zpos (m * m')) (e + e') loc_Exact ltac:(lia) ltac:(lia)) as (p & f & E & Hf). exists p, f. split; [exact E|]. lia.
Qed.

Lemma shiftl_digits m s : 0 < m -> 0 <= s -> 0 < Z.shiftl m s /\ Zdigits2 (Z.shiftl m s) = Zdigits2 m + s.
Proof.
  intros Hm Hs. destruct (digits_bounds m Hm) as [Hp Hb]. rewrite Z.shiftl_mul_pow2 by done. pose proof (Z.pow_pos_nonneg 2 s ltac:(lia) Hs).
  split; [nia|]. apply digits_unique; [|lia]. replace (Zdigits2 m + s - 1) with (Zdigits2 m - 1 + s) by lia. rewrite !Z.pow_add_r by lia. nia.
Qed.

Lemma quotient_digits a b : 0 < a -> 0 < b -> Zdigits2 b < Zdigits2 a ->
  0 < a / b /\ Zdigits2 a - Zdigits2 b <= Zdigits2 (a / b) <= Zdigits2 a - Zdigits2 b + 1.
Proof.
  intros Ha Hb Hd. destruct (digits_bounds a Ha) as [Ha0 Ha1], (digits_bounds b Hb) as [Hb0 Hb1].
  assert (Hlt : b < a) by (assert (2 ^ Zdigits2 b <= 2 ^ (Zdigits2 a - 1)) by (apply Z.pow_le_mono_r; lia); lia).
  assert (Hq : 0 < a / b) by (apply Z.div_str_pos; lia). split; [done|]. destruct (digits_bounds (a / b) Hq) as [Hq0 Hq1].
  pose proof (Z.mul_div_le a b Hb). pose proof (Z.mul_succ_div_gt a b Hb).
  pose proof (product_digits b (a / b) Hb Hq) as Hp.
  assert (Hm : forall x y, 0 < x <= y -> Zdigits2 x <= Zdigits2 y).
  { intros x y Hxy. destruct (digits_bounds x ltac:(lia)) as [Hx0 Hx1], (digits_bounds y ltac:(lia)) as [Hy0 Hy1].
    destruct (Z.le_gt_cases (Zdigits2 x) (Zdigits2 y)); [done|]. assert (2 ^ Zdigits2 y <= 2 ^ (Zdigits2 x - 1)) by (apply Z.pow_le_mono_r; lia). lia. }
  split.
  - destruct (Z.le_gt_cases (Zdigits2 a - Zdigits2 b) (Zdigits2 (a / b))) as [|Hlt']; [done|].
    assert (b * (a / b + 1) <= 2 ^ Zdigits2 b * 2 ^ Zdigits2 (a / b)) by nia. rewrite <- Z.pow_add_r in * by lia.
    assert (2 ^ (Zdigits2 b + Zdigits2 (a / b)) <= 2 ^ (Zdigits2 a - 1)) by (apply Z.pow_le_mono_r; lia). lia.
  - pose proof (Hm (b * (a / b)) a ltac:(nia)). lia.
Qed.

Lemma div_magnitude la ha lb hb x y : magnitude la ha x -> magnitude lb hb y -> -125 <= la - hb -> ha - lb <= 99 ->
  magnitude (la - hb) (ha - lb + 2) (f32_div x y).
Proof.
  intros (m & e & -> & Hx) (m' & e' & -> & Hy) Hl Hh. unfold f32_div, SFdiv, SFdiv_core_binary. cbv zeta.
  set (D := Zdigits2 (Zpos m) + e - (Zdigits2 (Zpos m') + e')). set (ez := Z.min (fexp 24 128 D) (e - e')). set (s := e - e' - ez).
  assert (Hez : ez <= D - 24) by (unfold ez, fexp, emin, D; lia). assert (Hs : 0 <= s) by (unfold s, ez; lia).
  set (num := match s with Z0 => Zpos m | Zpos _ => Z.shiftl (Zpos m) s | Zneg _ => 0 end).
  assert (En : num = Z.shiftl (Zpos m) s) by (unfold num; destruct s; [done|done|lia]).
  destruct (shiftl_digits (Zpos m) s ltac:(lia) Hs) as [Hnum Ed]. rewrite <- En in *.
  destruct (quotient_digits num (Zpos m') Hnum ltac:(lia) ltac:(unfold s, D in *; lia)) as [Hq Hqd].
  destruct (Z.div_eucl num (Zpos m')) as [q r] eqn:Ed2. assert (Eq : q = num / Zpos m') by (unfold Z.div; by rewrite Ed2). rewrite <- Eq in *.
  destruct (round_magnitude q ez (new_location (Zpos m') r) Hq ltac:(unfold s, D in *; lia)) as (p & f & E & Hf).
  exists p, f. split; [exact E|]. unfold s, D in *. lia.
Qed.

(** A count over a size, both positive integers below [2 ^ 31]. *)
Lemma count_share_positive c n : 0 < c < 2 ^ 31 -> 0 < n < 2 ^ 31 -> f32_positive (f32_mul (f32_of_Z c) (f32_div f32_one (f32_of_Z n))).
Proof.
  intros Hc Hn. assert (Hd : forall z, 0 < z < 2 ^ 31 -> magnitude 1 32 (f32_of_Z z)).
  { intros z Hz. destruct (of_Z_magnitude z ltac:(lia)) as (m & e & E & Hm). exists m, e. split; [done|]. destruct (digits_bounds z ltac:(lia)) as [H0 H1].
    destruct (Z.le_gt_cases (Zdigits2 z) 31); [lia|]. assert (2 ^ 31 <= 2 ^ (Zdigits2 z - 1)) by (apply Z.pow_le_mono_r; lia). lia. }
  eapply magnitude_positive, (mul_magnitude 1 32 (1 - 32) (32 - 1 + 2)); [by apply Hd| |lia|lia].
  apply (div_magnitude 1 32 1 32); [apply Hd; lia|by apply Hd|lia|lia].
Qed.
