(* ===== verification/EcHash.v ===== *)
(** * Cache-set hashing: [include/ecache/ec_hash.h]

    The three helpers that the cache and its kernels share: the set index of a
    key, the tag stored for a key and the key rebuilt from a stored tag. They
    are parametric in the key type [K], the tag type [T] and the width [sw] of
    the size type ([uint64_t] on the host, [uint32_t] in [CacheData]). *)
From S2P Require Import Prelude.

Section Hash.
Variables (K T : int_type) (sw : Z).

(** [embed_cache_hash_set_idx]: [uint32_t(UKeyT(key) % num_sets)]. *)
Definition embed_cache_hash_set_idx (key num_sets : Z) : Z :=
  wrapu 32 (wrapu (width K) key mod num_sets).

(** [embed_cache_construct_tag]: [TagT(UKeyT(key) / num_sets)]. *)
Definition embed_cache_construct_tag (key num_sets : Z) : Z :=
  conv T (wrapu (width K) key / num_sets).

(** [embed_cache_construct_key]: [KeyT(UKeyT(tag) * num_sets + set_idx)], the
    arithmetic done in the wider of [UKeyT] and the size type. *)
Definition embed_cache_construct_key (tag set_idx num_sets : Z) : Z :=
  conv K (wrapu (Z.max (width K) sw) (wrapu (width K) tag * num_sets + set_idx)).

Context (HK : 0 < width K) (HT : 0 < width T).

Lemma construct_key_conv tag set_idx ns :
  embed_cache_construct_key tag set_idx ns = conv K (wrapu (width K) tag * ns + set_idx).
Proof.
  unfold embed_cache_construct_key. apply conv_mod_eq; [done|].
  unfold wrapu at 1. rewrite mod_pow2_mod by lia. done.
Qed.

Lemma hash_set_idx_eq key ns :
  0 < ns <= 2 ^ 32 -> embed_cache_hash_set_idx key ns = wrapu (width K) key mod ns.
Proof.
  intros Hn. unfold embed_cache_hash_set_idx. apply wrapu_small.
  pose proof (Z.mod_pos_bound (wrapu (width K) key) ns). unfold in_u. lia.
Qed.

Lemma hash_set_idx_range key ns :
  0 < ns <= 2 ^ 32 -> 0 <= embed_cache_hash_set_idx key ns < ns.
Proof. intros. rewrite hash_set_idx_eq by lia. apply Z.mod_pos_bound. lia. Qed.

(** The tag of a key survives the trip through [T]. *)
Definition tag_fits (key ns : Z) : Prop :=
  width K <= width T \/ in_range T (wrapu (width K) key / ns).

Lemma construct_tag_wrapu key ns :
  0 < ns -> tag_fits key ns ->
  wrapu (width K) (embed_cache_construct_tag key ns) = wrapu (width K) key / ns.
Proof.
  intros Hn Hfit. unfold embed_cache_construct_tag.
  pose proof (wrapu_range (width K) key ltac:(lia)) as [Hlo Hhi].
  assert (Hq : in_u (width K) (wrapu (width K) key / ns)).
  { split; [apply Z.div_pos; lia|]. eapply Z.le_lt_trans; [|exact Hhi].
    apply Z.div_le_upper_bound; nia. }
  destruct Hfit as [Hw|Hr].
  - unfold wrapu at 1. rewrite <- (mod_pow2_mod _ (width K) (width T)) by lia.
    fold (wrapu (width T) (conv T (wrapu (width K) key / ns))).
    rewrite wrapu_conv by done. unfold wrapu at 1. rewrite mod_pow2_mod by lia. by apply wrapu_small.
  - rewrite conv_small by done. by apply wrapu_small.
Qed.

Lemma echash_roundtrip_lemma key ns :
  in_range K key -> 0 < ns <= 2 ^ 32 -> tag_fits key ns ->
  embed_cache_construct_key (embed_cache_construct_tag key ns)
    (embed_cache_hash_set_idx key ns) ns = key.
Proof.
  intros Hk Hn Hfit. rewrite construct_key_conv, construct_tag_wrapu, hash_set_idx_eq by (lia || done).
  rewrite (Z.mul_comm _ ns), <- Z.div_mod by lia.
  rewrite <- (conv_small K key) at 2 by done. apply conv_mod_eq; [done|].
  unfold wrapu. by rewrite Zmod_mod.
Qed.

(** A key the cache may hold: a value of its type whose tag fits the tag type
    and that no free slot (a slot holding [sentinel]) is mistaken for. *)
Definition storable (sentinel ns key : Z) : Prop :=
  in_range K key /\ tag_fits key ns /\
  embed_cache_construct_key sentinel (embed_cache_hash_set_idx key ns) ns <> key.

Lemma construct_tag_not_sentinel sentinel ns key :
  0 < ns <= 2 ^ 32 -> storable sentinel ns key ->
  embed_cache_construct_tag key ns <> sentinel.
Proof.
  intros Hn (Hk & Hfit & Hs) E. apply Hs. rewrite <- E. by apply echash_roundtrip_lemma.
Qed.

(** Two storable keys of the same set with the same tag are the same key. *)
Lemma construct_tag_inj sentinel ns k1 k2 :
  0 < ns <= 2 ^ 32 -> storable sentinel ns k1 -> storable sentinel ns k2 ->
  embed_cache_hash_set_idx k1 ns = embed_cache_hash_set_idx k2 ns ->
  embed_cache_construct_tag k1 ns = embed_cache_construct_tag k2 ns -> k1 = k2.
Proof.
  intros Hn (H1 & F1 & _) (H2 & F2 & _) Es Et.
  rewrite <- (echash_roundtrip_lemma k1 ns), <- (echash_roundtrip_lemma k2 ns) by done. by rewrite Es, Et.
Qed.

(** With signed types and the default sentinel [TagT(-1)], the key rebuilt
    from a free slot of set [set] is [set - num_sets]: negative. *)
Lemma construct_key_sentinel set ns :
  is_signed K = true -> 0 < ns <= 2 ^ (width K - 1) -> 0 <= set < ns ->
  embed_cache_construct_key (-1) set ns = set - ns.
Proof.
  intros HsK Hn Hset. rewrite construct_key_conv.
  rewrite <- (conv_small K (set - ns)); [|done|unfold in_range; rewrite HsK; unfold in_s; lia].
  apply conv_mod_eq; [done|]. unfold wrapu.
  rewrite <- Zplus_mod_idemp_l, Zmult_mod_idemp_l, Zplus_mod_idemp_l. f_equal. lia.
Qed.

Lemma nonneg_storable ns key :
  is_signed K = true -> is_signed T = true -> 0 < ns <= 2 ^ 32 -> ns <= 2 ^ (width K - 1) ->
  0 <= key < 2 ^ (width K - 1) -> key / ns < 2 ^ (width T - 1) ->
  storable (-1) ns key.
Proof.
  intros HsK HsT Hn Hn' Hk Ht.
  assert (Hu : wrapu (width K) key = key).
  { apply wrapu_small. split; [lia|]. rewrite (pow2_half (width K)) by done. lia. }
  split_and!.
  - unfold in_range. rewrite HsK. unfold in_s. lia.
  - right. rewrite Hu. unfold in_range. rewrite HsT. unfold in_s.
    pose proof (Z.div_pos key ns). pose proof (pow2_pos (width T - 1)). lia.
  - pose proof (hash_set_idx_range key ns Hn).
    rewrite construct_key_sentinel by (done || lia). lia.
Qed.

End Hash.

(** Rebuilding a key from its stored tag and set index gives back the key:
    for every value of the key type whose tag fits the tag type, signed or not,
    [construct_key(construct_tag(key), hash(key)) == key]. *)
Theorem echash_roundtrip (K T : int_type) (sw key ns : Z) :
  0 < width K -> 0 < width T -> in_range K key -> 0 < ns <= 2 ^ 32 -> tag_fits K T key ns ->
  embed_cache_construct_key K sw (embed_cache_construct_tag K T key ns)
    (embed_cache_hash_set_idx K key ns) ns = key.
Proof. intros. by apply echash_roundtrip_lemma. Qed.

Lemma echash_roundtrip_witness :
  embed_cache_construct_key int64_t 32
    (embed_cache_construct_tag int64_t int64_t (-9223372036854775807) 1000)
    (embed_cache_hash_set_idx int64_t (-9223372036854775807) 1000) 1000 = -9223372036854775807.
Proof.
  apply (echash_roundtrip int64_t int64_t 32 (-9223372036854775807) 1000);
    [done|done|split; vm_compute; congruence|lia|by left].
Defined.

(** A free slot can be taken for a key. With 64-bit signed keys and tags, the
    default sentinel [-1] and a power-of-two number of sets, every key from
    [-num_sets] to [-1] is "found" in a slot that holds only the sentinel,
    although the tag the cache would store for it is a different one (for more
    than one set); non-negative keys with a fitting tag never are. *)
Theorem free_slot_alias (sw p : Z) :
  0 < p <= 32 ->
  (forall key, - 2 ^ p <= key < 0 ->
     embed_cache_construct_key int64_t sw (-1) (embed_cache_hash_set_idx int64_t key (2 ^ p)) (2 ^ p) = key
     /\ embed_cache_construct_tag int64_t int64_t key (2 ^ p) <> -1)
  /\ (forall key, 0 <= key < 2 ^ 63 ->
     embed_cache_construct_key int64_t sw (-1) (embed_cache_hash_set_idx int64_t key (2 ^ p)) (2 ^ p) <> key).
Proof.
  intros Hp.
  assert (Hns : 2 <= 2 ^ p <= 2 ^ 32).
  { split; [apply (Z.pow_le_mono_r 2 1); lia|apply Z.pow_le_mono_r; lia]. }
  split.
  - intros key Hk.
    assert (Hu : wrapu 64 key = 2 ^ 64 + key).
    { unfold wrapu. rewrite <- (Z.mod_add key 1) by done. rewrite Z.mod_small; lia. }
    assert (Hmod : wrapu 64 key mod 2 ^ p = 2 ^ p + key).
    { rewrite Hu. replace (2 ^ 64 + key) with (2 ^ p + key + (2 ^ (64 - p) - 1) * 2 ^ p).
      - rewrite Z.mod_add by lia. apply Z.mod_small. lia.
      - rewrite Z.mul_sub_distr_r, <- Z.pow_add_r by lia. replace (64 - p + p) with 64 by lia. lia. }
    split.
    + rewrite construct_key_sentinel; simpl width; [|done|done|lia|].
      * rewrite hash_set_idx_eq by lia. simpl width. rewrite Hmod. lia.
      * apply hash_set_idx_range. lia.
    + unfold embed_cache_construct_tag. simpl width. rewrite Hu.
      assert (0 <= (2 ^ 64 + key) / 2 ^ p < 2 ^ 63).
      { split; [apply Z.div_pos; lia|]. apply Z.div_lt_upper_bound; nia. }
      rewrite conv_small; [lia|done|]. split; simpl width; lia.
  - intros key Hk.
    apply (nonneg_storable int64_t int64_t sw); simpl width; try done; try lia.
    apply Z.div_lt_upper_bound; nia.
Qed.

Lemma free_slot_alias_witness :
  embed_cache_construct_key int64_t 32 (-1) (embed_cache_hash_set_idx int64_t (-1) (2 ^ 10)) (2 ^ 10) = -1.
Proof. apply (free_slot_alias 32 10 ltac:(lia)). lia. Defined.
