(* ===== verification/SetAssoc.v ===== *)
(** * The set-associative cache base class: [include/ecache/ec_set_associative.h]

    [EmbedCacheSA<IndexT, TagT>]: how many sets fit in the configured budget,
    how the two memory pools are sized and carved up, [init] with its error
    paths, the destructor, the custom-flow lock and the lookup contexts.
    Addresses and sizes are [size_t]/pointers, [Z] with 64-bit wrap-around
    where the code multiplies configuration values. *)
From S2P Require Import Prelude EcHash.

(** ** Error codes of [embed_cache.h] *)
Definition ECERROR_SUCCESS : Z := 0.
Definition ECERROR_INVALID_ARGUMENT : Z := 1.
Definition ECERROR_MEMORY_ALLOCATION : Z := 2.
Definition ECERROR_CUDA_ERROR : Z := 3.
Definition ECERROR_FREE_ERROR : Z := 4.
Definition ECERROR_NOT_IMPLEMENTED : Z := 5.
Definition ECERROR_STALE_MODIFY_CONTEXT : Z := 6.
Definition ECERROR_BAD_ALLOCATOR : Z := 7.
Definition ECERROR_BAD_LOGGER : Z := 8.
Definition ECERROR_MEMORY_ALLOCATED_TO_CACHE_TOO_SMALL : Z := 9.
Definition ECERROR_BAD_KEY_TAG_CONFIG : Z := 10.

Definition NUM_WAYS : Z := 8.

(** [CACHE_ALIGN(x, a)]: [(x + (a-1)) & ~(a-1)]. *)
Definition CACHE_ALIGN (x a : Z) : Z := Z.land (wrapu 64 (x + (a - 1))) (Z.lnot (a - 1)).

Record CacheConfig := {
  cache_sz_in_bytes : Z;
  embed_width_in_bytes : Z;
  num_tables : Z;
  allocate_data_on_host : bool;
  sentinel_key : Z
}.

Record CacheAllocationSize := {
  device_allocation_size : Z;
  host_allocation_size : Z
}.

(** [std::align(alignment, size, p, space)]: the aligned pointer, if it fits. *)
Definition std_align (alignment size p space : Z) : option Z :=
  let p' := p + (- p) mod alignment in
  if size + (p' - p) <=? space then Some p' else None.

(** [allocate_in_pool(p, space, sz, align)]: the pointer handed out (0 is
    [nullptr]) and the advanced pool pointer. *)
Definition allocate_in_pool (p space sz align : Z) : Z * Z :=
  if 0 <? align then
    match std_align align sz p space with
    | Some p' => (p', p' + sz)
    | None => (0, p)
    end
  else if sz <=? space then (p, p + sz) else (0, p).

Section Sizes.
Variable tag_bytes : Z.           (* sizeof(TagT) *)
Variable cfg : CacheConfig.
(** The virtual hooks of the derived classes. *)
Variable get_counter_size_per_set : Z.
Variables get_extra_device_alloc_size get_extra_host_alloc_size : Z -> Z -> Z.

Definition get_tag_size_per_set : Z := CACHE_ALIGN (tag_bytes * NUM_WAYS) 16.
Definition get_entry_size_per_set : Z :=
  CACHE_ALIGN (wrapu 64 (embed_width_in_bytes cfg * NUM_WAYS)) 16.

Definition calc_num_sets : outcome Z :=
  let sz_per_set := wrapu 64 (get_tag_size_per_set + get_entry_size_per_set + get_counter_size_per_set) in
  if (num_tables cfg =? 0) || (sz_per_set =? 0) then Undef "division by zero"
  else Ok (cache_sz_in_bytes cfg / num_tables cfg / sz_per_set).

(** The returned code and, on success, the value of the out parameter. *)
Definition calc_allocation_size : outcome (Z * option CacheAllocationSize) :=
  let! num_sets := calc_num_sets in
  if num_sets =? 0 then Ok (ECERROR_MEMORY_ALLOCATED_TO_CACHE_TOO_SMALL, None)
  else
    let sz_host_per_set :=
      get_tag_size_per_set + (if allocate_data_on_host cfg then get_entry_size_per_set else 0) in
    let sz_device_per_set :=
      get_tag_size_per_set + (if allocate_data_on_host cfg then 0 else get_entry_size_per_set) in
    Ok (ECERROR_SUCCESS,
        Some {| device_allocation_size :=
                  wrapu 64 (num_sets * sz_device_per_set * num_tables cfg
                            + get_extra_device_alloc_size (num_tables cfg) num_sets);
                host_allocation_size :=
                  wrapu 64 (num_sets * sz_host_per_set * num_tables cfg
                            + get_extra_host_alloc_size (num_tables cfg) num_sets) |}).
End Sizes.

(** ** [init] and the destructor *)

Inductive alloc_event :=
  | DeviceAlloc (addr sz : Z) | HostAlloc (addr sz : Z)
  | DeviceFree (addr : Z) | HostFree (addr : Z).

Record sa_state := {
  num_sets_ : Z;
  h_pool_ : Z;
  d_pool_ : Z;
  cache_ : Z;
  d_tags_ : Z;
  h_tags_ : Z;
  h_counters_ : Z
}.

(** The constructor: every pointer null, no sets. *)
Definition sa_construct : sa_state :=
  {| num_sets_ := 0; h_pool_ := 0; d_pool_ := 0; cache_ := 0; d_tags_ := 0; h_tags_ := 0; h_counters_ := 0 |}.

(** What the environment answers: the allocator's results (an error code or an
    address) and whether the two CUDA calls of [init] succeed. *)
Record init_env := {
  allocator_present : bool;
  logger_present : bool;
  device_allocate : Z -> Z + Z;
  host_allocate : Z -> Z + Z;
  fill_tags_ok : bool;
  stream_sync_ok : bool
}.

Section Init.
Variables (K T : int_type) (cfg : CacheConfig) (env : init_env).

Definition tag_bytes_of : Z := width T / 8.
Definition CounterT_bytes : Z := 4.

(** [CacheSAHostModify::get_extra_host_alloc_size]: the float counters. *)
Definition counters_bytes (tables sets : Z) : Z := wrapu 64 (tables * sets * NUM_WAYS * CounterT_bytes).
Definition no_extra (tables sets : Z) : Z := 0.

Definition hm_calc_num_sets := calc_num_sets tag_bytes_of cfg 0.
Definition hm_calc_allocation_size :=
  calc_allocation_size tag_bytes_of cfg 0 no_extra counters_bytes.

(** [check_tag_key_config]: the only run-time failure for integer types is a
    signedness mismatch (the last branch only logs a warning). *)
Definition check_tag_key_config : bool := Bool.eqb (is_signed T) (is_signed K).

Definition tag_size (sets : Z) : Z := get_tag_size_per_set tag_bytes_of * sets * num_tables cfg.
Definition data_size (sets : Z) : Z := get_entry_size_per_set cfg * sets * num_tables cfg.

(** The carving of the pools, first part: the row storage (in the host pool
    when the configuration says so) and the device tags. Returns the state and
    the advanced host-pool pointer. *)
Definition carve_device (s : sa_state) (alloc : CacheAllocationSize) : sa_state * Z :=
  let sets := num_sets_ s in
  let pd := d_pool_ s in
  let ed := pd + device_allocation_size alloc in
  let ph := h_pool_ s in
  let eh := ph + host_allocation_size alloc in
  let '(cache, pd, ph) :=
    if allocate_data_on_host cfg
    then let '(c, ph) := allocate_in_pool ph (eh - ph) (data_size sets) 16 in (c, pd, ph)
    else let '(c, pd) := allocate_in_pool pd (ed - pd) (data_size sets) 16 in (c, pd, ph) in
  let '(dt, _) := allocate_in_pool pd (ed - pd) (tag_size sets) 16 in
  ({| num_sets_ := sets; h_pool_ := h_pool_ s; d_pool_ := d_pool_ s;
      cache_ := cache; d_tags_ := dt; h_tags_ := h_tags_ s; h_counters_ := h_counters_ s |}, ph).

(** Second part: the host tags, filled with the sentinel, and the counters of
    [CacheSAHostModify::init_extras_host], filled with 0. A failed carve gives
    a null pointer, which the fills would write through. *)
Definition carve_host (s : sa_state) (alloc : CacheAllocationSize) (ph : Z) : outcome sa_state :=
  let sets := num_sets_ s in
  let eh := h_pool_ s + host_allocation_size alloc in
  let '(ht, ph) := allocate_in_pool ph (eh - ph) (tag_size sets) 16 in
  if ht =? 0 then Undef "std::fill of h_tags_ through nullptr"
  else
    let '(ctr, _) :=
      allocate_in_pool ph (eh - ph) (CounterT_bytes * num_tables cfg * sets * NUM_WAYS) 16 in
    if ctr =? 0 then Undef "std::fill of h_counters_ through nullptr"
    else Ok {| num_sets_ := sets; h_pool_ := h_pool_ s; d_pool_ := d_pool_ s;
               cache_ := cache_ s; d_tags_ := d_tags_ s; h_tags_ := ht; h_counters_ := ctr |}.

(** The handler of [init]'s [catch]: free what was allocated, return the code. *)
Definition init_catch (s : sa_state) (log : list alloc_event) (err : Z)
  : Z * sa_state * list alloc_event :=
  let log := if h_pool_ s =? 0 then log else log ++ [HostFree (h_pool_ s)] in
  let log := if d_pool_ s =? 0 then log else log ++ [DeviceFree (d_pool_ s)] in
  (err, s, log).

Definition set_num_sets (s : sa_state) (n : Z) : sa_state :=
  {| num_sets_ := n; h_pool_ := h_pool_ s; d_pool_ := d_pool_ s; cache_ := cache_ s;
     d_tags_ := d_tags_ s; h_tags_ := h_tags_ s; h_counters_ := h_counters_ s |}.
Definition set_d_pool (s : sa_state) (p : Z) : sa_state :=
  {| num_sets_ := num_sets_ s; h_pool_ := h_pool_ s; d_pool_ := p; cache_ := cache_ s;
     d_tags_ := d_tags_ s; h_tags_ := h_tags_ s; h_counters_ := h_counters_ s |}.
Definition set_h_pool (s : sa_state) (p : Z) : sa_state :=
  {| num_sets_ := num_sets_ s; h_pool_ := p; d_pool_ := d_pool_ s; cache_ := cache_ s;
     d_tags_ := d_tags_ s; h_tags_ := h_tags_ s; h_counters_ := h_counters_ s |}.

(** [init()]: the returned error code, the object's new state and the
    allocator calls made, in order. *)
Definition init (s : sa_state) : outcome (Z * sa_state * list alloc_event) :=
  if negb (allocator_present env) then
    if (h_pool_ s =? 0) && (d_pool_ s =? 0) then Ok (ECERROR_BAD_ALLOCATOR, s, [])
    else Undef "call through a null allocator"
  else if negb (logger_present env) then Ok (init_catch s [] ECERROR_BAD_LOGGER)
  else
    let! sized := hm_calc_allocation_size in
    let! sets := hm_calc_num_sets in
    let s := set_num_sets s sets in
    let alloc := default {| device_allocation_size := 0; host_allocation_size := 0 |} sized.2 in
    if sets =? 0 then Ok (init_catch s [] ECERROR_MEMORY_ALLOCATED_TO_CACHE_TOO_SMALL)
    else if negb check_tag_key_config then Ok (init_catch s [] ECERROR_BAD_KEY_TAG_CONFIG)
    else match device_allocate env (device_allocation_size alloc) with
    | inl err => Ok (init_catch s [] err)
    | inr dp =>
      let s := set_d_pool s dp in
      let log := [DeviceAlloc dp (device_allocation_size alloc)] in
      match host_allocate env (host_allocation_size alloc) with
      | inl err => Ok (init_catch s log err)
      | inr hp =>
        let s := set_h_pool s hp in
        let log := log ++ [HostAlloc hp (host_allocation_size alloc)] in
        let '(s, ph) := carve_device s alloc in
        if negb (fill_tags_ok env) then Ok (init_catch s log ECERROR_CUDA_ERROR)
        else if negb (stream_sync_ok env) then Ok (init_catch s log ECERROR_CUDA_ERROR)
        else
          let! s := carve_host s alloc ph in
          Ok (ECERROR_SUCCESS, s, log)
      end
    end.

(** [~EmbedCacheSA()]: both pools are freed unconditionally. *)
Definition sa_destroy (s : sa_state) : list alloc_event := [HostFree (h_pool_ s); DeviceFree (d_pool_ s)].
End Init.

(** ** Custom flows *)

(** [custom_flow_lock_] is one [std::shared_lock] object of the cache over
    [custom_flow_mutex_]: [lock()] on an object that already owns the mutex
    throws [std::system_error] (resource deadlock), and so does [unlock()] on
    one that does not. *)
Record flow_lock := { flow_owned : bool; writer_active : bool }.

(** [None]: the caller blocks until the writer releases the mutex. *)
Definition start_custom_flow (l : flow_lock) : option (outcome flow_lock) :=
  if flow_owned l then Some (Throw "resource deadlock would occur")
  else if writer_active l then None
  else Some (Ok {| flow_owned := true; writer_active := false |}).

Definition end_custom_flow (l : flow_lock) : outcome flow_lock :=
  if flow_owned l then Ok {| flow_owned := false; writer_active := writer_active l |}
  else Throw "operation not permitted".

(** [WriteLock lock(custom_flow_mutex_)] in [modify]. *)
Definition modify_lock (l : flow_lock) : option flow_lock :=
  if flow_owned l || writer_active l then None
  else Some {| flow_owned := false; writer_active := true |}.

(** The gather of [lookup_sort_gather] once the buffer is large enough:
    [gather_ok] is whether [call_sort_gather] succeeds. *)
Definition sort_gather_flow (len : Z) (gather_ok : bool) (l : flow_lock) : option (outcome (Z * flow_lock)) :=
  if 0 <? len then
    match start_custom_flow l with
    | None => None
    | Some (Throw e) => Some (Throw e)
    | Some (Undef w) => Some (Undef w)
    | Some (Ok l) =>
        if gather_ok
        then Some (let! l := end_custom_flow l in Ok (ECERROR_SUCCESS, l))
        else Some (Ok (ECERROR_CUDA_ERROR, l))
    end
  else Some (Ok (ECERROR_SUCCESS, l)).

(** [lookup_sort_gather]: [required] is what the sizing call reports. *)
Definition lookup_sort_gather (len required aux_bytes : Z) (aux_null sizing_ok gather_ok : bool)
    (l : flow_lock) : option (outcome (Z * Z * flow_lock)) :=
  if negb sizing_ok then Some (Ok (ECERROR_CUDA_ERROR, aux_bytes, l))
  else if aux_null then Some (Ok (ECERROR_SUCCESS, required, l))
  else if aux_bytes <? required then Some (Ok (ECERROR_INVALID_ARGUMENT, aux_bytes, l))
  else match sort_gather_flow len gather_ok l with
       | None => None
       | Some r => Some (let! x := r in Ok (x.1, aux_bytes, x.2))
       end.

(** ** Lookup contexts and metrics *)

Inductive PerformanceMerticTypes := MERTIC_COUNT_MISSES | NUM_PERFORMANCE_METRIC_TYPES.
Record PerformanceMetric := { d_val : Z; metric_type : PerformanceMerticTypes }.
Definition is_miss_metric (m : PerformanceMetric) : bool :=
  match metric_type m with MERTIC_COUNT_MISSES => true | _ => false end.

Record CacheData := {
  cd_cache_ptr : Z;
  cd_tags_ptr : Z;
  cd_num_sets : Z;
  cd_row_size_in_bytes : Z;
  cd_count_misses : bool;
  cd_misses : Z
}.

(** The loop over the metrics tests [metrics->type], the type of the first
    metric, and takes [metrics[i].d_val]. *)
Definition bind_metrics (metrics : list PerformanceMetric) (d : CacheData) : CacheData :=
  match metrics with
  | [] => d
  | m0 :: _ =>
      fold_left (fun d m =>
        if is_miss_metric m0
        then {| cd_cache_ptr := cd_cache_ptr d; cd_tags_ptr := cd_tags_ptr d; cd_num_sets := cd_num_sets d;
                cd_row_size_in_bytes := cd_row_size_in_bytes d; cd_count_misses := true; cd_misses := d_val m |}
        else d) metrics d
  end.

(** [lookup_context_create]: [data->num_sets] is a [uint32_t]. *)
Definition lookup_context_create (cfg : CacheConfig) (s : sa_state) (host_alloc : Z + Z)
    (metrics : list PerformanceMetric) : Z * option CacheData :=
  match host_alloc with
  | inl err => (err, None)
  | inr _ =>
      (ECERROR_SUCCESS,
       Some (bind_metrics metrics
         {| cd_cache_ptr := cache_ s; cd_tags_ptr := d_tags_ s; cd_num_sets := wrapu 32 (num_sets_ s);
            cd_row_size_in_bytes := embed_width_in_bytes cfg; cd_count_misses := false; cd_misses := 0 |}))
  end.

Definition performance_metric_create (ty : PerformanceMerticTypes) (device_alloc : Z + Z) (memset_ok : bool)
  : Z * option PerformanceMetric :=
  match ty with
  | MERTIC_COUNT_MISSES =>
      match device_alloc with
      | inl err => (err, None)
      | inr p => (if memset_ok then ECERROR_SUCCESS else ECERROR_CUDA_ERROR,
                  Some {| d_val := p; metric_type := ty |})
      end
  | _ => (ECERROR_NOT_IMPLEMENTED, None)
  end.

Definition performance_metric_get_value (m : PerformanceMetric) (stored : Z) (memcpy_ok : bool) : Z * option Z :=
  match metric_type m with
  | MERTIC_COUNT_MISSES =>
      if d_val m =? 0 then (ECERROR_INVALID_ARGUMENT, None)
      else if memcpy_ok then (ECERROR_SUCCESS, Some stored) else (ECERROR_CUDA_ERROR, None)
  | _ => (ECERROR_NOT_IMPLEMENTED, None)
  end.

Definition performance_metric_destroy (m : PerformanceMetric) (free_result : Z) : Z * PerformanceMetric :=
  match metric_type m with
  | MERTIC_COUNT_MISSES => (free_result, {| d_val := 0; metric_type := metric_type m |})
  | _ => (ECERROR_NOT_IMPLEMENTED, m)
  end.

Definition get_max_num_embedding_vectors_in_cache (s : sa_state) : Z := num_sets_ s * NUM_WAYS.

(** ** Lemmas: sizes *)

Lemma CACHE_ALIGN_spec x :
  0 <= x < 2 ^ 63 -> x <= CACHE_ALIGN x 16 < x + 16 /\ (16 | CACHE_ALIGN x 16).
Proof.
  intros Hx. unfold CACHE_ALIGN. rewrite wrapu_small by (unfold in_u; lia).
  change (Z.lnot (16 - 1)) with (Z.lnot (Z.ones 4)).
  rewrite <- Z.ldiff_land, Z.ldiff_ones_r, Z.shiftl_mul_pow2, Z.shiftr_div_pow2 by lia.
  change (2 ^ 4) with 16. split; [|by exists ((x + (16 - 1)) / 16)].
  pose proof (Z.div_mod (x + (16 - 1)) 16 ltac:(lia)).
  pose proof (Z.mod_pos_bound (x + (16 - 1)) 16 ltac:(lia)). lia.
Qed.

(** The configurations for which the size computations do not overflow: whole
    tag bytes, a row of 1 byte to 1 GiB, a budget below 2^62 bytes. *)
Record sane (T : int_type) (cfg : CacheConfig) : Prop := {
  sane_tag : width T = 16 \/ width T = 32 \/ width T = 64;
  sane_row : 0 < embed_width_in_bytes cfg <= 2 ^ 30;
  sane_budget : 0 <= cache_sz_in_bytes cfg < 2 ^ 62;
  sane_tables : 0 < num_tables cfg
}.

Section SizeLemmas.
Context (T : int_type) (cfg : CacheConfig) (Hsane : sane T cfg).
Local Abbreviation tags_sz := (get_tag_size_per_set (tag_bytes_of T)).
Local Abbreviation entry_sz := (get_entry_size_per_set cfg).

Lemma tag_size_per_set_spec : 16 <= tags_sz <= 64 /\ (16 | tags_sz).
Proof.
  unfold get_tag_size_per_set, tag_bytes_of.
  destruct (sane_tag _ _ Hsane) as [-> | [-> | ->] ]; (split; [vm_compute; split; discriminate|]);
    [by exists 1|by exists 2|by exists 4].
Qed.

Lemma entry_size_per_set_spec :
  16 <= entry_sz <= 2 ^ 34 /\ embed_width_in_bytes cfg * NUM_WAYS <= entry_sz /\ (16 | entry_sz).
Proof.
  pose proof (sane_row _ _ Hsane) as Hr. unfold get_entry_size_per_set, NUM_WAYS.
  rewrite (wrapu_small 64 (embed_width_in_bytes cfg * 8)) by (unfold in_u; lia).
  destruct (CACHE_ALIGN_spec (embed_width_in_bytes cfg * 8)) as [Hb [q Hq]]; [lia|].
  rewrite Hq in *. split_and!; [lia|lia|lia|by exists q].
Qed.

Lemma num_sets_eq : hm_calc_num_sets T cfg = Ok (cache_sz_in_bytes cfg / num_tables cfg / (tags_sz + entry_sz)).
Proof.
  pose proof tag_size_per_set_spec as [Htag _]. pose proof entry_size_per_set_spec as (Hent & _ & _).
  pose proof (sane_tables _ _ Hsane).
  unfold hm_calc_num_sets, calc_num_sets.
  rewrite wrapu_small by (unfold in_u; lia). rewrite Z.add_0_r.
  destruct (Z.eqb_spec (num_tables cfg) 0); [lia|]. by destruct (Z.eqb_spec (tags_sz + entry_sz) 0); [lia|].
Qed.

(** What [num_sets] sets of all tables occupy fits in the budget. *)
Lemma sets_budget ns :
  hm_calc_num_sets T cfg = Ok ns ->
  0 <= ns /\ ns * (tags_sz + entry_sz) * num_tables cfg <= cache_sz_in_bytes cfg.
Proof.
  rewrite num_sets_eq. intros [= <-].
  pose proof tag_size_per_set_spec as [Htag _]. pose proof entry_size_per_set_spec as (Hent & _ & _).
  pose proof (sane_tables _ _ Hsane). pose proof (sane_budget _ _ Hsane).
  set (per := tags_sz + entry_sz) in *. set (q := cache_sz_in_bytes cfg / num_tables cfg).
  assert (0 <= q) by (apply Z.div_pos; lia).
  pose proof (Z.mul_div_le q per ltac:(lia)).
  pose proof (Z.mul_div_le (cache_sz_in_bytes cfg) (num_tables cfg) ltac:(lia)) as Hq. fold q in Hq.
  split; [apply Z.div_pos; lia|]. nia.
Qed.

Lemma alloc_sizes ns :
  hm_calc_num_sets T cfg = Ok ns -> ns <> 0 ->
  hm_calc_allocation_size T cfg =
    Ok (ECERROR_SUCCESS,
        Some {| device_allocation_size :=
                  (if allocate_data_on_host cfg then 0 else data_size cfg ns) + tag_size T cfg ns;
                host_allocation_size :=
                  (if allocate_data_on_host cfg then data_size cfg ns else 0) + tag_size T cfg ns
                  + CounterT_bytes * num_tables cfg * ns * NUM_WAYS |}).
Proof.
  intros Hns Hnz. pose proof (sets_budget ns Hns) as [Hpos Hb].
  pose proof tag_size_per_set_spec as [Htag _]. pose proof entry_size_per_set_spec as (Hent & _ & _).
  pose proof (sane_tables _ _ Hsane) as Ht. pose proof (sane_budget _ _ Hsane).
  unfold hm_calc_allocation_size, calc_allocation_size. fold (hm_calc_num_sets T cfg).
  rewrite Hns. simpl. rewrite (proj2 (Z.eqb_neq ns 0)) by done.
  unfold data_size, tag_size, counters_bytes, no_extra, CounterT_bytes, NUM_WAYS.
  assert (Hd : 0 <= ns * entry_sz * num_tables cfg) by nia.
  assert (Hg : 0 <= ns * tags_sz * num_tables cfg) by nia.
  assert (Hsum : ns * tags_sz * num_tables cfg + ns * entry_sz * num_tables cfg <= cache_sz_in_bytes cfg) by nia.
  assert (Hc : 0 <= num_tables cfg * ns * 32 <= cache_sz_in_bytes cfg) by nia.
  do 2 f_equal. f_equal.
  rewrite (wrapu_small 64 (num_tables cfg * ns * 8 * 4)) by (unfold in_u; lia).
  destruct (allocate_data_on_host cfg);
    (f_equal; (rewrite wrapu_small by (unfold in_u; nia); nia)).
Qed.
End SizeLemmas.

(** The memory budget is respected: for every sane configuration that fits at
    least one set, [calc_allocation_size] succeeds and the two assertions at its
    end hold: the device allocation, and the host allocation without the
    counters, never exceed [cache_sz_in_bytes]. *)
Theorem allocation_within_budget (T : int_type) (cfg : CacheConfig) (ns : Z) :
  sane T cfg -> hm_calc_num_sets T cfg = Ok ns -> ns <> 0 ->
  exists a,
    hm_calc_allocation_size T cfg = Ok (ECERROR_SUCCESS, Some a) /\
    0 <= device_allocation_size a <= cache_sz_in_bytes cfg /\
    host_allocation_size a - CounterT_bytes * num_tables cfg * ns * NUM_WAYS <= cache_sz_in_bytes cfg.
Proof.
  intros Hs Hns Hnz. eexists. split; [by apply alloc_sizes|]. simpl.
  pose proof (sets_budget T cfg Hs ns Hns) as [Hpos Hb].
  pose proof (tag_size_per_set_spec T cfg Hs) as [Htag _].
  pose proof (entry_size_per_set_spec T cfg Hs) as (Hent & _ & _).
  pose proof (sane_tables _ _ Hs). unfold data_size, tag_size.
  destruct (allocate_data_on_host cfg); nia.
Qed.

Definition demo_cfg : CacheConfig :=
  {| cache_sz_in_bytes := 100000; embed_width_in_bytes := 100; num_tables := 2;
     allocate_data_on_host := false; sentinel_key := -1 |}.

Lemma demo_sane : sane int64_t demo_cfg.
Proof. split; simpl; [by right; right|lia|lia|lia]. Qed.

Lemma allocation_within_budget_witness :
  exists a, hm_calc_allocation_size int64_t demo_cfg = Ok (ECERROR_SUCCESS, Some a) /\
    device_allocation_size a <= 100000.
Proof.
  destruct (allocation_within_budget int64_t demo_cfg 57 demo_sane eq_refl ltac:(lia)) as (a & Ha & [_ Hd] & _).
  exists a. exact (conj Ha Hd).
Defined.

(** ** Lemmas: carving *)

Lemma allocate_aligned p space sz :
  (16 | p) -> 0 <= sz <= space -> allocate_in_pool p space sz 16 = (p, p + sz).
Proof.
  intros [q ->] Hsz. unfold allocate_in_pool, std_align. simpl (0 <? 16).
  rewrite <- Z.mul_opp_l, Z.mod_mul by lia. rewrite Z.add_0_r, Z.sub_diag, Z.add_0_r.
  by rewrite (proj2 (Z.leb_le sz space)) by lia.
Qed.

(** A successful initialisation lays the pools out without gaps or overlap:
    given 16-byte aligned pools, [init] succeeds, makes exactly the two
    allocations, and the row storage, the device tags, the host tags and the
    counters are consecutive, non-null, 16-byte aligned blocks that end exactly
    where their pool ends. *)
Theorem init_layout (K T : int_type) (cfg : CacheConfig) (env : init_env) (ns dp hp : Z) :
  sane T cfg -> is_signed K = is_signed T -> hm_calc_num_sets T cfg = Ok ns -> ns <> 0 ->
  allocator_present env = true -> logger_present env = true ->
  fill_tags_ok env = true -> stream_sync_ok env = true ->
  (forall sz, device_allocate env sz = inr dp) -> (forall sz, host_allocate env sz = inr hp) ->
  0 < dp -> 0 < hp -> (16 | dp) -> (16 | hp) ->
  exists s a,
    init K T cfg env sa_construct =
      Ok (ECERROR_SUCCESS, s,
          [DeviceAlloc dp (device_allocation_size a); HostAlloc hp (host_allocation_size a)]) /\
    num_sets_ s = ns /\
    (16 | cache_ s) /\ (16 | d_tags_ s) /\ (16 | h_tags_ s) /\ (16 | h_counters_ s) /\
    d_tags_ s + tag_size T cfg ns = dp + device_allocation_size a /\
    h_tags_ s + tag_size T cfg ns = h_counters_ s /\
    h_counters_ s + CounterT_bytes * num_tables cfg * ns * NUM_WAYS = hp + host_allocation_size a /\
    (if allocate_data_on_host cfg
     then cache_ s = hp /\ cache_ s + data_size cfg ns = h_tags_ s /\ d_tags_ s = dp
     else cache_ s = dp /\ cache_ s + data_size cfg ns = d_tags_ s /\ h_tags_ s = hp).
Proof.
  intros Hs Hsign Hns Hnz Ha Hl Hf Hsync Hd Hh Hdp Hhp Hda Hha.
  pose proof (sets_budget T cfg Hs ns Hns) as [Hpos Hb].
  pose proof (tag_size_per_set_spec T cfg Hs) as [Htag Htd].
  pose proof (entry_size_per_set_spec T cfg Hs) as (Hent & _ & Hed).
  pose proof (sane_tables _ _ Hs) as Htab.
  assert (Hts : 0 < tag_size T cfg ns /\ (16 | tag_size T cfg ns)).
  { unfold tag_size. split; [nia|]. by apply Z.divide_mul_l, Z.divide_mul_l. }
  assert (Hds : 0 < data_size cfg ns /\ (16 | data_size cfg ns)).
  { unfold data_size. split; [nia|]. by apply Z.divide_mul_l, Z.divide_mul_l. }
  assert (Hcs : 0 < CounterT_bytes * num_tables cfg * ns * NUM_WAYS) by (unfold CounterT_bytes, NUM_WAYS; nia).
  set (cs := CounterT_bytes * num_tables cfg * ns * NUM_WAYS) in *.
  set (ts := tag_size T cfg ns) in *. set (ds := data_size cfg ns) in *.
  destruct Hts as [Hts1 Hts2], Hds as [Hds1 Hds2].
  unfold init. rewrite Ha, Hl, (alloc_sizes T cfg Hs ns Hns Hnz), Hns. simpl.
  rewrite (proj2 (Z.eqb_neq ns 0)) by done. unfold check_tag_key_config. rewrite Hsign, eqb_reflx. simpl.
  rewrite Hd, Hh, Hf, Hsync. unfold carve_device, carve_host. simpl. fold ts ds cs.
  destruct (allocate_data_on_host cfg).
  - rewrite !allocate_aligned by (lia || auto using Z.divide_add_r). simpl. fold ts ds cs.
    rewrite !allocate_aligned by (lia || auto using Z.divide_add_r). simpl. fold ts ds cs.
    rewrite !(proj2 (Z.eqb_neq _ 0)) by lia. simpl.
    eexists _, (Build_CacheAllocationSize (0 + ts) (ds + ts + cs)).
    split; [reflexivity|]. simpl. split_and!; auto using Z.divide_add_r; lia.
  - rewrite !allocate_aligned by (lia || auto using Z.divide_add_r). simpl. fold ts ds cs.
    rewrite !allocate_aligned by (lia || auto using Z.divide_add_r). simpl. fold ts ds cs.
    rewrite !(proj2 (Z.eqb_neq _ 0)) by lia. simpl.
    eexists _, (Build_CacheAllocationSize (ds + ts) (0 + ts + cs)).
    split; [reflexivity|]. simpl. split_and!; auto using Z.divide_add_r; lia.
Qed.

Definition demo_env : init_env :=
  {| allocator_present := true; logger_present := true; device_allocate := fun _ => inr 4096;
     host_allocate := fun _ => inr 1048576; fill_tags_ok := true; stream_sync_ok := true |}.

Lemma init_layout_witness :
  exists s a, init int64_t int64_t demo_cfg demo_env sa_construct =
    Ok (ECERROR_SUCCESS, s, [DeviceAlloc 4096 (device_allocation_size a); HostAlloc 1048576 (host_allocation_size a)])
    /\ num_sets_ s = 57.
Proof.
  destruct (init_layout int64_t int64_t demo_cfg demo_env 57 4096 1048576 demo_sane) as (s & a & H & Hn & _);
    try reflexivity; try lia.
  - by exists 256.
  - by exists 65536.
  - exists s, a. exact (conj H Hn).
Defined.

(** A failed initialisation frees a pool twice: when the host allocation fails
    after the device allocation succeeded, [init] frees the device pool in its
    [catch] and keeps the pointer, and the destructor frees the same pool again. *)
Theorem init_failure_double_free (K T : int_type) (cfg : CacheConfig) (env : init_env) (ns dp err : Z) :
  sane T cfg -> is_signed K = is_signed T -> hm_calc_num_sets T cfg = Ok ns -> ns <> 0 ->
  allocator_present env = true -> logger_present env = true ->
  (forall sz, device_allocate env sz = inr dp) -> (forall sz, host_allocate env sz = inl err) -> dp <> 0 ->
  exists s log,
    init K T cfg env sa_construct = Ok (err, s, log) /\
    DeviceFree dp ∈ log /\ DeviceFree dp ∈ sa_destroy s.
Proof.
  intros Hs Hsign Hns Hnz Ha Hl Hd Hh Hdp.
  unfold init. rewrite Ha, Hl, (alloc_sizes T cfg Hs ns Hns Hnz), Hns. simpl.
  rewrite (proj2 (Z.eqb_neq ns 0)) by done. unfold check_tag_key_config. rewrite Hsign, eqb_reflx. simpl.
  rewrite Hd, Hh. unfold init_catch. simpl. rewrite (proj2 (Z.eqb_neq dp 0)) by done.
  do 2 eexists. split; [reflexivity|]. simpl. split; repeat constructor.
Qed.

Lemma init_failure_double_free_witness :
  exists s log,
    init int64_t int64_t demo_cfg
      {| allocator_present := true; logger_present := true; device_allocate := fun _ => inr 4096;
         host_allocate := fun _ => inl 2; fill_tags_ok := true; stream_sync_ok := true |} sa_construct = Ok (2, s, log)
    /\ DeviceFree 4096 ∈ log /\ DeviceFree 4096 ∈ sa_destroy s.
Proof. by apply (init_failure_double_free int64_t int64_t demo_cfg _ 57 4096 2 demo_sane). Defined.

(** The custom-flow lock admits one flow only and leaks on an error: while one
    flow is open, every other [start_custom_flow] of the same cache throws
    instead of sharing the mutex; and a [lookup_sort_gather] whose gather kernel
    fails returns [ECERROR_CUDA_ERROR] with the lock still held, after which no
    modify operation can take the writer lock. *)
Theorem custom_flow_lock_defects (len required aux : Z) (l : flow_lock) :
  0 < len -> required <= aux ->
  (flow_owned l = true -> start_custom_flow l = Some (Throw "resource deadlock would occur")) /\
  (flow_owned l = false -> writer_active l = false ->
   exists l', lookup_sort_gather len required aux false true false l = Some (Ok (ECERROR_CUDA_ERROR, aux, l'))
     /\ modify_lock l' = None) /\
  (flow_owned l = false -> writer_active l = false ->
   lookup_sort_gather len required aux false true true l = Some (Ok (ECERROR_SUCCESS, aux, l))).
Proof.
  intros Hlen Haux. split_and!.
  - intros Ho. unfold start_custom_flow. by rewrite Ho.
  - intros Ho Hw. unfold lookup_sort_gather, sort_gather_flow, start_custom_flow. simpl.
    rewrite (proj2 (Z.ltb_ge aux required)), (proj2 (Z.ltb_lt 0 len)), Ho, Hw by lia. simpl. by eexists.
  - intros Ho Hw. unfold lookup_sort_gather, sort_gather_flow, start_custom_flow. simpl.
    rewrite (proj2 (Z.ltb_ge aux required)), (proj2 (Z.ltb_lt 0 len)), Ho, Hw by lia. simpl.
    destruct l; simpl in *; by subst.
Qed.

Lemma custom_flow_lock_defects_witness :
  start_custom_flow {| flow_owned := true; writer_active := false |} = Some (Throw "resource deadlock would occur").
Proof.
  apply (custom_flow_lock_defects 1 16 32 {| flow_owned := true; writer_active := false |}); [lia|lia|done].
Defined.
