(* ===== verification/HostModify.v ===== *)
(** * The host-managed set-associative cache

    [CacheSAHostModify<IndexT, TagT>] of [ec_set_associative_host_modify.h]
    (insert, update, invalidate, clear, the shared [modify] step with its
    kernels) and the address computation of the lookup kernels of
    [ec_set_associative.cuh]. Tags and counters are arrays behind raw pointers;
    the row storage, the tables and the staging buffers share one byte memory. *)
From S2P Require Import Prelude EcHash SetAssoc Float32.

Record ModifyEntry := {
  e_src : Z;
  e_dst : Z;
  e_set : Z;
  e_way : Z;
  e_tag : Z
}.

Inductive ModifyOpType := MODIFY_REPLACE | MODIFY_UPDATE | MODIFY_UPDATE_ACCUMLATE | MODIFY_INVALIDATE.
Inductive DataTypeFormat := DATATYPE_FP16 | DATATYPE_FP32 | DATATYPE_INT8_SCALED.

(** [ModifyContext]: [entries] is the used prefix of [list->entries], whose
    capacity is [max_update_sz]. *)
Record ModifyContext := {
  entries : list ModifyEntry;
  max_update_sz : Z;
  table_index : Z;
  op : ModifyOpType;
  input_type : DataTypeFormat;
  output_type : DataTypeFormat
}.

Definition with_entries (c : ModifyContext) (l : list ModifyEntry) (tbl : Z) (o : ModifyOpType) : ModifyContext :=
  {| entries := l; max_update_sz := max_update_sz c; table_index := tbl; op := o;
     input_type := input_type c; output_type := output_type c |}.

(** What the cache owns: the host and device tag arrays, the counters and the
    memory that holds the rows. *)
Record hm_state := {
  h_tags : Z -> Z;
  d_tags : Z -> Z;
  h_counters : Z -> f32;
  mem : memory
}.

(** Outcome of each CUDA or event call of [modify], in program order. *)
Record modify_env := {
  memcpy_list_ok : bool;
  memcpy_entries_ok : bool;
  tag_invalidate_ok : bool;
  synchronize_ok : bool;
  event_record : Z;
  event_wait_stream : Z;
  mem_update_ok : bool;
  tag_update_ok : bool
}.

Section Cache.
Variables (K T : int_type) (cfg : CacheConfig).
Variable num_sets : Z.               (* num_sets_ *)
Variable cache_base : Z.             (* cache_ *)
Variable decay_rate : f32.           (* config_.decay_rate *)
(** The order in which a [std::unordered_map] is traversed. *)
Variable umap_order : list ModifyEntry -> list ModifyEntry.
(** Element-wise [atomicAdd] of the accumulate kernels on [n] bytes, for the
    given input and output formats: CUDA intrinsics. *)
Variable accumulate_row : DataTypeFormat -> DataTypeFormat -> Z -> Z -> Z -> memory -> memory.

Local Abbreviation sentinel := (sentinel_key cfg).
Local Abbreviation row := (embed_width_in_bytes cfg).

Definition hash (key : Z) : Z := embed_cache_hash_set_idx K key num_sets.
Definition tag_of (key : Z) : Z := embed_cache_construct_tag K T key num_sets.
Definition key_of (tag set : Z) : Z := embed_cache_construct_key K 64 tag set num_sets.

(** Index of [(table, set, way)] in the tag and counter arrays. *)
Definition slot (tbl set way : Z) : Z := tbl * num_sets * NUM_WAYS + set * NUM_WAYS + way.
(** Address of the row of a slot. *)
Definition slot_addr (tbl set way : Z) : Z :=
  (cache_base + tbl * num_sets * NUM_WAYS * row) + (set * NUM_WAYS + way) * row.

(** The inner loop over the ways, up to the first hit. *)
Definition find_way (tags : Z -> Z) (tbl key : Z) : option Z :=
  List.find (fun j => key_of (tags (slot tbl (hash key) j)) (hash key) =? key) (seqZ 0 NUM_WAYS).

(** ** The kernels, one thread per entry *)

Definition tag_invalidate_kernel (tbl : Z) (l : list ModifyEntry) (tags : Z -> Z) : Z -> Z :=
  fold_left (fun t e => upd t (slot tbl (e_set e) (e_way e)) sentinel) l tags.
Definition tag_update_kernel (tbl : Z) (l : list ModifyEntry) (tags : Z -> Z) : Z -> Z :=
  fold_left (fun t e => upd t (slot tbl (e_set e) (e_way e)) (e_tag e)) l tags.
Definition mem_update_kernel (l : list ModifyEntry) (m : memory) : memory :=
  fold_left (fun m e => memcpy (e_dst e) (e_src e) row m) l m.
Definition mem_update_accumulate_kernel (i o : DataTypeFormat) (l : list ModifyEntry) (m : memory) : memory :=
  fold_left (fun m e => accumulate_row i o (e_dst e) (e_src e) row m) l m.

Definition set_d_tags (s : hm_state) (t : Z -> Z) : hm_state :=
  {| h_tags := h_tags s; d_tags := t; h_counters := h_counters s; mem := mem s |}.
Definition set_mem (s : hm_state) (m : memory) : hm_state :=
  {| h_tags := h_tags s; d_tags := d_tags s; h_counters := h_counters s; mem := m |}.
Definition set_host (s : hm_state) (t : Z -> Z) (c : Z -> f32) : hm_state :=
  {| h_tags := t; d_tags := d_tags s; h_counters := c; mem := mem s |}.

(** The data movement of [modify] after the event wait. *)
Definition modify_commit (env : modify_env) (c : ModifyContext) (s : hm_state) : Z * hm_state :=
  match op c with
  | MODIFY_INVALIDATE => (ECERROR_SUCCESS, s)
  | o =>
      if negb (mem_update_ok env) then (ECERROR_CUDA_ERROR, s)
      else
        let s := set_mem s
          match o with
          | MODIFY_UPDATE_ACCUMLATE =>
              mem_update_accumulate_kernel (input_type c) (output_type c) (entries c) (mem s)
          | _ => mem_update_kernel (entries c) (mem s)
          end in
        if negb (tag_update_ok env) then (ECERROR_CUDA_ERROR, s)
        else (ECERROR_SUCCESS, set_d_tags s (tag_update_kernel (table_index c) (entries c) (d_tags s)))
  end.

(** [modify]: invalidate the tags on the device, wait for the lookups in
    flight, move the data, publish the new tags. *)
Definition modify (env : modify_env) (c : ModifyContext) (s : hm_state) : Z * hm_state :=
  match entries c with
  | [] => (ECERROR_SUCCESS, s)
  | _ =>
      if negb (memcpy_list_ok env) then (ECERROR_CUDA_ERROR, s)
      else if negb (memcpy_entries_ok env) then (ECERROR_CUDA_ERROR, s)
      else if negb (tag_invalidate_ok env) then (ECERROR_CUDA_ERROR, s)
      else
        let s := set_d_tags s (tag_invalidate_kernel (table_index c) (entries c) (d_tags s)) in
        if negb (synchronize_ok env) then (ECERROR_CUDA_ERROR, s)
        else if negb (event_record env =? ECERROR_SUCCESS) then (event_record env, s)
        else if negb (event_wait_stream env =? ECERROR_SUCCESS) then (event_wait_stream env, s)
        else modify_commit env c s
  end.

(** ** insert *)

(** [std::min_element] over the counters of a set: the first least element. *)
Definition min_way (c : Z -> f32) (tbl set : Z) : Z :=
  fold_left (fun best j => if f32_lt (c (slot tbl set j)) (c (slot tbl set best)) then j else best)
            (seqZ 1 (NUM_WAYS - 1)) 0.

(** [curr_counters[...] *= decay_rate] over all sets and ways of the table. *)
Definition decay (c : Z -> f32) (tbl : Z) : Z -> f32 :=
  fun i => if (slot tbl 0 0 <=? i) && (i <? slot tbl num_sets 0) then f32_mul (c i) decay_rate else c i.

Record ins_state := {
  i_tags : Z -> Z;
  i_counters : Z -> f32;
  i_map : list (Z * ModifyEntry)   (* insertMap, oldest first *)
}.

Definition umap_count (hk : Z) (m : list (Z * ModifyEntry)) : bool := existsb (fun p => p.1 =? hk) m.

(** The body of the loop for one key with its priority and data pointer. *)
Definition insert_one (tbl : Z) (st : ins_state) (item : Z * f32 * Z) : ins_state :=
  let '(key, prio, data) := item in
  let set := hash key in
  match find_way (i_tags st) tbl key with
  | Some j =>
      {| i_tags := i_tags st;
         i_counters := upd (i_counters st) (slot tbl set j) (f32_add (i_counters st (slot tbl set j)) prio);
         i_map := i_map st |}
  | None =>
      let cand := min_way (i_counters st) tbl set in
      if f32_lt prio (i_counters st (slot tbl set cand)) then st
      else
        let hk := set * NUM_WAYS + cand in
        if umap_count hk (i_map st) then st
        else
          {| i_tags := upd (i_tags st) (slot tbl set cand) (tag_of key);
             i_counters := upd (i_counters st) (slot tbl set cand) prio;
             i_map := i_map st ++
               [(hk, {| e_src := data; e_dst := slot_addr tbl set cand; e_set := wrapu 32 set;
                        e_way := wrapu 32 cand; e_tag := tag_of key |})] |}
  end.

Fixpoint insert_loop (tbl max : Z) (items : list (Z * f32 * Z)) (st : ins_state) : ins_state :=
  match items with
  | [] => st
  | it :: rest =>
      if Z.of_nat (length (i_map st)) <? max
      then insert_loop tbl max rest (insert_one tbl st it)
      else st
  end.

(** [insert(ctx, keys, priority, data_ptrs, num_keys, table_index, ...)];
    [None] is the null context. *)
Definition insert (env : modify_env) (ctx : option ModifyContext) (items : list (Z * f32 * Z)) (tbl : Z)
    (s : hm_state) : Z * option ModifyContext * hm_state :=
  match ctx with
  | None => (ECERROR_INVALID_ARGUMENT, None, s)
  | Some c =>
      let st := insert_loop tbl (max_update_sz c) items
        {| i_tags := h_tags s; i_counters := decay (h_counters s) tbl; i_map := [] |} in
      let c := with_entries c (umap_order (snd <$> i_map st)) tbl MODIFY_REPLACE in
      let '(err, s) := modify env c (set_host s (i_tags st) (i_counters st)) in
      (err, Some c, s)
  end.

(** ** update and update_accumulate *)

(** [search_tag_storage_for_update]: [i] is the index of the head of [keys]. *)
Fixpoint search_tag_storage_for_update (tags : Z -> Z) (tbl d_values stride max i : Z)
    (keys : list Z) (acc : list ModifyEntry) : list ModifyEntry :=
  match keys with
  | [] => acc
  | key :: rest =>
      if Z.of_nat (length acc) <? max then
        let set := hash key in
        let acc :=
          match find_way tags tbl key with
          | Some j =>
              acc ++ [{| e_src := d_values + i * stride; e_dst := slot_addr tbl set j;
                         e_set := wrapu 32 set; e_way := j; e_tag := tags (slot tbl set j) |}]
          | None => acc
          end in
        search_tag_storage_for_update tags tbl d_values stride max (i + 1) rest acc
      else acc
  end.

Definition update (env : modify_env) (ctx : option ModifyContext) (keys : list Z) (d_values stride tbl : Z)
    (s : hm_state) : Z * option ModifyContext * hm_state :=
  match ctx with
  | None => (ECERROR_INVALID_ARGUMENT, None, s)
  | Some c =>
      let l := search_tag_storage_for_update (h_tags s) tbl d_values stride (max_update_sz c) 0 keys [] in
      let c := with_entries c l tbl MODIFY_UPDATE in
      let '(err, s) := modify env c s in
      (err, Some c, s)
  end.

Definition update_accumulate (env : modify_env) (ctx : option ModifyContext) (keys : list Z)
    (d_values stride tbl : Z) (update_format cache_format : DataTypeFormat)
    (s : hm_state) : Z * option ModifyContext * hm_state :=
  match ctx with
  | None => (ECERROR_INVALID_ARGUMENT, None, s)
  | Some c =>
      let l := search_tag_storage_for_update (h_tags s) tbl d_values stride (max_update_sz c) 0 keys [] in
      let c := {| entries := l; max_update_sz := max_update_sz c; table_index := tbl;
                  op := MODIFY_UPDATE_ACCUMLATE; input_type := update_format; output_type := cache_format |} in
      let '(err, s) := modify env c s in
      (err, Some c, s)
  end.

(** ** invalidate *)

(** One way of one key: reset the tag and append an entry. The array has room
    for [max_update_sz] entries and nothing stops the append. *)
Definition invalidate_way (tbl max key : Z) (st : (Z -> Z) * list ModifyEntry) (j : Z)
  : outcome ((Z -> Z) * list ModifyEntry) :=
  let '(tags, l) := st in
  let set := hash key in
  if key_of (tags (slot tbl set j)) set =? key then
    if Z.of_nat (length l) <? max
    then Ok (upd tags (slot tbl set j) sentinel,
             l ++ [{| e_src := 0; e_dst := 0; e_set := set; e_way := j; e_tag := sentinel |}])
    else Undef "write past the end of list->entries"
  else Ok st.

Fixpoint ofold {A B : Type} (f : A -> B -> outcome A) (l : list B) (a : A) : outcome A :=
  match l with
  | [] => Ok a
  | x :: l => let! a := f a x in ofold f l a
  end.

Definition invalidate_key (tbl max : Z) (st : (Z -> Z) * list ModifyEntry) (key : Z)
  : outcome ((Z -> Z) * list ModifyEntry) :=
  ofold (invalidate_way tbl max key) (seqZ 0 NUM_WAYS) st.

Definition invalidate (env : modify_env) (ctx : option ModifyContext) (keys : list Z) (tbl : Z)
    (s : hm_state) : outcome (Z * option ModifyContext * hm_state) :=
  match ctx with
  | None => Ok (ECERROR_INVALID_ARGUMENT, None, s)
  | Some c =>
      let! st := ofold (invalidate_key tbl (max_update_sz c)) keys (h_tags s, []) in
      let c := with_entries c st.2 tbl MODIFY_INVALIDATE in
      let '(err, s) := modify env c (set_host s st.1 (h_counters s)) in
      Ok (err, Some c, s)
  end.

(** ** clear and the list of resident keys *)

Definition in_storage (i : Z) : bool := (0 <=? i) && (i <? num_sets * NUM_WAYS * num_tables cfg).

Definition clear_cache (memcpy_ok : bool) (s : hm_state) : Z * hm_state :=
  let tags := fun i => if in_storage i then sentinel else h_tags s i in
  let counters := fun i => if in_storage i then f32_zero else h_counters s i in
  let s := set_host s tags counters in
  if memcpy_ok
  then (ECERROR_SUCCESS, set_d_tags s (fun i => if in_storage i then tags i else d_tags s i))
  else (ECERROR_CUDA_ERROR, s).

(** [get_keys_stored_in_cache] scans table 0; the key is rebuilt with
    [tag * num_sets_ + i] in 64-bit unsigned arithmetic. *)
Definition get_keys_stored_in_cache (s : hm_state) : list Z :=
  i ← seqZ 0 num_sets; j ← seqZ 0 NUM_WAYS;
  let tag := h_tags s (i * NUM_WAYS + j) in
  if tag =? sentinel then [] else [conv K (wrapu 64 (wrapu 64 tag * num_sets + i))].

(** ** Lookup: address computation of the kernels *)

(** [embed_cache_get_way_mask]; [CacheData::num_sets] is 32 bits wide. *)
Definition embed_cache_get_way_mask (tags : Z -> Z) (tbl key : Z) : Z :=
  fold_left (fun out i =>
    Z.lor out (Z.shiftl (Z.b2z (embed_cache_construct_key K 32 (tags (slot tbl (hash key) i)) (hash key) num_sets =? key)) i))
    (seqZ 0 NUM_WAYS) 0.

(** [__ffs(out) - 1]. *)
Definition ffs_pred (out : Z) : Z :=
  match List.find (fun i => Z.testbit out i) (seqZ 0 32) with Some i => i | None => -1 end.

(** [embed_cache_get_address]: the address of the row of [key], in the cache or
    in the backing table ([table = 0] is [nullptr]). *)
Definition embed_cache_get_address (tags : Z -> Z) (table tbl key : Z) : Z :=
  let out := embed_cache_get_way_mask tags tbl key in
  if out =? 0 then (if table =? 0 then 0 else wrapu 64 (table + key * row))
  else cache_base + (tbl * num_sets * NUM_WAYS + hash key * NUM_WAYS + ffs_pred out) * row.

(** The row a lookup backed by a table delivers for a key. *)
Definition lookup_row (s : hm_state) (table tbl key : Z) : list Z :=
  mem_read (mem s) (embed_cache_get_address (d_tags s) table tbl key) row.

End Cache.
