(* ===== verification/CacheCoherence.v ===== *)
(** * The cache never serves a wrong row

    Invariant of the host-managed cache and its preservation by every
    operation: the tags of a set are distinct and belong to keys of that set,
    the host and the device agree on them, and every row that can be hit is the
    row the application associates with its key. *)
From S2P Require Import Prelude EcHash SetAssoc Float32 HostModify.

Section Coherence.
Context (K T : int_type) (cfg : CacheConfig) (num_sets cache_base : Z) (decay_rate : f32).
Context (umap_order : list ModifyEntry -> list ModifyEntry).
Context (accumulate_row : DataTypeFormat -> DataTypeFormat -> Z -> Z -> Z -> memory -> memory).
Context (HK : 0 < width K) (HT : 0 < width T) (Hns : 0 < num_sets <= 2 ^ 32).
Context (Hrow : 0 < embed_width_in_bytes cfg).
Context (Horder : forall l, umap_order l ≡ₚ l).

Local Abbreviation sentinel := (sentinel_key cfg).
Local Abbreviation row := (embed_width_in_bytes cfg).
Local Abbreviation hash := (hash K num_sets).
Local Abbreviation tag_of := (tag_of K T num_sets).
Local Abbreviation key_of := (key_of K num_sets).
Local Abbreviation slot := (slot num_sets).
Local Abbreviation slot_addr := (slot_addr cfg num_sets cache_base).
Local Abbreviation find_way := (find_way K num_sets).

(** Keys the cache is allowed to be asked for. *)
Definition valid_key (k : Z) : Prop := storable K T 64 sentinel num_sets k.

Definition in_set (set way : Z) : Prop := 0 <= set < num_sets /\ 0 <= way < NUM_WAYS.

(** A tag of set [set]: free, or the tag of a valid key of that set. *)
Definition good_tag (set t : Z) : Prop :=
  t = sentinel \/ exists k, valid_key k /\ hash k = set /\ t = tag_of k.

Record wf_tags (tags : Z -> Z) (tbl : Z) : Prop := {
  wf_good : forall set way, in_set set way -> good_tag set (tags (slot tbl set way));
  wf_distinct : forall set way way', in_set set way -> in_set set way' -> way <> way' ->
    tags (slot tbl set way) = tags (slot tbl set way') -> tags (slot tbl set way) = sentinel
}.

Lemma hash_range k : 0 <= hash k < num_sets.
Proof. by apply hash_set_idx_range. Qed.

Lemma key_of_tag_of k : valid_key k -> key_of (tag_of k) (hash k) = k.
Proof. intros (Hr & Hf & _). by apply echash_roundtrip_lemma. Qed.

Lemma hit_iff set t k :
  good_tag set t -> valid_key k -> hash k = set -> key_of t set = k <-> t = tag_of k.
Proof.
  intros Hg Hk <-. split.
  - destruct Hg as [->|(k' & Hk' & Hh & ->)].
    + intros E. by destruct Hk as (_ & _ & Hs).
    + rewrite <- Hh, key_of_tag_of by done. by intros ->.
  - intros ->. by apply key_of_tag_of.
Qed.

Lemma tag_of_not_sentinel k : valid_key k -> tag_of k <> sentinel.
Proof. intros Hk. by eapply construct_tag_not_sentinel. Qed.

Lemma slot_inj tbl set way set' way' :
  in_set set way -> in_set set' way' -> slot tbl set way = slot tbl set' way' -> set = set' /\ way = way'.
Proof. unfold in_set, HostModify.slot, NUM_WAYS. lia. Qed.

Lemma elem_of_ways j : j ∈ seqZ 0 NUM_WAYS <-> 0 <= j < NUM_WAYS.
Proof. rewrite elem_of_seqZ. unfold NUM_WAYS. lia. Qed.

Lemma find_way_Some tags tbl k j :
  wf_tags tags tbl -> valid_key k -> find_way tags tbl k = Some j ->
  in_set (hash k) j /\ tags (slot tbl (hash k) j) = tag_of k.
Proof.
  intros Hwf Hk Hf. apply find_Some_In in Hf as [Hj Hh]. apply elem_of_ways in Hj.
  assert (Hin : in_set (hash k) j) by (split; [apply hash_range|done]).
  split; [done|]. apply Z.eqb_eq in Hh. apply (hit_iff (hash k)); auto. by apply wf_good.
Qed.

Lemma find_way_None tags tbl k j :
  wf_tags tags tbl -> valid_key k -> find_way tags tbl k = None -> 0 <= j < NUM_WAYS ->
  tags (slot tbl (hash k) j) <> tag_of k.
Proof.
  intros Hwf Hk Hf Hj E. eapply find_None_In in Hf; [|by apply elem_of_ways].
  apply Z.eqb_neq in Hf. apply Hf. rewrite E. by apply key_of_tag_of.
Qed.

(** A resident tag is found at its way. *)
Lemma find_way_hit tags tbl k j :
  wf_tags tags tbl -> valid_key k -> 0 <= j < NUM_WAYS -> tags (slot tbl (hash k) j) = tag_of k ->
  find_way tags tbl k = Some j.
Proof.
  intros Hwf Hk Hj E. destruct (find_way tags tbl k) as [j'|] eqn:Ef.
  - apply find_way_Some in Ef as [Hin' E']; [|done..].
    destruct (Z.eq_dec j' j) as [->|Hne]; [done|].
    exfalso. apply (tag_of_not_sentinel k Hk). rewrite <- E'.
    eapply wf_distinct; [done|exact Hin'|split; [apply hash_range|exact Hj]|done|congruence].
  - by apply (find_way_None tags tbl k j) in E.
Qed.

Lemma find_way_ext tags tags' tbl k :
  (forall j, 0 <= j < NUM_WAYS -> tags (slot tbl (hash k) j) = tags' (slot tbl (hash k) j)) ->
  find_way tags tbl k = find_way tags' tbl k.
Proof.
  intros H. unfold HostModify.find_way.
  assert (Hw : forall j, j ∈ seqZ 0 NUM_WAYS -> tags (slot tbl (hash k) j) = tags' (slot tbl (hash k) j)).
  { intros j Hj. by apply H, elem_of_ways. }
  induction (seqZ 0 NUM_WAYS) as [|j l IH]; simpl; [done|].
  rewrite Hw by (by left). destruct (_ =? _); [done|]. apply IH. intros; apply Hw. by right.
Qed.

(** ** The loop of insert *)

Lemma min_way_range c tbl set : 0 <= min_way num_sets c tbl set < NUM_WAYS.
Proof.
  unfold min_way.
  assert (H : forall l b, 0 <= b < NUM_WAYS -> (forall j, j ∈ l -> 0 <= j < NUM_WAYS) ->
    0 <= fold_left (fun best j => if f32_lt (c (slot tbl set j)) (c (slot tbl set best)) then j else best) l b < NUM_WAYS).
  { induction l as [|j l IH]; intros b Hb Hl; simpl; [done|].
    apply IH; [|intros; apply Hl; by right]. destruct (f32_lt _ _); [apply Hl; by left|done]. }
  apply H; [unfold NUM_WAYS; lia|]. intros j Hj%elem_of_seqZ. unfold NUM_WAYS in *. lia.
Qed.

(** No counter of the set is below that of the way [min_way] picks. *)
Lemma min_way_least c tbl set j :
  0 <= j < NUM_WAYS -> f32_lt (c (slot tbl set j)) (c (slot tbl set (min_way num_sets c tbl set))) = false.
Proof.
  intros Hj. unfold min_way.
  set (step := fun best j => if f32_lt (c (slot tbl set j)) (c (slot tbl set best)) then j else best).
  assert (Hirr : forall x, f32_lt (c x) (c x) = false).
  { intros x. unfold f32_lt, SFltb. destruct (c x) as [[]|[]| |[] m e]; simpl; try done;
      rewrite Z.compare_refl; change (PosDef.Pos.compare_cont Eq) with Pos.compare; by rewrite Pos.compare_refl. }
  assert (H : forall l b i, (i = b \/ i ∈ l \/ f32_lt (c (slot tbl set i)) (c (slot tbl set b)) = false) ->
    f32_lt (c (slot tbl set i)) (c (slot tbl set (fold_left step l b))) = false).
  { induction l as [|x l IH]; intros b i Hi; simpl.
    - destruct Hi as [->|[?%elem_of_nil|Hi]]; [apply Hirr|done|done].
    - apply IH. unfold step. destruct (f32_lt (c (slot tbl set x)) (c (slot tbl set b))) eqn:E.
      + destruct (f32_lt (c (slot tbl set i)) (c (slot tbl set x))) eqn:E2; [|by right; right].
        destruct Hi as [->|[[->|Hi]%elem_of_cons|Hi]].
        * pose proof (f32_lt_trans _ _ _ E2 E). by rewrite Hirr in H.
        * by left.
        * by right; left.
        * pose proof (f32_lt_trans _ _ _ E2 E). congruence.
      + destruct Hi as [->|[[->|Hi]%elem_of_cons|Hi]]; [by left|by right; right|by right; left|by right; right]. }
  apply H. destruct (decide (j = 0)); [by left|right; left]. apply elem_of_seqZ. unfold NUM_WAYS in *. lia.
Qed.

(** What an entry of [insertMap] says: its slot, its row address, the tag now
    stored there and an item of the batch it comes from. *)
Record entry_ok (tbl : Z) (items : list (Z * f32 * Z)) (tags : Z -> Z) (hk : Z) (e : ModifyEntry) : Prop := {
  eo_slot : in_set (e_set e) (e_way e);
  eo_hk : hk = e_set e * NUM_WAYS + e_way e;
  eo_dst : e_dst e = slot_addr tbl (e_set e) (e_way e);
  eo_tag : tags (slot tbl (e_set e) (e_way e)) = e_tag e;
  eo_item : exists k p, (k, p, e_src e) ∈ items /\ hash k = e_set e /\ e_tag e = tag_of k
}.

Record ins_inv (tbl : Z) (items : list (Z * f32 * Z)) (tags0 : Z -> Z) (st : ins_state) : Prop := {
  ii_wf : wf_tags (i_tags st) tbl;
  ii_nodup : NoDup (fst <$> i_map st);
  ii_entries : forall hk e, (hk, e) ∈ i_map st -> entry_ok tbl items (i_tags st) hk e;
  ii_frame : forall i, (forall hk e, (hk, e) ∈ i_map st -> i <> slot tbl (e_set e) (e_way e)) ->
    i_tags st i = tags0 i
}.

Lemma umap_count_false hk m : umap_count hk m = false -> hk ∉ fst <$> m.
Proof.
  unfold umap_count. induction m as [|p m IH]; simpl; [intros _; apply not_elem_of_nil|].
  rewrite orb_false_iff, Z.eqb_neq. intros [Hne Hm]. rewrite not_elem_of_cons. split; [congruence|auto].
Qed.

Lemma wf_tags_upd tags tbl k cand :
  wf_tags tags tbl -> valid_key k -> find_way tags tbl k = None -> 0 <= cand < NUM_WAYS ->
  wf_tags (upd tags (slot tbl (hash k) cand) (tag_of k)) tbl.
Proof.
  intros Hwf Hk Hf Hc. pose proof (hash_range k) as Hh.
  assert (Hin : in_set (hash k) cand) by done.
  assert (Hother : forall set way, in_set set way -> (set <> hash k \/ way <> cand) ->
            upd tags (slot tbl (hash k) cand) (tag_of k) (slot tbl set way) = tags (slot tbl set way)).
  { intros set way Hi Hne. apply upd_ne. intros E. apply slot_inj in E; [|done..]. lia. }
  split.
  - intros set way Hi. destruct (decide (set = hash k /\ way = cand)) as [ [-> ->]|Hne].
    + rewrite upd_eq. right. by exists k.
    + rewrite Hother by (done || lia). by apply wf_good.
  - intros set way way' Hi Hi' Hne.
    destruct (decide (set = hash k)) as [->|Hs].
    + destruct (decide (way = cand)) as [->|Hw], (decide (way' = cand)) as [->|Hw']; [done| | |].
      * rewrite upd_eq, Hother by (auto; lia). intros E.
        exfalso. eapply (find_way_None tags tbl k way'); eauto. apply Hi'.
      * rewrite upd_eq, Hother by (auto; lia). intros E.
        exfalso. eapply (find_way_None tags tbl k way); eauto. apply Hi.
      * rewrite !Hother by (auto; lia). by apply wf_distinct.
    + rewrite !Hother by (auto; lia). by apply wf_distinct.
Qed.

Lemma insert_one_inv tbl items tags0 st it :
  ins_inv tbl items tags0 st -> it ∈ items -> (forall k p d, (k, p, d) ∈ items -> valid_key k) ->
  ins_inv tbl items tags0 (insert_one K T cfg num_sets cache_base tbl st it).
Proof.
  intros Hinv Hit Hvalid. destruct it as [ [k p] d]. unfold insert_one.
  assert (Hk : valid_key k) by eauto. destruct Hinv as [Hwf Hnd Hent Hfr].
  destruct (find_way (i_tags st) tbl k) as [j|] eqn:Ef; [by constructor|].
  set (cand := min_way num_sets (i_counters st) tbl (hash k)).
  destruct (f32_lt p _); [by constructor|].
  destruct (umap_count (hash k * NUM_WAYS + cand) (i_map st)) eqn:Ec; [by constructor|].
  pose proof (min_way_range (i_counters st) tbl (hash k)) as Hc. fold cand in Hc.
  pose proof (hash_range k) as Hh. apply umap_count_false in Ec.
  assert (Hold : forall hk e, (hk, e) ∈ i_map st ->
            slot tbl (e_set e) (e_way e) <> slot tbl (hash k) cand).
  { intros hk e He E. destruct (Hent _ _ He) as [Hs Ehk _ _ _].
    apply slot_inj in E as [E1 E2]; [|done|done]. apply Ec. rewrite <- E1, <- E2, <- Ehk.
    by apply (list_elem_of_fmap_2 fst _ (hk, e)). }
  assert (Hw32 : wrapu 32 (hash k) = hash k /\ wrapu 32 cand = cand).
  { split; apply wrapu_small; unfold in_u, NUM_WAYS in *; lia. }
  destruct Hw32 as [Ew1 Ew2]. constructor; simpl.
  - by apply wf_tags_upd.
  - rewrite fmap_app. apply NoDup_app. split; [done|]. split; [|apply NoDup_singleton].
    intros x Hx Hx'. apply list_elem_of_singleton in Hx' as ->. done.
  - intros hk e He. apply elem_of_app in He as [He|He].
    + destruct (Hent _ _ He) as [H1 H2 H3 H4 H5]. constructor; auto. by rewrite upd_ne by eauto.
    + apply list_elem_of_singleton in He as [= -> ->].
      constructor; simpl; rewrite ?Ew1, ?Ew2; auto; [done|by rewrite upd_eq|by exists k, p].
  - intros i Hi. rewrite upd_ne.
    + apply Hfr. intros hk e He. apply Hi with hk. apply elem_of_app. by left.
    + specialize (Hi (hash k * NUM_WAYS + cand)). simpl in Hi. intros E.
      eapply Hi; [apply elem_of_app; right; by left|]. simpl. by rewrite Ew1, Ew2.
Qed.

Lemma insert_loop_inv tbl max items0 tags0 items st :
  ins_inv tbl items0 tags0 st -> (forall it, it ∈ items -> it ∈ items0) ->
  (forall k p d, (k, p, d) ∈ items0 -> valid_key k) ->
  ins_inv tbl items0 tags0 (insert_loop K T cfg num_sets cache_base tbl max items st).
Proof.
  revert st. induction items as [|it items IH]; intros st Hinv Hsub Hv; simpl; [done|].
  destruct (_ <? max); [|done]. apply IH; auto.
  - apply insert_one_inv; auto. apply Hsub. by left.
  - intros; apply Hsub. by right.
Qed.

Lemma insert_one_map_length tbl st it :
  (length (i_map (insert_one K T cfg num_sets cache_base tbl st it)) <= S (length (i_map st)))%nat.
Proof.
  destruct it as [ [k p] d]. unfold insert_one.
  destruct (HostModify.find_way _ _ _ _ _); simpl; [lia|]. destruct (f32_lt _ _); [lia|].
  destruct (umap_count _ _); simpl; [lia|]. rewrite length_app. simpl. lia.
Qed.

Lemma insert_loop_bound tbl max items st :
  Z.of_nat (length (i_map st)) <= Z.max 0 max ->
  Z.of_nat (length (i_map (insert_loop K T cfg num_sets cache_base tbl max items st))) <= Z.max 0 max.
Proof.
  revert st. induction items as [|it items IH]; intros st Hb; simpl; [done|].
  destruct (Z.ltb_spec (Z.of_nat (length (i_map st))) max); [|done].
  apply IH. pose proof (insert_one_map_length tbl st it). lia.
Qed.

(** ** The modify step when no call fails *)

Definition env_ok (env : modify_env) : Prop :=
  memcpy_list_ok env = true /\ memcpy_entries_ok env = true /\ tag_invalidate_ok env = true /\
  synchronize_ok env = true /\ event_record env = ECERROR_SUCCESS /\ event_wait_stream env = ECERROR_SUCCESS /\
  mem_update_ok env = true /\ tag_update_ok env = true.

Local Abbreviation modify := (modify cfg num_sets accumulate_row).
Local Abbreviation e_slot tbl := (fun e => slot tbl (e_set e) (e_way e)).

Lemma modify_write env c s :
  env_ok env -> op c = MODIFY_REPLACE \/ op c = MODIFY_UPDATE ->
  modify env c s =
    (ECERROR_SUCCESS,
     {| h_tags := h_tags s;
        d_tags := tag_update_kernel num_sets (table_index c) (entries c)
                    (tag_invalidate_kernel cfg num_sets (table_index c) (entries c) (d_tags s));
        h_counters := h_counters s;
        mem := mem_update_kernel cfg (entries c) (mem s) |}).
Proof.
  intros (E1 & E2 & E3 & E4 & E5 & E6 & E7 & E8) Hop. unfold HostModify.modify, modify_commit.
  rewrite E1, E2, E3, E4, E5, E6, E7, E8. destruct (entries c); [by destruct s|].
  by destruct Hop as [-> | ->].
Qed.

Lemma modify_invalidate env c s :
  env_ok env -> op c = MODIFY_INVALIDATE ->
  modify env c s =
    (ECERROR_SUCCESS,
     {| h_tags := h_tags s; d_tags := tag_invalidate_kernel cfg num_sets (table_index c) (entries c) (d_tags s);
        h_counters := h_counters s; mem := mem s |}).
Proof.
  intros (E1 & E2 & E3 & E4 & E5 & E6 & E7 & E8) Hop. unfold HostModify.modify, modify_commit.
  rewrite E1, E2, E3, E4, E5, E6, Hop. destruct (entries c); [by destruct s|done].
Qed.

Lemma published_tags_in tbl l t i :
  i ∈ e_slot tbl <$> l ->
  exists e, e ∈ l /\ e_slot tbl e = i /\
    tag_update_kernel num_sets tbl l (tag_invalidate_kernel cfg num_sets tbl l t) i = e_tag e.
Proof. intros Hi. unfold tag_update_kernel. by apply (fold_upd_in (e_slot tbl) e_tag). Qed.

Lemma published_tags_notin tbl l t i :
  i ∉ e_slot tbl <$> l ->
  tag_update_kernel num_sets tbl l (tag_invalidate_kernel cfg num_sets tbl l t) i = t i.
Proof.
  intros Hi. unfold tag_update_kernel, tag_invalidate_kernel.
  rewrite (fold_upd_notin (e_slot tbl) e_tag) by done.
  by rewrite (fold_upd_notin (e_slot tbl) (fun _ => sentinel)).
Qed.

(** ** Rows *)

(** A buffer of one row that overlaps no row of the table. *)
Definition outside (tbl a : Z) : Prop :=
  forall set way, in_set set way -> disjoint (slot_addr tbl set way) row a row.

Lemma slot_addr_cases tbl set way set' way' :
  in_set set way -> in_set set' way' ->
  (set = set' /\ way = way') \/ disjoint (slot_addr tbl set way) row (slot_addr tbl set' way') row.
Proof.
  unfold in_set, HostModify.slot_addr, disjoint, NUM_WAYS. intros H1 H2.
  destruct (Z.lt_trichotomy (set * 8 + way) (set' * 8 + way')) as [H|[H|H] ]; [right; left; nia|left; lia|right; right; nia].
Qed.

Lemma slot_addr_inj tbl set way set' way' :
  in_set set way -> in_set set' way' -> slot_addr tbl set way = slot_addr tbl set' way' ->
  set = set' /\ way = way'.
Proof.
  intros H1 H2 E. destruct (slot_addr_cases tbl set way set' way' H1 H2) as [?|Hd]; [done|].
  rewrite E in Hd. unfold disjoint in Hd. lia.
Qed.

(** The invariant for one table, relative to the row [val k] the application
    associates with each key. *)
Record cache_inv (val : Z -> list Z) (tbl : Z) (s : hm_state) : Prop := {
  ci_wf : wf_tags (h_tags s) tbl;
  ci_agree : forall set way, in_set set way -> d_tags s (slot tbl set way) = h_tags s (slot tbl set way);
  ci_rows : forall k j, valid_key k -> find_way (h_tags s) tbl k = Some j ->
    mem_read (mem s) (slot_addr tbl (hash k) j) row = val k
}.

(** The entries of a write: each names a slot of the table, its row address,
    the tag the host holds for it, and a source row of the key with that tag. *)
Record write_ok (val : Z -> list Z) (tbl : Z) (tags : Z -> Z) (m : memory) (e : ModifyEntry) : Prop := {
  wo_slot : in_set (e_set e) (e_way e);
  wo_dst : e_dst e = slot_addr tbl (e_set e) (e_way e);
  wo_tag : tags (slot tbl (e_set e) (e_way e)) = e_tag e;
  wo_src : outside tbl (e_src e);
  wo_key : exists k, valid_key k /\ hash k = e_set e /\ e_tag e = tag_of k /\ mem_read m (e_src e) row = val k
}.

Lemma tag_of_inj k k' : valid_key k -> valid_key k' -> hash k = hash k' -> tag_of k = tag_of k' -> k = k'.
Proof. intros H H' Hh Ht. by eapply (construct_tag_inj K T 64). Qed.

(** Writing a list of such entries establishes the invariant for the new tags,
    provided the rows that are not written were right. *)
Lemma write_entries_inv val tbl l tags d0 m ctr :
  wf_tags tags tbl ->
  (forall e, e ∈ l -> write_ok val tbl tags m e) ->
  (forall set way, in_set set way -> slot tbl set way ∉ e_slot tbl <$> l ->
     d0 (slot tbl set way) = tags (slot tbl set way)) ->
  (forall k j, valid_key k -> find_way tags tbl k = Some j -> slot tbl (hash k) j ∉ e_slot tbl <$> l ->
     mem_read m (slot_addr tbl (hash k) j) row = val k) ->
  cache_inv val tbl
    {| h_tags := tags;
       d_tags := tag_update_kernel num_sets tbl l (tag_invalidate_kernel cfg num_sets tbl l d0);
       h_counters := ctr; mem := mem_update_kernel cfg l m |}.
Proof.
  intros Hwf Hl Hd0 Hrows. constructor; simpl; [done| |].
  - intros set way Hin. destruct (decide (slot tbl set way ∈ e_slot tbl <$> l)) as [Hi|Hi].
    + destruct (published_tags_in tbl l d0 _ Hi) as (e & He & Es & ->).
      destruct (Hl e He) as [_ _ <- _ _]. by rewrite Es.
    + rewrite published_tags_notin by done. auto.
  - intros k j Hk Hf. destruct (find_way_Some _ _ _ _ Hwf Hk Hf) as [Hin Ht].
    unfold mem_update_kernel. destruct (decide (slot tbl (hash k) j ∈ e_slot tbl <$> l)) as [Hi|Hi].
    + apply list_elem_of_fmap in Hi as (e & Es & He).
      destruct (Hl e He) as [Hse Hde Hte _ _]. apply slot_inj in Es as [E1 E2]; [|done|done].
      rewrite E1, E2, <- Hde.
      destruct (fold_memcpy_in e_dst e_src row l m e He) as (e' & He' & Ed & ->).
      * intros e1 e2 H1 H2. destruct (Hl e1 H1) as [S1 -> _ _ _], (Hl e2 H2) as [S2 -> _ _ _].
        destruct (slot_addr_cases tbl _ _ _ _ S1 S2) as [ [-> ->]|?]; [by left|by right].
      * intros e1 e2 H1 H2. destruct (Hl e1 H1) as [S1 -> _ _ _]. by apply (Hl e2 H2).
      * destruct (Hl e' He') as [Hse' Hde' Hte' _ (k' & Hk' & Hh' & Htag' & ->)].
        rewrite Hde, Hde' in Ed. apply slot_addr_inj in Ed as [F1 F2]; [|done|done].
        f_equal. apply tag_of_inj; [done|done|congruence|].
        rewrite <- Htag', <- Hte', F1, F2, <- E1, <- E2. done.
    + rewrite (fold_memcpy_disjoint e_dst e_src); [auto|].
      intros e He. destruct (Hl e He) as [Hse -> _ _ _].
      destruct (slot_addr_cases tbl _ _ _ _ Hse Hin) as [ [E1 E2]|?]; [|done].
      destruct Hi. rewrite <- E1, <- E2. by apply (list_elem_of_fmap_2 (e_slot tbl)).
Qed.

(** ** What an operation on one table leaves alone *)

Definition in_table (tbl i : Z) : Prop := slot tbl 0 0 <= i < slot tbl num_sets 0.

Record kept (tbl : Z) (s s' : hm_state) : Prop := {
  kp_host : forall i, ~ in_table tbl i -> h_tags s' i = h_tags s i;
  kp_dev : forall i, ~ in_table tbl i -> d_tags s' i = d_tags s i;
  kp_mem : forall a, ~ (slot_addr tbl 0 0 <= a < slot_addr tbl num_sets 0) -> mem s' a = mem s a
}.

Lemma in_table_slot tbl set way : in_set set way -> in_table tbl (slot tbl set way).
Proof. unfold in_set, in_table, HostModify.slot, NUM_WAYS. lia. Qed.

Lemma not_in_table_other tbl tbl' set way : tbl <> tbl' -> in_set set way -> ~ in_table tbl (slot tbl' set way).
Proof.
  unfold in_set, in_table, HostModify.slot, NUM_WAYS. intros Hne Hin.
  destruct (Z.lt_total tbl tbl') as [H|[H|H] ]; [nia|done|nia].
Qed.

Lemma slot_addr_in tbl set way a :
  in_set set way -> slot_addr tbl set way <= a < slot_addr tbl set way + row ->
  slot_addr tbl 0 0 <= a < slot_addr tbl num_sets 0.
Proof. unfold in_set, HostModify.slot_addr, NUM_WAYS. nia. Qed.

Lemma slot_addr_other tbl tbl' set way a :
  tbl <> tbl' -> in_set set way -> slot_addr tbl' set way <= a < slot_addr tbl' set way + row ->
  ~ (slot_addr tbl 0 0 <= a < slot_addr tbl num_sets 0).
Proof.
  intros Hne Hin Ha%slot_addr_in Hb; [|done]. unfold HostModify.slot_addr, NUM_WAYS in *.
  assert (0 < num_sets * 8 * row) by nia. nia.
Qed.

Lemma kept_cache_inv val tbl tbl' s s' :
  tbl <> tbl' -> kept tbl s s' -> cache_inv val tbl' s -> cache_inv val tbl' s'.
Proof.
  intros Hne [Hh Hd Hm] [Hwf Hag Hr].
  assert (Hht : forall set way, in_set set way -> h_tags s' (slot tbl' set way) = h_tags s (slot tbl' set way)).
  { intros. apply Hh. by apply not_in_table_other. }
  constructor.
  - destruct Hwf as [Hg Hx]. split.
    + intros. rewrite Hht by done. auto.
    + intros set way way' H1 H2 H3. rewrite !Hht by done. by apply Hx.
  - intros set way Hin. rewrite Hht by done. rewrite Hd by (by apply not_in_table_other). auto.
  - intros k j Hk Hf.
    assert (Hf' : find_way (h_tags s) tbl' k = Some j).
    { rewrite <- Hf. apply find_way_ext. intros j' Hj'. symmetry. apply Hht. split; [apply hash_range|done]. }
    destruct (find_way_Some _ _ _ _ Hwf Hk Hf') as [Hin _].
    rewrite <- (Hr k j Hk Hf'). apply mem_read_ext. intros a Ha. apply Hm. by eapply slot_addr_other.
Qed.

Lemma fold_upd_kept {A} (v : ModifyEntry -> A) tbl l (t : Z -> A) i :
  (forall e, e ∈ l -> in_set (e_set e) (e_way e)) -> ~ in_table tbl i ->
  fold_left (fun t e => upd t (slot tbl (e_set e) (e_way e)) (v e)) l t i = t i.
Proof.
  intros Hl Hi. apply (fold_upd_notin (e_slot tbl)). intros (e & -> & He)%list_elem_of_fmap.
  apply Hi, in_table_slot. auto.
Qed.

Lemma mem_update_kept tbl l (m : memory) a :
  (forall e, e ∈ l -> in_set (e_set e) (e_way e) /\ e_dst e = slot_addr tbl (e_set e) (e_way e)) ->
  ~ (slot_addr tbl 0 0 <= a < slot_addr tbl num_sets 0) -> mem_update_kernel cfg l m a = m a.
Proof.
  unfold mem_update_kernel. revert m. induction l as [|e l IH]; intros m Hl Ha; simpl; [done|].
  rewrite IH; [|intros; apply Hl; by right|done].
  destruct (Hl e) as [Hin Hd]; [by left|]. unfold memcpy.
  destruct (Z.leb_spec (e_dst e) a), (Z.ltb_spec a (e_dst e + row)); simpl; try done.
  destruct Ha. eapply slot_addr_in; [exact Hin|]. lia.
Qed.

Lemma write_kept val tbl l tags m s ctr :
  (forall e, e ∈ l -> write_ok val tbl tags m e) ->
  (forall i, ~ in_table tbl i -> tags i = h_tags s i) ->
  kept tbl s
    {| h_tags := tags;
       d_tags := tag_update_kernel num_sets tbl l (tag_invalidate_kernel cfg num_sets tbl l (d_tags s));
       h_counters := ctr; mem := mem_update_kernel cfg l (mem s) |}.
Proof.
  intros Hl Ht. constructor; simpl; [done| |].
  - intros i Hi. unfold tag_update_kernel, tag_invalidate_kernel.
    rewrite !(fold_upd_kept _ tbl) by (done || (intros e He; apply (Hl e He))). done.
  - intros a Ha. apply (mem_update_kept tbl); [|done]. intros e He. by destruct (Hl e He).
Qed.

(** ** insert *)

Local Abbreviation insert := (insert K T cfg num_sets cache_base decay_rate umap_order accumulate_row).

(** A batch whose source rows lie outside the cache and hold the keys' rows. *)
Definition batch_ok (val : Z -> list Z) (tbl : Z) (m : memory) (items : list (Z * f32 * Z)) : Prop :=
  forall k p d, (k, p, d) ∈ items -> valid_key k /\ outside tbl d /\ mem_read m d row = val k.

Lemma entries_slots tbl items tags0 st l :
  ins_inv tbl items tags0 st -> l ≡ₚ snd <$> i_map st ->
  forall e, e ∈ l -> exists hk, (hk, e) ∈ i_map st.
Proof.
  intros _ Hp e He. rewrite Hp in He. apply list_elem_of_fmap in He as ( [hk e'] & -> & He). by exists hk.
Qed.

Lemma entries_slots_not tbl items tags0 st l i :
  ins_inv tbl items tags0 st -> l ≡ₚ snd <$> i_map st -> i ∉ e_slot tbl <$> l -> i_tags st i = tags0 i.
Proof.
  intros Hinv Hp Hi. apply (ii_frame _ _ _ _ Hinv). intros hk e He ->. apply Hi.
  apply (list_elem_of_fmap_2 (e_slot tbl)). rewrite Hp. by apply (list_elem_of_fmap_2 snd _ (hk, e)).
Qed.

Lemma entry_write_ok val tbl items tags0 st m l :
  ins_inv tbl items tags0 st -> batch_ok val tbl m items -> l ≡ₚ snd <$> i_map st ->
  forall e, e ∈ l -> write_ok val tbl (i_tags st) m e.
Proof.
  intros Hinv Hb Hp e He. destruct (entries_slots _ _ _ _ _ Hinv Hp e He) as [hk Hin].
  destruct (ii_entries _ _ _ _ Hinv hk e Hin) as [Hs _ Hd Ht (k & p & Hkp & Hh & Htag)].
  destruct (Hb _ _ _ Hkp) as (Hk & Ho & Hr). constructor; auto. by exists k.
Qed.

Lemma ins_inv_init tbl items tags ctr :
  wf_tags tags tbl -> ins_inv tbl items tags {| i_tags := tags; i_counters := ctr; i_map := [] |}.
Proof.
  intros Hwf. constructor; simpl; [done|constructor| |done].
  intros hk e He. by apply not_elem_of_nil in He.
Qed.

Lemma insert_inv val tbl env c items s :
  env_ok env -> 0 <= max_update_sz c -> cache_inv val tbl s -> batch_ok val tbl (mem s) items ->
  exists c' s', insert env (Some c) items tbl s = (ECERROR_SUCCESS, Some c', s') /\
    cache_inv val tbl s' /\ kept tbl s s' /\
    Z.of_nat (length (entries c')) <= max_update_sz c.
Proof.
  intros Henv Hmax Hci Hb. unfold HostModify.insert.
  set (st0 := {| i_tags := h_tags s; i_counters := _; i_map := [] |}).
  set (st := insert_loop _ _ _ _ _ _ _ _ _).
  assert (Hinv : ins_inv tbl items (h_tags s) st).
  { apply insert_loop_inv; [apply ins_inv_init, Hci|done|]. intros k p d Hd. by apply Hb in Hd as [? _]. }
  set (c' := with_entries _ _ _ _). rewrite (modify_write env c') by (auto; by left).
  pose proof (Horder (snd <$> i_map st)) as Hp.
  pose proof (entry_write_ok _ _ _ _ _ _ _ Hinv Hb Hp) as Hw.
  eexists c', _. split; [done|]. split_and!.
  - apply write_entries_inv; [apply Hinv|exact Hw| |].
    + intros set way Hin Hni. simpl. rewrite (ci_agree _ _ _ Hci) by done.
      symmetry. by apply (entries_slots_not _ _ _ _ _ _ Hinv Hp).
    + intros k j Hk Hf Hni. apply (ci_rows _ _ _ Hci); [done|].
      destruct (find_way_Some _ _ _ _ (ii_wf _ _ _ _ Hinv) Hk Hf) as [ [_ Hj] Ht].
      apply find_way_hit; [apply Hci|done|done|]. rewrite <- Ht. symmetry.
      by apply (entries_slots_not _ _ _ _ _ _ Hinv Hp).
  - apply (write_kept val tbl _ _ (mem s) s); [exact Hw|]. intros i Hi.
    apply (ii_frame _ _ _ _ Hinv). intros hk e He ->. apply Hi, in_table_slot.
    by apply (ii_entries _ _ _ _ Hinv hk e).
  - simpl. rewrite Hp, length_fmap.
    pose proof (insert_loop_bound tbl (max_update_sz c) items st0 ltac:(simpl; lia)) as H. fold st in H. lia.
Qed.

(** ** update *)

Local Abbreviation update := (update K cfg num_sets cache_base accumulate_row).
Local Abbreviation search := (search_tag_storage_for_update K cfg num_sets cache_base).

(** The entry [search_tag_storage_for_update] makes for the [i]-th key. *)
Definition update_entry (tags : Z -> Z) (tbl d_values stride i k j : Z) : ModifyEntry :=
  {| e_src := d_values + i * stride; e_dst := slot_addr tbl (hash k) j;
     e_set := wrapu 32 (hash k); e_way := j; e_tag := tags (slot tbl (hash k) j) |}.

Lemma search_sound tags tbl dv stride max i keys acc e :
  e ∈ search tags tbl dv stride max i keys acc ->
  e ∈ acc \/ exists n k j, keys !! n = Some k /\ find_way tags tbl k = Some j /\
    e = update_entry tags tbl dv stride (i + Z.of_nat n) k j.
Proof.
  revert i acc. induction keys as [|k keys IH]; intros i acc; simpl; [by left|].
  destruct (_ <? max); [|by left]. intros He. apply IH in He as [He|(n & k' & j & Hn & Hf & ->)].
  - destruct (find_way tags tbl k) as [j|] eqn:Ef; [|by left].
    apply elem_of_app in He as [He|He]; [by left|]. right. apply list_elem_of_singleton in He as ->.
    exists 0%nat, k, j. split_and!; [done..|]. unfold update_entry. by replace (i + Z.of_nat 0) with i by lia.
  - right. exists (S n), k', j. split_and!; [done..|]. f_equal. lia.
Qed.

Lemma search_keeps tags tbl dv stride max i keys acc e :
  e ∈ acc -> e ∈ search tags tbl dv stride max i keys acc.
Proof.
  revert i acc. induction keys as [|k keys IH]; intros i acc He; simpl; [done|].
  destruct (_ <? max); [|done]. apply IH. destruct (HostModify.find_way _ _ _ _ _); [|done].
  apply elem_of_app. by left.
Qed.

Lemma search_complete tags tbl dv stride max i keys acc n k j :
  Z.of_nat (length acc) + Z.of_nat (length keys) <= max ->
  keys !! n = Some k -> find_way tags tbl k = Some j ->
  update_entry tags tbl dv stride (i + Z.of_nat n) k j ∈ search tags tbl dv stride max i keys acc.
Proof.
  revert i acc n. induction keys as [|k' keys IH]; intros i acc n Hb Hn Hf; [done|].
  cbn [search_tag_storage_for_update]. cbn [length] in Hb.
  rewrite (proj2 (Z.ltb_lt _ _)) by lia. destruct n as [|n]; simpl in Hn.
  - injection Hn as ->. rewrite Hf. apply search_keeps, elem_of_app. right.
    apply list_elem_of_singleton. unfold update_entry. by replace (i + Z.of_nat 0) with i by lia.
  - replace (i + Z.of_nat (S n)) with (i + 1 + Z.of_nat n) by lia. apply IH; [|done|done].
    destruct (find_way tags tbl k'); rewrite ?length_app; cbn [length]; lia.
Qed.

(** The rows [update] is given for the keys, relative to the new values. *)
Definition update_rows_ok (val' : Z -> list Z) (tbl : Z) (m : memory) (keys : list Z) (d_values stride : Z) : Prop :=
  forall n k, keys !! n = Some k ->
    valid_key k /\ outside tbl (d_values + Z.of_nat n * stride) /\
    mem_read m (d_values + Z.of_nat n * stride) row = val' k.

Lemma update_entry_write_ok val' tbl keys dv stride s n k j :
  wf_tags (h_tags s) tbl -> update_rows_ok val' tbl (mem s) keys dv stride ->
  keys !! n = Some k -> find_way (h_tags s) tbl k = Some j ->
  write_ok val' tbl (h_tags s) (mem s) (update_entry (h_tags s) tbl dv stride (Z.of_nat n) k j).
Proof.
  intros Hwf Hr Hn Hf. destruct (Hr n k Hn) as (Hk & Ho & Hv).
  destruct (find_way_Some _ _ _ _ Hwf Hk Hf) as [Hin Ht]. pose proof (hash_range k).
  assert (Ew : wrapu 32 (hash k) = hash k) by (apply wrapu_small; unfold in_u; lia).
  constructor; simpl; rewrite ?Ew; auto. by exists k.
Qed.

Lemma update_inv val val' tbl env c keys dv stride s :
  env_ok env -> Z.of_nat (length keys) <= max_update_sz c ->
  cache_inv val tbl s -> update_rows_ok val' tbl (mem s) keys dv stride ->
  (forall k, k ∉ keys -> val' k = val k) ->
  exists c' s', update env (Some c) keys dv stride tbl s = (ECERROR_SUCCESS, Some c', s') /\
    cache_inv val' tbl s' /\ kept tbl s s'.
Proof.
  intros Henv Hmax Hci Hr Hval. pose proof (ci_wf _ _ _ Hci) as Hwf. unfold HostModify.update.
  set (l := search _ _ _ _ _ _ _ _). set (c' := with_entries _ _ _ _).
  assert (Hw : forall e, e ∈ l -> write_ok val' tbl (h_tags s) (mem s) e).
  { intros e He. apply search_sound in He as [He|(n & k & j & Hn & Hf & ->)]; [by apply not_elem_of_nil in He|].
    by eapply update_entry_write_ok. }
  rewrite (modify_write env c') by (auto; by right).
  eexists c', _. split; [done|]. split.
  - apply write_entries_inv; [done|exact Hw| |].
    + intros. by apply (ci_agree _ _ _ Hci).
    + intros k j Hk Hf Hni. rewrite Hval; [by apply (ci_rows _ _ _ Hci)|].
      intros Hin. apply Hni. apply list_elem_of_lookup in Hin as [n Hn].
      pose proof (search_complete (h_tags s) tbl dv stride (max_update_sz c) 0 keys [] n k j
        ltac:(simpl; lia) Hn Hf) as He.
      apply list_elem_of_fmap. eexists. split; [|exact He]. simpl.
      pose proof (hash_range k). by rewrite wrapu_small by (unfold in_u; lia).
  - by apply (write_kept val' tbl _ _ (mem s) s).
Qed.

(** ** invalidate *)

Local Abbreviation invalidate := (invalidate K cfg num_sets accumulate_row).
Local Abbreviation invalidate_key := (invalidate_key K cfg num_sets).
Local Abbreviation invalidate_way := (invalidate_way K cfg num_sets).

Lemma wf_tags_clear tags tbl set way :
  in_set set way -> wf_tags tags tbl -> wf_tags (upd tags (slot tbl set way) sentinel) tbl.
Proof.
  intros Hin [Hg Hd].
  assert (Hc : forall s w, in_set s w -> upd tags (slot tbl set way) sentinel (slot tbl s w) = sentinel \/
     upd tags (slot tbl set way) sentinel (slot tbl s w) = tags (slot tbl s w)).
  { intros s w _. destruct (decide (slot tbl s w = slot tbl set way)) as [->|Hne].
    - left. by rewrite upd_eq.
    - right. by rewrite upd_ne. }
  split.
  - intros s w Hi. destruct (Hc s w Hi) as [-> | ->]; [by left|auto].
  - intros s w w' Hi Hi' Hne. destruct (Hc s w Hi) as [-> | ->]; [done|].
    destruct (Hc s w' Hi') as [-> | ->]; [done|]. by apply Hd.
Qed.

Lemma ofold_no_hit tbl max k tags l ways :
  (forall j, j ∈ ways -> (key_of (tags (slot tbl (hash k) j)) (hash k) =? k) = false) ->
  ofold (invalidate_way tbl max k) ways (tags, l) = Ok (tags, l).
Proof.
  induction ways as [|j ways IH]; intros Hno; simpl; [done|].
  rewrite Hno by (by left). simpl. apply IH. intros; apply Hno. by right.
Qed.

Definition clear_entry (k j : Z) : ModifyEntry :=
  {| e_src := 0; e_dst := 0; e_set := hash k; e_way := j; e_tag := sentinel |}.

(** A key is cleared from the one way that holds it. *)
Lemma invalidate_key_spec tbl max k tags l :
  wf_tags tags tbl -> valid_key k ->
  invalidate_key tbl max (tags, l) k =
    match find_way tags tbl k with
    | None => Ok (tags, l)
    | Some j =>
        if Z.of_nat (length l) <? max
        then Ok (upd tags (slot tbl (hash k) j) sentinel, l ++ [clear_entry k j])
        else Undef "write past the end of list->entries"
    end.
Proof.
  intros Hwf Hk. unfold HostModify.invalidate_key, HostModify.find_way.
  assert (Hw : forall j, j ∈ seqZ 0 NUM_WAYS -> in_set (hash k) j).
  { intros j Hj. split; [apply hash_range|by apply elem_of_ways]. }
  pose proof (NoDup_seqZ 0 NUM_WAYS) as Hnd.
  induction (seqZ 0 NUM_WAYS) as [|j ways IH]; simpl; [done|].
  apply NoDup_cons in Hnd as [Hnj Hnd].
  destruct (key_of (tags (slot tbl (hash k) j)) (hash k) =? k) eqn:Eh; simpl.
  - destruct (_ <? max); simpl; [|done]. apply ofold_no_hit. intros j' Hj'.
    assert (Hin : in_set (hash k) j) by (apply Hw; by left).
    assert (Hin' : in_set (hash k) j') by (apply Hw; by right).
    assert (j' <> j) by (intros ->; done).
    rewrite upd_ne by (intros E; apply slot_inj in E; [lia|done|done]).
    apply Z.eqb_eq, hit_iff in Eh; [|by apply wf_good|done|done].
    apply Z.eqb_neq. intros E%hit_iff; [|by apply wf_good|done|done].
    apply (tag_of_not_sentinel k Hk). rewrite <- Eh. eapply wf_distinct; eauto; congruence.
  - apply IH; [|done]. intros; apply Hw; by right.
Qed.

(** Progress of the loop over the keys: [done_] are the keys processed. *)
Record inval_inv (tbl : Z) (tags0 : Z -> Z) (done_ : list Z) (st : (Z -> Z) * list ModifyEntry) : Prop := {
  vi_wf : wf_tags st.1 tbl;
  vi_slots : forall e, e ∈ st.2 -> in_set (e_set e) (e_way e) /\ st.1 (e_slot tbl e) = sentinel;
  vi_frame : forall i, i ∉ e_slot tbl <$> st.2 -> st.1 i = tags0 i;
  vi_gone : forall k, k ∈ done_ -> valid_key k -> find_way st.1 tbl k = None;
  vi_len : (length st.2 <= length done_)%nat
}.

Lemma find_way_clear tags tbl k set way :
  in_set set way -> wf_tags tags tbl -> valid_key k -> find_way tags tbl k = None ->
  find_way (upd tags (slot tbl set way) sentinel) tbl k = None.
Proof.
  intros Hin Hwf Hk Hf. destruct (find_way (upd _ _ _) tbl k) as [j|] eqn:E; [|done].
  apply find_way_Some in E as [Hj Ht]; [|by apply wf_tags_clear|done]. exfalso.
  destruct (decide (slot tbl (hash k) j = slot tbl set way)) as [Es|Es].
  - rewrite Es, upd_eq in Ht. by apply (tag_of_not_sentinel k).
  - rewrite upd_ne in Ht by done. eapply find_way_None; eauto. apply Hj.
Qed.

Lemma inval_inv_step tbl max tags0 ks k st :
  inval_inv tbl tags0 ks st -> valid_key k -> Z.of_nat (length ks) < max ->
  exists st', invalidate_key tbl max st k = Ok st' /\ inval_inv tbl tags0 (ks ++ [k]) st'.
Proof.
  intros [Hwf Hs Hfr Hg Hlen] Hk Hmax. destruct st as [tags l]. simpl in *.
  rewrite invalidate_key_spec by done. destruct (find_way tags tbl k) as [j|] eqn:Ef.
  - rewrite (proj2 (Z.ltb_lt _ _)) by lia. eexists. split; [done|].
    destruct (find_way_Some _ _ _ _ Hwf Hk Ef) as [Hin Ht].
    pose proof (wf_tags_clear _ _ _ _ Hin Hwf) as Hwf'. constructor; simpl; [done| | | |].
    + intros e [He|He]%elem_of_app.
      * destruct (Hs e He) as [Hse Hv]. split; [done|]. unfold upd. by destruct (_ =? _).
      * apply list_elem_of_singleton in He as ->. split; [done|]. by rewrite upd_eq.
    + intros i Hi. rewrite fmap_app, not_elem_of_app in Hi. destruct Hi as [Hi Hi2].
      rewrite upd_ne; [auto|]. intros ->. apply Hi2. simpl. by left.
    + intros k' [Hk'|Hk']%elem_of_app Hv'.
      * apply find_way_clear; auto.
      * apply list_elem_of_singleton in Hk' as ->.
        destruct (find_way (upd _ _ _) tbl k) as [j'|] eqn:Ef'; [|done]. exfalso.
        apply find_way_Some in Ef' as [Hj' Ht']; [|done|done].
        destruct (decide (slot tbl (hash k) j' = slot tbl (hash k) j)) as [Es|Es].
        -- rewrite Es, upd_eq in Ht'. by apply (tag_of_not_sentinel k).
        -- rewrite upd_ne in Ht' by done. apply (tag_of_not_sentinel k Hk). rewrite <- Ht.
           eapply (wf_distinct _ _ Hwf _ j j'); eauto; congruence.
    + rewrite !length_app. simpl. lia.
  - eexists. split; [done|]. constructor; simpl; auto.
    + intros k' [Hk'|Hk']%elem_of_app Hv'; [auto|]. by apply list_elem_of_singleton in Hk' as ->.
    + rewrite length_app. lia.
Qed.

Lemma inval_loop tbl max tags0 keys ks st :
  inval_inv tbl tags0 ks st -> (forall k, k ∈ keys -> valid_key k) ->
  Z.of_nat (length ks) + Z.of_nat (length keys) <= max ->
  exists st', ofold (invalidate_key tbl max) keys st = Ok st' /\ inval_inv tbl tags0 (ks ++ keys) st'.
Proof.
  revert ks st. induction keys as [|k keys IH]; intros ks st Hinv Hv Hmax; simpl.
  - exists st. by rewrite app_nil_r.
  - simpl in Hmax. destruct (inval_inv_step tbl max tags0 ks k st) as (st' & -> & Hinv'); [done|apply Hv; by left|lia|].
    simpl. destruct (IH (ks ++ [k]) st') as (st'' & -> & H'); [done|intros; apply Hv; by right|rewrite length_app; simpl; lia|].
    exists st''. split; [done|]. by rewrite <- app_assoc in H'.
Qed.

Lemma invalidate_inv val val' tbl env c keys s :
  env_ok env -> Z.of_nat (length keys) <= max_update_sz c -> (forall k, k ∈ keys -> valid_key k) ->
  cache_inv val tbl s -> (forall k, k ∉ keys -> val' k = val k) ->
  exists c' s', invalidate env (Some c) keys tbl s = Ok (ECERROR_SUCCESS, Some c', s') /\
    cache_inv val' tbl s' /\ kept tbl s s' /\ (forall k, k ∈ keys -> find_way (h_tags s') tbl k = None).
Proof.
  intros Henv Hmax Hv Hci Hval. unfold HostModify.invalidate.
  destruct (inval_loop tbl (max_update_sz c) (h_tags s) keys [] (h_tags s, [])) as ( [tags l] & -> & Hinv).
  { constructor; simpl; [apply Hci| |done| |done]; intros x Hx; by apply not_elem_of_nil in Hx. }
  { done. } { simpl; lia. }
  destruct Hinv as [Hwf Hs Hfr Hg _]. simpl in *. set (c' := with_entries _ _ _ _).
  rewrite (modify_invalidate env c') by done. eexists c', _. split; [done|]. split_and!.
  - constructor; simpl; [done| |].
    + intros set way Hin. unfold tag_invalidate_kernel.
      destruct (decide (slot tbl set way ∈ e_slot tbl <$> l)) as [Hi|Hi].
      * destruct (fold_upd_in (e_slot tbl) (fun _ => sentinel) l (d_tags s) _ Hi) as (e & He & <- & ->).
        symmetry. by apply Hs.
      * rewrite (fold_upd_notin (e_slot tbl) (fun _ => sentinel)) by done.
        rewrite Hfr by done. by apply (ci_agree _ _ _ Hci).
    + intros k j Hk Hf. assert (Hnk : k ∉ keys).
      { intros Hin. rewrite Hg in Hf by done. done. }
      rewrite Hval by done. apply (ci_rows _ _ _ Hci); [done|].
      destruct (find_way_Some _ _ _ _ Hwf Hk Hf) as [ [_ Hj] Ht].
      apply find_way_hit; [apply Hci|done|done|]. rewrite <- Ht. symmetry. apply Hfr.
      intros (e & Es & He)%list_elem_of_fmap. apply (tag_of_not_sentinel k Hk).
      rewrite <- Ht, Es. by apply Hs.
  - constructor; simpl; [| |done].
    + intros i Hi. apply Hfr. intros (e & -> & He)%list_elem_of_fmap. apply Hi, in_table_slot. by apply Hs.
    + intros i Hi. apply (fold_upd_kept (fun _ => sentinel) tbl); [|done]. intros e He. by apply Hs.
  - simpl. auto.
Qed.

Lemma find_way_clear_other tags tbl k k' j :
  wf_tags tags tbl -> valid_key k -> valid_key k' -> k' <> k ->
  find_way tags tbl k = Some j -> is_Some (find_way tags tbl k') ->
  is_Some (find_way (upd tags (slot tbl (hash k) j) sentinel) tbl k').
Proof.
  intros Hwf Hk Hk' Hne Hf [j' Hf']. exists j'.
  destruct (find_way_Some _ _ _ _ Hwf Hk Hf) as [Hin Ht].
  destruct (find_way_Some _ _ _ _ Hwf Hk' Hf') as [Hin' Ht'].
  apply find_way_hit; [by apply wf_tags_clear|done|apply Hin'|].
  rewrite upd_ne; [done|]. intros E. pose proof E as E'. apply slot_inj in E' as [Eh _]; [|done|done].
  apply Hne. apply tag_of_inj; [done..|]. rewrite <- Ht, <- Ht'. by rewrite E.
Qed.

Lemma inval_overflow tbl max keys tags l :
  wf_tags tags tbl -> NoDup keys -> (forall k, k ∈ keys -> valid_key k /\ is_Some (find_way tags tbl k)) ->
  Z.of_nat (length l) <= max -> max < Z.of_nat (length l) + Z.of_nat (length keys) ->
  ofold (invalidate_key tbl max) keys (tags, l) = Undef "write past the end of list->entries".
Proof.
  revert tags l. induction keys as [|k keys IH]; intros tags l Hwf Hnd Hres Hle Hgt; cbn [length ofold] in *; [lia|].
  apply NoDup_cons in Hnd as [Hnk Hnd]. destruct (Hres k) as [Hk [j Hf] ]; [by left|].
  rewrite invalidate_key_spec, Hf by done.
  destruct (Z.ltb_spec (Z.of_nat (length l)) max); simpl; [|done].
  destruct (find_way_Some _ _ _ _ Hwf Hk Hf) as [Hin _].
  apply IH; [by apply wf_tags_clear|done| |rewrite length_app; cbn [length]; lia..].
  intros k' Hk'. destruct (Hres k') as [Hv Hf']; [by right|]. split; [done|].
  apply find_way_clear_other; auto. intros ->. done.
Qed.

(** ** clear_cache *)

Local Abbreviation clear_cache := (clear_cache cfg num_sets).

Lemma in_storage_slot tbl set way :
  0 <= tbl < num_tables cfg -> in_set set way -> in_storage cfg num_sets (slot tbl set way) = true.
Proof.
  unfold in_set, in_storage, HostModify.slot, NUM_WAYS. intros Ht Hin.
  rewrite andb_true_iff, Z.leb_le, Z.ltb_lt. nia.
Qed.

Lemma clear_cache_inv val tbl s :
  0 <= tbl < num_tables cfg -> cache_inv val tbl (clear_cache true s).2.
Proof.
  intros Ht. unfold HostModify.clear_cache. simpl.
  assert (Hs : forall set way, in_set set way -> in_storage cfg num_sets (slot tbl set way) = true).
  { intros. by apply in_storage_slot. }
  assert (Hwf : wf_tags (fun i => if in_storage cfg num_sets i then sentinel else h_tags s i) tbl).
  { split; [intros set way Hin; rewrite Hs by done; by left|intros set way way' H1 H2 _; by rewrite Hs]. }
  constructor; simpl; [done| |].
  - intros set way Hin. by rewrite Hs.
  - intros k j Hk Hf. destruct (find_way_Some _ _ _ _ Hwf Hk Hf) as [Hin Ht'].
    rewrite Hs in Ht' by done. by apply (tag_of_not_sentinel k) in Hk.
Qed.

(** ** Lookup *)

Local Abbreviation get_address := (embed_cache_get_address K cfg num_sets cache_base).
Local Abbreviation way_mask := (embed_cache_get_way_mask K num_sets).

(** [__ffs(mask) - 1] of the mask of the hits is the first hit. *)
Lemma mask_find (f : Z -> bool) :
  let mask := fold_left (fun out i => Z.lor out (Z.shiftl (Z.b2z (f i)) i)) (seqZ 0 NUM_WAYS) 0 in
  match List.find f (seqZ 0 NUM_WAYS) with
  | None => mask = 0
  | Some j => mask <> 0 /\ ffs_pred mask = j
  end.
Proof.
  change (seqZ 0 NUM_WAYS) with [0; 1; 2; 3; 4; 5; 6; 7]. cbn [List.find fold_left].
  destruct (f 0), (f 1), (f 2), (f 3), (f 4), (f 5), (f 6), (f 7); vm_compute; done.
Qed.

(** The mask of the lookup kernel and the search of the host agree. *)
Lemma way_mask_find tags tbl k :
  match find_way tags tbl k with
  | None => way_mask tags tbl k = 0
  | Some j => way_mask tags tbl k <> 0 /\ ffs_pred (way_mask tags tbl k) = j
  end.
Proof.
  set (f := fun j => key_of (tags (slot tbl (hash k) j)) (hash k) =? k).
  assert (E : way_mask tags tbl k =
    fold_left (fun out i => Z.lor out (Z.shiftl (Z.b2z (f i)) i)) (seqZ 0 NUM_WAYS) 0).
  { unfold HostModify.embed_cache_get_way_mask. generalize 0 at 2 4.
    induction (seqZ 0 NUM_WAYS) as [|i l IH]; intros o; simpl; [done|].
    unfold f at 2, HostModify.key_of. rewrite !construct_key_conv by done. apply IH. }
  rewrite E. apply (mask_find f).
Qed.

(** Address of a lookup: the slot of the key on a hit, its row of the table on
    a miss. *)
Lemma get_address_spec tags table tbl k :
  get_address tags table tbl k =
    match find_way tags tbl k with
    | Some j => slot_addr tbl (hash k) j
    | None => if table =? 0 then 0 else wrapu 64 (table + k * row)
    end.
Proof.
  unfold HostModify.embed_cache_get_address. pose proof (way_mask_find tags tbl k) as H.
  destruct (find_way tags tbl k) as [j|].
  - destruct H as [Hne ->]. rewrite (proj2 (Z.eqb_neq _ _)) by done. unfold HostModify.slot_addr. ring.
  - by rewrite H.
Qed.

Lemma find_way_device val tbl s k :
  cache_inv val tbl s -> find_way (d_tags s) tbl k = find_way (h_tags s) tbl k.
Proof.
  intros Hci. apply find_way_ext. intros j Hj. apply (ci_agree _ _ _ Hci). split; [apply hash_range|done].
Qed.

Local Abbreviation lookup_row := (lookup_row K cfg num_sets cache_base).

Lemma lookup_transparent val tbl s table k :
  cache_inv val tbl s -> valid_key k -> table <> 0 -> in_u 64 (table + k * row) ->
  mem_read (mem s) (table + k * row) row = val k -> lookup_row s table tbl k = val k.
Proof.
  intros Hci Hk Hnz Ha Hr. unfold HostModify.lookup_row.
  rewrite get_address_spec, (find_way_device val) by done.
  destruct (find_way (h_tags s) tbl k) as [j|] eqn:Ef; [by apply (ci_rows _ _ _ Hci)|].
  rewrite (proj2 (Z.eqb_neq _ _)), wrapu_small by done. done.
Qed.

(** ** Runs of the cache *)

(** The rows the application means, per table and key. *)
Definition values : Type := Z -> Z -> list Z.
Definition set_values (v : values) (tbl : Z) (v' : Z -> list Z) : values :=
  fun t => if t =? tbl then v' else v t.
Definition is_table (tbl : Z) : Prop := 0 <= tbl < num_tables cfg.

(** One call that succeeds, or the application writing memory that is not the
    cache's. An update or an invalidation may give its keys new rows. *)
Inductive step : values * hm_state -> values * hm_state -> Prop :=
  | step_insert v s s' env c c' items tbl :
      is_table tbl -> env_ok env -> 0 <= max_update_sz c -> batch_ok (v tbl) tbl (mem s) items ->
      insert env (Some c) items tbl s = (ECERROR_SUCCESS, Some c', s') -> step (v, s) (v, s')
  | step_update v v' s s' env c c' keys dv stride tbl :
      is_table tbl -> env_ok env -> Z.of_nat (length keys) <= max_update_sz c ->
      update_rows_ok v' tbl (mem s) keys dv stride -> (forall k, k ∉ keys -> v' k = v tbl k) ->
      update env (Some c) keys dv stride tbl s = (ECERROR_SUCCESS, Some c', s') ->
      step (v, s) (set_values v tbl v', s')
  | step_invalidate v v' s s' env c c' keys tbl :
      is_table tbl -> env_ok env -> Z.of_nat (length keys) <= max_update_sz c ->
      (forall k, k ∈ keys -> valid_key k) -> (forall k, k ∉ keys -> v' k = v tbl k) ->
      invalidate env (Some c) keys tbl s = Ok (ECERROR_SUCCESS, Some c', s') ->
      step (v, s) (set_values v tbl v', s')
  | step_clear v v' s : step (v, s) (v', (clear_cache true s).2)
  | step_null_context v s env items tbl e s' :
      insert env None items tbl s = (e, None, s') -> step (v, s) (v, s')
  | step_application v s m :
      (forall tbl a, is_table tbl -> slot_addr tbl 0 0 <= a < slot_addr tbl num_sets 0 -> m a = mem s a) ->
      step (v, s) (v, set_mem s m).

Definition all_inv (w : values * hm_state) : Prop := forall tbl, is_table tbl -> cache_inv (w.1 tbl) tbl w.2.

Lemma table_step_inv v v' s s' tbl :
  all_inv (v, s) -> cache_inv v' tbl s' -> kept tbl s s' -> all_inv (set_values v tbl v', s').
Proof.
  intros Hall Hci Hk t Ht. simpl. unfold set_values.
  destruct (Z.eqb_spec t tbl) as [->|Hne]; [done|]. eapply kept_cache_inv; [|done|by apply Hall]. done.
Qed.

Lemma all_inv_ext v v' s : (forall t, v t = v' t) -> all_inv (v, s) -> all_inv (v', s).
Proof. intros He H t Ht. simpl. rewrite <- He. by apply H. Qed.

Lemma set_values_self v tbl t : set_values v tbl (v tbl) t = v t.
Proof. unfold set_values. by destruct (Z.eqb_spec t tbl) as [->|]. Qed.

Lemma set_mem_inv val tbl s m :
  (forall a, slot_addr tbl 0 0 <= a < slot_addr tbl num_sets 0 -> m a = mem s a) ->
  cache_inv val tbl s -> cache_inv val tbl (set_mem s m).
Proof.
  intros Hm [Hwf Hag Hr]. constructor; simpl; [done..|]. intros k j Hk Hf.
  rewrite <- (Hr k j Hk Hf). apply mem_read_ext. intros a Ha. apply Hm.
  destruct (find_way_Some _ _ _ _ Hwf Hk Hf) as [Hin _]. by eapply slot_addr_in.
Qed.

Lemma step_inv w w' : step w w' -> all_inv w -> all_inv w'.
Proof.
  intros Hs Hall. destruct Hs as [v s s' env c c' items tbl Ht Henv Hmax Hb E
    | v v' s s' env c c' keys dv stride tbl Ht Henv Hmax Hr Hv E
    | v v' s s' env c c' keys tbl Ht Henv Hmax Hk Hv E | v v' s | v s env items tbl e s' E | v s m Hm].
  - destruct (insert_inv (v tbl) tbl env c items s) as (c2 & s2 & E2 & Hci & Hkept & _); [done..|by apply (Hall tbl)|done|].
    rewrite E2 in E. injection E as _ <-.
    eapply all_inv_ext; [apply (set_values_self v tbl)|]. by apply (table_step_inv v _ s).
  - destruct (update_inv (v tbl) v' tbl env c keys dv stride s) as (c2 & s2 & E2 & Hci & Hkept); [done|done|by apply (Hall tbl)|done|done|].
    rewrite E2 in E. injection E as _ <-. by apply (table_step_inv v _ s).
  - destruct (invalidate_inv (v tbl) v' tbl env c keys s) as (c2 & s2 & E2 & Hci & Hkept & _); [done..|by apply (Hall tbl)|done|].
    rewrite E2 in E. injection E as _ <-. by apply (table_step_inv v _ s).
  - intros t Ht. by apply clear_cache_inv.
  - simpl in E. by simplify_eq.
  - intros t Ht. simpl. apply set_mem_inv; [by intros; eapply Hm|by apply Hall].
Qed.

Lemma steps_inv w w' : rtc step w w' -> all_inv w -> all_inv w'.
Proof. induction 1; eauto using step_inv. Qed.

(** ** Residency *)

Local Abbreviation insert_one := (insert_one K T cfg num_sets cache_base).

(** A batch of one key: resident afterwards iff it was resident or its priority
    is not below the least counter of its set (after the decay). *)
Lemma insert_one_resident val tbl env c k p d s :
  env_ok env -> 1 <= max_update_sz c -> cache_inv val tbl s -> batch_ok val tbl (mem s) [(k, p, d)] ->
  let ctr := decay num_sets decay_rate (h_counters s) tbl in
  let cand := min_way num_sets ctr tbl (hash k) in
  exists c' s', insert env (Some c) [(k, p, d)] tbl s = (ECERROR_SUCCESS, Some c', s') /\
    find_way (d_tags s') tbl k =
      match find_way (h_tags s) tbl k with
      | Some j => Some j
      | None => if f32_lt p (ctr (slot tbl (hash k) cand)) then None else Some cand
      end.
Proof.
  intros Henv Hmax Hci Hb ctr cand.
  destruct (insert_inv val tbl env c [(k, p, d)] s) as (c' & s' & E & Hci' & _); [done|lia|done|done|].
  exists c', s'. split; [done|]. rewrite (find_way_device val) by done.
  assert (Hh : h_tags s' = i_tags (insert_one tbl {| i_tags := h_tags s; i_counters := ctr; i_map := [] |} (k, p, d))).
  { unfold HostModify.insert in E. cbn [insert_loop length i_map] in E.
    rewrite (proj2 (Z.ltb_lt _ _)) in E by lia.
    rewrite modify_write in E by (auto; by left). injection E as _ <-. done. }
  rewrite Hh. unfold HostModify.insert_one.
  cbn [i_tags i_counters i_map]. destruct (find_way (h_tags s) tbl k) as [j|] eqn:Ef; [done|].
  fold cand. destruct (f32_lt p _); [done|]. simpl.
  assert (Hk : valid_key k) by (eapply Hb; by left).
  apply find_way_hit; [|done|apply min_way_range|by rewrite upd_eq].
  apply wf_tags_upd; auto; [apply Hci|apply min_way_range].
Qed.

(** The key rebuilt by the scan is the key of the lookup. *)
Lemma scan_key t i : width K <= 64 -> conv K (wrapu 64 (wrapu 64 t * num_sets + i)) = key_of t i.
Proof.
  intros Hw. unfold HostModify.key_of. rewrite construct_key_conv by done. apply conv_mod_eq; [lia|].
  unfold wrapu. rewrite mod_pow2_mod by lia.
  rewrite <- (Zplus_mod_idemp_l (t mod 2 ^ 64 * num_sets)), <- (Zplus_mod_idemp_l (t mod 2 ^ width K * num_sets)).
  rewrite <- (Zmult_mod_idemp_l (t mod 2 ^ 64)), mod_pow2_mod by lia. done.
Qed.

Lemma get_keys_lemma s k :
  width K <= 64 -> wf_tags (h_tags s) 0 -> valid_key k ->
  k ∈ get_keys_stored_in_cache K cfg num_sets s <-> is_Some (find_way (h_tags s) 0 k).
Proof.
  intros Hw Hwf Hk. unfold get_keys_stored_in_cache.
  assert (Hslot : forall i j, i * NUM_WAYS + j = slot 0 i j) by (unfold HostModify.slot; lia).
  split.
  - intros (i & Hx & Hi%elem_of_seqZ)%list_elem_of_bind. apply list_elem_of_bind in Hx as (j & Hx & Hj%elem_of_ways).
    rewrite Hslot in Hx. assert (Hin : in_set i j) by (unfold in_set; lia).
    destruct (Z.eqb_spec (h_tags s (slot 0 i j)) sentinel) as [E|E]; [by apply not_elem_of_nil in Hx|].
    apply list_elem_of_singleton in Hx. rewrite scan_key in Hx by done.
    destruct (wf_good _ _ Hwf i j Hin) as [?|(k' & Hk' & Hh & Ht)]; [done|].
    rewrite Ht, <- Hh, key_of_tag_of in Hx by done. subst k'.
    exists j. apply find_way_hit; [done|done|done|by rewrite Hh].
  - intros [j Hf]. destruct (find_way_Some _ _ _ _ Hwf Hk Hf) as [Hin Ht].
    apply list_elem_of_bind. exists (hash k). split; [|apply elem_of_seqZ; apply Hin].
    apply list_elem_of_bind. exists j. split; [|apply elem_of_ways; apply Hin].
    rewrite Hslot, Ht, (proj2 (Z.eqb_neq _ _)) by (by apply tag_of_not_sentinel).
    apply list_elem_of_singleton. by rewrite scan_key, key_of_tag_of.
Qed.

(** ** Properties *)

(** C2. The cache is transparent: after any sequence of successful inserts,
    updates, invalidations and clears on any tables, interleaved with writes of
    the application to memory that is not the cache's, a lookup backed by a table
    delivers exactly the row the application associates with the key, whether
    the key hits in the cache or misses and is read from the table. *)
Theorem lookup_never_stale (s0 : hm_state) (v0 v : values) (s : hm_state) (table tbl k : Z) :
  rtc step (v0, (clear_cache true s0).2) (v, s) ->
  is_table tbl -> valid_key k -> table <> 0 -> in_u 64 (table + k * row) ->
  mem_read (mem s) (table + k * row) row = v tbl k ->
  lookup_row s table tbl k = v tbl k.
Proof.
  intros Hsteps Htbl Hk Hnz Ha Hr.
  assert (Hall : all_inv (v, s)) by (eapply steps_inv; [done|]; intros t Ht; by apply clear_cache_inv).
  apply lookup_transparent; auto.
Qed.

(** C15. Every operation of the cache preserves its invariant and stays within the
    modify list: an insert of a well-formed batch returns success, collects at
    most [max_update_sz] entries, keeps the tags of each set distinct and equal on
    host and device with every hit row right, and does not touch the tags, rows
    or other memory outside its table. *)
Theorem insert_preserves_invariant (val : Z -> list Z) (tbl : Z) (env : modify_env) (c : ModifyContext)
    (items : list (Z * f32 * Z)) (s : hm_state) :
  env_ok env -> 0 <= max_update_sz c -> cache_inv val tbl s -> batch_ok val tbl (mem s) items ->
  exists c' s', insert env (Some c) items tbl s = (ECERROR_SUCCESS, Some c', s') /\
    cache_inv val tbl s' /\ kept tbl s s' /\ Z.of_nat (length (entries c')) <= max_update_sz c.
Proof. apply insert_inv. Qed.

(** C29. Replacement policy: a batch of one key leaves the key resident on the
    device, in the way it already had or in the way with the least counter of its
    set after the decay, exactly when it was resident or its priority is not
    below that counter; otherwise the key stays out. *)
Theorem insert_replacement (val : Z -> list Z) (tbl : Z) (env : modify_env) (c : ModifyContext)
    (k : Z) (p : f32) (d : Z) (s : hm_state) :
  env_ok env -> 1 <= max_update_sz c -> cache_inv val tbl s -> batch_ok val tbl (mem s) [(k, p, d)] ->
  let ctr := decay num_sets decay_rate (h_counters s) tbl in
  exists cand, 0 <= cand < NUM_WAYS /\
    (forall j, 0 <= j < NUM_WAYS -> f32_lt (ctr (slot tbl (hash k) j)) (ctr (slot tbl (hash k) cand)) = false) /\
  exists c' s', insert env (Some c) [(k, p, d)] tbl s = (ECERROR_SUCCESS, Some c', s') /\
    find_way (d_tags s') tbl k =
      match find_way (h_tags s) tbl k with
      | Some j => Some j
      | None => if f32_lt p (ctr (slot tbl (hash k) cand)) then None else Some cand
      end.
Proof.
  intros Henv Hmax Hci Hb ctr. exists (min_way num_sets ctr tbl (hash k)). split; [apply min_way_range|].
  split; [apply min_way_least|]. by apply (insert_one_resident val).
Qed.

(** C18. An update of at most [max_update_sz] keys succeeds, and every hit of any
    key then delivers the new row of that key (keys that were not updated keep
    their row), in the same ways as before. *)
Theorem update_reaches_all_hits (val val' : Z -> list Z) (tbl : Z) (env : modify_env) (c : ModifyContext)
    (keys : list Z) (dv stride : Z) (s : hm_state) :
  env_ok env -> Z.of_nat (length keys) <= max_update_sz c ->
  cache_inv val tbl s -> update_rows_ok val' tbl (mem s) keys dv stride ->
  (forall k, k ∉ keys -> val' k = val k) ->
  exists c' s', update env (Some c) keys dv stride tbl s = (ECERROR_SUCCESS, Some c', s') /\
    cache_inv val' tbl s' /\ kept tbl s s' /\ h_tags s' = h_tags s.
Proof.
  intros Henv Hmax Hci Hr Hv.
  destruct (update_inv val val' tbl env c keys dv stride s) as (c' & s' & E & Hci' & Hk); auto.
  exists c', s'. split_and!; auto. unfold HostModify.update in E.
  rewrite modify_write in E by (auto; by right). by injection E as _ <-.
Qed.

(** An invalidation of at most [max_update_sz] keys succeeds and removes every
    one of them: no way of the device hits any of the keys afterwards, whatever
    rows the application then gives them, and other keys keep their rows. *)
Theorem invalidate_forgets (val val' : Z -> list Z) (tbl : Z) (env : modify_env) (c : ModifyContext)
    (keys : list Z) (s : hm_state) :
  env_ok env -> Z.of_nat (length keys) <= max_update_sz c -> (forall k, k ∈ keys -> valid_key k) ->
  cache_inv val tbl s -> (forall k, k ∉ keys -> val' k = val k) ->
  exists c' s', invalidate env (Some c) keys tbl s = Ok (ECERROR_SUCCESS, Some c', s') /\
    cache_inv val' tbl s' /\ (forall k, k ∈ keys -> find_way (d_tags s') tbl k = None).
Proof.
  intros Henv Hmax Hk Hci Hv.
  destruct (invalidate_inv val val' tbl env c keys s) as (c' & s' & E & Hci' & _ & Hg); auto.
  exists c', s'. split_and!; auto. intros k Hin. rewrite (find_way_device val') by done. auto.
Qed.

(** C39. [invalidate] does not bound its entries: given more than [max_update_sz]
    distinct resident keys it writes past the end of [list->entries]
    ([insert] and [update] stop at [max_update_sz], and [GpuTable::erase] passes
    the caller's key count through). *)
Theorem invalidate_overflows (tbl : Z) (env : modify_env) (c : ModifyContext) (keys : list Z) (s : hm_state) :
  wf_tags (h_tags s) tbl -> NoDup keys ->
  (forall k, k ∈ keys -> valid_key k /\ is_Some (find_way (h_tags s) tbl k)) ->
  0 <= max_update_sz c < Z.of_nat (length keys) ->
  invalidate env (Some c) keys tbl s = Undef "write past the end of list->entries".
Proof.
  intros Hwf Hnd Hres Hmax. unfold HostModify.invalidate.
  by rewrite (inval_overflow tbl (max_update_sz c) keys (h_tags s) []) by (done || simpl; lia).
Qed.

(** The key listing of the cache is exact: [get_keys_stored_in_cache] returns
    a key iff the key is resident in table 0. *)
Theorem get_keys_exact (s : hm_state) (k : Z) :
  width K <= 64 -> wf_tags (h_tags s) 0 -> valid_key k ->
  k ∈ get_keys_stored_in_cache K cfg num_sets s <-> is_Some (find_way (h_tags s) 0 k).
Proof. apply get_keys_lemma. Qed.

End Coherence.

(** ** Witnesses: a cache of two tables with three sets and rows of four bytes *)

Definition demo_cc : CacheConfig :=
  {| cache_sz_in_bytes := 4096; embed_width_in_bytes := 4; num_tables := 2;
     allocate_data_on_host := false; sentinel_key := -1 |}.
Definition demo_ctx (n : Z) : ModifyContext :=
  {| entries := []; max_update_sz := n; table_index := 0; op := MODIFY_REPLACE;
     input_type := DATATYPE_FP32; output_type := DATATYPE_FP32 |}.
Definition demo_ok_env : modify_env :=
  {| memcpy_list_ok := true; memcpy_entries_ok := true; tag_invalidate_ok := true; synchronize_ok := true;
     event_record := 0; event_wait_stream := 0; mem_update_ok := true; tag_update_ok := true |}.
Definition demo_acc : DataTypeFormat -> DataTypeFormat -> Z -> Z -> Z -> memory -> memory :=
  fun _ _ _ _ _ m => m.
(** Memory whose byte at address [a] is [a mod 251]; the table is at 1000. *)
Definition demo_state : hm_state :=
  {| h_tags := fun _ => 7; d_tags := fun _ => 7; h_counters := fun _ => f32_zero; mem := fun a => a mod 251 |}.
Definition demo_clear : hm_state := (clear_cache demo_cc 3 true demo_state).2.
Definition demo_val (k : Z) : list Z := mem_read (mem demo_state) (1000 + k * 4) 4.

Lemma demo_valid k : 0 <= k < 1000 -> valid_key int64_t int64_t demo_cc 3 k.
Proof.
  intros Hk. apply nonneg_storable; simpl; try reflexivity; try lia.
  apply Z.div_lt_upper_bound; lia.
Qed.

Lemma demo_outside tbl a : 0 <= tbl < 2 -> 1000 <= a -> outside demo_cc 3 0 tbl a.
Proof. intros Ht Ha set way [Hs Hw]. unfold disjoint, slot_addr, NUM_WAYS in *. simpl. lia. Qed.

Lemma demo_batch tbl k : 0 <= tbl < 2 -> 0 <= k < 1000 ->
  batch_ok int64_t int64_t demo_cc 3 0 demo_val tbl (mem demo_state) [(k, f32_one, 1000 + k * 4)].
Proof.
  intros Ht Hk k' p d Hin%list_elem_of_singleton. injection Hin as -> -> ->.
  split; [by apply demo_valid|]. split; [apply demo_outside; lia|done].
Qed.

Lemma demo_inv tbl : 0 <= tbl < 2 -> cache_inv int64_t int64_t demo_cc 3 0 demo_val tbl demo_clear.
Proof. intros Ht. apply clear_cache_inv; [done|done|by simpl|done]. Qed.

Local Abbreviation demo_insert := (insert int64_t int64_t demo_cc 3 0 f32_one id demo_acc).
Local Abbreviation demo_step := (step int64_t int64_t demo_cc 3 0 f32_one id demo_acc).

Definition demo_resident : hm_state :=
  (demo_insert demo_ok_env (Some (demo_ctx 4)) [(5, f32_one, 1020)] 1 demo_clear).2.

Lemma demo_insert_ok :
  exists c', demo_insert demo_ok_env (Some (demo_ctx 4)) [(5, f32_one, 1020)] 1 demo_clear = (0, Some c', demo_resident) /\
    cache_inv int64_t int64_t demo_cc 3 0 demo_val 1 demo_resident.
Proof.
  destruct (insert_inv int64_t int64_t demo_cc 3 0 f32_one id demo_acc eq_refl eq_refl ltac:(lia) eq_refl
    (fun l => Permutation_refl l) demo_val 1 demo_ok_env (demo_ctx 4) [(5, f32_one, 1020)] demo_clear)
    as (c' & s' & E & H & _); [done|done|by apply demo_inv|by apply (demo_batch 1 5)|].
  assert (Es : s' = demo_resident) by exact (f_equal snd (eq_sym E)).
  exists c'. rewrite <- Es. exact (conj E H).
Qed.

Lemma lookup_never_stale_witness :
  embed_cache_get_address int64_t demo_cc 3 0 (d_tags demo_resident) 1000 1 5 <> 1020 /\
  lookup_row int64_t demo_cc 3 0 demo_resident 1000 1 5 = demo_val 5.
Proof.
  split; [vm_compute; discriminate|].
  apply (lookup_never_stale int64_t int64_t demo_cc 3 0 f32_one id demo_acc eq_refl eq_refl ltac:(lia) eq_refl
    (fun l => Permutation_refl l) demo_state (fun _ => demo_val) (fun _ => demo_val) demo_resident 1000 1 5).
  - destruct demo_insert_ok as (c' & E & _). apply rtc_once.
    apply (step_insert _ _ _ _ _ _ _ _ _ _ _ demo_ok_env (demo_ctx 4) c' [(5, f32_one, 1020)] 1).
    + unfold is_table; simpl; lia.
    + repeat split.
    + vm_compute; discriminate.
    + apply (demo_batch 1 5); lia.
    + exact E.
  - unfold is_table; simpl; lia.
  - apply demo_valid; lia.
  - lia.
  - unfold in_u; simpl; lia.
  - reflexivity.
Defined.

Lemma insert_preserves_invariant_witness :
  exists c' s', demo_insert demo_ok_env (Some (demo_ctx 4)) [(5, f32_one, 1000 + 5 * 4)] 1 demo_clear = (0, Some c', s') /\
    cache_inv int64_t int64_t demo_cc 3 0 demo_val 1 s'.
Proof.
  destruct (insert_preserves_invariant int64_t int64_t demo_cc 3 0 f32_one id demo_acc eq_refl eq_refl ltac:(lia) eq_refl
    (fun l => Permutation_refl l) demo_val 1 demo_ok_env (demo_ctx 4) [(5, f32_one, 1000 + 5 * 4)] demo_clear)
    as (c' & s' & E & H & _).
  - done.
  - done.
  - by apply demo_inv.
  - by apply demo_batch.
  - exists c', s'. exact (conj E H).
Defined.

Lemma insert_replacement_witness :
  exists cand c' s', demo_insert demo_ok_env (Some (demo_ctx 4)) [(5, f32_one, 1000 + 5 * 4)] 1 demo_clear = (0, Some c', s') /\
    0 <= cand < NUM_WAYS /\ find_way int64_t 3 (d_tags s') 1 5 = Some cand.
Proof.
  destruct (insert_replacement int64_t int64_t demo_cc 3 0 f32_one id demo_acc eq_refl eq_refl ltac:(lia) eq_refl
    (fun l => Permutation_refl l) demo_val 1 demo_ok_env (demo_ctx 4) 5 f32_one (1000 + 5 * 4) demo_clear)
    as (cand & Hcand & _ & c' & s' & E & H).
  - done.
  - done.
  - by apply demo_inv.
  - by apply demo_batch.
  - exists cand, c', s'. split; [exact E|]. split; [exact Hcand|]. rewrite H.
    assert (Hz : forall x, f32_lt f32_one (decay 3 f32_one (h_counters demo_clear) 1 x) = false).
    { intros x. assert (Hc : h_counters demo_clear x = f32_zero).
      { change (h_counters demo_clear x) with (if in_storage demo_cc 3 x then f32_zero else f32_zero).
        destruct (in_storage demo_cc 3 x); reflexivity. }
      unfold decay. rewrite Hc. destruct (_ && _); vm_compute; reflexivity. }
    rewrite Hz. vm_compute. reflexivity.
Defined.

Lemma update_reaches_all_hits_witness :
  exists c' s', update int64_t demo_cc 3 0 demo_acc demo_ok_env (Some (demo_ctx 4)) [0; 1] 1000 4 1 demo_clear = (0, Some c', s') /\
    cache_inv int64_t int64_t demo_cc 3 0 demo_val 1 s'.
Proof.
  destruct (update_reaches_all_hits int64_t int64_t demo_cc 3 0 demo_acc eq_refl eq_refl ltac:(lia) eq_refl
    demo_val demo_val 1 demo_ok_env (demo_ctx 4) [0; 1] 1000 4 demo_clear)
    as (c' & s' & E & H & _).
  - done.
  - done.
  - by apply demo_inv.
  - intros [|[|n] ] k Hk; simpl in Hk; simplify_eq; (split; [by apply demo_valid|]; split; [by apply demo_outside|reflexivity]).
  - done.
  - exists c', s'. exact (conj E H).
Defined.

Lemma invalidate_forgets_witness :
  exists c' s', invalidate int64_t demo_cc 3 demo_acc demo_ok_env (Some (demo_ctx 4)) [5; 6] 1 demo_resident = Ok (0, Some c', s') /\
    find_way int64_t 3 (d_tags s') 1 5 = None.
Proof.
  destruct (invalidate_forgets int64_t int64_t demo_cc 3 0 demo_acc eq_refl eq_refl ltac:(lia)
    demo_val demo_val 1 demo_ok_env (demo_ctx 4) [5; 6] demo_resident) as (c' & s' & E & _ & H).
  - done.
  - done.
  - intros k Hk. apply demo_valid. rewrite !elem_of_cons, elem_of_nil in Hk. lia.
  - destruct demo_insert_ok as (c' & _ & H); exact H.
  - done.
  - exists c', s'. split; [exact E|]. apply H. by left.
Defined.

Lemma invalidate_overflows_witness :
  invalidate int64_t demo_cc 3 demo_acc demo_ok_env (Some (demo_ctx 0)) [5] 1 demo_resident
    = Undef "write past the end of list->entries".
Proof.
  apply (invalidate_overflows int64_t int64_t demo_cc 3 demo_acc eq_refl eq_refl ltac:(lia)).
  - destruct demo_insert_ok as (c' & _ & H); exact (ci_wf _ _ _ _ _ _ _ _ H).
  - apply NoDup_singleton.
  - intros k Hk%list_elem_of_singleton. subst k. split; [by apply demo_valid|]. exists 0. reflexivity.
  - simpl. lia.
Defined.

Lemma get_keys_exact_witness : 5 ∉ get_keys_stored_in_cache int64_t demo_cc 3 demo_clear.
Proof.
  rewrite (get_keys_exact int64_t int64_t demo_cc 3 eq_refl eq_refl ltac:(lia) demo_clear 5).
  - intros [j Hj]. vm_compute in Hj. discriminate.
  - simpl. lia.
  - by apply (demo_inv 0).
  - by apply demo_valid.
Defined.
