(* ===== verification/DeviceModify.v ===== *)
(** * The device-managed set-associative cache

    [CacheSADeviceModify<IndexT, TagT>] of [ec_set_associative_device_modify.cuh] with the
    kernels of [ec_set_associative_modify.cuh]: tags, counters and rows are on the device
    and the entries to modify are found there. Eight lanes of a warp serve one set; their
    values are a list. The sort, run-length encoding and prefix sum of
    CUB are parameters, and so is the order in which threads append to the list of
    entries. *)
From S2P Require Import Prelude EcHash SetAssoc Float32 HostModify CacheCoherence.

Definition f32_gt (a b : f32) : bool := f32_lt b a.
Definition f32_ne (a b : f32) : bool := negb (SFeqb a b).

(** ** Sorting networks over the lanes of a set *)

(** A priority or counter with a position, per lane. *)
Abbreviation lanes := (list (f32 * Z)).
Definition lane (l : lanes) (i : Z) : f32 * Z := default (f32_zero, 0) (l !! Z.to_nat i).

(** One exchange step: lane [i] takes the value of lane [i ^ j] where [swap] says so. *)
Definition exchange (swap : Z -> bool) (j : Z) (l : lanes) : lanes :=
  (fun i => lane l (if swap i then Z.lxor i j else i)) <$> seqZ 0 NUM_WAYS.

(** The test of [SortBlock]. *)
Definition sort_swap (k j : Z) (l : lanes) (i : Z) : bool :=
  let pair_idx := Z.lxor i j in
  let count := (lane l i).1 in
  let pair_count := (lane l pair_idx).1 in
  if f32_ne count pair_count then
    let in_order_pos := pair_idx <? i in
    let in_order_count := f32_gt count pair_count in
    if negb (Z.land i k =? 0) then negb (Bool.eqb in_order_pos in_order_count)
    else Bool.eqb in_order_pos in_order_count
  else false.

Definition sort_steps : list (Z * Z) := [(2, 1); (4, 2); (4, 1); (8, 4); (8, 2); (8, 1)].
Definition SortBlock (l : lanes) : lanes :=
  fold_left (fun l kj => exchange (sort_swap kj.1 kj.2 l) kj.2 l) sort_steps l.

(** A 32-bit position that is stored in a [float]: 24 significant bits, ties to even. *)
Definition pos_as_float (p : Z) : Z :=
  if p <? 2 ^ 24 then p
  else
    let u := 2 ^ (Z.log2 p - 23) in
    let q := p / u in
    let r := p mod u in
    (if (u <? 2 * r) || ((2 * r =? u) && Z.odd q) then q + 1 else q) * u.

(** The test of [MergeBlock]. *)
Definition merge_swap (j : Z) (l : lanes) (i : Z) : bool :=
  let pair_idx := Z.lxor i j in
  let in_order_pos := i <? pair_idx in
  let in_order_p := f32_gt (lane l i).1 (lane l pair_idx).1 in
  negb (Bool.eqb in_order_pos in_order_p).

Definition MergeBlock (l1 l2 : lanes) : lanes :=
  let best := (fun i =>
    let reverse := lane l2 (NUM_WAYS - 1 - i) in
    if f32_gt reverse.1 (lane l1 i).1 then (reverse.1, pos_as_float reverse.2) else lane l1 i) <$> seqZ 0 NUM_WAYS in
  fold_left (fun l j => exchange (merge_swap j l) j l) [4; 2; 1] best.

(** ** State *)

Record dm_state := { dm_tags : Z -> Z; dm_counters : Z -> f32; dm_mem : memory }.

(** Outcome of the CUDA and event calls of an operation, in program order: the copies before
    the first kernel, the kernels that find the entries, and what follows. *)
Record dm_env := {
  dm_memcpy_ok : bool;
  dm_compute_ok : bool;
  dm_invalidate_ok : bool;
  dm_synchronize_ok : bool;
  dm_event_record : Z;
  dm_event_wait : Z;
  dm_mem_update_ok : bool;
  dm_tag_update_ok : bool
}.

Section DeviceCache.
Variables (K T : int_type) (cfg : CacheConfig) (num_sets cache_base : Z) (decay_rate : f32).
(** [cub::DeviceRadixSort::SortPairs], [DeviceRunLengthEncode::Encode] and
    [DeviceScan::ExclusiveSum]. *)
Variables (sort_pairs : list (Z * Z) -> list (Z * Z)) (encode : list Z -> list (Z * Z)) (exclusive_sum : list Z -> list Z).
(** The order in which the threads append to the entries ([atomicAdd]). *)
Variable atomic_order : forall {A : Type}, list A -> list A.
Variable accumulate_row : DataTypeFormat -> DataTypeFormat -> Z -> Z -> Z -> memory -> memory.
Variable env : dm_env.

Local Abbreviation sentinel := (sentinel_key cfg).
Local Abbreviation row := (embed_width_in_bytes cfg).
Local Abbreviation hash := (hash K num_sets).
Local Abbreviation tag_of := (tag_of K T num_sets).
Local Abbreviation slot := (slot num_sets).

(** [embed_cache_construct_key] with 32-bit set and number of sets. *)
Definition dm_key_of (tag set : Z) : Z := embed_cache_construct_key K 32 tag set num_sets.

(** The ways of a set that hold a key. *)
Definition ways_of (tags : Z -> Z) (tbl set key : Z) : list Z :=
  filter (fun w => dm_key_of (tags (slot tbl set w)) set = key) (seqZ 0 NUM_WAYS).

(** ** [ComputeSetReplaceData] *)

(** [ComputeSetKernel]: the counters of the first table decay. *)
Definition dm_decay (c : Z -> f32) : Z -> f32 :=
  fun i => if (0 <=? i) && (i <? num_sets * NUM_WAYS) then f32_mul (c i) decay_rate else c i.

(** The keys, priorities and data pointers of the batch, by position. *)
Variables (items : list (Z * f32 * Z)).
Definition item (loc : Z) : Z * f32 * Z := default (0, f32_zero, 0) (items !! Z.to_nat loc).
Definition item_key (loc : Z) : Z := (item loc).1.1.
Definition item_priority (loc : Z) : f32 := (item loc).1.2.
Definition item_data (loc : Z) : Z := (item loc).2.

(** The sets that occur, each with the positions of its keys. *)
Definition groups : list (Z * list Z) :=
  let locations := seqZ 0 (Z.of_nat (length items)) in
  let sorted := sort_pairs (zip ((fun loc => hash (item_key loc)) <$> locations) locations) in
  let inverse_map := sorted.*2 in
  let runs := encode sorted.*1 in
  let offsets := exclusive_sum (runs.*2 ++ [0]) in
  imap (fun i r =>
    let start := default 0 (offsets !! i) in
    let stop := default 0 (offsets !! S i) in
    (r.1, take (Z.to_nat (stop - start)) (drop (Z.to_nat start) inverse_map))) runs.

(** The lanes of the next eight positions of a set: a hit adds to its counter, a miss is a
    candidate. *)
Definition chunk_counters (tags : Z -> Z) (tbl set : Z) (locs : list Z) (c : Z -> f32) : Z -> f32 :=
  fold_left (fun c loc =>
    fold_left (fun c w => upd c (slot 0 set w) (f32_add (c (slot 0 set w)) (item_priority loc)))
      (ways_of tags tbl set (item_key loc)) c) locs c.
Definition chunk_lanes (tags : Z -> Z) (tbl set : Z) (locs : list Z) : lanes :=
  (fun x => match locs !! Z.to_nat x with
            | Some loc => if bool_decide (ways_of tags tbl set (item_key loc) = []) then (item_priority loc, loc) else (f32_zero, 0)
            | None => (f32_zero, 0)
            end) <$> seqZ 0 NUM_WAYS.

(** Lanes of one chunk that add to the same counter do so without synchronisation. *)
Definition chunk_races (tags : Z -> Z) (tbl set : Z) (locs : list Z) : bool :=
  negb (bool_decide (NoDup (filter (fun k => ways_of tags tbl set k <> []) (item_key <$> locs)))).
Definition set_races (tags : Z -> Z) (tbl : Z) (g : Z * list Z) : bool :=
  existsb (fun i => chunk_races tags tbl g.1 (take 8 (drop (8 * i) g.2))) (seq 0 (length g.2)).

(** The best candidates: chunks of eight, sorted and merged. *)
Fixpoint best_lanes (fuel : nat) (tags : Z -> Z) (tbl set : Z) (locs : list Z) (best : lanes) : lanes :=
  match fuel, locs with
  | O, _ | _, [] => best
  | Datatypes.S fuel, _ =>
      best_lanes fuel tags tbl set (drop 8 locs) (MergeBlock best (SortBlock (chunk_lanes tags tbl set (take 8 locs))))
  end.

(** [SetReplaceDataKernel] for one set: the counters after the hits, and the entries with the
    priorities for their counters. *)
Definition replace_set (tags : Z -> Z) (tbl : Z) (g : Z * list Z) (c : Z -> f32) : (Z -> f32) * list (ModifyEntry * f32) :=
  let '(set, locs) := g in
  let count := Z.of_nat (length locs) in
  let c := chunk_counters tags tbl set locs c in
  let best := best_lanes (length locs) tags tbl set (drop 8 locs) (SortBlock (chunk_lanes tags tbl set (take 8 locs))) in
  let ways := SortBlock ((fun x => (if tags (slot tbl set x) =? sentinel then f32_zero else c (slot 0 set x), x)) <$> seqZ 0 NUM_WAYS) in
  let replaced := filter (fun x => (x <? Z.min NUM_WAYS count) && f32_gt (lane best x).1 (lane ways (NUM_WAYS - 1 - x)).1 = true)
                    (seqZ 0 NUM_WAYS) in
  (c, (fun x =>
    let loc := (lane best x).2 in
    let way := (lane ways (NUM_WAYS - 1 - x)).2 in
    ({| e_src := item_data loc;
        e_dst := (cache_base + tbl * num_sets * NUM_WAYS * row) + wrapu 64 (wrapu 32 (set * NUM_WAYS + way) * wrapu 32 row);
        e_set := set; e_way := way; e_tag := tag_of (item_key loc) |}, (lane best x).1)) <$> replaced).

Definition replace_sets (tags : Z -> Z) (tbl : Z) (gs : list (Z * list Z)) (c : Z -> f32) : (Z -> f32) * list (ModifyEntry * f32) :=
  fold_left (fun acc g => let r := replace_set tags tbl g acc.1 in (r.1, acc.2 ++ r.2)) gs (c, []).

(** The counters of the rows whose entry found room. *)
Definition set_counters (l : list (ModifyEntry * f32)) (c : Z -> f32) : Z -> f32 :=
  fold_left (fun c e => upd c (slot 0 (e_set e.1) (e_way e.1)) e.2) l c.

(** ** [SetUpdateDataKernel] *)

(** One entry per way that holds the key at position [i]. *)
Definition update_entries (invalidate_only : bool) (tags : Z -> Z) (tbl d_values stride : Z) (keys : list Z) : list ModifyEntry :=
  mjoin (imap (fun i key =>
    let set := hash key in
    (fun w => {| e_src := if invalidate_only then 0 else d_values + wrapu 32 (Z.of_nat i * wrapu 32 stride);
                 e_dst := if invalidate_only then 0
                          else (cache_base + tbl * num_sets * NUM_WAYS * row) + wrapu 32 ((set * NUM_WAYS + w) * wrapu 32 row);
                 e_set := set; e_way := w; e_tag := if invalidate_only then sentinel else tag_of key |})
      <$> ways_of tags tbl set key) keys).

(** ** Applying the entries *)

(** The entries [threads] threads work on; [l] are all that were appended, of which the first
    [max] were stored. *)
Definition visible (threads max : Z) (l : list ModifyEntry) : outcome (list ModifyEntry) :=
  let n := Z.min threads (Z.of_nat (length l)) in
  if n <=? max then Ok (take (Z.to_nat n) l) else Undef "read past the end of the entries".
(** Threads of the tag kernels, in blocks of 32; the row kernels have one block per entry. *)
Definition tag_threads (n : Z) : Z := (n + 32 - 1) / 32 * 32.

Definition with_tags (s : dm_state) (t : Z -> Z) : dm_state := {| dm_tags := t; dm_counters := dm_counters s; dm_mem := dm_mem s |}.
Definition with_mem (s : dm_state) (m : memory) : dm_state := {| dm_tags := dm_tags s; dm_counters := dm_counters s; dm_mem := m |}.

(** [invalidate_tags_and_sync]; the callers do not look at its error. *)
Definition invalidate_tags_and_sync (tbl n max : Z) (l : list ModifyEntry) (s : dm_state) : outcome (Z * dm_state) :=
  if negb (dm_invalidate_ok env) then Ok (ECERROR_CUDA_ERROR, s)
  else
    let! v := visible (tag_threads n) max l in
    let s := with_tags s (tag_invalidate_kernel cfg num_sets tbl v (dm_tags s)) in
    Ok (if negb (dm_synchronize_ok env) then ECERROR_CUDA_ERROR
        else if negb (dm_event_record env =? ECERROR_SUCCESS) then dm_event_record env
        else dm_event_wait env, s).

(** Invalidation, the copy of the rows, the new tags. *)
Definition apply_entries (copy : list ModifyEntry -> memory -> option memory) (tbl n max : Z) (l : list ModifyEntry) (s : dm_state)
  : outcome (Z * dm_state) :=
  let! r := invalidate_tags_and_sync tbl n max l s in
  let s := r.2 in
  let! rows := visible n max l in
  match (if dm_mem_update_ok env then copy rows (dm_mem s) else None) with
  | None => Ok (ECERROR_CUDA_ERROR, s)
  | Some m =>
      let s := with_mem s m in
      if negb (dm_tag_update_ok env) then Ok (ECERROR_CUDA_ERROR, s)
      else
        let! tags := visible (tag_threads n) max l in
        Ok (ECERROR_SUCCESS, with_tags s (tag_update_kernel num_sets tbl tags (dm_tags s)))
  end.

(** ** Operations; [max] is the capacity of the modify context, [None] a null handle *)

(** A launch without blocks is an error. *)
Definition launched (n : Z) : bool := dm_compute_ok env && (0 <? n).

Definition dm_insert (ctx : option Z) (tbl : Z) (s : dm_state) : outcome (Z * dm_state) :=
  match ctx with
  | None => Ok (ECERROR_INVALID_ARGUMENT, s)
  | Some max =>
      let n := Z.of_nat (length items) in
      if negb (dm_memcpy_ok env) then Ok (ECERROR_CUDA_ERROR, s)
      else if max <? n then Undef "write past the end of the temporary storage"
      else
        let c := dm_decay (dm_counters s) in
        if negb (launched n) then Ok (ECERROR_CUDA_ERROR, {| dm_tags := dm_tags s; dm_counters := c; dm_mem := dm_mem s |})
        else if existsb (set_races (dm_tags s) tbl) groups then Undef "unsynchronised additions to a counter"
        else
          let r := replace_sets (dm_tags s) tbl groups c in
          let l := atomic_order r.2 in
          let s := {| dm_tags := dm_tags s; dm_counters := set_counters (take (Z.to_nat max) l) r.1; dm_mem := dm_mem s |} in
          apply_entries (fun l m => Some (mem_update_kernel cfg l m)) tbl n max l.*1 s
  end.

Definition dm_update (ctx : option Z) (keys : list Z) (d_values stride tbl : Z) (s : dm_state) : outcome (Z * dm_state) :=
  match ctx with
  | None => Ok (ECERROR_INVALID_ARGUMENT, s)
  | Some max =>
      let n := Z.of_nat (length keys) in
      if negb (dm_memcpy_ok env) || negb (launched n) then Ok (ECERROR_CUDA_ERROR, s)
      else apply_entries (fun l m => Some (mem_update_kernel cfg l m)) tbl n max
             (atomic_order (update_entries false (dm_tags s) tbl d_values stride keys)) s
  end.

(** The format of the context is never set, so the kernel for quantized updates is not used. *)
Definition dm_update_accumulate (ctx : option Z) (keys : list Z) (d_values stride tbl : Z) (i o : DataTypeFormat) (s : dm_state)
  : outcome (Z * dm_state) :=
  match ctx with
  | None => Ok (ECERROR_INVALID_ARGUMENT, s)
  | Some max =>
      let n := Z.of_nat (length keys) in
      if negb (dm_memcpy_ok env) || negb (launched n) then Ok (ECERROR_CUDA_ERROR, s)
      else apply_entries (fun l m => match i with
                                     | DATATYPE_INT8_SCALED => None
                                     | _ => Some (mem_update_accumulate_kernel cfg accumulate_row i o l m)
                                     end) tbl n max
             (atomic_order (update_entries false (dm_tags s) tbl d_values stride keys)) s
  end.

Definition dm_invalidate (ctx : option Z) (keys : list Z) (tbl : Z) (s : dm_state) : outcome (Z * dm_state) :=
  match ctx with
  | None => Ok (ECERROR_INVALID_ARGUMENT, s)
  | Some max =>
      let n := Z.of_nat (length keys) in
      if negb (dm_memcpy_ok env) || negb (launched n) then Ok (ECERROR_CUDA_ERROR, s)
      else
        let! r := invalidate_tags_and_sync tbl n max (atomic_order (update_entries true (dm_tags s) tbl 0 0 keys)) s in
        Ok (ECERROR_SUCCESS, r.2)
  end.

(** The counters stay. *)
Definition dm_clear_cache (fill_ok : bool) (s : dm_state) : Z * dm_state :=
  if fill_ok then (ECERROR_SUCCESS, with_tags s (fun i => if in_storage cfg num_sets i then sentinel else dm_tags s i))
  else (ECERROR_CUDA_ERROR, s).
End DeviceCache.

(** ** Resident keys, sizes *)

(** [get_keys_stored_in_cache]: the tags of table 0 are copied to the host, where there is a
    copy of them, and scanned. *)
Definition dm_get_keys_stored_in_cache (K : int_type) (cfg : CacheConfig) (num_sets : Z)
    (out_null h_tags_null synchronize_ok memcpy_ok : bool) (s : dm_state) : Z * list Z :=
  if out_null || h_tags_null then (ECERROR_INVALID_ARGUMENT, [])
  else if negb synchronize_ok || negb memcpy_ok then (ECERROR_CUDA_ERROR, [])
  else (ECERROR_SUCCESS,
        i ← seqZ 0 num_sets; j ← seqZ 0 NUM_WAYS;
        let tag := dm_tags s (i * NUM_WAYS + j) in
        if tag =? sentinel_key cfg then [] else [conv K (wrapu 64 (wrapu 64 tag * num_sets + i))]).

Definition sizeof_dm_ModifyContext : Z := 48.
Definition sizeof_ModifyEntry (T : int_type) : Z := 24 + (width T / 8 + 7) / 8 * 8.
Definition dm_get_modify_context_size (T : int_type) (num_sets max_update_size : Z) : CacheAllocationSize :=
  {| host_allocation_size := sizeof_dm_ModifyContext;
     device_allocation_size :=
       wrapu 64 (wrapu 64 (num_sets * (4 * NUM_WAYS)) + wrapu 64 (max_update_size * sizeof_ModifyEntry T) + 4) |}.
Definition dm_get_extra_device_alloc_size (num_tables num_sets : Z) : Z := counters_bytes num_tables num_sets.
Definition dm_get_counter_size_per_set : Z := CACHE_ALIGN (4 * NUM_WAYS) 16.

Section TempStorage.
(** The temporary storage the three primitives of CUB ask for. *)
Variables (sort_bytes encode_bytes sum_bytes : Z -> Z) (K : int_type).

Definition GetSetReplaceDataAllocRequirements (num_keys num_sets : Z) : Z :=
  let finalAllocSize := sort_bytes num_keys in
  let finalAllocSize := if finalAllocSize <? encode_bytes num_keys then encode_bytes num_keys else finalAllocSize in
  let sums := sum_bytes (num_sets + 1) in
  let finalAllocSize := if finalAllocSize <? sums then sums else finalAllocSize in
  let finalAllocSize := Z.shiftl (Z.shiftr (finalAllocSize + 511) 9) 9 in
  finalAllocSize + 4 * num_keys * 4 + (num_sets + 1) * 4 + 4.

(** The size [modify_context_create] asks for, inputs included. *)
Definition tmp_storage_sz (num_keys num_sets : Z) : Z :=
  GetSetReplaceDataAllocRequirements num_keys num_sets + num_keys * (width K / 8) + num_keys * 4 + num_keys * 8.

(** What [ComputeSetReplaceData] cuts off the storage, in order, and what is left for CUB. *)
Definition storage_parts (num_keys num_sets : Z) : list Z :=
  [num_keys * 8; num_keys * (width K / 8); num_keys * 4; num_keys * 4; num_keys * 4; num_keys * 4; num_keys * 4; (num_sets + 1) * 4; 4].
Definition storage_left (tmpStorageSize num_keys num_sets : Z) : Z :=
  tmpStorageSize - num_keys * (width K / 8 + 4 + 8) - (4 * num_keys + num_sets + 1 + 1) * 4.
End TempStorage.
