(* ===== verification/DeviceSelect.v ===== *)
(** * Which rows the device-managed cache replaces

    The sorting and merging networks over the lanes of a set, the grouping of a batch by
    sets, and the candidates and ways that [SetReplaceDataKernel] picks: candidates are
    positions of the batch that missed, none is picked twice unless priorities tie. *)
From stdpp Require Import sorting.
From S2P Require Import Prelude EcHash SetAssoc Float32 HostModify CacheCoherence DeviceModify.

(** ** Networks *)

Section Networks.
Implicit Types (l : lanes).

Lemma lane_seq l : length l = 8%nat -> (lane l) <$> seqZ 0 NUM_WAYS = l.
Proof. destruct l as [|a0 [|a1 [|a2 [|a3 [|a4 [|a5 [|a6 [|a7 [|] ] ] ] ] ] ] ] ]; try done. Qed.

Lemma length_exchange swap j l : length (exchange swap j l) = 8%nat.
Proof. unfold exchange. by rewrite length_fmap, length_seqZ. Qed.

Lemma lane_exchange swap j l i : 0 <= i < 8 -> lane (exchange swap j l) i = lane l (if swap i then Z.lxor i j else i).
Proof.
  intros Hi. unfold lane at 1, exchange. rewrite list_lookup_fmap, lookup_seqZ_lt by (unfold NUM_WAYS; lia). simpl. by rewrite Z2Nat.id by lia.
Qed.

Definition step_ok (j : Z) : Prop := j = 1 \/ j = 2 \/ j = 4.

Lemma lane_cases i : 0 <= i < 8 -> i = 0 \/ i = 1 \/ i = 2 \/ i = 3 \/ i = 4 \/ i = 5 \/ i = 6 \/ i = 7.
Proof. lia. Qed.

Lemma pair_facts i j :
  0 <= i < 8 -> step_ok j -> 0 <= Z.lxor i j < 8 /\ Z.lxor (Z.lxor i j) j = i /\ (Z.lxor i j <? i) = negb (i <? Z.lxor i j).
Proof.
  intros Hi Hj. split; [|split]; [| |];
    destruct Hj as [-> | [-> | ->] ], (lane_cases i Hi) as [-> | [-> | [-> | [-> | [-> | [-> | [-> | ->] ] ] ] ] ] ]; done.
Qed.

Lemma lanes_perm (idx : list Z) :
  bool_decide (NoDup idx) && forallb (fun i => bool_decide (i ∈ seqZ 0 8)) idx && (length idx =? 8)%nat = true -> idx ≡ₚ seqZ 0 8.
Proof.
  rewrite !andb_true_iff, bool_decide_eq_true, Nat.eqb_eq, forallb_forall. intros [ [Hnd Hin] Hlen].
  apply submseteq_length_Permutation; [|by rewrite Hlen]. apply NoDup_submseteq; [done|]. intros x Hx%list_elem_of_In.
  by apply Hin, bool_decide_eq_true in Hx.
Qed.

(** Pairs that agree, or hold equal values, are rearranged. *)
Lemma exchange_perm swap j l :
  length l = 8%nat -> step_ok j ->
  (forall i, 0 <= i < 8 -> swap i = swap (Z.lxor i j) \/ lane l i = lane l (Z.lxor i j)) ->
  exchange swap j l ≡ₚ l.
Proof.
  intros Hl Hj Hs.
  set (sw i := swap i && bool_decide (swap i = swap (Z.lxor i j))).
  assert (E : exchange swap j l = (fun i => lane l (if sw i then Z.lxor i j else i)) <$> seqZ 0 NUM_WAYS).
  { apply list_fmap_ext. intros n i Hi%list_elem_of_lookup_2%elem_of_seqZ. unfold sw, NUM_WAYS in *.
    destruct (Hs i ltac:(lia)) as [Hsw|Heq].
    - rewrite (bool_decide_true _ Hsw), andb_true_r. done.
    - by destruct (swap i), (bool_decide _). }
  rewrite E. transitivity (lane l <$> seqZ 0 NUM_WAYS); [|by rewrite lane_seq].
  rewrite (list_fmap_compose (fun i => if sw i then Z.lxor i j else i) (lane l)). apply fmap_Permutation.
  assert (Hsym : forall i, 0 <= i < 8 -> sw i = sw (Z.lxor i j)).
  { intros i Hi. destruct (pair_facts i j Hi Hj) as (_ & E2 & _). unfold sw. rewrite E2.
    destruct (bool_decide_reflect (swap i = swap (Z.lxor i j))) as [Heq|Hne].
    - rewrite bool_decide_true by done. by rewrite Heq.
    - rewrite bool_decide_false by congruence. by rewrite !andb_false_r. }
  change (seqZ 0 NUM_WAYS) with [0; 1; 2; 3; 4; 5; 6; 7]. cbn [fmap list_fmap]. clear E Hs. generalize dependent sw. intros sw Hsym.
  destruct Hj as [-> | [-> | ->] ].
  - assert (S1 : sw 0 = sw 1) by apply (Hsym 0 ltac:(lia)). assert (S3 : sw 2 = sw 3) by apply (Hsym 2 ltac:(lia)). assert (S5 : sw 4 = sw 5) by apply (Hsym 4 ltac:(lia)). assert (S7 : sw 6 = sw 7) by apply (Hsym 6 ltac:(lia)).
    rewrite <- S1, <- S3, <- S5, <- S7. destruct (sw 0), (sw 2), (sw 4), (sw 6); by apply lanes_perm.
  - assert (S2 : sw 0 = sw 2) by apply (Hsym 0 ltac:(lia)). assert (S3 : sw 1 = sw 3) by apply (Hsym 1 ltac:(lia)). assert (S6 : sw 4 = sw 6) by apply (Hsym 4 ltac:(lia)). assert (S7 : sw 5 = sw 7) by apply (Hsym 5 ltac:(lia)).
    rewrite <- S2, <- S3, <- S6, <- S7. destruct (sw 0), (sw 1), (sw 4), (sw 5); by apply lanes_perm.
  - assert (S4 : sw 0 = sw 4) by apply (Hsym 0 ltac:(lia)). assert (S5 : sw 1 = sw 5) by apply (Hsym 1 ltac:(lia)). assert (S6 : sw 2 = sw 6) by apply (Hsym 2 ltac:(lia)). assert (S7 : sw 3 = sw 7) by apply (Hsym 3 ltac:(lia)).
    rewrite <- S4, <- S5, <- S6, <- S7. destruct (sw 0), (sw 1), (sw 2), (sw 3); by apply lanes_perm.
Qed.

Definition counters l : Prop := Forall (fun x => f32_counter x.1) l.

Lemma counters_lane l i : counters l -> f32_counter (lane l i).1.
Proof.
  intros Hl. unfold lane. destruct (l !! Z.to_nat i) as [x|] eqn:E; [|done]. simpl. by apply (Forall_lookup_1 _ _ _ _ Hl E).
Qed.

Lemma sort_steps_ok k j i : (k, j) ∈ sort_steps -> 0 <= i < 8 -> step_ok j /\ Z.land (Z.lxor i j) k = Z.land i k.
Proof.
  unfold sort_steps, step_ok. rewrite !elem_of_cons, elem_of_nil. intros Hkj Hi. split; [naive_solver lia|].
  destruct Hkj as [ [= -> ->] | [ [= -> ->] | [ [= -> ->] | [ [= -> ->] | [ [= -> ->] | [ [= -> ->] | [] ] ] ] ] ] ];
    destruct (lane_cases i Hi) as [-> | [-> | [-> | [-> | [-> | [-> | [-> | ->] ] ] ] ] ] ]; done.
Qed.

Lemma sort_swap_sym k j l i :
  (k, j) ∈ sort_steps -> 0 <= i < 8 -> counters l -> sort_swap k j l i = sort_swap k j l (Z.lxor i j).
Proof.
  intros Hkj Hi Hc. destruct (sort_steps_ok k j i Hkj Hi) as [Hj Eland]. destruct (pair_facts i j Hi Hj) as (Hp & E2 & E3).
  unfold sort_swap. rewrite E2, Eland. unfold f32_ne, f32_gt. rewrite (f32_eqb_sym (lane l (Z.lxor i j)).1).
  destruct (SFeqb (lane l i).1 (lane l (Z.lxor i j)).1) eqn:Eq; [done|]. cbn [negb].
  rewrite (f32_counter_total _ _ (counters_lane l i Hc) (counters_lane l (Z.lxor i j) Hc) Eq), E3.
  by destruct (i <? Z.lxor i j), (f32_lt (lane l i).1 (lane l (Z.lxor i j)).1), (Z.land i k =? 0).
Qed.

Lemma SortBlock_perm l : length l = 8%nat -> counters l -> SortBlock l ≡ₚ l.
Proof.
  unfold SortBlock. assert (Hin : forall kj, kj ∈ sort_steps -> kj ∈ sort_steps) by done. revert Hin.
  generalize sort_steps at 1 3. intros steps. revert l. induction steps as [| [k j] steps IH]; intros l Hin Hl Hc; [done|]. cbn [fold_left fst snd].
  assert (Hkj : (k, j) ∈ sort_steps) by (apply Hin; by left).
  assert (E : exchange (sort_swap k j l) j l ≡ₚ l).
  { apply exchange_perm; [done|by apply (sort_steps_ok k j 0)|]. intros i Hi. left. by apply sort_swap_sym. }
  etransitivity; [apply IH|exact E].
  - intros kj Hk. apply Hin. by right.
  - apply length_exchange.
  - unfold counters. by rewrite E.
Qed.

(** Two lists of candidates without equal priorities: the lanes of the merge are lanes of
    them, each used at most once. *)
Definition empty_lane : f32 * Z := (f32_zero, 0).
Definition small_positions l : Prop := Forall (fun x => 0 <= x.2 < 2 ^ 24) l.
(** Lanes with equal values in both components or different priorities. *)
Definition no_ties l : Prop := forall x y, x ∈ l -> y ∈ l -> SFeqb x.1 y.1 = true -> x = y.

Lemma lane_in l i : length l = 8%nat -> 0 <= i < 8 -> lane l i ∈ l.
Proof.
  intros Hl Hi. unfold lane. destruct (lookup_lt_is_Some_2 l (Z.to_nat i) ltac:(lia)) as [x E]. rewrite E. by eapply list_elem_of_lookup_2.
Qed.

Lemma merge_swap_sym j l i :
  length l = 8%nat -> step_ok j -> 0 <= i < 8 -> counters l -> no_ties l ->
  merge_swap j l i = merge_swap j l (Z.lxor i j) \/ lane l i = lane l (Z.lxor i j).
Proof.
  intros Hl Hj Hi Hc Ht. destruct (pair_facts i j Hi Hj) as (Hp & E2 & E3).
  destruct (SFeqb (lane l i).1 (lane l (Z.lxor i j)).1) eqn:Eq; [right; apply Ht; [by apply lane_in|by apply lane_in|done]|left].
  unfold merge_swap, f32_gt. rewrite E2, E3.
  rewrite (f32_counter_total _ _ (counters_lane l i Hc) (counters_lane l (Z.lxor i j) Hc) Eq).
  by destruct (i <? Z.lxor i j), (f32_lt (lane l i).1 (lane l (Z.lxor i j)).1).
Qed.

Lemma picks_sub {A} (c : A -> A -> bool) (a b : list A) : zip_with (fun x y => if c x y then y else x) a b ⊆+ a ++ b.
Proof.
  revert b. induction a as [|x a IH]; intros [|y b]; cbn [zip_with app]; [apply submseteq_nil_l..|].
  rewrite <- Permutation_middle. destruct (c x y).
  - rewrite Permutation_swap. apply submseteq_skip, submseteq_cons, IH.
  - apply submseteq_skip, submseteq_cons, IH.
Qed.

Lemma reverse_lanes l : length l = 8%nat -> (fun i => lane l (NUM_WAYS - 1 - i)) <$> seqZ 0 NUM_WAYS = reverse l.
Proof. destruct l as [|a0 [|a1 [|a2 [|a3 [|a4 [|a5 [|a6 [|a7 [|] ] ] ] ] ] ] ] ]; try done. Qed.

Lemma sub_incl {A} (P : A -> Prop) (l k : list A) : l ⊆+ k -> Forall P k -> Forall P l.
Proof. intros H Hk. rewrite Forall_forall in *. intros x Hx. apply Hk. by eapply elem_of_submseteq. Qed.

Lemma pos_as_float_small p : 0 <= p < 2 ^ 24 -> pos_as_float p = p.
Proof. intros Hp. unfold pos_as_float. by rewrite (proj2 (Z.ltb_lt _ _)) by lia. Qed.

Lemma small_lane l i : small_positions l -> 0 <= (lane l i).2 < 2 ^ 24.
Proof.
  intros Hl. unfold lane. destruct (l !! Z.to_nat i) as [x|] eqn:E; [|simpl; lia]. by apply (Forall_lookup_1 _ _ _ _ Hl E).
Qed.

Lemma MergeBlock_sub l1 l2 :
  length l1 = 8%nat -> length l2 = 8%nat -> counters (l1 ++ l2) -> small_positions l2 -> no_ties (l1 ++ l2) ->
  MergeBlock l1 l2 ⊆+ l1 ++ l2 /\ length (MergeBlock l1 l2) = 8%nat.
Proof.
  intros H1 H2 Hc Hp Ht. unfold MergeBlock.
  set (best := fmap _ (seqZ 0 NUM_WAYS)).
  assert (Eb : best = zip_with (fun x y => if f32_gt y.1 x.1 then y else x) l1 (reverse l2)).
  { rewrite <- (lane_seq l1 H1) at 1. rewrite <- (reverse_lanes l2 H2). rewrite zip_with_fmap_l, zip_with_fmap_r, zip_with_diag.
    apply list_fmap_ext. intros n i _. cbv beta zeta. rewrite pos_as_float_small by (by apply small_lane). by destruct (lane l2 _). }
  assert (Hb : best ⊆+ l1 ++ l2) by (rewrite Eb, picks_sub; by rewrite reverse_Permutation).
  assert (Hlb : length best = 8%nat) by (unfold best; by rewrite length_fmap, length_seqZ).
  clearbody best. clear Eb.
  assert (Hj : forall j, j ∈ [4; 2; 1] -> step_ok j) by (unfold step_ok; set_solver).
  revert Hj. generalize [4; 2; 1]. intros js. revert best Hb Hlb. induction js as [|j js IH]; intros best Hb Hlb Hj; [done|]. cbn [fold_left].
  assert (E : exchange (merge_swap j best) j best ≡ₚ best).
  { apply exchange_perm; [done|apply Hj; by left|]. intros i Hi. apply merge_swap_sym; [done|apply Hj; by left|done| |].
    - by eapply sub_incl.
    - intros x y Hx Hy. apply Ht; by eapply elem_of_submseteq. }
  apply IH; [by rewrite E|apply length_exchange|]. intros j' Hj'. apply Hj. by right.
Qed.
End Networks.

(** ** Runs of a sorted list *)

Section Runs.
Definition expand (runs : list (Z * Z)) : list Z := mjoin ((fun r => replicate (Z.to_nat r.2) r.1) <$> runs).
Definition run_offset (i : nat) (runs : list (Z * Z)) : nat := length (expand (take i runs)).

Lemma expand_app r1 r2 : expand (r1 ++ r2) = expand r1 ++ expand r2.
Proof. unfold expand. by rewrite fmap_app, join_app. Qed.

Lemma expand_split i runs : expand runs = expand (take i runs) ++ expand (drop i runs).
Proof. by rewrite <- expand_app, take_drop. Qed.

Lemma expand_lookup runs i v c j :
  runs !! i = Some (v, c) -> (j < Z.to_nat c)%nat -> expand runs !! (run_offset i runs + j)%nat = Some v.
Proof.
  intros Hi Hj. unfold run_offset. rewrite (expand_split i runs).
  rewrite lookup_app_r by lia. replace (_ - _)%nat with j by lia.
  rewrite (drop_S _ _ _ Hi). unfold expand. simpl. rewrite lookup_app_l by (by rewrite length_replicate). by apply lookup_replicate_2.
Qed.

Lemma run_offset_succ runs i v c :
  runs !! i = Some (v, c) -> run_offset (S i) runs = (run_offset i runs + Z.to_nat c)%nat.
Proof.
  intros Hi. unfold run_offset. rewrite (take_S_r _ _ _ Hi), expand_app, length_app. unfold expand at 2. simpl.
  by rewrite app_nil_r, length_replicate.
Qed.

Lemma run_offset_le runs i : (run_offset i runs <= length (expand runs))%nat.
Proof.
  unfold run_offset. rewrite (expand_split i runs), length_app. lia.
Qed.

Definition adjacent_differ (l : list Z) : Prop := forall i x y, l !! i = Some x -> l !! S i = Some y -> x <> y.

(** The runs of a sorted list have ascending values. *)
Lemma runs_ascending runs :
  Forall (fun r => 0 < r.2) runs -> adjacent_differ runs.*1 -> StronglySorted Z.le (expand runs) -> StronglySorted Z.lt runs.*1.
Proof.
  intros Hpos Hadj Hs.
  induction runs as [| [v c] runs IH]; [constructor|]. apply Forall_cons in Hpos as [Hc Hpos]. simpl in Hc.
  assert (Hs' : StronglySorted Z.le (expand runs)) by (by apply (StronglySorted_app_1_r _ (replicate (Z.to_nat c) v))).
  assert (Hlt : StronglySorted Z.lt runs.*1) by (apply IH; [done|intros i; apply (Hadj (S i))|done]).
  constructor; [done|]. clear IH. destruct runs as [| [v' c'] runs]; [constructor|].
  assert (Hvv : v < v').
  { assert (v <= v'); [|pose proof (Hadj 0%nat v v' eq_refl eq_refl); lia].
    apply (StronglySorted_app_1_elem_of _ (replicate (Z.to_nat c) v) (expand ((v', c') :: runs)) v v' Hs).
    - apply elem_of_replicate. lia.
    - unfold expand. simpl. apply elem_of_app. left. apply elem_of_replicate. apply Forall_cons in Hpos as [? _]. simpl in *. lia. }
  constructor; [done|]. inversion_clear Hlt. eapply Forall_impl; [done|]. simpl. lia.
Qed.

Lemma ascending_NoDup (l : list Z) : StronglySorted Z.lt l -> NoDup l.
Proof.
  induction 1 as [|x l _ IH Hx]; [constructor|]. constructor; [|done]. intros Hin. rewrite Forall_forall in Hx. specialize (Hx _ Hin). lia.
Qed.
End Runs.

(** ** Sorting and run-length encoding *)

Section Cub.
Context (sort_pairs : list (Z * Z) -> list (Z * Z)) (encode : list Z -> list (Z * Z)) (exclusive_sum : list Z -> list Z).

(** What CUB documents of the three primitives; [limit] bounds the sums that the type of the
    counters can hold. *)
Class CubLaws (limit : Z) := {
  sort_pairs_perm l : sort_pairs l ≡ₚ l;
  sort_pairs_sorted l : StronglySorted Z.le (sort_pairs l).*1;
  encode_expand l : expand (encode l) = l;
  encode_pos l : Forall (fun r => 0 < r.2) (encode l);
  encode_adjacent l : adjacent_differ (encode l).*1;
  exclusive_sum_lookup l i : (i < length l)%nat -> Forall (fun c => 0 <= c) (take i l) -> foldr Z.add 0 (take i l) < limit ->
    exclusive_sum l !! i = Some (foldr Z.add 0 (take i l))
}.
Context {limit : Z} {Hcub : CubLaws limit}.

Lemma foldr_run_offset runs i :
  Forall (fun r => 0 < r.2) runs -> foldr Z.add 0 (take i runs.*2) = Z.of_nat (run_offset i runs).
Proof.
  unfold run_offset, expand. rewrite <- fmap_take. intros Hr. apply (Forall_take _ i) in Hr. induction Hr as [|r l Hr _ IH]; [done|].
  rewrite !fmap_cons. cbn [foldr mjoin list_join]. rewrite IH, length_app, length_replicate. rewrite Nat2Z.inj_add, Z2Nat.id by (simpl in Hr; lia). done.
Qed.

(** The exclusive sum of the lengths of the runs, whatever the element after them. *)
Lemma offsets_of_runs runs z i :
  Forall (fun r => 0 < r.2) runs -> (i <= length runs)%nat -> Z.of_nat (run_offset i runs) < limit ->
  exclusive_sum (runs.*2 ++ [z]) !! i = Some (Z.of_nat (run_offset i runs)).
Proof.
  intros Hpos Hi Hl.
  assert (E : take i (runs.*2 ++ [z]) = take i runs.*2) by (apply take_app_le; rewrite length_fmap; lia).
  rewrite exclusive_sum_lookup; rewrite ?E, ?foldr_run_offset; try done; [rewrite length_app, length_fmap; simpl; lia|].
  apply Forall_take, Forall_fmap. eapply Forall_impl; [exact Hpos|]. simpl. lia.
Qed.
End Cub.

(** ** The grouping of a batch by sets *)

Section Groups.
Context (K : int_type) (num_sets : Z).
Context (sort_pairs : list (Z * Z) -> list (Z * Z)) (encode : list Z -> list (Z * Z)) (exclusive_sum : list Z -> list Z).
Context {Hcub : CubLaws sort_pairs encode exclusive_sum (2 ^ 32)}.
Local Abbreviation encode_pos := (@encode_pos sort_pairs encode exclusive_sum (2 ^ 32) Hcub).
Local Abbreviation encode_expand := (@encode_expand sort_pairs encode exclusive_sum (2 ^ 32) Hcub).
Local Abbreviation encode_adjacent := (@encode_adjacent sort_pairs encode exclusive_sum (2 ^ 32) Hcub).
Local Abbreviation sort_pairs_perm := (@sort_pairs_perm sort_pairs encode exclusive_sum (2 ^ 32) Hcub).
Local Abbreviation sort_pairs_sorted := (@sort_pairs_sorted sort_pairs encode exclusive_sum (2 ^ 32) Hcub).
Local Abbreviation exclusive_sum_lookup := (@exclusive_sum_lookup sort_pairs encode exclusive_sum (2 ^ 32) Hcub).
Context (items : list (Z * f32 * Z)).
Local Abbreviation n := (Z.of_nat (length items)).
Local Abbreviation groups := (groups K num_sets sort_pairs encode exclusive_sum items).
Local Abbreviation set_of loc := (hash K num_sets (item_key items loc)).

Lemma group_lookup i set locs :
  n < 2 ^ 32 -> groups !! i = Some (set, locs) ->
  let sorted := sort_pairs (zip ((fun loc => set_of loc) <$> seqZ 0 n) (seqZ 0 n)) in
  let runs := encode sorted.*1 in
  exists c, runs !! i = Some (set, c) /\ locs = take (Z.to_nat c) (drop (run_offset i runs) sorted.*2).
Proof.
  intros Hn Hg sorted runs. unfold DeviceModify.groups in Hg. fold sorted in Hg. fold runs in Hg.
  rewrite list_lookup_imap in Hg. destruct (runs !! i) as [ [v c]|] eqn:Hi; [|done]. injection Hg as <- <-. exists c. split; [done|].
  assert (Hpos : Forall (fun r => 0 < r.2) runs) by apply encode_pos.
  assert (Hlen : length (expand runs) = length items).
  { unfold runs. rewrite encode_expand. unfold sorted. rewrite length_fmap, sort_pairs_perm, length_zip_with, length_fmap, length_seqZ. lia. }
  assert (Hil : (i < length runs)%nat) by (by apply lookup_lt_Some in Hi).
  assert (Hoff : forall i', (i' <= length runs)%nat -> exclusive_sum (runs.*2 ++ [0]) !! i' = Some (Z.of_nat (run_offset i' runs))).
  { intros i' Hi'. pose proof (run_offset_le runs i'). apply (offsets_of_runs sort_pairs encode exclusive_sum); [done|done|lia]. }
  rewrite !Hoff by lia. simpl. rewrite (run_offset_succ _ _ _ _ Hi), Nat2Z.id. f_equal. lia.
Qed.

Lemma sorted_lookup j v loc :
  sort_pairs (zip ((fun loc => set_of loc) <$> seqZ 0 n) (seqZ 0 n)) !! j = Some (v, loc) ->
  0 <= loc < n /\ v = set_of loc.
Proof.
  intros H%list_elem_of_lookup_2. rewrite sort_pairs_perm in H. apply list_elem_of_lookup in H as [k Hk].
  apply lookup_zip_with_Some in Hk as (x & y & [= -> ->] & Hx & Hy). apply list_lookup_fmap_Some in Hx as (y' & -> & Hy').
  rewrite Hy in Hy'. injection Hy' as <-. apply list_elem_of_lookup_2, elem_of_seqZ in Hy. done.
Qed.

(** A group holds positions of keys of its set, each once, and no set has two groups. *)
Record group_ok (g : Z * list Z) : Prop := {
  go_range : forall loc, loc ∈ g.2 -> 0 <= loc < n /\ set_of loc = g.1;
  go_nodup : NoDup g.2
}.

Lemma inverse_NoDup : NoDup (sort_pairs (zip ((fun loc => set_of loc) <$> seqZ 0 n) (seqZ 0 n))).*2.
Proof. rewrite sort_pairs_perm, snd_zip by (by rewrite length_fmap). apply NoDup_seqZ. Qed.

Lemma groups_ok g : n < 2 ^ 32 -> g ∈ groups -> group_ok g.
Proof.
  intros Hn [i Hi]%list_elem_of_lookup. destruct g as [set locs]. destruct (group_lookup i set locs Hn Hi) as (c & Hr & ->).
  constructor; simpl.
  - intros loc Hloc. apply list_elem_of_lookup in Hloc as [j Hj]. apply lookup_take_Some in Hj as [Hj Hjc]. rewrite lookup_drop in Hj.
    apply list_lookup_fmap_Some in Hj as ( [v loc'] & -> & Hj). simpl.
    destruct (sorted_lookup _ _ _ Hj) as [Hl Ev]. split; [done|]. rewrite <- Ev.
    pose proof (expand_lookup _ _ _ _ j Hr Hjc) as E. rewrite encode_expand, list_lookup_fmap, Hj in E. by injection E.
  - apply (sublist_NoDup _ (drop (run_offset i (encode (sort_pairs (zip ((fun loc => set_of loc) <$> seqZ 0 n) (seqZ 0 n))).*1)) (sort_pairs (zip ((fun loc => set_of loc) <$> seqZ 0 n) (seqZ 0 n))).*2)); [|apply sublist_take].
    eapply sublist_NoDup; [apply inverse_NoDup|apply sublist_drop].
Qed.

Lemma expand_nil runs : Forall (fun r => 0 < r.2) runs -> expand runs = [] -> runs = [].
Proof.
  destruct runs as [| [v c] runs]; [done|]. intros [Hc _]%Forall_cons. unfold expand. simpl in *. intros [E _]%app_eq_nil.
  apply (f_equal length) in E. rewrite length_replicate in E. simpl in E. lia.
Qed.

Lemma encode_singleton h : encode [h] = [(h, 1)].
Proof.
  pose proof (encode_expand [h]) as E. pose proof (encode_pos [h]) as Hp. destruct (encode [h]) as [| [v c] runs]; [done|].
  apply Forall_cons in Hp as [Hc Hp]. unfold expand in E. rewrite fmap_cons in E. cbn [mjoin list_join fst snd] in *.
  destruct (Z.to_nat c) as [|n] eqn:En; [lia|]. cbn [replicate app] in E. injection E as -> [E1 E2]%app_eq_nil.
  destruct n; [|done]. rewrite (expand_nil runs Hp E2). do 2 f_equal. lia.
Qed.

(** A batch of one key has one group. *)
Lemma groups_singleton : length items = 1%nat -> groups = [(set_of 0, [0])].
Proof.
  intros Hl. unfold DeviceModify.groups. rewrite Hl. change (seqZ 0 (Z.of_nat 1)) with [0]. cbn [fmap list_fmap zip_with].
  assert (E : sort_pairs [(set_of 0, 0)] = [(set_of 0, 0)]) by (apply Permutation_singleton_r, sort_pairs_perm). rewrite E.
  cbn [fmap list_fmap fst snd]. rewrite encode_singleton. cbn [fmap list_fmap fst snd app imap].
  by rewrite (exclusive_sum_lookup [1; 0] 0), (exclusive_sum_lookup [1; 0] 1) by (simpl; lia || done || by repeat constructor).
Qed.

(** A group is of the set of some key of the batch. *)
Lemma groups_set_of g : n < 2 ^ 32 -> g ∈ groups -> exists loc, 0 <= loc < n /\ g.1 = set_of loc.
Proof.
  intros Hn [i Hi]%list_elem_of_lookup. destruct g as [set locs]. destruct (group_lookup i set locs Hn Hi) as (c & Hr & _).
  pose proof (proj1 (Forall_lookup _ _) (encode_pos _) _ _ Hr) as Hc. simpl in Hc.
  pose proof (expand_lookup _ _ _ _ 0 Hr ltac:(lia)) as E. rewrite encode_expand in E.
  apply list_lookup_fmap_Some in E as ( [v loc] & -> & E). exists loc. by apply sorted_lookup in E.
Qed.

Lemma groups_sets : NoDup groups.*1.
Proof.
  unfold DeviceModify.groups. set (sorted := sort_pairs _). cbv zeta.
  assert (E : forall f : nat -> Z * Z -> list Z, (imap (fun i r => (r.1, f i r)) (encode sorted.*1)).*1 = (encode sorted.*1).*1).
  { intros f. rewrite fmap_imap. apply list_eq. intros i. rewrite list_lookup_imap, list_lookup_fmap. by destruct (_ !! i). }
  rewrite E. apply ascending_NoDup, runs_ascending; [apply encode_pos|apply encode_adjacent|rewrite encode_expand; apply sort_pairs_sorted].
Qed.
End Groups.

(** ** Candidates *)

Section Candidates.
Context (K : int_type) (cfg : CacheConfig) (num_sets : Z) (items : list (Z * f32 * Z)).
Local Abbreviation item_key := (item_key items).
Local Abbreviation item_priority := (item_priority items).
Local Abbreviation ways_of := (ways_of K num_sets).
Local Abbreviation chunk_lanes := (chunk_lanes K num_sets items).
Local Abbreviation best_lanes := (best_lanes K num_sets items).

Context (tags : Z -> Z) (tbl set : Z).
(** The lanes of the positions that miss. *)
Definition missing (locs : list Z) : list Z := filter (fun loc => ways_of tags tbl set (item_key loc) = []) locs.
Definition cands (locs : list Z) : lanes := (fun loc => (item_priority loc, loc)) <$> missing locs.

(** Lanes that are candidates among [locs], each at most once, or empty. *)
Definition lanes_from (locs : list Z) (l : lanes) : Prop :=
  length l = 8%nat /\ exists m, l ⊆+ cands locs ++ replicate m empty_lane.

Definition locs_ok (locs : list Z) : Prop :=
  NoDup locs /\ forall loc, loc ∈ locs -> 0 <= loc < 2 ^ 24 /\ f32_positive (item_priority loc).
Definition distinct_priorities (locs : list Z) : Prop :=
  forall x y, x ∈ locs -> y ∈ locs -> SFeqb (item_priority x) (item_priority y) = true -> x = y.

Lemma cands_app l1 l2 : cands (l1 ++ l2) = cands l1 ++ cands l2.
Proof. unfold cands, missing. by rewrite filter_app, fmap_app. Qed.

Lemma elem_of_cands x locs : x ∈ cands locs -> x.2 ∈ locs /\ x.1 = item_priority x.2 /\ ways_of tags tbl set (item_key x.2) = [].
Proof. unfold cands, missing. intros (loc & -> & [H1 H2]%list_elem_of_filter)%list_elem_of_fmap. done. Qed.

Lemma chunk_lanes_eq locs :
  (length locs <= 8)%nat ->
  chunk_lanes tags tbl set locs =
    ((fun loc => if bool_decide (ways_of tags tbl set (item_key loc) = []) then (item_priority loc, loc) else empty_lane) <$> locs)
      ++ replicate (8 - length locs) empty_lane.
Proof.
  intros Hl. unfold DeviceModify.chunk_lanes. set (f loc := if bool_decide _ then _ else _).
  destruct locs as [|a0 [|a1 [|a2 [|a3 [|a4 [|a5 [|a6 [|a7 [|a8 locs] ] ] ] ] ] ] ] ]; try done. simpl in Hl. lia.
Qed.

Lemma chunk_lanes_from locs : (length locs <= 8)%nat -> lanes_from locs (chunk_lanes tags tbl set locs).
Proof.
  intros Hl. split; [unfold DeviceModify.chunk_lanes; by rewrite length_fmap, length_seqZ|]. rewrite chunk_lanes_eq by done.
  exists (length locs + (8 - length locs))%nat. rewrite replicate_add, (assoc (++)). apply submseteq_skips_r. clear Hl.
  unfold cands, missing. induction locs as [|loc locs IH]; [done|]. rewrite fmap_cons, filter_cons. cbn [length replicate].
  case_decide as E.
  - rewrite bool_decide_true by done. rewrite fmap_cons. cbn [app]. apply submseteq_skip. rewrite <- Permutation_middle. by apply submseteq_cons.
  - rewrite bool_decide_false by done. rewrite <- Permutation_middle. by apply submseteq_skip.
Qed.

Lemma lanes_from_cases locs l x : lanes_from locs l -> x ∈ l -> x ∈ cands locs \/ x = empty_lane.
Proof.
  intros [_ [m Hm] ] Hx. eapply elem_of_submseteq in Hx; [|done]. apply elem_of_app in Hx as [?|Hx]; [by left|].
  apply elem_of_replicate in Hx as [-> _]. by right.
Qed.

Lemma lanes_counters locs l : locs_ok locs -> lanes_from locs l -> counters l.
Proof.
  intros [_ Ho] Hl. apply Forall_forall. intros x Hx. destruct (lanes_from_cases _ _ _ Hl Hx) as [Hc| ->]; [|done].
  apply elem_of_cands in Hc as (Hin & -> & _). apply Ho in Hin as [_ Hp]. by destruct (item_priority x.2) as [| | |[] ].
Qed.

Lemma lanes_small locs l : locs_ok locs -> lanes_from locs l -> small_positions l.
Proof.
  intros [_ Ho] Hl. apply Forall_forall. intros x Hx. destruct (lanes_from_cases _ _ _ Hl Hx) as [Hc| ->]; [|simpl; lia].
  apply elem_of_cands in Hc as (Hin & _ & _). by apply Ho in Hin as [? _].
Qed.

Lemma positive_not_zero a : f32_positive a -> SFeqb a f32_zero = false.
Proof. by destruct a as [| | |[] ]. Qed.

Lemma lanes_no_ties locs l : locs_ok locs -> distinct_priorities locs -> (forall x, x ∈ l -> x ∈ cands locs \/ x = empty_lane) -> no_ties l.
Proof.
  intros [_ Ho] Hd Hl x y Hx Hy He.
  destruct (Hl x Hx) as [Hcx| ->], (Hl y Hy) as [Hcy| ->]; [| | |done].
  - apply elem_of_cands in Hcx as (Hxi & Ex & _), Hcy as (Hyi & Ey & _). destruct x as [px x], y as [py y]. simpl in *. subst.
    by rewrite (Hd x y Hxi Hyi He).
  - apply elem_of_cands in Hcx as (Hxi & Ex & _). rewrite Ex in He. apply Ho in Hxi as [_ Hp]. by rewrite positive_not_zero in He.
  - apply elem_of_cands in Hcy as (Hyi & Ey & _). rewrite Ey, f32_eqb_sym in He. apply Ho in Hyi as [_ Hp]. by rewrite positive_not_zero in He.
Qed.

Lemma sorted_chunk_from locs : (length locs <= 8)%nat -> locs_ok locs -> lanes_from locs (SortBlock (chunk_lanes tags tbl set locs)).
Proof.
  intros Hl Ho. pose proof (chunk_lanes_from locs Hl) as Hf. pose proof (lanes_counters _ _ Ho Hf) as Hc.
  assert (E : SortBlock (chunk_lanes tags tbl set locs) ≡ₚ chunk_lanes tags tbl set locs) by (apply SortBlock_perm; [apply Hf|done]).
  split; [rewrite E; apply Hf|]. destruct Hf as [_ [m Hm] ]. exists m. by rewrite E.
Qed.

Lemma locs_ok_app l1 l2 : locs_ok (l1 ++ l2) -> locs_ok l1 /\ locs_ok l2.
Proof.
  intros [Hnd Ho]. apply NoDup_app in Hnd as (H1 & _ & H2). split; (split; [done|]); intros loc Hl; apply Ho, elem_of_app; auto.
Qed.

Lemma best_lanes_from fuel locs0 locs best :
  locs_ok (locs0 ++ locs) -> distinct_priorities (locs0 ++ locs) -> lanes_from locs0 best ->
  exists locs', locs' `sublist_of` locs /\ lanes_from (locs0 ++ locs') (best_lanes fuel tags tbl set locs best).
Proof.
  revert locs0 locs best. induction fuel as [|fuel IH]; intros locs0 locs best Ho Hd Hb; cbn [DeviceModify.best_lanes].
  { exists []. split; [apply sublist_nil_l|by rewrite app_nil_r]. }
  destruct locs as [|loc locs]; [exists []; split; [done|by rewrite app_nil_r]|]. set (all := loc :: locs) in *.
  assert (Ho' : locs_ok (take 8 all)).
  { apply locs_ok_app in Ho as [_ Ho]. rewrite <- (take_drop 8 all) in Ho. by apply locs_ok_app in Ho as [? _]. }
  pose proof (sorted_chunk_from (take 8 all) ltac:(rewrite length_take; lia) Ho') as Hs.
  rewrite <- (take_drop 8 all), (assoc (++)) in Ho, Hd.
  pose proof (locs_ok_app _ _ Ho) as [Ho1 _]. pose proof (locs_ok_app _ _ Ho1) as [Ho0 _].
  assert (Hin : forall x, x ∈ best ++ SortBlock (chunk_lanes tags tbl set (take 8 all)) -> x ∈ cands (locs0 ++ take 8 all) \/ x = empty_lane).
  { intros x [Hx|Hx]%elem_of_app.
    - destruct (lanes_from_cases _ _ _ Hb Hx); [left; rewrite cands_app; apply elem_of_app; by left|by right].
    - destruct (lanes_from_cases _ _ _ Hs Hx); [left; rewrite cands_app; apply elem_of_app; by right|by right]. }
  destruct (MergeBlock_sub best (SortBlock (chunk_lanes tags tbl set (take 8 all)))) as [Hsub Hlen].
  - apply Hb.
  - apply Hs.
  - apply Forall_app. split; [by apply (lanes_counters locs0)|by apply (lanes_counters (take 8 all))].
  - by apply (lanes_small (take 8 all)).
  - apply (lanes_no_ties (locs0 ++ take 8 all)); [done| |done]. intros x y Hx Hy. apply Hd; apply elem_of_app; by left.
  - destruct (IH (locs0 ++ take 8 all) (drop 8 all) (MergeBlock best (SortBlock (chunk_lanes tags tbl set (take 8 all))))) as (locs' & Hl' & H').
    + done.
    + done.
    + split; [done|]. destruct Hb as [_ [m1 Hm1] ], Hs as [_ [m2 Hm2] ]. exists (m1 + m2)%nat. rewrite Hsub, cands_app, replicate_add.
      etransitivity; [apply submseteq_app; [exact Hm1|exact Hm2]|]. apply Permutation_submseteq. solve_Permutation.
    + exists (take 8 all ++ locs'). split; [|by rewrite (assoc (++))]. rewrite <- (take_drop 8 all) at 2. by apply sublist_app.
Qed.

(** The best candidates of a set: at most eight positions, or no equal priorities. *)
Lemma best_from locs :
  locs_ok locs -> (length locs <= 8)%nat \/ distinct_priorities locs ->
  exists locs', locs' `sublist_of` locs /\
    lanes_from locs' (best_lanes (length locs) tags tbl set (drop 8 locs) (SortBlock (chunk_lanes tags tbl set (take 8 locs)))).
Proof.
  intros Ho Hd. pose proof Ho as Ho'. rewrite <- (take_drop 8 locs) in Ho'. destruct (locs_ok_app _ _ Ho') as [Ho8 _].
  pose proof (sorted_chunk_from (take 8 locs) ltac:(rewrite length_take; lia) Ho8) as Hs. destruct Hd as [Hl|Hd].
  - rewrite drop_ge by lia. exists (take 8 locs). split; [apply sublist_take|]. destruct locs; [done|exact Hs].
  - rewrite <- (take_drop 8 locs) in Hd. destruct (best_lanes_from (length locs) _ _ _ Ho' Hd Hs) as (l' & Hl' & H').
    exists (take 8 locs ++ l'). split; [|done]. rewrite <- (take_drop 8 locs) at 2. by apply sublist_app.
Qed.

Definition filled (x : f32 * Z) : Prop := f32_lt f32_zero x.1 = true.
Global Instance filled_dec x : Decision (filled x) := decide _.

Lemma NoDup_filter_lookup {A} (P : A -> Prop) `{forall x, Decision (P x)} (l : list A) i j x :
  NoDup (filter P l) -> P x -> l !! i = Some x -> l !! j = Some x -> i = j.
Proof.
  revert i j. induction l as [|y l IH]; intros [|i] [|j] Hnd Hx Hi Hj; simpl in *; try done; rewrite filter_cons in Hnd.
  - injection Hi as ->. rewrite decide_True in Hnd by done. apply NoDup_cons in Hnd as [Hn _]. destruct Hn.
    apply list_elem_of_filter. split; [done|by eapply list_elem_of_lookup_2].
  - injection Hj as ->. rewrite decide_True in Hnd by done. apply NoDup_cons in Hnd as [Hn _]. destruct Hn.
    apply list_elem_of_filter. split; [done|by eapply list_elem_of_lookup_2].
  - f_equal. eapply IH; eauto. case_decide; [by apply NoDup_cons in Hnd as [_ ?]|done].
Qed.

Lemma lane_lookup l i : length l = 8%nat -> 0 <= i < 8 -> l !! Z.to_nat i = Some (lane l i).
Proof. intros Hl Hi. unfold lane. destruct (lookup_lt_is_Some_2 l (Z.to_nat i) ltac:(lia)) as [x E]. by rewrite E. Qed.

Lemma filled_cand locs l i :
  lanes_from locs l -> 0 <= i < 8 -> filled (lane l i) -> lane l i ∈ cands locs.
Proof.
  intros Hl Hi Hf. destruct (lanes_from_cases _ _ (lane l i) Hl) as [?|E]; [apply lane_in; [apply Hl|done]|done|]. by rewrite E in Hf.
Qed.

Lemma NoDup_filled locs l : NoDup locs -> lanes_from locs l -> NoDup (filter filled l).
Proof.
  intros Hnd [_ [m [k Hk]%submseteq_Permutation] ].
  assert (E : filter filled (replicate m empty_lane) = []) by (clear; induction m as [|m IH]; [done|exact IH]).
  assert (Hc : NoDup (filter filled (l ++ k))).
  { rewrite <- Hk, filter_app, E, app_nil_r. apply NoDup_filter, NoDup_fmap_2; [|by apply NoDup_filter]. by intros x y [= _ ?]. }
  rewrite filter_app in Hc. by apply NoDup_app in Hc as [? _].
Qed.

(** No position is in two lanes. *)
Lemma best_lane_inj locs l i j :
  NoDup locs -> lanes_from locs l -> 0 <= i < 8 -> 0 <= j < 8 -> filled (lane l i) -> filled (lane l j) ->
  (lane l i).2 = (lane l j).2 -> i = j.
Proof.
  intros Hnd Hl Hi Hj Fi Fj E.
  assert (El : lane l i = lane l j).
  { pose proof (filled_cand _ _ _ Hl Hi Fi) as Ci. pose proof (filled_cand _ _ _ Hl Hj Fj) as Cj.
    apply elem_of_cands in Ci as (_ & E1 & _), Cj as (_ & E2 & _). destruct (lane l i), (lane l j). simpl in *. congruence. }
  pose proof (lane_lookup l i ltac:(apply Hl) Hi) as Li. pose proof (lane_lookup l j ltac:(apply Hl) Hj) as Lj. rewrite <- El in Lj.
  pose proof (NoDup_filter_lookup filled l _ _ _ (NoDup_filled _ _ Hnd Hl) Fi Li Lj). lia.
Qed.
End Candidates.

(** ** Ways *)

Section Ways.
Context (g : Z -> f32).
Definition way_lanes : lanes := SortBlock ((fun x => (g x, x)) <$> seqZ 0 NUM_WAYS).
Context (Hg : forall x, 0 <= x < 8 -> f32_counter (g x)).

Lemma way_lanes_perm : way_lanes ≡ₚ (fun x => (g x, x)) <$> seqZ 0 NUM_WAYS.
Proof.
  apply SortBlock_perm; [by rewrite length_fmap, length_seqZ|]. apply Forall_forall.
  intros x (y & -> & Hy%elem_of_seqZ)%list_elem_of_fmap. apply Hg. unfold NUM_WAYS in *. lia.
Qed.

Lemma length_way_lanes : length way_lanes = 8%nat.
Proof. rewrite way_lanes_perm. by rewrite length_fmap, length_seqZ. Qed.

Lemma way_lane i : 0 <= i < 8 -> 0 <= (lane way_lanes i).2 < 8 /\ (lane way_lanes i).1 = g (lane way_lanes i).2.
Proof.
  intros Hi. pose proof (lane_in way_lanes i length_way_lanes Hi) as Hin. rewrite way_lanes_perm in Hin at 2.
  apply list_elem_of_fmap in Hin as (y & E & Hy%elem_of_seqZ). rewrite E. simpl. unfold NUM_WAYS in *. split; [lia|done].
Qed.

Lemma way_lane_inj i j : 0 <= i < 8 -> 0 <= j < 8 -> (lane way_lanes i).2 = (lane way_lanes j).2 -> i = j.
Proof.
  intros Hi Hj E. assert (Hnd : NoDup way_lanes.*2).
  { rewrite way_lanes_perm, <- list_fmap_compose. apply (NoDup_fmap_2 (fun x : Z => x)), NoDup_seqZ. }
  assert (Z.to_nat i = Z.to_nat j); [|lia].
  eapply (NoDup_lookup way_lanes.*2 _ _ (lane way_lanes i).2 Hnd); rewrite list_lookup_fmap, lane_lookup by (done || apply length_way_lanes); simpl; congruence.
Qed.
End Ways.
