(* ===== verification/DeviceTop.v ===== *)
(** * The networks of the device-managed cache sort

    [SortBlock] orders its lanes and [MergeBlock] keeps the greatest of two ordered lists, by
    the zero-one principle: the lanes above a threshold evolve as a network of conjunctions
    and disjunctions, which is checked on all its inputs. The best candidates of a set are
    therefore the greatest eight priorities of the keys that missed, ties included. *)
From S2P Require Import Prelude EcHash SetAssoc Float32 HostModify CacheCoherence DeviceModify DeviceSelect.

(** ** Networks of booleans *)

Definition bit (l : list bool) (i : Z) : bool := default false (l !! Z.to_nat i).
Definition bstep (upper : Z -> bool) (j : Z) (l : list bool) : list bool :=
  (fun i => if upper i then bit l i || bit l (Z.lxor i j) else bit l i && bit l (Z.lxor i j)) <$> seqZ 0 NUM_WAYS.
Definition sort_upper (k j i : Z) : bool := Bool.eqb (Z.land i k =? 0) (i <? Z.lxor i j).
Definition bsort (l : list bool) : list bool := fold_left (fun l kj => bstep (sort_upper kj.1 kj.2) kj.2 l) sort_steps l.
Definition bmerge (l1 l2 : list bool) : list bool :=
  fold_left (fun l j => bstep (fun i => i <? Z.lxor i j) j l) [4; 2; 1]
    ((fun i => bit l1 i || bit l2 (NUM_WAYS - 1 - i)) <$> seqZ 0 NUM_WAYS).

Definition ones (l : list bool) : nat := length (filter (fun b => b = true) l).
Definition thermometer (n : nat) : list bool := replicate n true ++ replicate (8 - n) false.

Fixpoint all_bits (n : nat) : list (list bool) :=
  match n with O => [ [] ] | S n => (cons true <$> all_bits n) ++ (cons false <$> all_bits n) end.

Lemma all_bits_complete l : l ∈ all_bits (length l).
Proof.
  induction l as [|b l IH]; [by left|]. cbn [length all_bits]. apply elem_of_app.
  destruct b; [left|right]; by apply (list_elem_of_fmap_2 (cons _)).
Qed.

Lemma ones_le l : (ones l <= length l)%nat.
Proof. unfold ones. apply length_filter. Qed.

(** All 256 inputs, and all 81 pairs of ordered inputs. *)
Lemma bsort_ok l : length l = 8%nat -> bsort l = thermometer (ones l).
Proof.
  intros Hl. assert (H : forallb (fun l => bool_decide (bsort l = thermometer (ones l))) (all_bits 8) = true) by (vm_compute; reflexivity).
  rewrite forallb_forall in H. pose proof (all_bits_complete l) as Hin. rewrite Hl in Hin. apply list_elem_of_In, H in Hin.
  by apply bool_decide_eq_true in Hin.
Qed.

Lemma bmerge_ok n1 n2 : (n1 <= 8)%nat -> (n2 <= 8)%nat -> bmerge (thermometer n1) (thermometer n2) = thermometer (Nat.min 8 (n1 + n2)).
Proof.
  intros H1 H2.
  assert (H : forallb (fun n1 => forallb (fun n2 => bool_decide (bmerge (thermometer n1) (thermometer n2) = thermometer (Nat.min 8 (n1 + n2)))) (seq 0 9)) (seq 0 9) = true)
    by (vm_compute; reflexivity).
  rewrite forallb_forall in H. specialize (H n1 ltac:(apply in_seq; lia)). rewrite forallb_forall in H.
  specialize (H n2 ltac:(apply in_seq; lia)). by apply bool_decide_eq_true in H.
Qed.

(** ** Thresholds *)

Lemma f32_eqb_compare a b : SFeqb a b = true -> SFcompare a b = Some Eq.
Proof. unfold SFeqb. by destruct (SFcompare a b) as [ []|]. Qed.

Lemma f32_lt_eqb t a b : SFeqb a b = true -> f32_lt t a = f32_lt t b.
Proof.
  unfold f32_lt, SFltb, SFeqb.
  destruct a as [sa|sa| |sa ma ea], b as [sb|sb| |sb mb eb]; try done; try destruct sa; try destruct sb; try done; simpl.
  all: destruct (Z.compare_spec ea eb) as [->|?|?]; try done.
  all: change (PosDef.Pos.compare_cont Eq) with Pos.compare; destruct (Pos.compare_spec ma mb) as [->|?|?]; done.
Qed.

Section Threshold.
Context (t : f32).
(** Which lanes are above the threshold. *)
Definition above (l : lanes) : list bool := (fun x => f32_lt t x.1) <$> l.

Lemma bit_above l i : length l = 8%nat -> 0 <= i < 8 -> bit (above l) i = f32_lt t (lane l i).1.
Proof. intros Hl Hi. unfold bit, above. rewrite list_lookup_fmap, lane_lookup by done. done. Qed.

Lemma above_max a b : f32_counter a -> f32_counter b -> f32_lt t (if f32_lt a b then b else a) = f32_lt t a || f32_lt t b.
Proof.
  intros Ha Hb. destruct (f32_lt a b) eqn:E.
  - destruct (f32_lt t a) eqn:Ea; [by rewrite (f32_lt_trans _ _ _ Ea E)|done].
  - destruct (SFeqb a b) eqn:Eq; [rewrite (f32_lt_eqb t a b Eq); by destruct (f32_lt t b)|].
    pose proof (f32_counter_total a b Ha Hb Eq) as Ht. rewrite E in Ht. simpl in Ht.
    destruct (f32_lt t b) eqn:Eb; [by rewrite (f32_lt_trans _ _ _ Eb Ht)|]. by rewrite orb_false_r.
Qed.

Lemma above_min a b : f32_counter a -> f32_counter b -> f32_lt t (if f32_lt a b then a else b) = f32_lt t a && f32_lt t b.
Proof.
  intros Ha Hb. destruct (f32_lt a b) eqn:E.
  - destruct (f32_lt t a) eqn:Ea; [by rewrite (f32_lt_trans _ _ _ Ea E)|done].
  - destruct (SFeqb a b) eqn:Eq; [rewrite (f32_lt_eqb t a b Eq); by destruct (f32_lt t b)|].
    pose proof (f32_counter_total a b Ha Hb Eq) as Ht. rewrite E in Ht. simpl in Ht.
    destruct (f32_lt t b) eqn:Eb; [by rewrite (f32_lt_trans _ _ _ Eb Ht)|]. by rewrite andb_false_r.
Qed.

(** An exchange that gives the greater value to the upper lanes. *)
Lemma above_exchange (swap upper : Z -> bool) j l :
  length l = 8%nat -> step_ok j ->
  (forall i, 0 <= i < 8 ->
     f32_lt t (lane l (if swap i then Z.lxor i j else i)).1 =
     if upper i then f32_lt t (lane l i).1 || f32_lt t (lane l (Z.lxor i j)).1 else f32_lt t (lane l i).1 && f32_lt t (lane l (Z.lxor i j)).1) ->
  above (exchange swap j l) = bstep upper j (above l).
Proof.
  intros Hl Hj H. unfold above at 1, exchange, bstep. rewrite <- list_fmap_compose. apply list_fmap_ext.
  intros n i Hi%list_elem_of_lookup_2%elem_of_seqZ. unfold compose, NUM_WAYS in *.
  destruct (pair_facts i j ltac:(lia) Hj) as (Hp & _). rewrite !bit_above by (done || lia). apply H. lia.
Qed.

Lemma above_sort_step k j l :
  length l = 8%nat -> counters l -> (k, j) ∈ sort_steps -> above (exchange (sort_swap k j l) j l) = bstep (sort_upper k j) j (above l).
Proof.
  intros Hl Hc Hkj. apply above_exchange; [done|by apply (sort_steps_ok k j 0)|]. intros i Hi.
  destruct (sort_steps_ok k j i Hkj Hi) as [Hj _]. destruct (pair_facts i j Hi Hj) as (Hp & _ & E3).
  pose proof (counters_lane l i Hc) as Ha. pose proof (counters_lane l (Z.lxor i j) Hc) as Hb.
  unfold sort_swap, sort_upper, f32_ne, f32_gt. rewrite E3.
  destruct (SFeqb (lane l i).1 (lane l (Z.lxor i j)).1) eqn:Eq; cbn [negb].
  { rewrite (f32_lt_eqb t _ _ Eq). destruct (Bool.eqb _ _), (f32_lt t (lane l (Z.lxor i j)).1); done. }
  rewrite <- (above_max _ _ Ha Hb), <- (above_min _ _ Ha Hb).
  rewrite (f32_counter_total _ _ Ha Hb Eq).
  destruct (Z.land i k =? 0), (i <? Z.lxor i j), (f32_lt (lane l i).1 (lane l (Z.lxor i j)).1) eqn:E; done.
Qed.

Lemma above_merge_step j l :
  length l = 8%nat -> counters l -> step_ok j -> above (exchange (merge_swap j l) j l) = bstep (fun i => i <? Z.lxor i j) j (above l).
Proof.
  intros Hl Hc Hj. apply above_exchange; [done|done|]. intros i Hi. destruct (pair_facts i j Hi Hj) as (Hp & _ & E3).
  pose proof (counters_lane l i Hc) as Ha. pose proof (counters_lane l (Z.lxor i j) Hc) as Hb.
  unfold merge_swap, f32_gt. destruct (SFeqb (lane l i).1 (lane l (Z.lxor i j)).1) eqn:Eq.
  { clear E3. pose proof (f32_lt_eqb t _ _ Eq) as E. destruct (negb _); rewrite ?E; destruct (i <? Z.lxor i j), (f32_lt t (lane l (Z.lxor i j)).1); done. }
  rewrite <- (above_max _ _ Ha Hb), <- (above_min _ _ Ha Hb), (f32_counter_total _ _ Ha Hb Eq).
  destruct (i <? Z.lxor i j), (f32_lt (lane l i).1 (lane l (Z.lxor i j)).1) eqn:E; done.
Qed.

Lemma exchange_counters swap j l : counters l -> counters (exchange swap j l).
Proof. intros Hc. apply Forall_forall. intros x (i & -> & _)%list_elem_of_fmap. by apply counters_lane. Qed.

Lemma above_sort l : length l = 8%nat -> counters l -> above (SortBlock l) = bsort (above l).
Proof.
  unfold SortBlock, bsort. assert (Hin : forall kj, kj ∈ sort_steps -> kj ∈ sort_steps) by done. revert Hin.
  generalize sort_steps at 1 3 4. intros steps. revert l. induction steps as [| [k j] steps IH]; intros l Hin Hl Hc; [done|]. cbn [fold_left fst snd].
  rewrite <- above_sort_step by (done || apply Hin; by left). apply IH; [|apply length_exchange|by apply exchange_counters].
  intros kj Hk. apply Hin. by right.
Qed.

Lemma above_merge l1 l2 :
  length l1 = 8%nat -> length l2 = 8%nat -> counters l1 -> counters l2 -> above (MergeBlock l1 l2) = bmerge (above l1) (above l2).
Proof.
  intros H1 H2 C1 C2. unfold MergeBlock, bmerge. set (best := fmap _ (seqZ 0 NUM_WAYS)).
  assert (Hl : length best = 8%nat) by (unfold best; by rewrite length_fmap, length_seqZ).
  assert (Hc : counters best).
  { apply Forall_forall. intros x (i & -> & _)%list_elem_of_fmap. cbv zeta. destruct (f32_gt _ _); by apply counters_lane. }
  replace ((fun i => _) <$> seqZ 0 NUM_WAYS) with (above best).
  2: { unfold above at 1, best. rewrite <- list_fmap_compose. apply list_fmap_ext. intros n i Hi%list_elem_of_lookup_2%elem_of_seqZ.
       unfold compose, NUM_WAYS in *. rewrite !bit_above by (done || lia). unfold f32_gt.
       rewrite <- above_max by (by apply counters_lane). by destruct (f32_lt (lane l1 i).1 _). }
  clearbody best. assert (Hj : forall j, j ∈ [4; 2; 1] -> step_ok j) by (unfold step_ok; set_solver). revert Hj. generalize [4; 2; 1]. intros js.
  revert best Hl Hc. induction js as [|j js IH]; intros best Hl Hc Hj; [done|]. cbn [fold_left].
  rewrite <- above_merge_step by (done || apply Hj; by left). apply IH; [apply length_exchange|by apply exchange_counters|].
  intros j' Hj'. apply Hj. by right.
Qed.
End Threshold.

Lemma bit_thermometer n i : (n <= 8)%nat -> 0 <= i < 8 -> bit (thermometer n) i = (i <? Z.of_nat n).
Proof.
  intros Hn Hi. unfold bit, thermometer. destruct (Z.ltb_spec i (Z.of_nat n)).
  - rewrite lookup_app_l by (rewrite length_replicate; lia). by rewrite lookup_replicate_2 by lia.
  - rewrite lookup_app_r by (rewrite length_replicate; lia). by rewrite lookup_replicate_2 by (rewrite length_replicate; lia).
Qed.

Lemma ones_thermometer n : (n <= 8)%nat -> ones (thermometer n) = n.
Proof. intros Hn. destruct n as [|[|[|[|[|[|[|[|[|n] ] ] ] ] ] ] ] ]; try done. lia. Qed.

Lemma SortBlock_counters l : length l = 8%nat -> counters l -> counters (SortBlock l).
Proof. intros Hl Hc. unfold counters. by rewrite SortBlock_perm. Qed.

(** Lane [i] of the sorted lanes is above [t] iff more than [i] of the lanes are. *)
Lemma SortBlock_above t l : length l = 8%nat -> counters l -> above t (SortBlock l) = thermometer (ones (above t l)).
Proof. intros Hl Hc. rewrite above_sort by done. apply bsort_ok. unfold above. by rewrite length_fmap. Qed.

Lemma MergeBlock_length l1 l2 : length (MergeBlock l1 l2) = 8%nat.
Proof. apply length_exchange. Qed.

Lemma MergeBlock_counters l1 l2 : counters l1 -> counters l2 -> counters (MergeBlock l1 l2).
Proof.
  intros C1 C2. apply exchange_counters, exchange_counters, exchange_counters, Forall_forall.
  intros x (i & -> & _)%list_elem_of_fmap. cbv zeta. destruct (f32_gt _ _); by apply counters_lane.
Qed.

(** ** The best candidates of a set *)

Section Best.
Context (K : int_type) (num_sets : Z) (items : list (Z * f32 * Z)) (tags : Z -> Z) (tbl set : Z).
Local Abbreviation item_priority := (item_priority items).
Local Abbreviation missing := (missing K num_sets items tags tbl set).
Local Abbreviation chunk_lanes := (chunk_lanes K num_sets items tags tbl set).
Local Abbreviation best_lanes := (best_lanes K num_sets items).

(** How many keys of the set miss and have a priority above [t]. *)
Definition better (t : f32) (locs : list Z) : nat := length (filter (fun loc => f32_lt t (item_priority loc) = true) (missing locs)).

Lemma better_app t l1 l2 : better t (l1 ++ l2) = (better t l1 + better t l2)%nat.
Proof. unfold better, DeviceSelect.missing. by rewrite !filter_app, length_app. Qed.

Lemma ones_app l1 l2 : ones (l1 ++ l2) = (ones l1 + ones l2)%nat.
Proof. unfold ones. by rewrite filter_app, length_app. Qed.

Lemma chunk_better t locs : (length locs <= 8)%nat -> f32_counter t -> ones (above t (chunk_lanes locs)) = better t locs.
Proof.
  intros Hl Ht. rewrite chunk_lanes_eq by done. unfold above. rewrite fmap_app, ones_app.
  assert (He : f32_lt t empty_lane.1 = false) by (by apply f32_counter_not_neg).
  assert (E : ones ((fun x => f32_lt t x.1) <$> replicate (8 - length locs) empty_lane) = 0%nat).
  { generalize (8 - length locs)%nat. intros n. induction n as [|n IH]; [done|]. cbn [replicate fmap list_fmap]. rewrite He. exact IH. }
  rewrite E, Nat.add_0_r. clear E Hl. unfold better, DeviceSelect.missing, ones. induction locs as [|loc locs IH]; [done|].
  rewrite !fmap_cons, (filter_cons (fun loc => ways_of _ _ _ _ _ _ = [])). case_decide as Em.
  - rewrite bool_decide_true by done. cbn [fst]. rewrite !filter_cons. case_decide as Et; simpl; by rewrite IH.
  - rewrite bool_decide_false by done. rewrite He, filter_cons, decide_False by done. exact IH.
Qed.

Lemma chunk_counters_lanes locs :
  (length locs <= 8)%nat -> (forall loc, loc ∈ locs -> f32_counter (item_priority loc)) ->
  length (chunk_lanes locs) = 8%nat /\ counters (chunk_lanes locs).
Proof.
  intros Hl Hp. split; [unfold DeviceModify.chunk_lanes; by rewrite length_fmap, length_seqZ|]. rewrite chunk_lanes_eq by done.
  apply Forall_app. split; [|by apply Forall_replicate]. apply Forall_forall. intros x (loc & -> & Hin)%list_elem_of_fmap.
  destruct (bool_decide _); [by apply Hp|done].
Qed.

Lemma best_lanes_above fuel t locs0 locs best :
  f32_counter t -> (length locs <= fuel)%nat -> (forall loc, loc ∈ locs -> f32_counter (item_priority loc)) ->
  length best = 8%nat -> counters best -> above t best = thermometer (Nat.min 8 (better t locs0)) ->
  length (best_lanes fuel tags tbl set locs best) = 8%nat /\
  above t (best_lanes fuel tags tbl set locs best) = thermometer (Nat.min 8 (better t (locs0 ++ locs))).
Proof.
  intros Ht. revert locs0 locs best. induction fuel as [|fuel IH]; intros locs0 locs best Hf Hp Hl Hc Hb; cbn [DeviceModify.best_lanes].
  { destruct locs; [|simpl in Hf; lia]. by rewrite app_nil_r. }
  destruct locs as [|loc locs]; [by rewrite app_nil_r|]. set (all := loc :: locs) in *.
  destruct (chunk_counters_lanes (take 8 all)) as [Hl8 Hc8]; [rewrite length_take; lia|intros; apply Hp; by eapply subseteq_take|].
  assert (HlS : length (SortBlock (chunk_lanes (take 8 all))) = 8%nat) by (by rewrite SortBlock_perm).
  pose proof (SortBlock_counters _ Hl8 Hc8) as HcS. pose proof (SortBlock_above t _ Hl8 Hc8) as HbS.
  rewrite chunk_better in HbS by (done || rewrite length_take; lia).
  assert (Hle : (better t (take 8 all) <= 8)%nat).
  { rewrite <- chunk_better by (done || rewrite length_take; lia). etransitivity; [apply ones_le|]. unfold above. by rewrite length_fmap, Hl8. }
  replace (locs0 ++ all) with ((locs0 ++ take 8 all) ++ drop 8 all) by (by rewrite <- (assoc (++)), take_drop).
  apply IH.
  - rewrite length_drop. assert (0 < length all)%nat by apply Nat.lt_0_succ. lia.
  - intros loc' Hl'. apply Hp. by eapply subseteq_drop.
  - apply MergeBlock_length.
  - by apply MergeBlock_counters.
  - rewrite above_merge, Hb, HbS, bmerge_ok by (done || lia). f_equal. rewrite better_app. lia.
Qed.

Lemma best_lanes_all t locs :
  f32_counter t -> (forall loc, loc ∈ locs -> f32_counter (item_priority loc)) ->
  let best := best_lanes (length locs) tags tbl set (drop 8 locs) (SortBlock (chunk_lanes (take 8 locs))) in
  length best = 8%nat /\ above t best = thermometer (Nat.min 8 (better t locs)).
Proof.
  intros Ht Hp best. assert (H8 : (length (take 8 locs) <= 8)%nat) by (rewrite length_take; lia).
  destruct (chunk_counters_lanes (take 8 locs) H8) as [Hl Hc]; [intros; apply Hp; by eapply subseteq_take|].
  replace (better t locs) with (better t (take 8 locs ++ drop 8 locs)) by (by rewrite take_drop). apply best_lanes_above; auto.
  - rewrite length_drop. lia.
  - intros loc Hin. apply Hp. by eapply subseteq_drop.
  - by apply SortBlock_counters.
  - rewrite SortBlock_above, chunk_better by done. f_equal.
    assert (better t (take 8 locs) <= 8)%nat; [|lia]. rewrite <- chunk_better by done. etransitivity; [apply ones_le|]. unfold above. by rewrite length_fmap, Hl.
Qed.

Lemma device_best_candidates_lemma (t : f32) (locs : list Z) (i : Z) :
  f32_counter t -> (forall loc, loc ∈ locs -> f32_counter (item_priority loc)) -> 0 <= i < 8 ->
  f32_lt t (lane (best_lanes (length locs) tags tbl set (drop 8 locs) (SortBlock (chunk_lanes (take 8 locs)))) i).1 =
    (i <? Z.of_nat (better t locs)).
Proof.
  intros Ht Hp Hi. destruct (best_lanes_all t locs Ht Hp) as [Hl Ha]. rewrite <- bit_above, Ha, bit_thermometer by (done || lia).
  destruct (Z.ltb_spec i (Z.of_nat (Nat.min 8 (better t locs)))), (Z.ltb_spec i (Z.of_nat (better t locs))); lia || done.
Qed.

(** C16. [SetReplaceDataKernel] finds the best candidates of a set: whatever the number of
    keys of the batch that fall into the set, and ties included, lane [i] of the merged lanes
    holds the [i]-th greatest priority among the keys that are not resident: it is above a
    counter value [t] exactly when more than [i] of those keys have a priority above [t]. *)
Theorem device_best_candidates (t : f32) (locs : list Z) (i : Z) :
  f32_counter t -> (forall loc, loc ∈ locs -> f32_counter (item_priority loc)) -> 0 <= i < 8 ->
  f32_lt t (lane (best_lanes (length locs) tags tbl set (drop 8 locs) (SortBlock (chunk_lanes (take 8 locs)))) i).1 =
    (i <? Z.of_nat (better t locs)).
Proof. apply device_best_candidates_lemma. Qed.
End Best.

(** The ways in order of their counters: the last lane has the least. *)
Lemma way_lanes_least (g : Z -> f32) j :
  (forall x, 0 <= x < 8 -> f32_counter (g x)) -> 0 <= j < 8 -> f32_lt (g j) (lane (way_lanes g) 7).1 = false.
Proof.
  intros Hg Hj. set (l := (fun x => (g x, x)) <$> seqZ 0 NUM_WAYS). assert (Hl : length l = 8%nat) by (unfold l; by rewrite length_fmap, length_seqZ).
  assert (Hc : counters l).
  { apply Forall_forall. intros x (y & -> & Hy%elem_of_seqZ)%list_elem_of_fmap. apply Hg. unfold NUM_WAYS in *. lia. }
  rewrite <- bit_above by (lia || by apply length_way_lanes). unfold way_lanes. fold l. rewrite SortBlock_above by done.
  assert (H8 : (ones (above (g j) l) < 8)%nat).
  { assert (Hla : length (above (g j) l) = 8%nat) by (unfold above; by rewrite length_fmap). rewrite <- Hla. unfold ones.
    apply length_filter_lt with (f32_lt (g j) (g j)); [|by rewrite f32_lt_irrefl]. unfold above, l. rewrite <- list_fmap_compose.
    apply (list_elem_of_fmap_2 ((fun x => f32_lt (g j) x.1) ∘ (fun x => (g x, x)))). apply elem_of_seqZ. unfold NUM_WAYS. lia. }
  rewrite bit_thermometer by lia. apply Z.ltb_ge. lia.
Qed.
