(* ===== verification/DeviceCoherence.v ===== *)
(** * The device-managed cache never serves a wrong row

    The operations of [DeviceModify] preserve the invariant of [CacheCoherence], the device
    tags standing for both copies, as long as no set receives more than eight keys of a
    batch among which two have equal priorities. When one does, a key is written to several
    ways of its set and a later update leaves a stale row. *)
From S2P Require Import Prelude EcHash SetAssoc Float32 HostModify CacheCoherence DeviceModify DeviceSelect DeviceTop.

Lemma elem_of_mjoin_imap {A B} (h : nat -> A -> list B) (l : list A) e :
  e ∈ mjoin (imap h l) <-> exists i x, l !! i = Some x /\ e ∈ h i x.
Proof.
  rewrite list_elem_of_join. split.
  - intros (k & He & [i Hi]%list_elem_of_lookup). rewrite list_lookup_imap in Hi. destruct (l !! i) as [x|] eqn:E; [|done].
    injection Hi as <-. by exists i, x.
  - intros (i & x & Hi & He). exists (h i x). split; [done|]. apply list_elem_of_lookup. exists i. by rewrite list_lookup_imap, Hi.
Qed.

Lemma length_mjoin_imap {A B C} (f : nat -> A -> B -> C) (g : A -> list B) (l : list A) :
  (forall x, x ∈ l -> (length (g x) <= 1)%nat) -> (length (mjoin (imap (fun i x => f i x <$> g x) l)) <= length l)%nat.
Proof.
  revert f. induction l as [|x l IH]; intros f Hg; [done|]. rewrite imap_cons. cbn [mjoin list_join length]. rewrite length_app, length_fmap.
  change (S (length l)) with (1 + length l)%nat. apply Nat.add_le_mono; [apply Hg; by left|].
  apply (IH (fun i => f (S i))). intros; apply Hg; by right.
Qed.

Section Coherence.
Context (K T : int_type) (cfg : CacheConfig) (num_sets cache_base : Z) (decay_rate : f32).
Context (sort_pairs : list (Z * Z) -> list (Z * Z)) (encode : list Z -> list (Z * Z)) (exclusive_sum : list Z -> list Z).
Context (atomic_order : forall A : Type, list A -> list A).
Context (accumulate_row : DataTypeFormat -> DataTypeFormat -> Z -> Z -> Z -> memory -> memory).
Context (HK : 0 < width K) (HT : 0 < width T) (Hns : 0 < num_sets).
Context (Hrow : 0 < embed_width_in_bytes cfg).
(** The slots of a table are numbered with 32 bits, and a row has less than 4 GiB. *)
Context (Hslots : num_sets * NUM_WAYS <= 2 ^ 32) (Hrow32 : embed_width_in_bytes cfg < 2 ^ 32).
Context {Hcub : CubLaws sort_pairs encode exclusive_sum (2 ^ 32)}.
Context (Hatomic : forall A (l : list A), atomic_order A l ≡ₚ l).
Context (Hdecay : f32_positive decay_rate).

Local Abbreviation sentinel := (sentinel_key cfg).
Local Abbreviation row := (embed_width_in_bytes cfg).
Local Abbreviation hash := (hash K num_sets).
Local Abbreviation tag_of := (tag_of K T num_sets).
Local Abbreviation key_of := (key_of K num_sets).
Local Abbreviation slot := (slot num_sets).
Local Abbreviation slot_addr := (slot_addr cfg num_sets cache_base).
Local Abbreviation find_way := (find_way K num_sets).
Local Abbreviation valid_key := (valid_key K T cfg num_sets).
Local Abbreviation in_set := (in_set num_sets).
Local Abbreviation wf_tags := (wf_tags K T cfg num_sets).
Local Abbreviation cache_inv := (cache_inv K T cfg num_sets cache_base).
Local Abbreviation outside := (outside cfg num_sets cache_base).
Local Abbreviation batch_ok := (batch_ok K T cfg num_sets cache_base).
Local Abbreviation kept := (kept cfg num_sets cache_base).
Local Abbreviation e_slot tbl := (fun e => slot tbl (e_set e) (e_way e)).
Local Abbreviation ways_of := (ways_of K num_sets).
Local Abbreviation published tbl l t := (tag_update_kernel num_sets tbl l (tag_invalidate_kernel cfg num_sets tbl l t)).

Lemma Hns32 : 0 < num_sets <= 2 ^ 32.
Proof. unfold NUM_WAYS in *. lia. Qed.
Local Hint Resolve Hns32 : core.

(** The device state seen as a state of [HostModify]. *)
Definition as_host (s : dm_state) : hm_state :=
  {| h_tags := dm_tags s; d_tags := dm_tags s; h_counters := dm_counters s; mem := dm_mem s |}.

Lemma as_host_inv val tbl h (s : dm_state) :
  (forall i, dm_tags s i = d_tags h i) -> dm_mem s = mem h -> cache_inv val tbl h -> cache_inv val tbl (as_host s).
Proof.
  intros Et Em [Hwf Hag Hr].
  assert (Ht : forall set way, in_set set way -> dm_tags s (slot tbl set way) = h_tags h (slot tbl set way)).
  { intros. rewrite Et. by apply Hag. }
  assert (Hf : forall k, find_way (dm_tags s) tbl k = find_way (h_tags h) tbl k).
  { intros k. apply find_way_ext. intros j Hj. apply Ht. split; [by apply hash_range|done]. }
  constructor; cbn [as_host h_tags d_tags mem]; rewrite ?Em; [|done|].
  - destruct Hwf as [Hg Hd]. split; intros *; [intros Hin; rewrite Ht by done; auto|].
    intros H1 H2. rewrite !Ht by done. by apply Hd.
  - intros k j Hk. rewrite Hf. by apply Hr.
Qed.

Lemma as_host_kept tbl h s s' :
  (forall i, dm_tags s' i = d_tags h i) -> dm_mem s' = mem h -> kept tbl (as_host s) h -> kept tbl (as_host s) (as_host s').
Proof. intros Et Em [_ Hd Hm]. constructor; simpl; intros *; rewrite ?Et, ?Em; auto. Qed.

Lemma dm_key_of_eq t set : dm_key_of K num_sets t set = key_of t set.
Proof. unfold dm_key_of, HostModify.key_of. by rewrite !construct_key_conv. Qed.

(** With distinct tags the ways that hold a key are the one that is found. *)
Lemma ways_of_spec tags tbl k :
  wf_tags tags tbl -> valid_key k ->
  ways_of tags tbl (hash k) k = match find_way tags tbl k with Some j => [j] | None => [] end.
Proof.
  intros Hwf Hk. unfold DeviceModify.ways_of, HostModify.find_way.
  assert (Hw : forall j, j ∈ seqZ 0 NUM_WAYS -> in_set (hash k) j).
  { intros j Hj%elem_of_ways. split; [by apply hash_range|done]. }
  pose proof (NoDup_seqZ 0 NUM_WAYS) as Hnd. induction (seqZ 0 NUM_WAYS) as [|j ways IH]; [done|].
  apply NoDup_cons in Hnd as [Hnj Hnd]. rewrite filter_cons. simpl. rewrite dm_key_of_eq.
  assert (Hin : in_set (hash k) j) by (apply Hw; by left).
  destruct (Z.eqb_spec (key_of (tags (slot tbl (hash k) j)) (hash k)) k) as [E|E];
    [rewrite decide_True by done|rewrite decide_False by done; apply IH; [intros; apply Hw; by right|done] ].
  f_equal. apply elem_of_nil_inv. intros j' [E' Hj']%list_elem_of_filter. rewrite dm_key_of_eq in E'.
  assert (Hin' : in_set (hash k) j') by (apply Hw; by right).
  eapply hit_iff in E, E'; [|eauto using wf_good..].
  apply (tag_of_not_sentinel K T cfg num_sets HK HT Hns32 k Hk). rewrite <- E.
  eapply wf_distinct; [exact Hwf|exact Hin|exact Hin'|intros ->; done|congruence].
Qed.

(** ** New rows *)

(** An entry that brings a key that is not resident. *)
Record fresh (val : Z -> list Z) (tbl : Z) (tags : Z -> Z) (m : memory) (e : ModifyEntry) : Prop := {
  fr_slot : in_set (e_set e) (e_way e);
  fr_dst : e_dst e = slot_addr tbl (e_set e) (e_way e);
  fr_src : outside tbl (e_src e);
  fr_key : exists k, valid_key k /\ hash k = e_set e /\ e_tag e = tag_of k /\ find_way tags tbl k = None /\ mem_read m (e_src e) row = val k
}.

(** No two entries share a way, or a key. *)
Definition separate (tbl : Z) (l : list ModifyEntry) : Prop :=
  forall e e', e ∈ l -> e' ∈ l -> e_slot tbl e = e_slot tbl e' \/ (e_set e = e_set e' /\ e_tag e = e_tag e') -> e = e'.

Lemma published_fresh tbl l t e : separate tbl l -> e ∈ l -> published tbl l t (e_slot tbl e) = e_tag e.
Proof.
  intros Hs He. destruct (published_tags_in cfg num_sets tbl l t (e_slot tbl e)) as (e' & He' & Es & ->).
  - by apply (list_elem_of_fmap_2 (e_slot tbl)).
  - f_equal. apply Hs; auto.
Qed.

Lemma published_cases tbl l t i : (exists e, e ∈ l /\ i = e_slot tbl e) \/ (i ∉ e_slot tbl <$> l /\ published tbl l t i = t i).
Proof.
  destruct (decide (i ∈ e_slot tbl <$> l)) as [Hi|Hi].
  - left. apply list_elem_of_fmap in Hi as (e & -> & He). by exists e.
  - right. split; [done|]. by apply published_tags_notin.
Qed.

Lemma published_wf val tbl l tags m :
  wf_tags tags tbl -> separate tbl l -> (forall e, e ∈ l -> fresh val tbl tags m e) -> wf_tags (published tbl l tags) tbl.
Proof.
  intros Hwf Hs Hl.
  assert (Hnew : forall e way set, e ∈ l -> in_set set way -> e_set e = set -> tags (slot tbl set way) <> e_tag e).
  { intros e way set He Hin <- Et. destruct (Hl e He) as [_ _ _ (k & Hk & Hh & Ht & Hf & _)].
    eapply (find_way_None K T cfg num_sets HK HT Hns32 tags tbl k way); [done|done|done|apply Hin|]. by rewrite Hh, Et. }
  split.
  - intros set way Hin. destruct (published_cases tbl l tags (slot tbl set way)) as [(e & He & E)|[_ ->] ]; [|by eapply wf_good].
    rewrite E, published_fresh by done. destruct (Hl e He) as [Hin' _ _ (k & Hk & Hh & Ht & _)].
    apply slot_inj in E as [-> ->]; [|done..]. right. by exists k.
  - intros set way way' Hin Hin' Hne.
    destruct (published_cases tbl l tags (slot tbl set way)) as [(e & He & E)|[_ E] ],
      (published_cases tbl l tags (slot tbl set way')) as [(e' & He' & E')|[_ E'] ].
    + rewrite E, E', !published_fresh by done. intros Et. destruct Hne.
      pose proof (fr_slot _ _ _ _ _ (Hl e He)) as H1. pose proof (fr_slot _ _ _ _ _ (Hl e' He')) as H2.
      apply slot_inj in E as [E1 ->]; [|done..]. apply slot_inj in E' as [E2 ->]; [|done..].
      f_equal. apply Hs; auto. right. split; [congruence|done].
    + rewrite E, E', published_fresh by done. intros Et. exfalso.
      apply slot_inj in E as [E1 _]; [|done|apply (Hl e He)]. by apply (Hnew e way' set He Hin').
    + rewrite E, E', published_fresh by done. intros Et. exfalso.
      apply slot_inj in E' as [E1 _]; [|done|apply (Hl e' He')]. by apply (Hnew e' way set He' Hin).
    + rewrite E, E'. by eapply wf_distinct.
Qed.

Lemma write_fresh_inv val tbl l (s : dm_state) ctr :
  cache_inv val tbl (as_host s) -> separate tbl l -> (forall e, e ∈ l -> fresh val tbl (dm_tags s) (dm_mem s) e) ->
  let h := {| h_tags := published tbl l (dm_tags s); d_tags := published tbl l (dm_tags s); h_counters := ctr;
              mem := mem_update_kernel cfg l (dm_mem s) |} in
  cache_inv val tbl h /\ kept tbl (as_host s) h.
Proof.
  intros Hci Hs Hl h. pose proof (ci_wf _ _ _ _ _ _ _ _ Hci : wf_tags (dm_tags s) tbl) as Hwf.
  assert (Hwf' : wf_tags (published tbl l (dm_tags s)) tbl) by (by apply (published_wf val tbl l _ (dm_mem s))).
  assert (Hw : forall e, e ∈ l -> write_ok K T cfg num_sets cache_base val tbl (published tbl l (dm_tags s)) (dm_mem s) e).
  { intros e He. pose proof (published_fresh tbl l (dm_tags s) e Hs He). destruct (Hl e He) as [H1 H2 H3 (k & Hk & Hh & Ht & _ & Hr)].
    constructor; auto. by exists k. }
  split.
  - apply write_entries_inv; auto.
    + intros set way Hin Hni. symmetry. by apply published_tags_notin.
    + intros k j Hk Hf Hni. destruct Hci as [_ _ Hr]. apply (Hr k j Hk). simpl.
      destruct (find_way_Some K T cfg num_sets HK HT Hns32 _ _ _ _ Hwf' Hk Hf) as [ [_ Hj] Ht]. rewrite published_tags_notin in Ht by done.
      by eapply find_way_hit.
  - eapply (write_kept K T cfg num_sets cache_base Hns32 Hrow val tbl l (published tbl l (dm_tags s)) (dm_mem s) (as_host s)); [done|].
    intros i Hi. simpl. unfold tag_update_kernel, tag_invalidate_kernel.
    rewrite !(fold_upd_kept num_sets _ tbl) by (done || (intros e He; apply (Hl e He))). done.
Qed.

(** ** The entries of an insert *)

Section Batch.
Context (items : list (Z * f32 * Z)) (val : Z -> list Z) (tbl : Z) (m : memory) (tags : Z -> Z).
Local Abbreviation n := (Z.of_nat (length items)).
Local Abbreviation item_key := (item_key items).
Local Abbreviation item_priority := (item_priority items).
Local Abbreviation groups := (groups K num_sets sort_pairs encode exclusive_sum items).
Local Abbreviation replace_set := (replace_set K T cfg num_sets cache_base items tags tbl).

(** The positions of the batch whose keys belong to a set. *)
Definition positions (set : Z) : list Z := filter (fun loc => hash (item_key loc) = set) (seqZ 0 n).

(** A batch the networks handle: distinct keys with positive priorities, positions that a
    [float] holds, and no equal priorities in a set that receives more than eight keys. *)
Record insertable : Prop := {
  ib_distinct : NoDup items.*1.*1;
  ib_priority : forall it, it ∈ items -> f32_positive it.1.2;
  ib_small : n <= 2 ^ 24;
  ib_ties : forall set, (length (positions set) <= 8)%nat \/ distinct_priorities items (positions set)
}.
Context (Hi : insertable) (Hb : batch_ok val tbl m items) (Hwf : wf_tags tags tbl).

Lemma item_at loc : 0 <= loc < n -> items !! Z.to_nat loc = Some (item items loc).
Proof. intros Hl. unfold item. destruct (lookup_lt_is_Some_2 items (Z.to_nat loc) ltac:(lia)) as [x E]. by rewrite E. Qed.

Lemma item_ok loc : 0 <= loc < n ->
  valid_key (item_key loc) /\ outside tbl (item_data items loc) /\ mem_read m (item_data items loc) row = val (item_key loc) /\
  f32_positive (item_priority loc).
Proof.
  intros Hl. pose proof (item_at loc Hl) as E%list_elem_of_lookup_2. unfold DeviceModify.item_key, DeviceModify.item_priority, DeviceModify.item_data.
  pose proof (ib_priority Hi _ E). destruct (item items loc) as [ [k p] d]. by destruct (Hb k p d E) as (? & ? & ?).
Qed.

Lemma item_key_inj loc loc' : 0 <= loc < n -> 0 <= loc' < n -> item_key loc = item_key loc' -> loc = loc'.
Proof.
  intros Hl Hl' E. assert (Z.to_nat loc = Z.to_nat loc'); [|lia].
  eapply (NoDup_lookup items.*1.*1 _ _ (item_key loc) (ib_distinct Hi)); rewrite !list_lookup_fmap, item_at by done; simpl; [done|by rewrite E].
Qed.

Lemma group_positions g : group_ok K num_sets items g -> g.2 ⊆+ positions g.1.
Proof.
  intros [Hr Hnd]. apply NoDup_submseteq; [done|]. intros loc Hl. destruct (Hr loc Hl) as [H1 H2].
  apply list_elem_of_filter. split; [done|]. apply elem_of_seqZ. lia.
Qed.

Lemma group_locs_ok g : group_ok K num_sets items g ->
  locs_ok items g.2 /\ ((length g.2 <= 8)%nat \/ distinct_priorities items g.2).
Proof.
  intros Hg. pose proof (group_positions g Hg) as Hsub. destruct Hg as [Hr Hnd]. split.
  - split; [done|]. intros loc Hl. destruct (Hr loc Hl) as [Hl' _]. pose proof (ib_small Hi). split; [lia|by apply item_ok].
  - destruct (ib_ties Hi g.1) as [Hle|Hd].
    + left. apply submseteq_length in Hsub. lia.
    + right. intros x y Hx Hy. apply Hd; by eapply elem_of_submseteq.
Qed.

Definition ctr_ok (c : Z -> f32) : Prop := forall set way, in_set set way -> f32_counter (c (slot 0 set way)).

Lemma upd_ctr_ok c set way p : in_set set way -> ctr_ok c -> f32_counter p -> ctr_ok (upd c (slot 0 set way) p).
Proof.
  intros Hin Hc Hp set' way' Hin'. destruct (decide (slot 0 set' way' = slot 0 set way)) as [->|Hne]; [by rewrite upd_eq|].
  rewrite upd_ne by done. auto.
Qed.

Lemma positive_counter p : f32_positive p -> f32_counter p.
Proof. by destruct p as [| | |[] ]. Qed.

Lemma chunk_counters_ok set locs c :
  0 <= set < num_sets -> (forall loc, loc ∈ locs -> 0 <= loc < n) -> ctr_ok c -> ctr_ok (chunk_counters K num_sets items tags tbl set locs c).
Proof.
  intros Hset. unfold chunk_counters. revert c. induction locs as [|loc locs IH]; intros c Hl Hc; [done|]. cbn [fold_left].
  apply IH; [intros; apply Hl; by right|].
  assert (Hp : f32_counter (item_priority loc)) by (apply positive_counter, item_ok, Hl; by left).
  assert (Hw : forall w, w ∈ ways_of tags tbl set (item_key loc) -> 0 <= w < NUM_WAYS).
  { intros w [_ Hw]%list_elem_of_filter. by apply elem_of_ways. }
  revert c Hc. induction (ways_of tags tbl set (item_key loc)) as [|w ws IHw]; intros c Hc; [done|]. cbn [fold_left].
  assert (Hin : in_set set w) by (split; [done|apply Hw; by left]).
  apply IHw; [intros; apply Hw; by right|]. apply upd_ctr_ok; [done|done|]. apply f32_add_counter; [by apply Hc|done].
Qed.

(** [replace_set] with its parts named. *)
Definition best_of (g : Z * list Z) : lanes :=
  best_lanes K num_sets items (length g.2) tags tbl g.1 (drop 8 g.2) (SortBlock (chunk_lanes K num_sets items tags tbl g.1 (take 8 g.2))).
Definition ways_for (g : Z * list Z) (c : Z -> f32) : lanes :=
  way_lanes (fun x => if tags (slot tbl g.1 x) =? sentinel then f32_zero else c (slot 0 g.1 x)).
Definition entry_at (g : Z * list Z) (c : Z -> f32) (x : Z) : ModifyEntry * f32 :=
  let loc := (lane (best_of g) x).2 in
  let way := (lane (ways_for g c) (NUM_WAYS - 1 - x)).2 in
  ({| e_src := item_data items loc;
      e_dst := (cache_base + tbl * num_sets * NUM_WAYS * row) + wrapu 64 (wrapu 32 (g.1 * NUM_WAYS + way) * wrapu 32 row);
      e_set := g.1; e_way := way; e_tag := tag_of (item_key loc) |}, (lane (best_of g) x).1).
Definition chosen (g : Z * list Z) (c : Z -> f32) : list Z :=
  filter (fun x => (x <? Z.min NUM_WAYS (Z.of_nat (length g.2))) && f32_gt (lane (best_of g) x).1 (lane (ways_for g c) (NUM_WAYS - 1 - x)).1 = true)
    (seqZ 0 NUM_WAYS).

Lemma replace_set_eq g c :
  let c' := chunk_counters K num_sets items tags tbl g.1 g.2 c in
  replace_set g c = (c', entry_at g c' <$> chosen g c').
Proof. by destruct g. Qed.

Section OneSet.
Context (g : Z * list Z) (c : Z -> f32) (Hg : group_ok K num_sets items g) (Hset : 0 <= g.1 < num_sets) (Hc : ctr_ok c).

Lemma ways_counters x : 0 <= x < 8 -> f32_counter (if tags (slot tbl g.1 x) =? sentinel then f32_zero else c (slot 0 g.1 x)).
Proof. intros Hx. destruct (_ =? _); [done|]. by apply Hc. Qed.

Lemma chosen_spec x : x ∈ chosen g c ->
  exists way, 0 <= x < 8 /\ filled (lane (best_of g) x) /\ 0 <= way < 8 /\ way = (lane (ways_for g c) (NUM_WAYS - 1 - x)).2.
Proof.
  intros [ [_ Hgt]%andb_true_iff Hx%elem_of_ways]%list_elem_of_filter. unfold NUM_WAYS in Hx.
  pose proof (way_lane _ ways_counters (NUM_WAYS - 1 - x) ltac:(unfold NUM_WAYS; lia)) as [Hw Ew].
  eexists. split; [done|]. split; [|split; [exact Hw|done] ].
  assert (Hctr : f32_counter (lane (ways_for g c) (NUM_WAYS - 1 - x)).1) by (unfold ways_for; rewrite Ew; by apply ways_counters).
  unfold filled. unfold f32_gt in Hgt.
  destruct (SFeqb f32_zero (lane (ways_for g c) (NUM_WAYS - 1 - x)).1) eqn:Eq.
  - destruct (lane (ways_for g c) (NUM_WAYS - 1 - x)).1 as [ []|[]| |[] ]; try done.
  - eapply f32_lt_trans; [|exact Hgt]. pose proof (f32_counter_total _ _ (I : f32_counter f32_zero) Hctr Eq) as Ht.
    rewrite f32_counter_not_neg in Ht by done. by destruct (f32_lt f32_zero _).
Qed.

(** What is known of a chosen entry. *)
Record entry_spec (x : Z) (loc : Z) : Prop := {
  es_lane : (lane (best_of g) x).2 = loc;
  es_loc : loc ∈ g.2 /\ 0 <= loc < n /\ hash (item_key loc) = g.1;
  es_miss : find_way tags tbl (item_key loc) = None;
  es_way : in_set g.1 (lane (ways_for g c) (NUM_WAYS - 1 - x)).2;
  es_priority : (lane (best_of g) x).1 = item_priority loc
}.

Lemma best_of_from : exists locs, NoDup locs /\ (forall loc, loc ∈ locs -> loc ∈ g.2) /\ lanes_from K num_sets items tags tbl g.1 locs (best_of g).
Proof.
  destruct (group_locs_ok g Hg) as [Ho Hd]. destruct (best_from K num_sets items tags tbl g.1 g.2 Ho Hd) as (locs & Hsub & Hf).
  exists locs. split; [eapply sublist_NoDup; [apply Ho|done]|]. split; [|done]. intros loc Hl.
  eapply elem_of_submseteq; [exact Hl|by apply sublist_submseteq].
Qed.

Lemma chosen_entry x : x ∈ chosen g c -> exists loc, entry_spec x loc.
Proof.
  intros Hx. destruct (chosen_spec x Hx) as (way & Hx8 & Hf & Hw & Ew). destruct best_of_from as (locs & _ & Hin & Hl).
  exists (lane (best_of g) x).2. destruct (elem_of_cands _ _ _ _ _ _ _ _ (filled_cand _ _ _ _ _ _ _ _ _ Hl Hx8 Hf)) as (H1 & H2 & H3).
  apply Hin in H1. destruct (go_range _ _ _ _ Hg _ H1) as [Hr Hh]. constructor; try done.
  - destruct (item_ok _ Hr) as (Hk & _). rewrite <- Hh, ways_of_spec in H3 by done. by destruct (find_way tags tbl _).
  - rewrite <- Ew. by split.
Qed.

Lemma slot_offset set way :
  in_set set way -> cache_base + tbl * num_sets * NUM_WAYS * row + wrapu 64 (wrapu 32 (set * NUM_WAYS + way) * wrapu 32 row) = slot_addr tbl set way.
Proof.
  intros [Hs Hw]. unfold HostModify.slot_addr. pose proof Hslots. pose proof Hrow. pose proof Hrow32. unfold NUM_WAYS in *.
  rewrite !(wrapu_small 32) by (unfold in_u; lia). rewrite wrapu_small; [done|]. unfold in_u. change (2 ^ 64) with (2 ^ 32 * 2 ^ 32). nia.
Qed.

Lemma entry_fresh x loc : entry_spec x loc -> fresh val tbl tags m (entry_at g c x).1.
Proof.
  intros [El [_ [Hr Hh] ] Hm Hw _]. destruct (item_ok loc Hr) as (Hk & Ho & Hv & _). unfold entry_at. rewrite El.
  constructor; cbn [fst e_set e_way e_dst e_src e_tag]; [done|by apply slot_offset|done|]. by exists (item_key loc).
Qed.

Lemma entry_same x x' :
  x ∈ chosen g c -> x' ∈ chosen g c ->
  e_slot tbl (entry_at g c x).1 = e_slot tbl (entry_at g c x').1 \/ e_tag (entry_at g c x).1 = e_tag (entry_at g c x').1 -> x = x'.
Proof.
  intros Hx Hx' E. destruct (chosen_entry x Hx) as [loc Hl], (chosen_entry x' Hx') as [loc' Hl'].
  destruct (chosen_spec x Hx) as (_ & Hx8 & Hf & _), (chosen_spec x' Hx') as (_ & Hx8' & Hf' & _).
  destruct Hl as [El (_ & Hr & Hh) _ Hw _], Hl' as [El' (_ & Hr' & Hh') _ Hw' _]. destruct E as [E|E].
  - apply slot_inj in E as [_ E]; [|done..].
    assert (NUM_WAYS - 1 - x = NUM_WAYS - 1 - x'); [|lia].
    apply (way_lane_inj _ ways_counters); [unfold NUM_WAYS; lia..|exact E].
  - unfold entry_at in E. cbn [fst e_tag] in E. rewrite El, El' in E.
    assert (Ek : item_key loc = item_key loc').
    { eapply (tag_of_inj K T cfg num_sets); [done..|by apply item_ok|by apply item_ok|congruence|done]. }
    apply item_key_inj in Ek; [|done..]. destruct best_of_from as (locs & Hnd & _ & Hb').
    eapply (best_lane_inj K num_sets items tags tbl g.1 locs); eauto. congruence.
Qed.

Lemma chosen_length : (length (chosen g c) <= length g.2)%nat.
Proof.
  assert (Hsub : chosen g c ⊆+ seqZ 0 (Z.of_nat (length g.2))).
  { apply NoDup_submseteq; [apply NoDup_filter, NoDup_seqZ|]. intros x [ [Hx%Z.ltb_lt _]%andb_true_iff Hx'%elem_of_ways]%list_elem_of_filter.
    apply elem_of_seqZ. lia. }
  apply submseteq_length in Hsub. rewrite length_seqZ in Hsub. lia.
Qed.
End OneSet.

(** The entries of several sets. *)
Record entries_ok (sets : list Z) (l : list (ModifyEntry * f32)) : Prop := {
  en_fresh : forall e, e ∈ l -> fresh val tbl tags m e.1 /\ e_set e.1 ∈ sets /\ f32_counter e.2;
  en_separate : separate tbl l.*1
}.

Lemma entries_ok_nil : entries_ok [] [].
Proof. split; [intros e He; by apply not_elem_of_nil in He|]. intros e e' He. by apply not_elem_of_nil in He. Qed.

Lemma replace_set_ok g c :
  group_ok K num_sets items g -> 0 <= g.1 < num_sets -> ctr_ok c ->
  ctr_ok (replace_set g c).1 /\ entries_ok [g.1] (replace_set g c).2 /\ (length (replace_set g c).2 <= length g.2)%nat.
Proof.
  intros Hg Hset Hc. rewrite replace_set_eq. cbn [fst snd]. set (c' := chunk_counters _ _ _ _ _ _ _ _).
  assert (Hc' : ctr_ok c') by (apply chunk_counters_ok; [done| |done]; intros loc Hl; apply (go_range _ _ _ _ Hg loc Hl)).
  split; [done|]. split; [|rewrite length_fmap; apply chosen_length]. split.
  - intros e (x & -> & Hx)%list_elem_of_fmap. destruct (chosen_entry g c' Hg Hset Hc' x Hx) as [loc Hl].
    split; [by eapply entry_fresh|]. split; [by apply list_elem_of_singleton|]. unfold entry_at. cbn [snd].
    rewrite (es_priority _ _ _ _ Hl). destruct Hl as [_ (_ & Hr & _) _ _ _]. by apply positive_counter, item_ok.
  - intros e e' (e1 & -> & (x & -> & Hx)%list_elem_of_fmap)%list_elem_of_fmap (e2 & -> & (x' & -> & Hx')%list_elem_of_fmap)%list_elem_of_fmap E.
    rewrite (entry_same g c' Hg Hset Hc' x x' Hx Hx'); [done|]. tauto.
Qed.

Lemma entries_ok_app s1 s2 l1 l2 :
  (forall x, x ∈ s1 -> x ∈ s2 -> False) -> entries_ok s1 l1 -> entries_ok s2 l2 -> entries_ok (s1 ++ s2) (l1 ++ l2).
Proof.
  intros Hd [F1 S1] [F2 S2]. split.
  - intros e [He|He]%elem_of_app; [destruct (F1 e He) as (? & ? & ?)|destruct (F2 e He) as (? & ? & ?)]; (split_and!; [done| |done]);
      apply elem_of_app; auto.
  - assert (Hx : forall e e', e ∈ l1.*1 -> e' ∈ l2.*1 ->
      e_slot tbl e = e_slot tbl e' \/ (e_set e = e_set e' /\ e_tag e = e_tag e') -> False).
    { intros e e' (e1 & -> & H1)%list_elem_of_fmap (e2 & -> & H2)%list_elem_of_fmap E.
      destruct (F1 _ H1) as (Hf1 & Hs1 & _), (F2 _ H2) as (Hf2 & Hs2 & _). apply (Hd (e_set e1.1)); [done|].
      destruct E as [E|[E _] ]; [|by rewrite E]. apply slot_inj in E as [E _]; [by rewrite E|apply Hf1|apply Hf2]. }
    intros e e'. rewrite fmap_app, !elem_of_app. intros [He|He] [He'|He'] E; [by apply S1| | |by apply S2]; exfalso.
    + by apply (Hx e e').
    + apply (Hx e' e); [done..|]. destruct E as [E|[E E2] ]; [by left|by right].
Qed.

Lemma replace_sets_ok gs c :
  (forall g, g ∈ gs -> group_ok K num_sets items g /\ 0 <= g.1 < num_sets) -> NoDup gs.*1 -> ctr_ok c ->
  let r := replace_sets K T cfg num_sets cache_base items tags tbl gs c in
  ctr_ok r.1 /\ entries_ok gs.*1 r.2 /\ (length r.2 <= length (mjoin gs.*2))%nat.
Proof.
  intros Hgs Hnd Hc r.
  assert (H : forall gs done_ c l, NoDup (done_ ++ gs.*1) -> (forall g, g ∈ gs -> group_ok K num_sets items g /\ 0 <= g.1 < num_sets) ->
    ctr_ok c -> entries_ok done_ l ->
    let r := fold_left (fun acc g => let r := replace_set g acc.1 in (r.1, acc.2 ++ r.2)) gs (c, l) in
    ctr_ok r.1 /\ entries_ok (done_ ++ gs.*1) r.2 /\ (length r.2 <= length l + length (mjoin gs.*2))%nat).
  { clear gs c Hgs Hnd Hc r. induction gs as [|g gs IH]; intros done_ c l Hnd Hgs Hc Hl; cbv zeta; [rewrite app_nil_r; simpl; split_and!; [done..|lia]|].
    cbn [fold_left]. destruct (Hgs g) as [Hg Hset]; [by left|]. destruct (replace_set_ok g c Hg Hset Hc) as (Hc' & Hl' & Hlen).
    rewrite fmap_cons, cons_middle, (assoc (++)) in Hnd |- *. cbn [fst snd].
    destruct (IH (done_ ++ [g.1]) (replace_set g c).1 (l ++ (replace_set g c).2)) as (H1 & H2 & H3); [done|intros; apply Hgs; by right|done| |].
    - apply entries_ok_app; [|done..]. intros x Hx ->%list_elem_of_singleton. apply NoDup_app in Hnd as (Hnd & _).
      apply NoDup_app in Hnd as (_ & Hnd & _). apply (Hnd _ Hx). by left.
    - split_and!; [done..|]. cbv zeta in H3. rewrite length_app in H3. rewrite fmap_cons. cbn [mjoin list_join]. rewrite length_app.
      etransitivity; [exact H3|]. rewrite <- Nat.add_assoc. by apply Nat.add_le_mono_l, Nat.add_le_mono_r. }
  by destruct (H gs [] c [] Hnd Hgs Hc entries_ok_nil) as (H1 & H2 & H3).
Qed.

Lemma groups_in_range g : g ∈ groups -> group_ok K num_sets items g /\ 0 <= g.1 < num_sets.
Proof.
  pose proof (ib_small Hi) as Hn. intros Hg. split; [by eapply groups_ok; [|lia|]|].
  destruct (groups_set_of K num_sets _ _ _ items g ltac:(lia) Hg) as (loc & _ & ->). by apply hash_range.
Qed.

Lemma groups_total gs : (forall g, g ∈ gs -> group_ok K num_sets items g) -> NoDup gs.*1 -> (length (mjoin gs.*2) <= length items)%nat.
Proof.
  intros Hgs Hnd. assert (Hin : forall loc, loc ∈ mjoin gs.*2 -> exists g, g ∈ gs /\ loc ∈ g.2).
  { intros loc (locs & Hl & (g & -> & Hg)%list_elem_of_fmap)%list_elem_of_join. by exists g. }
  assert (Hsub : mjoin gs.*2 ⊆+ seqZ 0 n).
  { apply NoDup_submseteq.
    - clear Hin. induction gs as [|g gs IH]; [constructor|]. rewrite fmap_cons in *. cbn [mjoin list_join]. apply NoDup_cons in Hnd as [Hng Hnd].
      apply NoDup_app. split_and!; [apply Hgs; by left| |apply IH; [intros; apply Hgs; by right|done] ].
      intros loc Hl (locs & Hl' & (g' & -> & Hg')%list_elem_of_fmap)%list_elem_of_join. apply Hng.
      destruct (go_range _ _ _ _ (Hgs g ltac:(by left)) loc Hl) as [_ <-]. destruct (go_range _ _ _ _ (Hgs g' ltac:(by right)) loc Hl') as [_ ->].
      by apply (list_elem_of_fmap_2 fst).
    - intros loc (g & Hg & Hl)%Hin. apply elem_of_seqZ. apply (go_range _ _ _ _ (Hgs g Hg)) in Hl. lia. }
  apply submseteq_length in Hsub. rewrite length_seqZ in Hsub. lia.
Qed.
End Batch.

(** ** Operations *)

(** No call fails that the operations check. *)
Definition dm_env_ok (env : dm_env) : Prop :=
  dm_memcpy_ok env = true /\ dm_compute_ok env = true /\ dm_invalidate_ok env = true /\
  dm_mem_update_ok env = true /\ dm_tag_update_ok env = true.

Lemma visible_all threads max l :
  Z.of_nat (length l) <= threads -> Z.of_nat (length l) <= max -> visible threads max l = Ok l.
Proof.
  intros H1 H2. unfold visible. rewrite Z.min_r by done. rewrite (proj2 (Z.leb_le _ _)) by done. by rewrite Nat2Z.id, take_ge.
Qed.

Lemma tag_threads_le n : 0 <= n -> n <= tag_threads n.
Proof. unfold tag_threads. intros. pose proof (Z.div_mod (n + 32 - 1) 32). pose proof (Z.mod_pos_bound (n + 32 - 1) 32). lia. Qed.

Lemma invalidate_ok env tbl n max l s :
  dm_invalidate_ok env = true -> Z.of_nat (length l) <= n -> n <= max ->
  exists e, invalidate_tags_and_sync cfg num_sets env tbl n max l s =
    Ok (e, with_tags s (tag_invalidate_kernel cfg num_sets tbl l (dm_tags s))).
Proof.
  intros E H1 H2. unfold invalidate_tags_and_sync. rewrite E. cbn [negb]. pose proof (tag_threads_le n ltac:(lia)).
  rewrite visible_all by lia. by eexists.
Qed.

Lemma apply_entries_ok env copy tbl n max l s m' :
  dm_env_ok env -> Z.of_nat (length l) <= n -> n <= max -> copy l (dm_mem s) = Some m' ->
  apply_entries cfg num_sets env copy tbl n max l s =
    Ok (ECERROR_SUCCESS, {| dm_tags := published tbl l (dm_tags s); dm_counters := dm_counters s; dm_mem := m' |}).
Proof.
  intros (E1 & E2 & E3 & E4 & E5) H1 H2 Hc. unfold apply_entries.
  destruct (invalidate_ok env tbl n max l s E3 H1 H2) as [e ->]. cbn [obind snd]. pose proof (tag_threads_le n ltac:(lia)).
  rewrite visible_all by lia. rewrite E4. cbn [dm_mem with_tags obind]. rewrite Hc, E5. cbn [negb].
  rewrite visible_all by lia. done.
Qed.

Lemma dm_decay_ok c : ctr_ok c -> ctr_ok (dm_decay num_sets decay_rate c).
Proof. intros Hc set way Hin. unfold dm_decay. destruct (_ && _); [apply f32_mul_counter; [|done] |]; auto. Qed.

Lemma set_counters_ok l c :
  (forall e, e ∈ l -> in_set (e_set e.1) (e_way e.1) /\ f32_counter e.2) -> ctr_ok c -> ctr_ok (set_counters num_sets l c).
Proof.
  unfold set_counters. revert c. induction l as [|e l IH]; intros c Hl Hc; [done|]. cbn [fold_left].
  apply IH; [intros; apply Hl; by right|]. destruct (Hl e) as [H1 H2]; [by left|]. by apply upd_ctr_ok.
Qed.

Lemma no_races items tbl tags :
  insertable items -> existsb (set_races K num_sets items tags tbl) (groups K num_sets sort_pairs encode exclusive_sum items) = false.
Proof.
  intros Hi. apply not_true_iff_false. intros (g & Hg%list_elem_of_In & Hr)%existsb_exists.
  destruct (groups_in_range items Hi g Hg) as [Hgo _]. unfold set_races in Hr. apply existsb_exists in Hr as (i & _ & Hr).
  unfold chunk_races in Hr. apply negb_true_iff, bool_decide_eq_false in Hr. apply Hr, NoDup_filter.
  set (locs := take 8 (drop (8 * i) g.2)).
  assert (Hsub : locs `sublist_of` g.2) by (etransitivity; [apply sublist_take|apply sublist_drop]).
  assert (Hin : forall loc, loc ∈ locs -> 0 <= loc < Z.of_nat (length items)).
  { intros loc Hl. apply (go_range _ _ _ _ Hgo). eapply elem_of_submseteq; [exact Hl|by apply sublist_submseteq]. }
  assert (Hnd : NoDup locs) by (eapply sublist_NoDup; [apply Hgo|done]). clearbody locs. clear Hsub.
  induction Hnd as [|loc locs Hn Hnd IH]; [constructor|]. rewrite fmap_cons. constructor; [|apply IH; intros; apply Hin; by right].
  intros (loc' & E & Hl)%list_elem_of_fmap. apply item_key_inj in E as ->; [done|done|apply Hin; by left|apply Hin; by right].
Qed.

Lemma dm_insert_inv val tbl env max items s :
  dm_env_ok env -> 0 < Z.of_nat (length items) <= max -> insertable items -> batch_ok val tbl (dm_mem s) items ->
  cache_inv val tbl (as_host s) -> ctr_ok (dm_counters s) ->
  exists s', dm_insert K T cfg num_sets cache_base decay_rate sort_pairs encode exclusive_sum atomic_order env items (Some max) tbl s
      = Ok (ECERROR_SUCCESS, s') /\
    cache_inv val tbl (as_host s') /\ ctr_ok (dm_counters s') /\ kept tbl (as_host s) (as_host s') /\
    exists l, l ≡ₚ (replace_sets K T cfg num_sets cache_base items (dm_tags s) tbl (groups K num_sets sort_pairs encode exclusive_sum items)
                      (dm_decay num_sets decay_rate (dm_counters s))).2.*1 /\ dm_tags s' = published tbl l (dm_tags s).
Proof.
  intros Henv Hn Hi Hb Hci Hc. pose proof Henv as (E1 & E2 & E3 & E4 & E5). unfold dm_insert, launched. rewrite E1, E2. cbn [negb andb].
  rewrite (proj2 (Z.ltb_ge _ _)), (proj2 (Z.ltb_lt _ _)) by lia. cbn [negb]. rewrite no_races by done.
  set (gs := DeviceModify.groups _ _ _ _ _ _). set (c := dm_decay _ _ _). set (r := replace_sets _ _ _ _ _ _ _ _ _ _).
  pose proof (ci_wf _ _ _ _ _ _ _ _ Hci : wf_tags (dm_tags s) tbl) as Hwf.
  assert (Hgs : forall g, g ∈ gs -> group_ok K num_sets items g /\ 0 <= g.1 < num_sets) by (intros; by apply groups_in_range).
  assert (Hnd : NoDup gs.*1) by (by apply groups_sets).
  destruct (replace_sets_ok items val tbl (dm_mem s) (dm_tags s) Hi Hb Hwf gs c Hgs Hnd (dm_decay_ok _ Hc)) as (Hc' & [Hfr Hsep] & Hlen).
  fold r in Hc', Hfr, Hsep, Hlen.
  pose proof (groups_total items gs (fun g Hg => proj1 (Hgs g Hg)) Hnd) as Hlen'.
  set (l := atomic_order _ r.2). pose proof (Hatomic _ r.2 : l ≡ₚ r.2) as Hp.
  assert (Hll : Z.of_nat (length l) <= Z.of_nat (length items)) by (rewrite Hp; lia).
  assert (Hfr' : forall e, e ∈ l.*1 -> fresh val tbl (dm_tags s) (dm_mem s) e).
  { intros e (e' & -> & He)%list_elem_of_fmap. rewrite Hp in He. by apply Hfr. }
  assert (Hsep' : separate tbl l.*1) by (intros e e' He He'; rewrite Hp in He, He'; by apply Hsep).
  destruct (write_fresh_inv val tbl l.*1 s (set_counters num_sets l r.1) Hci Hsep' Hfr') as [Hinv Hk].
  erewrite apply_entries_ok; [|done|by rewrite length_fmap|lia|done]. cbn [dm_tags dm_mem dm_counters].
  eexists. split; [done|]. rewrite take_ge by lia. split_and!; [done| |done|exists l.*1; split; [by rewrite Hp|done] ].
  cbn [dm_counters]. apply set_counters_ok; [|done]. intros e He. rewrite Hp in He. destruct (Hfr e He) as ( [? _ _ _] & _ & ?). done.
Qed.

(** *** update and invalidate *)

Local Abbreviation update_entries := (update_entries K T cfg num_sets cache_base).

Lemma update_entries_length inv tags tbl dv stride keys :
  wf_tags tags tbl -> (forall k, k ∈ keys -> valid_key k) ->
  (length (update_entries inv tags tbl dv stride keys) <= length keys)%nat.
Proof.
  intros Hwf Hk. apply length_mjoin_imap. intros k Hin. rewrite ways_of_spec by auto. by destruct (find_way tags tbl k); simpl; lia.
Qed.

Lemma elem_of_update_entries inv tags tbl dv stride keys e :
  wf_tags tags tbl -> (forall k, k ∈ keys -> valid_key k) -> e ∈ update_entries inv tags tbl dv stride keys ->
  exists i k j, keys !! i = Some k /\ find_way tags tbl k = Some j /\ e_set e = hash k /\ e_way e = j /\
    (inv = false -> e_src e = dv + wrapu 32 (Z.of_nat i * wrapu 32 stride) /\
       e_dst e = cache_base + tbl * num_sets * NUM_WAYS * row + wrapu 32 ((hash k * NUM_WAYS + j) * wrapu 32 row) /\ e_tag e = tag_of k).
Proof.
  intros Hwf Hk (i & k & Hi & He)%elem_of_mjoin_imap. apply list_elem_of_fmap in He as (j & -> & Hj).
  rewrite ways_of_spec in Hj by (done || by eapply Hk, list_elem_of_lookup_2). destruct (find_way tags tbl k) as [j'|] eqn:Ef; [|by apply not_elem_of_nil in Hj].
  apply list_elem_of_singleton in Hj as ->. exists i, k, j'. split_and!; [done..|]. by intros ->.
Qed.

Lemma update_entries_hit inv tags tbl dv stride keys k j :
  wf_tags tags tbl -> (forall k, k ∈ keys -> valid_key k) -> k ∈ keys -> find_way tags tbl k = Some j ->
  slot tbl (hash k) j ∈ e_slot tbl <$> update_entries inv tags tbl dv stride keys.
Proof.
  intros Hwf Hk [i Hi]%list_elem_of_lookup Hf. apply list_elem_of_fmap. eexists. split; [|apply elem_of_mjoin_imap; exists i, k; split; [done|] ].
  2: { apply (list_elem_of_fmap_2 _ _ j). rewrite ways_of_spec, Hf by (done || by eapply Hk, list_elem_of_lookup_2). by left. }
  done.
Qed.

(** The tables of the update kernel are addressed with 32 bits. *)
Definition update_fits (keys : list Z) (stride : Z) : Prop :=
  num_sets * NUM_WAYS * row <= 2 ^ 32 /\ 0 <= stride /\ Z.of_nat (length keys) * stride < 2 ^ 32.

Lemma update_entry_ok val' tbl keys dv stride s e :
  wf_tags (dm_tags s) tbl -> update_fits keys stride -> update_rows_ok K T cfg num_sets cache_base val' tbl (dm_mem s) keys dv stride ->
  e ∈ update_entries false (dm_tags s) tbl dv stride keys -> write_ok K T cfg num_sets cache_base val' tbl (dm_tags s) (dm_mem s) e.
Proof.
  intros Hwf (Hr32 & Hs0 & Hs32) Hr He.
  apply elem_of_update_entries in He as (i & k & j & Hi & Hf & E1 & E2 & E3); [|done|intros k [n Hn]%list_elem_of_lookup; by apply (Hr n k Hn)].
  destruct (E3 eq_refl) as (Es & Ed & Et). destruct (Hr i k Hi) as (Hk & Ho & Hv).
  destruct (find_way_Some K T cfg num_sets HK HT Hns32 _ _ _ _ Hwf Hk Hf) as [ [Hh Hj] Ht]. pose proof (lookup_lt_Some _ _ _ Hi) as Hlt.
  assert (Es' : e_src e = dv + Z.of_nat i * stride).
  { rewrite Es. f_equal. rewrite (wrapu_small 32 stride) by (unfold in_u; nia). apply wrapu_small. unfold in_u. nia. }
  assert (Ed' : e_dst e = slot_addr tbl (hash k) j).
  { rewrite Ed. unfold HostModify.slot_addr. f_equal. rewrite (wrapu_small 32 row) by (unfold in_u; lia). apply wrapu_small.
    unfold in_u, NUM_WAYS in *. nia. }
  constructor; rewrite ?E1, ?E2; [by split|done|congruence|by rewrite Es'|]. exists k. by rewrite Es'.
Qed.

Lemma dm_update_inv val val' tbl env max keys dv stride s :
  dm_env_ok env -> 0 < Z.of_nat (length keys) <= max -> update_fits keys stride ->
  cache_inv val tbl (as_host s) -> update_rows_ok K T cfg num_sets cache_base val' tbl (dm_mem s) keys dv stride ->
  (forall k, k ∉ keys -> val' k = val k) ->
  exists s', dm_update K T cfg num_sets cache_base atomic_order env (Some max) keys dv stride tbl s = Ok (ECERROR_SUCCESS, s') /\
    cache_inv val' tbl (as_host s') /\ kept tbl (as_host s) (as_host s') /\ dm_counters s' = dm_counters s.
Proof.
  intros Henv Hn Hfit Hci Hr Hval. pose proof Henv as (E1 & E2 & _). unfold dm_update, launched. rewrite E1, E2.
  rewrite (proj2 (Z.ltb_lt _ _)) by lia. cbn [negb andb orb].
  pose proof (ci_wf _ _ _ _ _ _ _ _ Hci : wf_tags (dm_tags s) tbl) as Hwf.
  assert (Hv : forall k, k ∈ keys -> valid_key k) by (intros k [n Hk]%list_elem_of_lookup; by apply (Hr n k Hk)).
  set (l := atomic_order _ _). pose proof (Hatomic _ _ : l ≡ₚ update_entries false (dm_tags s) tbl dv stride keys) as Hp.
  pose proof (update_entries_length false (dm_tags s) tbl dv stride keys Hwf Hv) as Hlen.
  assert (Hw : forall e, e ∈ l -> write_ok K T cfg num_sets cache_base val' tbl (dm_tags s) (dm_mem s) e).
  { intros e He. rewrite Hp in He. by eapply update_entry_ok. }
  erewrite apply_entries_ok; [|done|rewrite Hp; lia|lia|done]. eexists. split; [done|].
  set (h := {| h_tags := dm_tags s; d_tags := published tbl l (dm_tags s); h_counters := dm_counters s; mem := mem_update_kernel cfg l (dm_mem s) |}).
  split_and!; [apply (as_host_inv _ _ h)|apply (as_host_kept _ h)|]; [done|done| |done|done| |done].
  - apply write_entries_inv; auto. intros k j Hk Hf Hni. rewrite Hval; [destruct Hci as [_ _ Hrows]; by apply (Hrows k j)|].
    intros Hin. apply Hni. rewrite Hp. by apply update_entries_hit.
  - by apply (write_kept K T cfg num_sets cache_base Hns32 Hrow val' tbl l (dm_tags s) (dm_mem s) (as_host s)).
Qed.

Lemma cleared_cases tbl l (t : Z -> Z) i :
  (i ∈ e_slot tbl <$> l /\ tag_invalidate_kernel cfg num_sets tbl l t i = sentinel) \/
  (i ∉ e_slot tbl <$> l /\ tag_invalidate_kernel cfg num_sets tbl l t i = t i).
Proof.
  unfold tag_invalidate_kernel. destruct (decide (i ∈ e_slot tbl <$> l)) as [Hi|Hi]; [left|right]; (split; [done|]).
  - by destruct (fold_upd_in (e_slot tbl) (fun _ => sentinel) l t _ Hi) as (e & He & _ & ->).
  - by apply (fold_upd_notin (e_slot tbl) (fun _ => sentinel)).
Qed.

Lemma cleared_wf tbl l t : wf_tags t tbl -> wf_tags (tag_invalidate_kernel cfg num_sets tbl l t) tbl.
Proof.
  intros [Hg Hd]. split.
  - intros set way Hin. destruct (cleared_cases tbl l t (slot tbl set way)) as [ [_ ->]|[_ ->] ]; [by left|auto].
  - intros set way way' H1 H2 Hne. destruct (cleared_cases tbl l t (slot tbl set way)) as [ [_ ->]|[_ ->] ]; [done|].
    destruct (cleared_cases tbl l t (slot tbl set way')) as [ [_ ->]|[_ ->] ]; [done|]. by apply Hd.
Qed.

Lemma cleared_find tbl l t k j :
  wf_tags t tbl -> valid_key k -> find_way (tag_invalidate_kernel cfg num_sets tbl l t) tbl k = Some j ->
  find_way t tbl k = Some j /\ slot tbl (hash k) j ∉ e_slot tbl <$> l.
Proof.
  intros Hwf Hk Hf. destruct (find_way_Some K T cfg num_sets HK HT Hns32 _ _ _ _ (cleared_wf tbl l t Hwf) Hk Hf) as [ [_ Hj] Ht].
  destruct (cleared_cases tbl l t (slot tbl (hash k) j)) as [ [_ E]|[Hni E] ]; rewrite E in Ht.
  - symmetry in Ht. by apply (tag_of_not_sentinel K T cfg num_sets HK HT Hns32 k) in Ht.
  - split; [by eapply find_way_hit|done].
Qed.

Lemma dm_invalidate_inv val val' tbl env max keys s :
  dm_env_ok env -> 0 < Z.of_nat (length keys) <= max -> (forall k, k ∈ keys -> valid_key k) ->
  cache_inv val tbl (as_host s) -> (forall k, k ∉ keys -> val' k = val k) ->
  exists s', dm_invalidate K T cfg num_sets cache_base atomic_order env (Some max) keys tbl s = Ok (ECERROR_SUCCESS, s') /\
    cache_inv val' tbl (as_host s') /\ kept tbl (as_host s) (as_host s') /\ dm_counters s' = dm_counters s /\
    (forall k, k ∈ keys -> find_way (dm_tags s') tbl k = None).
Proof.
  intros Henv Hn Hv Hci Hval. pose proof Henv as (E1 & E2 & E3 & _). unfold dm_invalidate, launched. rewrite E1, E2.
  rewrite (proj2 (Z.ltb_lt _ _)) by lia. cbn [negb andb orb].
  pose proof (ci_wf _ _ _ _ _ _ _ _ Hci : wf_tags (dm_tags s) tbl) as Hwf.
  set (l := atomic_order _ _). pose proof (Hatomic _ _ : l ≡ₚ update_entries true (dm_tags s) tbl 0 0 keys) as Hp.
  pose proof (update_entries_length true (dm_tags s) tbl 0 0 keys Hwf Hv) as Hlen.
  destruct (invalidate_ok env tbl (Z.of_nat (length keys)) max l s E3 ltac:(rewrite Hp; lia) ltac:(lia)) as [e ->]. cbn [obind snd].
  assert (Hgone : forall k, k ∈ keys -> find_way (tag_invalidate_kernel cfg num_sets tbl l (dm_tags s)) tbl k = None).
  { intros k Hk. destruct (find_way (tag_invalidate_kernel _ _ _ _ _) tbl k) as [j|] eqn:Ef; [|done].
    apply cleared_find in Ef as [Ef Hni]; [|by auto..]. destruct Hni. rewrite Hp. by apply update_entries_hit. }
  eexists. split; [done|]. split_and!; [|constructor; cbn; [| |done] |done|done].
  - constructor; cbn [as_host h_tags d_tags mem dm_tags dm_mem with_tags]; [by apply cleared_wf|done|].
    intros k j Hk Hf. rewrite Hval by (intros Hin; by rewrite Hgone in Hf). apply cleared_find in Hf as [Hf _]; [|done..].
    destruct Hci as [_ _ Hrows]. by apply (Hrows k j).
  - intros i Hi. apply (fold_upd_kept num_sets (fun _ => sentinel) tbl); [|done]. intros e' He. rewrite Hp in He.
    apply elem_of_update_entries in He as (n & k & j & Hk & Hf & -> & -> & _); [|done..].
    by apply (find_way_Some K T cfg num_sets HK HT Hns32 _ _ _ _ Hwf) in Hf as [? _]; [|eapply Hv, list_elem_of_lookup_2].
  - intros i Hi. apply (fold_upd_kept num_sets (fun _ => sentinel) tbl); [|done]. intros e' He. rewrite Hp in He.
    apply elem_of_update_entries in He as (n & k & j & Hk & Hf & -> & -> & _); [|done..].
    by apply (find_way_Some K T cfg num_sets HK HT Hns32 _ _ _ _ Hwf) in Hf as [? _]; [|eapply Hv, list_elem_of_lookup_2].
Qed.

Lemma dm_clear_inv val tbl s : 0 <= tbl < num_tables cfg -> cache_inv val tbl (as_host (dm_clear_cache cfg num_sets true s).2).
Proof.
  intros Ht. apply (as_host_inv _ _ (clear_cache cfg num_sets true (as_host s)).2); [|done|by apply clear_cache_inv].
  intros i. simpl. by destruct (in_storage cfg num_sets i).
Qed.

(** ** Replacement of a single key *)

Section OneKey.
Context (k : Z) (p : f32) (d : Z) (Hp : f32_positive p).
Local Abbreviation items := [(k, p, d)].

Lemma one_insertable : insertable items.
Proof.
  split; [apply NoDup_singleton|by intros it ->%list_elem_of_singleton|simpl; lia|].
  intros set. left. unfold positions. etransitivity; [apply length_filter|]. rewrite length_seqZ. simpl. lia.
Qed.

Context (val : Z -> list Z) (tbl : Z) (s : dm_state) (c : Z -> f32).
Local Abbreviation tags := (dm_tags s).
Context (Hwf : wf_tags tags tbl) (Hk : valid_key k) (Hc : ctr_ok c) (Hb : batch_ok val tbl (dm_mem s) items).
Local Abbreviation g := (hash k, [0]).

(** The counters the ways compete with; those of free ways count as zero. *)
Definition way_counter (j : Z) : f32 := if tags (slot tbl (hash k) j) =? sentinel then f32_zero else c (slot 0 (hash k) j).

Lemma one_group : group_ok K num_sets items g.
Proof. split; [intros loc ->%list_elem_of_singleton; done|apply NoDup_singleton]. Qed.

Lemma one_chosen : find_way tags tbl k = None ->
  lane (best_of items tbl tags g) 0 = (p, 0) /\
  chosen items tbl tags g c = if f32_lt (lane (way_lanes way_counter) 7).1 p then [0] else [].
Proof.
  intros Hf. assert (Hset : 0 <= g.1 < num_sets) by (by apply hash_range).
  assert (El : lane (best_of items tbl tags g) 0 = (p, 0)).
  { assert (Hfill : filled (lane (best_of items tbl tags g) 0)).
    { unfold filled, best_of. cbn [fst snd].
      rewrite (device_best_candidates_lemma K num_sets items tags tbl (hash k) f32_zero [0] 0) by (done || lia || (intros loc ->%list_elem_of_singleton; by apply positive_counter)).
      unfold better, missing. rewrite filter_cons, decide_True.
      - rewrite filter_cons, decide_True by (by apply f32_positive_gt). done.
      - change (item_key items 0) with k. by rewrite ways_of_spec, Hf. }
    destruct (best_of_from items val tbl (dm_mem s) tags one_insertable Hb g one_group) as (locs & _ & Hin & Hl).
    assert (H08 : 0 <= 0 < 8) by lia.
    destruct (elem_of_cands _ _ _ _ _ _ _ _ (filled_cand _ _ _ _ _ _ _ _ _ Hl H08 Hfill)) as (H1 & H2 & _).
    apply Hin, list_elem_of_singleton in H1. destruct (lane _ 0) as [p' loc]. simpl in *. subst loc. by rewrite H2. }
  split; [done|]. unfold chosen. change (seqZ 0 NUM_WAYS) with [0; 1; 2; 3; 4; 5; 6; 7]. cbn [snd length].
  change (Z.min NUM_WAYS (Z.of_nat 1)) with 1. rewrite filter_cons, El. unfold f32_gt. change (NUM_WAYS - 1 - 0) with 7.
  change (ways_for tbl tags g c) with (way_lanes way_counter).
  assert (En : forall l, Forall (fun x => 1 <= x) l -> filter (fun x => (x <? 1) && f32_lt (lane (way_lanes way_counter) (NUM_WAYS - 1 - x)).1 (lane (best_of items tbl tags g) x).1 = true) l = []).
  { induction l as [|x l IH]; [done|]. intros [Hx Hl]%Forall_cons. rewrite filter_cons, decide_False; [by apply IH|].
    rewrite (proj2 (Z.ltb_ge _ _)) by done. done. }
  rewrite En by (repeat constructor; lia). cbn [fst]. change (0 <? 1) with true. cbn [andb].
  by destruct (f32_lt (lane (way_lanes way_counter) 7).1 p).
Qed.

Lemma one_resident j : find_way tags tbl k = Some j -> chosen items tbl tags g c = [].
Proof.
  intros Hf. apply elem_of_nil_inv. intros x Hx.
  destruct (chosen_entry items val tbl (dm_mem s) tags one_insertable Hb Hwf g c one_group ltac:(by apply hash_range) Hc x Hx) as [loc [_ [Hl _] Hm _ _] ].
  apply list_elem_of_singleton in Hl as ->. change (item_key items 0) with k in Hm. congruence.
Qed.
End OneKey.

Lemma replace_sets_one items tags tbl g c :
  let c' := chunk_counters K num_sets items tags tbl g.1 g.2 c in
  (replace_sets K T cfg num_sets cache_base items tags tbl [g] c).2 = entry_at items tbl tags g c' <$> chosen items tbl tags g c'.
Proof. unfold replace_sets. cbn [fold_left fst snd app]. by rewrite replace_set_eq. Qed.

Lemma one_entry k p d tbl tags c t w :
  lane (best_of [(k, p, d)] tbl tags (hash k, [0])) 0 = (p, 0) -> w = (lane (ways_for tbl tags (hash k, [0]) c) 7).2 ->
  published tbl [(entry_at [(k, p, d)] tbl tags (hash k, [0]) c 0).1] t (slot tbl (hash k) w) = tag_of k.
Proof.
  intros El ->. unfold tag_update_kernel, entry_at. cbn [fold_left fst snd e_set e_way e_tag]. rewrite El. apply upd_eq.
Qed.

Lemma dm_replacement val tbl env max k p d s :
  dm_env_ok env -> 1 <= max -> f32_positive p -> ctr_ok (dm_counters s) ->
  cache_inv val tbl (as_host s) -> batch_ok val tbl (dm_mem s) [(k, p, d)] ->
  let ctr j := if dm_tags s (slot tbl (hash k) j) =? sentinel then f32_zero
               else dm_decay num_sets decay_rate (dm_counters s) (slot 0 (hash k) j) in
  exists w, 0 <= w < NUM_WAYS /\ (forall j, 0 <= j < NUM_WAYS -> f32_lt (ctr j) (ctr w) = false) /\
  exists s', dm_insert K T cfg num_sets cache_base decay_rate sort_pairs encode exclusive_sum atomic_order env [(k, p, d)] (Some max) tbl s
      = Ok (ECERROR_SUCCESS, s') /\
    find_way (dm_tags s') tbl k =
      match find_way (dm_tags s) tbl k with
      | Some j => Some j
      | None => if f32_lt (ctr w) p then Some w else None
      end.
Proof.
  intros Henv Hmax Hp Hc Hci Hb ctr. pose proof (dm_decay_ok _ Hc) as Hc'. set (c := dm_decay num_sets decay_rate (dm_counters s)) in *.
  destruct (Hb k p d ltac:(by left)) as (Hk & _). pose proof (ci_wf _ _ _ _ _ _ _ _ Hci : wf_tags (dm_tags s) tbl) as Hwf.
  assert (Hctr : forall x, 0 <= x < 8 -> f32_counter (ctr x)).
  { intros x Hx. unfold ctr. destruct (_ =? _); [done|]. apply Hc'. split; [by apply hash_range|done]. }
  destruct (way_lane ctr Hctr 7 ltac:(lia)) as [Hw7 Ew7]. exists (lane (way_lanes ctr) 7).2. split; [done|].
  split; [intros j Hj; rewrite <- Ew7; by apply way_lanes_least|]. rewrite <- Ew7.
  destruct (dm_insert_inv val tbl env max [(k, p, d)] s) as (s' & E & Hci' & _ & _ & l & Hl & Et); [done|simpl; lia|by apply one_insertable|done..|].
  exists s'. split; [done|]. rewrite Et.
  rewrite (groups_singleton K num_sets sort_pairs encode exclusive_sum [(k, p, d)] eq_refl) in Hl. change (item_key [(k, p, d)] 0) with k in Hl.
  rewrite replace_sets_one in Hl. cbn [fst snd] in Hl. fold c in Hl.
  assert (Hc2 : ctr_ok (chunk_counters K num_sets [(k, p, d)] (dm_tags s) tbl (hash k) [0] c)).
  { apply (chunk_counters_ok _ val tbl (dm_mem s) _ (one_insertable k p d Hp) Hb); [by apply hash_range|by intros loc ->%list_elem_of_singleton|done]. }
  destruct (find_way (dm_tags s) tbl k) as [j|] eqn:Ef.
  - rewrite (one_resident k p d Hp val tbl s _ Hwf Hc2 Hb j Ef) in Hl. apply Permutation_nil_r in Hl as ->. exact Ef.
  - assert (Ech : chunk_counters K num_sets [(k, p, d)] (dm_tags s) tbl (hash k) [0] c = c).
    { clear Hl Et. unfold chunk_counters. cbn [fold_left]. change (item_key [(k, p, d)] 0) with k. by rewrite ways_of_spec, Ef. }
    rewrite Ech in Hl. destruct (one_chosen k p d Hp val tbl s c Hwf Hk Hb Ef) as [El Echo].
    change (way_lanes (way_counter k tbl s c)) with (way_lanes ctr) in Echo. rewrite Echo in Hl.
    destruct (f32_lt (lane (way_lanes ctr) 7).1 p) eqn:Elt; [|apply Permutation_nil_r in Hl as ->; exact Ef].
    apply Permutation_singleton_r in Hl as ->. eapply (find_way_hit K T cfg num_sets); [done..| |done|done|].
    + rewrite <- Et. by apply Hci'.
    + by apply one_entry.
Qed.

(** ** Runs *)

Local Abbreviation dm_insert := (dm_insert K T cfg num_sets cache_base decay_rate sort_pairs encode exclusive_sum atomic_order).
Local Abbreviation dm_update := (dm_update K T cfg num_sets cache_base atomic_order).
Local Abbreviation dm_invalidate := (dm_invalidate K T cfg num_sets cache_base atomic_order).
Local Abbreviation is_table := (is_table cfg).

(** One call that succeeds, or the application writing memory that is not the cache's. *)
Inductive dm_step : values * dm_state -> values * dm_state -> Prop :=
  | dms_insert v s s' env max items tbl :
      is_table tbl -> dm_env_ok env -> 0 < Z.of_nat (length items) <= max -> insertable items -> batch_ok (v tbl) tbl (dm_mem s) items ->
      dm_insert env items (Some max) tbl s = Ok (ECERROR_SUCCESS, s') -> dm_step (v, s) (v, s')
  | dms_update v v' s s' env max keys dv stride tbl :
      is_table tbl -> dm_env_ok env -> 0 < Z.of_nat (length keys) <= max -> update_fits keys stride ->
      update_rows_ok K T cfg num_sets cache_base v' tbl (dm_mem s) keys dv stride -> (forall k, k ∉ keys -> v' k = v tbl k) ->
      dm_update env (Some max) keys dv stride tbl s = Ok (ECERROR_SUCCESS, s') -> dm_step (v, s) (set_values v tbl v', s')
  | dms_invalidate v v' s s' env max keys tbl :
      is_table tbl -> dm_env_ok env -> 0 < Z.of_nat (length keys) <= max ->
      (forall k, k ∈ keys -> valid_key k) -> (forall k, k ∉ keys -> v' k = v tbl k) ->
      dm_invalidate env (Some max) keys tbl s = Ok (ECERROR_SUCCESS, s') -> dm_step (v, s) (set_values v tbl v', s')
  | dms_clear v v' s : dm_step (v, s) (v', (dm_clear_cache cfg num_sets true s).2)
  | dms_application v s m :
      (forall tbl a, is_table tbl -> slot_addr tbl 0 0 <= a < slot_addr tbl num_sets 0 -> m a = dm_mem s a) ->
      dm_step (v, s) (v, with_mem s m).

Definition dm_inv (w : values * dm_state) : Prop :=
  all_inv K T cfg num_sets cache_base (w.1, as_host w.2) /\ ctr_ok (dm_counters w.2).

Lemma dm_table_step v v' s s' tbl :
  dm_inv (v, s) -> cache_inv v' tbl (as_host s') -> kept tbl (as_host s) (as_host s') -> ctr_ok (dm_counters s') ->
  dm_inv (set_values v tbl v', s').
Proof. intros [Ha _] Hci Hk Hc. split; [|done]. by apply (table_step_inv K T cfg num_sets cache_base HK HT Hns32 Hrow v v' (as_host s)). Qed.

Lemma dm_step_inv w w' : dm_step w w' -> dm_inv w -> dm_inv w'.
Proof.
  intros Hs Hw. pose proof Hw as [Ha Hc]. destruct Hs as [v s s' env max items tbl Ht He Hn Hi Hb E
    | v v' s s' env max keys dv stride tbl Ht He Hn Hf Hr Hv E | v v' s s' env max keys tbl Ht He Hn Hk Hv E | v v' s | v s m Hm].
  - destruct (dm_insert_inv (v tbl) tbl env max items s) as (s2 & E2 & Hci & Hc2 & Hkept & _); [done..|by apply (Ha tbl)|done|].
    rewrite E2 in E. injection E as <-. destruct (dm_table_step v (v tbl) s s2 tbl Hw Hci Hkept Hc2) as [Ha' _]. split; [|done].
    eapply all_inv_ext; [|exact Ha']. apply set_values_self.
  - destruct (dm_update_inv (v tbl) v' tbl env max keys dv stride s) as (s2 & E2 & Hci & Hkept & Ec); [done..|by apply (Ha tbl)|done|done|].
    rewrite E2 in E. injection E as <-. apply (dm_table_step v v' s s2 tbl Hw Hci Hkept). by rewrite Ec.
  - destruct (dm_invalidate_inv (v tbl) v' tbl env max keys s) as (s2 & E2 & Hci & Hkept & Ec & _); [done..|by apply (Ha tbl)|done|].
    rewrite E2 in E. injection E as <-. apply (dm_table_step v v' s s2 tbl Hw Hci Hkept). by rewrite Ec.
  - split; [|done]. intros t Ht. by apply dm_clear_inv.
  - split; [|done]. intros t Ht. apply (as_host_inv _ _ (set_mem (as_host s) m)); [done|done|].
    apply set_mem_inv; [done..|by intros; eapply Hm|by apply Ha].
Qed.

(** C4. The device-managed cache is transparent: after any sequence of successful inserts,
    updates, invalidations and clears on any tables, interleaved with writes of the
    application to memory that is not the cache's, a lookup backed by a table delivers
    exactly the row the application associates with the key. The inserted batches have
    distinct keys with positive priorities, and no equal priorities in a set that receives
    more than eight of them; updates address tables of at most 4 GiB. *)
Theorem device_lookup_never_stale (s0 : dm_state) (v0 v : values) (s : dm_state) (table tbl k : Z) :
  ctr_ok (dm_counters s0) -> rtc dm_step (v0, (dm_clear_cache cfg num_sets true s0).2) (v, s) ->
  is_table tbl -> valid_key k -> table <> 0 -> in_u 64 (table + k * row) ->
  mem_read (dm_mem s) (table + k * row) row = v tbl k ->
  lookup_row K cfg num_sets cache_base (as_host s) table tbl k = v tbl k.
Proof.
  intros Hc Hsteps Ht Hk Hnz Ha Hr.
  assert (Hinv : dm_inv (v, s)).
  { assert (H0 : dm_inv (v0, (dm_clear_cache cfg num_sets true s0).2)) by (split; [intros t Ht'; by apply dm_clear_inv|done]).
    revert H0. induction Hsteps as [|x y z Hxy _ IH]; [done|]. intros H0. apply IH. by eapply dm_step_inv. }
  apply (lookup_transparent K T cfg num_sets cache_base HK Hns32 (v tbl)); [by apply Hinv|done..].
Qed.

(** Replacement policy of the device: a batch of one key with a positive priority
    succeeds and leaves the key in the way it already had, or in a way [w] of its set with
    the least counter after the decay (the counter of a free way is zero), exactly when it
    was resident or its priority is above that counter. *)
Theorem device_insert_replacement (val : Z -> list Z) (tbl : Z) (env : dm_env) (max k : Z) (p : f32) (d : Z) (s : dm_state) :
  dm_env_ok env -> 1 <= max -> f32_positive p -> ctr_ok (dm_counters s) ->
  cache_inv val tbl (as_host s) -> batch_ok val tbl (dm_mem s) [(k, p, d)] ->
  let ctr j := if dm_tags s (slot tbl (hash k) j) =? sentinel then f32_zero
               else dm_decay num_sets decay_rate (dm_counters s) (slot 0 (hash k) j) in
  exists w, 0 <= w < NUM_WAYS /\ (forall j, 0 <= j < NUM_WAYS -> f32_lt (ctr j) (ctr w) = false) /\
  exists s', dm_insert env [(k, p, d)] (Some max) tbl s = Ok (ECERROR_SUCCESS, s') /\
    find_way (dm_tags s') tbl k =
      match find_way (dm_tags s) tbl k with
      | Some j => Some j
      | None => if f32_lt (ctr w) p then Some w else None
      end.
Proof. apply dm_replacement. Qed.

(** C17. The operations of the device-managed cache on a well-formed state succeed and
    preserve the invariant: inserts of 1 to [max] distinct keys with positive priorities, of
    which no two in a set that receives more than eight are equal ([insertable]; without it
    see [device_ties_duplicate_key]); updates of 1 to [max] keys of a cache table of at most
    4 GiB, after which every hit delivers the new row; and invalidations of 1 to [max] keys,
    after which no way holds one of the keys. *)
Theorem device_operations_preserve_invariant (val val' : Z -> list Z) (tbl : Z) (env : dm_env) (max : Z)
    (items : list (Z * f32 * Z)) (keys : list Z) (dv stride : Z) (s : dm_state) :
  dm_env_ok env -> cache_inv val tbl (as_host s) -> ctr_ok (dm_counters s) ->
  0 < Z.of_nat (length items) <= max -> insertable items -> batch_ok val tbl (dm_mem s) items ->
  0 < Z.of_nat (length keys) <= max -> update_fits keys stride ->
  update_rows_ok K T cfg num_sets cache_base val' tbl (dm_mem s) keys dv stride -> (forall k, k ∉ keys -> val' k = val k) ->
  (exists s', dm_insert env items (Some max) tbl s = Ok (ECERROR_SUCCESS, s') /\ cache_inv val tbl (as_host s') /\ ctr_ok (dm_counters s')) /\
  (exists s', dm_update env (Some max) keys dv stride tbl s = Ok (ECERROR_SUCCESS, s') /\ cache_inv val' tbl (as_host s') /\ ctr_ok (dm_counters s')) /\
  (exists s', dm_invalidate env (Some max) keys tbl s = Ok (ECERROR_SUCCESS, s') /\ cache_inv val' tbl (as_host s') /\
     ctr_ok (dm_counters s') /\ forall k, k ∈ keys -> find_way (dm_tags s') tbl k = None).
Proof.
  intros He Hci Hc Hn Hi Hb Hm Hf Hr Hv.
  assert (Hk : forall k, k ∈ keys -> valid_key k) by (intros k [n Hk]%list_elem_of_lookup; by apply (Hr n k Hk)).
  destruct (dm_insert_inv val tbl env max items s) as (s1 & E1 & H1 & C1 & _); [done..|].
  destruct (dm_update_inv val val' tbl env max keys dv stride s) as (s2 & E2 & H2 & _ & C2); [done..|].
  destruct (dm_invalidate_inv val val' tbl env max keys s) as (s3 & E3 & H3 & _ & C3 & G3); [done..|].
  split_and!; [by exists s1|exists s2|exists s3]; rewrite ?C2, ?C3; done.
Qed.
End Coherence.

(** ** Sizes and the key listing *)

Lemma align_512 x : 0 <= x -> x <= Z.shiftl (Z.shiftr (x + 511) 9) 9.
Proof.
  intros Hx. rewrite Z.shiftl_mul_pow2, Z.shiftr_div_pow2 by lia. change (2 ^ 9) with 512.
  pose proof (Z.div_mod (x + 511) 512). pose proof (Z.mod_pos_bound (x + 511) 512). lia.
Qed.

(** The temporary storage of a context is enough for every batch the context admits: with
    storage allocated for [max] keys, what is left for the primitives of CUB after the arrays
    of [n <= max] keys have been cut off is at least what each of them asks for, and the arrays
    and the rest do not exceed the storage. *)
Theorem tmp_storage_suffices (sort_bytes encode_bytes sum_bytes : Z -> Z) (K : int_type) (n max num_sets : Z) :
  (forall a b, a <= b -> 0 <= sort_bytes a <= sort_bytes b) -> (forall a b, a <= b -> 0 <= encode_bytes a <= encode_bytes b) ->
  (forall a b, a <= b -> 0 <= sum_bytes a <= sum_bytes b) -> 0 <= width K -> 0 <= n <= max -> 0 <= num_sets ->
  let left := storage_left K (tmp_storage_sz sort_bytes encode_bytes sum_bytes K max num_sets) n num_sets in
  sort_bytes n <= left /\ encode_bytes n <= left /\ (forall sets, sets <= num_sets -> sum_bytes (sets + 1) <= left) /\
  foldr Z.add 0 (storage_parts K n num_sets) + left = tmp_storage_sz sort_bytes encode_bytes sum_bytes K max num_sets.
Proof.
  intros Hs He Hu Hk Hn Hm left.
  pose proof (Hs n max ltac:(lia)). pose proof (He n max ltac:(lia)). pose proof (Hu (num_sets + 1) (num_sets + 1) ltac:(lia)).
  set (need := if (if sort_bytes max <? encode_bytes max then encode_bytes max else sort_bytes max) <? sum_bytes (num_sets + 1)
               then sum_bytes (num_sets + 1) else if sort_bytes max <? encode_bytes max then encode_bytes max else sort_bytes max).
  assert (Hneed : sort_bytes max <= need /\ encode_bytes max <= need /\ sum_bytes (num_sets + 1) <= need).
  { unfold need. destruct (Z.ltb_spec (sort_bytes max) (encode_bytes max)); case_match eqn:E; (apply Z.ltb_lt in E || apply Z.ltb_ge in E); lia. }
  pose proof (align_512 need ltac:(lia)) as Ha.
  assert (Hleft : need <= left).
  { unfold left, storage_left, tmp_storage_sz, GetSetReplaceDataAllocRequirements. cbv zeta. fold need.
    pose proof (Z.div_pos (width K) 8 Hk ltac:(lia)). nia. }
  split_and!; [lia|lia| |].
  - intros sets Hsets. pose proof (Hu (sets + 1) (num_sets + 1) ltac:(lia)). lia.
  - unfold left, storage_left, storage_parts. cbn [foldr]. lia.
Qed.

(** The key listing of the device-managed cache is exact: where the host has room for a copy
    of the tags, a key is listed iff it is resident in table 0. *)
Theorem device_get_keys_exact (K T : int_type) (cfg : CacheConfig) (num_sets : Z) (s : dm_state) (k : Z) :
  0 < width K <= 64 -> 0 < width T -> 0 < num_sets <= 2 ^ 32 -> wf_tags K T cfg num_sets (dm_tags s) 0 -> valid_key K T cfg num_sets k ->
  let r := dm_get_keys_stored_in_cache K cfg num_sets false false true true s in
  r.1 = ECERROR_SUCCESS /\ (k ∈ r.2 <-> is_Some (find_way K num_sets (dm_tags s) 0 k)).
Proof.
  intros HK HT Hns Hwf Hk. split; [done|]. destruct HK as [HK HK64]. by apply (get_keys_lemma K T cfg num_sets HK HT Hns (as_host s)).
Qed.
