(* ===== verification/DeviceTies.v ===== *)
(** * Equal priorities in the device-managed cache

    What [MergeBlock] does with ties: a set that receives more than eight keys of equal
    priority takes one of them in all of its ways. An update of that key then rewrites only
    as many of the ways as it has keys, and a lookup can deliver the old row. Also concrete
    instances of the library primitives, for the runs of this file. *)
From stdpp Require Import sorting.
From S2P Require Import Prelude EcHash SetAssoc Float32 HostModify CacheCoherence DeviceModify DeviceSelect DeviceTop DeviceCoherence.

(** ** Networks on equal priorities *)

Section Ties.
Context (p : f32) (Hp : f32_positive p).

Lemma f32_eqb_refl : SFeqb p p = true.
Proof.
  destruct p as [| | |[] m e]; try done. unfold SFeqb. simpl. rewrite Z.compare_refl.
  change (PosDef.Pos.compare_cont Eq) with Pos.compare. by rewrite Pos.compare_refl.
Qed.

Definition tied (l : lanes) : Prop := length l = 8%nat /\ Forall (fun x => x.1 = p) l.

Lemma tied_lane l i : tied l -> 0 <= i < 8 -> (lane l i).1 = p.
Proof. intros [Hl Hf] Hi. rewrite Forall_forall in Hf. by apply Hf, lane_in. Qed.

Lemma SortBlock_tied l : tied l -> SortBlock l = l.
Proof.
  intros Ht. unfold SortBlock. assert (Hin : forall kj, kj ∈ sort_steps -> kj ∈ sort_steps) by done. revert Hin.
  generalize sort_steps at 1 3. intros steps. induction steps as [| [k j] steps IH]; intros Hin; [done|]. cbn [fold_left fst snd].
  assert (E : exchange (sort_swap k j l) j l = l).
  { rewrite <- (lane_seq l (proj1 Ht)) at 3. unfold exchange. apply list_fmap_ext. intros n i Hi%list_elem_of_lookup_2%elem_of_seqZ.
    unfold NUM_WAYS in Hi. destruct (sort_steps_ok k j i ltac:(apply Hin; by left) ltac:(lia)) as [Hj _]. destruct (pair_facts i j ltac:(lia) Hj) as (Hq & _).
    unfold sort_swap, f32_ne. by rewrite !tied_lane, f32_eqb_refl by (done || lia). }
  rewrite E. apply IH. intros kj Hk. apply Hin. by right.
Qed.

Lemma exchange_tied j l :
  tied l -> step_ok j -> exchange (merge_swap j l) j l = (fun i => lane l (if i <? Z.lxor i j then Z.lxor i j else i)) <$> seqZ 0 NUM_WAYS.
Proof.
  intros Ht Hj. unfold exchange. apply list_fmap_ext. intros n i Hi%list_elem_of_lookup_2%elem_of_seqZ. unfold NUM_WAYS in Hi.
  destruct (pair_facts i j ltac:(lia) Hj) as (Hq & _). unfold merge_swap, f32_gt. rewrite !tied_lane by (done || lia).
  rewrite f32_lt_irrefl. by destruct (i <? Z.lxor i j).
Qed.

Lemma exchange_tied_ok j l : tied l -> step_ok j -> tied (exchange (merge_swap j l) j l).
Proof.
  intros Ht Hj. split; [apply length_exchange|]. rewrite exchange_tied by done. apply Forall_forall.
  intros x (i & -> & Hi%elem_of_seqZ)%list_elem_of_fmap. unfold NUM_WAYS in Hi. destruct (pair_facts i j ltac:(lia) Hj) as (Hq & _).
  apply tied_lane; [done|]. destruct (i <? Z.lxor i j); lia.
Qed.

(** A merge into eight tied lanes leaves eight copies of the last one. *)
Lemma MergeBlock_tied l1 l2 :
  tied l1 -> (forall i, 0 <= i < 8 -> f32_gt (lane l2 i).1 p = false) -> MergeBlock l1 l2 = replicate 8 (lane l1 7).
Proof.
  intros H1 H2. unfold MergeBlock. set (best := fmap _ (seqZ 0 NUM_WAYS)).
  assert (Eb : best = l1).
  { rewrite <- (lane_seq l1 (proj1 H1)). apply list_fmap_ext. intros n i Hi%list_elem_of_lookup_2%elem_of_seqZ. unfold NUM_WAYS in Hi.
    cbv zeta. rewrite (tied_lane l1 i H1) by lia. by rewrite H2 by (unfold NUM_WAYS; lia). }
  rewrite Eb. clear best Eb. cbn [fold_left].
  assert (S4 : step_ok 4) by (unfold step_ok; lia). assert (S2 : step_ok 2) by (unfold step_ok; lia). assert (S1 : step_ok 1) by (unfold step_ok; lia).
  pose proof (exchange_tied_ok 4 l1 H1 S4) as T4. pose proof (exchange_tied_ok 2 _ T4 S2) as T2.
  rewrite (exchange_tied 1 _ T2 S1), (exchange_tied 2 _ T4 S2), (exchange_tied 4 _ H1 S4).
  destruct H1 as [Hl _]. destruct l1 as [|a0 [|a1 [|a2 [|a3 [|a4 [|a5 [|a6 [|a7 [|] ] ] ] ] ] ] ] ]; try done.
Qed.
End Ties.

(** ** A set that receives more than eight keys of equal priority *)

Section TiedSet.
Context (K T : int_type) (cfg : CacheConfig) (num_sets cache_base : Z) (items : list (Z * f32 * Z)) (tags : Z -> Z) (tbl : Z) (p : f32).
Context (Hp : f32_positive p).
Local Abbreviation best_of := (best_of K num_sets items tbl tags).

(** All keys of the group miss and have priority [p]. *)
Definition tied_group (g : Z * list Z) : Prop :=
  (8 < length g.2)%nat /\ forall loc, loc ∈ g.2 -> ways_of K num_sets tags tbl g.1 (item_key items loc) = [] /\ item_priority items loc = p.

Lemma chunk_tied set locs :
  length locs = 8%nat -> (forall loc, loc ∈ locs -> ways_of K num_sets tags tbl set (item_key items loc) = [] /\ item_priority items loc = p) ->
  chunk_lanes K num_sets items tags tbl set locs = (fun loc => (p, loc)) <$> locs.
Proof.
  intros Hl Ho. rewrite chunk_lanes_eq by lia. rewrite Hl. simpl. rewrite app_nil_r. apply list_fmap_ext. intros i loc Hi%list_elem_of_lookup_2.
  destruct (Ho loc Hi) as [H1 H2]. by rewrite bool_decide_true, H2.
Qed.

Lemma chunk_not_above set locs i :
  (forall loc, loc ∈ locs -> item_priority items loc = p) -> (length locs <= 8)%nat ->
  0 <= i < 8 -> f32_gt (lane (SortBlock (chunk_lanes K num_sets items tags tbl set locs)) i).1 p = false.
Proof.
  intros Ho Hl Hi. assert (Hpc : f32_counter p) by (by apply positive_counter).
  destruct (chunk_counters_lanes K num_sets items tags tbl set locs Hl) as [H8 Hc]; [intros loc Hin; by rewrite Ho|].
  assert (Hin : lane (SortBlock (chunk_lanes K num_sets items tags tbl set locs)) i ∈ chunk_lanes K num_sets items tags tbl set locs).
  { assert (Hperm : SortBlock (chunk_lanes K num_sets items tags tbl set locs) ≡ₚ chunk_lanes K num_sets items tags tbl set locs) by (by apply SortBlock_perm).
    eapply elem_of_Permutation_proper; [symmetry; exact Hperm|]. apply lane_in; [by rewrite Hperm|done]. }
  revert Hin. generalize (lane (SortBlock (chunk_lanes K num_sets items tags tbl set locs)) i). intros y Hin. rewrite chunk_lanes_eq in Hin by done. unfold f32_gt. apply elem_of_app in Hin as [(loc & -> & Hin)%list_elem_of_fmap|[-> _]%elem_of_replicate].
  - destruct (bool_decide _); [cbn [fst]; rewrite Ho by done; apply f32_lt_irrefl|]. by apply f32_counter_not_neg.
  - by apply f32_counter_not_neg.
Qed.

Lemma best_tied fuel set locs x :
  x.1 = p -> (forall loc, loc ∈ locs -> item_priority items loc = p) ->
  best_lanes K num_sets items fuel tags tbl set locs (replicate 8 x) = replicate 8 x.
Proof.
  intros Hx. revert locs. induction fuel as [|fuel IH]; intros locs Ho; cbn [best_lanes]; [done|]. destruct locs as [|loc locs]; [done|].
  set (all := loc :: locs) in *. rewrite (MergeBlock_tied p (replicate 8 x)).
  - apply IH. intros loc' Hl. apply Ho. by eapply subseteq_drop.
  - split; [done|]. by apply Forall_replicate.
  - intros i Hi. apply chunk_not_above; [|rewrite length_take; lia|done]. intros loc' Hl. apply Ho. by eapply subseteq_take.
Qed.

Lemma best_of_tied g loc : tied_group g -> g.2 !! 7%nat = Some loc -> best_of g = replicate 8 (p, loc).
Proof.
  intros [Hl Ho] H7. unfold DeviceCoherence.best_of. destruct g as [set locs]. cbn [fst snd] in *.
  assert (H8 : length (take 8 locs) = 8%nat) by (rewrite length_take; lia).
  rewrite chunk_tied by (done || (intros l Hin; apply Ho; by eapply subseteq_take)).
  set (l1 := fmap _ _). assert (T1 : tied p l1).
  { split; [unfold l1; by rewrite length_fmap|]. apply Forall_forall. by intros x (y & -> & _)%list_elem_of_fmap. }
  assert (E7 : lane l1 7 = (p, loc)).
  { unfold lane, l1. change (Z.to_nat 7) with 7%nat. rewrite list_lookup_fmap, lookup_take_lt by lia. by rewrite H7. }
  assert (Hd : (0 < length (drop 8 locs))%nat) by (rewrite length_drop; lia).
  rewrite (SortBlock_tied p Hp) by done. destruct (length locs) as [|n]; [lia|]. cbn [best_lanes].
  destruct (drop 8 locs) as [|l0 rest] eqn:Ed; [simpl in Hd; lia|]. rewrite <- Ed.
  assert (Ho' : forall l, l ∈ drop 8 locs -> item_priority items l = p) by (intros l Hin; apply Ho; by eapply subseteq_drop).
  rewrite (MergeBlock_tied p l1), E7.
  - apply best_tied; [done|]. intros l Hin. apply Ho'. by eapply subseteq_drop.
  - done.
  - intros i Hi. apply chunk_not_above; [|rewrite length_take; lia|done]. intros l Hin. apply Ho'. by eapply subseteq_take.
Qed.

Lemma lane_replicate x i : 0 <= i < 8 -> lane (replicate 8 x) i = x.
Proof. intros Hi. unfold lane. by rewrite lookup_replicate_2 by lia. Qed.

(** Ties duplicate keys. *)
Lemma device_ties_lemma (g : Z * list Z) (c : Z -> f32) (loc : Z) :
  tied_group g -> g.2 !! 7%nat = Some loc ->
  (forall w, 0 <= w < NUM_WAYS -> tags (slot num_sets tbl g.1 w) = sentinel_key cfg) ->
  let l := (replace_set K T cfg num_sets cache_base items tags tbl g c).2 in
  (e_way ∘ fst <$> l) ≡ₚ seqZ 0 NUM_WAYS /\
  Forall (fun e => e_tag e.1 = tag_of K T num_sets (item_key items loc) /\ e_src e.1 = item_data items loc /\ e.2 = p) l.
Proof.
  intros Ht H7 Hfree l. pose proof (best_of_tied g loc Ht H7) as Eb. unfold l. rewrite replace_set_eq. cbn [snd].
  set (c' := chunk_counters _ _ _ _ _ _ _ _).
  assert (Hz : forall x, 0 <= x < 8 -> (if tags (slot num_sets tbl g.1 x) =? sentinel_key cfg then f32_zero else c' (slot num_sets 0 g.1 x)) = f32_zero).
  { intros x Hx. rewrite Hfree by (unfold NUM_WAYS; lia). by rewrite Z.eqb_refl. }
  assert (Hg : forall x, 0 <= x < 8 -> f32_counter (if tags (slot num_sets tbl g.1 x) =? sentinel_key cfg then f32_zero else c' (slot num_sets 0 g.1 x))).
  { intros x Hx. by rewrite Hz. }
  assert (Ec : chosen K cfg num_sets items tbl tags g c' = seqZ 0 NUM_WAYS).
  { unfold chosen. rewrite Eb. destruct Ht as [Hl _]. apply filter_id. intros x Hx%elem_of_seqZ. unfold NUM_WAYS in *.
    rewrite (proj2 (Z.ltb_lt _ _)) by lia. rewrite lane_replicate by lia. cbn [andb fst]. unfold f32_gt.
    destruct (way_lane _ Hg (8 - 1 - x) ltac:(lia)) as [Hw Ew]. unfold ways_for. rewrite Ew, Hz by done. by apply f32_positive_gt. }
  rewrite Ec. split.
  - set (wl := way_lanes (fun x => if tags (slot num_sets tbl g.1 x) =? sentinel_key cfg then f32_zero else c' (slot num_sets 0 g.1 x))).
    assert (Hl8 : length wl = 8%nat) by (by apply length_way_lanes).
    transitivity ((reverse wl).*2); [rewrite <- reverse_lanes by done; by rewrite <- !list_fmap_compose|].
    rewrite reverse_Permutation. unfold wl. rewrite way_lanes_perm, <- list_fmap_compose by done. reflexivity.
  - apply Forall_forall. intros e (x & -> & Hx%elem_of_seqZ)%list_elem_of_fmap. unfold entry_at. rewrite Eb, lane_replicate by (unfold NUM_WAYS in *; lia). done.
Qed.

(** Ties duplicate keys: when more than eight keys of a batch fall into a free set, all
    absent and of equal priority, [SetReplaceDataKernel] emits eight entries that all carry
    the key of the eighth position, one for each way, and the other keys are dropped. *)
Theorem device_ties_duplicate_key (g : Z * list Z) (c : Z -> f32) (loc : Z) :
  tied_group g -> g.2 !! 7%nat = Some loc ->
  (forall w, 0 <= w < NUM_WAYS -> tags (slot num_sets tbl g.1 w) = sentinel_key cfg) ->
  let l := (replace_set K T cfg num_sets cache_base items tags tbl g c).2 in
  (e_way ∘ fst <$> l) ≡ₚ seqZ 0 NUM_WAYS /\
  Forall (fun e => e_tag e.1 = tag_of K T num_sets (item_key items loc) /\ e_src e.1 = item_data items loc /\ e.2 = p) l.
Proof. apply device_ties_lemma. Qed.
End TiedSet.

(** ** Instances of the primitives *)

Module DemoCub.
Definition fst_le (a b : Z * Z) : Prop := a.1 <= b.1.
#[export] Instance fst_le_dec a b : Decision (fst_le a b) := decide (a.1 <= b.1).
#[export] Instance fst_le_total : Total fst_le.
Proof. intros a b. unfold fst_le. lia. Qed.
#[export] Instance fst_le_trans : Transitive fst_le.
Proof. intros a b c. unfold fst_le. lia. Qed.

Definition sort_pairs : list (Z * Z) -> list (Z * Z) := merge_sort fst_le.

Fixpoint encode (l : list Z) : list (Z * Z) :=
  match l with
  | [] => []
  | x :: l => match encode l with
              | (y, c) :: runs => if x =? y then (y, c + 1) :: runs else (x, 1) :: (y, c) :: runs
              | [] => [(x, 1)]
              end
  end.

Fixpoint sums (acc : Z) (l : list Z) : list Z :=
  match l with [] => [] | x :: l => acc :: sums (acc + x) l end.
Definition exclusive_sum : list Z -> list Z := sums 0.

Lemma encode_pos l : Forall (fun r => 0 < r.2) (encode l).
Proof.
  induction l as [|x l IH]; simpl; [done|]. destruct (encode l) as [| [y c] runs]; [by repeat constructor|].
  apply Forall_cons in IH as [Hc IH]. destruct (x =? y); repeat constructor; simpl in *; lia || done.
Qed.

Lemma encode_expand l : expand (encode l) = l.
Proof.
  induction l as [|x l IH]; simpl; [done|]. pose proof (encode_pos l) as Hp. destruct (encode l) as [| [y c] runs]; [by rewrite <- IH|].
  apply Forall_cons in Hp as [Hc _]. simpl in Hc. destruct (Z.eqb_spec x y) as [->|]; [|by rewrite <- IH].
  rewrite <- IH. unfold expand. simpl. by rewrite Z2Nat.inj_add, Nat.add_1_r by lia.
Qed.

Lemma encode_adjacent l : adjacent_differ (encode l).*1.
Proof.
  induction l as [|x l IH]; simpl; [done|]. destruct (encode l) as [| [y c] runs]; [by intros [|i] a b|].
  destruct (Z.eqb_spec x y) as [->|Hne]; [done|]. intros [|i] a b; simpl; [by intros [= <-] [= <-]|]. apply (IH i).
Qed.

Lemma sums_lookup acc l i : (i < length l)%nat -> sums acc l !! i = Some (acc + foldr Z.add 0 (take i l)).
Proof.
  revert acc i. induction l as [|x l IH]; intros acc [|i] Hi; simpl in *; try lia; [by rewrite Z.add_0_r|].
  rewrite IH by lia. f_equal. lia.
Qed.

#[export] Instance laws limit : CubLaws sort_pairs encode exclusive_sum limit.
Proof.
  split.
  - apply merge_sort_Permutation.
  - intros l. pose proof (StronglySorted_merge_sort fst_le l) as H. fold (sort_pairs l) in H.
    induction H as [|x l' _ IH Hx]; [constructor|]. constructor; [done|]. by apply Forall_fmap.
  - apply encode_expand.
  - apply encode_pos.
  - apply encode_adjacent.
  - intros l i Hi _ _. unfold exclusive_sum. by rewrite sums_lookup.
Qed.
End DemoCub.
Local Existing Instance DemoCub.laws.

(** ** Runs: one set, rows of four bytes, the table at 1000 *)

Definition demo_dm_env : dm_env :=
  {| dm_memcpy_ok := true; dm_compute_ok := true; dm_invalidate_ok := true; dm_synchronize_ok := true;
     dm_event_record := 0; dm_event_wait := 0; dm_mem_update_ok := true; dm_tag_update_ok := true |}.
Definition demo_dm : dm_state := {| dm_tags := fun _ => 7; dm_counters := fun _ => f32_zero; dm_mem := fun a => a mod 251 |}.
Definition demo_dm_clear : dm_state := (dm_clear_cache demo_cc 1 true demo_dm).2.
Definition rev_order (A : Type) (l : list A) : list A := rev l.
Local Abbreviation demo_dm_insert :=
  (dm_insert int64_t int64_t demo_cc 1 0 f32_one DemoCub.sort_pairs DemoCub.encode DemoCub.exclusive_sum rev_order demo_dm_env).
Local Abbreviation demo_dm_update := (dm_update int64_t int64_t demo_cc 1 0 rev_order demo_dm_env).
Local Abbreviation demo_lookup s k := (lookup_row int64_t demo_cc 1 0 (as_host s) 1000 0 k).

(** Keys [0] to [8], all with priority one. *)
Definition demo_nine : list (Z * f32 * Z) := (fun k => (k, f32_one, 1000 + 4 * k)) <$> seqZ 0 9.
(** The return code and the state of an outcome. *)
Definition code_of (o : outcome (Z * dm_state)) : option Z := match o with Ok r => Some r.1 | _ => None end.
Definition state_of (o : outcome (Z * dm_state)) : dm_state := match o with Ok r => r.2 | _ => demo_dm end.
Lemma outcome_eta o c : code_of o = Some c -> o = Ok (c, state_of o).
Proof. destruct o as [ [e s]| |]; simpl; intros H; simplify_eq; done. Qed.

Definition after_insert : dm_state := state_of (demo_dm_insert demo_nine (Some 16) 0 demo_dm_clear).
Definition after_update : dm_state := state_of (demo_dm_update (Some 16) [7] 5000 4 0 after_insert).

(** A stale row: nine keys of priority one are inserted into an empty set and key [7] is
    then updated, both calls return success and no launch or copy fails; a lookup of key [7]
    still delivers the row it had before the update, because all eight ways hold the key and
    the row kernel of an update of one key runs for one of them. *)
Theorem device_update_leaves_stale_row :
  demo_dm_insert demo_nine (Some 16) 0 demo_dm_clear = Ok (ECERROR_SUCCESS, after_insert) /\
  demo_dm_update (Some 16) [7] 5000 4 0 after_insert = Ok (ECERROR_SUCCESS, after_update) /\
  demo_lookup after_update 7 = mem_read (dm_mem demo_dm) (1000 + 7 * 4) 4 /\
  demo_lookup after_update 7 <> mem_read (dm_mem demo_dm) 5000 4.
Proof.
  split_and!; [apply outcome_eta; vm_compute; reflexivity..|vm_compute; reflexivity|vm_compute; discriminate].
Qed.

(** ** Tables beyond 4 GiB *)

(** [SetUpdateDataKernel] computes the destination of a row in 32 bits: for a resident
    key whose row lies 4 GiB or more from the start of its table, the entry of an update
    names an address below the row, so the new row overwrites another slot and the key keeps
    its old row ([SetReplaceDataKernel] computes the same offset in 64 bits). *)
Theorem device_update_wrong_slot (K T : int_type) (cfg : CacheConfig) (num_sets cache_base : Z)
    (tags : Z -> Z) (tbl d_values stride k w : Z) :
  0 < embed_width_in_bytes cfg < 2 ^ 32 -> ways_of K num_sets tags tbl (hash K num_sets k) k = [w] ->
  2 ^ 32 <= (hash K num_sets k * NUM_WAYS + w) * embed_width_in_bytes cfg ->
  exists e, update_entries K T cfg num_sets cache_base false tags tbl d_values stride [k] = [e] /\
    e_set e = hash K num_sets k /\ e_way e = w /\ e_tag e = tag_of K T num_sets k /\
    e_dst e < slot_addr cfg num_sets cache_base tbl (hash K num_sets k) w.
Proof.
  intros Hrow Hw Hbig. unfold update_entries. cbn [imap]. rewrite Hw. cbn [fmap list_fmap mjoin list_join app]. eexists. split; [done|].
  cbn [e_set e_way e_tag e_dst]. split_and!; [done..|]. unfold slot_addr. rewrite (wrapu_small 32 (embed_width_in_bytes cfg)) by (unfold in_u; lia).
  pose proof (Z.mod_pos_bound ((hash K num_sets k * NUM_WAYS + w) * embed_width_in_bytes cfg) (2 ^ 32) ltac:(lia)). unfold wrapu. lia.
Qed.

(** Rows of 2^20 bytes: key 512 of a cache with 1024 sets. *)
Definition demo_wide : CacheConfig :=
  {| cache_sz_in_bytes := 2 ^ 33; embed_width_in_bytes := 2 ^ 20; num_tables := 1; allocate_data_on_host := false; sentinel_key := -1 |}.

Lemma device_update_wrong_slot_witness :
  exists e, update_entries int64_t int64_t demo_wide 1024 0 false (fun i => if i =? 4096 then 0 else -1) 0 9 4 [512] = [e] /\ e_dst e < slot_addr demo_wide 1024 0 0 512 0.
Proof.
  destruct (device_update_wrong_slot int64_t int64_t demo_wide 1024 0 (fun i => if i =? 4096 then 0 else -1) 0 9 4 512 0) as (e & E & _ & _ & _ & H).
  - simpl; lia.
  - vm_compute; reflexivity.
  - vm_compute; discriminate.
  - exists e. exact (conj E H).
Defined.

(** ** Witnesses *)

Definition demo_ten : list (Z * f32 * Z) := (fun k => (k, f32_of_Z (1 + k), 1000 + 4 * k)) <$> seqZ 0 10.

Lemma device_best_candidates_witness :
  f32_lt (f32_of_Z 9)
    (lane (best_lanes int64_t 1 demo_ten (length (seqZ 0 10)) (fun _ => -1) 0 0 (drop 8 (seqZ 0 10))
       (SortBlock (chunk_lanes int64_t 1 demo_ten (fun _ => -1) 0 0 (take 8 (seqZ 0 10))))) 0).1 = true.
Proof.
  rewrite (device_best_candidates int64_t 1 demo_ten (fun _ => -1) 0 0 (f32_of_Z 9) (seqZ 0 10) 0).
  - vm_compute; reflexivity.
  - exact I.
  - intros loc Hl%elem_of_seqZ. apply (proj1 (Forall_forall (fun l => f32_counter (item_priority demo_ten l)) (seqZ 0 10))); [repeat constructor|].
    apply elem_of_seqZ. lia.
  - lia.
Defined.

Lemma demo_dm_free tbl w : 0 <= tbl < 2 -> 0 <= w < NUM_WAYS -> dm_tags demo_dm_clear (slot 1 tbl 0 w) = sentinel_key demo_cc.
Proof.
  intros Ht Hw. change (dm_tags demo_dm_clear (slot 1 tbl 0 w)) with (if in_storage demo_cc 1 (slot 1 tbl 0 w) then -1 else 7).
  replace (in_storage demo_cc 1 (slot 1 tbl 0 w)) with true; [done|]. symmetry. unfold in_storage, slot, NUM_WAYS in *. simpl num_tables.
  apply andb_true_iff. split; [apply Z.leb_le|apply Z.ltb_lt]; lia.
Qed.

Lemma device_ties_duplicate_key_witness :
  Forall (fun e => e_tag e.1 = 7 /\ e_src e.1 = 1028 /\ e.2 = f32_one)
    (replace_set int64_t int64_t demo_cc 1 0 demo_nine (dm_tags demo_dm_clear) 0 (0, seqZ 0 9) (fun _ => f32_zero)).2.
Proof.
  apply (device_ties_duplicate_key int64_t int64_t demo_cc 1 0 demo_nine (dm_tags demo_dm_clear) 0 f32_one I (0, seqZ 0 9) (fun _ => f32_zero) 7).
  - split; [simpl; lia|]. apply (Forall_forall _ (seqZ 0 9)). change (seqZ 0 9) with [0; 1; 2; 3; 4; 5; 6; 7; 8].
    repeat constructor; vm_compute; reflexivity.
  - reflexivity.
  - intros w Hw. by apply demo_dm_free.
Defined.

Lemma demo_dm_inv tbl : 0 <= tbl < 2 -> cache_inv int64_t int64_t demo_cc 1 0 demo_val tbl (as_host demo_dm_clear).
Proof. intros Ht. by apply dm_clear_inv. Qed.

Lemma demo_ctr s : (forall i, f32_counter (dm_counters s i)) -> ctr_ok 1 (dm_counters s).
Proof. intros H set way _. apply H. Qed.

Lemma demo_dm_valid k : 0 <= k < 1000 -> valid_key int64_t int64_t demo_cc 1 k.
Proof. intros Hk. apply nonneg_storable; simpl; try reflexivity; try lia. apply Z.div_lt_upper_bound; lia. Qed.

Lemma demo_dm_outside tbl a : 0 <= tbl < 2 -> 1000 <= a -> outside demo_cc 1 0 tbl a.
Proof. intros Ht Ha set way [Hs Hw]. unfold disjoint, slot_addr, NUM_WAYS in *. simpl. lia. Qed.

Lemma demo_dm_batch tbl k p : 0 <= tbl < 2 -> 0 <= k < 1000 ->
  batch_ok int64_t int64_t demo_cc 1 0 demo_val tbl (dm_mem demo_dm_clear) [(k, p, 1000 + k * 4)].
Proof.
  intros Ht Hk k' p' d Hin%list_elem_of_singleton. injection Hin as -> -> ->.
  split; [by apply demo_dm_valid|]. split; [apply demo_dm_outside; lia|done].
Qed.

Lemma rev_order_perm A (l : list A) : rev_order A l ≡ₚ l.
Proof. unfold rev_order. symmetry. apply Permutation_rev. Qed.

Definition after_one : dm_state := state_of (demo_dm_insert [(5, f32_one, 1020)] (Some 16) 1 demo_dm_clear).

Lemma device_lookup_never_stale_witness :
  embed_cache_get_address int64_t demo_cc 1 0 (dm_tags after_one) 1000 1 5 <> 1020 /\
  lookup_row int64_t demo_cc 1 0 (as_host after_one) 1000 1 5 = demo_val 5.
Proof.
  split; [vm_compute; discriminate|].
  apply (device_lookup_never_stale int64_t int64_t demo_cc 1 0 f32_one DemoCub.sort_pairs DemoCub.encode DemoCub.exclusive_sum rev_order
    eq_refl eq_refl eq_refl eq_refl ltac:(vm_compute; discriminate) eq_refl rev_order_perm I
    demo_dm (fun _ => demo_val) (fun _ => demo_val) after_one 1000 1 5).
  - by apply demo_ctr.
  - apply rtc_once. apply (dms_insert _ _ _ _ _ _ _ _ _ _ _ _ _ demo_dm_env 16 [(5, f32_one, 1020)] 1).
    + unfold is_table; simpl; lia.
    + repeat split.
    + simpl; lia.
    + by apply one_insertable.
    + apply (demo_dm_batch 1 5); lia.
    + apply outcome_eta. vm_compute. reflexivity.
  - unfold is_table; simpl; lia.
  - apply demo_dm_valid; lia.
  - lia.
  - unfold in_u; simpl; lia.
  - vm_compute. reflexivity.
Defined.

Lemma device_insert_replacement_witness :
  exists w s', demo_dm_insert [(5, f32_one, 1000 + 5 * 4)] (Some 16) 1 demo_dm_clear = Ok (0, s') /\ 0 <= w < 8 /\
    find_way int64_t 1 (dm_tags s') 1 5 = Some w.
Proof.
  destruct (device_insert_replacement int64_t int64_t demo_cc 1 0 f32_one DemoCub.sort_pairs DemoCub.encode DemoCub.exclusive_sum rev_order
    eq_refl eq_refl eq_refl eq_refl ltac:(vm_compute; discriminate) eq_refl rev_order_perm I
    demo_val 1 demo_dm_env 16 5 f32_one (1000 + 5 * 4) demo_dm_clear) as (w & Hw & _ & s' & E & H).
  - repeat split.
  - lia.
  - exact I.
  - by apply demo_ctr.
  - by apply demo_dm_inv.
  - by apply demo_dm_batch.
  - exists w, s'. split; [exact E|]. split; [exact Hw|]. rewrite H, demo_dm_free by (simpl; lia).
    vm_compute. reflexivity.
Defined.

Lemma device_operations_preserve_invariant_witness :
  exists s', demo_dm_update (Some 16) [5; 6] 1020 4 1 demo_dm_clear = Ok (0, s') /\ cache_inv int64_t int64_t demo_cc 1 0 demo_val 1 (as_host s').
Proof.
  destruct (device_operations_preserve_invariant int64_t int64_t demo_cc 1 0 f32_one DemoCub.sort_pairs DemoCub.encode DemoCub.exclusive_sum rev_order
    eq_refl eq_refl eq_refl eq_refl ltac:(vm_compute; discriminate) eq_refl rev_order_perm I
    demo_val demo_val 1 demo_dm_env 16 [(5, f32_one, 1000 + 5 * 4)] [5; 6] 1020 4 demo_dm_clear) as (_ & (s' & E & H & _) & _).
  - repeat split.
  - by apply demo_dm_inv.
  - by apply demo_ctr.
  - simpl; lia.
  - by apply one_insertable.
  - by apply demo_dm_batch.
  - simpl; lia.
  - unfold update_fits, NUM_WAYS; simpl; lia.
  - intros [|[|n] ] k Hk; simpl in Hk; simplify_eq; (split; [by apply demo_dm_valid|]; split; [by apply demo_dm_outside|reflexivity]).
  - done.
  - exists s'. exact (conj E H).
Defined.
