(* ===== verification/CacheContexts.v ===== *)
(** * Modify contexts of the caches

    [modify_context_create] and [modify_context_destroy] of [CacheSAHostModify] and
    [CacheSADeviceModify]: which blocks they take from the allocator, which they give back
    when one of the requests fails, and what a failing cleanup does. The allocator answers
    each call with an error code; its blocks are the live ones. *)
From S2P Require Import Prelude SetAssoc.

Inductive side := HostSide | DeviceSide.
#[export] Instance side_eq_dec : EqDecision side.
Proof. solve_decision. Defined.

(** Live blocks, the error codes of the calls to come (success when used up), and the next
    free address. *)
Record alloc_state := { live : list (side * Z); answers : list Z; next_addr : Z }.

(** A computation that may leave by an [ECException] with its code. *)
Definition ctx (A : Type) : Type := alloc_state -> outcome ((A + Z) * alloc_state).
Definition cret {A} (a : A) : ctx A := fun st => Ok (inl a, st).
Definition cthrow {A} (e : Z) : ctx A := fun st => Ok (inr e, st).
Definition cbind {A B} (m : ctx A) (k : A -> ctx B) : ctx B := fun st =>
  let! r := m st in
  match r with (inl a, st) => k a st | (inr e, st) => Ok (inr e, st) end.
(** [try { m } catch (const ECException& e) { h(e) }]. *)
Definition ctry {A} (m : ctx A) (h : Z -> ctx A) : ctx A := fun st =>
  let! r := m st in
  match r with (inl a, st) => Ok (inl a, st) | (inr e, st) => h e st end.

(** [CHECK_ERR_AND_THROW(allocate(&p, n))] and [CHECK_ERR_AND_THROW(free(p))]. *)
Definition allocate (s : side) : ctx Z := fun st =>
  let e := default ECERROR_SUCCESS (head (answers st)) in
  if e =? ECERROR_SUCCESS
  then Ok (inl (next_addr st), {| live := (s, next_addr st) :: live st; answers := tail (answers st); next_addr := next_addr st + 1 |})
  else Ok (inr e, {| live := live st; answers := tail (answers st); next_addr := next_addr st |}).
Definition release (s : side) (p : Z) : ctx unit := fun st =>
  let e := default ECERROR_SUCCESS (head (answers st)) in
  if negb (e =? ECERROR_SUCCESS) then Ok (inr e, {| live := live st; answers := tail (answers st); next_addr := next_addr st |})
  else if decide (p = 0) then Ok (inl tt, {| live := live st; answers := tail (answers st); next_addr := next_addr st |})
  else if decide ((s, p) ∈ live st)
  then Ok (inl tt, {| live := filter (fun b => b <> (s, p)) (live st); answers := tail (answers st); next_addr := next_addr st |})
  else Undef "free of a block that is not allocated".
(** [if (p != nullptr) CHECK_ERR_AND_THROW(free(p))]. *)
Definition release_if (s : side) (p : Z) : ctx unit := if p =? 0 then cret tt else release s p.

Notation "'do!' x ':=' m 'in' k" := (cbind m (fun x => k)) (at level 10, x pattern, m at level 100, k at level 200) : nve_scope.

(** ** Creation and destruction *)

Section Plan.
Context {F : Type}.

(** One statement of the [try] block: a block whose address is stored, or a CUDA call. *)
Inductive request :=
  | Block (s : side) (store : Z -> F -> F)
  | CudaCall.

(** The requests up to the first that fails, and the pointers stored so far. *)
Fixpoint run_plan (plan : list request) (f : F) : ctx (F * option Z) :=
  match plan with
  | [] => cret (f, None)
  | Block s store :: plan => fun st =>
      let! r := allocate s st in
      match r with (inl p, st) => run_plan plan (store p f) st | (inr e, st) => Ok (inl (f, Some e), st) end
  | CudaCall :: plan => fun st =>
      let e := default ECERROR_SUCCESS (head (answers st)) in
      let st := {| live := live st; answers := tail (answers st); next_addr := next_addr st |} in
      if e =? ECERROR_SUCCESS then run_plan plan f st else Ok (inl (f, Some ECERROR_CUDA_ERROR), st)
  end.

(** Error code and, on success, the stored pointers. *)
Definition create (plan : list request) (f0 : F) (catch : F -> ctx unit) : ctx (Z * option F) :=
  do! r := run_plan plan f0 in
  match r.2 with
  | None => cret (ECERROR_SUCCESS, Some r.1)
  | Some e => do! _ := catch r.1 in cret (e, None)
  end.
End Plan.
Arguments request : clear implicits.

(** [CHECK_ERR_AND_THROW(free(p))] in sequence. *)
Fixpoint release_all (l : list (side * Z)) : ctx unit :=
  match l with
  | [] => cret tt
  | (s, p) :: l => do! _ := release s p in release_all l
  end.
(** The same, each under [if (p != nullptr)]. *)
Fixpoint release_nonnull (l : list (side * Z)) : ctx unit :=
  match l with
  | [] => cret tt
  | (s, p) :: l => do! _ := release_if s p in release_nonnull l
  end.

(** [modify_context_destroy]: the handle is reset when every block has been freed. *)
Definition destroy {F : Type} (blocks : F -> list (side * Z)) (handle : option F) : ctx (Z * option F) :=
  match handle with
  | None => cret (ECERROR_SUCCESS, None)
  | Some f => ctry (do! _ := release_all (blocks f) in cret (ECERROR_SUCCESS, None)) (fun e => cret (e, Some f))
  end.

Module HostContext.
(** The context, its list, the entries of the list (a field of [*list]), and their copies
    on the device. *)
Record fields := { context : Z; list_ : Z; list_entries : Z; d_list : Z; d_entries : Z }.
Definition null_fields : fields := {| context := 0; list_ := 0; list_entries := 0; d_list := 0; d_entries := 0 |}.

(** [garbage] is what the memory of a fresh list holds in place of its entries. *)
Definition plan (garbage : Z) : list (request fields) :=
  [Block HostSide (fun p f => {| context := p; list_ := 0; list_entries := 0; d_list := 0; d_entries := 0 |});
   Block HostSide (fun p f => {| context := context f; list_ := p; list_entries := garbage; d_list := d_list f; d_entries := d_entries f |});
   Block HostSide (fun p f => {| context := context f; list_ := list_ f; list_entries := p; d_list := d_list f; d_entries := d_entries f |});
   Block DeviceSide (fun p f => {| context := context f; list_ := list_ f; list_entries := list_entries f; d_list := p; d_entries := d_entries f |});
   Block DeviceSide (fun p f => {| context := context f; list_ := list_ f; list_entries := list_entries f; d_list := d_list f; d_entries := p |})].

Definition catch (f : fields) : ctx unit :=
  if context f =? 0 then cret tt
  else
    do! _ := (if list_ f =? 0 then cret tt
              else do! _ := release_if HostSide (list_entries f) in release HostSide (list_ f)) in
    do! _ := release_nonnull [(DeviceSide, d_entries f); (DeviceSide, d_list f)] in
    release HostSide (context f).

Definition modify_context_create (garbage : Z) : ctx (Z * option fields) := create (plan garbage) null_fields catch.

Definition blocks (f : fields) : list (side * Z) :=
  [(HostSide, list_entries f); (HostSide, list_ f); (DeviceSide, d_entries f); (DeviceSide, d_list f); (HostSide, context f)].
Definition modify_context_destroy : option fields -> ctx (Z * option fields) := destroy blocks.
End HostContext.

Module DeviceContext.
Record fields := { context : Z; d_list : Z; d_entries : Z; d_tmp_storage : Z }.
Definition null_fields : fields := {| context := 0; d_list := 0; d_entries := 0; d_tmp_storage := 0 |}.

(** The context is zeroed; the CUDA call computes the size of the temporary storage. *)
Definition plan : list (request fields) :=
  [Block HostSide (fun p f => {| context := p; d_list := 0; d_entries := 0; d_tmp_storage := 0 |});
   Block DeviceSide (fun p f => {| context := context f; d_list := p; d_entries := d_entries f; d_tmp_storage := d_tmp_storage f |});
   Block DeviceSide (fun p f => {| context := context f; d_list := d_list f; d_entries := p; d_tmp_storage := d_tmp_storage f |});
   CudaCall;
   Block DeviceSide (fun p f => {| context := context f; d_list := d_list f; d_entries := d_entries f; d_tmp_storage := p |})].

Definition catch (f : fields) : ctx unit :=
  if context f =? 0 then cret tt
  else
    do! _ := release_nonnull [(DeviceSide, d_entries f); (DeviceSide, d_list f); (DeviceSide, d_tmp_storage f)] in
    release HostSide (context f).

Definition modify_context_create : ctx (Z * option fields) := create plan null_fields catch.

Definition blocks (f : fields) : list (side * Z) :=
  [(DeviceSide, d_entries f); (DeviceSide, d_list f); (DeviceSide, d_tmp_storage f); (HostSide, context f)].
Definition modify_context_destroy : option fields -> ctx (Z * option fields) := destroy blocks.
End DeviceContext.

(** ** Properties *)

(** Addresses of live blocks are positive, distinct and below the next free one. *)
Record alloc_ok (st : alloc_state) : Prop := {
  ao_next : 0 < next_addr st;
  ao_range : Forall (fun b => 0 < b.2 < next_addr st) (live st);
  ao_nodup : NoDup (live st).*2
}.
(** What remains when a list of blocks has been freed. *)
Definition freed (st : alloc_state) (l : list (side * Z)) (st' : alloc_state) : Prop :=
  live st' ≡ₚ l /\ answers st' = [] /\ next_addr st' = next_addr st.

Lemma allocate_ok s st : alloc_ok st -> default ECERROR_SUCCESS (head (answers st)) = ECERROR_SUCCESS ->
  exists st', allocate s st = Ok (inl (next_addr st), st') /\ alloc_ok st' /\ live st' = (s, next_addr st) :: live st /\
    answers st' = tail (answers st) /\ 0 < next_addr st.
Proof.
  intros [Hn Hr Hd] Ha. unfold allocate. rewrite Ha. simpl. eexists. split; [done|]. split_and!; [|done..]. split; simpl.
  - lia.
  - constructor; [simpl; lia|]. eapply Forall_impl; [exact Hr|]. simpl. lia.
  - constructor; [|done]. intros (b & E & Hb)%list_elem_of_fmap. rewrite Forall_forall in Hr. specialize (Hr b Hb). lia.
Qed.

Lemma release_ok s p st l : alloc_ok st -> answers st = [] -> live st ≡ₚ (s, p) :: l ->
  exists st', release s p st = Ok (inl tt, st') /\ alloc_ok st' /\ freed st l st'.
Proof.
  intros [Hn Hr Hd] Ha Hl. unfold release. rewrite Ha. cbn [head default tail]. change (ECERROR_SUCCESS =? ECERROR_SUCCESS) with true. cbn [negb].
  assert (Hp : 0 < p < next_addr st) by (rewrite Hl in Hr; by apply Forall_cons in Hr as [? _]).
  rewrite decide_False by lia. rewrite decide_True by (rewrite Hl; by left). eexists. split; [done|].
  assert (Hf : filter (fun b => b <> (s, p)) (live st) ≡ₚ l).
  { rewrite Hl, filter_cons, decide_False by naive_solver. rewrite Hl, fmap_cons in Hd. apply NoDup_cons in Hd as [Hd _].
    clear -Hd. induction l as [|b l IH]; [done|]. rewrite fmap_cons, not_elem_of_cons in Hd. destruct Hd as [Hb Hd].
    rewrite filter_cons, decide_True; [by rewrite IH|]. by intros ->. }
  split; [|done]. split; simpl; [done|rewrite Hf|rewrite Hf].
  - rewrite Hl in Hr. by apply Forall_cons in Hr as [_ ?].
  - rewrite Hl, fmap_cons in Hd. by apply NoDup_cons in Hd as [_ ?].
Qed.

Lemma release_all_ok bs st l : alloc_ok st -> answers st = [] -> live st ≡ₚ bs ++ l ->
  exists st', release_all bs st = Ok (inl tt, st') /\ alloc_ok st' /\ freed st l st'.
Proof.
  revert st. induction bs as [| [s p] bs IH]; intros st Ho Ha Hl; [by exists st|]. cbn [release_all app] in *. unfold cbind.
  destruct (release_ok s p st (bs ++ l) Ho Ha Hl) as (st1 & -> & Ho1 & Hl1 & Ha1 & Hn1). cbn [obind].
  destruct (IH st1 Ho1 Ha1 Hl1) as (st2 & -> & Ho2 & Hl2 & Ha2 & Hn2). exists st2. split_and!; [done..|]. split_and!; [done..|congruence].
Qed.

(** Freeing the blocks that are not null frees those that are live. *)
Lemma release_nonnull_ok bs st l : alloc_ok st -> answers st = [] -> live st ≡ₚ filter (fun b => b.2 <> 0) bs ++ l ->
  exists st', release_nonnull bs st = Ok (inl tt, st') /\ alloc_ok st' /\ freed st l st'.
Proof.
  revert st. induction bs as [| [s p] bs IH]; intros st Ho Ha Hl; [by exists st|]. cbn [release_nonnull]. unfold cbind, release_if.
  rewrite filter_cons in Hl. destruct (Z.eqb_spec p 0) as [->|Hp].
  - rewrite decide_False in Hl by (simpl; lia). by apply IH.
  - rewrite decide_True in Hl by done. destruct (release_ok s p st (filter (fun b => b.2 <> 0) bs ++ l) Ho Ha Hl) as (st1 & -> & Ho1 & Hl1 & Ha1 & Hn1).
    cbn [obind]. destruct (IH st1 Ho1 Ha1 Hl1) as (st2 & -> & Ho2 & Hl2 & Ha2 & Hn2). exists st2. split_and!; [done..|]. split_and!; [done..|congruence].
Qed.

Lemma allocate_fails s st e l : answers st = e :: l -> e <> ECERROR_SUCCESS ->
  allocate s st = Ok (inr e, {| live := live st; answers := l; next_addr := next_addr st |}).
Proof. intros Ha He. unfold allocate. rewrite Ha. cbn [head default tail]. by rewrite (proj2 (Z.eqb_neq _ _)). Qed.

Lemma alloc_ok_answers st l : alloc_ok st -> alloc_ok {| live := live st; answers := l; next_addr := next_addr st |}.
Proof. by intros [H1 H2 H3]. Qed.

(** Runs the next request of a plan; [Ha] says what the allocator answers. *)
Ltac grant Ho Ha :=
  match goal with
  | |- context [allocate ?s ?st] =>
      let st' := fresh "st" in let E := fresh "E" in let Ho' := fresh "Ho" in let Hl := fresh "Hl" in let Ha' := fresh "Ha" in let Hn := fresh "Hn" in
      destruct (allocate_ok s st Ho ltac:(rewrite Ha; reflexivity)) as (st' & E & Ho' & Hl & Ha' & Hn);
      rewrite E; cbn [obind]; rewrite Ha in Ha'; cbn [tail] in Ha'
  end.

Lemma run_plan_device_ok st : alloc_ok st -> answers st = [] ->
  exists f st', run_plan DeviceContext.plan DeviceContext.null_fields st = Ok (inl (f, None), st') /\ alloc_ok st' /\ answers st' = [] /\
    live st' ≡ₚ DeviceContext.blocks f ++ live st.
Proof.
  intros Ho Ha. unfold DeviceContext.plan. cbn [run_plan]. grant Ho Ha. grant Ho0 Ha0. grant Ho1 Ha1. rewrite Ha2. cbn [head default tail].
  change (ECERROR_SUCCESS =? ECERROR_SUCCESS) with true. cbn beta iota zeta.
  pose proof (alloc_ok_answers st2 [] Ho2) as Ho3.
  destruct (allocate_ok DeviceSide {| live := live st2; answers := []; next_addr := next_addr st2 |} Ho3 eq_refl) as (st3 & E3 & Ho4 & Hl3 & Ha3 & Hn3).
  rewrite E3. cbn [obind]. eexists _, st3. split; [done|]. split_and!; [done|done|]. rewrite Hl3. cbn [live]. rewrite Hl1, Hl0, Hl.
  unfold DeviceContext.blocks. cbn. solve_Permutation.
Qed.

Lemma run_plan_host_ok garbage st : alloc_ok st -> answers st = [] ->
  exists f st', run_plan (HostContext.plan garbage) HostContext.null_fields st = Ok (inl (f, None), st') /\ alloc_ok st' /\ answers st' = [] /\
    live st' ≡ₚ HostContext.blocks f ++ live st.
Proof.
  intros Ho Ha. unfold HostContext.plan. cbn [run_plan]. grant Ho Ha. grant Ho0 Ha0. grant Ho1 Ha1. grant Ho2 Ha2. grant Ho3 Ha3.
  eexists _, _. split; [done|]. split_and!; [done|done|]. rewrite Hl3, Hl2, Hl1, Hl0, Hl. unfold HostContext.blocks. cbn. solve_Permutation.
Qed.

(** Refuses the next request; the allocator is then out of answers. *)
Ltac refuse Ha He :=
  match goal with
  | |- context [allocate ?s ?st] => rewrite (allocate_fails s st _ [] Ha He); cbn [obind]
  end.
Ltac nonnull :=
  repeat first [rewrite decide_True by lia | rewrite decide_False by lia].

Lemma device_fails i e st : alloc_ok st -> (i < 5)%nat -> e <> ECERROR_SUCCESS -> answers st = replicate i ECERROR_SUCCESS ++ [e] ->
  exists f e' st', run_plan DeviceContext.plan DeviceContext.null_fields st = Ok (inl (f, Some e'), st') /\ e' <> ECERROR_SUCCESS /\
    alloc_ok st' /\ answers st' = [] /\ live st' ≡ₚ filter (fun b => b.2 <> 0) (DeviceContext.blocks f) ++ live st /\
    (DeviceContext.context f = 0 -> live st' = live st).
Proof.
  intros Ho Hi He Ha. unfold DeviceContext.plan. cbn [run_plan].
  destruct i as [|[|[|[|[|i] ] ] ] ]; [| | | | |lia]; cbn [replicate app] in Ha.
  - refuse Ha He. eexists _, e, _. split; [done|]. split_and!; [done|by apply alloc_ok_answers|done| |done]. done.
  - grant Ho Ha. refuse Ha0 He. eexists _, e, _. split; [done|]. split_and!; [done|by apply alloc_ok_answers|done| |simpl; lia].
    unfold DeviceContext.blocks. cbn. nonnull. by rewrite Hl.
  - grant Ho Ha. grant Ho0 Ha0. refuse Ha1 He. eexists _, e, _. split; [done|]. split_and!; [done|by apply alloc_ok_answers|done| |simpl; lia].
    unfold DeviceContext.blocks. cbn. nonnull. rewrite Hl0, Hl. solve_Permutation.
  - grant Ho Ha. grant Ho0 Ha0. grant Ho1 Ha1. rewrite Ha2. change (default ECERROR_SUCCESS (head [e])) with e. rewrite (proj2 (Z.eqb_neq _ _) He). cbn beta iota zeta.
    eexists _, ECERROR_CUDA_ERROR, _. split; [done|]. split_and!; [done|by apply alloc_ok_answers|done| |simpl; lia].
    unfold DeviceContext.blocks. cbn. nonnull. rewrite Hl1, Hl0, Hl. solve_Permutation.
  - grant Ho Ha. grant Ho0 Ha0. grant Ho1 Ha1. rewrite Ha2. cbn [head default tail].
    change (ECERROR_SUCCESS =? ECERROR_SUCCESS) with true. cbn beta iota zeta.
    rewrite (allocate_fails DeviceSide {| live := live st2; answers := [e]; next_addr := next_addr st2 |} e [] eq_refl He). cbn [obind].
    eexists _, e, _. split; [done|]. split_and!; [done|by repeat apply alloc_ok_answers|done| |simpl; lia].
    unfold DeviceContext.blocks. cbn. nonnull. rewrite Hl1, Hl0, Hl. solve_Permutation.
Qed.

Lemma device_catch_ok f st l : alloc_ok st -> answers st = [] ->
  live st ≡ₚ filter (fun b => b.2 <> 0) (DeviceContext.blocks f) ++ l -> (DeviceContext.context f = 0 -> live st = l) ->
  exists st', DeviceContext.catch f st = Ok (inl tt, st') /\ live st' ≡ₚ l.
Proof.
  intros Ho Ha Hl Hz. unfold DeviceContext.catch. destruct (Z.eqb_spec (DeviceContext.context f) 0) as [E|E]; [exists st; split; [done|by rewrite Hz]|].
  set (b3 := [(DeviceSide, DeviceContext.d_entries f); (DeviceSide, DeviceContext.d_list f); (DeviceSide, DeviceContext.d_tmp_storage f)]).
  change (DeviceContext.blocks f) with (b3 ++ [(HostSide, DeviceContext.context f)]) in Hl. rewrite filter_app, filter_cons, decide_True, filter_nil in Hl by done.
  destruct (release_nonnull_ok b3 st ((HostSide, DeviceContext.context f) :: l) Ho Ha) as (st1 & E1 & Ho1 & Hl1 & Ha1 & _).
  { rewrite Hl, <- (assoc (++)). done. }
  unfold cbind. rewrite E1. cbn [obind]. destruct (release_ok _ _ st1 l Ho1 Ha1 Hl1) as (st2 & -> & _ & Hl2 & _). by exists st2.
Qed.

(** Life cycle of a modify context of the device-managed cache: when the allocator grants
    every request the context is created, and destroying it returns every block and resets
    the handle; when the allocator or the size query refuses any one of the requests, creation
    returns an error and everything it had allocated has been freed. *)
Theorem device_context_lifecycle (st : alloc_state) :
  alloc_ok st ->
  (answers st = [] -> exists f st1 st2,
     DeviceContext.modify_context_create st = Ok (inl (ECERROR_SUCCESS, Some f), st1) /\ live st1 ≡ₚ DeviceContext.blocks f ++ live st /\
     DeviceContext.modify_context_destroy (Some f) st1 = Ok (inl (ECERROR_SUCCESS, None), st2) /\ live st2 ≡ₚ live st) /\
  (forall i e, (i < 5)%nat -> e <> ECERROR_SUCCESS -> answers st = replicate i ECERROR_SUCCESS ++ [e] -> exists e' st1,
     DeviceContext.modify_context_create st = Ok (inl (e', None), st1) /\ e' <> ECERROR_SUCCESS /\ live st1 ≡ₚ live st).
Proof.
  intros Ho. split.
  - intros Ha. destruct (run_plan_device_ok st Ho Ha) as (f & st1 & E1 & Ho1 & Ha1 & Hl1).
    destruct (release_all_ok (DeviceContext.blocks f) st1 (live st) Ho1 Ha1 Hl1) as (st2 & E2 & _ & Hl2 & _).
    exists f, st1, st2. unfold DeviceContext.modify_context_create, create, DeviceContext.modify_context_destroy, destroy, ctry, cbind.
    rewrite E1, E2. done.
  - intros i e Hi He Ha. destruct (device_fails i e st Ho Hi He Ha) as (f & e' & st1 & E1 & He' & Ho1 & Ha1 & Hl1 & Hz).
    destruct (device_catch_ok f st1 (live st) Ho1 Ha1 Hl1 Hz) as (st2 & E2 & Hl2). exists e', st2.
    unfold DeviceContext.modify_context_create, create, cbind. rewrite E1. cbn [obind snd fst]. by rewrite E2.
Qed.

(** The host-managed cache frees a wild pointer: when the request for the entries of the
    list is refused, the cleanup of [modify_context_create] reads the entries pointer of the
    list it has just allocated and not initialised, and passes it to the allocator. *)
Theorem host_context_wild_free (garbage e : Z) (st : alloc_state) :
  alloc_ok st -> e <> ECERROR_SUCCESS -> answers st = [ECERROR_SUCCESS; ECERROR_SUCCESS; e] ->
  garbage <> 0 -> ~ (0 < garbage < next_addr st + 2) ->
  HostContext.modify_context_create garbage st = Undef "free of a block that is not allocated".
Proof.
  intros Ho He Ha Hg Hr. unfold HostContext.modify_context_create, create, HostContext.plan, cbind. cbn [run_plan].
  grant Ho Ha. grant Ho0 Ha0. refuse Ha1 He. cbn [snd fst]. unfold HostContext.catch. cbn [HostContext.context HostContext.list_ HostContext.list_entries].
  rewrite (proj2 (Z.eqb_neq (next_addr st) 0)), (proj2 (Z.eqb_neq (next_addr st0) 0)) by lia. unfold cbind, release_if.
  rewrite (proj2 (Z.eqb_neq garbage 0)) by done. unfold release. cbn [answers head default live tail].
  change (ECERROR_SUCCESS =? ECERROR_SUCCESS) with true. cbn [negb]. rewrite decide_False by done. rewrite decide_False; [done|].
  assert (En : next_addr st0 = next_addr st + 1).
  { unfold allocate in E. rewrite Ha in E. simpl in E. by injection E as <-. }
  rewrite Hl0, Hl, En, !elem_of_cons. pose proof (ao_range _ Ho) as Hrange. rewrite Forall_forall in Hrange.
  intros [ [= Eg]|[ [= Eg]|Hin] ]; [lia|lia|]. specialize (Hrange _ Hin). simpl in Hrange. lia.
Qed.

Definition demo_alloc (l : list Z) : alloc_state := {| live := [(HostSide, 1)]; answers := l; next_addr := 2 |}.
Lemma demo_alloc_ok l : alloc_ok (demo_alloc l).
Proof. split; simpl; [lia|repeat constructor; simpl; lia|apply NoDup_singleton]. Qed.

Lemma device_context_lifecycle_witness :
  exists e' st1, DeviceContext.modify_context_create (demo_alloc [0; 0; 2]) = Ok (inl (e', None), st1) /\ live st1 ≡ₚ [(HostSide, 1)].
Proof.
  destruct (device_context_lifecycle (demo_alloc [0; 0; 2]) (demo_alloc_ok _)) as [_ H].
  destruct (H 2%nat 2) as (e' & st1 & E & _ & Hl).
  - lia.
  - discriminate.
  - reflexivity.
  - exists e', st1. exact (conj E Hl).
Defined.

Lemma host_context_wild_free_witness :
  HostContext.modify_context_create 4096 (demo_alloc [0; 0; 2]) = Undef "free of a block that is not allocated".
Proof.
  apply (host_context_wild_free 4096 2 (demo_alloc [0; 0; 2]) (demo_alloc_ok _)).
  - discriminate.
  - reflexivity.
  - discriminate.
  - simpl. lia.
Defined.
