(* ===== verification/DataTypes.v ===== *)
(** * Element types and their names: [include/nve_types.hpp], [include/json_support.hpp]

    The packed [DataType_t] (element size in the upper half, identifier in the
    lower half), the printable names and the conversion of enumerations to and
    from JSON strings ([NVE_DEFINE_JSON_ENUM_CONVERSION_]). *)
From S2P Require Import Prelude.

Inductive DataTypeID_t :=
  | ID_Unknown | ID_Float32 | ID_BFloat | ID_Float16 | ID_E4M3 | ID_E5M2 | ID_Float64
  | ID_QInt8RowwiseF32 | ID_QInt8RowwiseF16 | ID_QUint8RowwiseF32 | ID_QUint8RowwiseF16.

#[global] Instance DataTypeID_eq_dec : EqDecision DataTypeID_t.
Proof. solve_decision. Defined.

(** The underlying [uint32_t] of the enumerators, in declaration order. *)
Definition id_value (i : DataTypeID_t) : Z :=
  match i with
  | ID_Unknown => 0 | ID_Float32 => 1 | ID_BFloat => 2 | ID_Float16 => 3 | ID_E4M3 => 4 | ID_E5M2 => 5
  | ID_Float64 => 6 | ID_QInt8RowwiseF32 => 7 | ID_QInt8RowwiseF16 => 8 | ID_QUint8RowwiseF32 => 9
  | ID_QUint8RowwiseF16 => 10
  end.

Definition all_ids : list DataTypeID_t :=
  [ID_Unknown; ID_Float32; ID_BFloat; ID_Float16; ID_E4M3; ID_E5M2; ID_Float64;
   ID_QInt8RowwiseF32; ID_QInt8RowwiseF16; ID_QUint8RowwiseF32; ID_QUint8RowwiseF16].

(** [to_string(DataTypeID_t)]; the argument is the underlying value, as a
    [static_cast] may produce one that names no enumerator. *)
Definition to_string (v : Z) : outcome string :=
  if v =? 0 then Ok "unknown"%string
  else if v =? 1 then Ok "float32"%string
  else if v =? 3 then Ok "float16"%string
  else if v =? 2 then Ok "bfloat"%string
  else if v =? 4 then Ok "e4m3"%string
  else if v =? 5 then Ok "e5m2"%string
  else if v =? 6 then Ok "float64"%string
  else if v =? 7 then Ok "qint8_rowwise_f32"%string
  else if v =? 8 then Ok "qint8_rowwise_f16"%string
  else if v =? 9 then Ok "quint8_rowwise_f32"%string
  else if v =? 10 then Ok "quint8_rowwise_f16"%string
  else Throw "Unknown data type ID!".

(** [make_dtype<T>(id)] with [size] the size of [T]. *)
Definition make_dtype (size id : Z) : Z := Z.lor id (wrapu 64 (Z.shiftl size 32)).

Inductive DataType_t :=
  | Unknown | Float32 | Float16 | BFloat | E4M3 | E5M2 | Float64
  | QInt8RowwiseF32 | QInt8RowwiseF16 | QUint8RowwiseF32 | QUint8RowwiseF16.

#[global] Instance DataType_eq_dec : EqDecision DataType_t.
Proof. solve_decision. Defined.

(** Identifier and element type ([sizeof]) of each enumerator. *)
Definition dtype_decl (d : DataType_t) : DataTypeID_t * Z :=
  match d with
  | Unknown => (ID_Unknown, 1)
  | Float32 => (ID_Float32, 4)
  | Float16 => (ID_Float16, 2)
  | BFloat => (ID_BFloat, 2)
  | E4M3 => (ID_E4M3, 1)
  | E5M2 => (ID_E5M2, 1)
  | Float64 => (ID_Float64, 8)
  | QInt8RowwiseF32 => (ID_QInt8RowwiseF32, 1)
  | QInt8RowwiseF16 => (ID_QInt8RowwiseF16, 1)
  | QUint8RowwiseF32 => (ID_QUint8RowwiseF32, 1)
  | QUint8RowwiseF16 => (ID_QUint8RowwiseF16, 1)
  end.

(** The underlying [uint64_t] of an enumerator. *)
Definition dtype_value (d : DataType_t) : Z := make_dtype (dtype_decl d).2 (id_value (dtype_decl d).1).

(** [dtype_id] truncates to 32 bits, [dtype_size] shifts them out. *)
Definition dtype_id (v : Z) : Z := wrapu 32 v.
Definition dtype_size (v : Z) : Z := wraps 64 (Z.shiftr v 32).
Definition dtype_to_string (v : Z) : outcome string := to_string (dtype_id v).

Definition all_dtypes : list DataType_t :=
  [Unknown; Float32; Float16; BFloat; E4M3; E5M2; Float64;
   QInt8RowwiseF32; QInt8RowwiseF16; QUint8RowwiseF32; QUint8RowwiseF16].

(** ** Enumerations in JSON *)

Section EnumJson.
Context {E : Type} `{EqDecision E}.
(** The pairs made by [make_enum_json_pairs]. *)
Variable pairs : list (E * string).

Definition enum_to_json (e : E) : outcome string :=
  match List.find (fun kv => bool_decide (e = kv.1)) pairs with
  | Some kv => Ok kv.2
  | None => Throw "Not a valid enumeration value."
  end.

Definition enum_from_json (j : string) : outcome E :=
  match List.find (fun kv => bool_decide (j = kv.2)) pairs with
  | Some kv => Ok kv.1
  | None => Throw "Not a valid enumeration value."
  end.

Lemma enum_roundtrip_lemma e s :
  NoDup (fst <$> pairs) -> NoDup (snd <$> pairs) -> (e, s) ∈ pairs ->
  enum_to_json e = Ok s /\ enum_from_json s = Ok e.
Proof.
  intros N1 N2 Hin.
  assert (Hfst : List.find (fun kv => bool_decide (e = kv.1)) pairs = Some (e, s)).
  { induction pairs as [|[e' s'] l IH]; [by apply not_elem_of_nil in Hin|]. simpl.
    rewrite fmap_cons, NoDup_cons in N1. destruct N1 as [Hn N1].
    destruct (bool_decide_reflect (e = e')) as [->|Hne].
    - apply elem_of_cons in Hin as [->|Hin]; [done|]. destruct Hn. by apply (list_elem_of_fmap_2 fst) in Hin.
    - apply elem_of_cons in Hin as [?|Hin]; [congruence|]. apply IH; auto.
      rewrite fmap_cons, NoDup_cons in N2. apply N2. }
  assert (Hsnd : List.find (fun kv => bool_decide (s = kv.2)) pairs = Some (e, s)).
  { clear Hfst. induction pairs as [|[e' s'] l IH]; [by apply not_elem_of_nil in Hin|]. simpl.
    rewrite fmap_cons, NoDup_cons in N2. destruct N2 as [Hn N2].
    destruct (bool_decide_reflect (s = s')) as [->|Hne].
    - apply elem_of_cons in Hin as [->|Hin]; [done|]. destruct Hn. by apply (list_elem_of_fmap_2 snd) in Hin.
    - apply elem_of_cons in Hin as [?|Hin]; [congruence|]. apply IH; auto.
      rewrite fmap_cons, NoDup_cons in N1. apply N1. }
  unfold enum_to_json, enum_from_json. by rewrite Hfst, Hsnd.
Qed.
End EnumJson.

(** A name that [to_string] returns, as a string. *)
Definition name_of (o : outcome string) : string := match o with Ok s => s | _ => EmptyString end.

Definition dtype_json_pairs : list (DataType_t * string) :=
  (fun d => (d, name_of (dtype_to_string (dtype_value d)))) <$> all_dtypes.

(** The packed data type loses nothing: every enumerator yields back its
    element size and its identifier, no two enumerators share a value, and its
    JSON name converts back to it. *)
Theorem dtype_roundtrip (d : DataType_t) :
  dtype_size (dtype_value d) = (dtype_decl d).2 /\
  dtype_id (dtype_value d) = id_value (dtype_decl d).1 /\
  (forall d', dtype_value d = dtype_value d' -> d = d') /\
  (let! j := enum_to_json dtype_json_pairs d in enum_from_json dtype_json_pairs j) = Ok d.
Proof.
  split_and!; [by destruct d..| |].
  - intros d'. by destruct d, d'.
  - by destruct d.
Qed.
