(* ===== verification/HostTable.v ===== *)
(** * What all host tables share: [include/host_table.hpp], [src/host_table.cpp],
    [include/host_table_detail.hpp]

    The partitioners that map a key to a partition, the overflow policy, the
    configuration checks, the lookup counter and the choice of the element-wise
    update kernel. *)
From S2P Require Import Prelude BitOps Float32 DataTypes.

(** ** Partitioners

    [std::hash] of an integer key is its value as a [size_t]. *)

Definition std_hash (key : Z) : Z := wrapu 64 key.

(** [static_cast<int64_t>(x) & mask]. *)
Definition part_mask (x mask : Z) : Z := Z.land (wraps 64 x) mask.

Definition AlwaysZero_partition (key mask : Z) : Z := 0.

Definition fnv_mix (x : Z) : Z :=
  let x := Z.lxor x 14695981039346656037 in
  wrapu 64 (x * 591798841).
Definition FowlerNollVo_partition (key mask : Z) : Z := part_mask (fnv_mix (std_hash key)) mask.

Definition murmur3_mix (x : Z) : Z :=
  let x := Z.lxor x (Z.shiftr x 33) in
  let x := wrapu 64 (x * 18397679294719823053) in
  let x := Z.lxor x (Z.shiftr x 33) in
  let x := wrapu 64 (x * 14181476777654086739) in
  Z.lxor x (Z.shiftr x 33).
Definition Murmur3_partition (key mask : Z) : Z := part_mask (murmur3_mix (std_hash key)) mask.

(** [x ^= rotr(x, a) ^ rotr(x, b)]. *)
Definition xor_rotr2 (a b x : Z) : outcome Z :=
  let! ra := rotr 64 x a in
  let! rb := rotr 64 x b in
  Ok (Z.lxor x (Z.lxor ra rb)).

Definition rrxmrrxmsx0_mix (x : Z) : outcome Z :=
  let! x := xor_rotr2 25 50 x in
  let x := wrapu 64 (x * 11694633085474628615) in
  let! x := xor_rotr2 24 49 x in
  let x := wrapu 64 (x * 11507291218515648293) in
  Ok (Z.lxor x (Z.shiftr x 28)).
Definition Rrxmrrxmsx0_partition (key mask : Z) : outcome Z :=
  let! x := rrxmrrxmsx0_mix (std_hash key) in Ok (part_mask x mask).

Definition StdHash_partition (key mask : Z) : Z := part_mask (std_hash key) mask.

Inductive Partitioner_t := AlwaysZero | FowlerNollVo | Murmur3 | Rrxmrrxmsx0 | StdHash.

#[global] Instance Partitioner_eq_dec : EqDecision Partitioner_t.
Proof. solve_decision. Defined.

Definition partitioner_name (p : Partitioner_t) : string :=
  match p with
  | AlwaysZero => "always_zero"
  | FowlerNollVo => "fowler_noll_vo"
  | Murmur3 => "murmur3"
  | Rrxmrrxmsx0 => "rrxmrrxmsx0"
  | StdHash => "std_hash"
  end.

(** The function object behind each enumerator. *)
Definition partition (p : Partitioner_t) (key mask : Z) : outcome Z :=
  match p with
  | AlwaysZero => Ok (AlwaysZero_partition key mask)
  | FowlerNollVo => Ok (FowlerNollVo_partition key mask)
  | Murmur3 => Ok (Murmur3_partition key mask)
  | Rrxmrrxmsx0 => Rrxmrrxmsx0_partition key mask
  | StdHash => Ok (StdHash_partition key mask)
  end.

Definition partitioner_json_pairs : list (Partitioner_t * string) :=
  (fun p => (p, partitioner_name p)) <$> [AlwaysZero; FowlerNollVo; Murmur3; Rrxmrrxmsx0; StdHash].

(** ** Overflow policy *)

Inductive OverflowHandler_t := EvictRandom | EvictLRU | EvictLFU.

#[global] Instance OverflowHandler_eq_dec : EqDecision OverflowHandler_t.
Proof. solve_decision. Defined.

Definition overflow_handler_name (h : OverflowHandler_t) : string :=
  match h with EvictRandom => "evict_random" | EvictLRU => "evict_lru" | EvictLFU => "evict_lfu" end.

Definition overflow_handler_json_pairs : list (OverflowHandler_t * string) :=
  (fun h => (h, overflow_handler_name h)) <$> [EvictRandom; EvictLRU; EvictLFU].

Definition meta_size (h : OverflowHandler_t) : Z :=
  match h with EvictRandom => 0 | EvictLRU => 8 | EvictLFU => 8 end.

(** [update_meta_data<MetaType>]: the new contents of the metadata cell. *)
Definition update_meta_data (h : OverflowHandler_t) (meta lru_time : Z) : Z :=
  match h with
  | EvictRandom => meta
  | EvictLRU => lru_time
  | EvictLFU => wraps 64 (meta + 1)
  end.

Record OverflowPolicyConfig := {
  overflow_margin : Z;
  handler : OverflowHandler_t;
  resolution_margin : f64
}.

Definition overflow_policy_check (c : OverflowPolicyConfig) : outcome unit :=
  check! (0 <=? overflow_margin c) as "overflow_margin >= 0" in
  check! (f64_le (f64_of_Z 0) (resolution_margin c) && f64_le (resolution_margin c) (f64_of_Z 1))
    as "resolution_margin >= 0.0 && resolution_margin <= 1.0" in
  Ok tt.

(** ** HostTableConfig *)

Record HostTableConfig := {
  mask_size : Z;
  key_size : Z;
  max_value_size : Z;
  value_dtype : DataType_t;
  invalid_key : Z
}.

Definition value_dtype_size (c : HostTableConfig) : Z := dtype_size (dtype_value (value_dtype c)).

(** [HostTableConfig::check]: the sizes of the bit masks and of the keys, the
    row size and its divisibility by the element size. *)
Definition host_table_config_check (c : HostTableConfig) : outcome unit :=
  check! existsb (Z.eqb (mask_size c)) [1; 2; 4; 8] as "mask_size" in
  check! existsb (Z.eqb (key_size c)) [1; 2; 4; 8] as "key_size" in
  check! (0 <? max_value_size c) && (max_value_size c <=? 2 ^ 31 - 1 - 4) as "max_value_size" in
  if value_dtype_size c =? 0 then Undef "remainder by zero"
  else
    check! Z.rem (max_value_size c) (value_dtype_size c) =? 0 as "max_value_size % value_dtype_size" in
    Ok tt.

(** ** Lookup counter: a buffer of the execution context, [None] without a
    context or when the buffer cannot be had. *)

Definition reset_lookup_counter (storage : option Z) : outcome (option Z) :=
  match storage with Some _ => Ok (Some 0) | None => Throw "Invalid key counter" end.
Definition get_lookup_counter (storage : option Z) : outcome Z :=
  match storage with Some c => Ok c | None => Throw "Invalid key counter" end.

(** ** Element-wise update *)

(** The pairs of element types [pick_cpu_update_kernel] has a kernel for. *)
Definition has_update_kernel (d : DataType_t) : bool :=
  match d with Float32 | Float16 | BFloat | E4M3 | E5M2 | Float64 => true | _ => false end.

Definition pick_cpu_update_kernel (table_dtype update_dtype : DataType_t) : outcome (DataType_t * DataType_t) :=
  if negb (has_update_kernel table_dtype) then Throw "Combining data-types is currently not supported!"
  else if negb (has_update_kernel update_dtype) then Throw "Combining data-types is currently not supported!"
  else Ok (table_dtype, update_dtype).

Section UpdateKernel.
(** [static_cast<T>(t + u)] on the bytes of an element of the table and of the
    update: the floating-point types of CUDA. *)
Variable add_element : DataType_t -> DataType_t -> list Z -> list Z -> list Z.

Definition elem_size (d : DataType_t) : Z := dtype_size (dtype_value d).

(** [tab[i] = t + u] for element [i]: the bytes of the element are replaced. *)
Definition store_bytes (m : memory) (a : Z) (bytes : list Z) : memory :=
  fun x => match bytes !! Z.to_nat (x - a) with
           | Some b => if a <=? x then b else m x
           | None => m x
           end.

Definition update_element (T U : DataType_t) (tab : Z) (updates : memory) (upd i : Z) (m : memory) : memory :=
  store_bytes m (tab + i * elem_size T)
    (add_element T U (mem_read m (tab + i * elem_size T) (elem_size T))
                     (mem_read updates (upd + i * elem_size U) (elem_size U))).

(** [cpu_update_kernel<T, U>(table_values, update_values, n)]: [tab] points into
    the memory of the table, [upd] into that of the updates. *)
Definition cpu_update_kernel (T U : DataType_t) (tab : Z) (updates : memory) (upd n : Z) (m : memory) : memory :=
  fold_left (fun m i => update_element T U tab updates upd i m) (seqZ 0 (n / elem_size U)) m.
End UpdateKernel.

Lemma store_bytes_same m a l : mem_read (store_bytes m a l) a (Z.of_nat (length l)) = l.
Proof.
  unfold mem_read. apply list_eq. intros i. rewrite list_lookup_fmap.
  destruct (decide (i < length l)%nat) as [Hi|Hi].
  - rewrite lookup_seqZ_lt by lia. simpl. unfold store_bytes.
    replace (Z.to_nat (a + Z.of_nat i - a)) with i by lia.
    destruct (lookup_lt_is_Some_2 l i Hi) as [b E]. rewrite E, (proj2 (Z.leb_le _ _)) by lia. done.
  - rewrite lookup_seqZ_ge by lia. simpl. symmetry. apply lookup_ge_None. lia.
Qed.

Lemma store_bytes_disjoint m a l b k :
  disjoint a (Z.of_nat (length l)) b k -> mem_read (store_bytes m a l) b k = mem_read m b k.
Proof.
  intros Hd. apply mem_read_ext. intros x Hx. unfold store_bytes.
  destruct (Z.leb_spec a x) as [Ha|Ha]; [|by destruct (_ !! _)].
  rewrite lookup_ge_None_2; [done|]. unfold disjoint in Hd. lia.
Qed.

(** Bytes of the table row the kernel reads and writes for an update of [n] bytes. *)
Definition update_extent (T U : DataType_t) (n : Z) : Z := n / elem_size U * elem_size T.

(** ** Lemmas: the mixers *)

Lemma odd_mul_inj a b x y :
  (b * a) mod 2 ^ 64 = 1 -> in_u 64 x -> in_u 64 y -> wrapu 64 (x * a) = wrapu 64 (y * a) -> x = y.
Proof.
  unfold wrapu. intros Hb Hx Hy E.
  assert (H : forall z, in_u 64 z -> (b * ((z * a) mod 2 ^ 64)) mod 2 ^ 64 = z).
  { intros z Hz. rewrite Zmult_mod_idemp_r. replace (b * (z * a)) with ((b * a) * z) by ring.
    rewrite <- Zmult_mod_idemp_l, Hb, Z.mul_1_l. by apply Z.mod_small. }
  rewrite <- (H x Hx), <- (H y Hy). by rewrite E.
Qed.

Lemma xor_shiftr_inj s x y :
  0 < s -> 0 <= x -> 0 <= y -> Z.lxor x (Z.shiftr x s) = Z.lxor y (Z.shiftr y s) -> x = y.
Proof.
  intros Hs Hx Hy E. set (d := Z.lxor x y).
  assert (Hd : d = Z.shiftr d s).
  { unfold d. rewrite Z.shiftr_lxor. apply Z.lxor_eq.
    rewrite <- (Z.lxor_nilpotent (Z.lxor y (Z.shiftr y s))). rewrite <- E at 1.
    rewrite !Z.lxor_assoc. f_equal. rewrite <- !Z.lxor_assoc.
    rewrite (Z.lxor_comm y (Z.shiftr x s)), !Z.lxor_assoc. done. }
  assert (Hd0 : 0 <= d) by (by apply Z.lxor_nonneg).
  apply Z.lxor_eq. fold d. rewrite Z.shiftr_div_pow2 in Hd by lia.
  destruct (Z.eq_dec d 0) as [|Hn]; [done|].
  assert (1 < 2 ^ s) by (apply Z.pow_gt_1; lia).
  pose proof (Z.div_lt d (2 ^ s) ltac:(lia) ltac:(lia)). lia.
Qed.

Lemma in_u_lxor w x y : 0 <= w -> in_u w x -> in_u w y -> in_u w (Z.lxor x y).
Proof.
  intros Hw Hx Hy. apply in_u_testbit; [done|apply Z.lxor_nonneg; split; intros; apply Hx || apply Hy|].
  intros i Hi. by rewrite Z.lxor_spec, (testbit_in_u w x), (testbit_in_u w y).
Qed.

Lemma in_u_shiftr w x s : 0 <= w -> 0 <= s -> in_u w x -> in_u w (Z.shiftr x s).
Proof.
  intros Hw Hs [H1 H2]. rewrite Z.shiftr_div_pow2 by lia. pose proof (pow2_pos s Hs). split.
  - by apply Z.div_pos.
  - eapply Z.le_lt_trans; [|exact H2]. apply Z.div_le_upper_bound; nia.
Qed.

Lemma rotr_testbit x n i :
  in_u 64 x -> 0 < n < 64 -> 0 <= i < 64 ->
  exists r, rotr 64 x n = Ok r /\ in_u 64 r /\ Z.testbit r i = Z.testbit x ((i + n) mod 64).
Proof.
  intros Hx Hn Hi. unfold rotr.
  assert (El : Z.land n (64 - 1) = n).
  { change (64 - 1) with (Z.ones 6). rewrite Z.land_ones by lia. apply Z.mod_small. lia. }
  rewrite El, (proj2 (Z.eqb_neq n 0)) by lia. eexists. split; [done|]. split.
  - apply in_u_testbit; [lia| |].
    + apply Z.lor_nonneg. split; [by apply Z.shiftr_nonneg; apply Hx|apply wrapu_range; lia].
    + intros j Hj. rewrite Z.lor_spec, Z.shiftr_spec, testbit_wrapu by lia.
      rewrite (testbit_in_u 64 x) by (done || lia). rewrite (proj2 (Z.ltb_ge j 64)) by lia. done.
  - rewrite Z.lor_spec, Z.shiftr_spec, testbit_wrapu, Z.shiftl_spec by lia.
    rewrite (proj2 (Z.ltb_lt i 64)) by lia. simpl.
    destruct (Z.lt_ge_cases (i + n) 64).
    + rewrite Z.mod_small by lia. rewrite (Z.testbit_neg_r x (i - (64 - n))) by lia. by rewrite orb_false_r.
    + rewrite (testbit_in_u 64 x (i + n)) by (done || lia). simpl. f_equal.
      replace (i + n) with (i + n - 64 + 1 * 64) by lia. rewrite Z.mod_add, Z.mod_small by lia. lia.
Qed.

(** Xor with two rotations, on the bits of a 64-bit word. Squaring doubles the
    rotations, so its 64th power is the identity. *)
Definition bits_eq (f g : Z -> bool) : Prop := forall i, 0 <= i < 64 -> f i = g i.
Definition xrot (a b : Z) (f : Z -> bool) : Z -> bool :=
  fun i => xorb (f i) (xorb (f ((i + a) mod 64)) (f ((i + b) mod 64))).

Lemma xrot_square a b f i : xrot a b (xrot a b f) i = xrot (2 * a) (2 * b) f i.
Proof.
  unfold xrot.
  assert (H : forall x y, ((i + x) mod 64 + y) mod 64 = (i + (x + y)) mod 64).
  { intros. rewrite Zplus_mod_idemp_l. f_equal. lia. }
  rewrite !H. replace (a + a) with (2 * a) by lia. replace (b + b) with (2 * b) by lia.
  rewrite (Z.add_comm b a).
  destruct (f i), (f ((i + a) mod 64)), (f ((i + b) mod 64)), (f ((i + 2 * a) mod 64)),
    (f ((i + (a + b)) mod 64)), (f ((i + 2 * b) mod 64)); reflexivity.
Qed.

Lemma xrot_proper a b f g : bits_eq f g -> bits_eq (xrot a b f) (xrot a b g).
Proof.
  intros H i Hi. unfold xrot.
  by rewrite !H by (try apply Z.mod_pos_bound; lia).
Qed.

Lemma xrot_inj_double a b :
  (forall f g, bits_eq (xrot (2 * a) (2 * b) f) (xrot (2 * a) (2 * b) g) -> bits_eq f g) ->
  forall f g, bits_eq (xrot a b f) (xrot a b g) -> bits_eq f g.
Proof.
  intros Hinj f g H. apply Hinj. intros i Hi. rewrite <- !xrot_square. by apply (xrot_proper a b _ _ H).
Qed.

Lemma xrot_inj a b f g : bits_eq (xrot a b f) (xrot a b g) -> bits_eq f g.
Proof.
  revert f g. do 6 apply xrot_inj_double. intros f g H i Hi. specialize (H i Hi). unfold xrot in H.
  assert (E : forall z, (i + 2 * (2 * (2 * (2 * (2 * (2 * z)))))) mod 64 = i).
  { intros z. replace (i + _) with (i + z * 64) by ring. rewrite Z.mod_add by lia. by apply Z.mod_small. }
  rewrite !E in H. destruct (f i), (g i); done.
Qed.

Lemma xor_rotr2_spec a b x :
  in_u 64 x -> 0 < a < 64 -> 0 < b < 64 ->
  exists r, xor_rotr2 a b x = Ok r /\ in_u 64 r /\ bits_eq (Z.testbit r) (xrot a b (Z.testbit x)).
Proof.
  intros Hx Ha Hb. unfold xor_rotr2.
  destruct (rotr_testbit x a 0 Hx Ha ltac:(lia)) as (ra & Ea & Hra & _).
  destruct (rotr_testbit x b 0 Hx Hb ltac:(lia)) as (rb & Eb & Hrb & _).
  rewrite Ea, Eb. eexists. split; [done|]. split; [by repeat apply in_u_lxor|].
  intros i Hi. rewrite !Z.lxor_spec. unfold xrot.
  destruct (rotr_testbit x a i Hx Ha Hi) as (? & Ea' & _ & <-).
  destruct (rotr_testbit x b i Hx Hb Hi) as (? & Eb' & _ & <-). congruence.
Qed.

Lemma bits_eq_in_u x y : in_u 64 x -> in_u 64 y -> bits_eq (Z.testbit x) (Z.testbit y) -> x = y.
Proof.
  intros Hx Hy H. apply Z.bits_inj'. intros i Hi. destruct (Z.lt_ge_cases i 64); [by apply H|].
  by rewrite !(testbit_in_u 64) by (done || lia).
Qed.

Lemma xor_rotr2_inj a b x y r :
  in_u 64 x -> in_u 64 y -> 0 < a < 64 -> 0 < b < 64 ->
  xor_rotr2 a b x = Ok r -> xor_rotr2 a b y = Ok r -> x = y.
Proof.
  intros Hx Hy Ha Hb E1 E2.
  destruct (xor_rotr2_spec a b x) as (r1 & F1 & _ & B1); [done..|].
  destruct (xor_rotr2_spec a b y) as (r2 & F2 & _ & B2); [done..|].
  apply bits_eq_in_u; [done..|]. apply (xrot_inj a b). intros i Hi.
  rewrite <- B1, <- B2 by done. congruence.
Qed.

Lemma fnv_mix_inj x y : in_u 64 x -> in_u 64 y -> fnv_mix x = fnv_mix y -> x = y.
Proof.
  intros Hx Hy E. assert (Hc : in_u 64 14695981039346656037) by (unfold in_u; lia).
  apply (odd_mul_inj _ 10211534928317721609) in E; [|done|by apply in_u_lxor..].
  apply (f_equal (fun z => Z.lxor z 14695981039346656037)) in E.
  by rewrite !Z.lxor_assoc, Z.lxor_nilpotent, !Z.lxor_0_r in E.
Qed.

#[local] Hint Resolve in_u_lxor in_u_shiftr : nve.

Lemma murmur3_mix_inj x y : in_u 64 x -> in_u 64 y -> murmur3_mix x = murmur3_mix y -> x = y.
Proof.
  intros Hx Hy E. unfold murmur3_mix in E.
  assert (P : forall z, in_u 64 (wrapu 64 z)) by (intros; apply wrapu_range; lia).
  assert (Q : forall z, in_u 64 z -> in_u 64 (Z.lxor z (Z.shiftr z 33))).
  { intros z Hz. apply in_u_lxor; [lia|done|]. by apply in_u_shiftr; [lia..|]. }
  apply xor_shiftr_inj in E; [|lia|apply P|apply P].
  apply (odd_mul_inj _ 11291846944257947611) in E; [|done|apply Q, P|apply Q, P].
  apply xor_shiftr_inj in E; [|lia|apply P|apply P].
  apply (odd_mul_inj _ 5725274745694666757) in E; [|done|by apply Q|by apply Q].
  apply xor_shiftr_inj in E; [done|lia|apply Hx|apply Hy].
Qed.

Lemma rrx_mix_total x : in_u 64 x -> exists r, rrxmrrxmsx0_mix x = Ok r.
Proof.
  intros Hx. unfold rrxmrrxmsx0_mix.
  destruct (xor_rotr2_spec 25 50 x) as (r1 & -> & _); [done|lia|lia|]. cbn [obind].
  destruct (xor_rotr2_spec 24 49 (wrapu 64 (r1 * 11694633085474628615))) as (r2 & -> & _);
    [apply wrapu_range; lia|lia|lia|]. cbn [obind]. by eexists.
Qed.

Lemma rrx_mix_inj x y r :
  in_u 64 x -> in_u 64 y -> rrxmrrxmsx0_mix x = Ok r -> rrxmrrxmsx0_mix y = Ok r -> x = y.
Proof.
  intros Hx Hy Ex Ey. unfold rrxmrrxmsx0_mix in Ex, Ey.
  assert (P : forall z, in_u 64 (wrapu 64 z)) by (intros; apply wrapu_range; lia).
  destruct (xor_rotr2_spec 25 50 x) as (x1 & E1 & Hx1 & _); [done|lia|lia|].
  destruct (xor_rotr2_spec 25 50 y) as (y1 & F1 & Hy1 & _); [done|lia|lia|].
  rewrite E1 in Ex. rewrite F1 in Ey. cbn [obind] in Ex, Ey.
  destruct (xor_rotr2_spec 24 49 (wrapu 64 (x1 * 11694633085474628615))) as (x2 & E2 & Hx2 & _); [done|lia|lia|].
  destruct (xor_rotr2_spec 24 49 (wrapu 64 (y1 * 11694633085474628615))) as (y2 & F2 & Hy2 & _); [done|lia|lia|].
  rewrite E2 in Ex. rewrite F2 in Ey. cbn [obind] in Ex, Ey.
  assert (E : Z.lxor (wrapu 64 (x2 * 11507291218515648293)) (Z.shiftr (wrapu 64 (x2 * 11507291218515648293)) 28) =
              Z.lxor (wrapu 64 (y2 * 11507291218515648293)) (Z.shiftr (wrapu 64 (y2 * 11507291218515648293)) 28)) by congruence.
  apply xor_shiftr_inj in E; [|lia|apply P|apply P].
  apply (odd_mul_inj _ 192419422752744621) in E; [|done|done|done]. subst y2.
  assert (E : wrapu 64 (x1 * 11694633085474628615) = wrapu 64 (y1 * 11694633085474628615)).
  { eapply (xor_rotr2_inj 24 49); eauto; lia. }
  apply (odd_mul_inj _ 10057966387983501751) in E; [|done|done|done]. subst y1.
  eapply (xor_rotr2_inj 25 50); eauto; lia.
Qed.

Lemma part_mask_range x n : in_u 64 x -> 0 <= n <= 63 -> 0 <= part_mask x (2 ^ n - 1) < 2 ^ n.
Proof.
  intros Hx Hn. unfold part_mask. replace (2 ^ n - 1) with (Z.ones n) by (rewrite Z.ones_equiv; lia).
  rewrite Z.land_ones by lia. apply Z.mod_pos_bound, pow2_pos. lia.
Qed.

(** ** Properties *)

(** Every partitioner returns, for every key and any power-of-two number of
    partitions, an index of an existing partition. *)
Theorem partition_in_range (p : Partitioner_t) (key n : Z) :
  0 <= n <= 63 -> exists i, partition p key (2 ^ n - 1) = Ok i /\ 0 <= i < 2 ^ n.
Proof.
  intros Hn. pose proof (pow2_pos n ltac:(lia)).
  assert (P : forall z, in_u 64 (wrapu 64 z)) by (intros; apply wrapu_range; lia).
  assert (M : forall x, 0 <= part_mask x (2 ^ n - 1) < 2 ^ n).
  { intros x. unfold part_mask. replace (2 ^ n - 1) with (Z.ones n) by (rewrite Z.ones_equiv; lia).
    rewrite Z.land_ones by lia. apply Z.mod_pos_bound. lia. }
  destruct p; cbn [partition].
  1-3, 5: eexists; split; [reflexivity|]; (apply M || (unfold AlwaysZero_partition; lia)).
  unfold Rrxmrrxmsx0_partition. destruct (rrx_mix_total (std_hash key)) as [r ->]; [apply P|].
  eexists. split; [reflexivity|]. apply M.
Qed.

Lemma partition_in_range_witness : exists i, partition Rrxmrrxmsx0 (-7) (2 ^ 4 - 1) = Ok i /\ 0 <= i < 2 ^ 4.
Proof. apply (partition_in_range Rrxmrrxmsx0 (-7) 4). lia. Defined.

(** The mixers lose no entropy: FNV, Murmur3 and Rrxmrrxmsx0 are injective on
    64-bit words (hence permutations of them), so keys collide in a partition
    only through the mask. *)
Theorem mixers_injective (x y : Z) :
  in_u 64 x -> in_u 64 y -> x <> y ->
  fnv_mix x <> fnv_mix y /\ murmur3_mix x <> murmur3_mix y /\ rrxmrrxmsx0_mix x <> rrxmrrxmsx0_mix y.
Proof.
  intros Hx Hy Hne. split_and!; intros E; apply Hne.
  - by apply fnv_mix_inj.
  - by apply murmur3_mix_inj.
  - destruct (rrx_mix_total x Hx) as [r Er]. eapply rrx_mix_inj; eauto. congruence.
Qed.

Lemma mixers_injective_witness : murmur3_mix 1 <> murmur3_mix 2.
Proof. apply (mixers_injective 1 2); [unfold in_u; lia|unfold in_u; lia|lia]. Defined.

(** Partitioner and overflow-handler names round-trip through JSON. *)
Theorem host_enum_json_roundtrip (p : Partitioner_t) (h : OverflowHandler_t) :
  (let! j := enum_to_json partitioner_json_pairs p in enum_from_json partitioner_json_pairs j) = Ok p /\
  (let! j := enum_to_json overflow_handler_json_pairs h in enum_from_json overflow_handler_json_pairs j) = Ok h.
Proof. split; [by destruct p|by destruct h]. Qed.

(** [HostTableConfig::check] never divides by zero and accepts exactly the
    configurations with a mask and a key of 1, 2, 4 or 8 bytes and a row of 1 to
    2^31 - 5 bytes that is a multiple of the element size. *)
Theorem host_table_config_check_spec (c : HostTableConfig) :
  defined (host_table_config_check c) /\
  (host_table_config_check c = Ok tt <->
    (mask_size c = 1 \/ mask_size c = 2 \/ mask_size c = 4 \/ mask_size c = 8) /\
    (key_size c = 1 \/ key_size c = 2 \/ key_size c = 4 \/ key_size c = 8) /\
    0 < max_value_size c <= 2 ^ 31 - 5 /\ (value_dtype_size c | max_value_size c)).
Proof.
  assert (Hs : 0 < value_dtype_size c) by (unfold value_dtype_size; destruct (value_dtype c); vm_compute; done).
  assert (He : forall x, existsb (Z.eqb x) [1; 2; 4; 8] = true <-> x = 1 \/ x = 2 \/ x = 4 \/ x = 8).
  { intros x. simpl. rewrite !orb_true_iff, !Z.eqb_eq. intuition discriminate. }
  unfold host_table_config_check. rewrite (proj2 (Z.eqb_neq (value_dtype_size c) 0)) by lia.
  pose proof (He (mask_size c)) as H1. pose proof (He (key_size c)) as H2.
  destruct (existsb (Z.eqb (mask_size c)) _); [|split; [by intros w|split; [done|intuition congruence]] ].
  destruct (existsb (Z.eqb (key_size c)) _); [|split; [by intros w|split; [done|intuition congruence]] ].
  destruct (Z.ltb_spec 0 (max_value_size c)), (Z.leb_spec (max_value_size c) (2 ^ 31 - 1 - 4)); simpl;
    try (split; [by intros w|split; [done|intuition lia]]).
  assert (Hd : (Z.rem (max_value_size c) (value_dtype_size c) =? 0) = true <-> (value_dtype_size c | max_value_size c)).
  { rewrite Z.eqb_eq, Z.rem_divide by lia. done. }
  destruct (Z.rem _ _ =? 0); (split; [by intros w|]).
  - split; [|done]. intros _. split_and!; [by apply H1|by apply H2|lia|lia|by apply Hd].
  - split; [done|]. intros (_ & _ & _ & Hdiv). apply Hd in Hdiv. done.
Qed.

(** A mixed-precision accumulate can leave its row: [update_accumulate] only
    requires the update to be at most [max_value_size] bytes, but the kernel
    walks [update_size / sizeof(U)] elements of the table type, so for a table
    type wider than the update type an admitted update touches more bytes than
    the row has. *)
Theorem mixed_update_leaves_row :
  exists (c : HostTableConfig) (U : DataType_t) (n : Z),
    host_table_config_check c = Ok tt /\ n <= max_value_size c /\
    returns (pick_cpu_update_kernel (value_dtype c) U) /\
    max_value_size c < update_extent (value_dtype c) U n.
Proof.
  exists {| mask_size := 8; key_size := 8; max_value_size := 16; value_dtype := Float32; invalid_key := -1 |}, Float16, 16.
  split_and!; [reflexivity|simpl; lia|by eexists|reflexivity].
Qed.
