(* ===== verification/StlTable.v ===== *)
(** * The partitioned host table: [include/stl_map_backed_table.hpp],
    [include/stl_map_backed_table_detail.hpp], [src/stl_map_backed_table.cpp]

    [STLContainerTable]: keys are spread over partitions; a partition maps its
    keys to slots of buffers it allocates on demand and recycles the slots of
    erased and evicted keys. A slot pointer is the pair of a buffer index and an
    offset; the metadata cell of a slot ([&slot[max_value_size]]) is kept apart
    from its value bytes, which it never overlaps. *)
From stdpp Require Import sorting.
From S2P Require Import Prelude BitOps Float32 DataTypes HostTable.

Record STLContainerTableConfig := {
  base_config : HostTableConfig;
  num_partitions : Z;
  partitioner : Partitioner_t;
  workgroups : list Z;
  max_find_task_size : Z;
  value_alignment : Z;
  allocation_rate : Z;
  prefetch_values : bool;
  overflow_policy : OverflowPolicyConfig
}.

Definition stl_meta_size (c : STLContainerTableConfig) : Z := meta_size (handler (overflow_policy c)).
Definition slot_size (c : STLContainerTableConfig) : Z := max_value_size (base_config c) + stl_meta_size c.
Definition slot_stride (c : STLContainerTableConfig) : Z := next_aligned (slot_size c) (value_alignment c).

(** [STLContainerTableConfig::check]. *)
Definition stl_config_check (c : STLContainerTableConfig) : outcome unit :=
  let! _ := host_table_config_check (base_config c) in
  check! (0 <=? num_partitions c) && has_single_bit (num_partitions c) as "num_partitions" in
  check! negb (bool_decide (workgroups c = [])) as "workgroups" in
  check! (0 <? max_find_task_size c) as "max_find_task_size" in
  check! (0 <=? value_alignment c) && has_single_bit (value_alignment c) as "value_alignment" in
  check! (max_value_size (base_config c) <=? allocation_rate c) as "allocation_rate" in
  overflow_policy_check (overflow_policy c).

(** [STLMapTableFactory::produce] and [make_map_table_1..3]: the mask type, the
    key type, the metadata and the partitioner of the table that is built
    (every feature macro enabled), and the check of the constructor. *)
Definition make_map_table_3 (c : STLContainerTableConfig) : outcome Partitioner_t :=
  if num_partitions c =? 1 then Ok AlwaysZero
  else match partitioner c with
       | AlwaysZero => Throw "config.partitioner is out of bounds!"
       | p => Ok p
       end.
Definition make_map_table_1 (c : STLContainerTableConfig) : outcome Partitioner_t :=
  if existsb (Z.eqb (key_size (base_config c))) [1; 2; 4; 8] then make_map_table_3 c
  else Throw "config.key_size is out of bounds!".
Definition produce (c : STLContainerTableConfig) : outcome Partitioner_t :=
  if existsb (Z.eqb (mask_size (base_config c))) [1; 2; 4; 8] then
    let! p := make_map_table_1 c in
    let! _ := stl_config_check c in
    Ok p
  else Throw "config.mask_size is out of bounds!".

(** A slot: index of the buffer and offset in it. *)
Definition ptr : Type := nat * Z.

Record Partition := {
  slot_map : gmap Z ptr;
  available_slots : list ptr;      (* back() is the last element *)
  slot_buffers : nat;              (* number of buffers *)
  bytes : nat -> Z -> Z;           (* contents of the buffers *)
  meta : ptr -> Z                  (* metadata cells of the slots *)
}.

Definition new_partition : Partition :=
  {| slot_map := ∅; available_slots := []; slot_buffers := 0; bytes := fun _ _ => 0; meta := fun _ => 0 |}.

(** The stored row of a slot. *)
Definition read_slot (part : Partition) (p : ptr) (n : Z) : list Z := bytes part p.1 <$> seqZ p.2 n.

(** [std::copy_n(&values[src], n, slot)]. *)
Definition copy_to_slot (values : memory) (src n : Z) (p : ptr) (b : nat -> Z -> Z) : nat -> Z -> Z :=
  fun i x => if bool_decide (i = p.1) && (p.2 <=? x) && (x <? p.2 + n) then values (src + (x - p.2)) else b i x.

Definition set_bytes (part : Partition) (b : nat -> Z -> Z) : Partition :=
  {| slot_map := slot_map part; available_slots := available_slots part; slot_buffers := slot_buffers part;
     bytes := b; meta := meta part |}.
Definition set_meta (part : Partition) (p : ptr) (v : Z) : Partition :=
  {| slot_map := slot_map part; available_slots := available_slots part; slot_buffers := slot_buffers part;
     bytes := bytes part; meta := fun q => if bool_decide (q = p) then v else meta part q |}.

(** ** clear, erase, update on one partition *)

Definition clear_part (part : Partition) : Partition :=
  {| slot_map := ∅; available_slots := []; slot_buffers := 0; bytes := bytes part; meta := meta part |}.

(** Move the slot of a key to the free list and forget the key. *)
Definition release (part : Partition) (key : Z) (p : ptr) : Partition :=
  {| slot_map := delete key (slot_map part); available_slots := available_slots part ++ [p];
     slot_buffers := slot_buffers part; bytes := bytes part; meta := meta part |}.

Definition erase_key (part : Partition) (key : Z) : Partition :=
  match slot_map part !! key with
  | None => part
  | Some p => release part key p
  end.

Definition update_key (values : memory) (value_stride value_size : Z) (part : Partition) (ik : Z * Z) : Partition :=
  match slot_map part !! ik.2 with
  | None => part
  | Some p => set_bytes part (copy_to_slot values (ik.1 * value_stride) value_size p (bytes part))
  end.

(** [update_accumulate] for one key: the picked kernel on the slot. *)
Definition accumulate_key (add_element : DataType_t -> DataType_t -> list Z -> list Z -> list Z)
    (T U : DataType_t) (updates : memory) (update_stride update_size : Z) (part : Partition) (ik : Z * Z) : Partition :=
  match slot_map part !! ik.2 with
  | None => part
  | Some p =>
      let buf := cpu_update_kernel add_element T U p.2 updates (ik.1 * update_stride) update_size (bytes part p.1) in
      set_bytes part (fun b => if bool_decide (b = p.1) then buf else bytes part b)
  end.

(** ** insert on one partition *)

Section Insert.
Variable c : STLContainerTableConfig.
(** Order of traversal of a [std::unordered_map], and [std::shuffle]. *)
Variable umap_order shuffle : list (Z * ptr) -> list (Z * ptr).

Local Abbreviation policy := (overflow_policy c).

(** [std::sort] ascending by the metadata. *)
Fixpoint sort_insert (m : ptr -> Z) (x : Z * ptr) (l : list (Z * ptr)) : list (Z * ptr) :=
  match l with
  | [] => [x]
  | y :: l' => if m x.2 <? m y.2 then x :: y :: l' else y :: sort_insert m x l'
  end.
Definition std_sort (m : ptr -> Z) (l : list (Z * ptr)) : list (Z * ptr) := foldr (sort_insert m) [] l.

(** The order in which keys are considered for eviction. *)
Definition eviction_order (part : Partition) : list (Z * ptr) :=
  let keys_slots := umap_order (map_to_list (slot_map part)) in
  match handler policy with
  | EvictRandom => shuffle keys_slots
  | _ => std_sort (meta part) keys_slots
  end.

(** Evict until [resolution] keys remain; LFU counts of the rest are halved. *)
Definition resolve_overflow (resolution : Z) (part : Partition) : Partition :=
  let keys_slots := eviction_order part in
  let mid := (length keys_slots - Z.to_nat resolution)%nat in
  let part := fold_left (fun part ks => release part ks.1 ks.2) (take mid keys_slots) part in
  match handler policy with
  | EvictLFU => fold_left (fun part ks => set_meta part ks.2 (Z.quot (meta part ks.2) 2)) (drop mid keys_slots) part
  | _ => part
  end.

Definition slots_per_buffer : Z := allocation_rate c / slot_stride c.

(** A new zeroed buffer, cut into slots from its end to its start. *)
Definition allocate_slots (part : Partition) : Partition :=
  let b := slot_buffers part in
  {| slot_map := slot_map part;
     available_slots := available_slots part ++
       reverse ((fun k => (b, k * slot_stride c)) <$> seqZ 0 slots_per_buffer);
     slot_buffers := S b;
     bytes := fun i x => if bool_decide (i = b) then 0 else bytes part i x;
     meta := fun q => if bool_decide (q.1 = b) then 0 else meta part q |}.

(** Take the last free slot, fill it and record the key. *)
Definition store_new (values : memory) (src value_size lru_value key : Z) (part : Partition) : outcome Partition :=
  match last (available_slots part) with
  | None => Undef "back() of an empty vector"
  | Some slot =>
      Ok {| slot_map := <[key := slot]> (slot_map part);
            available_slots := removelast (available_slots part);
            slot_buffers := slot_buffers part;
            bytes := copy_to_slot values src value_size slot (bytes part);
            meta := fun q => if bool_decide (q = slot) then
                      match handler policy with
                      | EvictRandom => meta part q
                      | EvictLRU => lru_value
                      | EvictLFU => 1
                      end else meta part q |}
  end.

(** The body of the loop for the key at index [i]. *)
Definition insert_key (resolution : Z) (values : memory) (value_stride value_size lru_value : Z)
    (part : Partition) (ik : Z * Z) : outcome Partition :=
  let '(i, key) := ik in
  match slot_map part !! key with
  | Some p => Ok (set_bytes part (copy_to_slot values (i * value_stride) value_size p (bytes part)))
  | None =>
      let part := if overflow_margin policy <=? Z.of_nat (size (slot_map part))
                  then resolve_overflow resolution part else part in
      let part := if bool_decide (available_slots part = []) then allocate_slots part else part in
      store_new values (i * value_stride) value_size lru_value key part
  end.

(** [static_cast<int64_t>(static_cast<double>(overflow_margin) * resolution_margin)]. *)
Definition resolution_of : outcome Z :=
  f64_to_int64 (f64_mul (f64_of_Z (overflow_margin policy)) (resolution_margin policy)).

End Insert.

(** ** The table: one task per partition

    A task only touches its own partition, under the partition's lock, so the
    order in which the thread pool runs the tasks does not matter. *)

(** Partition of a key; a partitioner always returns (see [partition_in_range]). *)
Definition part_of (p : Partitioner_t) (num_parts key : Z) : Z :=
  match partition p key (num_parts - 1) with Ok i => i | _ => -1 end.

(** The keys of a batch that belong to partition [task_idx], with their index. *)
Definition my_keys (p : Partitioner_t) (num_parts : Z) (keys : list Z) (task_idx : Z) : list (Z * Z) :=
  filter (fun ik => part_of p num_parts ik.2 = task_idx) (zip (seqZ 0 (Z.of_nat (length keys))) keys).

(** Run a task on every partition, from index [i] on. *)
Fixpoint each_part {part_t : Type} (f : Z -> part_t -> outcome part_t) (i : Z) (parts : list part_t) : outcome (list part_t) :=
  match parts with
  | [] => Ok []
  | part :: rest =>
      let! part := f i part in
      let! rest := each_part f (i + 1) rest in
      Ok (part :: rest)
  end.

Section Table.
Variable c : STLContainerTableConfig.
Variable p : Partitioner_t.
Variable umap_order shuffle : list (Z * ptr) -> list (Z * ptr).
Local Abbreviation num_parts parts := (Z.of_nat (length parts)).

Definition stl_clear (parts : list Partition) : list Partition := clear_part <$> parts.

Definition stl_erase (keys : list Z) (parts : list Partition) : outcome (list Partition) :=
  each_part (fun i part => Ok (fold_left erase_key (snd <$> my_keys p (num_parts parts) keys i) part)) 0 parts.

Definition stl_update (keys : list Z) (value_stride value_size : Z) (values : memory) (parts : list Partition)
  : outcome (list Partition) :=
  if bool_decide (keys = []) then Ok parts
  else
    check! (0 <=? value_size) && (value_size <=? max_value_size (base_config c)) as "value_size" in
    each_part (fun i part =>
      Ok (fold_left (update_key values value_stride value_size) (my_keys p (num_parts parts) keys i) part)) 0 parts.

Definition stl_insert (keys : list Z) (value_stride value_size lru_value : Z) (values : memory)
    (parts : list Partition) : outcome (list Partition) :=
  if bool_decide (keys = []) then Ok parts
  else
    check! (0 <=? value_size) && (value_size <=? max_value_size (base_config c)) as "value_size" in
    let! resolution := resolution_of c in
    each_part (fun i part =>
      ofoldl (insert_key c umap_order shuffle resolution values value_stride value_size lru_value)
             (my_keys p (num_parts parts) keys i) part) 0 parts.

Definition stl_update_accumulate (add_element : DataType_t -> DataType_t -> list Z -> list Z -> list Z)
    (keys : list Z) (update_stride update_size : Z) (updates : memory) (update_dtype : DataType_t)
    (parts : list Partition) : outcome (list Partition) :=
  if bool_decide (keys = []) then Ok parts
  else
    check! (update_size <=? max_value_size (base_config c)) as "update_size <= max_value_size" in
    let! k := pick_cpu_update_kernel (value_dtype (base_config c)) update_dtype in
    each_part (fun i part =>
      Ok (fold_left (accumulate_key add_element k.1 k.2 updates update_stride update_size)
                    (my_keys p (num_parts parts) keys i) part)) 0 parts.

Definition stl_size (parts : list Partition) : Z :=
  fold_left (fun n part => n + Z.of_nat (size (slot_map part))) parts 0.

(** The row of a key: in the partition the key belongs to. *)
Definition stl_lookup (parts : list Partition) (key : Z) : option (list Z) :=
  let i := part_of p (num_parts parts) key in
  match parts !! Z.to_nat i with
  | None => None
  | Some part =>
      match slot_map part !! key with
      | None => None
      | Some q => Some (read_slot part q (max_value_size (base_config c)))
      end
  end.
End Table.

(** ** Lemmas: slots *)

Section Slots.
Context (c : STLContainerTableConfig).
Local Abbreviation row := (max_value_size (base_config c)).
Local Abbreviation stride := (slot_stride c).
Local Abbreviation spb := (slots_per_buffer c).
Context (Hrow : 0 < row) (Hstride : row <= stride).

(** A slot of one of the first [n] buffers. *)
Definition is_slot (n : nat) (p : ptr) : Prop := (p.1 < n)%nat /\ exists k, 0 <= k < spb /\ p.2 = k * stride.

(** No slot is lost, shared by two keys, or both free and in use. *)
Record part_inv (part : Partition) : Prop := {
  pi_nodup : NoDup (available_slots part);
  pi_inj : forall k1 k2 p, slot_map part !! k1 = Some p -> slot_map part !! k2 = Some p -> k1 = k2;
  pi_disj : forall k p, slot_map part !! k = Some p -> p ∉ available_slots part;
  pi_free : forall p, p ∈ available_slots part -> is_slot (slot_buffers part) p;
  pi_used : forall k p, slot_map part !! k = Some p -> is_slot (slot_buffers part) p;
  pi_count : Z.of_nat (length (available_slots part)) + Z.of_nat (size (slot_map part)) =
             Z.of_nat (slot_buffers part) * Z.max 0 spb
}.

Definition row_of (part : Partition) (key : Z) : option (list Z) :=
  match slot_map part !! key with Some p => Some (read_slot part p row) | None => None end.

Lemma new_partition_inv : part_inv new_partition.
Proof.
  constructor; simpl; try done.
  - constructor.
  - intros p Hp. by apply not_elem_of_nil in Hp.
Qed.

Lemma slot_ranges n p q x : is_slot n p -> is_slot n q -> p <> q -> p.1 = q.1 ->
  p.2 <= x < p.2 + row -> ~ (q.2 <= x < q.2 + row).
Proof.
  intros [_ (i & Hi & Ei)] [_ (j & Hj & Ej)] Hne Hb Hx Hq. apply Hne.
  destruct p as [bp op], q as [bq oq]. simpl in *. subst bq. f_equal. rewrite Ei, Ej in *.
  destruct (Z.lt_trichotomy i j) as [H|[->|H] ]; [nia|done|nia].
Qed.

Lemma read_copy_same b values src p part n :
  bytes part = copy_to_slot values src n p b -> read_slot part p n = values <$> seqZ src n.
Proof.
  intros E. unfold read_slot. rewrite E. apply list_eq. intros i. rewrite !list_lookup_fmap.
  destruct (decide (Z.of_nat i < n)).
  - rewrite !lookup_seqZ_lt by lia. simpl. f_equal. unfold copy_to_slot.
    rewrite bool_decide_true by done. rewrite (proj2 (Z.leb_le _ _)), (proj2 (Z.ltb_lt _ _)) by lia.
    simpl. f_equal. lia.
  - by rewrite !lookup_seqZ_ge by lia.
Qed.

Lemma read_copy_other b values src p q part n nb :
  bytes part = copy_to_slot values src n p b -> n <= row -> is_slot nb p -> is_slot nb q -> p <> q ->
  read_slot part q row = (fun x => b q.1 x) <$> seqZ q.2 row.
Proof.
  intros E Hn Hp Hq Hne. unfold read_slot. rewrite E. apply list_fmap_ext. intros i x Hx.
  apply list_elem_of_lookup_2, elem_of_seqZ in Hx. unfold copy_to_slot.
  destruct (bool_decide_reflect (q.1 = p.1)) as [Eb|]; [|done]. simpl.
  destruct (Z.leb_spec p.2 x), (Z.ltb_spec x (p.2 + n)); simpl; try done.
  exfalso. apply (slot_ranges nb q p x); auto; lia.
Qed.

Lemma release_inv part key p : part_inv part -> slot_map part !! key = Some p -> part_inv (release part key p).
Proof.
  intros [H1 H2 H3 H4 H5 H6] Hk. constructor; simpl.
  - apply NoDup_app. split; [done|]. split; [|apply NoDup_singleton].
    intros x Hx Hx'. apply list_elem_of_singleton in Hx' as ->. by apply (H3 key p).
  - intros k1 k2 q [_ E1]%lookup_delete_Some [_ E2]%lookup_delete_Some. eauto.
  - intros k q [Hne E]%lookup_delete_Some. rewrite not_elem_of_app. split; [eauto|].
    intros Hq%list_elem_of_singleton. subst q. apply Hne. eauto.
  - intros q [Hq|Hq]%elem_of_app; [auto|]. apply list_elem_of_singleton in Hq as ->. eauto.
  - intros k q [_ E]%lookup_delete_Some. eauto.
  - rewrite length_app, map_size_delete_Some by eauto. simpl.
    assert (size (slot_map part) <> 0%nat).
    { intros E%map_size_empty_inv. by rewrite E, lookup_empty in Hk. }
    lia.
Qed.

Lemma release_row part key p k : row_of (release part key p) k = if decide (k = key) then None else row_of part k.
Proof.
  unfold row_of. simpl. destruct (decide (k = key)) as [->|Hne]; [by rewrite lookup_delete_eq|].
  by rewrite lookup_delete_ne.
Qed.

Lemma set_bytes_inv part b : part_inv part -> part_inv (set_bytes part b).
Proof. intros [H1 H2 H3 H4 H5 H6]. by constructor. Qed.
Lemma set_meta_inv part p v : part_inv part -> part_inv (set_meta part p v).
Proof. intros [H1 H2 H3 H4 H5 H6]. by constructor. Qed.
Lemma set_meta_row part p v k : row_of (set_meta part p v) k = row_of part k.
Proof. done. Qed.

Lemma overwrite_row part key p values src k :
  part_inv part -> slot_map part !! key = Some p ->
  row_of (set_bytes part (copy_to_slot values src row p (bytes part))) k =
    if decide (k = key) then Some (values <$> seqZ src row) else row_of part k.
Proof.
  intros Hinv Hk. unfold row_of. simpl. destruct (decide (k = key)) as [->|Hne].
  - rewrite Hk. f_equal. by eapply read_copy_same.
  - destruct (slot_map part !! k) as [q|] eqn:Eq; [|done]. f_equal.
    erewrite read_copy_other; [done|done|lia|by eapply pi_used|by eapply pi_used|].
    intros ->. apply Hne. eapply pi_inj; eauto.
Qed.

Lemma erase_key_inv part k : part_inv part -> part_inv (erase_key part k).
Proof. intros H. unfold erase_key. destruct (slot_map part !! k) eqn:E; [by apply release_inv|done]. Qed.

Lemma erase_key_row part key k : row_of (erase_key part key) k = if decide (k = key) then None else row_of part k.
Proof.
  unfold erase_key. destruct (slot_map part !! key) eqn:E; [apply release_row|].
  destruct (decide (k = key)) as [->|]; [|done]. unfold row_of. by rewrite E.
Qed.

Lemma update_key_inv values st part ik : part_inv part -> part_inv (update_key values st row part ik).
Proof. intros H. unfold update_key. destruct (slot_map part !! _); [by apply set_bytes_inv|done]. Qed.

Lemma update_key_row values st part ik k :
  part_inv part ->
  row_of (update_key values st row part ik) k =
    if decide (k = ik.2) then (match row_of part k with Some _ => Some (values <$> seqZ (ik.1 * st) row) | None => None end)
    else row_of part k.
Proof.
  intros H. unfold update_key. destruct (slot_map part !! ik.2) as [p|] eqn:E.
  - rewrite (overwrite_row part ik.2) by done. destruct (decide (k = ik.2)) as [->|]; [|done].
    unfold row_of. by rewrite E.
  - destruct (decide (k = ik.2)) as [->|]; [|done]. unfold row_of. by rewrite E.
Qed.

Lemma slot_list_spec (b : nat) (p : ptr) : p ∈ reverse ((fun k : Z => (b, k * stride)) <$> seqZ 0 spb) <->
  exists k, 0 <= k < spb /\ p = (b, k * stride).
Proof.
  rewrite elem_of_reverse, list_elem_of_fmap. split.
  - intros (k & -> & Hk%elem_of_seqZ). exists k. split; [lia|done].
  - intros (k & Hk & ->). exists k. split; [done|]. apply elem_of_seqZ. lia.
Qed.

Lemma allocate_inv part : part_inv part -> part_inv (allocate_slots c part).
Proof.
  intros [H1 H2 H3 H4 H5 H6]. constructor; simpl.
  - apply NoDup_app. split; [done|]. split.
    + intros p Hp (k & _ & ->)%slot_list_spec. apply H4 in Hp as [Hb _]. simpl in Hb. lia.
    + rewrite reverse_Permutation; apply NoDup_fmap_2; [|apply NoDup_seqZ]. intros k k' [= E]. nia.
  - eauto.
  - intros k p E. rewrite not_elem_of_app. split; [eauto|]. intros (k' & _ & ->)%slot_list_spec.
    apply H5 in E as [Hb _]. simpl in Hb. lia.
  - intros p [Hp|Hp]%elem_of_app.
    + apply H4 in Hp as [Hb Ho]. split; [lia|done].
    + apply slot_list_spec in Hp as (k & Hk & ->). split; [simpl; lia|]. exists k. done.
  - intros k p E. apply H5 in E as [Hb Ho]. split; [lia|done].
  - rewrite length_app, length_reverse, length_fmap, length_seqZ. lia.
Qed.

Lemma allocate_row part k : part_inv part -> row_of (allocate_slots c part) k = row_of part k.
Proof.
  intros H. unfold row_of. simpl. destruct (slot_map part !! k) as [p|] eqn:E; [|done]. f_equal.
  apply list_fmap_ext. intros i x _. simpl. apply (pi_used _ H) in E as [Hb _].
  by rewrite bool_decide_false by lia.
Qed.

Lemma last_split {A} (l : list A) x : last l = Some x -> l = removelast l ++ [x].
Proof.
  intros H. apply last_Some in H as [l' ->]. f_equal. by rewrite removelast_last.
Qed.

Lemma store_new_spec values src lru key part :
  part_inv part -> slot_map part !! key = None -> available_slots part <> [] ->
  exists part', store_new c values src row lru key part = Ok part' /\ part_inv part' /\
    slot_map part' = <[key := default (0%nat, 0) (last (available_slots part))]> (slot_map part) /\
    forall k, row_of part' k = if decide (k = key) then Some (values <$> seqZ src row) else row_of part k.
Proof.
  intros Hinv Hk Hne. unfold store_new.
  destruct (last (available_slots part)) as [slot|] eqn:El; [|by apply last_None in El].
  pose proof (last_split _ _ El) as Es. pose proof Hinv as [H1 H2 H3 H4 H5 H6].
  assert (Hslot : slot ∈ available_slots part) by (rewrite Es; apply elem_of_app; right; by left).
  rewrite Es in H1. apply NoDup_app in H1 as (N1 & N2 & _).
  assert (Hsub : forall q, q ∈ removelast (available_slots part) -> q ∈ available_slots part).
  { intros q Hq. rewrite Es. apply elem_of_app. by left. }
  eexists. split; [done|]. split; [|split; [done|] ].
  - constructor; simpl; [done| | | | |].
    + intros k1 k2 p [ [-> E1]|[Hn1 E1] ]%lookup_insert_Some [ [-> E2]|[Hn2 E2] ]%lookup_insert_Some; eauto.
      * subst p. by apply H3 in E2.
      * subst p. by apply H3 in E1.
    + intros k p [ [-> E1]|[Hn1 E1] ]%lookup_insert_Some Hq.
      * subst p. apply (N2 slot Hq). by left.
      * by apply (H3 k p), Hsub.
    + intros p Hp. by apply H4, Hsub.
    + intros k p [ [-> E1]|[Hn1 E1] ]%lookup_insert_Some; [subst p; auto|eauto].
    + rewrite map_size_insert_None by done. rewrite Es in H6. rewrite length_app in H6. simpl in H6. lia.
  - intros k. unfold row_of. simpl. destruct (decide (k = key)) as [->|Hn].
    + rewrite lookup_insert_eq. f_equal. by eapply read_copy_same.
    + rewrite lookup_insert_ne by done. destruct (slot_map part !! k) as [q|] eqn:Eq; [|done]. f_equal.
      erewrite read_copy_other; [done|done|lia|by apply H4|by eapply H5|].
      intros ->. by apply (H3 k q).
Qed.

End Slots.

(** ** Lemmas: eviction *)

Section Evict.
Context (c : STLContainerTableConfig).
Context (umap_order shuffle : list (Z * ptr) -> list (Z * ptr)).
Context (Horder : forall l, umap_order l ≡ₚ l) (Hshuffle : forall l, shuffle l ≡ₚ l).
Local Abbreviation row := (max_value_size (base_config c)).
Local Abbreviation resolve := (resolve_overflow c umap_order shuffle).
Local Abbreviation eorder := (eviction_order c umap_order shuffle).

Lemma sort_insert_perm m x l : sort_insert m x l ≡ₚ x :: l.
Proof.
  induction l as [|y l IH]; simpl; [done|]. destruct (_ <? _); [done|]. rewrite IH. apply Permutation_swap.
Qed.

Lemma std_sort_perm m l : std_sort m l ≡ₚ l.
Proof. induction l as [|x l IH]; simpl; [done|]. by rewrite sort_insert_perm, IH. Qed.

Definition meta_le (m : ptr -> Z) (x y : Z * ptr) : Prop := m x.2 <= m y.2.

Lemma sort_insert_sorted m x l : StronglySorted (meta_le m) l -> StronglySorted (meta_le m) (sort_insert m x l).
Proof.
  induction l as [|y l IH]; simpl; intros Hs; [by repeat constructor|].
  inversion Hs as [|? ? Hs' Hy]; subst. destruct (Z.ltb_spec (m x.2) (m y.2)) as [H|H].
  - constructor; [done|]. constructor; [unfold meta_le; lia|].
    eapply Forall_impl; [exact Hy|]. unfold meta_le. intros; lia.
  - constructor; [by apply IH|]. rewrite (sort_insert_perm m x l). constructor; [done|exact Hy].
Qed.

Lemma std_sort_sorted m l : StronglySorted (meta_le m) (std_sort m l).
Proof. induction l; simpl; [constructor|by apply sort_insert_sorted]. Qed.

Lemma eviction_order_perm part : eorder part ≡ₚ map_to_list (slot_map part).
Proof.
  unfold eviction_order. destruct (handler _); [by rewrite Hshuffle, Horder| |]; by rewrite std_sort_perm, Horder.
Qed.

Lemma fold_release_spec l part :
  NoDup l.*1 -> (forall k p, (k, p) ∈ l -> slot_map part !! k = Some p) -> part_inv c part ->
  let part' := fold_left (fun part ks => release part ks.1 ks.2) l part in
  part_inv c part' /\ (forall k, slot_map part' !! k = if decide (k ∈ l.*1) then None else slot_map part !! k) /\
  bytes part' = bytes part /\ meta part' = meta part /\ (size (slot_map part') = size (slot_map part) - length l)%nat.
Proof.
  revert part. induction l as [|[k p] l IH]; intros part Hnd Hl Hinv; simpl.
  { split_and!; [done|done|done|done|lia]. }
  rewrite fmap_cons, NoDup_cons in Hnd. destruct Hnd as [Hn Hnd].
  assert (Hk : slot_map part !! k = Some p) by (apply Hl; by left).
  destruct (IH (release part k p) Hnd) as (I1 & I2 & I3 & I4 & I5); simpl in *.
  - intros k' p' Hin. assert (k' <> k).
    { intros ->. apply Hn. by apply (list_elem_of_fmap_2 fst) in Hin. }
    rewrite lookup_delete_ne by done. apply Hl. by right.
  - by apply release_inv.
  - split_and!; [done| |done|done|].
    + intros k'. rewrite I2. destruct (decide (k' ∈ l.*1)).
      * rewrite decide_True; [done|by right].
      * destruct (decide (k' = k)) as [->|].
        -- rewrite lookup_delete_eq, decide_True; [done|by left].
        -- rewrite lookup_delete_ne, decide_False by (try rewrite not_elem_of_cons; done). done.
    + rewrite I5, map_size_delete_Some by eauto. lia.
Qed.

Lemma fold_set_meta_keeps (f : Partition -> Z * ptr -> Z) l part :
  part_inv c part ->
  let part' := fold_left (fun part ks => set_meta part ks.2 (f part ks)) l part in
  part_inv c part' /\ slot_map part' = slot_map part /\ bytes part' = bytes part.
Proof.
  revert part. induction l as [|ks l IH]; intros part Hinv; simpl; [done|].
  destruct (IH (set_meta part ks.2 (f part ks))) as (I1 & I2 & I3); [by apply set_meta_inv|]. done.
Qed.

(** What [resolve_overflow] does: the first keys of the eviction order lose
    their slot, everything else is as before. *)
Lemma resolve_spec r part :
  part_inv c part ->
  let n := (size (slot_map part) - Z.to_nat r)%nat in
  part_inv c (resolve r part) /\
  (forall k, slot_map (resolve r part) !! k =
     if decide (k ∈ (take n (eorder part)).*1) then None else slot_map part !! k) /\
  bytes (resolve r part) = bytes part /\
  (size (slot_map (resolve r part)) = size (slot_map part) - n)%nat.
Proof.
  intros Hinv n. unfold resolve_overflow.
  assert (Hp := eviction_order_perm part).
  assert (Hlen : length (eorder part) = size (slot_map part)).
  { rewrite Hp. apply length_map_to_list. }
  rewrite Hlen. fold n.
  assert (Hnd : NoDup (eorder part).*1) by (rewrite Hp; apply NoDup_fst_map_to_list).
  destruct (fold_release_spec (take n (eorder part)) part) as (I1 & I2 & I3 & I4 & I5).
  - rewrite fmap_take. eapply sublist_NoDup; [exact Hnd|apply sublist_take].
  - intros k p Hin. apply elem_of_map_to_list. rewrite <- Hp. by apply subseteq_take in Hin.
  - done.
  - rewrite length_take_le in I5 by lia.
    destruct (handler (overflow_policy c)); [by split_and!..|].
    set (part1 := fold_left _ (take n (eorder part)) part) in *.
    destruct (fold_set_meta_keeps (fun part ks => Z.quot (meta part ks.2) 2) (drop n (eorder part)) part1 I1)
      as (J1 & J2 & J3).
    rewrite J2, J3. by split_and!.
Qed.

(** LRU and LFU evict in the order of the metadata: no key that goes has a
    larger tag than a key that stays. *)
Lemma evicted_least n part x y :
  handler (overflow_policy c) <> EvictRandom ->
  x ∈ take n (eorder part) -> y ∈ drop n (eorder part) -> meta part x.2 <= meta part y.2.
Proof.
  intros Hh Hx Hy. unfold eviction_order in *.
  assert (Hs : StronglySorted (meta_le (meta part))
                 (take n (std_sort (meta part) (umap_order (map_to_list (slot_map part)))) ++
                  drop n (std_sort (meta part) (umap_order (map_to_list (slot_map part)))))).
  { rewrite take_drop. apply std_sort_sorted. }
  destruct (handler (overflow_policy c)); [done| |]; revert Hx Hy Hs;
    generalize (take n (std_sort (meta part) (umap_order (map_to_list (slot_map part)))));
    generalize (drop n (std_sort (meta part) (umap_order (map_to_list (slot_map part)))));
    intros l2 l1 Hx Hy Hs; exact (StronglySorted_app_1_elem_of _ _ _ _ _ Hs Hx Hy).
Qed.

End Evict.

(** ** Lemmas: insert *)

(** Index of the last write of a batch to a key. *)
Fixpoint last_write (l : list (Z * Z)) (k : Z) : option Z :=
  match l with
  | [] => None
  | (i, k') :: l =>
      match last_write l k with
      | Some j => Some j
      | None => if decide (k' = k) then Some i else None
      end
  end.

Section InsertLemmas.
Context (c : STLContainerTableConfig).
Context (umap_order shuffle : list (Z * ptr) -> list (Z * ptr)).
Context (Horder : forall l, umap_order l ≡ₚ l) (Hshuffle : forall l, shuffle l ≡ₚ l).
Local Abbreviation row := (max_value_size (base_config c)).
Local Abbreviation margin := (overflow_margin (overflow_policy c)).
Context (Hrow : 0 < row) (Hstride : row <= slot_stride c) (Hspb : 0 < slots_per_buffer c).
Context (r : Z) (Hr : 0 <= r) (values : memory) (value_stride lru : Z).
Local Abbreviation ins := (insert_key c umap_order shuffle r values value_stride row lru).
Local Abbreviation new_row i := (values <$> seqZ (i * value_stride) row).
Local Abbreviation msize part := (Z.of_nat (size (slot_map part))).

(** Most keys a partition holds. *)
Definition capacity : Z := Z.max margin (r + 1).

Lemma make_room part :
  part_inv c part ->
  let part' := if bool_decide (available_slots part = []) then allocate_slots c part else part in
  part_inv c part' /\ available_slots part' <> [] /\ slot_map part' = slot_map part /\
  forall k, row_of c part' k = row_of c part k.
Proof.
  intros Hinv. simpl. destruct (bool_decide_reflect (available_slots part = [])) as [E|E]; [|done].
  split_and!; [by apply allocate_inv| |done|intros; by apply allocate_row].
  simpl. rewrite E. simpl. intros H.
  apply (f_equal length) in H. rewrite length_reverse, length_fmap, length_seqZ in H. simpl in H. lia.
Qed.

Lemma insert_key_spec part i key :
  part_inv c part ->
  exists part', ins part (i, key) = Ok part' /\ part_inv c part' /\
    (msize part <= capacity -> msize part' <= capacity) /\
    msize part' <= msize part + 1 /\
    row_of c part' key = Some (new_row i) /\
    (forall k, k <> key -> row_of c part' k = row_of c part k \/ row_of c part' k = None) /\
    (msize part < margin -> forall k, k <> key -> row_of c part' k = row_of c part k).
Proof.
  intros Hinv. unfold insert_key. destruct (slot_map part !! key) as [p|] eqn:Ek.
  - eexists. split; [done|]. assert (Hs := overwrite_row c Hrow Hstride part key p values (i * value_stride)).
    split_and!; simpl; [by apply set_bytes_inv|done|lia| | |].
    + by rewrite Hs, decide_True.
    + intros k Hne. left. by rewrite Hs, decide_False.
    + intros _ k Hne. by rewrite Hs, decide_False.
  - set (part1 := if margin <=? _ then _ else part).
    assert (H1 : part_inv c part1 /\ slot_map part1 !! key = None /\
       (msize part1 + 1 <= Z.max (r + 1) (if margin <=? msize part then 0 else msize part + 1)) /\ msize part1 <= msize part /\
       (forall k, row_of c part1 k = row_of c part k \/ row_of c part1 k = None) /\
       (msize part < margin -> part1 = part)).
    { unfold part1. destruct (Z.leb_spec margin (msize part)) as [Hm|Hm].
      - destruct (resolve_spec c umap_order shuffle Horder Hshuffle r part Hinv) as (I1 & I2 & I3 & I4).
        split_and!; [done| |lia|lia| |lia].
        + rewrite I2, Ek. by destruct (decide _).
        + intros k. unfold row_of, read_slot. rewrite I2, I3. destruct (decide _); by auto.
      - split_and!; [done|done|lia|lia|by left|done]. }
    destruct H1 as (I1 & I2 & I3 & I4 & I5 & I6).
    destruct (make_room part1 I1) as (J1 & J2 & J3 & J4).
    set (part2 := if bool_decide _ then _ else part1) in *.
    destruct (store_new_spec c Hrow Hstride values (i * value_stride) lru key part2) as (part' & E & K1 & K2 & K3);
      [done|by rewrite J3|done|].
    assert (Hsz : size (slot_map part') = S (size (slot_map part1))).
    { rewrite K2, map_size_insert_None by (by rewrite J3). by rewrite J3. }
    exists part'. split; [done|]. rewrite Hsz. unfold capacity.
    split_and!; [done| |lia| | |].
    + destruct (Z.leb_spec margin (msize part)); lia.
    + by rewrite K3, decide_True.
    + intros k Hne. rewrite K3, decide_False, J4 by done. apply I5.
    + intros Hm k Hne. rewrite K3, decide_False, J4 by done. by rewrite I6.
Qed.

Definition expected (part : Partition) (l : list (Z * Z)) (k : Z) : option (list Z) :=
  match last_write l k with Some i => Some (new_row i) | None => row_of c part k end.

Lemma insert_batch part l :
  part_inv c part ->
  exists part', ofoldl ins l part = Ok part' /\ part_inv c part' /\
    (msize part <= capacity -> msize part' <= capacity) /\
    (forall k, row_of c part' k = expected part l k \/ row_of c part' k = None) /\
    (msize part + Z.of_nat (length l) <= margin -> forall k, row_of c part' k = expected part l k).
Proof.
  revert part. induction l as [|[i key] l IH]; intros part Hinv.
  { exists part. split_and!; auto. }
  destruct (insert_key_spec part i key Hinv) as (p1 & E1 & A1 & A2 & A3 & A4 & A5 & A6).
  destruct (IH p1 A1) as (p2 & E2 & B1 & B2 & B3 & B4).
  exists p2. cbn [ofoldl]. rewrite E1. cbn [obind]. split_and!; [done|done|auto| |].
  - intros k. unfold expected in *. simpl. destruct (B3 k) as [E|E]; [|by right].
    destruct (last_write l k); [by left|]. rewrite E. destruct (decide (key = k)) as [->|Hne]; [by left|].
    destruct (A5 k) as [->|E']; [done|by left|by right].
  - intros Hm k. cbn [length] in Hm. rewrite B4 by lia. unfold expected. simpl.
    destruct (last_write l k); [done|]. destruct (decide (key = k)) as [->|Hne]; [done|]. apply A6; [lia|done].
Qed.
End InsertLemmas.

(** ** Lemmas: the table *)

Lemma each_part_spec {part_t : Type} (f : Z -> part_t -> outcome part_t) (R : Z -> part_t -> part_t -> Prop) parts i0 :
  (forall j part, parts !! j = Some part -> exists part', f (i0 + Z.of_nat j) part = Ok part' /\ R (i0 + Z.of_nat j) part part') ->
  exists parts', each_part f i0 parts = Ok parts' /\ length parts' = length parts /\
    forall j part, parts !! j = Some part -> exists part', parts' !! j = Some part' /\ R (i0 + Z.of_nat j) part part'.
Proof.
  revert i0. induction parts as [|part parts IH]; intros i0 Hf; simpl.
  { exists []. split_and!; [done|done|]. intros j part E. by rewrite lookup_nil in E. }
  destruct (Hf 0%nat part eq_refl) as (part' & E & HR). simpl in E, HR. rewrite Z.add_0_r in E, HR.
  destruct (IH (i0 + 1)) as (parts' & E' & Hl & HR').
  { intros j q Hq. destruct (Hf (S j) q Hq) as (q' & Eq & HRq).
    replace (i0 + 1 + Z.of_nat j) with (i0 + Z.of_nat (S j)) by lia. eauto. }
  rewrite E. cbn [obind]. rewrite E'. cbn [obind]. exists (part' :: parts'). split_and!; [done|by rewrite <- Hl|].
  intros [|j] q Hq; simpl in Hq.
  - simplify_eq. exists part'. split; [done|]. by rewrite Z.add_0_r.
  - destruct (HR' j q Hq) as (q' & Eq & HRq). exists q'. split; [done|].
    by replace (i0 + Z.of_nat (S j)) with (i0 + 1 + Z.of_nat j) by lia.
Qed.

Lemma last_write_filter (P : Z * Z -> Prop) `{!forall x, Decision (P x)} l k :
  (forall i, P (i, k)) -> last_write (filter P l) k = last_write l k.
Proof.
  intros HP. induction l as [|[i k'] l IH]; [done|]. rewrite filter_cons. simpl.
  destruct (decide (P (i, k'))) as [HPx|HPx]; simpl; rewrite IH; [done|].
  destruct (last_write l k); [done|]. destruct (decide (k' = k)) as [->|]; [by destruct HPx|done].
Qed.

(** The write that counts for a key: its last occurrence in the batch. *)
Definition batch_write (keys : list Z) (k : Z) : option Z :=
  last_write (zip (seqZ 0 (Z.of_nat (length keys))) keys) k.

Section TableLemmas.
Context (c : STLContainerTableConfig) (p : Partitioner_t) (n : Z).
Context (umap_order shuffle : list (Z * ptr) -> list (Z * ptr)).
Context (Horder : forall l, umap_order l ≡ₚ l) (Hshuffle : forall l, shuffle l ≡ₚ l).
Local Abbreviation row := (max_value_size (base_config c)).
Local Abbreviation margin := (overflow_margin (overflow_policy c)).
Context (Hrow : 0 < row) (Hstride : row <= slot_stride c) (Hspb : 0 < slots_per_buffer c).
Context (Hn : 0 <= n <= 62).

(** A table of [2^n] partitions, each with its slots in order. *)
Record table_inv (parts : list Partition) : Prop := {
  ti_len : Z.of_nat (length parts) = 2 ^ n;
  ti_parts : forall j part, parts !! j = Some part -> part_inv c part
}.

Lemma part_of_range k : 0 <= part_of p (2 ^ n) k < 2 ^ n.
Proof.
  unfold part_of. pose proof (pow2_pos n ltac:(lia)).
  assert (M : forall x, 0 <= part_mask x (2 ^ n - 1) < 2 ^ n).
  { intros x. unfold part_mask. replace (2 ^ n - 1) with (Z.ones n) by (rewrite Z.ones_equiv; lia).
    rewrite Z.land_ones by lia. apply Z.mod_pos_bound. lia. }
  destruct p; cbn [partition].
  1-3, 5: (apply M || (unfold AlwaysZero_partition; lia)).
  unfold Rrxmrrxmsx0_partition. destruct (rrx_mix_total (std_hash k)) as [x ->]; [apply wrapu_range; lia|].
  apply M.
Qed.

Lemma home_part parts k :
  table_inv parts -> exists part, parts !! Z.to_nat (part_of p (Z.of_nat (length parts)) k) = Some part /\
    stl_lookup c p parts k = row_of c part k.
Proof.
  intros Hinv. pose proof (ti_len _ Hinv) as El. pose proof (part_of_range k) as Hp.
  unfold stl_lookup. rewrite El.
  destruct (lookup_lt_is_Some_2 parts (Z.to_nat (part_of p (2 ^ n) k))) as [part E]; [lia|].
  exists part. rewrite E. done.
Qed.

(** A table operation given by a task per partition, in terms of the rows. *)
Lemma table_op parts (f : Z -> Partition -> outcome Partition) (g : Z -> Partition -> Z -> option (list Z) -> Prop) :
  table_inv parts ->
  (forall i part, part_inv c part -> exists part', f i part = Ok part' /\ part_inv c part' /\
     forall k, g i part k (row_of c part' k)) ->
  exists parts', each_part f 0 parts = Ok parts' /\ table_inv parts' /\ length parts' = length parts /\
    forall k, exists part, parts !! Z.to_nat (part_of p (Z.of_nat (length parts)) k) = Some part /\
      g (part_of p (Z.of_nat (length parts)) k) part k (stl_lookup c p parts' k).
Proof.
  intros Hinv Hf.
  destruct (each_part_spec f (fun i part part' => part_inv c part' /\ forall k, g i part k (row_of c part' k)) parts 0)
    as (parts' & E & Hl & HR).
  { intros j part Ej. apply Hf. by eapply ti_parts. }
  exists parts'. split; [done|].
  assert (Hinv' : table_inv parts').
  { split; [rewrite Hl; apply Hinv|]. intros j part' Ej.
    destruct (lookup_lt_is_Some_2 parts j) as [part Ep]; [rewrite <- Hl; by eapply lookup_lt_Some|].
    destruct (HR j part Ep) as (q & Eq & Hq & _). by simplify_eq. }
  split; [done|]. split; [done|]. intros k.
  destruct (home_part parts k Hinv) as (part & Ep & _). exists part. split; [done|].
  destruct (HR _ _ Ep) as (part' & Ep' & _ & Hg). destruct (home_part parts' k Hinv') as (q & Eq & ->).
  rewrite Hl, Ep' in Eq. injection Eq as <-.
  specialize (Hg k). pose proof (part_of_range k) as Hp. rewrite (ti_len _ Hinv) in *.
  by rewrite Z.add_0_l, Z2Nat.id in Hg by lia.
Qed.

Lemma insert_table parts keys value_stride lru values r :
  table_inv parts -> resolution_of c = Ok r -> 0 <= r ->
  exists parts', stl_insert c p umap_order shuffle keys value_stride row lru values parts = Ok parts' /\
    table_inv parts' /\ length parts' = length parts /\
    (forall k, let want := match batch_write keys k with
                   | Some i => Some (values <$> seqZ (i * value_stride) row)
                   | None => stl_lookup c p parts k end in
       (stl_lookup c p parts' k = want \/ stl_lookup c p parts' k = None) /\
       ((forall j part, parts !! j = Some part ->
           Z.of_nat (size (slot_map part)) + Z.of_nat (length keys) <= margin) ->
        stl_lookup c p parts' k = want)).
Proof.
  intros Hinv Hres Hr. unfold stl_insert. destruct (bool_decide_reflect (keys = [])) as [->|Hne].
  { exists parts. split_and!; [done..|]. intros k. simpl. auto. }
  rewrite (proj2 (Z.leb_le 0 row)), (proj2 (Z.leb_le row row)), Hres by lia. cbn [andb obind].
  set (N := Z.of_nat (length parts)).
  destruct (table_op parts (fun i part => ofoldl (insert_key c umap_order shuffle r values value_stride row lru) (my_keys p N keys i) part)
    (fun i part k o => (o = expected c values value_stride part (my_keys p N keys i) k \/ o = None) /\
       (Z.of_nat (size (slot_map part)) + Z.of_nat (length (my_keys p N keys i)) <= margin ->
        o = expected c values value_stride part (my_keys p N keys i) k)) Hinv)
    as (parts' & E & I1 & I2 & I3).
  { intros i part Hp.
    destruct (insert_batch c umap_order shuffle Horder Hshuffle Hrow Hstride Hspb r Hr values value_stride lru part
      (my_keys p N keys i) Hp) as (part' & E & A1 & _ & A3 & A4).
    exists part'. split_and!; auto. }
  exists parts'. split; [done|]. split; [done|]. split; [done|]. intros k. match goal with |- (_ = ?w \/ _) /\ _ => set (want := w) end.
  destruct (I3 k) as (part & Ep & G1 & G2). destruct (home_part parts k Hinv) as (q & Eq & Elk).
  rewrite Ep in Eq. injection Eq as <-.
  assert (Ew : expected c values value_stride part (my_keys p N keys (part_of p N k)) k = want).
  { unfold expected, want, batch_write, my_keys. rewrite last_write_filter by done. by rewrite Elk. }
  fold N in G1, G2. rewrite Ew in G1, G2. split; [done|]. intros Hcap. apply G2.
  assert (Hlen : (length (my_keys p N keys (part_of p N k)) <= length keys)%nat).
  { unfold my_keys. etrans; [apply length_filter|]. rewrite length_zip, length_seqZ. lia. }
  specialize (Hcap _ _ Ep). lia.
Qed.

Lemma fold_erase_row l part k :
  row_of c (fold_left erase_key l part) k = if decide (k ∈ l) then None else row_of c part k.
Proof.
  revert part. induction l as [|x l IH]; intros part; simpl; [done|].
  rewrite IH. destruct (decide (k ∈ l)); [by rewrite decide_True by (by right)|].
  rewrite erase_key_row. destruct (decide (k = x)) as [->|Hne]; [by rewrite decide_True by (by left)|].
  by rewrite decide_False by (by rewrite not_elem_of_cons).
Qed.

Lemma fold_erase_inv l part : part_inv c part -> part_inv c (fold_left erase_key l part).
Proof. revert part. induction l; intros part H; simpl; [done|]. by apply IHl, erase_key_inv. Qed.

Lemma my_keys_mem keys N k : k ∈ (my_keys p N keys (part_of p N k)).*2 <-> k ∈ keys.
Proof.
  unfold my_keys. rewrite list_elem_of_fmap. split.
  - intros ( [i k'] & -> & [_ Hin]%list_elem_of_filter). simpl. by eapply elem_of_zip_r.
  - intros (j & Hj)%list_elem_of_lookup. exists (Z.of_nat j, k). split; [done|].
    apply list_elem_of_filter. split; [done|]. apply list_elem_of_lookup. exists j.
    rewrite lookup_zip_with. pose proof (lookup_lt_Some _ _ _ Hj).
    rewrite lookup_seqZ_lt by lia. rewrite Hj. done.
Qed.

Lemma erase_table parts keys :
  table_inv parts ->
  exists parts', stl_erase p keys parts = Ok parts' /\ table_inv parts' /\
    forall k, stl_lookup c p parts' k = if decide (k ∈ keys) then None else stl_lookup c p parts k.
Proof.
  intros Hinv. unfold stl_erase. set (N := Z.of_nat (length parts)).
  destruct (table_op parts (fun i part => Ok (fold_left erase_key (my_keys p N keys i).*2 part))
    (fun i part k o => o = if decide (k ∈ (my_keys p N keys i).*2) then None else row_of c part k) Hinv)
    as (parts' & E & I1 & I2 & I3).
  { intros i part Hp. eexists. split; [done|]. split; [by apply fold_erase_inv|]. intros k. apply fold_erase_row. }
  exists parts'. split; [done|]. split; [done|]. intros k. destruct (I3 k) as (part & Ep & ->). fold N.
  destruct (home_part parts k Hinv) as (q & Eq & ->). rewrite Ep in Eq. injection Eq as <-.
  pose proof (my_keys_mem keys N k). do 2 destruct (decide _); tauto || done.
Qed.

Lemma fold_update_row values st l part k :
  part_inv c part ->
  row_of c (fold_left (update_key values st row) l part) k =
    match row_of c part k, last_write l k with
    | Some _, Some i => Some (values <$> seqZ (i * st) row)
    | o, _ => o
    end.
Proof.
  revert part. induction l as [|[i k'] l IH]; intros part Hinv; simpl.
  { by destruct (row_of c part k). }
  rewrite IH by (by apply update_key_inv). rewrite update_key_row by done. simpl.
  destruct (decide (k = k')) as [->|Hne].
  - rewrite decide_True by done. destruct (row_of c part k'); [|done]. by destruct (last_write l k').
  - rewrite decide_False by congruence. destruct (row_of c part k); [|done]. by destruct (last_write l k).
Qed.

Lemma fold_update_inv values st l part :
  part_inv c part -> part_inv c (fold_left (update_key values st row) l part).
Proof. revert part. induction l; intros part H; simpl; [done|]. by apply IHl, update_key_inv. Qed.

Lemma update_table parts keys st values :
  table_inv parts ->
  exists parts', stl_update c p keys st row values parts = Ok parts' /\ table_inv parts' /\
    forall k, stl_lookup c p parts' k =
      match stl_lookup c p parts k, batch_write keys k with
      | Some _, Some i => Some (values <$> seqZ (i * st) row)
      | o, _ => o
      end.
Proof.
  intros Hinv. unfold stl_update. destruct (bool_decide_reflect (keys = [])) as [->|Hne].
  { exists parts. split_and!; [done..|]. intros k. by destruct (stl_lookup c p parts k). }
  rewrite (proj2 (Z.leb_le 0 row)), (proj2 (Z.leb_le row row)) by lia. cbn [andb].
  set (N := Z.of_nat (length parts)).
  destruct (table_op parts (fun i part => Ok (fold_left (update_key values st row) (my_keys p N keys i) part))
    (fun i part k o => o = match row_of c part k, last_write (my_keys p N keys i) k with
      | Some _, Some i => Some (values <$> seqZ (i * st) row) | o, _ => o end) Hinv) as (parts' & E & I1 & I2 & I3).
  { intros i part Hp. eexists. split; [done|]. split; [by apply fold_update_inv|]. intros k. by apply fold_update_row. }
  exists parts'. split; [done|]. split; [done|]. intros k. destruct (I3 k) as (part & Ep & ->). fold N.
  destruct (home_part parts k Hinv) as (q & Eq & ->). rewrite Ep in Eq. injection Eq as <-.
  unfold my_keys. by rewrite last_write_filter.
Qed.
End TableLemmas.

(** ** Properties *)

Lemma check_facts c :
  stl_config_check c = Ok tt ->
  0 < max_value_size (base_config c) /\ max_value_size (base_config c) <= slot_stride c /\
  has_single_bit (num_partitions c) = true /\ 0 <= overflow_margin (overflow_policy c).
Proof.
  unfold stl_config_check. intros (u & Hb & H)%obind_Ok.
  assert (Hrow : 0 < max_value_size (base_config c)).
  { unfold host_table_config_check in Hb. repeat (case_match; try discriminate). simplify_eq.
    match goal with H : (_ && _) = true |- _ => apply andb_true_iff in H as [?%Z.ltb_lt _] end. done. }
  repeat (case_match; try discriminate).
  repeat match goal with H : (_ && _) = true |- _ => apply andb_true_iff in H as [? ?] end.
  assert (Ha : 0 < value_alignment c).
  { match goal with H : has_single_bit (value_alignment c) = true |- _ => apply has_single_bit_spec in H as (k & Hk & ->) end.
    by apply pow2_pos. }
  split; [done|]. split; [|split; [done|] ].
  - unfold slot_stride. assert (Hm : 0 <= stl_meta_size c) by (unfold stl_meta_size; destruct (handler _); simpl; lia).
    destruct (next_aligned_spec (slot_size c) (value_alignment c)) as [ [Hlo _] _]; [unfold slot_size; lia|done|].
    unfold slot_size in Hlo at 1. lia.
  - unfold overflow_policy_check in H. repeat (case_match; try discriminate). by apply Z.leb_le.
Qed.

Lemma spb_pos c : 0 < slot_stride c -> slot_stride c <= allocation_rate c -> 0 < slots_per_buffer c.
Proof. intros H1 H2. unfold slots_per_buffer. apply Z.div_str_pos. lia. Qed.

(** C8. An insert of full rows behaves like an insertion into a map from keys to
    rows: with a checked configuration whose buffers hold at least a slot, it
    always succeeds, keeps the slot bookkeeping of every partition intact (no
    slot lost, shared or both free and used), and afterwards every key shows the
    row of its last occurrence in the batch or, if it was not in the batch, its
    old row, unless it has been evicted; and nothing is evicted while every
    partition stays within the overflow margin. *)
Theorem stl_insert_functional (c : STLContainerTableConfig) (p : Partitioner_t) (n : Z)
    (umap_order shuffle : list (Z * ptr) -> list (Z * ptr)) (parts : list Partition)
    (keys : list Z) (value_stride lru : Z) (values : memory) (r : Z) :
  (forall l, umap_order l ≡ₚ l) -> (forall l, shuffle l ≡ₚ l) -> 0 <= n <= 62 ->
  stl_config_check c = Ok tt -> slot_stride c <= allocation_rate c ->
  table_inv c n parts -> resolution_of c = Ok r -> 0 <= r ->
  exists parts',
    stl_insert c p umap_order shuffle keys value_stride (max_value_size (base_config c)) lru values parts = Ok parts' /\
    table_inv c n parts' /\
    (forall k, let want := match batch_write keys k with
                   | Some i => Some (values <$> seqZ (i * value_stride) (max_value_size (base_config c)))
                   | None => stl_lookup c p parts k end in
       (stl_lookup c p parts' k = want \/ stl_lookup c p parts' k = None) /\
       ((forall j part, parts !! j = Some part ->
           Z.of_nat (size (slot_map part)) + Z.of_nat (length keys) <= overflow_margin (overflow_policy c)) ->
        stl_lookup c p parts' k = want)).
Proof.
  intros Ho Hs Hn Hc Ha Hinv Hr H0. destruct (check_facts c Hc) as (F1 & F2 & _).
  destruct (insert_table c p n umap_order shuffle Ho Hs F1 F2 (spb_pos c ltac:(lia) Ha) Hn parts keys value_stride lru values r
    Hinv Hr H0) as (parts' & E & I1 & _ & I2). eauto.
Qed.

(** Erase and update behave like the operations on a map: an erased key has no
    row afterwards and other keys keep theirs; an update replaces the rows of the
    keys that are present by their last row in the batch, adds no key, and
    leaves the others alone. Both always succeed and keep the slot bookkeeping. *)
Theorem stl_erase_update_functional (c : STLContainerTableConfig) (p : Partitioner_t) (n : Z)
    (parts : list Partition) (keys : list Z) (value_stride : Z) (values : memory) :
  0 <= n <= 62 -> stl_config_check c = Ok tt -> table_inv c n parts ->
  (exists parts', stl_erase p keys parts = Ok parts' /\ table_inv c n parts' /\
     forall k, stl_lookup c p parts' k = if decide (k ∈ keys) then None else stl_lookup c p parts k) /\
  (exists parts', stl_update c p keys value_stride (max_value_size (base_config c)) values parts = Ok parts' /\
     table_inv c n parts' /\
     forall k, stl_lookup c p parts' k =
       match stl_lookup c p parts k, batch_write keys k with
       | Some _, Some i => Some (values <$> seqZ (i * value_stride) (max_value_size (base_config c)))
       | o, _ => o
       end).
Proof.
  intros Hn Hc Hinv. destruct (check_facts c Hc) as (F1 & F2 & _). split.
  - by apply erase_table.
  - by apply (update_table c p n).
Qed.

(** A partition never exceeds its capacity, the larger of the overflow margin
    and one more than the resolution margin, whatever is inserted. *)
Theorem stl_capacity_bound (c : STLContainerTableConfig) (umap_order shuffle : list (Z * ptr) -> list (Z * ptr))
    (part : Partition) (l : list (Z * Z)) (r value_stride lru : Z) (values : memory) :
  (forall l, umap_order l ≡ₚ l) -> (forall l, shuffle l ≡ₚ l) ->
  stl_config_check c = Ok tt -> slot_stride c <= allocation_rate c -> 0 <= r -> part_inv c part ->
  Z.of_nat (size (slot_map part)) <= Z.max (overflow_margin (overflow_policy c)) (r + 1) ->
  exists part',
    ofoldl (insert_key c umap_order shuffle r values value_stride (max_value_size (base_config c)) lru) l part = Ok part' /\
    Z.of_nat (size (slot_map part')) <= Z.max (overflow_margin (overflow_policy c)) (r + 1) /\ part_inv c part'.
Proof.
  intros Ho Hs Hc Ha Hr Hinv Hsz. destruct (check_facts c Hc) as (F1 & F2 & _).
  destruct (insert_batch c umap_order shuffle Ho Hs F1 F2 (spb_pos c ltac:(lia) Ha) r Hr values value_stride lru part l Hinv)
    as (part' & E & I1 & I2 & _). exists part'. split_and!; auto.
Qed.

(** Resolving an overflow keeps exactly [min(size, resolution margin)] keys,
    with their rows, and under LRU and LFU no evicted key has a larger tag than a
    key that is kept. *)
Theorem stl_eviction (c : STLContainerTableConfig) (umap_order shuffle : list (Z * ptr) -> list (Z * ptr))
    (part : Partition) (r : Z) :
  (forall l, umap_order l ≡ₚ l) -> (forall l, shuffle l ≡ₚ l) -> 0 <= r -> part_inv c part ->
  let part' := resolve_overflow c umap_order shuffle r part in
  part_inv c part' /\
  Z.of_nat (size (slot_map part')) = Z.min (Z.of_nat (size (slot_map part))) r /\
  (forall k p, slot_map part' !! k = Some p ->
     slot_map part !! k = Some p /\ row_of c part' k = row_of c part k) /\
  (handler (overflow_policy c) <> EvictRandom ->
   forall k q k' q', slot_map part !! k = Some q -> slot_map part' !! k = None ->
     slot_map part' !! k' = Some q' -> meta part q <= meta part q').
Proof.
  intros Ho Hs Hr Hinv part'.
  destruct (resolve_spec c umap_order shuffle Ho Hs r part Hinv) as (I1 & I2 & I3 & I4). fold part' in I1, I2, I3, I4.
  assert (Hp := eviction_order_perm c umap_order shuffle Ho Hs part).
  set (m := (size (slot_map part) - Z.to_nat r)%nat) in *.
  set (eo := eviction_order c umap_order shuffle part) in *.
  assert (Hnd : NoDup eo.*1) by (rewrite Hp; apply NoDup_fst_map_to_list).
  split; [done|]. split; [lia|]. split.
  - intros k q Hk. rewrite I2 in Hk. unfold row_of, read_slot. rewrite I2, I3. destruct (decide _); [done|].
    by rewrite Hk.
  - intros Hh k q k' q' Hk Hgone Hk'. rewrite I2 in Hgone, Hk'.
    destruct (decide (k ∈ (take m eo).*1)) as [Hin|]; [|congruence].
    destruct (decide (k' ∈ (take m eo).*1)) as [|Hnin]; [done|].
    apply (evicted_least c umap_order shuffle m part (k, q) (k', q') Hh).
    + apply list_elem_of_fmap in Hin as ( [k2 q2] & E2 & Hin). simpl in E2. subst k2.
      assert (Hq2 : slot_map part !! k = Some q2).
      { apply elem_of_map_to_list. rewrite <- Hp. by apply subseteq_take in Hin. }
      rewrite Hk in Hq2. injection Hq2 as <-. exact Hin.
    + assert (Hall : (k', q') ∈ eo) by (rewrite Hp; by apply elem_of_map_to_list).
      rewrite <- (take_drop m eo) in Hall. apply elem_of_app in Hall as [Hall|Hall]; [|exact Hall].
      by apply (list_elem_of_fmap_2 fst) in Hall.
Qed.

(** The configuration check admits tables that cannot store anything: it only
    asks for [allocation_rate >= max_value_size] although a slot also holds the
    metadata and the alignment padding; with less than a slot per buffer, the
    first insert into an empty partition takes the last element of an empty
    vector. *)
Theorem stl_undersized_buffer :
  exists c : STLContainerTableConfig, produce c = Ok AlwaysZero /\
    forall umap_order shuffle key stride lru values,
      stl_insert c AlwaysZero umap_order shuffle [key] stride (max_value_size (base_config c)) lru values
        [new_partition] = Undef "back() of an empty vector".
Proof.
  exists {| base_config := {| mask_size := 8; key_size := 8; max_value_size := 16; value_dtype := Float32; invalid_key := -1 |};
            num_partitions := 1; partitioner := AlwaysZero; workgroups := [0]; max_find_task_size := 128;
            value_alignment := 8; allocation_rate := 16; prefetch_values := true;
            overflow_policy := {| overflow_margin := 1000; handler := EvictLRU; resolution_margin := f64_ratio 8 10 |} |}.
  split; [reflexivity|]. intros. reflexivity.
Qed.

(** ** Witnesses *)

Definition demo_stl : STLContainerTableConfig :=
  {| base_config := {| mask_size := 8; key_size := 8; max_value_size := 4; value_dtype := Float32; invalid_key := -1 |};
     num_partitions := 2; partitioner := Murmur3; workgroups := [0]; max_find_task_size := 128;
     value_alignment := 4; allocation_rate := 64; prefetch_values := true;
     overflow_policy := {| overflow_margin := 3; handler := EvictLRU; resolution_margin := f64_ratio 8 10 |} |}.
Definition demo_values : memory := fun a => a mod 251.
Definition demo_parts : list Partition := [new_partition; new_partition].

Lemma demo_table_inv : table_inv demo_stl 1 demo_parts.
Proof.
  split; [done|]. intros [|[|j] ] part E; simplify_eq/=; apply new_partition_inv.
Qed.

Lemma stl_insert_functional_witness :
  exists parts', stl_insert demo_stl Murmur3 id id [5; 9; 5] 4 4 0 demo_values demo_parts = Ok parts' /\
    stl_lookup demo_stl Murmur3 parts' 5 = Some [8; 9; 10; 11].
Proof.
  destruct (stl_insert_functional demo_stl Murmur3 1 id id demo_parts [5; 9; 5] 4 0 demo_values 2) as (parts' & E & _ & H);
    [done|done|lia|reflexivity|vm_compute; discriminate|apply demo_table_inv|reflexivity|lia|].
  exists parts'. split; [exact E|]. clear E. apply (H 5). clear H.
  intros [|[|j] ] part Ej; [injection Ej as <-|injection Ej as <-|discriminate Ej]; vm_compute; discriminate.
Defined.

Lemma stl_erase_update_functional_witness :
  exists parts', stl_erase Murmur3 [5] demo_parts = Ok parts' /\ stl_lookup demo_stl Murmur3 parts' 5 = None.
Proof.
  destruct (stl_erase_update_functional demo_stl Murmur3 1 demo_parts [5] 4 demo_values) as ( (parts' & E & _ & H) & _);
    [lia|done|apply demo_table_inv|].
  exists parts'. split; [exact E|]. apply (H 5).
Defined.

Lemma stl_capacity_bound_witness :
  exists part',
    ofoldl (insert_key demo_stl id id 2 demo_values 4 4 0) [(0, 1); (1, 2); (2, 3); (3, 4); (4, 5)] new_partition = Ok part' /\
    Z.of_nat (size (slot_map part')) <= 3.
Proof.
  destruct (stl_capacity_bound demo_stl id id new_partition [(0, 1); (1, 2); (2, 3); (3, 4); (4, 5)] 2 4 0 demo_values)
    as (part' & E & H & _); [done|done|reflexivity|vm_compute; discriminate|lia|apply new_partition_inv|vm_compute; discriminate|].
  exists part'. exact (conj E H).
Defined.

Lemma stl_eviction_witness :
  part_inv demo_stl (resolve_overflow demo_stl id id 2 new_partition).
Proof.
  apply (stl_eviction demo_stl id id new_partition 2); [done|done|lia|apply new_partition_inv].
Defined.
