(* ===== verification/StlFind.v ===== *)
(** * Lookup in the partitioned host table: [STLContainerTable::find_]

    Tasks run in parallel, each on one partition and a window of the words of
    the hit mask, and share the words: a task loads a word, serves the missing
    keys of its own partition and joins the bits it set. This file models the
    task (with and without value prefetching), the split of the mask into tasks,
    and arbitrary interleavings of the loads and joins of all tasks. *)
From S2P Require Import Prelude BitOps Float32 DataTypes HostTable StlTable.

(** What the tasks share: the hit mask, the output rows and sizes, the
    metadata of the partitions and [total_num_hits]. *)
Record find_state := {
  f_mask : Z -> Z;
  f_values : memory;
  f_sizes : Z -> Z;
  f_meta : Z -> ptr -> Z;
  f_hits : Z
}.

Section Find.
Variable c : STLContainerTableConfig.
Variable p : Partitioner_t.
Variable parts : list Partition.
Variable n : Z.                    (* number of keys *)
Variable keys : Z -> Z.
Variable value_stride : Z.
Variables with_values with_value_sizes : bool.
Variable lru_time : Z.

Local Abbreviation row := (max_value_size (base_config c)).
Local Abbreviation nb := (mask_size (base_config c) * 8).
Local Abbreviation num_parts := (Z.of_nat (length parts)).

(** ** Splitting the mask into tasks *)

Definition hm_size : Z := generic_bitmask.mask_size nb n.
Definition num_tasks_per_part : Z := Z.quot (hm_size + max_find_task_size c - 1) (max_find_task_size c).
Definition num_tasks : Z := num_parts * num_tasks_per_part.

(** Partition and words of the mask of a task, in the order of the loop. *)
Definition task_part (task_idx : Z) : Z := Z.quot task_idx num_tasks_per_part.
Definition task_words (task_idx : Z) : list Z :=
  let part_idx := task_part task_idx in
  let t := Z.rem task_idx num_tasks_per_part in
  let hm_off0 := max_find_task_size c * t in
  let task_size := Z.min (max_find_task_size c) (hm_size - hm_off0) in
  let hm_off0 := hm_off0 + Z.quot (hm_size * part_idx) num_parts in
  (fun hm_idx => Z.rem (hm_off0 + hm_idx) hm_size) <$> seqZ 0 task_size.

(** ** One word *)

Definition slot_of (part_idx key : Z) : option ptr :=
  match parts !! Z.to_nat part_idx with Some part => slot_map part !! key | None => None end.
Definition row_at (part_idx : Z) (q : ptr) : list Z :=
  match parts !! Z.to_nat part_idx with Some part => read_slot part q row | None => [] end.

(** The bits of word [hm_off] that a task of partition [part_idx] sets, having
    loaded [mask]. *)
Definition word_hits (part_idx hm_off mask : Z) : list Z :=
  let i := hm_off * nb in
  match generic_bitmask.iterate nb (S (Z.to_nat nb)) (generic_bitmask.clip nb (generic_bitmask.invert nb mask) (n - i)) with
  | None => []
  | Some js =>
      filter (fun j => part_of p num_parts (keys (i + j)) = part_idx /\ is_Some (slot_of part_idx (keys (i + j)))) js
  end.

(** A copy of a row, immediate or delayed by one hit when values are
    prefetched. *)
Definition copy_row (part_idx : Z) (sd : ptr * Z) (m : memory) : memory := store_bytes m sd.2 (row_at part_idx sd.1).
Definition flush (part_idx : Z) (prev : option (ptr * Z)) (m : memory) : memory :=
  match prev with Some sd => copy_row part_idx sd m | None => m end.

(** The body of the loop for one hit. *)
Definition hit_one (prefetch : bool) (part_idx i : Z) (st : find_state * option (ptr * Z)) (j : Z)
  : find_state * option (ptr * Z) :=
  let '(s, prev) := st in
  let ij := i + j in
  match slot_of part_idx (keys ij) with
  | None => st
  | Some src =>
      let dst := ij * value_stride in
      ({| f_mask := f_mask s;
          f_values :=
            if with_values then
              (if prefetch then flush part_idx prev (f_values s) else copy_row part_idx (src, dst) (f_values s))
            else f_values s;
          f_sizes := if with_value_sizes then upd (f_sizes s) ij row else f_sizes s;
          f_meta := fun a q => if bool_decide (a = part_idx /\ q = src)
                               then update_meta_data (handler (overflow_policy c)) (f_meta s a q) lru_time
                               else f_meta s a q;
          f_hits := f_hits s |},
       if with_values && prefetch then Some (src, dst) else prev)
  end.

(** Serve one word after it has been loaded as [mask], then join it. *)
Definition visit_word (prefetch : bool) (part_idx hm_off mask : Z) (st : find_state * option (ptr * Z))
  : find_state * option (ptr * Z) :=
  let js := word_hits part_idx hm_off mask in
  let '(s, prev) := fold_left (hit_one prefetch part_idx (hm_off * nb)) js st in
  let mask' := fold_left (generic_bitmask.set nb) js mask in
  ({| f_mask := upd (f_mask s) hm_off (Z.lor (f_mask s hm_off) mask'); f_values := f_values s; f_sizes := f_sizes s;
      f_meta := f_meta s; f_hits := f_hits s + (generic_bitmask.count mask' - generic_bitmask.count mask) |}, prev).

(** ** One task, run without interruption *)

Definition find_task (prefetch : bool) (s : find_state) (task_idx : Z) : find_state :=
  let part_idx := task_part task_idx in
  let '(s, prev) := fold_left (fun st hm_off => visit_word prefetch part_idx hm_off (f_mask st.1 hm_off) st)
                      (task_words task_idx) (s, None) in
  if with_values && prefetch
  then {| f_mask := f_mask s; f_values := flush part_idx prev (f_values s); f_sizes := f_sizes s;
          f_meta := f_meta s; f_hits := f_hits s |}
  else s.

(** [find_]: the check, then all tasks, which load the words of the mask without
    asking whether there is one; the result is [total_num_hits]. *)
Definition find_ (with_mask : bool) (s : find_state) : outcome (find_state * Z) :=
  check! (row <=? value_stride) as "value_stride >= max_value_size" in
  if negb with_mask then Undef "load through a null hit mask" else
  let s := fold_left (find_task (prefetch_values c)) (seqZ 0 num_tasks)
             {| f_mask := f_mask s; f_values := f_values s; f_sizes := f_sizes s; f_meta := f_meta s; f_hits := 0 |} in
  Ok (s, f_hits s).

(** [find]: nothing for [n <= 0]; the hits are added to the lookup counter. *)
Definition find (with_mask : bool) (counter : option Z) (s : find_state) : outcome (find_state * option Z) :=
  if n <=? 0 then Ok (s, counter)
  else
    let! r := find_ with_mask s in
    match counter with
    | None => Throw "Invalid key counter"
    | Some k => Ok (r.1, Some (k + r.2))
    end.

(** ** Interleavings *)

(** A task of partition [a] loads or joins word [w]. *)
Inductive fevent := Load (e : Z * Z) | Join (e : Z * Z).

(** The words loaded and not yet joined, with the value seen. *)
Abbreviation snapshots := (gmap (Z * Z) Z).

Definition run_event (st : find_state * snapshots) (ev : fevent) : find_state * snapshots :=
  let '(s, snap) := st in
  match ev with
  | Load e => (s, <[e := f_mask s e.2]> snap)
  | Join e => ((visit_word false e.1 e.2 (default 0 (snap !! e)) (s, None)).1, snap)
  end.

(** Words that have to be visited: every word, once per partition. *)
Definition is_visit (e : Z * Z) : Prop := 0 <= e.1 < num_parts /\ 0 <= e.2 < hm_size.

(** A schedule from a point where [L] has been loaded and [J] joined: each word is
    loaded once and joined once, after its load, and in the end all are joined. *)
Fixpoint schedule (L J : list (Z * Z)) (evs : list fevent) : Prop :=
  match evs with
  | [] => forall e, is_visit e -> e ∈ J
  | Load e :: rest => is_visit e /\ (e ∉ L) /\ schedule (e :: L) J rest
  | Join e :: rest => (e ∈ L) /\ (e ∉ J) /\ schedule L (e :: J) rest
  end.

(** The schedule of running all tasks one after the other. *)
Definition task_events (task_idx : Z) : list fevent :=
  hm_off ← task_words task_idx; [Load (task_part task_idx, hm_off); Join (task_part task_idx, hm_off)].

End Find.

(** ** Lemmas *)

(** Prefetching delays each copy by one hit and changes nothing else. *)
Section Prefetch.
Context (c : STLContainerTableConfig) (p : Partitioner_t) (parts : list Partition) (n : Z) (keys : Z -> Z).
Context (value_stride : Z) (with_values with_value_sizes : bool) (lru_time : Z).
Local Abbreviation hit_one := (hit_one c parts keys value_stride with_values with_value_sizes lru_time).
Local Abbreviation visit_word := (visit_word c p parts n keys value_stride with_values with_value_sizes lru_time).
Local Abbreviation flush := (flush c parts).

(** The state of a delayed run once its pending copy is done. *)
Definition settle (a : Z) (st : find_state * option (ptr * Z)) : find_state * option (ptr * Z) :=
  ({| f_mask := f_mask st.1; f_values := if with_values then flush a st.2 (f_values st.1) else f_values st.1;
      f_sizes := f_sizes st.1; f_meta := f_meta st.1; f_hits := f_hits st.1 |}, None).

Lemma hit_one_settle a i st j : settle a (hit_one true a i st j) = hit_one false a i (settle a st) j.
Proof.
  destruct st as [s prev]. unfold settle, StlFind.hit_one. simpl.
  destruct (slot_of parts a (keys (i + j))); [|done]. simpl. by destruct with_values.
Qed.

Lemma fold_settle a i l st :
  settle a (fold_left (hit_one true a i) l st) = fold_left (hit_one false a i) l (settle a st).
Proof. revert st. induction l as [|j l IH]; intros st; simpl; [done|]. by rewrite IH, hit_one_settle. Qed.

Lemma visit_settle a w m st : settle a (visit_word true a w m st) = visit_word false a w m (settle a st).
Proof.
  unfold StlFind.visit_word. rewrite <- fold_settle.
  by destruct (fold_left _ (word_hits _ _ _ _ _ _ _ _) st) as [s prev].
Qed.

Lemma settle_mask a st : f_mask (settle a st).1 = f_mask st.1.
Proof. done. Qed.

Lemma visits_settle a ws st :
  settle a (fold_left (fun st w => visit_word true a w (f_mask st.1 w) st) ws st) =
  fold_left (fun st w => visit_word false a w (f_mask st.1 w) st) ws (settle a st).
Proof. revert st. induction ws as [|w ws IH]; intros st; simpl; [done|]. by rewrite IH, visit_settle. Qed.

Lemma hit_one_no_prev a i s j : (hit_one false a i (s, None) j).2 = None.
Proof.
  unfold StlFind.hit_one. destruct (slot_of parts a (keys (i + j))); [|done]. simpl. by rewrite andb_false_r.
Qed.

Lemma visits_no_prev a ws s :
  (fold_left (fun st w => visit_word false a w (f_mask st.1 w) st) ws (s, None)).2 = None.
Proof.
  revert s. induction ws as [|w ws IH]; intros s; simpl; [done|].
  assert (H : (visit_word false a w (f_mask s w) (s, None)).2 = None).
  { unfold StlFind.visit_word. generalize (word_hits c p parts n keys a w (f_mask s w)) at 1. intros l.
    assert (Hf : forall l s, (fold_left (hit_one false a (w * (mask_size (base_config c) * 8))) l (s, None)).2 = None).
    { clear. induction l as [|j l IH]; intros s; cbn [fold_left]; [done|].
      pose proof (hit_one_no_prev a (w * (mask_size (base_config c) * 8)) s j) as H.
      destruct (hit_one _ _ _ _ _) as [s' o]. simpl in H. subst o. apply IH. }
    specialize (Hf l s). destruct (fold_left _ l (s, None)) as [s' o]. exact Hf. }
  destruct (visit_word _ _ _ _ _) as [s' o]. simpl in H. subst o. apply IH.
Qed.

Lemma find_task_prefetch_lemma s t :
  find_task c p parts n keys value_stride with_values with_value_sizes lru_time true s t =
  find_task c p parts n keys value_stride with_values with_value_sizes lru_time false s t.
Proof.
  unfold find_task. set (a := task_part c n t). set (ws := task_words c parts n t).
  pose proof (visits_settle a ws (s, None)) as H.
  assert (E0 : settle a (s, None) = (s, None)) by (unfold settle; destruct s, with_values; done).
  rewrite E0 in H. pose proof (visits_no_prev a ws s) as Hp.
  destruct (fold_left (fun st w => visit_word true a w (f_mask st.1 w) st) ws (s, None)) as [s1 o1].
  destruct (fold_left (fun st w => visit_word false a w (f_mask st.1 w) st) ws (s, None)) as [s2 o2].
  simpl in Hp. subst o2. unfold settle in H. simpl in H. injection H as <-.
  rewrite andb_true_r, andb_false_r. destruct with_values; [done|by destruct s1].
Qed.
End Prefetch.

Section Interleave.
Context (c : STLContainerTableConfig) (p : Partitioner_t) (parts : list Partition) (n : Z) (keys : Z -> Z).
Context (value_stride : Z) (with_values with_value_sizes : bool) (lru_time : Z).
Context (s0 : find_state).
Local Abbreviation row := (max_value_size (base_config c)).
Local Abbreviation nb := (mask_size (base_config c) * 8).
Local Abbreviation num_parts := (Z.of_nat (length parts)).
Local Abbreviation home ij := (part_of p num_parts (keys ij)).
Local Abbreviation hm_size := (hm_size c n).
Context (Hnb : 0 < mask_size (base_config c)) (Hn : 0 < n) (Hrow : 0 < row) (Hstride : row <= value_stride).
Context (Hmask0 : forall w, in_u nb (f_mask s0 w)).

Local Abbreviation mask0 := (f_mask s0).

(** The key at [ij] is in the table. *)
Definition resident (ij : Z) : Prop := is_Some (slot_of parts (home ij) (keys ij)).
(** It still has to be found. *)
Definition newhit (ij : Z) : Prop :=
  0 <= ij < n /\ Z.testbit (mask0 (ij / nb)) (ij mod nb) = false /\ resident ij.
#[local] Instance newhit_dec ij : Decision (newhit ij).
Proof. unfold newhit, resident. apply _. Defined.

(** The bits a task of partition [a] is to set in word [w]. *)
Definition work (a w : Z) : list Z := filter (fun j => newhit (w * nb + j) /\ home (w * nb + j) = a) (seqZ 0 nb).

Lemma pos_split w j : 0 <= j < nb -> (w * nb + j) / nb = w /\ (w * nb + j) mod nb = j.
Proof.
  intros Hj. rewrite Z.div_add_l by lia. rewrite (Z.add_comm (w * nb) j), Z.mod_add by lia.
  rewrite Z.div_small, Z.mod_small by lia. lia.
Qed.

Lemma word_nonempty w : 0 <= w < hm_size -> 0 < n - w * nb.
Proof.
  unfold StlFind.hm_size, generic_bitmask.mask_size. intros Hw.
  pose proof (ceil_div_bounds n nb ltac:(lia) ltac:(lia)). nia.
Qed.

Lemma ij_word ij : 0 <= ij < n -> 0 <= ij / nb < hm_size /\ 0 <= ij mod nb < nb /\ ij = ij / nb * nb + ij mod nb.
Proof.
  intros Hij. pose proof (Z.mod_pos_bound ij nb ltac:(lia)). pose proof (Z.div_mod ij nb ltac:(lia)).
  assert (0 <= ij / nb) by (apply Z.div_pos; lia).
  unfold StlFind.hm_size, generic_bitmask.mask_size.
  pose proof (ceil_div_bounds n nb ltac:(lia) ltac:(lia)). nia.
Qed.

(** What a task of partition [a] may have seen when it loaded word [w]: for its
    own keys, the initial bits. *)
Definition snap_ok (J : list (Z * Z)) (a w m : Z) : Prop :=
  in_u nb m /\ forall j, 0 <= j < nb ->
    (Z.testbit (mask0 w) j = true -> Z.testbit m j = true) /\
    (Z.testbit m j = true -> Z.testbit (mask0 w) j = true \/
       (newhit (w * nb + j) /\ home (w * nb + j) <> a /\ (home (w * nb + j), w) ∈ J)).

Lemma snap_ok_mono J e a w m : snap_ok J a w m -> snap_ok (e :: J) a w m.
Proof.
  intros [Hm H]. split; [done|]. intros j Hj. destruct (H j Hj) as [H1 H2]. split; [done|].
  intros Hb. destruct (H2 Hb) as [?|(? & ? & ?)]; [by left|right]. split_and!; [done..|by right].
Qed.

Lemma word_hits_work J a w m :
  0 <= w < hm_size -> snap_ok J a w m -> word_hits c p parts n keys a w m = work a w.
Proof.
  intros Hw [Hm Hs]. unfold word_hits, work. pose proof (word_nonempty w Hw).
  rewrite miss_iteration_lemma by (done || lia). rewrite list_filter_filter.
  apply filter_ext_in. intros j [Hj0 Hj]%elem_of_seqZ. destruct (Hs j ltac:(lia)) as [H1 H2].
  destruct (pos_split w j ltac:(lia)) as [Ed Em]. unfold newhit, resident. rewrite Ed, Em.
  split.
  - intros ([Hp Hr] & Hlt & Hb). rewrite Hp in *. split_and!; auto; [nia|lia|].
    destruct (Z.testbit (mask0 w) j); [|done]. rewrite H1 in Hb by done. done.
  - intros ((Hij & Hb & Hr) & Hp). rewrite Hp in *. split_and!; auto; [lia|].
    destruct (Z.testbit m j) eqn:Em'; [|done]. destruct (H2 eq_refl) as [?|(_ & ? & _)]; congruence.
Qed.

Lemma work_elem a w j : j ∈ work a w <-> 0 <= j < nb /\ newhit (w * nb + j) /\ home (w * nb + j) = a.
Proof.
  unfold work. rewrite list_elem_of_filter, elem_of_seqZ. split; intros; intuition lia.
Qed.

Lemma work_nodup a w : NoDup (work a w).
Proof. apply NoDup_filter, NoDup_seqZ. Qed.

(** ** Effect of serving a list of hits *)

Local Abbreviation hit_one := (hit_one c parts keys value_stride with_values with_value_sizes lru_time).
Local Abbreviation row_for ij := (match slot_of parts (home ij) (keys ij) with Some q => row_at c parts (home ij) q | None => [] end).

Record served (w : Z) (js : list Z) (s s' : find_state) : Prop := {
  sv_mask : f_mask s' = f_mask s;
  sv_hits : f_hits s' = f_hits s;
  sv_rows : with_values = true -> forall ij, 0 <= ij ->
    (forall j, j ∈ js -> ij = w * nb + j -> mem_read (f_values s') (ij * value_stride) row = row_for ij) /\
    ((forall j, j ∈ js -> ij <> w * nb + j) ->
      mem_read (f_values s') (ij * value_stride) row = mem_read (f_values s) (ij * value_stride) row);
  sv_sizes : with_value_sizes = true -> forall ij,
    (forall j, j ∈ js -> ij = w * nb + j -> f_sizes s' ij = row) /\
    ((forall j, j ∈ js -> ij <> w * nb + j) -> f_sizes s' ij = f_sizes s ij)
}.

Lemma row_at_length a q part : parts !! Z.to_nat a = Some part -> Z.of_nat (length (row_at c parts a q)) = row.
Proof.
  intros E. unfold row_at, read_slot. rewrite E, length_fmap, length_seqZ. lia.
Qed.

Lemma slot_of_part a k q : slot_of parts a k = Some q -> exists part, parts !! Z.to_nat a = Some part.
Proof. unfold slot_of. destruct (parts !! Z.to_nat a); [eauto|done]. Qed.

Lemma stride_disjoint ij ij' : 0 <= ij -> 0 <= ij' -> ij <> ij' -> disjoint (ij * value_stride) row (ij' * value_stride) row.
Proof. unfold disjoint. intros. destruct (Z.lt_ge_cases ij ij'); [left|right]; nia. Qed.

Lemma hit_one_served a w j s :
  0 <= w -> 0 <= j < nb -> newhit (w * nb + j) -> home (w * nb + j) = a ->
  exists s', hit_one false a (w * nb) (s, None) j = (s', None) /\ served w [j] s s'.
Proof.
  intros Hw Hj (Hij & _ & [q Hq]) Ha. subst a. unfold StlFind.hit_one. rewrite Hq, andb_false_r.
  eexists. split; [done|]. destruct (slot_of_part _ _ _ Hq) as [part Ep].
  pose proof (row_at_length _ q _ Ep) as Hlen. constructor; simpl; [done|done| |].
  - intros Hv ij Hij0. rewrite Hv. unfold copy_row. simpl. split.
    + intros j' ->%list_elem_of_singleton ->. rewrite Hq.
      pose proof (store_bytes_same (f_values s) ((w * nb + j) * value_stride) (row_at c parts (home (w * nb + j)) q)) as E.
      rewrite Hlen in E. exact E.
    + intros Hne. apply store_bytes_disjoint. rewrite Hlen. apply stride_disjoint; [lia|lia|].
      intros E. eapply (Hne j); [by left|done].
  - intros Hv ij. rewrite Hv. split.
    + intros j' ->%list_elem_of_singleton ->. apply upd_eq.
    + intros Hne. apply upd_ne. apply Hne. by left.
Qed.

(** A cell written by one hit and then by others. *)
Lemma cell_cons {A} (w j ij : Z) (js : list Z) (want v0 v1 v2 : A) :
  j ∉ js ->
  (forall j', j' ∈ [j] -> ij = w * nb + j' -> v1 = want) /\ ((forall j', j' ∈ [j] -> ij <> w * nb + j') -> v1 = v0) ->
  (forall j', j' ∈ js -> ij = w * nb + j' -> v2 = want) /\ ((forall j', j' ∈ js -> ij <> w * nb + j') -> v2 = v1) ->
  (forall j', j' ∈ j :: js -> ij = w * nb + j' -> v2 = want) /\
  ((forall j', j' ∈ j :: js -> ij <> w * nb + j') -> v2 = v0).
Proof.
  intros Hnj [A5 A6] [B5 B6]. split.
  - intros j' Hj' E. destruct (decide (j' ∈ js)) as [Hin|Hnin]; [by eapply B5|].
    apply elem_of_cons in Hj' as [->|?]; [|done]. rewrite B6.
    + eapply A5; [by left|done].
    + intros j2 Hj2 E2. assert (j2 = j) by lia. congruence.
  - intros Hne. rewrite B6, A6; [done| |].
    + intros j' ->%list_elem_of_singleton. apply Hne. by left.
    + intros j' Hj'. apply Hne. by right.
Qed.

Lemma served_cons w j js s s1 s2 :
  j ∉ js -> served w [j] s s1 -> served w js s1 s2 -> served w (j :: js) s s2.
Proof.
  intros Hnj [A1 A2 A3 A4] [B1 B2 B3 B4]. constructor; [congruence|congruence| |].
  - intros Hv ij Hij. eapply cell_cons; eauto.
  - intros Hv ij. eapply cell_cons; eauto.
Qed.

Lemma hits_served a w js s :
  0 <= w -> NoDup js -> (forall j, j ∈ js -> 0 <= j < nb /\ newhit (w * nb + j) /\ home (w * nb + j) = a) ->
  exists s', fold_left (hit_one false a (w * nb)) js (s, None) = (s', None) /\ served w js s s'.
Proof.
  intros Hw. revert s. induction js as [|j js IH]; intros s Hnd Hjs.
  { exists s. split; [done|]. constructor; [done..| |]; intros _ ij; intros; split; try done;
      intros j Hj; by apply not_elem_of_nil in Hj. }
  apply NoDup_cons in Hnd as [Hnj Hnd]. destruct (Hjs j) as (Hj & Hnew & Hh); [by left|].
  destruct (hit_one_served a w j s Hw Hj Hnew Hh) as (s1 & E1 & S1).
  destruct (IH s1 Hnd) as (s2 & E2 & S2); [intros; apply Hjs; by right|].
  exists s2. cbn [fold_left]. rewrite E1. split; [done|]. by eapply served_cons.
Qed.

Lemma fold_set_spec js m :
  in_u nb m -> NoDup js -> (forall j, j ∈ js -> 0 <= j < nb /\ Z.testbit m j = false) ->
  let m' := fold_left (generic_bitmask.set nb) js m in
  in_u nb m' /\ popcount m' = popcount m + Z.of_nat (length js) /\
  forall i, 0 <= i -> Z.testbit m' i = true <-> Z.testbit m i = true \/ i ∈ js.
Proof.
  revert m. induction js as [|j js IH]; intros m Hm Hnd Hjs; simpl.
  { split_and!; [done|lia|]. intros i Hi. split; [by left|]. intros [?|Hx]; [done|by apply not_elem_of_nil in Hx]. }
  apply NoDup_cons in Hnd as [Hnj Hnd]. destruct (Hjs j) as [Hj Hb]; [by left|].
  destruct (IH (generic_bitmask.set nb m j)) as (I1 & I2 & I3).
  - apply set_in_u; lia || done.
  - done.
  - intros j' Hj'. destruct (Hjs j') as [? Hb']; [by right|]. split; [done|].
    rewrite set_testbit, Hb' by lia. apply Z.eqb_neq. intros ->. done.
  - split_and!; [done|rewrite I2, popcount_set by (done || lia); lia|].
    intros i Hi. rewrite I3, set_testbit, orb_true_iff, Z.eqb_eq, elem_of_cons by lia. tauto.
Qed.

(** ** The invariant *)

Definition served_at (J : list (Z * Z)) (ij : Z) : Prop := newhit ij /\ (home ij, ij / nb) ∈ J.
#[local] Instance served_at_dec J ij : Decision (served_at J ij).
Proof. unfold served_at. apply _. Defined.

Record find_inv (J : list (Z * Z)) (s : find_state) : Prop := {
  fi_mask : forall w, 0 <= w < hm_size -> in_u nb (f_mask s w) /\ forall j, 0 <= j < nb ->
    Z.testbit (f_mask s w) j = true <-> Z.testbit (mask0 w) j = true \/ served_at J (w * nb + j);
  fi_hits : f_hits s = f_hits s0 + Z.of_nat (length (filter (served_at J) (seqZ 0 n)));
  fi_rows : with_values = true -> forall ij, 0 <= ij < n ->
    mem_read (f_values s) (ij * value_stride) row =
      if decide (served_at J ij) then row_for ij else mem_read (f_values s0) (ij * value_stride) row;
  fi_sizes : with_value_sizes = true -> forall ij, 0 <= ij < n ->
    f_sizes s ij = if decide (served_at J ij) then row else f_sizes s0 ij
}.

Lemma find_inv_init : find_inv [] s0.
Proof.
  assert (Hno : forall ij, ~ served_at [] ij) by (intros ij [_ H]; by apply not_elem_of_nil in H).
  constructor.
  - intros w Hw. split; [apply Hmask0|]. intros j Hj. split; [by left|]. intros [?|H]; [done|by apply Hno in H].
  - rewrite filter_none by (intros x _; apply Hno). simpl. lia.
  - intros _ ij _. by rewrite decide_False by apply Hno.
  - intros _ ij _. by rewrite decide_False by apply Hno.
Qed.

Lemma load_snap_ok J s a w :
  find_inv J s -> 0 <= w < hm_size -> (a, w) ∉ J -> snap_ok J a w (f_mask s w).
Proof.
  intros Hi Hw HJ. destruct (fi_mask _ _ Hi w Hw) as [Hu Hm]. split; [done|]. intros j Hj.
  split; [intros Hb; apply Hm; auto|]. intros Hb. apply Hm in Hb as [?|[Hnew Hin] ]; [by left| |done].
  right. rewrite (proj1 (pos_split w j Hj)) in Hin. split_and!; [done| |done]. intros <-. done.
Qed.

(** What the words served so far are, after one more. *)
Lemma served_at_cons J a w ij : 0 <= ij ->
  served_at ((a, w) :: J) ij <-> served_at J ij \/ (ij / nb = w /\ ij mod nb ∈ work a w).
Proof.
  intros Hij. unfold served_at. rewrite elem_of_cons, work_elem.
  pose proof (Z.mod_pos_bound ij nb ltac:(lia)) as Hm. pose proof (Z.div_mod ij nb ltac:(lia)) as Hd.
  split.
  - intros [Hnew [ [= Ha Hw]|Hin] ]; [|by left]. right. split; [done|].
    replace (w * nb + ij mod nb) with ij by (rewrite <- Hw; lia). done.
  - intros [ [? ?]|(Hw & _ & Hnew & Ha)]; [by auto|].
    replace (w * nb + ij mod nb) with ij in * by (rewrite <- Hw; lia). split; [done|]. left. congruence.
Qed.

Lemma served_count J a w :
  0 <= w < hm_size -> (a, w) ∉ J ->
  Z.of_nat (length (filter (served_at ((a, w) :: J)) (seqZ 0 n))) =
  Z.of_nat (length (filter (served_at J) (seqZ 0 n))) + Z.of_nat (length (work a w)).
Proof.
  intros Hw HJ.
  assert (Hp : filter (served_at ((a, w) :: J)) (seqZ 0 n) ≡ₚ
     filter (served_at J) (seqZ 0 n) ++ ((fun j => w * nb + j) <$> work a w)).
  { apply NoDup_Permutation.
    - apply NoDup_filter, NoDup_seqZ.
    - apply NoDup_app. split; [apply NoDup_filter, NoDup_seqZ|]. split.
      + intros x [ [_ Hin] _]%list_elem_of_filter (j & -> & Hj)%list_elem_of_fmap.
        apply work_elem in Hj as (Hj & _ & Ha). rewrite (proj1 (pos_split w j Hj)), Ha in Hin. done.
      + apply NoDup_fmap_2; [|apply work_nodup]. intros x y E. lia.
    - intros x. rewrite elem_of_app, !list_elem_of_filter, list_elem_of_fmap, elem_of_seqZ. split.
      + intros [Hs Hx]. apply served_at_cons in Hs as [?|[Ew Hj] ]; [by auto| |lia]. right.
        exists (x mod nb). split; [|done]. pose proof (Z.div_mod x nb ltac:(lia)). rewrite <- Ew. lia.
      + intros [ [Hs Hx]|(j & -> & Hj)].
        * split; [|done]. apply served_at_cons; [lia|by left].
        * pose proof Hj as (Hj1 & (Hij & _) & _)%work_elem. split; [|lia].
          apply served_at_cons; [lia|]. right. by rewrite (proj1 (pos_split w j Hj1)), (proj2 (pos_split w j Hj1)). }
  rewrite Hp, length_app, length_fmap. lia.
Qed.

(** The contents of a cell of the output after one more word. *)
Lemma served_value {A} (J : list (Z * Z)) (a w ij : Z) (old init want new : A) :
  0 <= ij < n ->
  (forall j, j ∈ work a w -> ij = w * nb + j -> new = want) ->
  ((forall j, j ∈ work a w -> ij <> w * nb + j) -> new = old) ->
  old = (if decide (served_at J ij) then want else init) ->
  new = if decide (served_at ((a, w) :: J) ij) then want else init.
Proof.
  intros Hij R1 R2 Hold. destruct (ij_word ij Hij) as (_ & Hmod & Ej).
  pose proof (served_at_cons J a w ij ltac:(lia)) as Hiff.
  destruct (decide (ij / nb = w /\ ij mod nb ∈ work a w)) as [ [Ew Hj]|Hno].
  - rewrite decide_True by (apply Hiff; by right). eapply R1; [exact Hj|]. rewrite <- Ew. lia.
  - rewrite R2, Hold.
    + do 2 destruct (decide _); tauto || done.
    + intros j Hj E. apply Hno. pose proof Hj as (Hj' & _)%work_elem.
      subst ij. by rewrite (proj1 (pos_split w j Hj')), (proj2 (pos_split w j Hj')).
Qed.

Local Abbreviation visit_word := (visit_word c p parts n keys value_stride with_values with_value_sizes lru_time).

Lemma visit_inv J s a w m :
  find_inv J s -> 0 <= w < hm_size -> (a, w) ∉ J -> snap_ok J a w m ->
  find_inv ((a, w) :: J) (visit_word false a w m (s, None)).1.
Proof.
  intros Hi Hw HJ Hs. unfold StlFind.visit_word. rewrite (word_hits_work J) by done.
  destruct (hits_served a w (work a w) s) as (s' & -> & [S1 S2 S3 S4]); [lia|apply work_nodup|intros; by apply work_elem|].
  destruct Hs as [Hm Hbits].
  destruct (fold_set_spec (work a w) m Hm (work_nodup a w)) as (F1 & F2 & F3).
  { intros j (Hj & (_ & Hb & _) & Ha)%work_elem. split; [done|].
    destruct (pos_split w j Hj) as [Ed Em]. rewrite Ed, Em in Hb.
    destruct (Z.testbit m j) eqn:E; [|done]. destruct (Hbits j Hj) as [_ H2].
    destruct (H2 E) as [?|(_ & ? & _)]; congruence. }
  constructor; simpl.
  - intros w' Hw'. destruct (fi_mask _ _ Hi w' Hw') as [Hu Hmk]. rewrite S1.
    destruct (Z.eq_dec w' w) as [->|Hne].
    + rewrite upd_eq. split.
      { apply in_u_testbit; [lia|apply Z.lor_nonneg; split; [apply Hu|apply F1]|].
        intros i Hi'. by rewrite Z.lor_spec, !(testbit_in_u nb) by (done || lia). }
      intros j Hj. rewrite Z.lor_spec, orb_true_iff, F3, Hmk by lia.
      destruct (pos_split w j Hj) as [Ed Em].
      rewrite (served_at_cons J a w) by lia. rewrite Ed, Em.
      destruct (Hbits j Hj) as [_ H2]. split; [|tauto].
      intros [?|[Hb|?] ]; [tauto| |tauto]. destruct (H2 Hb) as [?|(? & _ & ?)]; [tauto|].
      right. left. split; [done|]. by rewrite Ed.
    + rewrite upd_ne by done. split; [done|]. intros j Hj. rewrite Hmk by done.
      rewrite (served_at_cons J a w) by lia. rewrite (proj1 (pos_split w' j Hj)). tauto.
  - rewrite S2, (fi_hits _ _ Hi), served_count by done. unfold generic_bitmask.count. rewrite F2. lia.
  - intros Hv ij Hij. destruct (S3 Hv ij ltac:(lia)) as [R1 R2].
    eapply served_value; [done|exact R1|exact R2|]. by apply (fi_rows _ _ Hi).
  - intros Hv ij Hij. destruct (S4 Hv ij) as [R1 R2].
    eapply served_value; [done|exact R1|exact R2|]. by apply (fi_sizes _ _ Hi).
Qed.

(** ** Runs *)

Local Abbreviation run_event := (run_event c p parts n keys value_stride with_values with_value_sizes lru_time).
Local Abbreviation is_visit := (is_visit c parts n).
Local Abbreviation schedule := (schedule c parts n).

Lemma run_schedule evs : forall L J s snap,
  schedule L J evs -> (forall e, e ∈ J -> e ∈ L) -> find_inv J s ->
  (forall e, e ∈ L -> e ∉ J -> is_visit e /\ exists m, snap !! e = Some m /\ snap_ok J e.1 e.2 m) ->
  exists J', find_inv J' (fold_left run_event evs (s, snap)).1 /\ forall e, is_visit e -> e ∈ J'.
Proof.
  induction evs as [|[e|e] evs IH]; intros L J s snap Hsch HJL Hinv Hsnap.
  - exists J. split; [done|]. exact Hsch.
  - destruct Hsch as (Hv & HnL & Hsch). cbn [fold_left StlFind.run_event].
    apply (IH (e :: L) J s (<[e := f_mask s e.2]> snap)); [done|intros; right; auto|done|].
    intros e' [->|Hin]%elem_of_cons HnJ.
    + split; [done|]. eexists. split; [apply lookup_insert_eq|].
      apply load_snap_ok; [done|apply Hv|by destruct e].
    + destruct (Hsnap e' Hin HnJ) as (Hv' & m & Em & Hok). split; [done|]. exists m. split; [|done].
      rewrite lookup_insert_ne; [done|]. intros ->. done.
  - destruct Hsch as (HL & HnJ & Hsch). cbn [fold_left StlFind.run_event].
    destruct (Hsnap e HL HnJ) as ( [Hv1 Hv2] & m & Em & Hok). rewrite Em. cbn [default].
    destruct e as [a w]. simpl in *.
    eapply (IH L ((a, w) :: J)); [done| |by apply visit_inv|].
    + intros e' [->|Hin]%elem_of_cons; auto.
    + intros e' Hin HnJ'. rewrite not_elem_of_cons in HnJ'. destruct HnJ' as [_ HnJ'].
      destruct (Hsnap e' Hin HnJ') as (Hv' & m' & Em' & Hok'). split; [done|]. exists m'. split; [done|].
      by apply snap_ok_mono.
Qed.

(** What a completed lookup leaves behind. *)
Record find_spec (s : find_state) : Prop := {
  fs_mask : forall ij, 0 <= ij < n ->
    Z.testbit (f_mask s (ij / nb)) (ij mod nb) = true <->
    Z.testbit (mask0 (ij / nb)) (ij mod nb) = true \/ resident ij;
  fs_hits : f_hits s = f_hits s0 + Z.of_nat (length (filter newhit (seqZ 0 n)));
  fs_rows : with_values = true -> forall ij, 0 <= ij < n ->
    mem_read (f_values s) (ij * value_stride) row =
      if decide (newhit ij) then row_for ij else mem_read (f_values s0) (ij * value_stride) row;
  fs_sizes : with_value_sizes = true -> forall ij, 0 <= ij < n ->
    f_sizes s ij = if decide (newhit ij) then row else f_sizes s0 ij
}.

Context (Hhome : forall k, 0 <= part_of p num_parts k < num_parts).

Lemma find_inv_spec J s : find_inv J s -> (forall e, is_visit e -> e ∈ J) -> find_spec s.
Proof.
  intros Hinv Hall.
  assert (Hs : forall ij, 0 <= ij < n -> served_at J ij <-> newhit ij).
  { intros ij Hij. unfold served_at. split; [by intros [? _]|]. intros Hnew. split; [done|].
    apply Hall. split; simpl; [apply Hhome|by apply ij_word]. }
  constructor.
  - intros ij Hij. destruct (ij_word ij Hij) as (Hw & Hj & E).
    rewrite (proj2 (fi_mask _ _ Hinv _ Hw) _ Hj). rewrite <- E, Hs by done. unfold newhit.
    destruct (Z.testbit (mask0 (ij / nb)) (ij mod nb)); intuition congruence.
  - rewrite (fi_hits _ _ Hinv). f_equal. f_equal. f_equal. apply filter_ext_in.
    intros x [? ?]%elem_of_seqZ. apply Hs. lia.
  - intros Hv ij Hij. rewrite (fi_rows _ _ Hinv Hv ij Hij). specialize (Hs ij Hij).
    do 2 destruct (decide _); tauto || done.
  - intros Hv ij Hij. rewrite (fi_sizes _ _ Hinv Hv ij Hij). specialize (Hs ij Hij).
    do 2 destruct (decide _); tauto || done.
Qed.

Lemma schedule_correct evs : schedule [] [] evs -> find_spec (fold_left run_event evs (s0, ∅)).1.
Proof.
  intros Hsch. destruct (run_schedule evs [] [] s0 ∅ Hsch) as (J & Hinv & Hall); [done|apply find_inv_init| |].
  - intros e He. by apply not_elem_of_nil in He.
  - by eapply find_inv_spec.
Qed.

(** ** The tasks cover the words *)

Context (Hmax : 0 < max_find_task_size c).
Local Abbreviation mx := (max_find_task_size c).
Local Abbreviation tpp := (num_tasks_per_part c n).
Local Abbreviation shift a := (Z.quot (hm_size * a) num_parts).

Lemma hm_size_pos : 0 < hm_size.
Proof.
  unfold StlFind.hm_size, generic_bitmask.mask_size.
  pose proof (ceil_div_bounds n nb ltac:(lia) ltac:(lia)). nia.
Qed.

Lemma tpp_bounds : mx * (tpp - 1) < hm_size <= mx * tpp.
Proof. pose proof hm_size_pos. apply (ceil_div_bounds hm_size mx); lia. Qed.

Lemma tpp_pos : 0 < tpp.
Proof. pose proof hm_size_pos. pose proof tpp_bounds. nia. Qed.

Lemma num_parts_pos : 0 < num_parts.
Proof. specialize (Hhome 0). lia. Qed.

Lemma shift_nonneg a : 0 <= a -> 0 <= shift a.
Proof.
  intros Ha. pose proof hm_size_pos. pose proof num_parts_pos. rewrite Z.quot_div_nonneg by nia. apply Z.div_pos; nia.
Qed.

(** The words of the task [t] of partition [a]. *)
Lemma task_words_elem a r w :
  0 <= a -> 0 <= r < tpp ->
  task_part c n (a * tpp + r) = a /\
  (w ∈ task_words c parts n (a * tpp + r) <->
   exists x, mx * r <= x < mx * r + mx /\ x < hm_size /\ w = (x + shift a) mod hm_size).
Proof.
  intros Ha Hr. pose proof hm_size_pos as HH.
  assert (Et : task_part c n (a * tpp + r) = a).
  { unfold task_part. rewrite Z.quot_div_nonneg by nia. rewrite Z.div_add_l, Z.div_small by lia. lia. }
  assert (Er : Z.rem (a * tpp + r) tpp = r).
  { rewrite Z.rem_mod_nonneg by nia. rewrite Z.add_comm, Z.mod_add, Z.mod_small by lia. done. }
  split; [done|]. unfold task_words. rewrite Et, Er. pose proof (shift_nonneg a Ha) as Hsh.
  assert (Hm : forall i, 0 <= i -> Z.rem (mx * r + shift a + i) hm_size = (mx * r + i + shift a) mod hm_size).
  { intros i Hi. rewrite Z.rem_mod_nonneg by nia. f_equal. lia. }
  rewrite list_elem_of_fmap. split.
  - intros (i & -> & Hi%elem_of_seqZ). exists (mx * r + i). rewrite Hm by lia. split_and!; [lia|lia|lia|done].
  - intros (x & Hx & Hlt & ->). exists (x - mx * r). rewrite Hm by lia. split; [f_equal; lia|].
    apply elem_of_seqZ. lia.
Qed.

Lemma mod_shift_inj x y sh :
  0 <= x < hm_size -> 0 <= y < hm_size -> (x + sh) mod hm_size = (y + sh) mod hm_size -> x = y.
Proof.
  intros Hx Hy E. rewrite <- (Z.mod_small x hm_size), <- (Z.mod_small y hm_size) by done.
  replace x with (x + sh - sh) by lia. replace y with (y + sh - sh) by lia.
  rewrite <- (Zminus_mod_idemp_l (x + sh)), <- (Zminus_mod_idemp_l (y + sh)). by rewrite E.
Qed.

Lemma task_words_nodup t : 0 <= t -> NoDup (task_words c parts n t).
Proof.
  intros Ht. pose proof tpp_pos. pose proof hm_size_pos.
  pose proof (shift_nonneg (Z.quot t tpp) ltac:(apply Z.quot_pos; lia)) as Hsh.
  pose proof (Z.rem_bound_pos t tpp ltac:(lia) ltac:(lia)) as Hr.
  apply NoDup_fmap_2_strong; [|apply NoDup_seqZ]. intros x y Hx%elem_of_seqZ Hy%elem_of_seqZ E.
  set (r := Z.rem t tpp) in *. unfold task_part in E. set (sh := Z.quot _ num_parts) in *.
  rewrite !Z.rem_mod_nonneg in E by nia.
  assert (mx * r + x = mx * r + y); [|lia].
  apply (mod_shift_inj _ _ sh); [nia|nia|].
  replace (mx * r + x + sh) with (mx * r + sh + x) by lia. by replace (mx * r + y + sh) with (mx * r + sh + y) by lia.
Qed.

Lemma task_split t : 0 <= t < num_tasks c parts n ->
  exists a r, t = a * tpp + r /\ 0 <= a < num_parts /\ 0 <= r < tpp.
Proof.
  intros Ht. pose proof tpp_pos. unfold num_tasks in Ht. exists (t / tpp), (t mod tpp).
  pose proof (Z.mod_pos_bound t tpp ltac:(lia)). pose proof (Z.div_mod t tpp ltac:(lia)).
  split; [lia|]. split; [|lia]. split; [apply Z.div_pos; lia|]. apply Z.div_lt_upper_bound; lia.
Qed.

(** All visits of all tasks, in task order. *)
Definition all_visits : list (Z * Z) :=
  t ← seqZ 0 (num_tasks c parts n); (fun w => (task_part c n t, w)) <$> task_words c parts n t.

Lemma all_visits_nodup : NoDup all_visits.
Proof.
  pose proof tpp_pos. pose proof hm_size_pos. apply NoDup_bind; [| |apply NoDup_seqZ].
  - intros t1 t2 y H1%elem_of_seqZ H2%elem_of_seqZ (w1 & -> & W1)%list_elem_of_fmap ( w2 & E & W2)%list_elem_of_fmap.
    destruct (task_split t1 ltac:(lia)) as (a1 & r1 & -> & Ha1 & Hr1).
    destruct (task_split t2 ltac:(lia)) as (a2 & r2 & -> & Ha2 & Hr2).
    destruct (task_words_elem a1 r1 w1 ltac:(lia) Hr1) as [P1 Q1].
    destruct (task_words_elem a2 r2 w2 ltac:(lia) Hr2) as [P2 Q2].
    rewrite P1, P2 in E. injection E as -> ->. apply Q1 in W1 as (x & Hx & Hxl & ->).
    apply Q2 in W2 as (y & Hy & Hyl & E). apply mod_shift_inj in E; [|nia|nia]. subst y.
    assert (r1 = r2) by nia. by subst.
  - intros t Ht%elem_of_seqZ. apply NoDup_fmap_2; [|apply task_words_nodup; lia]. by intros x y [= ->].
Qed.

Lemma all_visits_elem e : e ∈ all_visits <-> is_visit e.
Proof.
  pose proof tpp_pos. pose proof hm_size_pos. unfold all_visits. rewrite list_elem_of_bind. split.
  - intros (t & (w & -> & W)%list_elem_of_fmap & Ht%elem_of_seqZ).
    destruct (task_split t ltac:(lia)) as (a & r & -> & Ha & Hr).
    destruct (task_words_elem a r w ltac:(lia) Hr) as [P Q]. apply Q in W as (x & _ & _ & ->).
    rewrite P. split; simpl; [done|]. apply Z.mod_pos_bound. lia.
  - destruct e as [a w]. intros [Ha Hw]. simpl in *. set (x := (w - shift a) mod hm_size).
    assert (Hx : 0 <= x < hm_size) by (apply Z.mod_pos_bound; lia).
    pose proof (Z.div_mod x mx ltac:(lia)). pose proof (Z.mod_pos_bound x mx ltac:(lia)).
    assert (Hr : 0 <= x / mx < tpp).
    { split; [apply Z.div_pos; lia|]. apply Z.div_lt_upper_bound; [lia|]. pose proof tpp_bounds. lia. }
    destruct (task_words_elem a (x / mx) w ltac:(lia) Hr) as [P Q].
    exists (a * tpp + x / mx). split; [|apply elem_of_seqZ; unfold num_tasks; nia].
    apply list_elem_of_fmap. exists w. split; [by rewrite P|]. apply Q. exists x. split; [lia|]. split; [lia|].
    unfold x. rewrite Zplus_mod_idemp_l. replace (w - shift a + shift a) with w by lia. symmetry. by apply Z.mod_small.
Qed.

Definition sequential (l : list (Z * Z)) : list fevent := e ← l; [Load e; Join e].

Lemma sequential_schedule l : forall D,
  NoDup l -> (forall e, e ∈ l -> is_visit e /\ e ∉ D) -> (forall e, is_visit e -> e ∈ D \/ e ∈ l) ->
  schedule D D (sequential l).
Proof.
  induction l as [|e l IH]; intros D Hnd Hl Hall.
  - simpl. intros e He. destruct (Hall e He) as [?|H]; [done|by apply not_elem_of_nil in H].
  - apply NoDup_cons in Hnd as [Hne Hnd]. destruct (Hl e) as [Hv HnD]; [by left|]. simpl.
    split_and!; [done|done|by left|done|].
    apply IH; [done| |].
    + intros e' He'. destruct (Hl e') as [? ?]; [by right|]. split; [done|]. rewrite not_elem_of_cons.
      split; [|done]. intros ->. done.
    + intros e' He'. destruct (Hall e' He') as [?|[->|?]%elem_of_cons]; [left; by right|left; by left|by right].
Qed.

(** Running the tasks one after the other is one of the schedules. *)
Lemma task_run a ws : forall s snap, exists snap',
  fold_left run_event (sequential ((fun w => (a, w)) <$> ws)) (s, snap) =
  ((fold_left (fun st w => visit_word false a w (f_mask st.1 w) st) ws (s, None)).1, snap').
Proof.
  induction ws as [|w ws IH]; intros s snap; [by exists snap|].
  assert (Hp : (visit_word false a w (f_mask s w) (s, None)).2 = None)
    by exact (visits_no_prev c p parts n keys value_stride with_values with_value_sizes lru_time a [w] s).
  cbn [fmap list_fmap sequential mbind list_bind app fold_left StlFind.run_event].
  rewrite lookup_insert_eq. cbn [default fst snd fold_left]. unfold id.
  destruct (visit_word false a w (f_mask s w) (s, None)) as [s' o]. simpl in Hp. subst o.
  apply (IH s').
Qed.

Lemma sequential_app l1 l2 : sequential (l1 ++ l2) = sequential l1 ++ sequential l2.
Proof. apply bind_app. Qed.

Lemma tasks_run pf ts : forall s snap, exists snap',
  fold_left run_event (sequential (t ← ts; (fun w => (task_part c n t, w)) <$> task_words c parts n t)) (s, snap) =
  (fold_left (find_task c p parts n keys value_stride with_values with_value_sizes lru_time pf) ts s, snap').
Proof.
  induction ts as [|t ts IH]; intros s snap; [by exists snap|].
  cbn [mbind list_bind fold_left]. rewrite sequential_app, fold_left_app.
  destruct (task_run (task_part c n t) (task_words c parts n t) s snap) as [snap1 ->].
  assert (Et : find_task c p parts n keys value_stride with_values with_value_sizes lru_time pf s t =
    (fold_left (fun st w => visit_word false (task_part c n t) w (f_mask st.1 w) st) (task_words c parts n t) (s, None)).1).
  { destruct pf; [rewrite find_task_prefetch_lemma|]; unfold find_task; rewrite andb_false_r;
      by destruct (fold_left _ _ (s, None)). }
  rewrite Et. apply IH.
Qed.

Lemma tasks_correct pf :
  find_spec (fold_left (find_task c p parts n keys value_stride with_values with_value_sizes lru_time pf)
               (seqZ 0 (num_tasks c parts n)) s0).
Proof.
  destruct (tasks_run pf (seqZ 0 (num_tasks c parts n)) s0 ∅) as [snap' E].
  assert (Hs : schedule [] [] (sequential all_visits)).
  { apply sequential_schedule; [apply all_visits_nodup| |].
    - intros e He. split; [by apply all_visits_elem|apply not_elem_of_nil].
    - intros e He. right. by apply all_visits_elem. }
  apply schedule_correct in Hs. unfold all_visits in Hs. rewrite E in Hs. exact Hs.
Qed.

End Interleave.

(** ** Properties *)

Lemma config_facts c :
  stl_config_check c = Ok tt -> 0 < mask_size (base_config c) /\ 0 < max_find_task_size c.
Proof.
  unfold stl_config_check. intros (u & Hb & H)%obind_Ok. split.
  - unfold host_table_config_check in Hb.
    destruct (existsb (Z.eqb (mask_size (base_config c))) [1; 2; 4; 8]) eqn:E; [|discriminate].
    simpl in E. rewrite !orb_true_iff, !Z.eqb_eq in E. lia.
  - repeat (case_match; try discriminate). by apply Z.ltb_lt.
Qed.

(** C7. Concurrent lookups compose: under every interleaving of the loads and
    joins of all tasks on the shared hit mask, in which each partition's task
    loads and joins every word once, the lookup sets exactly the bits of the keys
    that are in the table (and keeps the bits set before), delivers the stored row
    and the row size of exactly the keys that were missing and are found, leaves
    the other output rows alone, and counts exactly those keys. *)
Theorem find_any_interleaving (c : STLContainerTableConfig) (p : Partitioner_t) (k : Z) (parts : list Partition)
    (n : Z) (keys : Z -> Z) (value_stride : Z) (with_values with_value_sizes : bool) (lru_time : Z)
    (s0 : find_state) (evs : list fevent) :
  stl_config_check c = Ok tt -> 0 <= k <= 62 -> table_inv c k parts -> 0 < n ->
  max_value_size (base_config c) <= value_stride ->
  (forall w, in_u (mask_size (base_config c) * 8) (f_mask s0 w)) ->
  schedule c parts n [] [] evs ->
  find_spec c p parts n keys value_stride with_values with_value_sizes s0
    (fold_left (run_event c p parts n keys value_stride with_values with_value_sizes lru_time) evs (s0, ∅)).1.
Proof.
  intros Hc Hk Hinv Hn Hst Hm Hs. destruct (config_facts c Hc) as [F1 F2]. destruct (check_facts c Hc) as (G1 & _).
  apply schedule_correct; auto. intros key. rewrite (ti_len _ _ _ Hinv). by apply part_of_range.
Qed.

Lemma find_returns (c : STLContainerTableConfig) (p : Partitioner_t) (k : Z) (parts : list Partition)
    (n : Z) (keys : Z -> Z) (value_stride : Z) (with_values with_value_sizes : bool) (lru_time counter : Z)
    (s0 : find_state) :
  stl_config_check c = Ok tt -> 0 <= k <= 62 -> table_inv c k parts -> 0 < n ->
  max_value_size (base_config c) <= value_stride ->
  (forall w, in_u (mask_size (base_config c) * 8) (f_mask s0 w)) -> f_hits s0 = 0 ->
  exists s, find c p parts n keys value_stride with_values with_value_sizes lru_time true (Some counter) s0
      = Ok (s, Some (counter + f_hits s)) /\
    find_spec c p parts n keys value_stride with_values with_value_sizes s0 s.
Proof.
  intros Hc Hk Hinv Hn Hst Hm H0. destruct (config_facts c Hc) as [F1 F2]. destruct (check_facts c Hc) as (G1 & _).
  unfold find, find_. rewrite (proj2 (Z.leb_gt n 0)), (proj2 (Z.leb_le _ _)) by lia. cbn [obind].
  assert (E0 : {| f_mask := f_mask s0; f_values := f_values s0; f_sizes := f_sizes s0; f_meta := f_meta s0; f_hits := 0 |} = s0).
  { destruct s0; simpl in *; by subst. }
  rewrite E0. eexists. split; [done|]. apply tasks_correct; auto.
  intros key. rewrite (ti_len _ _ _ Hinv). by apply part_of_range.
Qed.

(** A lookup returns and does what it should, with or without prefetching: it
    adds the number of keys found to the lookup counter and leaves mask, rows
    and sizes as specified, because the tasks visit every word of the mask
    exactly once per partition. *)
Theorem find_correct (c : STLContainerTableConfig) (p : Partitioner_t) (k : Z) (parts : list Partition)
    (n : Z) (keys : Z -> Z) (value_stride : Z) (with_values with_value_sizes : bool) (lru_time counter : Z)
    (s0 : find_state) :
  stl_config_check c = Ok tt -> 0 <= k <= 62 -> table_inv c k parts -> 0 < n ->
  max_value_size (base_config c) <= value_stride ->
  (forall w, in_u (mask_size (base_config c) * 8) (f_mask s0 w)) -> f_hits s0 = 0 ->
  exists s, find c p parts n keys value_stride with_values with_value_sizes lru_time true (Some counter) s0
      = Ok (s, Some (counter + f_hits s)) /\
    find_spec c p parts n keys value_stride with_values with_value_sizes s0 s.
Proof. apply find_returns. Qed.

(** Prefetching is invisible: a task that delays each copy until the next hit
    and flushes the last one at its end leaves the same state as a task that
    copies at once. *)
Theorem prefetch_equivalent (c : STLContainerTableConfig) (p : Partitioner_t) (parts : list Partition)
    (n : Z) (keys : Z -> Z) (value_stride : Z) (with_values with_value_sizes : bool) (lru_time : Z)
    (s : find_state) (task_idx : Z) :
  find_task c p parts n keys value_stride with_values with_value_sizes lru_time true s task_idx =
  find_task c p parts n keys value_stride with_values with_value_sizes lru_time false s task_idx.
Proof. apply find_task_prefetch_lemma. Qed.

(** ** Witnesses *)

Definition demo_find_state : find_state :=
  {| f_mask := fun _ => 0; f_values := fun _ => 0; f_sizes := fun _ => 0; f_meta := fun _ _ => 0; f_hits := 0 |}.

Lemma demo_masks w : in_u (mask_size (base_config demo_stl) * 8) (f_mask demo_find_state w).
Proof. split; vm_compute; [discriminate|reflexivity]. Qed.

Lemma find_any_interleaving_witness :
  f_mask (fold_left (run_event demo_stl Murmur3 demo_parts 2 (fun i => i + 5) 4 true true 0)
    [Load (0, 0); Load (1, 0); Join (1, 0); Join (0, 0)] (demo_find_state, ∅)).1 0 = 0 /\
  find_spec demo_stl Murmur3 demo_parts 2 (fun i => i + 5) 4 true true demo_find_state
    (fold_left (run_event demo_stl Murmur3 demo_parts 2 (fun i => i + 5) 4 true true 0)
      [Load (0, 0); Load (1, 0); Join (1, 0); Join (0, 0)] (demo_find_state, ∅)).1.
Proof.
  split; [vm_compute; reflexivity|].
  apply (find_any_interleaving demo_stl Murmur3 1 demo_parts 2 (fun i => i + 5) 4 true true 0 demo_find_state).
  - reflexivity.
  - lia.
  - apply demo_table_inv.
  - lia.
  - vm_compute. discriminate.
  - apply demo_masks.
  - simpl. unfold is_visit. change (hm_size demo_stl 2) with 1. simpl. split_and!; try lia; try set_solver.
    intros [a w] [H1 H2]. simpl in *. assert (w = 0) as -> by lia. assert (a = 0 \/ a = 1) as [-> | ->] by lia; set_solver.
Defined.

Lemma find_correct_witness :
  exists s, find demo_stl Murmur3 demo_parts 2 (fun i => i + 5) 4 true true 0 true (Some 7) demo_find_state
      = Ok (s, Some (7 + f_hits s)) /\
    find_spec demo_stl Murmur3 demo_parts 2 (fun i => i + 5) 4 true true demo_find_state s.
Proof.
  apply (find_correct demo_stl Murmur3 1).
  - reflexivity.
  - lia.
  - apply demo_table_inv.
  - lia.
  - vm_compute. discriminate.
  - apply demo_masks.
  - reflexivity.
Defined.
