(* ===== verification/FlatMapTables.v ===== *)
(** * Host tables over flat hash maps: [plugins/abseil/src/abseil_flat_map_table.cpp]
    and [plugins/phmap/src/phmap_flat_map_table.cpp]

    Both tables are [STLContainerTable] over another map from keys to slots: they
    add an initial capacity and a factory. The operations are those of [StlTable]
    and [StlFind], whose theorems hold for every order in which the map is
    traversed. *)
From S2P Require Import Prelude BitOps Float32 DataTypes HostTable StlTable.

Module Abseil.
Record AbseilFlatMapTableConfig := { stl_config : STLContainerTableConfig; initial_capacity : Z }.

Definition check (c : AbseilFlatMapTableConfig) : outcome unit :=
  let! _ := stl_config_check (stl_config c) in
  check! (0 <=? initial_capacity c) as "initial_capacity >= 0" in
  Ok tt.

(** The constructor: the check of the base class, then the partitions, whose maps
    reserve memory and stay empty. *)
Definition AbseilFlatMapTable (c : AbseilFlatMapTableConfig) (p : Partitioner_t) : outcome (Partitioner_t * list Partition) :=
  let! _ := check c in
  Ok (p, replicate (Z.to_nat (num_partitions (stl_config c))) new_partition).

(** The template arguments picked by the factory (every feature macro enabled). *)
Definition make_abseil_flat_map_table_3 (c : AbseilFlatMapTableConfig) : outcome (Partitioner_t * list Partition) :=
  if num_partitions (stl_config c) =? 1 then AbseilFlatMapTable c AlwaysZero
  else match partitioner (stl_config c) with
       | AlwaysZero => Throw "config.partitioner is out of bounds!"
       | p => AbseilFlatMapTable c p
       end.
Definition make_abseil_flat_map_table_2 (c : AbseilFlatMapTableConfig)
  : outcome (OverflowHandler_t * (Partitioner_t * list Partition)) :=
  let! t := make_abseil_flat_map_table_3 c in Ok (handler (overflow_policy (stl_config c)), t).
Definition make_abseil_flat_map_table_1 (c : AbseilFlatMapTableConfig)
  : outcome (OverflowHandler_t * (Partitioner_t * list Partition)) :=
  if existsb (Z.eqb (key_size (base_config (stl_config c)))) [1; 2; 4; 8] then make_abseil_flat_map_table_2 c
  else Throw "config.key_size is out of bounds!".
Definition abseil_produce (c : AbseilFlatMapTableConfig) : outcome (OverflowHandler_t * (Partitioner_t * list Partition)) :=
  if existsb (Z.eqb (mask_size (base_config (stl_config c)))) [1; 2; 4; 8] then make_abseil_flat_map_table_1 c
  else Throw "config.mask_size is out of bounds!".
End Abseil.

Module PHMap.
Record PHMapFlatMapTableConfig := { stl_config : STLContainerTableConfig; initial_capacity : Z }.

Definition check (c : PHMapFlatMapTableConfig) : outcome unit :=
  let! _ := stl_config_check (stl_config c) in
  check! (0 <=? initial_capacity c) as "initial_capacity >= 0" in
  Ok tt.

Definition PHMapFlatMapTable (c : PHMapFlatMapTableConfig) (p : Partitioner_t) : outcome (Partitioner_t * list Partition) :=
  let! _ := check c in
  Ok (p, replicate (Z.to_nat (num_partitions (stl_config c))) new_partition).

Definition make_phmap_flat_map_table_3 (c : PHMapFlatMapTableConfig) : outcome (Partitioner_t * list Partition) :=
  if num_partitions (stl_config c) =? 1 then PHMapFlatMapTable c AlwaysZero
  else match partitioner (stl_config c) with
       | AlwaysZero => Throw "config.partitioner is out of bounds!"
       | p => PHMapFlatMapTable c p
       end.
Definition make_phmap_flat_map_table_2 (c : PHMapFlatMapTableConfig)
  : outcome (OverflowHandler_t * (Partitioner_t * list Partition)) :=
  let! t := make_phmap_flat_map_table_3 c in Ok (handler (overflow_policy (stl_config c)), t).
Definition make_phmap_flat_map_table_1 (c : PHMapFlatMapTableConfig)
  : outcome (OverflowHandler_t * (Partitioner_t * list Partition)) :=
  if existsb (Z.eqb (key_size (base_config (stl_config c)))) [1; 2; 4; 8] then make_phmap_flat_map_table_2 c
  else Throw "config.key_size is out of bounds!".
Definition phmap_produce (c : PHMapFlatMapTableConfig) : outcome (OverflowHandler_t * (Partitioner_t * list Partition)) :=
  if existsb (Z.eqb (mask_size (base_config (stl_config c)))) [1; 2; 4; 8] then make_phmap_flat_map_table_1 c
  else Throw "config.mask_size is out of bounds!".
End PHMap.

(** ** What the factories build *)

(** A checked table of new partitions: the configuration passes, there are as many
    partitions as configured, all empty. *)
Definition fresh_table (c : STLContainerTableConfig) (h : OverflowHandler_t) (parts : list Partition) : Prop :=
  stl_config_check c = Ok tt /\ h = handler (overflow_policy c) /\
  parts = replicate (Z.to_nat (num_partitions c)) new_partition.

Lemma abseil_fresh c h p parts :
  Abseil.abseil_produce c = Ok (h, (p, parts)) -> fresh_table (Abseil.stl_config c) h parts.
Proof.
  unfold Abseil.abseil_produce, Abseil.make_abseil_flat_map_table_1, Abseil.make_abseil_flat_map_table_2.
  destruct (existsb _ _); [|done]. destruct (existsb _ _); [|done]. intros (t & Ht & [= <- ->])%obind_Ok.
  assert (forall q, Abseil.AbseilFlatMapTable c q = Ok (p, parts) -> fresh_table (Abseil.stl_config c) (handler (overflow_policy (Abseil.stl_config c))) parts) as Hf.
  { intros q (u & Hc & [= <- <-])%obind_Ok. apply obind_Ok in Hc as ([] & Hc & _). done. }
  revert Ht. unfold Abseil.make_abseil_flat_map_table_3. destruct (_ =? 1); [apply Hf|].
  destruct (partitioner _); [done|apply Hf..].
Qed.

Lemma phmap_fresh c h p parts :
  PHMap.phmap_produce c = Ok (h, (p, parts)) -> fresh_table (PHMap.stl_config c) h parts.
Proof.
  unfold PHMap.phmap_produce, PHMap.make_phmap_flat_map_table_1, PHMap.make_phmap_flat_map_table_2.
  destruct (existsb _ _); [|done]. destruct (existsb _ _); [|done]. intros (t & Ht & [= <- ->])%obind_Ok.
  assert (forall q, PHMap.PHMapFlatMapTable c q = Ok (p, parts) -> fresh_table (PHMap.stl_config c) (handler (overflow_policy (PHMap.stl_config c))) parts) as Hf.
  { intros q (u & Hc & [= <- <-])%obind_Ok. apply obind_Ok in Hc as ([] & Hc & _). done. }
  revert Ht. unfold PHMap.make_phmap_flat_map_table_3. destruct (_ =? 1); [apply Hf|].
  destruct (partitioner _); [done|apply Hf..].
Qed.

Lemma fresh_table_inv c h parts :
  fresh_table c h parts -> num_partitions c < 2 ^ 63 -> exists n, 0 <= n <= 62 /\ table_inv c n parts.
Proof.
  intros (Hc & _ & ->) Hlt. destruct (check_facts c Hc) as (_ & _ & Hb & _). apply has_single_bit_spec in Hb as (n & Hn & En).
  exists n. assert (n < 63) by (apply (Z.pow_lt_mono_r_iff 2); lia).
  split; [lia|]. split; [rewrite length_replicate, En; pose proof (pow2_pos n Hn); lia|].
  intros j part [-> _]%lookup_replicate. apply new_partition_inv.
Qed.

Lemma fresh_empty c h p parts k : fresh_table c h parts -> stl_lookup c p parts k = None.
Proof.
  intros (_ & _ & ->). unfold stl_lookup. destruct (_ !! _) as [part|] eqn:E; [|done].
  apply lookup_replicate in E as [-> _]. done.
Qed.

(** A batch inserted into a fresh table that has room for it is there afterwards. *)
Lemma fresh_insert c h p parts umap_order shuffle keys stride lru values r :
  fresh_table c h parts -> (forall l, umap_order l ≡ₚ l) -> (forall l, shuffle l ≡ₚ l) ->
  num_partitions c < 2 ^ 63 -> slot_stride c <= allocation_rate c -> resolution_of c = Ok r -> 0 <= r ->
  Z.of_nat (length keys) <= overflow_margin (overflow_policy c) ->
  exists parts', stl_insert c p umap_order shuffle keys stride (max_value_size (base_config c)) lru values parts = Ok parts' /\
    forall k, stl_lookup c p parts' k =
      (fun i => values <$> seqZ (i * stride) (max_value_size (base_config c))) <$> batch_write keys k.
Proof.
  intros Hf Ho Hs Hlt Ha Hr H0 Hfit. destruct (fresh_table_inv c h parts Hf Hlt) as (n & Hn & Hinv). pose proof Hf as (Hc & _ & Ep).
  destruct (check_facts c Hc) as (F1 & F2 & _). assert (0 < slot_stride c) as F3 by lia.
  destruct (insert_table c p n umap_order shuffle Ho Hs F1 F2 (spb_pos c F3 Ha) Hn parts keys stride lru values r Hinv Hr H0)
    as (parts' & E & _ & _ & Hk).
  exists parts'. split; [done|]. intros k. destruct (Hk k) as [_ ->].
  - destruct (batch_write keys k); [done|]. by eapply fresh_empty.
  - intros j part Ej. rewrite Ep in Ej. apply lookup_replicate in Ej as [-> _]. cbn [slot_map new_partition]. rewrite map_size_empty. lia.
Qed.

(** The tables of the Abseil and the parallel-hashmap plugins work: what either
    factory produces is a checked, empty table, and a batch that fits the overflow
    margin is found after its insert, every key with the row of its last
    occurrence, whatever the traversal order of the hash map. *)
Theorem flat_map_tables_insert (ca : Abseil.AbseilFlatMapTableConfig) (cp : PHMap.PHMapFlatMapTableConfig)
    (h : OverflowHandler_t) (p : Partitioner_t) (parts : list Partition) (umap_order shuffle : list (Z * ptr) -> list (Z * ptr))
    (keys : list Z) (stride lru r : Z) (values : memory) (c : STLContainerTableConfig) :
  (Abseil.abseil_produce ca = Ok (h, (p, parts)) /\ c = Abseil.stl_config ca) \/
  (PHMap.phmap_produce cp = Ok (h, (p, parts)) /\ c = PHMap.stl_config cp) ->
  (forall l, umap_order l ≡ₚ l) -> (forall l, shuffle l ≡ₚ l) ->
  num_partitions c < 2 ^ 63 -> slot_stride c <= allocation_rate c -> resolution_of c = Ok r -> 0 <= r ->
  Z.of_nat (length keys) <= overflow_margin (overflow_policy c) ->
  (forall k, stl_lookup c p parts k = None) /\
  exists parts', stl_insert c p umap_order shuffle keys stride (max_value_size (base_config c)) lru values parts = Ok parts' /\
    forall k, stl_lookup c p parts' k =
      (fun i => values <$> seqZ (i * stride) (max_value_size (base_config c))) <$> batch_write keys k.
Proof.
  intros Hprod Ho Hs Hlt Ha Hr H0 Hfit.
  assert (fresh_table c h parts) as Hf by (destruct Hprod as [[E ->]|[E ->]]; [by eapply abseil_fresh|by eapply phmap_fresh]).
  split; [intros k; by eapply fresh_empty|]. by eapply fresh_insert.
Qed.

Lemma flat_map_tables_insert_witness :
  exists parts', stl_insert demo_stl Murmur3 id id [5; 9; 5] 4 4 0 demo_values demo_parts = Ok parts' /\
    stl_lookup demo_stl Murmur3 parts' 5 = Some [8; 9; 10; 11] /\ stl_lookup demo_stl Murmur3 parts' 6 = None.
Proof.
  destruct (flat_map_tables_insert (Abseil.Build_AbseilFlatMapTableConfig demo_stl 16) (PHMap.Build_PHMapFlatMapTableConfig demo_stl 16)
    EvictLRU Murmur3 demo_parts id id [5; 9; 5] 4 0 2 demo_values demo_stl) as [_ (parts' & E & Hk)].
  - left. split; reflexivity.
  - done.
  - done.
  - vm_compute. reflexivity.
  - vm_compute. discriminate.
  - reflexivity.
  - lia.
  - vm_compute. discriminate.
  - exists parts'. split; [exact E|]. split; [rewrite (Hk 5)|rewrite (Hk 6)]; reflexivity.
Defined.
