(* ===== verification/RocksTable.v ===== *)
(** * The RocksDB host table: [plugins/rocksdb/src/rocksdb_table.cpp] and
    [plugins/rocksdb/src/rocksdb_utils.cpp]

    [RocksDBTable] keeps its rows in a column family of a RocksDB database. The
    database is a parameter with its documented behaviour (class [RocksDB] and
    [RocksLaws]); the table's own code is the batching of writes and of lookups,
    the hit mask, and the choice of what is written. An operation that modifies
    returns the database it leaves also when it throws. *)
From stdpp Require Import strings sorting.
From S2P Require Import Prelude BitOps Float32 DataTypes HostTable.

Record RocksDBTableConfig := {
  rt_base : HostTableConfig;
  max_batch_size : Z;
  column_family : string;
  verify_checksums : bool
}.

(** [RocksDBTableConfig::check]. *)
Definition rocks_config_check (c : RocksDBTableConfig) : outcome unit :=
  let! _ := host_table_config_check (rt_base c) in
  check! (0 <? max_batch_size c) && (Z.rem (max_batch_size c) (mask_size (rt_base c)) =? 0)
    as "max_batch_size > 0 && max_batch_size % mask_size == 0" in
  check! negb (bool_decide (column_family c = EmptyString)) as "!column_family.empty()" in
  Ok tt.

(** ** The database

    The operations the table calls on its column family. A [WriteBatch] is the
    list of the records added to it. [Some e] is a status that is not OK. *)

Inductive batch_op := Put (k v : list Z) | Delete (k : list Z).
Inductive get_status := Found (v : list Z) | NotFound | Failed (e : string).

Class RocksDB (db : Type) := {
  Append : list batch_op -> batch_op -> option string;
  Write : db -> list batch_op -> db * option string;
  MultiGet : db -> list (list Z) -> list get_status;
  DeleteRange : db -> list Z -> list Z -> db * option string;
  Iterate : db -> list (list Z * list Z);
  EstimateNumKeys : db -> string + Z
}.

(** [NVE_CHECK_] of a status. *)
Definition check_status (st : option string) : outcome unit :=
  match st with None => Ok tt | Some e => Throw e end.

(** The order of the keys: bytewise, a proper prefix first. *)
Fixpoint bytes_lt (a b : list Z) : bool :=
  match a, b with
  | _, [] => false
  | [], _ :: _ => true
  | x :: a, y :: b => (x <? y) || ((x =? y) && bytes_lt a b)
  end.

(** What a batch does to the contents, record by record. *)
Definition apply_op (m : gmap (list Z) (list Z)) (op : batch_op) : gmap (list Z) (list Z) :=
  match op with Put k v => <[k := v]> m | Delete k => delete k m end.

Definition op_fits (op : batch_op) : Prop :=
  match op with
  | Put k v => Z.of_nat (length k) < 2 ^ 32 /\ Z.of_nat (length v) < 2 ^ 32
  | Delete k => Z.of_nat (length k) < 2 ^ 32
  end.

Definition get_of (m : gmap (list Z) (list Z)) (k : list Z) : get_status :=
  match m !! k with Some v => Found v | None => NotFound end.

Definition in_key_range (lo hi k : list Z) : bool := negb (bytes_lt k lo) && bytes_lt k hi.

(** The documented behaviour: records are refused only for their size; a batch
    is applied atomically and in order; lookups return what is stored;
    [DeleteRange] removes the keys of a half-open range; an iterator visits
    every entry once. [writable] holds of a database that was not opened
    read-only and accepts writes, [readable] of one whose reads succeed. *)
Class RocksLaws (db : Type) `{RocksDB db} (contents : db -> gmap (list Z) (list Z))
    (readable writable : db -> Prop) : Prop := {
  append_ok b op : op_fits op -> Append b op = None;
  write_ok d ops d' : Write d ops = (d', None) -> contents d' = fold_left apply_op ops (contents d);
  write_failed d ops d' e : Write d ops = (d', Some e) -> contents d' = contents d;
  write_writable d ops : writable d -> exists d', Write d ops = (d', None) /\ writable d';
  write_readable d ops : readable d -> readable (Write d ops).1;
  multi_get d ks : readable d -> MultiGet d ks = get_of (contents d) <$> ks;
  delete_range_ok d lo hi d' : DeleteRange d lo hi = (d', None) ->
    contents d' = filter (fun kv => in_key_range lo hi kv.1 = false) (contents d);
  delete_range_writable d lo hi : writable d -> exists d', DeleteRange d lo hi = (d', None);
  iterate_all d : readable d -> Iterate d ≡ₚ map_to_list (contents d)
}.

(** Outputs of a lookup: hit mask, rows, sizes of the rows, number of hits. *)
Record rocks_find := {
  rf_mask : Z -> Z;
  rf_values : memory;
  rf_sizes : Z -> Z;
  rf_hits : Z
}.

(** The local variables of [process_batch]: [prev_i] and [mask]. *)
Record pb_state := { pb_find : rocks_find; prev_i : Z; pb_mask : Z }.

Section Table.
Context {db : Type} `{RocksDB db}.
Variable c : RocksDBTableConfig.
Local Abbreviation nb := (mask_size (rt_base c) * 8).
Local Abbreviation ksize := (key_size (rt_base c)).
Local Abbreviation row := (max_value_size (rt_base c)).

(** The key slice of position [i]. *)
Definition key_slice (keys : memory) (i : Z) : list Z := mem_read keys (i * ksize) ksize.

(** ** Batched writes

    The loop shared by [erase], [insert], [update] and [update_accumulate]: the
    batch is written when it has [max] records, and the rest at the end. *)
Fixpoint write_loop (max : Z) (ops batch : list batch_op) (d : db) : db * outcome unit :=
  match ops with
  | [] =>
      match batch with
      | [] => (d, Ok tt)
      | _ => let '(d, st) := Write d batch in (d, check_status st)
      end
  | op :: ops =>
      match Append batch op with
      | Some e => (d, Throw e)
      | None =>
          let batch := batch ++ [op] in
          if Z.of_nat (length batch) <? max then write_loop max ops batch d
          else
            let '(d, st) := Write d batch in
            match st with
            | None => write_loop max ops [] d
            | Some e => (d, Throw e)
            end
      end
  end.

(** [clear]. *)
Definition rocks_clear (d : db) : db * outcome unit :=
  let '(d, st) := DeleteRange d [] [126] in (d, check_status st).

(** [erase]. *)
Definition rocks_erase (n : Z) (keys : option memory) (d : db) : db * outcome unit :=
  if n <=? 0 then (d, Ok tt)
  else match keys with
       | None => (d, Undef "keys of a null buffer")
       | Some keys =>
           write_loop (Z.min n (max_batch_size c)) ((fun i => Delete (key_slice keys i)) <$> seqZ 0 n) [] d
       end.

Definition value_size_ok (value_size : Z) : bool := (0 <=? value_size) && (value_size <=? row).

(** [insert]. *)
Definition rocks_insert (n : Z) (keys : option memory) (value_stride value_size : Z) (values : option memory)
    (d : db) : db * outcome unit :=
  if n <=? 0 then (d, Ok tt)
  else if negb (value_size_ok value_size) then (d, Throw "value_size >= 0 && value_size <= config.max_value_size")
  else match keys, values with
       | Some keys, Some values =>
           write_loop (Z.min n (max_batch_size c))
             ((fun i => Put (key_slice keys i) (mem_read values (i * value_stride) value_size)) <$> seqZ 0 n) [] d
       | _, _ => (d, Undef "keys or values of a null buffer")
       end.

(** [size]. *)
Definition rocks_size (exact : bool) (d : db) : outcome Z :=
  if exact then Ok (Z.of_nat (length (Iterate d)))
  else match EstimateNumKeys d with inl e => Throw e | inr n => Ok (wraps 64 n) end.

(** ** Batched lookups *)

Section Find.
Variables with_values with_value_sizes : bool.       (* HasValues, HasValueSizes *)
Variable n : Z.
Variable keys : memory.
Variable value_stride : Z.

Definition store_word (s : rocks_find) (i mask : Z) : rocks_find :=
  {| rf_mask := upd (rf_mask s) (generic_bitmask.word_of nb i) mask; rf_values := rf_values s;
     rf_sizes := rf_sizes s; rf_hits := rf_hits s |}.

(** The row, its size and the count of a hit at position [ij]. *)
Definition serve_row (ij : Z) (v : list Z) (s : rocks_find) : rocks_find :=
  {| rf_mask := rf_mask s;
     rf_values := if with_values then store_bytes (rf_values s) (ij * value_stride) v else rf_values s;
     rf_sizes := if with_value_sizes then upd (rf_sizes s) ij (Z.of_nat (length v)) else rf_sizes s;
     rf_hits := rf_hits s + 1 |}.

(** The body of the loop of [process_batch]: the position is recovered from the
    key's address, the word of the mask is kept in [mask] while it is the same. *)
Definition process_one (st : pb_state) (ks : Z * get_status) : outcome pb_state :=
  match ks.2 with
  | NotFound => Ok st
  | Failed e => Throw e
  | Found v =>
      let ij := Z.quot ks.1 ksize in
      let i := Z.land ij (Z.lnot (nb - 1)) in
      let j := Z.land ij (nb - 1) in
      let st :=
        if i =? prev_i st then st
        else
          let s := if 0 <=? prev_i st then store_word (pb_find st) (prev_i st) (pb_mask st) else pb_find st in
          {| pb_find := s; prev_i := i; pb_mask := rf_mask s (generic_bitmask.word_of nb i) |} in
      let mask := generic_bitmask.set nb (pb_mask st) j in
      check! negb with_values || (Z.of_nat (length v) <=? value_stride) as "value_size <= value_stride" in
      Ok {| pb_find := serve_row ij v (pb_find st); prev_i := prev_i st; pb_mask := mask |}
  end.

(** [process_batch] on the views of the keys, their offsets from [keys]. *)
Definition process_batch (d : db) (k_views : list Z) (s : rocks_find) : outcome rocks_find :=
  let statuses := MultiGet d ((fun a => mem_read keys a ksize) <$> k_views) in
  let! st := ofoldl process_one (zip k_views statuses) {| pb_find := s; prev_i := -1; pb_mask := 0 |} in
  Ok (if 0 <=? prev_i st then store_word (pb_find st) (prev_i st) (pb_mask st) else pb_find st).

(** [k_views[batch_size++].data_ = &keys[ij * key_size]]. *)
Definition push_view (max : Z) (k_views : list Z) (ij : Z) : outcome (list Z) :=
  if Z.of_nat (length k_views) <? max then Ok (k_views ++ [ij * ksize]) else Undef "k_views out of bounds".

(** One word of the mask. *)
Definition find_word (d : db) (max : Z) (st : rocks_find * list Z) (w : Z) : outcome (rocks_find * list Z) :=
  let '(s, k_views) := st in
  let i := w * nb in
  let it := generic_bitmask.clip nb (generic_bitmask.invert nb (rf_mask s w)) (n - i) in
  let! st :=
    if max <? Z.of_nat (length k_views) + generic_bitmask.count it
    then let! s := process_batch d k_views s in Ok (s, [])
    else Ok (s, k_views) in
  match generic_bitmask.iterate nb (S (Z.to_nat nb)) it with
  | None => Undef "fuel"
  | Some js => let! k_views := ofoldl (push_view max) ((fun j => i + j) <$> js) st.2 in Ok (st.1, k_views)
  end.

(** [find_]; the number of hits is counted from zero. *)
Definition rocks_find_ (d : db) (s : rocks_find) : outcome rocks_find :=
  let s := {| rf_mask := rf_mask s; rf_values := rf_values s; rf_sizes := rf_sizes s; rf_hits := 0 |} in
  let max := Z.min n (max_batch_size c) in
  let! st := ofoldl (find_word d max) (seqZ 0 (generic_bitmask.mask_size nb n)) (s, []) in
  match st.2 with
  | [] => Ok st.1
  | k_views => process_batch d k_views st.1
  end.
End Find.

(** [find]: the buffers that are present select the instance of [find_]. *)
Definition rocks_find_op (n : Z) (keys : option memory) (with_mask : bool) (value_stride : Z)
    (with_values with_value_sizes : bool) (counter : option Z) (d : db) (s : rocks_find)
  : outcome (rocks_find * option Z) :=
  if n <=? 0 then Ok (s, counter)
  else match keys with
       | None => Undef "keys of a null buffer"
       | Some keys =>
           if negb with_mask then Undef "load through a null hit mask"
           else
             let! s := rocks_find_ with_values with_value_sizes n keys value_stride d s in
             match counter with
             | None => Throw "Invalid key counter"
             | Some k => Ok (s, Some (k + rf_hits s))
             end
       end.

(** ** Updates: a lookup, then the rows of the hits *)

Definition no_hits : rocks_find :=
  {| rf_mask := fun _ => 0; rf_values := fun _ => 0; rf_sizes := fun _ => 0; rf_hits := 0 |}.

(** The positions of the set bits of a mask for [n] keys, in the order of the
    loops over its words and their bits. *)
Definition hit_word (mask : Z -> Z) (l : list Z) (w : Z) : outcome (list Z) :=
  match generic_bitmask.iterate nb (S (Z.to_nat nb)) (mask w) with
  | None => Undef "fuel"
  | Some js => Ok (l ++ ((fun j => w * nb + j) <$> js))
  end.
Definition hit_positions (n : Z) (mask : Z -> Z) : outcome (list Z) :=
  ofoldl (hit_word mask) (seqZ 0 (generic_bitmask.mask_size nb n)) [].

(** The writes once the positions are known. *)
Definition write_positions (ps : outcome (list Z)) (ops : list Z -> list batch_op) (d : db) : db * outcome unit :=
  match ps with
  | Ok l => write_loop (max_batch_size c) (ops l) [] d
  | Throw e => (d, Throw e)
  | Undef w => (d, Undef w)
  end.

(** [update]. *)
Definition rocks_update (n : Z) (keys : option memory) (value_stride value_size : Z) (values : option memory)
    (d : db) : db * outcome unit :=
  if n <=? 0 then (d, Ok tt)
  else match keys with
       | None => (d, Undef "keys of a null buffer")
       | Some keys =>
           match rocks_find_ false false n keys value_stride d no_hits with
           | Throw e => (d, Throw e)
           | Undef w => (d, Undef w)
           | Ok s =>
               if rf_hits s =? 0 then (d, Ok tt)
               else if negb (value_size_ok value_size)
               then (d, Throw "value_size >= 0 && value_size <= config.max_value_size")
               else match values with
                    | None => (d, Undef "values of a null buffer")
                    | Some values =>
                        write_positions (hit_positions n (rf_mask s))
                          (map (fun ij => Put (key_slice keys ij) (mem_read values (ij * value_stride) value_size))) d
                    end
           end
       end.

(** The body of the loop of [update_accumulate]: the kernel on the row that was
    looked up, then the record of the row; [vs] is the scratch memory. *)
Definition accumulate_op (add_element : DataType_t -> DataType_t -> list Z -> list Z -> list Z) (T U : DataType_t)
    (keys updates : memory) (update_stride update_size : Z) (sizes : Z -> Z) (vs : memory * list batch_op) (ij : Z)
  : memory * list batch_op :=
  let m := cpu_update_kernel add_element T U (ij * row) updates (ij * update_stride) update_size vs.1 in
  (m, vs.2 ++ [Put (key_slice keys ij) (mem_read m (ij * row) (Z.max (sizes ij) update_size))]).

(** [update_accumulate]: the rows are read into scratch memory of [n] rows. *)
Definition rocks_update_accumulate (add_element : DataType_t -> DataType_t -> list Z -> list Z -> list Z)
    (n : Z) (keys : option memory) (update_stride update_size : Z) (updates : option memory)
    (update_dtype : DataType_t) (d : db) : db * outcome unit :=
  if n <=? 0 then (d, Ok tt)
  else match keys with
       | None => (d, Undef "keys of a null buffer")
       | Some keys =>
           match rocks_find_ true true n keys row d no_hits with
           | Throw e => (d, Throw e)
           | Undef w => (d, Undef w)
           | Ok s =>
               if rf_hits s =? 0 then (d, Ok tt)
               else if negb (value_size_ok update_size) then (d, Throw "update_size >= 0 && update_size <= value_stride")
               else match pick_cpu_update_kernel (value_dtype (rt_base c)) update_dtype, updates with
                    | Throw e, _ => (d, Throw e)
                    | Undef w, _ => (d, Undef w)
                    | Ok _, None => (d, Undef "updates of a null buffer")
                    | Ok k, Some updates =>
                        write_positions (hit_positions n (rf_mask s))
                          (fun l => (fold_left (accumulate_op add_element k.1 k.2 keys updates update_stride update_size
                                                  (rf_sizes s)) l (rf_values s, [])).2) d
                    end
           end
       end.
End Table.

(** ** The factory *)

Record RocksDBTableFactoryConfig := { path : string; read_only : bool; num_threads : Z }.

Definition rocks_factory_check (c : RocksDBTableFactoryConfig) : outcome unit :=
  check! negb (bool_decide (path c = EmptyString)) as "!path.empty()" in
  check! (0 <? num_threads c) as "num_threads > 0" in
  Ok tt.

(** Result of [DB::ListColumnFamilies]. *)
Inductive list_status := Listed (names : list string) | PathNotFound | ListFailed (e : string).

Section Factory.
(** Handles of column families, and the calls that create and open them. *)
Variable handle : Type.
Variable GetName : handle -> string.
Variable CreateColumnFamily : string -> string + handle.
Variable Open : bool -> string -> list string -> string + list handle.

(** The column families that are opened: those found, and the default one. *)
Definition context_names (col_names : list string) : list string :=
  if bool_decide ("default" ∈ col_names)%string then col_names else col_names ++ ["default"%string].

(** [RocksDBContext::RocksDBContext]. *)
Definition rocks_context (c : RocksDBTableFactoryConfig) (listed : list_status) : outcome (list handle) :=
  check! num_threads c <=? 4096 as "num_threads <= 4096" in
  let! col_names := match listed with Listed l => Ok l | PathNotFound => Ok [] | ListFailed e => Throw e end in
  match Open (read_only c) (path c) (context_names col_names) with
  | inl e => Throw e
  | inr hs => Ok hs
  end.

(** [RocksDBTableFactory::produce] (every feature macro enabled): the column
    families of the context afterwards, and the mask size and column family of
    the table. *)
Definition rocks_make_table (c : RocksDBTableConfig) (cf : handle) : outcome (Z * handle) :=
  if existsb (Z.eqb (mask_size (rt_base c))) [1; 2; 4; 8] then Ok (mask_size (rt_base c), cf)
  else Throw "config.mask_size is out of bounds!".
Definition rocks_produce (c : RocksDBTableConfig) (cfs : list handle) : list handle * outcome (Z * handle) :=
  match rocks_config_check c with
  | Throw e => (cfs, Throw e)
  | Undef w => (cfs, Undef w)
  | Ok _ =>
      match List.find (fun cf => String.eqb (GetName cf) (column_family c)) cfs with
      | Some cf => (cfs, rocks_make_table c cf)
      | None =>
          match CreateColumnFamily (column_family c) with
          | inl e => (cfs, Throw e)
          | inr cf => (cfs ++ [cf], rocks_make_table c cf)
          end
      end
  end.
End Factory.

(** ** Lemmas: batched writes *)

Section Writes.
Context {db : Type} (contents : db -> gmap (list Z) (list Z)) (readable writable : db -> Prop).
Context `{RocksLaws db contents readable writable}.
Context (max : Z).
Local Abbreviation apply := (fold_left apply_op).

Lemma write_loop_ok ops batch d :
  Forall op_fits ops -> writable d ->
  exists d', write_loop max ops batch d = (d', Ok tt) /\ writable d' /\
    contents d' = apply ops (apply batch (contents d)).
Proof.
  revert batch d. induction ops as [|op ops IH]; intros batch d Hf Hw; simpl.
  - destruct batch as [|b batch]; [by exists d|].
    destruct (write_writable d (b :: batch) Hw) as (d' & E & Hw'). rewrite E. exists d'.
    split; [done|]. split; [done|]. by apply write_ok.
  - apply Forall_cons in Hf as [Hop Hf]. rewrite append_ok by done.
    destruct (Z.ltb_spec (Z.of_nat (length (batch ++ [op]))) max) as [_|_].
    + destruct (IH (batch ++ [op]) d Hf Hw) as (d' & -> & Hw' & Hc). exists d'. by rewrite Hc, fold_left_app.
    + destruct (write_writable d (batch ++ [op]) Hw) as (d1 & E & Hw1). rewrite E.
      destruct (IH [] d1 Hf Hw1) as (d' & -> & Hw' & Hc). exists d'.
      apply write_ok in E. rewrite Hc, E. simpl. by rewrite fold_left_app.
Qed.

(** A write that fails leaves whole batches: those written before it. *)
Lemma write_loop_failed ops batch d d' e :
  0 < max -> Z.of_nat (length batch) < max -> Forall op_fits ops ->
  write_loop max ops batch d = (d', Throw e) ->
  exists k, (k * Z.to_nat max < length (batch ++ ops))%nat /\
    contents d' = apply (take (k * Z.to_nat max) (batch ++ ops)) (contents d).
Proof.
  intros Hmax. revert batch d. induction ops as [|op ops IH]; intros batch d Hb Hf E; simpl in E.
  - destruct batch as [|b batch]; [done|]. destruct (Write d (b :: batch)) as [d1 [e1|]] eqn:Ew; [|done].
    injection E as -> _. exists 0%nat. apply write_failed in Ew. rewrite Ew. split; [simpl; lia|done].
  - apply Forall_cons in Hf as [Hop Hf]. rewrite append_ok in E by done.
    rewrite length_app in E. simpl in E.
    destruct (Z.ltb_spec (Z.of_nat (length batch + 1)) max) as [Hlt|Hge].
    + apply IH in E as (k & Hk & ->); [|rewrite length_app; simpl; lia|done].
      exists k. by rewrite <- (assoc_L (++)) in Hk |- *.
    + assert (length (batch ++ [op]) = Z.to_nat max) as Hfull by (rewrite length_app; simpl; lia).
      replace (batch ++ op :: ops) with ((batch ++ [op]) ++ ops) by by rewrite <- (assoc_L (++)).
      destruct (Write d (batch ++ [op])) as [d1 [e1|]] eqn:Ew.
      * injection E as -> _. exists 0%nat. apply write_failed in Ew. rewrite Ew. split; [|done].
        rewrite length_app, Hfull. lia.
      * apply IH in E as (k & Hk & ->); [|simpl; lia|done]. exists (S k). simpl in Hk |- *.
        apply write_ok in Ew. rewrite Ew. split; [rewrite length_app, Hfull; lia|].
        rewrite take_app, Hfull, (take_ge (batch ++ [op])) by lia.
        replace (Z.to_nat max + k * Z.to_nat max - Z.to_nat max)%nat with (k * Z.to_nat max)%nat by lia.
        by rewrite !fold_left_app.
Qed.
End Writes.

(** ** Lemmas: batched lookups *)

Lemma missing_count nb r k :
  0 < nb -> in_u nb r -> 0 <= k ->
  generic_bitmask.count (generic_bitmask.clip nb (generic_bitmask.invert nb r) k) =
    Z.of_nat (length (filter (fun i => i < k /\ Z.testbit r i = false) (seqZ 0 nb))).
Proof.
  intros Hp Hr Hk. unfold generic_bitmask.count.
  rewrite (popcount_bits nb) by (auto; apply clip_in_u, invert_in_u; lia).
  pose proof (miss_iteration_lemma nb r k Hp Hr Hk) as E.
  rewrite iterate_bits in E; [by injection E as ->|done|apply clip_in_u, invert_in_u; lia|].
  pose proof (bits_length nb (generic_bitmask.clip nb (generic_bitmask.invert nb r) k)). lia.
Qed.

Section FindLemmas.
Context (c : RocksDBTableConfig) (with_values with_value_sizes : bool) (n : Z) (keys : memory) (value_stride : Z).
Local Abbreviation nb := (mask_size (rt_base c) * 8).
Local Abbreviation ksize := (key_size (rt_base c)).
Context (m : gmap (list Z) (list Z)).

(** What is stored under the key at a position. *)
Definition db_row (ij : Z) : option (list Z) := m !! key_slice c keys ij.
Definition is_stored (ij : Z) : Prop := is_Some (db_row ij).
#[global] Instance is_stored_dec ij : Decision (is_stored ij).
Proof. unfold is_stored. apply _. Defined.

(** [s'] is [s] after the hits at the positions [l]: their bits are set, their
    rows and sizes written, everything else is left as it was. *)
Record served (l : list Z) (s s' : rocks_find) : Prop := {
  sv_range : (forall w, in_u nb (rf_mask s w)) -> forall w, in_u nb (rf_mask s' w);
  sv_bits : forall w j, 0 <= j < nb ->
    Z.testbit (rf_mask s' w) j = Z.testbit (rf_mask s w) j || bool_decide (w * nb + j ∈ l);
  sv_words : forall w, (forall ij, ij ∈ l -> ij / nb <> w) -> rf_mask s' w = rf_mask s w;
  sv_rows : forall ij v, with_values = true -> ij ∈ l -> db_row ij = Some v ->
    mem_read (rf_values s') (ij * value_stride) (Z.of_nat (length v)) = v;
  sv_rest : forall x,
    (forall ij v, with_values = true -> ij ∈ l -> db_row ij = Some v ->
       ~ (ij * value_stride <= x < ij * value_stride + Z.of_nat (length v))) ->
    rf_values s' x = rf_values s x;
  sv_sizes : forall ij, rf_sizes s' ij =
    (if with_value_sizes && bool_decide (ij ∈ l) then
       match db_row ij with Some v => Z.of_nat (length v) | None => rf_sizes s ij end
     else rf_sizes s ij);
  sv_hits : rf_hits s' = rf_hits s + Z.of_nat (length l)
}.

(** Rows fit their output. *)
Definition rows_fit : Prop :=
  with_values = true -> forall ij v, db_row ij = Some v -> Z.of_nat (length v) <= value_stride.

Lemma rows_served_nil s : served [] s s.
Proof.
  constructor; try done.
  - intros w j Hj. rewrite bool_decide_false by apply not_elem_of_nil. by rewrite orb_false_r.
  - intros ij v _ Hin. by apply not_elem_of_nil in Hin.
  - intros ij. rewrite bool_decide_false by apply not_elem_of_nil. by rewrite andb_false_r.
  - simpl. lia.
Qed.

Lemma rows_served_app l1 l2 s s1 s2 :
  rows_fit -> (forall ij, ij ∈ l1 -> ij ∉ l2) -> served l1 s s1 -> served l2 s1 s2 -> served (l1 ++ l2) s s2.
Proof.
  intros Hfit Hd [A1 A2 A3 A4 A5 A6 A7] [B1 B2 B3 B4 B5 B6 B7]. constructor.
  - auto.
  - intros w j Hj. rewrite B2, A2 by done. rewrite <- orb_assoc. f_equal.
    by rewrite (bool_decide_ext _ _ (elem_of_app _ _ _)), bool_decide_or.
  - intros w Hw. rewrite B3, A3; [done|..]; intros ij Hij; apply Hw; set_solver.
  - intros ij v Hv Hin E. apply elem_of_app in Hin as [Hin|Hin]; [|by apply B4].
    rewrite <- (A4 ij v Hv Hin E) at 2. apply mem_read_ext. intros x Hx. apply B5.
    intros ij' v' _ Hin' E'. pose proof (Hfit Hv _ _ E). pose proof (Hfit Hv _ _ E').
    assert (ij <> ij') by (intros ->; by apply (Hd ij')). destruct (Z.lt_ge_cases ij ij'); nia.
  - intros x Hx. rewrite B5, A5; [done|..]; intros ij v Hv Hin; apply Hx; set_solver.
  - intros ij. rewrite B6, A6. destruct with_value_sizes; simpl; [|done].
    rewrite (bool_decide_ext _ _ (elem_of_app _ _ _)), bool_decide_or.
    by destruct (bool_decide (ij ∈ l1)), (bool_decide (ij ∈ l2)), (db_row ij).
  - rewrite B7, A7, length_app. lia.
Qed.

(** The state [process_batch] would leave if it ended now. *)
Definition settle (st : pb_state) : rocks_find :=
  if 0 <=? prev_i st then store_word c (pb_find st) (prev_i st) (pb_mask st) else pb_find st.

Context (Hksize : 0 < ksize) (e : Z) (He : 0 <= e) (Hnb : nb = 2 ^ e).

Lemma nb_pos : 0 < nb.
Proof. rewrite Hnb. by apply pow2_pos. Qed.

Lemma word_split ij : 0 <= ij -> Z.land ij (Z.lnot (nb - 1)) = ij / nb * nb /\ Z.land ij (nb - 1) = ij mod nb.
Proof.
  intros Hij. rewrite Hnb, land_lnot_pred_pow2 by done. split; [lia|].
  replace (2 ^ e - 1) with (Z.ones e) by (rewrite Z.ones_equiv; lia). by rewrite Z.land_ones.
Qed.

Lemma word_of_aligned w : generic_bitmask.word_of nb (w * nb) = w.
Proof. unfold generic_bitmask.word_of. pose proof nb_pos. by rewrite Z.quot_mul by lia. Qed.

(** One hit, seen from outside: the word is set in the state or in [mask]. *)
Lemma serve_one ij v s s' w0 :
  0 <= ij -> db_row ij = Some v -> w0 = ij / nb ->
  (forall w, rf_mask s' w = if w =? w0 then generic_bitmask.set nb (rf_mask s w) (ij mod nb) else rf_mask s w) ->
  rf_values s' = (if with_values then store_bytes (rf_values s) (ij * value_stride) v else rf_values s) ->
  rf_sizes s' = (if with_value_sizes then upd (rf_sizes s) ij (Z.of_nat (length v)) else rf_sizes s) ->
  rf_hits s' = rf_hits s + 1 -> served [ij] s s'.
Proof.
  intros Hij E -> Hmask Hvals Hsizes Hhits. pose proof nb_pos as Hp.
  pose proof (Z.mod_pos_bound ij nb Hp) as Hj. pose proof (Z.div_mod ij nb ltac:(lia)) as Hdm. constructor.
  - intros Hr w. rewrite Hmask. destruct (w =? ij / nb); [apply set_in_u; auto; lia|done].
  - intros w j Hj'. rewrite Hmask. destruct (Z.eqb_spec w (ij / nb)) as [->|Hw].
    + rewrite set_testbit by lia. f_equal. rewrite (bool_decide_ext _ _ (list_elem_of_singleton _ _)).
      destruct (Z.eqb_spec j (ij mod nb)); [rewrite bool_decide_true|rewrite bool_decide_false]; done || lia.
    + rewrite bool_decide_false; [by rewrite orb_false_r|]. rewrite list_elem_of_singleton. intros <-.
      apply Hw. rewrite Z.div_add_l, Z.div_small by lia. lia.
  - intros w Hw. rewrite Hmask. destruct (Z.eqb_spec w (ij / nb)) as [->|]; [|done].
    exfalso. apply (Hw ij); [by apply list_elem_of_singleton|done].
  - intros ij' v' Hv ->%list_elem_of_singleton E'. rewrite Hvals, Hv. simplify_eq. apply store_bytes_same.
  - intros x Hx. rewrite Hvals. destruct with_values; [|done]. specialize (Hx ij v eq_refl ltac:(by apply list_elem_of_singleton) E).
    unfold store_bytes. destruct (v !! _) eqn:Ev; [|done]. destruct (Z.leb_spec (ij * value_stride) x); [|done].
    apply lookup_lt_Some in Ev. lia.
  - intros ij'. rewrite Hsizes. destruct with_value_sizes; simpl; [|done].
    destruct (decide (ij' = ij)) as [->|Hne].
    + rewrite upd_eq, bool_decide_true by by apply list_elem_of_singleton. by rewrite E.
    + rewrite upd_ne, bool_decide_false by (rewrite ?list_elem_of_singleton; done). done.
  - rewrite Hhits. simpl. lia.
Qed.

Lemma process_one_found st ij v :
  rows_fit -> 0 <= ij -> db_row ij = Some v -> prev_i st mod nb = 0 \/ prev_i st < 0 ->
  exists st', process_one c with_values with_value_sizes value_stride st (ij * ksize, Found v) = Ok st' /\
    served [ij] (settle st) (settle st') /\ prev_i st' mod nb = 0.
Proof.
  intros Hfit Hij E Hprev. pose proof nb_pos as Hp. unfold process_one. cbn [fst snd].
  rewrite Z.quot_mul by lia. destruct (word_split ij Hij) as [Ei Ej]. rewrite Ei, Ej. clear Ei Ej.
  assert (negb with_values || (Z.of_nat (length v) <=? value_stride) = true) as ->.
  { destruct with_values eqn:Hv; [|done]. simpl. apply Z.leb_le. by eapply Hfit. }
  eexists. split; [done|]. pose proof (Z.div_pos ij nb Hij Hp) as Hw.
  assert (0 <= ij / nb * nb) as Hi by nia.
  destruct (Z.eqb_spec (ij / nb * nb) (prev_i st)) as [Heq|Hne]; cbn [prev_i pb_find pb_mask].
  - rewrite <- Heq. split; [|by apply Z.mod_mul; lia]. unfold settle. cbn [prev_i pb_find pb_mask].
    rewrite <- Heq, (proj2 (Z.leb_le _ _)) by done.
    eapply serve_one; [done|done|done|..]; cbn; rewrite ?word_of_aligned; try done.
    intros w. unfold upd. by destruct (Z.eqb_spec w (ij / nb)).
  - split; [|by apply Z.mod_mul; lia]. fold (settle st). unfold settle at 2. cbn [prev_i pb_find pb_mask].
    rewrite (proj2 (Z.leb_le 0 (ij / nb * nb))) by done.
    eapply serve_one; [done|done|done|..]; cbn; rewrite ?word_of_aligned; try done.
    intros w. unfold upd. by destruct (Z.eqb_spec w (ij / nb)) as [->|].
Qed.

Lemma process_list l st :
  rows_fit -> NoDup l -> (forall ij, ij ∈ l -> 0 <= ij) -> prev_i st mod nb = 0 \/ prev_i st < 0 ->
  exists st', ofoldl (process_one c with_values with_value_sizes value_stride)
      (zip ((fun ij => ij * ksize) <$> l) (get_of m <$> (key_slice c keys <$> l))) st = Ok st' /\
    served (filter is_stored l) (settle st) (settle st').
Proof.
  intros Hfit. revert st. induction l as [|ij l IH]; intros st Hnd Hpos Hprev.
  { exists st. split; [done|]. apply rows_served_nil. }
  apply NoDup_cons in Hnd as [Hnin Hnd]. cbn [fmap list_fmap zip_with ofoldl].
  unfold get_of at 1. change (m !! key_slice c keys ij) with (db_row ij).
  assert (forall ij, ij ∈ l -> 0 <= ij) as Hpos' by (intros; apply Hpos; by right).
  destruct (db_row ij) as [v|] eqn:E.
  - destruct (process_one_found st ij v Hfit ltac:(apply Hpos; by left) E Hprev) as (st1 & -> & S1 & Hp1). cbn [obind].
    destruct (IH st1 Hnd Hpos' ltac:(by left)) as (st2 & -> & S2). exists st2. split; [done|].
    rewrite filter_cons_True by by exists v. apply (rows_served_app [ij] _ _ (settle st1)); [done| |done|done].
    intros ij' ->%list_elem_of_singleton [_ ?]%list_elem_of_filter. done.
  - unfold process_one at 1. cbn [snd obind]. destruct (IH st Hnd Hpos' Hprev) as (st2 & -> & S2). exists st2. split; [done|].
    rewrite filter_cons_False; [done|]. unfold is_stored. rewrite E. by intros [? ?].
Qed.
End FindLemmas.

Lemma reset_hits s : rf_hits s = 0 ->
  {| rf_mask := rf_mask s; rf_values := rf_values s; rf_sizes := rf_sizes s; rf_hits := 0 |} = s.
Proof. by destruct s as [? ? ? h]; simpl; intros ->. Qed.

Section FindLoop.
Context {db : Type} (contents : db -> gmap (list Z) (list Z)) (readable writable : db -> Prop).
Context `{RocksLaws db contents readable writable}.
Context (c : RocksDBTableConfig) (with_values with_value_sizes : bool) (n : Z) (keys : memory) (value_stride : Z).
Context (d : db) (s0 : rocks_find).
Local Abbreviation nb := (mask_size (rt_base c) * 8).
Local Abbreviation ksize := (key_size (rt_base c)).
Local Abbreviation served := (served c with_values with_value_sizes keys value_stride (contents d)).
Local Abbreviation is_stored := (is_stored c keys (contents d)).
Context (Hread : readable d) (Hksize : 0 < ksize) (e : Z) (He : 0 <= e) (Hnb : nb = 2 ^ e) (Hn : 0 < n).
Context (Hfit : rows_fit c with_values keys value_stride (contents d)).
Context (Hmask : forall w, in_u nb (rf_mask s0 w)).

Lemma process_batch_ok l s :
  NoDup l -> (forall ij, ij ∈ l -> 0 <= ij) ->
  exists s', process_batch c with_values with_value_sizes keys value_stride d ((fun ij => ij * ksize) <$> l) s = Ok s' /\
    served (filter is_stored l) s s'.
Proof.
  intros Hnd Hpos. unfold process_batch. rewrite multi_get by done. 
  rewrite <- (list_fmap_compose (fun ij => ij * ksize) (fun a => mem_read keys a ksize)).
  change ((fun a => mem_read keys a ksize) ∘ (fun ij => ij * ksize)) with (key_slice c keys).
  destruct (process_list c with_values with_value_sizes keys value_stride (contents d) Hksize e He Hnb l
              {| pb_find := s; prev_i := -1; pb_mask := 0 |} Hfit Hnd Hpos) as (st & -> & S); [right; simpl; lia|].
  cbn [obind]. by exists (settle c st).
Qed.

(** The positions below [k] that were not hit before. *)
Definition missing (mask : Z -> Z) (ij : Z) : Prop := Z.testbit (mask (ij / nb)) (ij mod nb) = false.
#[global] Instance missing_dec mask ij : Decision (missing mask ij).
Proof. unfold missing. apply _. Defined.
Local Abbreviation before k := (filter (missing (rf_mask s0)) (seqZ 0 k)).

Lemma before_elem k ij : ij ∈ before k <-> missing (rf_mask s0) ij /\ 0 <= ij < k.
Proof. rewrite list_elem_of_filter, elem_of_seqZ. split; intros [? ?]; split; done || lia. Qed.

(** The missing positions of a word follow those of the words before it. *)
Lemma before_step w :
  0 <= w -> w * nb < n ->
  before (Z.min n ((w + 1) * nb)) = before (w * nb) ++
    ((fun j => w * nb + j) <$> filter (fun j => j < n - w * nb /\ Z.testbit (rf_mask s0 w) j = false) (seqZ 0 nb)).
Proof.
  intros Hw Hlt. assert (Hp : 0 < nb) by (rewrite Hnb; by apply pow2_pos).
  set (k := Z.min nb (n - w * nb)). replace (Z.min n ((w + 1) * nb)) with (w * nb + k) by (unfold k; lia).
  rewrite seqZ_app, filter_app by (unfold k; lia). f_equal.
  assert (seqZ 0 nb = seqZ 0 k ++ seqZ k (nb - k)) as ->.
  { rewrite <- seqZ_app by (unfold k; lia). f_equal. lia. }
  rewrite filter_app, (filter_none _ (seqZ k (nb - k))), app_nil_r.
  2:{ intros x [? ?]%elem_of_seqZ [? ?]. unfold k in *. lia. }
  replace (seqZ (0 + w * nb) k) with ((fun j => w * nb + j) <$> seqZ 0 k) by (rewrite fmap_add_seqZ; f_equal; lia).
  rewrite filter_of_fmap. f_equal. apply filter_ext_in. intros j [? ?]%elem_of_seqZ. unfold k in *. unfold missing. simpl.
  rewrite Z.div_add_l, Z.div_small, Z.add_0_r by lia.
  rewrite Z.add_comm, Z.mod_add, Z.mod_small by lia. naive_solver lia.
Qed.

Lemma push_views_ok max l views :
  Z.of_nat (length views + length l) <= max ->
  ofoldl (push_view c max) l views = Ok (views ++ ((fun ij => ij * ksize) <$> l)).
Proof.
  revert views. induction l as [|ij l IH]; intros views Hlen; simpl; [by rewrite app_nil_r|].
  unfold push_view at 1. simpl in Hlen. rewrite (proj2 (Z.ltb_lt _ _)) by lia. cbn [obind].
  rewrite IH by (rewrite length_app; simpl; lia). by rewrite <- (assoc_L (++)).
Qed.

(** Between two words: [a] has been looked up, [b] is in the views. *)
Definition loop_inv (max k : Z) (st : rocks_find * list Z) : Prop :=
  exists a b, before k = a ++ b /\ st.2 = ((fun ij => ij * ksize) <$> b) /\ Z.of_nat (length b) <= max /\
    served (filter is_stored a) s0 st.1.

Lemma before_nodup k : NoDup (before k).
Proof. apply NoDup_filter, NoDup_seqZ. Qed.

(** Looking up the views moves them to the positions that were looked up. *)
Lemma process_views k a b s :
  before k = a ++ b -> served (filter is_stored a) s0 s ->
  exists s', process_batch c with_values with_value_sizes keys value_stride d ((fun ij => ij * ksize) <$> b) s = Ok s' /\
    served (filter is_stored (before k)) s0 s'.
Proof.
  intros Hab Hs. pose proof (before_nodup k) as Hnd. rewrite Hab in Hnd. apply NoDup_app in Hnd as (_ & Hdis & Hnd).
  destruct (process_batch_ok b s Hnd) as (s' & -> & Hs').
  { intros ij Hij. assert (ij ∈ before k) as [_ ?]%before_elem by (rewrite Hab; set_solver). lia. }
  exists s'. split; [done|]. rewrite Hab, filter_app. apply (rows_served_app _ _ _ _ _ _ _ _ _ s); [done| |done|done].
  intros ij [_ H1]%list_elem_of_filter [_ H2]%list_elem_of_filter. by eapply Hdis.
Qed.

Local Abbreviation max := (Z.min n (max_batch_size c)).
Context (Hmax : Z.min n nb <= max_batch_size c).

Lemma find_word_ok w st :
  0 <= w -> w * nb < n -> loop_inv max (w * nb) st ->
  exists st', find_word c with_values with_value_sizes n keys value_stride d max st w = Ok st' /\
    loop_inv max (Z.min n ((w + 1) * nb)) st'.
Proof.
  intros Hw Hlt (a & b & Hab & Hviews & Hlen & Hserved). destruct st as [s views]. cbn [fst snd] in *. subst views.
  assert (Hp : 0 < nb) by (rewrite Hnb; by apply pow2_pos).
  assert (rf_mask s w = rf_mask s0 w) as Ew.
  { apply (sv_words _ _ _ _ _ _ _ _ _ Hserved). intros ij [_ Hij]%list_elem_of_filter.
    assert (ij ∈ before (w * nb)) as [_ ?]%before_elem by (rewrite Hab; set_solver).
    intros <-. pose proof (Z.mul_div_le ij nb Hp). lia. }
  unfold find_word. rewrite Ew, miss_iteration_lemma by (auto; lia).
  set (js := filter _ (seqZ 0 nb)).
  assert (generic_bitmask.count (generic_bitmask.clip nb (generic_bitmask.invert nb (rf_mask s0 w)) (n - w * nb))
          = Z.of_nat (length js)) as ->.
  { apply missing_count; auto; lia. }
  assert (Z.of_nat (length js) <= max) as Hjs.
  { assert (length js <= length (seqZ 0 (Z.min nb (n - w * nb))))%nat as Hl; [|rewrite length_seqZ in Hl; nia].
    apply submseteq_length, NoDup_submseteq; [apply NoDup_filter, NoDup_seqZ|].
    intros j [[? _] [? ?]%elem_of_seqZ]%list_elem_of_filter. apply elem_of_seqZ. lia. }
  assert (forall s a b, before (w * nb) = a ++ b -> served (filter is_stored a) s0 s ->
    Z.of_nat (length b + length js) <= max ->
    exists st', (let! k_views := ofoldl (push_view c max) ((fun j => w * nb + j) <$> js) ((fun ij => ij * ksize) <$> b) in
      Ok (s, k_views)) = Ok st' /\ loop_inv max (Z.min n ((w + 1) * nb)) st') as Hpush.
  { intros s1 a1 b1 Hab1 Hs1 Hl1. rewrite push_views_ok by (rewrite !length_fmap; done). cbn [obind].
    eexists. split; [done|]. exists a1, (b1 ++ ((fun j => w * nb + j) <$> js)). cbn [fst snd].
    rewrite before_step, Hab1, <- (assoc_L (++)) by done. split; [done|]. split; [by rewrite fmap_app|].
    split; [rewrite length_app, length_fmap; lia|done]. }
  rewrite length_fmap. destruct (Z.ltb_spec max (Z.of_nat (length b) + Z.of_nat (length js))) as [Hov|Hfits].
  - destruct (process_views _ a b s Hab Hserved) as (s' & -> & Hs'). cbn [obind fst snd].
    apply (Hpush s' (before (w * nb)) []); [by rewrite app_nil_r|done|simpl; lia].
  - cbn [obind fst snd]. apply (Hpush s a b); [done|done|lia].
Qed.

(** The positions that become hits. *)
Definition new_hits : list Z := filter is_stored (before n).

Lemma rocks_find_ok :
  rf_hits s0 = 0 ->
  exists s, rocks_find_ c with_values with_value_sizes n keys value_stride d s0 = Ok s /\ served new_hits s0 s.
Proof.
  intros Hz. assert (Hp : 0 < nb) by (rewrite Hnb; by apply pow2_pos).
  pose proof (ceil_div_bounds n nb ltac:(lia) Hp) as Hceil. pose proof (ceil_div_nonneg n nb ltac:(lia) Hp) as Hc0.
  assert (forall k : nat, Z.of_nat k <= ceil_div n nb ->
    exists st, ofoldl (find_word c with_values with_value_sizes n keys value_stride d max) (seqZ 0 (Z.of_nat k)) (s0, [])
      = Ok st /\ loop_inv max (Z.min n (Z.of_nat k * nb)) st) as Hloop.
  { induction k as [|k IH]; intros Hk.
    - exists (s0, []). split; [done|]. exists [], []. rewrite Z.min_r by lia. split_and!; [done|done|simpl; lia|].
      apply rows_served_nil.
    - destruct IH as (st & E & Hst); [lia|].
      replace (Z.of_nat (S k)) with (Z.of_nat k + 1) by lia. rewrite seqZ_app, ofoldl_app, E by lia. cbn [obind].
      assert (Z.of_nat k * nb < n) by nia. rewrite (Z.min_r n (Z.of_nat k * nb)) in Hst by lia.
      destruct (find_word_ok (Z.of_nat k) st ltac:(lia) ltac:(lia) Hst) as (st' & E' & Hst').
      exists st'. rewrite seqZ_cons by lia. cbn [ofoldl]. rewrite Z.add_0_l, E'. done. }
  destruct (Hloop (Z.to_nat (ceil_div n nb)) ltac:(lia)) as (st & E & a & b & Hab & Hviews & _ & Hserved).
  rewrite Z2Nat.id in E, Hab by lia. rewrite Z.min_l in Hab by nia. unfold rocks_find_, generic_bitmask.mask_size.
  rewrite reset_hits by done. rewrite E. cbn [obind].
  destruct (process_views n a b st.1 Hab Hserved) as (s & Ep & Hs). rewrite Hviews.
  destruct b as [|ij b]; [|by exists s].
  exists st.1. split; [done|]. unfold new_hits. rewrite Hab, app_nil_r. done.
Qed.
End FindLoop.

(** ** Lemmas: what is written *)

(** Reference operations on a finite map, one position after the other. *)
Definition map_insert (key val : Z -> list Z) (m : gmap (list Z) (list Z)) (i : Z) : gmap (list Z) (list Z) :=
  <[key i := val i]> m.
Definition map_erase (key : Z -> list Z) (m : gmap (list Z) (list Z)) (i : Z) : gmap (list Z) (list Z) := delete (key i) m.
Definition map_update (key val : Z -> list Z) (m : gmap (list Z) (list Z)) (i : Z) : gmap (list Z) (list Z) :=
  match m !! key i with Some _ => <[key i := val i]> m | None => m end.

Lemma apply_puts key val l m :
  fold_left apply_op ((fun i => Put (key i) (val i)) <$> l) m = fold_left (map_insert key val) l m.
Proof. revert m. induction l as [|i l IH]; intros m; simpl; [done|]. apply IH. Qed.

Lemma apply_deletes key l m :
  fold_left apply_op ((fun i => Delete (key i)) <$> l) m = fold_left (map_erase key) l m.
Proof. revert m. induction l as [|i l IH]; intros m; simpl; [done|]. apply IH. Qed.

(** An update never changes which keys are stored, so deciding it before the
    writes or during them is the same. *)
Lemma map_update_filter (key val : Z -> list Z) (l : list Z) (m0 m : gmap (list Z) (list Z)) :
  (forall k, is_Some (m !! k) <-> is_Some (m0 !! k)) ->
  fold_left (map_insert key val) (filter (fun i => is_Some (m0 !! key i)) l) m = fold_left (map_update key val) l m.
Proof.
  revert m. induction l as [|i l IH]; intros m Hdom; [done|]. rewrite filter_cons. cbn [fold_left].
  unfold map_update at 2. destruct (decide (is_Some (m0 !! key i))) as [Hs|Hs]; rewrite <- Hdom in Hs.
  - cbn [fold_left]. destruct Hs as [v E]. rewrite E. apply IH. intros k. unfold map_insert.
    rewrite <- Hdom. destruct (decide (k = key i)) as [->|]; [|by rewrite lookup_insert_ne].
    rewrite lookup_insert_eq, E. split; eauto.
  - destruct (m !! key i) eqn:E; [destruct Hs; eauto|]. by apply IH.
Qed.

Section Facts.
Context (c : RocksDBTableConfig).
Local Abbreviation nb := (mask_size (rt_base c) * 8).

Lemma rocks_check_facts :
  rocks_config_check c = Ok tt ->
  (exists e, 0 <= e /\ nb = 2 ^ e) /\ 0 < key_size (rt_base c) <= 8 /\ 0 < max_value_size (rt_base c) < 2 ^ 31 /\
  0 < max_batch_size c.
Proof.
  unfold rocks_config_check, host_table_config_check. intros Hc.
  destruct (existsb (Z.eqb (mask_size (rt_base c))) _) eqn:Em; [|done].
  destruct (existsb (Z.eqb (key_size (rt_base c))) _) eqn:Ek; [|done].
  destruct ((0 <? max_value_size (rt_base c)) && _) eqn:Ev; [|done]. apply andb_prop in Ev as [?%Z.ltb_lt ?%Z.leb_le].
  destruct (_ =? 0); [done|]. destruct (_ =? 0); [|done]. cbn [obind] in Hc.
  destruct (0 <? max_batch_size c) eqn:Eb; [|done]. apply Z.ltb_lt in Eb.
  split_and!; [|simpl in Ek; lia..].
  assert (mask_size (rt_base c) = 1 \/ mask_size (rt_base c) = 2 \/ mask_size (rt_base c) = 4 \/ mask_size (rt_base c) = 8)
    as [->|[->|[->| ->]]] by (simpl in Em; lia); [exists 3|exists 4|exists 5|exists 6]; lia.
Qed.

Lemma key_slice_length keys i : 0 < key_size (rt_base c) <= 8 -> Z.of_nat (length (key_slice c keys i)) < 2 ^ 32.
Proof. intros. unfold key_slice, mem_read. rewrite length_fmap, length_seqZ. lia. Qed.

Lemma read_length (m : memory) a k : 0 <= k < 2 ^ 31 -> Z.of_nat (length (mem_read m a k)) < 2 ^ 32.
Proof. intros. unfold mem_read. rewrite length_fmap, length_seqZ. lia. Qed.

(** The positions of the set bits, in ascending order. *)
Lemma hit_positions_bits n mask e :
  0 < n -> 0 <= e -> nb = 2 ^ e -> (forall w, in_u nb (mask w)) ->
  hit_positions c n mask =
    Ok (filter (fun ij => Z.testbit (mask (ij / nb)) (ij mod nb) = true) (seqZ 0 (ceil_div n nb * nb))).
Proof.
  intros Hn He Hnb Hmask. assert (Hp : 0 < nb) by (rewrite Hnb; by apply pow2_pos).
  assert (forall k : nat, ofoldl (hit_word c mask) (seqZ 0 (Z.of_nat k)) [] =
    Ok (filter (fun ij => Z.testbit (mask (ij / nb)) (ij mod nb) = true) (seqZ 0 (Z.of_nat k * nb)))) as Hloop.
  { induction k as [|k IH]; [done|]. replace (Z.of_nat (S k)) with (Z.of_nat k + 1) by lia.
    rewrite seqZ_app, ofoldl_app, IH by lia. rewrite (seqZ_cons (0 + Z.of_nat k) 1) by lia. cbn [obind ofoldl]. unfold hit_word.
    rewrite iterate_bits by (auto; pose proof (bits_length nb (mask (0 + Z.of_nat k))); lia). cbn [obind]. f_equal.
    replace ((Z.of_nat k + 1) * nb) with (Z.of_nat k * nb + nb) by lia. rewrite seqZ_app, filter_app by lia. f_equal.
    replace (seqZ (0 + Z.of_nat k * nb) nb) with ((fun j => Z.of_nat k * nb + j) <$> seqZ 0 nb)
      by (rewrite fmap_add_seqZ; f_equal; lia).
    rewrite filter_of_fmap. f_equal. apply filter_ext_in. intros j [? ?]%elem_of_seqZ.
    rewrite Z.div_add_l, Z.div_small, Z.add_0_r, Z.add_0_l by lia.
    by rewrite Z.add_comm, Z.mod_add, Z.mod_small by lia. }
  unfold hit_positions, generic_bitmask.mask_size.
  pose proof (ceil_div_nonneg n nb ltac:(lia) Hp). specialize (Hloop (Z.to_nat (ceil_div n nb))).
  by rewrite Z2Nat.id in Hloop by lia.
Qed.

(** The positions an update visits: those whose key is stored. *)
Lemma hit_positions_stored n keys m e (wv ws : bool) stride s :
  0 < n -> 0 <= e -> nb = 2 ^ e ->
  served c wv ws keys stride m (filter (is_stored c keys m) (filter (missing c (fun _ => 0)) (seqZ 0 n))) no_hits s ->
  hit_positions c n (rf_mask s) = Ok (filter (is_stored c keys m) (seqZ 0 n)).
Proof.
  intros Hn He Hnb Hs. assert (Hp : 0 < nb) by (rewrite Hnb; by apply pow2_pos).
  assert (filter (missing c (fun _ => 0)) (seqZ 0 n) = seqZ 0 n) as Hall.
  { apply filter_id. intros x _. unfold missing. apply Z.bits_0. }
  rewrite Hall in Hs. assert (forall w, in_u nb (rf_mask s w)) as Hr.
  { apply (sv_range _ _ _ _ _ _ _ _ _ Hs). intros w. pose proof (pow2_pos nb ltac:(lia)). split; simpl; lia. }
  rewrite (hit_positions_bits n _ e) by done.
  f_equal. pose proof (ceil_div_bounds n nb ltac:(lia) Hp).
  replace (ceil_div n nb * nb) with (n + (ceil_div n nb * nb - n)) by lia. rewrite seqZ_app, filter_app by lia.
  assert (forall x, 0 <= x -> Z.testbit (rf_mask s (x / nb)) (x mod nb) = bool_decide (x ∈ filter (is_stored c keys m) (seqZ 0 n))) as Hbit.
  { intros x Hx. pose proof (Z.mod_pos_bound x nb Hp). rewrite (sv_bits _ _ _ _ _ _ _ _ _ Hs) by lia.
    cbn [rf_mask no_hits]. rewrite Z.bits_0. cbn [orb].
    by replace (x / nb * nb + x mod nb) with x by (rewrite (Z.div_mod x nb) at 1 by lia; lia). }
  rewrite (filter_none _ (seqZ (0 + n) _)), app_nil_r.
  - apply filter_ext_in. intros x Hx. pose proof Hx as [? ?]%elem_of_seqZ. rewrite Hbit by lia.
    rewrite bool_decide_eq_true, list_elem_of_filter. tauto.
  - intros x [? ?]%elem_of_seqZ. rewrite Hbit, bool_decide_eq_true by lia.
    rewrite list_elem_of_filter, elem_of_seqZ. lia.
Qed.
End Facts.

(** ** Two defects *)

Lemma push_views_overflow c max l views :
  Z.of_nat (length views) <= max -> max < Z.of_nat (length views + length l) ->
  ofoldl (push_view c max) l views = Undef "k_views out of bounds".
Proof.
  revert views. induction l as [|ij l IH]; intros views Hle Hlt; simpl in *; [lia|].
  unfold push_view at 1. destruct (Z.ltb_spec (Z.of_nat (length views)) max); cbn [obind]; [|done].
  apply IH; rewrite length_app; simpl; lia.
Qed.

Section Defects.
Context {db : Type} (contents : db -> gmap (list Z) (list Z)) (readable writable : db -> Prop).
Context `{RocksLaws db contents readable writable}.
Context (c : RocksDBTableConfig) (n : Z) (keys : memory).
Local Abbreviation nb := (mask_size (rt_base c) * 8).

(** [clear] deletes the range from the empty key to the key of the single
    byte 126: a key whose first byte (the lowest of an integer key) is 126 or
    more keeps its row. *)
Theorem rocks_clear_leaves_keys (d : db) :
  writable d ->
  exists d', rocks_clear d = (d', Ok tt) /\
    forall b k, contents d' !! (b :: k) = if b <? 126 then None else contents d !! (b :: k).
Proof.
  intros Hw. destruct (delete_range_writable d [] [126] Hw) as (d' & E). exists d'. unfold rocks_clear. rewrite E.
  split; [done|]. intros b k. rewrite (delete_range_ok _ _ _ _ E).
  assert (in_key_range [] [126] (b :: k) = (b <? 126)) as Hin.
  { unfold in_key_range. simpl. destruct k; rewrite andb_false_r, orb_false_r; done. }
  destruct (b <? 126).
  - apply map_lookup_filter_None. right. intros v _. simpl. by rewrite Hin.
  - destruct (contents d !! (b :: k)) as [v|] eqn:Ev.
    + apply map_lookup_filter_Some. done.
    + apply map_lookup_filter_None. by left.
Qed.

(** The check of the configuration compares [max_batch_size] with the bytes of
    a mask word and not with its bits: a lookup whose first word has more missing
    keys than [max_batch_size] writes past the end of [k_views]. *)
Theorem rocks_find_overflows (wv ws : bool) (stride : Z) (d : db) (s : rocks_find) :
  rocks_config_check c = Ok tt -> 0 < n -> max_batch_size c < Z.min n nb -> rf_mask s 0 = 0 ->
  rocks_find_ c wv ws n keys stride d s = Undef "k_views out of bounds".
Proof.
  intros Hc Hn Hlt Hm. destruct (rocks_check_facts c Hc) as ((e & He & Hnb) & _ & _ & Hmb).
  assert (Hp : 0 < nb) by (rewrite Hnb; by apply pow2_pos).
  pose proof (ceil_div_bounds n nb ltac:(lia) Hp). unfold rocks_find_, generic_bitmask.mask_size.
  rewrite seqZ_cons by nia. cbn [ofoldl]. unfold find_word at 1. cbn [rf_mask]. rewrite Hm, Z.mul_0_l, Z.sub_0_r.
  assert (in_u nb 0) as H0' by (pose proof (pow2_pos nb ltac:(lia)); split; lia).
  rewrite missing_count, miss_iteration_lemma by (auto; lia).
  set (js := filter _ (seqZ 0 nb)).
  assert (length js = length (seqZ 0 (Z.min n nb))) as Hjs.
  { assert (seqZ 0 nb = seqZ 0 (Z.min n nb) ++ seqZ (Z.min n nb) (nb - Z.min n nb)) as Es.
    { rewrite <- (Z.add_0_l (Z.min n nb)) at 2. rewrite <- seqZ_app by lia. f_equal. lia. }
    unfold js. rewrite Es, filter_app, (filter_none _ (seqZ (Z.min n nb) _)), app_nil_r, filter_id; [done|..];
      intros x [? ?]%elem_of_seqZ; [split; [lia|apply Z.bits_0]|lia]. }
  rewrite length_seqZ in Hjs. cbn [length]. rewrite (proj2 (Z.ltb_lt _ _)) by lia. cbn [process_batch fmap list_fmap zip_with ofoldl obind].
  rewrite push_views_overflow; [done|simpl; lia|rewrite length_fmap; simpl; lia].
Qed.
End Defects.
