(* ===== verification/RocksRefine.v ===== *)
(** * What the RocksDB table promises

    The operations of [RocksTable] refine a finite map from the bytes of a key to
    the bytes of its row, whatever the batching; the error paths; and what becomes
    of several updates of one key. *)
From stdpp Require Import strings.
From S2P Require Import Prelude BitOps Float32 DataTypes HostTable RocksTable.

(** ** Lemmas: the update kernel is local to its row *)

Section Kernel.
Context (add_element : DataType_t -> DataType_t -> list Z -> list Z -> list Z) (T U : DataType_t).
Context (a : Z) (updates : memory) (upd_ row : Z).
Local Abbreviation sz := (elem_size T).
Local Abbreviation elem i := (update_element add_element T U a updates upd_ i).
Context (Hadd : forall t u, Z.of_nat (length (add_element T U t u)) = sz).

Lemma elem_outside i m x : 0 <= i -> (i + 1) * sz <= row -> x < a \/ a + row <= x -> elem i m x = m x.
Proof.
  intros Hi Hr Hx. unfold update_element, store_bytes.
  destruct (Z.leb_spec (a + i * sz) x); [|by destruct (_ !! _)].
  rewrite lookup_ge_None_2; [done|]. apply Nat2Z.inj_le. rewrite Hadd. pose proof (Zle_0_nat (length (add_element T U [] []))) as Hz.
  rewrite Hadd in Hz. nia.
Qed.

Lemma elem_agree i m m' :
  0 <= i -> (i + 1) * sz <= row -> (forall x, a <= x < a + row -> m x = m' x) ->
  forall x, a <= x < a + row -> elem i m x = elem i m' x.
Proof.
  intros Hi Hr Hm x Hx. unfold update_element. pose proof (Zle_0_nat (length (add_element T U [] []))) as Hz. rewrite Hadd in Hz.
  rewrite (mem_read_ext m m') by (intros y Hy; apply Hm; nia). unfold store_bytes.
  destruct (_ !! _); [|by apply Hm]. destruct (_ <=? _); [done|by apply Hm].
Qed.

Lemma elems_row l m m' :
  (forall i, i ∈ l -> 0 <= i /\ (i + 1) * sz <= row) -> (forall x, a <= x < a + row -> m x = m' x) ->
  (forall x, a <= x < a + row -> fold_left (fun m i => elem i m) l m x = fold_left (fun m i => elem i m) l m' x) /\
  (forall x, x < a \/ a + row <= x -> fold_left (fun m i => elem i m) l m x = m x).
Proof.
  revert m m'. induction l as [|i l IH]; intros m m' Hl Hm; simpl; [done|].
  destruct (Hl i) as [Hi Hr]; [by left|]. destruct (IH (elem i m) (elem i m')) as [IH1 IH2].
  - intros; apply Hl; by right.
  - by apply elem_agree.
  - split; [done|]. intros x Hx. rewrite IH2 by done. by apply elem_outside.
Qed.
End Kernel.

Lemma kernel_row add_element T a updates u n row m m' :
  (forall t u, Z.of_nat (length (add_element T T t u)) = elem_size T) -> 0 < elem_size T -> 0 <= n <= row ->
  (forall x, a <= x < a + row -> m x = m' x) ->
  (forall x, a <= x < a + row ->
     cpu_update_kernel add_element T T a updates u n m x = cpu_update_kernel add_element T T a updates u n m' x) /\
  (forall x, x < a \/ a + row <= x -> cpu_update_kernel add_element T T a updates u n m x = m x).
Proof.
  intros Hadd Hsz Hn Hm. apply elems_row; [done| |done]. intros i [? ?]%elem_of_seqZ.
  pose proof (Z.mul_div_le n (elem_size T) Hsz). nia.
Qed.

Section Refine.
Context {db : Type} (contents : db -> gmap (list Z) (list Z)) (readable writable : db -> Prop).
Context `{RocksLaws db contents readable writable}.
Context (c : RocksDBTableConfig) (n : Z) (keys : memory).
Local Abbreviation nb := (mask_size (rt_base c) * 8).
Local Abbreviation row := (max_value_size (rt_base c)).
Context (Hcheck : rocks_config_check c = Ok tt) (Hn : 0 < n).

(** The rows of a table are no longer than [max_value_size]. *)
Definition rows_bounded (m : gmap (list Z) (list Z)) : Prop :=
  forall k v, m !! k = Some v -> Z.of_nat (length v) <= row.

Definition found_positions (m : gmap (list Z) (list Z)) (mask : Z -> Z) : list Z :=
  filter (is_stored c keys m) (filter (missing c mask) (seqZ 0 n)).

Lemma find_lemma (wv ws : bool) stride d s :
  readable d -> rows_bounded (contents d) -> row <= stride -> Z.min n nb <= max_batch_size c ->
  (forall w, in_u nb (rf_mask s w)) ->
  exists s', rocks_find_ c wv ws n keys stride d s = Ok s' /\
    served c wv ws keys stride (contents d) (found_positions (contents d) (rf_mask s))
      {| rf_mask := rf_mask s; rf_values := rf_values s; rf_sizes := rf_sizes s; rf_hits := 0 |} s'.
Proof.
  intros Hr Hb Hst Hmax Hm. destruct (rocks_check_facts c Hcheck) as ((e & He & Hnb) & Hk & Hv & _).
  apply (rocks_find_ok contents readable writable c wv ws n keys stride d
           {| rf_mask := rf_mask s; rf_values := rf_values s; rf_sizes := rf_sizes s; rf_hits := 0 |}
           Hr ltac:(lia) e He Hnb Hn); [|done|done|done].
  intros _ ij v E. apply Hb in E. lia.
Qed.

Lemma writes_lemma max ops d :
  writable d -> Forall op_fits ops ->
  exists d', write_loop max ops [] d = (d', Ok tt) /\ writable d' /\ contents d' = fold_left apply_op ops (contents d).
Proof. intros Hw Hf. apply (write_loop_ok contents readable writable max ops [] d Hf Hw). Qed.

Lemma puts_fit (val : Z -> list Z) (l : list Z) :
  (forall i, Z.of_nat (length (val i)) < 2 ^ 32) -> Forall op_fits ((fun i => Put (key_slice c keys i) (val i)) <$> l).
Proof.
  intros Hv. destruct (rocks_check_facts c Hcheck) as (_ & Hk & _). apply Forall_fmap, Forall_forall. intros i _.
  split; [by apply key_slice_length|apply Hv].
Qed.

Lemma insert_lemma d stride size values :
  writable d -> 0 <= size <= row ->
  exists d', rocks_insert c n (Some keys) stride size (Some values) d = (d', Ok tt) /\ writable d' /\
    contents d' = fold_left (map_insert (key_slice c keys) (fun i => mem_read values (i * stride) size)) (seqZ 0 n) (contents d).
Proof.
  intros Hw Hs. destruct (rocks_check_facts c Hcheck) as (_ & _ & Hv & _). unfold rocks_insert, value_size_ok.
  rewrite (proj2 (Z.leb_gt n 0)), !(proj2 (Z.leb_le _ _)) by lia. simpl. rewrite <- apply_puts.
  apply writes_lemma; [done|]. apply puts_fit. intros i. apply read_length. lia.
Qed.

Lemma erase_lemma d :
  writable d ->
  exists d', rocks_erase c n (Some keys) d = (d', Ok tt) /\ writable d' /\
    contents d' = fold_left (map_erase (key_slice c keys)) (seqZ 0 n) (contents d).
Proof.
  intros Hw. destruct (rocks_check_facts c Hcheck) as (_ & Hk & _). unfold rocks_erase.
  rewrite (proj2 (Z.leb_gt n 0)) by lia. rewrite <- apply_deletes. apply writes_lemma; [done|].
  apply Forall_fmap, Forall_forall. intros i _. by apply key_slice_length.
Qed.

(** A lookup for an update: no hit, or the positions of the stored keys. *)
Lemma update_find wv ws stride d :
  readable d -> rows_bounded (contents d) -> row <= stride -> Z.min n nb <= max_batch_size c ->
  exists s, rocks_find_ c wv ws n keys stride d no_hits = Ok s /\
    hit_positions c n (rf_mask s) = Ok (filter (is_stored c keys (contents d)) (seqZ 0 n)) /\
    rf_hits s = Z.of_nat (length (filter (is_stored c keys (contents d)) (seqZ 0 n))) /\
    served c wv ws keys stride (contents d) (filter (is_stored c keys (contents d)) (seqZ 0 n)) no_hits s.
Proof.
  intros Hr Hb Hst Hmax. destruct (rocks_check_facts c Hcheck) as ((e & He & Hnb) & _).
  assert (0 < nb) by (rewrite Hnb; by apply pow2_pos).
  destruct (find_lemma wv ws stride d no_hits Hr Hb Hst Hmax) as (s & E & Hs).
  { intros w. pose proof (pow2_pos nb ltac:(lia)). split; simpl; lia. }
  exists s. split; [done|]. rewrite (hit_positions_stored c n keys (contents d) e wv ws stride s) by done.
  unfold found_positions in Hs. rewrite (filter_id (missing c (rf_mask no_hits))) in Hs
    by (intros x _; unfold missing; apply Z.bits_0).
  split; [done|]. split; [|done]. by rewrite (sv_hits _ _ _ _ _ _ _ _ _ Hs).
Qed.

Lemma update_lemma d stride size values :
  readable d -> writable d -> rows_bounded (contents d) -> row <= stride -> Z.min n nb <= max_batch_size c -> 0 <= size <= row ->
  exists d', rocks_update c n (Some keys) stride size (Some values) d = (d', Ok tt) /\
    contents d' = fold_left (map_update (key_slice c keys) (fun i => mem_read values (i * stride) size)) (seqZ 0 n) (contents d).
Proof.
  intros Hr Hw Hb Hst Hmax Hs. destruct (rocks_check_facts c Hcheck) as (_ & _ & Hv & _).
  destruct (update_find false false stride d Hr Hb Hst Hmax) as (s & E & Ep & Eh & _).
  unfold rocks_update. rewrite (proj2 (Z.leb_gt n 0)), E, Ep, Eh by lia.
  rewrite <- (map_update_filter _ _ _ (contents d)) by done.
  rewrite (filter_ext_in (fun i => is_Some (contents d !! key_slice c keys i)) (is_stored c keys (contents d))) by done.
  set (l := filter (is_stored c keys (contents d)) (seqZ 0 n)).
  destruct (Z.eqb_spec (Z.of_nat (length l)) 0) as [Hz|Hz].
  { exists d. split; [done|]. by rewrite (nil_length_inv l) by lia. }
  unfold value_size_ok. rewrite !(proj2 (Z.leb_le _ _)) by lia. cbn [negb andb write_positions].
  rewrite <- apply_puts. destruct (writes_lemma (max_batch_size c) _ d Hw
    (puts_fit (fun i => mem_read values (i * stride) size) l ltac:(intros i; apply read_length; lia))) as (d' & Ew & _ & Hc).
  by exists d'.
Qed.

(** ** update_accumulate *)

(** The row written at a position: the row stored before the call, extended by
    zeros to the size of the update, with the update of this position added. *)
Definition accumulated (add_element : DataType_t -> DataType_t -> list Z -> list Z -> list Z) (T : DataType_t)
    (updates : memory) (ustride usize : Z) (m : gmap (list Z) (list Z)) (ij : Z) : list Z :=
  match m !! key_slice c keys ij with
  | Some v => mem_read (cpu_update_kernel add_element T T (ij * row) updates (ij * ustride) usize
                          (store_bytes (fun _ => 0) (ij * row) v)) (ij * row) (Z.max (Z.of_nat (length v)) usize)
  | None => []
  end.

Section Accumulate.
Context (add_element : DataType_t -> DataType_t -> list Z -> list Z -> list Z) (T : DataType_t).
Context (updates : memory) (ustride usize : Z) (m : gmap (list Z) (list Z)) (sizes : Z -> Z).
Context (Hadd : forall t u, Z.of_nat (length (add_element T T t u)) = elem_size T) (Hsz : 0 < elem_size T).
Context (Husize : 0 <= usize <= row) (Hb : rows_bounded m).
Local Abbreviation acc_op := (accumulate_op c add_element T T keys updates ustride usize sizes).

(** The scratch memory still has the row that was looked up. *)
Definition row_read (M : memory) (ij : Z) : Prop :=
  forall v, m !! key_slice c keys ij = Some v ->
  forall x, ij * row <= x < ij * row + row -> M x = store_bytes (fun _ => 0) (ij * row) v x.

Lemma accumulate_ops l M ops :
  NoDup l -> (forall ij, ij ∈ l -> is_stored c keys m ij) -> (forall ij, ij ∈ l -> row_read M ij) ->
  (forall ij v, ij ∈ l -> m !! key_slice c keys ij = Some v -> sizes ij = Z.of_nat (length v)) ->
  (fold_left acc_op l (M, ops)).2 =
    ops ++ ((fun ij => Put (key_slice c keys ij) (accumulated add_element T updates ustride usize m ij)) <$> l).
Proof.
  revert M ops. induction l as [|ij l IH]; intros M ops Hnd Hst HM Hsizes; [by rewrite app_nil_r|].
  cbn [fold_left]. rewrite (surjective_pairing (acc_op (M, ops) ij)).
  apply NoDup_cons in Hnd as [Hnin Hnd]. destruct (Hst ij) as [v E]; [by left|]. unfold db_row in E.
  rewrite IH; [|done|intros; apply Hst; by right| |intros; eapply Hsizes; [by right|done] ].
  - cbn [accumulate_op fst snd]. rewrite fmap_cons, <- (assoc_L (++)). f_equal. cbn [app]. f_equal. f_equal.
    unfold accumulated. rewrite E, (Hsizes ij v) by (done || by left). apply mem_read_ext. intros x Hx.
    apply (kernel_row _ _ _ _ _ _ row); [done|done|done| |pose proof (Hb _ _ E); lia].
    intros y Hy. apply (HM ij ltac:(by left) v E y Hy).
  - intros ij' Hin v' E' x Hx. cbn [accumulate_op fst]. rewrite (proj2 (kernel_row _ _ _ _ _ _ row M M Hadd Hsz Husize ltac:(done))).
    + apply (HM ij' ltac:(by right) v' E' x Hx).
    + assert (ij' <> ij) by (intros ->; done). destruct (Z.lt_ge_cases ij ij'); [right|left]; nia.
Qed.
End Accumulate.

(** What the lookup of [update_accumulate] leaves in the scratch memory. *)
Lemma rows_read ws d l s :
  rows_bounded (contents d) -> 0 < row ->
  served c true ws keys row (contents d) l no_hits s -> forall ij, ij ∈ l -> row_read (contents d) (rf_values s) ij.
Proof.
  intros Hb Hrow Hs ij Hij v E x Hx. unfold store_bytes.
  destruct (Z.lt_ge_cases x (ij * row + Z.of_nat (length v))) as [Hlt|Hge].
  - destruct (lookup_lt_is_Some_2 v (Z.to_nat (x - ij * row))) as [b Eb]; [lia|]. rewrite Eb, (proj2 (Z.leb_le _ _)) by lia.
    pose proof (sv_rows _ _ _ _ _ _ _ _ _ Hs ij v eq_refl Hij E) as Er. rewrite <- Er in Eb. unfold mem_read in Eb.
    rewrite list_lookup_fmap, lookup_seqZ_lt in Eb by lia. cbn [fmap option_fmap option_map] in Eb. injection Eb as <-. f_equal. lia.
  - rewrite lookup_ge_None_2 by lia. rewrite (sv_rest _ _ _ _ _ _ _ _ _ Hs); [done|].
    intros ij' v' _ _ E'. pose proof (Hb _ _ E'). pose proof (Hb _ _ E).
    destruct (decide (ij' = ij)) as [->|]; [|destruct (Z.lt_ge_cases ij ij'); nia].
    assert (v' = v) as -> by (unfold db_row in E'; congruence). lia.
Qed.

Lemma accumulate_lemma add_element d updates ustride usize :
  (forall t u, Z.of_nat (length (add_element (value_dtype (rt_base c)) (value_dtype (rt_base c)) t u)) =
     elem_size (value_dtype (rt_base c))) ->
  has_update_kernel (value_dtype (rt_base c)) = true -> 0 < elem_size (value_dtype (rt_base c)) ->
  readable d -> writable d -> rows_bounded (contents d) -> Z.min n nb <= max_batch_size c -> 0 <= usize <= row ->
  exists d', rocks_update_accumulate c add_element n (Some keys) ustride usize (Some updates) (value_dtype (rt_base c)) d
      = (d', Ok tt) /\
    contents d' = fold_left (map_insert (key_slice c keys)
        (accumulated add_element (value_dtype (rt_base c)) updates ustride usize (contents d)))
      (filter (is_stored c keys (contents d)) (seqZ 0 n)) (contents d).
Proof.
  intros Hadd Hker Hsz Hr Hw Hb Hmax Hs. destruct (rocks_check_facts c Hcheck) as (_ & _ & Hv & _).
  destruct (update_find true true row d Hr Hb ltac:(lia) Hmax) as (s & E & Ep & Eh & Hserved).
  unfold rocks_update_accumulate. rewrite (proj2 (Z.leb_gt n 0)), E, Ep, Eh by lia.
  set (l := filter (is_stored c keys (contents d)) (seqZ 0 n)) in *.
  destruct (Z.eqb_spec (Z.of_nat (length l)) 0) as [Hz|Hz].
  { exists d. split; [done|]. by rewrite (nil_length_inv l) by lia. }
  unfold value_size_ok, pick_cpu_update_kernel. rewrite !(proj2 (Z.leb_le _ _)), Hker by lia. cbn [negb andb write_positions fst snd].
  rewrite (accumulate_ops add_element _ updates ustride usize (contents d) (rf_sizes s) Hadd Hsz Hs Hb l _ []).
  - rewrite app_nil_l, <- apply_puts.
    destruct (writes_lemma (max_batch_size c) _ d Hw (puts_fit
      (accumulated add_element (value_dtype (rt_base c)) updates ustride usize (contents d)) l
      ltac:(intros i; unfold accumulated; destruct (_ !! _) as [v|] eqn:Ev;
        [apply read_length; pose proof (Hb _ _ Ev); lia|simpl; lia]))) as (d' & Ew & _ & Hc).
    by exists d'.
  - apply NoDup_filter, NoDup_seqZ.
  - intros ij [? _]%list_elem_of_filter. done.
  - intros ij Hij. apply (rows_read true d l s Hb ltac:(lia) Hserved ij Hij).
  - intros ij v Hij Ev. rewrite (sv_sizes _ _ _ _ _ _ _ _ _ Hserved), bool_decide_true by done. cbn [andb].
    unfold db_row. by rewrite Ev.
Qed.
End Refine.

(** ** Lemmas: failures *)

Lemma take_fmap_seqZ {A} (f : Z -> A) n (k : nat) :
  Z.of_nat k <= n -> take k (f <$> seqZ 0 n) = f <$> seqZ 0 (Z.of_nat k).
Proof.
  intros Hk. replace n with (Z.of_nat k + (n - Z.of_nat k)) by lia. rewrite seqZ_app, fmap_app by lia.
  rewrite take_app_length'; [done|]. rewrite length_fmap, length_seqZ. lia.
Qed.

Section Promises.
Context {db : Type} (contents : db -> gmap (list Z) (list Z)) (readable writable : db -> Prop).
Context `{RocksLaws db contents readable writable}.
Context (c : RocksDBTableConfig) (n : Z) (keys : memory).
Local Abbreviation nb := (mask_size (rt_base c) * 8).
Local Abbreviation row := (max_value_size (rt_base c)).

(** C10. A lookup in the RocksDB table of at least one key returns, for every
    [max_batch_size] that has room for the positions of one mask word (for smaller ones see
    [rocks_find_overflows]): the bits of the stored keys are set, the row and the
    size of every new hit are those of the database, every other bit, byte and
    size is unchanged, and the lookup counter grows by the number of new hits. *)
Theorem rocks_find_correct (wv ws : bool) (stride k : Z) (d : db) (s : rocks_find) :
  rocks_config_check c = Ok tt -> 0 < n -> nb <= max_batch_size c -> readable d ->
  rows_bounded c (contents d) -> row <= stride -> (forall w, in_u nb (rf_mask s w)) ->
  exists s', rocks_find_op c n (Some keys) true stride wv ws (Some k) d s =
      Ok (s', Some (k + Z.of_nat (length (found_positions c n keys (contents d) (rf_mask s))))) /\
    served c wv ws keys stride (contents d) (found_positions c n keys (contents d) (rf_mask s))
      {| rf_mask := rf_mask s; rf_values := rf_values s; rf_sizes := rf_sizes s; rf_hits := 0 |} s'.
Proof.
  intros Hc Hn Hmax Hr Hb Hst Hm.
  destruct (find_lemma contents readable writable c n keys Hc Hn wv ws stride d s Hr Hb Hst ltac:(lia) Hm) as (s' & E & Hs).
  exists s'. split; [|done]. unfold rocks_find_op. rewrite (proj2 (Z.leb_gt n 0)), E by lia.
  simpl. by rewrite (sv_hits _ _ _ _ _ _ _ _ _ Hs).
Qed.

(** C13. The modifications of the RocksDB table refine a finite map from key bytes
    to row bytes, position by position in the order of the batch (so the last of
    equal keys wins): insert, erase and the update of stored keys only, each of at
    least one key, return. [max_batch_size] has room for the positions of one mask
    word, since the update starts with a lookup (see [rocks_find_overflows]). *)
Theorem rocks_modify_refines (stride size : Z) (values : memory) (d : db) :
  rocks_config_check c = Ok tt -> 0 < n -> nb <= max_batch_size c -> readable d -> writable d ->
  rows_bounded c (contents d) -> 0 <= size <= row -> row <= stride ->
  let val i := mem_read values (i * stride) size in
  (exists d', rocks_insert c n (Some keys) stride size (Some values) d = (d', Ok tt) /\
     contents d' = fold_left (map_insert (key_slice c keys) val) (seqZ 0 n) (contents d)) /\
  (exists d', rocks_erase c n (Some keys) d = (d', Ok tt) /\
     contents d' = fold_left (map_erase (key_slice c keys)) (seqZ 0 n) (contents d)) /\
  (exists d', rocks_update c n (Some keys) stride size (Some values) d = (d', Ok tt) /\
     contents d' = fold_left (map_update (key_slice c keys) val) (seqZ 0 n) (contents d)).
Proof.
  intros Hc Hn Hmax Hr Hw Hb Hs Hst val. split_and!.
  - destruct (insert_lemma contents readable writable c n keys Hc Hn d stride size values Hw Hs) as (d' & ? & _ & ?). by exists d'.
  - destruct (erase_lemma contents readable writable c n keys Hc Hn d Hw) as (d' & ? & _ & ?). by exists d'.
  - by apply (update_lemma contents readable writable c n keys Hc Hn d stride size values Hr Hw Hb Hst ltac:(lia) Hs).
Qed.

(** When a write of [insert] fails, the call throws and the
    database has exactly the rows of the batches written before: those of the
    first [j] positions, [j] a multiple of the batch size. *)
Theorem rocks_failed_insert (stride size : Z) (values : memory) (d d' : db) (e : string) :
  rocks_config_check c = Ok tt -> 0 < n -> 0 <= size <= row ->
  rocks_insert c n (Some keys) stride size (Some values) d = (d', Throw e) ->
  exists j, 0 <= j < n /\ (Z.min n (max_batch_size c) | j) /\
    contents d' =
      fold_left (map_insert (key_slice c keys) (fun i => mem_read values (i * stride) size)) (seqZ 0 j) (contents d).
Proof.
  intros Hc Hn Hs E. destruct (rocks_check_facts c Hc) as (_ & _ & Hv & Hmb).
  unfold rocks_insert, value_size_ok in E. rewrite (proj2 (Z.leb_gt n 0)), !(proj2 (Z.leb_le _ _)) in E by lia. cbn [negb andb] in E.
  apply (write_loop_failed contents readable writable) in E as (k & Hk & Hd); [|lia|simpl; lia|].
  2:{ apply puts_fit; [done|]. intros i. apply read_length. lia. }
  rewrite app_nil_l, length_fmap, length_seqZ in Hk. rewrite app_nil_l, take_fmap_seqZ, apply_puts in Hd by lia.
  exists (Z.of_nat (k * Z.to_nat (Z.min n (max_batch_size c)))). split_and!; [lia|lia| |done].
  rewrite Nat2Z.inj_mul, Z2Nat.id by lia. apply Z.divide_factor_r.
Qed.

(** [update_accumulate] writes, for every position whose key is stored, the
    row stored before the call with the update of that position added (types
    equal); so of several positions with the same key only the last counts. *)
Theorem rocks_accumulate_correct (add_element : DataType_t -> DataType_t -> list Z -> list Z -> list Z)
    (ustride usize : Z) (updates : memory) (d : db) :
  let T := value_dtype (rt_base c) in
  rocks_config_check c = Ok tt -> 0 < n -> nb <= max_batch_size c -> readable d -> writable d ->
  (forall t u, Z.of_nat (length (add_element T T t u)) = elem_size T) ->
  has_update_kernel T = true -> 0 < elem_size T -> rows_bounded c (contents d) -> 0 <= usize <= row ->
  exists d', rocks_update_accumulate c add_element n (Some keys) ustride usize (Some updates) T d = (d', Ok tt) /\
    contents d' = fold_left (map_insert (key_slice c keys) (accumulated c keys add_element T updates ustride usize (contents d)))
      (filter (is_stored c keys (contents d)) (seqZ 0 n)) (contents d).
Proof. intros T Hc Hn Hmax Hr Hw Hadd Hk Hsz Hb Hu. apply (accumulate_lemma contents readable writable); done || lia. Qed.

End Promises.

(** [size] counts the entries. *)
Lemma rocks_size_exact {db : Type} (contents : db -> gmap (list Z) (list Z)) (readable writable : db -> Prop)
    `{RocksLaws db contents readable writable} d :
  readable d -> rocks_size true d = Ok (Z.of_nat (size (contents d))).
Proof. intros Hr. unfold rocks_size. by rewrite (iterate_all d Hr), length_map_to_list. Qed.

(** A column family is created once: the second table with its name shares it. *)
Lemma rocks_produce_shares {handle} (GetName : handle -> string) Create c c' cfs cfs' b h :
  (forall name cf, Create name = inr cf -> GetName cf = name) ->
  rocks_produce handle GetName Create c cfs = (cfs', Ok (b, h)) ->
  column_family c' = column_family c -> rocks_config_check c' = Ok tt ->
  rocks_produce handle GetName Create c' cfs' = (cfs', Ok (mask_size (rt_base c'), h)).
Proof.
  intros Hname E Hcf Hc'. unfold rocks_produce in *. rewrite Hc', Hcf.
  assert (rocks_make_table handle c' h = Ok (mask_size (rt_base c'), h)) as Hmk.
  { unfold rocks_make_table. revert Hc'. unfold rocks_config_check, host_table_config_check.
    by destruct (existsb (Z.eqb (mask_size (rt_base c'))) _). }
  destruct (rocks_config_check c) as [[]| |]; [|done..].
  destruct (List.find _ cfs) as [cf|] eqn:Ef.
  - injection E as <- E. rewrite Ef. unfold rocks_make_table in E. destruct (existsb _ _); [|done].
    injection E as _ ->. by rewrite Hmk.
  - destruct (Create (column_family c)) as [|cf] eqn:Ec; [done|]. injection E as <- E.
    unfold rocks_make_table in E. destruct (existsb _ _); [|done]. injection E as _ ->.
    assert (List.find (fun cf => String.eqb (GetName cf) (column_family c)) (cfs ++ [h]) = Some h) as ->; [|by rewrite Hmk].
    clear -Ef Ec Hname. induction cfs as [|x cfs IH]; simpl in *.
    + by rewrite (Hname _ _ Ec), String.eqb_refl.
    + destruct (String.eqb _ _); [done|]. by apply IH.
Qed.

(** ** A database in memory, with an optional number of writes it accepts *)

Module Demo.
Record demo_db := { rows : gmap (list Z) (list Z); writes_left : option nat }.

#[export] Instance demo_rocksdb : RocksDB demo_db := {|
  Append _ _ := None;
  Write d ops :=
    match writes_left d with
    | None => ({| rows := fold_left apply_op ops (rows d); writes_left := None |}, None)
    | Some (S k) => ({| rows := fold_left apply_op ops (rows d); writes_left := Some k |}, None)
    | Some O => (d, Some "No space left on device"%string)
    end;
  MultiGet d ks := get_of (rows d) <$> ks;
  DeleteRange d lo hi :=
    ({| rows := filter (fun kv => in_key_range lo hi kv.1 = false) (rows d); writes_left := writes_left d |}, None);
  Iterate d := map_to_list (rows d);
  EstimateNumKeys d := inr (Z.of_nat (size (rows d)))
|}.

#[export] Instance demo_laws : RocksLaws demo_db rows (fun _ => True) (fun d => writes_left d = None).
Proof.
  constructor; try done.
  - intros d ops d'. simpl. destruct (writes_left d) as [[|k]|]; [done|..]; by intros [= <-].
  - intros d ops d' e. simpl. destruct (writes_left d) as [[|k]|]; [|done..]. by intros [= <- _].
  - intros d ops Hd. simpl. rewrite Hd. eauto.
  - intros d lo hi d' E. simpl in E. by injection E as <-.
  - intros d lo hi _. simpl. eauto.
Qed.

Definition demo_config (mask batch : Z) : RocksDBTableConfig :=
  {| rt_base := {| mask_size := mask; key_size := 1; max_value_size := 4; value_dtype := Float16; invalid_key := -1 |};
     max_batch_size := batch; column_family := "default"; verify_checksums := true |}.
Definition demo_keys : memory := fun a => 124 + a.
Definition demo_store : demo_db := {| rows := {[ [125] := [1; 2]; [126] := [3; 4; 5] ]}; writes_left := None |}.
Definition demo_full : demo_db := {| rows := ∅; writes_left := Some 1%nat |}.

Lemma demo_bounded : rows_bounded (demo_config 1 8) (rows demo_store).
Proof.
  intros k v. simpl. rewrite lookup_insert_Some, lookup_singleton_Some. intros [[_ <-]|[_ [_ <-]]]; simpl; lia.
Qed.
Lemma demo_mask_ok w : in_u (1 * 8) (rf_mask no_hits w).
Proof. split; simpl; lia. Qed.

Lemma rocks_find_correct_witness :
  exists s, rocks_find_op (demo_config 1 8) 3 (Some demo_keys) true 4 true true (Some 5) demo_store no_hits = Ok (s, Some 7) /\
    mem_read (rf_values s) 4 2 = [1; 2].
Proof.
  destruct (rocks_find_correct rows (fun _ => True) (fun d => writes_left d = None) (demo_config 1 8) 3 demo_keys
    true true 4 5 demo_store no_hits eq_refl eq_refl ltac:(simpl; lia) I demo_bounded ltac:(simpl; lia) demo_mask_ok)
    as (s & E & Hs).
  assert (found_positions (demo_config 1 8) 3 demo_keys (rows demo_store) (rf_mask no_hits) = [1; 2]) as Ef
    by (vm_compute; reflexivity).
  rewrite Ef in E, Hs. exists s. split; [exact E|]. apply (sv_rows _ _ _ _ _ _ _ _ _ Hs 1 [1; 2]); [done|by left|done].
Defined.

Lemma rocks_modify_refines_witness :
  exists d, rocks_update (demo_config 1 8) 3 (Some demo_keys) 4 2 (Some (fun a => a)) demo_store = (d, Ok tt) /\
    rows d !! [125] = Some [4; 5] /\ rows d !! [124] = None.
Proof.
  destruct (rocks_modify_refines rows (fun _ => True) (fun d => writes_left d = None) (demo_config 1 8) 3 demo_keys
    4 2 (fun a => a) demo_store eq_refl eq_refl ltac:(simpl; lia) I eq_refl demo_bounded ltac:(simpl; lia) ltac:(simpl; lia))
    as (_ & _ & d & E & Hd).
  exists d. split; [exact E|]. rewrite Hd. by vm_compute.
Defined.

Lemma rocks_failed_insert_witness :
  exists d, rocks_insert (demo_config 1 2) 3 (Some demo_keys) 4 2 (Some (fun a => a)) demo_full =
      (d, Throw "No space left on device") /\
    exists j, 0 <= j < 3 /\ (2 | j) /\
      rows d = fold_left (map_insert (key_slice (demo_config 1 2) demo_keys) (fun i => mem_read (fun a => a) (i * 4) 2)) (seqZ 0 j) ∅.
Proof.
  eexists. split; [vm_compute; reflexivity|].
  eapply (rocks_failed_insert rows (fun _ => True) (fun d => writes_left d = None) (demo_config 1 2) 3 demo_keys
    4 2 (fun a => a) demo_full); [reflexivity|reflexivity|simpl; lia|vm_compute; reflexivity].
Defined.

(** Adding bytes without carry. *)
Definition demo_add (T U : DataType_t) (t u : list Z) : list Z :=
  (fun i => t !!! i + u !!! i) <$> seq 0 (Z.to_nat (elem_size T)).

Lemma rocks_accumulate_correct_witness :
  exists d, rocks_update_accumulate (demo_config 1 8) demo_add 2 (Some (fun _ => 125)) 4 2 (Some (fun a => 10 + a)) Float16 demo_store
      = (d, Ok tt) /\ rows d !! [125] = Some [1 + 14; 2 + 15].
Proof.
  destruct (rocks_accumulate_correct rows (fun _ => True) (fun d => writes_left d = None) (demo_config 1 8) 2 (fun _ => 125)
    demo_add 4 2 (fun a => 10 + a) demo_store eq_refl eq_refl ltac:(simpl; lia) I eq_refl
    ltac:(intros; unfold demo_add; rewrite length_fmap, length_seq; reflexivity) eq_refl eq_refl demo_bounded ltac:(simpl; lia))
    as (d & E & Hd).
  exists d. split; [exact E|]. rewrite Hd. vm_compute. reflexivity.
Defined.

Lemma rocks_clear_leaves_keys_witness :
  exists d, rocks_clear demo_store = (d, Ok tt) /\ rows d !! [125] = None /\ rows d !! [126] = Some [3; 4; 5].
Proof.
  destruct (rocks_clear_leaves_keys rows (fun _ => True) (fun d => writes_left d = None) demo_store eq_refl) as (d & E & Hd).
  exists d. split; [exact E|]. split; rewrite Hd; reflexivity.
Defined.

Lemma rocks_find_overflows_witness :
  rocks_config_check (demo_config 8 8) = Ok tt /\
  rocks_find_ (demo_config 8 8) true true 9 demo_keys 4 demo_store no_hits = Undef "k_views out of bounds".
Proof.
  split; [reflexivity|].
  apply (rocks_find_overflows (demo_config 8 8) 9 demo_keys); [reflexivity|reflexivity|simpl; lia|reflexivity].
Defined.
End Demo.
