(* ===== verification/NvhmTable.v ===== *)
(** * The hash-map host table: [plugins/nvhm/src/nvhm_map_table.cpp]

    [NvhmMapTable] spreads its keys over partitions, each an [nvhm::map] from a key
    to a metadata value and a row of [max_value_size] bytes. The map is a library
    and a parameter here, with the contract of a hash map (class [NvhmMap],
    [NvhmLaws]). This file has the configuration, the modifications and the
    factory; the lookup is in [NvhmFind]. *)
From stdpp Require Import sorting.
From S2P Require Import Prelude BitOps Float32 DataTypes HostTable StlTable.

Record NvhmMapTableConfig := {
  nv_base : HostTableConfig;
  nv_num_partitions : Z;
  nv_partitioner : Partitioner_t;
  nv_workgroups : list Z;
  nv_max_find_task_size : Z;
  kernel_size : Z;
  initial_capacity : Z;
  nv_value_alignment : Z;
  key_fetch_queue_length : Z;
  nv_prefetch_values : bool;
  minimize_psl : bool;
  auto_shrink : bool;
  nv_overflow_policy : OverflowPolicyConfig
}.

(** [NvhmMapTableConfig::check]; the operand of [has_single_bit] is converted to
    [uint64_t]. *)
Definition nvhm_config_check (c : NvhmMapTableConfig) : outcome unit :=
  let! _ := host_table_config_check (nv_base c) in
  check! (0 <=? nv_num_partitions c) && has_single_bit (wrapu 64 (nv_num_partitions c)) as "num_partitions" in
  check! negb (bool_decide (nv_workgroups c = [])) as "!workgroups.empty()" in
  check! (0 <? nv_max_find_task_size c) as "max_find_task_size > 0" in
  check! (key_fetch_queue_length c =? 0) ||
         ((key_fetch_queue_length c <=? 8) && has_single_bit (wrapu 64 (key_fetch_queue_length c)))
    as "key_fetch_queue_length" in
  check! (0 <=? initial_capacity c) as "initial_capacity >= 0" in
  check! (0 <=? nv_value_alignment c) && has_single_bit (wrapu 64 (nv_value_alignment c)) as "value_alignment" in
  overflow_policy_check (nv_overflow_policy c).

(** ** The factory: the template arguments of the table (every feature macro
    enabled), then the constructor, which checks the configuration in its base. *)

Definition make_nvhm_map_table_6 (c : NvhmMapTableConfig) : outcome Partitioner_t :=
  if nv_num_partitions c =? 1 then Ok AlwaysZero
  else match nv_partitioner c with
       | AlwaysZero => Throw "config.partitioner is out of bounds!"
       | p => Ok p
       end.
Definition make_nvhm_map_table_3 (c : NvhmMapTableConfig) : outcome (Z * bool * bool * Partitioner_t) :=
  if existsb (Z.eqb (kernel_size c)) [1; 2; 4; 8; 16; 32; 64; 128] then
    let! p := make_nvhm_map_table_6 c in Ok (kernel_size c, minimize_psl c, auto_shrink c, p)
  else Throw "config.kernel_size is out of bounds!".
Definition make_nvhm_map_table_1 (c : NvhmMapTableConfig)
  : outcome (OverflowHandler_t * (Z * bool * bool * Partitioner_t)) :=
  if existsb (Z.eqb (key_size (nv_base c))) [1; 2; 4; 8] then
    let! k := make_nvhm_map_table_3 c in Ok (handler (nv_overflow_policy c), k)
  else Throw "config.key_size is out of bounds!".
Definition nvhm_produce (c : NvhmMapTableConfig) : outcome (OverflowHandler_t * (Z * bool * bool * Partitioner_t)) :=
  if existsb (Z.eqb (mask_size (nv_base c))) [1; 2; 4; 8] then
    let! k := make_nvhm_map_table_1 c in
    let! _ := nvhm_config_check c in
    Ok k
  else Throw "config.mask_size is out of bounds!".

(** ** The map

    [nv_lookup] is [lookup] and [update], [None] for [npos]; [nv_upsert] also
    returns the size it reports; [nv_set_row] and [nv_row] are the raw values at a
    position, [nv_set_meta] and [nv_meta] the value at a position. *)
Class NvhmMap (M P : Type) := {
  nv_new : M;
  nv_lookup : M -> Z -> option P;
  nv_upsert : M -> Z -> Z -> M * P * Z;
  nv_erase : M -> Z -> M;
  nv_clear : M -> M;
  nv_size : M -> Z;
  nv_row : M -> P -> list Z;
  nv_set_row : M -> P -> list Z -> M;
  nv_meta : M -> P -> Z;
  nv_set_meta : M -> P -> Z -> M;
  nv_keys : M -> list Z;
  nv_keys_values : M -> list (Z * Z);
  nv_transform : (Z -> Z) -> M -> M
}.

(** A row whose first bytes are replaced. *)
Definition overwrite (d r : list Z) : list Z := d ++ drop (length d) r.

(** The contract, on the finite map of the rows and metadata; the row of a key
    that is new has any contents. *)
Class NvhmLaws (M P : Type) `{NvhmMap M P} (row : Z) (entries : M -> gmap Z (list Z * Z)) : Prop := {
  nl_new : entries nv_new = ∅;
  nl_row m k r v : entries m !! k = Some (r, v) -> Z.of_nat (length r) = row;
  nl_lookup m k : match entries m !! k with
                  | Some (r, v) => exists q, nv_lookup m k = Some q /\ nv_row m q = r /\ nv_meta m q = v
                  | None => nv_lookup m k = None
                  end;
  nl_upsert_old m k n : is_Some (entries m !! k) ->
    exists m' q, nv_upsert m k n = (m', q, n) /\ entries m' = entries m /\ nv_lookup m' k = Some q;
  nl_upsert_new m k n : entries m !! k = None ->
    exists m' q r v, nv_upsert m k n = (m', q, n + 1) /\ entries m' = <[k := (r, v)]> (entries m) /\ nv_lookup m' k = Some q;
  nl_erase m k : entries (nv_erase m k) = delete k (entries m);
  nl_clear m : entries (nv_clear m) = ∅;
  nl_size m : nv_size m = Z.of_nat (size (entries m));
  nl_set_row m k q d r v : nv_lookup m k = Some q -> entries m !! k = Some (r, v) -> Z.of_nat (length d) <= row ->
    entries (nv_set_row m q d) = <[k := (overwrite d r, v)]> (entries m) /\ nv_lookup (nv_set_row m q d) k = Some q;
  nl_set_meta m k q r v v' : nv_lookup m k = Some q -> entries m !! k = Some (r, v) ->
    entries (nv_set_meta m q v') = <[k := (r, v')]> (entries m);
  nl_meta_lookup m k q v' : nv_lookup (nv_set_meta m q v') k = nv_lookup m k;
  nl_meta_row m q q' v' : nv_row (nv_set_meta m q v') q' = nv_row m q';
  nl_keys m : nv_keys m ≡ₚ (map_to_list (entries m)).*1;
  nl_keys_values m : nv_keys_values m ≡ₚ (fun kv => (kv.1, kv.2.2)) <$> map_to_list (entries m);
  nl_transform f m : entries (nv_transform f m) = (fun rv => (rv.1, f rv.2)) <$> entries m
}.

Section Modify.
Context {M P : Type} `{NvhmMap M P}.
Variable c : NvhmMapTableConfig.
Variable p : Partitioner_t.
(** [std::shuffle], and [std::sort] ascending by the metadata, which leaves open
    the order of entries with equal metadata. *)
Variable shuffle : list Z -> list Z.
Variable sort_by_meta : list (Z * Z) -> list (Z * Z).
Local Abbreviation row := (max_value_size (nv_base c)).
Local Abbreviation policy := (nv_overflow_policy c).
Local Abbreviation num_parts parts := (Z.of_nat (length parts)).

(** The constructor. *)
Definition nvhm_new : list M := replicate (Z.to_nat (nv_num_partitions c)) nv_new.

Definition nvhm_clear (parts : list M) : list M := nv_clear <$> parts.

Definition nvhm_erase (keys : list Z) (parts : list M) : outcome (list M) :=
  each_part (fun i m => Ok (fold_left nv_erase (snd <$> my_keys p (num_parts parts) keys i) m)) 0 parts.

Definition nvhm_size (parts : list M) : Z := fold_left (fun n m => n + nv_size m) parts 0.

Definition nvhm_update_key (values : memory) (value_stride value_size : Z) (m : M) (ik : Z * Z) : M :=
  match nv_lookup m ik.2 with
  | None => m
  | Some pos => nv_set_row m pos (mem_read values (ik.1 * value_stride) value_size)
  end.

Definition nvhm_update (keys : list Z) (value_stride value_size : Z) (values : memory) (parts : list M) : outcome (list M) :=
  if bool_decide (keys = []) then Ok parts
  else
    check! (0 <=? value_size) && (value_size <=? row) as "value_size" in
    each_part (fun i m =>
      Ok (fold_left (nvhm_update_key values value_stride value_size) (my_keys p (num_parts parts) keys i) m)) 0 parts.

(** The kernel on the raw values of the position, read and written as a memory of
    their own; an update that covers more than the row leaves them. *)
Definition nvhm_accumulate_key (add_element : DataType_t -> DataType_t -> list Z -> list Z -> list Z) (T U : DataType_t)
    (updates : memory) (update_stride update_size : Z) (m : M) (ik : Z * Z) : outcome M :=
  match nv_lookup m ik.2 with
  | None => Ok m
  | Some pos =>
      if row <? update_extent T U update_size then Undef "write past the row"
      else
        Ok (nv_set_row m pos (mem_read (cpu_update_kernel add_element T U 0 updates (ik.1 * update_stride) update_size
                                          (store_bytes (fun _ => 0) 0 (nv_row m pos))) 0 row))
  end.

Definition nvhm_update_accumulate (add_element : DataType_t -> DataType_t -> list Z -> list Z -> list Z)
    (keys : list Z) (update_stride update_size : Z) (updates : memory) (update_dtype : DataType_t) (parts : list M)
  : outcome (list M) :=
  if bool_decide (keys = []) then Ok parts
  else
    check! (0 <=? update_size) && (update_size <=? row) as "update_size" in
    let! k := pick_cpu_update_kernel (value_dtype (nv_base c)) update_dtype in
    each_part (fun i m =>
      ofoldl (nvhm_accumulate_key add_element k.1 k.2 updates update_stride update_size)
             (my_keys p (num_parts parts) keys i) m) 0 parts.

(** Erase the first keys of an eviction order until [resolution] are left. *)
Definition erase_until (resolution : Z) (keys : list Z) (m : M) : outcome M :=
  if Z.of_nat (length keys) <? resolution then Undef "iterator before the beginning"
  else Ok (fold_left nv_erase (take (length keys - Z.to_nat resolution) keys) m).

(** The resolution of an overflow; the copies of the keys are checked to fill
    vectors of the size of the map. *)
Definition nvhm_resolve (resolution : Z) (m : M) : outcome M :=
  match handler policy with
  | EvictRandom =>
      check! Z.of_nat (length (nv_keys m)) =? nv_size m as "it == keys.end()" in
      erase_until resolution (shuffle (nv_keys m)) m
  | h =>
      check! Z.of_nat (length (nv_keys_values m)) =? nv_size m as "it == keys_metas.end()" in
      let! m := erase_until resolution (fst <$> sort_by_meta (nv_keys_values m)) m in
      Ok (match h with EvictLFU => nv_transform (fun meta => Z.shiftr meta 1) m | _ => m end)
  end.

(** The body of the loop of [insert] for the key at index [i]; the second
    component is [part_size]. *)
Definition nvhm_insert_key (resolution : Z) (values : memory) (value_stride value_size lru_value : Z)
    (st : M * Z) (ik : Z * Z) : outcome (M * Z) :=
  let '(m, part_size) := st in
  let '(i, key) := ik in
  let '(m, pos, new_part_size) := nv_upsert m key part_size in
  let m := nv_set_row m pos (mem_read values (i * value_stride) value_size) in
  if new_part_size =? part_size then Ok (m, part_size)
  else
    let m := match handler policy with
             | EvictRandom => m
             | EvictLRU => nv_set_meta m pos lru_value
             | EvictLFU => nv_set_meta m pos 1
             end in
    if new_part_size <? overflow_margin policy then Ok (m, new_part_size)
    else let! m := nvhm_resolve resolution m in Ok (m, nv_size m).

Definition nvhm_insert_part (resolution : Z) (values : memory) (value_stride value_size lru_value : Z)
    (iks : list (Z * Z)) (m : M) : outcome M :=
  let! st := ofoldl (nvhm_insert_key resolution values value_stride value_size lru_value) iks (m, nv_size m) in
  Ok st.1.

Definition nvhm_insert (keys : list Z) (value_stride value_size lru_value : Z) (values : memory) (parts : list M)
  : outcome (list M) :=
  if bool_decide (keys = []) then Ok parts
  else
    check! (0 <=? value_size) && (value_size <=? row) as "value_size" in
    let! resolution := f64_to_int64 (f64_mul (f64_of_Z (overflow_margin policy)) (resolution_margin policy)) in
    each_part (fun i m =>
      nvhm_insert_part resolution values value_stride value_size lru_value (my_keys p (num_parts parts) keys i) m) 0 parts.
End Modify.

(** ** Lemmas: one partition *)

Section PartLemmas.
Context {M P : Type} `{HM : NvhmMap M P} (c : NvhmMapTableConfig) (entries : M -> gmap Z (list Z * Z)).
Local Abbreviation row := (max_value_size (nv_base c)).
Local Abbreviation policy := (nv_overflow_policy c).
Context {HL : NvhmLaws M P row entries}.
Context (shuffle : list Z -> list Z) (sort_by_meta : list (Z * Z) -> list (Z * Z)).
Context (Hshuffle : forall l, shuffle l ≡ₚ l) (Hsort : forall l, sort_by_meta l ≡ₚ l).
Context (Hsorted : forall l, StronglySorted (fun x y => x.2 <= y.2) (sort_by_meta l)).

(** The row of a key. *)
Definition nv_row_of (m : M) (k : Z) : option (list Z) := fst <$> entries m !! k.

Lemma lookup_present m k r v : entries m !! k = Some (r, v) ->
  exists q, nv_lookup m k = Some q /\ nv_row m q = r /\ nv_meta m q = v.
Proof. intros E. pose proof (nl_lookup m k) as Hl. by rewrite E in Hl. Qed.

Lemma lookup_absent m k : entries m !! k = None -> nv_lookup m k = None.
Proof. intros E. pose proof (nl_lookup m k) as Hl. by rewrite E in Hl. Qed.

Lemma read_len (values : memory) a k : 0 <= k -> Z.of_nat (length (mem_read values a k)) = k.
Proof. intros. unfold mem_read. rewrite length_fmap, length_seqZ. lia. Qed.

Lemma fold_erase_entries l m k : entries (fold_left nv_erase l m) !! k = if decide (k ∈ l) then None else entries m !! k.
Proof.
  revert m. induction l as [|x l IH]; intros m; cbn [fold_left].
  { rewrite decide_False by apply not_elem_of_nil. done. }
  rewrite IH, nl_erase. destruct (decide (k ∈ l)) as [Hin|Hnin].
  - by rewrite decide_True by by right.
  - destruct (decide (k = x)) as [->|Hne].
    + by rewrite decide_True, lookup_delete_eq by by left.
    + rewrite decide_False, lookup_delete_ne by (rewrite ?elem_of_cons; naive_solver). done.
Qed.

Lemma fold_erase_size l m :
  NoDup l -> (forall k, k ∈ l -> is_Some (entries m !! k)) ->
  size (entries (fold_left nv_erase l m)) = (size (entries m) - length l)%nat.
Proof.
  revert m. induction l as [|x l IH]; intros m Hnd Hin; simpl; [lia|]. apply NoDup_cons in Hnd as [Hx Hnd].
  rewrite IH.
  - rewrite nl_erase. rewrite map_size_delete_Some by (apply Hin; by left). lia.
  - done.
  - intros k Hk. rewrite nl_erase, lookup_delete_ne by (intros ->; done). apply Hin. by right.
Qed.

(** A map after an eviction: [resolution] entries of [e] are left, the others
    are gone. *)
Record evicted (resolution : Z) (halve : bool) (e e' : gmap Z (list Z * Z)) : Prop := {
  ev_size : Z.of_nat (size e') = resolution;
  ev_kept : forall k r v, e' !! k = Some (r, v) -> exists w, e !! k = Some (r, w) /\ v = (if halve then Z.shiftr w 1 else w);
  ev_least : handler policy <> EvictRandom -> forall k1 r1 w1 k2 r2 w2,
    e !! k1 = Some (r1, w1) -> e' !! k1 = None -> e !! k2 = Some (r2, w2) -> is_Some (e' !! k2) -> w1 <= w2
}.

(** Erasing the first keys of an order of all keys. *)
Lemma erase_until_ok resolution l m :
  0 <= resolution <= Z.of_nat (size (entries m)) -> l ≡ₚ (map_to_list (entries m)).*1 ->
  exists m', erase_until resolution l m = Ok m' /\ Z.of_nat (size (entries m')) = resolution /\
    forall k, entries m' !! k = if decide (k ∈ take (length l - Z.to_nat resolution) l) then None else entries m !! k.
Proof.
  intros Hr Hp. assert (length l = size (entries m)) as Hlen by (rewrite Hp, length_fmap; apply length_map_to_list).
  unfold erase_until. rewrite (proj2 (Z.ltb_ge _ _)) by lia. eexists. split; [done|].
  split; [|intros k; apply fold_erase_entries]. rewrite fold_erase_size.
  - rewrite length_take. lia.
  - apply (sublist_NoDup _ l); [rewrite Hp; apply NoDup_fst_map_to_list|apply sublist_take].
  - intros k Hk. assert (k ∈ l) as Hk' by (apply elem_of_take in Hk as (i & ? & _); by eapply list_elem_of_lookup_2).
    rewrite Hp in Hk'. clear Hk. rename Hk' into Hk. apply list_elem_of_fmap in Hk as ([k' rv] & -> & Hkv%elem_of_map_to_list). eauto.
Qed.

(** The keys with the least metadata go first. *)
Lemma sorted_order_least n m k1 r1 w1 k2 r2 w2 :
  let l := sort_by_meta (nv_keys_values m) in
  entries m !! k1 = Some (r1, w1) -> k1 ∈ take n l.*1 -> entries m !! k2 = Some (r2, w2) -> k2 ∉ take n l.*1 -> w1 <= w2.
Proof.
  intros l E1 H1 E2 H2. assert (l ≡ₚ (fun kv => (kv.1, kv.2.2)) <$> map_to_list (entries m)) as Hp
    by (unfold l; rewrite Hsort; apply nl_keys_values).
  assert (forall k w, (k, w) ∈ l -> exists r, entries m !! k = Some (r, w)) as Hl.
  { intros k w Hin. rewrite Hp in Hin. apply list_elem_of_fmap in Hin as ([k' [r w']] & [= -> ->] & Hin%elem_of_map_to_list). eauto. }
  assert (forall k r w, entries m !! k = Some (r, w) -> (k, w) ∈ l) as Hl'.
  { intros k r w E. rewrite Hp. apply list_elem_of_fmap. exists (k, (r, w)). split; [done|by apply elem_of_map_to_list]. }
  rewrite <- fmap_take in H1, H2. apply list_elem_of_fmap in H1 as ([k w] & Ek & H1). simpl in Ek. subst k.
  assert (w = w1) as ->.
  { destruct (Hl k1 w) as [r Er]; [|congruence]. apply elem_of_take in H1 as (j & ? & _). by eapply list_elem_of_lookup_2. }
  pose proof (Hl' _ _ _ E2) as Hin. rewrite <- (take_drop n l) in Hin. apply elem_of_app in Hin as [Hin|Hin].
  { destruct H2. apply list_elem_of_fmap. by exists (k2, w2). }
  pose proof (Hsorted (nv_keys_values m)) as Hs. fold l in Hs. rewrite <- (take_drop n l) in Hs.
  exact (StronglySorted_app_1_elem_of _ _ _ _ _ Hs H1 Hin).
Qed.

Lemma nvhm_resolve_ok resolution m :
  0 <= resolution <= Z.of_nat (size (entries m)) ->
  exists m', nvhm_resolve c shuffle sort_by_meta resolution m = Ok m' /\
    evicted resolution (bool_decide (handler policy = EvictLFU)) (entries m) (entries m').
Proof.
  intros Hr. unfold nvhm_resolve.
  assert (Z.of_nat (length (nv_keys m)) = nv_size m) as Ek by (rewrite nl_keys, length_fmap, length_map_to_list; by rewrite nl_size).
  assert (Z.of_nat (length (nv_keys_values m)) = nv_size m) as Ekv
    by (rewrite nl_keys_values, length_fmap, length_map_to_list; by rewrite nl_size).
  rewrite Ek, Ekv, Z.eqb_refl. set (l := sort_by_meta (nv_keys_values m)).
  assert (l.*1 ≡ₚ (map_to_list (entries m)).*1) as Hl.
  { unfold l. rewrite Hsort, nl_keys_values, <- list_fmap_compose. done. }
  destruct (erase_until_ok resolution l.*1 m Hr Hl) as (m1 & E1 & Hs1 & He1).
  destruct (handler policy) eqn:Eh.
  - destruct (erase_until_ok resolution (shuffle (nv_keys m)) m Hr) as (m' & E & Hs & He).
    { rewrite Hshuffle. apply nl_keys. }
    exists m'. split; [done|]. constructor; [done| |by rewrite Eh].
    intros k r v. rewrite He. destruct (decide _); [done|]. eauto.
  - rewrite E1. cbn [obind]. exists m1. split; [done|]. constructor; [done| |].
    + intros k r v. rewrite He1. destruct (decide _); [done|]. eauto.
    + intros _ k1 r1 w1 k2 r2 w2 A1 A2 A3 [x A4]. rewrite He1 in A2, A4.
      destruct (decide (k1 ∈ _)) as [Hin|]; [|congruence]. destruct (decide (k2 ∈ _)) as [|Hnin]; [done|].
      by eapply sorted_order_least.
  - rewrite E1. cbn [obind]. eexists. split; [done|]. constructor.
    + by rewrite nl_transform, map_size_fmap.
    + intros k r v. rewrite nl_transform, lookup_fmap, He1. destruct (decide _); [done|].
      destruct (entries m !! k) as [[r' w]|]; [|done]. simpl. intros [= <- <-]. eauto.
    + intros _ k1 r1 w1 k2 r2 w2 A1 A2 A3 [x A4]. rewrite nl_transform, lookup_fmap, He1 in A2, A4.
      destruct (decide (k1 ∈ _)) as [Hin|]; [|by rewrite A1 in A2]. destruct (decide (k2 ∈ _)) as [|Hnin]; [done|].
      by eapply sorted_order_least.
Qed.

(** ** One key *)

Section InsertKey.
Context (resolution : Z) (values : memory) (value_stride value_size lru_value : Z).
Context (Hsize : 0 <= value_size <= row) (Hres : 0 <= resolution <= overflow_margin policy).
Local Abbreviation insert_key := (nvhm_insert_key c shuffle sort_by_meta resolution values value_stride value_size lru_value).
Local Abbreviation data i := (mem_read values (i * value_stride) value_size).

(** The metadata of a new key. *)
Definition new_meta (v : Z) : Z :=
  match handler policy with EvictRandom => v | EvictLRU => lru_value | EvictLFU => 1 end.

(** What inserting the key at index [i] does to a partition. *)
Inductive inserted (i key : Z) (e e' : gmap Z (list Z * Z)) : Prop :=
  | ins_old r v : e !! key = Some (r, v) -> e' = <[key := (overwrite (data i) r, v)]> e -> inserted i key e e'
  | ins_new r v : e !! key = None -> Z.of_nat (size e) + 1 < overflow_margin policy -> Z.of_nat (length r) = row ->
      e' = <[key := (overwrite (data i) r, new_meta v)]> e -> inserted i key e e'
  | ins_evict r v : e !! key = None -> overflow_margin policy <= Z.of_nat (size e) + 1 -> Z.of_nat (length r) = row ->
      evicted resolution (bool_decide (handler policy = EvictLFU))
        (<[key := (overwrite (data i) r, new_meta v)]> e) e' -> inserted i key e e'.

Lemma insert_key_ok m i key :
  exists m', insert_key (m, nv_size m) (i, key) = Ok (m', nv_size m') /\ inserted i key (entries m) (entries m').
Proof.
  assert (Z.of_nat (length (data i)) <= row) as Hd by (rewrite read_len; lia).
  unfold nvhm_insert_key. destruct (entries m !! key) as [[r v]|] eqn:E.
  - destruct (nl_upsert_old m key (nv_size m)) as (m1 & q & -> & E1 & L1); [eauto|].
    destruct (nl_set_row m1 key q (data i) r v L1) as [E2 _]; [congruence|done|].
    rewrite Z.eqb_refl. exists (nv_set_row m1 q (data i)). split.
    + f_equal. f_equal. rewrite !nl_size, E2, E1. f_equal. rewrite map_size_insert_Some; [done|eauto].
    + apply (ins_old _ _ _ _ r v); [done|]. by rewrite E2, E1.
  - destruct (nl_upsert_new m key (nv_size m)) as (m1 & q & r & v & -> & E1 & L1); [done|].
    destruct (nl_set_row m1 key q (data i) r v L1) as [E2 L2]; [by rewrite E1, lookup_insert_eq|done|].
    set (m2 := nv_set_row m1 q (data i)) in *. rewrite (proj2 (Z.eqb_neq _ _)) by lia.
    set (m3 := match handler policy with EvictRandom => m2 | EvictLRU => nv_set_meta m2 q lru_value | EvictLFU => nv_set_meta m2 q 1 end).
    assert (entries m3 = <[key := (overwrite (data i) r, new_meta v)]> (entries m)) as E3.
    { assert (entries m2 !! key = Some (overwrite (data i) r, v)) as Ek by (rewrite E2; apply lookup_insert_eq).
      unfold m3, new_meta. destruct (handler policy).
      - by rewrite E2, E1, insert_insert_eq.
      - rewrite (nl_set_meta m2 key q _ _ _ L2 Ek), E2, E1. by rewrite !insert_insert_eq.
      - rewrite (nl_set_meta m2 key q _ _ _ L2 Ek), E2, E1. by rewrite !insert_insert_eq. }
    assert (Z.of_nat (length r) = row) as Hr by (eapply (nl_row m1 key r v); by rewrite E1, lookup_insert_eq).
    assert (nv_size m3 = nv_size m + 1) as Es by (rewrite !nl_size, E3, map_size_insert_None by done; lia).
    pose proof (nl_size m) as Em. pose proof (nl_size m3) as Em3.
    destruct (Z.ltb_spec (nv_size m + 1) (overflow_margin policy)) as [Hlt|Hge].
    + exists m3. split; [by rewrite <- Es|]. apply (ins_new _ _ _ _ r v); done || lia.
    + destruct (nvhm_resolve_ok resolution m3) as (m4 & -> & Hev); [lia|]. cbn [obind]. exists m4. split; [done|].
      rewrite E3 in Hev. apply (ins_evict _ _ _ _ r v); done || lia.
Qed.

(** ** The keys of a batch in one partition *)

Lemma insert_part_ok l m :
  exists m', nvhm_insert_part c shuffle sort_by_meta resolution values value_stride value_size lru_value l m = Ok m' /\
    Z.of_nat (size (entries m')) <= Z.max (Z.of_nat (size (entries m))) (Z.max resolution (overflow_margin policy - 1)) /\
    (value_size = row -> Z.of_nat (size (entries m)) + Z.of_nat (length l) < overflow_margin policy -> forall k,
       nv_row_of m' k = match last_write l k with Some i => Some (data i) | None => nv_row_of m k end).
Proof.
  unfold nvhm_insert_part. revert m. induction l as [|[i key] l IH]; intros m; cbn [ofoldl].
  { exists m. split_and!; [done|lia|done]. }
  destruct (insert_key_ok m i key) as (m1 & -> & Hins). cbn [obind].
  destruct (IH m1) as (m' & E & Hb & Hrows). exists m'. split; [done|].
  assert (Z.of_nat (size (entries m1)) <= Z.of_nat (size (entries m)) + 1) as Hs1.
  { destruct Hins as [r v Ek ->|r v Ek _ _ ->|r v Ek Hov _ Hev].
    - rewrite map_size_insert_Some by eauto. lia.
    - rewrite map_size_insert_None by done. lia.
    - rewrite (ev_size _ _ _ _ Hev). lia. }
  split.
  - destruct Hins as [r v Ek Em|r v Ek Hov _ Em|r v Ek Hov _ Hev].
    + rewrite Em, map_size_insert_Some in Hb by eauto. lia.
    + rewrite Em, map_size_insert_None in Hb by done. lia.
    + rewrite (ev_size _ _ _ _ Hev) in Hb. lia.
  - intros Hv Hfit k. cbn [length] in Hfit. rewrite Hrows by lia. simpl. destruct (last_write l k); [done|].
    assert (forall r : list Z, Z.of_nat (length r) = row -> overwrite (data i) r = data i) as Hov.
    { intros r Hr. unfold overwrite. rewrite drop_ge, app_nil_r; [done|]. pose proof (read_len values (i * value_stride) value_size ltac:(lia)). lia. }
    unfold nv_row_of. destruct Hins as [r v Ek ->|r v Ek _ Hr ->|r v Ek Hm _ _]; [..|lia].
    + destruct (decide (key = k)) as [->|Hne]; [|by rewrite lookup_insert_ne].
      rewrite lookup_insert_eq. simpl. by rewrite Hov by (by eapply nl_row).
    + destruct (decide (key = k)) as [->|Hne]; [|by rewrite lookup_insert_ne].
      rewrite lookup_insert_eq. simpl. by rewrite Hov.
Qed.
End InsertKey.

(** ** The table *)

Section Table.
Context (p : Partitioner_t) (n : Z) (Hn : 0 <= n <= 62).

(** The row of a key, in its partition. *)
Definition nvhm_lookup (parts : list M) (k : Z) : option (list Z) :=
  match parts !! Z.to_nat (part_of p (Z.of_nat (length parts)) k) with Some m => nv_row_of m k | None => None end.

Lemma nvhm_home parts k : Z.of_nat (length parts) = 2 ^ n ->
  exists m, parts !! Z.to_nat (part_of p (Z.of_nat (length parts)) k) = Some m /\ nvhm_lookup parts k = nv_row_of m k.
Proof.
  intros El. pose proof (part_of_range p n Hn k) as Hp. unfold nvhm_lookup. rewrite El.
  destruct (lookup_lt_is_Some_2 parts (Z.to_nat (part_of p (2 ^ n) k))) as [m E]; [lia|]. exists m. by rewrite E.
Qed.

Lemma nvhm_table_op parts (f : Z -> M -> outcome M) (g : Z -> M -> Z -> option (list Z) -> Prop) :
  Z.of_nat (length parts) = 2 ^ n ->
  (forall i m, m ∈ parts -> exists m', f i m = Ok m' /\ forall k, g i m k (nv_row_of m' k)) ->
  exists parts', each_part f 0 parts = Ok parts' /\ length parts' = length parts /\
    forall k, exists m, m ∈ parts /\ nvhm_lookup parts k = nv_row_of m k /\
      g (part_of p (Z.of_nat (length parts)) k) m k (nvhm_lookup parts' k).
Proof.
  intros El Hf. destruct (each_part_spec f (fun i m m' => forall k, g i m k (nv_row_of m' k)) parts 0) as (parts' & E & Hl & HR).
  { intros j m Ej. apply Hf. by eapply list_elem_of_lookup_2. }
  exists parts'. split; [done|]. split; [done|]. intros k. destruct (nvhm_home parts k El) as (m & Em & Elk).
  exists m. split; [by eapply list_elem_of_lookup_2|]. split; [done|]. destruct (HR _ _ Em) as (m' & Em' & Hg).
  unfold nvhm_lookup. rewrite Hl, Em'. specialize (Hg k). pose proof (part_of_range p n Hn k) as Hp. rewrite El in *.
  by rewrite Z.add_0_l, Z2Nat.id in Hg by lia.
Qed.

Lemma nvhm_erase_table parts keys :
  Z.of_nat (length parts) = 2 ^ n ->
  exists parts', nvhm_erase p keys parts = Ok parts' /\ length parts' = length parts /\
    forall k, nvhm_lookup parts' k = if decide (k ∈ keys) then None else nvhm_lookup parts k.
Proof.
  intros El. unfold nvhm_erase. set (N := Z.of_nat (length parts)).
  destruct (nvhm_table_op parts (fun i m => Ok (fold_left nv_erase (my_keys p N keys i).*2 m))
    (fun i m k o => o = if decide (k ∈ (my_keys p N keys i).*2) then None else nv_row_of m k) El) as (parts' & E & Hl & Hk).
  { intros i m _. eexists. split; [done|]. intros k. unfold nv_row_of. rewrite fold_erase_entries. by destruct (decide _). }
  exists parts'. split; [done|]. split; [done|]. intros k. destruct (Hk k) as (m & _ & -> & ->). fold N.
  pose proof (my_keys_mem p keys N k). do 2 destruct (decide _); tauto || done.
Qed.

Lemma nvhm_update_key_row values st m ik k :
  nv_row_of (nvhm_update_key values st row m ik) k =
    if decide (k = ik.2) then match nv_row_of m k with Some _ => Some (mem_read values (ik.1 * st) row) | None => None end
    else nv_row_of m k.
Proof.
  unfold nvhm_update_key, nv_row_of. destruct (entries m !! ik.2) as [[r v]|] eqn:E.
  - destruct (lookup_present m ik.2 r v E) as (q & Hq & _). rewrite Hq. pose proof (nl_row m _ _ _ E) as Hr.
    pose proof (read_len values (ik.1 * st) row ltac:(lia)) as Hlen.
    destruct (nl_set_row m ik.2 q (mem_read values (ik.1 * st) row) r v Hq E (Z.eq_le_incl _ _ Hlen)) as [-> _].
    destruct (decide (k = ik.2)) as [->|Hne]; [|by rewrite lookup_insert_ne].
    rewrite lookup_insert_eq, E. simpl. unfold overwrite. by rewrite drop_ge, app_nil_r by lia.
  - rewrite (lookup_absent m ik.2 E). destruct (decide (k = ik.2)) as [->|]; [|done]. by rewrite E.
Qed.

Lemma nvhm_update_table parts keys st values :
  0 < row -> Z.of_nat (length parts) = 2 ^ n ->
  exists parts', nvhm_update c p keys st row values parts = Ok parts' /\ length parts' = length parts /\
    forall k, nvhm_lookup parts' k =
      match nvhm_lookup parts k, batch_write keys k with
      | Some _, Some i => Some (mem_read values (i * st) row)
      | o, _ => o
      end.
Proof.
  intros Hrow El. unfold nvhm_update. destruct (bool_decide_reflect (keys = [])) as [->|Hne].
  { exists parts. split_and!; [done..|]. intros k. by destruct (nvhm_lookup parts k). }
  rewrite (proj2 (Z.leb_le 0 row)), (proj2 (Z.leb_le row row)) by lia. cbn [andb]. set (N := Z.of_nat (length parts)).
  destruct (nvhm_table_op parts (fun i m => Ok (fold_left (nvhm_update_key values st row) (my_keys p N keys i) m))
    (fun i m k o => o = match nv_row_of m k, last_write (my_keys p N keys i) k with
      | Some _, Some i => Some (mem_read values (i * st) row) | o, _ => o end) El) as (parts' & E & Hl & Hk).
  { intros i m _. eexists. split; [done|]. intros k. generalize (my_keys p N keys i) as l. intros l. revert m.
    induction l as [|[j k'] l IH]; intros m; cbn [fold_left last_write]; [by destruct (nv_row_of m k)|].
    rewrite IH, nvhm_update_key_row. simpl. destruct (decide (k = k')) as [->|Hne'].
    - rewrite decide_True by done. destruct (nv_row_of m k'); [|done]. by destruct (last_write l k').
    - rewrite decide_False by congruence. destruct (nv_row_of m k); [|done]. by destruct (last_write l k). }
  exists parts'. split; [done|]. split; [done|]. intros k. destruct (Hk k) as (m & _ & -> & ->). fold N.
  unfold my_keys. by rewrite last_write_filter.
Qed.

Lemma nvhm_insert_table parts keys st lru values r :
  0 < row -> Z.of_nat (length parts) = 2 ^ n ->
  f64_to_int64 (f64_mul (f64_of_Z (overflow_margin policy)) (resolution_margin policy)) = Ok r ->
  0 <= r <= overflow_margin policy ->
  (forall m, m ∈ parts -> Z.of_nat (size (entries m)) + Z.of_nat (length keys) < overflow_margin policy) ->
  exists parts', nvhm_insert c p shuffle sort_by_meta keys st row lru values parts = Ok parts' /\ length parts' = length parts /\
    forall k, nvhm_lookup parts' k =
      match batch_write keys k with Some i => Some (mem_read values (i * st) row) | None => nvhm_lookup parts k end.
Proof.
  intros Hrow El Er Hr Hfit. unfold nvhm_insert. destruct (bool_decide_reflect (keys = [])) as [->|Hne].
  { exists parts. by split_and!. }
  rewrite (proj2 (Z.leb_le 0 row)), (proj2 (Z.leb_le row row)), Er by lia. cbn [andb obind]. set (N := Z.of_nat (length parts)).
  destruct (nvhm_table_op parts
    (fun i m => nvhm_insert_part c shuffle sort_by_meta r values st row lru (my_keys p N keys i) m)
    (fun i m k o => o = match last_write (my_keys p N keys i) k with
      | Some i => Some (mem_read values (i * st) row) | None => nv_row_of m k end) El) as (parts' & E & Hl & Hk).
  { intros i m Hm. destruct (insert_part_ok r values st row lru ltac:(lia) Hr (my_keys p N keys i) m) as (m' & -> & _ & Hrows).
    exists m'. split; [done|]. apply Hrows; [done|]. specialize (Hfit m Hm).
    assert (length (my_keys p N keys i) <= length keys)%nat; [|lia].
    unfold my_keys. etrans; [apply length_filter|]. rewrite length_zip, length_seqZ. lia. }
  exists parts'. split; [done|]. split; [done|]. intros k. destruct (Hk k) as (m & _ & -> & ->). fold N.
  unfold batch_write, my_keys. by rewrite last_write_filter.
Qed.
End Table.

(** ** Properties *)

Lemma nvhm_check_row : nvhm_config_check c = Ok tt -> 0 < row.
Proof.
  unfold nvhm_config_check, host_table_config_check. destruct (existsb _ _); [|done]. destruct (existsb _ _); [|done].
  destruct ((0 <? row) && _) eqn:E; [|done]. intros _. apply andb_prop in E as [?%Z.ltb_lt _]. done.
Qed.

(** C14. The modifications of the hash-map table refine a map from keys to rows: an
    insert that does not overflow stores for every key the row of its last
    position in the batch and keeps the others, an erase removes exactly the keys
    of the batch, an update overwrites exactly the stored keys of the batch; each
    returns. *)
Theorem nvhm_modify_refines (p : Partitioner_t) (n : Z) (parts : list M) (keys : list Z) (stride lru r : Z) (values : memory) :
  nvhm_config_check c = Ok tt -> 0 <= n <= 62 -> Z.of_nat (length parts) = 2 ^ n ->
  f64_to_int64 (f64_mul (f64_of_Z (overflow_margin policy)) (resolution_margin policy)) = Ok r ->
  0 <= r <= overflow_margin policy ->
  (forall m, m ∈ parts -> Z.of_nat (size (entries m)) + Z.of_nat (length keys) < overflow_margin policy) ->
  (exists parts', nvhm_insert c p shuffle sort_by_meta keys stride row lru values parts = Ok parts' /\
     forall k, nvhm_lookup p parts' k =
       match batch_write keys k with Some i => Some (mem_read values (i * stride) row) | None => nvhm_lookup p parts k end) /\
  (exists parts', nvhm_erase p keys parts = Ok parts' /\
     forall k, nvhm_lookup p parts' k = if decide (k ∈ keys) then None else nvhm_lookup p parts k) /\
  (exists parts', nvhm_update c p keys stride row values parts = Ok parts' /\
     forall k, nvhm_lookup p parts' k =
       match nvhm_lookup p parts k, batch_write keys k with
       | Some _, Some i => Some (mem_read values (i * stride) row) | o, _ => o end).
Proof.
  intros Hc Hn El Er Hr Hfit. pose proof (nvhm_check_row Hc) as Hrow. split_and!.
  - destruct (nvhm_insert_table p n Hn parts keys stride lru values r Hrow El Er Hr Hfit) as (parts' & E & _ & Hk). by exists parts'.
  - destruct (nvhm_erase_table p n Hn parts keys El) as (parts' & E & _ & Hk). by exists parts'.
  - destruct (nvhm_update_table p n Hn parts keys stride values Hrow El) as (parts' & E & _ & Hk). by exists parts'.
Qed.

(** A partition stays below its overflow margin: inserting any keys returns,
    and a partition with fewer than [overflow_margin] keys still has fewer when
    the resolution is below the margin. *)
Theorem nvhm_partition_bounded (resolution : Z) (values : memory) (stride size_ lru : Z) (iks : list (Z * Z)) (m : M) :
  0 <= size_ <= row -> 0 <= resolution < overflow_margin policy -> Z.of_nat (size (entries m)) < overflow_margin policy ->
  exists m', nvhm_insert_part c shuffle sort_by_meta resolution values stride size_ lru iks m = Ok m' /\
    Z.of_nat (size (entries m')) < overflow_margin policy.
Proof.
  intros Hs Hr Hm. destruct (insert_part_ok resolution values stride size_ lru Hs ltac:(lia) iks m) as (m' & E & Hb & _).
  exists m'. split; [done|lia].
Qed.

Lemma evicted_all_kept resolution h e e' :
  evicted resolution h e e' -> (forall k, is_Some (e !! k) -> is_Some (e' !! k)) -> Z.of_nat (size e) = resolution.
Proof.
  intros Hev Hall. rewrite <- (ev_size _ _ _ _ Hev). f_equal. rewrite <- !size_dom. apply set_size_proper.
  intros k. rewrite !elem_of_dom. split; [apply Hall|]. intros [[r v] E]. destruct (ev_kept _ _ _ _ Hev k r v E) as (w & ? & _). eauto.
Qed.

(** With the least-frequently-used policy an insert that makes a partition
    overflow evicts the key it has just inserted when every other key was used
    more than once: the count of a new key is the smallest. The call returns
    normally and the row is lost. *)
Theorem nvhm_lfu_drops_new_key (resolution : Z) (values : memory) (stride size_ lru i key : Z) (m : M) :
  0 <= size_ <= row -> 0 <= resolution <= overflow_margin policy -> handler policy = EvictLFU ->
  nv_row_of m key = None -> overflow_margin policy <= Z.of_nat (size (entries m)) + 1 ->
  resolution <= Z.of_nat (size (entries m)) -> (forall k r v, entries m !! k = Some (r, v) -> 2 <= v) ->
  exists m', nvhm_insert_key c shuffle sort_by_meta resolution values stride size_ lru (m, nv_size m) (i, key)
      = Ok (m', nv_size m') /\ nv_row_of m' key = None.
Proof.
  intros Hs Hr Hh Hk Hov Hlt Hv. unfold nv_row_of in Hk. apply fmap_None in Hk.
  destruct (insert_key_ok resolution values stride size_ lru Hs Hr m i key) as (m' & E & Hins). exists m'. split; [done|].
  destruct Hins as [r v E' _|r v _ Hm|r v _ _ _ Hev]; [congruence|lia|].
  unfold nv_row_of. apply fmap_None. destruct (entries m' !! key) as [[r' v']|] eqn:Ekey; [|done]. exfalso.
  apply evicted_all_kept in Hev as Hsz.
  - rewrite map_size_insert_None in Hsz by done. lia.
  - intros k [[rk wk] Ek]. destruct (decide (k = key)) as [->|Hne]; [eauto|]. rewrite lookup_insert_ne in Ek by done.
    destruct (entries m' !! k) as [|] eqn:Ek'; [eauto|]. exfalso.
    assert (wk <= 1); [|by specialize (Hv _ _ _ Ek); lia].
    eapply (ev_least _ _ _ _ Hev); [by rewrite Hh|by rewrite lookup_insert_ne|done| |eauto].
    rewrite lookup_insert_eq. unfold new_meta. by rewrite Hh.
Qed.
End PartLemmas.
