(* ===== verification/NvhmFind.v ===== *)
(** * Lookup in the hash-map host table: [NvhmMapTable::find] and [find_]

    The tasks are those of [StlFind]: each takes one partition and a window of the
    words of the hit mask. Within a word the missing keys of the partition are
    looked up directly, or through a ring queue that prepares a lookup some keys
    before its result is needed; positions wait in the bit mask [it_tail]. The
    queue comes with the map library and is a parameter (class [NvhmQueue]). *)
From stdpp Require Import sorting.
From S2P Require Import Prelude BitOps Float32 DataTypes HostTable StlTable StlFind NvhmTable.

(** [ring_prefetch_queue<key_type, prefetch_type, L>]. *)
Class NvhmQueue (M P Q : Type) := {
  q_new : Q;
  q_prepare : M -> Z -> Q -> Q;
  q_full : Z -> Q -> bool;
  q_pop : M -> Q -> option P * Q
}.

(** The queue is a first-in first-out queue of keys; the key that leaves it is
    looked up. *)
Class QueueLaws (M P Q : Type) `{NvhmMap M P} `{NvhmQueue M P Q} (q_keys : Q -> list Z) : Prop := {
  ql_new : q_keys q_new = [];
  ql_prepare m k q : q_keys (q_prepare m k q) = q_keys q ++ [k];
  ql_full L q : q_full L q = (L <=? Z.of_nat (length (q_keys q)));
  ql_pop m k ks q : q_keys q = k :: ks -> exists q', q_pop m q = (nv_lookup m k, q') /\ q_keys q' = ks
}.

(** What the tasks share. *)
Record nv_find (M : Type) := NvFind {
  nf_mask : Z -> Z;
  nf_values : memory;
  nf_sizes : Z -> Z;
  nf_maps : list M;
  nf_hits : Z
}.
Arguments NvFind {M}.
Arguments nf_mask {M}.
Arguments nf_values {M}.
Arguments nf_sizes {M}.
Arguments nf_maps {M}.
Arguments nf_hits {M}.

(** The state of the loops of a word: the shared state, the delayed copy and the
    local copy [mask] of the word. *)
Definition word_state (M P : Type) : Type := nv_find M * option (P * Z) * Z.

Section Find.
Context {M P Q : Type} `{NvhmMap M P} `{NvhmQueue M P Q}.
Variable c : NvhmMapTableConfig.
Variable p : Partitioner_t.
Variable num_parts : Z.
Variable n : Z.
Variable keys : Z -> Z.
Variable value_stride : Z.
Variables with_values with_value_sizes : bool.
Variable lru_time : Z.

Local Abbreviation row := (max_value_size (nv_base c)).
Local Abbreviation nb := (mask_size (nv_base c) * 8).

(** ** The split into tasks *)

Definition nv_hm_size : Z := generic_bitmask.mask_size nb n.
Definition nv_tasks_per_part : Z := Z.quot (nv_hm_size + nv_max_find_task_size c - 1) (nv_max_find_task_size c).
Definition nv_num_tasks : Z := num_parts * nv_tasks_per_part.
Definition nv_task_part (task_idx : Z) : Z := Z.quot task_idx nv_tasks_per_part.
Definition nv_task_words (task_idx : Z) : list Z :=
  let part_idx := nv_task_part task_idx in
  let t := Z.rem task_idx nv_tasks_per_part in
  let hm_off0 := nv_max_find_task_size c * t in
  let task_size := Z.min (nv_max_find_task_size c) (nv_hm_size - hm_off0) in
  let hm_off0 := hm_off0 + Z.quot (nv_hm_size * part_idx) num_parts in
  (fun hm_idx => Z.rem (hm_off0 + hm_idx) nv_hm_size) <$> seqZ 0 task_size.

(** ** One word *)

Section Word.
Variable prefetch : bool.
Variable part_idx i : Z.           (* partition, first position of the word *)

Definition map_at (s : nv_find M) : option M := nf_maps s !! Z.to_nat part_idx.
Definition nv_row_at (s : nv_find M) (pos : P) : list Z := match map_at s with Some m => nv_row m pos | None => [] end.
Definition nv_flush (prev : option (P * Z)) (s : nv_find M) : memory :=
  match prev with Some sd => store_bytes (nf_values s) sd.2 (nv_row_at s sd.1) | None => nf_values s end.

(** The new metadata of a position that was found. *)
Definition touch (pos : P) (m : M) : M :=
  match handler (nv_overflow_policy c) with
  | EvictRandom => m
  | h => nv_set_meta m pos (update_meta_data h (nv_meta m pos) lru_time)
  end.

(** [process_tail], and the same steps of the direct loop. *)
Definition process_hit (st : word_state M P) (j : Z) (pos : P) : word_state M P :=
  let '(s, prev, mask) := st in
  let ij := i + j in
  let dst := ij * value_stride in
  ({| nf_mask := nf_mask s;
      nf_values :=
        if with_values then
          (if prefetch then nv_flush prev s else store_bytes (nf_values s) dst (nv_row_at s pos))
        else nf_values s;
      nf_sizes := if with_value_sizes then upd (nf_sizes s) ij row else nf_sizes s;
      nf_maps := alter (touch pos) (Z.to_nat part_idx) (nf_maps s);
      nf_hits := nf_hits s |},
   (if with_values && prefetch then Some (pos, dst) else prev),
   generic_bitmask.set nb mask j).

Definition on_hit (st : word_state M P) (j : Z) (r : option P) : word_state M P :=
  match r with Some pos => process_hit st j pos | None => st end.

(** The key at a bit belongs to another partition. *)
Definition elsewhere (j : Z) : bool := negb (part_of p num_parts (keys (i + j)) =? part_idx).

(** The direct loop. *)
Definition direct_step (st : word_state M P) (j : Z) : word_state M P :=
  if elsewhere j then st
  else match map_at st.1.1 with Some m => on_hit st j (nv_lookup m (keys (i + j))) | None => st end.

(** ** The loops with a queue of length [L], over the set bits of [it_head] *)

(** First loop: fill the queue. *)
Fixpoint fill_queue (L : Z) (m : M) (js : list Z) (it_tail : Z) (q : Q) : list Z * Z * Q :=
  match js with
  | [] => ([], it_tail, q)
  | j :: js =>
      if elsewhere j then fill_queue L m js it_tail q
      else
        let it_tail := generic_bitmask.set nb it_tail j in
        let q := q_prepare m (keys (i + j)) q in
        if q_full L q then (js, it_tail, q) else fill_queue L m js it_tail q
  end.

(** Take the oldest lookup from the queue; its position is the lowest of [it_tail]. *)
Definition pop_tail (st : word_state M P) (it_tail : Z) (q : Q) : option (word_state M P * Z * Q) :=
  match map_at st.1.1 with
  | None => None
  | Some m =>
      let '(r, q) := q_pop m q in
      Some (on_hit st (generic_bitmask.next it_tail) r, generic_bitmask.skip nb it_tail, q)
  end.

(** Second loop: one lookup leaves the queue for each that enters. *)
Fixpoint steady_queue (js : list Z) (st : word_state M P) (it_tail : Z) (q : Q) : option (word_state M P * Z * Q) :=
  match js with
  | [] => Some (st, it_tail, q)
  | j :: js =>
      if elsewhere j then steady_queue js st it_tail q
      else
        match pop_tail st (generic_bitmask.set nb it_tail j) q with
        | None => None
        | Some (st, it_tail, q) =>
            match map_at st.1.1 with
            | None => None
            | Some m => steady_queue js st it_tail (q_prepare m (keys (i + j)) q)
            end
        end
  end.

(** Third loop: empty the queue. *)
Fixpoint drain_queue (fuel : nat) (st : word_state M P) (it_tail : Z) (q : Q) : option (word_state M P) :=
  match fuel with
  | O => None
  | S fuel =>
      if generic_bitmask.has_next it_tail then
        match pop_tail st it_tail q with
        | None => None
        | Some (st, it_tail, q) => drain_queue fuel st it_tail q
        end
      else Some st
  end.

Definition queued_loops (L : Z) (js : list Z) (st : word_state M P) : option (word_state M P) :=
  match map_at st.1.1 with
  | None => None
  | Some m =>
      let '(js, it_tail, q) := fill_queue L m js 0 q_new in
      match steady_queue js st it_tail q with
      | None => None
      | Some (st, it_tail, q) => drain_queue (S (Z.to_nat nb)) st it_tail q
      end
  end.
End Word.

(** One word: load, loops (with a queue unless its length is zero), join. *)
Definition nv_visit_word (L : Z) (prefetch : bool) (part_idx : Z) (st : nv_find M * option (P * Z)) (hm_off : Z)
  : outcome (nv_find M * option (P * Z)) :=
  let mask := nf_mask st.1 hm_off in
  let i := hm_off * nb in
  match generic_bitmask.iterate nb (S (Z.to_nat nb)) (generic_bitmask.clip nb (generic_bitmask.invert nb mask) (n - i)) with
  | None => Undef "fuel"
  | Some js =>
      match (if L =? 0 then Some (fold_left (direct_step prefetch part_idx i) js (st.1, st.2, mask))
             else queued_loops prefetch part_idx i L js (st.1, st.2, mask)) with
      | None => Undef "fuel"
      | Some (s, prev, mask') =>
          Ok ({| nf_mask := upd (nf_mask s) hm_off (Z.lor (nf_mask s hm_off) mask'); nf_values := nf_values s;
                 nf_sizes := nf_sizes s; nf_maps := nf_maps s;
                 nf_hits := nf_hits s + (generic_bitmask.count mask' - generic_bitmask.count mask) |}, prev)
      end
  end.

(** One task. *)
Definition nv_find_task (L : Z) (prefetch : bool) (s : nv_find M) (task_idx : Z) : outcome (nv_find M) :=
  let part_idx := nv_task_part task_idx in
  let! st := ofoldl (nv_visit_word L prefetch part_idx) (nv_task_words task_idx) (s, None) in
  let '(s, prev) := st in
  Ok (if with_values && prefetch
      then {| nf_mask := nf_mask s; nf_values := nv_flush part_idx prev s; nf_sizes := nf_sizes s;
              nf_maps := nf_maps s; nf_hits := nf_hits s |}
      else s).

(** [find_]: the tasks one after the other. *)
Definition nv_find_ (L : Z) (prefetch with_mask : bool) (s : nv_find M) : outcome (nv_find M) :=
  check! (row <=? value_stride) as "value_stride >= max_value_size" in
  if negb with_mask then Undef "load through a null hit mask" else
  ofoldl (nv_find_task L prefetch) (seqZ 0 nv_num_tasks)
    {| nf_mask := nf_mask s; nf_values := nf_values s; nf_sizes := nf_sizes s; nf_maps := nf_maps s; nf_hits := 0 |}.

(** [find]: the instance for the configured queue length. *)
Definition nv_find_op (with_mask : bool) (counter : option Z) (s : nv_find M) : outcome (nv_find M * option Z) :=
  if n <=? 0 then Ok (s, counter)
  else
    let L := key_fetch_queue_length c in
    if existsb (Z.eqb L) [0; 1; 2; 4; 8] then
      let! s := nv_find_ L (nv_prefetch_values c) with_mask s in
      match counter with
      | None => Throw "Invalid key counter"
      | Some k => Ok (s, Some (k + nf_hits s))
      end
    else Throw "config.key_fetch_queue_length is out of bounds!".
End Find.

(** ** Lemmas: positions waiting in a bit mask *)

Section TailBits.
Context (nb : Z) (Hnb : 0 < nb).

Lemma bits_zero : bits nb 0 = [].
Proof. apply filter_none. intros x _. by rewrite Z.bits_0. Qed.

Lemma bits_head r x xs :
  in_u nb r -> bits nb r = x :: xs ->
  generic_bitmask.has_next r = true /\ generic_bitmask.next r = x /\ bits nb (generic_bitmask.skip nb r) = xs.
Proof.
  intros Hr E. assert (r <> 0) as Hz by (intros ->; by rewrite bits_zero in E).
  rewrite (bits_skip nb Hnb r Hr Hz) in E. injection E as E1 E2. unfold generic_bitmask.has_next, generic_bitmask.next.
  by rewrite (proj2 (Z.eqb_neq _ _)).
Qed.

Lemma bits_none r : in_u nb r -> bits nb r = [] -> generic_bitmask.has_next r = false.
Proof.
  intros Hr E. unfold generic_bitmask.has_next. destruct (Z.eqb_spec r 0) as [|Hz]; [done|].
  by rewrite (bits_skip nb Hnb r Hr Hz) in E.
Qed.

(** A bit above all others comes last. *)
Lemma bits_set_above r j :
  0 <= j < nb -> (forall x, x ∈ bits nb r -> x < j) -> bits nb (generic_bitmask.set nb r j) = bits nb r ++ [j].
Proof.
  intros Hj Hlt. assert (forall x, 0 <= x < nb -> Z.testbit r x = true -> x < j) as Hbit.
  { intros x Hx Hb. apply Hlt. apply list_elem_of_filter. split; [done|]. apply elem_of_seqZ. lia. }
  assert (seqZ 0 nb = seqZ 0 j ++ j :: seqZ (j + 1) (nb - j - 1)) as Hsplit.
  { replace nb with (j + (nb - j)) at 1 by lia. rewrite seqZ_app by lia. f_equal. rewrite Z.add_0_l, seqZ_cons by lia.
    f_equal; f_equal; lia. }
  assert (forall y, (forall x, 0 <= x < nb -> j < x -> Z.testbit y x = false) ->
    filter (fun x => Z.testbit y x = true) (seqZ (j + 1) (nb - j - 1)) = []) as Hhigh.
  { intros y Hy. apply filter_none. intros x [? ?]%elem_of_seqZ. rewrite Hy by lia. done. }
  unfold bits. rewrite Hsplit, !filter_app, !filter_cons, !Hhigh.
  - rewrite decide_True by (rewrite set_testbit, Z.eqb_refl, orb_true_r by lia; done).
    rewrite decide_False by (intros Hb; specialize (Hbit j ltac:(lia) Hb); lia). rewrite app_nil_r. f_equal.
    apply filter_ext_in. intros x [? ?]%elem_of_seqZ. rewrite set_testbit, (proj2 (Z.eqb_neq x j)), orb_false_r by lia. done.
  - intros x Hx Hjx. apply not_true_is_false. intros Hb. specialize (Hbit x Hx Hb). lia.
  - intros x Hx Hjx. rewrite set_testbit, (proj2 (Z.eqb_neq x j)), orb_false_r by lia.
    apply not_true_is_false. intros Hb. specialize (Hbit x Hx Hb). lia.
Qed.
End TailBits.

Lemma sorted_drop_middle l (j : Z) js : StronglySorted Z.lt (l ++ j :: js) -> StronglySorted Z.lt (l ++ js).
Proof.
  induction l as [|x l IH]; simpl; intros Hs; inversion_clear Hs as [|? ? Hs' Hx]; [done|]. constructor; [by apply IH|].
  apply Forall_app in Hx as [H1 H2]. apply Forall_cons in H2 as [_ H2]. by apply Forall_app.
Qed.

Section QueueLemmas.
Context {M P Q : Type} `{HM : NvhmMap M P} `{HQ : NvhmQueue M P Q}.
Context (c : NvhmMapTableConfig) (p : Partitioner_t) (num_parts : Z) (keys : Z -> Z) (value_stride : Z).
Context (with_values with_value_sizes : bool) (lru_time : Z) (prefetch : bool) (part_idx i : Z).
Context (entries : M -> gmap Z (list Z * Z)) (q_keys : Q -> list Z).
Context {HL : NvhmLaws M P (max_value_size (nv_base c)) entries} {HQL : QueueLaws M P Q q_keys}.
Local Abbreviation nb := (mask_size (nv_base c) * 8).
Local Abbreviation elsewhere := (elsewhere p num_parts keys part_idx i).
Local Abbreviation here js := (filter (fun j => elsewhere j = false) js).
Local Abbreviation key j := (keys (i + j)).
Local Abbreviation process := (process_hit c value_stride with_values with_value_sizes lru_time prefetch part_idx i).
Local Abbreviation hit := (on_hit c value_stride with_values with_value_sizes lru_time prefetch part_idx i).
Local Abbreviation direct := (direct_step c p num_parts keys value_stride with_values with_value_sizes lru_time prefetch part_idx i).
Local Abbreviation pop := (pop_tail c value_stride with_values with_value_sizes lru_time prefetch part_idx i).
Context (Hnb : 0 < nb).

(** The map of the partition finds what [lk] says. *)
Context (lk : Z -> option P).
Definition finds (st : word_state M P) : Prop :=
  exists m, map_at part_idx st.1.1 = Some m /\ forall k, nv_lookup m k = lk k.
Definition serve (st : word_state M P) (j : Z) : word_state M P := hit st j (lk (key j)).

Lemma touch_lookup pos (m : M) k : nv_lookup (touch c lru_time pos m) k = nv_lookup m k.
Proof. unfold touch. destruct (handler _); [done|..]; apply nl_meta_lookup. Qed.
Lemma touch_row pos (m : M) q : nv_row (touch c lru_time pos m) q = nv_row m q.
Proof. unfold touch. destruct (handler _); [done|..]; apply nl_meta_row. Qed.

Lemma hit_finds st j r : finds st -> finds (hit st j r).
Proof.
  intros (m & Em & Hm). destruct r as [pos|]; simpl; [|by exists m]. destruct st as [[s prev] mask].
  exists (touch c lru_time pos m). unfold map_at in *. simpl in *. rewrite list_lookup_alter_eq, Em. split; [done|].
  intros k. rewrite <- Hm. apply touch_lookup.
Qed.

Lemma direct_serve js st : finds st -> fold_left direct js st = fold_left serve (here js) st /\ finds (fold_left direct js st).
Proof.
  revert st. induction js as [|j js IH]; intros st Hst; [done|]. rewrite filter_cons. cbn [fold_left].
  unfold direct_step at 2 4. destruct (elsewhere j) eqn:Ee.
  - rewrite decide_False by done. by apply IH.
  - rewrite decide_True by done. destruct Hst as (m & Em & Hm). rewrite Em. cbn [fold_left]. unfold serve at 2.
    rewrite Hm. apply IH. apply hit_finds. by exists m.
Qed.

(** Positions [l] wait: their bits are in [it_tail], their keys in the queue. *)
Record waiting (l : list Z) (it_tail : Z) (q : Q) : Prop := {
  wt_range : in_u nb it_tail;
  wt_bits : bits nb it_tail = l;
  wt_keys : q_keys q = (fun j => key j) <$> l
}.

Lemma waiting_push l r q m j :
  waiting l r q -> 0 <= j < nb -> (forall x, x ∈ l -> x < j) ->
  waiting (l ++ [j]) (generic_bitmask.set nb r j) (q_prepare m (key j) q).
Proof.
  intros [W1 W2 W3] Hj Hlt. constructor.
  - apply set_in_u; lia || done.
  - rewrite bits_set_above; [by rewrite W2|done|done|by rewrite W2].
  - by rewrite ql_prepare, W3, fmap_app.
Qed.

Lemma fill_ok L m js : forall l r q,
  waiting l r q -> 1 <= L -> StronglySorted Z.lt (l ++ js) -> (forall j, j ∈ js -> 0 <= j < nb) ->
  exists js' r' q' l1, fill_queue c p num_parts keys part_idx i L m js r q = (js', r', q') /\ waiting (l ++ l1) r' q' /\
    here js = l1 ++ here js' /\ (forall j, j ∈ js' -> 0 <= j < nb) /\
    StronglySorted Z.lt ((l ++ l1) ++ js') /\ (js' <> [] -> l ++ l1 <> []).
Proof.
  induction js as [|j js IH]; intros l r q Hw HL1 Hs Hrange; cbn [fill_queue].
  { exists [], r, q, []. rewrite !app_nil_r in *. by split_and!. }
  pose proof (sorted_drop_middle l j js Hs) as Hs'.
  assert (forall x, x ∈ l -> x < j) as Hlt.
  { intros x Hx. exact (StronglySorted_app_1_elem_of _ _ _ _ _ Hs Hx ltac:(by left)). }
  rewrite filter_cons. destruct (elsewhere j) eqn:Ee.
  - rewrite decide_False by done. apply IH; [done..|]. intros; apply Hrange; by right.
  - rewrite decide_True by done. pose proof (waiting_push l r q m j Hw ltac:(apply Hrange; by left) Hlt) as Hw'.
    destruct (q_full L (q_prepare m (key j) q)).
    + exists js, (generic_bitmask.set nb r j), (q_prepare m (key j) q), [j]. split_and!; [done|done|done| | |by destruct l].
      * intros; apply Hrange; by right.
      * by rewrite <- (assoc_L (++)).
    + destruct (IH (l ++ [j]) _ _ Hw' HL1) as (js' & r' & q' & l1 & E & A1 & A2 & A3 & A4 & A5).
      * by rewrite <- (assoc_L (++)).
      * intros; apply Hrange; by right.
      * replace ((l ++ [j]) ++ l1) with (l ++ j :: l1) in * by by rewrite <- (assoc_L (++)).
        exists js', r', q', (j :: l1). split_and!; [done|done| |done|done|done].
        simpl. by rewrite A2.
Qed.

Lemma pop_ok x l r q st ks :
  finds st -> in_u nb r -> bits nb r = x :: l -> q_keys q = key x :: ks ->
  exists q', pop st r q = Some (serve st x, generic_bitmask.skip nb r, q') /\ q_keys q' = ks.
Proof.
  intros (m & Em & Hm) Hr Hb Hq. destruct (bits_head nb Hnb r x l Hr Hb) as (_ & Hnext & _).
  unfold pop_tail. rewrite Em. destruct (ql_pop m (key x) ks q Hq) as (q' & -> & Hq'). exists q'. split; [|done].
  by rewrite Hnext, Hm.
Qed.

Lemma steady_ok js : forall l r q st,
  waiting l r q -> finds st -> (js <> [] -> l <> []) -> StronglySorted Z.lt (l ++ js) -> (forall j, j ∈ js -> 0 <= j < nb) ->
  exists st' r' q' l1 l2,
    steady_queue c p num_parts keys value_stride with_values with_value_sizes lru_time prefetch part_idx i js st r q
      = Some (st', r', q') /\
    waiting l2 r' q' /\ finds st' /\ l ++ here js = l1 ++ l2 /\ st' = fold_left serve l1 st.
Proof.
  induction js as [|j js IH]; intros l r q st Hw Hf Hne Hs Hrange; cbn [steady_queue].
  { exists st, r, q, [], l. rewrite app_nil_r. by split_and!. }
  pose proof (sorted_drop_middle l j js Hs) as Hs'. specialize (Hne ltac:(done)).
  rewrite filter_cons. destruct (elsewhere j) eqn:Ee.
  { rewrite decide_False by done. apply IH; [done..|]. intros; apply Hrange; by right. }
  rewrite decide_True by done. destruct l as [|x l]; [done|]. destruct Hw as [W1 W2 W3].
  assert (0 <= j < nb) as Hj by (apply Hrange; by left).
  assert (forall y, y ∈ x :: l -> y < j) as Hlt.
  { intros y Hy. exact (StronglySorted_app_1_elem_of _ _ _ _ _ Hs Hy ltac:(by left)). }
  assert (bits nb (generic_bitmask.set nb r j) = x :: (l ++ [j])) as Hb
    by (rewrite bits_set_above by (done || by rewrite W2); by rewrite W2).
  assert (in_u nb (generic_bitmask.set nb r j)) as Hu by (apply set_in_u; lia || done).
  destruct (pop_ok x (l ++ [j]) (generic_bitmask.set nb r j) q st _ Hf Hu Hb W3) as (q1 & -> & Hq1).
  destruct (bits_head nb Hnb _ _ _ Hu Hb) as (_ & _ & Hskip).
  pose proof (hit_finds st x (lk (key x)) Hf) as Hf1. fold (serve st x) in Hf1. pose proof Hf1 as (m1 & Em1 & _).
  rewrite Em1. destruct (IH (l ++ [j]) (generic_bitmask.skip nb (generic_bitmask.set nb r j)) (q_prepare m1 (key j) q1) (serve st x))
    as (st' & r' & q' & l1 & l2 & E & A1 & A2 & A3 & A4).
  - constructor; [by apply skip_in_u|done|]. by rewrite ql_prepare, Hq1, fmap_app.
  - done.
  - by destruct l.
  - rewrite <- (assoc_L (++)). simpl in Hs. by inversion Hs.
  - intros; apply Hrange; by right.
  - exists st', r', q', (x :: l1), l2. split_and!; [done|done|done| |done].
    simpl. rewrite <- A3, <- (assoc_L (++)). done.
Qed.

Lemma drain_ok fuel : forall l r q st,
  waiting l r q -> finds st -> (length l < fuel)%nat ->
  drain_queue c value_stride with_values with_value_sizes lru_time prefetch part_idx i fuel st r q = Some (fold_left serve l st).
Proof.
  induction fuel as [|fuel IH]; intros l r q st Hw Hf Hfuel; [lia|]. cbn [drain_queue]. destruct Hw as [W1 W2 W3].
  destruct l as [|x l].
  - by rewrite (bits_none nb Hnb r W1 W2).
  - destruct (bits_head nb Hnb r x l W1 W2) as (-> & _ & Hskip).
    destruct (pop_ok x l r q st _ Hf W1 W2 W3) as (q1 & -> & Hq1).
    cbn [fold_left]. apply (IH l); [|by apply hit_finds|simpl in Hfuel; lia]. constructor; [by apply skip_in_u|done|done].
Qed.

(** Looking keys up through the queue is looking them up directly. *)
Lemma queued_direct L js st :
  finds st -> 1 <= L -> StronglySorted Z.lt js -> (forall j, j ∈ js -> 0 <= j < nb) ->
  queued_loops c p num_parts keys value_stride with_values with_value_sizes lru_time prefetch part_idx i L js st
    = Some (fold_left direct js st).
Proof.
  intros Hf HL1 Hs Hrange. destruct (direct_serve js st Hf) as [-> _]. unfold queued_loops.
  pose proof Hf as (m & Em & _). rewrite Em.
  destruct (fill_ok L m js [] 0 q_new) as (js' & r & q & l & -> & A1 & A2 & A3 & A4 & A5); [|done|done|done|].
  { constructor; [split; [lia|apply pow2_pos; lia]|apply bits_zero|by rewrite ql_new]. }
  rewrite app_nil_l in A1, A4, A5.
  destruct (steady_ok js' l r q st A1 Hf A5 A4 A3) as (st' & r' & q' & l1 & l2 & -> & B1 & B2 & B3 & ->).
  rewrite (drain_ok _ l2) by (try done; rewrite <- (wt_bits _ _ _ B1); pose proof (bits_length nb r'); lia).
  by rewrite A2, B3, fold_left_app.
Qed.
End QueueLemmas.

(** ** Simulation of [StlFind]

    The rows of the maps, seen as partitions with one buffer per key: a lookup of
    this table and one of the partitioned table of [StlFind] over them keep equal
    masks, rows, sizes and counts. *)

Definition stl_view (c : NvhmMapTableConfig) : STLContainerTableConfig :=
  {| base_config := nv_base c; num_partitions := nv_num_partitions c; partitioner := nv_partitioner c;
     workgroups := nv_workgroups c; max_find_task_size := nv_max_find_task_size c;
     value_alignment := nv_value_alignment c; allocation_rate := max_value_size (nv_base c);
     prefetch_values := nv_prefetch_values c; overflow_policy := nv_overflow_policy c |}.

Definition view_slot (k : Z) : ptr := (encode_nat k, 0).
Definition view_part (e : gmap Z (list Z * Z)) : Partition :=
  {| slot_map := map_imap (fun k _ => Some (view_slot k)) e;
     available_slots := [];
     slot_buffers := 0;
     bytes := fun b x => match decode_nat b with
                         | Some k => match e !! k with Some rv => default 0 (rv.1 !! Z.to_nat x) | None => 0 end
                         | None => 0
                         end;
     meta := fun _ => 0 |}.

Lemma view_slot_of e k : slot_map (view_part e) !! k = (fun _ => view_slot k) <$> e !! k.
Proof. simpl. rewrite map_lookup_imap. by destruct (e !! k). Qed.

Lemma view_row e k r v row : e !! k = Some (r, v) -> Z.of_nat (length r) = row -> read_slot (view_part e) (view_slot k) row = r.
Proof.
  intros E Hl. unfold read_slot, view_part, view_slot. cbn [bytes fst snd]. rewrite decode_encode_nat, E. apply list_eq. intros j. rewrite list_lookup_fmap.
  destruct (decide (j < length r)%nat) as [Hj|Hj].
  - rewrite lookup_seqZ_lt by lia. simpl. destruct (lookup_lt_is_Some_2 r j Hj) as [b Eb]. rewrite Eb.
    replace (Z.to_nat (0 + Z.of_nat j)) with j by lia. by rewrite Eb.
  - rewrite lookup_seqZ_ge by lia. symmetry. apply lookup_ge_None. lia.
Qed.

Lemma sorted_filter_seqZ (Pr : Z -> Prop) `{!forall x, Decision (Pr x)} a (k : nat) :
  StronglySorted Z.lt (filter Pr (seqZ a (Z.of_nat k))).
Proof.
  revert a. induction k as [|k IH]; intros a; [constructor|]. rewrite seqZ_cons by lia.
  replace (Z.pred (Z.of_nat (S k))) with (Z.of_nat k) by lia. rewrite filter_cons.
  destruct (decide (Pr a)); [|apply IH]. constructor; [apply IH|]. apply Forall_forall.
  intros x [_ [? ?]%elem_of_seqZ]%list_elem_of_filter. lia.
Qed.

Lemma lor_in_u nb x y : 0 <= nb -> in_u nb x -> in_u nb y -> in_u nb (Z.lor x y).
Proof.
  intros Hnb Hx Hy. apply in_u_testbit; [done|apply Z.lor_nonneg; split; [apply Hx|apply Hy]|].
  intros i Hi. by rewrite Z.lor_spec, (testbit_in_u nb x), (testbit_in_u nb y).
Qed.

Section Simulation.
Context {M P Q : Type} `{HM : NvhmMap M P} `{HQ : NvhmQueue M P Q}.
Context (c : NvhmMapTableConfig) (p : Partitioner_t) (n : Z) (keys : Z -> Z) (value_stride : Z).
Context (with_values with_value_sizes : bool) (lru_time : Z) (prefetch : bool) (L : Z).
Context (entries : M -> gmap Z (list Z * Z)) (q_keys : Q -> list Z).
Local Abbreviation row := (max_value_size (nv_base c)).
Local Abbreviation nb := (mask_size (nv_base c) * 8).
Context {HL : NvhmLaws M P row entries} {HQL : QueueLaws M P Q q_keys}.
Context (maps0 : list M).
Local Abbreviation parts := ((fun m => view_part (entries m)) <$> maps0).
Local Abbreviation num_parts := (Z.of_nat (length maps0)).
Local Abbreviation stl_hit := (hit_one (stl_view c) parts keys value_stride with_values with_value_sizes lru_time false).
Local Abbreviation stl_visit := (visit_word (stl_view c) p parts n keys value_stride with_values with_value_sizes lru_time false).
Context (Hnb : 0 < nb) (HL0 : 0 <= L).

(** A map that finds the same rows at the same positions. *)
Definition same_map (m0 m : M) : Prop :=
  (forall k, nv_lookup m k = nv_lookup m0 k) /\ (forall q, nv_row m q = nv_row m0 q).

Record sim (a : Z) (st : nv_find M * option (P * Z)) (fs : find_state) : Prop := {
  sim_mask : nf_mask st.1 = f_mask fs;
  sim_range : forall w, in_u nb (nf_mask st.1 w);
  sim_values : nv_flush a st.2 st.1 = f_values fs;
  sim_sizes : nf_sizes st.1 = f_sizes fs;
  sim_hits : nf_hits st.1 = f_hits fs;
  sim_maps : Forall2 same_map maps0 (nf_maps st.1);
  sim_prev : with_values && prefetch = false -> st.2 = None
}.

Lemma sim_map_at a st fs m0 : sim a st fs -> maps0 !! Z.to_nat a = Some m0 ->
  exists m, map_at a st.1 = Some m /\ same_map m0 m.
Proof. intros Hs E. exact (Forall2_lookup_l _ _ _ _ _ (sim_maps _ _ _ Hs) E). Qed.

Lemma touch_maps a pos (maps : list M) :
  Forall2 same_map maps0 maps -> Forall2 same_map maps0 (alter (touch c lru_time pos) (Z.to_nat a) maps).
Proof.
  intros Hf. apply Forall2_same_length_lookup in Hf as [Hlen Hf]. apply Forall2_same_length_lookup.
  split; [by rewrite length_alter|]. intros j m0 m E0 E. destruct (decide (j = Z.to_nat a)) as [->|Hne].
  - rewrite list_lookup_alter_eq in E. destruct (maps !! Z.to_nat a) as [m1|] eqn:E1; [|done]. injection E as <-.
    destruct (Hf _ _ _ E0 E1) as [H1 H2]. split; intros; [by rewrite (touch_lookup c lru_time entries)|by rewrite (touch_row c lru_time entries)].
  - rewrite list_lookup_alter_ne in E by done. by eapply Hf.
Qed.

(** The partitions of the view find a key exactly when the map does. *)
Lemma view_slot_at a k m0 : maps0 !! Z.to_nat a = Some m0 ->
  slot_of parts a k = (fun _ => view_slot k) <$> entries m0 !! k.
Proof. intros E. unfold slot_of. rewrite list_lookup_fmap, E. cbn [fmap option_fmap option_map]. apply view_slot_of. Qed.

Lemma found_entry m0 k pos : nv_lookup m0 k = Some pos -> exists v, entries m0 !! k = Some (nv_row m0 pos, v).
Proof.
  intros Hq. pose proof (nl_lookup m0 k) as Hl. destruct (entries m0 !! k) as [[r v]|]; [|congruence].
  destruct Hl as (q & Hq' & <- & _). assert (q = pos) as -> by congruence. eauto.
Qed.

Local Abbreviation process a i := (process_hit c value_stride with_values with_value_sizes lru_time prefetch a i).
Local Abbreviation direct a i := (direct_step c p num_parts keys value_stride with_values with_value_sizes lru_time prefetch a i).

Lemma process_sim a i s prev mask fs j m0 pos :
  sim a (s, prev) fs -> maps0 !! Z.to_nat a = Some m0 -> nv_lookup m0 (keys (i + j)) = Some pos ->
  exists s' prev', process a i (s, prev, mask) j pos = (s', prev', generic_bitmask.set nb mask j) /\
    sim a (s', prev') (stl_hit a i (fs, None) j).1 /\ (stl_hit a i (fs, None) j).2 = None /\
    f_mask (stl_hit a i (fs, None) j).1 = f_mask fs.
Proof.
  intros Hs E0 Hpos. destruct (found_entry m0 _ pos Hpos) as (v & Ee).
  destruct (sim_map_at a _ _ m0 Hs E0) as (m & Em & Hm1 & Hm2). destruct Hs as [S1 Sr S2 S3 S4 S5 S6]. cbn [fst snd] in *.
  unfold hit_one. rewrite (view_slot_at a _ m0 E0), Ee. cbn [fmap option_fmap option_map]. rewrite andb_false_r.
  eexists _, _. split; [done|]. split; [|done].
  assert (row_at (stl_view c) parts a (view_slot (keys (i + j))) = nv_row m0 pos) as Hrow.
  { unfold row_at. rewrite list_lookup_fmap, E0. apply (view_row _ _ _ v); [done|by eapply nl_row]. }
  assert (forall q mp, nv_row_at a {| nf_mask := nf_mask s; nf_values := mp; nf_sizes :=
      if with_value_sizes then upd (nf_sizes s) (i + j) row else nf_sizes s;
      nf_maps := alter (touch c lru_time pos) (Z.to_nat a) (nf_maps s); nf_hits := nf_hits s |} q = nv_row m0 q) as Hrows.
  { intros q mp. unfold nv_row_at, map_at. simpl. unfold map_at in Em. rewrite list_lookup_alter_eq, Em. simpl.
    by rewrite (touch_row c lru_time entries), Hm2. }
  assert (nv_row_at a s pos = nv_row m0 pos) as Hrs by (unfold nv_row_at; rewrite Em; apply Hm2).
  constructor; cbn [fst snd nf_mask nf_sizes nf_hits nf_maps f_mask f_sizes f_hits f_values]; try done.
  - destruct with_values; cbn [andb].
    + destruct prefetch; cbn [nv_flush fst snd].
      * rewrite Hrows. cbn [nf_values]. rewrite S2. unfold copy_row. cbn [fst snd]. by rewrite Hrow.
      * rewrite (S6 eq_refl) in S2 |- *. cbn [nv_flush nf_values] in S2 |- *. rewrite <- S2, Hrs. unfold copy_row. cbn [fst snd].
        by rewrite Hrow.
    + rewrite (S6 eq_refl) in S2 |- *. exact S2.
  - destruct with_value_sizes; [by rewrite S3|done].
  - by apply touch_maps.
  - intros Hwp. rewrite Hwp. by apply S6.
Qed.

(** The loop over the missing keys of a word. *)
Lemma loop_sim a i m0 js : forall s prev mask fs,
  sim a (s, prev) fs -> maps0 !! Z.to_nat a = Some m0 ->
  let hits := filter (fun j => part_of p num_parts (keys (i + j)) = a /\ is_Some (slot_of parts a (keys (i + j)))) js in
  exists s' prev', fold_left (direct a i) js (s, prev, mask) = (s', prev', fold_left (generic_bitmask.set nb) hits mask) /\
    sim a (s', prev') (fold_left (stl_hit a i) hits (fs, None)).1 /\ (fold_left (stl_hit a i) hits (fs, None)).2 = None /\
    f_mask (fold_left (stl_hit a i) hits (fs, None)).1 = f_mask fs.
Proof.
  induction js as [|j js IH]; intros s prev mask fs Hs E0 hits; [by exists s, prev|].
  unfold hits. clear hits. rewrite filter_cons. cbn [fold_left]. unfold direct_step at 2. unfold elsewhere.
  destruct (Z.eqb_spec (part_of p num_parts (keys (i + j))) a) as [Hh|Hh]; cbn [negb].
  2:{ rewrite decide_False by tauto. by apply IH. }
  destruct (sim_map_at a _ _ m0 Hs E0) as (m & Em & Hm1 & _). cbn [fst] in Em |- *. rewrite Em, Hm1.
  destruct (nv_lookup m0 (keys (i + j))) as [pos|] eqn:Ep; cbn [on_hit].
  - destruct (found_entry m0 _ pos Ep) as (v & Ee).
    rewrite decide_True by (split; [done|rewrite (view_slot_at a _ m0 E0), Ee; by eexists]). cbn [fold_left].
    destruct (process_sim a i s prev mask fs j m0 pos Hs E0 Ep) as (s1 & prev1 & -> & Hs1 & Hn1 & Hm).
    destruct (stl_hit a i (fs, None) j) as [fs1 o]. cbn [fst snd] in *. subst o. rewrite <- Hm. by apply IH.
  - assert (entries m0 !! keys (i + j) = None) as Ee.
    { pose proof (nl_lookup m0 (keys (i + j))) as Hl. destruct (entries m0 !! keys (i + j)) as [[r v]|]; [|done].
      destruct Hl as (q & Hq & _). congruence. }
    rewrite decide_False; [by apply IH|]. intros [_ Hslot]. rewrite (view_slot_at a _ m0 E0), Ee in Hslot. by destruct Hslot.
Qed.

Lemma fold_set_in_u js mask : (forall j, j ∈ js -> 0 <= j < nb) -> in_u nb mask -> in_u nb (fold_left (generic_bitmask.set nb) js mask).
Proof.
  revert mask. induction js as [|j js IH]; intros mask Hjs Hm; simpl; [done|]. apply IH; [intros; apply Hjs; by right|].
  apply set_in_u; [done|apply Hjs; by left|done].
Qed.

Lemma visit_sim a w st fs m0 :
  sim a st fs -> maps0 !! Z.to_nat a = Some m0 -> 0 <= n - w * nb ->
  exists st', nv_visit_word c p num_parts n keys value_stride with_values with_value_sizes lru_time L prefetch a st w = Ok st' /\
    sim a st' (stl_visit a w (f_mask fs w) (fs, None)).1.
Proof.
  intros Hs E0 Hw. destruct st as [s prev]. unfold nv_visit_word. cbn [fst snd].
  pose proof (sim_mask _ _ _ Hs) as Emask. cbn [fst] in Emask. rewrite Emask.
  assert (in_u nb (f_mask fs w)) as Hr by (rewrite <- Emask; apply (sim_range _ _ _ Hs)).
  unfold visit_word, word_hits. cbn [base_config stl_view]. rewrite miss_iteration_lemma by done.
  set (js := filter (fun i0 => i0 < n - w * nb /\ Z.testbit (f_mask fs w) i0 = false) (seqZ 0 nb)).
  assert (forall j, j ∈ js -> 0 <= j < nb) as Hjs by (intros j [_ [? ?]%elem_of_seqZ]%list_elem_of_filter; lia).
  rewrite length_fmap.
  destruct (loop_sim a (w * nb) m0 js s prev (f_mask fs w) fs Hs E0) as (s' & prev' & Ed & Hs' & Hnone & Hfm).
  assert ((if L =? 0 then Some (fold_left (direct a (w * nb)) js (s, prev, f_mask fs w))
           else queued_loops c p num_parts keys value_stride with_values with_value_sizes lru_time prefetch a (w * nb) L js
                  (s, prev, f_mask fs w)) = Some (fold_left (direct a (w * nb)) js (s, prev, f_mask fs w))) as ->.
  { destruct (Z.eqb_spec L 0); [done|]. destruct (sim_map_at a _ _ m0 Hs E0) as (m & Em & Hm1 & _).
    apply (queued_direct c p num_parts keys value_stride with_values with_value_sizes lru_time prefetch a (w * nb)
             entries q_keys Hnb (nv_lookup m0)); [by exists m|lia| |done].
    unfold js. rewrite <- (Z2Nat.id nb) by lia. apply sorted_filter_seqZ. }
  rewrite Ed. destruct (fold_left (stl_hit a (w * nb)) _ (fs, None)) as [fs' o]. cbn [fst snd] in *. subst o.
  eexists. split; [done|]. destruct Hs' as [S1 Sr S2 S3 S4 S5 S6]. cbn [fst snd] in *.
  constructor; cbn [fst snd nf_mask nf_sizes nf_hits nf_maps nf_values f_mask f_sizes f_hits f_values]; try done.
  - by rewrite S1.
  - intros w'. unfold upd. destruct (w' =? w); [|apply Sr]. apply lor_in_u; [lia|apply Sr|]. apply fold_set_in_u; [|done].
    intros j [_ Hj]%list_elem_of_filter. by apply Hjs.
  - by rewrite S4.
Qed.

Lemma visits_sim a ws m0 : forall st fs,
  sim a st fs -> maps0 !! Z.to_nat a = Some m0 -> (forall w, w ∈ ws -> 0 <= n - w * nb) ->
  exists st', ofoldl (nv_visit_word c p num_parts n keys value_stride with_values with_value_sizes lru_time L prefetch a) ws st
      = Ok st' /\
    sim a st' (fold_left (fun st w => stl_visit a w (f_mask st.1 w) st) ws (fs, None)).1.
Proof.
  induction ws as [|w ws IH]; intros st fs Hs E0 Hws; [by exists st|].
  destruct (visit_sim a w st fs m0 Hs E0 ltac:(apply Hws; by left)) as (st1 & E1 & Hs1). cbn [ofoldl fold_left fst]. rewrite E1. cbn [obind].
  assert ((stl_visit a w (f_mask fs w) (fs, None)).2 = None) as Hp
    by exact (visits_no_prev (stl_view c) p parts n keys value_stride with_values with_value_sizes lru_time a [w] fs).
  destruct (stl_visit a w (f_mask fs w) (fs, None)) as [fs1 o]. cbn [snd fst] in *. subst o.
  apply IH; [done|done|]. intros; apply Hws; by right.
Qed.

(** Between tasks no copy is pending. *)
Definition sim0 (s : nv_find M) (fs : find_state) : Prop := forall a, sim a (s, None) fs.

Lemma task_words_view t : task_words (stl_view c) parts n t = nv_task_words c num_parts n t.
Proof. unfold task_words, nv_task_words. by rewrite length_fmap. Qed.

Lemma task_sim t s fs :
  sim0 s fs -> 0 <= nv_task_part c n t < num_parts -> (forall w, w ∈ nv_task_words c num_parts n t -> 0 <= n - w * nb) ->
  exists s', nv_find_task c p num_parts n keys value_stride with_values with_value_sizes lru_time L prefetch s t = Ok s' /\
    sim0 s' (find_task (stl_view c) p parts n keys value_stride with_values with_value_sizes lru_time false fs t).
Proof.
  intros Hs Ha Hws. destruct (lookup_lt_is_Some_2 maps0 (Z.to_nat (nv_task_part c n t))) as [m0 E0]; [lia|].
  destruct (visits_sim (nv_task_part c n t) (nv_task_words c num_parts n t) m0 (s, None) fs (Hs _) E0 Hws) as ([s' prev] & E & Hs').
  unfold nv_find_task. rewrite E. cbn [obind]. eexists. split; [done|].
  unfold find_task. rewrite andb_false_r, task_words_view. fold (nv_hm_size c n).
  change (task_part (stl_view c) n t) with (nv_task_part c n t).
  destruct (fold_left _ (nv_task_words c num_parts n t) (fs, None)) as [fs' o]. cbn [fst] in Hs'.
  destruct Hs' as [S1 Sr S2 S3 S4 S5 S6]. cbn [fst snd] in *. intros a.
  destruct (with_values && prefetch) eqn:Ew; [by constructor|]. rewrite (S6 eq_refl) in S2. by constructor.
Qed.

Lemma tasks_sim ts : forall s fs,
  sim0 s fs ->
  (forall t, t ∈ ts -> 0 <= nv_task_part c n t < num_parts /\ forall w, w ∈ nv_task_words c num_parts n t -> 0 <= n - w * nb) ->
  exists s', ofoldl (nv_find_task c p num_parts n keys value_stride with_values with_value_sizes lru_time L prefetch) ts s = Ok s' /\
    sim0 s' (fold_left (find_task (stl_view c) p parts n keys value_stride with_values with_value_sizes lru_time false) ts fs).
Proof.
  induction ts as [|t ts IH]; intros s fs Hs Hts; [by exists s|]. destruct (Hts t) as [Ha Hw]; [by left|].
  destruct (task_sim t s fs Hs Ha Hw) as (s1 & E1 & Hs1). cbn [ofoldl fold_left]. rewrite E1. cbn [obind].
  apply IH; [done|]. intros; apply Hts; by right.
Qed.

Lemma same_map_row m0 m k : same_map m0 m -> nv_row_of entries m k = nv_row_of entries m0 k.
Proof.
  intros [H1 H2]. unfold nv_row_of. pose proof (nl_lookup m k) as A. pose proof (nl_lookup m0 k) as B. rewrite H1 in A.
  destruct (entries m !! k) as [[r v]|], (entries m0 !! k) as [[r0 v0]|]; simpl; [|..|done].
  - destruct A as (q & Hq & Hr & _), B as (q0 & Hq0 & Hr0 & _). assert (q = q0) as -> by congruence. by rewrite <- Hr, <- Hr0, H2.
  - destruct A as (q & Hq & _). congruence.
  - destruct B as (q & Hq & _). congruence.
Qed.

Lemma same_maps_lookup maps k : Forall2 same_map maps0 maps -> nvhm_lookup entries p maps k = nvhm_lookup entries p maps0 k.
Proof.
  intros Hf. unfold nvhm_lookup. rewrite <- (Forall2_length _ _ _ Hf).
  destruct (maps0 !! _) as [m0|] eqn:E0.
  - destruct (Forall2_lookup_l _ _ _ _ _ Hf E0) as (m & -> & Hm). by apply same_map_row.
  - destruct (maps !! _) as [m|] eqn:E; [|done]. apply lookup_lt_Some in E. rewrite <- (Forall2_length _ _ _ Hf) in E.
    apply lookup_ge_None in E0. lia.
Qed.

(** ** The queue makes no difference *)

Local Abbreviation visit_with l := (nv_visit_word c p num_parts n keys value_stride with_values with_value_sizes lru_time l prefetch).
Local Abbreviation task_with l := (nv_find_task c p num_parts n keys value_stride with_values with_value_sizes lru_time l prefetch).

Lemma visit_queue a w st fs m0 :
  sim a st fs -> maps0 !! Z.to_nat a = Some m0 -> 0 <= n - w * nb -> visit_with L a st w = visit_with 0 a st w.
Proof.
  intros Hs E0 Hw. destruct st as [s prev]. unfold nv_visit_word. cbn [fst snd].
  pose proof (sim_range _ _ _ Hs w) as Hr. cbn [fst] in Hr. rewrite miss_iteration_lemma by done.
  destruct (Z.eqb_spec L 0) as [->|Hne]; [done|]. rewrite Z.eqb_refl.
  destruct (sim_map_at a _ _ m0 Hs E0) as (m & Em & Hm1 & _).
  rewrite (queued_direct c p num_parts keys value_stride with_values with_value_sizes lru_time prefetch a (w * nb)
             entries q_keys Hnb (nv_lookup m0)); [done|by exists m|lia| |].
  - replace (seqZ 0 nb) with (seqZ 0 (Z.of_nat (Z.to_nat nb))) by (f_equal; lia). apply sorted_filter_seqZ.
  - intros j [_ [? ?]%elem_of_seqZ]%list_elem_of_filter. lia.
Qed.

Lemma visits_queue a ws m0 : forall st fs,
  sim a st fs -> maps0 !! Z.to_nat a = Some m0 -> (forall w, w ∈ ws -> 0 <= n - w * nb) ->
  ofoldl (visit_with L a) ws st = ofoldl (visit_with 0 a) ws st.
Proof.
  induction ws as [|w ws IH]; intros st fs Hs E0 Hws; [done|]. cbn [ofoldl].
  pose proof (Hws w ltac:(by left)) as Hw. destruct (visit_sim a w st fs m0 Hs E0 Hw) as (st1 & E1 & Hs1).
  rewrite <- (visit_queue a w st fs m0 Hs E0 Hw), E1. cbn [obind]. eapply IH; [exact Hs1|done|]. intros; apply Hws; by right.
Qed.

Lemma tasks_queue ts : forall s fs,
  sim0 s fs ->
  (forall t, t ∈ ts -> 0 <= nv_task_part c n t < num_parts /\ forall w, w ∈ nv_task_words c num_parts n t -> 0 <= n - w * nb) ->
  ofoldl (task_with L) ts s = ofoldl (task_with 0) ts s.
Proof.
  induction ts as [|t ts IH]; intros s fs Hs Hts; [done|]. destruct (Hts t) as [Ha Hw]; [by left|]. cbn [ofoldl].
  destruct (task_sim t s fs Hs Ha Hw) as (s1 & E1 & Hs1).
  destruct (lookup_lt_is_Some_2 maps0 (Z.to_nat (nv_task_part c n t))) as [m0 E0]; [lia|].
  assert (task_with L s t = task_with 0 s t) as Et.
  { unfold nv_find_task. by rewrite (visits_queue _ _ m0 (s, None) fs (Hs _) E0 Hw). }
  rewrite <- Et, E1. cbn [obind]. eapply IH; [exact Hs1|]. intros; apply Hts; by right.
Qed.
End Simulation.

(** ** Properties *)

Section Promises.
Context {M P Q : Type} `{HM : NvhmMap M P} `{HQ : NvhmQueue M P Q}.
Context (c : NvhmMapTableConfig) (p : Partitioner_t) (n : Z) (keys : Z -> Z) (value_stride : Z).
Context (with_values with_value_sizes : bool) (lru_time : Z).
Context (entries : M -> gmap Z (list Z * Z)) (q_keys : Q -> list Z).
Local Abbreviation row := (max_value_size (nv_base c)).
Local Abbreviation nb := (mask_size (nv_base c) * 8).
Context {HL : NvhmLaws M P row entries} {HQL : QueueLaws M P Q q_keys}.
Context (s0 : nv_find M).
Local Abbreviation num_parts := (Z.of_nat (length (nf_maps s0))).
Local Abbreviation stored ij := (nvhm_lookup entries p (nf_maps s0) (keys ij)).

(** A position that was missing and whose key is in the table. *)
Definition nv_newhit (ij : Z) : Prop :=
  0 <= ij < n /\ Z.testbit (nf_mask s0 (ij / nb)) (ij mod nb) = false /\ is_Some (stored ij).
#[global] Instance nv_newhit_dec ij : Decision (nv_newhit ij).
Proof. unfold nv_newhit. apply _. Defined.

(** What a lookup leaves behind. *)
Record nv_find_spec (s : nv_find M) : Prop := {
  nfs_mask : forall ij, 0 <= ij < n ->
    Z.testbit (nf_mask s (ij / nb)) (ij mod nb) = true <->
    Z.testbit (nf_mask s0 (ij / nb)) (ij mod nb) = true \/ is_Some (stored ij);
  nfs_hits : nf_hits s = Z.of_nat (length (filter nv_newhit (seqZ 0 n)));
  nfs_rows : with_values = true -> forall ij r, nv_newhit ij -> stored ij = Some r ->
    mem_read (nf_values s) (ij * value_stride) row = r;
  nfs_rest : with_values = true -> forall ij, 0 <= ij < n -> ~ nv_newhit ij ->
    mem_read (nf_values s) (ij * value_stride) row = mem_read (nf_values s0) (ij * value_stride) row;
  nfs_sizes : with_value_sizes = true -> forall ij, 0 <= ij < n ->
    nf_sizes s ij = if decide (nv_newhit ij) then row else nf_sizes s0 ij;
  nfs_table : forall k, nvhm_lookup entries p (nf_maps s) k = nvhm_lookup entries p (nf_maps s0) k
}.

Local Abbreviation fs0 := {| f_mask := nf_mask s0; f_values := nf_values s0; f_sizes := nf_sizes s0; f_meta := fun _ _ => 0; f_hits := 0 |}.
Local Abbreviation parts := ((fun m => view_part (entries m)) <$> nf_maps s0).
Local Abbreviation start := {| nf_mask := nf_mask s0; nf_values := nf_values s0; nf_sizes := nf_sizes s0; nf_maps := nf_maps s0; nf_hits := 0 |}.
Context (Hc : nvhm_config_check c = Ok tt) (k : Z) (Hk : 0 <= k <= 62) (Hparts : num_parts = 2 ^ k) (Hn : 0 < n).
Context (Hstride : row <= value_stride) (Hmask : forall w, in_u nb (nf_mask s0 w)).

Lemma nvhm_check_facts : 0 < mask_size (nv_base c) /\ 0 < nv_max_find_task_size c /\ 0 < row.
Proof.
  split_and!; [| |by apply nvhm_check_row]; revert Hc; unfold nvhm_config_check; intros (u & Hb & Hrest)%obind_Ok.
  - unfold host_table_config_check in Hb. destruct (existsb (Z.eqb (mask_size (nv_base c))) [1; 2; 4; 8]) eqn:E; [|discriminate].
    simpl in E. lia.
  - repeat (case_match; try discriminate). by apply Z.ltb_lt.
Qed.

(** The check admits exactly the lengths [find] has instances for. *)
Lemma queue_length_facts : 0 <= key_fetch_queue_length c -> key_fetch_queue_length c ∈ [0; 1; 2; 4; 8].
Proof.
  intros H0. revert Hc. unfold nvhm_config_check. intros (u & _ & Hrest)%obind_Ok. revert Hrest.
  destruct (_ && _); [|done]. destruct (negb _); [|done]. destruct (0 <? _); [|done].
  destruct ((key_fetch_queue_length c =? 0) || _) eqn:E; [|done]. intros _.
  assert (forall L, 0 <= L <= 8 -> (L =? 0) || (L <=? 8) && has_single_bit (wrapu 64 L) = true -> L ∈ [0; 1; 2; 4; 8]) as Hall.
  { intros L HL1 HL2. assert (L = 0 \/ L = 1 \/ L = 2 \/ L = 3 \/ L = 4 \/ L = 5 \/ L = 6 \/ L = 7 \/ L = 8)
      as [->|[->|[->|[->|[->|[->|[->|[->| ->]]]]]]]] by lia; vm_compute in HL2; try done; set_solver. }
  apply Hall; [|done]. apply orb_prop in E as [E|[E _]%andb_prop]; lia.
Qed.

Lemma start_sim pf : sim0 c with_values pf (nf_maps s0) start fs0.
Proof.
  intros a. constructor; cbn; try done. apply Forall2_same_length_lookup. split; [done|].
  intros j m0 m E0 E. simplify_eq. by split.
Qed.

Lemma tasks_in_range t : t ∈ seqZ 0 (nv_num_tasks c num_parts n) ->
  0 <= nv_task_part c n t < num_parts /\ forall w, w ∈ nv_task_words c num_parts n t -> 0 <= n - w * nb.
Proof.
  intros Ht. destruct nvhm_check_facts as (F1 & F2 & F3).
  assert (Hlen : Z.of_nat (length parts) = num_parts) by by rewrite length_fmap.
  assert (Hhome : forall key, 0 <= part_of p (Z.of_nat (length parts)) key < Z.of_nat (length parts)).
  { intros key. rewrite Hlen, Hparts. by apply part_of_range. }
  assert (Et : nv_num_tasks c num_parts n = num_tasks (stl_view c) parts n) by (unfold num_tasks; by rewrite Hlen).
  rewrite Et in Ht. apply elem_of_seqZ in Ht. rewrite Z.add_0_l in Ht.
  destruct (task_split (stl_view c) parts n F1 Hn F2 t Ht) as (a & r & Ht' & Ha & Hr).
  destruct (task_words_elem (stl_view c) p parts n F1 Hn Hhome F2 a r 0 ltac:(lia) Hr) as [Ep _].
  change (nv_task_part c n t) with (task_part (stl_view c) n t). rewrite Ht', Ep.
  split; [by rewrite <- Hlen|]. intros w Hw. rewrite <- (task_words_view c n entries (nf_maps s0)) in Hw.
  destruct (task_words_elem (stl_view c) p parts n F1 Hn Hhome F2 a r w ltac:(lia) Hr) as [_ Hin].
  apply Hin in Hw as (x & Hx & Hx' & ->).
  pose proof (word_nonempty (stl_view c) n F1 Hn ((x + Z.quot (hm_size (stl_view c) n * a) (Z.of_nat (length parts))) mod hm_size (stl_view c) n)) as Hne.
  pose proof (hm_size_pos (stl_view c) n F1 Hn) as Hpos.
  apply Z.lt_le_incl, Hne, Z.mod_pos_bound, Hpos.
Qed.

Lemma stored_resident ij : is_Some (stored ij) <-> resident p parts keys ij.
Proof.
  unfold resident. rewrite length_fmap. set (a := part_of p num_parts (keys ij)).
  destruct (nvhm_home entries p k Hk (nf_maps s0) (keys ij) Hparts) as (m & Em & ->). fold a in Em.
  unfold nv_row_of. rewrite (view_slot_at entries (nf_maps s0) a (keys ij) m Em).
  destruct (entries m !! keys ij); simpl; split; intros [? ?]; eauto; done.
Qed.

(** The row the simulated lookup delivers is the stored row. *)
Lemma stored_row ij r q : stored ij = Some r -> slot_of parts (part_of p (Z.of_nat (length parts)) (keys ij)) (keys ij) = Some q ->
  row_at (stl_view c) parts (part_of p (Z.of_nat (length parts)) (keys ij)) q = r.
Proof.
  rewrite length_fmap. set (a := part_of p num_parts (keys ij)).
  destruct (nvhm_home entries p k Hk (nf_maps s0) (keys ij) Hparts) as (m & Em & ->). fold a in Em.
  unfold nv_row_of. rewrite (view_slot_at entries (nf_maps s0) a (keys ij) m Em).
  destruct (entries m !! keys ij) as [[r' v]|] eqn:Ee; [|done]. simpl. intros [= <-] [= <-].
  unfold row_at. rewrite list_lookup_fmap, Em. apply (view_row _ _ _ v); [done|by eapply nl_row].
Qed.

Lemma newhit_view ij : newhit (stl_view c) p parts n keys fs0 ij <-> nv_newhit ij.
Proof. unfold newhit, nv_newhit. by rewrite <- stored_resident. Qed.

(** The specification of the simulated lookup, read back. *)
Lemma view_spec pf s fs :
  find_spec (stl_view c) p parts n keys value_stride with_values with_value_sizes fs0 fs ->
  sim0 c with_values pf (nf_maps s0) s fs -> nv_find_spec s.
Proof.
  intros [A1 A2 A3 A4] Hs. destruct (Hs 0) as [S1 _ S2 S3 S4 S5 _]. cbn [fst snd nv_flush] in *.
  constructor.
  - intros ij Hij. rewrite S1, stored_resident. exact (A1 ij Hij).
  - rewrite S4, A2. cbn [f_hits]. rewrite Z.add_0_l. do 2 f_equal. apply filter_ext_in. intros ij _. apply newhit_view.
  - intros Hv ij r Hnew Er. pose proof (proj1 Hnew) as Hij. pose proof (A3 Hv ij Hij) as E3. cbn [base_config stl_view] in E3.
    rewrite S2, E3, decide_True by by apply newhit_view.
    destruct (proj1 (stored_resident ij) ltac:(rewrite Er; by eexists)) as [q Eq]. rewrite Eq. by apply stored_row.
  - intros Hv ij Hij Hnot. pose proof (A3 Hv ij Hij) as E3. cbn [base_config stl_view f_values] in E3.
    rewrite S2, E3. by rewrite decide_False by by rewrite newhit_view.
  - intros Hv ij Hij. rewrite S3, (A4 Hv ij Hij). pose proof (newhit_view ij).
    do 2 destruct (decide _); tauto || done.
  - intros key. by apply (same_maps_lookup c).
Qed.

(** C9. A lookup in the hash-map table, with or without value prefetching and for
    every admitted length of the key queue, returns: it sets exactly the bits of
    the stored keys and keeps those set before, delivers the stored row and the
    row size of exactly the keys that were missing and are found, leaves the
    other output rows alone, adds their number to the lookup counter and leaves
    every row of the table as it was. *)
Theorem nvhm_find_correct (counter : Z) :
  0 <= key_fetch_queue_length c ->
  exists s, nv_find_op c p num_parts n keys value_stride with_values with_value_sizes lru_time true (Some counter) s0
      = Ok (s, Some (counter + nf_hits s)) /\ nv_find_spec s.
Proof.
  intros Hq%queue_length_facts. destruct nvhm_check_facts as (F1 & F2 & F3).
  assert (existsb (Z.eqb (key_fetch_queue_length c)) [0; 1; 2; 4; 8] = true /\ 0 <= key_fetch_queue_length c) as [Hex HL0].
  { rewrite !elem_of_cons, elem_of_nil in Hq. destruct Hq as [->|[->|[->|[->|[->|[]]]]]]; split; done || lia. }
  destruct (tasks_sim c p n keys value_stride with_values with_value_sizes lru_time (nv_prefetch_values c)
    (key_fetch_queue_length c) entries q_keys (nf_maps s0) ltac:(lia) HL0 (seqZ 0 (nv_num_tasks c num_parts n)) start fs0
    (start_sim _) tasks_in_range) as (s & E & Hs).
  exists s. unfold nv_find_op, nv_find_. rewrite (proj2 (Z.leb_gt n 0)), Hex, (proj2 (Z.leb_le _ _)) by lia. cbn [negb].
  rewrite E. cbn [obind]. split; [done|]. eapply view_spec; [|exact Hs].
  assert (Et : nv_num_tasks c num_parts n = num_tasks (stl_view c) parts n) by (unfold num_tasks; by rewrite length_fmap).
  rewrite Et. apply (tasks_correct (stl_view c)); try done.
  intros key. rewrite length_fmap, Hparts. by apply part_of_range.
Qed.

(** C26. The key queue makes no difference: a lookup that prepares up to [L] lookups
    ahead leaves exactly the state of the direct lookup. *)
Theorem nvhm_queue_equivalent (pf : bool) (L : Z) :
  0 <= L ->
  nv_find_ c p num_parts n keys value_stride with_values with_value_sizes lru_time L pf true s0 =
  nv_find_ c p num_parts n keys value_stride with_values with_value_sizes lru_time 0 pf true s0.
Proof.
  intros HL1. destruct nvhm_check_facts as (F1 & F2 & F3). unfold nv_find_. rewrite (proj2 (Z.leb_le _ _)) by done. cbn [negb].
  eapply (tasks_queue c p n keys value_stride with_values with_value_sizes lru_time pf L entries q_keys (nf_maps s0));
    [lia|done|apply start_sim|apply tasks_in_range].
Qed.
End Promises.
