(* ===== verification/NvhmExamples.v ===== *)
(** * A hash map and a queue with the contract of the library, and concrete calls

    A finite map with rows of four bytes, whose positions are its keys, and a
    first-in first-out queue satisfy [NvhmLaws] and [QueueLaws]. *)
From stdpp Require Import sorting.
From S2P Require Import Prelude BitOps Float32 DataTypes HostTable StlTable StlFind NvhmTable NvhmFind.

Abbreviation demo_map := (gmap Z (list Z * Z)).
Definition row4 (r : list Z) : list Z := resize 4 0 r.
Definition demo_entries (m : demo_map) : gmap Z (list Z * Z) := (fun rv => (row4 rv.1, rv.2)) <$> m.

#[export] Instance demo_nvhm : NvhmMap demo_map Z := {|
  nv_new := ∅;
  nv_lookup m k := (fun _ => k) <$> m !! k;
  nv_upsert m k n := match m !! k with Some _ => (m, k, n) | None => (<[k := ([], 0)]> m, k, n + 1) end;
  nv_erase m k := delete k m;
  nv_clear _ := ∅;
  nv_size m := Z.of_nat (size m);
  nv_row m q := match m !! q with Some rv => row4 rv.1 | None => [] end;
  nv_set_row m q d := match m !! q with Some rv => <[q := (overwrite d (row4 rv.1), rv.2)]> m | None => m end;
  nv_meta m q := match m !! q with Some rv => rv.2 | None => 0 end;
  nv_set_meta m q v := match m !! q with Some rv => <[q := (rv.1, v)]> m | None => m end;
  nv_keys m := (map_to_list m).*1;
  nv_keys_values m := (fun kv => (kv.1, kv.2.2)) <$> map_to_list m;
  nv_transform f m := (fun rv => (rv.1, f rv.2)) <$> m
|}.

Lemma row4_length r : length (row4 r) = 4%nat.
Proof. apply length_resize. Qed.

Lemma row4_overwrite d r : (length d <= 4)%nat -> row4 (overwrite d (row4 r)) = overwrite d (row4 r).
Proof.
  intros Hd. unfold row4 at 1. apply resize_all_alt. unfold overwrite. rewrite length_app, length_drop, row4_length. lia.
Qed.

#[export] Instance demo_nvhm_laws : NvhmLaws demo_map Z 4 demo_entries.
Proof.
  unfold demo_entries. constructor.
  - apply fmap_empty.
  - intros m k r v. rewrite lookup_fmap. intros ([r' v'] & _ & [= -> _])%fmap_Some. by rewrite row4_length.
  - intros m k. rewrite lookup_fmap. simpl. destruct (m !! k) as [[r v]|] eqn:E; [|done]. simpl. exists k. by rewrite E.
  - intros m k n. rewrite lookup_fmap. simpl. destruct (m !! k) as [rv|] eqn:E; [|by intros [? ?]].
    intros _. exists m, k. by rewrite E.
  - intros m k n. rewrite lookup_fmap. simpl. destruct (m !! k) as [rv|] eqn:E; [done|]. intros _.
    eexists _, k, (row4 []), 0. split; [done|]. split; [by rewrite fmap_insert|by rewrite lookup_insert_eq].
  - intros m k. apply fmap_delete.
  - intros m. apply fmap_empty.
  - intros m. simpl. by rewrite map_size_fmap.
  - intros m k q d r v. cbn [nv_lookup nv_set_row demo_nvhm]. intros Hq Hk Hd. rewrite lookup_fmap in Hk.
    destruct (m !! k) as [[r' v']|] eqn:E; [|done]. injection Hq as <-. injection Hk as <- <-.
    rewrite E, fmap_insert, lookup_insert_eq. cbn [fst snd]. rewrite row4_overwrite by lia. done.
  - intros m k q r v v'. cbn [nv_lookup nv_set_meta demo_nvhm]. intros Hq Hk. rewrite lookup_fmap in Hk.
    destruct (m !! k) as [[r' w]|] eqn:E; [|done]. injection Hq as <-. injection Hk as <- <-. by rewrite E, fmap_insert.
  - intros m k q v'. simpl. destruct (m !! q) as [rv|] eqn:E; [|done].
    destruct (decide (q = k)) as [->|Hne]; [by rewrite lookup_insert_eq, E|by rewrite lookup_insert_ne].
  - intros m q q' v'. simpl. destruct (m !! q) as [rv|] eqn:E; [|done].
    destruct (decide (q = q')) as [->|Hne]; [by rewrite lookup_insert_eq, E|by rewrite lookup_insert_ne].
  - intros m. simpl. rewrite map_to_list_fmap, <- list_fmap_compose. apply fmap_Permutation. done.
  - intros m. simpl. rewrite map_to_list_fmap, <- list_fmap_compose. apply fmap_Permutation. done.
  - intros f m. simpl. rewrite <- !map_fmap_compose. done.
Qed.

#[export] Instance demo_queue : NvhmQueue demo_map Z (list Z) := {|
  q_new := [];
  q_prepare _ k q := q ++ [k];
  q_full L q := L <=? Z.of_nat (length q);
  q_pop m q := match q with [] => (None, []) | k :: q => (nv_lookup m k, q) end
|}.

#[export] Instance demo_queue_laws : QueueLaws demo_map Z (list Z) id.
Proof. constructor; try done. intros m k ks q E. unfold id in E. subst q. by exists ks. Qed.

(** ** A sort by metadata *)

Fixpoint meta_insert (x : Z * Z) (l : list (Z * Z)) : list (Z * Z) :=
  match l with
  | [] => [x]
  | y :: l' => if x.2 <=? y.2 then x :: y :: l' else y :: meta_insert x l'
  end.
Definition meta_sort (l : list (Z * Z)) : list (Z * Z) := foldr meta_insert [] l.

Lemma meta_insert_perm x l : meta_insert x l ≡ₚ x :: l.
Proof. induction l as [|y l IH]; simpl; [done|]. destruct (_ <=? _); [done|]. rewrite IH. constructor. Qed.
Lemma meta_sort_perm l : meta_sort l ≡ₚ l.
Proof. induction l as [|x l IH]; simpl; [done|]. by rewrite meta_insert_perm, IH. Qed.

Lemma meta_insert_sorted x l :
  StronglySorted (fun x y => x.2 <= y.2) l -> StronglySorted (fun x y => x.2 <= y.2) (meta_insert x l).
Proof.
  induction 1 as [|y l Hs IH Hy]; simpl; [repeat constructor|]. destruct (Z.leb_spec x.2 y.2) as [Hle|Hgt].
  - constructor; [by constructor|]. constructor; [done|]. eapply Forall_impl; [exact Hy|]. intros z Hz. simpl in *. lia.
  - constructor; [done|]. rewrite meta_insert_perm. constructor; [lia|done].
Qed.
Lemma meta_sort_sorted l : StronglySorted (fun x y => x.2 <= y.2) (meta_sort l).
Proof. induction l as [|x l IH]; simpl; [constructor|by apply meta_insert_sorted]. Qed.

(** ** Concrete calls *)

Definition demo_nvhm_config (margin : Z) (h : OverflowHandler_t) : NvhmMapTableConfig :=
  {| nv_base := {| mask_size := 1; key_size := 8; max_value_size := 4; value_dtype := Float16; invalid_key := -1 |};
     nv_num_partitions := 2; nv_partitioner := Murmur3; nv_workgroups := [0]; nv_max_find_task_size := 2;
     kernel_size := 16; initial_capacity := 0; nv_value_alignment := 16; key_fetch_queue_length := 2;
     nv_prefetch_values := true; minimize_psl := false; auto_shrink := false;
     nv_overflow_policy := {| overflow_margin := margin; handler := h; resolution_margin := f64_of_Z 0 |} |}.

(** Two partitions; keys 5 and 9 are stored where the partitioner puts them. *)
Definition demo_nvhm_parts : list demo_map :=
  (fun i => (filter (fun kv => part_of Murmur3 2 kv.1 = i) ({[ 5 := ([1; 2; 3; 4], 7); 9 := ([5; 6; 7; 8], 3) ]} : demo_map)))
    <$> [0; 1].

Lemma nvhm_modify_refines_witness :
  exists parts, nvhm_insert (demo_nvhm_config 8 EvictLRU) Murmur3 id meta_sort [5; 11] 4 4 0 (fun a => a) demo_nvhm_parts = Ok parts /\
    nvhm_lookup demo_entries Murmur3 parts 5 = Some [0; 1; 2; 3] /\ nvhm_lookup demo_entries Murmur3 parts 9 = Some [5; 6; 7; 8].
Proof.
  destruct (nvhm_modify_refines (demo_nvhm_config 8 EvictLRU) demo_entries id meta_sort (fun _ => reflexivity _) meta_sort_perm
    meta_sort_sorted Murmur3 1 demo_nvhm_parts [5; 11] 4 0 0 (fun a => a)) as [(parts & E & Hk) _].
  - vm_compute. reflexivity.
  - lia.
  - reflexivity.
  - vm_compute. reflexivity.
  - simpl. lia.
  - intros m Hm. simpl. unfold demo_entries. rewrite map_size_fmap.
    assert (Forall (fun m : demo_map => (size m <? 3)%nat = true) demo_nvhm_parts) as Hs by (vm_compute; repeat constructor).
    rewrite Forall_forall in Hs. specialize (Hs m Hm). apply Nat.ltb_lt in Hs. clear Hm. revert Hs. generalize (size m). intros k Hk. lia.
  - exists parts. split; [exact E|]. clear E. split; rewrite Hk; vm_compute; reflexivity.
Defined.

Lemma nvhm_partition_bounded_witness :
  exists m, nvhm_insert_part (demo_nvhm_config 4 EvictLFU) id meta_sort 2 (fun a => a) 4 4 0
      [(0, 1); (1, 2); (2, 3); (3, 4)] (∅ : demo_map) = Ok m /\ Z.of_nat (size (demo_entries m)) < 4.
Proof.
  apply (nvhm_partition_bounded (demo_nvhm_config 4 EvictLFU) demo_entries id meta_sort (fun _ => reflexivity _) meta_sort_perm
    meta_sort_sorted 2 (fun a => a) 4 4 0 [(0, 1); (1, 2); (2, 3); (3, 4)] ∅); simpl; lia || (vm_compute; reflexivity).
Defined.

Definition demo_busy : demo_map := {[ 1 := ([], 5); 2 := ([], 9); 3 := ([], 2) ]}.

Lemma nvhm_lfu_drops_new_key_witness :
  exists m, nvhm_insert_key (demo_nvhm_config 4 EvictLFU) id meta_sort 2 (fun a => a) 4 4 0 (demo_busy, 3) (0, 7) = Ok (m, 2) /\
    nv_row_of demo_entries m 7 = None.
Proof.
  destruct (nvhm_lfu_drops_new_key (demo_nvhm_config 4 EvictLFU) demo_entries id meta_sort (fun _ => reflexivity _) meta_sort_perm
    meta_sort_sorted 2 (fun a => a) 4 4 0 0 7 demo_busy) as (m & E & Hk).
  - simpl. lia.
  - simpl. lia.
  - reflexivity.
  - vm_compute. reflexivity.
  - vm_compute. discriminate.
  - vm_compute. discriminate.
  - intros k r v. unfold demo_entries, demo_busy. rewrite lookup_fmap.
    intros ([r' v'] & Hin & [= -> ->])%fmap_Some. simpl.
    rewrite lookup_insert_Some, lookup_insert_Some, lookup_singleton_Some in Hin.
    destruct Hin as [[_ [= <- <-]]|[_ [[_ [= <- <-]]|[_ [_ [= <- <-]]]]]]; lia.
  - exists m. split; [|exact Hk]. etransitivity; [exact E|]. vm_compute in E. injection E as <- . vm_compute. reflexivity.
Defined.

Definition demo_nv_state : nv_find demo_map :=
  {| nf_mask := fun _ => 0; nf_values := fun _ => 0; nf_sizes := fun _ => 0; nf_maps := demo_nvhm_parts; nf_hits := 0 |}.

Lemma demo_nv_mask w : in_u (1 * 8) (nf_mask demo_nv_state w).
Proof. split; simpl; lia. Qed.

Lemma nvhm_find_correct_witness :
  exists s, nv_find_op (Q := list Z) (demo_nvhm_config 8 EvictLRU) Murmur3 2 3 (fun i => 5 + 4 * i) 4 true true 77 true (Some 10) demo_nv_state
      = Ok (s, Some (10 + nf_hits s)) /\ nf_hits s = 2 /\ mem_read (nf_values s) 4 4 = [5; 6; 7; 8].
Proof.
  destruct (nvhm_find_correct (demo_nvhm_config 8 EvictLRU) Murmur3 3 (fun i => 5 + 4 * i) 4 true true 77 demo_entries id
    demo_nv_state ltac:(vm_compute; reflexivity) 1 ltac:(lia) ltac:(reflexivity) ltac:(lia) ltac:(simpl; lia) demo_nv_mask 10
    ltac:(simpl; lia)) as (s & E & Hs).
  exists s. split; [exact E|]. split.
  - rewrite (nfs_hits _ _ _ _ _ _ _ _ _ _ Hs). vm_compute. reflexivity.
  - apply (nfs_rows _ _ _ _ _ _ _ _ _ _ Hs eq_refl 1); [|vm_compute; reflexivity].
    apply (bool_decide_unpack (nv_newhit _ _ _ _ _ _ _)). vm_compute. exact I.
Defined.

Lemma nvhm_queue_equivalent_witness :
  nv_find_ (Q := list Z) (demo_nvhm_config 8 EvictLRU) Murmur3 2 3 (fun i => 5 + 4 * i) 4 true true 77 1 true true demo_nv_state =
  nv_find_ (Q := list Z) (demo_nvhm_config 8 EvictLRU) Murmur3 2 3 (fun i => 5 + 4 * i) 4 true true 77 0 true true demo_nv_state.
Proof.
  apply (nvhm_queue_equivalent (demo_nvhm_config 8 EvictLRU) Murmur3 3 (fun i => 5 + 4 * i) 4 true true 77 demo_entries id
    demo_nv_state ltac:(vm_compute; reflexivity) 1 ltac:(lia) ltac:(reflexivity) ltac:(lia) ltac:(simpl; lia) demo_nv_mask true 1).
  lia.
Defined.
