(* ===== verification/ThreadPool.v ===== *)
(** * Thread pools: [include/thread_pool_base.hpp], [src/thread_pool_base.cpp],
    [include/thread_pool.hpp], [src/thread_pool.cpp]

    [SimpleThreadPool] (one queue) and [NumaThreadPool] (a queue per workgroup):
    submission of indexed tasks, distribution over workgroups, the worker loop
    and the shutdown of the destructors. A queue holds task indices; [None] is
    the invalid [packaged_task] that tells a worker to exit.

    A critical section (everything a thread does while it holds the lock of a
    workgroup) is one step. A worker is at the top of its loop ([Idle]: it is about
    to take the lock and test the queue, for the first time or after a wake-up),
    asleep on the condition variable ([Waiting]), in a task or gone. A submission
    queues its tasks under the lock and notifies after releasing it: the
    notifications issued and not yet delivered are [pending_], so that workers
    may run in between, or any time later. *)
From Stdlib Require Wf_nat.
From S2P Require Import Prelude.

Inductive wstate := Idle | Waiting | Busy (task : Z) | Exited.

#[global] Instance wstate_eq_dec : EqDecision wstate.
Proof. solve_decision. Defined.

(** The calls [on_submit.notify_one()] and [on_submit.notify_all()]. *)
Inductive notification := notify_one | notify_all.

#[global] Instance notification_eq_dec : EqDecision notification.
Proof. solve_decision. Defined.

Record pool := {
  tasks_ : list (list (option Z));      (* one queue per workgroup, front first *)
  workers_ : list (nat * wstate);       (* workgroup and state of each thread *)
  pending_ : list (nat * notification); (* workgroup and kind of each notification under way *)
  executed : list Z                     (* tasks that have run, oldest first *)
}.

Definition num_workgroups (P : pool) : Z := Z.of_nat (length (tasks_ P)).
Definition num_workers (P : pool) : Z := Z.of_nat (length (workers_ P)).

Definition set_queue (P : pool) (g : nat) (q : list (option Z)) : pool :=
  {| tasks_ := <[g := q]> (tasks_ P); workers_ := workers_ P; pending_ := pending_ P; executed := executed P |}.
Definition set_workers (P : pool) (ws : list (nat * wstate)) : pool :=
  {| tasks_ := tasks_ P; workers_ := ws; pending_ := pending_ P; executed := executed P |}.
Definition set_worker (P : pool) (i : nat) (w : nat * wstate) : pool := set_workers P (<[i := w]> (workers_ P)).
Definition set_pending (P : pool) (l : list (nat * notification)) : pool :=
  {| tasks_ := tasks_ P; workers_ := workers_ P; pending_ := l; executed := executed P |}.

(** A call of [on_submits_[g].notify_one()] or [notify_all()]. *)
Definition notify (g : nat) (k : notification) (P : pool) : pool := set_pending P (pending_ P ++ [(g, k)]).

(** ** Construction *)

(** [SimpleThreadPool::SimpleThreadPool]: [hardware] is
    [std::thread::hardware_concurrency()]. *)
Definition simple_pool (config_num_workers hardware : Z) : outcome pool :=
  let n := if config_num_workers <=? 0 then hardware else config_num_workers in
  check! (0 <? n) as "ThreadPool must have at least one worker!" in
  Ok {| tasks_ := [[]]; workers_ := repeat (0%nat, Idle) (Z.to_nat n); pending_ := []; executed := [] |}.

(** Workgroups of [NumaThreadPool]: requested workers and NUMA node; a request
    of zero workers takes the logical cores of the node. *)
Record NumaWorkgroupConfig := { cpu_socket_index : Z; numa_node_index : Z; wg_num_workers : Z }.

(** [NumaWorkgroupConfig::check] for a machine with the given topology. *)
Definition numa_workgroup_check (num_cpu_sockets num_numa_nodes : Z) (socket_nodes : Z -> Z)
    (w : NumaWorkgroupConfig) : outcome unit :=
  check! (-1 <=? cpu_socket_index w) as "Invalid value for cpu_socket_index!" in
  check! (cpu_socket_index w <? num_cpu_sockets) as "cpu_socket_index is out of range!" in
  check! (0 <=? numa_node_index w) as "Invalid value for numa_node_index!" in
  let numa_nodes := if cpu_socket_index w <? 0 then num_numa_nodes else socket_nodes (cpu_socket_index w) in
  check! (numa_node_index w <? numa_nodes) as "numa_node_index is out of range!" in
  check! (0 <=? wg_num_workers w) as "Invalid value for num_workers!" in
  Ok tt.

Definition numa_workers (logical_cores : Z -> Z) (w : NumaWorkgroupConfig) : Z :=
  if wg_num_workers w =? 0 then logical_cores (numa_node_index w) else wg_num_workers w.

(** No configured workgroup: one per CPU socket, on the first NUMA node of the
    socket ([first_node]). *)
Definition numa_workgroups (num_cpu_sockets : Z) (first_node : Z -> Z) (wgs : list NumaWorkgroupConfig)
  : list NumaWorkgroupConfig :=
  if bool_decide (length wgs = 0%nat)
  then (fun i => {| cpu_socket_index := i; numa_node_index := first_node i; wg_num_workers := 0 |})
         <$> seqZ 0 num_cpu_sockets
  else wgs.

Definition numa_pool (num_cpu_sockets : Z) (first_node logical_cores : Z -> Z)
    (config : list NumaWorkgroupConfig) : pool :=
  let wgs := numa_workgroups num_cpu_sockets first_node config in
  {| tasks_ := (fun _ => []) <$> wgs;
     workers_ := mjoin (imap (fun g w => repeat (g, Idle) (Z.to_nat (numa_workers logical_cores w))) wgs);
     pending_ := []; executed := [] |}.

(** ** Submission *)

(** [submit_n(task_idx, num_tasks, task, results, workgroup)] of both pools: the
    tasks are appended to the queue of the workgroup under its lock, then all its
    waiting workers are notified. *)
Definition submit_n (task_idx num_tasks workgroup : Z) (P : pool) : outcome (Z * pool) :=
  if num_tasks <=? 0 then Ok (task_idx, P)
  else
    check! (0 <=? workgroup) && (workgroup <? num_workgroups P) as "workgroup is out of range!" in
    check! negb (bool_decide (workers_ P = [])) as "ThreadPool is shutting down." in
    let g := Z.to_nat workgroup in
    let q := default [] (tasks_ P !! g) in
    Ok (task_idx + num_tasks, notify g notify_all (set_queue P g (q ++ (Some <$> seqZ task_idx num_tasks)))).

(** [submit(task, workgroup)]: one task, one worker notified. *)
Definition submit (task workgroup : Z) (P : pool) : outcome pool :=
  check! (0 <=? workgroup) && (workgroup <? num_workgroups P) as "workgroup is out of range!" in
  check! negb (bool_decide (workers_ P = [])) as "ThreadPool is shutting down." in
  let g := Z.to_nat workgroup in
  Ok (notify g notify_one (set_queue P g (default [] (tasks_ P !! g) ++ [Some task]))).

(** The overload that spreads bursts over a range of workgroups, wrapping
    around. [it] is the position in [wgs], [slot] the offset of [results]; the
    last component collects which result slot belongs to which task. [fuel]
    bounds the rounds. *)
Fixpoint submit_n_wgs (fuel : nat) (wgs : list Z) (it : nat) (task_idx num_tasks burst slot : Z) (P : pool)
    (res : list (Z * Z)) : outcome (Z * pool * list (Z * Z)) :=
  if num_tasks <=? 0 then Ok (task_idx, P, res)
  else
    match fuel with
    | O => Undef "out of fuel"
    | S fuel =>
        match wgs !! it with
        | None => Undef "dereference of the end iterator"
        | Some w =>
            let wg := Z.rem w (num_workgroups P) in
            let it := if bool_decide (S it = length wgs) then O else S it in
            let n := Z.min num_tasks burst in
            let! r := submit_n task_idx n wg P in
            submit_n_wgs fuel wgs it r.1 (num_tasks - burst) burst (slot + burst) r.2
              (res ++ zip (seqZ slot n) (seqZ task_idx n))
        end
    end.

Definition submit_n_range (wgs : list Z) (task_idx num_tasks tasks_per_workgroup : Z) (P : pool)
  : outcome (Z * pool * list (Z * Z)) :=
  check! negb (bool_decide (wgs = [])) as "Must select at least one workgroup!" in
  submit_n_wgs (Z.to_nat num_tasks) wgs 0 task_idx num_tasks (Z.max tasks_per_workgroup 1) 0 P [].

(** ** Workers *)

(** What the delivery of a notification does to the workers: [notify_all] wakes
    all that wait on the condition variable of the workgroup, [notify_one] one of
    them, whichever, if there is one. A woken worker takes the lock again. *)
Definition wake_all (g : nat) (ws : list (nat * wstate)) : list (nat * wstate) :=
  (fun w => if decide (w = (g, Waiting)) then (g, Idle) else w) <$> ws.

Inductive delivered (g : nat) (ws : list (nat * wstate)) : notification -> list (nat * wstate) -> Prop :=
  | delivered_all : delivered g ws notify_all (wake_all g ws)
  | delivered_one i : ws !! i = Some (g, Waiting) -> delivered g ws notify_one (<[i := (g, Idle)]> ws)
  | delivered_none : (g, Waiting) ∉ ws -> delivered g ws notify_one ws.

(** A worker takes the lock of its workgroup: it takes the front of the queue, or
    finds the queue empty and waits, which releases the lock. A worker finishes
    its task. A notification is delivered. *)
Inductive pstep : pool -> pool -> Prop :=
  | step_take P i g x q :
      workers_ P !! i = Some (g, Idle) -> tasks_ P !! g = Some (x :: q) ->
      pstep P (set_worker (set_queue P g q) i (g, match x with None => Exited | Some t => Busy t end))
  | step_wait P i g :
      workers_ P !! i = Some (g, Idle) -> tasks_ P !! g = Some [] ->
      pstep P (set_worker P i (g, Waiting))
  | step_finish P i g t :
      workers_ P !! i = Some (g, Busy t) ->
      pstep P {| tasks_ := tasks_ P; workers_ := <[i := (g, Idle)]> (workers_ P); pending_ := pending_ P;
                 executed := executed P ++ [t] |}
  | step_notify P j g k ws :
      pending_ P !! j = Some (g, k) -> delivered g (workers_ P) k ws ->
      pstep P (set_workers (set_pending P (delete j (pending_ P))) ws).

(** With the spurious wake-ups a condition variable may have. *)
Inductive wstep : pool -> pool -> Prop :=
  | wstep_pool P P' : pstep P P' -> wstep P P'
  | wstep_spurious P i g : workers_ P !! i = Some (g, Waiting) -> wstep P (set_worker P i (g, Idle)).

(** ** Shutdown *)

(** [~SimpleThreadPool]: as many termination tasks as workers. *)
Definition simple_shutdown (P : pool) : pool :=
  if bool_decide (workers_ P = []) then P
  else notify 0 notify_all (set_queue P 0 (default [] (tasks_ P !! 0%nat) ++ repeat None (length (workers_ P)))).

(** [~NumaThreadPool]: the average number of workers per workgroup, rounded
    down, for every workgroup. *)
Definition numa_shutdown (P : pool) : pool :=
  if bool_decide (workers_ P = []) then P
  else
    let n := (length (workers_ P) / length (tasks_ P))%nat in
    {| tasks_ := (fun q => q ++ repeat None n) <$> tasks_ P; workers_ := workers_ P;
       pending_ := pending_ P ++ ((fun g => (g, notify_all)) <$> seq 0 (length (tasks_ P))); executed := executed P |}.

(** [join] of all workers returns. *)
Definition all_exited (P : pool) : Prop := forall i w, workers_ P !! i = Some w -> w.2 = Exited.

(** No worker can make a step, and no notification is under way. *)
Definition quiescent (P : pool) : Prop := forall P', ~ pstep P P'.

(** ** Lemmas: bookkeeping *)

(** Tasks waiting in the queues and being run. *)
Definition busy_of (w : nat * wstate) : option Z := match w.2 with Busy t => Some t | _ => None end.
Definition queued (P : pool) : list Z := omap id (mjoin (tasks_ P)).
Definition running (P : pool) : list Z := omap busy_of (workers_ P).
Definition all_tasks (P : pool) : list Z := executed P ++ running P ++ queued P.

Lemma mjoin_front {A} (qs : list (list A)) g x q :
  qs !! g = Some (x :: q) -> mjoin qs ≡ₚ x :: mjoin (<[g := q]> qs).
Proof.
  revert g. induction qs as [|q0 qs IH]; intros [|g] H; simpl in *; simplify_eq; [done|].
  rewrite (IH g H). by rewrite Permutation_middle.
Qed.

Lemma mjoin_append {A} (qs : list (list A)) g q l :
  qs !! g = Some q -> mjoin (<[g := q ++ l]> qs) ≡ₚ mjoin qs ++ l.
Proof.
  revert g. induction qs as [|q0 qs IH]; intros [|g] H; simpl in *; simplify_eq.
  - rewrite <- !app_assoc. f_equiv. apply Permutation_app_comm.
  - rewrite (IH g H). by rewrite app_assoc.
Qed.

Lemma insert_perm {A} (l : list A) i x y :
  l !! i = Some x -> exists l', l ≡ₚ x :: l' /\ <[i := y]> l ≡ₚ y :: l'.
Proof.
  intros H. exists (delete i l). split; [by apply delete_Permutation|].
  assert (Hi : (i < length l)%nat) by (by eapply lookup_lt_Some).
  rewrite (delete_Permutation (<[i := y]> l) i y) by (by apply list_lookup_insert_eq).
  f_equiv. clear H. revert i Hi. induction l as [|z l IH]; intros [|i] Hi; simpl in *; try lia; [done|].
  by rewrite IH by lia.
Qed.

Lemma omap_head {A B} (f : A -> option B) x l :
  omap f (x :: l) = (match f x with Some y => [y] | None => [] end) ++ omap f l.
Proof. simpl. by destruct (f x). Qed.

(** What a wake-up may do to the workers: some of those that wait are awake. *)
Definition woken (w w' : nat * wstate) : Prop := w' = w \/ w.2 = Waiting /\ w' = (w.1, Idle).

Lemma woken_refl ws : Forall2 woken ws ws.
Proof. induction ws; constructor; [by left|done]. Qed.

Lemma woken_insert g ws i : ws !! i = Some (g, Waiting) -> Forall2 woken ws (<[i := (g, Idle)]> ws).
Proof.
  revert i. induction ws as [|w ws IH]; intros [|i] Hi; simpl in *; simplify_eq; constructor.
  - by right. - apply woken_refl. - by left. - by apply IH.
Qed.

Lemma delivered_woken g k ws ws' : delivered g ws k ws' -> Forall2 woken ws ws'.
Proof.
  intros [|i Hi|]; [|by apply woken_insert|apply woken_refl].
  unfold wake_all. induction ws as [|w ws IH]; csimpl; constructor; [|done].
  destruct (decide (w = (g, Waiting))) as [->|]; [by right|by left].
Qed.

(** Every step is one of a worker alone, or wakes workers. *)
Lemma wstep_cases P P' :
  wstep P P' ->
  (exists i g x q, workers_ P !! i = Some (g, Idle) /\ tasks_ P !! g = Some (x :: q) /\
     P' = set_worker (set_queue P g q) i (g, match x with None => Exited | Some t => Busy t end)) \/
  (exists i g t, workers_ P !! i = Some (g, Busy t) /\
     P' = {| tasks_ := tasks_ P; workers_ := <[i := (g, Idle)]> (workers_ P); pending_ := pending_ P;
             executed := executed P ++ [t] |}) \/
  (exists i g, workers_ P !! i = Some (g, Idle) /\ tasks_ P !! g = Some [] /\ P' = set_worker P i (g, Waiting)) \/
  (tasks_ P' = tasks_ P /\ executed P' = executed P /\ Forall2 woken (workers_ P) (workers_ P')).
Proof.
  intros [Q Q' [R i g x q Hw Hq|R i g Hw Hq|R i g t Hw|R j g k ws Hj Hd]|Q i g Hw].
  - left. by exists i, g, x, q.
  - right; right; left. by exists i, g.
  - right; left. by exists i, g, t.
  - right; right; right. split_and!; [done..|]. by eapply delivered_woken.
  - right; right; right. split_and!; [done..|]. by apply woken_insert.
Qed.

Ltac wcases H :=
  destruct (wstep_cases _ _ H) as
    [(i & h & x & q & Hw & Hh & ->)|[(i & h & t & Hw & ->)|[(i & h & Hw & Hh & ->)|(Ht & Hx & Hf)]]].

Lemma woken_running ws ws' : Forall2 woken ws ws' -> omap busy_of ws' = omap busy_of ws.
Proof.
  induction 1 as [|w w' ws ws' Hw _ IH]; [done|]. rewrite !omap_head, IH. f_equal.
  destruct Hw as [->|[Hw ->] ]; [done|]. unfold busy_of. by rewrite Hw.
Qed.

Lemma woken_fst ws ws' : Forall2 woken ws ws' -> fst <$> ws' = fst <$> ws.
Proof. induction 1 as [|w w' ws ws' Hw _ IH]; csimpl; [done|]. rewrite IH. f_equal. by destruct Hw as [->|[_ ->] ]. Qed.

Lemma wstep_tasks P P' : wstep P P' -> all_tasks P' ≡ₚ all_tasks P.
Proof.
  intros H. unfold all_tasks, running, queued. wcases H; simpl.
  - destruct (insert_perm _ _ _ (h, match x with None => Exited | Some t => Busy t end) Hw) as (l & E1 & E2).
    rewrite E2, E1, (mjoin_front _ _ _ _ Hh), !omap_head. f_equiv. destruct x as [t|]; simpl; [|done].
    rewrite Permutation_middle. done.
  - destruct (insert_perm _ _ _ (h, Idle) Hw) as (l & E1 & E2).
    rewrite E2, E1, !omap_head. simpl. by rewrite <- app_assoc.
  - destruct (insert_perm _ _ _ (h, Waiting) Hw) as (l & E1 & E2). by rewrite E2, E1, !omap_head.
  - by rewrite Ht, Hx, (woken_running _ _ Hf).
Qed.

(** Work left: every step but a spurious wake-up makes it smaller. A
    notification may wake all workers, which then test the queue. *)
Definition worker_weight (w : nat * wstate) : nat :=
  match w.2 with Idle => 1 | Waiting => 0 | Busy _ => 2 | Exited => 0 end.
Definition weight (ws : list (nat * wstate)) : nat := sum_list_with worker_weight ws.
Definition work_left (P : pool) : nat :=
  2 * length (mjoin (tasks_ P)) + weight (workers_ P) + (length (workers_ P) + 1) * length (pending_ P).

#[global] Instance weight_perm : Proper ((≡ₚ) ==> (=)) weight.
Proof. unfold weight. intros l k H. induction H; simpl; lia. Qed.

Lemma woken_weight ws ws' : Forall2 woken ws ws' -> (weight ws' <= weight ws + length ws)%nat.
Proof.
  unfold weight. induction 1 as [|w w' ws ws' Hw _ IH]; simpl; [lia|].
  destruct Hw as [->|[Hw ->] ]; [lia|]. unfold worker_weight at 1 3. rewrite Hw. simpl. lia.
Qed.

Lemma pstep_decreases P P' : pstep P P' -> (work_left P' < work_left P)%nat.
Proof.
  intros [Q i g x q Hw Hq|Q i g Hw Hq|Q i g t Hw|Q j g k ws Hj Hd]; unfold work_left; simpl; rewrite ?length_insert.
  - destruct (insert_perm _ _ _ (g, match x with None => Exited | Some t => Busy t end) Hw) as (l & E1 & E2).
    rewrite E2, E1, (mjoin_front _ _ _ _ Hq). unfold weight. destruct x; simpl; lia.
  - destruct (insert_perm _ _ _ (g, Waiting) Hw) as (l & E1 & E2). rewrite E2, E1. unfold weight. simpl. lia.
  - destruct (insert_perm _ _ _ (g, Idle) Hw) as (l & E1 & E2). rewrite E2, E1. unfold weight. simpl. lia.
  - pose proof (delivered_woken _ _ _ _ Hd) as Hf. pose proof (woken_weight _ _ Hf). pose proof (Forall2_length _ _ _ Hf) as Hl.
    rewrite (delete_Permutation (pending_ Q) j _ Hj) at 2. simpl. rewrite <- Hl. nia.
Qed.

Lemma pstep_wf : well_founded (fun P' P => pstep P P').
Proof. apply (Wf_nat.well_founded_lt_compat _ work_left). intros P' P H. by apply pstep_decreases. Qed.

Lemma wstep_shape P P' :
  wstep P P' -> length (tasks_ P') = length (tasks_ P) /\ (fst <$> workers_ P') = (fst <$> workers_ P).
Proof.
  intros H. wcases H; simpl; rewrite ?length_insert; [..|rewrite Ht, (woken_fst _ _ Hf); done]; split; auto;
    rewrite list_fmap_insert; simpl; apply list_insert_id; rewrite list_lookup_fmap, Hw; done.
Qed.

Lemma wsteps_shape P P' :
  rtc wstep P P' -> length (tasks_ P') = length (tasks_ P) /\ (fst <$> workers_ P') = (fst <$> workers_ P).
Proof.
  induction 1 as [|P Q R HPQ _ [IH1 IH2] ]; [done|]. destruct (wstep_shape _ _ HPQ). split; congruence.
Qed.

Lemma wsteps_tasks P P' : rtc wstep P P' -> all_tasks P' ≡ₚ all_tasks P.
Proof. induction 1 as [|P Q R HPQ _ IH]; [done|]. by rewrite IH, (wstep_tasks _ _ HPQ). Qed.

Lemma psteps_wsteps P P' : rtc pstep P P' -> rtc wstep P P'.
Proof. induction 1; [done|]. eapply rtc_l; [by apply wstep_pool|done]. Qed.

(** ** Lemmas: runs *)

Definition can_step (P : pool) (w : nat * wstate) : bool :=
  match w.2 with
  | Idle => bool_decide (is_Some (tasks_ P !! w.1))
  | Busy _ => true
  | Waiting | Exited => false
  end.

Lemma can_step_spec P i w : workers_ P !! i = Some w -> can_step P w = true -> exists P', pstep P P'.
Proof.
  intros Hw. destruct w as [g [| |t|]]; unfold can_step; simpl; [|done|intros _; eexists; by eapply step_finish|done].
  intros [ [|x q] Hq]%bool_decide_eq_true; eexists; [by eapply step_wait|by eapply step_take].
Qed.

(** A notification can always be delivered. *)
Lemma delivered_total g k ws : exists ws', delivered g ws k ws'.
Proof.
  destruct k; [|eexists; constructor]. destruct (decide ((g, Waiting) ∈ ws)) as [Hin|Hn].
  - apply list_elem_of_lookup in Hin as [i Hi]. eexists. by eapply delivered_one.
  - eexists. by apply delivered_none.
Qed.

Lemma quiescent_spec P :
  quiescent P <-> pending_ P = [] /\ forall i w, workers_ P !! i = Some w -> can_step P w = false.
Proof.
  split.
  - intros Hq. split.
    + destruct (pending_ P) as [|[g k] l] eqn:E; [done|]. destruct (delivered_total g k (workers_ P)) as [ws Hd].
      exfalso. eapply Hq, (step_notify P 0 g k ws); [by rewrite E|done].
    + intros i w Hw. destruct (can_step P w) eqn:E; [|done].
      destruct (can_step_spec P i w Hw E) as [P' H]. by apply Hq in H.
  - intros [Hp H] P' Hs. revert Hp H.
    destruct Hs as [Q i g x q Hw Hq|Q i g Hw Hq|Q i g t Hw|Q j g k ws Hj Hd]; intros Hp H.
    4: by rewrite Hp in Hj.
    all: apply H in Hw; unfold can_step in Hw; simpl in Hw; first [done|by rewrite Hq in Hw].
Qed.

Lemma step_or_quiescent P : (exists P', pstep P P') \/ quiescent P.
Proof.
  destruct (decide (Exists (fun w => can_step P w = true) (workers_ P))) as [H|H].
  - left. apply Exists_exists in H as (w & (i & Hi)%list_elem_of_lookup & Hc). by eapply can_step_spec.
  - destruct (pending_ P) as [|[g k] l] eqn:E.
    + right. apply quiescent_spec. split; [done|]. intros i w Hw. destruct (can_step P w) eqn:Ec; [|done].
      destruct H. apply Exists_exists. exists w. split; [|done]. by eapply list_elem_of_lookup_2.
    + left. destruct (delivered_total g k (workers_ P)) as [ws Hd]. eexists.
      eapply (step_notify P 0 g k ws); [by rewrite E|done].
Qed.

(** Every pool comes to rest. *)
Lemma reach_quiescent P : exists P', rtc pstep P P' /\ quiescent P'.
Proof.
  induction P as [P IH] using (well_founded_ind pstep_wf).
  destruct (step_or_quiescent P) as [ [Q HQ]|Hq].
  - destruct (IH Q HQ) as (P' & Hr & Hq). exists P'. split; [|done]. by eapply rtc_l.
  - by exists P.
Qed.

(** ** Lemmas: termination tasks *)

Definition queue (P : pool) (g : nat) : list (option Z) := default [] (tasks_ P !! g).
Definition tokens_in (g : nat) (P : pool) : nat := length (filter (fun x => x = None) (queue P g)).
Definition exited_in (g : nat) (P : pool) : nat := length (filter (fun w => w = (g, Exited)) (workers_ P)).
Definition workers_in (g : nat) (P : pool) : nat := length (filter (fun h => h = g) (fst <$> workers_ P)).

Lemma filter_head {A} (Q : A -> Prop) `{!forall x, Decision (Q x)} x l :
  length (filter Q (x :: l)) = ((if decide (Q x) then 1 else 0) + length (filter Q l))%nat.
Proof. rewrite filter_cons. by destruct (decide (Q x)). Qed.

Lemma queue_take P i g x q w h :
  tasks_ P !! g = Some (x :: q) ->
  queue (set_worker (set_queue P g q) i w) h = if decide (h = g) then q else queue P h.
Proof.
  intros Hq. unfold queue. simpl. destruct (decide (h = g)) as [->|Hne].
  - rewrite list_lookup_insert_eq; [done|]. by eapply lookup_lt_Some.
  - by rewrite list_lookup_insert_ne.
Qed.

Lemma queue_same P P' g : tasks_ P' = tasks_ P -> queue P' g = queue P g.
Proof. unfold queue. by intros ->. Qed.

Lemma woken_exited g ws ws' :
  Forall2 woken ws ws' -> length (filter (fun w => w = (g, Exited)) ws') = length (filter (fun w => w = (g, Exited)) ws).
Proof.
  induction 1 as [|w w' ws ws' Hw _ IH]; [done|]. rewrite !filter_head, IH. f_equal.
  destruct w as [h s], Hw as [->|[Hw ->] ]; simpl in *; repeat case_decide; simplify_eq; done.
Qed.

(** A step leaves the tokens and the exits of a workgroup in balance. *)
Lemma wstep_tokens P P' g :
  wstep P P' -> (tokens_in g P' + exited_in g P' = tokens_in g P + exited_in g P)%nat.
Proof.
  intros H. unfold tokens_in, exited_in. wcases H.
  - rewrite (queue_take P i h x q _ g Hh). simpl.
    destruct (insert_perm _ _ _ (h, match x with None => Exited | Some t => Busy t end) Hw) as (l & E1 & E2).
    rewrite E2, E1, !filter_head.
    destruct (decide (g = h)) as [->|Hne].
    + unfold queue. rewrite Hh. simpl default. unfold id. rewrite filter_head.
      destruct x; simpl; repeat case_decide; simplify_eq; lia.
    + repeat case_decide; simplify_eq; lia.
  - rewrite (queue_same P) by done. simpl. destruct (insert_perm _ _ _ (h, Idle) Hw) as (l & E1 & E2). rewrite E2, E1, !filter_head.
    repeat case_decide; simplify_eq; lia.
  - rewrite (queue_same P) by done. simpl. destruct (insert_perm _ _ _ (h, Waiting) Hw) as (l & E1 & E2). rewrite E2, E1, !filter_head.
    repeat case_decide; simplify_eq; lia.
  - by rewrite (queue_same P), (woken_exited _ _ _ Hf) by done.
Qed.

Lemma wsteps_tokens P P' g :
  rtc wstep P P' -> (tokens_in g P' + exited_in g P' = tokens_in g P + exited_in g P)%nat.
Proof. induction 1 as [|P Q R HPQ _ IH]; [done|]. rewrite IH. by apply wstep_tokens. Qed.

(** Termination tasks queue up behind the real ones, and once a worker of the
    workgroup has left no real one is waiting. *)
Definition tail_tokens (P : pool) (g : nat) : Prop :=
  exists l k, queue P g = (Some <$> l) ++ repeat None k /\ (exited_in g P = 0%nat \/ l = []).

Lemma wstep_tail P P' g : wstep P P' -> tail_tokens P g -> tail_tokens P' g.
Proof.
  intros Hs (l & k & Hq & Hl). pose proof (wstep_tokens P P' g Hs) as Htok. revert Hq Hl Htok.
  unfold tail_tokens, tokens_in in *.
  wcases Hs; intros Hq Hl Htok; [|rewrite !(queue_same P) in * by done; exists l, k; split; [done|]; destruct Hl; [left; lia|by right]..].
  rewrite (queue_take P i h x q _ g Hh) in *. destruct (decide (g = h)) as [->|Hne].
  - unfold queue in Hq, Htok. rewrite Hh in Hq, Htok. simpl default in Hq, Htok. unfold id in Hq, Htok.
    destruct l as [|t l]; simpl in Hq.
    + destruct k as [|k]; simplify_eq/=. exists [], k. split; [done|by right].
    + simplify_eq/=. exists l, k. split; [done|]. left. destruct Hl as [Hl|]; [|done].
      rewrite filter_cons_False in Htok by done. lia.
  - exists l, k. split; [done|]. destruct Hl as [Hl|]; [left; lia|by right].
Qed.

Lemma wsteps_tail P P' g : rtc wstep P P' -> tail_tokens P g -> tail_tokens P' g.
Proof. induction 1; eauto using wstep_tail. Qed.

Lemma workers_in_steps P P' g : rtc wstep P P' -> workers_in g P' = workers_in g P.
Proof. intros H. unfold workers_in. by rewrite (proj2 (wsteps_shape _ _ H)). Qed.

Lemma exited_le g (ws : list (nat * wstate)) :
  (length (filter (fun w => w = (g, Exited)) ws) <= length (filter (fun h => h = g) (fst <$> ws)))%nat.
Proof.
  induction ws as [|[h s] ws IH]; [done|]. rewrite fmap_cons, !filter_head. simpl. repeat case_decide; simplify_eq; lia.
Qed.

Lemma exited_lt g i s (ws : list (nat * wstate)) :
  ws !! i = Some (g, s) -> s <> Exited ->
  (length (filter (fun w => w = (g, Exited)) ws) < length (filter (fun h => h = g) (fst <$> ws)))%nat.
Proof.
  intros Hi Hs. rewrite (delete_Permutation ws i _ Hi). rewrite fmap_cons, !filter_head. simpl.
  rewrite decide_False by congruence. rewrite decide_True by done. pose proof (exited_le g (delete i ws)). lia.
Qed.

Lemma mjoin_nil {A} (qs : list (list A)) : (forall g q, qs !! g = Some q -> q = []) -> mjoin qs = [].
Proof.
  induction qs as [|q qs IH]; intros Hall; [done|]. simpl. rewrite (Hall 0%nat q eq_refl). apply IH.
  intros g q' Hg. by apply (Hall (S g)).
Qed.

Lemma omap_none {A B} (f : A -> option B) l : (forall x, x ∈ l -> f x = None) -> omap f l = [].
Proof.
  induction l as [|x l IH]; intros H; [done|]. rewrite omap_head, H by (by left). apply IH. intros; apply H; by right.
Qed.

Lemma exited_all g (ws : list (nat * wstate)) :
  (forall i w, ws !! i = Some w -> w.2 = Exited) ->
  length (filter (fun w => w = (g, Exited)) ws) = length (filter (fun h => h = g) (fst <$> ws)).
Proof.
  induction ws as [|[h s] ws IH]; intros H; [done|].
  rewrite fmap_cons, !filter_head, IH by (intros i w Hi; by apply (H (S i))).
  pose proof (H 0%nat (h, s) eq_refl) as Hs. simpl in *. subst s. repeat case_decide; simplify_eq; done.
Qed.

Lemma tokens_repeat k : length (filter (fun x : option Z => x = None) (repeat None k)) = k.
Proof. induction k as [|k IH]; [done|]. simpl repeat. rewrite filter_head, IH. by rewrite decide_True. Qed.

(** ** Lemmas: no wake-up is lost *)

(** A worker of the workgroup that will test the queue without being woken. *)
Definition is_awake (s : wstate) : Prop := match s with Idle | Busy _ => True | Waiting | Exited => False end.
Definition awake_in (g : nat) (ws : list (nat * wstate)) : Prop := exists i s, ws !! i = Some (g, s) /\ is_awake s.

(** Tasks in the queue: a worker is awake, or a notification is under way. *)
Definition attended (g : nat) (P : pool) : Prop :=
  queue P g = [] \/ awake_in g (workers_ P) \/ exists k, (g, k) ∈ pending_ P.
(** Tasks in the queue: no worker sleeps, or all will be woken. *)
Definition called (g : nat) (P : pool) : Prop :=
  queue P g = [] \/ (g, Waiting) ∉ workers_ P \/ (g, notify_all) ∈ pending_ P.

Lemma awake_set g ws i h s s' :
  ws !! i = Some (h, s) -> awake_in g ws -> h <> g \/ is_awake s' -> awake_in g (<[i := (h, s')]> ws).
Proof.
  intros Hi (j & r & Hj & Hr) Hs. destruct (decide (j = i)) as [->|Hne].
  - simplify_eq. destruct Hs as [Hs|Hs]; [done|]. exists i, s'. split; [|done].
    apply list_lookup_insert_eq. by eapply lookup_lt_Some.
  - exists j, r. by rewrite list_lookup_insert_ne.
Qed.

Lemma woken_awake g ws ws' : Forall2 woken ws ws' -> awake_in g ws -> awake_in g ws'.
Proof.
  intros Hf (i & s & Hi & Hs). destruct (Forall2_lookup_l _ _ _ _ _ Hf Hi) as (w & Hw & [->|[E ->] ]); simpl in *.
  - by exists i, s. - by exists i, Idle.
Qed.

Lemma delivered_awake g k ws ws' i s :
  delivered g ws k ws' -> ws !! i = Some (g, s) -> s <> Exited -> awake_in g ws'.
Proof.
  intros Hd Hi Hs. destruct (decide (s = Waiting)) as [->|Hn].
  - destruct Hd as [|j Hj|Hj].
    + exists i, Idle. split; [|done]. unfold wake_all. rewrite list_lookup_fmap, Hi. csimpl. by rewrite decide_True.
    + exists j, Idle. split; [|done]. apply list_lookup_insert_eq. by eapply lookup_lt_Some.
    + destruct Hj. by eapply list_elem_of_lookup_2.
  - apply (woken_awake g ws ws'); [by eapply delivered_woken|]. exists i, s. split; [done|]. by destruct s.
Qed.

Lemma elem_of_delete_list {A} (l : list A) j x y :
  l !! j = Some y -> x ∈ l -> x = y \/ x ∈ delete j l.
Proof. intros Hj. rewrite (delete_Permutation l j y Hj) at 1. rewrite elem_of_cons. done. Qed.

(** The queue of a workgroup whose workers stay never waits for a wake-up that
    does not come. *)
Lemma wstep_attended P P' g i s :
  wstep P P' -> tokens_in g P = 0%nat -> workers_ P !! i = Some (g, s) -> s <> Exited ->
  attended g P -> attended g P'.
Proof.
  intros Hs Htok Hi Hne Hat. destruct Hs as [P P' [Q j h x q Hw Hq|Q j h Hw Hq|Q j h t Hw|Q j h k ws Hj Hd]|Q j h Hw].
  - destruct (decide (h = g)) as [->|Hn].
    + right; left. destruct x as [t|].
      * exists j, (Busy t). split; [|done]. apply list_lookup_insert_eq. by eapply lookup_lt_Some.
      * unfold tokens_in, queue in Htok. rewrite Hq in Htok. simpl default in Htok. unfold id in Htok. by rewrite filter_cons_True in Htok.
    + unfold attended. rewrite (queue_take Q j h x q _ g Hq), decide_False by done.
      destruct Hat as [?|[Ha|?] ]; [by left| |by right; right]. right; left. eapply awake_set; [done|done|by left].
  - destruct (decide (h = g)) as [->|Hn].
    + left. unfold queue. simpl. by rewrite Hq.
    + destruct Hat as [?|[Ha|?] ]; [by left| |by right; right]. right; left. eapply awake_set; [done|done|by left].
  - destruct Hat as [?|[Ha|?] ]; [by left| |by right; right]. right; left. eapply awake_set; [done|done|by right].
  - destruct Hat as [?|[Ha|[k' Hk] ] ]; [by left| |].
    + right; left. simpl. eapply woken_awake; [by eapply delivered_woken|done].
    + destruct (elem_of_delete_list _ j _ _ Hj Hk) as [E|Hin]; [|right; right; by exists k'].
      simplify_eq. right; left. by eapply delivered_awake.
  - destruct Hat as [?|[Ha|?] ]; [by left| |by right; right]. right; left. eapply awake_set; [done|done|by right].
Qed.

Lemma waiting_set (g : nat) (ws : list (nat * wstate)) (j h : nat) (s : wstate) :
  (g, Waiting) ∉ ws -> h <> g \/ s <> Waiting -> (g, Waiting) ∉ <[j := (h, s)]> ws.
Proof.
  intros Hn Hs (i & Hi)%list_elem_of_lookup. apply Hn.
  apply list_lookup_insert_Some in Hi as [(-> & E & _)|[_ Hi] ]; [destruct Hs; congruence|by eapply list_elem_of_lookup_2].
Qed.

Lemma woken_waiting (g : nat) (ws ws' : list (nat * wstate)) : Forall2 woken ws ws' -> (g, Waiting) ∉ ws -> (g, Waiting) ∉ ws'.
Proof.
  intros Hf Hn (i & Hi)%list_elem_of_lookup. destruct (Forall2_lookup_r _ _ _ _ _ Hf Hi) as (w & Hw & [E|[_ E] ]); [|done].
  subst w. destruct Hn. by eapply list_elem_of_lookup_2.
Qed.

Lemma wstep_called P P' g : wstep P P' -> called g P -> called g P'.
Proof.
  intros Hs Hc. destruct Hs as [P P' [Q j h x q Hw Hq|Q j h Hw Hq|Q j h t Hw|Q j h k ws Hj Hd]|Q j h Hw].
  - unfold called. rewrite (queue_take Q j h x q _ g Hq).
    destruct Hc as [Hc|[Hc|Hc] ]; [|right; left; apply waiting_set; [done|right; by destruct x]|by right; right].
    left. destruct (decide (g = h)) as [->|]; [|done]. unfold queue in Hc. by rewrite Hq in Hc.
  - destruct (decide (h = g)) as [->|Hn]; [left; unfold queue; simpl; by rewrite Hq|].
    destruct Hc as [Hc|[Hc|Hc] ]; [by left|right; left; by apply waiting_set; [|left]|by right; right].
  - destruct Hc as [Hc|[Hc|Hc] ]; [by left|right; left; by apply waiting_set; [|right]|by right; right].
  - destruct Hc as [Hc|[Hc|Hc] ]; [by left|right; left; simpl; eapply woken_waiting; [by eapply delivered_woken|done]|].
    destruct (elem_of_delete_list _ j _ _ Hj Hc) as [E|Hin]; [|by right; right].
    simplify_eq. right; left. inversion Hd; subst. simpl. unfold wake_all.
    intros (w & E & _)%list_elem_of_fmap. destruct (decide (w = (h, Waiting))); congruence.
  - destruct Hc as [Hc|[Hc|Hc] ]; [by left|right; left; by apply waiting_set; [|right]|by right; right].
Qed.

Lemma wsteps_called P P' g : rtc wstep P P' -> called g P -> called g P'.
Proof. induction 1; eauto using wstep_called. Qed.

(** A pool whose every workgroup got as many tokens as it has workers comes to
    rest with all workers gone and all tasks done. *)
Lemma drain P P' :
  (forall g, tail_tokens P g) -> (forall g, called g P) ->
  (forall i g s, workers_ P !! i = Some (g, s) -> (g < length (tasks_ P))%nat) ->
  (forall g, (g < length (tasks_ P))%nat -> (0 < workers_in g P)%nat /\ (tokens_in g P + exited_in g P = workers_in g P)%nat) ->
  rtc wstep P P' -> quiescent P' ->
  all_exited P' /\ executed P' ≡ₚ all_tasks P.
Proof.
  intros Htail Hcall Hgrp Htok Hr Hq. destruct (proj1 (quiescent_spec P') Hq) as [Hpend Hw].
  destruct (wsteps_shape _ _ Hr) as [Hlen Hfst].
  assert (Hin : forall i g s, workers_ P' !! i = Some (g, s) -> (g < length (tasks_ P))%nat).
  { intros i g s Hi. assert (Hf : (fst <$> workers_ P') !! i = Some g) by (by rewrite list_lookup_fmap, Hi).
    rewrite Hfst, list_lookup_fmap in Hf. destruct (workers_ P !! i) as [ [g' s']|] eqn:E; simplify_eq/=. by eapply Hgrp. }
  assert (Hex : all_exited P').
  { intros i [g s] Hi. simpl. pose proof (Hin i g s Hi) as Hg. destruct (decide (s = Exited)) as [|Hs]; [done|exfalso].
    pose proof (Hw i _ Hi) as Hc. destruct s as [| |t|]; [|clear Hc|done|done].
    { apply bool_decide_eq_false in Hc. destruct Hc. apply lookup_lt_is_Some. simpl. lia. }
    assert (Hempty : tokens_in g P' = 0%nat).
    { destruct (wsteps_called _ _ g Hr (Hcall g)) as [E|[E|E] ].
      - unfold tokens_in. by rewrite E. - destruct E. by eapply list_elem_of_lookup_2.
      - rewrite Hpend in E. by apply not_elem_of_nil in E. }
    pose proof (wsteps_tokens _ _ g Hr). destruct (Htok g Hg) as [_ Ht].
    pose proof (exited_lt g i Waiting (workers_ P') Hi ltac:(done)) as Hlt. fold (exited_in g P') in Hlt.
    fold (workers_in g P') in Hlt. rewrite (workers_in_steps _ _ g Hr) in Hlt. lia. }
  split; [done|].
  assert (Hqueues : mjoin (tasks_ P') = []).
  { apply mjoin_nil. intros g q Hgq. assert (Hg : (g < length (tasks_ P))%nat) by (rewrite <- Hlen; by eapply lookup_lt_Some).
      destruct (Htok g Hg) as [Hpos Ht]. pose proof (wsteps_tokens _ _ g Hr) as Hbal.
      assert (Hall : exited_in g P' = workers_in g P') by (by apply exited_all).
      rewrite (workers_in_steps _ _ g Hr) in Hall.
      assert (Hno : tokens_in g P' = 0%nat) by lia.
      destruct (wsteps_tail _ _ g Hr (Htail g)) as (l & k & Hqq & Hl).
      assert (Hqg : queue P' g = q) by (unfold queue; by rewrite Hgq). rewrite Hqg in Hqq. subst q.
      destruct Hl as [Hl| ->]; [lia|]. simpl in *. unfold tokens_in in Hno. rewrite Hqg in Hno. destruct k; [done|].
      simpl in Hno. discriminate Hno. }
  rewrite <- (wsteps_tasks _ _ Hr). unfold all_tasks, queued. rewrite Hqueues. simpl. rewrite app_nil_r.
  assert (Hrun : running P' = []).
  { apply omap_none. intros w (i & Hi)%list_elem_of_lookup. unfold busy_of. by rewrite (Hex i w Hi). }
  by rewrite Hrun, app_nil_r.
Qed.

(** ** Lemmas: submission *)

(** A pool that takes tasks: workers in every workgroup, none leaving, and no
    queue left to workers that all sleep. *)
Record ready (P : pool) : Prop := {
  rd_groups : (0 < length (tasks_ P))%nat;
  rd_workers : forall g, (g < length (tasks_ P))%nat -> (0 < workers_in g P)%nat;
  rd_none : forall g, tokens_in g P = 0%nat /\ exited_in g P = 0%nat;
  rd_attended : forall g, attended g P
}.

Lemma staying_worker g P :
  (0 < workers_in g P)%nat -> exited_in g P = 0%nat -> exists i s, workers_ P !! i = Some (g, s) /\ s <> Exited.
Proof.
  unfold workers_in, exited_in. intros Hpos He.
  destruct (filter (fun h => h = g) (fst <$> workers_ P)) as [|h l] eqn:E; [simpl in Hpos; lia|].
  assert (Hin : h ∈ filter (fun h => h = g) (fst <$> workers_ P)) by (rewrite E; by left).
  apply list_elem_of_filter in Hin as [-> ( [g' s] & -> & (i & Hi)%list_elem_of_lookup)%list_elem_of_fmap].
  exists i, s. split; [done|]. intros ->. apply nil_length_inv in He.
  assert (Hin : (g', Exited) ∈ filter (fun w => w = (g', Exited)) (workers_ P)).
  { apply list_elem_of_filter. split; [done|]. by eapply list_elem_of_lookup_2. }
  simpl in He. rewrite He in Hin. by apply not_elem_of_nil in Hin.
Qed.

(** A pool that takes tasks stays one, whatever its workers do. *)
Lemma ready_step P P' : wstep P P' -> ready P -> ready P'.
Proof.
  intros Hs [H1 H2 H3 H4]. destruct (wstep_shape _ _ Hs) as [Hl Hf].
  constructor.
  - by rewrite Hl. - intros g Hg. unfold workers_in. rewrite Hf. apply H2. by rewrite <- Hl.
  - intros g. pose proof (wstep_tokens _ _ g Hs). destruct (H3 g). lia.
  - intros g. destruct (decide (g < length (tasks_ P))%nat) as [Hg|Hg].
    + destruct (staying_worker g P (H2 g Hg) (proj2 (H3 g))) as (i & s & Hi & Hne).
      eapply wstep_attended; [done|apply (H3 g)|done|done|done].
    + left. unfold queue. rewrite lookup_ge_None_2 by lia. done.
Qed.

Lemma ready_steps P P' : rtc wstep P P' -> ready P -> ready P'.
Proof. induction 1; eauto using ready_step. Qed.

Lemma omap_id_Some (l : list Z) : omap id (Some <$> l) = l.
Proof. induction l as [|x l IH]; csimpl; [done|]. by rewrite IH. Qed.

Lemma submit_n_spec task_idx n wg P :
  ready P -> 0 < n -> 0 <= wg < num_workgroups P ->
  exists P', submit_n task_idx n wg P = Ok (task_idx + n, P') /\ ready P' /\
    workers_ P' = workers_ P /\ executed P' = executed P /\ length (tasks_ P') = length (tasks_ P) /\
    queued P' ≡ₚ queued P ++ seqZ task_idx n.
Proof.
  intros [Hg Hw Hno Hat] Hn Hwg. unfold submit_n, num_workgroups in *.
  rewrite (proj2 (Z.leb_gt n 0)), (proj2 (Z.leb_le 0 wg)), (proj2 (Z.ltb_lt wg _)) by lia. cbn [andb].
  assert (Hwne : workers_ P <> []).
  { intros E. specialize (Hw 0%nat Hg). unfold workers_in in Hw. rewrite E in Hw. simpl in Hw. lia. }
  rewrite bool_decide_false by done. cbn [negb]. eexists. split; [done|].
  destruct (lookup_lt_is_Some_2 (tasks_ P) (Z.to_nat wg)) as [q Hq]; [lia|]. rewrite Hq. simpl default. unfold id.
  split_and!; simpl; try done; try (by rewrite length_insert).
  - constructor; simpl; rewrite ?length_insert; [done|exact Hw| |].
    2: { intros g. unfold attended, queue. simpl. destruct (decide (g = Z.to_nat wg)) as [->|Hne].
         - right; right. exists notify_all. apply elem_of_app. right. by left.
         - rewrite list_lookup_insert_ne by done. destruct (Hat g) as [?|[?|[k Hk] ] ]; [by left|by right; left|].
           right; right. exists k. apply elem_of_app. by left. }
    intros g. destruct (Hno g) as [H1 H2]. split; [|done]. unfold tokens_in, queue in *. simpl.
    destruct (decide (g = Z.to_nat wg)) as [->|Hne].
    + rewrite list_lookup_insert_eq by lia. rewrite Hq in H1. simpl default in *. unfold id in *.
      rewrite filter_app, length_app, H1. simpl.
      rewrite (filter_none (fun x => x = None)); [done|]. by intros x (y & -> & _)%list_elem_of_fmap.
    + by rewrite list_lookup_insert_ne.
  - unfold queued. simpl. rewrite (mjoin_append _ _ _ _ Hq), omap_app, omap_id_Some. done.
Qed.

(** A task submitted alone: [notify_one] is enough for it to be seen. *)
Lemma submit_spec task wg P :
  ready P -> 0 <= wg < num_workgroups P ->
  exists P', submit task wg P = Ok P' /\ ready P' /\
    workers_ P' = workers_ P /\ executed P' = executed P /\ queued P' ≡ₚ queued P ++ [task].
Proof.
  intros [Hg Hw Hno Hat] Hwg. unfold submit, num_workgroups in *.
  rewrite (proj2 (Z.leb_le 0 wg)), (proj2 (Z.ltb_lt wg _)) by lia. cbn [andb].
  assert (Hwne : workers_ P <> []).
  { intros E. specialize (Hw 0%nat Hg). unfold workers_in in Hw. rewrite E in Hw. simpl in Hw. lia. }
  rewrite bool_decide_false by done. cbn [negb]. eexists. split; [done|].
  destruct (lookup_lt_is_Some_2 (tasks_ P) (Z.to_nat wg)) as [q Hq]; [lia|]. rewrite Hq. simpl default. unfold id.
  split_and!; simpl; try done.
  - constructor; simpl; rewrite ?length_insert; [done|exact Hw| |]; intros g.
    + destruct (Hno g) as [H1 H2]. split; [|done]. unfold tokens_in, queue in *. simpl.
      destruct (decide (g = Z.to_nat wg)) as [->|Hne]; [|by rewrite list_lookup_insert_ne].
      rewrite list_lookup_insert_eq by lia. rewrite Hq in H1. simpl default in *. unfold id in *.
      by rewrite filter_app, length_app, H1.
    + unfold attended, queue. simpl. destruct (decide (g = Z.to_nat wg)) as [->|Hne].
      * right; right. exists notify_one. apply elem_of_app. right. by left.
      * rewrite list_lookup_insert_ne by done. destruct (Hat g) as [?|[?|[k Hk] ] ]; [by left|by right; left|].
        right; right. exists k. apply elem_of_app. by left.
  - unfold queued. simpl. by rewrite (mjoin_append _ _ _ _ Hq), omap_app.
Qed.

(** A pool is ready when its constructor returns. *)
Lemma simple_pool_ready config hardware P : simple_pool config hardware = Ok P -> ready P.
Proof.
  unfold simple_pool. set (n := if _ <=? 0 then _ else _). destruct (Z.ltb_spec 0 n) as [Hn|]; [|done].
  intros E. assert (P = {| tasks_ := [[]]; workers_ := repeat (0%nat, Idle) (Z.to_nat n); pending_ := []; executed := [] |}) as -> by congruence. clear E.
  assert (Hr : forall k, workers_in 0 {| tasks_ := [[]]; workers_ := repeat (0%nat, Idle) k; pending_ := []; executed := [] |} = k).
  { unfold workers_in. simpl. induction k as [|k IH]; [done|]. cbn [repeat]. rewrite fmap_cons, filter_head, IH. by rewrite decide_True. }
  constructor; simpl; [lia| | |].
  - intros g Hg. assert (g = 0%nat) as -> by lia. rewrite Hr. lia.
  - intros g. split; [by destruct g|]. unfold exited_in. rewrite filter_none; [done|]. simpl.
    intros w Hw ->. apply list_elem_of_In, repeat_spec in Hw. done.
  - intros g. left. by destruct g.
Qed.

Lemma submit_n_wgs_spec wgs burst : forall fuel it task_idx num_tasks slot P res,
  ready P -> 1 <= burst -> (it < length wgs)%nat -> (forall w, w ∈ wgs -> 0 <= w) -> 0 <= num_tasks <= Z.of_nat fuel ->
  exists P', submit_n_wgs fuel wgs it task_idx num_tasks burst slot P res =
      Ok (task_idx + num_tasks, P', res ++ zip (seqZ slot num_tasks) (seqZ task_idx num_tasks)) /\
    ready P' /\ workers_ P' = workers_ P /\ executed P' = executed P /\
    queued P' ≡ₚ queued P ++ seqZ task_idx num_tasks.
Proof.
  induction fuel as [|fuel IH]; intros it task_idx num_tasks slot P res Hrd Hb Hit Hwgs Hn.
  { assert (num_tasks = 0) as -> by lia. exists P. simpl. by rewrite Z.add_0_r, !app_nil_r. }
  cbn [submit_n_wgs]. destruct (Z.leb_spec num_tasks 0) as [H0|H0].
  { assert (num_tasks = 0) as -> by lia. exists P. simpl. by rewrite Z.add_0_r, !app_nil_r. }
  destruct (lookup_lt_is_Some_2 wgs it Hit) as [w Hw]. rewrite Hw.
  assert (Hg : 0 < num_workgroups P) by (unfold num_workgroups; pose proof (rd_groups _ Hrd); lia).
  assert (Hw0 : 0 <= w) by (apply Hwgs; by eapply list_elem_of_lookup_2).
  destruct (submit_n_spec task_idx (Z.min num_tasks burst) (Z.rem w (num_workgroups P)) P Hrd) as (P1 & -> & R1 & W1 & X1 & L1 & Q1);
    [lia|by apply Z.rem_bound_pos|]. cbn [obind fst snd].
  destruct (Z.le_gt_cases num_tasks burst) as [Hle|Hgt].
  - rewrite Z.min_l in * by lia. exists P1.
    assert (E : forall f a b c d e g r, b <= 0 -> submit_n_wgs f wgs a c b d e g r = Ok (c, g, r)).
    { intros f a b c' d e g r Hb0. destruct f; simpl; by rewrite (proj2 (Z.leb_le b 0)). }
    rewrite E by lia. by split_and!.
  - rewrite Z.min_r in * by lia.
    destruct (IH (if bool_decide (S it = length wgs) then 0%nat else S it) (task_idx + burst) (num_tasks - burst)
      (slot + burst) P1 (res ++ zip (seqZ slot burst) (seqZ task_idx burst))) as (P' & -> & R & W & X & Q).
    + done.
    + done.
    + destruct (bool_decide_reflect (S it = length wgs)); lia.
    + done.
    + lia.
    + exists P'. split_and!; [|done|congruence|congruence|].
      * f_equal. f_equal; [f_equal; lia|]. rewrite <- app_assoc. f_equal.
        replace num_tasks with (burst + (num_tasks - burst)) at 3 4 by lia.
        rewrite !seqZ_app by lia. rewrite zip_with_app; [done|by rewrite !length_seqZ].
      * rewrite Q, Q1, <- app_assoc. f_equiv. rewrite <- seqZ_app by lia. by replace (burst + (num_tasks - burst)) with num_tasks by lia.
Qed.

(** At rest, a pool that keeps its workers has run everything. *)
Lemma ready_rest P P' :
  ready P -> rtc wstep P P' -> quiescent P' -> executed P' ≡ₚ all_tasks P.
Proof.
  intros Hrd Hr Hq. destruct (proj1 (quiescent_spec P') Hq) as [Hpend Hw].
  destruct (ready_steps _ _ Hr Hrd) as [H1 H2 H3 H4].
  assert (Hqueues : mjoin (tasks_ P') = []).
  { apply mjoin_nil. intros g q Hgq. assert (Hg : (g < length (tasks_ P'))%nat) by (by eapply lookup_lt_Some).
    assert (Eq : queue P' g = q) by (unfold queue; by rewrite Hgq). rewrite <- Eq.
    destruct (H4 g) as [E|[ (i & s & Hi & Ha)|[k Hk] ] ]; [done| |rewrite Hpend in Hk; by apply not_elem_of_nil in Hk].
    pose proof (Hw i _ Hi) as Hc. destruct s as [| |t|]; [|done..].
    apply bool_decide_eq_false in Hc. destruct Hc. by apply lookup_lt_is_Some. }
  assert (Hrun : running P' = []).
  { apply omap_none. intros [g s] (i & Hi)%list_elem_of_lookup. pose proof (Hw i _ Hi) as Hc. by destruct s. }
  rewrite <- (wsteps_tasks _ _ Hr). unfold all_tasks, queued. rewrite Hqueues, Hrun. simpl. by rewrite app_nil_r.
Qed.

(** ** Properties *)

(** C35. [execute_n] over a set of workgroups runs every task exactly once: the
    submission succeeds, hands out the indices in order, files the future of the
    i-th task in the i-th result slot, and from then on every run of the workers
    (spurious wake-ups apart) is finite, and whenever the pool is at rest, however
    the notifications were delivered and whatever wake-ups there were, it has
    executed exactly the tasks that were there before and the new ones, each once:
    no notification is lost. *)
Theorem execute_n_runs_all (wgs : list Z) (task_idx num_tasks per_wg : Z) (P : pool) :
  ready P -> wgs <> [] -> (forall w, w ∈ wgs -> 0 <= w) -> 0 <= num_tasks ->
  exists P1,
    submit_n_range wgs task_idx num_tasks per_wg P =
      Ok (task_idx + num_tasks, P1, zip (seqZ 0 num_tasks) (seqZ task_idx num_tasks)) /\
    well_founded (fun Q' Q => pstep Q Q') /\
    (exists P', rtc pstep P1 P' /\ quiescent P') /\
    forall P', rtc wstep P1 P' -> quiescent P' -> executed P' ≡ₚ all_tasks P ++ seqZ task_idx num_tasks.
Proof.
  intros Hrd Hne Hw Hn. unfold submit_n_range. rewrite bool_decide_false by done. cbn [negb].
  destruct (submit_n_wgs_spec wgs (Z.max per_wg 1) (Z.to_nat num_tasks) 0 task_idx num_tasks 0 P [])
    as (P1 & E & R & W & X & Q); [done|lia|destruct wgs; [done|simpl; lia]|done|lia|].
  exists P1. split; [exact E|]. split; [exact pstep_wf|]. split; [apply reach_quiescent|].
  intros P' Hr Hq. rewrite (ready_rest P1 P' R Hr Hq). unfold all_tasks, running. rewrite X, W, Q. by rewrite !app_assoc.
Qed.

(** A task submitted alone is executed, once. *)
Theorem submit_runs_task (task wg : Z) (P : pool) :
  ready P -> 0 <= wg < num_workgroups P ->
  exists P1, submit task wg P = Ok P1 /\ ready P1 /\
    (exists P', rtc pstep P1 P' /\ quiescent P') /\
    forall P', rtc wstep P1 P' -> quiescent P' -> executed P' ≡ₚ all_tasks P ++ [task].
Proof.
  intros Hrd Hwg. destruct (submit_spec task wg P Hrd Hwg) as (P1 & E & R & W & X & Q).
  exists P1. split_and!; [done|done|apply reach_quiescent|].
  intros P' Hr Hq. rewrite (ready_rest P1 P' R Hr Hq). unfold all_tasks, running. rewrite X, W, Q. by rewrite !app_assoc.
Qed.

(** C36. The destructor of the simple pool drains it: whatever the workers are doing
    and whatever is queued, after the termination tasks are queued and all workers
    are notified every run (spurious wake-ups apart) is finite, the pool comes to
    rest, and when it does all workers have left, so [join] returns, and every
    task submitted before has been executed exactly once. *)
Theorem simple_shutdown_drains (P : pool) :
  length (tasks_ P) = 1%nat -> workers_ P <> [] ->
  (forall i w, workers_ P !! i = Some w -> w.1 = 0%nat /\ w.2 <> Exited) ->
  tokens_in 0 P = 0%nat ->
  well_founded (fun Q' Q => pstep Q Q') /\
  (exists P', rtc pstep (simple_shutdown P) P' /\ quiescent P') /\
  forall P', rtc wstep (simple_shutdown P) P' -> quiescent P' ->
    all_exited P' /\ executed P' ≡ₚ all_tasks P.
Proof.
  intros Hlen Hne Hws Htok. split; [exact pstep_wf|]. split; [apply reach_quiescent|].
  intros P' Hr Hq. unfold simple_shutdown in Hr. rewrite bool_decide_false in Hr by done.
  destruct (tasks_ P) as [|q [|? ?] ] eqn:Et; [done| |done]. simpl default in Hr. unfold id in Hr.
  set (P1 := notify 0 notify_all (set_queue P 0 _)) in *.
  assert (Hex : forall g, exited_in g P = 0%nat).
  { intros g. unfold exited_in. rewrite filter_none; [done|].
    intros w (i & Hi)%list_elem_of_lookup ->. by destruct (Hws i _ Hi) as [_ ?]. }
  assert (Hall : workers_in 0 P = length (workers_ P)).
  { unfold workers_in. assert (H : forall w, w ∈ workers_ P -> w.1 = 0%nat) by (intros w (i & Hi)%list_elem_of_lookup; by apply (Hws i)).
    revert H. generalize (workers_ P). induction l as [|w l IH]; intros H; [done|].
    rewrite fmap_cons, filter_head, IH by (intros; apply H; by right). rewrite decide_True by (apply H; by left). done. }
  assert (Hq0 : exists l, q = Some <$> l).
  { unfold tokens_in, queue in Htok. rewrite Et in Htok. simpl in Htok. unfold id in Htok.
    clear -Htok. induction q as [|[x|] q IH]; [by exists []| |].
    - rewrite filter_cons_False in Htok by done. destruct (IH Htok) as [l ->]. by exists (x :: l).
    - rewrite filter_cons_True in Htok by done. done. }
  destruct Hq0 as [l ->].
  assert (E1 : tasks_ P1 = [(Some <$> l) ++ repeat None (length (workers_ P))]) by (unfold P1; simpl; by rewrite Et).
  assert (Hqs : forall g, queue P1 g = if decide (g = 0%nat) then (Some <$> l) ++ repeat None (length (workers_ P)) else []).
  { intros g. unfold queue. rewrite E1. by destruct g as [|[|g] ]. }
  assert (Hap : all_tasks P1 = all_tasks P).
  { unfold all_tasks, running, queued. rewrite E1, Et. simpl. rewrite !app_nil_r, omap_app.
    assert (En : forall k, omap id (repeat (@None Z) k) = []) by (induction k; done). by rewrite En, app_nil_r. }
  rewrite <- Hap. apply drain; [| | | |done|done].
  - intros g. unfold tail_tokens. rewrite Hqs. destruct (decide (g = 0%nat)).
    + eexists l, _. split; [done|]. left. apply Hex.
    + exists [], 0%nat. split; [done|by right].
  - intros g. unfold called. rewrite Hqs. destruct (decide (g = 0%nat)) as [->|]; [|by left].
    right; right. simpl. apply elem_of_app. right. by left.
  - intros i g s Hi. rewrite E1. destruct (Hws i (g, s) Hi) as [Hg _]. simpl in *. lia.
  - intros g Hg. rewrite E1 in Hg. simpl in Hg. assert (g = 0%nat) as -> by lia.
    change (workers_in 0 P1) with (workers_in 0 P). change (exited_in 0 P1) with (exited_in 0 P). rewrite Hall, Hex.
    split; [destruct (workers_ P); [done|simpl; lia]|]. unfold tokens_in. rewrite Hqs. simpl.
    rewrite filter_app, length_app, (filter_none (fun x => x = None) (Some <$> l)) by (by intros x (y & -> & _)%list_elem_of_fmap).
    rewrite tokens_repeat. simpl. lia.
Qed.

(** The destructor of the NUMA pool hangs when its workgroups differ in size:
    every workgroup gets the average number of termination tasks, so in a
    workgroup with more workers than that some worker never leaves, in no run
    whatsoever, and [join] does not return. *)
Theorem numa_shutdown_hangs (P P' : pool) (g : nat) :
  (forall h, tokens_in h P = 0%nat /\ exited_in h P = 0%nat) ->
  (g < length (tasks_ P))%nat -> (length (workers_ P) / length (tasks_ P) < workers_in g P)%nat ->
  rtc wstep (numa_shutdown P) P' -> ~ all_exited P'.
Proof.
  intros Hno Hg Hlt Hr Hex. unfold numa_shutdown in Hr.
  destruct (bool_decide_reflect (workers_ P = [])) as [E|Hne].
  { unfold workers_in in Hlt. rewrite E in Hlt. simpl in Hlt. lia. }
  set (n := (length (workers_ P) / length (tasks_ P))%nat) in *. set (P1 := Build_pool _ _ _ _) in *.
  pose proof (wsteps_tokens _ _ g Hr) as Hbal.
  assert (Ht : tokens_in g P1 = n).
  { destruct (lookup_lt_is_Some_2 (tasks_ P) g Hg) as [q Hq]. destruct (Hno g) as [H0 _].
    unfold tokens_in, queue in *. unfold P1. simpl. rewrite list_lookup_fmap, Hq in *. simpl in *. unfold id in *.
    rewrite filter_app, length_app, H0. apply tokens_repeat. }
  assert (He : exited_in g P1 = 0%nat) by apply (Hno g).
  assert (Hall : exited_in g P' = workers_in g P') by (by apply exited_all).
  rewrite (workers_in_steps _ _ g Hr) in Hall. change (workers_in g P1) with (workers_in g P) in Hall. lia.
Qed.

(** ** Witnesses *)

(** Two workgroups, of one worker and of three. *)
Definition demo_numa : pool :=
  numa_pool 2 (fun i => i) (fun _ => 8) [{| cpu_socket_index := -1; numa_node_index := 0; wg_num_workers := 1 |};
                          {| cpu_socket_index := -1; numa_node_index := 1; wg_num_workers := 3 |}].
Definition demo_simple : pool := {| tasks_ := [[Some 7]]; workers_ := [(0%nat, Waiting); (0%nat, Busy 3)]; pending_ := []; executed := [] |}.

Lemma demo_numa_ready : ready demo_numa.
Proof.
  constructor; [vm_compute; lia| | |].
  3: intros g; left; by destruct g as [|[|g] ].
  - intros [|[|g] ] Hg; vm_compute in Hg |- *; lia.
  - intros g. split; [by destruct g as [|[|g] ]|]. unfold exited_in. rewrite filter_none; [done|].
    intros w Hw ->. vm_compute in Hw. set_solver.
Qed.

Lemma execute_n_runs_all_witness :
  exists P1 P', submit_n_range [0; 1] 0 5 2 demo_numa = Ok (5, P1, [(0, 0); (1, 1); (2, 2); (3, 3); (4, 4)]) /\
    rtc pstep P1 P' /\ quiescent P' /\ executed P' ≡ₚ [0; 1; 2; 3; 4].
Proof.
  destruct (execute_n_runs_all [0; 1] 0 5 2 demo_numa) as (P1 & E & _ & (P' & Hr & Hq) & H);
    [apply demo_numa_ready|discriminate|intros w Hw; set_solver by lia|lia|].
  exists P1, P'. exact (conj E (conj Hr (conj Hq (H P' (psteps_wsteps _ _ Hr) Hq)))).
Defined.

Lemma simple_shutdown_drains_witness :
  exists P', rtc pstep (simple_shutdown demo_simple) P' /\ all_exited P' /\ executed P' ≡ₚ [3; 7].
Proof.
  destruct (simple_shutdown_drains demo_simple) as (_ & (P' & Hr & Hq) & H); [reflexivity|discriminate| |reflexivity|].
  - intros [|[|i] ] w Hi; simpl in Hi; [injection Hi as <-; done|injection Hi as <-; done|discriminate].
  - exists P'. exact (conj Hr (H P' (psteps_wsteps _ _ Hr) Hq)).
Defined.

Lemma numa_shutdown_hangs_witness :
  exists P', rtc pstep (numa_shutdown demo_numa) P' /\ quiescent P' /\ ~ all_exited P'.
Proof.
  destruct (reach_quiescent (numa_shutdown demo_numa)) as (P' & Hr & Hq). exists P'.
  split; [exact Hr|]. split; [exact Hq|].
  apply (numa_shutdown_hangs demo_numa P' 1); [apply demo_numa_ready|vm_compute; lia|vm_compute; lia|exact (psteps_wsteps _ _ Hr)].
Defined.
