(* ===== verification/InsertHeuristic.v ===== *)
(** * Insert heuristics: [include/insert_heuristic.hpp], [src/insert_heuristic.cpp]

    The decision whether the keys of a lookup are to be inserted into the cache,
    from the hit rate of the lookup, for each table: a random decision
    ([DefaultInsertHeuristic]), a two-state machine on the change of the hit rate
    ([FSMInsertHeuristic]), a four-state machine on a sliding window of hit rates
    ([StatisticalInsertHeuristic]) and the one that never inserts. The values
    [dis_(gen_)] of the random generator are an arbitrary sequence of doubles;
    the state of the generator is the number of values drawn. *)
From S2P Require Import Prelude Float32.

(** ** The interface *)

(** The virtual class: one operation on the state of the heuristic, and what its
    clients rely on: in a well-formed heuristic a call for a valid table returns,
    keeps the heuristic well formed and keeps the set of valid tables. *)
Class InsertHeuristic (H : Type) := {
  insert_needed : f32 -> Z -> H -> outcome (bool * H);
  heuristic_wf : H -> Prop;
  valid_table : H -> Z -> Prop;
  insert_needed_returns hitrate table_id h :
    heuristic_wf h -> valid_table h table_id ->
    exists b h', insert_needed hitrate table_id h = Ok (b, h') /\ heuristic_wf h' /\
      (forall t, valid_table h' t <-> valid_table h t)
}.

(** ** NeverInsertHeuristic *)

Module NeverInsertHeuristic.

Definition never_insert_needed (hitrate : f32) (table_id : Z) (h : unit) : outcome (bool * unit) :=
  Ok (false, h).

#[refine, export] Instance heuristic : InsertHeuristic unit := {|
  insert_needed := never_insert_needed; heuristic_wf _ := True; valid_table _ _ := True |}.
Proof. intros hitrate t [] _ _. exists false, (). by split. Defined.

End NeverInsertHeuristic.

(** ** DefaultInsertHeuristic *)

Module DefaultInsertHeuristic.
Section Random.
(** The sequence of values of [dis_(gen_)]. *)
Variable dis : nat -> f64.

Record heur := { thresholds_ : list f32; gen_ : nat }.

Definition construct (thresholds : list f32) : heur := {| thresholds_ := thresholds; gen_ := 0 |}.

(** [auto warmup_chance], [steadystate_chance]. *)
Definition warmup_chance (hitrate : f32) : f32 := f32_sub f32_one hitrate.
Definition steadystate_chance (hitrate : f32) : f32 :=
  f32_mul (f32_mul (warmup_chance hitrate) (warmup_chance hitrate)) (warmup_chance hitrate).

Definition default_insert_needed (hitrate : f32) (table_id : Z) (h : heur) : outcome (bool * heur) :=
  check! table_id <? Z.of_nat (length (thresholds_ h)) as "Invalid table index" in
  match thresholds_ h !! Z.to_nat table_id with
  | None => Throw "std::out_of_range"
  | Some threshold =>
      let chance := if f32_lt hitrate threshold then warmup_chance hitrate else steadystate_chance hitrate in
      Ok (f64_lt (dis (gen_ h)) (f64_of_f32 chance), {| thresholds_ := thresholds_ h; gen_ := S (gen_ h) |})
  end.

Lemma default_returns hitrate t h :
  0 <= t < Z.of_nat (length (thresholds_ h)) ->
  exists b h', default_insert_needed hitrate t h = Ok (b, h') /\ thresholds_ h' = thresholds_ h.
Proof.
  intros Ht. unfold default_insert_needed. rewrite (proj2 (Z.ltb_lt _ _)) by lia.
  destruct (lookup_lt_is_Some_2 (thresholds_ h) (Z.to_nat t)) as [x ->]; [lia|].
  by eexists _, _.
Qed.

#[refine] Instance heuristic : InsertHeuristic heur := {|
  insert_needed := default_insert_needed; heuristic_wf _ := True;
  valid_table h t := 0 <= t < Z.of_nat (length (thresholds_ h)) |}.
Proof.
  intros hitrate t h _ Ht. destruct (default_returns hitrate t h Ht) as (b & h' & E & Eth).
  exists b, h'. rewrite Eth. done.
Defined.
End Random.
End DefaultInsertHeuristic.

(** ** FSMInsertHeuristic *)

Module FSMInsertHeuristic.

Inductive State := Start | Steady | NumStates.

Record heur := { prev_hitrate_ : list f32; threshold_ : list f32; state_ : list State }.

Definition construct (threshold : list f32) : heur :=
  {| prev_hitrate_ := (fun _ => f32_zero) <$> threshold; threshold_ := threshold;
     state_ := (fun _ => Start) <$> threshold |}.

(** [state_[t] = s; prev_hitrate_[t] = h]. *)
Definition moved (h : heur) (t : nat) (s : State) (hitrate : f32) : heur :=
  {| prev_hitrate_ := <[t := hitrate]> (prev_hitrate_ h); threshold_ := threshold_ h;
     state_ := <[t := s]> (state_ h) |}.

Definition fsm_insert_needed (hitrate : f32) (table_id : Z) (h : heur) : outcome (bool * heur) :=
  check! table_id <? Z.of_nat (length (threshold_ h)) as "Invalid table index" in
  let t := Z.to_nat table_id in
  match threshold_ h !! t, state_ h !! t, prev_hitrate_ h !! t with
  | Some threshold, Some state, Some prev =>
      if f32_le threshold f32_zero then Ok (false, h)
      else
        match state with
        | Start => Ok (true, moved h t Steady hitrate)
        | Steady =>
            if f32_lt (f32_abs (f32_sub hitrate prev)) threshold then Ok (false, h)
            else Ok (true, moved h t Steady hitrate)
        | NumStates => Throw "Invalid heuristic state!"
        end
  | _, _, _ => Undef "vector index out of range"
  end.

Definition wf (h : heur) : Prop :=
  length (prev_hitrate_ h) = length (threshold_ h) /\ length (state_ h) = length (threshold_ h) /\
  NumStates ∉ state_ h.

Lemma construct_wf threshold : wf (construct threshold).
Proof.
  unfold wf, construct; simpl. rewrite !length_fmap. split_and!; [done..|].
  intros (x & [=] & _)%list_elem_of_fmap.
Qed.

(** What one call sees of a well-formed heuristic. *)
Lemma wf_lookup h t :
  wf h -> 0 <= t < Z.of_nat (length (threshold_ h)) ->
  exists thr s p, threshold_ h !! Z.to_nat t = Some thr /\ state_ h !! Z.to_nat t = Some s /\
    prev_hitrate_ h !! Z.to_nat t = Some p /\ s <> NumStates.
Proof.
  intros (Hp & Hs & Hn) Ht.
  destruct (lookup_lt_is_Some_2 (threshold_ h) (Z.to_nat t)) as [thr E1]; [lia|].
  destruct (lookup_lt_is_Some_2 (state_ h) (Z.to_nat t)) as [s E2]; [lia|].
  destruct (lookup_lt_is_Some_2 (prev_hitrate_ h) (Z.to_nat t)) as [p E3]; [lia|].
  exists thr, s, p. split_and!; [done..|]. intros ->. apply Hn. by eapply list_elem_of_lookup_2.
Qed.

Lemma moved_wf h t s x : s <> NumStates -> wf h -> wf (moved h t s x).
Proof.
  intros Hs (Hp & Hl & Hn). unfold wf, moved; simpl. rewrite !length_insert. split_and!; [done..|].
  intros (i & Hi)%list_elem_of_lookup. apply Hn. apply list_lookup_insert_Some in Hi as [(? & ? & ?)|(_ & Hi)].
  - congruence.
  - by eapply list_elem_of_lookup_2.
Qed.

Lemma fsm_returns hitrate t h :
  wf h -> 0 <= t < Z.of_nat (length (threshold_ h)) ->
  exists b h', fsm_insert_needed hitrate t h = Ok (b, h') /\ wf h' /\ threshold_ h' = threshold_ h.
Proof.
  intros Hwf Ht. destruct (wf_lookup h t Hwf Ht) as (thr & s & p & E1 & E2 & E3 & Hs).
  unfold fsm_insert_needed. rewrite (proj2 (Z.ltb_lt _ _)) by lia. rewrite E1, E2, E3.
  destruct (f32_le thr f32_zero); [by exists false, h|].
  destruct s; [| |done].
  - eexists true, _. split; [done|]. split; [by apply moved_wf|done].
  - destruct (f32_lt _ thr); [by exists false, h|].
    eexists true, _. split; [done|]. split; [by apply moved_wf|done].
Qed.

#[refine, export] Instance heuristic : InsertHeuristic heur := {|
  insert_needed := fsm_insert_needed; heuristic_wf := wf;
  valid_table h t := 0 <= t < Z.of_nat (length (threshold_ h)) |}.
Proof.
  intros hitrate t h Hwf Ht. destruct (fsm_returns hitrate t h Hwf Ht) as (b & h' & E & Hwf' & Eth).
  exists b, h'. rewrite Eth. done.
Defined.

(** *** Traces of calls *)

Fixpoint run (calls : list (f32 * Z)) (h : heur) : outcome (list bool * heur) :=
  match calls with
  | [] => Ok ([], h)
  | (hitrate, t) :: calls =>
      let! r := fsm_insert_needed hitrate t h in
      let! rs := run calls r.2 in
      Ok (r.1 :: rs.1, rs.2)
  end.

(** The hit rate of the latest call for table [t] that asked for an insert. *)
Definition last_insert (t : Z) (hist : list (f32 * Z * bool)) : option f32 :=
  last (omap (fun c => if (c.1.2 =? t) && c.2 then Some c.1.1 else None) hist).

(** What a call has to answer after the calls [hist]. *)
Definition fsm_answer (threshold : list f32) (hist : list (f32 * Z * bool)) (hitrate : f32) (t : Z) (b : bool) : Prop :=
  forall thr, threshold !! Z.to_nat t = Some thr ->
  (b = true <-> f32_le thr f32_zero = false /\
    forall prev, last_insert t hist = Some prev -> f32_lt (f32_abs (f32_sub hitrate prev)) thr = false).

(** The state of the machine records the latest insert of every table. *)
Definition tracks (threshold : list f32) (hist : list (f32 * Z * bool)) (h : heur) : Prop :=
  wf h /\ threshold_ h = threshold /\
  forall t, 0 <= t < Z.of_nat (length threshold) ->
    match last_insert t hist with
    | None => state_ h !! Z.to_nat t = Some Start
    | Some prev => state_ h !! Z.to_nat t = Some Steady /\ prev_hitrate_ h !! Z.to_nat t = Some prev
    end.

Lemma last_insert_snoc t hist c :
  last_insert t (hist ++ [c]) = if (c.1.2 =? t) && c.2 then Some c.1.1 else last_insert t hist.
Proof.
  unfold last_insert. rewrite omap_app; csimpl. destruct ((c.1.2 =? t) && c.2).
  - by rewrite last_snoc.
  - by rewrite app_nil_r.
Qed.

Lemma tracks_construct threshold : tracks threshold [] (construct threshold).
Proof.
  split; [apply construct_wf|]. split; [done|]. intros t Ht. simpl.
  rewrite list_lookup_fmap. destruct (lookup_lt_is_Some_2 threshold (Z.to_nat t)) as [x ->]; [lia|done].
Qed.

Lemma tracks_false threshold hist h hitrate t :
  tracks threshold hist h -> tracks threshold (hist ++ [(hitrate, t, false)]) h.
Proof.
  intros (Hwf & Eth & Ht). split; [done|]. split; [done|]. intros u Hu.
  rewrite last_insert_snoc. simpl. rewrite andb_false_r. by apply Ht.
Qed.

Lemma tracks_true threshold hist h hitrate t :
  0 <= t < Z.of_nat (length threshold) ->
  tracks threshold hist h -> tracks threshold (hist ++ [(hitrate, t, true)]) (moved h (Z.to_nat t) Steady hitrate).
Proof.
  intros Ht (Hwf & Eth & Htr). split; [by apply moved_wf|]. split; [done|]. intros u Hu.
  rewrite last_insert_snoc. simpl. destruct Hwf as (Hp & Hs & _). rewrite Eth in *.
  destruct (Z.eqb_spec t u) as [<-|Hne]; simpl.
  - rewrite !list_lookup_insert_eq by lia. done.
  - rewrite !list_lookup_insert_ne by lia. by apply Htr.
Qed.

(** One call answers as specified and keeps the record. *)
Lemma fsm_step threshold hist h hitrate t :
  0 <= t < Z.of_nat (length threshold) -> tracks threshold hist h ->
  exists b h', fsm_insert_needed hitrate t h = Ok (b, h') /\ fsm_answer threshold hist hitrate t b /\
    tracks threshold (hist ++ [(hitrate, t, b)]) h'.
Proof.
  intros Ht Htr. pose proof Htr as (Hwf & Eth & Hst). rewrite <- Eth in Ht.
  destruct (wf_lookup h t Hwf Ht) as (thr & s & p & E1 & E2 & E3 & Hs).
  unfold fsm_insert_needed, fsm_answer. rewrite (proj2 (Z.ltb_lt _ _)) by lia. rewrite E1, E2, E3.
  rewrite Eth in *. specialize (Hst t Ht).
  destruct (f32_le thr f32_zero) eqn:Hthr.
  { exists false, h. split; [done|]. split; [|by apply tracks_false].
    intros thr' [= <-]%(eq_trans (eq_sym E1)). rewrite Hthr. split; [done|by intros []]. }
  destruct (last_insert t hist) as [prev|] eqn:El.
  - destruct Hst as [Es Ep]. rewrite E2 in Es. injection Es as ->. rewrite E3 in Ep. injection Ep as ->.
    destruct (f32_lt _ thr) eqn:Hlt.
    + exists false, h. split; [done|]. split; [|by apply tracks_false].
      intros thr' [= <-]%(eq_trans (eq_sym E1)). split; [done|]. intros [_ H]. specialize (H prev eq_refl). congruence.
    + eexists true, _. split; [done|]. split; [|by apply tracks_true].
      intros thr' [= <-]%(eq_trans (eq_sym E1)). split; [|done]. intros _. split; [done|]. by intros ? [= <-].
  - rewrite E2 in Hst. injection Hst as ->. eexists true, _. split; [done|]. split; [|by apply tracks_true].
    intros thr' [= <-]%(eq_trans (eq_sym E1)). by split.
Qed.

Lemma fsm_run_spec threshold calls hist h :
  (forall hitrate t, (hitrate, t) ∈ calls -> 0 <= t < Z.of_nat (length threshold)) ->
  tracks threshold hist h ->
  exists bs h', run calls h = Ok (bs, h') /\ length bs = length calls /\
    forall i hitrate t b, calls !! i = Some (hitrate, t) -> bs !! i = Some b ->
      fsm_answer threshold (hist ++ zip (take i calls) (take i bs)) hitrate t b.
Proof.
  revert hist h. induction calls as [|[x t] calls IH]; intros hist h Hv Htr; simpl.
  { exists [], h. by split_and!. }
  destruct (fsm_step threshold hist h x t) as (b & h1 & E & Ha & Htr1); [eapply Hv; by left|done|].
  destruct (IH _ _ (fun y u Hin => Hv y u ltac:(by right)) Htr1) as (bs & h2 & Er & Hl & Hspec).
  exists (b :: bs), h2. rewrite E. simpl. rewrite Er. simpl. split; [done|]. split; [by rewrite Hl|].
  intros [|i] y u c Hc Hb; simpl in *.
  - injection Hc as <- <-. injection Hb as <-. by rewrite app_nil_r.
  - specialize (Hspec i y u c Hc Hb). by rewrite <- app_assoc in Hspec.
Qed.

(** [FSMInsertHeuristic] over any sequence of calls for any tables: every call
    returns, and asks for an insert exactly when the threshold of its table is
    positive (or NaN) and either no call for that table has asked before, or the
    hit rate has moved by the threshold or more since the latest call for that
    table that did. *)
Theorem fsm_inserts_on_change (threshold : list f32) (calls : list (f32 * Z)) :
  (forall hitrate t, (hitrate, t) ∈ calls -> 0 <= t < Z.of_nat (length threshold)) ->
  exists bs h, run calls (construct threshold) = Ok (bs, h) /\ length bs = length calls /\
    forall i hitrate t b, calls !! i = Some (hitrate, t) -> bs !! i = Some b ->
      fsm_answer threshold (zip (take i calls) (take i bs)) hitrate t b.
Proof. intros Hv. apply (fsm_run_spec threshold calls [] _ Hv), tracks_construct. Qed.

Definition fsm_example_calls : list (f32 * Z) :=
  [(f32_ratio 1 2, 0); (f32_ratio 9 16, 0); (f32_ratio 3 4, 1); (f32_ratio 7 8, 0); (f32_ratio 3 4, 0)].

Lemma fsm_inserts_on_change_witness :
  (exists bs h, run fsm_example_calls (construct [f32_ratio 1 4; f32_zero]) = Ok (bs, h) /\
     length bs = length fsm_example_calls /\
     forall i hitrate t b, fsm_example_calls !! i = Some (hitrate, t) -> bs !! i = Some b ->
       fsm_answer [f32_ratio 1 4; f32_zero] (zip (take i fsm_example_calls) (take i bs)) hitrate t b) /\
  match run fsm_example_calls (construct [f32_ratio 1 4; f32_zero]) with
  | Ok r => r.1 = [true; false; false; true; false]
  | _ => False
  end.
Proof.
  split; [|vm_compute; reflexivity].
  apply (fsm_inserts_on_change [f32_ratio 1 4; f32_zero] fsm_example_calls).
  intros x t Hin. unfold fsm_example_calls in Hin. rewrite !elem_of_cons in Hin.
  simpl length. destruct Hin as [[= _ ->]|[[= _ ->]|[[= _ ->]|[[= _ ->]|[[= _ ->]|[]%not_elem_of_nil]]]]]; lia.
Defined.

End FSMInsertHeuristic.

(** ** StatisticalInsertHeuristic *)

Module StatisticalInsertHeuristic.

Inductive State := Start | Insert | Steady | Unstable | NumStates.

(** The parameters of the constructor. *)
Record params := {
  num_keys_ : Z; k_factor_ : list f32; window_size_ : Z; num_inserts_needed_ : Z; max_unsteady_samples_ : Z
}.

(** The entries of the per-table vectors [hitrate_window_], [hitrate_mean_],
    [hitrate_var_], [chebyshev_probability_], [state_],
    [window_samples_collected_], [insertions_performed_] and
    [consecutive_unsteady_samples_] at one table; the constructor appends one
    entry to each of them for every table. *)
Record entry := {
  hitrate_window : list f32; hitrate_mean : f32; hitrate_var : f32; chebyshev_probability : f32;
  state : State; window_samples_collected : Z; insertions_performed : Z; consecutive_unsteady_samples : Z
}.

Record heur := { config : params; tables : list entry; gen_ : nat }.

Definition set_distribution (e : entry) (w : list f32) (mean var : f32) : entry :=
  {| hitrate_window := w; hitrate_mean := mean; hitrate_var := var;
     chebyshev_probability := chebyshev_probability e; state := state e;
     window_samples_collected := window_samples_collected e; insertions_performed := insertions_performed e;
     consecutive_unsteady_samples := consecutive_unsteady_samples e |}.
Definition set_machine (e : entry) (s : State) (collected performed unsteady : Z) : entry :=
  {| hitrate_window := hitrate_window e; hitrate_mean := hitrate_mean e; hitrate_var := hitrate_var e;
     chebyshev_probability := chebyshev_probability e; state := s;
     window_samples_collected := collected; insertions_performed := performed;
     consecutive_unsteady_samples := unsteady |}.

(** [getChebyshevProb]; [k] is [k_factor_[table_id]]. *)
Definition getChebyshevProb (window_size : Z) (k : f32) : f32 :=
  let term1 := f32_div f32_one (f32_of_Z (wrapu 64 (window_size + 1))) in
  let term2 := f32_div (f32_of_Z (wrapu 64 (window_size + 1))) (f32_of_Z window_size) in
  let term3 := f32_add (f32_div (f32_of_Z (wrapu 64 (window_size - 1))) (f32_mul k k)) f32_one in
  f32_mul term1 (f32_floor (f32_mul term2 term3)).

(** The loop over the window that sums the squared deviations. *)
Fixpoint sum_deviations (w : list f32) (mean : f32) (n i : nat) (curr_var : f32) : outcome f32 :=
  match n with
  | O => Ok curr_var
  | S n =>
      match w !! i with
      | None => Undef "deque index out of range"
      | Some x => sum_deviations w mean n (S i) (f32_add curr_var (f32_mul (f32_sub x mean) (f32_sub x mean)))
      end
  end.

Definition updateDistributionParams (p : params) (hitrate : f32) (e : entry) : outcome entry :=
  match hitrate_window e with
  | [] => Undef "front of an empty deque"
  | old_hitrate :: rest =>
      let w := rest ++ [hitrate] in
      let curr_mean := f32_add (hitrate_mean e)
                         (f32_div (f32_sub hitrate old_hitrate) (f32_of_Z (window_size_ p))) in
      if num_keys_ p =? 0 then
        let! curr_var := sum_deviations w curr_mean (Z.to_nat (window_size_ p)) 0 f32_zero in
        Ok (set_distribution e w curr_mean (f32_div curr_var (f32_of_Z (wrapu 64 (window_size_ p - 1)))))
      else
        Ok (set_distribution e w curr_mean
              (f32_div (f32_mul curr_mean (f32_sub f32_one curr_mean)) (f32_of_Z (num_keys_ p))))
  end.

(** The constructor. *)
Fixpoint push_tables (p : params) (ks : list f32) (ts : list entry) : outcome (list entry) :=
  match ks with
  | [] => Ok ts
  | k :: ks =>
      check! f32_lt f32_zero k as "k_factor values must be greater than 0" in
      push_tables p ks (ts ++ [{|
        hitrate_window := repeat f32_zero (Z.to_nat (window_size_ p)); hitrate_mean := f32_zero;
        hitrate_var := f32_zero; chebyshev_probability := getChebyshevProb (window_size_ p) k;
        state := Start; window_samples_collected := 0; insertions_performed := 0;
        consecutive_unsteady_samples := 0 |}])
  end.

Definition construct (p : params) : outcome heur :=
  check! negb (bool_decide (length (k_factor_ p) = 0%nat)) as "k_factor vector cannot be empty" in
  check! 1 <? window_size_ p as "window_size must be greater than 1" in
  check! 0 <? num_inserts_needed_ p as "num_inserts_needed must be greater than 0" in
  check! 0 <? max_unsteady_samples_ p as "max_unsteady_samples must be greater than 0" in
  let! ts := push_tables p (k_factor_ p) [] in
  Ok {| config := p; tables := ts; gen_ := 0 |}.

(** [std::abs(hitrate - hitrate_mean_[t]) >= k_factor_[t] * std::sqrt(hitrate_var_[t])]. *)
Definition outlier (k hitrate : f32) (e : entry) : bool :=
  let k_std := f32_mul k (f32_sqrt (hitrate_var e)) in
  f32_le k_std (f32_abs (f32_sub hitrate (hitrate_mean e))).

Section Random.
(** The sequence of values of [dis_(gen_)]. *)
Variable dis : nat -> f64.

(** The body of the switch: the answer, the new entry of the table and the new
    state of the generator. *)
Definition entry_step (p : params) (k hitrate : f32) (e : entry) (gen : nat) : outcome (bool * entry * nat) :=
  let collected := window_samples_collected e in
  let performed := insertions_performed e in
  let unsteady := consecutive_unsteady_samples e in
  match state e with
  | Start =>
      let! e := updateDistributionParams p hitrate e in
      let collected := wrapu 64 (collected + 1) in
      let s := if collected =? window_size_ p then Insert else Start in
      Ok (false, set_machine e s collected performed unsteady, gen)
  | Insert =>
      let performed := wrapu 64 (performed + 1) in
      let s := if performed mod num_inserts_needed_ p =? 0 then Unstable else Insert in
      Ok (true, set_machine e s collected performed unsteady, gen)
  | Steady =>
      if outlier k hitrate e then
        let unsteady := wrapu 64 (unsteady + 1) in
        if unsteady =? max_unsteady_samples_ p
        then Ok (false, set_machine e Insert collected performed 0, gen)
        else Ok (false, set_machine e Steady collected performed unsteady, gen)
      else
        let! e := updateDistributionParams p hitrate (set_machine e Steady collected performed 0) in
        Ok (false, e, gen)
  | Unstable =>
      let bad := outlier k hitrate e in
      let restart := bad && f64_lt (f64_of_f32 (chebyshev_probability e)) (dis gen) in
      let e := if restart then set_machine e Start 1 performed unsteady
               else set_machine e Steady collected performed unsteady in
      let! e := updateDistributionParams p hitrate e in
      Ok (false, e, if bad then S gen else gen)
  | NumStates => Throw "Invalid heuristic state!"
  end.

Definition statistical_insert_needed (hitrate : f32) (table_id : Z) (h : heur) : outcome (bool * heur) :=
  let p := config h in
  check! table_id <? Z.of_nat (length (k_factor_ p)) as "Invalid table index" in
  let t := Z.to_nat table_id in
  match k_factor_ p !! t, tables h !! t with
  | Some k, Some e =>
      let! r := entry_step p k hitrate e (gen_ h) in
      Ok (r.1.1, {| config := p; tables := <[t := r.1.2]> (tables h); gen_ := r.2 |})
  | _, _ => Undef "vector index out of range"
  end.
End Random.

(** *** Well-formed heuristics *)

(** The counters of an entry: the window keeps its length; while samples are
    collected fewer than the window have been; insertions come in complete
    rounds except during a round; fewer bad samples than the limit have been
    seen in a row. *)
Definition entry_wf (p : params) (e : entry) : Prop :=
  Z.of_nat (length (hitrate_window e)) = window_size_ p /\ state e <> NumStates /\
  0 <= window_samples_collected e < 2 ^ 64 /\
  0 <= insertions_performed e < 2 ^ 64 /\
  0 <= consecutive_unsteady_samples e < max_unsteady_samples_ p /\
  (state e = Start -> window_samples_collected e < window_size_ p).

Definition params_wf (p : params) : Prop :=
  1 < window_size_ p < 2 ^ 64 /\ 0 < num_inserts_needed_ p < 2 ^ 64 /\ 0 < max_unsteady_samples_ p < 2 ^ 64.

Definition wf (h : heur) : Prop :=
  params_wf (config h) /\ length (tables h) = length (k_factor_ (config h)) /\
  Forall (entry_wf (config h)) (tables h).

Lemma sum_deviations_returns w mean n i v :
  (i + n <= length w)%nat -> exists x, sum_deviations w mean n i v = Ok x.
Proof.
  revert i v. induction n as [|n IH]; intros i v Hn; simpl; [by eexists|].
  destruct (lookup_lt_is_Some_2 w i) as [x ->]; [lia|]. apply IH. lia.
Qed.

(** [updateDistributionParams] returns, shifts the window and touches no counter. *)
Lemma update_returns p hitrate e :
  1 < window_size_ p -> Z.of_nat (length (hitrate_window e)) = window_size_ p ->
  exists e', updateDistributionParams p hitrate e = Ok e' /\
    hitrate_window e' = tail (hitrate_window e) ++ [hitrate] /\
    Z.of_nat (length (hitrate_window e')) = window_size_ p /\
    state e' = state e /\ window_samples_collected e' = window_samples_collected e /\
    insertions_performed e' = insertions_performed e /\
    consecutive_unsteady_samples e' = consecutive_unsteady_samples e.
Proof.
  intros Hw Hl. unfold updateDistributionParams. destruct (hitrate_window e) as [|x w] eqn:E; simpl in Hl; [lia|].
  assert (Hlen : length (w ++ [hitrate]) = S (length w)) by (rewrite length_app; simpl; lia).
  destruct (Z.eqb_spec (num_keys_ p) 0).
  - match goal with |- context [sum_deviations ?a ?b ?c ?d ?f] =>
      destruct (sum_deviations_returns a b c d f) as [v ->] end; [rewrite Hlen; lia|].
    eexists. split; [reflexivity|]. simpl. rewrite Hlen. split_and!; try done; lia.
  - eexists. split; [reflexivity|]. simpl. rewrite Hlen. split_and!; try done; lia.
Qed.

(** *** The abstract phases *)

(** What a table is doing: samples still to collect, inserts still to ask for,
    the check after a round of inserts, and watching with a number of bad samples
    in a row. *)
Inductive phase := Collect (n : Z) | Inserting (n : Z) | Checking | Watching (bad : Z).

Definition abs (p : params) (e : entry) : phase :=
  match state e with
  | Start => Collect (window_size_ p - window_samples_collected e)
  | Insert => Inserting (num_inserts_needed_ p - insertions_performed e mod num_inserts_needed_ p)
  | Steady => Watching (consecutive_unsteady_samples e)
  | _ => Checking
  end.

(** One call for the table, with its answer. *)
Inductive phase_step (p : params) : phase -> bool -> phase -> Prop :=
  | collect_more n : 1 < n -> phase_step p (Collect n) false (Collect (n - 1))
  | collect_last : phase_step p (Collect 1) false (Inserting (num_inserts_needed_ p))
  | insert_more n : 1 < n -> phase_step p (Inserting n) true (Inserting (n - 1))
  | insert_last : phase_step p (Inserting 1) true Checking
  | check_settled : phase_step p Checking false (Watching 0)
  | check_restart : phase_step p Checking false (Collect (window_size_ p - 1))
  | watch_good n : phase_step p (Watching n) false (Watching 0)
  | watch_bad n : n + 1 < max_unsteady_samples_ p -> phase_step p (Watching n) false (Watching (n + 1))
  | watch_insert n : n + 1 = max_unsteady_samples_ p ->
      phase_step p (Watching n) false (Inserting (num_inserts_needed_ p)).

Inductive phases (p : params) : phase -> list bool -> phase -> Prop :=
  | phases_nil ph : phases p ph [] ph
  | phases_snoc ph bs ph1 b ph2 :
      phases p ph bs ph1 -> phase_step p ph1 b ph2 -> phases p ph (bs ++ [b]) ph2.

(** Insertions come in complete rounds, except during one; the count of bad
    samples is reset before inserting. *)
Definition rounds (p : params) (e : entry) : Prop :=
  (state e <> Insert -> insertions_performed e mod num_inserts_needed_ p = 0) /\
  (state e <> Steady -> consecutive_unsteady_samples e = 0).

Lemma next_mod x n : 0 < n -> 0 <= x ->
  (x + 1) mod n = if x mod n + 1 =? n then 0 else x mod n + 1.
Proof.
  intros Hn Hx. pose proof (Z.mod_pos_bound x n Hn). rewrite (Z.div_mod x n) at 1 by lia.
  replace (n * (x / n) + x mod n + 1) with ((x mod n + 1) + (x / n) * n) by ring.
  rewrite Z_mod_plus_full. destruct (Z.eqb_spec (x mod n + 1) n) as [->|].
  - apply Z_mod_same_full.
  - apply Z.mod_small. lia.
Qed.

(** The guarantees of one call for an entry: it returns and keeps the entry well
    formed; without wrap-around of the insertion counter it is a step of the
    phases. *)
Definition step_ok (p : params) (e : entry) (r : outcome (bool * entry * nat)) : Prop :=
  exists b e' g, r = Ok (b, e', g) /\ entry_wf p e' /\
    (rounds p e -> insertions_performed e + 1 < 2 ^ 64 ->
     rounds p e' /\ insertions_performed e' <= insertions_performed e + 1 /\ phase_step p (abs p e) b (abs p e')).

Section Random.
Variable dis : nat -> f64.

Lemma step_start p k hitrate e gen :
  params_wf p -> entry_wf p e -> state e = Start -> step_ok p e (entry_step dis p k hitrate e gen).
Proof.
  intros ((Hw1 & Hw2) & Hn & Hm) (Hl & Hs & Hc & Hp & Hu & Hst) E. specialize (Hst E).
  unfold entry_step. rewrite E.
  destruct (update_returns p hitrate e Hw1 Hl) as (e1 & -> & _ & Hl1 & _). simpl.
  rewrite wrapu_small by (unfold in_u; lia). eexists _, _, _. split; [reflexivity|].
  unfold entry_wf, rounds, abs; simpl. rewrite E.
  destruct (Z.eqb_spec (window_samples_collected e + 1) (window_size_ p)) as [Ew|Ew].
  - split; [split_and!; try done; lia|]. intros [Hr Hr'] _. rewrite Hr by done.
    split; [split; [done|intros _; by apply Hr']|]. split; [lia|].
    replace (window_size_ p - window_samples_collected e) with 1 by lia. rewrite Z.sub_0_r. constructor.
  - split; [split_and!; try done; lia|]. intros [Hr Hr'] _.
    split; [split; [intros _; by apply Hr|intros _; by apply Hr']|]. split; [lia|].
    replace (window_size_ p - (window_samples_collected e + 1))
      with (window_size_ p - window_samples_collected e - 1) by lia. constructor. lia.
Qed.

Lemma step_insert p k hitrate e gen :
  params_wf p -> entry_wf p e -> state e = Insert -> step_ok p e (entry_step dis p k hitrate e gen).
Proof.
  intros (Hw & Hn & Hm) (Hl & Hs & Hc & Hp & Hu & Hst) E. unfold entry_step. rewrite E.
  eexists _, _, _. split; [reflexivity|]. pose proof (wrapu_range 64 (insertions_performed e + 1)) as Hr.
  split.
  { unfold entry_wf; simpl. split_and!; try done; try lia; try (by destruct (_ =? 0)).
    - apply Hr; lia.
    - apply Hr; lia. }
  intros [Hrd Hrd'] Hlt. unfold rounds, abs; simpl. rewrite E.
  rewrite wrapu_small by (unfold in_u; lia).
  rewrite next_mod by lia. pose proof (Z.mod_pos_bound (insertions_performed e) (num_inserts_needed_ p)).
  destruct (Z.eqb_spec (insertions_performed e mod num_inserts_needed_ p + 1) (num_inserts_needed_ p)) as [En|En]; simpl.
  - split; [split; [done|intros _; apply Hrd'; congruence]|]. split; [lia|].
    replace (num_inserts_needed_ p - _) with 1 by lia. constructor.
  - rewrite (proj2 (Z.eqb_neq _ 0)) by lia.
    split; [split; [done|intros _; apply Hrd'; congruence]|]. split; [lia|].
    rewrite Z.sub_add_distr. constructor. lia.
Qed.

Lemma step_steady p k hitrate e gen :
  params_wf p -> entry_wf p e -> state e = Steady -> step_ok p e (entry_step dis p k hitrate e gen).
Proof.
  intros ((Hw1 & Hw2) & Hn & Hm) (Hl & Hs & Hc & Hp & Hu & Hst) E. unfold entry_step. rewrite E.
  rewrite wrapu_small by (unfold in_u; lia).
  destruct (outlier k hitrate e).
  - destruct (Z.eqb_spec (consecutive_unsteady_samples e + 1) (max_unsteady_samples_ p)) as [Em|Em].
    + eexists _, _, _. split; [reflexivity|]. unfold entry_wf, rounds, abs; simpl. rewrite E.
      split; [split_and!; try done; lia|]. intros [Hr Hr'] _. rewrite Hr by done. split; [done|]. split; [lia|].
      rewrite Z.sub_0_r. by constructor.
    + eexists _, _, _. split; [reflexivity|]. unfold entry_wf, rounds, abs; simpl. rewrite E.
      split; [split_and!; try done; lia|]. intros [Hr Hr'] _. rewrite Hr by done. split; [done|]. split; [lia|].
      constructor. lia.
  - destruct (update_returns p hitrate (set_machine e Steady (window_samples_collected e) (insertions_performed e) 0)
      Hw1 Hl) as (e1 & -> & _ & Hl1 & Es & Ec & Ep & Eu). simpl in *.
    eexists _, _, _. split; [reflexivity|]. unfold entry_wf, rounds, abs. rewrite Es, Ec, Ep, Eu, E.
    split; [split_and!; try done; lia|]. intros [Hr Hr'] _. rewrite Hr by done. split; [done|]. split; [lia|].
    constructor.
Qed.

Lemma step_unstable p k hitrate e gen :
  params_wf p -> entry_wf p e -> state e = Unstable -> step_ok p e (entry_step dis p k hitrate e gen).
Proof.
  intros ((Hw1 & Hw2) & Hn & Hm) (Hl & Hs & Hc & Hp & Hu & Hst) E. unfold entry_step. rewrite E.
  destruct (outlier k hitrate e && f64_lt _ _).
  - destruct (update_returns p hitrate (set_machine e Start 1 (insertions_performed e) (consecutive_unsteady_samples e))
      Hw1 Hl) as (e1 & -> & _ & Hl1 & Es & Ec & Ep & Eu). simpl in *.
    eexists _, _, _. split; [reflexivity|]. unfold entry_wf, rounds, abs. rewrite Es, Ec, Ep, Eu, E.
    split; [split_and!; try done; lia|]. intros [Hr Hr'] _. rewrite Hr by done.
    split; [split; [done|intros _; by apply Hr']|]. split; [lia|]. constructor.
  - destruct (update_returns p hitrate
      (set_machine e Steady (window_samples_collected e) (insertions_performed e) (consecutive_unsteady_samples e))
      Hw1 Hl) as (e1 & -> & _ & Hl1 & Es & Ec & Ep & Eu). simpl in *.
    eexists _, _, _. split; [reflexivity|]. unfold entry_wf, rounds, abs. rewrite Es, Ec, Ep, Eu, E.
    split; [split_and!; try done; lia|]. intros [Hr Hr'] _. rewrite Hr, Hr' by done.
    split; [split; [done|intros; done]|]. split; [lia|]. constructor.
Qed.

Lemma entry_step_ok p k hitrate e gen :
  params_wf p -> entry_wf p e -> step_ok p e (entry_step dis p k hitrate e gen).
Proof.
  intros Hp He. destruct (state e) eqn:E;
    [by apply step_start|by apply step_insert|by apply step_steady|by apply step_unstable|].
  by destruct He as (_ & He & _).
Qed.

(** One call on a heuristic: only the entry of its table moves. *)
Lemma call_ok hitrate t h :
  wf h -> 0 <= t < Z.of_nat (length (k_factor_ (config h))) ->
  exists e b e' g, tables h !! Z.to_nat t = Some e /\
    statistical_insert_needed dis hitrate t h =
      Ok (b, {| config := config h; tables := <[Z.to_nat t := e']> (tables h); gen_ := g |}) /\
    wf {| config := config h; tables := <[Z.to_nat t := e']> (tables h); gen_ := g |} /\
    step_ok (config h) e (Ok (b, e', g)).
Proof.
  intros (Hp & Hl & Hf) Ht.
  destruct (lookup_lt_is_Some_2 (k_factor_ (config h)) (Z.to_nat t)) as [k Ek]; [lia|].
  destruct (lookup_lt_is_Some_2 (tables h) (Z.to_nat t)) as [e Ee]; [lia|].
  pose proof (proj1 (Forall_lookup _ _) Hf _ _ Ee) as He.
  destruct (entry_step_ok (config h) k hitrate e (gen_ h) Hp He) as (b & e' & g & E & He' & Hph).
  exists e, b, e', g. split; [done|]. unfold statistical_insert_needed.
  rewrite (proj2 (Z.ltb_lt _ _)) by lia. rewrite Ek, Ee. cbv zeta. rewrite E. simpl. split; [done|]. split.
  - split; [done|]. simpl. rewrite length_insert. split; [done|]. by apply Forall_insert.
  - exists b, e', g. done.
Qed.

#[refine] Instance heuristic : InsertHeuristic heur := {|
  insert_needed := statistical_insert_needed dis; heuristic_wf := wf;
  valid_table h t := 0 <= t < Z.of_nat (length (k_factor_ (config h))) |}.
Proof.
  intros hitrate t h Hwf Ht. destruct (call_ok hitrate t h Hwf Ht) as (e & b & e' & g & _ & E & Hwf' & _).
  by eexists b, _.
Defined.

(** *** Traces of calls *)

Fixpoint run (calls : list (f32 * Z)) (h : heur) : outcome (list bool * heur) :=
  match calls with
  | [] => Ok ([], h)
  | (hitrate, t) :: calls =>
      let! r := statistical_insert_needed dis hitrate t h in
      let! rs := run calls r.2 in
      Ok (r.1 :: rs.1, rs.2)
  end.

(** The answers to the calls for table [t]. *)
Definition answers (t : Z) (calls : list (f32 * Z)) (bs : list bool) : list bool :=
  omap (fun c => if c.1.2 =? t then Some c.2 else None) (zip calls bs).

(** After [n] calls, where [hist t] are the answers given so far for [t]. *)
Definition tracked (p : params) (n : Z) (hist : Z -> list bool) (h : heur) : Prop :=
  wf h /\ config h = p /\
  forall t e, 0 <= t -> tables h !! Z.to_nat t = Some e ->
    rounds p e /\ insertions_performed e <= n /\ phases p (Collect (window_size_ p)) (hist t) (abs p e).

Lemma tracked_call p n hist h hitrate t :
  n + 1 < 2 ^ 64 -> 0 <= t < Z.of_nat (length (k_factor_ p)) -> tracked p n hist h ->
  exists b h', statistical_insert_needed dis hitrate t h = Ok (b, h') /\
    tracked p (n + 1) (fun u => if t =? u then hist u ++ [b] else hist u) h'.
Proof.
  intros Hn Ht (Hwf & Ec & Htr). rewrite <- Ec in Ht.
  destruct (call_ok hitrate t h Hwf Ht) as (e & b & e' & g & Ee & E & Hwf' & (? & ? & ? & [= <- <- <-] & _ & Hph)).
  eexists b, _. split; [exact E|]. split; [done|]. split; [done|]. simpl. intros u f Hu Hf.
  destruct (Htr t e ltac:(lia) Ee) as (Hr & Hi & Hp). rewrite Ec in Hph.
  destruct (Hph Hr ltac:(lia)) as (Hr' & Hi' & Hs).
  destruct (Z.eqb_spec t u) as [<-|Hne].
  - apply list_lookup_insert_Some in Hf as [(_ & -> & _)|(? & _)]; [|done].
    split; [done|]. split; [lia|]. by eapply phases_snoc.
  - rewrite list_lookup_insert_ne in Hf by lia. destruct (Htr u f Hu Hf) as (? & ? & ?). split_and!; [done|lia|done].
Qed.

Lemma run_tracked p calls n hist h :
  n + Z.of_nat (length calls) < 2 ^ 64 ->
  (forall hitrate t, (hitrate, t) ∈ calls -> 0 <= t < Z.of_nat (length (k_factor_ p))) ->
  tracked p n hist h ->
  exists bs h', run calls h = Ok (bs, h') /\ length bs = length calls /\
    tracked p (n + Z.of_nat (length calls)) (fun t => hist t ++ answers t calls bs) h'.
Proof.
  revert n hist h. induction calls as [|[x t] calls IH]; intros n hist h Hn Hv Htr.
  { exists [], h. split; [done|]. split; [done|]. simpl. rewrite Z.add_0_r.
    destruct Htr as (? & ? & Htr). split; [done|]. split; [done|]. intros u e Hu He.
    unfold answers; simpl. rewrite app_nil_r. by apply Htr. }
  simpl in Hn. destruct (tracked_call p n hist h x t) as (b & h1 & E & Htr1); [lia|eapply Hv; by left|done|].
  destruct (IH (n + 1) _ _ ltac:(lia) (fun y u Hin => Hv y u ltac:(by right)) Htr1)
    as (bs & h2 & Er & Hl & Hwf2 & Ec2 & Htr2).
  exists (b :: bs), h2. simpl. rewrite E. simpl. rewrite Er. simpl. split; [done|]. split; [by rewrite Hl|].
  split; [done|]. split; [done|]. intros u e Hu He. destruct (Htr2 u e Hu He) as (? & ? & Hph).
  split; [done|]. split; [lia|]. unfold answers in *; csimpl. destruct (t =? u); csimpl.
  - by rewrite <- app_assoc in Hph.
  - done.
Qed.

Lemma push_tables_ok p ks ts :
  params_wf p -> Forall (fun e => entry_wf p e /\ rounds p e /\ insertions_performed e = 0 /\ abs p e = Collect (window_size_ p)) ts ->
  forall ts', push_tables p ks ts = Ok ts' ->
  length ts' = (length ts + length ks)%nat /\
  Forall (fun e => entry_wf p e /\ rounds p e /\ insertions_performed e = 0 /\ abs p e = Collect (window_size_ p)) ts'.
Proof.
  intros Hp. revert ts. induction ks as [|k ks IH]; intros ts Hts ts' E; simpl in E.
  { injection E as <-. simpl. split; [lia|done]. }
  destruct (f32_lt f32_zero k); [|done]. apply IH in E as [El Ef].
  - rewrite length_app in El. simpl in *. split; [lia|done].
  - apply Forall_app. split; [done|]. apply Forall_singleton. destruct Hp as ((Hw1 & Hw2) & Hn & Hm).
    unfold entry_wf, rounds, abs; simpl. rewrite repeat_length. split_and!; try done; try lia.
    f_equal; lia.
Qed.

Lemma construct_tracked p h :
  0 <= window_size_ p < 2 ^ 64 -> 0 <= num_inserts_needed_ p < 2 ^ 64 -> 0 <= max_unsteady_samples_ p < 2 ^ 64 ->
  construct p = Ok h -> params_wf p /\ tracked p 0 (fun _ => []) h.
Proof.
  intros Hw Hn Hm E. unfold construct in E. destruct (negb _); [|done].
  destruct (Z.ltb_spec 1 (window_size_ p)); [|done]. destruct (Z.ltb_spec 0 (num_inserts_needed_ p)); [|done].
  destruct (Z.ltb_spec 0 (max_unsteady_samples_ p)); [|done].
  apply obind_Ok in E as (ts & E & [= <-]). assert (Hp : params_wf p) by (repeat split; lia). split; [done|].
  apply push_tables_ok in E as [El Ef]; [|done|done]. split; [|split; [done|]].
  - split; [done|]. split; [done|]. eapply Forall_impl; [exact Ef|]. by intros e (? & _).
  - simpl. intros t e Ht He. destruct (proj1 (Forall_lookup _ _) Ef _ _ He) as (_ & Hr & -> & ->).
    split_and!; [done|lia|constructor].
Qed.

(** Consequences for the answers of one table. *)

Definition inserts (bs : list bool) : Z := Z.of_nat (length (filter (fun b => b = true) bs)).

Definition asked_in_round (p : params) (ph : phase) : Z :=
  match ph with Inserting n => num_inserts_needed_ p - n | _ => 0 end.

(** Inserts are asked for in complete rounds, plus what the current round had. *)
Lemma phases_rounds p bs ph :
  params_wf p -> phases p (Collect (window_size_ p)) bs ph ->
  (inserts bs - asked_in_round p ph) mod num_inserts_needed_ p = 0.
Proof.
  intros (_ & Hn & _) H. remember (Collect (window_size_ p)) as ph0 eqn:E0.
  induction H as [ph|ph bs ph1 b ph2 H IH Hs]; [subst; apply Z.mod_0_l; lia|].
  specialize (IH E0). unfold inserts in *. rewrite filter_app, length_app, Nat2Z.inj_add.
  assert (Ht : Z.of_nat (length (filter (fun b => b = true) [b])) = if b then 1 else 0) by (by destruct b).
  rewrite Ht.
  destruct Hs; cbn [asked_in_round] in *;
    match goal with |- ?x mod ?n = 0 => match type of IH with ?y mod _ = 0 =>
      first [replace x with y by lia; exact IH
            |replace x with (y + 1 * n) by lia; rewrite Z_mod_plus_full; exact IH] end end.
Qed.

(** The first window only collects. *)
Lemma phases_start p bs ph :
  params_wf p -> phases p (Collect (window_size_ p)) bs ph ->
  (Z.of_nat (length bs) < window_size_ p -> ph = Collect (window_size_ p - Z.of_nat (length bs))) /\
  forall i, Z.of_nat i < window_size_ p -> (i < length bs)%nat -> bs !! i = Some false.
Proof.
  intros ((Hw & _) & _) H. remember (Collect (window_size_ p)) as ph0 eqn:E0.
  induction H as [ph|ph bs ph1 b ph2 H IH Hs].
  { subst. split; [intros _; f_equal; simpl; lia|]. simpl. lia. }
  destruct (IH E0) as [IH1 IH2]. rewrite length_app; simpl length. split.
  - intros Hl. rewrite IH1 in Hs by lia. inversion Hs; subst; [f_equal; lia|lia].
  - intros i Hi Hil. destruct (decide (i < length bs)%nat).
    + rewrite lookup_app_l by lia. apply IH2; lia.
    + assert (i = length bs) as -> by lia. rewrite lookup_app_r, Nat.sub_diag by lia. simpl. f_equal.
      rewrite IH1 in Hs by lia. inversion Hs; done.
Qed.

(** [StatisticalInsertHeuristic] is a simulation of its phases: over any sequence
    of fewer than 2^64 calls for any tables and any random draws, every call
    returns, and the answers for each table are those of a run of the phase
    machine from a full window to collect. So the first [window_size] calls for a
    table never ask for an insert, and whenever the table is not in a round of
    inserts it has asked for a multiple of [num_inserts_needed] inserts. *)
Theorem statistical_refines_phases (p : params) (h : heur) (calls : list (f32 * Z)) :
  0 <= window_size_ p < 2 ^ 64 -> 0 <= num_inserts_needed_ p < 2 ^ 64 -> 0 <= max_unsteady_samples_ p < 2 ^ 64 ->
  construct p = Ok h -> Z.of_nat (length calls) < 2 ^ 64 ->
  (forall hitrate t, (hitrate, t) ∈ calls -> 0 <= t < Z.of_nat (length (k_factor_ p))) ->
  exists bs h', run calls h = Ok (bs, h') /\ length bs = length calls /\
    forall t, 0 <= t < Z.of_nat (length (k_factor_ p)) ->
      exists e, tables h' !! Z.to_nat t = Some e /\
        phases p (Collect (window_size_ p)) (answers t calls bs) (abs p e) /\
        (forall i b, Z.of_nat i < window_size_ p -> answers t calls bs !! i = Some b -> b = false) /\
        (state e <> Insert -> inserts (answers t calls bs) mod num_inserts_needed_ p = 0).
Proof.
  intros Hw Hn Hm E Hc Hv. destruct (construct_tracked p h Hw Hn Hm E) as [Hp Htr].
  destruct (run_tracked p calls 0 (fun _ => []) h Hc Hv Htr) as (bs & h' & Er & Hl & (_ & Hlen & _) & Ec & Htr').
  exists bs, h'. split; [done|]. split; [done|]. intros t Ht. rewrite Ec in Hlen.
  destruct (lookup_lt_is_Some_2 (tables h') (Z.to_nat t)) as [e Ee]; [lia|].
  destruct (Htr' t e ltac:(lia) Ee) as (Hr & _ & Hph). simpl in Hph.
  exists e. split; [done|]. split; [done|]. split.
  - intros i b Hi Hb. destruct (phases_start p _ _ Hp Hph) as [_ Hf].
    rewrite Hf in Hb; [congruence|done|]. by eapply lookup_lt_Some.
  - intros Hs. pose proof (phases_rounds p _ _ Hp Hph) as Hr'.
    replace (asked_in_round p (abs p e)) with 0 in Hr'; [by rewrite Z.sub_0_r in Hr'|].
    unfold abs. by destruct (state e).
Qed.
End Random.

Definition example_params : params :=
  {| num_keys_ := 0; k_factor_ := [f32_ratio 13 5; f32_of_Z 1]; window_size_ := 3; num_inserts_needed_ := 2;
     max_unsteady_samples_ := 2 |}.
Definition example_calls : list (f32 * Z) :=
  (fun x => (f32_ratio x 8, 0)) <$> [4; 5; 4; 7; 7; 4; 1; 1; 1; 1; 1].
Definition example_heur : heur :=
  match construct example_params with Ok h => h | _ => {| config := example_params; tables := []; gen_ := 0 |} end.

Lemma statistical_refines_phases_witness :
  exists bs h', run (fun _ => f64_of_Z 0) example_calls example_heur = Ok (bs, h') /\
    bs = [false; false; false; true; true; false; false; false; true; true; false] /\
    forall t, 0 <= t < Z.of_nat (length (k_factor_ example_params)) ->
      exists e, tables h' !! Z.to_nat t = Some e /\
        (state e <> Insert -> inserts (answers t example_calls bs) mod num_inserts_needed_ example_params = 0).
Proof.
  destruct (statistical_refines_phases (fun _ => f64_of_Z 0) example_params example_heur example_calls)
    as (bs & h' & Er & Hl & Ht).
  - simpl; lia.
  - simpl; lia.
  - simpl; lia.
  - vm_compute; reflexivity.
  - vm_compute; reflexivity.
  - intros x t (y & [= _ ->] & _)%list_elem_of_fmap. simpl; lia.
  - exists bs, h'. split; [exact Er|]. split.
    + assert (Hb : match run (fun _ => f64_of_Z 0) example_calls example_heur with
                   | Ok r => r.1 = [false; false; false; true; true; false; false; false; true; true; false]
                   | _ => False end) by (vm_compute; reflexivity).
      rewrite Er in Hb. exact Hb.
    + intros t H. destruct (Ht t H) as (e & He & _ & _ & H2). exists e. split; [exact He|exact H2].
Defined.

End StatisticalInsertHeuristic.
