(* ===== verification/Buffers.v ===== *)
(** * Scratch buffers and buffer wrappers: [include/resizeable_buffer.hpp],
    [include/execution_context.hpp], [src/execution_context.cpp],
    [include/buffer_wrapper.hpp]

    [ResizeableBuffer] grows on request and loses its contents when it does;
    [ExecutionContext::get_buffer] keeps one per name and location;
    [BufferWrapper] gives one logical buffer a copy per memory type. The heap maps
    the base address of every live allocation to its bytes. Copies take effect at
    once: all of them are queued on the lookup stream of the caller, in order. *)
From S2P Require Import Prelude.

Abbreviation heap := (gmap Z (list Z)).

(** [cudaMemcpyAsync(dst, src, n, cudaMemcpyDefault, stream)] and [memcpy] of whole buffers. *)
Definition copy_bytes (dst src n : Z) (m : heap) : outcome heap :=
  match m !! src, m !! dst with
  | Some s, Some d =>
      if (n <=? Z.of_nat (length s)) && (n <=? Z.of_nat (length d))
      then Ok (<[dst := take (Z.to_nat n) s ++ drop (Z.to_nat n) d]> m)
      else Undef "copy beyond an allocation"
  | _, _ => Undef "copy through an invalid pointer"
  end.

(** ** The allocator *)

(** What [mmap] returns when it fails: [(void* ) -1]. *)
Definition MAP_FAILED : Z := 2 ^ 64 - 1.

(** An [Allocator]: [allocate host m n] is the new address or an error,
    [on_failure] what a failed allocation leaves in the pointer it was given,
    [fresh n] the contents of a new allocation. *)
Class Allocator := {
  allocate : bool -> heap -> Z -> option Z;
  on_failure : Z -> Z;
  fresh : Z -> list Z;
  allocate_fresh host m n p : allocate host m n = Some p -> p <> 0 /\ m !! p = None;
  fresh_length n : length (fresh n) = Z.to_nat n;
  on_failure_null p : on_failure p = p \/ on_failure p = 0 \/ on_failure p = MAP_FAILED
}.

(** ** ResizeableBuffer *)

Record ResizeableBuffer := { host_alloc_ : bool; buffer_ : Z; size_ : Z }.

Definition new_buffer (host_alloc : bool) : ResizeableBuffer :=
  {| host_alloc_ := host_alloc; buffer_ := 0; size_ := 0 |}.

Inductive cudaMemoryType := Unregistered | Host | Device | Managed.
#[global] Instance memory_type_eq_dec : EqDecision cudaMemoryType.
Proof. solve_decision. Defined.

(** ** ExecutionContext: its named buffers *)

(** [internal_name]. *)
Definition internal_name (name : string) (host_alloc : bool) : string :=
  ((if host_alloc then "H__" else "D__") +:+ name)%string.

Record world := { memory_ : heap; buffer_storage_ : gmap string ResizeableBuffer }.

(** ** BufferWrapper *)

Record BufferWrapper := {
  name_ : string; bw_size : Z; is_const : bool;
  last_access_ : cudaMemoryType; buffers_ : cudaMemoryType -> option Z
}.

Definition set_buffer (w : BufferWrapper) (t : cudaMemoryType) (p : Z) : BufferWrapper :=
  {| name_ := name_ w; bw_size := bw_size w; is_const := is_const w; last_access_ := last_access_ w;
     buffers_ := fun u => if decide (u = t) then Some p else buffers_ w u |}.
Definition set_last (w : BufferWrapper) (t : cudaMemoryType) : BufferWrapper :=
  {| name_ := name_ w; bw_size := bw_size w; is_const := is_const w; last_access_ := t; buffers_ := buffers_ w |}.

(** The constructor; [buffer_type] is what [cudaPointerGetAttributes] says of the
    buffer ([Unregistered] when it fails). *)
Definition wrap (ctx_valid is_const : bool) (name : string) (buffer size : Z) (buffer_type : cudaMemoryType)
  : outcome BufferWrapper :=
  check! ctx_valid as "Invalid context" in
  check! negb (buffer =? 0) as "Invalid buffer" in
  Ok {| name_ := name; bw_size := size; is_const := is_const; last_access_ := buffer_type;
        buffers_ := fun u => if decide (u = buffer_type) then Some buffer else None |}.

(** [get_buffer(mem_type)]: 0 is [nullptr]. *)
Definition bw_get_buffer (w : BufferWrapper) (t : cudaMemoryType) : Z := default 0 (buffers_ w t).

Section Operations.
Context `{Allocator}.

(** [~ResizeableBuffer]. *)
Definition free_buffer (b : ResizeableBuffer) (m : heap) : outcome heap :=
  if buffer_ b =? 0 then Ok m
  else match m !! buffer_ b with
       | None => Undef "free of a dead allocation"
       | Some _ => Ok (delete (buffer_ b) m)
       end.

(** [get_ptr(buffer_size)]: the old allocation is freed before the new one is made. *)
Definition get_ptr (n : Z) (b : ResizeableBuffer) (m : heap) : outcome Z * (ResizeableBuffer * heap) :=
  if size_ b <? n then
    match free_buffer b m with
    | Ok m =>
        match allocate (host_alloc_ b) m n with
        | None =>
            (Throw "allocation failed",
             ({| host_alloc_ := host_alloc_ b; buffer_ := on_failure (buffer_ b); size_ := size_ b |}, m))
        | Some p =>
            (Ok p, ({| host_alloc_ := host_alloc_ b; buffer_ := p; size_ := n |}, <[p := fresh n]> m))
        end
    | Throw e => (Throw e, (b, m))
    | Undef e => (Undef e, (b, m))
    end
  else (Ok (buffer_ b), (b, m)).

(** [get_buffer(name, size, host_alloc)]. *)
Definition ctx_get_buffer (name : string) (n : Z) (host_alloc : bool) (s : world) : outcome Z * world :=
  let key := internal_name name host_alloc in
  let b := default (new_buffer host_alloc) (buffer_storage_ s !! key) in
  let r := get_ptr n b (memory_ s) in
  (r.1, {| memory_ := r.2.2; buffer_storage_ := <[key := r.2.1]> (buffer_storage_ s) |}).

(** [is_owned(ptr, name, host_alloc)]. *)
Definition is_owned (ptr : Z) (name : string) (host_alloc : bool) (s : world) : bool :=
  match buffer_storage_ s !! internal_name name host_alloc with
  | None => false
  | Some b => match (get_ptr 0 b (memory_ s)).1 with Ok p => p =? ptr | _ => false end
  end.

(** The second half of [access_buffer]: copy the contents and move the access. *)
Definition copy_and_mark (t : cudaMemoryType) (copy_content is_new : bool) (w : BufferWrapper) (s : world)
  : outcome Z * (BufferWrapper * world) :=
  match buffers_ w t with
  | None => (Throw "std::out_of_range", (w, s))
  | Some dst =>
      if copy_content && (negb (is_const w) || is_new) then
        match buffers_ w (last_access_ w) with
        | None => (Throw "std::out_of_range", (w, s))
        | Some src =>
            if src =? dst then (Ok dst, (set_last w t, s))
            else match copy_bytes dst src (bw_size w) (memory_ s) with
                 | Ok m => (Ok dst, (set_last w t, {| memory_ := m; buffer_storage_ := buffer_storage_ s |}))
                 | Throw e => (Throw e, (w, s))
                 | Undef e => (Undef e, (w, s))
                 end
        end
      else (Ok dst, (set_last w t, s))
  end.

(** [access_buffer] for every type but [cudaMemoryTypeUnregistered]. *)
Definition access_direct (t : cudaMemoryType) (copy_content : bool) (w : BufferWrapper) (s : world)
  : outcome Z * (BufferWrapper * world) :=
  match buffers_ w t with
  | Some _ => copy_and_mark t copy_content false w s
  | None =>
      if is_const w && negb copy_content then (Throw "Const wrapper must access with copy_content", (w, s))
      else
        match t with
        | Host | Device =>
            let r := ctx_get_buffer (name_ w) (bw_size w) (bool_decide (t = Host)) s in
            match r.1 with
            | Ok p =>
                let w := set_buffer w t p in
                if p =? 0 then (Throw "Failed to allocated temporary buffer", (w, r.2))
                else copy_and_mark t copy_content true w r.2
            | Throw e => (Throw e, (w, r.2))
            | Undef e => (Undef e, (w, r.2))
            end
        | Managed => (Throw "Buffer wrapper cannot allocate managed buffers", (w, s))
        | Unregistered => (Throw "Invalid cudaMemoryType", (w, s))
        end
  end.

(** [access_buffer(mem_type, copy_content, stream)]: an unregistered buffer that does
    not exist yet is the host buffer. *)
Definition access_buffer (t : cudaMemoryType) (copy_content : bool) (w : BufferWrapper) (s : world)
  : outcome Z * (BufferWrapper * world) :=
  match t, buffers_ w t with
  | Unregistered, None =>
      if is_const w && negb copy_content then (Throw "Const wrapper must access with copy_content", (w, s))
      else
        let r := access_direct Host copy_content w s in
        match r.1 with
        | Ok p => copy_and_mark Unregistered copy_content true (set_buffer r.2.1 Unregistered p) r.2.2
        | Throw e => (Throw e, r.2)
        | Undef e => (Undef e, r.2)
        end
  | _, _ => access_direct t copy_content w s
  end.
End Operations.

(** ** Coherence of the copies *)

(** [p] addresses a live allocation of at least [n] bytes; the first [n] bytes. *)
Definition live (m : heap) (p n : Z) : Prop := exists bs, m !! p = Some bs /\ n <= Z.of_nat (length bs).
Definition contents (m : heap) (p n : Z) : list Z := take (Z.to_nat n) (default [] (m !! p)).

(** The logical contents of a wrapper: those of the copy accessed last. *)
Definition logical (w : BufferWrapper) (m : heap) : list Z :=
  contents m (bw_get_buffer w (last_access_ w)) (bw_size w).

(** Every copy is live; the copies of a const wrapper agree (except [skip]). *)
Definition copies_ok (skip : cudaMemoryType -> Prop) (w : BufferWrapper) (m : heap) : Prop :=
  0 < bw_size w /\ is_Some (buffers_ w (last_access_ w)) /\
  forall t p, buffers_ w t = Some p -> p <> 0 /\ live m p (bw_size w) /\
    (is_const w = true -> ~ skip t -> contents m p (bw_size w) = logical w m).
Abbreviation wrapper_ok := (copies_ok (fun _ => False)).

(** A scratch buffer of the context: empty, or live with its recorded size. *)
Definition buffer_ok (b : ResizeableBuffer) (m : heap) : Prop :=
  (buffer_ b = 0 /\ size_ b = 0) \/ (buffer_ b <> 0 /\ 0 <= size_ b /\ live m (buffer_ b) (size_ b)).

(** The scratch buffers a wrapper can ask for: sound, distinct, and not one of its
    copies when a request of the wrapper would replace them. *)
Definition storage_ok (w : BufferWrapper) (s : world) : Prop :=
  (forall host b, buffer_storage_ s !! internal_name (name_ w) host = Some b ->
     buffer_ok b (memory_ s) /\ host_alloc_ b = host /\
     (size_ b < bw_size w -> buffer_ b <> 0 -> forall t, buffers_ w t <> Some (buffer_ b))) /\
  (forall b b', buffer_storage_ s !! internal_name (name_ w) true = Some b ->
     buffer_storage_ s !! internal_name (name_ w) false = Some b' ->
     buffer_ b <> 0 -> buffer_ b <> buffer_ b').

Lemma internal_name_inj name : internal_name name true <> internal_name name false.
Proof. discriminate. Qed.

Lemma contents_take m p n bs : m !! p = Some bs -> contents m p n = take (Z.to_nat n) bs.
Proof. intros E. unfold contents. by rewrite E. Qed.

Lemma copy_bytes_spec m dst src n :
  0 <= n -> live m src n -> live m dst n -> exists m', copy_bytes dst src n m = Ok m' /\
    (forall q, q <> dst -> m' !! q = m !! q) /\ contents m' dst n = contents m src n /\
    (forall q k, live m q k -> live m' q k).
Proof.
  intros Hn (sb & Es & Hs) (db & Ed & Hd). unfold copy_bytes. rewrite Es, Ed.
  rewrite !(proj2 (Z.leb_le _ _)) by lia. simpl. eexists. split; [done|]. split; [|split].
  - intros q Hq. by rewrite lookup_insert_ne.
  - rewrite (contents_take _ _ _ _ Es). unfold contents. rewrite lookup_insert_eq. simpl.
    rewrite take_app_le by (rewrite length_take; lia). rewrite take_take. f_equal. lia.
  - intros q k (qb & Eq & Hk). destruct (decide (q = dst)) as [->|].
    + rewrite Ed in Eq. injection Eq as ->. eexists. rewrite lookup_insert_eq. split; [done|].
      rewrite length_app, length_take, length_drop. lia.
    + exists qb. by rewrite lookup_insert_ne.
Qed.

(** The second half of [access_buffer] on a target that exists. *)
Lemma copy_and_mark_spec t copy_content is_new w s dst :
  buffers_ w t = Some dst -> copies_ok (fun u => u = t /\ is_new = true) w (memory_ s) ->
  (is_new = true -> is_const w = true -> copy_content = true) ->
  exists m', copy_and_mark t copy_content is_new w s =
      (Ok dst, (set_last w t, {| memory_ := m'; buffer_storage_ := buffer_storage_ s |})) /\
    wrapper_ok (set_last w t) m' /\
    (copy_content = true -> logical (set_last w t) m' = logical w (memory_ s)) /\
    (forall q, q <> dst -> m' !! q = memory_ s !! q) /\ (forall q k, live (memory_ s) q k -> live m' q k).
Proof.
  intros Et (Hn & (src & Esrc) & Hok) Hc. unfold copy_and_mark. rewrite Et, Esrc.
  assert (El : logical w (memory_ s) = contents (memory_ s) src (bw_size w)).
  { unfold logical, bw_get_buffer. by rewrite Esrc. }
  assert (El' : forall m, logical (set_last w t) m = contents m dst (bw_size w)).
  { intros m. unfold logical, bw_get_buffer; simpl. by rewrite Et. }
  assert (Hskip : forall u, is_const w = true -> copy_content && (negb (is_const w) || is_new) = false ->
                    ~ (u = t /\ is_new = true)).
  { intros u Hcst Hf [-> Hnew]. rewrite Hcst, (Hc Hnew Hcst), Hnew in Hf. done. }
  assert (Hsame : (is_const w = true -> contents (memory_ s) dst (bw_size w) = logical w (memory_ s)) ->
    wrapper_ok (set_last w t) (memory_ s)).
  { intros Hd. split; [done|]. split; [simpl; by rewrite Et|]. intros u p Eu. simpl in Eu.
    destruct (Hok u p Eu) as (Hp & Hl & Hcc). split; [done|]. split; [done|]. simpl. intros Hcst _.
    rewrite El', (Hd Hcst). destruct (decide (u = t)) as [->|Hu]; [|apply Hcc; [done|tauto]].
    rewrite Et in Eu. injection Eu as <-. by apply Hd. }
  destruct (copy_content && _) eqn:Hcopy.
  - apply andb_true_iff in Hcopy as [-> Hcopy]. destruct (Z.eqb_spec src dst) as [->|Hne].
    + exists (memory_ s). split; [by destruct s|]. split; [apply Hsame; by rewrite El|].
      split; [by rewrite El', El|]. split; [done|done].
    + destruct (Hok t dst Et) as (Hd0 & Hdl & _). destruct (Hok _ src Esrc) as (_ & Hsl & _).
      destruct (copy_bytes_spec (memory_ s) dst src (bw_size w)) as (m' & -> & Hfr & Hcp & Hlv); [lia|done|done|].
      exists m'. split; [done|]. split.
      * split; [done|]. split; [simpl; by rewrite Et|]. intros u p Eu. simpl in Eu.
        destruct (Hok u p Eu) as (Hp & Hl & Hcc). split; [done|]. split; [by apply Hlv|].
        simpl. intros Hcst _. rewrite El', Hcp. destruct (decide (p = dst)) as [->|Hpd]; [done|].
        unfold contents at 1. rewrite (Hfr p Hpd). fold (contents (memory_ s) p (bw_size w)).
        rewrite Hcc, El; [done|done|]. intros [-> _]. congruence.
      * split; [by rewrite El', Hcp, El|]. split; [done|done].
  - exists (memory_ s). split; [by destruct s|]. split.
    + apply Hsame. intros Hcst. destruct (Hok t dst Et) as (_ & _ & Hcc). apply Hcc; [done|]. by apply Hskip.
    + split; [|split; done]. intros ->. rewrite El'. simpl in Hcopy.
      destruct (is_const w) eqn:Hcst; [|done]. destruct (Hok t dst Et) as (_ & _ & Hcc).
      apply Hcc; [done|]. by apply Hskip.
Qed.

Section Coherence.
Context `{A : Allocator}.

(** A request to a sound scratch buffer that can be allocated. *)
Lemma get_ptr_spec n b m :
  0 < n -> buffer_ok b m -> (forall m', allocate (host_alloc_ b) m' n <> None) ->
  exists p b' m', get_ptr n b m = (Ok p, (b', m')) /\ p <> 0 /\ buffer_ b' = p /\ n <= size_ b' /\
    host_alloc_ b' = host_alloc_ b /\ live m' p (size_ b') /\
    (forall q, (size_ b < n -> q <> buffer_ b) -> is_Some (m !! q) -> m' !! q = m !! q) /\
    (p = buffer_ b \/ m !! p = None).
Proof.
  intros Hn Hb Ha. unfold get_ptr. destruct (Z.ltb_spec (size_ b) n) as [Hlt|Hge].
  - assert (exists m1, free_buffer b m = Ok m1 /\ forall q, q <> buffer_ b -> m1 !! q = m !! q) as (m1 & -> & Hm1).
    { unfold free_buffer. destruct (Z.eqb_spec (buffer_ b) 0) as [E0|E0]; [by exists m|].
      destruct Hb as [[? _]|(_ & _ & (bs & -> & _))]; [done|]. exists (delete (buffer_ b) m).
      split; [done|]. intros q Hq. by rewrite lookup_delete_ne. }
    specialize (Ha m1). destruct (allocate (host_alloc_ b) m1 n) as [p|] eqn:Ep; [|done].
    destruct (allocate_fresh _ _ _ _ Ep) as [Hp0 Hpn].
    eexists p, _, _. split; [done|]. split; [done|]. split; [done|]. split; [simpl; lia|]. split; [done|].
    split; [|split].
    + exists (fresh n). rewrite lookup_insert_eq. split; [done|]. rewrite fresh_length. simpl. lia.
    + intros q Hq [x Hx]. specialize (Hq Hlt). destruct (decide (q = p)) as [->|Hqp].
      * rewrite (Hm1 p Hq) in Hpn. congruence.
      * rewrite lookup_insert_ne by done. by apply Hm1.
    + destruct (decide (p = buffer_ b)); [by left|right]. by rewrite <- (Hm1 p).
  - destruct Hb as [[_ ?]|(H0 & _ & Hl)]; [lia|].
    exists (buffer_ b), b, m. split_and!; try done. by left.
Qed.

(** The two scratch buffers of a name after one of them is replaced. *)
Lemma storage_insert_cases name host (b' b1 : ResizeableBuffer) (st : gmap string ResizeableBuffer) h :
  <[internal_name name host := b']> st !! internal_name name h = Some b1 ->
  (h = host /\ b1 = b') \/ (h = negb host /\ st !! internal_name name (negb host) = Some b1).
Proof.
  intros E. destruct (decide (h = host)) as [->|Hh].
  - rewrite lookup_insert_eq in E. left. split; [done|congruence].
  - right. assert (h = negb host) as -> by (by destruct h, host). split; [done|].
    rewrite lookup_insert_ne in E; [done|].
    destruct host; simpl; [apply internal_name_inj|apply not_eq_sym, internal_name_inj].
Qed.

Lemma storage_distinct w s host b1 :
  storage_ok w s -> buffer_storage_ s !! internal_name (name_ w) (negb host) = Some b1 ->
  buffer_ b1 = 0 \/
  buffer_ b1 <> buffer_ (default (new_buffer host) (buffer_storage_ s !! internal_name (name_ w) host)).
Proof.
  intros [_ Hdj] E1. destruct (decide (buffer_ b1 = 0)) as [|H10]; [by left|right].
  destruct (buffer_storage_ s !! internal_name (name_ w) host) as [b0|] eqn:Eb0; [|done].
  simpl in *. intros Heq. destruct host; simpl in *.
  - apply (Hdj b0 b1 Eb0 E1); congruence.
  - apply (Hdj b1 b0 E1 Eb0); congruence.
Qed.

(** Asking the context for the scratch buffer of a wrapper keeps its copies. *)
Lemma ctx_get_buffer_spec w s host :
  0 < bw_size w -> storage_ok w s -> (forall m', allocate host m' (bw_size w) <> None) ->
  (forall t p, buffers_ w t = Some p -> p <> 0 /\ live (memory_ s) p (bw_size w)) ->
  exists p s', ctx_get_buffer (name_ w) (bw_size w) host s = (Ok p, s') /\ p <> 0 /\
    live (memory_ s') p (bw_size w) /\
    (forall t, storage_ok (set_buffer w t p) s') /\
    (forall q, q <> 0 -> (forall b h, buffer_storage_ s !! internal_name (name_ w) h = Some b -> buffer_ b <> q) ->
       is_Some (memory_ s !! q) -> memory_ s' !! q = memory_ s !! q) /\
    (forall t q, buffers_ w t = Some q -> memory_ s' !! q = memory_ s !! q).
Proof.
  intros Hn Hsok Ha Hcp. pose proof Hsok as [Hst _]. unfold ctx_get_buffer.
  set (key := internal_name (name_ w) host). set (b := default (new_buffer host) (buffer_storage_ s !! key)).
  assert (Hb : buffer_ok b (memory_ s) /\ host_alloc_ b = host /\
    (size_ b < bw_size w -> buffer_ b <> 0 -> forall t, buffers_ w t <> Some (buffer_ b))).
  { unfold b. destruct (buffer_storage_ s !! key) as [b0|] eqn:Eb; simpl; [by apply Hst|].
    split; [by left|]. split; [done|]. intros _ H0. by destruct H0. }
  destruct Hb as (Hbok & Hbh & Hbw).
  destruct (get_ptr_spec (bw_size w) b (memory_ s) Hn Hbok) as (p & b' & m' & -> & Hp0 & Ebp & Hsz & Eh & Hl & Hfr & Hpn).
  { by rewrite Hbh. }
  assert (Hfree : forall q, (buffer_ b <> q \/ bw_size w <= size_ b) -> is_Some (memory_ s !! q) ->
    m' !! q = memory_ s !! q).
  { intros q Hq Hs. apply Hfr; [|done]. intros Hlt ->. destruct Hq; [done|lia]. }
  eexists p, _. split; [done|]. split; [done|]. simpl.
  assert (Hmine : forall t q, buffers_ w t = Some q -> m' !! q = memory_ s !! q).
  { intros t q Eq. destruct (Hcp t q Eq) as (Hq0 & (bs & Ebs & _)). apply Hfree; [|by eexists].
    destruct (Z.le_gt_cases (bw_size w) (size_ b)) as [|Hlt]; [by right|]. left. intros Heq.
    apply (Hbw Hlt ltac:(congruence) t). congruence. }
  split; [destruct Hl as (bs & Ebs & Hbs); exists bs; split; [done|lia]|].
  assert (Hother : forall b1, buffer_storage_ s !! internal_name (name_ w) (negb host) = Some b1 ->
    buffer_ok b1 m' /\ host_alloc_ b1 = negb host /\ buffer_ b1 <> p /\
    (size_ b1 < bw_size w -> buffer_ b1 <> 0 -> forall t, buffers_ w t <> Some (buffer_ b1))).
  { intros b1 E1. destruct (Hst _ _ E1) as (Hok1 & Hh1 & Hw1).
    pose proof (storage_distinct w s host b1 Hsok E1) as Hdis. fold key b in Hdis.
    destruct Hok1 as [[Hz1 Hs1]|(Hz1 & Hs1 & (bs & Ebs & Hbs))].
    { split_and!; try done; [by left|congruence]. }
    destruct Hdis as [?|Hdis]; [done|].
    split; [right; split; [done|]; split; [done|]; exists bs; split; [|done]; rewrite Hfree; [done|by left|by eexists]|].
    split; [done|]. split; [|done].
    intros Heq. destruct Hpn as [Hpn|Hpn]; congruence. }
  split; [|split; [|exact Hmine]].
  - intros t. split.
    + simpl. intros h b1 [[-> ->]|[-> E1]]%storage_insert_cases.
      * split; [right; split; [congruence|]; split; [lia|]; by rewrite Ebp|].
        split; [congruence|]. lia.
      * destruct (Hother b1 E1) as (H1 & H2 & H3 & H4). split; [done|]. split; [done|].
        intros Hs H0 u. simpl. destruct (decide (u = t)); [congruence|by apply H4].
    + simpl. intros b1 b2 [[E1 ->]|[E1 F1]]%storage_insert_cases [[E2 ->]|[E2 F2]]%storage_insert_cases Hz.
      * congruence.
      * rewrite Ebp. apply not_eq_sym. by apply (Hother b2 F2).
      * rewrite Ebp. by apply (Hother b1 F1).
      * destruct host; simpl in *; congruence.
  - intros q Hq0 Hq Hs. apply Hfree; [|done]. left. unfold b.
    destruct (buffer_storage_ s !! key) as [b0|] eqn:Eb; simpl; [by eapply Hq|done].
Qed.

(** The copy a new access works on, before the contents are moved. *)
Lemma copies_ok_new w s s' t p :
  wrapper_ok w (memory_ s) -> buffers_ w t = None -> p <> 0 -> live (memory_ s') p (bw_size w) ->
  (forall u q, buffers_ w u = Some q -> memory_ s' !! q = memory_ s !! q) ->
  copies_ok (fun u => u = t /\ true = true) (set_buffer w t p) (memory_ s') /\
  logical (set_buffer w t p) (memory_ s') = logical w (memory_ s).
Proof.
  intros (Hn & [src Esrc] & Hok) Et Hp Hl Hm.
  assert (Hlt : last_access_ w <> t) by congruence.
  assert (El : logical (set_buffer w t p) (memory_ s') = logical w (memory_ s)).
  { unfold logical, bw_get_buffer; simpl. rewrite decide_False by done. rewrite Esrc. simpl. unfold contents.
    by rewrite (Hm _ _ Esrc). }
  split; [|done]. split; [done|]. split; [simpl; rewrite decide_False by done; by rewrite Esrc|].
  intros u q Eu. simpl in Eu. destruct (decide (u = t)) as [->|Hu].
  - injection Eu as <-. split; [done|]. split; [done|]. intros _ []. by split.
  - destruct (Hok u q Eu) as (Hq & (bs & Ebs & Hbs) & Hc). split; [done|]. split.
    + exists bs. split; [|done]. by rewrite (Hm u q Eu).
    + intros Hcst _. rewrite El. unfold contents. rewrite (Hm u q Eu). apply Hc; [done|tauto].
Qed.

(** What a successful access promises. *)
Definition accessed (t : cudaMemoryType) (copy_content : bool) (w : BufferWrapper) (s : world)
    (r : outcome Z * (BufferWrapper * world)) : Prop :=
  exists p w' s', r = (Ok p, (w', s')) /\ wrapper_ok w' (memory_ s') /\ storage_ok w' s' /\
    buffers_ w' t = Some p /\ last_access_ w' = t /\
    (name_ w' = name_ w /\ bw_size w' = bw_size w /\ is_const w' = is_const w) /\
    (copy_content = true -> logical w' (memory_ s') = logical w (memory_ s)) /\
    (forall u q, buffers_ w u = Some q -> buffers_ w' u = Some q) /\
    (forall u, buffers_ w u = None -> buffers_ w' u = None \/ u = t \/ (t = Unregistered /\ u = Host)) /\
    (forall q, q <> 0 -> (forall b h, buffer_storage_ s !! internal_name (name_ w) h = Some b -> buffer_ b <> q) ->
       (forall u, buffers_ w' u <> Some q) -> is_Some (memory_ s !! q) -> memory_ s' !! q = memory_ s !! q).

Lemma storage_ok_last w s t m' :
  storage_ok w s -> (forall q k, live (memory_ s) q k -> live m' q k) ->
  storage_ok (set_last w t) {| memory_ := m'; buffer_storage_ := buffer_storage_ s |}.
Proof.
  intros [H1 H2] Hl. split; [|done]. simpl. intros h b Eb. destruct (H1 h b Eb) as (Hb & ? & ?).
  split; [|done]. destruct Hb as [|(? & ? & ?)]; [by left|right]. split_and!; [done|done|by apply Hl].
Qed.

Lemma storage_ok_alias w s t u p :
  buffers_ w u = Some p -> storage_ok w s -> storage_ok (set_buffer w t p) s.
Proof.
  intros Eu [H1 H2]. split; [|done]. simpl. intros h b Eb. destruct (H1 h b Eb) as (? & ? & Hw).
  split; [done|]. split; [done|]. intros Hs Hz v. destruct (decide (v = t)); [|by apply Hw].
  intros [= Ep]. apply (Hw Hs Hz u). congruence.
Qed.

Lemma copy_and_mark_accessed t copy_content is_new w s dst :
  buffers_ w t = Some dst -> copies_ok (fun u => u = t /\ is_new = true) w (memory_ s) -> storage_ok w s ->
  (is_new = true -> is_const w = true -> copy_content = true) ->
  accessed t copy_content w s (copy_and_mark t copy_content is_new w s) /\
  (forall q, q <> dst -> memory_ (copy_and_mark t copy_content is_new w s).2.2 !! q = memory_ s !! q).
Proof.
  intros Et Hok Hst Hc.
  destruct (copy_and_mark_spec t copy_content is_new w s dst Et Hok Hc) as (m' & E & Hw & Hlog & Hfr & Hlv).
  rewrite E. split; [|done].
  eexists dst, _, _. split; [done|]. split; [done|]. split; [by apply storage_ok_last|].
  split; [done|]. split; [done|]. split; [done|]. split; [done|]. split; [done|]. split; [by left|].
  intros q _ _ Hq _. apply Hfr. intros ->. by apply (Hq t).
Qed.

Lemma access_direct_accessed t copy_content w s :
  wrapper_ok w (memory_ s) -> storage_ok w s ->
  (forall host m, allocate host m (bw_size w) <> None) ->
  (is_const w = true -> copy_content = true) ->
  (is_Some (buffers_ w t) \/ t = Host \/ t = Device) ->
  accessed t copy_content w s (access_direct t copy_content w s).
Proof.
  intros Hw Hst Ha Hc Ht. unfold access_direct. destruct (buffers_ w t) as [dst|] eqn:Et.
  { apply (copy_and_mark_accessed _ _ _ _ _ dst); [done| |done|done]. destruct Hw as (? & ? & Hok). split; [done|].
    split; [done|]. intros u p Eu. destruct (Hok u p Eu) as (? & ? & Hcc). split; [done|]. split; [done|].
    intros Hcst _. apply Hcc; [done|tauto]. }
  replace (is_const w && negb copy_content) with false
    by (destruct (is_const w); [by rewrite Hc|done]).
  assert (Hlive : forall u p, buffers_ w u = Some p -> p <> 0 /\ live (memory_ s) p (bw_size w)).
  { intros u p Eu. destruct Hw as (_ & _ & Hok). destruct (Hok u p Eu) as (? & ? & _). done. }
  destruct (ctx_get_buffer_spec w s (bool_decide (t = Host)) (proj1 Hw) Hst (Ha _) Hlive)
    as (p & s1 & E1 & Hp0 & Hpl & Hst1 & Hfr1 & Hm1).
  destruct (copies_ok_new w s s1 t p Hw Et Hp0 Hpl Hm1) as [Hok1 Hlog1].
  destruct (copy_and_mark_accessed t copy_content true (set_buffer w t p) s1 p) as
    [(p' & w' & s' & E & Hw' & Hst' & Hb' & Hla & Hid & Hlog & Hmono & Hnone & _) Hfr];
    [simpl; by rewrite decide_True|done|done|done|].
  assert (Hgoal : accessed t copy_content w s (copy_and_mark t copy_content true (set_buffer w t p) s1)).
  { rewrite E in Hfr. exists p', w', s'. split; [exact E|]. split; [done|]. split; [done|]. split; [done|]. split; [done|].
    split; [exact Hid|]. split; [intros Hcp; by rewrite (Hlog Hcp), Hlog1|]. split.
    - intros u q Eu. apply Hmono. simpl. rewrite decide_False; [done|congruence].
    - split.
      { intros u Eu. destruct (decide (u = t)) as [->|Hu]; [by right; left|].
        destruct (Hnone u) as [H1|H1]; [simpl; by rewrite decide_False|by left|by right]. }
      intros q Hq0 Hqs Hqw Hq. rewrite <- (Hfr1 q Hq0 Hqs Hq). apply Hfr.
      intros ->. apply (Hqw t), Hmono. simpl. by rewrite decide_True. }
  destruct Ht as [[? ?]|[-> | ->]]; [congruence| |].
  - rewrite bool_decide_true in E1 by done. rewrite bool_decide_true by done. rewrite E1. simpl.
    rewrite (proj2 (Z.eqb_neq p 0)) by done. exact Hgoal.
  - rewrite bool_decide_false in E1 by done. rewrite bool_decide_false by done. rewrite E1. simpl.
    rewrite (proj2 (Z.eqb_neq p 0)) by done. exact Hgoal.
Qed.
End Coherence.

(** [BufferWrapper::access_buffer] on a wrapper whose copies are live, with an
    allocator that does not fail: for every memory type but managed memory (and for
    managed memory that was wrapped) it returns a live copy of that type, which
    becomes the one accessed last, keeps the copies it had and all other memory,
    and with [copy_content] the returned copy holds the logical contents of the
    wrapper, whatever the order of the accesses before. *)
Theorem access_buffer_coherent `{A : Allocator} (t : cudaMemoryType) (copy_content : bool) (w : BufferWrapper) (s : world) :
  wrapper_ok w (memory_ s) -> storage_ok w s ->
  (forall host m, allocate host m (bw_size w) <> None) ->
  (is_const w = true -> copy_content = true) ->
  (is_Some (buffers_ w t) \/ t <> Managed) ->
  accessed t copy_content w s (access_buffer t copy_content w s).
Proof.
  intros Hw Hst Ha Hc Ht. unfold access_buffer.
  assert (Hdirect : t <> Unregistered \/ is_Some (buffers_ w t) ->
    accessed t copy_content w s (access_direct t copy_content w s)).
  { intros Ht'. apply access_direct_accessed; try done. destruct t; tauto. }
  destruct t; try (apply Hdirect; by left). destruct (buffers_ w Unregistered) as [q|] eqn:Eu.
  { apply Hdirect. by right. }
  replace (is_const w && negb copy_content) with false
    by (destruct (is_const w); [by rewrite Hc|done]).
  destruct (access_direct_accessed Host copy_content w s) as
    (p & w1 & s1 & E1 & Hw1 & Hst1 & Hb1 & Hl1 & (En & Ez & Ec) & Hlog1 & Hmono1 & Hnone1 & Hfr1); try done; [tauto|].
  rewrite E1. simpl.
  assert (E2 : buffers_ w1 Unregistered = None) by (destruct (Hnone1 _ Eu) as [|[|[? _]]]; done).
  destruct Hw1 as (Hn1 & Hs1 & Hok1). destruct (Hok1 _ _ Hb1) as (Hp0 & Hpl & _).
  destruct (copies_ok_new w1 s1 s1 Unregistered p) as [Hok2 Hlog2]; [by split|done|done|done|done|].
  destruct (copy_and_mark_accessed Unregistered copy_content true (set_buffer w1 Unregistered p) s1 p) as
    [(p' & w' & s' & E & Hw' & Hst' & Hb' & Hla & (En' & Ez' & Ec') & Hlog & Hmono & Hnone & _) Hfr];
    [done|done|by eapply storage_ok_alias|simpl; intros _ Hcst; apply Hc; congruence|].
  rewrite E in Hfr. exists p', w', s'. split; [exact E|]. split; [done|]. split; [done|]. split; [done|]. split; [done|].
  simpl in *. split; [split_and!; congruence|].
  split; [intros Hcp; by rewrite (Hlog Hcp), Hlog2, (Hlog1 Hcp)|]. split; [|split].
  - intros u q Eq. apply Hmono. simpl. rewrite decide_False by congruence. by apply Hmono1.
  - intros u E3. destruct (Hnone1 u E3) as [H1|[->|[? _]]]; [|by right; right|done].
    destruct (decide (u = Unregistered)) as [->|Hu]; [by right; left|].
    destruct (Hnone u) as [H2|H2]; [by rewrite decide_False|by left|by right].
  - intros q Hq0 Hqs Hqw Hq. rewrite Hfr.
    + apply Hfr1; [done|done| |done]. intros u E3. destruct (decide (u = Unregistered)) as [->|Hu]; [congruence|].
      apply (Hqw u), Hmono. by rewrite decide_False.
    + intros ->. apply (Hqw Unregistered), Hmono. by rewrite decide_True.
Qed.

(** A failed growth leaves a scratch buffer that looks intact: [get_ptr] frees the
    old allocation before it asks for the new one and keeps the old size, so after
    the exception every request up to the old size succeeds and returns a pointer
    that is null, to freed memory or the failure value of [mmap]; unless the allocator nulled it, the destructor
    frees it a second time. *)
Theorem resize_failure_dangling `{A : Allocator} (n k : Z) (b b' : ResizeableBuffer) (m m' : heap) (e : string) :
  buffer_ok b m -> buffer_ b <> 0 -> m !! MAP_FAILED = None -> get_ptr n b m = (Throw e, (b', m')) -> 0 <= k <= size_ b ->
  exists p, get_ptr k b' m' = (Ok p, (b', m')) /\ (p = 0 \/ m' !! p = None) /\
    (p <> 0 -> exists why, free_buffer b' m' = Undef why).
Proof.
  intros Hb Hb0 HM E Hk. unfold get_ptr in E. destruct (Z.ltb_spec (size_ b) n) as [Hn|]; [|done].
  unfold free_buffer in E. rewrite (proj2 (Z.eqb_neq _ 0)) in E by done.
  destruct Hb as [[? _]|(_ & _ & (bs & Ebs & _))]; [done|]. rewrite Ebs in E.
  destruct (allocate _ _ n) as [p|]; [done|]. injection E as _ <- <-.
  exists (on_failure (buffer_ b)). unfold get_ptr, free_buffer; simpl.
  rewrite (proj2 (Z.ltb_ge _ _)) by lia. split; [done|].
  destruct (on_failure_null (buffer_ b)) as [-> | [-> | ->]].
  - rewrite lookup_delete_eq, (proj2 (Z.eqb_neq _ 0)) by done. split; [by right|]. by eexists.
  - split; [by left|]. done.
  - assert (E : delete (buffer_ b) m !! MAP_FAILED = None) by (apply lookup_delete_None; by right).
    rewrite E. split; [by right|]. by eexists.
Qed.

(** ** Examples *)

Definition next_address (m : heap) : Z := base.fresh (C := gset Z) (dom m ∪ {[0]}).

(** An allocator with room for [limit] bytes per allocation. *)
#[refine] Instance limited (limit : Z) : Allocator := {|
  allocate _ m n := if n <=? limit then Some (next_address m) else None;
  on_failure p := p; fresh n := repeat 0 (Z.to_nat n) |}.
Proof.
  - intros _ m n p E. destruct (n <=? limit); [|done]. injection E as <-.
    pose proof (is_fresh (C := gset Z) (dom m ∪ {[0]})) as Hf. fold (next_address m) in Hf.
    split; [set_solver|]. apply not_elem_of_dom. set_solver.
  - intros n. apply repeat_length.
  - intros p. by left.
Defined.

(** An allocator that never fails. *)
#[refine] Instance unlimited : Allocator := {|
  allocate _ m n := Some (next_address m); on_failure p := p; fresh n := repeat 0 (Z.to_nat n) |}.
Proof.
  - intros host m n p E. assert (Hn : n <=? n = true) by (apply Z.leb_refl).
    apply (allocate_fresh (Allocator := limited n) host m n). simpl. by rewrite Hn.
  - intros n. apply repeat_length.
  - intros p. by left.
Defined.

Definition example_wrapper : BufferWrapper :=
  {| name_ := "keys"; bw_size := 2; is_const := false; last_access_ := Device;
     buffers_ := fun t => if decide (t = Device) then Some 100 else None |}.
Definition example_world : world := {| memory_ := {[ 100 := [7; 8] ]}; buffer_storage_ := ∅ |}.

Lemma access_buffer_coherent_witness :
  accessed Unregistered true example_wrapper example_world
    (access_buffer (H := limited 4096) Unregistered true example_wrapper example_world) /\
  exists p s, access_buffer (H := limited 4096) Unregistered true example_wrapper example_world = (Ok p, s) /\
    memory_ s.2 !! p = Some [7; 8].
Proof.
  split; [|eexists _, _; vm_compute; split; reflexivity].
  apply (access_buffer_coherent (A := limited 4096) Unregistered true example_wrapper example_world).
  - split; [reflexivity|]. split; [by eexists|]. intros t p E. destruct t; try discriminate E. injection E as <-.
    split; [discriminate|]. split; [exists [7; 8]; split; [reflexivity|simpl; lia]|]. intros E; discriminate E.
  - split; intros *; intros E; discriminate E.
  - intros host m E. discriminate E.
  - intros E; discriminate E.
  - right. discriminate.
Defined.

Lemma resize_failure_dangling_witness :
  exists p, get_ptr (H := limited 4) 2 {| host_alloc_ := true; buffer_ := 5; size_ := 3 |} ∅ =
      (Ok p, ({| host_alloc_ := true; buffer_ := 5; size_ := 3 |}, ∅)) /\ (p = 0 \/ (∅ : heap) !! p = None).
Proof.
  destruct (resize_failure_dangling (A := limited 4) 8 2 {| host_alloc_ := true; buffer_ := 5; size_ := 3 |}
    {| host_alloc_ := true; buffer_ := 5; size_ := 3 |} {[ 5 := [1; 2; 3] ]} ∅ "allocation failed") as (p & H1 & H2 & _).
  - right. split; [discriminate|]. split; [simpl; lia|]. exists [1; 2; 3]. split; [reflexivity|simpl; lia].
  - discriminate.
  - vm_compute. reflexivity.
  - vm_compute. reflexivity.
  - simpl; lia.
  - exists p. split; [exact H1|exact H2].
Defined.
