(* ===== verification/DefaultAllocator.v ===== *)
(** * The default allocator: [src/default_allocator.cpp], [include/default_allocator.hpp]

    Every allocation of the library goes through [DefaultAllocator]: device memory on a chosen
    device, stream-ordered device memory from the pool of the device, and host memory, which is
    pinned, mapped from huge pages, or plain memory when there is no driver. The CUDA runtime and
    the system are a class of operations ([Cuda]) with their documented effect on the live blocks
    ([CudaLaws]); a sequence of requests refines an abstract heap. *)
From Stdlib Require Import Ascii.
From S2P Require Import Prelude BitOps Buffers.

(** ** The CUDA runtime and the system *)

Abbreviation cudaError := Z (only parsing).
Definition cudaSuccess : cudaError := 0.
Definition cudaErrorInvalidValue : cudaError := 1.
Definition cudaErrorMemoryAllocation : cudaError := 2.

(** The operations called. A call that produces a pointer takes the old value of the
    variable, so that what a failed call leaves there is its own choice. *)
Class Cuda := {
  machine : Type;
  driver_available : bool;
  cudaGetDevice : machine -> cudaError * Z;
  cudaSetDevice : Z -> machine -> cudaError * machine;
  cudaMalloc : Z -> Z * machine -> cudaError * (Z * machine);
  cudaFree : Z -> machine -> cudaError * machine;
  cudaMallocFromPoolAsync : Z -> Z -> Z -> Z * machine -> cudaError * (Z * machine);
  cudaFreeAsync : Z -> Z -> machine -> cudaError * machine;
  mem_pools_supported : Z -> machine -> cudaError * Z;
  cudaDeviceGetDefaultMemPool : Z -> machine -> cudaError * Z;
  cudaMemGetInfo : machine -> cudaError * (Z * Z);
  set_release_threshold : Z -> Z -> machine -> cudaError * machine;
  cudaMallocHost : Z -> Z * machine -> cudaError * (Z * machine);
  cudaFreeHost : Z -> machine -> cudaError * machine;
  cudaHostRegister : Z -> Z -> machine -> cudaError * machine;
  cudaHostUnregister : Z -> machine -> cudaError * machine;
  mmap : Z -> Z -> machine -> Z * machine;
  munmap : Z -> Z -> machine -> Z * machine;
  malloc : Z -> machine -> Z * machine;
  free : Z -> machine -> machine;
  (** The entries of the directory of huge pages with the number in their [free_hugepages];
      [None] for a directory or a file that cannot be read. *)
  hugepage_dir : machine -> option (list (string * option Z))
}.

(** ** Huge pages *)

(** [istringstream(s) >> n] for a [size_t]: optional white space and sign, then decimal digits;
    0 without a digit, the largest value when it does not fit. *)
Definition digit (c : Ascii.ascii) : option Z :=
  let n := Z.of_N (Ascii.N_of_ascii c) - 48 in if (0 <=? n) && (n <=? 9) then Some n else None.
Fixpoint read_digits (acc : Z) (s : string) : Z :=
  match s with
  | String.String c s => match digit c with Some d => read_digits (10 * acc + d) s | None => acc end
  | String.EmptyString => acc
  end.
Definition space_char (c : Ascii.ascii) : bool :=
  let n := Z.of_N (Ascii.N_of_ascii c) in (n =? 32) || ((9 <=? n) && (n <=? 13)).
Fixpoint skip_space (s : string) : string :=
  match s with String.String c r => if space_char c then skip_space r else s | String.EmptyString => s end.
Definition saturate (n : Z) : Z := Z.min n (2 ^ 64 - 1).
Definition read_size (s : string) : Z :=
  match skip_space s with
  | String.String "-"%char r => let n := read_digits 0 r in if n <? 2 ^ 64 then wrapu 64 (- n) else 2 ^ 64 - 1
  | String.String "+"%char r => saturate (read_digits 0 r)
  | r => saturate (read_digits 0 r)
  end.

(** The kilobytes in the name of an entry: what is between the first [-] and the first [kB]
    ([end - start] wraps when the latter comes first). *)
Definition page_size_kb (path_str : string) : option Z :=
  match String.index 0 "-" path_str, String.index 0 "kB" path_str with
  | Some start, Some stop =>
      let start := (start + 1)%nat in
      let count := if (start <=? stop)%nat then (stop - start)%nat else String.length path_str in
      Some (read_size (String.substring start count path_str))
  | _, _ => None
  end.

(** [ceil_div] on [size_t]. *)
Definition ceil_div_size (x n : Z) : outcome Z :=
  if n =? 0 then Undef "division by zero" else Ok (wrapu 64 (x + n - 1) / n).

(** One entry of the directory; [ndebug] tells a build without assertions. *)
Definition hugepage_step (ndebug : bool) (alloc_size largest_bits : Z) (entry : string * option Z) : outcome Z :=
  match page_size_kb entry.1 with
  | None => Ok largest_bits
  | Some kb =>
      if negb ndebug && negb (popcount kb =? 1) then Undef "std::abort"
      else
        let page_size := wrapu 64 (Z.shiftl kb 10) in
        let! needed_hugepages := ceil_div_size alloc_size page_size in
        let free_hugepages := default 0 entry.2 in
        if needed_hugepages <=? free_hugepages then Ok (Z.max largest_bits (countr_zero page_size)) else Ok largest_bits
  end.

Definition get_largest_hugepage_bits (ndebug : bool) (dir : option (list (string * option Z))) (alloc_size : Z) : outcome Z :=
  match dir with
  | None => Throw "std::filesystem::filesystem_error"
  | Some entries => ofoldl (hugepage_step ndebug alloc_size) entries 0
  end.

(** [round_up] on [size_t]. *)
Definition round_up (val base : Z) : Z := wrapu 64 (wrapu 64 (val + base - 1) / base * base).

(** ** The allocator *)

Section Allocator.
Context `{Cuda} (ndebug : bool) (host_alloc_threshold_ : Z).

Record allocator_state := { mem_pools_ : gmap Z Z; host_mmap_allocations_ : gmap Z Z; sys : machine }.

Definition on_sys {A} (f : machine -> A * machine) (s : allocator_state) : A * allocator_state :=
  let '(e, m) := f (sys s) in
  (e, {| mem_pools_ := mem_pools_ s; host_mmap_allocations_ := host_mmap_allocations_ s; sys := m |}).

(** A call on the pointer variable of the caller and the state. *)
Definition call : Type := Z * allocator_state -> cudaError * (Z * allocator_state).
Definition alloc_call (f : Z * machine -> cudaError * (Z * machine)) : call := fun ps =>
  let '(e, (p, m)) := f (ps.1, sys ps.2) in
  (e, (p, {| mem_pools_ := mem_pools_ ps.2; host_mmap_allocations_ := host_mmap_allocations_ ps.2; sys := m |})).
Definition free_call (f : Z -> machine -> cudaError * machine) : call := fun ps =>
  let '(e, s) := on_sys (f ps.1) ps.2 in (e, (ps.1, s)).

(** [cudaSetDevice] when the device has to change. *)
Definition swap_to (swap : bool) (device_id : Z) (s : allocator_state) : cudaError * allocator_state :=
  if swap then on_sys (cudaSetDevice device_id) s else (cudaSuccess, s).

(** The frame of the device functions: change to the device, run [body] (which is given that
    device), change back; the result of [body] is returned when changing back succeeds. *)
Definition with_device (device_id : Z) (body : Z -> call) : call := fun '(p, s) =>
  let '(e, curr_device) := cudaGetDevice (sys s) in
  if negb (e =? cudaSuccess) then (e, (p, s)) else
  let swap_device := (0 <=? device_id) && negb (device_id =? curr_device) in
  let '(e, s) := swap_to swap_device device_id s in
  if negb (e =? cudaSuccess) then (e, (p, s)) else
  let '(res, (p, s)) := body (if swap_device then device_id else curr_device) (p, s) in
  let '(e, s) := swap_to swap_device curr_device s in
  if negb (e =? cudaSuccess) then (e, (p, s)) else (res, (p, s)).

Definition device_allocate (sz device_id : Z) : call := with_device device_id (fun _ => alloc_call (cudaMalloc sz)).
Definition device_free (device_id : Z) : call := with_device device_id (fun _ => free_call cudaFree).

(** [getMemPool(device)]: asked once per device; 0 is the null pool. *)
Definition getMemPool (device : Z) (s : allocator_state) : Z * allocator_state :=
  match mem_pools_ s !! device with
  | Some pool => (pool, s)
  | None =>
      let with_pool pool m := {| mem_pools_ := <[device := pool]> (mem_pools_ s);
                                 host_mmap_allocations_ := host_mmap_allocations_ s; sys := m |} in
      let '(e, supported) := mem_pools_supported device (sys s) in
      let supported := if e =? cudaSuccess then supported else 0 in
      if supported =? 0 then (0, with_pool 0 (sys s)) else
      let '(e1, mem_pool) := cudaDeviceGetDefaultMemPool device (sys s) in
      if negb (e1 =? cudaSuccess) then (0, with_pool 0 (sys s)) else
      let '(e2, (_, total)) := cudaMemGetInfo (sys s) in
      if negb (e2 =? cudaSuccess) then (0, with_pool 0 (sys s)) else
      let '(e3, m) := set_release_threshold mem_pool total (sys s) in
      if e3 =? cudaSuccess then (mem_pool, with_pool mem_pool m) else (0, with_pool 0 m)
  end.

Definition device_allocate_async (sz stream device_id : Z) : call := with_device device_id (fun device '(p, s) =>
  let '(mem_pool, s) := getMemPool device s in
  if negb (mem_pool =? 0) then alloc_call (cudaMallocFromPoolAsync sz mem_pool stream) (p, s)
  else alloc_call (cudaMalloc sz) (p, s)).
Definition device_free_async (stream device_id : Z) : call := with_device device_id (fun _ => free_call (fun p => cudaFreeAsync p stream)).

(** The huge-page half of [host_allocate]. *)
Definition map_hugepages (sz hugepage_bits : Z) (s : allocator_state) : cudaError * (Z * allocator_state) :=
  let totalBytes := round_up sz (Z.shiftl 1 hugepage_bits) in
  let '(ptr, s) := on_sys (mmap totalBytes hugepage_bits) s in
  if ptr =? MAP_FAILED then (cudaErrorMemoryAllocation, (ptr, s)) else
  let s := {| mem_pools_ := mem_pools_ s; host_mmap_allocations_ := <[ptr := totalBytes]> (host_mmap_allocations_ s); sys := sys s |} in
  let '(e, s) := on_sys (cudaHostRegister ptr totalBytes) s in (e, (ptr, s)).

(** The function is [noexcept]: an exception ends the program. *)
Definition host_allocate (sz : Z) : Z * allocator_state -> outcome (cudaError * (Z * allocator_state)) := fun '(p, s) =>
  if negb driver_available then
    let '(ptr, s) := on_sys (malloc sz) s in
    Ok (if ptr =? 0 then cudaErrorMemoryAllocation else cudaSuccess, (ptr, s))
  else
    let bits := if host_alloc_threshold_ <=? sz then get_largest_hugepage_bits ndebug (hugepage_dir (sys s)) sz else Ok 0 in
    match bits with
    | Throw _ => Undef "std::terminate"
    | Undef w => Undef w
    | Ok hugepage_bits =>
        Ok (if hugepage_bits =? 0 then alloc_call (cudaMallocHost sz) (p, s) else map_hugepages sz hugepage_bits s)
    end.

Definition host_free : call := fun '(ptr, s) =>
  if negb driver_available then
    (cudaSuccess, (ptr, {| mem_pools_ := mem_pools_ s; host_mmap_allocations_ := host_mmap_allocations_ s; sys := free ptr (sys s) |}))
  else
    match host_mmap_allocations_ s !! ptr with
    | Some bytes =>
        let '(res, s) := on_sys (cudaHostUnregister ptr) s in
        if negb (res =? cudaSuccess) then (res, (ptr, s)) else
        let '(r, s) := on_sys (munmap ptr bytes) s in
        if negb (r =? 0) then (cudaErrorInvalidValue, (ptr, s)) else
        (cudaSuccess, (ptr, {| mem_pools_ := mem_pools_ s; host_mmap_allocations_ := delete ptr (host_mmap_allocations_ s); sys := sys s |}))
    | None => free_call cudaFreeHost (ptr, s)
    end.

(** The interface [Allocator]. *)
Inductive alloc_request :=
  | DeviceAllocate (sz device_id : Z)
  | DeviceFree (device_id : Z)
  | DeviceAllocateAsync (sz stream device_id : Z)
  | DeviceFreeAsync (stream device_id : Z)
  | HostAllocate (sz : Z)
  | HostFree.
Definition perform (r : alloc_request) (ps : Z * allocator_state) : outcome (cudaError * (Z * allocator_state)) :=
  match r with
  | DeviceAllocate sz d => Ok (device_allocate sz d ps)
  | DeviceFree d => Ok (device_free d ps)
  | DeviceAllocateAsync sz st d => Ok (device_allocate_async sz st d ps)
  | DeviceFreeAsync st d => Ok (device_free_async st d ps)
  | HostAllocate sz => host_allocate sz ps
  | HostFree => Ok (host_free ps)
  end.
End Allocator.
Arguments allocator_state {_}.

(** ** What the runtime promises *)

Inductive mem_kind := OnDevice (d : Z) | Pinned | HugeMapped | Malloced.
#[global] Instance mem_kind_eq_dec : EqDecision mem_kind.
Proof. solve_decision. Defined.
Record block := Block { kind : mem_kind; bytes : Z }.

(** The observable state of a machine, the devices that have memory pools, and the device
    of a pool. *)
Class CudaView `{Cuda} := {
  current_device : machine -> Z;
  live_blocks : machine -> gmap Z block;
  registered : machine -> gset Z;
  pools_on : Z -> bool;
  pool_device : Z -> Z
}.

Section Effects.
Context `{CudaView}.
(** [m'] differs from [m] in what the call is about only. *)
Definition silent (m m' : machine) : Prop :=
  current_device m' = current_device m /\ live_blocks m' = live_blocks m /\ registered m' = registered m.
Definition new_block (b : block) (p : Z) (m m' : machine) : Prop :=
  p <> 0 /\ p <> MAP_FAILED /\ live_blocks m !! p = None /\
  current_device m' = current_device m /\ live_blocks m' = <[p := b]> (live_blocks m) /\ registered m' = registered m.
Definition freed (ok : mem_kind -> Prop) (p : Z) (m m' : machine) : Prop :=
  (p = 0 \/ exists b, live_blocks m !! p = Some b /\ ok (kind b)) /\
  current_device m' = current_device m /\ live_blocks m' = delete p (live_blocks m) /\ registered m' = registered m.
Definition pinned (k : mem_kind) : Prop := k = Pinned.
Definition on_some_device (k : mem_kind) : Prop := exists d, k = OnDevice d.
End Effects.

(** The documented effect of the calls, for positive sizes. Memory of a pool is on the device
    of the pool, whatever device is current. *)
Class CudaLaws `{CudaView} : Prop := {
  null_law m : live_blocks m !! 0 = None;
  get_device_law m d : cudaGetDevice m = (cudaSuccess, d) -> d = current_device m;
  set_device_law d m e m' : cudaSetDevice d m = (e, m') ->
    live_blocks m' = live_blocks m /\ registered m' = registered m /\
    current_device m' = (if e =? cudaSuccess then d else current_device m);
  malloc_law n p m e q m' : 0 < n -> cudaMalloc n (p, m) = (e, (q, m')) ->
    if e =? cudaSuccess then new_block (Block (OnDevice (current_device m)) n) q m m' else silent m m';
  pool_malloc_law n pool st p m e q m' : 0 < n -> cudaMallocFromPoolAsync n pool st (p, m) = (e, (q, m')) ->
    if e =? cudaSuccess then new_block (Block (OnDevice (pool_device pool)) n) q m m' else silent m m';
  default_pool_law d m pool : cudaDeviceGetDefaultMemPool d m = (cudaSuccess, pool) -> pool <> 0 -> pool_device pool = d;
  free_law p m e m' : cudaFree p m = (e, m') ->
    if e =? cudaSuccess then freed on_some_device p m m' else silent m m';
  free_async_law p st m e m' : cudaFreeAsync p st m = (e, m') ->
    if e =? cudaSuccess then freed on_some_device p m m' /\ pools_on (current_device m) = true else silent m m';
  supported_law d m v : mem_pools_supported d m = (cudaSuccess, v) -> v <> 0 -> pools_on d = true;
  threshold_law pool t m e m' : set_release_threshold pool t m = (e, m') -> silent m m';
  malloc_host_law n p m e q m' : 0 < n -> cudaMallocHost n (p, m) = (e, (q, m')) ->
    if e =? cudaSuccess then new_block (Block Pinned n) q m m' else silent m m';
  free_host_law p m e m' : cudaFreeHost p m = (e, m') ->
    if e =? cudaSuccess then freed pinned p m m' else silent m m';
  register_law p n m e m' : cudaHostRegister p n m = (e, m') ->
    current_device m' = current_device m /\ live_blocks m' = live_blocks m /\
    registered m' = (if e =? cudaSuccess then {[p]} ∪ registered m else registered m);
  unregister_law p m e m' : cudaHostUnregister p m = (e, m') ->
    current_device m' = current_device m /\ live_blocks m' = live_blocks m /\
    (if e =? cudaSuccess then p ∈ registered m /\ registered m' = registered m ∖ {[p]} else registered m' = registered m);
  mmap_law n bits m q m' : 0 < n -> mmap n bits m = (q, m') ->
    if q =? MAP_FAILED then silent m m' else new_block (Block HugeMapped n) q m m';
  munmap_law p n m r m' : live_blocks m !! p = Some (Block HugeMapped n) -> munmap p n m = (r, m') ->
    if r =? 0 then current_device m' = current_device m /\ live_blocks m' = delete p (live_blocks m) /\ registered m' = registered m
    else silent m m';
  std_malloc_law n m q m' : 0 < n -> malloc n m = (q, m') ->
    if q =? 0 then silent m m' else new_block (Block Malloced n) q m m';
  std_free_law p n m : live_blocks m !! p = Some (Block Malloced n) ->
    current_device (free p m) = current_device m /\ live_blocks (free p m) = delete p (live_blocks m) /\ registered (free p m) = registered m
}.

(** ** Huge pages *)

Lemma countr_zero_pow2 j : 0 <= j -> countr_zero (2 ^ j) = j.
Proof.
  intros Hj. pattern j. apply natlike_ind; [done| |done]. clear j Hj. intros j Hj IH. rewrite Z.pow_succ_r by done.
  pose proof (Z.pow_pos_nonneg 2 j ltac:(lia) Hj). destruct (2 ^ j) as [|q|] eqn:E; try lia.
  change (countr_zero (2 * Zpos q)) with (Z.succ (pos_ctz q)). simpl in IH. lia.
Qed.
Lemma popcount_pow2 j : 0 <= j -> popcount (2 ^ j) = 1.
Proof.
  intros Hj. pattern j. apply natlike_ind; [done| |done]. clear j Hj. intros j Hj IH.
  rewrite Z.pow_succ_r, popcount_double; [done| |done]. pose proof (Z.pow_pos_nonneg 2 j). lia.
Qed.

(** An entry of the directory for pages of [2^j] kilobytes, with room for [size] bytes. *)
Definition pages_of (entry : string * option Z) (j : Z) : Prop := 0 <= j < 53 /\ page_size_kb entry.1 = Some (2 ^ j).
Definition has_room (size : Z) (entry : string * option Z) (j : Z) : Prop :=
  pages_of entry j /\ size <= default 0 entry.2 * 2 ^ (j + 10).
Definition entry_ok (entry : string * option Z) : Prop := page_size_kb entry.1 = None \/ exists j, pages_of entry j.

Lemma pages_of_inj entry j j' : pages_of entry j -> pages_of entry j' -> j = j'.
Proof. intros [H1 E1] [H2 E2]. rewrite E1 in E2. injection E2 as E2. by apply Z.pow_inj_r in E2; lia. Qed.

Lemma ceil_div_size_ok x n : 0 <= x <= 2 ^ 63 -> 0 < n <= 2 ^ 62 ->
  exists q, ceil_div_size x n = Ok q /\ forall f, q <= f <-> x <= f * n.
Proof.
  intros Hx Hn. unfold ceil_div_size. rewrite (proj2 (Z.eqb_neq _ _)) by lia.
  rewrite wrapu_small by (split; lia). eexists. split; [done|]. intros f.
  pose proof (Z.div_mod (x + n - 1) n ltac:(lia)). pose proof (Z.mod_pos_bound (x + n - 1) n ltac:(lia)). nia.
Qed.

Lemma hugepage_step_room ndebug size b entry j : 0 <= size <= 2 ^ 63 -> pages_of entry j ->
  (has_room size entry j -> hugepage_step ndebug size b entry = Ok (Z.max b (j + 10))) /\
  (~ has_room size entry j -> hugepage_step ndebug size b entry = Ok b).
Proof.
  intros Hs Hp. pose proof Hp as [Hj E]. unfold hugepage_step. rewrite E.
  rewrite popcount_pow2, andb_false_r by lia. rewrite Z.shiftl_mul_pow2, <- Z.pow_add_r by lia.
  assert (0 < 2 ^ (j + 10) <= 2 ^ 62) by (split; [apply Z.pow_pos_nonneg|apply Z.pow_le_mono_r]; lia).
  rewrite wrapu_small by (split; lia). destruct (ceil_div_size_ok size (2 ^ (j + 10))) as (q & -> & Hq); [done|done|]. simpl.
  rewrite countr_zero_pow2 by lia. split; intros Hr.
  - by rewrite (proj2 (Z.leb_le _ _)) by (apply Hq, Hr).
  - rewrite (proj2 (Z.leb_gt _ _)); [done|]. apply Z.nle_gt. intros ?%Hq. by apply Hr.
Qed.

(** The answer [b] for the entries seen so far. *)
Definition best_pages (size : Z) (entries : list (string * option Z)) (b : Z) : Prop :=
  (b = 0 \/ exists e, e ∈ entries /\ has_room size e (b - 10)) /\
  forall e j, e ∈ entries -> has_room size e j -> j + 10 <= b.

Lemma has_room_dec size e j : pages_of e j -> {has_room size e j} + {~ has_room size e j}.
Proof. intros Hp. destruct (Z_le_dec size (default 0 e.2 * 2 ^ (j + 10))); [by left|right]. by intros []. Qed.

Lemma best_pages_step ndebug size entries b e : 0 <= size <= 2 ^ 63 -> entry_ok e -> 0 <= b -> best_pages size entries b ->
  exists b', hugepage_step ndebug size b e = Ok b' /\ 0 <= b' /\ best_pages size (entries ++ [e]) b'.
Proof.
  intros Hs [E|[j Hp]] Hb [Hex Hmax].
  - exists b. unfold hugepage_step. rewrite E. split; [done|]. split; [done|]. split.
    + destruct Hex as [?|(x & Hx & ?)]; [by left|right]. exists x. set_solver.
    + intros x j [Hx| ->%list_elem_of_singleton]%elem_of_app; [by apply Hmax|]. intros [[_ E'] _]. congruence.
  - destruct (hugepage_step_room ndebug size b e j Hs Hp) as [H1 H2]. destruct (has_room_dec size e j Hp) as [Hr|Hr].
    + exists (Z.max b (j + 10)). pose proof Hp as [Hj _]. split; [by apply H1|]. split; [lia|]. split.
      * right. destruct (Z.max_spec b (j + 10)) as [[_ ->]|[? ->]].
        -- exists e. replace (j + 10 - 10) with j by lia. set_solver.
        -- destruct Hex as [->|(x & Hx & ?)]; [lia|]. exists x. set_solver.
      * intros x j' [Hx| ->%list_elem_of_singleton]%elem_of_app Hr'; [pose proof (Hmax x j' Hx Hr'); lia|].
        rewrite (pages_of_inj e j' j (proj1 Hr') Hp). lia.
    + exists b. split; [by apply H2|]. split; [done|]. split.
      * destruct Hex as [?|(x & Hx & ?)]; [by left|right]. exists x. set_solver.
      * intros x j' [Hx| ->%list_elem_of_singleton]%elem_of_app Hr'; [by apply (Hmax x)|].
        destruct Hr. by rewrite <- (pages_of_inj e j' j (proj1 Hr') Hp).
Qed.

(** The page size chosen is the largest one of which the node has enough free pages, and 0 when
    there is none. *)
Lemma largest_hugepage_bits ndebug entries size : 0 <= size <= 2 ^ 63 -> Forall entry_ok entries ->
  exists b, get_largest_hugepage_bits ndebug (Some entries) size = Ok b /\ 0 <= b /\ best_pages size entries b.
Proof.
  intros Hs Hok. simpl. induction entries as [|e entries IH] using rev_ind.
  - exists 0. split; [done|]. split; [done|]. split; [by left|]. intros e j []%not_elem_of_nil.
  - apply Forall_app in Hok as [Hok He]. rewrite Forall_singleton in He. destruct (IH Hok) as (b & E & Hb & Hbest).
    destruct (best_pages_step ndebug size entries b e Hs He Hb Hbest) as (b' & E' & ?).
    exists b'. rewrite ofoldl_app, E. simpl. by rewrite E'.
Qed.

(** ** Refinement of an abstract heap *)

Section Refinement.
Context {Cu : Cuda} {Vi : CudaView} {La : CudaLaws} (ndebug : bool) (host_alloc_threshold_ : Z).
Local Abbreviation perform := (perform ndebug host_alloc_threshold_).
Local Abbreviation host_allocate := (host_allocate ndebug host_alloc_threshold_).
Implicit Types (s : allocator_state) (m : machine).

Definition heap_of s : gmap Z block := live_blocks (sys s).
Definition device_of s : Z := current_device (sys s).

(** The table of mappings has exactly the live huge-page mappings, with their sizes, and the
    pool known for a device is a pool of that device, which has pools. *)
Definition allocator_ok s : Prop :=
  (forall p n, host_mmap_allocations_ s !! p = Some n <-> heap_of s !! p = Some (Block HugeMapped n)) /\
  (forall d pool, mem_pools_ s !! d = Some pool -> pool <> 0 -> pools_on d = true /\ pool_device pool = d).

(** The device of a request. *)
Definition target (device_id : Z) s : Z := if 0 <=? device_id then device_id else device_of s.

(** A new host block: of the size asked for, pinned or from [malloc] when there is no driver;
    or whole huge pages of a size of which the node has enough, fewer than one page too many. *)
Definition host_block (sz : Z) s (k : mem_kind) (n : Z) : Prop :=
  match k with
  | OnDevice _ => False
  | Malloced => driver_available = false /\ n = sz
  | Pinned => driver_available = true /\ n = sz
  | HugeMapped =>
      driver_available = true /\ host_alloc_threshold_ <= sz /\
      exists b entries e, hugepage_dir (sys s) = Some entries /\ e ∈ entries /\ has_room sz e (b - 10) /\
        n mod 2 ^ b = 0 /\ sz <= n < sz + 2 ^ b
  end.

(** The memory a free function is for. *)
Definition freeable (ok : mem_kind -> Prop) (p : Z) s : Prop := p = 0 \/ exists b, heap_of s !! p = Some b /\ ok (kind b).

(** The abstract heap: what a request that reports success does to the live blocks. *)
Inductive heap_step (s : allocator_state) : alloc_request -> Z -> gmap Z block -> Prop :=
  | step_device_allocate sz d p : p <> 0 -> heap_of s !! p = None ->
      heap_step s (DeviceAllocate sz d) p (<[p := Block (OnDevice (target d s)) sz]> (heap_of s))
  | step_device_allocate_async sz st d p : p <> 0 -> heap_of s !! p = None ->
      heap_step s (DeviceAllocateAsync sz st d) p (<[p := Block (OnDevice (target d s)) sz]> (heap_of s))
  | step_host_allocate sz p k n : p <> 0 -> heap_of s !! p = None -> host_block sz s k n ->
      heap_step s (HostAllocate sz) p (<[p := Block k n]> (heap_of s))
  | step_device_free d p : freeable on_some_device p s -> heap_step s (DeviceFree d) p (delete p (heap_of s))
  | step_device_free_async st d p : freeable on_some_device p s -> heap_step s (DeviceFreeAsync st d) p (delete p (heap_of s))
  | step_host_free p : freeable (fun k => ~ on_some_device k) p s -> heap_step s HostFree p (delete p (heap_of s)).

(** What a caller has to respect: sizes that rounding up does not overflow, and no [host_free]
    of memory that the library did not get from [malloc] when there is no driver. *)
Definition request_ok (r : alloc_request) (p : Z) s : Prop :=
  match r with
  | DeviceAllocate sz _ | DeviceAllocateAsync sz _ _ => 0 < sz
  | HostAllocate sz => 0 < sz <= 2 ^ 62 /\ forall entries, hugepage_dir (sys s) = Some entries -> Forall entry_ok entries
  | HostFree => driver_available = false -> exists n, heap_of s !! p = Some (Block Malloced n)
  | _ => True
  end.

(** *** The parts of the state a call changes *)

(** The blocks and the device of a state move like those of its machine. *)
Definition keeps_tables s s' : Prop :=
  mem_pools_ s' = mem_pools_ s /\ host_mmap_allocations_ s' = host_mmap_allocations_ s.

Lemma on_sys_tables {A} (f : machine -> A * machine) s e s' :
  on_sys f s = (e, s') -> f (sys s) = (e, sys s') /\ keeps_tables s s'.
Proof. unfold on_sys. destruct (f (sys s)) as [e1 m1]. intros [= <- <-]. by split. Qed.

Lemma alloc_call_tables f p s e q s' :
  alloc_call f (p, s) = (e, (q, s')) -> f (p, sys s) = (e, (q, sys s')) /\ keeps_tables s s'.
Proof. unfold alloc_call. simpl. destruct (f (p, sys s)) as [e1 [q1 m1]]. intros [= <- <- <-]. by split. Qed.

Lemma free_call_tables f p s e q s' :
  free_call f (p, s) = (e, (q, s')) -> f p (sys s) = (e, sys s') /\ q = p /\ keeps_tables s s'.
Proof.
  unfold free_call. simpl. destruct (on_sys (f p) s) as [e1 s1] eqn:E. intros [= <- <- <-].
  apply on_sys_tables in E as [? ?]. by split_and!.
Qed.

(** A body of [with_device] leaves the device alone. *)
Definition keeps_device (body : Z -> call) : Prop := forall d p s e q s',
  body d (p, s) = (e, (q, s')) -> device_of s = d -> device_of s' = d.

Lemma swap_to_law swap d s e s' : swap_to swap d s = (e, s') ->
  heap_of s' = heap_of s /\ keeps_tables s s' /\ registered (sys s') = registered (sys s) /\
  device_of s' = (if swap && (e =? cudaSuccess) then d else device_of s).
Proof.
  unfold swap_to. destruct swap.
  - intros [E ?]%on_sys_tables. apply set_device_law in E as (? & ? & ?). by split_and!.
  - intros [= <- <-]. done.
Qed.

Lemma swap_target d s : (if (0 <=? d) && negb (d =? device_of s) then d else device_of s) = target d s.
Proof. unfold target. destruct (0 <=? d) eqn:?; simpl; [|done]. destruct (Z.eqb_spec d (device_of s)); by subst. Qed.

Lemma swap_flag d s : (0 <=? d) && negb (d =? device_of s) = negb (target d s =? device_of s).
Proof. unfold target. destruct (0 <=? d); simpl; [done|]. by rewrite Z.eqb_refl. Qed.

(** The frame around [body]: with success, the body ran on the requested device with success
    and the device of the caller is current again. *)
Lemma on_device_ok d body p s q s' :
  keeps_device body -> with_device d body (p, s) = (cudaSuccess, (q, s')) ->
  exists s1 s2, heap_of s1 = heap_of s /\ keeps_tables s s1 /\ device_of s1 = target d s /\
    body (target d s) (p, s1) = (cudaSuccess, (q, s2)) /\
    heap_of s' = heap_of s2 /\ keeps_tables s2 s' /\ device_of s' = device_of s.
Proof.
  intros Hb. unfold with_device. destruct (cudaGetDevice (sys s)) as [e0 curr] eqn:E0.
  destruct (Z.eqb_spec e0 cudaSuccess) as [->|Hne]; simpl; [|by intros [= ? _ _]].
  apply get_device_law in E0 as ->. fold (device_of s).
  destruct (swap_to _ d s) as [e1 s1] eqn:E1. destruct (Z.eqb_spec e1 cudaSuccess) as [->|Hne]; simpl; [|by intros [= ? _ _]].
  apply swap_to_law in E1 as (Hh1 & Ht1 & _ & Hd1). rewrite Z.eqb_refl, andb_true_r in Hd1.
  rewrite swap_target in *. destruct (body _ (p, s1)) as [res [q2 s2]] eqn:E2. pose proof (Hb _ _ _ _ _ _ E2 Hd1) as Hd2.
  destruct (swap_to _ (device_of s) s2) as [e3 s3] eqn:E3. apply swap_to_law in E3 as (Hh3 & Ht3 & _ & Hd3).
  destruct (Z.eqb_spec e3 cudaSuccess) as [->|Hne]; simpl; [|by intros [= ? _ _]].
  intros [= -> -> ->]. exists s1, s2. split_and!; try done. rewrite Hd3. simpl. rewrite andb_true_r, Hd2.
  unfold target. destruct (0 <=? d) eqn:?; simpl; [|done]. destruct (Z.eqb_spec d (device_of s)); by subst.
Qed.

(** Every outcome: what a body run on its device keeps is kept. *)
Lemma on_device_all d body p s e q s' (P : allocator_state -> Prop) :
  (forall s s', P s -> heap_of s' = heap_of s -> keeps_tables s s' -> P s') ->
  (forall p s1 e q s2, P s1 -> device_of s1 = target d s -> body (target d s) (p, s1) = (e, (q, s2)) -> P s2) ->
  P s -> with_device d body (p, s) = (e, (q, s')) -> P s'.
Proof.
  intros Hk Hb HP. unfold with_device. destruct (cudaGetDevice (sys s)) as [e0 curr] eqn:E0.
  destruct (Z.eqb_spec e0 cudaSuccess) as [->|_]; simpl; [|by intros [= _ _ <-]]. apply get_device_law in E0 as ->. fold (device_of s).
  destruct (swap_to _ d s) as [e1 s1] eqn:E1. apply swap_to_law in E1 as (Hh1 & Ht1 & _ & Hd1).
  assert (P s1) by (by apply (Hk s)). destruct (Z.eqb_spec e1 cudaSuccess) as [->|_]; simpl; [|by intros [= _ _ <-]].
  rewrite andb_true_r in Hd1. rewrite swap_target in *.
  destruct (body _ (p, s1)) as [res [q2 s2]] eqn:E2. assert (P s2) by (by apply (Hb p s1 res q2 s2)).
  destruct (swap_to _ (device_of s) s2) as [e3 s3] eqn:E3. apply swap_to_law in E3 as (Hh3 & Ht3 & _).
  assert (P s3) by (by apply (Hk s2)). by destruct (negb (e3 =? _)); intros [= _ _ <-].
Qed.

(** *** The invariant *)

Lemma ok_same s s' : allocator_ok s -> heap_of s' = heap_of s -> keeps_tables s s' -> allocator_ok s'.
Proof. intros [H1 H2] Hh [Ep Em]. split; [by rewrite Em, Hh|by rewrite Ep]. Qed.

Lemma ok_new s s' p b : allocator_ok s -> heap_of s !! p = None -> kind b <> HugeMapped ->
  heap_of s' = <[p := b]> (heap_of s) -> keeps_tables s s' -> allocator_ok s'.
Proof.
  intros [H1 H2] Hp Hb Hh [Ep Em]. split; [|by rewrite Ep]. intros p' n. rewrite Em, Hh, H1.
  destruct (decide (p' = p)) as [->|Hne]; [|by rewrite lookup_insert_ne by done].
  rewrite lookup_insert_eq, Hp. split; [done|]. intros [= ->]. done.
Qed.

Lemma ok_freed s s' p : allocator_ok s -> (p = 0 \/ exists b, heap_of s !! p = Some b /\ kind b <> HugeMapped) ->
  heap_of s' = delete p (heap_of s) -> keeps_tables s s' -> allocator_ok s'.
Proof.
  intros [H1 H2] Hp Hh [Ep Em]. split; [|by rewrite Ep]. intros p' n. rewrite Em, Hh, H1.
  destruct (decide (p' = p)) as [->|Hne]; [|by rewrite lookup_delete_ne by done].
  rewrite lookup_delete_eq. split; [|done]. destruct Hp as [->|(b & -> & Hb)].
  - unfold heap_of. by rewrite null_law.
  - intros [= ->]. done.
Qed.

Lemma get_mem_pool_law d s pool s' : getMemPool d s = (pool, s') ->
  heap_of s' = heap_of s /\ device_of s' = device_of s /\ host_mmap_allocations_ s' = host_mmap_allocations_ s /\
  mem_pools_ s' !! d = Some pool /\ (allocator_ok s -> allocator_ok s').
Proof.
  assert (Hadd : forall pool m, silent (sys s) m -> (pool <> 0 -> pools_on d = true /\ pool_device pool = d) -> forall s1,
    s1 = {| mem_pools_ := <[d := pool]> (mem_pools_ s); host_mmap_allocations_ := host_mmap_allocations_ s; sys := m |} ->
    heap_of s1 = heap_of s /\ device_of s1 = device_of s /\ host_mmap_allocations_ s1 = host_mmap_allocations_ s /\
    mem_pools_ s1 !! d = Some pool /\ (allocator_ok s -> allocator_ok s1)).
  { intros pool1 m (Hd & Hl & _) Hon s1 ->. unfold heap_of, device_of; simpl. split_and!; try done.
    - by rewrite lookup_insert_eq.
    - intros [H1 H2]. split; unfold heap_of; simpl; [by rewrite Hl|]. intros d' pool'.
      destruct (decide (d' = d)) as [->|Hne]; [rewrite lookup_insert_eq; by intros [= <-]|].
      rewrite lookup_insert_ne by done. apply H2. }
  unfold getMemPool. destruct (mem_pools_ s !! d) as [pl|] eqn:El; [by intros [= <- <-]|].
  assert (Hnone : forall s1, (0, {| mem_pools_ := <[d := 0]> (mem_pools_ s); host_mmap_allocations_ := host_mmap_allocations_ s; sys := sys s |})
     = (pool, s1) -> s1 = s' -> _) by (intros s1 [= <- <-] <-; by apply (Hadd 0 (sys s))).
  destruct (mem_pools_supported d (sys s)) as [e v] eqn:Es.
  destruct (Z.eqb_spec e cudaSuccess) as [->|_]; [|simpl; intros E; by apply (Hnone _ E)].
  destruct (Z.eqb_spec v 0) as [_|Hv]; [intros E; by apply (Hnone _ E)|]. pose proof (supported_law _ _ _ Es Hv) as Hon.
  destruct (cudaDeviceGetDefaultMemPool d (sys s)) as [e1 pl] eqn:Epl.
  destruct (Z.eqb_spec e1 cudaSuccess) as [->|_]; simpl; [|intros E; by apply (Hnone _ E)].
  pose proof (default_pool_law _ _ _ Epl) as Hpl.
  destruct (cudaMemGetInfo (sys s)) as [e2 [fr tot]]. destruct (negb _); [intros E; by apply (Hnone _ E)|].
  destruct (set_release_threshold pl tot (sys s)) as [e3 m] eqn:E3. apply threshold_law in E3.
  destruct (e3 =? _); intros [= <- <-]; eapply Hadd; try done; auto.
Qed.

(** *** The bodies of the device functions *)

(** A call that makes device memory (from a state with [P]), and one that releases it. *)
Definition makes_block (P : allocator_state -> Prop) (sz : Z) (c : Z -> call) : Prop := forall d p s e q s', c d (p, s) = (e, (q, s')) -> device_of s = d ->
  device_of s' = device_of s /\ (allocator_ok s -> allocator_ok s') /\
  (P s -> e = cudaSuccess -> q <> 0 /\ heap_of s !! q = None /\ heap_of s' = <[q := Block (OnDevice d) sz]> (heap_of s)) /\
  (e <> cudaSuccess -> heap_of s' = heap_of s).
Definition drops_block (c : Z -> call) : Prop := forall d p s e q s', c d (p, s) = (e, (q, s')) ->
  device_of s' = device_of s /\ q = p /\ (allocator_ok s -> allocator_ok s') /\
  (e = cudaSuccess -> (p = 0 \/ exists b, heap_of s !! p = Some b /\ on_some_device (kind b)) /\ heap_of s' = delete p (heap_of s)) /\
  (e <> cudaSuccess -> heap_of s' = heap_of s).

Lemma alloc_call_block f sz dev p s e q s' :
  (forall p m e q m', f (p, m) = (e, (q, m')) ->
     if e =? cudaSuccess then new_block (Block (OnDevice (dev m)) sz) q m m' else silent m m') ->
  alloc_call f (p, s) = (e, (q, s')) ->
  device_of s' = device_of s /\ (allocator_ok s -> allocator_ok s') /\
  (e = cudaSuccess -> q <> 0 /\ heap_of s !! q = None /\ heap_of s' = <[q := Block (OnDevice (dev (sys s))) sz]> (heap_of s)) /\
  (e <> cudaSuccess -> heap_of s' = heap_of s).
Proof.
  intros Hf (E & Ht)%alloc_call_tables. apply Hf in E. destruct (Z.eqb_spec e cudaSuccess) as [->|Hne].
  - destruct E as (Hq & _ & Hn & Hd & Hh & _). split; [done|]. split; [|done].
    intros Hok. by apply (ok_new s s' q (Block (OnDevice (dev (sys s))) sz)).
  - destruct E as (Hd & Hh & _). split; [done|]. split; [intros; by apply (ok_same s)|done].
Qed.

Lemma free_call_block f :
  (forall p m e m', f p m = (e, m') -> if e =? cudaSuccess then freed on_some_device p m m' else silent m m') ->
  drops_block (fun _ => free_call f).
Proof.
  intros Hf d p s e q s' (E & -> & Ht)%free_call_tables. apply Hf in E. destruct (Z.eqb_spec e cudaSuccess) as [->|Hne].
  - destruct E as (Hp & Hd & Hh & _). split; [done|]. split; [done|]. split; [|done]. intros Hok.
    apply (ok_freed s s' p); [done| |done|done]. destruct Hp as [?|(b & ? & [c Hc])]; [by left|right]. exists b. split; [done|]. by rewrite Hc.
  - destruct E as (Hd & Hh & _). split_and!; try done. intros. by apply (ok_same s).
Qed.

Lemma malloc_body P sz : 0 < sz -> makes_block P sz (fun _ => alloc_call (cudaMalloc sz)).
Proof.
  intros Hsz d p s e q s' E <-. apply (alloc_call_block _ sz current_device) in E as (? & ? & ? & ?); [by split_and!; auto|].
  intros p' m e' q' m'. by apply malloc_law.
Qed.

Lemma malloc_async_body sz st : 0 < sz -> makes_block allocator_ok sz (fun device '(p, s) =>
  let '(mem_pool, s) := getMemPool device s in
  if negb (mem_pool =? 0) then alloc_call (cudaMallocFromPoolAsync sz mem_pool st) (p, s) else alloc_call (cudaMalloc sz) (p, s)).
Proof.
  intros Hsz d p s e q s' E Hd. destruct (getMemPool d s) as [pool s1] eqn:Ep.
  apply get_mem_pool_law in Ep as (Hh1 & Hd1 & _ & Hpool & Hok1). rewrite <- Hh1, <- Hd1.
  destruct (Z.eqb_spec pool 0) as [->|Hp]; simpl in E.
  - destruct (malloc_body (fun _ => True) sz Hsz d p s1 e q s' E ltac:(congruence)) as (? & ? & ? & ?). by split_and!; auto.
  - apply (alloc_call_block _ sz (fun _ => pool_device pool)) in E as (? & ? & Hs & ?); [|intros p' m e' q' m'; by apply pool_malloc_law].
    split_and!; auto. intros Hok. rewrite (proj2 (proj2 (Hok1 Hok) d pool Hpool Hp)) in Hs. done.
Qed.

Lemma free_body : drops_block (fun _ => free_call cudaFree).
Proof. apply free_call_block. intros. by apply free_law. Qed.
Lemma free_async_body st : drops_block (fun _ => free_call (fun p => cudaFreeAsync p st)).
Proof. apply free_call_block. intros p m e m' E%free_async_law. by destruct (e =? cudaSuccess); [destruct E|]. Qed.

(** The device functions from their bodies. *)
Lemma on_device_allocates sz d body p s q s' : makes_block allocator_ok sz body -> allocator_ok s ->
  with_device d body (p, s) = (cudaSuccess, (q, s')) ->
  q <> 0 /\ heap_of s !! q = None /\ heap_of s' = <[q := Block (OnDevice (target d s)) sz]> (heap_of s) /\
  device_of s' = device_of s /\ allocator_ok s'.
Proof.
  intros Hb Hok E. apply on_device_ok in E as (s1 & s2 & Hh1 & Ht1 & Hd1 & E & Hh2 & Ht2 & Hd2).
  - destruct (Hb _ _ _ _ _ _ E Hd1) as (_ & Hok2 & Hs & _). destruct (Hs ltac:(by apply (ok_same s)) eq_refl) as (Hq & Hn & Hh).
    rewrite Hh1 in Hn, Hh. rewrite Hh2, Hh. split_and!; try done. apply (ok_same s2); [|done..]. by apply Hok2, (ok_same s).
  - intros d' p' s1 e q' s1' E1 <-. by destruct (Hb _ _ _ _ _ _ E1 eq_refl).
Qed.

Lemma on_device_frees d body p s q s' : drops_block body -> allocator_ok s ->
  with_device d body (p, s) = (cudaSuccess, (q, s')) ->
  q = p /\ (p = 0 \/ exists b, heap_of s !! p = Some b /\ on_some_device (kind b)) /\
  heap_of s' = delete p (heap_of s) /\ device_of s' = device_of s /\ allocator_ok s'.
Proof.
  intros Hb Hok E. apply on_device_ok in E as (s1 & s2 & Hh1 & Ht1 & Hd1 & E & Hh2 & Ht2 & Hd2).
  - destruct (Hb _ _ _ _ _ _ E) as (_ & -> & Hok2 & Hs & _). destruct (Hs eq_refl) as (Hp & Hh).
    rewrite Hh1 in Hp, Hh. rewrite Hh2, Hh. split_and!; try done. apply (ok_same s2); [|done..]. by apply Hok2, (ok_same s).
  - intros d' p' s1 e q' s1' E1 <-. by destruct (Hb _ _ _ _ _ _ E1).
Qed.

(** *** Host memory *)

Lemma round_up_pages sz b : 0 < sz <= 2 ^ 62 -> 0 <= b <= 62 ->
  round_up sz (Z.shiftl 1 b) mod 2 ^ b = 0 /\ sz <= round_up sz (Z.shiftl 1 b) < sz + 2 ^ b /\
  forall f, sz <= f * 2 ^ b -> round_up sz (Z.shiftl 1 b) <= f * 2 ^ b.
Proof.
  intros Hs Hb. rewrite Z.shiftl_1_l. pose proof (Z.pow_le_mono_r 2 b 62 ltac:(lia) ltac:(lia)).
  pose proof (Z.pow_pos_nonneg 2 b ltac:(lia) ltac:(lia)). unfold round_up. rewrite (wrapu_small 64 (sz + _ - 1)) by (split; lia).
  pose proof (Z.div_mod (sz + 2 ^ b - 1) (2 ^ b) ltac:(lia)) as Hdiv. pose proof (Z.mod_pos_bound (sz + 2 ^ b - 1) (2 ^ b) ltac:(lia)) as Hmod.
  set (k := (sz + 2 ^ b - 1) / 2 ^ b) in *. rewrite (Z.mul_comm (2 ^ b) k) in Hdiv.
  rewrite wrapu_small by (split; lia). split; [by apply Z.mod_mul; lia|]. split; [lia|]. intros f Hf.
  apply Z.mul_le_mono_nonneg_r; [lia|]. apply Z.lt_succ_r, (Z.mul_lt_mono_pos_r (2 ^ b)); lia.
Qed.

Lemma map_hugepages_law sz b s e q s' : 0 < sz <= 2 ^ 62 -> 10 <= b <= 62 -> map_hugepages sz b s = (e, (q, s')) ->
  let n := round_up sz (Z.shiftl 1 b) in
  device_of s' = device_of s /\ (allocator_ok s -> allocator_ok s') /\
  ((q = MAP_FAILED /\ e <> cudaSuccess /\ heap_of s' = heap_of s) \/
   (q <> 0 /\ q <> MAP_FAILED /\ heap_of s !! q = None /\ heap_of s' = <[q := Block HugeMapped n]> (heap_of s) /\
    host_mmap_allocations_ s' !! q = Some n /\
    registered (sys s') = (if e =? cudaSuccess then {[q]} ∪ registered (sys s) else registered (sys s)))).
Proof.
  intros Hs Hb. unfold map_hugepages. destruct (round_up_pages sz b Hs ltac:(lia)) as (_ & Hn & _).
  set (n := round_up sz _) in *. simpl. destruct (on_sys (mmap n b) s) as [ptr s1] eqn:Em.
  apply on_sys_tables in Em as [Em Ht]. apply mmap_law in Em; [|lia]. destruct (Z.eqb_spec ptr MAP_FAILED) as [->|Hf].
  - intros [= <- <- <-]. destruct Em as (Hd & Hh & _). split; [done|]. split; [intros; by apply (ok_same s)|]. by left.
  - destruct (on_sys (cudaHostRegister ptr n) _) as [e1 s2] eqn:Er. intros [= <- <- <-].
    apply on_sys_tables in Er as [Er Ht2]. apply register_law in Er as (Hd2 & Hh2 & Hr2). simpl in *.
    destruct Em as (Hq & _ & Hfr & Hd & Hh & Hr). fold (heap_of s) in Hfr, Hh. fold (heap_of s1) in Hh, Hh2. fold (heap_of s2) in Hh2.
    destruct Ht2 as [Ep2 Em2], Ht as [Ep Em]. simpl in *. split; [unfold device_of; congruence|].
    split; [|right; rewrite Hh2, Hh, Em2, lookup_insert_eq, Hr2, Hr; by split_and!].
    intros [H1 H2]. split; [|by rewrite Ep2, Ep]. intros p' k. rewrite Em2, Hh2, Hh, Em.
    destruct (decide (p' = ptr)) as [->|Hne]; [|by rewrite !lookup_insert_ne by done].
    rewrite !lookup_insert_eq. split; by intros [= ->].
Qed.

Lemma host_bits_ok sz s : request_ok (HostAllocate sz) 0 s -> hugepage_dir (sys s) <> None ->
  exists b, (if host_alloc_threshold_ <=? sz then get_largest_hugepage_bits ndebug (hugepage_dir (sys s)) sz else Ok 0) = Ok b /\
    (b = 0 \/ 10 <= b <= 62 /\ host_alloc_threshold_ <= sz /\
       exists entries e, hugepage_dir (sys s) = Some entries /\ e ∈ entries /\ has_room sz e (b - 10)).
Proof.
  intros [Hs He] Hd. destruct (Z.leb_spec host_alloc_threshold_ sz); [|by exists 0; auto]. destruct (hugepage_dir (sys s)) as [l|] eqn:El; [|done].
  destruct (largest_hugepage_bits ndebug l sz) as (b & -> & _ & [Hb _]); [lia|by apply He|].
  exists b. split; [done|]. destruct Hb as [?|(e & He' & Hroom)]; [by left|right]. pose proof Hroom as [[? _] _].
  split; [lia|]. split; [done|]. by exists l, e.
Qed.

(** A new host block, of memory the host functions know how to release. *)
Lemma host_allocates sz p s e q s' : request_ok (HostAllocate sz) p s -> hugepage_dir (sys s) <> None ->
  host_allocate sz (p, s) = Ok (e, (q, s')) ->
  device_of s' = device_of s /\ (allocator_ok s -> allocator_ok s') /\
  (e = cudaSuccess -> exists k n, q <> 0 /\ heap_of s !! q = None /\ host_block sz s k n /\
     heap_of s' = <[q := Block k n]> (heap_of s)).
Proof.
  intros Hr Hdir. pose proof Hr as [Hs _]. unfold DefaultAllocator.host_allocate. destruct driver_available eqn:Ed; simpl.
  - destruct (host_bits_ok sz s Hr Hdir) as (b & -> & Hb). destruct (Z.eqb_spec b 0) as [->|Hb0]; intros [= E].
    + apply alloc_call_tables in E as [E Ht]. apply malloc_host_law in E; [|lia]. destruct (Z.eqb_spec e cudaSuccess) as [->|Hne].
      * destruct E as (Hq & _ & Hn & Hd & Hh & _). split; [done|]. split; [intros; by apply (ok_new s s' q (Block Pinned sz))|].
        intros _. by exists Pinned, sz.
      * destruct E as (Hd & Hh & _). split; [done|]. split; [intros; by apply (ok_same s)|done].
    + destruct Hb as [?|(Hb & Hth & entries & en & Hl & Hen & Hroom)]; [done|]. apply (map_hugepages_law _ _ _ _ _ _ Hs Hb) in E as (Hd & Hok & Hc). split; [done|]. split; [done|].
      intros ->. destruct Hc as [(_ & ? & _)|(Hq & _ & Hn & Hh & _)]; [done|].
      destruct (round_up_pages sz b Hs ltac:(lia)) as (Hmod & Hle & _).
      eexists HugeMapped, _. split_and!; [done|done| |done]. split; [done|]. split; [done|]. by exists b, entries, en.
  - destruct (on_sys (malloc sz) s) as [ptr s1] eqn:Em. apply on_sys_tables in Em as [Em Ht]. apply std_malloc_law in Em; [|lia].
    destruct (Z.eqb_spec ptr 0) as [->|Hp]; intros [= <- <- <-].
    + destruct Em as (Hd & Hh & _). split; [done|]. split; [intros; by apply (ok_same s)|done].
    + destruct Em as (Hq & _ & Hn & Hd & Hh & _). split; [done|]. split; [intros; by apply (ok_new s s1 ptr (Block Malloced sz))|].
      intros _. by exists Malloced, sz.
Qed.

Lemma host_frees p s e q s' : request_ok HostFree p s -> allocator_ok s -> host_free (p, s) = (e, (q, s')) ->
  q = p /\ device_of s' = device_of s /\ allocator_ok s' /\
  (e = cudaSuccess -> freeable (fun k => ~ on_some_device k) p s /\ heap_of s' = delete p (heap_of s)).
Proof.
  assert (Hhost : forall n k, heap_of s !! p = Some (Block k n) -> ~ on_some_device k -> freeable (fun k => ~ on_some_device k) p s)
    by (intros n k E Hk; right; by exists (Block k n)).
  intros Hr Hok. unfold host_free. simpl in Hr. destruct driver_available; simpl.
  - destruct (host_mmap_allocations_ s !! p) as [n|] eqn:El.
    + pose proof (proj1 (proj1 Hok p n) El) as Hp. destruct (on_sys (cudaHostUnregister p) s) as [e1 s1] eqn:Eu.
      apply on_sys_tables in Eu as [Eu Ht1]. apply unregister_law in Eu as (Hd1 & Hh1 & _). fold (heap_of s) (heap_of s1) in Hh1.
      assert (Hok1 : allocator_ok s1) by (by apply (ok_same s)).
      destruct (Z.eqb_spec e1 cudaSuccess) as [->|Hne]; simpl; [|by intros [= <- <- <-]].
      destruct (on_sys (munmap p n) s1) as [r s2] eqn:Eu. apply on_sys_tables in Eu as [Eu Ht2].
      apply munmap_law in Eu; [|fold (heap_of s1); by rewrite Hh1].
      destruct (Z.eqb_spec r 0) as [->|Hr0]; simpl; intros [= <- <- <-].
      * destruct Eu as (Hd2 & Hh2 & _). fold (heap_of s1) (heap_of s2) in Hh2. split; [done|].
        split; [unfold device_of; simpl; congruence|].
        split; [|intros _; split; [eapply Hhost; [done|]; intros [d Hk]; discriminate|]; change (heap_of s2 = delete p (heap_of s)); by rewrite <- Hh1].
        destruct Hok1 as [H1 H2], Ht2 as [Ep Em]. split; simpl; [|by rewrite Ep]. intros p' k. unfold heap_of; simpl. fold (heap_of s2).
        rewrite Hh2, Em. destruct (decide (p' = p)) as [->|Hnp]; [by rewrite !lookup_delete_eq|by rewrite !lookup_delete_ne by done].
      * destruct Eu as (Hd2 & Hh2 & _). split; [done|]. split; [unfold device_of; congruence|]. split; [by apply (ok_same s1)|done].
    + intros (E & -> & Ht)%free_call_tables. apply free_host_law in E. destruct (Z.eqb_spec e cudaSuccess) as [->|Hne].
      * destruct E as (Hp & Hd & Hh & _). split_and!; try done.
        -- apply (ok_freed s s' p); [done| |done|done].
           destruct Hp as [?|(b & ? & Hb)]; [by left|right]. exists b. split; [done|]. by rewrite Hb.
        -- intros _. split; [|done]. destruct Hp as [?|(b & ? & Hb)]; [by left|right]. exists b. split; [done|]. rewrite Hb. intros [d Hk]. discriminate.
      * destruct E as (Hd & Hh & _). split_and!; try done. by apply (ok_same s).
  - intros [= <- <- <-]. destruct (Hr eq_refl) as (n & Hn). destruct (std_free_law p n (sys s) Hn) as (Hd & Hh & _).
    split_and!; try done.
    + apply (ok_freed s _ p); [done| |done|done]. right. by exists (Block Malloced n).
    + intros _. split; [|done]. eapply Hhost; [done|]; intros [d Hk]; discriminate.
Qed.

(** *** The theorems *)

#[local] Instance Ok_inj A : Inj (=) (=) (@Ok A).
Proof. by intros a b [= ->]. Qed.

(** Whatever a request returns, the table of mappings still has exactly the live huge-page
    mappings with their sizes, so that [host_free] releases every block the way it was made. *)
Theorem allocator_ok_kept r p s e q s' :
  request_ok r p s -> hugepage_dir (sys s) <> None -> allocator_ok s -> perform r (p, s) = Ok (e, (q, s')) -> allocator_ok s'.
Proof.
  intros Hr Hdir Hok. assert (Hk : forall s s', allocator_ok s -> heap_of s' = heap_of s -> keeps_tables s s' -> allocator_ok s')
    by (intros; by eapply ok_same).
  assert (Ha : forall sz d body, makes_block allocator_ok sz body -> with_device d body (p, s) = (e, (q, s')) -> allocator_ok s').
  { intros sz d body Hb E. refine (on_device_all d body p s e q s' allocator_ok Hk _ Hok E).
    intros p1 s1 e1 q1 s2 H1 Hd E1. by apply (Hb _ _ _ _ _ _ E1 Hd). }
  assert (Hf : forall d body, drops_block body -> with_device d body (p, s) = (e, (q, s')) -> allocator_ok s').
  { intros d body Hb E. refine (on_device_all d body p s e q s' allocator_ok Hk _ Hok E).
    intros p1 s1 e1 q1 s2 H1 Hd E1. by apply (Hb _ _ _ _ _ _ E1). }
  destruct r as [sz d|d|sz st d|st d|sz|]; simpl in Hr; intros E; try apply (inj Ok) in E.
  - by apply (Ha sz d _ (malloc_body _ sz Hr)).
  - by apply (Hf d _ free_body).
  - by apply (Ha sz d _ (malloc_async_body sz st Hr)).
  - by apply (Hf d _ (free_async_body st)).
  - by apply (host_allocates sz p s e q s' Hr Hdir E).
  - by apply (host_frees p s e q s' Hr Hok E).
Qed.

(** C22. A request that reports success does to the live blocks exactly what it says, and
    leaves the current device of the caller as it was: device memory of the size asked for on
    the device it names, whether it comes from the pool of that device or not; host memory of
    the size asked for, pinned (or from [malloc] without a driver), or above the threshold
    whole huge pages the node has; and a block it frees is one of the kind it is for. *)
Theorem allocator_refines r p s q s' :
  request_ok r p s -> hugepage_dir (sys s) <> None -> allocator_ok s -> perform r (p, s) = Ok (cudaSuccess, (q, s')) ->
  heap_step s r q (heap_of s') /\ device_of s' = device_of s.
Proof.
  intros Hr Hdir Hok E. destruct r as [sz d|d|sz st d|st d|sz|]; simpl in Hr; try (apply (inj Ok) in E).
  - apply (on_device_allocates sz) in E as (Hq & Hn & -> & ? & _); [|by apply malloc_body|done]. by split; [constructor|].
  - apply on_device_frees in E as (-> & ? & -> & ? & _); [|by apply free_body|done]. by split; [constructor|].
  - apply (on_device_allocates sz) in E as (Hq & Hn & -> & ? & _); [|by apply malloc_async_body|done]. by split; [constructor|].
  - apply on_device_frees in E as (-> & ? & -> & ? & _); [|by apply free_async_body|done]. by split; [constructor|].
  - apply (host_allocates sz p) in E as (Hd & _ & Hs); [|done..]. destruct (Hs eq_refl) as (k & n & Hq & Hn & Hk & ->).
    by split; [constructor|].
  - apply (host_frees p) in E as (-> & Hd & _ & Hs); [|done..]. destruct (Hs eq_refl) as [? ->]. by split; [constructor|].
Qed.

(** Large host allocations: pages of the largest size of which the node has enough are mapped,
    never more of them than are free; without such pages the memory is pinned. *)
Theorem hugepage_mapping_fits sz p s entries :
  driver_available = true -> host_alloc_threshold_ <= sz -> 0 < sz <= 2 ^ 62 ->
  hugepage_dir (sys s) = Some entries -> Forall entry_ok entries ->
  (exists b e, e ∈ entries /\ has_room sz e (b - 10) /\ (forall e' j, e' ∈ entries -> has_room sz e' j -> j + 10 <= b) /\
     host_allocate sz (p, s) = Ok (map_hugepages sz b s) /\
     let n := round_up sz (Z.shiftl 1 b) in n mod 2 ^ b = 0 /\ sz <= n < sz + 2 ^ b /\ n <= default 0 e.2 * 2 ^ b) \/
  ((forall e j, e ∈ entries -> ~ has_room sz e j) /\ host_allocate sz (p, s) = Ok (alloc_call (cudaMallocHost sz) (p, s))).
Proof.
  intros Hdr Hth Hs Hdir Hok. unfold DefaultAllocator.host_allocate. rewrite Hdr, (proj2 (Z.leb_le _ _) Hth), Hdir. simpl.
  destruct (largest_hugepage_bits ndebug entries sz) as (b & E & Hb & Hex & Hmax); [lia|done|]. simpl in E. rewrite E.
  destruct (Z.eqb_spec b 0) as [->|Hb0].
  - right. split; [|done]. intros e j He Hr. pose proof (Hmax e j He Hr). destruct Hr as [[? _] _]. lia.
  - left. destruct Hex as [?|(e & He & Hr)]; [done|]. pose proof Hr as [[Hj _] Hroom]. replace (b - 10 + 10) with b in Hroom by lia.
    destruct (round_up_pages sz b Hs ltac:(lia)) as (H1 & H2 & H3). exists b, e.
    do 4 (split; [done|]). split; [done|]. split; [done|]. by apply H3.
Qed.

(** When CUDA refuses to register a fresh mapping, [host_allocate] reports the error but keeps the
    mapping and its entry, and no [host_free] can release it: it fails before it unmaps. *)
Theorem failed_registration_leaks sz b s e q s' e' q' s'' :
  0 < sz <= 2 ^ 62 -> 10 <= b <= 62 -> driver_available = true ->
  map_hugepages sz b s = (e, (q, s')) -> e <> cudaSuccess -> q <> MAP_FAILED -> q ∉ registered (sys s) ->
  host_free (q, s') = (e', (q', s'')) ->
  e' <> cudaSuccess /\ heap_of s'' = heap_of s' /\ heap_of s'' !! q = Some (Block HugeMapped (round_up sz (Z.shiftl 1 b))).
Proof.
  intros Hs Hb Hdr E He Hq Hreg. apply (map_hugepages_law _ _ _ _ _ _ Hs Hb) in E as (_ & _ & [(? & _)|(_ & _ & _ & Hh & Hm & Hr)]); [done|].
  rewrite (proj2 (Z.eqb_neq _ _) He) in Hr. unfold host_free. rewrite Hdr, Hm. simpl.
  destruct (on_sys (cudaHostUnregister q) s') as [e1 s1] eqn:Eu. apply on_sys_tables in Eu as [Eu _].
  apply unregister_law in Eu as (_ & Hh1 & Hc). fold (heap_of s1) (heap_of s') in Hh1.
  destruct (Z.eqb_spec e1 cudaSuccess) as [->|Hne]; simpl.
  - destruct Hc as [Hc _]. by rewrite Hr in Hc.
  - intros [= <- <- <-]. split; [done|]. split; [done|]. by rewrite Hh1, Hh, lookup_insert_eq.
Qed.

(** On a device without memory pools [device_allocate_async] falls back to [cudaMalloc], but
    [device_free_async] has no fallback: what was allocated is never released. *)
Theorem unpooled_async_leaks sz st st' d p s q s1 e q' s2 :
  0 < sz -> allocator_ok s -> pools_on (target d s) = false ->
  perform (DeviceAllocateAsync sz st d) (p, s) = Ok (cudaSuccess, (q, s1)) ->
  perform (DeviceFreeAsync st' d) (q, s1) = Ok (e, (q', s2)) ->
  e <> cudaSuccess /\ heap_of s2 !! q = Some (Block (OnDevice (target d s)) sz).
Proof.
  intros Hsz Hok Hpool E1%(inj Ok) E2%(inj Ok).
  apply (on_device_allocates sz) in E1 as (_ & _ & Hh & Hd & _); [|by apply malloc_async_body|done].
  assert (Ht : target d s1 = target d s) by (unfold target; by rewrite Hd).
  assert (Hfail : forall p s e q s', device_of s = target d s1 -> free_call (fun p => cudaFreeAsync p st') (p, s) = (e, (q, s')) ->
    e <> cudaSuccess /\ heap_of s' = heap_of s).
  { intros p1 s3 e1 q1 s4 Hd3 (E & _ & _)%free_call_tables. apply free_async_law in E.
    destruct (Z.eqb_spec e1 cudaSuccess) as [->|Hne]; [|by destruct E as (_ & ? & _)].
    destruct E as [_ E]. fold (device_of s3) in E. congruence. }
  split.
  - intros ->. apply on_device_ok in E2 as (s3 & s4 & _ & _ & Hd3 & E & _).
    + by destruct (Hfail _ _ _ _ _ Hd3 E).
    + intros d' p' s3 e1 q1 s4 E <-. by destruct (free_async_body st' 0 _ _ _ _ _ E).
  - enough (heap_of s2 = heap_of s1) as -> by (by rewrite Hh, lookup_insert_eq).
    refine (on_device_all _ _ _ _ _ _ _ (fun s => heap_of s = heap_of s1) _ _ eq_refl E2).
    + intros s3 s4 E3 E4 _. congruence.
    + intros p1 s3 e1 q1 s4 E3 Hd3 E4. destruct (Hfail _ _ _ _ _ Hd3 E4). congruence.
Qed.

(** A failed device allocation leaves the blocks alone, unless it is the return to the device of
    the caller that failed: then the block is live although an error is reported. *)
Theorem device_allocate_failure sz d p s e q s' :
  0 < sz -> perform (DeviceAllocate sz d) (p, s) = Ok (e, (q, s')) -> e <> cudaSuccess ->
  heap_of s' = heap_of s \/
  (device_of s' = target d s /\ target d s <> device_of s /\ heap_of s !! q = None /\
   heap_of s' = <[q := Block (OnDevice (target d s)) sz]> (heap_of s)).
Proof.
  intros Hsz E%(inj Ok) He. revert E. unfold device_allocate, with_device.
  destruct (cudaGetDevice (sys s)) as [e0 curr] eqn:E0.
  destruct (Z.eqb_spec e0 cudaSuccess) as [->|_]; simpl; [|intros [= _ _ <-]; by left]. apply get_device_law in E0 as ->. fold (device_of s).
  destruct (swap_to _ d s) as [e1 s1] eqn:E1. apply swap_to_law in E1 as (Hh1 & Ht1 & _ & Hd1).
  destruct (Z.eqb_spec e1 cudaSuccess) as [->|_]; simpl; [|intros [= _ _ <-]; by left]. rewrite andb_true_r in Hd1.
  rewrite swap_target in Hd1. destruct (alloc_call _ (p, s1)) as [res [q2 s2]] eqn:E2.
  destruct (malloc_body (fun _ => True) sz Hsz _ _ _ _ _ _ E2 Hd1) as (Hd2 & _ & H2ok & H2err).
  destruct (swap_to _ (device_of s) s2) as [e3 s3] eqn:E3. pose proof E3 as (Hh3 & Ht3 & _ & Hd3)%swap_to_law.
  destruct (Z.eqb_spec e3 cudaSuccess) as [->|H3]; simpl; intros [= <- <- <-].
  - left. rewrite Hh3, <- Hh1. by apply H2err.
  - destruct (decide (res = cudaSuccess)) as [->|Hres]; [right|left; rewrite Hh3, <- Hh1; by apply H2err].
    destruct (H2ok I eq_refl) as (_ & Hn & Hh). rewrite andb_false_r in Hd3.
    rewrite Hh3, Hh, <- Hh1, Hd3, Hd2. split_and!; try done. intros Heq.
    rewrite swap_flag, Heq, Z.eqb_refl in E3. by injection E3.
Qed.
End Refinement.

(** ** A machine that keeps the promises *)

Module AllocatorExamples.
Record demo := { d_current : Z; d_live : gmap Z block; d_registered : gset Z }.

Section Demo.
(** Is there a driver, what registering a mapping returns, are there memory pools, the devices
    that can be made current, and the directory of huge pages. *)
Context (driver : bool) (register_error : Z) (pools : bool) (devices : list Z) (dir : option (list (string * option Z))).

Definition d_blocks (m : demo) : gmap Z block := delete 0 (d_live m).
Definition d_fresh (m : demo) : Z := base.fresh (C := gset Z) (dom (d_live m) ∪ {[0; MAP_FAILED]}).
Definition d_add (b : block) (p : Z) (m : demo) : demo :=
  {| d_current := d_current m; d_live := <[p := b]> (d_live m); d_registered := d_registered m |}.
Definition d_remove (p : Z) (m : demo) : demo :=
  {| d_current := d_current m; d_live := delete p (d_live m); d_registered := d_registered m |}.
Definition d_alloc (k : demo -> mem_kind) (n : Z) (pm : Z * demo) : Z * (Z * demo) :=
  let p := d_fresh pm.2 in (0, (p, d_add (Block (k pm.2) n) p pm.2)).
Definition d_free (ok : mem_kind -> bool) (p : Z) (m : demo) : Z * demo :=
  match d_blocks m !! p with
  | Some b => if ok (kind b) then (0, d_remove p m) else (1, m)
  | None => (1, m)
  end.
Definition d_is_device (k : mem_kind) : bool := match k with OnDevice _ => true | _ => false end.
Definition d_device (m : demo) : mem_kind := OnDevice (d_current m).

#[local] Instance demo_cuda : Cuda := {|
  machine := demo;
  driver_available := driver;
  cudaGetDevice m := (0, d_current m);
  cudaSetDevice d m := if bool_decide (d ∈ devices) then (0, {| d_current := d; d_live := d_live m; d_registered := d_registered m |}) else (101, m);
  cudaMalloc n := d_alloc d_device n;
  cudaFree := d_free d_is_device;
  cudaMallocFromPoolAsync n pool _ := d_alloc (fun _ => OnDevice (pool - 1)) n;
  cudaFreeAsync p _ m := if pools then d_free d_is_device p m else (801, m);
  mem_pools_supported _ _ := (0, if pools then 1 else 0);
  cudaDeviceGetDefaultMemPool d _ := (0, d + 1);
  cudaMemGetInfo _ := (0, (1024, 4096));
  set_release_threshold _ _ m := (0, m);
  cudaMallocHost n := d_alloc (fun _ => Pinned) n;
  cudaFreeHost := d_free (fun k => bool_decide (k = Pinned));
  cudaHostRegister p _ m :=
    if register_error =? 0 then (0, {| d_current := d_current m; d_live := d_live m; d_registered := {[p]} ∪ d_registered m |})
    else (register_error, m);
  cudaHostUnregister p m :=
    if bool_decide (p ∈ d_registered m)
    then (0, {| d_current := d_current m; d_live := d_live m; d_registered := d_registered m ∖ {[p]} |}) else (713, m);
  mmap n _ m := (d_alloc (fun _ => HugeMapped) n (0, m)).2;
  munmap p _ m := (0, d_remove p m);
  malloc n m := (d_alloc (fun _ => Malloced) n (0, m)).2;
  free p m := d_remove p m;
  hugepage_dir _ := dir |}.

#[local] Instance demo_view : CudaView := {|
  current_device := d_current; live_blocks := d_blocks; registered := d_registered; pools_on _ := pools;
  pool_device pool := pool - 1 |}.

Lemma d_fresh_ok (m : demo) : d_fresh m <> 0 /\ d_fresh m <> MAP_FAILED /\ d_live m !! d_fresh m = None.
Proof.
  pose proof (is_fresh (C := gset Z) (dom (d_live m) ∪ {[0; MAP_FAILED]})) as Hf. fold (d_fresh m) in Hf.
  split; [set_solver|]. split; [set_solver|]. apply not_elem_of_dom. set_solver.
Qed.

Lemma d_alloc_new k n p (m m' : demo) e q : d_alloc k n (p, m) = (e, (q, m')) -> e = 0 /\ new_block (Block (k m) n) q m m'.
Proof.
  intros [= <- <- <-]. destruct (d_fresh_ok m) as (H0 & H1 & H2). split; [done|]. unfold new_block, live_blocks; simpl. unfold d_blocks; simpl.
  rewrite lookup_delete_ne by done. split_and!; try done. by rewrite delete_insert_ne by done.
Qed.

Lemma d_remove_blocks p (m : demo) : d_blocks (d_remove p m) = delete p (d_blocks m).
Proof. unfold d_blocks; simpl. by rewrite delete_delete. Qed.

Lemma d_free_freed ok P p (m m' : demo) e : (forall k, ok k = true -> P k) -> d_free ok p m = (e, m') ->
  if e =? cudaSuccess then freed P p m m' else silent m m'.
Proof.
  intros HP. unfold d_free. destruct (d_blocks m !! p) as [b|] eqn:Eb; [destruct (ok (kind b)) eqn:Ek|]; intros [= <- <-]; try done.
  split; [right; exists b; auto|]. split; [done|]. split; [apply d_remove_blocks|done].
Qed.

Lemma d_is_device_ok k : d_is_device k = true -> on_some_device k.
Proof. destruct k; try done. by eexists. Qed.

#[local] Instance demo_laws : CudaLaws.
Proof.
  split; simpl.
  - intros m. apply lookup_delete_eq.
  - by intros m d [= <-].
  - intros d m e m'. destruct (bool_decide _); by intros [= <- <-].
  - intros n p m e q m' _ [-> ?]%d_alloc_new. done.
  - intros n pool _ p m e q m' _ [-> ?]%d_alloc_new. done.
  - intros d m pool [= <-] _. lia.
  - intros p m e m'. apply d_free_freed, d_is_device_ok.
  - intros p _ m e m'. destruct pools; [|by intros [= <- <-]].
    intros E%(d_free_freed _ on_some_device); [|by apply d_is_device_ok]. destruct (e =? _); [by split|done].
  - intros d _ v. by destruct pools; intros [= <-].
  - by intros _ _ m e m' [= _ <-].
  - intros n p m e q m' _ [-> ?]%d_alloc_new. done.
  - intros p m e m'. apply d_free_freed. intros k. by rewrite bool_decide_eq_true.
  - intros p n m e m'. destruct (Z.eqb_spec register_error 0) as [E|E]; intros [= <- <-]; [done|].
    unfold cudaSuccess. by rewrite (proj2 (Z.eqb_neq _ _) E).
  - intros p m e m'. destruct (bool_decide_reflect (p ∈ d_registered m)); by intros [= <- <-].
  - intros n _ m q m' _ E. destruct (d_alloc_new (fun _ => HugeMapped) n 0 m m' 0 q) as [_ Hn].
    { injection E as <- <-. done. }
    destruct Hn as (? & Hf & ?). rewrite (proj2 (Z.eqb_neq _ _) Hf). done.
  - intros p n m r m' _ [= <- <-]. by split_and!; [|apply d_remove_blocks|].
  - intros n m q m' _ E. destruct (d_alloc_new (fun _ => Malloced) n 0 m m' 0 q) as [_ Hn].
    { injection E as <- <-. done. }
    destruct Hn as (Hf & ?). rewrite (proj2 (Z.eqb_neq _ _) Hf). done.
  - intros p n m _. by split_and!; [|apply d_remove_blocks|].
Qed.

Definition demo_state : allocator_state :=
  {| mem_pools_ := ∅; host_mmap_allocations_ := ∅; sys := {| d_current := 0; d_live := ∅; d_registered := ∅ |} |}.
Lemma demo_state_ok : allocator_ok demo_state.
Proof. split; [|done]. intros p n. unfold heap_of; simpl. unfold d_blocks; simpl. by rewrite delete_empty, !lookup_empty. Qed.
End Demo.

(** ** Runs of the allocator on this machine *)

Definition demo_pages : list (string * option Z) :=
  [("/sys/devices/system/node/node0/hugepages/hugepages-1048576kB", Some 3);
   ("/sys/devices/system/node/node0/hugepages/hugepages-2048kB", Some 700)]%string.

Lemma demo_pages_ok : Forall entry_ok demo_pages.
Proof.
  apply Forall_cons_2; [right; exists 20; split; [lia|reflexivity]|].
  apply Forall_cons_2; [right; exists 11; split; [lia|reflexivity]|apply Forall_nil_2].
Qed.

Section Runs.
Context (register_error : Z) (pools : bool) (devices : list Z).
#[local] Instance run_cuda : Cuda := demo_cuda true register_error pools devices (Some demo_pages).
#[local] Instance run_view : CudaView := demo_view true register_error pools devices (Some demo_pages).
#[local] Instance run_laws : CudaLaws := demo_laws true register_error pools devices (Some demo_pages).
Definition run_state : allocator_state := demo_state true register_error pools devices (Some demo_pages).
Definition run (r : alloc_request) (ps : Z * allocator_state) := perform true (2 ^ 30) r ps.
Definition run_host (sz p : Z) (s : allocator_state) := host_allocate true (2 ^ 30) sz (p, s).
Lemma run_state_ok : allocator_ok run_state.
Proof. apply demo_state_ok. Qed.
End Runs.

(** Device 1 is used and device 0 is current again; a gigabyte and a byte take two huge pages. *)
Definition outcome_of (r : alloc_request) : cudaError * (Z * allocator_state) :=
  match run 0 true [0; 1] r (5, run_state 0 true [0; 1]) with Ok x => x | _ => (1, (0, run_state 0 true [0; 1])) end.
Definition run_heap_step (r : alloc_request) : Prop :=
  heap_step (Vi := run_view 0 true [0; 1]) (2 ^ 30) (run_state 0 true [0; 1]) r (outcome_of r).2.1 (heap_of (Vi := run_view 0 true [0; 1]) (outcome_of r).2.2).

Lemma run_outcome r : (outcome_of r).1 = 0 ->
  run 0 true [0; 1] r (5, run_state 0 true [0; 1]) = Ok (cudaSuccess, ((outcome_of r).2.1, (outcome_of r).2.2)).
Proof. unfold outcome_of. destruct (run _ _ _ _ _) as [[e [q s]]|e|e]; simpl; [by intros ->|done|done]. Qed.

Lemma allocator_refines_witness : run_heap_step (DeviceAllocate 64 1) /\ run_heap_step (DeviceAllocateAsync 64 7 1) /\ run_heap_step (HostAllocate (2 ^ 30 + 1)).
Proof.
  split; [|split].
  - apply (allocator_refines (La := run_laws 0 true [0; 1]) true (2 ^ 30) (DeviceAllocate 64 1) 5 (run_state 0 true [0; 1])).
    + simpl; lia.
    + discriminate.
    + apply run_state_ok.
    + refine (run_outcome (DeviceAllocate 64 1) _). vm_compute. reflexivity.
  - apply (allocator_refines (La := run_laws 0 true [0; 1]) true (2 ^ 30) (DeviceAllocateAsync 64 7 1) 5 (run_state 0 true [0; 1])).
    + simpl; lia.
    + discriminate.
    + apply run_state_ok.
    + refine (run_outcome (DeviceAllocateAsync 64 7 1) _). vm_compute. reflexivity.
  - apply (allocator_refines (La := run_laws 0 true [0; 1]) true (2 ^ 30) (HostAllocate (2 ^ 30 + 1)) 5 (run_state 0 true [0; 1])).
    + split; [lia|]. intros entries E. injection E as <-. exact demo_pages_ok.
    + discriminate.
    + apply run_state_ok.
    + refine (run_outcome (HostAllocate (2 ^ 30 + 1)) _). vm_compute. reflexivity.
Defined.

Lemma hugepage_mapping_fits_witness :
  exists b, run_host 0 true [0] (2 ^ 30 + 1) 5 (run_state 0 true [0]) = Ok (map_hugepages (H := run_cuda 0 true [0]) (2 ^ 30 + 1) b (run_state 0 true [0])) /\
    round_up (2 ^ 30 + 1) (Z.shiftl 1 b) mod 2 ^ b = 0 /\ 30 <= b.
Proof.
  assert (Hr : has_room (2 ^ 30 + 1) ("/sys/devices/system/node/node0/hugepages/hugepages-1048576kB", Some 3)%string 20)
    by (split; [split; [lia|reflexivity]|vm_compute; discriminate]).
  destruct (hugepage_mapping_fits (Cu := run_cuda 0 true [0]) true (2 ^ 30) (2 ^ 30 + 1) 5 (run_state 0 true [0]) demo_pages)
    as [(b & e & _ & _ & Hmax & E & Hn & _)|[Hno _]]; [reflexivity|lia|lia|reflexivity|exact demo_pages_ok| |].
  - exists b. split; [exact E|]. split; [exact Hn|]. refine (Hmax _ 20 _ Hr); left.
  - exfalso. refine (Hno _ 20 _ Hr); left.
Defined.

(** A machine that refuses to register mappings. *)
Definition mapped := map_hugepages (H := run_cuda 1 true [0]) (2 ^ 30 + 1) 30 (run_state 1 true [0]).
Definition released := host_free (H := run_cuda 1 true [0]) mapped.2.

Lemma failed_registration_leaks_witness :
  released.1 <> 0 /\ heap_of (Vi := run_view 1 true [0]) released.2.2 !! mapped.2.1 = Some (Block HugeMapped (2 ^ 31)).
Proof.
  destruct (failed_registration_leaks (La := run_laws 1 true [0]) (2 ^ 30 + 1) 30 (run_state 1 true [0])
    mapped.1 mapped.2.1 mapped.2.2 released.1 released.2.1 released.2.2) as (H1 & _ & H3).
  - lia.
  - lia.
  - reflexivity.
  - unfold mapped. destruct (map_hugepages _ _ _) as [e [q s]]. reflexivity.
  - vm_compute. discriminate.
  - vm_compute. discriminate.
  - apply not_elem_of_empty.
  - unfold released. destruct mapped as [e [q s]]. cbn [fst snd]. by destruct (host_free (q, s)) as [e' [q' s']].
  - split; [exact H1|exact H3].
Defined.

(** Without pools the block stays. *)
Definition pooled := device_allocate_async (H := run_cuda 0 false [0]) 64 7 0 (5, run_state 0 false [0]).
Definition unpooled := device_free_async (H := run_cuda 0 false [0]) 7 0 pooled.2.

Lemma unpooled_async_leaks_witness : pooled.1 = 0 /\ unpooled.1 <> 0.
Proof.
  split; [vm_compute; reflexivity|].
  apply (unpooled_async_leaks (La := run_laws 0 false [0]) true (2 ^ 30) 64 7 7 0 5 (run_state 0 false [0])
    pooled.2.1 pooled.2.2 unpooled.1 unpooled.2.1 unpooled.2.2).
  - lia.
  - apply run_state_ok.
  - reflexivity.
  - assert (E : pooled.1 = cudaSuccess) by (vm_compute; reflexivity). rewrite <- E. reflexivity.
  - reflexivity.
Defined.

(** When device 0 cannot be made current again, the call fails and the block stays. *)
Definition stranded := device_allocate (H := run_cuda 0 true [1]) 64 1 (5, run_state 0 true [1]).
Example return_failure_keeps_block :
  stranded.1 = 101 /\ heap_of (Vi := run_view 0 true [1]) stranded.2.2 !! stranded.2.1 = Some (Block (OnDevice 1) 64).
Proof. split; vm_compute; reflexivity. Qed.
End AllocatorExamples.
