(* ===== verification/MemBlock.v ===== *)
(** * Memory blocks: [src/memblock.cpp], [include/memblock.hpp]

    A memory block is the storage of a linear table: memory of the default allocator on a device
    or on the host, memory of the user, or memory of several GPUs behind one range of addresses
    ([NVLMemBlock]). The latter uses the driver's interface for virtual memory, a class of
    operations here; the theorems say on which GPU every byte is, and that destruction gives
    everything back. *)
From S2P Require Import Prelude BitOps Buffers DataTypes DefaultAllocator.

(** ** Sizes *)

(** [row_size * num_embeddings * dtype_size(dtype)] on [size_t]. *)
Definition block_bytes (row_size num_embeddings dtype : Z) : Z :=
  wrapu 64 (wrapu 64 (row_size * num_embeddings) * wrapu 64 (dtype_size dtype)).

(** ** Blocks of the default allocator *)

Inductive MemBlockType := LINEAR | NVL | MPI | MANAGED | USER | HOST.

Section AllocatorBlocks.
Context `{Cuda} (ndebug : bool) (threshold : Z).

(** What the constructors do with the result of the allocator: an error and a null pointer throw. *)
Definition checked_block (r : outcome (cudaError * (Z * allocator_state))) (s : allocator_state) : outcome Z * allocator_state :=
  match r with
  | Ok (e, (p, s)) =>
      (check! e =? cudaSuccess as "allocation failed" in check! negb (p =? 0) as "null block" in Ok p, s)
  | Throw e => (Throw e, s)
  | Undef w => (Undef w, s)
  end.

(** [LinearMemBlock] on a device, or on the host for a negative device; [ptr] is what the
    uninitialised member holds. *)
Definition LinearMemBlock (size_to_alloc device_id ptr : Z) (s : allocator_state) : outcome Z * allocator_state :=
  checked_block (if device_id <? 0 then host_allocate ndebug threshold size_to_alloc (ptr, s)
                 else Ok (device_allocate size_to_alloc device_id (ptr, s))) s.
Definition delete_LinearMemBlock (device_id ptr : Z) (s : allocator_state) : cudaError * allocator_state :=
  let '(e, (_, s)) := if device_id <? 0 then host_free (ptr, s) else device_free device_id (ptr, s) in (e, s).

Definition HostMemBlock (size_to_alloc : Z) (s : allocator_state) : outcome Z * allocator_state :=
  checked_block (host_allocate ndebug threshold size_to_alloc (0, s)) s.
Definition delete_HostMemBlock (ptr : Z) (s : allocator_state) : cudaError * allocator_state :=
  let '(e, (_, s)) := host_free (ptr, s) in (e, s).
End AllocatorBlocks.

(** [UserMemBlock]: the address itself. *)
Definition UserMemBlock (ptr : Z) : Z := ptr.

(** ** Devices of a loaded block *)

Definition resolve_memblock_devices (type : MemBlockType) (def_index : Z) (override : list Z) (device_count : outcome Z)
  : outcome (list Z) :=
  match override with
  | _ :: _ => Ok override
  | [] =>
      match type with
      | NVL =>
          let! num_gpus := device_count in
          check! (0 <=? def_index) && (def_index <? num_gpus) as "resolve_memblock_devices: def_index out of range" in
          Ok (seqZ def_index (num_gpus - def_index))
      | _ => Ok [def_index]
      end
  end.

(** ** NVLMemBlock *)

(** The driver's virtual memory; every call returns 0 for success. *)
Class Vmm := {
  vm : Type;
  GetDevice : vm -> Z * Z;
  GetDeviceCount : vm -> Z * Z;
  SetDevice : Z -> vm -> Z * vm;
  MemGetInfo : vm -> Z * Z;
  FreeNull : vm -> Z * vm;
  cuMemCreate : Z -> Z -> vm -> Z * (Z * vm);
  cuMemAddressReserve : Z -> vm -> Z * (Z * vm);
  cuMemMap : Z -> Z -> Z -> vm -> Z * vm;
  cuMemSetAccess : Z -> Z -> list Z -> vm -> Z * vm;
  DeviceSynchronize : vm -> Z * vm;
  Memset : Z -> Z -> vm -> Z * vm;
  cuMemUnmap : Z -> Z -> vm -> Z * vm;
  cuMemRelease : Z -> vm -> Z * vm;
  cuMemAddressFree : Z -> Z -> vm -> Z * vm
}.

Definition kLargePageSizeBytes : Z := 2 * 1024 * 1024.
(** Rounding up to large pages, on [size_t]. *)
Definition align_page (n : Z) : Z := wrapu 64 (wrapu 64 (n + kLargePageSizeBytes - 1) / kLargePageSizeBytes * kLargePageSizeBytes).

Definition byte_per_gpu (size_to_alloc num_devices : Z) : outcome Z :=
  if num_devices =? 0 then Undef "division by zero"
  else
    let per_gpu := align_page (wrapu 64 (size_to_alloc + num_devices - 1) / num_devices) in
    check! per_gpu mod kLargePageSizeBytes =? 0 as "alignment" in Ok per_gpu.

Section NVL.
Context `{Vmm}.

(** Calls of the driver in sequence; [NVE_CHECK_] throws on an error. *)
Definition driver (A : Type) : Type := vm -> outcome A * vm.
Definition dret {A} (a : A) : driver A := fun m => (Ok a, m).
Definition dbind {A B} (c : driver A) (k : A -> driver B) : driver B := fun m =>
  let '(r, m) := c m in match r with Ok a => k a m | Throw e => (Throw e, m) | Undef w => (Undef w, m) end.
Definition dcall (f : vm -> Z * vm) : driver unit := fun m =>
  let '(e, m) := f m in (check! e =? 0 as "driver error" in Ok tt, m).
Definition dcall_out (f : vm -> Z * (Z * vm)) : driver Z := fun m =>
  let '(e, (x, m)) := f m in (check! e =? 0 as "driver error" in Ok x, m).
Definition dquery (f : vm -> Z * Z) : driver Z := fun m =>
  let '(e, x) := f m in (check! e =? 0 as "driver error" in Ok x, m).
Definition dlift {A} (o : outcome A) : driver A := fun m => (o, m).
#[local] Notation "x <-- c ;; k" := (dbind c (fun x => k)) (at level 100, c at level 99, right associativity).
#[local] Notation "c ;;; k" := (dbind c (fun _ => k)) (at level 100, right associativity).

(** The loop that chooses the size of every GPU's part: [GpuAllocationInfo] is (size, id). *)
Fixpoint plan_parts (per_gpu : Z) (gpu_ids : list Z) (remined_total_bytes : Z) : driver (list (Z * Z)) :=
  match gpu_ids with
  | [] => dret []
  | peer_device :: rest =>
      let full := per_gpu <? remined_total_bytes in
      let sz := if full then per_gpu else align_page remined_total_bytes in
      let remined := if full then remined_total_bytes - per_gpu else 0 in
      dcall (SetDevice peer_device) ;;;
      avail_phy_vidmem <-- dquery MemGetInfo ;;
      dlift (check! sz <=? avail_phy_vidmem as "Not enough available GPU memory" in Ok tt) ;;;
      if remined =? 0 then dret [(sz, peer_device)]
      else parts <-- plan_parts per_gpu rest remined ;; dret ((sz, peer_device) :: parts)
  end.

Fixpoint create_parts (parts : list (Z * Z)) : driver (list Z) :=
  match parts with
  | [] => dret []
  | (sz, id) :: rest =>
      dcall (SetDevice id) ;;; dcall FreeNull ;;; dcall (SetDevice 0) ;;;
      handle <-- dcall_out (cuMemCreate sz id) ;;
      handles <-- create_parts rest ;; dret (handle :: handles)
  end.

Fixpoint map_parts (ptr offset : Z) (parts : list (Z * Z)) (handles : list Z) : driver unit :=
  match parts, handles with
  | (sz, _) :: parts, handle :: handles =>
      dcall (cuMemMap (ptr + offset) sz handle) ;;; map_parts ptr (offset + sz) parts handles
  | _, _ => dret tt
  end.

Record nvl_block := { nvl_ptr : Z; nvl_handles : list Z; nvl_total : Z }.
Definition total_bytes (parts : list (Z * Z)) : Z := fold_left (fun a b => wrapu 64 (a + b.1)) parts 0.

Definition NVLMemBlock (size_to_alloc : Z) (gpu_ids : list Z) : driver nvl_block :=
  cur_device <-- dquery GetDevice ;;
  num_gpus_in_system <-- dquery GetDeviceCount ;;
  let num_devices := Z.of_nat (length gpu_ids) in
  dlift (check! num_devices <=? num_gpus_in_system as "num_devices" in Ok tt) ;;;
  per_gpu <-- dlift (byte_per_gpu size_to_alloc num_devices) ;;
  parts <-- plan_parts per_gpu gpu_ids size_to_alloc ;;
  handles <-- create_parts parts ;;
  let total := total_bytes parts in
  ptr <-- dcall_out (cuMemAddressReserve total) ;;
  map_parts ptr 0 parts handles ;;;
  dcall (cuMemSetAccess ptr total (seqZ 0 num_gpus_in_system)) ;;;
  dcall DeviceSynchronize ;;; dcall (Memset ptr total) ;;; dcall (SetDevice cur_device) ;;;
  dret {| nvl_ptr := ptr; nvl_handles := handles; nvl_total := total |}.

(** The destructor; its checks only log. The result tells whether every call succeeded. *)
Fixpoint release_handles (handles : list Z) (m : vm) : bool * vm :=
  match handles with
  | [] => (true, m)
  | h :: rest => let '(e, m) := cuMemRelease h m in let '(ok, m) := release_handles rest m in ((e =? 0) && ok, m)
  end.
Definition delete_NVLMemBlock (b : nvl_block) (m : vm) : bool * vm :=
  let '(e1, m) := cuMemUnmap (nvl_ptr b) (nvl_total b) m in
  let '(ok, m) := release_handles (nvl_handles b) m in
  let '(e2, m) := cuMemAddressFree (nvl_ptr b) (nvl_total b) m in
  ((e1 =? 0) && ok && (e2 =? 0), m).
End NVL.

(** ** What the driver promises *)

Class VmmView `{Vmm} := {
  vm_device : vm -> Z;
  vm_handles : vm -> gmap Z (Z * Z);   (* handle: size and device *)
  vm_reserved : vm -> gmap Z Z;        (* address: size *)
  vm_maps : vm -> gmap Z (Z * Z)       (* address: size and handle *)
}.

Definition vm_same `{VmmView} (m m' : vm) : Prop :=
  vm_handles m' = vm_handles m /\ vm_reserved m' = vm_reserved m /\ vm_maps m' = vm_maps m.

(** The effect of the calls that succeed. *)
Class VmmLaws `{VmmView} : Prop := {
  vm_get_device m d : GetDevice m = (0, d) -> d = vm_device m;
  vm_set_device d m m' : SetDevice d m = (0, m') -> vm_same m m' /\ vm_device m' = d;
  vm_free_null m m' : FreeNull m = (0, m') -> vm_same m m';
  vm_create sz d m h m' : cuMemCreate sz d m = (0, (h, m')) ->
    vm_handles m !! h = None /\ vm_handles m' = <[h := (sz, d)]> (vm_handles m) /\ vm_reserved m' = vm_reserved m /\ vm_maps m' = vm_maps m;
  vm_reserve n m p m' : cuMemAddressReserve n m = (0, (p, m')) ->
    vm_reserved m !! p = None /\ (forall a, p <= a < p + n -> vm_maps m !! a = None) /\
    vm_handles m' = vm_handles m /\ vm_reserved m' = <[p := n]> (vm_reserved m) /\ vm_maps m' = vm_maps m;
  vm_map a sz h m m' : cuMemMap a sz h m = (0, m') ->
    vm_handles m' = vm_handles m /\ vm_reserved m' = vm_reserved m /\ vm_maps m' = <[a := (sz, h)]> (vm_maps m);
  vm_access a n ds m m' : cuMemSetAccess a n ds m = (0, m') -> vm_same m m';
  vm_synchronize m m' : DeviceSynchronize m = (0, m') -> vm_same m m';
  vm_memset a n m m' : Memset a n m = (0, m') -> vm_same m m';
  vm_unmap a n m m' : cuMemUnmap a n m = (0, m') ->
    vm_handles m' = vm_handles m /\ vm_reserved m' = vm_reserved m /\
    forall b, vm_maps m' !! b = (if (a <=? b) && (b <? a + n) then None else vm_maps m !! b);
  vm_release h m m' : cuMemRelease h m = (0, m') ->
    vm_handles m' = delete h (vm_handles m) /\ vm_reserved m' = vm_reserved m /\ vm_maps m' = vm_maps m;
  vm_address_free a n m m' : cuMemAddressFree a n m = (0, m') ->
    vm_handles m' = vm_handles m /\ vm_reserved m' = delete a (vm_reserved m) /\ vm_maps m' = vm_maps m
}.

(** ** Sizes of the parts *)

Lemma align_page_spec n : 0 < n < 2 ^ 62 ->
  align_page n mod kLargePageSizeBytes = 0 /\ n <= align_page n < n + kLargePageSizeBytes.
Proof.
  intros Hn. unfold align_page, kLargePageSizeBytes. rewrite (wrapu_small 64 (n + _ - 1)) by (split; lia).
  rewrite wrapu_small by (split; Z.to_euclidean_division_equations; lia).
  split; [by apply Z.mod_mul; lia|]. Z.to_euclidean_division_equations; lia.
Qed.

(** [byte_per_gpu] is a number of large pages, and the devices together have room. *)
Lemma byte_per_gpu_spec size n : 0 < size < 2 ^ 61 -> 0 < n < 2 ^ 31 ->
  exists per, byte_per_gpu size n = Ok per /\ per mod kLargePageSizeBytes = 0 /\ 0 < per < 2 ^ 62 /\ size <= n * per.
Proof.
  intros Hs Hn. unfold byte_per_gpu. rewrite (proj2 (Z.eqb_neq _ _)) by lia. rewrite wrapu_small by (split; lia).
  set (q := (size + n - 1) / n). assert (Hq : 0 < q <= size /\ size <= n * q).
  { unfold q. pose proof (Z.div_mod (size + n - 1) n ltac:(lia)) as Hd. pose proof (Z.mod_pos_bound (size + n - 1) n ltac:(lia)).
    split; [split|lia]; [|apply Z.div_le_upper_bound; [lia|nia]]. apply Z.div_str_pos. lia. }
  destruct (align_page_spec q ltac:(lia)) as [Hm Hb]. rewrite Hm. simpl. eexists. split; [done|]. split; [done|].
  unfold kLargePageSizeBytes in *. split; [lia|]. nia.
Qed.

(** The parts of [rest] bytes over the devices [ids]: full parts of [per] bytes, and a last one. *)
Inductive parts_of (per : Z) : list Z -> Z -> list (Z * Z) -> Prop :=
  | last_part id ids rest : 0 < rest <= per -> parts_of per (id :: ids) rest [(align_page rest, id)]
  | full_part id ids rest parts : per < rest -> parts_of per ids (rest - per) parts ->
      parts_of per (id :: ids) rest ((per, id) :: parts).

Section Parts.
Context (per : Z) (Hper : 0 < per < 2 ^ 62) (Hpage : per mod kLargePageSizeBytes = 0).

Lemma align_page_le rest : 0 < rest <= per -> rest <= align_page rest <= per /\ align_page rest - rest < kLargePageSizeBytes.
Proof.
  intros Hr. destruct (align_page_spec rest ltac:(lia)) as [Hm Hb]. unfold kLargePageSizeBytes in *.
  split; [|lia]. split; [lia|]. Z.to_euclidean_division_equations; lia.
Qed.

(** The sum of the sizes. *)
Definition sizes (parts : list (Z * Z)) : Z := foldr (fun b a => b.1 + a) 0 parts.

Lemma parts_of_spec ids rest parts : parts_of per ids rest parts ->
  rest <= sizes parts < rest + kLargePageSizeBytes /\ Forall (fun b => 0 < b.1 <= per /\ b.1 mod kLargePageSizeBytes = 0) parts /\
  parts.*2 `prefix_of` ids.
Proof.
  intros H. induction H as [id ids rest Hr|id ids rest parts Hr _ (IH1 & IH2 & IH3)]; simpl.
  - destruct (align_page_le rest Hr). destruct (align_page_spec rest ltac:(lia)) as [Hm _]. split; [lia|].
    split; [|apply prefix_cons, prefix_nil]. constructor; [|done]. simpl. split; [lia|done].
  - split; [lia|]. split; [|by apply prefix_cons]. constructor; [|done]. simpl. split; [lia|done].
Qed.

(** All parts but the last are full: byte [o] is in part [o / per]. *)
Lemma parts_of_byte ids rest parts o : parts_of per ids rest parts -> 0 <= o < rest ->
  exists sz dev, parts !! Z.to_nat (o / per) = Some (sz, dev) /\ ids !! Z.to_nat (o / per) = Some dev /\
    o / per * per <= o < o / per * per + sz /\ sizes (take (Z.to_nat (o / per)) parts) = o / per * per.
Proof.
  intros H. revert o. induction H as [id ids rest Hr|id ids rest parts Hr _ IH]; intros o Ho.
  - rewrite Z.div_small by lia. simpl. destruct (align_page_le rest Hr). exists (align_page rest), id. split_and!; try done; lia.
  - destruct (Z_lt_le_dec o per) as [Hlt|Hge].
    + rewrite Z.div_small by lia. simpl. exists per, id. split_and!; try done; lia.
    + destruct (IH (o - per) ltac:(lia)) as (sz & dev & H1 & H2 & H3 & H4).
      assert (E : o / per = (o - per) / per + 1).
      { replace o with (o - per + 1 * per) at 1 by lia. by rewrite Z.div_add by lia. }
      pose proof (Z.div_pos (o - per) per ltac:(lia) ltac:(lia)). rewrite E, Z2Nat.inj_add, Nat.add_1_r by lia. simpl.
      exists sz, dev. split; [done|]. split; [done|]. split; [lia|]. rewrite H4. lia.
Qed.

Lemma total_bytes_sizes parts : Forall (fun b => 0 < b.1) parts -> sizes parts < 2 ^ 64 -> total_bytes parts = sizes parts.
Proof.
  unfold total_bytes. assert (G : forall a, 0 <= a -> Forall (fun b => 0 < b.1) parts -> a + sizes parts < 2 ^ 64 ->
    fold_left (fun a b => wrapu 64 (a + b.1)) parts a = a + sizes parts).
  { induction parts as [|b parts IH]; intros a Ha HF Hs; simpl in *; [lia|]. apply Forall_cons in HF as [Hb HF].
    assert (0 <= sizes parts) by (clear -HF; induction HF; simpl; lia).
    rewrite wrapu_small by (split; lia). rewrite IH by (try done; lia). lia. }
  intros HF Hs. by rewrite (G 0).
Qed.
End Parts.

(** ** The constructor and the destructor *)

Section Blocks.
Context {Vm : Vmm} {Vv : VmmView} {La : VmmLaws}.

Lemma dbind_Ok {A B} (c : driver A) (k : A -> driver B) m b m' :
  dbind c k m = (Ok b, m') -> exists a m1, c m = (Ok a, m1) /\ k a m1 = (Ok b, m').
Proof. unfold dbind. destruct (c m) as [[a|e|w] m1]; [by eauto|done|done]. Qed.
Lemma dcall_Ok f m u m' : dcall f m = (Ok u, m') -> f m = (0, m').
Proof. unfold dcall. destruct (f m) as [e m1]. by destruct (Z.eqb_spec e 0) as [->|]; intros [= _ <-]. Qed.
Lemma dcall_out_Ok f m x m' : dcall_out f m = (Ok x, m') -> f m = (0, (x, m')).
Proof. unfold dcall_out. destruct (f m) as [e [y m1]]. by destruct (Z.eqb_spec e 0) as [->|]; intros [= -> <-]. Qed.
Lemma dquery_Ok f m x m' : dquery f m = (Ok x, m') -> f m = (0, x) /\ m' = m.
Proof. unfold dquery. destruct (f m) as [e y]. by destruct (Z.eqb_spec e 0) as [->|]; intros [= -> <-]. Qed.
Lemma dlift_Ok {A} (o : outcome A) m a m' : dlift o m = (Ok a, m') -> o = Ok a /\ m' = m.
Proof. by intros [= -> <-]. Qed.

Lemma vm_same_trans m1 m2 m3 : vm_same m1 m2 -> vm_same m2 m3 -> vm_same m1 m3.
Proof. unfold vm_same. intros (? & ? & ?) (? & ? & ?). split_and!; congruence. Qed.

(** Destruct the calls of a successful sequence. *)
Ltac driver_steps := repeat match goal with
  | E : dbind _ _ _ = (Ok _, _) |- _ => let a := fresh "x" in let m := fresh "m" in apply dbind_Ok in E as (a & m & ? & E)
  | E : dcall _ _ = (Ok _, _) |- _ => apply dcall_Ok in E
  | E : dcall_out _ _ = (Ok _, _) |- _ => apply dcall_out_Ok in E
  | E : dquery _ _ = (Ok _, _) |- _ => let E' := fresh in apply dquery_Ok in E as [E E']; subst
  | E : dlift _ _ = (Ok _, _) |- _ => let E' := fresh in apply dlift_Ok in E as [E E']; subst
  | E : dret _ _ = (Ok _, _) |- _ => injection E as <- <-
  end.

Lemma plan_parts_Ok per gpu_ids rest m parts m' : 0 < per -> 0 < rest <= Z.of_nat (length gpu_ids) * per ->
  plan_parts per gpu_ids rest m = (Ok parts, m') -> parts_of per gpu_ids rest parts /\ vm_same m m'.
Proof.
  intros Hper. revert rest m parts m'. induction gpu_ids as [|d ids IH]; intros rest m parts m' Hr E; [simpl in Hr; lia|].
  cbn [plan_parts] in E. cbv zeta in E. destruct (Z.ltb_spec per rest) as [Hlt|Hge].
  - rewrite (proj2 (Z.eqb_neq _ _)) in E by lia. driver_steps.
    match goal with H : SetDevice _ _ = _ |- _ => apply vm_set_device in H as [Hs _] end.
    match goal with H : plan_parts _ _ _ _ = _ |- _ => apply IH in H as [Hp Hs']; [|simpl in Hr; lia] end.
    split; [by constructor|by eapply vm_same_trans].
  - rewrite Z.eqb_refl in E. driver_steps.
    match goal with H : SetDevice _ _ = _ |- _ => apply vm_set_device in H as [Hs _] end.
    split; [by constructor; lia|done].
Qed.

(** The handles are new, distinct, and of the size and device of their part. *)
Lemma create_parts_Ok parts m hs m' : create_parts parts m = (Ok hs, m') ->
  length hs = length parts /\ NoDup hs /\ (forall h, h ∈ hs -> vm_handles m !! h = None) /\
  (forall h, h ∉ hs -> vm_handles m' !! h = vm_handles m !! h) /\
  (forall i h part, hs !! i = Some h -> parts !! i = Some part -> vm_handles m' !! h = Some part) /\
  vm_reserved m' = vm_reserved m /\ vm_maps m' = vm_maps m.
Proof.
  revert m hs. induction parts as [|[sz d] parts IH]; intros m hs E; cbn [create_parts] in E.
  - driver_steps. split_and!; try done; [constructor|set_solver].
  - driver_steps. repeat match goal with
      | H : SetDevice _ _ = _ |- _ => apply vm_set_device in H as [? _]
      | H : FreeNull _ = _ |- _ => apply vm_free_null in H
      | H : cuMemCreate _ _ _ = _ |- _ => apply vm_create in H as (Hn & Hh & Hr & Hm)
      | H : create_parts _ _ = _ |- _ => apply IH in H as (Hl & Hnd & Hnew & Hold & Hat & Hr' & Hm')
      | H : vm_same _ _ |- _ => destruct H as (? & ? & ?) end.
    assert (Hx : x2 ∉ x3). { intros Hx%Hnew. rewrite Hh, lookup_insert_eq in Hx. done. }
    split; [simpl; congruence|]. split; [by constructor|]. split; [|split; [|split]].
    + intros h [->|Hin]%elem_of_cons; [congruence|]. pose proof (Hnew h Hin) as Hn'.
      rewrite Hh, lookup_insert_ne in Hn' by (by intros <-). congruence.
    + intros h [Hne Hin]%not_elem_of_cons. rewrite (Hold h Hin), Hh, lookup_insert_ne by done. congruence.
    + intros [|i] h part Eh Ep; simpl in Eh, Ep; [|by apply (Hat i)]. injection Eh as <-. injection Ep as <-.
      by rewrite (Hold _ Hx), Hh, lookup_insert_eq.
    + split; congruence.
Qed.

(** Part [i] is mapped at its offset, and nothing outside the range changes. *)
Lemma map_parts_Ok ptr off parts hs m u m' : length hs = length parts -> Forall (fun b => 0 < b.1) parts ->
  map_parts ptr off parts hs m = (Ok u, m') ->
  vm_handles m' = vm_handles m /\ vm_reserved m' = vm_reserved m /\
  (forall a, a < ptr + off \/ ptr + off + sizes parts <= a -> vm_maps m' !! a = vm_maps m !! a) /\
  (forall i h sz d, hs !! i = Some h -> parts !! i = Some (sz, d) ->
     vm_maps m' !! (ptr + off + sizes (take i parts)) = Some (sz, h)).
Proof.
  revert off hs m. induction parts as [|[sz d] parts IH]; intros off hs m Hl HF E; destruct hs as [|h hs]; try done; cbn [map_parts] in E.
  - driver_steps. by split_and!.
  - apply Forall_cons in HF as [Hsz HF]. simpl in Hsz, Hl. driver_steps.
    match goal with H : cuMemMap _ _ _ _ = _ |- _ => apply vm_map in H as (Hh & Hr & Hm) end.
    apply IH in E as (Hh' & Hr' & Hout & Hat); [|lia|done].
    assert (H0 : 0 <= sizes parts) by (clear -HF; induction HF; simpl in *; lia).
    split; [congruence|]. split; [congruence|]. simpl. split.
    + intros a Ha. rewrite Hout by lia. rewrite Hm, lookup_insert_ne by lia. done.
    + intros [|i] h' sz' d' Eh Ep; simpl in Eh, Ep |- *.
      * injection Eh as <-. injection Ep as <- <-. rewrite Hout, Hm, Z.add_0_r by lia. by rewrite lookup_insert_eq.
      * rewrite <- (Hat i h' sz' d' Eh Ep). f_equal. lia.
Qed.

Section Construction.
Context (size : Z) (gpu_ids : list Z) (Hsize : 0 < size < 2 ^ 61) (Hids : 0 < Z.of_nat (length gpu_ids) < 2 ^ 31).

(** The state after a construction that returns. *)
Record nvl_built (per : Z) (parts : list (Z * Z)) (m : vm) (b : nvl_block) (m' : vm) : Prop := {
  nb_parts : parts_of per gpu_ids size parts;
  nb_total : nvl_total b = sizes parts;
  nb_length : length (nvl_handles b) = length parts;
  nb_nodup : NoDup (nvl_handles b);
  nb_new h : h ∈ nvl_handles b -> vm_handles m !! h = None;
  nb_old h : h ∉ nvl_handles b -> vm_handles m' !! h = vm_handles m !! h;
  nb_handle i h part : nvl_handles b !! i = Some h -> parts !! i = Some part -> vm_handles m' !! h = Some part;
  nb_reserved : vm_reserved m !! nvl_ptr b = None /\ vm_reserved m' = <[nvl_ptr b := nvl_total b]> (vm_reserved m);
  nb_range a : nvl_ptr b <= a < nvl_ptr b + nvl_total b -> vm_maps m !! a = None;
  nb_outside a : a < nvl_ptr b \/ nvl_ptr b + nvl_total b <= a -> vm_maps m' !! a = vm_maps m !! a;
  nb_map i h sz d : nvl_handles b !! i = Some h -> parts !! i = Some (sz, d) ->
    vm_maps m' !! (nvl_ptr b + sizes (take i parts)) = Some (sz, h);
  nb_device : vm_device m' = vm_device m
}.

Lemma nvl_construction m b m' : NVLMemBlock size gpu_ids m = (Ok b, m') ->
  exists per parts, byte_per_gpu size (Z.of_nat (length gpu_ids)) = Ok per /\ 0 < per < 2 ^ 62 /\
    per mod kLargePageSizeBytes = 0 /\ nvl_built per parts m b m'.
Proof.
  unfold NVLMemBlock. intros E. driver_steps.
  destruct (byte_per_gpu_spec size (Z.of_nat (length gpu_ids)) Hsize Hids) as (per & Eper & Hpage & Hper & Hroom).
  match goal with H : byte_per_gpu _ _ = Ok _ |- _ => rewrite Eper in H; injection H as <- end.
  match goal with H : plan_parts _ _ _ _ = _ |- _ => apply plan_parts_Ok in H as [Hparts Hs1]; [|lia|lia] end.
  destruct (parts_of_spec per Hper Hpage _ _ _ Hparts) as (Hsz & HF & _).
  assert (HF' : Forall (fun b => 0 < b.1) x3) by (eapply Forall_impl; [exact HF|]; simpl; intros ? [? _]; lia).
  match goal with H : create_parts _ _ = _ |- _ => apply create_parts_Ok in H as (Hl & Hnd & Hnew & Hold & Hat & Hr2 & Hm2) end.
  match goal with H : cuMemAddressReserve _ _ = _ |- _ => apply vm_reserve in H as (Hf & Hrange & Hh3 & Hr3 & Hm3) end.
  match goal with H : map_parts _ _ _ _ _ = _ |- _ => apply map_parts_Ok in H as (Hh4 & Hr4 & Hout & Hmap); [|done|done] end.
  assert (Htot : total_bytes x3 = sizes x3) by (apply total_bytes_sizes; [done|unfold kLargePageSizeBytes in Hsz; lia]).
  remember (total_bytes x3) as total eqn:Et. clear Et. subst total.
  repeat match goal with
    | H : cuMemSetAccess _ _ _ _ = _ |- _ => apply vm_access in H
    | H : DeviceSynchronize _ = _ |- _ => apply vm_synchronize in H
    | H : Memset _ _ _ = _ |- _ => apply vm_memset in H
    | H : SetDevice _ _ = _ |- _ => apply vm_set_device in H as [? Hdev]
    | H : GetDevice _ = _ |- _ => apply vm_get_device in H
    | H : vm_same _ _ |- _ => destruct H as (? & ? & ?) end.
  exists per, x3. split; [done|]. split; [done|]. split; [done|].
  split; simpl; try done.
  - intros h Hin. specialize (Hnew h Hin). congruence.
  - intros h Hin. specialize (Hold h Hin). congruence.
  - intros i h part Eh Ep. specialize (Hat i h part Eh Ep). congruence.
  - split; congruence.
  - intros a Ha. specialize (Hrange a Ha). congruence.
  - intros a Ha. specialize (Hout a ltac:(lia)). congruence.
  - intros i h sz d Eh Ep. specialize (Hmap i h sz d Eh Ep). rewrite Z.add_0_r in Hmap. congruence.
  - congruence.
Qed.

(** C23. A block that is built has room for the bytes asked for; byte [o] is on GPU number
    [o / byte_per_gpu] of the list, and the device of the caller is current again. *)
Theorem nvl_byte_location m b m' : NVLMemBlock size gpu_ids m = (Ok b, m') ->
  exists per, byte_per_gpu size (Z.of_nat (length gpu_ids)) = Ok per /\ per mod kLargePageSizeBytes = 0 /\
    size <= nvl_total b < size + kLargePageSizeBytes /\ vm_device m' = vm_device m /\
    forall o, 0 <= o < size -> exists h sz dev,
      vm_maps m' !! (nvl_ptr b + o / per * per) = Some (sz, h) /\ o / per * per <= o < o / per * per + sz /\
      vm_handles m' !! h = Some (sz, dev) /\ gpu_ids !! Z.to_nat (o / per) = Some dev.
Proof.
  intros (per & parts & Eper & Hper & Hpage & Hb)%nvl_construction. exists per. split; [done|]. split; [done|].
  rewrite (nb_total _ _ _ _ _ Hb). pose proof (nb_parts _ _ _ _ _ Hb) as Hparts. split; [by apply (parts_of_spec per Hper Hpage _ _ _ Hparts)|].
  split; [by apply (nb_device _ _ _ _ _ Hb)|]. intros o Ho.
  destruct (parts_of_byte per Hper Hpage _ _ _ o Hparts Ho) as (sz & dev & Ep & Ed & Hin & Hpre).
  destruct (lookup_lt_is_Some_2 (nvl_handles b) (Z.to_nat (o / per))) as [h Eh].
  { rewrite (nb_length _ _ _ _ _ Hb). by apply lookup_lt_Some in Ep. }
  exists h, sz, dev. rewrite <- Hpre at 1. split; [by eapply nb_map|]. split; [done|]. split; [by eapply nb_handle|done].
Qed.

Lemma release_all_Ok hs m m' : release_handles hs m = (true, m') ->
  (forall h, vm_handles m' !! h = (if decide (h ∈ hs) then None else vm_handles m !! h)) /\
  vm_reserved m' = vm_reserved m /\ vm_maps m' = vm_maps m.
Proof.
  revert m. induction hs as [|h hs IH]; intros m E; simpl in E.
  - injection E as <-. split; [|done]. intros h. by rewrite decide_False by set_solver.
  - destruct (cuMemRelease h m) as [e m1] eqn:E1. destruct (release_handles hs m1) as [ok m2] eqn:E2. injection E as [He ->]%andb_true_iff <-.
    apply Z.eqb_eq in He as ->. apply vm_release in E1 as (Hh & Hr & Hm). apply IH in E2 as (Hh2 & Hr2 & Hm2).
    split; [|split; congruence]. intros h'. rewrite Hh2, Hh. destruct (decide (h' = h)) as [->|Hne].
    + rewrite (decide_True (P := h ∈ h :: hs)) by left. by destruct (decide _); [|apply lookup_delete_eq].
    + rewrite lookup_delete_ne by done. destruct (decide (h' ∈ hs)) as [Hi|Hi]; [by rewrite decide_True by (by right)|].
      rewrite decide_False; [done|]. by intros [?|?]%elem_of_cons.
Qed.

(** Building a block and destroying it gives back every handle, mapping and reservation. *)
Theorem nvl_destruction m b m' m'' :
  NVLMemBlock size gpu_ids m = (Ok b, m') -> delete_NVLMemBlock b m' = (true, m'') -> vm_same m m''.
Proof.
  intros (per & parts & Eper & Hper & Hpage & Hb)%nvl_construction. unfold delete_NVLMemBlock.
  destruct (cuMemUnmap _ _ m') as [e1 m1] eqn:E1. destruct (release_handles _ m1) as [ok m2] eqn:E2.
  destruct (cuMemAddressFree _ _ m2) as [e2 m3] eqn:E3. intros [= [[->%Z.eqb_eq ->]%andb_true_iff ->%Z.eqb_eq]%andb_true_iff <-].
  apply vm_unmap in E1 as (Hh1 & Hr1 & Hm1). apply release_all_Ok in E2 as (Hh2 & Hr2 & Hm2). apply vm_address_free in E3 as (Hh3 & Hr3 & Hm3).
  split; [|split].
  - rewrite Hh3. apply map_eq. intros h. rewrite Hh2, Hh1. destruct (decide _) as [Hi|Hi].
    + symmetry. by eapply nb_new.
    + by eapply nb_old.
  - destruct (nb_reserved _ _ _ _ _ Hb) as [Hf Hr]. rewrite Hr3, Hr2, Hr1, Hr, delete_insert_eq. by apply delete_id.
  - rewrite Hm3, Hm2. apply map_eq. intros a. rewrite Hm1. destruct (Z.leb_spec (nvl_ptr b) a) as [Hge|Hlt]; simpl.
    + destruct (Z.ltb_spec a (nvl_ptr b + nvl_total b)); [symmetry; eapply nb_range|eapply nb_outside]; try exact Hb; lia.
    + eapply nb_outside; [exact Hb|lia].
Qed.
End Construction.
End Blocks.

(** ** Blocks of the allocator give their memory back *)

Section AllocatorRoundTrip.
Context {Cu : Cuda} {Vi : CudaView} {La : CudaLaws} (ndebug : bool) (threshold : Z).

Lemma checked_block_Ok r s p s' : checked_block r s = (Ok p, s') -> r = Ok (cudaSuccess, (p, s')) /\ p <> 0.
Proof.
  unfold checked_block. destruct r as [[e [q s1]]|e|w]; [|done|done].
  destruct (Z.eqb_spec e cudaSuccess) as [->|]; [|by intros [= ]]. destruct (Z.eqb_spec q 0) as [->|]; by intros [= -> ->].
Qed.

(** A linear block that is built and destroyed, with success, leaves the blocks as they were. *)
Theorem linear_block_destruction size device_id ptr s p s1 s2 :
  0 < size <= 2 ^ 62 -> driver_available = true -> hugepage_dir (sys s) <> None ->
  (forall entries, hugepage_dir (sys s) = Some entries -> Forall entry_ok entries) -> allocator_ok s ->
  LinearMemBlock ndebug threshold size device_id ptr s = (Ok p, s1) ->
  delete_LinearMemBlock device_id p s1 = (cudaSuccess, s2) ->
  heap_of s2 = heap_of s /\ device_of s2 = device_of s /\ allocator_ok s2.
Proof.
  intros Hs Hdr Hdir He Hok [E Hp]%checked_block_Ok. unfold delete_LinearMemBlock.
  assert (Hback : forall k n, heap_of s !! p = None -> delete p (<[p := Block k n]> (heap_of s)) = heap_of s).
  { intros k n Hn. rewrite delete_insert_eq. by apply delete_id. }
  destruct (device_id <? 0) eqn:Ed.
  - destruct (host_allocates ndebug threshold size ptr s _ _ _ (conj Hs He) Hdir E) as (Hd1 & Hok1 & Hn).
    destruct (Hn eq_refl) as (k & n & _ & Hnone & _ & Hh1). destruct (host_free (p, s1)) as [e [q s3]] eqn:E2. intros [= -> ->].
    apply host_frees in E2 as (-> & Hd2 & Hok2 & Hh2); [|simpl; by rewrite Hdr|by apply Hok1].
    destruct (Hh2 eq_refl) as [_ ->]. split; [rewrite Hh1; by apply Hback|]. split; [congruence|done].
  - assert (E1 : device_allocate size device_id (ptr, s) = (cudaSuccess, (p, s1))) by congruence.
    apply (on_device_allocates size) in E1 as (_ & Hnone & Hh1 & Hd1 & Hok1); [|apply malloc_body; lia|done].
    destruct (device_free device_id (p, s1)) as [e [q s3]] eqn:E2. intros [= -> ->].
    apply on_device_frees in E2 as (_ & _ & Hh2 & Hd2 & Hok2); [|by apply free_body|done].
    split; [rewrite Hh2, Hh1; by apply Hback|]. split; [congruence|done].
Qed.
End AllocatorRoundTrip.

(** The size of a block is exact when it fits in 64 bits. *)
Lemma block_bytes_fits row n dtype : 0 <= row -> 0 <= n -> 0 <= dtype_size dtype < 2 ^ 64 -> 0 < dtype_size dtype ->
  row * n * dtype_size dtype < 2 ^ 64 -> block_bytes row n dtype = row * n * dtype_size dtype.
Proof.
  intros Hr Hn Hd Hd0 H. pose proof (Z.mul_nonneg_nonneg _ _ Hr Hn). unfold block_bytes.
  rewrite (wrapu_small 64 (row * n)) by (split; nia). rewrite (wrapu_small 64 (dtype_size dtype)) by (split; lia).
  apply wrapu_small. split; nia.
Qed.

(** ** A driver that keeps the promises *)

Module MemBlockExamples.
Record demo := { e_device : Z; e_handles : gmap Z (Z * Z); e_reserved : gmap Z Z; e_maps : gmap Z (Z * Z); e_next : Z }.

Section Driver.
(** Does the driver have addresses to reserve? *)
Context (addresses : bool).
Definition set_device (d : Z) (m : demo) : demo :=
  {| e_device := d; e_handles := e_handles m; e_reserved := e_reserved m; e_maps := e_maps m; e_next := e_next m |}.
Definition with_vm (h : gmap Z (Z * Z)) (r : gmap Z Z) (mp : gmap Z (Z * Z)) (m : demo) : demo :=
  {| e_device := e_device m; e_handles := h; e_reserved := r; e_maps := mp; e_next := e_next m |}.
Definition free_handle (m : demo) : Z := base.fresh (C := gset Z) (dom (e_handles m)).

Lemma free_handle_new m : e_handles m !! free_handle m = None.
Proof. apply not_elem_of_dom. exact (is_fresh (C := gset Z) (dom (e_handles m))). Qed.

(** Are the addresses from [p] on free? *)
Definition range_free (p n : Z) (m : demo) : bool :=
  bool_decide (e_reserved m !! p = None) && bool_decide (map_Forall (fun a _ => ~ (p <= a < p + n)) (e_maps m)).

#[local] Instance demo_vmm : Vmm := {|
  vm := demo;
  GetDevice m := (0, e_device m);
  GetDeviceCount _ := (0, 4);
  SetDevice d m := (0, set_device d m);
  MemGetInfo _ := (0, 2 ^ 36);
  FreeNull m := (0, m);
  cuMemCreate sz d m := (0, (free_handle m, with_vm (<[free_handle m := (sz, d)]> (e_handles m)) (e_reserved m) (e_maps m) m));
  cuMemAddressReserve n m :=
    let p := e_next m in
    if addresses && range_free p n m then (0, (p, with_vm (e_handles m) (<[p := n]> (e_reserved m)) (e_maps m) m)) else (2, (0, m));
  cuMemMap a sz h m := (0, with_vm (e_handles m) (e_reserved m) (<[a := (sz, h)]> (e_maps m)) m);
  cuMemSetAccess _ _ _ m := (0, m);
  DeviceSynchronize m := (0, m);
  Memset _ _ m := (0, m);
  cuMemUnmap a n m := (0, with_vm (e_handles m) (e_reserved m) (filter (fun x => ~ (a <= x.1 < a + n)) (e_maps m)) m);
  cuMemRelease h m := (0, with_vm (delete h (e_handles m)) (e_reserved m) (e_maps m) m);
  cuMemAddressFree a _ m := (0, with_vm (e_handles m) (delete a (e_reserved m)) (e_maps m) m) |}.

#[local] Instance demo_vmm_view : VmmView := {|
  vm_device := e_device; vm_handles := e_handles; vm_reserved := e_reserved; vm_maps := e_maps |}.

#[local] Instance demo_vmm_laws : VmmLaws.
Proof.
  split; simpl.
  - by intros m d [= <-].
  - by intros d m m' [= <-].
  - by intros m m' [= <-].
  - intros sz d m h m' [= <- <-]. split; [|done]. apply free_handle_new.
  - intros n m p m'. unfold range_free. destruct addresses; simpl; [|done].
    destruct (bool_decide_reflect (e_reserved m !! e_next m = None)) as [Hr|]; simpl; [|done].
    destruct (bool_decide_reflect (map_Forall (fun a (_ : Z * Z) => ~ (e_next m <= a < e_next m + n)) (e_maps m))) as [Hm|]; [|done].
    intros [= <- <-]. split; [done|]. split; [|done]. intros a Ha. destruct (e_maps m !! a) as [x|] eqn:Ea; [|done].
    by destruct (Hm a x Ea).
  - by intros a sz h m m' [= <-].
  - by intros _ _ _ m m' [= <-].
  - by intros m m' [= <-].
  - by intros _ _ m m' [= <-].
  - intros a n m m' [= <-]. split; [done|]. split; [done|]. intros b. simpl.
    destruct (e_maps m !! b) as [x|] eqn:Eb.
    + destruct (decide (a <= b < a + n)) as [Hin|Hin].
      * rewrite (proj2 (Z.leb_le _ _)), (proj2 (Z.ltb_lt _ _)) by lia. apply map_lookup_filter_None. right. intros y _. by intros [].
      * transitivity (Some x); [by apply map_lookup_filter_Some|].
        destruct (Z.leb_spec a b), (Z.ltb_spec b (a + n)); try done; lia.
    + transitivity (@None (Z * Z)); [apply map_lookup_filter_None; by left|]. by destruct (_ && _).
  - by intros h m m' [= <-].
  - by intros a n m m' [= <-].
Qed.
End Driver.

Definition start : demo := {| e_device := 3; e_handles := ∅; e_reserved := ∅; e_maps := ∅; e_next := 2 ^ 30 |}.

(** Five million bytes over three GPUs: two megabytes each, the block ends after the third. *)
Definition built := NVLMemBlock (H := demo_vmm true) 5000000 [2; 0; 1] start.
Definition the_block : nvl_block := match built.1 with Ok b => b | _ => {| nvl_ptr := 0; nvl_handles := []; nvl_total := 0 |} end.

Lemma nvl_byte_location_witness : exists per h sz dev, built.1 = Ok the_block /\
  vm_maps (VmmView := demo_vmm_view true) built.2 !! (nvl_ptr the_block + 4500000 / per * per) = Some (sz, h) /\
  vm_handles (VmmView := demo_vmm_view true) built.2 !! h = Some (sz, dev) /\ [2; 0; 1] !! Z.to_nat (4500000 / per) = Some dev.
Proof.
  assert (Hb : NVLMemBlock (H := demo_vmm true) 5000000 [2; 0; 1] start = (Ok the_block, built.2)) by (vm_compute; reflexivity).
  destruct (nvl_byte_location (La := demo_vmm_laws true) 5000000 [2; 0; 1] ltac:(lia) ltac:(simpl; lia) start the_block built.2 Hb)
    as (per & _ & _ & _ & _ & Hbytes).
  destruct (Hbytes 4500000 ltac:(lia)) as (h & sz & dev & H1 & _ & H3 & H4).
  exists per, h, sz, dev. split; [vm_compute; reflexivity|]. split; [exact H1|]. split; [exact H3|exact H4].
Defined.

Definition destroyed := delete_NVLMemBlock (H := demo_vmm true) the_block built.2.

Lemma nvl_destruction_witness : vm_same (H0 := demo_vmm_view true) start destroyed.2.
Proof.
  apply (nvl_destruction (La := demo_vmm_laws true) 5000000 [2; 0; 1] ltac:(lia) ltac:(simpl; lia) start the_block built.2 destroyed.2).
  - vm_compute. reflexivity.
  - vm_compute. reflexivity.
Defined.

(** Without addresses the constructor throws: the memory of every GPU stays allocated, its
    handles are lost, and the caller is left on another device. *)
Definition failed := NVLMemBlock (H := demo_vmm false) 5000000 [2; 0; 1] start.
Example failed_block_leaks : failed.1 = Throw "driver error" /\ e_device failed.2 = 0 /\ size (e_handles failed.2) = 3%nat.
Proof. split_and!; vm_compute; reflexivity. Qed.
End MemBlockExamples.
