(* ===== verification/AutoInsert.v ===== *)
(** * Automatic inserts: [src/layer_utils.cpp], [include/layer_utils.hpp]

    [AutoInsertHandler] collects the keys and rows of lookups into buffers of its
    own and hands them to a table in one insert on the thread pool; modifying
    operations exclude it with the same lock. Each operation runs with the lock
    held or does nothing, so the operations of different threads are interleaved
    as whole steps. A call gives its outcome and the state it leaves, also when it
    leaves by an exception. The products of counts and sizes are taken not to
    exceed [int64_t]. *)
From S2P Require Import Prelude Float32 InsertHeuristic Buffers.

(** ** Bytes in buffers *)

Definition blit (off : nat) (bs d : list Z) : list Z := take off d ++ bs ++ drop (off + length bs) d.

Definition write_at (p off : Z) (bs : list Z) (m : heap) : outcome heap :=
  match m !! p with
  | None => Undef "write through an invalid pointer"
  | Some d =>
      if off + Z.of_nat (length bs) <=? Z.of_nat (length d) then Ok (<[p := blit (Z.to_nat off) bs d]> m)
      else Undef "write beyond an allocation"
  end.

Definition read_from (p n : Z) (m : heap) : outcome (list Z) :=
  match m !! p with
  | None => Undef "read through an invalid pointer"
  | Some s => if n <=? Z.of_nat (length s) then Ok (take (Z.to_nat n) s) else Undef "read beyond an allocation"
  end.

(** [cudaMemcpyAsync(dst + off, src, n, cudaMemcpyDefault, stream)] under [NVE_CHECK_]. *)
Definition cuda_copy (p off src n : Z) (m : heap) : outcome heap :=
  if src =? 0 then Throw "cudaErrorInvalidValue"
  else let! bs := read_from src n m in write_at p off bs m.

(** ** TestableMutex *)

(** The flag; [lock] waits while it is set. *)
Definition try_lock (flag : bool) : bool * bool := if negb flag then (true, true) else (false, flag).
Definition lock (flag : bool) : option bool := if negb flag then Some true else None.
Definition unlock (flag : bool) : bool := false.

(** ** ContextRegistry *)

Module ContextRegistry.
Section Registry.
(** The lookup stream of a context. *)
Variable get_lookup_stream : Z -> Z.

Record registry := { contexts_ : gset Z; lookup_streams_ : gset Z }.

Definition update_streams (r : registry) : registry :=
  {| contexts_ := contexts_ r; lookup_streams_ := set_map get_lookup_stream (contexts_ r) |}.
Definition add_context (ctx : Z) (r : registry) : registry :=
  update_streams {| contexts_ := {[ctx]} ∪ contexts_ r; lookup_streams_ := lookup_streams_ r |}.
Definition remove_context (ctx : Z) (r : registry) : registry :=
  update_streams {| contexts_ := contexts_ r ∖ {[ctx]}; lookup_streams_ := lookup_streams_ r |}.
Definition registry_empty (r : registry) : bool := bool_decide (contexts_ r = ∅).
(** The streams a sync event waits for. *)
Definition create_sync_event (r : registry) : gset Z := lookup_streams_ r.

(** Modifying operations wait for the streams of exactly the registered contexts. *)
Lemma sync_event_exact ctx r s :
  (s ∈ create_sync_event (add_context ctx r) <->
     s = get_lookup_stream ctx \/ exists c, c ∈ contexts_ r /\ s = get_lookup_stream c) /\
  (s ∈ create_sync_event (remove_context ctx r) <->
     exists c, c ∈ contexts_ r /\ c <> ctx /\ s = get_lookup_stream c).
Proof.
  unfold create_sync_event, add_context, remove_context; simpl. split; rewrite elem_of_map; split.
  - intros (c & -> & Hc). rewrite elem_of_union, elem_of_singleton in Hc. destruct Hc as [->|Hc]; [by left|right].
    by exists c.
  - intros [->|(c & Hc & ->)]; [exists ctx|exists c]; set_solver.
  - intros (c & -> & Hc). exists c. set_solver.
  - intros (c & Hc & Hne & ->). exists c. set_solver.
Qed.
End Registry.
End ContextRegistry.

(** ** AutoInsertHandler *)

(** The insert task on the thread pool. *)
Record task := { t_keys : Z; t_data : Z; t_stride : Z }.

Section Handler.
Context {H : Type} `{InsertHeuristic H} `{Allocator}.

Record handler := {
  insert_lock_ : bool; heuristic_ : option H;
  table_id_ : Z; min_insert_wait_ : Z; min_insert_size_ : Z; key_size_ : Z; invalid_key_bytes_ : list Z;
  insert_freq_cnt_ : Z; collected_keys_ : Z; collected_output_stride_ : Z;
  insert_keys_ : ResizeableBuffer; insert_data_ : ResizeableBuffer;
  submitted : option task
}.

(** The constructor. *)
Definition new_handler (heuristic : option H) (table_id min_insert_wait min_insert_size key_size layer_gpu_device : Z)
    (invalid_key_bytes : option (list Z)) : outcome handler :=
  match invalid_key_bytes with
  | None => Throw "invalid_key_bytes != nullptr"
  | Some bytes =>
      Ok {| insert_lock_ := false; heuristic_ := heuristic; table_id_ := table_id;
            min_insert_wait_ := min_insert_wait; min_insert_size_ := min_insert_size; key_size_ := key_size;
            invalid_key_bytes_ := take (Z.to_nat key_size) bytes;
            insert_freq_cnt_ := 0; collected_keys_ := 0; collected_output_stride_ := 0;
            insert_keys_ := new_buffer true; insert_data_ := new_buffer (layer_gpu_device <? 0);
            submitted := None |}
  end.

(** Assignments to the members. *)
Definition with_lock (b : bool) (h : handler) : handler :=
  {| insert_lock_ := b; heuristic_ := heuristic_ h; table_id_ := table_id_ h; min_insert_wait_ := min_insert_wait_ h;
     min_insert_size_ := min_insert_size_ h; key_size_ := key_size_ h; invalid_key_bytes_ := invalid_key_bytes_ h;
     insert_freq_cnt_ := insert_freq_cnt_ h; collected_keys_ := collected_keys_ h;
     collected_output_stride_ := collected_output_stride_ h; insert_keys_ := insert_keys_ h;
     insert_data_ := insert_data_ h; submitted := submitted h |}.
Definition with_heuristic (x : H) (h : handler) : handler :=
  {| insert_lock_ := insert_lock_ h; heuristic_ := Some x; table_id_ := table_id_ h;
     min_insert_wait_ := min_insert_wait_ h; min_insert_size_ := min_insert_size_ h; key_size_ := key_size_ h;
     invalid_key_bytes_ := invalid_key_bytes_ h; insert_freq_cnt_ := insert_freq_cnt_ h;
     collected_keys_ := collected_keys_ h; collected_output_stride_ := collected_output_stride_ h;
     insert_keys_ := insert_keys_ h; insert_data_ := insert_data_ h; submitted := submitted h |}.
Definition with_counts (freq collected stride : Z) (h : handler) : handler :=
  {| insert_lock_ := insert_lock_ h; heuristic_ := heuristic_ h; table_id_ := table_id_ h;
     min_insert_wait_ := min_insert_wait_ h; min_insert_size_ := min_insert_size_ h; key_size_ := key_size_ h;
     invalid_key_bytes_ := invalid_key_bytes_ h; insert_freq_cnt_ := freq; collected_keys_ := collected;
     collected_output_stride_ := stride; insert_keys_ := insert_keys_ h; insert_data_ := insert_data_ h;
     submitted := submitted h |}.
Definition with_buffers (ks ds : ResizeableBuffer) (h : handler) : handler :=
  {| insert_lock_ := insert_lock_ h; heuristic_ := heuristic_ h; table_id_ := table_id_ h;
     min_insert_wait_ := min_insert_wait_ h; min_insert_size_ := min_insert_size_ h; key_size_ := key_size_ h;
     invalid_key_bytes_ := invalid_key_bytes_ h; insert_freq_cnt_ := insert_freq_cnt_ h;
     collected_keys_ := collected_keys_ h; collected_output_stride_ := collected_output_stride_ h;
     insert_keys_ := ks; insert_data_ := ds; submitted := submitted h |}.
Definition with_task (t : option task) (h : handler) : handler :=
  {| insert_lock_ := insert_lock_ h; heuristic_ := heuristic_ h; table_id_ := table_id_ h;
     min_insert_wait_ := min_insert_wait_ h; min_insert_size_ := min_insert_size_ h; key_size_ := key_size_ h;
     invalid_key_bytes_ := invalid_key_bytes_ h; insert_freq_cnt_ := insert_freq_cnt_ h;
     collected_keys_ := collected_keys_ h; collected_output_stride_ := collected_output_stride_ h;
     insert_keys_ := insert_keys_ h; insert_data_ := insert_data_ h; submitted := t |}.

(** A call on the handler and the heap: its outcome and the state it leaves. *)
Definition call : Type := handler * heap -> outcome unit * (handler * heap).
Definition cbind (c k : call) : call := fun s =>
  match c s with
  | (Ok _, s) => k s
  | (Throw e, s) => (Throw e, s)
  | (Undef e, s) => (Undef e, s)
  end.
Definition on_heap (f : handler -> heap -> outcome heap) : call := fun s =>
  match f s.1 s.2 with
  | Ok m => (Ok tt, (s.1, m))
  | Throw e => (Throw e, s)
  | Undef e => (Undef e, s)
  end.
Definition on_handler (f : handler -> handler) : call := fun s => (Ok tt, (f s.1, s.2)).

(** [insert_keys_->get_ptr(n)] and [insert_data_->get_ptr(n)]. *)
Definition grow_keys (n : Z) : call := fun s =>
  let r := get_ptr n (insert_keys_ s.1) (s.2) in
  (let! _ := r.1 in Ok tt, (with_buffers r.2.1 (insert_data_ s.1) s.1, r.2.2)).
Definition grow_data (n : Z) : call := fun s =>
  let r := get_ptr n (insert_data_ s.1) (s.2) in
  (let! _ := r.1 in Ok tt, (with_buffers (insert_keys_ s.1) r.2.1 s.1, r.2.2)).

(** The loop that overwrites missed keys with the sentinel. *)
Definition rewrite_missed (mask : list Z) (dst_keys part : Z) : call := on_heap (fun h m =>
  fold_left (fun (r : outcome heap) j =>
      let! m := r in
      match mask !! Z.to_nat (j / 64) with
      | None => Undef "read beyond the hit mask"
      | Some word =>
          if Z.testbit word (j mod 64) then Ok m
          else write_at (buffer_ (insert_keys_ h)) (dst_keys + j * key_size_ h) (invalid_key_bytes_ h) m
      end)
    (seqZ 0 part) (Ok m)).

(** [collect_keys_and_data]; [hitmask] are the words [access_buffer] makes visible on
    the host. *)
Definition collect_keys_and_data (keys_bw output_bw : BufferWrapper) (hitmask : option (list Z)) (num_keys : Z) : call :=
  fun s =>
    let h := s.1 in
    let collected := collected_keys_ h in
    let total := if collected =? 0 then Z.max num_keys (min_insert_size_ h) else min_insert_size_ h in
    let part := Z.min num_keys (total - collected) in
    let keys_host_buf := bw_get_buffer keys_bw Host in
    let keys_src := if keys_host_buf =? 0 then bw_get_buffer keys_bw (last_access_ keys_bw) else keys_host_buf in
    let stride := collected_output_stride_ h in
    cbind (grow_keys (total * key_size_ h))
   (cbind (on_heap (fun h m => cuda_copy (buffer_ (insert_keys_ h)) (collected * key_size_ h) keys_src (part * key_size_ h) m))
   (cbind (grow_data (total * stride))
   (cbind (on_heap (fun h m => cuda_copy (buffer_ (insert_data_ h)) (collected * stride)
             (bw_get_buffer output_bw (last_access_ keys_bw)) (part * stride) m))
   (cbind (match hitmask with Some mask => rewrite_missed mask (collected * key_size_ h) part | None => on_handler id end)
   (on_handler (fun h => with_counts (insert_freq_cnt_ h) (collected_keys_ h + part) (collected_output_stride_ h) h))))))
   s.

(** [launch_insert]: the task is submitted, then its future is stored at the table's
    index ([num_tables] entries). *)
Definition launch_insert (num_tables output_stride : Z) : call := fun s =>
  let h := s.1 in
  let ks := buffer_ (insert_keys_ h) in
  let ds := buffer_ (insert_data_ h) in
  if (ks =? 0) || (ds =? 0) then (Throw "Invalid buffer", s)
  else
    let s := (with_task (Some {| t_keys := ks; t_data := ds; t_stride := output_stride |}) h, s.2) in
    if (0 <=? table_id_ h) && (table_id_ h <? num_tables) then (Ok tt, s) else (Throw "std::out_of_range", s).

(** [--insert_freq_cnt_ < 0 && heuristic_->insert_needed(...)]. *)
Definition start_needed (hitrate : f32) (h : handler) : outcome bool * handler :=
  let freq := insert_freq_cnt_ h - 1 in
  let h := with_counts freq (collected_keys_ h) (collected_output_stride_ h) h in
  match heuristic_ h with
  | Some x =>
      if freq <? 0 then
        match insert_needed hitrate (table_id_ h) x with
        | Ok r => (Ok r.1, with_heuristic r.2 h)
        | Throw e => (Throw e, h)
        | Undef e => (Undef e, h)
        end
      else (Ok false, h)
  | None => (Undef "null heuristic", h)
  end.

(** The end of [auto_insert]: reset the frequency counter, launch or unlock. *)
Definition finish_auto_insert (num_tables output_stride : Z) : call := fun s =>
  let h := s.1 in
  let h := if insert_freq_cnt_ h <? 0 then with_counts 0 (collected_keys_ h) (collected_output_stride_ h) h else h in
  if (0 <? collected_keys_ h) && (min_insert_size_ h <=? collected_keys_ h)
  then launch_insert num_tables output_stride (h, s.2)
  else (Ok tt, (with_lock (unlock (insert_lock_ h)) h, s.2)).

Definition auto_insert (num_tables : Z) (keys_bw output_bw : BufferWrapper) (hitrate : f32)
    (num_keys output_stride : Z) (hitmask : option (list Z)) : call := fun s =>
  let h := s.1 in
  match heuristic_ h with
  | None => (Ok tt, s)
  | Some _ =>
      let l := try_lock (insert_lock_ h) in
      let h := with_lock l.2 h in
      if negb l.1 then (Ok tt, (h, s.2))
      else if 0 <? collected_keys_ h then
        if negb (output_stride =? collected_output_stride_ h)
        then (Throw "Output stride must be fixed during accumulation", (h, s.2))
        else cbind (collect_keys_and_data keys_bw output_bw hitmask num_keys)
                   (finish_auto_insert num_tables output_stride) (h, s.2)
      else
        let r := start_needed hitrate h in
        match r.1 with
        | Ok true =>
            cbind (collect_keys_and_data keys_bw output_bw hitmask num_keys)
                  (finish_auto_insert num_tables output_stride)
                  (with_counts (insert_freq_cnt_ r.2) 0 output_stride r.2, s.2)
        | Ok false => finish_auto_insert num_tables output_stride (r.2, s.2)
        | Throw e => (Throw e, (r.2, s.2))
        | Undef e => (Undef e, (r.2, s.2))
        end
  end.

(** The body of the task: what the table is given, [None] when [insert] throws (then
    the rest of the task is not reached). [table_insert] is the table. *)
Definition insert_task (table_insert : Z -> list Z -> Z -> list Z -> bool) (s : handler * heap)
  : option (outcome (list Z * list Z) * (handler * heap)) :=
  let h := s.1 in
  match submitted h with
  | None => None
  | Some t =>
      let n := collected_keys_ h in
      let batch := (let! ks := read_from (t_keys t) (n * key_size_ h) s.2 in
                    let! ds := read_from (t_data t) (n * t_stride t) s.2 in
                    Ok (ks, ds)) in
      match batch with
      | Ok (ks, ds) =>
          if table_insert n ks (t_stride t) ds
          then Some (Ok (ks, ds),
                 (with_task None (with_lock (unlock (insert_lock_ h))
                   (with_counts (min_insert_wait_ h) 0 (collected_output_stride_ h) h)), s.2))
          else Some (Throw "insert failed", (with_task None h, s.2))
      | Throw e => Some (Throw e, (with_task None h, s.2))
      | Undef e => Some (Undef e, s)
      end
  end.

(** [lock_modify] waits for the lock; [unlock_modify] drops the collection. *)
Definition lock_modify (h : handler) : option handler :=
  match heuristic_ h with
  | None => Some h
  | Some _ => (fun b => with_lock b h) <$> lock (insert_lock_ h)
  end.
Definition unlock_modify (h : handler) : handler :=
  match heuristic_ h with
  | None => h
  | Some _ => with_lock (unlock (insert_lock_ h)) (with_counts (insert_freq_cnt_ h) 0 (collected_output_stride_ h) h)
  end.
End Handler.
Arguments handler H : clear implicits.

(** ** Lemmas: arrays of equally long chunks in a buffer *)

Definition chunks (k : Z) (xs : list (list Z)) : Prop := Forall (fun x => Z.of_nat (length x) = k) xs.

Lemma chunks_app k xs ys : chunks k (xs ++ ys) <-> chunks k xs /\ chunks k ys.
Proof. apply Forall_app. Qed.

Lemma length_mjoin_chunks k xs : 0 <= k -> chunks k xs -> length (mjoin xs) = (length xs * Z.to_nat k)%nat.
Proof.
  intros Hk. induction 1 as [|x xs Hx Hxs IH]; [done|]. simpl. rewrite length_app, IH. lia.
Qed.

Lemma take_mjoin k xs n :
  0 <= k -> chunks k xs -> (n <= length xs)%nat -> take (n * Z.to_nat k) (mjoin xs) = mjoin (take n xs).
Proof.
  intros Hk Hc. revert n. induction Hc as [|x xs Hx Hxs IH]; intros [|n] Hn; simpl in *; try done; [lia|].
  rewrite take_app_ge by lia. f_equal. rewrite <- IH by lia. f_equal. lia.
Qed.

Lemma length_blit off bs d : (off + length bs <= length d)%nat -> length (blit off bs d) = length d.
Proof. intros Hl. unfold blit. rewrite !length_app, length_take, length_drop. lia. Qed.

Lemma blit_prefix off x bs d :
  (off + length x <= length bs)%nat -> bs `prefix_of` d -> blit off x bs `prefix_of` blit off x d.
Proof.
  intros Hl [r ->]. exists r. unfold blit. rewrite take_app_le by lia.
  rewrite drop_app_le by lia. by rewrite <- !app_assoc.
Qed.

Lemma blit_extend bs x d :
  (length bs + length x <= length d)%nat -> bs `prefix_of` d -> bs ++ x `prefix_of` blit (length bs) x d.
Proof.
  intros Hl [r ->]. unfold blit. rewrite take_app_length. rewrite app_assoc. by eexists.
Qed.

Lemma blit_mjoin k xs i x :
  0 <= k -> chunks k xs -> Z.of_nat (length x) = k -> (i < length xs)%nat ->
  blit (i * Z.to_nat k) x (mjoin xs) = mjoin (<[i := x]> xs).
Proof.
  intros Hk Hc Hx Hi. unfold blit.
  rewrite (take_mjoin k) by (done || lia). rewrite insert_take_drop, join_app by done. simpl. f_equal. f_equal.
  replace (i * Z.to_nat k + length x)%nat with (S i * Z.to_nat k)%nat by lia.
  rewrite <- (take_drop (S i) xs) at 1. rewrite join_app.
  assert (Hc1 : chunks k (take (S i) xs)) by (by apply Forall_take).
  rewrite drop_app_ge; rewrite (length_mjoin_chunks k) by done; rewrite length_take, Nat.min_l by lia; [|lia].
  by rewrite Nat.sub_diag, drop_0.
Qed.

(** [p] points to memory that starts with the chunks [xs]. *)
Definition holds (m : heap) (p : Z) (xs : list (list Z)) : Prop :=
  p <> 0 /\ exists d, m !! p = Some d /\ mjoin xs `prefix_of` d.

Lemma holds_other m m' p xs : m' !! p = m !! p -> holds m p xs -> holds m' p xs.
Proof. intros E (Hp & d & Ed & Hpre). split; [done|]. exists d. by rewrite E. Qed.

Lemma read_from_chunks m p k xs n :
  0 <= k -> chunks k xs -> (n <= length xs)%nat -> holds m p xs ->
  read_from p (Z.of_nat n * k) m = Ok (mjoin (take n xs)).
Proof.
  intros Hk Hc Hn (_ & d & E & [r ->]). unfold read_from. rewrite E.
  pose proof (length_mjoin_chunks k xs Hk Hc) as Hl.
  rewrite length_app, (proj2 (Z.leb_le _ _)) by nia. f_equal.
  replace (Z.to_nat (Z.of_nat n * k)) with (n * Z.to_nat k)%nat by nia.
  rewrite take_app_le by nia. by apply take_mjoin.
Qed.

(** Appending the first [n] chunks of a source to the chunks of a buffer. *)
Lemma cuda_copy_chunks m p src k olds xs n size :
  0 <= k -> chunks k olds -> chunks k xs -> (n <= length xs)%nat -> p <> src -> holds m p olds -> holds m src xs ->
  live m p size -> (Z.of_nat (length olds) + Z.of_nat n) * k <= size ->
  exists m', cuda_copy p (Z.of_nat (length olds) * k) src (Z.of_nat n * k) m = Ok m' /\
    holds m' p (olds ++ take n xs) /\ live m' p size /\ (forall q, q <> p -> m' !! q = m !! q).
Proof.
  intros Hk Ho Hx Hn Hps (Hp0 & d & Ed & Hpre) Hsrc (d' & Ed' & Hsz) Hroom.
  rewrite Ed in Ed'. injection Ed' as <-. unfold cuda_copy.
  rewrite (proj2 (Z.eqb_neq src 0)) by apply Hsrc. rewrite (read_from_chunks m src k xs n) by done. simpl.
  assert (Hc' : chunks k (take n xs)) by (by apply Forall_take).
  pose proof (length_mjoin_chunks k _ Hk Hc') as Hl. rewrite length_take, Nat.min_l in Hl by done.
  pose proof (length_mjoin_chunks k _ Hk Ho) as Hlo.
  unfold write_at. rewrite Ed, (proj2 (Z.leb_le _ _)) by nia. eexists. split; [done|]. split; [|split].
  - split; [done|]. eexists. rewrite lookup_insert_eq. split; [done|]. rewrite join_app.
    replace (Z.to_nat (Z.of_nat (length olds) * k)) with (length (mjoin olds)) by nia.
    apply blit_extend; [nia|done].
  - eexists. rewrite lookup_insert_eq. split; [done|]. rewrite length_blit; [done|nia].
  - intros q Hq. by rewrite lookup_insert_ne.
Qed.

(** Overwriting one chunk. *)
Lemma write_at_chunk m p k xs i x size :
  0 <= k -> chunks k xs -> Z.of_nat (length x) = k -> (i < length xs)%nat -> holds m p xs ->
  live m p size ->
  exists m', write_at p (Z.of_nat i * k) x m = Ok m' /\ holds m' p (<[i := x]> xs) /\ live m' p size /\
    (forall q, q <> p -> m' !! q = m !! q).
Proof.
  intros Hk Hc Hx Hi (Hp0 & d & Ed & Hpre) (d' & Ed' & Hsz). rewrite Ed in Ed'. injection Ed' as <-.
  pose proof (length_mjoin_chunks k xs Hk Hc) as Hl. pose proof (prefix_length _ _ Hpre) as Hpl.
  assert (Hoff : Z.to_nat (Z.of_nat i * k) = (i * Z.to_nat k)%nat) by nia.
  unfold write_at. rewrite Ed, (proj2 (Z.leb_le _ _)) by nia. eexists. split; [done|]. rewrite Hoff. split; [|split].
  - split; [done|]. eexists. rewrite lookup_insert_eq. split; [done|]. rewrite <- (blit_mjoin k) by done.
    apply blit_prefix; [nia|done].
  - eexists. rewrite lookup_insert_eq. split; [done|]. rewrite length_blit; [done|nia].
  - intros q Hq. by rewrite lookup_insert_ne.
Qed.

(** ** What is collected *)

(** Key [j] as collected: the sentinel where the mask says it was missed. *)
Definition hit_bit (mask : list Z) (j : nat) : bool :=
  Z.testbit (default 0 (mask !! (j / 64)%nat)) (Z.of_nat j mod 64).
Definition masked (sentinel : list Z) (hitmask : option (list Z)) (keys : list (list Z)) : list (list Z) :=
  match hitmask with
  | None => keys
  | Some mask => imap (fun j k => if hit_bit mask j then k else sentinel) keys
  end.

Lemma masked_take sentinel hitmask keys n :
  masked sentinel hitmask (take n keys) = take n (masked sentinel hitmask keys).
Proof.
  destruct hitmask as [mask|]; [|done]. simpl. revert n. generalize (hit_bit mask) as f. 
  induction keys as [|k keys IH]; intros f [|n]; simpl; try done. f_equal. apply (IH (f ∘ S)).
Qed.

Lemma length_masked sentinel hitmask keys : length (masked sentinel hitmask keys) = length keys.
Proof. destruct hitmask; simpl; [apply length_imap|done]. Qed.

Lemma chunks_masked k sentinel hitmask keys :
  chunks k keys -> Z.of_nat (length sentinel) = k -> chunks k (masked sentinel hitmask keys).
Proof.
  intros Hc Hs. destruct hitmask as [mask|]; [|done]. apply Forall_lookup. intros i x Hx. simpl in Hx.
  rewrite list_lookup_imap in Hx. destruct (keys !! i) as [y|] eqn:Ey; [|done]. simpl in Hx. injection Hx as <-.
  destruct (hit_bit mask i); [|done]. by apply (proj1 (Forall_lookup _ _) Hc i).
Qed.

(** One more key of the loop that rewrites the missed ones. *)
Lemma imap_step {X} (f : nat -> X -> X) (l : list X) j x :
  l !! j = Some x ->
  imap f (take (S j) l) ++ drop (S j) l = <[j := f j x]> (imap f (take j l) ++ drop j l).
Proof.
  intros E. pose proof (lookup_lt_Some _ _ _ E) as Hj.
  rewrite (take_S_r _ _ _ E), imap_app, <- app_assoc. simpl. rewrite length_take, Nat.min_l, Nat.add_0_r by lia.
  rewrite insert_app_r_alt by (rewrite length_imap, length_take; lia).
  rewrite length_imap, length_take, Nat.min_l, Nat.sub_diag by lia. by rewrite (drop_S l x j E).
Qed.

Lemma rewrite_missed_spec {H} (h : handler H) m mask olds keys size :
  let p := buffer_ (insert_keys_ h) in let k := key_size_ h in
  0 <= k -> chunks k olds -> chunks k keys -> Z.of_nat (length (invalid_key_bytes_ h)) = k ->
  (length keys <= 64 * length mask)%nat -> holds m p (olds ++ keys) -> live m p size ->
  exists m', rewrite_missed mask (Z.of_nat (length olds) * k) (Z.of_nat (length keys)) (h, m) = (Ok tt, (h, m')) /\
    holds m' p (olds ++ masked (invalid_key_bytes_ h) (Some mask) keys) /\ live m' p size /\
    (forall q, q <> p -> m' !! q = m !! q).
Proof.
  intros p k Hk Hco Hck Hs Hm Hh Hl. set (f := fun j x => if hit_bit mask j then x else invalid_key_bytes_ h).
  unfold rewrite_missed, on_heap. simpl fst. simpl snd.
  match goal with |- context [fold_left ?g _ (Ok m)] => set (step := g) end.
  enough (Hj : forall j, (j <= length keys)%nat -> exists m', fold_left step (seqZ 0 (Z.of_nat j)) (Ok m) = Ok m' /\
    holds m' p (olds ++ imap f (take j keys) ++ drop j keys) /\ live m' p size /\ (forall q, q <> p -> m' !! q = m !! q)).
  { destruct (Hj (length keys) ltac:(lia)) as (m' & -> & Hh' & Hl' & Hf). exists m'. split; [done|].
    rewrite firstn_all, drop_all, app_nil_r in Hh'. done. }
  induction j as [|j IH]; intros Hj; [by exists m|].
  destruct (IH ltac:(lia)) as (m1 & E1 & Hh1 & Hl1 & Hf1).
  rewrite seqZ_S. rewrite fold_left_app, E1. simpl.
  destruct (lookup_lt_is_Some_2 keys j ltac:(lia)) as [x Ex].
  assert (Hw : (j / 64 < length mask)%nat) by (apply Nat.Div0.div_lt_upper_bound; lia).
  destruct (lookup_lt_is_Some_2 mask (j / 64)%nat Hw) as [word Ew].

  unfold step. simpl obind.
  rewrite Z.add_0_l. replace (Z.to_nat (Z.of_nat j / 64)) with (j / 64)%nat
    by (change 64 with (Z.of_nat 64); rewrite <- Nat2Z.inj_div; lia). rewrite Ew.
  rewrite (imap_step f keys j x Ex).
  assert (Eb : hit_bit mask j = Z.testbit word (Z.of_nat j mod 64)) by (unfold hit_bit; by rewrite Ew).
  replace (f j x) with (if Z.testbit word (Z.of_nat j mod 64) then x else invalid_key_bytes_ h)
    by (unfold f; by rewrite Eb).
  destruct (Z.testbit word _).
  - exists m1. split; [done|]. split; [|done]. rewrite list_insert_id; [done|].
    rewrite lookup_app_r by (rewrite length_imap, length_take; lia).
    rewrite length_imap, length_take, lookup_drop. rewrite <- Ex. f_equal. lia.
  - assert (Hlen : length (imap f (take j keys) ++ drop j keys) = length keys).
    { rewrite length_app, length_imap, length_take, length_drop. lia. }
    destruct (write_at_chunk m1 p k (olds ++ imap f (take j keys) ++ drop j keys) (length olds + j)
      (invalid_key_bytes_ h) size) as (m2 & E2 & Hh2 & Hl2 & Hf2); try done.
    + apply chunks_app. split; [done|]. apply chunks_app. split; [|by apply Forall_drop].
      apply (chunks_masked k (invalid_key_bytes_ h) (Some mask) (take j keys)); [by apply Forall_take|done].
    + rewrite length_app, Hlen. lia.
    + exists m2. fold p k. split; [rewrite <- E2; f_equal; lia|].
      rewrite insert_app_r in Hh2. split; [done|]. split; [done|]. intros q Hq. by rewrite Hf2, Hf1.
Qed.

(** ** The collection *)

Section Collection.
Context {H : Type} `{IH : InsertHeuristic H} `{A : Allocator}.

(** The buffers of a handler hold the collected keys [ks] and rows [rs]; while a
    collection is in progress they have room for [min_insert_size_] of them. *)
Record collection (h : handler H) (m : heap) (ks rs : list (list Z)) : Prop := {
  c_count : collected_keys_ h = Z.of_nat (length ks);
  c_rows : length rs = length ks;
  c_key_chunks : chunks (key_size_ h) ks;
  c_row_chunks : chunks (collected_output_stride_ h) rs;
  c_key_buffer : buffer_ok (insert_keys_ h) m;
  c_row_buffer : buffer_ok (insert_data_ h) m;
  c_distinct : buffer_ (insert_keys_ h) <> 0 -> buffer_ (insert_keys_ h) <> buffer_ (insert_data_ h);
  c_keys : ks <> [] -> holds m (buffer_ (insert_keys_ h)) ks /\
             min_insert_size_ h * key_size_ h <= size_ (insert_keys_ h);
  c_data : ks <> [] -> holds m (buffer_ (insert_data_ h)) rs /\
             min_insert_size_ h * collected_output_stride_ h <= size_ (insert_data_ h)
}.

(** A configured handler: keys have bytes, the sentinel is a key. *)
Definition configured (h : handler H) : Prop :=
  0 < key_size_ h /\ Z.of_nat (length (invalid_key_bytes_ h)) = key_size_ h.

(** The arguments of a lookup: [keys] and [rows] behind the wrappers, where
    [collect_keys_and_data] looks for them, apart from the buffers of the handler. *)
Record lookup_args (h : handler H) (m : heap) (keys_bw output_bw : BufferWrapper) (stride : Z)
    (hitmask : option (list Z)) (keys rows : list (list Z)) (key_src : Z) : Prop := {
  a_some : keys <> [];
  a_rows : length rows = length keys;
  a_stride : 0 < stride;
  a_key_chunks : chunks (key_size_ h) keys;
  a_row_chunks : chunks stride rows;
  a_key_src : key_src = if bw_get_buffer keys_bw Host =? 0 then bw_get_buffer keys_bw (last_access_ keys_bw)
                        else bw_get_buffer keys_bw Host;
  a_keys : holds m key_src keys;
  a_data : holds m (bw_get_buffer output_bw (last_access_ keys_bw)) rows;
  a_apart : key_src <> buffer_ (insert_keys_ h) /\ key_src <> buffer_ (insert_data_ h) /\
            bw_get_buffer output_bw (last_access_ keys_bw) <> buffer_ (insert_keys_ h) /\
            bw_get_buffer output_bw (last_access_ keys_bw) <> buffer_ (insert_data_ h);
  a_mask : forall mask, hitmask = Some mask -> (length keys <= 64 * length mask)%nat
}.

Lemma holds_nil m p k : p <> 0 -> live m p k -> holds m p [].
Proof. intros Hp (d & E & _). split; [done|]. exists d. split; [done|]. apply prefix_nil. Qed.

(** Growing a buffer of the handler: it holds what it held, unless it was empty. *)
Lemma grow_spec n b m olds :
  0 < n -> buffer_ok b m -> (forall host m n, allocate host m n <> None) ->
  (olds = [] \/ (holds m (buffer_ b) olds /\ n <= size_ b)) ->
  exists b' m', get_ptr n b m = (Ok (buffer_ b'), (b', m')) /\ buffer_ok b' m' /\ buffer_ b' <> 0 /\
    n <= size_ b' /\ size_ b <= size_ b' /\ live m' (buffer_ b') (size_ b') /\ holds m' (buffer_ b') olds /\
    (forall q, q <> buffer_ b -> is_Some (m !! q) -> m' !! q = m !! q) /\
    (buffer_ b' = buffer_ b \/ m !! buffer_ b' = None).
Proof.
  intros Hn Hb Ha Ho. destruct (Z.le_gt_cases n (size_ b)) as [Hle|Hgt].
  - exists b, m. unfold get_ptr. rewrite (proj2 (Z.ltb_ge _ _)) by lia.
    destruct Hb as [[_ ?]|(H0 & Hs & Hl)]; [lia|].
    split_and!; try done; [by right|destruct Ho as [->|[? _]]; [by eapply holds_nil|done]|by left].
  - destruct Ho as [->|[_ ?]]; [|lia].
    destruct (get_ptr_spec n b m Hn Hb (fun m' => Ha _ m' n)) as (p & b' & m' & E & Hp & <- & Hsz & _ & Hl & Hf & Hpn).
    exists b', m'. rewrite E.
    split_and!; try done; [right; split_and!; [done|lia|done]|lia|by eapply holds_nil|].
    intros q Hq Hs. apply Hf; [done|done].
Qed.

Lemma buffer_ok_other b m m' :
  buffer_ok b m -> (buffer_ b <> 0 -> m' !! buffer_ b = m !! buffer_ b) -> buffer_ok b m'.
Proof.
  intros [|(H0 & Hs & (d & E & Hd))] Hm; [by left|right]. split; [done|]. split; [done|]. exists d.
  by rewrite Hm.
Qed.

Lemma live_Some m p n : live m p n -> is_Some (m !! p).
Proof. intros (d & -> & _). by eexists. Qed.
Lemma holds_Some m p xs : holds m p xs -> is_Some (m !! p).
Proof. intros (_ & d & -> & _). by eexists. Qed.

(** How many of [n] keys are taken when [c] are collected already. *)
Definition part_size (c min_size n : Z) : Z := if c =? 0 then n else Z.min n (min_size - c).

Lemma cbind_ok (c k : call (H := H)) s s' : c s = (Ok tt, s') -> cbind c k s = k s'.
Proof. unfold cbind. by intros ->. Qed.

Lemma on_heap_ok f (h : handler H) m m' : f h m = Ok m' -> on_heap f (h, m) = (Ok tt, (h, m')).
Proof. unfold on_heap. simpl. by intros ->. Qed.

(** A grown buffer is apart from everything that was live and not the old one. *)
Lemma grown_apart (m : heap) (b b' : ResizeableBuffer) q :
  buffer_ b' = buffer_ b \/ m !! buffer_ b' = None -> q <> buffer_ b -> is_Some (m !! q) -> buffer_ b' <> q.
Proof. intros [->|E] Hq [x Ex]; congruence. Qed.

Lemma fits c total k size : 0 <= k -> c <= total -> total * k <= size -> c * k <= size.
Proof. nia. Qed.

(** The buffers after the copies of [collect_keys_and_data]. *)
Lemma collect_copies (h : handler H) m ks rs keys_bw output_bw hitmask keys rows key_src total n :
  configured h -> collection h m ks rs ->
  lookup_args h m keys_bw output_bw (collected_output_stride_ h) hitmask keys rows key_src ->
  (forall host m n, allocate host m n <> None) ->
  0 < total -> (n <= length keys)%nat -> collected_keys_ h + Z.of_nat n <= total ->
  (ks <> [] -> total = min_insert_size_ h) ->
  exists kb db m1 m2 m3 m4,
    get_ptr (total * key_size_ h) (insert_keys_ h) m = (Ok (buffer_ kb), (kb, m1)) /\
    cuda_copy (buffer_ kb) (collected_keys_ h * key_size_ h) key_src (Z.of_nat n * key_size_ h) m1 = Ok m2 /\
    get_ptr (total * collected_output_stride_ h) (insert_data_ h) m2 = (Ok (buffer_ db), (db, m3)) /\
    cuda_copy (buffer_ db) (collected_keys_ h * collected_output_stride_ h)
      (bw_get_buffer output_bw (last_access_ keys_bw)) (Z.of_nat n * collected_output_stride_ h) m3 = Ok m4 /\
    (buffer_ kb <> 0 /\ total * key_size_ h <= size_ kb /\ live m4 (buffer_ kb) (size_ kb) /\
     holds m4 (buffer_ kb) (ks ++ take n keys)) /\
    (buffer_ db <> 0 /\ total * collected_output_stride_ h <= size_ db /\ live m4 (buffer_ db) (size_ db) /\
     holds m4 (buffer_ db) (rs ++ take n rows)) /\ buffer_ kb <> buffer_ db.
Proof.
  intros [Hk Hsent] [Hc Hr Hkc Hrc Hkb Hdb Hdis Hks Hds]
    [Hne Hlr Hst Hac Harc Esrc Hsk Hsd (Hap1 & Hap2 & Hap3 & Hap4) Hmask] Ha Ht0 Hn Hfit Htot.
  destruct (grow_spec (total * key_size_ h) (insert_keys_ h) m ks) as
    (kb & m1 & E1 & Hkb1 & Hkb0 & Hsz1 & Hszk & Hl1 & Hh1 & Hf1 & Hp1); [by apply Z.mul_pos_pos|done|done| |].
  { destruct (decide (ks = [])) as [?|Hne']; [by left|right]. rewrite (Htot Hne'). by apply Hks. }
  set (kold := buffer_ (insert_keys_ h)) in *. set (dold := buffer_ (insert_data_ h)) in *.
  assert (Hdlive : dold <> 0 -> is_Some (m !! dold)).
  { intros Hd0. destruct Hdb as [[? _]|(_ & _ & Hl)]; [done|by eapply live_Some]. }
  assert (Hkd : buffer_ kb <> dold).
  { destruct (decide (dold = 0)) as [->|Hd0]; [done|]. destruct Hp1 as [Hp1|Hp1].
    - rewrite Hp1. apply Hdis. congruence.
    - destruct (Hdlive Hd0) as [? ?]. congruence. }
  assert (Hd1 : dold <> 0 -> m1 !! dold = m !! dold).
  { intros Hd0. destruct (decide (kold = 0)) as [Hz|Hz].
    - apply Hf1; [congruence|by apply Hdlive].
    - apply Hf1; [apply not_eq_sym, Hdis, Hz|by apply Hdlive]. }
  set (osrc := bw_get_buffer output_bw (last_access_ keys_bw)) in *.
  destruct (cuda_copy_chunks m1 (buffer_ kb) key_src (key_size_ h) ks keys n (size_ kb)) as
    (m2 & E2 & Hh2 & Hl2 & Hf2); try done; [lia| | | |].
  { apply (grown_apart m (insert_keys_ h)); [done|done|by eapply holds_Some]. }
  { apply (holds_other m); [|done]. apply Hf1; [done|by eapply holds_Some]. }
  { rewrite <- Hc. by apply (fits _ total); [lia|..]. }
  assert (Hd2 : dold <> 0 -> m2 !! dold = m !! dold) by (intros Hd0; rewrite Hf2; [by apply Hd1|done]).
  destruct (grow_spec (total * collected_output_stride_ h) (insert_data_ h) m2 rs) as
    (db & m3 & E3 & Hdb3 & Hdb0 & Hsz3 & Hszd & Hl3 & Hh3 & Hf3 & Hp3); [by apply Z.mul_pos_pos| |done| |].
  { by apply (buffer_ok_other _ m). }
  { destruct (decide (ks = [])) as [->|Hne']; [left; by destruct rs|right]. rewrite (Htot Hne').
    destruct (Hds Hne') as [Hh Hs]. split; [|done]. apply (holds_other m); [|done]. apply Hd2, Hh. }
  assert (Hko : buffer_ kb <> osrc).
  { apply (grown_apart m (insert_keys_ h)); [done|done|by eapply holds_Some]. }
  assert (Ho2 : m2 !! osrc = m !! osrc).
  { rewrite Hf2 by done. apply Hf1; [done|by eapply holds_Some]. }
  assert (Hok2 : is_Some (m2 !! osrc)) by (rewrite Ho2; by eapply holds_Some).
  assert (Hkb3 : m3 !! buffer_ kb = m2 !! buffer_ kb) by (apply Hf3; [done|by eapply holds_Some]).
  assert (Hdk : buffer_ db <> buffer_ kb).
  { apply (grown_apart m2 (insert_data_ h)); [done|done|by eapply holds_Some]. }
  destruct (cuda_copy_chunks m3 (buffer_ db) osrc (collected_output_stride_ h) rs rows n (size_ db)) as
    (m4 & E4 & Hh4 & Hl4 & Hf4); try done; [lia|lia| | | |].
  { apply (grown_apart m2 (insert_data_ h)); [done|done|done]. }
  { apply (holds_other m); [|done]. rewrite Hf3; [done|done|done]. }
  { rewrite Hr, <- Hc. by apply (fits _ total); [lia|..]. }
  exists kb, db, m1, m2, m3, m4. rewrite Hc. rewrite <- Hr at 2.
  split; [done|]. split; [done|]. split; [done|]. split; [done|]. split; [|split; [|congruence]].
  - split; [done|]. split; [done|]. split.
    + destruct Hl2 as (d & Ed & Hd). exists d. split; [|done]. rewrite Hf4, Hkb3; done.
    + apply (holds_other m2); [|done]. rewrite Hf4, Hkb3; done.
  - split; [done|]. split; [done|]. split; done.
Qed.

(** How [collect_keys_and_data] sizes its buffers and its share of the lookup. *)
Lemma collect_sizes (h : handler H) ks (keys : list (list Z)) :
  let n := part_size (collected_keys_ h) (min_insert_size_ h) (Z.of_nat (length keys)) in
  let total := if collected_keys_ h =? 0 then Z.max (Z.of_nat (length keys)) (min_insert_size_ h) else min_insert_size_ h in
  collected_keys_ h = Z.of_nat (length (A := list Z) ks) -> keys <> [] ->
  (ks = [] \/ collected_keys_ h < min_insert_size_ h) ->
  Z.min (Z.of_nat (length keys)) (total - collected_keys_ h) = n /\ 0 < n <= Z.of_nat (length keys) /\
  collected_keys_ h + n <= total /\ 0 < total /\ (ks <> [] -> total = min_insert_size_ h) /\ min_insert_size_ h <= total.
Proof.
  intros n total Hc Hne Hstart. assert (Hlen : 0 < Z.of_nat (length keys)) by (destruct keys; [done|simpl; lia]).
  unfold n, part_size, total. destruct (Z.eqb_spec (collected_keys_ h) 0) as [E0|E0].
  - split_and!; try lia. intros Hks'. destruct ks; [done|simpl in Hc; lia].
  - destruct Hstart as [->|?]; [simpl in Hc; lia|]. split_and!; lia.
Qed.

(** The rewriting of missed keys, when there is a hit mask. *)
Lemma missed_step (h : handler H) m hitmask olds keys size :
  configured h -> chunks (key_size_ h) olds -> chunks (key_size_ h) keys ->
  (forall mask, hitmask = Some mask -> (length keys <= 64 * length mask)%nat) ->
  holds m (buffer_ (insert_keys_ h)) (olds ++ keys) -> live m (buffer_ (insert_keys_ h)) size ->
  exists m', (match hitmask with
      | Some mask => rewrite_missed mask (Z.of_nat (length olds) * key_size_ h) (Z.of_nat (length keys))
      | None => on_handler id end) (h, m) = (Ok tt, (h, m')) /\
    holds m' (buffer_ (insert_keys_ h)) (olds ++ masked (invalid_key_bytes_ h) hitmask keys) /\
    live m' (buffer_ (insert_keys_ h)) size /\ (forall q, q <> buffer_ (insert_keys_ h) -> m' !! q = m !! q).
Proof.
  intros [Hk Hs] Ho Hkc Hmask Hh Hl. destruct hitmask as [mask|]; [|by exists m].
  apply rewrite_missed_spec; try done; [lia|by apply Hmask].
Qed.

(** [collect_keys_and_data] appends the keys, with the sentinel for missed ones, and
    their rows, up to [min_insert_size_] of them in all (or the whole lookup when it
    starts a collection). *)
Lemma collect_spec (h : handler H) m ks rs keys_bw output_bw hitmask keys rows key_src :
  let n := part_size (collected_keys_ h) (min_insert_size_ h) (Z.of_nat (length keys)) in
  configured h -> collection h m ks rs -> (ks = [] \/ collected_keys_ h < min_insert_size_ h) ->
  lookup_args h m keys_bw output_bw (collected_output_stride_ h) hitmask keys rows key_src ->
  (forall host m n, allocate host m n <> None) ->
  exists kb db m',
    let h' := with_counts (insert_freq_cnt_ h) (collected_keys_ h + n) (collected_output_stride_ h)
                (with_buffers kb db h) in
    collect_keys_and_data keys_bw output_bw hitmask (Z.of_nat (length keys)) (h, m) = (Ok tt, (h', m')) /\
    collection h' m' (ks ++ take (Z.to_nat n) (masked (invalid_key_bytes_ h) hitmask keys))
      (rs ++ take (Z.to_nat n) rows) /\
    0 < n /\ buffer_ kb <> 0 /\ buffer_ db <> 0.
Proof.
  intros n Hcfg Hcoll Hstart Hargs Ha. pose proof Hcoll as [Hc Hr Hkc Hrc _ _ _ _ _]. pose proof Hcfg as [Hk Hsent].
  pose proof Hargs as [Hne Hlr Hst Hac Harc Esrc _ _ _ Hmask].
  set (total := if collected_keys_ h =? 0 then Z.max (Z.of_nat (length keys)) (min_insert_size_ h) else min_insert_size_ h).
  destruct (collect_sizes h ks keys Hc Hne Hstart) as (En & [Hn0 Hnk] & Hfit & Ht0 & Htot & Hmin).
  fold n total in En, Hn0, Hnk, Hfit, Ht0, Htot, Hmin.
  assert (Hnn : Z.of_nat (Z.to_nat n) = n) by lia.
  destruct (collect_copies h m ks rs keys_bw output_bw hitmask keys rows key_src total (Z.to_nat n) Hcfg Hcoll Hargs Ha)
    as (kb & db & m1 & m2 & m3 & m4 & E1 & E2 & E3 & E4 & (Hkb0 & Hksz & Hkl & Hkh) & (Hdb0 & Hdsz & Hdl & Hdh) & Hkd);
    [done|lia|lia|done|].
  rewrite Hnn in E2, E4. set (hb := with_buffers kb db h).
  assert (Hlt : Z.of_nat (length (take (Z.to_nat n) keys)) = n) by (rewrite length_take; lia).
  destruct (missed_step hb m4 hitmask ks (take (Z.to_nat n) keys) (size_ kb)) as (m5 & E5 & Hkh5 & Hkl5 & Hf5);
    [done|done|by apply Forall_take|intros mask Em; specialize (Hmask mask Em); lia|done|done|].
  simpl in E5, Hkh5, Hkl5, Hf5. rewrite Hlt, <- Hc in E5.
  exists kb, db, m5. split; [|split; [|done]].
  - unfold collect_keys_and_data. cbn [fst snd]. fold total. rewrite En, <- Esrc.
    erewrite cbind_ok by (unfold grow_keys; cbn [fst snd]; rewrite E1; reflexivity).
    erewrite cbind_ok by (apply on_heap_ok; exact E2).
    erewrite cbind_ok by (unfold grow_data; cbn [fst snd]; simpl insert_data_; rewrite E3; reflexivity).
    erewrite cbind_ok by (apply on_heap_ok; exact E4).
    erewrite cbind_ok by exact E5. reflexivity.
  - rewrite masked_take in Hkh5. set (mk := take (Z.to_nat n) (masked _ _ keys)) in *.
    assert (Hlm : length mk = Z.to_nat n) by (unfold mk; rewrite length_take, length_masked; lia).
    assert (Hlr' : length (take (Z.to_nat n) rows) = Z.to_nat n) by (rewrite length_take; lia).
    assert (Hne' : ks ++ mk <> []) by (intros [_ E]%app_eq_nil; rewrite E in Hlm; simpl in Hlm; lia).
    assert (Hdl5 : live m5 (buffer_ db) (size_ db)).
    { destruct Hdl as (d & Ed & ?). exists d. by rewrite Hf5. }
    split; simpl.
    + rewrite length_app, Hlm. lia.
    + rewrite !length_app, Hlm, Hlr'. lia.
    + apply chunks_app. split; [done|]. apply Forall_take. by apply chunks_masked.
    + apply chunks_app. split; [done|]. by apply Forall_take.
    + right. split; [done|]. split; [|done]. pose proof (Z.mul_pos_pos total (key_size_ h)). lia.
    + right. split; [done|]. split; [|done]. pose proof (Z.mul_pos_pos total (collected_output_stride_ h)). lia.
    + done.
    + intros _. split; [done|]. apply (fits _ total); [lia|done|done].
    + intros _. split; [|apply (fits _ total); [lia|done|done]]. apply (holds_other m4); [by apply Hf5|done].
Qed.

(** ** Between calls *)

(** No operation is in progress: the lock is free, nothing is submitted, fewer keys
    than an insert takes are collected. *)
Record idle (num_tables : Z) (h : handler H) (m : heap) (ks rs : list (list Z)) : Prop := {
  i_lock : insert_lock_ h = false;
  i_task : submitted h = None;
  i_coll : collection h m ks rs;
  i_few : ks = [] \/ collected_keys_ h < min_insert_size_ h;
  i_conf : configured h;
  i_table : 0 <= table_id_ h < num_tables;
  i_heur : exists x, heuristic_ h = Some x /\ heuristic_wf x /\ valid_table x (table_id_ h)
}.

(** An insert is on its way: the lock is held and the task has the collection. *)
Record launched (num_tables : Z) (h : handler H) (m : heap) (ks rs : list (list Z)) : Prop := {
  l_lock : insert_lock_ h = true;
  l_task : submitted h = Some {| t_keys := buffer_ (insert_keys_ h); t_data := buffer_ (insert_data_ h);
                                 t_stride := collected_output_stride_ h |};
  l_coll : collection h m ks rs;
  l_some : ks <> [];
  l_conf : configured h;
  l_stride : 0 < collected_output_stride_ h;
  l_table : 0 <= table_id_ h < num_tables;
  l_heur : exists x, heuristic_ h = Some x /\ heuristic_wf x /\ valid_table x (table_id_ h)
}.

Lemma collection_empty (h h' : handler H) m ks rs :
  collection h m ks rs -> collected_keys_ h' = 0 -> insert_keys_ h' = insert_keys_ h -> insert_data_ h' = insert_data_ h ->
  collection h' m [] [].
Proof.
  intros [Hc Hr Hkc Hrc Hkb Hdb Hdis Hks Hds] E0 Ek Ed.
  split; rewrite ?Ek, ?Ed; try done; by apply Forall_nil_2.
Qed.

Lemma collection_same (h h' : handler H) m ks rs :
  collection h m ks rs -> collected_keys_ h' = collected_keys_ h -> insert_keys_ h' = insert_keys_ h ->
  insert_data_ h' = insert_data_ h -> key_size_ h' = key_size_ h -> min_insert_size_ h' = min_insert_size_ h ->
  collected_output_stride_ h' = collected_output_stride_ h -> collection h' m ks rs.
Proof.
  intros [Hc Hr Hkc Hrc Hkb Hdb Hdis Hks Hds] E0 Ek Ed E1 E2 E3.
  split; rewrite ?E0, ?Ek, ?Ed, ?E1, ?E2, ?E3; done.
Qed.

(** Modifying operations discard the collection. *)
Lemma modify_discards num_tables h m ks rs :
  idle num_tables h m ks rs ->
  exists h1, lock_modify h = Some h1 /\ insert_lock_ h1 = true /\ lock_modify h1 = None /\
    idle num_tables (unlock_modify h1) m [] [].
Proof.
  intros [Hl Ht Hc Hf Hcf Htb (x & Ex & Hx)]. unfold lock_modify, unlock_modify, lock. rewrite Ex, Hl. simpl.
  eexists. split; [done|]. split; [done|]. simpl. rewrite Ex. split; [done|].
  split; try done; [by eapply collection_empty|by left|by exists x].
Qed.

(** The end of a call after a collection step. *)
Lemma finish_spec num_tables h m ks rs output_stride :
  insert_lock_ h = true -> submitted h = None -> collection h m ks rs -> configured h ->
  0 <= table_id_ h < num_tables -> (ks <> [] -> output_stride = collected_output_stride_ h /\ 0 < output_stride) ->
  (exists x, heuristic_ h = Some x /\ heuristic_wf x /\ valid_table x (table_id_ h)) ->
  exists h', finish_auto_insert num_tables output_stride (h, m) = (Ok tt, (h', m)) /\
    collected_output_stride_ h' = collected_output_stride_ h /\ min_insert_wait_ h' = min_insert_wait_ h /\
    (if decide (ks <> [] /\ min_insert_size_ h <= Z.of_nat (length ks))
     then launched num_tables h' m ks rs else idle num_tables h' m ks rs).
Proof.
  intros Hl Ht Hc Hcf Htb Hst Hh. unfold finish_auto_insert. cbn [fst snd].
  set (h1 := if insert_freq_cnt_ h <? 0 then _ else h).
  assert (Hh1 : collection h1 m ks rs /\ insert_lock_ h1 = true /\ submitted h1 = None /\ configured h1 /\
    table_id_ h1 = table_id_ h /\ heuristic_ h1 = heuristic_ h /\ min_insert_size_ h1 = min_insert_size_ h /\
    collected_keys_ h1 = collected_keys_ h /\ collected_output_stride_ h1 = collected_output_stride_ h /\
    min_insert_wait_ h1 = min_insert_wait_ h).
  { unfold h1. destruct (_ <? 0); split_and!; try done. by eapply collection_same. }
  destruct Hh1 as (Hc1 & Hl1 & Ht1 & Hcf1 & Etb & Ehh & Emin & Eck & Estr & Ewait).
  pose proof (c_count _ _ _ _ Hc) as Hcnt. rewrite Eck, Emin, Hcnt.
  destruct (decide (ks <> [] /\ min_insert_size_ h <= Z.of_nat (length ks))) as [[Hne Hge]|Hno].
  - rewrite (proj2 (Z.ltb_lt _ _)), (proj2 (Z.leb_le _ _)) by (done || (destruct ks; [done|simpl; lia])). simpl andb.
    destruct (Hst Hne) as [Est Hst0].
    destruct (c_keys _ _ _ _ Hc1 Hne) as [[Hk0 _] _]. destruct (c_data _ _ _ _ Hc1 Hne) as [[Hd0 _] _].
    unfold launch_insert. cbn [fst snd]. rewrite !(proj2 (Z.eqb_neq _ 0)) by done. cbn [orb]. rewrite Etb.
    rewrite (proj2 (Z.leb_le _ _)), (proj2 (Z.ltb_lt _ _)) by lia. simpl andb.
    eexists. split; [reflexivity|]. split; [done|]. split; [done|].
    split; simpl; rewrite ?Etb, ?Ehh, ?Estr, ?Est; try done.
    + by eapply collection_same.
    + by rewrite <- Est.
  - replace ((0 <? Z.of_nat (length ks)) && (min_insert_size_ h <=? Z.of_nat (length ks))) with false.
    2:{ symmetry. apply andb_false_iff. destruct ks as [|k ks']; [by left|right].
        apply Z.leb_gt. apply Z.nle_gt. intros Hle. apply Hno. done. }
    eexists. split; [reflexivity|]. split; [done|]. split; [done|].
    split; simpl; rewrite ?Etb, ?Ehh, ?Emin, ?Eck; try done.
    + by eapply collection_same.
    + destruct (decide (ks = [])) as [|Hne]; [by left|right]. rewrite Hcnt. apply Z.nle_gt. intros Hle. by apply Hno.
Qed.

(** The task delivers the whole collection and leaves the handler empty. *)
Lemma task_delivers num_tables h m ks rs (table_insert : Z -> list Z -> Z -> list Z -> bool) :
  launched num_tables h m ks rs ->
  table_insert (Z.of_nat (length ks)) (mjoin ks) (collected_output_stride_ h) (mjoin rs) = true ->
  exists h', insert_task table_insert (h, m) = Some (Ok (mjoin ks, mjoin rs), (h', m)) /\
    idle num_tables h' m [] [] /\ insert_freq_cnt_ h' = min_insert_wait_ h.
Proof.
  intros [Hl Ht Hc Hne [Hk Hsent] Hst Htb Hh] Hins. pose proof (c_count _ _ _ _ Hc) as Hcnt.
  pose proof (c_rows _ _ _ _ Hc) as Hlr.
  destruct (c_keys _ _ _ _ Hc Hne) as [Hhk _]. destruct (c_data _ _ _ _ Hc Hne) as [Hhd _].
  unfold insert_task. cbn [fst snd]. rewrite Ht. cbn [t_keys t_data t_stride]. rewrite Hcnt.
  rewrite (read_from_chunks m _ (key_size_ h) ks (length ks)) by first [lia|done|exact (c_key_chunks _ _ _ _ Hc)].
  assert (Ed : read_from (buffer_ (insert_data_ h)) (Z.of_nat (length ks) * collected_output_stride_ h) m = Ok (mjoin rs)).
  { rewrite <- Hlr, (read_from_chunks m _ (collected_output_stride_ h) rs (length rs))
      by first [lia|done|exact (c_row_chunks _ _ _ _ Hc)]. by rewrite firstn_all. }
  cbn [obind]. rewrite Ed. cbn [obind]. rewrite !firstn_all, Hins. eexists. split; [reflexivity|].
  split; [|done]. split; simpl; try done; [by eapply collection_empty|by left].
Qed.

(** The handler decides to start a collection. *)
Definition asks (hitrate : f32) (h : handler H) : bool :=
  (insert_freq_cnt_ h - 1 <? 0) &&
  match heuristic_ h with
  | Some x => match insert_needed hitrate (table_id_ h) x with Ok r => r.1 | _ => false end
  | None => false
  end.

Lemma args_same (h h' : handler H) m keys_bw output_bw stride hitmask keys rows key_src :
  key_size_ h' = key_size_ h -> insert_keys_ h' = insert_keys_ h -> insert_data_ h' = insert_data_ h ->
  lookup_args h m keys_bw output_bw stride hitmask keys rows key_src ->
  lookup_args h' m keys_bw output_bw stride hitmask keys rows key_src.
Proof. intros E1 E2 E3 [? ? ? ? ? ? ? ? ? ?]. split; rewrite ?E1, ?E2, ?E3; done. Qed.

(** A collection step followed by the end of the call, with the lock held. *)
Lemma collect_and_finish num_tables h m ks rs keys_bw output_bw hitmask keys rows key_src :
  let ks' := ks ++ take (Z.to_nat (part_size (collected_keys_ h) (min_insert_size_ h) (Z.of_nat (length keys))))
                     (masked (invalid_key_bytes_ h) hitmask keys) in
  let rs' := rs ++ take (Z.to_nat (part_size (collected_keys_ h) (min_insert_size_ h) (Z.of_nat (length keys)))) rows in
  insert_lock_ h = true -> submitted h = None -> collection h m ks rs ->
  (ks = [] \/ collected_keys_ h < min_insert_size_ h) -> configured h -> 0 <= table_id_ h < num_tables ->
  (exists x, heuristic_ h = Some x /\ heuristic_wf x /\ valid_table x (table_id_ h)) ->
  lookup_args h m keys_bw output_bw (collected_output_stride_ h) hitmask keys rows key_src ->
  (forall host m n, allocate host m n <> None) ->
  exists h' m', cbind (collect_keys_and_data keys_bw output_bw hitmask (Z.of_nat (length keys)))
      (finish_auto_insert num_tables (collected_output_stride_ h)) (h, m) = (Ok tt, (h', m')) /\
    collected_output_stride_ h' = collected_output_stride_ h /\ min_insert_wait_ h' = min_insert_wait_ h /\
    (if decide (ks' <> [] /\ min_insert_size_ h <= Z.of_nat (length ks'))
     then launched num_tables h' m' ks' rs' else idle num_tables h' m' ks' rs').
Proof.
  intros ks' rs' Hl Ht Hc Hf Hcf Htb Hh Hargs Ha.
  destruct (collect_spec h m ks rs keys_bw output_bw hitmask keys rows key_src Hcf Hc Hf Hargs Ha)
    as (kb & db & m' & E & Hc' & Hn & _).
  destruct (finish_spec num_tables (with_counts (insert_freq_cnt_ h)
      (collected_keys_ h + part_size (collected_keys_ h) (min_insert_size_ h) (Z.of_nat (length keys)))
      (collected_output_stride_ h) (with_buffers kb db h)) m' ks' rs' (collected_output_stride_ h) Hl Ht Hc' Hcf Htb
    (fun _ => conj eq_refl (a_stride _ _ _ _ _ _ _ _ _ Hargs)) Hh) as (h' & E' & ? & ? & ?).
  exists h', m'. rewrite (cbind_ok _ _ _ _ E). done.
Qed.

(** What a call leaves: an insert on its way when enough is collected, else an idle
    handler. *)
Definition left_by (num_tables min_size : Z) (ks rs : list (list Z)) (h : handler H) (m : heap) : Prop :=
  if decide (ks <> [] /\ min_size <= Z.of_nat (length ks))
  then launched num_tables h m ks rs else idle num_tables h m ks rs.

(** A lookup with nothing collected so far: the heuristic decides. *)
Lemma auto_insert_starts num_tables h m keys_bw output_bw hitrate stride hitmask keys rows key_src :
  let n := Z.to_nat (part_size (collected_keys_ h) (min_insert_size_ h) (Z.of_nat (length keys))) in
  let ks' := if asks hitrate h then take n (masked (invalid_key_bytes_ h) hitmask keys) else [] in
  let rs' := if asks hitrate h then take n rows else [] in
  idle num_tables h m [] [] -> lookup_args h m keys_bw output_bw stride hitmask keys rows key_src ->
  (forall host m n, allocate host m n <> None) ->
  exists h' m', auto_insert num_tables keys_bw output_bw hitrate (Z.of_nat (length keys)) stride hitmask (h, m) =
      (Ok tt, (h', m')) /\
    (ks' <> [] -> collected_output_stride_ h' = stride) /\ min_insert_wait_ h' = min_insert_wait_ h /\
    left_by num_tables (min_insert_size_ h) ks' rs' h' m'.
Proof.
  intros n ks' rs' [Hl Ht Hc Hf Hcf Htb (x & Ex & Hwf & Hv)] Hargs Ha. pose proof (c_count _ _ _ _ Hc) as Hcnt.
  unfold auto_insert. cbn [fst snd]. rewrite Ex. unfold try_lock. rewrite Hl. cbn [negb fst snd].
  cbn [collected_keys_ with_lock collected_output_stride_]. rewrite Hcnt. cbn [length Z.of_nat Z.ltb Z.compare].
  unfold start_needed. cbn [heuristic_ with_counts with_lock insert_freq_cnt_ table_id_]. rewrite Ex.
  destruct (insert_needed_returns hitrate (table_id_ h) x Hwf Hv) as (b & x' & Eb & Hwf' & Hv').
  assert (Ecol : asks hitrate h = (insert_freq_cnt_ h - 1 <? 0) && b) by (unfold asks; by rewrite Ex, Eb).
  set (h0 := with_counts (insert_freq_cnt_ h - 1) (collected_keys_ h) (collected_output_stride_ h) (with_lock true h)).
  assert (Hheur : exists x0, Some x' = Some x0 /\ heuristic_wf x0 /\ valid_table x0 (table_id_ h)).
  { exists x'. split; [done|]. split; [done|]. by apply Hv'. }
  unfold ks', rs'. rewrite Ecol. destruct (insert_freq_cnt_ h - 1 <? 0).
  - rewrite Eb. cbn [fst snd andb]. destruct b.
    + destruct (collect_and_finish num_tables (with_counts (insert_freq_cnt_ h - 1) 0 stride (with_heuristic x' h0))
        m [] [] keys_bw output_bw hitmask keys rows key_src) as (h' & m' & E & E1 & E2 & Hr);
        [done|done|by apply (collection_empty h _ _ _ _ Hc)|by left|done|done|done|by apply (args_same h)|done|].
      exists h', m'. split; [exact E|]. split; [done|]. split; [done|]. unfold n. rewrite Hcnt. exact Hr.
    + destruct (finish_spec num_tables (with_heuristic x' h0) m [] [] stride) as (h' & E & E1 & E2 & Hr);
        [done|done|by apply (collection_empty h _ _ _ _ Hc)|done|done|done|done|].
      by exists h', m.
  - destruct (finish_spec num_tables h0 m [] [] stride) as (h' & E & E1 & E2 & Hr);
      [done|done|by apply (collection_empty h _ _ _ _ Hc)|done|done|done|by exists x|].
    by exists h', m.
Qed.

(** A lookup while a collection is in progress. *)
Lemma auto_insert_continues num_tables h m ks rs keys_bw output_bw hitrate hitmask keys rows key_src :
  let n := Z.to_nat (part_size (collected_keys_ h) (min_insert_size_ h) (Z.of_nat (length keys))) in
  ks <> [] -> idle num_tables h m ks rs ->
  lookup_args h m keys_bw output_bw (collected_output_stride_ h) hitmask keys rows key_src ->
  (forall host m n, allocate host m n <> None) ->
  exists h' m', auto_insert num_tables keys_bw output_bw hitrate (Z.of_nat (length keys))
        (collected_output_stride_ h) hitmask (h, m) = (Ok tt, (h', m')) /\
    collected_output_stride_ h' = collected_output_stride_ h /\ min_insert_wait_ h' = min_insert_wait_ h /\
    left_by num_tables (min_insert_size_ h) (ks ++ take n (masked (invalid_key_bytes_ h) hitmask keys))
      (rs ++ take n rows) h' m'.
Proof.
  intros n Hne [Hl Ht Hc Hf Hcf Htb (x & Ex & Hx)] Hargs Ha. pose proof (c_count _ _ _ _ Hc) as Hcnt.
  unfold auto_insert. cbn [fst snd]. rewrite Ex. unfold try_lock. rewrite Hl. cbn [negb fst snd].
  cbn [collected_keys_ with_lock collected_output_stride_].
  rewrite (proj2 (Z.ltb_lt _ _)), Z.eqb_refl by (rewrite Hcnt; destruct ks; [done|simpl; lia]). cbn [negb].
  apply (collect_and_finish num_tables (with_lock true h) m ks rs keys_bw output_bw hitmask keys rows key_src);
    [done|done|by apply (collection_same h)|done|done|done|by exists x|by apply (args_same h)|done].
Qed.

(** One lookup through [auto_insert], with the handler between calls and [ks], [rs]
    collected so far: it returns; if a collection is in progress, or the waiting
    period is over and the heuristic asks for an insert, the keys of the lookup
    (missed ones replaced by the invalid key) and their rows are appended, up to
    [min_insert_size] in all; otherwise nothing is collected. When enough keys are
    collected the lock stays held by the insert task, which hands the table exactly
    the collected keys and rows, and, when that insert succeeds, leaves the handler
    between calls with nothing collected and the waiting period restarted; otherwise
    the lock is free again. *)
Theorem auto_insert_collects (num_tables : Z) (h : handler H) (m : heap) (ks rs : list (list Z))
    (keys_bw output_bw : BufferWrapper) (hitrate : f32) (stride : Z) (hitmask : option (list Z))
    (keys rows : list (list Z)) (key_src : Z) (table_insert : Z -> list Z -> Z -> list Z -> bool) :
  idle num_tables h m ks rs -> lookup_args h m keys_bw output_bw stride hitmask keys rows key_src ->
  (ks <> [] -> stride = collected_output_stride_ h) -> (forall host m n, allocate host m n <> None) ->
  let n := Z.to_nat (part_size (collected_keys_ h) (min_insert_size_ h) (Z.of_nat (length keys))) in
  let collects := negb (bool_decide (length ks = 0%nat)) || asks hitrate h in
  let ks' := if collects then ks ++ take n (masked (invalid_key_bytes_ h) hitmask keys) else ks in
  let rs' := if collects then rs ++ take n rows else rs in
  exists h' m', auto_insert num_tables keys_bw output_bw hitrate (Z.of_nat (length keys)) stride hitmask (h, m) =
      (Ok tt, (h', m')) /\
    if decide (ks' <> [] /\ min_insert_size_ h <= Z.of_nat (length ks')) then
      launched num_tables h' m' ks' rs' /\
      (table_insert (Z.of_nat (length ks')) (mjoin ks') stride (mjoin rs') = true ->
       exists h'', insert_task table_insert (h', m') = Some (Ok (mjoin ks', mjoin rs'), (h'', m')) /\
         idle num_tables h'' m' [] [] /\ insert_freq_cnt_ h'' = min_insert_wait_ h)
    else idle num_tables h' m' ks' rs'.
Proof.
  intros Hidle Hargs Hstr Ha n collects ks' rs'. pose proof (c_rows _ _ _ _ (i_coll _ _ _ _ _ Hidle)) as Hlen.
  assert (Hcall : exists h' m',
    auto_insert num_tables keys_bw output_bw hitrate (Z.of_nat (length keys)) stride hitmask (h, m) = (Ok tt, (h', m')) /\
    (ks' <> [] -> collected_output_stride_ h' = stride) /\ min_insert_wait_ h' = min_insert_wait_ h /\
    left_by num_tables (min_insert_size_ h) ks' rs' h' m').
  { destruct ks as [|k ks0].
    - destruct rs; [|done]. by eapply auto_insert_starts.
    - destruct (auto_insert_continues num_tables h m (k :: ks0) rs keys_bw output_bw hitrate hitmask keys rows key_src)
        as (h' & m' & E & E1 & ?); [done|done|by rewrite <- Hstr|done|].
      rewrite Hstr by done. by exists h', m'. }
  destruct Hcall as (h' & m' & E & Hs & Hw & Hr). exists h', m'. split; [exact E|]. unfold left_by in Hr.
  destruct (decide _) as [[Hne _]|]; [|done]. split; [done|]. intros Hins.
  destruct (task_delivers _ _ _ _ _ table_insert Hr) as (h'' & E' & Hi & Hfr); [by rewrite (Hs Hne)|].
  exists h''. split; [done|]. split; [done|]. by rewrite Hfr.
Qed.

(** ** The other threads *)

(** A whole operation of some thread: a lookup, the insert task, a modifying operation. *)
Inductive hstep : handler H * heap -> handler H * heap -> Prop :=
  | step_auto_insert num_tables keys_bw output_bw hitrate num_keys stride hitmask s r s' :
      auto_insert num_tables keys_bw output_bw hitrate num_keys stride hitmask s = (r, s') -> hstep s s'
  | step_task table_insert s r s' : insert_task table_insert s = Some (r, s') -> hstep s s'
  | step_modify h m h1 m' : lock_modify h = Some h1 -> hstep (h, m) (unlock_modify h1, m').

(** The lock is not released on the error path: a lookup whose output stride differs
    from the one the collection was started with makes [auto_insert] throw, and from
    then on no lookup, insert task or modifying operation of any thread changes the
    handler, and [lock_modify] never returns. *)
Theorem stride_change_leaks_lock (num_tables : Z) (h : handler H) (m : heap) (ks rs : list (list Z))
    (keys_bw output_bw : BufferWrapper) (hitrate : f32) (num_keys stride : Z) (hitmask : option (list Z)) :
  idle num_tables h m ks rs -> ks <> [] -> stride <> collected_output_stride_ h ->
  exists h' e, auto_insert num_tables keys_bw output_bw hitrate num_keys stride hitmask (h, m) = (Throw e, (h', m)) /\
    forall s, rtc hstep (h', m) s -> s = (h', m) /\ lock_modify s.1 = None.
Proof.
  intros [Hl Ht Hc Hf Hcf Htb (x & Ex & _)] Hne Hstr. pose proof (c_count _ _ _ _ Hc) as Hcnt.
  exists (with_lock true h). eexists. split.
  { unfold auto_insert. cbn [fst snd]. rewrite Ex. unfold try_lock. rewrite Hl. cbn [negb fst snd].
    cbn [collected_keys_ with_lock collected_output_stride_]. rewrite Hcnt.
    rewrite (proj2 (Z.ltb_lt _ _)) by (destruct ks; [done|simpl; lia]).
    rewrite (proj2 (Z.eqb_neq _ _)) by done. reflexivity. }
  assert (Hblock : lock_modify (with_lock true h) = None) by (unfold lock_modify; simpl; by rewrite Ex).
  assert (Hstuck : forall s s', hstep s s' -> s = (with_lock true h, m) -> s' = (with_lock true h, m)).
  { intros s s' Hs ->. inversion Hs as [n' kb ob hr nk st hm s0 r s1 E|f s0 r s1 E|h0 m0 h1 m1 E]; subst.
    - unfold auto_insert in E. simpl in E. rewrite Ex in E. simpl in E. by injection E as _ <-.
    - unfold insert_task in E. simpl in E. by rewrite Ht in E.
    - congruence. }
  assert (Hruns : forall s0 s, rtc hstep s0 s -> s0 = (with_lock true h, m) -> s = (with_lock true h, m)).
  { induction 1 as [|s0 s1 s2 H1 H2 IHs]; [done|]. intros E. apply IHs. by eapply Hstuck. }
  intros s Hs. rewrite (Hruns _ _ Hs eq_refl). done.
Qed.
End Collection.

(** ** Examples *)

Module Examples.
Import FSMInsertHeuristic.

Definition fsm : heur := FSMInsertHeuristic.construct [f32_ratio 1 4].
Definition fresh_handler (min_insert_size : Z) : handler heur :=
  match new_handler (Some fsm) 0 7 min_insert_size 1 (-1) (Some [255]) with
  | Ok h => h
  | _ => {| insert_lock_ := true; heuristic_ := None; table_id_ := 0; min_insert_wait_ := 0; min_insert_size_ := 0;
            key_size_ := 0; invalid_key_bytes_ := []; insert_freq_cnt_ := 0; collected_keys_ := 0;
            collected_output_stride_ := 0; insert_keys_ := new_buffer true; insert_data_ := new_buffer true;
            submitted := None |}
  end.
Definition host_wrapper (name : string) (p size : Z) : BufferWrapper :=
  {| name_ := name; bw_size := size; is_const := true; last_access_ := Unregistered;
     buffers_ := fun t => if decide (t = Unregistered) then Some p else None |}.
Definition caller_heap : heap := {[ 1000 := [1; 2]; 2000 := [10; 11; 20; 21] ]}.

Lemma fresh_idle n : idle 1 (fresh_handler n) caller_heap [] [].
Proof.
  split; try reflexivity; try (simpl; lia).
  - split; try reflexivity; try (intros E; by destruct E); try (by apply Forall_nil_2); by left.
  - by left.
  - split; [simpl; lia|reflexivity].
  - exists fsm. split; [reflexivity|]. split; [apply construct_wf|simpl; lia].
Qed.

Lemma example_args n :
  lookup_args (fresh_handler n) caller_heap (host_wrapper "keys" 1000 2) (host_wrapper "output" 2000 4) 2
    (Some [1]) [[1]; [2]] [[10; 11]; [20; 21]] 1000.
Proof.
  split; try done; try (simpl; lia); try (by repeat constructor).
  - split; [done|]. exists [1; 2]. split; [reflexivity|]. by exists [].
  - split; [done|]. exists [10; 11; 20; 21]. split; [reflexivity|]. by exists [].
  - intros mask [= <-]. simpl; lia.
Qed.

(** The two keys of a lookup, the second one missed, are handed to the table. *)
Lemma auto_insert_collects_witness :
  exists h m, auto_insert (H1 := unlimited) 1 (host_wrapper "keys" 1000 2) (host_wrapper "output" 2000 4)
      f32_zero 2 2 (Some [1]) (fresh_handler 2, caller_heap) = (Ok tt, (h, m)) /\
    exists h', insert_task (fun _ _ _ _ => true) (h, m) = Some (Ok ([1; 255], [10; 11; 20; 21]), (h', m)) /\
      idle 1 h' m [] [] /\ insert_freq_cnt_ h' = 7.
Proof.
  destruct (auto_insert_collects (A := unlimited) 1 (fresh_handler 2) caller_heap [] []
    (host_wrapper "keys" 1000 2) (host_wrapper "output" 2000 4) f32_zero 2 (Some [1]) [[1]; [2]]
    [[10; 11]; [20; 21]] 1000 (fun _ _ _ _ => true)) as (h & m & E & Hr).
  - apply fresh_idle.
  - apply example_args.
  - intros []. reflexivity.
  - intros host m n E. discriminate E.
  - exists h, m. split; [exact E|]. rewrite decide_True in Hr by (vm_compute; split; discriminate).
    destruct Hr as [_ Hr]. exact (Hr eq_refl).
Defined.

(** Two keys of three are collected; a lookup with another stride is fatal. *)
Definition collecting : handler heur :=
  with_counts 0 2 2 (with_buffers {| host_alloc_ := true; buffer_ := 1; size_ := 3 |}
    {| host_alloc_ := true; buffer_ := 2; size_ := 6 |} (fresh_handler 3)).
Definition collecting_heap : heap := {[ 1 := [1; 255; 0]; 2 := [10; 11; 20; 21; 0; 0] ]}.

Lemma collecting_idle : idle 1 collecting collecting_heap [[1]; [255]] [[10; 11]; [20; 21]].
Proof.
  split; try reflexivity; try (simpl; lia).
  - split.
    + reflexivity.
    + reflexivity.
    + by repeat constructor.
    + by repeat constructor.
    + right. split; [discriminate|]. split; [simpl; lia|]. eexists. split; [reflexivity|simpl; lia].
    + right. split; [discriminate|]. split; [simpl; lia|]. eexists. split; [reflexivity|simpl; lia].
    + discriminate.
    + intros _. split; [|simpl; lia]. split; [discriminate|]. eexists. split; [reflexivity|]. by exists [0].
    + intros _. split; [|simpl; lia]. split; [discriminate|]. eexists. split; [reflexivity|]. by exists [0; 0].
  - split; [simpl; lia|reflexivity].
  - exists fsm. split; [reflexivity|]. split; [apply construct_wf|simpl; lia].
Qed.

Lemma stride_change_leaks_lock_witness :
  exists h' e, auto_insert (H1 := unlimited) 1 (host_wrapper "keys" 1000 2) (host_wrapper "output" 2000 4)
      f32_zero 2 4 None (collecting, collecting_heap) = (Throw e, (h', collecting_heap)) /\
    forall s, rtc (hstep (A := unlimited)) (h', collecting_heap) s ->
      s = (h', collecting_heap) /\ lock_modify s.1 = None.
Proof.
  apply (stride_change_leaks_lock (A := unlimited) 1 collecting collecting_heap [[1]; [255]] [[10; 11]; [20; 21]]).
  - apply collecting_idle.
  - discriminate.
  - discriminate.
Defined.
End Examples.
