(* ===== verification/LinearTable.v ===== *)
(** * Linear host table: [cpu_ops/cpu_gather.h], [cpu_ops/cpu_update.h],
    [include/linear_host_table.hpp], [src/linear_host_table.cpp]

    A table whose row [k] lies at [emb_table + k * max_value_size]: the gather and
    update kernels with their tasks on the thread pool, and the operations of
    [LinearHostTable]. Buffers are given as the pointers [access_buffer] returns
    (0 is [nullptr]). Counts are taken not to exceed [uint64_t]. *)
From S2P Require Import Prelude DataTypes HostTable.

(** ** Tasks *)

(** The positions task [idx] visits: [base_key + i] for [i < keys_per_task], until
    [n] is reached. *)
Fixpoint task_loop (n base : Z) (count : nat) (i : Z) : list (Z * Z) :=
  match count with
  | O => []
  | S count => if n <=? base + i then [] else (base, i) :: task_loop n base count (i + 1)
  end.
Definition task_events (n keys_per_task idx : Z) : list (Z * Z) :=
  task_loop n (idx * keys_per_task) (Z.to_nat keys_per_task) 0.
(** All tasks, in the order of their indices. *)
Definition all_events (n keys_per_task num_threads : Z) : list (Z * Z) :=
  mjoin (task_events n keys_per_task <$> seqZ 0 num_threads).

Definition position (e : Z * Z) : Z := e.1 + e.2.

(** ** cpu_kernel_gather *)

Record gather_args := {
  g_n : Z; g_keys : Z -> Z; g_stride : Z; g_values : Z; g_table : Z; g_row : Z; g_threads : Z
}.

Definition gather_keys_per_task (n num_threads : Z) : Z :=
  (((n + num_threads - 1) / num_threads) + 64 - 1) / 64 * 64.

(** Bit [bit_idx] of [hit_mask[base_mask_idx + mask_idx]]. *)
Definition already_hit (hit_mask : option (Z -> Z)) (e : Z * Z) : bool :=
  match hit_mask with
  | None => false
  | Some mask => Z.testbit (mask (e.1 / 64 + e.2 / 64)) (e.2 mod 64)
  end.

(** The body of the loop for one key. *)
Definition gather_one (a : gather_args) (hit_mask : option (Z -> Z)) (m : memory) (e : Z * Z) : memory :=
  if already_hit hit_mask e then m
  else memcpy (g_values a + position e * g_stride a)
              (g_table a + wrapu 64 (g_keys a (position e)) * g_row a) (g_row a) m.

(** The mask after the gather: all full words, then the bits of the last one. *)
Definition resolve_mask (n : Z) (mask : Z -> Z) : Z -> Z := fun w =>
  if (0 <=? w) && (w <? n / 64) then 2 ^ 64 - 1
  else if (w =? n / 64) && negb (n - n / 64 * 64 =? 0) then 2 ^ (n - n / 64 * 64) - 1
  else mask w.

Definition cpu_kernel_gather (a : gather_args) (hit_mask : option (Z -> Z)) (m : memory)
  : outcome (memory * option (Z -> Z)) :=
  if g_threads a =? 0 then Undef "division by zero"
  else
    let evs := all_events (g_n a) (gather_keys_per_task (g_n a) (g_threads a)) (g_threads a) in
    Ok (fold_left (gather_one a hit_mask) evs m, resolve_mask (g_n a) <$> hit_mask).

(** ** cpu_kernel_update *)

Record update_args := {
  u_n : Z; u_keys : Z -> Z; u_stride : Z; u_values : Z; u_table : Z; u_row : Z; u_threads : Z
}.

Definition update_keys_per_task (n num_threads : Z) : Z := (n + num_threads - 1) / num_threads.

Definition update_dst (a : update_args) (e : Z * Z) : Z :=
  u_table a + wrapu 64 (u_keys a (position e)) * u_row a.
Definition update_src (a : update_args) (e : Z * Z) : Z := u_values a + position e * u_stride a.
Definition update_one (a : update_args) (m : memory) (e : Z * Z) : memory :=
  memcpy (update_dst a e) (update_src a e) (u_row a) m.

Definition cpu_kernel_update (a : update_args) (m : memory) : outcome memory :=
  if u_threads a =? 0 then Undef "division by zero"
  else Ok (fold_left (update_one a) (all_events (u_n a) (update_keys_per_task (u_n a) (u_threads a)) (u_threads a)) m).

(** ** LinearHostTable *)

Record LinearHostTableConfig := { lin_base : HostTableConfig; emb_table : Z; max_threads : Z }.

Definition linear_config_check (c : LinearHostTableConfig) : outcome unit :=
  let! _ := host_table_config_check (lin_base c) in
  check! negb (emb_table c =? 0) as "UVM table pointer was not initialized in config" in
  check! 0 <? max_threads c as "Max threads need to be greater than 0." in
  Ok tt.

(** [find]: the memory, the hit mask and the lookup counter after the call. *)
Definition linear_find (c : LinearHostTableConfig) (num_workers num_keys keys_buf : Z) (keys : Z -> Z)
    (hit_mask : option (Z -> Z)) (value_stride values_buf : Z) (counter : Z) (m : memory)
  : outcome (memory * option (Z -> Z) * Z) :=
  check! negb (keys_buf =? 0) as "Invalid keys" in
  check! negb (values_buf =? 0) as "Invalid values" in
  check! 0 <? num_keys as "Invalid number of keys" in
  let num_threads := Z.min num_workers (max_threads c) in
  let! r := cpu_kernel_gather {| g_n := num_keys; g_keys := keys; g_stride := value_stride; g_values := values_buf;
              g_table := emb_table c; g_row := max_value_size (lin_base c); g_threads := num_threads |} hit_mask m in
  Ok (r, counter + num_keys).

Definition linear_update (c : LinearHostTableConfig) (num_workers num_keys keys_buf : Z) (keys : Z -> Z)
    (value_stride value_size values_buf : Z) (m : memory) : outcome memory :=
  check! negb (keys_buf =? 0) as "Invalid keys" in
  check! negb (values_buf =? 0) as "Invalid values" in
  check! value_size =? max_value_size (lin_base c) as "Invalid value size" in
  check! 0 <? num_keys as "Invalid number of keys" in
  cpu_kernel_update {| u_n := num_keys; u_keys := keys; u_stride := value_stride; u_values := values_buf;
    u_table := emb_table c; u_row := max_value_size (lin_base c);
    u_threads := Z.min num_workers (max_threads c) |} m.

(** [cpu_kernel_update_accumulate<IndexT, float, float>]: [add_element] adds the bytes of
    two elements. *)
Section Accumulate.
Variable add_element : DataType_t -> DataType_t -> list Z -> list Z -> list Z.

Definition accumulate_one (a : update_args) (m : memory) (e : Z * Z) : memory :=
  cpu_update_kernel add_element Float32 Float32 (update_dst a e) m (update_src a e) (u_row a) m.

Definition cpu_kernel_update_accumulate (a : update_args) (m : memory) : outcome memory :=
  if u_threads a =? 0 then Undef "division by zero"
  else Ok (fold_left (accumulate_one a) (all_events (u_n a) (update_keys_per_task (u_n a) (u_threads a)) (u_threads a)) m).

Definition linear_update_accumulate (c : LinearHostTableConfig) (num_workers num_keys keys_buf : Z) (keys : Z -> Z)
    (update_stride update_size updates_buf : Z) (update_dtype : DataType_t) (m : memory) : outcome memory :=
  check! negb (keys_buf =? 0) as "Invalid keys" in
  check! negb (updates_buf =? 0) as "Invalid updates" in
  check! update_size =? max_value_size (lin_base c) as "Invalid update size" in
  check! 0 <? num_keys as "Invalid number of keys" in
  check! bool_decide (value_dtype (lin_base c) = Float32) as "Unsupported value type" in
  check! bool_decide (update_dtype = Float32) as "Unsupported data type" in
  cpu_kernel_update_accumulate {| u_n := num_keys; u_keys := keys; u_stride := update_stride; u_values := updates_buf;
    u_table := emb_table c; u_row := max_value_size (lin_base c);
    u_threads := Z.min num_workers (max_threads c) |} m.
End Accumulate.

(** [clear], [erase] and [insert] log that they have no effect; [size] is unknown. *)
Definition linear_noop (m : memory) : memory := m.
Definition linear_size : Z := -1.

(** ** Lemmas: the tasks visit every position once *)

Lemma elem_of_task_loop n base count i e :
  e ∈ task_loop n base count i <-> e.1 = base /\ i <= e.2 < i + Z.of_nat count /\ base + e.2 < n.
Proof.
  revert i. induction count as [|count IH]; intros i; simpl; [split; [by intros ?%elem_of_nil|lia]|].
  destruct (Z.leb_spec n (base + i)) as [Hn|Hn].
  - split; [by intros ?%elem_of_nil|]. lia.
  - rewrite elem_of_cons, IH. split.
    + intros [->|H]; simpl; lia.
    + intros (H1 & H2 & H3). destruct (decide (e.2 = i)) as [E|E]; [left; destruct e; simpl in *; congruence|right; lia].
Qed.

Lemma elem_of_all_events n k t e :
  0 < k -> 0 <= t ->
  (e ∈ all_events n k t <-> exists idx, 0 <= idx < t /\ e.1 = idx * k /\ 0 <= e.2 < k /\ position e < n).
Proof.
  intros Hk Ht. unfold all_events, task_events, position. rewrite list_elem_of_join. split.
  - intros (l & He & (idx & -> & Hi%elem_of_seqZ)%list_elem_of_fmap). apply elem_of_task_loop in He as (E1 & E2 & E3).
    exists idx. lia.
  - intros (idx & Hi & E1 & E2 & E3). exists (task_loop n (idx * k) (Z.to_nat k) 0). split.
    + apply elem_of_task_loop. lia.
    + apply list_elem_of_fmap. exists idx. split; [done|]. apply elem_of_seqZ. lia.
Qed.

Lemma all_events_cover n k t j :
  0 < k -> 0 <= t -> n <= k * t -> 0 <= j < n -> exists e, e ∈ all_events n k t /\ position e = j.
Proof.
  intros Hk Ht Hn Hj. exists (j / k * k, j mod k). unfold position. simpl.
  pose proof (Z.div_mod j k ltac:(lia)). pose proof (Z.mod_pos_bound j k Hk). split; [|lia].
  apply elem_of_all_events; [done|done|]. exists (j / k). unfold position; simpl.
  split; [|lia]. split; [apply Z.div_pos; lia|]. apply Z.div_lt_upper_bound; lia.
Qed.

Lemma all_events_range n k t e :
  0 < k -> 0 <= t -> e ∈ all_events n k t -> 0 <= position e < n.
Proof. intros Hk Ht (idx & Hi & E1 & E2 & E3)%elem_of_all_events; [|done|done]. unfold position in *. nia. Qed.

Lemma ceil_div_cover n t : 0 < t -> 0 < n -> n <= (n + t - 1) / t * t /\ 0 < (n + t - 1) / t.
Proof.
  intros Ht Hn. pose proof (Z.div_mod (n + t - 1) t ltac:(lia)). pose proof (Z.mod_pos_bound (n + t - 1) t Ht). nia.
Qed.

Lemma gather_tasks_cover n t :
  0 < t -> 0 < n -> exists q, gather_keys_per_task n t = q * 64 /\ 0 < q /\ n <= gather_keys_per_task n t * t.
Proof.
  intros Ht Hn. unfold gather_keys_per_task. set (k := (n + t - 1) / t).
  destruct (ceil_div_cover n t Ht Hn) as [H1 H2]. fold k in H1, H2.
  destruct (ceil_div_cover k 64 ltac:(lia) H2) as [H3 H4].
  exists ((k + 64 - 1) / 64). split; [done|]. split; [done|]. nia.
Qed.

(** Destination rows at different multiples of a stride do not overlap. *)
Lemma rows_apart base stride row i j : 0 <= row <= stride -> i <> j -> disjoint (base + i * stride) row (base + j * stride) row.
Proof. intros H Hij. unfold disjoint. assert (i < j \/ j < i) as [Hl|Hl] by lia; [left|right]; nia. Qed.

(** ** What the kernels do, in any interleaving *)

(** Key [j] was hit before. *)
Definition hit_before (hit_mask : option (Z -> Z)) (j : Z) : bool :=
  match hit_mask with None => false | Some mask => Z.testbit (mask (j / 64)) (j mod 64) end.

Lemma already_hit_position hit_mask n q t e :
  0 < q -> 0 <= t -> e ∈ all_events n (q * 64) t -> already_hit hit_mask e = hit_before hit_mask (position e).
Proof.
  intros Hq Ht (idx & _ & E1 & _)%elem_of_all_events; [|lia|done]. destruct hit_mask as [mask|]; [|done]. simpl.
  unfold position. rewrite E1. replace (idx * (q * 64) + e.2) with (e.2 + (idx * q) * 64) by ring.
  rewrite Z_mod_plus_full, Z.div_add by lia. replace (idx * (q * 64)) with ((idx * q) * 64) by ring.
  rewrite Z.div_mul by lia. f_equal. f_equal. lia.
Qed.

Lemma fold_gather_filter a hit_mask evs m :
  fold_left (gather_one a hit_mask) evs m =
  fold_left (fun m e => memcpy (g_values a + position e * g_stride a)
      (g_table a + wrapu 64 (g_keys a (position e)) * g_row a) (g_row a) m)
    (filter (fun e => already_hit hit_mask e = false) evs) m.
Proof.
  revert m. induction evs as [|e evs IH]; intros m; [done|]. simpl. rewrite filter_cons.
  unfold gather_one at 2. destruct (already_hit hit_mask e) eqn:E.
  - rewrite decide_False by done. apply IH.
  - rewrite decide_True by done. apply IH.
Qed.

(** Whatever the order in which the tasks run their copies. *)
Lemma gather_spec a hit_mask m evs :
  0 < g_n a -> 0 < g_threads a -> 0 <= g_row a <= g_stride a ->
  (forall i j, 0 <= i < g_n a -> 0 <= j < g_n a ->
     disjoint (g_values a + i * g_stride a) (g_row a) (g_table a + wrapu 64 (g_keys a j) * g_row a) (g_row a)) ->
  evs ≡ₚ all_events (g_n a) (gather_keys_per_task (g_n a) (g_threads a)) (g_threads a) ->
  let m' := fold_left (gather_one a hit_mask) evs m in
  (forall j, 0 <= j < g_n a -> mem_read m' (g_values a + j * g_stride a) (g_row a) =
     if hit_before hit_mask j then mem_read m (g_values a + j * g_stride a) (g_row a)
     else mem_read m (g_table a + wrapu 64 (g_keys a j) * g_row a) (g_row a)) /\
  (forall x k, (forall j, 0 <= j < g_n a -> disjoint (g_values a + j * g_stride a) (g_row a) x k) ->
     mem_read m' x k = mem_read m x k).
Proof.
  intros Hn Ht Hrow Hsep Hp m'. destruct (gather_tasks_cover (g_n a) (g_threads a) Ht Hn) as (q & Eq & Hq & Hcov).
  assert (Hk : 0 < gather_keys_per_task (g_n a) (g_threads a)) by lia.
  unfold m'. rewrite fold_gather_filter. set (l := filter _ evs).
  assert (Hl : forall e, e ∈ l <-> already_hit hit_mask e = false /\
    e ∈ all_events (g_n a) (gather_keys_per_task (g_n a) (g_threads a)) (g_threads a)).
  { intros e. unfold l. rewrite list_elem_of_filter. by rewrite Hp. }
  assert (Hr : forall e, e ∈ l -> 0 <= position e < g_n a).
  { intros e He. apply Hl in He as [_ He]. eapply all_events_range; [exact Hk| |exact He]; lia. }
  split.
  - intros j Hj. destruct (all_events_cover (g_n a) _ (g_threads a) j Hk ltac:(lia) Hcov Hj) as (e & He & <-).
    assert (Eh : already_hit hit_mask e = hit_before hit_mask (position e)).
    { rewrite Eq in He. by eapply already_hit_position; [| |exact He]; [lia|lia]. }
    rewrite <- Eh. destruct (already_hit hit_mask e) eqn:Eah.
    + apply fold_memcpy_disjoint. intros e' He'. apply rows_apart; [done|]. intros E.
      apply Hl in He' as [Hm He']. rewrite Eq in He'.
      rewrite (already_hit_position hit_mask (g_n a) q (g_threads a) e' ltac:(lia) ltac:(lia) He'), E in Hm. congruence.
    + destruct (fold_memcpy_in (fun e => g_values a + position e * g_stride a)
        (fun e => g_table a + wrapu 64 (g_keys a (position e)) * g_row a) (g_row a) l m e) as (e' & He' & Ed & ->).
      * by apply Hl.
      * intros e1 e2 H1 H2. destruct (decide (position e1 = position e2)) as [->|]; [by left|right].
        by apply rows_apart.
      * intros e1 e2 H1 H2. apply Hsep; by apply Hr.
      * destruct (decide (position e' = position e)) as [->|Hne]; [done|]. destruct (Z.eq_dec (g_row a) 0) as [E0|E0].
        { by rewrite E0. }
        assert (position e' < position e \/ position e < position e') as [Hc|Hc] by lia; nia.
  - intros x k Hx. apply fold_memcpy_disjoint. intros e He. by apply Hx, Hr.
Qed.

Lemma update_spec a m evs rows :
  0 < u_n a -> 0 < u_threads a -> 0 < u_row a ->
  (forall j, 0 <= j < u_n a -> 0 <= u_keys a j < rows) -> rows <= 2 ^ 64 ->
  (forall j, 0 <= j < u_n a -> disjoint (u_values a + j * u_stride a) (u_row a) (u_table a) (rows * u_row a)) ->
  evs ≡ₚ all_events (u_n a) (update_keys_per_task (u_n a) (u_threads a)) (u_threads a) ->
  let m' := fold_left (update_one a) evs m in
  forall k, 0 <= k < rows ->
  (exists j, 0 <= j < u_n a /\ u_keys a j = k /\
     mem_read m' (u_table a + k * u_row a) (u_row a) = mem_read m (u_values a + j * u_stride a) (u_row a)) \/
  ((forall j, 0 <= j < u_n a -> u_keys a j <> k) /\
     mem_read m' (u_table a + k * u_row a) (u_row a) = mem_read m (u_table a + k * u_row a) (u_row a)).
Proof.
  intros Hn Ht Hrow Hkeys Hrows Hsep Hp m' k Hk.
  destruct (ceil_div_cover (u_n a) (u_threads a) Ht Hn) as [Hcov Hkpt].
  fold (update_keys_per_task (u_n a) (u_threads a)) in Hcov, Hkpt.
  assert (Hr : forall e, e ∈ evs -> 0 <= position e < u_n a).
  { intros e He. rewrite Hp in He. eapply all_events_range; [exact Hkpt| |exact He]; lia. }
  assert (Hdst : forall e, e ∈ evs -> update_dst a e = u_table a + u_keys a (position e) * u_row a).
  { intros e He. unfold update_dst. rewrite wrapu_small; [done|]. specialize (Hkeys _ (Hr e He)). unfold in_u. lia. }
  assert (Hrow_eq : forall i j, 0 <= i < rows -> 0 <= j < rows ->
    i = j \/ disjoint (u_table a + i * u_row a) (u_row a) (u_table a + j * u_row a) (u_row a)).
  { intros i j _ _. destruct (decide (i = j)); [by left|right]. apply rows_apart; [lia|done]. }
  destruct (decide (k ∈ (fun e => u_keys a (position e)) <$> evs)) as [Hin|Hnin].
  - left. apply list_elem_of_fmap in Hin as (e & -> & He).
    destruct (fold_memcpy_in (update_dst a) (update_src a) (u_row a) evs m e He) as (e' & He' & Ed & Er).
    + intros e1 e2 H1 H2. rewrite !Hdst by done.
      destruct (Hrow_eq (u_keys a (position e1)) (u_keys a (position e2))) as [->|]; eauto.
    + intros e1 e2 H1 H2. rewrite Hdst by done. specialize (Hsep _ (Hr e2 H2)). specialize (Hkeys _ (Hr e1 H1)).
      unfold update_src, disjoint in *. nia.
    + rewrite (Hdst e He) in Er. rewrite !Hdst in Ed by done.
      exists (position e'). split; [by apply Hr|]. split; [|exact Er].
      nia.
  - right. split.
    + intros j Hj E. apply Hnin. destruct (all_events_cover (u_n a) _ (u_threads a) j Hkpt ltac:(lia) Hcov Hj) as (e & He & Ee).
      apply list_elem_of_fmap. exists e. split; [by rewrite Ee|]. by rewrite Hp.
    + apply fold_memcpy_disjoint. intros e He. rewrite Hdst by done.
      destruct (Hrow_eq (u_keys a (position e)) k) as [E|]; [by apply Hkeys, Hr|done| |done].
      destruct Hnin. apply list_elem_of_fmap. by exists e.
Qed.

(** The mask after a gather: every key is resolved, later words are untouched. *)
Lemma resolve_mask_bits n mask j : 0 < n -> 0 <= j < n -> Z.testbit (resolve_mask n mask (j / 64)) (j mod 64) = true.
Proof.
  intros Hn Hj. unfold resolve_mask. pose proof (Z.mod_pos_bound j 64 ltac:(lia)) as Hm.
  pose proof (Z.div_mod j 64 ltac:(lia)) as Hd. pose proof (Z.div_mod n 64 ltac:(lia)) as Hdn.
  pose proof (Z.mod_pos_bound n 64 ltac:(lia)) as Hmn.
  assert (Hle : j / 64 <= n / 64) by (apply Z.div_le_mono; lia).
  rewrite (proj2 (Z.leb_le 0 (j / 64))) by (apply Z.div_pos; lia). simpl andb.
  destruct (Z.ltb_spec (j / 64) (n / 64)) as [Hlt|Hge].
  - replace (2 ^ 64 - 1) with (Z.ones 64) by done. apply Z.ones_spec_low. lia.
  - assert (j / 64 = n / 64) as E by lia. rewrite E, Z.eqb_refl.
    rewrite (proj2 (Z.eqb_neq (n - n / 64 * 64) 0)) by lia. simpl andb.
    replace (2 ^ (n - n / 64 * 64) - 1) with (Z.ones (n - n / 64 * 64)) by (rewrite Z.ones_equiv; lia).
    apply Z.ones_spec_low. lia.
Qed.

Lemma linear_check_facts c :
  linear_config_check c = Ok tt -> 0 < max_value_size (lin_base c) /\ 0 < max_threads c.
Proof.
  unfold linear_config_check. intros (u & Hb & H)%obind_Ok. split.
  - unfold host_table_config_check in Hb. destruct (existsb _ _); [|done]. destruct (existsb _ _); [|done].
    destruct (Z.ltb_spec 0 (max_value_size (lin_base c))); [done|]. done.
  - destruct (negb _); [|done]. by destruct (Z.ltb_spec 0 (max_threads c)).
Qed.

(** A linear table that passed its configuration check, updated and then looked up:
    both calls return, and whatever the interleaving of their tasks, the output row
    of every key not hit before is a row the update gave for that key, or the row the
    table had when the update did not name the key; output rows of keys hit before
    are untouched, and afterwards the mask has every key resolved. *)
Theorem linear_update_find (c : LinearHostTableConfig) (num_workers rows : Z)
    (un ukeys_buf ustride uvalues : Z) (ukeys : Z -> Z)
    (qn qkeys_buf qstride qvalues counter : Z) (qkeys : Z -> Z) (hit_mask : option (Z -> Z)) (m : memory) :
  let row := max_value_size (lin_base c) in
  let threads := Z.min num_workers (max_threads c) in
  let ua := {| u_n := un; u_keys := ukeys; u_stride := ustride; u_values := uvalues; u_table := emb_table c;
               u_row := row; u_threads := threads |} in
  let qa := {| g_n := qn; g_keys := qkeys; g_stride := qstride; g_values := qvalues; g_table := emb_table c;
               g_row := row; g_threads := threads |} in
  linear_config_check c = Ok tt -> 0 < num_workers -> rows <= 2 ^ 64 ->
  ukeys_buf <> 0 -> uvalues <> 0 -> 0 < un -> qkeys_buf <> 0 -> qvalues <> 0 -> 0 < qn -> row <= qstride ->
  (forall j, 0 <= j < un -> 0 <= ukeys j < rows) -> (forall j, 0 <= j < qn -> 0 <= qkeys j < rows) ->
  (forall j, 0 <= j < un -> disjoint (uvalues + j * ustride) row (emb_table c) (rows * row)) ->
  (forall j, 0 <= j < qn -> disjoint (qvalues + j * qstride) row (emb_table c) (rows * row)) ->
  (forall i j, 0 <= i < un -> 0 <= j < qn -> disjoint (uvalues + i * ustride) row (qvalues + j * qstride) row) ->
  returns (linear_update c num_workers un ukeys_buf ukeys ustride row uvalues m) /\
  (forall m1, returns (linear_find c num_workers qn qkeys_buf qkeys hit_mask qstride qvalues counter m1)) /\
  forall uevs qevs,
    uevs ≡ₚ all_events un (update_keys_per_task un threads) threads ->
    qevs ≡ₚ all_events qn (gather_keys_per_task qn threads) threads ->
    let m' := fold_left (gather_one qa hit_mask) qevs (fold_left (update_one ua) uevs m) in
    forall j, 0 <= j < qn ->
      (match resolve_mask qn <$> hit_mask with None => True | Some mask => Z.testbit (mask (j / 64)) (j mod 64) = true end) /\
      if hit_before hit_mask j
      then mem_read m' (qvalues + j * qstride) row = mem_read m (qvalues + j * qstride) row
      else (exists i, 0 <= i < un /\ ukeys i = qkeys j /\
              mem_read m' (qvalues + j * qstride) row = mem_read m (uvalues + i * ustride) row) \/
           ((forall i, 0 <= i < un -> ukeys i <> qkeys j) /\
              mem_read m' (qvalues + j * qstride) row = mem_read m (emb_table c + qkeys j * row) row).
Proof.
  intros row threads ua qa Hc Hw Hrows Hukb Huv Hun Hqkb Hqv Hqn Hst Huk Hqk Hus Hqs Huq.
  destruct (linear_check_facts c Hc) as [Hrow Hthr]. fold row in Hrow.
  assert (Ht : 0 < threads) by (unfold threads; lia).
  split; [|split].
  - unfold linear_update, cpu_kernel_update, returns. cbn [u_threads].
    rewrite (proj2 (Z.eqb_neq ukeys_buf 0)), (proj2 (Z.eqb_neq uvalues 0)) by done.
    unfold row. rewrite Z.eqb_refl, (proj2 (Z.ltb_lt 0 un)) by done. cbn [negb].
    fold threads. rewrite (proj2 (Z.eqb_neq threads 0)) by lia. by eexists.
  - intros m1. unfold linear_find, cpu_kernel_gather, returns. cbn [g_threads].
    rewrite (proj2 (Z.eqb_neq qkeys_buf 0)), (proj2 (Z.eqb_neq qvalues 0)) by done.
    rewrite (proj2 (Z.ltb_lt 0 qn)) by done. cbn [negb].
    fold threads. rewrite (proj2 (Z.eqb_neq threads 0)) by lia. cbn [obind]. by eexists.
  - intros uevs qevs Hpu Hpq m' j Hj. split.
    { destruct hit_mask as [mask|]; [|done]. simpl. by apply resolve_mask_bits. }
    assert (Hwrap : forall i, 0 <= i < qn -> wrapu 64 (qkeys i) = qkeys i).
    { intros i Hi. apply wrapu_small. specialize (Hqk i Hi). unfold in_u. lia. }
    destruct (gather_spec qa hit_mask (fold_left (update_one ua) uevs m) qevs) as [Hg _]; simpl; try done; [lia| |].
    { intros i k Hi Hk. rewrite Hwrap by done. specialize (Hqs i Hi). specialize (Hqk k Hk). unfold disjoint in *. nia. }
    set (m1 := fold_left (update_one ua) uevs m) in *.
    assert (E : mem_read m' (qvalues + j * qstride) row = if hit_before hit_mask j
      then mem_read m1 (qvalues + j * qstride) row
      else mem_read m1 (emb_table c + wrapu 64 (qkeys j) * row) row) by exact (Hg j Hj).
    rewrite E, (Hwrap j Hj). destruct (hit_before hit_mask j).
    + apply fold_memcpy_disjoint. intros e He. rewrite Hpu in He.
      apply all_events_range in He; [|by apply ceil_div_cover|lia]. unfold update_dst. simpl.
      specialize (Huk _ He). rewrite wrapu_small by (unfold in_u; lia). specialize (Hqs j Hj). unfold disjoint in *. nia.
    + apply (update_spec ua m uevs rows); simpl; try done. by apply Hqk.
Qed.

Definition example_linear : LinearHostTableConfig :=
  {| lin_base := {| mask_size := 8; key_size := 8; max_value_size := 4; value_dtype := Float32; invalid_key := -1 |};
     emb_table := 1000; max_threads := 16 |}.

Lemma linear_update_find_witness :
  exists i, 0 <= i < 1 /\ 5 = 5 /\
    mem_read (fold_left (gather_one {| g_n := 1; g_keys := fun _ => 5; g_stride := 8; g_values := 4000;
        g_table := 1000; g_row := 4; g_threads := 2 |} None) (all_events 1 (gather_keys_per_task 1 2) 2)
      (fold_left (update_one {| u_n := 1; u_keys := fun _ => 5; u_stride := 4; u_values := 3000; u_table := 1000;
        u_row := 4; u_threads := 2 |}) (all_events 1 (update_keys_per_task 1 2) 2) (fun a => a))) (4000 + 0 * 8) 4 =
    mem_read (fun a => a) (3000 + i * 4) 4.
Proof.
  destruct (linear_update_find example_linear 2 10 1 1 4 3000 (fun _ => 5) 1 1 8 4000 0 (fun _ => 5) None (fun a => a))
    as (_ & _ & Hall).
  1: vm_compute; reflexivity.
  1-8: simpl; lia.
  1: simpl; lia.
  1-2: intros; simpl; lia.
  1-3: intros; unfold disjoint; simpl; lia.
  destruct (Hall _ _ (reflexivity _) (reflexivity _) 0 ltac:(lia)) as [_ H]. cbn [hit_before] in H.
  destruct H as [H|[H _]]; [exact H|]. exfalso. exact (H 0 ltac:(lia) eq_refl).
Defined.
