(* ===== verification/Pooling.v ===== *)
(** * CPU pooling: [cpu_ops/cpu_pooling.h]

    Reduction of gathered rows into one row per bag (sum, mean and their weighted
    versions), for plain and for row-wise quantized input, and the conversion of
    rows without reduction. Input rows are bytes; output rows are lists of
    elements, one list per bag: the tasks write disjoint rows as long as the output
    stride has room for a row, which the caller checks. The conversions between
    stored elements and [float] ([__half2float] and the like) are parameters. *)
From S2P Require Import Prelude Float32 DataTypes.

Inductive SparseType_t := Fixed | CSR | COO.
Inductive PoolingType_t := Concatenate | Sum | Mean | WeightedSum | WeightedMean.
#[global] Instance sparse_eq_dec : EqDecision SparseType_t.
Proof. solve_decision. Defined.
#[global] Instance pooling_eq_dec : EqDecision PoolingType_t.
Proof. solve_decision. Defined.

(** ** Quantized rows *)

Definition is_quant_rowwise (d : DataType_t) : bool :=
  match d with QInt8RowwiseF32 | QInt8RowwiseF16 | QUint8RowwiseF32 | QUint8RowwiseF16 => true | _ => false end.
Definition quant_rowwise_meta_count (d : DataType_t) : Z :=
  match d with QUint8RowwiseF32 | QUint8RowwiseF16 => 2 | _ => 1 end.
Definition quant_rowwise_scale_bytes (d : DataType_t) : Z :=
  match d with QInt8RowwiseF32 | QUint8RowwiseF32 => 4 | _ => 2 end.
Definition quant_rowwise_meta_bytes (d : DataType_t) : Z :=
  quant_rowwise_meta_count d * quant_rowwise_scale_bytes d.

(** The floats read from an input row. [load] makes a float of the bytes of an
    element. *)

(** [pooling_to_float<InT>(in_row[e])], [InT] of [size] bytes. *)
Definition float_value (m : memory) (load : list Z -> f32) (size input input_stride : Z) (k e : Z) : f32 :=
  load (mem_read m (input + k * input_stride + e * size) size).

(** [static_cast<float>(row[e]) * scale + offset]: a signed byte without, an unsigned
    one with an offset; the scale follows the values of the row, the offset the scale. *)
Definition quant_value (m : memory) (load : list Z -> f32) (scale_size : Z) (has_offset : bool)
    (row_width input input_stride : Z) (k e : Z) : f32 :=
  let row := input + k * input_stride in
  let scale := load (mem_read m (row + row_width) scale_size) in
  let offset := if has_offset then load (mem_read m (row + row_width + scale_size) scale_size) else f32_zero in
  let v := if has_offset then wrapu 8 (m (row + e)) else wraps 8 (m (row + e)) in
  f32_add (f32_mul (f32_of_Z v) scale) offset.

(** ** The work of one task *)

Definition f32_eq (a b : f32) : bool := SFeqb a b.

Section Kernel.
Context {OutT : Type} (from_float : f32 -> OutT) (zero : OutT).
(** Element [e] of the row of key [k], and the weight of key [k]. *)
Variable value : Z -> Z -> f32.
Variable weight : Z -> f32.
Variable row_width : Z.

(** [[start_key, end_key)] of a bag. *)
Definition bag_span (sparse : SparseType_t) (fixed_hotness : Z) (offsets : Z -> Z) (bag : Z) : Z * Z :=
  match sparse with
  | Fixed => (bag * fixed_hotness, bag * fixed_hotness + fixed_hotness)
  | _ => (offsets bag, offsets (bag + 1))
  end.

Definition weighted (p : PoolingType_t) : bool := match p with WeightedSum | WeightedMean => true | _ => false end.
Definition mean (p : PoolingType_t) : bool := match p with Mean | WeightedMean => true | _ => false end.

(** The loop over the elements of one row. *)
Definition accumulate_row (p : PoolingType_t) (w : f32) (k : Z) (acc : list f32) : list f32 :=
  imap (fun e a =>
    let v := value k (Z.of_nat e) in
    f32_add a (if weighted p then f32_mul v w else v)) acc.

(** The loop over the keys of a bag. *)
Fixpoint accumulate_keys (p : PoolingType_t) (count : nat) (k : Z) (acc : list f32) (weight_sum : f32) : list f32 * f32 :=
  match count with
  | O => (acc, weight_sum)
  | S count =>
      let w := if weighted p then weight k else f32_one in
      accumulate_keys p count (k + 1) (accumulate_row p w k acc) (f32_add weight_sum w)
  end.

Definition pool_bag (p : PoolingType_t) (span : Z * Z) : list OutT :=
  let count := span.2 - span.1 in
  if count <=? 0 then repeat zero (Z.to_nat row_width)
  else
    let r := accumulate_keys p (Z.to_nat count) span.1 (repeat f32_zero (Z.to_nat row_width)) f32_zero in
    let inv :=
      if mean p then
        let denom := if weighted p then r.2 else f32_of_Z count in
        if negb (f32_eq denom f32_zero) then f32_div f32_one denom else f32_zero
      else f32_one in
    (fun a => from_float (f32_mul a inv)) <$> r.1.

(** [out_row[e] = from_float(value)] for every element. *)
Definition convert_row (r : Z) : list OutT := (fun e => from_float (value r e)) <$> seqZ 0 row_width.

(** ** Tasks *)

Definition per_task (n num_workers : Z) : Z :=
  let workers := Z.max 1 num_workers in Z.max 1 (Z.quot (n + workers - 1) workers).
Definition num_tasks (n num_workers : Z) : Z := Z.quot (n + per_task n num_workers - 1) (per_task n num_workers).
(** The bags (or rows) of a task. *)
Definition task_rows (n num_workers task : Z) : list Z :=
  let start := task * per_task n num_workers in
  let stop := Z.min (start + per_task n num_workers) n in
  seqZ start (stop - start).
Definition all_rows (n num_workers : Z) : list Z :=
  mjoin (task_rows n num_workers <$> seqZ 0 (num_tasks n num_workers)).

(** [cpu_kernel_pooling] and [cpu_kernel_pooling_quant], for the value function of
    their input type. *)
Definition pooling_kernel (p : PoolingType_t) (sparse : SparseType_t) (fixed_hotness : Z) (offsets : Z -> Z)
    (num_bags num_workers : Z) (out : Z -> list OutT) : Z -> list OutT :=
  fold_left (fun out bag => upd out bag (pool_bag p (bag_span sparse fixed_hotness offsets bag)))
    (all_rows num_bags num_workers) out.

(** [cpu_kernel_concatenate] and [cpu_kernel_concatenate_quant]. *)
Definition concatenate_kernel (num_rows num_workers : Z) (out : Z -> list OutT) : Z -> list OutT :=
  fold_left (fun out r => upd out r (convert_row r)) (all_rows num_rows num_workers) out.
End Kernel.

(** ** The kernels of the four input layouts *)

Section Kernels.
Context {OutT : Type} (from_float : f32 -> OutT) (zero : OutT).
Variables (m : memory) (load : list Z -> f32) (weight : Z -> f32).
Variables (row_width input input_stride num_workers : Z).

Definition cpu_kernel_pooling (size : Z) :=
  pooling_kernel from_float zero (float_value m load size input input_stride) weight row_width.
Definition cpu_kernel_pooling_quant (scale_size : Z) (has_offset : bool) :=
  pooling_kernel from_float zero (quant_value m load scale_size has_offset row_width input input_stride) weight row_width.
Definition cpu_kernel_concatenate (size : Z) :=
  concatenate_kernel from_float (float_value m load size input input_stride) row_width.
Definition cpu_kernel_concatenate_quant (scale_size : Z) (has_offset : bool) :=
  concatenate_kernel from_float (quant_value m load scale_size has_offset row_width input input_stride) row_width.
End Kernels.

(** ** Dispatch *)

(** The instantiation a call ends in: kernel, input, output and weight types, and the
    number of output rows. *)
Inductive kernel :=
  | Concat (in_type out_type : DataType_t) (rows : Z)
  | Pool (in_type out_type weight_type : DataType_t) (rows : Z).

Definition concatenate_dispatch (in_type out_type : DataType_t) (rows : Z) : outcome kernel :=
  match in_type with
  | Float32 | Float16 | QInt8RowwiseF32 | QInt8RowwiseF16 | QUint8RowwiseF32 | QUint8RowwiseF16 =>
      match out_type with
      | Float32 | Float16 => Ok (Concat in_type out_type rows)
      | _ => Throw "Unsupported concatenate output type"
      end
  | _ => Throw "Unsupported concatenate input type"
  end.

Definition dispatch_weight (p : PoolingType_t) (weights : Z) (weight_type in_type out_type : DataType_t) (rows : Z)
  : outcome kernel :=
  if negb (weighted p) then Ok (Pool in_type out_type Float32 rows)
  else
    check! negb (weights =? 0) as "Weights must be provided for weighted pooling" in
    match weight_type with
    | Float32 | Float16 => Ok (Pool in_type out_type weight_type rows)
    | _ => Throw "Unsupported pooling weight type"
    end.

Definition dispatch_out (p : PoolingType_t) (weights : Z) (weight_type in_type out_type : DataType_t) (rows : Z)
  : outcome kernel :=
  match out_type with
  | Float32 | Float16 => dispatch_weight p weights weight_type in_type out_type rows
  | _ => Throw "Unsupported pooling output type"
  end.

Definition cpu_kernel_pooling_dispatch (num_bags : Z) (sparse : SparseType_t) (fixed_hotness : Z) (offsets : Z -> Z)
    (p : PoolingType_t) (weights : Z) (weight_type in_type out_type : DataType_t) : outcome kernel :=
  if decide (p = Concatenate) then
    let total_rows := if decide (sparse = Fixed) then num_bags * fixed_hotness else offsets num_bags in
    concatenate_dispatch in_type out_type total_rows
  else
    match in_type with
    | Float32 | Float16 | QInt8RowwiseF32 | QInt8RowwiseF16 | QUint8RowwiseF32 | QUint8RowwiseF16 =>
        dispatch_out p weights weight_type in_type out_type num_bags
    | _ => Throw "Unsupported pooling input type"
    end.

(** ** Lemmas: accumulating row by row is summing element by element *)

Section Reference.
Context {OutT : Type} (from_float : f32 -> OutT) (zero : OutT).
Variable value : Z -> Z -> f32.
Variable weight : Z -> f32.
Variable row_width : Z.

(** The contribution of a key to an element, and the sums over keys [k], [k + 1], ... *)
Definition contribution (p : PoolingType_t) (k e : Z) : f32 :=
  if weighted p then f32_mul (value k e) (weight k) else value k e.
Definition element_sum (p : PoolingType_t) (start : Z) (count : nat) (e : Z) : f32 :=
  fold_left (fun s k => f32_add s (contribution p k e)) (seqZ start (Z.of_nat count)) f32_zero.
Definition weight_total (p : PoolingType_t) (start : Z) (count : nat) : f32 :=
  fold_left (fun s k => f32_add s (if weighted p then weight k else f32_one)) (seqZ start (Z.of_nat count)) f32_zero.

(** The row of a bag, one element at a time. *)
Definition pooled (p : PoolingType_t) (span : Z * Z) : list OutT :=
  let count := Z.to_nat (span.2 - span.1) in
  let denom := if weighted p then weight_total p span.1 count else f32_of_Z (span.2 - span.1) in
  let inv := if mean p then (if f32_eq denom f32_zero then f32_zero else f32_div f32_one denom) else f32_one in
  (fun e => if span.2 <=? span.1 then zero else from_float (f32_mul (element_sum p span.1 count e) inv))
    <$> seqZ 0 row_width.

Lemma accumulate_row_fmap p w k (f : Z -> f32) n :
  accumulate_row value p w k (f <$> seqZ 0 n) =
  (fun e => f32_add (f e) (if weighted p then f32_mul (value k e) w else value k e)) <$> seqZ 0 n.
Proof.
  unfold accumulate_row. apply list_eq. intros i. rewrite list_lookup_imap, !list_lookup_fmap.
  destruct (seqZ 0 n !! i) as [e|] eqn:E; [|done]. simpl. apply lookup_seqZ in E as [-> _]. done.
Qed.

Lemma accumulate_keys_fmap p count k (f : Z -> f32) ws n :
  accumulate_keys value weight p count k (f <$> seqZ 0 n) ws =
  ((fun e => fold_left (fun s k => f32_add s (contribution p k e)) (seqZ k (Z.of_nat count)) (f e)) <$> seqZ 0 n,
   fold_left (fun s k => f32_add s (if weighted p then weight k else f32_one)) (seqZ k (Z.of_nat count)) ws).
Proof.
  revert k f ws. induction count as [|count IH]; intros k f ws; [done|].
  rewrite Nat2Z.inj_succ, (seqZ_cons k (Z.succ _)) by lia. simpl accumulate_keys. rewrite accumulate_row_fmap, IH.
  rewrite Z.pred_succ. f_equal. apply list_fmap_ext. intros i e _. simpl. unfold contribution. by destruct (weighted p).
Qed.

Lemma repeat_fmap {X Y} (x : X) (l : list Y) : repeat x (length l) = (fun _ => x) <$> l.
Proof. induction l; [done|]. csimpl. by f_equal. Qed.

Lemma repeat_seqZ {X} (x : X) n : repeat x (Z.to_nat n) = (fun _ => x) <$> seqZ 0 n.
Proof. by rewrite <- (repeat_fmap x (seqZ 0 n)), length_seqZ. Qed.

Lemma pool_bag_pooled p span :
  pool_bag from_float zero value weight row_width p span = pooled p span.
Proof.
  unfold pool_bag, pooled. destruct (Z.leb_spec (span.2 - span.1) 0) as [H|H].
  - rewrite (proj2 (Z.leb_le span.2 span.1)) by lia. apply repeat_seqZ.
  - rewrite (proj2 (Z.leb_gt span.2 span.1)) by lia. rewrite repeat_seqZ, accumulate_keys_fmap. simpl.
    rewrite <- list_fmap_compose. apply list_fmap_ext. intros i e _. simpl. unfold element_sum, weight_total.
    destruct (mean p); [|done]. by destruct (f32_eq _ f32_zero).
Qed.
End Reference.

(** ** Lemmas: the tasks *)

Lemma per_task_pos n w : 1 <= per_task n w.
Proof. unfold per_task. lia. Qed.

Lemma elem_of_all_rows n w r : 0 <= n -> (r ∈ all_rows n w <-> 0 <= r < n).
Proof.
  intros Hn. pose proof (per_task_pos n w) as Hp. unfold all_rows, task_rows. set (k := per_task n w) in *.
  rewrite list_elem_of_join. split.
  - intros (l & Hr & (t & -> & Ht%elem_of_seqZ)%list_elem_of_fmap). apply elem_of_seqZ in Hr. nia.
  - intros Hr. pose proof (Z.div_mod r k ltac:(lia)). pose proof (Z.mod_pos_bound r k ltac:(lia)).
    exists (seqZ (r / k * k) (Z.min (r / k * k + k) n - r / k * k)). split; [apply elem_of_seqZ; lia|].
    apply list_elem_of_fmap. exists (r / k). split; [done|]. apply elem_of_seqZ. split; [apply Z.div_pos; lia|].
    unfold num_tasks. fold k. rewrite Z.quot_div_nonneg by lia. apply Z.div_lt_upper_bound; [lia|].
    pose proof (Z.div_mod (n + k - 1) k ltac:(lia)). pose proof (Z.mod_pos_bound (n + k - 1) k ltac:(lia)). nia.
Qed.

(** Writing a function of the index to every index of a list, in any order. *)
Lemma fold_upd_fun {X} (f : Z -> X) l out r :
  fold_left (fun out b => upd out b (f b)) l out r = if decide (r ∈ l) then f r else out r.
Proof.
  destruct (decide (r ∈ l)) as [Hin|Hnin].
  - destruct (fold_upd_in (fun b => b) f l out r) as (e & _ & -> & ->); [|done].
    by rewrite list_fmap_id.
  - apply (fold_upd_notin (fun b => b) f). by rewrite list_fmap_id.
Qed.

(** CPU pooling equals its element-wise definition: for every pooling type, bag
    layout, input layout ([value]) and number of workers, and whatever the order in
    which the tasks run, every bag's output row is, element by element, the
    conversion of the float sum of its keys' (weighted) values in key order, scaled
    by the reciprocal of the count or of the weight sum for the means (zero when that
    sum is zero) and all zero for an empty bag; no other row is written. *)
Theorem pooling_is_elementwise {OutT} (from_float : f32 -> OutT) (zero : OutT) (value : Z -> Z -> f32)
    (weight : Z -> f32) (row_width : Z) (p : PoolingType_t) (sparse : SparseType_t) (fixed_hotness : Z)
    (offsets : Z -> Z) (num_bags num_workers : Z) (out : Z -> list OutT) (order : list Z) :
  0 <= num_bags -> order ≡ₚ all_rows num_bags num_workers ->
  let run := fold_left (fun out bag => upd out bag
      (pool_bag from_float zero value weight row_width p (bag_span sparse fixed_hotness offsets bag))) order out in
  (forall bag, run bag = pooling_kernel from_float zero value weight row_width p sparse fixed_hotness offsets
                           num_bags num_workers out bag) /\
  (forall bag, 0 <= bag < num_bags ->
     run bag = pooled from_float zero value weight row_width p (bag_span sparse fixed_hotness offsets bag)) /\
  (forall bag, ~ 0 <= bag < num_bags -> run bag = out bag).
Proof.
  intros Hn Hp run. assert (Hin : forall bag, bag ∈ order <-> 0 <= bag < num_bags).
  { intros bag. rewrite Hp. by apply elem_of_all_rows. }
  unfold run, pooling_kernel. split; [|split]; intros bag.
  - rewrite !(fold_upd_fun (fun bag => pool_bag from_float zero value weight row_width p
      (bag_span sparse fixed_hotness offsets bag))).
    apply decide_ext. by rewrite Hp.
  - intros Hb. rewrite (fold_upd_fun (fun bag => pool_bag from_float zero value weight row_width p
      (bag_span sparse fixed_hotness offsets bag))).
    rewrite decide_True by (by apply Hin). apply pool_bag_pooled.
  - intros Hb. rewrite (fold_upd_fun (fun bag => pool_bag from_float zero value weight row_width p
      (bag_span sparse fixed_hotness offsets bag))).
    rewrite decide_False; [done|]. by rewrite Hin.
Qed.

(** Two bags of a CSR layout, the second one empty, run in reverse order. *)
Lemma pooling_is_elementwise_witness :
  let value := fun k e => f32_of_Z (10 * k + e) in
  let offsets := fun i => if i =? 0 then 0 else 2 in
  let run := fold_left (fun out bag => upd out bag
      (pool_bag id f32_zero value (fun _ => f32_one) 2 Mean (bag_span CSR 0 offsets bag))) [1; 0] (fun _ => []) in
  run 0 = pooled id f32_zero value (fun _ => f32_one) 2 Mean (0, 2) /\
  run 0 = [f32_of_Z 5; f32_of_Z 6] /\ run 1 = [f32_zero; f32_zero].
Proof.
  intros value offsets run. split; [|vm_compute; split; reflexivity].
  apply (pooling_is_elementwise id f32_zero value (fun _ => f32_one) 2 Mean CSR 0 offsets 2 4 (fun _ => []) [1; 0]).
  - lia.
  - change (all_rows 2 4) with [0; 1]. apply Permutation_swap.
  - lia.
Defined.
