(* ===== verification/HostLayer.v ===== *)
(** * Host embedding layer: [src/host_embedding_layer.cpp], [include/table.hpp]

    A layer over one host table: lookup with optional hit mask, default embedding
    for missed keys, pooling and hit rate, and the modifying operations with their
    handling of the table index. The table is an interface; the STL table is an
    instance of it. Buffers are memories addressed from the start of the buffer;
    the copies between caller memory and host memory that [BufferWrapper] makes are
    transparent ([Buffers.v]). *)
From S2P Require Import Prelude Float32 DataTypes BitOps HostTable StlTable StlFind Pooling.

(** ** The table interface *)

Definition mask_bit (mask : Z -> Z) (j : Z) : bool := Z.testbit (mask (j / 64)) (j mod 64).

(** Number of the first [n] keys that are in the table. *)
Definition hits (row : Z -> option (list Z)) (keys : Z -> Z) (n : Z) : Z :=
  Z.of_nat (length (filter (fun j => is_Some (row (keys j))) (seqZ 0 n))).

(** [Table::find] and the getters of a host table, with what the layer relies on:
    on an empty mask (or without one, for tables that support it) a lookup returns,
    adds the hits to the lookup counter, marks exactly the keys in the table and
    writes their rows. *)
Class Table (T : Type) := {
  get_device_id : T -> Z;
  get_max_row_size : T -> Z;
  get_value_type : T -> DataType_t;
  t_find : T -> Z -> (Z -> Z) -> option (Z -> Z) -> Z -> memory -> Z -> outcome (option (Z -> Z) * memory * Z);
  table_ok : T -> Prop;
  takes_null_mask : T -> Prop;
  t_row : T -> Z -> option (list Z);
  t_row_length t k r : table_ok t -> t_row t k = Some r -> Z.of_nat (length r) = get_max_row_size t;
  t_find_law t n keys (mask : option (Z -> Z)) stride values counter :
    table_ok t -> 0 < n -> get_max_row_size t <= stride ->
    match mask with Some mk => forall w, mk w = 0 | None => takes_null_mask t end ->
    exists mask' values', t_find t n keys mask stride values counter =
        Ok (mask', values', counter + hits (t_row t) keys n) /\
      (forall j, 0 <= j < n -> mem_read values' (j * stride) (get_max_row_size t) =
         default (mem_read values (j * stride) (get_max_row_size t)) (t_row t (keys j))) /\
      match mask with
      | None => mask' = None
      | Some _ => exists mk', mask' = Some mk' /\
          forall j, 0 <= j < n -> mask_bit mk' j = bool_decide (is_Some (t_row t (keys j)))
      end
}.

(** ** Parameters of a lookup *)

Record PoolingParams := {
  pooling_type : PoolingType_t; sparse_type : SparseType_t;
  key_indices : option (Z -> Z); num_key_indices : Z;
  sparse_weights : option (Z -> list Z); weight_type : DataType_t; output_type : DataType_t
}.

(** What pooling needs to know. *)
Record pool_meta := {
  pm_in : DataType_t; pm_out : DataType_t; pm_width : Z; pm_bags : Z; pm_hotness : Z;
  pm_sparse : SparseType_t; pm_offsets : Z -> Z
}.

Definition type_size (d : DataType_t) : Z := dtype_size (dtype_value d).

(** The checks and metadata for pooling (the block under [if (pool_params)]). *)
Definition pool_setup (p : PoolingParams) (in_dtype : DataType_t) (row_size num_keys output_stride : Z)
  : outcome pool_meta :=
  let concat := bool_decide (pooling_type p = Concatenate) in
  let quant_in := is_quant_rowwise in_dtype in
  let out_dtype := if negb (bool_decide (output_type p = Unknown)) then output_type p
                   else if quant_in then Float32 else in_dtype in
  check! bool_decide (in_dtype = Float32) || bool_decide (in_dtype = Float16) || quant_in
    as "HostEmbeddingLayer pooling supports only fp32/fp16 or QInt8/QUint8Rowwise table values" in
  check! bool_decide (out_dtype = Float32) || bool_decide (out_dtype = Float16) ||
         (concat && bool_decide (out_dtype = in_dtype))
    as "HostEmbeddingLayer pooling supports fp32/fp16 output" in
  let! row_width :=
    (if quant_in then
       check! quant_rowwise_meta_bytes in_dtype <? row_size
         as "Quantized row size smaller than its scale/offset metadata" in
       Ok (row_size - quant_rowwise_meta_bytes in_dtype)
     else
       check! row_size mod type_size in_dtype =? 0 as "Table row size not a multiple of the value element size" in
       Ok (row_size / type_size in_dtype)) in
  let min_output_stride := if concat && bool_decide (out_dtype = in_dtype) then row_size
                           else row_width * type_size out_dtype in
  check! min_output_stride <=? output_stride as "Output stride is too small for pooling output type" in
  if concat then
    Ok {| pm_in := in_dtype; pm_out := out_dtype; pm_width := row_width; pm_bags := num_keys; pm_hotness := 1;
          pm_sparse := Fixed; pm_offsets := fun _ => 0 |}
  else
    match key_indices p with
    | None => Throw "Invalid pooling key_indices"
    | Some offsets =>
        check! 0 <? num_key_indices p as "Invalid pooling num_key_indices" in
        match sparse_type p with
        | Fixed =>
            let hotness := offsets 0 in
            check! 0 <? hotness as "Invalid fixed hotness" in
            check! Z.rem num_keys hotness =? 0 as "Number of keys does not divide by fixed hotness" in
            Ok {| pm_in := in_dtype; pm_out := out_dtype; pm_width := row_width; pm_bags := Z.quot num_keys hotness;
                  pm_hotness := hotness; pm_sparse := Fixed; pm_offsets := offsets |}
        | CSR =>
            check! 0 <=? num_key_indices p - 1 as "Invalid CSR offsets" in
            Ok {| pm_in := in_dtype; pm_out := out_dtype; pm_width := row_width; pm_bags := num_key_indices p - 1;
                  pm_hotness := 1; pm_sparse := CSR; pm_offsets := offsets |}
        | COO => Throw "HostEmbeddingLayer pooling supports only Fixed and CSR sparse types"
        end
    end.

(** ** Lookup *)

Record lookup_result := { r_output : memory; r_hitmask : option (Z -> Z); r_hitrate : f32 }.

Section Lookup.
Context {T : Type} `{Table T}.
(** Conversions between the bytes of an element and [float]. *)
Variable load : DataType_t -> list Z -> f32.
Variable store : DataType_t -> f32 -> list Z.

(** The constructor of the layer. *)
Definition layer_check (t : T) (default_embedding : list Z) : outcome unit :=
  check! get_device_id t <? 0 as "HostEmbeddingLayer requires a host table (device_id < 0)" in
  check! bool_decide (default_embedding = []) || (get_max_row_size t =? Z.of_nat (length default_embedding))
    as "Default embedding row size must match table row size" in
  Ok tt.

(** The fill of one key by the tasks of the default-embedding step. *)
Definition fill_one (default_embedding : list Z) (mask : Z -> Z) (gather_stride : Z) (g : memory) (k : Z) : memory :=
  if mask_bit mask k then g else store_bytes g (k * gather_stride) default_embedding.

(** The float of element [e] of gathered row [k], for the input type. *)
Definition input_value (d : DataType_t) (g : memory) (row_width row_size : Z) (k e : Z) : f32 :=
  match d with
  | QInt8RowwiseF32 => quant_value g (load Float32) 4 false row_width 0 row_size k e
  | QInt8RowwiseF16 => quant_value g (load Float16) 2 false row_width 0 row_size k e
  | QUint8RowwiseF32 => quant_value g (load Float32) 4 true row_width 0 row_size k e
  | QUint8RowwiseF16 => quant_value g (load Float16) 2 true row_width 0 row_size k e
  | _ => float_value g (load d) (type_size d) 0 row_size k e
  end.

(** The rows of the pooling step, then written to the output. *)
Definition pool_rows (p : PoolingParams) (pm : pool_meta) (g : memory) (row_size num_workers : Z)
  : outcome (Z * (Z -> list (list Z))) :=
  let! _ := (match sparse_weights p with
             | Some _ => check! bool_decide (weight_type p = Float32) || bool_decide (weight_type p = Float16)
                           as "Pooling weight_type must be Float32 or Float16 when sparse_weights is provided" in Ok tt
             | None => Ok tt
             end) in
  let weights := match sparse_weights p with Some _ => 1 | None => 0 end in
  let value := input_value (pm_in pm) g (pm_width pm) row_size in
  let! k := cpu_kernel_pooling_dispatch (pm_bags pm) (pm_sparse pm) (pm_hotness pm) (pm_offsets pm) (pooling_type p)
              weights (weight_type p) (pm_in pm) (pm_out pm) in
  match k with
  | Concat _ out rows => Ok (rows, concatenate_kernel (store out) value (pm_width pm) rows num_workers (fun _ => []))
  | Pool _ out w rows =>
      let weight := fun k => match sparse_weights p with Some f => load w (f k) | None => f32_zero end in
      Ok (rows, pooling_kernel (store out) (repeat 0 (Z.to_nat (type_size out))) value weight (pm_width pm)
                  (pooling_type p) (pm_sparse pm) (pm_hotness pm) (pm_offsets pm) rows num_workers (fun _ => []))
  end.

Definition write_rows (rows : Z * (Z -> list (list Z))) (output_stride : Z) (output : memory) : memory :=
  fold_left (fun m r => store_bytes m (r * output_stride) (mjoin (rows.2 r))) (seqZ 0 rows.1) output.

(** The lookup in the table (its counter reset to 0) and the fill of missed keys:
    the mask, the gathered rows and the number of hits. *)
Definition gather_rows (default_embedding : list Z) (num_workers : Z) (t : T) (num_keys : Z) (keys : Z -> Z)
    (hitmask : option (Z -> Z)) (gather_stride : Z) (gather : memory) : outcome (option (Z -> Z) * memory * Z) :=
  let! r := t_find t num_keys keys hitmask gather_stride gather 0 in
  let! g := (if (0 <? num_keys - r.2) && negb (bool_decide (default_embedding = [])) then
               match r.1.1 with
               | None => Undef "null hit mask"
               | Some mask =>
                   if num_workers =? 0 then Undef "division by zero"
                   else Ok (fold_left (fill_one default_embedding mask gather_stride) (all_rows num_keys num_workers) r.1.2)
               end
             else Ok r.1.2) in
  Ok (r.1.1, g, r.2).

(** [lookup]; [scratch] is what the gather buffer of the context holds. *)
Definition lookup (default_embedding : list Z) (num_workers : Z) (scratch : memory) (t : T)
    (ctx keys_ptr output_ptr num_keys : Z) (keys : Z -> Z) (output : memory) (output_stride : Z)
    (output_hitmask : bool) (pool_params : option PoolingParams) : outcome lookup_result :=
  check! negb (ctx =? 0) as "Invalid context" in
  check! negb (keys_ptr =? 0) as "Invalid keys" in
  check! negb (output_ptr =? 0) as "Invalid output" in
  check! 0 <? num_keys as "Invalid number of keys" in
  let row_size := get_max_row_size t in
  let! pm := (match pool_params with
              | None => Ok None
              | Some p =>
                  let! pm := pool_setup p (get_value_type t) row_size num_keys output_stride in
                  if bool_decide (pooling_type p = Concatenate) && bool_decide (pm_in pm = pm_out pm)
                  then Ok None else Ok (Some (p, pm))
              end) in
  let gather_stride := match pm with Some _ => row_size | None => output_stride end in
  let gather := match pm with Some _ => scratch | None => output end in
  let need_hitmask := output_hitmask || negb (bool_decide (default_embedding = [])) in
  let hitmask := if need_hitmask then Some (fun _ => 0) else None in
  let! r := gather_rows default_embedding num_workers t num_keys keys hitmask gather_stride gather in
  let! out := (match pm with
               | None => Ok r.1.2
               | Some (p, pm) =>
                   let! rows := pool_rows p pm r.1.2 row_size num_workers in
                   Ok (write_rows rows output_stride output)
               end) in
  Ok {| r_output := out; r_hitmask := if output_hitmask then r.1.1 else None;
        r_hitrate := f32_div (f32_of_Z r.2) (f32_of_Z num_keys) |}.
End Lookup.

(** ** Modifying operations *)

(** The single table is the target for index 0; [update] and [accumulate] also take a
    negative index (all tables). A call for another index is logged and ignored. [op]
    is the operation of the table on its state. *)
Section Modify.
Context {S : Type}.
Variable op : S -> outcome S.

Definition layer_insert (table_id : Z) (s : S) : outcome S :=
  if negb (table_id =? 0) then Ok s else op s.
Definition layer_update (table_id : Z) (s : S) : outcome S := if 0 <? table_id then Ok s else op s.
Definition layer_accumulate (table_id : Z) (s : S) : outcome S := if 0 <? table_id then Ok s else op s.
Definition layer_clear (s : S) : outcome S := op s.
Definition layer_erase (num_keys keys_ptr table_id : Z) (s : S) : outcome S :=
  if num_keys <? 1 then Ok s
  else if negb (table_id =? 0) then Ok s
  else check! negb (keys_ptr =? 0) as "Invalid Keys buffer" in op s.
End Modify.

(** ** Lemmas: writing rows *)

Section Rows.
Variables (stride row : Z).
Hypothesis (Hrow : 0 <= row <= stride).

Lemma stride_apart i j : i <> j -> disjoint (i * stride) row (j * stride) row.
Proof. intros Hij. unfold disjoint. assert (i < j \/ j < i) as [Hl|Hl] by lia; [left|right]; nia. Qed.

(** Storing rows [f r] for the indices of a list, in any order. *)
Lemma fold_store_rows (f : Z -> list Z) (P : Z -> bool) l g j :
  (forall r, r ∈ l -> P r = true -> Z.of_nat (length (f r)) = row) ->
  mem_read (fold_left (fun m r => if P r then store_bytes m (r * stride) (f r) else m) l g) (j * stride) row =
  if decide (j ∈ l /\ P j = true) then f j else mem_read g (j * stride) row.
Proof.
  revert g. induction l as [|r l IH]; intros g Hf.
  { rewrite decide_False; [done|]. by intros [?%elem_of_nil _]. }
  simpl. rewrite IH by (intros; apply Hf; [by right|done]).
  destruct (decide (j ∈ l /\ P j = true)) as [[Hin HP]|Hn].
  { rewrite decide_True; [done|]. split; [by right|done]. }
  destruct (decide (j = r)) as [->|Hne].
  - destruct (P r) eqn:HP.
    + rewrite decide_True by (split; [by left|done]).
      rewrite <- (Hf r) by (done || by left). apply store_bytes_same.
    + rewrite decide_False; [done|]. by intros [_ ?].
  - rewrite decide_False by (intros [[->|]%elem_of_cons ?]; tauto).
    destruct (P r) eqn:HP; [|done]. apply store_bytes_disjoint.
    rewrite (Hf r) by (done || by left). by apply stride_apart, not_eq_sym.
Qed.
End Rows.

Section Correct.
Context {T : Type} `{TT : Table T}.
Variable load : DataType_t -> list Z -> f32.
Variable store : DataType_t -> f32 -> list Z.

(** Row [j] of a lookup: the table's row, the default embedding for a missed key, or
    what the buffer held when there is none. *)
Definition row_or_default (t : T) (default_embedding : list Z) (keys : Z -> Z) (buffer : memory) (stride j : Z) : list Z :=
  match t_row t (keys j) with
  | Some r => r
  | None => if bool_decide (default_embedding = []) then mem_read buffer (j * stride) (get_max_row_size t)
            else default_embedding
  end.

Lemma hits_all (row : Z -> option (list Z)) keys n :
  0 <= n -> n - hits row keys n <= 0 -> forall j, 0 <= j < n -> is_Some (row (keys j)).
Proof.
  intros Hn Hh j Hj. unfold hits in Hh.
  destruct (decide (is_Some (row (keys j)))) as [|Hno]; [done|exfalso].
  assert (Hlen : (length (filter (fun j => is_Some (row (keys j))) (seqZ 0 n)) < length (seqZ 0 n))%nat).
  { apply length_filter_lt with (x := j); [|done]. apply elem_of_seqZ. lia. }
  rewrite length_seqZ in Hlen. lia.
Qed.

Lemma layer_check_default t default_embedding :
  layer_check t default_embedding = Ok tt -> default_embedding <> [] ->
  Z.of_nat (length default_embedding) = get_max_row_size t.
Proof.
  unfold layer_check. destruct (_ <? 0); [|done]. rewrite bool_decide_decide.
  destruct (decide (default_embedding = [])); [done|]. simpl.
  destruct (Z.eqb_spec (get_max_row_size t) (Z.of_nat (length default_embedding))); done.
Qed.

Lemma gather_rows_spec default_embedding num_workers t num_keys keys hitmask stride gather :
  table_ok t -> layer_check t default_embedding = Ok tt -> 0 < num_keys -> 0 < num_workers ->
  0 <= get_max_row_size t <= stride ->
  match hitmask with
  | Some mk => forall w, mk w = 0
  | None => takes_null_mask t /\ default_embedding = []
  end ->
  exists mask g, gather_rows default_embedding num_workers t num_keys keys hitmask stride gather =
      Ok (mask, g, hits (t_row t) keys num_keys) /\
    (forall j, 0 <= j < num_keys ->
       mem_read g (j * stride) (get_max_row_size t) = row_or_default t default_embedding keys gather stride j) /\
    (hitmask <> None -> exists mk, mask = Some mk /\
       forall j, 0 <= j < num_keys -> mask_bit mk j = bool_decide (is_Some (t_row t (keys j)))).
Proof.
  intros Hok Hlc Hn Hw Hst Hm.
  destruct (t_find_law t num_keys keys hitmask stride gather 0 Hok Hn ltac:(lia)) as (mask & g1 & E & Hrows & Hmask).
  { destruct hitmask; [done|]. by destruct Hm. }
  unfold gather_rows. rewrite E. cbn [obind fst snd]. rewrite Z.add_0_l.
  assert (Hmk : hitmask <> None -> exists mk, mask = Some mk /\
       forall j, 0 <= j < num_keys -> mask_bit mk j = bool_decide (is_Some (t_row t (keys j)))).
  { by destruct hitmask. }
  destruct (bool_decide_reflect (default_embedding = [])) as [->|Hd]; cbn [negb].
  { rewrite andb_false_r. cbn [obind]. exists mask, g1. split; [done|]. split; [|done].
    intros j Hj. rewrite (Hrows j Hj). unfold row_or_default. by destruct (t_row t (keys j)). }
  rewrite andb_true_r. destruct (Z.ltb_spec 0 (num_keys - hits (t_row t) keys num_keys)) as [Hmiss|Hall].
  - destruct hitmask as [mk0|]; [|by destruct Hm]. destruct Hmk as (mk & -> & Hbits); [done|].
    rewrite (proj2 (Z.eqb_neq num_workers 0)) by lia. cbn [obind]. eexists _, _. split; [done|].
    split; [|intros _; by exists mk]. intros j Hj.
    pose proof (layer_check_default _ _ Hlc Hd) as Hlen.
    pose proof (fold_store_rows stride (get_max_row_size t) Hst (fun _ => default_embedding)
      (fun k => negb (mask_bit mk k)) (all_rows num_keys num_workers) g1 j (fun _ _ _ => Hlen)) as Hf.
    replace (fold_left (fill_one default_embedding mk stride) (all_rows num_keys num_workers) g1)
      with (fold_left (fun m r => if negb (mask_bit mk r) then store_bytes m (r * stride) default_embedding else m)
              (all_rows num_keys num_workers) g1).
    2:{ apply fold_left_ext. intros g k. unfold fill_one. by destruct (mask_bit mk k). }
    rewrite Hf. unfold row_or_default. rewrite (bool_decide_false _ Hd).
    assert (Hjr : j ∈ all_rows num_keys num_workers) by (apply elem_of_all_rows; lia).
    destruct (decide _) as [[_ Hneg]|Hno]; destruct (t_row t (keys j)) as [r|] eqn:Er; try done.
    + by rewrite (Hbits j Hj), Er, bool_decide_true in Hneg by (by eexists).
    + by rewrite (Hrows j Hj), Er.
    + destruct Hno. split; [done|]. rewrite (Hbits j Hj), Er. by rewrite bool_decide_false by (by intros [? ?]).
  - cbn [obind]. exists mask, g1. split; [done|]. split; [|done]. intros j Hj. rewrite (Hrows j Hj).
    unfold row_or_default. destruct (hits_all (t_row t) keys num_keys (Z.lt_le_incl _ _ Hn) Hall j Hj) as [r ->]. done.
Qed.

(** What [pool_setup] guarantees for a reduction. *)
Lemma pool_setup_facts p in_dtype row_size num_keys output_stride pm :
  pool_setup p in_dtype row_size num_keys output_stride = Ok pm -> pooling_type p <> Concatenate ->
  0 <= row_size -> 0 < num_keys ->
  pm_in pm = in_dtype /\ (in_dtype = Float32 \/ in_dtype = Float16 \/ is_quant_rowwise in_dtype = true) /\
  (pm_out pm = Float32 \/ pm_out pm = Float16) /\ 0 <= pm_bags pm /\ 0 <= pm_width pm /\
  pm_width pm * type_size (pm_out pm) <= output_stride.
Proof.
  intros E Hp Hrow Hn. unfold pool_setup in E. rewrite (bool_decide_false _ Hp) in E. cbn [andb] in E.
  rewrite orb_false_r in E. set (out := if negb _ then _ else _) in E.
  destruct (bool_decide (in_dtype = Float32) || bool_decide (in_dtype = Float16) || is_quant_rowwise in_dtype) eqn:Ein; [|done].
  destruct (bool_decide (out = Float32) || bool_decide (out = Float16)) eqn:Eout; [|done].
  apply obind_Ok in E as (width & Ew & E).
  destruct (Z.leb_spec (width * type_size out) output_stride) as [Hst|]; [|done].
  assert (Hw : 0 <= width).
  { destruct (is_quant_rowwise in_dtype).
    - destruct (Z.ltb_spec (quant_rowwise_meta_bytes in_dtype) row_size); [|done]. injection Ew as <-. lia.
    - destruct (_ =? 0); [|done]. injection Ew as <-.
      destruct (Z.le_gt_cases (type_size in_dtype) 0) as [Hz|Hz]; [|apply Z.div_pos; lia].
      destruct in_dtype; vm_compute in Hz; exfalso; by apply Hz. }
  assert (Hin : in_dtype = Float32 \/ in_dtype = Float16 \/ is_quant_rowwise in_dtype = true).
  { apply orb_true_iff in Ein as [Ein|Ein]; [|tauto]. apply orb_true_iff in Ein as [Ein|Ein];
      apply bool_decide_eq_true in Ein; tauto. }
  assert (Hout : out = Float32 \/ out = Float16).
  { apply orb_true_iff in Eout as [Eo|Eo]; apply bool_decide_eq_true in Eo; tauto. }
  destruct (key_indices p) as [offsets|]; [|done]. destruct (0 <? num_key_indices p); [|done].
  destruct (sparse_type p); [| |done].
  - destruct (Z.ltb_spec 0 (offsets 0)); [|done]. destruct (Z.rem num_keys (offsets 0) =? 0); [|done].
    injection E as <-. simpl. split_and!; try done. apply Z.quot_pos; lia.
  - destruct (Z.leb_spec 0 (num_key_indices p - 1)); [|done]. injection E as <-. simpl. split_and!; try done.
Qed.

Lemma length_mjoin_const (l : list (list Z)) n :
  (forall x, x ∈ l -> length x = n) -> length (mjoin l) = (length l * n)%nat.
Proof.
  induction l as [|x l IH]; intros Hl; [done|]. simpl. rewrite length_app, IH by (intros; apply Hl; by right).
  rewrite (Hl x) by (by left). lia.
Qed.

(** The weight of key [k] as the pooling kernel reads it. *)
Definition weight_of (p : PoolingParams) (k : Z) : f32 :=
  match sparse_weights p with
  | Some f => load (if weighted (pooling_type p) then weight_type p else Float32) (f k)
  | None => f32_zero
  end.

(** The pooled row of a bag, as bytes. *)
Definition pooled_row (p : PoolingParams) (pm : pool_meta) (g : memory) (row_size bag : Z) : list Z :=
  mjoin (pooled (store (pm_out pm)) (repeat 0 (Z.to_nat (type_size (pm_out pm))))
           (input_value load (pm_in pm) g (pm_width pm) row_size) (weight_of p) (pm_width pm) (pooling_type p)
           (bag_span (pm_sparse pm) (pm_hotness pm) (pm_offsets pm) bag)).

Hypothesis store_size : forall d x, Z.of_nat (length (store d x)) = type_size d.

Lemma length_pooled_row p pm g row_size bag :
  0 <= pm_width pm -> Z.of_nat (length (pooled_row p pm g row_size bag)) = pm_width pm * type_size (pm_out pm).
Proof.
  intros Hw. unfold pooled_row. pose proof (store_size (pm_out pm) f32_zero) as Hs.
  rewrite (length_mjoin_const _ (Z.to_nat (type_size (pm_out pm)))).
  - unfold pooled. rewrite length_fmap, length_seqZ. lia.
  - intros x (e & -> & _)%list_elem_of_fmap. destruct (_ <=? _); [by rewrite repeat_length|].
    match goal with |- length (store ?d ?v) = _ => pose proof (store_size d v) end. lia.
Qed.

(** The weights are there when the pooling type needs them, with a supported type. *)
Definition weights_ok (p : PoolingParams) : Prop :=
  match sparse_weights p with
  | Some _ => weight_type p = Float32 \/ weight_type p = Float16
  | None => weighted (pooling_type p) = false
  end.

Lemma pool_rows_spec p pm g row_size num_workers :
  pooling_type p <> Concatenate -> weights_ok p -> 0 <= pm_bags pm ->
  (pm_in pm = Float32 \/ pm_in pm = Float16 \/ is_quant_rowwise (pm_in pm) = true) ->
  (pm_out pm = Float32 \/ pm_out pm = Float16) ->
  exists rows, pool_rows load store p pm g row_size num_workers = Ok (pm_bags pm, rows) /\
    forall bag, 0 <= bag < pm_bags pm -> mjoin (rows bag) = pooled_row p pm g row_size bag.
Proof.
  intros Hp Hwt Hb Hin Hout. unfold pool_rows.
  assert (Ew : (match sparse_weights p with
             | Some _ => check! bool_decide (weight_type p = Float32) || bool_decide (weight_type p = Float16)
                           as "Pooling weight_type must be Float32 or Float16 when sparse_weights is provided" in Ok tt
             | None => Ok tt end) = Ok tt).
  { unfold weights_ok in Hwt. destruct (sparse_weights p); [|done]. by destruct Hwt as [-> | ->]. }
  rewrite Ew. cbn [obind]. unfold cpu_kernel_pooling_dispatch. rewrite decide_False by done.
  set (w := if weighted (pooling_type p) then weight_type p else Float32).
  assert (Ed : dispatch_out (pooling_type p) (match sparse_weights p with Some _ => 1 | None => 0 end) (weight_type p)
    (pm_in pm) (pm_out pm) (pm_bags pm) = Ok (Pool (pm_in pm) (pm_out pm) w (pm_bags pm))).
  { unfold dispatch_out, dispatch_weight, w. unfold weights_ok in Hwt.
    destruct (weighted (pooling_type p)); destruct (sparse_weights p); simpl;
      destruct Hout as [-> | ->]; try done; by destruct Hwt as [-> | ->]. }
  replace (match pm_in pm with
    | Float32 | Float16 | QInt8RowwiseF32 | QInt8RowwiseF16 | QUint8RowwiseF32 | QUint8RowwiseF16 =>
        dispatch_out (pooling_type p) (match sparse_weights p with Some _ => 1 | None => 0 end) (weight_type p)
          (pm_in pm) (pm_out pm) (pm_bags pm)
    | _ => Throw "Unsupported pooling input type" end) with (Ok (Pool (pm_in pm) (pm_out pm) w (pm_bags pm))).
  2:{ rewrite <- Ed. destruct Hin as [-> |[-> |Hq]]; try done. by destruct (pm_in pm). }
  cbn [obind]. eexists. split; [reflexivity|]. intros bag Hbag. unfold pooled_row. f_equal.
  unfold pooling_kernel. rewrite (fold_upd_fun (fun bag => pool_bag _ _ _ _ _ _ (bag_span _ _ _ bag))).
  rewrite decide_True by (by apply elem_of_all_rows). rewrite pool_bag_pooled. done.
Qed.

Lemma write_rows_spec rows stride output size :
  0 <= size <= stride -> (forall r, 0 <= r < rows.1 -> Z.of_nat (length (mjoin (rows.2 r))) = size) ->
  forall r, 0 <= r < rows.1 -> mem_read (write_rows rows stride output) (r * stride) size = mjoin (rows.2 r).
Proof.
  intros Hs Hl r Hr. unfold write_rows.
  pose proof (fold_store_rows stride size Hs (fun r => mjoin (rows.2 r)) (fun _ => true) (seqZ 0 rows.1) output r) as Hf.
  simpl in Hf. rewrite Hf by (intros x Hx%elem_of_seqZ _; apply Hl; lia).
  rewrite decide_True; [done|]. split; [apply elem_of_seqZ; lia|done].
Qed.

(** C5. A lookup through the host layer, against the interface of its table: with valid
    arguments it returns, the reported hit rate is the share of keys in the table and
    the hit mask marks exactly those. Without pooling output row [j] is the row of key
    [j], the default embedding when it is missing and one is configured, and untouched
    otherwise. With a reduction every bag's output row is the element-wise pooling of
    those rows; here a missing key without default embedding contributes whatever the
    scratch buffer of the context held. *)
Theorem host_lookup_correct (t : T) (default_embedding : list Z) (num_workers : Z) (scratch : memory)
    (ctx keys_ptr output_ptr num_keys : Z) (keys : Z -> Z) (output : memory) (output_stride : Z)
    (output_hitmask : bool) (pool_params : option PoolingParams) :
  let row_size := get_max_row_size t in
  table_ok t -> layer_check t default_embedding = Ok tt -> ctx <> 0 -> keys_ptr <> 0 -> output_ptr <> 0 ->
  0 < num_keys -> 0 < num_workers -> 0 <= row_size ->
  (output_hitmask = true \/ default_embedding <> [] \/ takes_null_mask t) ->
  match pool_params with
  | None => row_size <= output_stride
  | Some p => pooling_type p <> Concatenate /\ weights_ok p /\
      exists pm, pool_setup p (get_value_type t) row_size num_keys output_stride = Ok pm
  end ->
  exists r, lookup load store default_embedding num_workers scratch t ctx keys_ptr output_ptr num_keys keys output
      output_stride output_hitmask pool_params = Ok r /\
    r_hitrate r = f32_div (f32_of_Z (hits (t_row t) keys num_keys)) (f32_of_Z num_keys) /\
    (output_hitmask = true -> exists mk, r_hitmask r = Some mk /\
       forall j, 0 <= j < num_keys -> mask_bit mk j = bool_decide (is_Some (t_row t (keys j)))) /\
    match pool_params with
    | None => forall j, 0 <= j < num_keys ->
        mem_read (r_output r) (j * output_stride) row_size =
          row_or_default t default_embedding keys output output_stride j
    | Some p => exists pm g, pool_setup p (get_value_type t) row_size num_keys output_stride = Ok pm /\
        (forall j, 0 <= j < num_keys ->
           mem_read g (j * row_size) row_size = row_or_default t default_embedding keys scratch row_size j) /\
        forall bag, 0 <= bag < pm_bags pm ->
          mem_read (r_output r) (bag * output_stride) (pm_width pm * type_size (pm_out pm)) = pooled_row p pm g row_size bag
    end.
Proof.
  intros row_size Hok Hlc Hctx Hkp Hop Hn Hw Hrow Hmask Hpool.
  unfold lookup. rewrite (proj2 (Z.eqb_neq ctx 0)), (proj2 (Z.eqb_neq keys_ptr 0)), (proj2 (Z.eqb_neq output_ptr 0)) by done.
  rewrite (proj2 (Z.ltb_lt 0 num_keys)) by done. cbn [negb]. fold row_size.
  set (need := output_hitmask || negb (bool_decide (default_embedding = []))).
  set (hm := if need then Some (fun _ : Z => 0) else None).
  assert (Hhm : match hm with Some mk => forall w, mk w = 0 | None => takes_null_mask t /\ default_embedding = [] end).
  { unfold hm, need. destruct output_hitmask; [done|]. simpl. destruct (bool_decide_reflect (default_embedding = [])) as [Hd|Hd]; [|done].
    simpl. split; [|done]. destruct Hmask as [?|[?|?]]; done. }
  assert (Hsome : output_hitmask = true -> hm <> None) by (unfold hm, need; by intros ->).
  destruct pool_params as [p|].
  - destruct Hpool as (Hp & Hwt & (pm & Epm)). rewrite Epm. cbn [obind].
    rewrite (bool_decide_false _ Hp). cbn [andb obind].
    destruct (pool_setup_facts _ _ _ _ _ _ Epm Hp Hrow Hn) as (Ein & Hin & Hout & Hb & Hwd & Hst).
    destruct (gather_rows_spec default_embedding num_workers t num_keys keys hm row_size scratch Hok Hlc Hn Hw)
      as (mask & g & Eg & Hg & Hmk); [unfold row_size in *; lia|done|].
    rewrite Eg. cbn [obind fst snd].
    destruct (pool_rows_spec p pm g row_size num_workers Hp Hwt Hb) as (rows & Er & Hrows); [by rewrite Ein|done|].
    rewrite Er. cbn [obind]. eexists. split; [reflexivity|]. split; [done|]. split.
    + simpl. intros Ho. rewrite Ho. by apply Hmk, Hsome.
    + exists pm, g. split; [done|]. split; [done|]. intros bag Hbag. simpl r_output.
      rewrite (write_rows_spec (pm_bags pm, rows) output_stride output); simpl; [by apply Hrows| | |done].
      * split; [|done]. rewrite <- (length_pooled_row p pm g row_size 0) by done. lia.
      * intros r Hr. rewrite Hrows by done. by apply length_pooled_row.
  - cbn [obind].
    destruct (gather_rows_spec default_embedding num_workers t num_keys keys hm output_stride output Hok Hlc Hn Hw)
      as (mask & g & Eg & Hg & Hmk); [unfold row_size in *; lia|done|].
    rewrite Eg. cbn [obind fst snd]. eexists. split; [reflexivity|]. split; [done|]. split; [|done].
    simpl. intros Ho. rewrite Ho. by apply Hmk, Hsome.
Qed.
End Correct.

(** ** The STL table as a table of the layer *)

(** A table with 64-bit masks and [2^log_parts] partitions. *)
Record stl_table := {
  st_config : STLContainerTableConfig; st_partitioner : Partitioner_t; st_log_parts : Z; st_parts : list Partition
}.

Definition stl_table_ok (t : stl_table) : Prop :=
  stl_config_check (st_config t) = Ok tt /\ 0 <= st_log_parts t <= 62 /\ table_inv (st_config t) (st_log_parts t) (st_parts t) /\
  mask_size (base_config (st_config t)) = 8.

Definition stl_find_op (t : stl_table) (n : Z) (keys : Z -> Z) (mask : option (Z -> Z)) (stride : Z) (values : memory)
    (counter : Z) : outcome (option (Z -> Z) * memory * Z) :=
  let s := {| f_mask := default (fun _ => 0) mask; f_values := values; f_sizes := fun _ => 0; f_meta := fun _ _ => 0;
              f_hits := 0 |} in
  let! r := StlFind.find (st_config t) (st_partitioner t) (st_parts t) n keys stride true false 0
              (bool_decide (is_Some mask)) (Some counter) s in
  Ok ((fun _ => f_mask r.1) <$> mask, f_values r.1, default 0 r.2).

Lemma stl_resident t (keys : Z -> Z) j :
  resident (st_partitioner t) (st_parts t) keys j <->
  is_Some (stl_lookup (st_config t) (st_partitioner t) (st_parts t) (keys j)).
Proof.
  unfold resident, slot_of, stl_lookup. destruct (st_parts t !! _) as [part|]; [|done].
  destruct (slot_map part !! keys j); by split; intros [? ?].
Qed.

Lemma stl_row_found t (keys : Z -> Z) (j : Z) r q :
  let home := part_of (st_partitioner t) (Z.of_nat (length (st_parts t))) (keys j) in
  stl_lookup (st_config t) (st_partitioner t) (st_parts t) (keys j) = Some r ->
  slot_of (st_parts t) home (keys j) = Some q -> row_at (st_config t) (st_parts t) home q = r.
Proof.
  intros home. unfold stl_lookup, slot_of, row_at. fold home.
  destruct (st_parts t !! Z.to_nat home) as [part|]; [|done]. intros E1 E2. rewrite E2 in E1. by injection E1.
Qed.

(** A completed lookup of the STL table on an empty mask, as the layer wants it. *)
Lemma stl_find_spec_law t n (keys : Z -> Z) stride s0 s :
  stl_table_ok t -> (forall w, f_mask s0 w = 0) -> f_hits s0 = 0 ->
  find_spec (st_config t) (st_partitioner t) (st_parts t) n keys stride true false s0 s ->
  let row := stl_lookup (st_config t) (st_partitioner t) (st_parts t) in
  f_hits s = hits row keys n /\
  (forall j, 0 <= j < n -> mem_read (f_values s) (j * stride) (max_value_size (base_config (st_config t))) =
     default (mem_read (f_values s0) (j * stride) (max_value_size (base_config (st_config t)))) (row (keys j))) /\
  (forall j, 0 <= j < n -> mask_bit (f_mask s) j = bool_decide (is_Some (row (keys j)))).
Proof.
  intros (_ & _ & _ & Hms) Hm H0 [Hmask Hhits Hrows _] row. rewrite Hms in Hmask.
  assert (Hnew : forall j, 0 <= j < n ->
    newhit (st_config t) (st_partitioner t) (st_parts t) n keys s0 j <-> is_Some (row (keys j))).
  { intros j Hj. unfold newhit. rewrite Hm, Z.testbit_0_l, stl_resident. tauto. }
  split; [|split].
  - rewrite Hhits, H0, Z.add_0_l. unfold hits. f_equal. f_equal. apply filter_ext_in.
    intros j Hj%elem_of_seqZ. apply Hnew. lia.
  - intros j Hj. rewrite (Hrows eq_refl j Hj). destruct (decide _) as [Hh|Hh].
    + destruct (proj1 (Hnew j Hj) Hh) as [r Er]. rewrite Er. simpl. destruct Hh as (_ & _ & [q Eq]). rewrite Eq.
      by eapply stl_row_found.
    + rewrite Hnew in Hh by done. destruct (row (keys j)) eqn:Er; [|done]. destruct Hh. by eexists.
  - intros j Hj. unfold mask_bit. apply eq_bool_prop_intro. rewrite !Is_true_true, bool_decide_eq_true.
    rewrite (Hmask j Hj), Hm, Z.testbit_0_l, stl_resident. naive_solver.
Qed.

#[refine, export] Instance stl_is_table : Table stl_table := {|
  get_device_id _ := -1; get_max_row_size t := max_value_size (base_config (st_config t));
  get_value_type t := value_dtype (base_config (st_config t)); t_find := stl_find_op;
  table_ok := stl_table_ok; takes_null_mask _ := False;
  t_row t := stl_lookup (st_config t) (st_partitioner t) (st_parts t) |}.
Proof.
  - intros t k r (Hc & _) E. unfold stl_lookup in E. destruct (st_parts t !! _) as [part|]; [|done].
    destruct (slot_map part !! k); [|done]. injection E as <-. destruct (check_facts _ Hc) as (H0 & _).
    unfold read_slot. rewrite length_fmap, length_seqZ. lia.
  - intros t n keys [mk|] stride values counter Hok Hn Hst Hm; [|done]. pose proof Hok as (Hc & Hk & Hinv & Hms).
    unfold stl_find_op. simpl default. rewrite bool_decide_true by (by eexists).
    set (s0 := {| f_mask := mk; f_values := values; f_sizes := fun _ => 0; f_meta := fun _ _ => 0; f_hits := 0 |}).
    destruct (find_returns (st_config t) (st_partitioner t) (st_log_parts t) (st_parts t) n keys stride true false 0
      counter s0 Hc Hk Hinv Hn Hst) as (s & E & Hspec); [|done|].
    { intros w. unfold s0; simpl. rewrite Hm. rewrite Hms. by split. }
    destruct (stl_find_spec_law t n keys stride s0 s Hok Hm eq_refl Hspec) as (Hh & Hr & Hb).
    rewrite E. cbn [obind fst snd]. eexists _, _. split; [by rewrite Hh|]. split; [exact Hr|].
    exists (f_mask s). split; [done|exact Hb].
Defined.

(** Without a hit mask the STL table is not usable behind the host layer: the layer
    hands its table no mask when the caller wants none and no default embedding is
    configured, as the table interface allows, and the lookup of the STL table then
    reads the mask through a null pointer. *)
Theorem stl_lookup_without_mask (load : DataType_t -> list Z -> f32) (store : DataType_t -> f32 -> list Z)
    (t : stl_table) (num_workers : Z) (scratch output : memory) (ctx keys_ptr output_ptr num_keys : Z) (keys : Z -> Z)
    (output_stride : Z) :
  stl_table_ok t -> ctx <> 0 -> keys_ptr <> 0 -> output_ptr <> 0 -> 0 < num_keys ->
  max_value_size (base_config (st_config t)) <= output_stride ->
  exists why, lookup load store [] num_workers scratch t ctx keys_ptr output_ptr num_keys keys output output_stride
    false None = Undef why.
Proof.
  intros Hok Hctx Hkp Hop Hn Hst. unfold lookup.
  rewrite (proj2 (Z.eqb_neq ctx 0)), (proj2 (Z.eqb_neq keys_ptr 0)), (proj2 (Z.eqb_neq output_ptr 0)) by done.
  rewrite (proj2 (Z.ltb_lt 0 num_keys)) by done. cbn [negb obind orb].
  unfold gather_rows. simpl t_find. unfold stl_find_op, StlFind.find, find_.
  rewrite (proj2 (Z.leb_gt num_keys 0)), (proj2 (Z.leb_le _ _)) by lia. by eexists.
Qed.

(** ** Examples *)

Definition demo_table : stl_table :=
  {| st_config := demo_stl; st_partitioner := Murmur3; st_log_parts := 1; st_parts := demo_parts |}.

Lemma demo_table_ok : stl_table_ok demo_table.
Proof. split; [reflexivity|]. split; [simpl; lia|]. split; [apply demo_table_inv|reflexivity]. Qed.

(** A missed key gets the default embedding. *)
Lemma host_lookup_correct_witness :
  exists r, lookup (fun _ _ => f32_zero) (fun d _ => repeat 0 (Z.to_nat (type_size d))) [1; 2; 3; 4] 2 (fun _ => 0) demo_table
      1 1 1 1 (fun _ => 5) (fun _ => 9) 8 true None = Ok r /\
    r_hitrate r = f32_zero /\ mem_read (r_output r) (0 * 8) 4 = [1; 2; 3; 4].
Proof.
  destruct (host_lookup_correct (fun _ _ => f32_zero) (fun d _ => repeat 0 (Z.to_nat (type_size d)))
    ltac:(intros d x; cbv beta; rewrite repeat_length; destruct d; reflexivity)
    demo_table [1; 2; 3; 4] 2 (fun _ => 0) 1 1 1 1 (fun _ => 5) (fun _ => 9) 8 true None) as (r & E & Hh & _ & Hr).
  - apply demo_table_ok.
  - reflexivity.
  - discriminate.
  - discriminate.
  - discriminate.
  - lia.
  - lia.
  - vm_compute; discriminate.
  - by left.
  - vm_compute; discriminate.
  - exists r. split; [exact E|]. split; [rewrite Hh; vm_compute; reflexivity|]. exact (Hr 0 ltac:(lia)).
Defined.

Lemma stl_lookup_without_mask_witness :
  exists why, lookup (fun _ _ => f32_zero) (fun _ _ => []) [] 2 (fun _ => 0) demo_table
    1 1 1 1 (fun _ => 5) (fun _ => 9) 8 false None = Undef why.
Proof.
  apply (stl_lookup_without_mask (fun _ _ => f32_zero) (fun _ _ => []) demo_table 2).
  - apply demo_table_ok.
  - discriminate.
  - discriminate.
  - discriminate.
  - lia.
  - vm_compute; discriminate.
Defined.
