(* ===== verification/Serialization.v ===== *)
(** * Tensor files: [include/serialization.hpp], [src/serialization.cpp]

    Streams ([StreamWrapperBase] with the file and the Python implementation), the
    [.nve] table file ([TensorFileFormat]), raw binary tensors
    ([BinaryTensorFileFormat]) and NumPy files ([NumpyTensorFileFormat]). A stream
    operation gives its result and the stream it leaves; a stream is not used after
    an exception. Bytes are [Z] in [0, 256). *)
From S2P Require Import Prelude.

(** ** Little-endian integers *)

Fixpoint le_bytes (n : nat) (x : Z) : list Z :=
  match n with O => [] | S n => x mod 256 :: le_bytes n (x / 256) end.
Fixpoint le_value (l : list Z) : Z :=
  match l with [] => 0 | b :: l => b + 256 * le_value l end.

(** The characters of a string as bytes. *)
Definition codes (s : string) : list Z := (fun c => Z.of_nat (Ascii.nat_of_ascii c)) <$> String.list_ascii_of_string s.

(** ** Streams *)

(** [StreamWrapperBase]. [s_read n] gives the bytes read, at most [n]. The laws are
    what every implementation promises inside the stream. *)
Class StreamWrapperBase (S : Type) := {
  s_write : list Z -> S -> outcome S;
  s_seek : Z -> S -> outcome (Z * S);
  s_tell : S -> Z;
  s_flush : S -> S;
  s_read : Z -> S -> outcome (list Z * S);
  s_size : S -> outcome (Z * S);
  contents : S -> list Z;
  position : S -> Z;
  stream_ok : S -> Prop;
  position_nonneg s : stream_ok s -> 0 <= position s;
  seek_law s o : stream_ok s -> 0 <= o < 2 ^ 63 ->
    exists s', s_seek o s = Ok (o, s') /\ stream_ok s' /\ contents s' = contents s /\ position s' = o;
  tell_law s : stream_ok s -> s_tell s = position s;
  flush_law s : stream_ok s ->
    stream_ok (s_flush s) /\ contents (s_flush s) = contents s /\ position (s_flush s) = position s;
  read_law s n : stream_ok s -> 0 <= n -> position s + n <= Z.of_nat (length (contents s)) ->
    exists s', s_read n s = Ok (take (Z.to_nat n) (drop (Z.to_nat (position s)) (contents s)), s') /\
      stream_ok s' /\ contents s' = contents s /\ position s' = position s + n;
  size_law s : stream_ok s ->
    exists s', s_size s = Ok (Z.of_nat (length (contents s)), s') /\ stream_ok s' /\ contents s' = contents s /\
      position s' = position s
}.

(** Writing at a position inside the stream replaces or extends. *)
Definition overwritten (p : Z) (bs f : list Z) : list Z :=
  take (Z.to_nat p) f ++ bs ++ drop (Z.to_nat p + length bs) f.

(** A stream that can be written and that reports its end by reading less. *)
Class WritableStream (S : Type) `{StreamWrapperBase S} := {
  write_law s bs : stream_ok s -> position s <= Z.of_nat (length (contents s)) ->
    exists s', s_write bs s = Ok s' /\ stream_ok s' /\ contents s' = overwritten (position s) bs (contents s) /\
      position s' = position s + Z.of_nat (length bs);
  short_read_law s n : stream_ok s -> 0 <= n -> position s <= Z.of_nat (length (contents s)) ->
    let bs := take (Z.to_nat n) (drop (Z.to_nat (position s)) (contents s)) in
    exists s', s_read n s = Ok (bs, s') /\ stream_ok s' /\ contents s' = contents s /\
      position s' = position s + Z.of_nat (length bs)
}.

(** What a read past the end of the stream does: it reads what there is, or it throws. *)
Inductive end_behaviour := ReadsLess | ThrowsAtEnd (e : string).
Class StreamEnd (S : Type) `{StreamWrapperBase S} := {
  at_end : end_behaviour;
  end_law s n : stream_ok s -> position s <= Z.of_nat (length (contents s)) < position s + n ->
    match at_end with
    | ReadsLess => exists s', s_read n s = Ok (drop (Z.to_nat (position s)) (contents s), s') /\ stream_ok s' /\
        contents s' = contents s /\ position s' = Z.of_nat (length (contents s))
    | ThrowsAtEnd e => s_read n s = Throw e
    end
}.

(** *** InputFileStreamWrapper *)

(** An open [std::ifstream] in a good state. *)
Record ifstream := { f_bytes : list Z; f_pos : Z }.

Definition input_write (bs : list Z) (f : ifstream) : outcome ifstream :=
  Throw "write is not supported for input file stream wrapper".
Definition input_seek (offset : Z) (f : ifstream) : outcome (Z * ifstream) :=
  check! 0 <=? wraps 64 offset as "Failed to seek in file" in
  Ok (offset, {| f_bytes := f_bytes f; f_pos := wraps 64 offset |}).
Definition input_tell (f : ifstream) : Z := wrapu 64 (f_pos f).
(** A read that meets the end of the file sets [eofbit] and [failbit]. *)
Definition input_read (n : Z) (f : ifstream) : outcome (list Z * ifstream) :=
  check! f_pos f + n <=? Z.of_nat (length (f_bytes f)) as "Failed to read from file" in
  Ok (take (Z.to_nat n) (drop (Z.to_nat (f_pos f)) (f_bytes f)), {| f_bytes := f_bytes f; f_pos := f_pos f + n |}).
Definition input_size (f : ifstream) : outcome (Z * ifstream) := Ok (Z.of_nat (length (f_bytes f)), f).

(** *** PyStreamWrapper *)

(** A Python binary stream: [py_write] and [py_readinto] may transfer fewer bytes than
    asked for, and a read transfers none only at the end or when none are asked for. *)
Class PythonStream (P : Type) := {
  py_tell : P -> Z;
  py_seek : Z -> P -> Z * P;
  py_seek_end : P -> P;
  py_write : list Z -> P -> Z * P;
  py_readinto : Z -> P -> list Z * P;
  py_bytes : P -> list Z;
  py_tell_nonneg p : 0 <= py_tell p;
  py_seek_spec o p : 0 <= o -> (py_seek o p).1 = o /\ py_tell (py_seek o p).2 = o /\ py_bytes (py_seek o p).2 = py_bytes p;
  py_seek_end_spec p : py_tell (py_seek_end p) = Z.of_nat (length (py_bytes p)) /\ py_bytes (py_seek_end p) = py_bytes p;
  py_write_spec bs p : bs <> [] -> py_tell p <= Z.of_nat (length (py_bytes p)) ->
    let k := (py_write bs p).1 in
    1 <= k <= Z.of_nat (length bs) /\ py_tell (py_write bs p).2 = py_tell p + k /\
    py_bytes (py_write bs p).2 = overwritten (py_tell p) (take (Z.to_nat k) bs) (py_bytes p);
  py_read_spec n p : 0 <= n ->
    let bs := (py_readinto n p).1 in
    bs = take (length bs) (drop (Z.to_nat (py_tell p)) (py_bytes p)) /\ (length bs <= Z.to_nat n)%nat /\
    (bs = [] -> n = 0 \/ Z.of_nat (length (py_bytes p)) <= py_tell p) /\
    py_tell (py_readinto n p).2 = py_tell p + Z.of_nat (length bs) /\ py_bytes (py_readinto n p).2 = py_bytes p
}.

Section Python.
Context {P : Type} `{PythonStream P}.

(** The loop of [write]; every round writes at least a byte, so [length bs] rounds do. *)
Fixpoint py_write_all (fuel : nat) (bs : list Z) (p : P) : outcome P :=
  match bs with
  | [] => Ok p
  | _ =>
      match fuel with
      | O => Undef "write does not make progress"
      | S fuel => let r := py_write bs p in py_write_all fuel (drop (Z.to_nat r.1) bs) r.2
      end
  end.
Definition py_stream_write (bs : list Z) (p : P) : outcome P := py_write_all (length bs) bs p.

(** The loop of [read], which ends when nothing is read; [size + 1] rounds do. *)
Fixpoint py_read_all (fuel : nat) (n : Z) (p : P) : outcome (list Z * P) :=
  match fuel with
  | O => Undef "read does not make progress"
  | S fuel =>
      let r := py_readinto n p in
      match r.1 with
      | [] => Ok ([], r.2)
      | bs => let! q := py_read_all fuel (n - Z.of_nat (length bs)) r.2 in Ok (bs ++ q.1, q.2)
      end
  end.
Definition py_stream_read (n : Z) (p : P) : outcome (list Z * P) := py_read_all (S (Z.to_nat n)) n p.

Definition py_stream_size (p : P) : outcome (Z * P) :=
  let e := py_seek_end p in Ok (py_tell e, (py_seek (py_tell p) e).2).
End Python.

(** ** TensorFileFormat: the table file *)

Record TensorWrapper := { t_data : list Z; t_row : Z; t_col : Z; t_element_size : Z }.

Definition MAGIC_NUMBER : Z := 0x4e564500.
Definition VERSION_MAJOR : Z := 0.
Definition VERSION_MINOR : Z := 2.
Definition ROW_SIZE_BITS : Z := 16.
Definition DATA_TYPE_BITS : Z := 4.
Definition ROWS_BITS : Z := 64 - (ROW_SIZE_BITS + DATA_TYPE_BITS).

Record TableKey := { key1 : Z; key2 : Z }.
Record TableEntry := { e_key : TableKey; e_offset : Z; e_length : Z }.

(** The 32 bytes of a [TableEntry]. *)
Definition entry_bytes (e : TableEntry) : list Z :=
  le_bytes 8 (key1 (e_key e)) ++ le_bytes 8 (key2 (e_key e)) ++ le_bytes 8 (e_offset e) ++ le_bytes 8 (e_length e).
Definition entry_of_bytes (bs : list Z) : TableEntry :=
  {| e_key := {| key1 := le_value (take 8 bs); key2 := le_value (take 8 (drop 8 bs)) |};
     e_offset := le_value (take 8 (drop 16 bs)); e_length := le_value (take 8 (drop 24 bs)) |}.

Definition get_key (name : Z) (t : TensorWrapper) : outcome TableKey :=
  check! t_col t <? Z.shiftl 1 ROW_SIZE_BITS as "nve support max 16 bit row size" in
  check! t_row t <? Z.shiftl 1 ROWS_BITS as "nve support max 44 bit rows" in
  check! t_element_size t <? Z.shiftl 1 DATA_TYPE_BITS as "nve support max 2 bit data type" in
  Ok {| key1 := Z.lor (Z.lor (t_col t) (wrapu 64 (Z.shiftl (t_element_size t) ROW_SIZE_BITS)))
                  (wrapu 64 (Z.shiftl (t_row t) (ROW_SIZE_BITS + DATA_TYPE_BITS)));
        key2 := name |}.
Definition get_name_from_key (k : TableKey) : Z := key2 k.

(** [row * col * element_size_in_bytes] in [uint64_t]. *)
Definition tensor_bytes (t : TensorWrapper) : Z := wrapu 64 (wrapu 64 (t_row t * t_col t) * t_element_size t).

Section TableFile.
Context {S : Type} `{StreamWrapperBase S}.

Definition write_table_file_header (s : S) : outcome S :=
  let! r := s_seek 0 s in
  let! s := s_write (le_bytes 4 MAGIC_NUMBER) r.2 in
  let! s := s_write (le_bytes 4 VERSION_MAJOR) s in
  let! s := s_write (le_bytes 4 VERSION_MINOR) s in
  Ok (s_flush s).

(** [stream.read(&x, n)] into an uninitialised integer. *)
Definition read_value (n : Z) (s : S) : outcome (Z * S) :=
  let! r := s_read n s in
  if Z.of_nat (length r.1) =? n then Ok (le_value r.1, r.2) else Undef "use of an uninitialised integer".

Definition verify_table_header (s : S) : outcome (bool * S) :=
  let! r := s_seek 0 s in
  let! magic := read_value 4 r.2 in
  let! major := read_value 4 magic.2 in
  let! minor := read_value 4 major.2 in
  Ok ((magic.1 =? MAGIC_NUMBER) && (major.1 =? VERSION_MAJOR) && (minor.1 =? VERSION_MINOR), minor.2).

Definition write_tensor_to_stream (name : Z) (t : TensorWrapper) (s : S) : outcome S :=
  let sz := tensor_bytes t in
  let! key := get_key name t in
  let entry := {| e_key := key; e_offset := wrapu 64 (sz + 32 + s_tell s); e_length := sz |} in
  let! s := s_write (entry_bytes entry) s in
  if Z.of_nat (length (t_data t)) <? sz then Undef "read past the end of the tensor"
  else
    let! s := s_write (take (Z.to_nat sz) (t_data t)) s in
    Ok (s_flush s).

(** What [read(tensor.data, n)] leaves in the tensor. *)
Definition with_data (t : TensorWrapper) (bs : list Z) : TensorWrapper :=
  {| t_data := bs ++ drop (length bs) (t_data t); t_row := t_row t; t_col := t_col t; t_element_size := t_element_size t |}.

(** The loop over the entries, [bs] being what was read of the current one; [None] is
    a loop that has not ended within [fuel] rounds. *)
Fixpoint load_loop (fuel : nat) (name sz : Z) (t : TensorWrapper) (bs : list Z) (s : S)
  : option (outcome (TensorWrapper * S)) :=
  match bs with
  | [] => Some (Ok (t, s))
  | _ =>
      match fuel with
      | O => None
      | Datatypes.S fuel =>
          if negb (Z.of_nat (length bs) =? 32) then Some (Throw "Problem reading table entry")
          else
            let entry := entry_of_bytes bs in
            if get_name_from_key (e_key entry) =? name then
              Some (check! e_length entry =? sz as "Incorrect tensor size" in
                    if Z.of_nat (length (t_data t)) <? e_length entry then Undef "write past the end of the tensor"
                    else
                      let! r := s_read (e_length entry) s in
                      check! Z.of_nat (length r.1) =? e_length entry as "Problem reading tensor" in
                      Ok (with_data t r.1, r.2))
            else
              match (let! r := s_seek (e_offset entry) s in s_read 32 r.2) with
              | Ok r => load_loop fuel name sz t r.1 r.2
              | Throw e => Some (Throw e)
              | Undef e => Some (Undef e)
              end
      end
  end.

Definition load_tensor_from_stream (fuel : nat) (name : Z) (t : TensorWrapper) (s : S)
  : option (outcome (TensorWrapper * S)) :=
  match (let! v := verify_table_header s in
         check! v.1 as "Incorrect file version" in
         s_read 32 v.2) with
  | Ok r => load_loop fuel name (tensor_bytes t) t r.1 r.2
  | Throw e => Some (Throw e)
  | Undef e => Some (Undef e)
  end.

(** Writing a list of named tensors after a header. *)
Fixpoint write_tensors (ts : list (Z * TensorWrapper)) (s : S) : outcome S :=
  match ts with
  | [] => Ok s
  | nt :: ts => let! s := write_tensor_to_stream nt.1 nt.2 s in write_tensors ts s
  end.

(** ** BinaryTensorFileFormat *)

Record binary_format := { b_stream : S; row_size_ : Z }.

(** The loop of [load_batch]: [got] is what has been read. *)
Fixpoint read_until (fuel : nat) (total : Z) (got : list Z) (s : S) : option (outcome (list Z * S)) :=
  if Z.of_nat (length got) <? total then
    match fuel with
    | O => None
    | Datatypes.S fuel =>
        match s_read (total - Z.of_nat (length got)) s with
        | Ok r => read_until fuel total (got ++ r.1) r.2
        | Throw e => Some (Throw e)
        | Undef e => Some (Undef e)
        end
    end
  else Some (Ok (got, s)).

Definition binary_load_batch (fuel : nat) (batch : Z) (b : binary_format) : option (outcome (list Z * binary_format)) :=
  match read_until fuel (wrapu 64 (batch * row_size_ b)) [] (b_stream b) with
  | Some r => Some (let! q := r in Ok (q.1, {| b_stream := q.2; row_size_ := row_size_ b |}))
  | None => None
  end.

Definition binary_get_num_rows (b : binary_format) : outcome (Z * binary_format) :=
  let! r := s_size (b_stream b) in
  if row_size_ b =? 0 then Undef "division by zero"
  else Ok (r.1 / row_size_ b, {| b_stream := r.2; row_size_ := row_size_ b |}).

Definition binary_reset (b : binary_format) : outcome binary_format :=
  let! r := s_seek 0 (b_stream b) in Ok {| b_stream := r.2; row_size_ := row_size_ b |}.
End TableFile.

(** ** NumpyTensorFileFormat *)

(** *** Text of the header *)

Fixpoint strip (p l : list Z) : option (list Z) :=
  match p, l with
  | [], _ => Some l
  | x :: p, y :: l => if x =? y then strip p l else None
  | _, [] => None
  end.
(** The longest prefix without [c], and the rest. *)
Fixpoint until (c : Z) (l : list Z) : list Z * list Z :=
  match l with
  | [] => ([], [])
  | x :: l' => if x =? c then ([], l) else let r := until c l' in (x :: r.1, r.2)
  end.
(** [std::regex_search]: the leftmost match. *)
Fixpoint search {A : Type} (match_at : list Z -> option A) (l : list Z) : option A :=
  match match_at l with
  | Some a => Some a
  | None => match l with [] => None | _ :: l => search match_at l end
  end.

(** The three patterns: the quoted text after the descr key, the text between the
    parentheses after the shape key, and the word after the fortran_order key. *)
Definition match_descr (l : list Z) : option (list Z) :=
  match strip (codes "'descr': '") l with
  | None => None
  | Some l => let r := until 39 l in
      match r.1, r.2 with
      | [], _ | _, [] => None
      | run, _ => Some run
      end
  end.
Definition match_shape (l : list Z) : option (list Z) :=
  match strip (codes "shape': (") l with
  | None => None
  | Some l => let r := until 41 l in match r.2 with [] => None | _ => Some r.1 end
  end.
Definition match_fortran (l : list Z) : option bool :=
  match strip (codes "fortran_order': ") l with
  | None => None
  | Some l =>
      match strip (codes "False") l, strip (codes "True") l with
      | Some _, _ => Some false
      | None, Some _ => Some true
      | None, None => None
      end
  end.

Definition dtype_size_of (descr : list Z) : option Z :=
  if decide (descr = codes "<f4") then Some 4
  else if decide (descr = codes "<f8") then Some 8
  else if decide (descr = codes "<i4") then Some 4
  else if decide (descr = codes "<i8") then Some 8
  else None.

(** The tokens [std::getline(ss, token, ',')] gives. *)
Fixpoint getlines (fuel : nat) (l : list Z) : list (list Z) :=
  match fuel, l with
  | O, _ | _, [] => []
  | S fuel, _ =>
      let r := until 44 l in
      r.1 :: match r.2 with [] => [] | _ :: l => getlines fuel l end
  end.

(** [std::stoul]; [None] is an exception, which the caller logs. *)
Definition is_space (c : Z) : bool := (c =? 32) || ((9 <=? c) && (c <=? 13)).
Definition is_digit (c : Z) : bool := (48 <=? c) && (c <=? 57).
Fixpoint skip_spaces (l : list Z) : list Z :=
  match l with x :: l' => if is_space x then skip_spaces l' else l | [] => [] end.
Fixpoint digits (l : list Z) : list Z :=
  match l with x :: l' => if is_digit x then x :: digits l' else [] | [] => [] end.
Definition decimal (ds : list Z) : Z := fold_left (fun a d => a * 10 + (d - 48)) ds 0.
Definition stoul (l : list Z) : option Z :=
  let l := skip_spaces l in
  let neg := match l with 45 :: _ => true | _ => false end in
  let l := match l with 45 :: l' | 43 :: l' => l' | _ => l end in
  match digits l with
  | [] => None
  | ds => if decimal ds <? 2 ^ 64 then Some (if neg then wrapu 64 (- decimal ds) else decimal ds) else None
  end.

Record NumpyHeader := { dtype_size_in_bytes : Z; shape : list Z; fortran_order : bool }.

Definition NPY_MAGIC_NUMBER : list Z := 147 :: codes "NUMPY".

(** What the three searches find in the header text. *)
Definition parse_header (text : list Z) : outcome NumpyHeader :=
  match search match_descr text with
  | None => Throw "Incorrect file format"
  | Some descr =>
      match dtype_size_of descr with
      | None => Throw "Unsupported data type"
      | Some sz =>
          match search match_shape text with
          | None => Throw "Incorrect file format"
          | Some dims =>
              match search match_fortran text with
              | None => Throw "Incorrect file format"
              | Some fortran =>
                  Ok {| dtype_size_in_bytes := sz; shape := omap stoul (getlines (length dims) dims);
                        fortran_order := fortran |}
              end
          end
      end
  end.

Section Numpy.
Context {S : Type} `{StreamWrapperBase S}.

Definition read_exactly (n : Z) (what : string) (s : S) : outcome (list Z * S) :=
  let! r := s_read n s in
  check! Z.of_nat (length r.1) =? n as what in Ok r.

(** [load_header]: the header, the offset of the data and the stream. *)
Definition load_header (s : S) : outcome (NumpyHeader * Z * S) :=
  let! r := s_seek 0 s in
  let! magic := read_exactly 6 "Problem reading numpy magic number" r.2 in
  check! bool_decide (magic.1 = NPY_MAGIC_NUMBER) as "Incorrect file format" in
  let! major := read_exactly 1 "Problem reading numpy major version" magic.2 in
  let! minor := read_exactly 1 "Problem reading numpy minor version" major.2 in
  let! n := (if bool_decide (major.1 = [1]) && bool_decide (minor.1 = [0]) then Ok 2
             else if bool_decide (major.1 = [2]) && bool_decide (minor.1 = [0]) then Ok 4
             else Throw "Unsupported numpy version") in
  let! len := read_exactly n "Problem reading numpy header length" minor.2 in
  let header_len := le_value len.1 in
  let! text := read_exactly header_len "Problem reading numpy header" len.2 in
  let! header := parse_header text.1 in
  let offset := s_tell text.2 in
  check! offset =? header_len + 6 + 1 + 1 + n as "Problem reading numpy header" in
  Ok (header, offset, text.2).

Record numpy_format := {
  n_stream : S; header_ : NumpyHeader; vec_size_ : Z; row_size_in_bytes_ : Z; offset_ : Z
}.

(** The constructor. *)
Definition numpy_open (s : S) : outcome numpy_format :=
  let! r := load_header s in
  let vec := fold_left (fun v d => wrapu 64 (v * d)) (drop 1 (shape r.1.1)) 1 in
  Ok {| n_stream := r.2; header_ := r.1.1; vec_size_ := vec;
        row_size_in_bytes_ := wrapu 64 (vec * dtype_size_in_bytes r.1.1); offset_ := r.1.2 |}.

Definition with_stream (f : numpy_format) (s : S) : numpy_format :=
  {| n_stream := s; header_ := header_ f; vec_size_ := vec_size_ f; row_size_in_bytes_ := row_size_in_bytes_ f;
     offset_ := offset_ f |}.

Definition numpy_reset (f : numpy_format) : outcome numpy_format :=
  let! r := s_seek (offset_ f) (n_stream f) in Ok (with_stream f r.2).

(** [load_batch]: row by row, each with the loop of [read_until]. *)
Fixpoint numpy_load_rows (fuel : nat) (batch : nat) (row_size : Z) (s : S) : option (outcome (list Z * S)) :=
  match batch with
  | O => Some (Ok ([], s))
  | Datatypes.S batch =>
      match read_until fuel row_size [] s with
      | Some (Ok r) =>
          match numpy_load_rows fuel batch row_size r.2 with
          | Some q => Some (let! q := q in Ok (r.1 ++ q.1, q.2))
          | None => None
          end
      | Some (Throw e) => Some (Throw e)
      | Some (Undef e) => Some (Undef e)
      | None => None
      end
  end.
Definition numpy_load_batch (fuel : nat) (batch : Z) (f : numpy_format) : option (outcome (list Z * numpy_format)) :=
  match numpy_load_rows fuel (Z.to_nat batch) (row_size_in_bytes_ f) (n_stream f) with
  | Some q => Some (let! q := q in Ok (q.1, with_stream f q.2))
  | None => None
  end.

Definition numpy_get_num_rows (f : numpy_format) : outcome Z :=
  match shape (header_ f) with [] => Undef "read past the end of the shape" | d :: _ => Ok d end.
End Numpy.

(** ** Lemmas: encodings *)

Lemma length_le_bytes n x : length (le_bytes n x) = n.
Proof. revert x. induction n as [|n IH]; intros x; simpl; [done|]. by rewrite IH. Qed.

Lemma le_value_bytes n x : 0 <= x < 256 ^ Z.of_nat n -> le_value (le_bytes n x) = x.
Proof.
  revert x. induction n as [|n IH]; intros x Hx; simpl; [simpl in Hx; lia|].
  rewrite Nat2Z.inj_succ, Z.pow_succ_r in Hx by lia.
  rewrite IH.
  - pose proof (Z.div_mod x 256). lia.
  - split; [apply Z.div_pos; lia|]. apply Z.div_lt_upper_bound; lia.
Qed.

Lemma length_entry_bytes e : length (entry_bytes e) = 32%nat.
Proof. unfold entry_bytes. by rewrite !length_app, !length_le_bytes. Qed.

Lemma take_drop_parts {A} (a b c d : list A) n :
  length a = n -> length b = n -> length c = n -> length d = n ->
  take n (a ++ b ++ c ++ d) = a /\ take n (drop n (a ++ b ++ c ++ d)) = b /\
  take n (drop (n + n) (a ++ b ++ c ++ d)) = c /\ take n (drop (n + n + n) (a ++ b ++ c ++ d)) = d.
Proof.
  intros Ha Hb Hc Hd. split_and!.
  - by rewrite take_app_length' by done.
  - by rewrite drop_app_length', take_app_length' by done.
  - rewrite <- drop_drop, (drop_app_length' a), (drop_app_length' b) by done. by rewrite take_app_length'.
  - rewrite <- !drop_drop, (drop_app_length' a), (drop_app_length' b), (drop_app_length' c) by done.
    by rewrite take_ge by lia.
Qed.

Definition entry_in_range (e : TableEntry) : Prop :=
  in_u 64 (key1 (e_key e)) /\ in_u 64 (key2 (e_key e)) /\ in_u 64 (e_offset e) /\ in_u 64 (e_length e).

Lemma entry_roundtrip e : entry_in_range e -> entry_of_bytes (entry_bytes e) = e.
Proof.
  intros (H1 & H2 & H3 & H4). unfold entry_of_bytes, entry_bytes.
  destruct (take_drop_parts (le_bytes 8 (key1 (e_key e))) (le_bytes 8 (key2 (e_key e)))
    (le_bytes 8 (e_offset e)) (le_bytes 8 (e_length e)) 8) as (-> & -> & E3 & E4); try apply length_le_bytes.
  change (8 + 8)%nat with 16%nat in E3. change (8 + 8 + 8)%nat with 24%nat in E4. rewrite E3, E4.
  rewrite !le_value_bytes by done. by destruct e as [[] ? ?].
Qed.

(** The key of a tensor whose dimensions pass the checks is a 64-bit integer, and the
    size of the tensor does not wrap around. *)
Lemma get_key_spec name t :
  0 <= t_row t -> 0 <= t_col t -> 0 <= t_element_size t -> returns (get_key name t) ->
  exists k, get_key name t = Ok k /\ key2 k = name /\ in_u 64 (key1 k) /\
    tensor_bytes t = t_row t * t_col t * t_element_size t.
Proof.
  intros Hr Hc He [k Hk]. revert Hk. unfold get_key.
  change (Z.shiftl 1 ROW_SIZE_BITS) with (2 ^ 16). change (Z.shiftl 1 ROWS_BITS) with (2 ^ 44).
  change (Z.shiftl 1 DATA_TYPE_BITS) with (2 ^ 4).
  destruct (Z.ltb_spec (t_col t) (2 ^ 16)) as [Hc'|]; [|done].
  destruct (Z.ltb_spec (t_row t) (2 ^ 44)) as [Hr'|]; [|done].
  destruct (Z.ltb_spec (t_element_size t) (2 ^ 4)) as [He'|]; [|done].
  intros _. eexists. split; [done|]. split; [done|]. split.
  - simpl. assert (Hl : forall a b, in_u 64 a -> in_u 64 b -> in_u 64 (Z.lor a b)).
    { intros a b [Ha Ha'] [Hb Hb']. split; [by apply Z.lor_nonneg|].
      destruct (decide (Z.lor a b = 0)) as [->|Hn]; [done|].
      apply Z.log2_lt_pow2; [pose proof (proj2 (Z.lor_nonneg a b)); lia|].
      rewrite Z.log2_lor by done. apply Z.max_lub_lt.
      - destruct (decide (a = 0)) as [->|]; [done|]. apply Z.log2_lt_pow2; lia.
      - destruct (decide (b = 0)) as [->|]; [done|]. apply Z.log2_lt_pow2; lia. }
    apply Hl; [apply Hl|]; [unfold in_u; lia|apply wrapu_range; lia..].
  - unfold tensor_bytes. assert (Hrc : 0 <= t_row t * t_col t < 2 ^ 60) by nia.
    rewrite (wrapu_small 64 (t_row t * t_col t)) by (unfold in_u; lia). rewrite wrapu_small by (unfold in_u; nia). done.
Qed.

Lemma overwritten_end p bs f rest pre :
  f = pre ++ rest -> p = Z.of_nat (length pre) ->
  overwritten p bs f = (pre ++ bs) ++ drop (length bs) rest.
Proof.
  intros -> ->. unfold overwritten. rewrite Nat2Z.id, take_app_length.
  rewrite drop_app_ge by lia. rewrite app_assoc. do 2 f_equal. lia.
Qed.

(** ** Lemmas: the streams *)

#[export] Instance input_stream : StreamWrapperBase ifstream.
Proof.
  refine {| s_write := input_write; s_seek := input_seek; s_tell := input_tell; s_flush := fun f => f;
            s_read := input_read; s_size := input_size; contents := f_bytes; position := f_pos;
            stream_ok := fun f => 0 <= f_pos f < 2 ^ 63 /\ Z.of_nat (length (f_bytes f)) < 2 ^ 63 |}.
  - lia.
  - intros f o [Hp Hl] Ho. unfold input_seek. rewrite wraps_small by (unfold in_s; lia).
    rewrite (proj2 (Z.leb_le 0 o)) by lia. eexists. split; [done|]. simpl. split_and!; done || lia.
  - intros f [Hp Hl]. unfold input_tell. apply wrapu_small. unfold in_u. lia.
  - done.
  - intros f n [Hp Hl] Hn Hr. unfold input_read. rewrite (proj2 (Z.leb_le _ _)) by lia.
    eexists. split; [done|]. simpl. split_and!; done || lia.
  - intros f Hf. by exists f.
Defined.

#[export] Instance input_end : StreamEnd ifstream.
Proof.
  refine {| at_end := ThrowsAtEnd "Failed to read from file" |}.
  intros f n _ Hn. simpl in *. unfold input_read. by rewrite (proj2 (Z.leb_gt _ _)) by lia.
Defined.

(** A writable stream reads less. *)
#[export] Instance writable_end {S} `{Wr : WritableStream S} : StreamEnd S.
Proof.
  refine {| at_end := ReadsLess |}. intros s n Hok Hn. pose proof (position_nonneg s Hok).
  destruct (short_read_law s n Hok) as (s' & E & Hok' & Hc & Hp); [lia..|]. rewrite take_ge in E, Hp by (rewrite length_drop; lia).
  exists s'. split_and!; [done..|]. rewrite Hp, length_drop. lia.
Defined.

Section PythonLemmas.
Context {P : Type} `{PythonStream P}.

Lemma py_write_all_spec fuel bs p :
  (length bs <= fuel)%nat -> py_tell p <= Z.of_nat (length (py_bytes p)) ->
  exists p', py_write_all fuel bs p = Ok p' /\ py_bytes p' = overwritten (py_tell p) bs (py_bytes p) /\
    py_tell p' = py_tell p + Z.of_nat (length bs).
Proof.
  revert bs p. induction fuel as [|fuel IH]; intros bs p Hf Hp.
  { destruct bs; [|simpl in Hf; lia]. exists p. split; [done|]. simpl. split; [|lia].
    unfold overwritten. simpl. by rewrite Nat.add_0_r, take_drop. }
  destruct bs as [|b bs].
  { exists p. split; [done|]. simpl. split; [|lia]. unfold overwritten. simpl. by rewrite Nat.add_0_r, take_drop. }
  set (l := b :: bs) in *. cbn [py_write_all]. fold l.
  destruct (py_write_spec l p) as (Hk & Ht & Hb); [done|done|]. set (k := (py_write l p).1) in *.
  pose proof (py_tell_nonneg p) as H0.
  destruct (IH (drop (Z.to_nat k) l) (py_write l p).2) as (p' & E & Eb & Et).
  { rewrite length_drop. unfold l in *. simpl in *. lia. }
  { rewrite Ht, Hb. unfold overwritten. rewrite !length_app, length_take, length_take, length_drop. lia. }
  exists p'. unfold l. fold l. split; [exact E|]. rewrite Eb, Et, Ht, Hb, length_drop. split; [|lia].
  assert (Hlt : length (take (Z.to_nat k) l) = Z.to_nat k) by (rewrite length_take; lia).
  rewrite (overwritten_end _ _ _ (drop (Z.to_nat (py_tell p) + Z.to_nat k) (py_bytes p))
    (take (Z.to_nat (py_tell p)) (py_bytes p) ++ take (Z.to_nat k) l)).
  - unfold overwritten. rewrite <- !app_assoc. f_equal. rewrite app_assoc, take_drop, drop_drop. do 2 f_equal.
    rewrite length_drop. lia.
  - unfold overwritten. rewrite Hlt. by rewrite <- app_assoc.
  - rewrite length_app, Hlt, length_take. lia.
Qed.

Lemma py_read_all_spec fuel n p :
  0 <= n -> (Z.to_nat n < fuel)%nat ->
  exists p', py_read_all fuel n p = Ok (take (Z.to_nat n) (drop (Z.to_nat (py_tell p)) (py_bytes p)), p') /\
    py_bytes p' = py_bytes p /\
    py_tell p' = py_tell p + Z.of_nat (length (take (Z.to_nat n) (drop (Z.to_nat (py_tell p)) (py_bytes p)))).
Proof.
  revert n p. induction fuel as [|fuel IH]; intros n p Hn Hf; [lia|]. cbn [py_read_all].
  destruct (py_read_spec n p Hn) as (Hpre & Hle & Hend & Ht & Hb). pose proof (py_tell_nonneg p) as H0.
  destruct (py_readinto n p).1 as [|b bs] eqn:E.
  - exists (py_readinto n p).2.
    assert (take (Z.to_nat n) (drop (Z.to_nat (py_tell p)) (py_bytes p)) = []) as ->.
    { destruct (Hend eq_refl) as [->|Hl]; [done|]. rewrite drop_ge by lia. by rewrite take_nil. }
    rewrite Ht, Hb. done.
  - set (l := b :: bs) in *. destruct (IH (n - Z.of_nat (length l)) (py_readinto n p).2) as (p' & E' & Eb & Et).
    { lia. } { unfold l in *. simpl in *. lia. }
    rewrite E'. exists p'. cbn [obind fst snd]. rewrite Eb, Et, Hb, Ht.
    set (d := drop (Z.to_nat (py_tell p)) (py_bytes p)) in *.
    assert (Eq : l ++ take (Z.to_nat (n - Z.of_nat (length l)))
        (drop (Z.to_nat (py_tell p + Z.of_nat (length l))) (py_bytes p)) = take (Z.to_nat n) d).
    { rewrite Hpre at 1. replace (Z.to_nat n) with (length l + Z.to_nat (n - Z.of_nat (length l)))%nat by lia.
      rewrite <- take_take_drop. f_equal. unfold d. rewrite drop_drop. do 2 f_equal; lia. }
    rewrite Eq. split; [done|]. split; [done|]. rewrite <- Eq, length_app. lia.
Qed.

#[export] Instance py_stream : StreamWrapperBase P.
Proof.
  refine {| s_write := py_stream_write; s_seek := fun o p => Ok (py_seek o p); s_tell := py_tell; s_flush := fun p => p;
            s_read := py_stream_read; s_size := py_stream_size; contents := py_bytes; position := py_tell;
            stream_ok := fun _ => True |}.
  - intros p _. apply py_tell_nonneg.
  - intros p o _ Ho. destruct (py_seek_spec o p) as (H1 & H2 & H3); [lia|].
    exists (py_seek o p).2. split; [|done]. rewrite <- H1 at 2. by rewrite <- surjective_pairing.
  - done.
  - done.
  - intros p n _ Hn Hle. pose proof (py_tell_nonneg p).
    destruct (py_read_all_spec (S (Z.to_nat n)) n p) as (p' & E & Eb & Et); [lia|lia|].
    exists p'. split; [exact E|]. split; [done|]. split; [done|]. rewrite Et, length_take, length_drop. lia.
  - intros p _. destruct (py_seek_end_spec p) as [H1 H2]. pose proof (py_tell_nonneg p) as H0.
    destruct (py_seek_spec (py_tell p) (py_seek_end p) H0) as (H3 & H4 & H5).
    eexists. unfold py_stream_size. rewrite H1. split; [done|]. rewrite H5, H4, H2. done.
Defined.

#[export] Instance py_writable : WritableStream P.
Proof.
  split.
  - intros p bs _ Hp. destruct (py_write_all_spec (length bs) bs p) as (p' & E & ? & ?); [lia|done|].
    by exists p'.
  - intros p n _ Hn Hp bs.
    destruct (py_read_all_spec (S (Z.to_nat n)) n p) as (p' & E & Eb & Et); [lia|lia|]. by exists p'.
Qed.
End PythonLemmas.

(** ** Lemmas: the table file *)

Section TableFileLemmas.
Context {S : Type} `{St : StreamWrapperBase S}.

(** A stream at the boundary of [pre] and [rest]. *)
Definition at_split (s : S) (pre rest : list Z) : Prop :=
  stream_ok s /\ contents s = pre ++ rest /\ position s = Z.of_nat (length pre).

Lemma read_split s pre bs rest n :
  at_split s pre (bs ++ rest) -> n = Z.of_nat (length bs) ->
  exists s', s_read n s = Ok (bs, s') /\ at_split s' (pre ++ bs) rest.
Proof.
  intros (Hok & Hc & Hp) ->. destruct (read_law s (Z.of_nat (length bs))) as (s' & E & Hok' & Hc' & Hp'); [done|lia| |].
  { rewrite Hc, Hp, !length_app. lia. }
  exists s'. rewrite E, Hc, Hp, !Nat2Z.id, drop_app_length, take_app_length. split; [done|].
  split; [done|]. rewrite Hc', Hc, Hp', Hp, length_app, <- app_assoc. split; [done|lia].
Qed.

Lemma seek_split s pre rest pre' rest' o :
  at_split s pre rest -> pre ++ rest = pre' ++ rest' -> o = Z.of_nat (length pre') -> o < 2 ^ 63 ->
  exists s', s_seek o s = Ok (o, s') /\ at_split s' pre' rest'.
Proof.
  intros (Hok & Hc & Hp) E -> Ho. destruct (seek_law s (Z.of_nat (length pre'))) as (s' & Es & Hok' & Hc' & Hp'); [done|lia|].
  exists s'. split; [done|]. split; [done|]. by rewrite Hc', Hc.
Qed.

Definition header_bytes : list Z := le_bytes 4 MAGIC_NUMBER ++ le_bytes 4 VERSION_MAJOR ++ le_bytes 4 VERSION_MINOR.

Lemma read_value_split s pre n x rest :
  at_split s pre (le_bytes n x ++ rest) -> 0 <= x < 256 ^ Z.of_nat n ->
  exists s', read_value (Z.of_nat n) s = Ok (x, s') /\ at_split s' (pre ++ le_bytes n x) rest.
Proof.
  intros Hs Hx. destruct (read_split s pre (le_bytes n x) rest (Z.of_nat n) Hs) as (s' & E & Hs'); [by rewrite length_le_bytes|].
  exists s'. unfold read_value. rewrite E. cbn [obind fst snd]. rewrite length_le_bytes, Z.eqb_refl, le_value_bytes by done.
  done.
Qed.

Lemma verify_spec s rest :
  stream_ok s -> contents s = header_bytes ++ rest ->
  exists s', verify_table_header s = Ok (true, s') /\ at_split s' header_bytes rest.
Proof.
  intros Hok Hc. unfold verify_table_header. unfold header_bytes in Hc. rewrite <- !app_assoc in Hc.
  destruct (seek_law s 0 Hok ltac:(lia)) as (s0 & -> & Hok0 & Hc0 & Hp0). cbn [obind fst snd].
  assert (Hs0 : at_split s0 [] (le_bytes 4 MAGIC_NUMBER ++ le_bytes 4 VERSION_MAJOR ++ le_bytes 4 VERSION_MINOR ++ rest)).
  { split; [done|]. rewrite Hc0, Hc. done. }
  destruct (read_value_split s0 _ 4 MAGIC_NUMBER _ Hs0) as (s1 & E1 & H1); [done|].
  change (Z.of_nat 4) with 4 in E1. rewrite E1. cbn [obind fst snd].
  destruct (read_value_split s1 _ 4 VERSION_MAJOR _ H1) as (s2 & E2 & H2); [done|].
  change (Z.of_nat 4) with 4 in E2. rewrite E2. cbn [obind fst snd].
  destruct (read_value_split s2 _ 4 VERSION_MINOR _ H2) as (s3 & E3 & H3); [done|].
  change (Z.of_nat 4) with 4 in E3. rewrite E3. cbn [obind fst snd].
  exists s3. split; [done|]. unfold header_bytes. by rewrite !app_assoc, app_nil_l in *.
Qed.

(** A tensor that can be stored: its dimensions pass the checks and its data are there. *)
Definition tensor_ok (nt : Z * TensorWrapper) : Prop :=
  in_u 64 nt.1 /\ 0 <= t_row nt.2 /\ 0 <= t_col nt.2 /\ 0 <= t_element_size nt.2 /\ returns (get_key nt.1 nt.2) /\
  tensor_bytes nt.2 <= Z.of_nat (length (t_data nt.2)).

Definition entry_at (pos : Z) (nt : Z * TensorWrapper) : TableEntry :=
  {| e_key := match get_key nt.1 nt.2 with Ok k => k | _ => {| key1 := 0; key2 := 0 |} end;
     e_offset := tensor_bytes nt.2 + 32 + pos; e_length := tensor_bytes nt.2 |}.
Definition stored_data (t : TensorWrapper) : list Z := take (Z.to_nat (tensor_bytes t)) (t_data t).

(** The bytes of the tensors of a file, the first at offset [pos]. *)
Fixpoint records (pos : Z) (ts : list (Z * TensorWrapper)) : list Z :=
  match ts with
  | [] => []
  | nt :: ts => entry_bytes (entry_at pos nt) ++ stored_data nt.2 ++ records (pos + 32 + tensor_bytes nt.2) ts
  end.

Lemma tensor_bytes_nonneg t : 0 <= tensor_bytes t.
Proof. apply wrapu_range. lia. Qed.

Lemma length_stored nt : tensor_ok nt -> Z.of_nat (length (stored_data nt.2)) = tensor_bytes nt.2.
Proof.
  intros (_ & _ & _ & _ & _ & Hd). pose proof (tensor_bytes_nonneg nt.2). unfold stored_data.
  rewrite length_take. lia.
Qed.

Lemma entry_at_spec pos nt :
  tensor_ok nt -> 0 <= pos -> tensor_bytes nt.2 + 32 + pos < 2 ^ 63 ->
  get_key nt.1 nt.2 = Ok (e_key (entry_at pos nt)) /\ key2 (e_key (entry_at pos nt)) = nt.1 /\
  entry_of_bytes (entry_bytes (entry_at pos nt)) = entry_at pos nt.
Proof.
  intros (Hn & Hr & Hc & He & Hk & _) Hp Hl. pose proof (tensor_bytes_nonneg nt.2).
  destruct (get_key_spec _ _ Hr Hc He Hk) as (k & Ek & Hk2 & Hk1 & _). unfold entry_at. rewrite Ek. simpl.
  split; [done|]. split; [done|]. apply entry_roundtrip. unfold entry_in_range. simpl. rewrite Hk2.
  split; [done|]. split; [done|]. unfold in_u. lia.
Qed.
End TableFileLemmas.

Section WriteLemmas.
Context {S : Type} `{Wr : WritableStream S}.

Lemma write_split s pre rest bs :
  at_split s pre rest ->
  exists s', s_write bs s = Ok s' /\ at_split s' (pre ++ bs) (drop (length bs) rest).
Proof.
  intros (Hok & Hc & Hp). destruct (write_law s bs Hok) as (s' & E & Hok' & Hc' & Hp').
  { rewrite Hc, Hp, length_app. lia. }
  exists s'. split; [done|]. split; [done|].
  rewrite Hc', (overwritten_end _ _ _ rest pre Hc Hp), Hp', Hp, length_app. split; [done|lia].
Qed.

Lemma write_header_spec s :
  stream_ok s -> exists s', write_table_file_header s = Ok s' /\ at_split s' header_bytes (drop 12 (contents s)).
Proof.
  intros Hok. unfold write_table_file_header.
  destruct (seek_law s 0 Hok ltac:(lia)) as (s0 & -> & Hok0 & Hc0 & Hp0). cbn [obind fst snd].
  destruct (write_split s0 [] (contents s) (le_bytes 4 MAGIC_NUMBER)) as (s1 & -> & H1); [done|]. cbn [obind].
  destruct (write_split _ _ _ (le_bytes 4 VERSION_MAJOR) H1) as (s2 & -> & H2). cbn [obind].
  destruct (write_split _ _ _ (le_bytes 4 VERSION_MINOR) H2) as (s3 & -> & H3). cbn [obind].
  destruct H3 as (Hok3 & Hc3 & Hp3). destruct (flush_law s3 Hok3) as (Hok4 & Hc4 & Hp4).
  eexists. split; [done|]. split; [done|]. rewrite Hc4, Hp4, Hc3, Hp3, !drop_drop. done.
Qed.

Lemma write_tensor_spec s pre rest nt :
  at_split s pre rest -> tensor_ok nt -> tensor_bytes nt.2 + 32 + Z.of_nat (length pre) < 2 ^ 63 ->
  exists s', write_tensor_to_stream nt.1 nt.2 s = Ok s' /\
    at_split s' (pre ++ entry_bytes (entry_at (Z.of_nat (length pre)) nt) ++ stored_data nt.2)
      (drop (32 + length (stored_data nt.2)) rest).
Proof.
  intros Hs Hnt Hl. pose proof (tensor_bytes_nonneg nt.2) as H0.
  destruct (entry_at_spec (Z.of_nat (length pre)) nt Hnt ltac:(lia) Hl) as (Ek & _ & _).
  unfold write_tensor_to_stream. rewrite Ek. cbn [obind].
  rewrite (tell_law s (proj1 Hs)), (proj2 (proj2 Hs)).
  rewrite (wrapu_small 64 (tensor_bytes nt.2 + 32 + Z.of_nat (length pre))) by (unfold in_u; lia).
  destruct (write_split s pre rest (entry_bytes (entry_at (Z.of_nat (length pre)) nt)) Hs) as (s1 & E1 & H1).
  rewrite length_entry_bytes in H1. unfold entry_at in E1. rewrite Ek in E1. rewrite E1. cbn [obind].
  rewrite (proj2 (Z.ltb_ge _ _)) by apply Hnt.
  destruct (write_split _ _ _ (stored_data nt.2) H1) as (s2 & E2 & Hok2 & Hc2 & Hp2). unfold stored_data in E2.
  rewrite E2. cbn [obind]. destruct (flush_law s2 Hok2) as (Hok3 & Hc3 & Hp3).
  eexists. split; [done|]. split; [done|]. rewrite Hc3, Hp3, Hc2, Hp2, drop_drop, <- !app_assoc. done.
Qed.

(** Size of a file that holds the tensors after its first [pos] bytes. *)
Definition file_size (pos : Z) (ts : list (Z * TensorWrapper)) : Z :=
  pos + Z.of_nat (length (records pos ts)).

Lemma file_size_cons pos nt ts :
  tensor_ok nt -> file_size pos (nt :: ts) = file_size (pos + 32 + tensor_bytes nt.2) ts.
Proof.
  intros Hnt. unfold file_size. cbn [records]. rewrite !length_app, length_entry_bytes.
  pose proof (length_stored nt Hnt). lia.
Qed.

Lemma file_size_ge pos ts : pos <= file_size pos ts.
Proof. unfold file_size. lia. Qed.

Lemma write_tensors_spec ts : forall s pre rest,
  at_split s pre rest -> Forall tensor_ok ts -> file_size (Z.of_nat (length pre)) ts < 2 ^ 63 ->
  exists s', write_tensors ts s = Ok s' /\
    at_split s' (pre ++ records (Z.of_nat (length pre)) ts) (drop (length (records (Z.of_nat (length pre)) ts)) rest).
Proof.
  induction ts as [|nt ts IH]; intros s pre rest Hs Hts Hl.
  { exists s. split; [done|]. simpl. by rewrite app_nil_r. }
  apply Forall_cons in Hts as [Hnt Hts]. rewrite file_size_cons in Hl by done.
  pose proof (file_size_ge (Z.of_nat (length pre) + 32 + tensor_bytes nt.2) ts).
  destruct (write_tensor_spec s pre rest nt Hs Hnt) as (s1 & E1 & H1); [lia|].
  cbn [write_tensors]. rewrite E1. cbn [obind]. pose proof (length_stored nt Hnt) as Hst.
  assert (Hlen : Z.of_nat (length (pre ++ entry_bytes (entry_at (Z.of_nat (length pre)) nt) ++ stored_data nt.2)) =
    Z.of_nat (length pre) + 32 + tensor_bytes nt.2) by (rewrite !length_app, length_entry_bytes; lia).
  destruct (IH s1 _ _ H1 Hts) as (s2 & E2 & H2); [by rewrite Hlen|].
  exists s2. split; [exact E2|]. rewrite Hlen in H2. cbn [records]. rewrite <- !app_assoc in H2.
  rewrite drop_drop in H2. rewrite !length_app, length_entry_bytes.
  replace (32 + (length (stored_data nt.2) + length (records (Z.of_nat (length pre) + 32 + tensor_bytes nt.2) ts)))%nat
    with (32 + length (stored_data nt.2) + length (records (Z.of_nat (length pre) + 32 + tensor_bytes nt.2) ts))%nat by lia.
  exact H2.
Qed.
End WriteLemmas.

(** ** Round trip of the table file *)

Section Load.
Context {S : Type} `{St : StreamWrapperBase S}.

(** The rest of [load_tensor_from_stream] at the start of an entry. *)
Definition load_from (fuel : nat) (name : Z) (t : TensorWrapper) (s : S) : option (outcome (TensorWrapper * S)) :=
  match s_read 32 s with
  | Ok r => load_loop fuel name (tensor_bytes t) t r.1 r.2
  | Throw e => Some (Throw e)
  | Undef e => Some (Undef e)
  end.

Lemma load_tensor_unfold fuel name t s rest :
  stream_ok s -> contents s = header_bytes ++ rest ->
  exists s', at_split s' header_bytes rest /\ load_tensor_from_stream fuel name t s = load_from fuel name t s'.
Proof.
  intros Hok Hc. destruct (verify_spec s rest Hok Hc) as (s' & E & Hs'). exists s'. split; [done|].
  unfold load_tensor_from_stream. rewrite E. done.
Qed.

(** One entry: it is the wanted one, or the next entry is looked at. *)
Lemma load_from_step fuel name t s pre nt ts rest :
  at_split s pre (records (Z.of_nat (length pre)) (nt :: ts) ++ rest) -> tensor_ok nt ->
  tensor_bytes nt.2 + 32 + Z.of_nat (length pre) < 2 ^ 63 ->
  if nt.1 =? name then
    load_from (Datatypes.S fuel) name t s =
      Some (check! tensor_bytes nt.2 =? tensor_bytes t as "Incorrect tensor size" in
            if Z.of_nat (length (t_data t)) <? tensor_bytes nt.2 then Undef "write past the end of the tensor"
            else Ok (with_data t (stored_data nt.2), match s_read (tensor_bytes nt.2)
              match s_read 32 s with Ok r => r.2 | _ => s end with Ok r => r.2 | _ => s end))
  else exists s' pre', Z.of_nat (length pre') = Z.of_nat (length pre) + 32 + tensor_bytes nt.2 /\
    at_split s' pre' (records (Z.of_nat (length pre')) ts ++ rest) /\
    load_from (Datatypes.S fuel) name t s = load_from fuel name t s'.
Proof.
  intros Hs Hnt Hl. pose proof (tensor_bytes_nonneg nt.2) as H0. pose proof (length_stored nt Hnt) as Hst.
  destruct (entry_at_spec (Z.of_nat (length pre)) nt Hnt ltac:(lia) Hl) as (_ & Hname & Hent).
  cbn [records] in Hs. rewrite <- !app_assoc in Hs. set (eb := entry_bytes (entry_at (Z.of_nat (length pre)) nt)) in *.
  assert (Heb : length eb = 32%nat) by apply length_entry_bytes.
  destruct (read_split s pre eb _ 32 Hs) as (s1 & E1 & H1); [by rewrite Heb|].
  assert (Hload : load_from (Datatypes.S fuel) name t s = load_loop (Datatypes.S fuel) name (tensor_bytes t) t eb s1)
    by (unfold load_from; by rewrite E1).
  assert (Hloop : load_loop (Datatypes.S fuel) name (tensor_bytes t) t eb s1 =
    if nt.1 =? name then
      Some (check! tensor_bytes nt.2 =? tensor_bytes t as "Incorrect tensor size" in
            if Z.of_nat (length (t_data t)) <? tensor_bytes nt.2 then Undef "write past the end of the tensor"
            else let! r := s_read (tensor_bytes nt.2) s1 in
                 check! Z.of_nat (length r.1) =? tensor_bytes nt.2 as "Problem reading tensor" in
                 Ok (with_data t r.1, r.2))
    else match (let! r := s_seek (tensor_bytes nt.2 + 32 + Z.of_nat (length pre)) s1 in s_read 32 r.2) with
         | Ok r => load_loop fuel name (tensor_bytes t) t r.1 r.2
         | Throw e => Some (Throw e) | Undef e => Some (Undef e) end).
  { destruct eb as [|b0 bs]; [done|]. cbn [load_loop]. rewrite Heb. change (negb (Z.of_nat 32 =? 32)) with false. cbv iota.
    rewrite Hent. unfold get_name_from_key. by rewrite Hname. }
  rewrite Hload, Hloop, E1. cbn [fst snd]. destruct (Z.eqb_spec nt.1 name) as [En|En].
  - destruct (tensor_bytes nt.2 =? tensor_bytes t); [|done]. destruct (_ <? _); [done|].
    destruct (read_split s1 _ (stored_data nt.2) _ (tensor_bytes nt.2) H1) as (s2 & E2 & H2); [done|].
    rewrite E2. cbn [obind fst snd]. by rewrite Hst, Z.eqb_refl.
  - set (pre' := pre ++ eb ++ stored_data nt.2).
    assert (Hp' : Z.of_nat (length pre') = Z.of_nat (length pre) + 32 + tensor_bytes nt.2)
      by (unfold pre'; rewrite !length_app, Heb; lia).
    destruct (seek_split s1 _ _ pre' (records (Z.of_nat (length pre) + 32 + tensor_bytes nt.2) ts ++ rest)
      (tensor_bytes nt.2 + 32 + Z.of_nat (length pre)) H1) as (s2 & E2 & H2); [|lia|lia|].
    { unfold pre'. by rewrite <- !app_assoc. }
    exists s2, pre'. split; [done|]. rewrite Hp'. split; [done|]. rewrite E2. done.
Qed.

(** What loading [name] does on a file that holds [ts]. *)
Lemma load_from_spec ts : forall fuel name t s pre rest nt,
  at_split s pre (records (Z.of_nat (length pre)) ts ++ rest) -> Forall tensor_ok ts ->
  file_size (Z.of_nat (length pre)) ts < 2 ^ 63 -> (length ts <= fuel)%nat ->
  List.find (fun nt => nt.1 =? name) ts = Some nt -> tensor_bytes t <= Z.of_nat (length (t_data t)) ->
  if tensor_bytes nt.2 =? tensor_bytes t
  then exists s', load_from fuel name t s = Some (Ok (with_data t (stored_data nt.2), s'))
  else load_from fuel name t s = Some (Throw "Incorrect tensor size").
Proof.
  induction ts as [|nt0 ts IH]; intros fuel name t s pre rest nt Hs Hts Hl Hf Hfind Hd; [done|].
  apply Forall_cons in Hts as [Hnt Hts]. rewrite file_size_cons in Hl by done.
  pose proof (file_size_ge (Z.of_nat (length pre) + 32 + tensor_bytes nt0.2) ts).
  destruct fuel as [|fuel]; [simpl in Hf; lia|].
  pose proof (load_from_step fuel name t s pre nt0 ts rest Hs Hnt ltac:(lia)) as Hstep.
  simpl in Hfind. destruct (nt0.1 =? name).
  - injection Hfind as <-. destruct (Z.eqb_spec (tensor_bytes nt0.2) (tensor_bytes t)) as [E|E]; [|done].
    rewrite (proj2 (Z.ltb_ge _ _)) in Hstep by lia. eexists. exact Hstep.
  - destruct Hstep as (s' & pre' & Hp' & Hs' & ->). apply (IH fuel name t s' pre' rest nt); try done.
    + by rewrite Hp'.
    + simpl in Hf. lia.
Qed.
End Load.

Section LoadMissing.
Context {S : Type} `{Wr : WritableStream S}.

Lemma load_from_missing ts : forall fuel name t (s : S) pre,
  at_split s pre (records (Z.of_nat (length pre)) ts ++ []) -> Forall tensor_ok ts ->
  file_size (Z.of_nat (length pre)) ts < 2 ^ 63 -> (length ts <= fuel)%nat ->
  List.find (fun nt => nt.1 =? name) ts = None ->
  exists s', load_from fuel name t s = Some (Ok (t, s')).
Proof.
  induction ts as [|nt0 ts IH]; intros fuel name t s pre Hs Hts Hl Hf Hfind.
  { destruct Hs as (Hok & Hc & Hp). simpl in Hc. rewrite app_nil_r in Hc.
    destruct (short_read_law s 32 Hok) as (s' & E & _); [lia|rewrite Hc; lia|].
    rewrite drop_ge in E by (rewrite Hc, Hp; lia). exists s'. unfold load_from. rewrite E. by destruct fuel. }
  apply Forall_cons in Hts as [Hnt Hts]. rewrite file_size_cons in Hl by done.
  pose proof (file_size_ge (Z.of_nat (length pre) + 32 + tensor_bytes nt0.2) ts).
  destruct fuel as [|fuel]; [simpl in Hf; lia|].
  pose proof (load_from_step fuel name t s pre nt0 ts [] Hs Hnt ltac:(lia)) as Hstep.
  simpl in Hfind. destruct (nt0.1 =? name); [done|].
  destruct Hstep as (s' & pre' & Hp' & Hs' & ->). apply (IH fuel name t s' pre'); try done.
  - by rewrite Hp'.
  - simpl in Hf. lia.
Qed.

(** Writing tensors after a header and loading one of them by name. *)
Lemma tensor_file_roundtrip_lemma (s : S) (ts : list (Z * TensorWrapper)) (name : Z) (t : TensorWrapper) (fuel : nat) :
  stream_ok s -> Forall tensor_ok ts -> file_size 12 ts < 2 ^ 63 -> (length ts <= fuel)%nat ->
  tensor_bytes t <= Z.of_nat (length (t_data t)) ->
  exists s', (let! s := write_table_file_header s in write_tensors ts s) = Ok s' /\
    match List.find (fun nt => nt.1 =? name) ts with
    | Some nt =>
        if tensor_bytes nt.2 =? tensor_bytes t
        then exists s'', load_tensor_from_stream fuel name t s' = Some (Ok (with_data t (stored_data nt.2), s''))
        else load_tensor_from_stream fuel name t s' = Some (Throw "Incorrect tensor size")
    | None => contents s = [] -> exists s'', load_tensor_from_stream fuel name t s' = Some (Ok (t, s''))
    end.
Proof.
  intros Hok Hts Hl Hf Hd. destruct (write_header_spec s Hok) as (s1 & -> & H1). cbn [obind].
  destruct (write_tensors_spec ts s1 header_bytes _ H1 Hts Hl) as (s2 & E2 & H2).
  exists s2. split; [exact E2|]. destruct H2 as (Hok2 & Hc2 & _). rewrite <- app_assoc in Hc2.
  destruct (load_tensor_unfold fuel name t s2 _ Hok2 Hc2) as (s3 & H3 & ->).
  destruct (List.find _ ts) as [nt|] eqn:Hfind.
  - exact (load_from_spec ts fuel name t s3 header_bytes _ nt H3 Hts Hl Hf Hfind Hd).
  - intros He. rewrite He in H3. rewrite !drop_nil in H3.
    exact (load_from_missing ts fuel name t s3 header_bytes H3 Hts Hl Hf Hfind).
Qed.

(** C31. Writing a header and any list of tensors that pass the size checks to a stream and
    loading one of them by name from the result: the writes succeed, and the load
    ends, within one round per tensor, with the data of the first tensor of that name
    when the sizes agree and with an exception when they do not. A name that is not in
    the file is not reported: the load returns and leaves the tensor as it was. The
    statement holds for every implementation of the stream interface. *)
Theorem tensor_file_roundtrip (s : S) (ts : list (Z * TensorWrapper)) (name : Z) (t : TensorWrapper) (fuel : nat) :
  stream_ok s -> Forall tensor_ok ts -> file_size 12 ts < 2 ^ 63 -> (length ts <= fuel)%nat ->
  tensor_bytes t <= Z.of_nat (length (t_data t)) ->
  exists s', (let! s := write_table_file_header s in write_tensors ts s) = Ok s' /\
    match List.find (fun nt => nt.1 =? name) ts with
    | Some nt =>
        if tensor_bytes nt.2 =? tensor_bytes t
        then exists s'', load_tensor_from_stream fuel name t s' = Some (Ok (with_data t (stored_data nt.2), s''))
        else load_tensor_from_stream fuel name t s' = Some (Throw "Incorrect tensor size")
    | None => contents s = [] -> exists s'', load_tensor_from_stream fuel name t s' = Some (Ok (t, s''))
    end.
Proof. apply tensor_file_roundtrip_lemma. Qed.
End LoadMissing.

(** ** Batches of raw rows *)

Lemma read_until_S {S} `{StreamWrapperBase S} fuel total got (s : S) :
  read_until (Datatypes.S fuel) total got s =
  if Z.of_nat (length got) <? total then
    match s_read (total - Z.of_nat (length got)) s with
    | Ok r => read_until fuel total (got ++ r.1) r.2
    | Throw e => Some (Throw e)
    | Undef e => Some (Undef e)
    end
  else Some (Ok (got, s)).
Proof. done. Qed.

Lemma read_until_O {S} `{StreamWrapperBase S} total got (s : S) :
  Z.of_nat (length got) < total -> read_until 0 total got s = None.
Proof. intros Ht. simpl. by rewrite (proj2 (Z.ltb_lt _ _)). Qed.

Lemma read_until_done {S} `{StreamWrapperBase S} fuel total got (s : S) :
  total <= Z.of_nat (length got) -> read_until fuel total got s = Some (Ok (got, s)).
Proof. intros Ht. destruct fuel; simpl; by rewrite (proj2 (Z.ltb_ge _ _)). Qed.

(** Within the stream one round of [read_until] is enough. *)
Lemma read_until_spec {S} `{StreamWrapperBase S} (s : S) pre bs rest total :
  at_split s pre (bs ++ rest) -> total = Z.of_nat (length bs) ->
  exists s', at_split s' (pre ++ bs) rest /\
    forall fuel, (1 <= fuel)%nat -> read_until fuel total [] s = Some (Ok (bs, s')).
Proof.
  intros Hs ->. destruct bs as [|b bs].
  { exists s. rewrite app_nil_r. split; [done|]. intros fuel _. by apply read_until_done. }
  set (l := b :: bs) in *. destruct (read_split s pre l rest (Z.of_nat (length l)) Hs) as (s' & E & H'); [done|].
  exists s'. split; [done|]. intros [|fuel] Hf; [lia|]. rewrite read_until_S. cbn [length Z.of_nat].
  rewrite (proj2 (Z.ltb_lt 0 _)), Z.sub_0_r, E by (unfold l; simpl; lia). by apply read_until_done.
Qed.

Section Batches.
Context {S : Type} `{Se : StreamEnd S}.

(** At the end of a stream that reads less every round reads nothing. *)
Lemma read_until_at_end fuel : at_end = ReadsLess -> forall (s : S) got total,
  stream_ok s -> position s = Z.of_nat (length (contents s)) -> Z.of_nat (length got) < total ->
  read_until fuel total got s = None.
Proof.
  intros He. induction fuel as [|fuel IH]; intros s got total Hok Hp Hg.
  { by apply read_until_O. }
  rewrite read_until_S, (proj2 (Z.ltb_lt _ _)) by done.
  pose proof (end_law s (total - Z.of_nat (length got)) Hok ltac:(lia)) as Hend. rewrite He in Hend.
  destruct Hend as (s' & -> & Hok' & Hc' & Hp').
  cbn [fst snd]. rewrite drop_ge, app_nil_r by lia. apply IH; [done| |done]. by rewrite Hc', Hp'.
Qed.

(** C38. [load_batch] of a raw binary file: when the stream still holds the rows, it returns
    exactly the next [batch] rows after one read and stands behind them. When it holds
    fewer, it depends on how the stream reports its end: over a stream that reads less, as
    the Python stream does, the loop never ends, whatever number of rounds it is given;
    over one that throws, as the file stream does, it throws. *)
Theorem load_batch_exact_or_diverges (b : binary_format (S := S)) (batch : Z) :
  stream_ok (b_stream b) -> 0 <= batch -> 0 <= row_size_ b -> batch * row_size_ b < 2 ^ 64 ->
  let s := b_stream b in
  let rest := drop (Z.to_nat (position s)) (contents s) in
  position s <= Z.of_nat (length (contents s)) ->
  if batch * row_size_ b <=? Z.of_nat (length rest) then
    exists b', (forall fuel, (1 <= fuel)%nat ->
        binary_load_batch fuel batch b = Some (Ok (take (Z.to_nat (batch * row_size_ b)) rest, b'))) /\
      position (b_stream b') = position s + batch * row_size_ b /\ contents (b_stream b') = contents s
  else
    match at_end with
    | ReadsLess => forall fuel, binary_load_batch fuel batch b = None
    | ThrowsAtEnd e => forall fuel, (1 <= fuel)%nat -> binary_load_batch fuel batch b = Some (Throw e)
    end.
Proof.
  intros Hok Hb Hr Hw s rest Hp. pose proof (position_nonneg s Hok) as Hp0. unfold binary_load_batch. fold s.
  rewrite (wrapu_small 64 (batch * row_size_ b)) by (unfold in_u; nia). set (total := batch * row_size_ b) in *.
  assert (Ht : 0 <= total) by (unfold total; nia).
  assert (Hsplit : at_split s (take (Z.to_nat (position s)) (contents s)) rest).
  { split; [done|]. unfold rest. rewrite take_drop, length_take. split; [done|lia]. }
  destruct (Z.leb_spec total (Z.of_nat (length rest))) as [Hle|Hgt].
  - rewrite <- (take_drop (Z.to_nat total) rest) in Hsplit.
    destruct (read_until_spec s _ _ _ total Hsplit) as (s' & (Hok' & Hc' & Hp') & E); [rewrite length_take; lia|].
    exists {| b_stream := s'; row_size_ := row_size_ b |}. split.
    + intros fuel Hf. by rewrite (E fuel Hf).
    + simpl. rewrite Hc', Hp'. unfold rest in *. rewrite length_drop in Hle.
      rewrite !length_app, !length_take, length_drop. split; [lia|]. by rewrite <- app_assoc, !take_drop.
  - pose proof (end_law s total Hok) as Hend. unfold rest in Hgt. rewrite length_drop in Hgt. specialize (Hend ltac:(lia)).
    destruct at_end as [|e] eqn:He.
    + intros fuel. destruct fuel as [|fuel]; [by rewrite read_until_O by (simpl; lia)|].
      rewrite read_until_S. change (Z.of_nat (length [])) with 0. rewrite (proj2 (Z.ltb_lt 0 total)), Z.sub_0_r by lia.
      destruct Hend as (s' & -> & Hok' & Hc' & Hp'). cbn [app fst snd]. rewrite read_until_at_end; [done|done|done| |].
      * by rewrite Hc', Hp'.
      * rewrite length_drop. lia.
    + intros [|fuel] Hf; [lia|]. rewrite read_until_S. change (Z.of_nat (length [])) with 0.
      by rewrite (proj2 (Z.ltb_lt 0 total)), Z.sub_0_r, Hend by lia.
Qed.
End Batches.

(** ** NumPy files

    What [numpy.save] writes: the magic number, version 1.0, the length of the header,
    the header as the text of a Python dictionary, the data. *)

Fixpoint dec (fuel : nat) (n : Z) : list Z :=
  match fuel with
  | O => []
  | S fuel => (if n <? 10 then [] else dec fuel (n / 10)) ++ [48 + n mod 10]
  end.
Definition dim_text (n : Z) : list Z := dec 20 n.
Fixpoint tail_text (l : list Z) : list Z :=
  match l with [] => [] | b :: l => 44 :: 32 :: dim_text b ++ tail_text l end.
Definition dims_text (shape : list Z) : list Z :=
  match shape with
  | [] => []
  | [a] => dim_text a ++ [44]
  | a :: l => dim_text a ++ tail_text l
  end.

Inductive npy_dtype := F4 | F8 | I4 | I8.
Definition npy_descr (d : npy_dtype) : list Z :=
  codes match d with F4 => "<f4" | F8 => "<f8" | I4 => "<i4" | I8 => "<i8" end.
Definition npy_size (d : npy_dtype) : Z := match d with F4 | I4 => 4 | F8 | I8 => 8 end.

Definition npy_header (d : npy_dtype) (fortran : bool) (shape pad : list Z) : list Z :=
  codes "{'descr': '" ++ npy_descr d ++ codes "', 'fortran_order': " ++ codes (if fortran then "True" else "False") ++
  codes ", 'shape': (" ++ dims_text shape ++ codes "), }" ++ pad.
Definition npy_file (header data : list Z) : list Z :=
  NPY_MAGIC_NUMBER ++ [1] ++ [0] ++ le_bytes 2 (Z.of_nat (length header)) ++ header ++ data.

Lemma dec_spec fuel n :
  0 <= n < 10 ^ Z.of_nat fuel -> (1 <= fuel)%nat ->
  decimal (dec fuel n) = n /\ Forall (fun c => is_digit c = true) (dec fuel n) /\ dec fuel n <> [].
Proof.
  revert n. induction fuel as [|fuel IH]; intros n Hn Hf; [lia|]. cbn [dec].
  assert (Hd : is_digit (48 + n mod 10) = true).
  { unfold is_digit. pose proof (Z.mod_pos_bound n 10). apply andb_true_intro. split; apply Z.leb_le; lia. }
  split_and!; [|apply Forall_app; split; [|by apply Forall_singleton]|by intros [_ ?]%app_eq_nil].
  - unfold decimal. rewrite fold_left_app. cbn [fold_left]. pose proof (Z.div_mod n 10).
    destruct (Z.ltb_spec n 10) as [Hlt|Hge]; [cbn [fold_left]; rewrite Z.mod_small by lia; lia|].
    rewrite Nat2Z.inj_succ, Z.pow_succ_r in Hn by lia.
    destruct (IH (n / 10)) as [E _]; [split; [apply Z.div_pos|apply Z.div_lt_upper_bound]; lia| |].
    { destruct fuel; [simpl in Hn; lia|lia]. }
    unfold decimal in E. rewrite E. lia.
  - destruct (Z.ltb_spec n 10) as [Hlt|Hge]; [by apply Forall_nil|].
    rewrite Nat2Z.inj_succ, Z.pow_succ_r in Hn by lia.
    apply IH; [split; [apply Z.div_pos|apply Z.div_lt_upper_bound]; lia|].
    destruct fuel; [simpl in Hn; lia|lia].
Qed.

Lemma dim_text_spec n :
  in_u 64 n -> decimal (dim_text n) = n /\ Forall (fun c => is_digit c = true) (dim_text n) /\ dim_text n <> [].
Proof. intros Hn. apply dec_spec; [|lia]. unfold in_u in Hn. lia. Qed.

Lemma digits_all l : Forall (fun c => is_digit c = true) l -> digits l = l.
Proof. induction 1 as [|c l Hc Hl IH]; simpl; [done|]. by rewrite Hc, IH. Qed.

Lemma stoul_digits l n :
  Forall (fun c => is_digit c = true) l -> l <> [] -> decimal l = n -> in_u 64 n ->
  stoul l = Some n /\ stoul (32 :: l) = Some n.
Proof.
  intros Hl Hne Hd Hn. destruct l as [|c l]; [done|]. pose proof Hl as [Hc Hl']%Forall_cons.
  assert (Hr : 48 <= c <= 57) by (unfold is_digit in Hc; lia).
  assert (Hsp : is_space c = false) by (unfold is_space; lia).
  assert (E : stoul (c :: l) = Some n).
  { unfold stoul. cbn [skip_spaces]. rewrite Hsp.
    assert ((c =? 45) = false /\ (c =? 43) = false) as [E1 E2] by lia.
    rewrite <- Hd in Hn |- *. unfold in_u in Hn.
    assert (Hdig : digits (c :: l) = c :: l) by by apply digits_all.
    replace (match c with 45 => true | _ => false end) with false by (destruct c as [|p|p]; [done|repeat (destruct p; try done; try lia)|done]).
    replace (match c :: l with 45 :: l' | 43 :: l' => l' | _ => c :: l end) with (c :: l)
      by (destruct c as [|p|p]; [done|repeat (destruct p; try done; try lia)|done]).
    rewrite Hdig. rewrite (proj2 (Z.ltb_lt _ _)) by lia. done. }
  split; [done|]. unfold stoul in *. cbn [skip_spaces]. change (is_space 32) with true. cbn iota. exact E.
Qed.

Lemma until_app c l rest :
  Forall (fun x => x <> c) l -> until c (l ++ c :: rest) = (l, c :: rest).
Proof.
  induction 1 as [|x l Hx Hl IH]; simpl; [by rewrite Z.eqb_refl|].
  rewrite (proj2 (Z.eqb_neq _ _)) by done. by rewrite IH.
Qed.

Lemma until_all c l : Forall (fun x => x <> c) l -> until c l = (l, []).
Proof.
  induction 1 as [|x l Hx Hl IH]; simpl; [done|]. rewrite (proj2 (Z.eqb_neq _ _)) by done. by rewrite IH.
Qed.

Lemma digit_not c l : is_digit c = false -> Forall (fun c => is_digit c = true) l -> Forall (fun x => x <> c) l.
Proof. intros Hc Hl. eapply Forall_impl; [done|]. cbn beta. intros x Hx ->. congruence. Qed.

Lemma getlines_dims l : forall fuel pre,
  Forall (fun x => x <> 44) pre -> pre <> [] -> Forall (in_u 64) l ->
  (length (pre ++ tail_text l) <= fuel)%nat ->
  getlines fuel (pre ++ tail_text l) = pre :: ((fun b => 32 :: dim_text b) <$> l).
Proof.
  induction l as [|b l IH]; intros fuel pre Hpre Hne Hl Hf.
  - cbn [tail_text fmap list_fmap] in *. rewrite app_nil_r in *. destruct fuel, pre; simpl in Hf; try lia; try done.
    cbn [getlines]. by rewrite until_all.
  - apply Forall_cons in Hl as [Hb Hl]. cbn [tail_text] in *.
    destruct fuel as [|fuel]; [rewrite length_app in Hf; simpl in Hf; lia|].
    change (32 :: dim_text b ++ tail_text l) with ((32 :: dim_text b) ++ tail_text l) in *.
    destruct pre as [|c pre]; [done|]. cbn [getlines app].
    change (c :: pre ++ 44 :: ?x) with ((c :: pre) ++ 44 :: x). rewrite until_app by done. cbn [fst snd].
    destruct (dim_text_spec b Hb) as (_ & Hd & _).
    change (32 :: dim_text b ++ tail_text l) with ((32 :: dim_text b) ++ tail_text l).
    rewrite IH; [done| |done|done|].
    + apply Forall_cons. split; [done|]. by apply digit_not.
    + rewrite length_app in Hf. cbn [length] in Hf. lia.
Qed.

(** The dimensions come back from the text of the shape. *)
Lemma dims_roundtrip shape :
  Forall (in_u 64) shape -> omap stoul (getlines (length (dims_text shape)) (dims_text shape)) = shape.
Proof.
  intros Hs. destruct shape as [|a [|b l]]; [done| |].
  - pose proof (proj1 (Forall_singleton _ _) Hs) as Ha. destruct (dim_text_spec a Ha) as (Hd & Hdig & Hne).
    destruct (stoul_digits _ a Hdig Hne Hd Ha) as [E _].
    unfold dims_text. destruct (dim_text a) as [|c t] eqn:Et; [done|]. cbn [app length getlines].
    change (c :: t ++ [44]) with ((c :: t) ++ 44 :: []). rewrite until_app by by apply digit_not. cbn [fst snd].
    destruct (length (t ++ [44])); cbn [getlines omap list_omap]; by rewrite E.
  - apply Forall_cons in Hs as [Ha Hl]. destruct (dim_text_spec a Ha) as (Hd & Hdig & Hne).
    destruct (stoul_digits _ a Hdig Hne Hd Ha) as [E _]. unfold dims_text.
    rewrite getlines_dims; [|by apply digit_not|done|done|done]. cbn [omap list_omap]. rewrite E. f_equal.
    clear -Hl. induction Hl as [|c l' Hc Hl IH]; [done|]. cbn [fmap list_fmap omap list_omap].
    destruct (dim_text_spec c Hc) as (Hd & Hdig & Hne). destruct (stoul_digits _ c Hdig Hne Hd Hc) as [_ ->].
    f_equal. exact IH.
Qed.

Lemma dims_no_paren shape : Forall (in_u 64) shape -> Forall (fun x => x <> 41) (dims_text shape).
Proof.
  intros Hs. destruct shape as [|a [|b l]]; [by apply Forall_nil| |].
  - pose proof (proj1 (Forall_singleton _ _) Hs) as Ha. apply Forall_app. split; [|by apply Forall_singleton].
    apply digit_not; [done|]. by apply dim_text_spec.
  - apply Forall_cons in Hs as [Ha Hl]. unfold dims_text. apply Forall_app. split.
    + apply digit_not; [done|]. by apply dim_text_spec.
    + induction Hl as [|c l' Hc Hl IH]; [by apply Forall_nil|]. cbn [tail_text].
      apply Forall_cons. split; [done|]. apply Forall_cons. split; [done|]. apply Forall_app. split; [|exact IH].
      apply digit_not; [done|]. by apply dim_text_spec.
Qed.

Lemma parse_header_roundtrip d fortran sh pad :
  Forall (in_u 64) sh ->
  parse_header (npy_header d fortran sh pad) =
    Ok {| dtype_size_in_bytes := npy_size d; shape := sh; fortran_order := fortran |}.
Proof.
  intros Hs. unfold parse_header, npy_header.
  assert (Hshape : search match_shape (codes "{'descr': '" ++ npy_descr d ++ codes "', 'fortran_order': " ++
    codes (if fortran then "True" else "False") ++ codes ", 'shape': (" ++ dims_text sh ++ codes "), }" ++ pad) =
    Some (dims_text sh)).
  { assert (Hu : until 41 (dims_text sh ++ codes "), }" ++ pad) = (dims_text sh, 41 :: codes ", }" ++ pad))
      by by apply (until_app 41 _ (codes ", }" ++ pad)), dims_no_paren.
    revert Hu. generalize (dims_text sh ++ codes "), }" ++ pad) as tl. generalize (dims_text sh) as dt.
    intros dt tl Hu. destruct d, fortran; lazy -[until]; by rewrite Hu. }
  rewrite Hshape, dims_roundtrip by done. by destruct d, fortran.
Qed.

Section NumpyRoundtrip.
Context {S : Type} `{St : StreamWrapperBase S}.

Lemma read_exactly_split (s : S) pre bs rest n what :
  at_split s pre (bs ++ rest) -> n = Z.of_nat (length bs) ->
  exists s', read_exactly n what s = Ok (bs, s') /\ at_split s' (pre ++ bs) rest.
Proof.
  intros Hs Hn. destruct (read_split s pre bs rest n Hs Hn) as (s' & E & H'). exists s'. split; [|done].
  unfold read_exactly. rewrite E. cbn [obind fst]. by rewrite Hn, Z.eqb_refl.
Qed.

Lemma load_header_spec (s : S) header data h :
  stream_ok s -> contents s = npy_file header data -> Z.of_nat (length header) < 2 ^ 16 ->
  parse_header header = Ok h ->
  exists s' offset, load_header s = Ok (h, offset, s') /\
    at_split s' (take (length (npy_file header [])) (npy_file header data)) data.
Proof.
  intros Hok Hc Hl Hparse. unfold load_header.
  destruct (seek_law s 0 Hok ltac:(lia)) as (s0 & -> & Hok0 & Hc0 & Hp0). cbn [obind fst snd].
  assert (H0 : at_split s0 [] (npy_file header data)) by (split; [done|]; by rewrite Hc0, Hc).
  destruct (read_exactly_split s0 _ _ _ 6 "Problem reading numpy magic number" H0) as (s1 & -> & H1); [done|].
  cbn [obind fst snd]. rewrite bool_decide_true by done.
  destruct (read_exactly_split s1 _ _ _ 1 "Problem reading numpy major version" H1) as (s2 & -> & H2); [done|].
  cbn [obind fst snd].
  destruct (read_exactly_split s2 _ _ _ 1 "Problem reading numpy minor version" H2) as (s3 & -> & H3); [done|].
  cbn [obind fst snd]. rewrite (bool_decide_true ([1] = [1])), (bool_decide_true ([0] = [0])) by done. cbn [andb obind].
  destruct (read_exactly_split s3 _ _ _ 2 "Problem reading numpy header length" H3) as (s4 & -> & H4);
    [by rewrite length_le_bytes|]. cbn [obind fst snd]. rewrite le_value_bytes by lia.
  destruct (read_exactly_split s4 _ _ _ (Z.of_nat (length header)) "Problem reading numpy header" H4) as (s5 & -> & H5); [done|].
  cbn [obind fst snd]. rewrite Hparse. cbn [obind]. rewrite (tell_law s5 (proj1 H5)), (proj2 (proj2 H5)).
  assert (Hlen : Z.of_nat (length (((((([] ++ NPY_MAGIC_NUMBER) ++ [1]) ++ [0]) ++
     le_bytes 2 (Z.of_nat (length header))) ++ header))) = Z.of_nat (length header) + 6 + 1 + 1 + 2).
  { rewrite !length_app, length_le_bytes. cbn [length]. change (length NPY_MAGIC_NUMBER) with 6%nat. lia. }
  rewrite Hlen, Z.eqb_refl. eexists s5, _. split; [done|].
  replace (take (length (npy_file header [])) (npy_file header data)) with
    ((((([] ++ NPY_MAGIC_NUMBER) ++ [1]) ++ [0]) ++ le_bytes 2 (Z.of_nat (length header))) ++ header); [done|].
  assert (Efile : npy_file header data = npy_file header [] ++ data)
    by (unfold npy_file; rewrite app_nil_r, <- !app_assoc; done).
  rewrite Efile, take_app_length. unfold npy_file. rewrite app_nil_r, <- !app_assoc. done.
Qed.

Lemma numpy_load_rows_spec fuel row : forall batch (s : S) pre data,
  at_split s pre data -> 0 <= row -> (1 <= fuel)%nat -> Z.of_nat batch * row <= Z.of_nat (length data) ->
  exists s', numpy_load_rows fuel batch row s = Some (Ok (take (Z.to_nat (Z.of_nat batch * row)) data, s')).
Proof.
  induction batch as [|batch IH]; intros s pre data Hs Hr Hf Hd; [by exists s|].
  assert (Hrow : Z.of_nat (length (take (Z.to_nat row) data)) = row) by (rewrite length_take; lia).
  rewrite <- (take_drop (Z.to_nat row) data) in Hs.
  destruct (read_until_spec s pre _ _ row Hs) as (s1 & H1 & E1); [done|]. cbn [numpy_load_rows]. rewrite (E1 fuel Hf).
  destruct (IH s1 _ _ H1 Hr Hf) as (s2 & E2); [rewrite length_drop; lia|]. cbn [snd]. rewrite E2. cbn [obind fst snd].
  exists s2. do 3 f_equal.
  replace (Z.to_nat (Z.of_nat (Datatypes.S batch) * row)) with (Z.to_nat row + Z.to_nat (Z.of_nat batch * row))%nat by lia.
  by rewrite take_take_drop.
Qed.

(** A NumPy file as [numpy.save] writes it (any of the four supported element types, any
    shape of 64-bit dimensions, either memory order, any padding): opening it recovers
    the element size, the shape and the order from the text of the header, and
    [load_batch] returns the bytes of the first rows of the data, for every stream. *)
Theorem numpy_roundtrip (s : S) (d : npy_dtype) (fortran : bool) (sh pad data : list Z) (batch : Z) :
  let header := npy_header d fortran sh pad in
  let row := fold_left Z.mul (drop 1 sh) 1 * npy_size d in
  stream_ok s -> contents s = npy_file header data -> Z.of_nat (length header) < 2 ^ 16 ->
  Forall (in_u 64) sh -> (forall k, in_u 64 (fold_left Z.mul (take k (drop 1 sh)) 1)) -> row < 2 ^ 64 ->
  0 <= batch -> batch * row <= Z.of_nat (length data) ->
  exists f, numpy_open s = Ok f /\
    header_ f = {| dtype_size_in_bytes := npy_size d; shape := sh; fortran_order := fortran |} /\
    row_size_in_bytes_ f = row /\
    forall fuel, (1 <= fuel)%nat ->
      exists f', numpy_load_batch fuel batch f = Some (Ok (take (Z.to_nat (batch * row)) data, f')).
Proof.
  intros header row Hok Hc Hl Hsh Hprod Hrow Hb Hd.
  destruct (load_header_spec s header data _ Hok Hc Hl (parse_header_roundtrip d fortran sh pad Hsh)) as (s' & off & E & Hs').
  unfold numpy_open. rewrite E. cbn [obind fst snd shape dtype_size_in_bytes]. eexists. split; [done|].
  assert (Hvec : fold_left (fun v d => wrapu 64 (v * d)) (drop 1 sh) 1 = fold_left Z.mul (drop 1 sh) 1).
  { revert Hprod. generalize (drop 1 sh) as l. induction l as [|x l IH] using rev_ind; intros Hp; [done|].
    rewrite !fold_left_app. cbn [fold_left]. rewrite IH.
    - apply wrapu_small. specialize (Hp (length (l ++ [x]))). by rewrite firstn_all, fold_left_app in Hp.
    - intros k. destruct (decide (k <= length l)%nat) as [Hk|Hk].
      + specialize (Hp k). by rewrite take_app_le in Hp.
      + specialize (Hp (length l)). rewrite take_app_length in Hp. by rewrite take_ge by lia. }
  assert (Hr : wrapu 64 (fold_left (fun v d => wrapu 64 (v * d)) (drop 1 sh) 1 * npy_size d) = row).
  { rewrite Hvec. apply wrapu_small. split; [|done]. specialize (Hprod (length (drop 1 sh))).
    rewrite firstn_all in Hprod. unfold in_u in Hprod. unfold row. destruct d; simpl; lia. }
  cbn [header_ row_size_in_bytes_]. split; [done|]. split; [exact Hr|]. intros fuel Hf. unfold numpy_load_batch.
  cbn [row_size_in_bytes_ n_stream]. rewrite Hr.
  assert (Hr0 : 0 <= row) by (rewrite <- Hr; apply wrapu_range; lia).
  destruct (numpy_load_rows_spec fuel row (Z.to_nat batch) s' _ data Hs' Hr0 Hf) as (s2 & E2);
    [rewrite Z2Nat.id by done; done|].
  rewrite E2, Z2Nat.id by done. eexists. done.
Qed.
End NumpyRoundtrip.

(** ** Witnesses: a Python stream that transfers at most 7 bytes per call *)

Record short_file := { c_bytes : list Z; c_pos : nat }.

#[export] Instance short_stream : PythonStream short_file.
Proof.
  refine {| py_tell := fun f => Z.of_nat (c_pos f);
            py_seek := fun o f => (o, {| c_bytes := c_bytes f; c_pos := Z.to_nat o |});
            py_seek_end := fun f => {| c_bytes := c_bytes f; c_pos := length (c_bytes f) |};
            py_write := fun bs f => (Z.of_nat (length (take 7 bs)),
              {| c_bytes := overwritten (Z.of_nat (c_pos f)) (take 7 bs) (c_bytes f);
                 c_pos := c_pos f + length (take 7 bs) |});
            py_readinto := fun n f =>
              let bs := take (Nat.min 7 (Z.to_nat n)) (drop (c_pos f) (c_bytes f)) in
              (bs, {| c_bytes := c_bytes f; c_pos := c_pos f + length bs |});
            py_bytes := c_bytes |}.
  - lia.
  - intros o f Ho. simpl. split_and!; [done|lia|done].
  - done.
  - intros bs f Hne Hp. cbn [fst snd c_bytes c_pos]. rewrite length_take, Nat2Z.id.
    split_and!; [destruct bs; [done|simpl; lia]|lia|lia|].
    f_equal. destruct (decide (7 <= length bs)%nat) as [|Hl].
    + by rewrite Nat.min_l by done.
    + by rewrite Nat.min_r, !take_ge by lia.
  - intros n f Hn. cbn [fst snd c_bytes c_pos]. rewrite Nat2Z.id.
    set (d := drop (c_pos f) (c_bytes f)). split_and!; [|rewrite length_take; lia| |lia|done].
    + rewrite length_take. destruct (decide (Nat.min 7 (Z.to_nat n) <= length d)%nat) as [|Hl].
      * by rewrite (Nat.min_l (Nat.min 7 (Z.to_nat n))) by done.
      * by rewrite (Nat.min_r (Nat.min 7 (Z.to_nat n))), !take_ge by lia.
    + intros E. destruct (decide (n = 0)) as [|Hn0]; [by left|right].
      assert (length (take (Nat.min 7 (Z.to_nat n)) d) = 0%nat) as Hlen by by rewrite E.
      rewrite length_take in Hlen. unfold d in Hlen. rewrite length_drop in Hlen. lia.
Defined.

Definition demo_tensors : list (Z * TensorWrapper) :=
  [(7, {| t_data := [1; 2; 3; 4; 5; 6; 7; 8]; t_row := 2; t_col := 2; t_element_size := 2 |});
   (9, {| t_data := [9; 8; 7]; t_row := 3; t_col := 1; t_element_size := 1 |})].

Lemma tensor_file_roundtrip_witness :
  exists s' s'',
    (let! s := write_table_file_header {| c_bytes := []; c_pos := 0 |} in write_tensors demo_tensors s) = Ok s' /\
    load_tensor_from_stream 2 9 {| t_data := [0; 0; 0]; t_row := 1; t_col := 3; t_element_size := 1 |} s' =
      Some (Ok ({| t_data := [9; 8; 7]; t_row := 1; t_col := 3; t_element_size := 1 |}, s'')).
Proof.
  destruct (tensor_file_roundtrip {| c_bytes := []; c_pos := 0 |} demo_tensors 9
    {| t_data := [0; 0; 0]; t_row := 1; t_col := 3; t_element_size := 1 |} 2) as (s' & E & s'' & E2).
  - done.
  - repeat constructor; try (vm_compute; congruence); by eexists.
  - done.
  - simpl. lia.
  - vm_compute. congruence.
  - exists s', s''. split; [exact E|]. exact E2.
Defined.

Lemma load_batch_exact_or_diverges_witness :
  (exists b', binary_load_batch 1 2 {| b_stream := {| c_bytes := [1; 2; 3; 4; 5; 6]; c_pos := 1 |}; row_size_ := 2 |} =
     Some (Ok ([2; 3; 4; 5], b'))) /\
  (forall fuel, binary_load_batch fuel 3 {| b_stream := {| c_bytes := [1; 2; 3; 4; 5; 6]; c_pos := 1 |}; row_size_ := 2 |} = None) /\
  binary_load_batch 1 3 {| b_stream := {| f_bytes := [1; 2; 3; 4; 5; 6]; f_pos := 1 |}; row_size_ := 2 |} = Some (Throw "Failed to read from file").
Proof.
  split; [|split].
  - destruct (load_batch_exact_or_diverges {| b_stream := {| c_bytes := [1; 2; 3; 4; 5; 6]; c_pos := 1 |}; row_size_ := 2 |} 2)
      as (b' & Hb & _); try done. exists b'. by apply (Hb 1%nat).
  - by refine (load_batch_exact_or_diverges {| b_stream := {| c_bytes := [1; 2; 3; 4; 5; 6]; c_pos := 1 |};
                                               row_size_ := 2 |} 3 _ _ _ _ _).
  - by refine (load_batch_exact_or_diverges (S := ifstream) {| b_stream := {| f_bytes := [1; 2; 3; 4; 5; 6]; f_pos := 1 |};
                                               row_size_ := 2 |} 3 _ _ _ _ _ 1%nat _).
Defined.

Definition demo_npy : list Z :=
  npy_file (npy_header F4 false [2; 3] [32; 10]) (seqZ 0 24).

Lemma numpy_roundtrip_witness :
  exists f f', numpy_open {| f_bytes := demo_npy; f_pos := 0 |} = Ok f /\
    shape (header_ f) = [2; 3] /\ numpy_load_batch 1 1 f = Some (Ok (seqZ 0 12, f')).
Proof.
  destruct (numpy_roundtrip {| f_bytes := demo_npy; f_pos := 0 |} F4 false [2; 3] [32; 10] (seqZ 0 24) 1)
    as (f & E & Eh & _ & Hb).
  - by vm_compute.
  - done.
  - by vm_compute.
  - repeat constructor; vm_compute; congruence.
  - intros [|[|k]]; by vm_compute.
  - by vm_compute.
  - lia.
  - by vm_compute.
  - destruct (Hb 1%nat) as (f' & E'); [lia|]. exists f, f'. rewrite Eh. split; [exact E|]. split; [done|exact E'].
Defined.
