(* ===== verification/CacheQuery.v ===== *)
(** * The lookup kernels: [include/ecache/ec_set_associative.cuh],
    [include/ecache/embed_cache.cuh]

    The CUDA kernels that look keys up in the set-associative cache: [query] with a
    hit mask, [query] with a list of missing keys, [query_uvm] backed by a table, and
    the [find] / sort / [gather] sequence of [call_sort_gather]. A warp runs in lock
    step; the warps of a grid run in any order. Row storage is not written while a
    kernel runs and is given as a memory of its own. Row sizes leave room in 32 bits
    for the step of the copy loops. *)
From S2P Require Import Prelude BitOps EcHash SetAssoc Float32 HostModify CacheCoherence.

(** ** Copies by a warp *)

(** Copy of [n] bytes from [p] in one memory to [d] in another. *)
Definition copy_from (src : memory) (d p n : Z) (m : memory) : memory :=
  fun a => if (d <=? a) && (a <? d + n) then src (p + (a - d)) else m a.

(** The offsets the lanes copy, [elt] bytes each: the loop over [k] with one element per
    lane and a test against the size. *)
Definition warp_offsets (width elt size : Z) : list Z :=
  i ← seqZ 0 (ceil_div size (elt * width)); lane ← seqZ 0 width;
  let offset := i * (elt * width) + lane * elt in
  if offset <? size then [offset] else [].

(** [memcpy_warp<width, DataType>] with [sizeof(DataType) = elt], and the same loop in the
    query kernels. *)
Definition warp_copy (width elt size : Z) (src : memory) (d p : Z) (m : memory) : memory :=
  fold_left (fun m o => copy_from src (d + o) (p + o) elt m) (warp_offsets width elt size) m.

Section Kernels.
(** Key type, configuration, and what the lookup context holds of the cache:
    [CacheData::num_sets], [cache_ptr] and [count_misses]. *)
Context (K : int_type) (cfg : CacheConfig) (num_sets cache_ptr : Z) (count_misses : bool).
(** The device tags, the memory of the cache rows and of the backing table. *)
Variables (tags : Z -> Z) (rows : memory).
(** Table index, keys, number of keys, output and its stride. *)
Variables (tbl : Z) (keys : Z -> Z) (len d_values stride : Z).

Local Abbreviation row := (embed_width_in_bytes cfg).

Definition lane_way_mask (key : Z) : Z := embed_cache_get_way_mask K num_sets tags tbl key.

(** The row pointer of a hit; the slot is computed in [uint32_t]. *)
Definition lane_row_ptr (key : Z) : Z :=
  let cache_offset := wrapu 32 (wrapu 32 (tbl * num_sets) * NUM_WAYS) in
  let set_idx := embed_cache_hash_set_idx K key num_sets in
  let way := ffs_pred (lane_way_mask key) in
  cache_ptr + wrapu 32 (cache_offset + set_idx * NUM_WAYS + way) * row.

(** The "transpose": lane [s] of the group that starts at key [base] has the pointer
    [ptr s], and all lanes copy its row. *)
Definition copy_lanes (width elt base : Z) (ptr : Z -> Z) (v : memory) : memory :=
  fold_left (fun v s =>
    if ptr s =? 0 then v
    else warp_copy width elt row rows (d_values + (base + s) * stride) (ptr s) v) (seqZ 0 width) v.

(** The element type is chosen by the row size. *)
Definition element_size : Z := if row mod 16 =? 0 then 16 else if row mod 4 =? 0 then 4 else 1.

(** Blocks of 128 threads, four warps each. *)
Definition n_block : Z := wrapu 32 (len / 128 + Z.min (len mod 128) 1).
Definition grid : list (Z * Z) := b ← seqZ 0 n_block; y ← seqZ 0 4; [(b, y)].
Definition warp_ptr (w : Z * Z) : Z := wrapu 32 (w.1 * 128 + w.2 * 32).

(** ** [query] with a hit mask *)

(** The 32-bit words of the hit mask, the output and the miss counter. *)
Record query_state := { q_mask : Z -> Z; q_values : memory; q_misses : Z }.

(** The pointer of a lane, and whether it counts a miss. *)
Definition lane_hit_mask (st : query_state) (base lane : Z) : Z * bool :=
  let tid := wrapu 32 (base + lane) in
  if len <=? tid then (0, false)
  else if Z.testbit (q_mask st (base / 32)) lane then (0, false)
  else if lane_way_mask (keys tid) =? 0 then (0, count_misses)
  else (lane_row_ptr (keys tid), false).

Definition query_hit_mask_warp (st : query_state) (w : Z * Z) : query_state :=
  let base := warp_ptr w in
  if len <=? base then st
  else
    let lane := lane_hit_mask st base in
    let local := fold_left (fun m s => if (lane s).1 =? 0 then m else Z.lor m (Z.shiftl 1 s)) (seqZ 0 32) 0 in
    {| q_mask := upd (q_mask st) (base / 32) (Z.lor (q_mask st (base / 32)) local);
       q_values := copy_lanes 32 element_size base (fun s => (lane s).1) (q_values st);
       q_misses := q_misses st + Z.of_nat (length (filter (fun s => (lane s).2 = true) (seqZ 0 32))) |}.

(** [call_cache_query_hit_mask], the warps in the given order, and the [lookup] of the
    cache around it. *)
Definition call_cache_query_hit_mask (order : list (Z * Z)) (st : query_state) : query_state :=
  fold_left query_hit_mask_warp order st.
Definition lookup_hit_mask (order : list (Z * Z)) (launch_ok : bool) (st : query_state) : Z * query_state :=
  if 0 <? len
  then if launch_ok then (ECERROR_SUCCESS, call_cache_query_hit_mask order st) else (ECERROR_CUDA_ERROR, st)
  else (ECERROR_SUCCESS, st).

(** ** [query] with a list of missing keys *)

(** [d_missing_index] and [d_missing_keys] up to [d_missing_len], and the miss counter. *)
Record missing_state := { missing : list (Z * Z); m_misses : Z }.

(** What thread [tid] does before the copies: the atomic increment of [d_missing_len]
    gives the position it writes to. *)
Definition search_thread (st : missing_state) (tid : Z) : missing_state :=
  if len <=? tid then st
  else if lane_way_mask (keys tid) =? 0
  then {| missing := missing st ++ [(tid, keys tid)];
          m_misses := m_misses st + (if count_misses then 1 else 0) |}
  else st.
Definition lane_missing (tid : Z) : Z :=
  if len <=? tid then 0 else if lane_way_mask (keys tid) =? 0 then 0 else lane_row_ptr (keys tid).

(** The width of a group of lanes and the element size. *)
Definition missing_shape : Z * Z :=
  if row mod (16 * 32) =? 0 then (32, 16)
  else if row mod (4 * 32) =? 0 then (32, 4)
  else if row mod (16 * 4) =? 0 then (4, 16)
  else (32, 1).
Definition query_missing_group (v : memory) (base : Z) : memory :=
  copy_lanes missing_shape.1 missing_shape.2 base (fun s => lane_missing (base + s)) v.

(** The threads and the groups of lanes of the grid. *)
Definition grid_threads : list Z := seqZ 0 (n_block * 128).
Definition grid_groups : list Z := (fun i => i * missing_shape.1) <$> seqZ 0 (n_block * (128 / missing_shape.1)).

(** [lookup] with missing keys: [threads] and [groups] are the orders in which threads
    search and groups copy. *)
Definition lookup_missing (threads groups : list Z) (misses : Z) (v : memory) : missing_state * memory :=
  let st := {| missing := []; m_misses := misses |} in
  if 0 <? len then (fold_left search_thread threads st, fold_left query_missing_group groups v) else (st, v).

(** ** [query_uvm]: misses are read from the table *)

Record uvm_state := { u_values : memory; u_misses : Z }.

Definition lane_uvm (table base lane : Z) : Z * bool :=
  let tid := wrapu 32 (base + lane) in
  if len <=? tid then (0, false)
  else (embed_cache_get_address K cfg num_sets cache_ptr tags table tbl (keys tid),
        (lane_way_mask (keys tid) =? 0) && count_misses).
Definition query_uvm_warp (table : Z) (st : uvm_state) (w : Z * Z) : uvm_state :=
  let lane := lane_uvm table (warp_ptr w) in
  {| u_values := copy_lanes 32 element_size (warp_ptr w) (fun s => (lane s).1) (u_values st);
     u_misses := u_misses st + Z.of_nat (length (filter (fun s => (lane s).2 = true) (seqZ 0 32))) |}.
Definition call_cache_query_uvm (table : Z) (order : list (Z * Z)) (st : uvm_state) : uvm_state :=
  fold_left (query_uvm_warp table) order st.
Definition lookup_uvm (table : Z) (order : list (Z * Z)) (launch_ok : bool) (st : uvm_state) : Z * uvm_state :=
  if 0 <? len
  then if launch_ok then (ECERROR_SUCCESS, call_cache_query_uvm table order st) else (ECERROR_CUDA_ERROR, st)
  else (ECERROR_SUCCESS, st).
End Kernels.

(** ** [call_sort_gather] *)

Record FindOutput := { src_ptr : Z; dst_ptr : Z }.

Section SortGather.
Context (K : int_type) (cfg : CacheConfig) (num_sets cache_ptr : Z) (count_misses : bool).
Variables (tags : Z -> Z) (rows : memory) (keys : Z -> Z) (num_keys uvm dst : Z).
(** [cub::DeviceRadixSort::SortPairs]. *)
Variable sort_pairs : list (Z * FindOutput) -> list (Z * FindOutput).

Local Abbreviation row := (embed_width_in_bytes cfg).

(** [get_sort_key]: [SortKeyType] is the key type. *)
Definition get_sort_key (idx : Z) (hit : bool) : Z :=
  if is_signed K then (if hit then idx else conv K (- idx))
  else
    let offset := 512 * 1024 * 1024 in
    if hit then Z.min (2 ^ width K - 1 - offset) idx + offset else idx mod offset.

(** The thread of key [tid] in [find], for table 0. *)
Definition find_thread (tid : Z) : Z * FindOutput :=
  let key := keys tid in
  let hit := negb (lane_way_mask K num_sets tags 0 key =? 0) in
  (get_sort_key key hit,
   {| src_ptr := if hit then lane_row_ptr K cfg num_sets cache_ptr tags 0 key else wrapu 64 (uvm + key * row);
      dst_ptr := dst + tid * row |}).

(** The parts of the auxiliary buffer: unsorted and sorted sort keys, unsorted and sorted
    pairs, and the space of the sort ([cub_aux_bytes]). *)
Definition aux_parts (cub_aux_bytes : Z) : list (Z * Z) :=
  let sort_key_bytes := (width K / 8) * num_keys in
  let find_bytes := 16 * num_keys in
  [(0, sort_key_bytes); (sort_key_bytes, sort_key_bytes);
   (sort_key_bytes + sort_key_bytes, find_bytes); (sort_key_bytes + sort_key_bytes + find_bytes, find_bytes);
   (find_bytes + sort_key_bytes + find_bytes + sort_key_bytes, cub_aux_bytes)].
Definition aux_required (cub_aux_bytes : Z) : Z :=
  let sort_key_bytes := (width K / 8) * num_keys in
  let find_bytes := 16 * num_keys in
  cub_aux_bytes + find_bytes + sort_key_bytes + find_bytes + sort_key_bytes.

(** The entries a warp of [gather] copies: 32 at a time, the rest one by one. *)
Definition gather_entries (keys_per_y : Z) (w : Z * Z) : list Z :=
  let tid_batch := wrapu 32 (w.1 * keys_per_y * 4 + w.2 * keys_per_y) in
  if tid_batch <? num_keys then
    let n := Z.min (num_keys - tid_batch) keys_per_y in
    i ← seqZ 0 (ceil_div n 32);
    let s := i * 32 in
    if tid_batch + s + 32 <=? num_keys then seqZ (tid_batch + s) 32
    else seqZ (tid_batch + s) (num_keys - (tid_batch + s))
  else [].

Definition gather_grid (keys_per_y : Z) : list (Z * Z) :=
  b ← seqZ 0 (ceil_div num_keys (wrapu 32 (keys_per_y * 4))); y ← seqZ 0 4; [(b, y)].

(** [gather]: [size] is the number of bytes of a row the kernel is told to copy. *)
Definition gather_warp (size : Z) (pairs : list FindOutput) (keys_per_y : Z) (v : memory) (w : Z * Z) : memory :=
  fold_left (fun v i =>
    match pairs !! Z.to_nat i with
    | Some o => warp_copy 32 (if size mod 16 =? 0 then 16 else if size mod 4 =? 0 then 4 else 1) size rows (dst_ptr o) (src_ptr o) v
    | None => v
    end) (gather_entries keys_per_y w) v.

(** [call_sort_gather] with a buffer: [row_size_in_bytes] of the call is the stride of
    the output. The grid of [gather] divides by the number of keys of a block. *)
Definition call_sort_gather (stride block_size : Z) (order : list (Z * Z)) (v : memory) : outcome memory :=
  let pairs := snd <$> sort_pairs (find_thread <$> seqZ 0 num_keys) in
  let keys_per_y := wrapu 32 block_size in
  if wrapu 32 (keys_per_y * 4) =? 0 then Undef "division by zero"
  else Ok (fold_left (gather_warp stride pairs keys_per_y) order v).

Definition find_misses : Z :=
  if count_misses
  then Z.of_nat (length (filter (fun j => lane_way_mask K num_sets tags 0 (keys j) = 0) (seqZ 0 num_keys))) else 0.

(** [lookup_sort_gather]: [aux] is the size of the auxiliary buffer, [None] for a null
    pointer; the size it needs is returned in that case. The table index is not used. *)
Definition lookup_sort_gather (cub_aux_bytes : Z) (aux : option Z) (stride block_size : Z) (order : list (Z * Z))
    (v : memory) (misses : Z) : outcome (Z * option Z * memory * Z) :=
  match aux with
  | None => Ok (ECERROR_SUCCESS, Some (aux_required cub_aux_bytes), v, misses)
  | Some auxiliary_buffer_bytes =>
      if auxiliary_buffer_bytes <? aux_required cub_aux_bytes then Ok (ECERROR_INVALID_ARGUMENT, None, v, misses)
      else if 0 <? num_keys
      then let! v := call_sort_gather stride block_size order v in Ok (ECERROR_SUCCESS, None, v, misses + find_misses)
      else Ok (ECERROR_SUCCESS, None, v, misses)
  end.
End SortGather.

(** ** Lemmas: copies *)

Lemma copy_from_same src d p n m : mem_read (copy_from src d p n m) d n = mem_read src p n.
Proof.
  unfold mem_read. apply list_eq. intros i. rewrite !list_lookup_fmap.
  destruct (decide (Z.of_nat i < n)).
  - rewrite !lookup_seqZ_lt by lia. simpl. f_equal. unfold copy_from.
    rewrite (proj2 (Z.leb_le _ _)), (proj2 (Z.ltb_lt _ _)) by lia. simpl. f_equal. lia.
  - by rewrite !lookup_seqZ_ge by lia.
Qed.

Lemma copy_from_disjoint src d p n m a k : disjoint d n a k -> mem_read (copy_from src d p n m) a k = mem_read m a k.
Proof.
  intros Hd. apply mem_read_ext. intros x Hx. unfold copy_from, disjoint in *.
  destruct (Z.leb_spec d x), (Z.ltb_spec x (d + n)); simpl; done || lia.
Qed.

Lemma fold_copy_spec src d p elt l m a :
  fold_left (fun m o => copy_from src (d + o) (p + o) elt m) l m a =
  if existsb (fun o => (d + o <=? a) && (a <? d + o + elt)) l then src (p + (a - d)) else m a.
Proof.
  revert m. induction l as [|o l IH]; intros m; [done|]. cbn [fold_left existsb]. rewrite IH.
  destruct (existsb _ l); [by rewrite orb_true_r|]. rewrite orb_false_r. unfold copy_from.
  destruct ((d + o <=? a) && (a <? d + o + elt)); [|done]. f_equal. lia.
Qed.

Lemma warp_offsets_spec width elt size o :
  0 < width -> 0 < elt -> 0 <= size ->
  o ∈ warp_offsets width elt size <-> (elt | o) /\ 0 <= o < size.
Proof.
  intros Hw He Hs. unfold warp_offsets. rewrite list_elem_of_bind. setoid_rewrite list_elem_of_bind.
  pose proof (ceil_div_bounds size (elt * width) Hs ltac:(nia)) as Hc. split.
  - intros (i & (lane & Ho & Hl) & Hi). apply elem_of_seqZ in Hi. apply elem_of_seqZ in Hl. cbv zeta in Ho.
    destruct (Z.ltb_spec (i * (elt * width) + lane * elt) size); [|by apply not_elem_of_nil in Ho].
    apply list_elem_of_singleton in Ho as ->. split; [|nia]. exists (i * width + lane). ring.
  - intros [[q ->] Hq]. assert (0 <= q) by nia. exists (q / width). split; [exists (q mod width); split|].
    + pose proof (Z.div_mod q width ltac:(lia)) as Hdm. cbv zeta.
      replace (q / width * (elt * width) + q mod width * elt) with (q * elt) 
        by (transitivity ((width * (q / width) + q mod width) * elt); [by rewrite <- Hdm|ring]).
      rewrite (proj2 (Z.ltb_lt _ _)) by lia. by apply list_elem_of_singleton.
    + apply elem_of_seqZ. pose proof (Z.mod_pos_bound q width ltac:(lia)). lia.
    + apply elem_of_seqZ. split; [by apply Z.div_pos|]. apply Z.div_lt_upper_bound; [lia|]. nia.
Qed.

(** The copy loop of a warp moves exactly the row. *)
Lemma warp_copy_spec width elt size src d p m a :
  0 < width -> 0 < elt -> 0 <= size -> (elt | size) ->
  warp_copy width elt size src d p m a = copy_from src d p size m a.
Proof.
  intros Hw He Hs [n Hn]. unfold warp_copy. rewrite fold_copy_spec. unfold copy_from.
  destruct ((d <=? a) && (a <? d + size)) eqn:Ea.
  - replace (existsb _ _) with true; [done|]. symmetry. apply existsb_exists.
    exists ((a - d) / elt * elt). rewrite <- list_elem_of_In.
    pose proof (Z.div_mod (a - d) elt ltac:(lia)) as Hdm. pose proof (Z.mod_pos_bound (a - d) elt He) as Hm.
    assert (0 <= (a - d) / elt) by (apply Z.div_pos; lia).
    split; [apply warp_offsets_spec; [lia|lia|lia|]; split; [by exists ((a - d) / elt)|nia]|lia].
  - replace (existsb _ _) with false; [done|]. symmetry. apply not_true_iff_false. intros Ho.
    apply existsb_exists in Ho as (o & Hin & Ho). rewrite <- list_elem_of_In in Hin.
    apply warp_offsets_spec in Hin as [[q ->] Hq]; [|lia..]. assert (q < n) by nia. nia.
Qed.

Section RowCopies.
Context (size stride : Z) (Hrow : 0 < size <= stride).

(** Copies of rows of one output, selected by a pointer for each: the copies of a list
    of rows in any order. *)
Lemma fold_rows_spec {I : Type} (copy : I -> memory -> memory) (idx ptr : I -> Z) (P : I -> bool) rows d l v j :
  (forall i m a, copy i m a = copy_from rows (d + idx i * stride) (ptr i) size m a) ->
  (forall i i', i ∈ l -> i' ∈ l -> idx i = idx i' -> P i = true -> P i' = true -> ptr i = ptr i') ->
  mem_read (fold_left (fun v i => if P i then copy i v else v) l v) (d + j * stride) size =
  match List.find (fun i => (idx i =? j) && P i) l with
  | Some i => mem_read rows (ptr i) size
  | None => mem_read v (d + j * stride) size
  end.
Proof.
  intros Hcopy. revert v. induction l as [|i l IH]; intros v Hptr; [done|]. cbn [fold_left List.find].
  rewrite IH by (intros; apply Hptr; [by right|by right|done..]).
  assert (Hone : mem_read (if P i then copy i v else v) (d + j * stride) size =
    if (idx i =? j) && P i then mem_read rows (ptr i) size else mem_read v (d + j * stride) size).
  { destruct (P i); [|by rewrite andb_false_r]. rewrite andb_true_r.
    rewrite (mem_read_ext _ (copy_from rows (d + idx i * stride) (ptr i) size v)) by (intros; apply Hcopy).
    destruct (Z.eqb_spec (idx i) j) as [->|Hne]; [apply copy_from_same|]. apply copy_from_disjoint.
    unfold disjoint. assert (idx i < j \/ j < idx i) as [|] by lia; [left|right]; nia. }
  destruct (List.find _ l) as [i'|] eqn:Ef.
  - destruct ((idx i =? j) && P i) eqn:Ei; [|done].
    apply find_Some_In in Ef as [Hin Hi']. f_equal. apply Hptr; [by right|by left|lia|..];
      by destruct (P i), (P i'); rewrite ?andb_false_r in *.
  - rewrite Hone. by destruct ((idx i =? j) && P i).
Qed.
End RowCopies.

(** Groups that write rows from sources that do not change, in any order. *)
Lemma fold_groups {S G : Type} (read : S -> Z -> list Z) (step : S -> G -> S)
    (members : G -> list Z) (P : Z -> Prop) `{HP : !forall j, Decision (P j)} (src : Z -> list Z) order v j :
  (forall v g, g ∈ order -> read (step v g) j = if decide (j ∈ members g /\ P j) then src j else read v j) ->
  read (fold_left step order v) j = if decide (j ∈ order ≫= members /\ P j) then src j else read v j.
Proof.
  revert v. induction order as [|g order IH]; intros v Hstep.
  { rewrite decide_False; [done|]. by intros [?%not_elem_of_nil _]. }
  cbn [fold_left]. rewrite IH by (intros; apply Hstep; by right). rewrite Hstep by (by left).
  destruct (decide (j ∈ order ≫= members /\ P j)) as [Hy|Hn].
  - rewrite decide_True; [done|]. rewrite bind_cons, elem_of_app. tauto.
  - apply decide_ext. rewrite bind_cons, elem_of_app. tauto.
Qed.

Section QueryLemmas.
Context (K : int_type) (cfg : CacheConfig) (num_sets cache_ptr : Z) (count_misses : bool).
Context (tags : Z -> Z) (rows : memory) (tbl : Z) (keys : Z -> Z) (len d_values stride : Z).
Local Abbreviation row := (embed_width_in_bytes cfg).
Context (Hrow : 0 < row <= stride) (Hlen : 0 <= len < 2 ^ 32 - 128).

Lemma element_size_spec : 0 < element_size cfg /\ (element_size cfg | row).
Proof.
  unfold element_size. destruct (Z.eqb_spec (row mod 16) 0) as [E|_]; [split; [done|by apply Z.mod_divide]|].
  destruct (Z.eqb_spec (row mod 4) 0) as [E|_]; [split; [done|by apply Z.mod_divide]|]. split; [done|]. apply Z.divide_1_l.
Qed.

Local Abbreviation copy_lanes := (copy_lanes cfg rows d_values stride).

(** The rows of a group of lanes after its copies. *)
Lemma copy_lanes_row width elt base ptr v j :
  0 < width -> 0 < elt -> (elt | row) ->
  mem_read (copy_lanes width elt base ptr v) (d_values + j * stride) row =
  if decide (0 <= j - base < width /\ ptr (j - base) <> 0) then mem_read rows (ptr (j - base)) row
  else mem_read v (d_values + j * stride) row.
Proof.
  intros Hw He Hd. unfold CacheQuery.copy_lanes.
  replace (fold_left _ (seqZ 0 width) v) with
    (fold_left (fun v s => if negb (ptr s =? 0) then warp_copy width elt row rows (d_values + (base + s) * stride) (ptr s) v else v)
      (seqZ 0 width) v).
  2:{ generalize v. induction (seqZ 0 width) as [|s l IH]; intros u; [done|]. cbn [fold_left].
      rewrite IH. by destruct (ptr s =? 0). }
  rewrite (fold_rows_spec row stride Hrow (fun s m => warp_copy width elt row rows (d_values + (base + s) * stride) (ptr s) m)
    (fun s => base + s) ptr (fun s => negb (ptr s =? 0)) rows d_values (seqZ 0 width) v j).
  - destruct (decide _) as [[Hj Hp]|Hn].
    + destruct (List.find _ _) as [s|] eqn:Ef.
      * apply find_Some_In in Ef as [_ Hs]. replace (j - base) with s by lia. done.
      * exfalso. apply (find_None_In _ _ (j - base)) in Ef; [|apply elem_of_seqZ; lia]. cbv beta in Ef.
        rewrite (proj2 (Z.eqb_eq _ _)), (proj2 (Z.eqb_neq _ _)) in Ef; [done|done|lia].
    + destruct (List.find _ _) as [s|] eqn:Ef; [|done]. apply find_Some_In in Ef as [Hin Hs].
      apply elem_of_seqZ in Hin. destruct Hn. replace (j - base) with s by lia. lia.
  - intros s m a. apply warp_copy_spec; [lia|lia|lia|done].
  - intros s s' _ _ E _ _. f_equal. lia.
Qed.

(** ** Lemmas: the grid *)

Local Abbreviation grid := (grid len).

Lemma n_block_spec : n_block len = len / 128 + Z.min (len mod 128) 1.
Proof using Hlen.
  apply wrapu_small. unfold in_u. pose proof (Z.mod_pos_bound len 128). assert (0 <= len / 128) by (apply Z.div_pos; lia).
  assert (len / 128 < 2 ^ 25) by (apply Z.div_lt_upper_bound; lia). lia.
Qed.

Lemma n_block_bounds : len <= n_block len * 128 < len + 128.
Proof using Hlen.
  rewrite n_block_spec. pose proof (Z.mod_pos_bound len 128 ltac:(lia)). pose proof (Z.div_mod len 128 ltac:(lia)). lia.
Qed.

Lemma grid_spec w : w ∈ grid <-> 0 <= w.1 < n_block len /\ 0 <= w.2 < 4.
Proof.
  unfold CacheQuery.grid. rewrite list_elem_of_bind. setoid_rewrite list_elem_of_bind. split.
  - intros (b & (y & Hw & Hy) & Hb). apply list_elem_of_singleton in Hw as ->. rewrite elem_of_seqZ in Hy, Hb. simpl. lia.
  - intros [H1 H2]. exists w.1. split; [exists w.2; split|]; [apply list_elem_of_singleton; by destruct w|apply elem_of_seqZ; lia..].
Qed.

Lemma warp_ptr_spec w : w ∈ grid -> warp_ptr w = w.1 * 128 + w.2 * 32.
Proof.
  intros [H1 H2]%grid_spec. pose proof n_block_bounds. apply wrapu_small. unfold in_u. lia.
Qed.

(** The keys of a warp. *)
Definition warp_keys (w : Z * Z) : list Z := filter (fun j => j < len) (seqZ (w.1 * 128 + w.2 * 32) 32).

Lemma elem_of_warp_keys w j : j ∈ warp_keys w <-> w.1 * 128 + w.2 * 32 <= j < w.1 * 128 + w.2 * 32 + 32 /\ j < len.
Proof. unfold warp_keys. rewrite list_elem_of_filter, elem_of_seqZ. lia. Qed.

Lemma grid_NoDup : NoDup grid.
Proof.
  unfold CacheQuery.grid. generalize (n_block len) as n. intros n.
  apply NoDup_bind; [| |apply NoDup_seqZ].
  - intros b b' w _ _ Hw Hw'. apply list_elem_of_bind in Hw as (y & Hw & _). apply list_elem_of_bind in Hw' as (y' & Hw' & _).
    apply list_elem_of_singleton in Hw, Hw'. congruence.
  - intros b _. apply NoDup_bind; [| |apply NoDup_seqZ].
    + intros y y' w _ _ Hw Hw'. apply list_elem_of_singleton in Hw, Hw'. congruence.
    + intros y _. apply NoDup_singleton.
Qed.

(** The warps of the grid, in any order, have every key once. *)
Lemma grid_keys order : order ≡ₚ grid -> (order ≫= warp_keys) ≡ₚ seqZ 0 len.
Proof.
  intros Ho. assert (Hin : forall w, w ∈ order -> w ∈ grid) by (intros w; by rewrite Ho).
  apply NoDup_Permutation; [|apply NoDup_seqZ|].
  - apply NoDup_bind; [| |rewrite Ho; apply grid_NoDup].
    + intros w w' j Hw Hw' Hj Hj'. apply elem_of_warp_keys in Hj, Hj'.
      apply Hin, grid_spec in Hw. apply Hin, grid_spec in Hw'. destruct w, w'. simpl in *. f_equal; lia.
    + intros w _. apply NoDup_filter, NoDup_seqZ.
  - intros j. rewrite list_elem_of_bind, elem_of_seqZ. split.
    + intros (w & Hj & Hw). apply elem_of_warp_keys in Hj. apply Hin, grid_spec in Hw. lia.
    + intros Hj. exists (j / 128, j mod 128 / 32). pose proof (Z.div_mod j 128 ltac:(lia)). pose proof (Z.mod_pos_bound j 128 ltac:(lia)).
      pose proof (Z.div_mod (j mod 128) 32 ltac:(lia)). pose proof (Z.mod_pos_bound (j mod 128) 32 ltac:(lia)).
      split; [apply elem_of_warp_keys; simpl; lia|]. rewrite Ho. apply grid_spec. simpl. pose proof n_block_bounds. lia.
Qed.

(** ** Lemmas: [query] with a hit mask *)

Local Abbreviation way_mask := (lane_way_mask K num_sets tags tbl).
Local Abbreviation row_ptr := (lane_row_ptr K cfg num_sets cache_ptr tags tbl).
Local Abbreviation query_warp := (query_hit_mask_warp K cfg num_sets cache_ptr count_misses tags rows tbl keys len d_values stride).
Context (Hptr : forall k, way_mask k <> 0 -> row_ptr k <> 0).

(** Bit [j] of the mask and row [j] of the output. *)
Definition key_bit (st : query_state) (j : Z) : bool := Z.testbit (q_mask st (j / 32)) (j mod 32).
Definition out_row (v : memory) (j : Z) : list Z := mem_read v (d_values + j * stride) row.
Definition missed (st : query_state) (j : Z) : Prop := key_bit st j = false /\ way_mask (keys j) = 0.
#[local] Instance missed_dec st j : Decision (missed st j).
Proof. unfold missed. apply _. Defined.

(** The effect of a lookup of the keys [l]: hits set their bit and deliver their row,
    keys that were hit before are skipped, the other keys count as misses. *)
Record served (l : list Z) (st st' : query_state) : Prop := {
  sv_bit : forall j, 0 <= j ->
    key_bit st' j = key_bit st j || bool_decide (j ∈ l /\ way_mask (keys j) <> 0);
  sv_row : forall j, out_row (q_values st') j =
    if decide (j ∈ l /\ key_bit st j = false /\ way_mask (keys j) <> 0)
    then mem_read rows (row_ptr (keys j)) row else out_row (q_values st) j;
  sv_misses : q_misses st' = q_misses st + if count_misses then Z.of_nat (length (filter (missed st) l)) else 0
}.

Lemma served_nil st : served [] st st.
Proof.
  split.
  - intros j _. rewrite bool_decide_false; [by rewrite orb_false_r|]. by intros [?%not_elem_of_nil _].
  - intros j. rewrite decide_False; [done|]. by intros [?%not_elem_of_nil _].
  - simpl. destruct count_misses; lia.
Qed.

Lemma served_app l1 l2 st s1 s2 :
  served l1 st s1 -> served l2 s1 s2 -> (forall j, j ∈ l1 -> j ∈ l2 -> False) -> (forall j, j ∈ l2 -> 0 <= j) ->
  served (l1 ++ l2) st s2.
Proof.
  intros H1 H2 Hd H0.
  assert (Hsame : forall j, j ∈ l2 -> key_bit s1 j = key_bit st j).
  { intros j Hj. rewrite (sv_bit _ _ _ H1) by auto. rewrite bool_decide_false; [by rewrite orb_false_r|].
    intros [Hj1 _]. by eapply Hd. }
  split.
  - intros j Hj. rewrite (sv_bit _ _ _ H2), (sv_bit _ _ _ H1) by done. rewrite <- orb_assoc. f_equal.
    rewrite <- bool_decide_or. apply bool_decide_ext. rewrite elem_of_app. tauto.
  - intros j. rewrite (sv_row _ _ _ H2), (sv_row _ _ _ H1).
    destruct (decide (j ∈ l2)) as [Hj2|Hj2].
    + rewrite Hsame by done.
      assert (Hj1 : j ∉ l1) by (intros Hj1; by eapply Hd).
      destruct (decide (j ∈ l2 /\ _)) as [Hy|Hn].
      * rewrite decide_True; [done|]. split; [apply elem_of_app; by right|apply Hy].
      * rewrite decide_False by tauto. rewrite decide_False; [done|]. rewrite elem_of_app. tauto.
    + rewrite (decide_False (P := j ∈ l2 /\ _)) by tauto. apply decide_ext. rewrite elem_of_app. tauto.
  - rewrite (sv_misses _ _ _ H2), (sv_misses _ _ _ H1). destruct count_misses; [|lia].
    rewrite filter_app, length_app. rewrite (filter_ext_in (missed s1) (missed st) l2); [lia|].
    intros j Hj. unfold missed. by rewrite Hsame.
Qed.

Lemma fold_lor_testbit (f : Z -> bool) l m i :
  0 <= i -> (forall s, s ∈ l -> 0 <= s) ->
  Z.testbit (fold_left (fun m s => if f s then m else Z.lor m (Z.shiftl 1 s)) l m) i =
  Z.testbit m i || existsb (fun s => negb (f s) && (s =? i)) l.
Proof.
  intros Hi. revert m. induction l as [|s l IH]; intros m Hl; [by rewrite orb_false_r|]. cbn [fold_left existsb].
  rewrite IH by (intros; apply Hl; by right). rewrite orb_assoc. f_equal.
  destruct (f s); [by rewrite orb_false_r|]. rewrite Z.lor_spec. f_equal. cbn [negb andb].
  specialize (Hl s ltac:(by left)). by rewrite Z.shiftl_1_l, Z.pow2_bits_eqb.
Qed.

Lemma length_filter_shift (P Q : Z -> Prop) `{HP : !forall x, Decision (P x)} `{HQ : !forall x, Decision (Q x)} b n :
  (forall s, 0 <= s < n -> P (b + s) <-> Q s) ->
  length (filter P (seqZ b n)) = length (filter Q (seqZ 0 n)).
Proof.
  intros Heq. replace (seqZ b n) with (Z.add b <$> seqZ 0 n) by (by rewrite fmap_add_seqZ, Z.add_0_r).
  assert (Hl : forall l, (forall s, s ∈ l -> 0 <= s < n) -> length (filter P (Z.add b <$> l)) = length (filter Q l)).
  { induction l as [|s l IH]; intros Hs; [done|]. rewrite fmap_cons, !filter_cons. specialize (IH ltac:(intros; apply Hs; by right)).
    specialize (Heq s (Hs s ltac:(by left))). destruct (decide (P (b + s))), (decide (Q s)); simpl; tauto || lia. }
  apply Hl. intros s Hs. apply elem_of_seqZ in Hs. lia.
Qed.

Local Abbreviation base w := (w.1 * 128 + w.2 * 32).

(** Key [j] in its warp: word of the mask and lane. *)
Lemma warp_lane (w : Z * Z) j : base w <= j < base w + 32 -> j / 32 = base w / 32 /\ j mod 32 = j - base w.
Proof.
  intros Hj. assert (E : base w = (w.1 * 4 + w.2) * 32) by ring. rewrite E in *. rewrite Z.div_mul by lia.
  pose proof (Z.div_mod j 32 ltac:(lia)). pose proof (Z.mod_pos_bound j 32 ltac:(lia)). lia.
Qed.

Lemma lane_hit_mask_spec st w j :
  w ∈ grid -> base w <= j < base w + 32 ->
  lane_hit_mask K cfg num_sets cache_ptr count_misses tags tbl keys len st (base w) (j - base w) =
    if decide (j < len /\ key_bit st j = false) then
      if decide (way_mask (keys j) = 0) then (0, count_misses) else (row_ptr (keys j), false)
    else (0, false).
Proof.
  intros [H1 H2]%grid_spec Hj. pose proof n_block_bounds. destruct (warp_lane w j Hj) as [Eq Em]. unfold lane_hit_mask, key_bit.
  replace (wrapu 32 (base w + (j - base w))) with j by (rewrite wrapu_small; unfold in_u; lia).
  rewrite Eq, Em. destruct (Z.leb_spec len j); [by rewrite decide_False by lia|].
  destruct (Z.testbit _ _); [by rewrite decide_False by naive_solver|]. rewrite decide_True by done.
  destruct (Z.eqb_spec (way_mask (keys j)) 0); [by rewrite decide_True|by rewrite decide_False].
Qed.

(** Lane pointers are non-zero exactly for new hits. *)
Lemma lane_new_hit st w j :
  w ∈ grid -> base w <= j < base w + 32 ->
  (lane_hit_mask K cfg num_sets cache_ptr count_misses tags tbl keys len st (base w) (j - base w)).1 <> 0 <->
  j ∈ warp_keys w /\ key_bit st j = false /\ way_mask (keys j) <> 0.
Proof.
  intros Hw Hj. rewrite lane_hit_mask_spec, elem_of_warp_keys by done.
  destruct (decide (j < len /\ _)); [|simpl; naive_solver].
  destruct (decide (way_mask (keys j) = 0)); simpl; [naive_solver|]. specialize (Hptr (keys j)). naive_solver.
Qed.

Lemma query_hit_mask_warp_served st w : w ∈ grid -> served (warp_keys w) st (query_warp st w).
Proof.
  intros Hw. unfold query_hit_mask_warp. rewrite warp_ptr_spec by done.
  destruct (Z.leb_spec len (base w)).
  { replace (warp_keys w) with (@nil Z); [apply served_nil|]. symmetry. apply elem_of_nil_inv. intros j.
    rewrite elem_of_warp_keys. lia. }
  assert (Hlane : forall j, j ∈ warp_keys w -> base w <= j < base w + 32) by (intros j; rewrite elem_of_warp_keys; lia).
  split; cbn [q_mask q_values q_misses].
  - intros j Hj. unfold key_bit at 1. cbn [q_mask]. unfold upd. destruct (decide (base w <= j < base w + 32)) as [Hin|Hout].
    + destruct (warp_lane w j Hin) as [Eq Em]. rewrite Eq, Z.eqb_refl.
      rewrite Z.lor_spec, fold_lor_testbit, Z.testbit_0_l by (lia || (intros s ?%elem_of_seqZ; lia)).
      unfold key_bit. rewrite Eq. destruct (Z.testbit _ (j mod 32)) eqn:Eb; [done|]. cbn [orb].
      apply eq_true_iff_eq. rewrite existsb_exists, bool_decide_eq_true. setoid_rewrite <- list_elem_of_In.
      setoid_rewrite elem_of_seqZ. rewrite Em in *. assert (Hkb : key_bit st j = false) by (unfold key_bit; by rewrite Eq, Em).
      pose proof (lane_new_hit st w j Hw Hin) as Hnew. split.
      * intros (s & _ & Hs). assert (s = j - base w) as -> by lia. destruct (proj1 Hnew ltac:(lia)) as (? & _ & ?). done.
      * intros [Hk Hm]. exists (j - base w). split; [lia|]. pose proof (proj2 Hnew (conj Hk (conj Hkb Hm))). lia.
    + rewrite bool_decide_false by (intros [Hk _]; by apply Hlane in Hk). rewrite orb_false_r.
      rewrite (proj2 (Z.eqb_neq _ _)); [done|]. intros E. apply Hout.
      pose proof (Z.div_mod j 32 ltac:(lia)). pose proof (Z.mod_pos_bound j 32 ltac:(lia)).
      assert (Eb : base w = (w.1 * 4 + w.2) * 32) by ring. rewrite Eb, Z.div_mul in E by lia. lia.
  - intros j. unfold out_row. rewrite copy_lanes_row by (lia || apply element_size_spec).
    destruct (decide (j ∈ warp_keys w /\ _)) as [Hy|Hn].
    + pose proof (Hlane j (proj1 Hy)) as Hj. pose proof (proj2 (lane_new_hit st w j Hw Hj) Hy).
      rewrite decide_True by (split; [lia|done]). rewrite lane_hit_mask_spec by done.
      pose proof (proj1 (elem_of_warp_keys w j) (proj1 Hy)). rewrite decide_True by tauto. by rewrite decide_False by tauto.
    + rewrite decide_False; [done|]. intros [Hj Hp]. apply Hn. by apply (lane_new_hit st w j Hw ltac:(lia)).
  - f_equal. unfold warp_keys. rewrite <- (length_filter_shift
      (fun j => (j < len /\ key_bit st j = false) /\ way_mask (keys j) = 0 /\ count_misses = true) _ (base w) 32).
    2:{ intros s Hs. pose proof (lane_hit_mask_spec st w (base w + s) Hw ltac:(lia)) as E.
        replace (base w + s - base w) with s in E by lia. rewrite E.
        destruct (decide (base w + s < len /\ _)); [|simpl; naive_solver].
        destruct (decide (way_mask _ = 0)); simpl; naive_solver. }
    rewrite list_filter_filter. destruct count_misses.
    + do 2 f_equal. apply filter_ext_in. intros j _. unfold missed. tauto.
    + rewrite (filter_ext_in _ (fun _ => False)) by naive_solver.
      by induction (seqZ (base w) 32).
Qed.

Lemma served_perm l l' st st' : l ≡ₚ l' -> served l st st' -> served l' st st'.
Proof.
  intros Hp [H1 H2 H3]. split.
  - intros j Hj. rewrite H1 by done. f_equal. apply bool_decide_ext. by rewrite Hp.
  - intros j. rewrite H2. apply decide_ext. by rewrite Hp.
  - rewrite H3. destruct count_misses; [|done]. by rewrite Hp.
Qed.

Lemma warp_keys_disjoint w w' j : w ∈ grid -> w' ∈ grid -> j ∈ warp_keys w -> j ∈ warp_keys w' -> w = w'.
Proof.
  intros Hw%grid_spec Hw'%grid_spec Hj%elem_of_warp_keys Hj'%elem_of_warp_keys. destruct w, w'. simpl in *. f_equal; lia.
Qed.

(** The warps in any order. *)
Lemma query_hit_mask_served order st :
  order ≡ₚ grid -> served (seqZ 0 len) st (fold_left query_warp order st).
Proof.
  intros Ho. apply (served_perm _ _ _ _ (grid_keys order Ho)).
  assert (Hnd : NoDup order) by (rewrite Ho; apply grid_NoDup).
  assert (Hin : forall w, w ∈ order -> w ∈ grid) by (intros w; by rewrite Ho). clear Ho.
  induction order as [|w order IH] using rev_ind; [apply served_nil|].
  rewrite fold_left_app, bind_app. cbn [fold_left mbind list_bind]. rewrite app_nil_r.
  apply NoDup_app in Hnd as (Hnd & Hnew & _).
  assert (Hw : w ∈ grid) by (apply Hin, elem_of_app; right; by left).
  eapply served_app; [apply IH; [done|]|by apply query_hit_mask_warp_served| |].
  - intros w' Hw'. apply Hin, elem_of_app. by left.
  - intros j (w' & Hj & Hw')%list_elem_of_bind Hj'. apply (Hnew w' Hw').
    rewrite (warp_keys_disjoint w' w j); [by left| |done..]. apply Hin, elem_of_app. by left.
  - intros j Hj%elem_of_warp_keys. apply grid_spec in Hw. lia.
Qed.

(** ** Lemmas: [query_uvm] *)

Section Uvm.
Context (table : Z).
Local Abbreviation address := (embed_cache_get_address K cfg num_sets cache_ptr tags table tbl).
Local Abbreviation uvm_warp := (query_uvm_warp K cfg num_sets cache_ptr count_misses tags rows tbl keys len d_values stride table).

Lemma lane_uvm_spec w j :
  w ∈ grid -> base w <= j < base w + 32 ->
  lane_uvm K cfg num_sets cache_ptr count_misses tags tbl keys len table (base w) (j - base w) =
    if decide (j < len) then (address (keys j), (way_mask (keys j) =? 0) && count_misses) else (0, false).
Proof.
  intros [H1 H2]%grid_spec Hj. pose proof n_block_bounds. unfold lane_uvm.
  replace (wrapu 32 (base w + (j - base w))) with j by (rewrite wrapu_small; unfold in_u; lia).
  destruct (Z.leb_spec len j); [by rewrite decide_False by lia|by rewrite decide_True].
Qed.

Lemma query_uvm_warp_row st w j :
  w ∈ grid ->
  out_row (u_values (uvm_warp st w)) j =
    if decide (j ∈ warp_keys w /\ address (keys j) <> 0) then mem_read rows (address (keys j)) row else out_row (u_values st) j.
Proof.
  intros Hw. unfold query_uvm_warp. rewrite warp_ptr_spec by done. cbn [u_values]. unfold out_row.
  rewrite copy_lanes_row by (lia || apply element_size_spec).
  destruct (decide (0 <= j - base w < 32)) as [Hj|Hj].
  - rewrite lane_uvm_spec by (done || lia). destruct (decide (j < len)) as [Hl|Hl]; simpl.
    + apply decide_ext. rewrite elem_of_warp_keys. split; intros [? ?]; split; done || lia.
    + rewrite !decide_False; [done|rewrite elem_of_warp_keys; lia|tauto].
  - rewrite !decide_False; [done|rewrite elem_of_warp_keys; lia|tauto].
Qed.

Lemma query_uvm_warp_misses st w :
  w ∈ grid ->
  u_misses (uvm_warp st w) = u_misses st +
    Z.of_nat (length (filter (fun j => way_mask (keys j) = 0 /\ count_misses = true) (warp_keys w))).
Proof.
  intros Hw. unfold query_uvm_warp. rewrite warp_ptr_spec by done. cbn [u_misses]. do 2 f_equal.
  unfold warp_keys. rewrite list_filter_filter.
  symmetry. apply length_filter_shift. intros s Hs.
  pose proof (lane_uvm_spec w (base w + s) Hw ltac:(lia)) as E. replace (base w + s - base w) with s in E by lia. rewrite E.
  destruct (decide (base w + s < len)); simpl; [|naive_solver]. rewrite andb_true_iff, Z.eqb_eq. tauto.
Qed.

Lemma query_uvm_rows order st j :
  order ≡ₚ grid ->
  out_row (u_values (fold_left uvm_warp order st)) j =
    if decide (0 <= j < len /\ address (keys j) <> 0) then mem_read rows (address (keys j)) row else out_row (u_values st) j.
Proof.
  intros Ho. assert (Hin : forall w, w ∈ order -> w ∈ grid) by (intros w; by rewrite Ho).
  rewrite (fold_groups (fun st => out_row (u_values st)) uvm_warp warp_keys (fun j => address (keys j) <> 0)
    (fun j => mem_read rows (address (keys j)) row)).
  - apply decide_ext. rewrite grid_keys, elem_of_seqZ by done. lia.
  - intros v w Hw. by apply query_uvm_warp_row, Hin.
Qed.

Lemma query_uvm_misses order st :
  order ≡ₚ grid ->
  u_misses (fold_left uvm_warp order st) = u_misses st +
    if count_misses then Z.of_nat (length (filter (fun j => way_mask (keys j) = 0) (seqZ 0 len))) else 0.
Proof.
  intros Ho. assert (Hin : forall w, w ∈ order -> w ∈ grid) by (intros w; by rewrite Ho).
  transitivity (u_misses st + Z.of_nat (length (filter (fun j => way_mask (keys j) = 0 /\ count_misses = true) (order ≫= warp_keys)))).
  - clear Ho. revert st. induction order as [|w order IH]; intros st; [simpl; lia|]. cbn [fold_left].
    rewrite IH by (intros; apply Hin; by right). rewrite query_uvm_warp_misses by (apply Hin; by left).
    rewrite bind_cons, filter_app, length_app. lia.
  - f_equal. rewrite (grid_keys order Ho). destruct count_misses.
    + do 2 f_equal. apply filter_ext_in. intros; tauto.
    + rewrite (filter_ext_in _ (fun _ => False)) by naive_solver. by induction (seqZ 0 len).
Qed.
End Uvm.

(** ** Lemmas: [query] with a list of missing keys *)

Local Abbreviation search := (search_thread K num_sets count_misses tags tbl keys len).
Local Abbreviation missing_group := (query_missing_group K cfg num_sets cache_ptr tags rows tbl keys len d_values stride).

Lemma search_threads threads st :
  let l := filter (fun j => j < len /\ way_mask (keys j) = 0) threads in
  missing (fold_left search threads st) = missing st ++ ((fun j => (j, keys j)) <$> l) /\
  m_misses (fold_left search threads st) = m_misses st + if count_misses then Z.of_nat (length l) else 0.
Proof using Type.
  clear Hptr Hrow Hlen rows.
  revert st. induction threads as [|j threads IH]; intros st; cbv zeta.
  { simpl. rewrite app_nil_r. destruct count_misses; split; done || lia. }
  destruct (IH (search st j)) as [IH1 IH2]. cbn [fold_left]. rewrite IH1, IH2. rewrite filter_cons. unfold search_thread.
  destruct (Z.leb_spec len j); [rewrite decide_False by lia; split; done|].
  destruct (Z.eqb_spec (way_mask (keys j)) 0); [rewrite decide_True by done|rewrite decide_False by tauto; split; done].
  simpl. rewrite <- app_assoc. split; [done|]. destruct count_misses; lia.
Qed.

Lemma search_grid threads st :
  threads ≡ₚ grid_threads len ->
  let l := filter (fun j => way_mask (keys j) = 0) (seqZ 0 len) in
  missing (fold_left search threads st) ≡ₚ missing st ++ ((fun j => (j, keys j)) <$> l) /\
  m_misses (fold_left search threads st) = m_misses st + if count_misses then Z.of_nat (length l) else 0.
Proof using Hlen.
  clear Hptr Hrow rows.
  intros Ht l. destruct (search_threads threads st) as [-> ->].
  assert (Hl : filter (fun j => j < len /\ way_mask (keys j) = 0) threads ≡ₚ l).
  { rewrite Ht. unfold grid_threads, l. pose proof n_block_bounds.
    replace (n_block len * 128) with (len + (n_block len * 128 - len)) by lia.
    rewrite seqZ_app, filter_app by lia. rewrite (filter_ext_in _ (fun _ => False) (seqZ (0 + len) _)).
    - rewrite (filter_ext_in _ (fun j => way_mask (keys j) = 0)) by (intros j Hj%elem_of_seqZ; naive_solver lia).
      replace (filter (fun _ => False) _) with (@nil Z) by (by induction (seqZ (0 + len) _)). by rewrite app_nil_r.
    - intros j Hj%elem_of_seqZ. lia. }
  split; [by rewrite Hl|]. destruct count_misses; [|done]. by rewrite Hl.
Qed.

Lemma missing_shape_spec :
  let '(w, e) := missing_shape cfg in (w = 32 \/ w = 4) /\ 0 < e /\ (e | row).
Proof.
  unfold missing_shape.
  destruct (Z.eqb_spec (row mod (16 * 32)) 0) as [E|_].
  { apply Z.mod_divide in E as [q ->]; [|done]. split_and!; [by left|done|]. exists (q * 32). ring. }
  destruct (Z.eqb_spec (row mod (4 * 32)) 0) as [E|_].
  { apply Z.mod_divide in E as [q ->]; [|done]. split_and!; [by left|done|]. exists (q * 32). ring. }
  destruct (Z.eqb_spec (row mod (16 * 4)) 0) as [E|_].
  { apply Z.mod_divide in E as [q ->]; [|done]. split_and!; [by right|done|]. exists (q * 4). ring. }
  split_and!; [by left|done|apply Z.divide_1_l].
Qed.

Lemma query_missing_rows groups v j :
  groups ≡ₚ grid_groups cfg len ->
  out_row (fold_left missing_group groups v) j =
    if decide (0 <= j < len /\ way_mask (keys j) <> 0) then mem_read rows (row_ptr (keys j)) row else out_row v j.
Proof.
  intros Hg. pose proof missing_shape_spec as Hs.
  rewrite (fold_groups out_row missing_group (fun b => seqZ b (missing_shape cfg).1)
    (fun j => j < len /\ way_mask (keys j) <> 0) (fun j => mem_read rows (row_ptr (keys j)) row)).
  - apply decide_ext. rewrite list_elem_of_bind. setoid_rewrite elem_of_seqZ. setoid_rewrite Hg.
    unfold grid_groups. setoid_rewrite list_elem_of_fmap. setoid_rewrite elem_of_seqZ. destruct (missing_shape cfg) as [w e]. simpl.
    split.
    + intros [(b & Hj & i & -> & Hi) Hl]. destruct Hs as [Hw _]. nia.
    + intros [Hj Hm]. split; [|tauto]. pose proof n_block_bounds. exists (j / w * w).
      pose proof (Z.div_mod j w ltac:(lia)). pose proof (Z.mod_pos_bound j w ltac:(lia)). split; [lia|].
      exists (j / w). split; [done|]. split; [apply Z.div_pos; lia|].
      apply Z.div_lt_upper_bound; [lia|]. destruct Hs as [[-> | ->] _]; [change (128 / 32) with 4|change (128 / 4) with 32]; lia.
  - intros u b _. unfold out_row, query_missing_group. destruct (missing_shape cfg) as [w e]. simpl in *.
    destruct Hs as (Hw & He & Hd). rewrite copy_lanes_row by (lia || done).
    replace (b + (j - b)) with j by lia. unfold lane_missing.
    destruct (decide (j ∈ seqZ b w /\ _)) as [(Hj & Hl & Hm)|Hn].
    + apply elem_of_seqZ in Hj. rewrite (proj2 (Z.leb_gt _ _)), (proj2 (Z.eqb_neq _ _)) by (done || lia).
      rewrite decide_True; [done|]. split; [lia|by apply Hptr].
    + rewrite decide_False; [done|]. intros [Hj Hp]. apply Hn. rewrite elem_of_seqZ. split; [lia|].
      destruct (Z.leb_spec len j); [done|]. destruct (Z.eqb_spec (way_mask (keys j)) 0); [done|]. done.
Qed.
End QueryLemmas.

(** ** Lemmas: sort and gather *)

Lemma fold_left_bind {A B S} (f : S -> B -> S) (g : A -> list B) l st :
  fold_left (fun st a => fold_left f (g a) st) l st = fold_left f (l ≫= g) st.
Proof. revert st. induction l as [|a l IH]; intros st; [done|]. by rewrite bind_cons, fold_left_app, <- IH. Qed.

Section GatherLemmas.
Context (num_keys n : Z) (Hn : 0 < n) (Hkeys : 0 <= num_keys) (Hfit : num_keys + 4 * n < 2 ^ 32).

Lemma gather_grid_spec w :
  w ∈ gather_grid num_keys n <-> 0 <= w.1 < ceil_div num_keys (n * 4) /\ 0 <= w.2 < 4.
Proof.
  unfold gather_grid. rewrite wrapu_small by (unfold in_u; lia). rewrite list_elem_of_bind. setoid_rewrite list_elem_of_bind. split.
  - intros (b & (y & Hw & Hy) & Hb). apply list_elem_of_singleton in Hw as ->. rewrite elem_of_seqZ in Hy, Hb. simpl. lia.
  - intros [H1 H2]. exists w.1. split; [exists w.2; split|]; [apply list_elem_of_singleton; by destruct w|apply elem_of_seqZ; lia..].
Qed.

(** The warps of [gather] cover exactly the entries of the list. *)
Lemma gather_covers order i :
  order ≡ₚ gather_grid num_keys n -> i ∈ order ≫= gather_entries num_keys n <-> 0 <= i < num_keys.
Proof.
  intros Ho. rewrite list_elem_of_bind. setoid_rewrite Ho. setoid_rewrite gather_grid_spec.
  pose proof (ceil_div_bounds num_keys (n * 4) Hkeys ltac:(lia)) as Hc. split.
  - intros (w & Hi & Hw). unfold gather_entries in Hi.
    rewrite wrapu_small in Hi by (unfold in_u; nia).
    destruct (Z.ltb_spec (w.1 * n * 4 + w.2 * n) num_keys); [|by apply not_elem_of_nil in Hi].
    apply list_elem_of_bind in Hi as (q & Hi & Hq). apply elem_of_seqZ in Hq. cbv zeta in Hi.
    destruct (Z.leb_spec (w.1 * n * 4 + w.2 * n + q * 32 + 32) num_keys); apply elem_of_seqZ in Hi; nia.
  - intros Hi. pose proof (Z.div_mod i (n * 4) ltac:(lia)) as Hdm. pose proof (Z.mod_pos_bound i (n * 4) ltac:(lia)) as Hm.
    pose proof (Z.div_mod (i mod (n * 4)) n ltac:(lia)) as Hdm2. pose proof (Z.mod_pos_bound (i mod (n * 4)) n ltac:(lia)) as Hm2.
    assert (Hd : 0 <= i / (n * 4)) by (apply Z.div_pos; lia). assert (Hd2 : 0 <= i mod (n * 4) / n) by (apply Z.div_pos; lia).
    set (b := i / (n * 4)) in *. set (y := i mod (n * 4) / n) in *. set (r := i mod (n * 4) mod n) in *.
    exists (b, y). simpl. split; [|split; [split; [lia|nia]|nia]].
    unfold gather_entries. simpl. assert (Ei : i = b * n * 4 + y * n + r) by lia.
    rewrite wrapu_small by (unfold in_u; nia). rewrite (proj2 (Z.ltb_lt _ _)) by lia.
    apply list_elem_of_bind. exists (r / 32). pose proof (Z.div_mod r 32 ltac:(lia)). pose proof (Z.mod_pos_bound r 32 ltac:(lia)).
    set (t := b * n * 4 + y * n) in *. split.
    + cbv zeta. destruct (Z.leb_spec (t + r / 32 * 32 + 32) num_keys); apply elem_of_seqZ; lia.
    + apply elem_of_seqZ. pose proof (ceil_div_bounds (Z.min (num_keys - t) n) 32 ltac:(lia) ltac:(lia)). lia.
Qed.
End GatherLemmas.

(** ** Lookups in a coherent cache *)

Section CacheLookups.
Context (K T : int_type) (cfg : CacheConfig) (num_sets cache_base : Z) (count_misses : bool).
Context (HK : 0 < width K) (HT : 0 < width T) (Hns : 0 < num_sets <= 2 ^ 32) (Hbase : 0 < cache_base).
Context (keys : Z -> Z) (len d_values stride : Z).
Local Abbreviation row := (embed_width_in_bytes cfg).
Context (Hrow : 0 < row <= stride) (Hlen : 0 <= len < 2 ^ 32 - 128).
Context (val : Z -> list Z) (tbl : Z) (s : hm_state) (Htbl : 0 <= tbl) (Hslots : (tbl + 1) * num_sets * NUM_WAYS <= 2 ^ 32).
Context (Hinv : cache_inv K T cfg num_sets cache_base val tbl s).
Context (Hkeys : forall j, 0 <= j < len -> valid_key K T cfg num_sets (keys j)).

(** Whether the cache holds a key. *)
Definition resident (k : Z) : bool := bool_decide (is_Some (find_way K num_sets (h_tags s) tbl k)).

Local Abbreviation way_mask := (lane_way_mask K num_sets (d_tags s) tbl).
Local Abbreviation row_ptr := (lane_row_ptr K cfg num_sets cache_base (d_tags s) tbl).

Lemma way_mask_resident k : way_mask k <> 0 <-> resident k = true.
Proof.
  unfold lane_way_mask, resident. rewrite bool_decide_eq_true.
  pose proof (way_mask_find K num_sets HK (d_tags s) tbl k) as H.
  rewrite (find_way_device K T cfg num_sets cache_base Hns val) in H by done.
  destruct (find_way _ _ _ _ _); [|rewrite H; split; [done|by intros [? [=]]]]. split; [by eexists|intros _; apply H].
Qed.

Lemma way_mask_absent k : way_mask k = 0 <-> resident k = false.
Proof. pose proof (way_mask_resident k). destruct (resident k); intuition (congruence || lia). Qed.

Lemma absent_filter (l : list Z) : filter (fun j => way_mask (keys j) = 0) l = filter (fun j => resident (keys j) = false) l.
Proof. apply filter_ext_in. intros j _. apply way_mask_absent. Qed.

(** The row pointer of the kernel is the address of the slot. *)
Lemma row_ptr_slot k j :
  find_way K num_sets (h_tags s) tbl k = Some j ->
  row_ptr k = slot_addr cfg num_sets cache_base tbl (hash K num_sets k) j.
Proof.
  intros Hf. pose proof (way_mask_find K num_sets HK (d_tags s) tbl k) as H.
  rewrite (find_way_device K T cfg num_sets cache_base Hns val), Hf in H by done. destruct H as [_ Hj].
  pose proof (hash_range K num_sets Hns k) as Hh. apply find_Some_In in Hf as [Hw%elem_of_ways _].
  unfold lane_row_ptr, lane_way_mask. rewrite Hj. unfold hash in *. unfold NUM_WAYS in *.
  rewrite (wrapu_small 32 (tbl * num_sets)) by (unfold in_u; nia).
  rewrite (wrapu_small 32 (tbl * num_sets * 8)) by (unfold in_u; nia).
  rewrite wrapu_small by (unfold in_u; nia). unfold slot_addr, NUM_WAYS. ring.
Qed.

Lemma row_ptr_nonzero k : way_mask k <> 0 -> row_ptr k <> 0.
Proof.
  rewrite way_mask_resident. unfold resident. rewrite bool_decide_eq_true. intros [j Hj]. rewrite (row_ptr_slot k j Hj).
  apply find_Some_In in Hj as [Hw%elem_of_ways _]. pose proof (hash_range K num_sets Hns k). unfold slot_addr, NUM_WAYS in *. nia.
Qed.

Lemma row_ptr_val k : valid_key K T cfg num_sets k -> way_mask k <> 0 -> mem_read (mem s) (row_ptr k) row = val k.
Proof.
  rewrite way_mask_resident. unfold resident. rewrite bool_decide_eq_true. intros Hk [j Hj]. rewrite (row_ptr_slot k j Hj).
  by apply (ci_rows _ _ _ _ _ _ _ _ Hinv).
Qed.

Local Abbreviation lookup_mask := (lookup_hit_mask K cfg num_sets cache_base count_misses (d_tags s) (mem s) tbl keys len d_values stride).
Local Abbreviation row_at := (fun v j => mem_read v (d_values + j * stride) row).

Lemma query_hit_mask_lemma (order : list (Z * Z)) (st : query_state) :
  order ≡ₚ grid len ->
  exists st', lookup_mask order true st = (ECERROR_SUCCESS, st') /\
    (forall j, 0 <= j -> key_bit st' j = key_bit st j || ((j <? len) && resident (keys j))) /\
    (forall j, row_at (q_values st') j =
      if (0 <=? j) && (j <? len) && negb (key_bit st j) && resident (keys j)
      then val (keys j) else row_at (q_values st) j) /\
    q_misses st' = q_misses st + (if count_misses then
      Z.of_nat (length (filter (fun j => key_bit st j = false /\ resident (keys j) = false) (seqZ 0 len))) else 0).
Proof.
  intros Ho. set (st' := fold_left (query_hit_mask_warp K cfg num_sets cache_base count_misses (d_tags s) (mem s) tbl keys len d_values stride) order st).
  assert (Hs : served K cfg num_sets cache_base count_misses (d_tags s) (mem s) tbl keys d_values stride (seqZ 0 len) st st')
    by (apply query_hit_mask_served; [done|done|apply row_ptr_nonzero|done]).
  exists (if 0 <? len then st' else st). split; [unfold lookup_hit_mask; by destruct (0 <? len)|].
  replace (if 0 <? len then st' else st) with st'.
  2:{ destruct (Z.ltb_spec 0 len); [done|]. assert (len = 0) as -> by lia. unfold st'.
      apply Permutation_nil_r in Ho as ->. done. }
  destruct Hs as [Hb Hr Hm]. split; [|split].
  - intros j Hj. rewrite Hb by done. f_equal. apply eq_true_iff_eq.
    rewrite bool_decide_eq_true, andb_true_iff, way_mask_resident, elem_of_seqZ, Z.ltb_lt. lia || intuition lia.
  - intros j. unfold out_row in Hr. rewrite Hr. destruct (decide _) as [(Hj & Hk & Hw)|Hn].
    + apply elem_of_seqZ in Hj. rewrite Hk, (proj1 (way_mask_resident _) Hw).
      rewrite (proj2 (Z.leb_le _ _)), (proj2 (Z.ltb_lt _ _)) by lia. simpl. apply row_ptr_val; [apply Hkeys; lia|done].
    + destruct ((0 <=? j) && _ && _ && _) eqn:E; [|done]. destruct Hn. rewrite elem_of_seqZ, way_mask_resident.
      destruct (key_bit st j), (resident (keys j)); split_and?; simpl in *; try done; lia.
  - rewrite Hm. destruct count_misses; [|done]. do 3 f_equal. apply filter_ext_in. intros j _. unfold missed.
    by rewrite way_mask_absent.
Qed.

(** C28. A lookup with a hit mask in a coherent cache, the warps of the grid in any order:
    it sets exactly the bits of the keys the cache holds, writes for each key that was
    not hit before and is held the row the application associates with it, leaves the
    rows of all other keys (and all rows past the end) as they were, and counts the
    keys that are neither. *)
Theorem query_hit_mask_correct (order : list (Z * Z)) (st : query_state) :
  order ≡ₚ grid len ->
  exists st', lookup_mask order true st = (ECERROR_SUCCESS, st') /\
    (forall j, 0 <= j -> key_bit st' j = key_bit st j || ((j <? len) && resident (keys j))) /\
    (forall j, row_at (q_values st') j =
      if (0 <=? j) && (j <? len) && negb (key_bit st j) && resident (keys j)
      then val (keys j) else row_at (q_values st) j) /\
    q_misses st' = q_misses st + (if count_misses then
      Z.of_nat (length (filter (fun j => key_bit st j = false /\ resident (keys j) = false) (seqZ 0 len))) else 0).
Proof. apply query_hit_mask_lemma. Qed.

(** A lookup backed by a table delivers, for every key and any order of the warps, the
    row the application associates with it, whether the cache holds it or not, writes no
    other row of the output, and counts the keys the cache does not hold. *)
Lemma query_uvm_correct (order : list (Z * Z)) (table : Z) (st : uvm_state) :
  order ≡ₚ grid len -> 0 < table ->
  (forall j, 0 <= j < len -> 0 < table + keys j * row < 2 ^ 64) ->
  (forall j, 0 <= j < len -> mem_read (mem s) (table + keys j * row) row = val (keys j)) ->
  exists st', lookup_uvm K cfg num_sets cache_base count_misses (d_tags s) (mem s) tbl keys len d_values stride table order true st =
      (ECERROR_SUCCESS, st') /\
    (forall j, row_at (u_values st') j = if (0 <=? j) && (j <? len) then val (keys j) else row_at (u_values st) j) /\
    u_misses st' = u_misses st + (if count_misses then
      Z.of_nat (length (filter (fun j => resident (keys j) = false) (seqZ 0 len))) else 0).
Proof.
  intros Ho Hnz Hr Hv. set (st' := fold_left (query_uvm_warp K cfg num_sets cache_base count_misses (d_tags s) (mem s) tbl keys len d_values stride table) order st).
  exists (if 0 <? len then st' else st). split; [unfold lookup_uvm; by destruct (0 <? len)|].
  replace (if 0 <? len then st' else st) with st'.
  2:{ destruct (Z.ltb_spec 0 len); [done|]. assert (len = 0) as -> by lia. unfold st'.
      apply Permutation_nil_r in Ho as ->. done. }
  split.
  - intros j. pose proof (query_uvm_rows K cfg num_sets cache_base count_misses (d_tags s) (mem s) tbl keys len d_values stride Hrow Hlen table order st j Ho) as E.
    unfold out_row in E. fold st' in E. rewrite E.
    destruct (decide (0 <= j < len)) as [Hj|Hj].
    + rewrite (proj2 (Z.leb_le _ _)), (proj2 (Z.ltb_lt _ _)) by lia. specialize (Hr j Hj).
      pose proof (lookup_transparent K T cfg num_sets cache_base HK Hns val tbl s table (keys j) Hinv (Hkeys j Hj) ltac:(lia)
        ltac:(unfold in_u; lia) (Hv j Hj)) as Hl. unfold lookup_row in Hl.
      rewrite decide_True; [done|]. split; [done|]. rewrite get_address_spec by done.
      destruct (find_way _ _ _ _ _) as [i|] eqn:Ef.
      * apply find_Some_In in Ef as [Hw%elem_of_ways _]. pose proof (hash_range K num_sets Hns (keys j)). unfold slot_addr, NUM_WAYS in *. nia.
      * rewrite (proj2 (Z.eqb_neq _ _)), wrapu_small by (unfold in_u; lia). lia.
    + rewrite decide_False by tauto. destruct (Z.leb_spec 0 j), (Z.ltb_spec j len); done || lia.
  - unfold st'. rewrite query_uvm_misses by done. by rewrite absent_filter.
Qed.

(** A lookup that collects the missing keys, threads and groups of lanes in any order:
    the list holds every key the cache does not hold with its position, once each; the
    rows of the keys it holds are delivered and no other row is written. *)
Theorem query_missing_correct (threads groups : list Z) (misses : Z) (v : memory) :
  threads ≡ₚ grid_threads len -> groups ≡ₚ grid_groups cfg len ->
  let r := lookup_missing K cfg num_sets cache_base count_misses (d_tags s) (mem s) tbl keys len d_values stride threads groups misses v in
  let absent := filter (fun j => resident (keys j) = false) (seqZ 0 len) in
  missing r.1 ≡ₚ ((fun j => (j, keys j)) <$> absent) /\
  m_misses r.1 = misses + (if count_misses then Z.of_nat (length absent) else 0) /\
  (forall j, row_at r.2 j = if (0 <=? j) && (j <? len) && resident (keys j) then val (keys j) else row_at v j).
Proof.
  intros Ht Hg r absent.
  assert (E : r = (fold_left (search_thread K num_sets count_misses (d_tags s) tbl keys len) threads {| missing := []; m_misses := misses |},
    fold_left (query_missing_group K cfg num_sets cache_base (d_tags s) (mem s) tbl keys len d_values stride) groups v)).
  { unfold r, lookup_missing. destruct (Z.ltb_spec 0 len); [done|]. assert (len = 0) as -> by lia.
    apply Permutation_nil_r in Ht as ->. by apply Permutation_nil_r in Hg as ->. }
  rewrite E. cbn [fst snd]. clear E r.
  destruct (search_grid K num_sets count_misses (d_tags s) tbl keys len Hlen threads {| missing := []; m_misses := misses |} Ht) as [Hm Hc].
  rewrite absent_filter in Hm, Hc. split; [exact Hm|]. split; [exact Hc|]. intros j.
  pose proof (query_missing_rows K cfg num_sets cache_base (d_tags s) (mem s) tbl keys len d_values stride Hrow Hlen row_ptr_nonzero groups v j Hg) as E.
  unfold out_row in E. rewrite E. destruct (decide _) as [[Hj Hw]|Hn].
  - rewrite (proj2 (Z.leb_le _ _)), (proj2 (Z.ltb_lt _ _)), (proj1 (way_mask_resident _) Hw) by lia. by apply row_ptr_val; [apply Hkeys|].
  - rewrite way_mask_resident in Hn. destruct (Z.leb_spec 0 j), (Z.ltb_spec j len), (resident (keys j)); try done. tauto.
Qed.

End CacheLookups.

(** ** Sort and gather in a coherent cache *)

Section SortGatherLookups.
Context (K T : int_type) (cfg : CacheConfig) (num_sets cache_base : Z) (count_misses : bool).
Context (HK : 0 < width K) (HT : 0 < width T) (Hns : 0 < num_sets <= 2 ^ 32).
Context (keys : Z -> Z) (num_keys uvm dst : Z) (sort_pairs : list (Z * FindOutput) -> list (Z * FindOutput)).
Context (Hsort : forall l, sort_pairs l ≡ₚ l).
Local Abbreviation row := (embed_width_in_bytes cfg).
Context (Hrow : 0 < row) (Hnum : 0 <= num_keys).
Context (val : Z -> list Z) (s : hm_state) (Hslots : num_sets * NUM_WAYS <= 2 ^ 32).
Context (Hinv : cache_inv K T cfg num_sets cache_base val 0 s).
Context (Hkeys : forall j, 0 <= j < num_keys -> valid_key K T cfg num_sets (keys j)).
Context (Haddr : forall j, 0 <= j < num_keys -> in_u 64 (uvm + keys j * row)).
Context (Htable : forall j, 0 <= j < num_keys -> mem_read (mem s) (uvm + keys j * row) row = val (keys j)).

Local Abbreviation thread := (find_thread K cfg num_sets cache_base (d_tags s) keys uvm dst).

(** The source of every pair holds the row of its key. *)
Lemma find_thread_src j : 0 <= j < num_keys -> mem_read (mem s) (src_ptr (thread j).2) row = val (keys j).
Proof.
  intros Hj. unfold find_thread. cbn [snd src_ptr].
  destruct (Z.eqb_spec (lane_way_mask K num_sets (d_tags s) 0 (keys j)) 0) as [E|E]; cbn [negb].
  - rewrite wrapu_small by auto. by apply Htable.
  - apply (row_ptr_val K T cfg num_sets cache_base HK Hns val 0 s ltac:(lia) ltac:(lia) Hinv); auto.
Qed.

(** The list of pairs the kernel gathers from, by key. *)
Lemma sorted_pairs :
  exists l, l ≡ₚ seqZ 0 num_keys /\
    snd <$> sort_pairs (thread <$> seqZ 0 num_keys) = (fun j => (thread j).2) <$> l.
Proof.
  destruct (Permutation_map_inv thread (seqZ 0 num_keys) (Hsort (thread <$> seqZ 0 num_keys))) as (l & E & Hl).
  exists l. split; [by symmetry|]. change (sort_pairs (thread <$> seqZ 0 num_keys) = thread <$> l) in E. rewrite E.
  by rewrite <- list_fmap_compose.
Qed.

Lemma gather_pairs (l es : list Z) v :
  fold_left (fun v i =>
      match ((fun j => (thread j).2) <$> l) !! Z.to_nat i with
      | Some o => warp_copy 32 (if row mod 16 =? 0 then 16 else if row mod 4 =? 0 then 4 else 1) row (mem s) (dst_ptr o) (src_ptr o) v
      | None => v
      end) es v =
  fold_left (fun v j => warp_copy 32 (element_size cfg) row (mem s) (dst + j * row) (src_ptr (thread j).2) v)
    (omap (fun i => l !! Z.to_nat i) es) v.
Proof.
  revert v. induction es as [|i es IH]; intros v; [done|]. cbn [fold_left omap list_omap]. rewrite list_lookup_fmap.
  destruct (l !! Z.to_nat i) as [j|]; simpl; by rewrite IH.
Qed.

(** [lookup_sort_gather] with a buffer that is large enough, whatever the sort does with
    the order of the pairs, for any positive block size and any order of the warps: when
    the rows of the output follow each other without padding, every key gets the row
    the application associates with it, no other row is written, and the keys the cache
    does not hold are counted. *)
Lemma sort_gather_correct (cub_aux_bytes aux block_size misses : Z) (order : list (Z * Z)) (v : memory) :
  aux_required K num_keys cub_aux_bytes <= aux -> 0 < block_size -> num_keys + 4 * block_size < 2 ^ 32 ->
  order ≡ₚ gather_grid num_keys block_size ->
  exists v', lookup_sort_gather K cfg num_sets cache_base count_misses (d_tags s) (mem s) keys num_keys uvm dst sort_pairs
      cub_aux_bytes (Some aux) row block_size order v misses =
      Ok (ECERROR_SUCCESS, None, v', misses + find_misses K num_sets count_misses (d_tags s) keys num_keys) /\
    forall j, mem_read v' (dst + j * row) row =
      if (0 <=? j) && (j <? num_keys) then val (keys j) else mem_read v (dst + j * row) row.
Proof.
  intros Haux Hb Hfit Ho. unfold lookup_sort_gather. rewrite (proj2 (Z.ltb_ge _ _)) by done.
  destruct (Z.ltb_spec 0 num_keys) as [Hpos|Hzero].
  2:{ assert (num_keys = 0) as -> by lia. exists v. unfold find_misses. split; [by destruct count_misses; rewrite Z.add_0_r|].
      intros j. destruct (Z.leb_spec 0 j), (Z.ltb_spec j 0); done || lia. }
  unfold call_sort_gather. rewrite (wrapu_small 32 block_size), (wrapu_small 32 (block_size * 4)) by (unfold in_u; lia).
  rewrite (proj2 (Z.eqb_neq _ _)) by lia. simpl obind. eexists. split; [done|]. intros j.
  destruct sorted_pairs as (l & Hl & ->). unfold gather_warp.
  rewrite (fold_left_bind _ (gather_entries num_keys block_size)), gather_pairs.
  set (js := omap _ _).
  assert (Hjs : forall k, k ∈ js <-> 0 <= k < num_keys).
  { intros k. unfold js. rewrite list_elem_of_omap. setoid_rewrite gather_covers; [|done..]. split.
    - intros (i & _ & Hk%list_elem_of_lookup_2). rewrite Hl, elem_of_seqZ in Hk. lia.
    - intros Hk. assert (Hin : k ∈ l) by (rewrite Hl, elem_of_seqZ; lia). apply list_elem_of_lookup in Hin as [i Hi].
      exists (Z.of_nat i). rewrite Nat2Z.id. split; [|done]. apply lookup_lt_Some in Hi.
      rewrite Hl, length_seqZ in Hi. lia. }
  pose proof (fold_rows_spec row row ltac:(lia) (fun j m => warp_copy 32 (element_size cfg) row (mem s) (dst + j * row) (src_ptr (thread j).2) m)
    id (fun j => src_ptr (thread j).2) (fun _ => true) (mem s) dst js v j) as E. cbv beta iota in E. rewrite E; clear E.
  - destruct (List.find _ js) as [k|] eqn:Ef.
    + apply find_Some_In in Ef as [Hk Ek]. apply Hjs in Hk. assert (k = j) as -> by (unfold id in Ek; lia).
      rewrite (proj2 (Z.leb_le _ _)), (proj2 (Z.ltb_lt _ _)) by lia. by apply find_thread_src.
    + destruct ((0 <=? j) && (j <? num_keys)) eqn:Ej; [|done]. exfalso.
      apply (find_None_In _ _ j) in Ef; [|apply Hjs; lia]. cbv beta in Ef. unfold id in Ef. lia.
  - intros i m a. destruct (element_size_spec cfg) as [? ?]. apply warp_copy_spec; done || lia.
  - unfold id. by intros i i' _ _ ->.
Qed.
End SortGatherLookups.

(** ** Concrete lookups *)

(** The cache of 3 sets at address 16 with key 5 of table 0 inserted; keys 5 and 7 are
    looked up, the table is at 1000 and the output at 2000. *)
Definition demo_at16 : hm_state :=
  (insert int64_t int64_t demo_cc 3 16 f32_one id demo_acc demo_ok_env (Some (demo_ctx 4)) [(5, f32_one, 1020)] 0 demo_clear).2.
Definition demo_keys (j : Z) : Z := if j =? 0 then 5 else 7.
Definition demo_query : query_state := {| q_mask := fun _ => 0; q_values := fun _ => 0; q_misses := 10 |}.

Lemma demo_at16_inv : cache_inv int64_t int64_t demo_cc 3 16 demo_val 0 demo_at16.
Proof.
  destruct (insert_inv int64_t int64_t demo_cc 3 16 f32_one id demo_acc eq_refl eq_refl ltac:(lia) eq_refl
    (fun l => Permutation_refl l) demo_val 0 demo_ok_env (demo_ctx 4) [(5, f32_one, 1020)] demo_clear)
    as (c' & s' & E & H & _).
  - done.
  - done.
  - apply clear_cache_inv; [done|done|by simpl|done].
  - intros k' p d Hin%list_elem_of_singleton. injection Hin as -> -> ->.
    split; [by apply demo_valid|]. split; [|done]. intros set way [Hs Hw]. unfold disjoint, slot_addr, NUM_WAYS in *. simpl. lia.
  - assert (Es : s' = demo_at16) by exact (f_equal snd (eq_sym E)). by rewrite <- Es.
Qed.

Lemma demo_keys_valid j : 0 <= j < 2 -> valid_key int64_t int64_t demo_cc 3 (demo_keys j).
Proof. intros _. unfold demo_keys. destruct (j =? 0); by apply demo_valid. Qed.

Lemma query_hit_mask_correct_witness :
  exists st', lookup_hit_mask int64_t demo_cc 3 16 true (d_tags demo_at16) (mem demo_at16) 0 demo_keys 2 2000 8
      (reverse (grid 2)) true demo_query = (ECERROR_SUCCESS, st') /\
    key_bit st' 0 = true /\ key_bit st' 1 = false /\ mem_read (q_values st') 2000 4 = demo_val 5 /\ q_misses st' = 11.
Proof.
  destruct (query_hit_mask_correct int64_t int64_t demo_cc 3 16 true eq_refl ltac:(lia) ltac:(lia) demo_keys 2 2000 8
    ltac:(simpl; lia) ltac:(lia) demo_val 0 demo_at16 ltac:(lia) ltac:(unfold NUM_WAYS; lia) demo_at16_inv demo_keys_valid
    (reverse (grid 2)) demo_query (reverse_Permutation _)) as (st' & E & Hb & Hr & Hm).
  exists st'. split; [exact E|]. split; [rewrite Hb by lia; vm_compute; reflexivity|].
  split; [rewrite Hb by lia; vm_compute; reflexivity|]. split; [|rewrite Hm; vm_compute; reflexivity].
  change 2000 with (2000 + 0 * 8). change 4 with (embed_width_in_bytes demo_cc). rewrite Hr. vm_compute. reflexivity.
Defined.

Lemma query_uvm_correct_witness :
  exists st', lookup_uvm int64_t demo_cc 3 16 true (d_tags demo_at16) (mem demo_at16) 0 demo_keys 2 2000 8 1000
      (reverse (grid 2)) true {| u_values := fun _ => 0; u_misses := 0 |} = (ECERROR_SUCCESS, st') /\
    mem_read (u_values st') (2000 + 1 * 8) 4 = demo_val 7 /\ u_misses st' = 1.
Proof.
  destruct (query_uvm_correct int64_t int64_t demo_cc 3 16 true eq_refl ltac:(lia) ltac:(lia) demo_keys 2 2000 8
    ltac:(simpl; lia) ltac:(lia) demo_val 0 demo_at16 ltac:(lia) demo_at16_inv demo_keys_valid
    (reverse (grid 2)) 1000 {| u_values := fun _ => 0; u_misses := 0 |} (reverse_Permutation _)) as (st' & E & Hr & Hm).
  - lia.
  - intros j Hj. unfold demo_keys. destruct (j =? 0); simpl; lia.
  - intros j Hj. unfold demo_keys. destruct (j =? 0); vm_compute; reflexivity.
  - exists st'. split; [exact E|]. split; [|rewrite Hm; vm_compute; reflexivity].
    change 4 with (embed_width_in_bytes demo_cc). rewrite Hr. reflexivity.
Defined.

Lemma query_missing_correct_witness :
  let r := lookup_missing int64_t demo_cc 3 16 true (d_tags demo_at16) (mem demo_at16) 0 demo_keys 2 2000 8
      (reverse (grid_threads 2)) (reverse (grid_groups demo_cc 2)) 0 (fun _ => 0) in
  missing r.1 ≡ₚ [(1, 7)] /\ mem_read r.2 2000 4 = demo_val 5.
Proof.
  destruct (query_missing_correct int64_t int64_t demo_cc 3 16 true eq_refl ltac:(lia) ltac:(lia) demo_keys 2 2000 8
    ltac:(simpl; lia) ltac:(lia) demo_val 0 demo_at16 ltac:(lia) ltac:(unfold NUM_WAYS; lia) demo_at16_inv demo_keys_valid
    (reverse (grid_threads 2)) (reverse (grid_groups demo_cc 2)) 0 (fun _ => 0) (reverse_Permutation _) (reverse_Permutation _))
    as (Hm & _ & Hr).
  split; [exact Hm|]. exact (Hr 0).
Defined.

Lemma sort_gather_correct_witness :
  exists v', lookup_sort_gather int64_t demo_cc 3 16 true (d_tags demo_at16) (mem demo_at16) demo_keys 2 1000 2000 reverse
      64 (Some 1024) 4 5 (reverse (gather_grid 2 5)) (fun _ => 0) 0 = Ok (ECERROR_SUCCESS, None, v', 1) /\
    mem_read v' 2000 4 = demo_val 5 /\ mem_read v' 2004 4 = demo_val 7.
Proof.
  destruct (sort_gather_correct int64_t int64_t demo_cc 3 16 true eq_refl ltac:(lia) demo_keys 2 1000 2000 reverse
    (fun l => reverse_Permutation l) ltac:(simpl; lia) ltac:(lia) demo_val demo_at16 ltac:(unfold NUM_WAYS; lia)
    demo_at16_inv demo_keys_valid) with (cub_aux_bytes := 64) (aux := 1024) (block_size := 5) (misses := 0)
    (order := reverse (gather_grid 2 5)) (v := fun _ : Z => 0) as (v' & E & Hr).
  - intros j Hj. unfold demo_keys, in_u. destruct (j =? 0); simpl; lia.
  - intros j Hj. unfold demo_keys. destruct (j =? 0); vm_compute; reflexivity.
  - vm_compute. discriminate.
  - lia.
  - lia.
  - apply reverse_Permutation.
  - exists v'. split; [exact E|]. split; [exact (Hr 0)|exact (Hr 1)].
Defined.

(** With rows 8 bytes apart, [lookup_sort_gather] puts the row of the second key at the
    address of a packed output and copies 8 bytes per row: the second row of the output
    does not get the row of its key. *)
Theorem sort_gather_ignores_stride :
  exists v', lookup_sort_gather int64_t demo_cc 3 16 true (d_tags demo_at16) (mem demo_at16) demo_keys 2 1000 2000 id
      64 (Some 1024) 8 5 (gather_grid 2 5) (fun _ => 0) 0 = Ok (ECERROR_SUCCESS, None, v', 1) /\
    mem_read v' 2004 4 = demo_val 7 /\ mem_read v' (2000 + 1 * 8) 4 <> demo_val 7.
Proof. eexists. split; [reflexivity|]. split; [vm_compute; reflexivity|vm_compute; discriminate]. Qed.
