(* ===== verification/NoCache.v ===== *)
(** * The pass-through cache

    [ECNoCache<IndexT>] of [ec_no_cache.h] and its address functor of [ec_no_cache.cuh]: a
    cache object without storage. Lookups that report misses report every key, the lookup
    that is backed by a table reads every row from it, and modifications do nothing. *)
From S2P Require Import Prelude BitOps EcHash SetAssoc Float32 HostModify CacheCoherence CacheQuery.

Record nc_CacheData := { nc_row_size_in_bytes : Z; nc_count_misses : bool; nc_misses : Z }.

(** [lookup_context_create]: as in the set-associative cache, the loop tests the type of
    the first metric. *)
Definition nc_lookup_context_create (row : Z) (host_alloc : Z + Z) (metrics : list PerformanceMetric) : Z * option nc_CacheData :=
  match host_alloc with
  | inl err => (err, None)
  | inr _ =>
      (ECERROR_SUCCESS,
       Some (fold_left (fun d m =>
               match metrics with
               | m0 :: _ => if is_miss_metric m0
                            then {| nc_row_size_in_bytes := nc_row_size_in_bytes d; nc_count_misses := true; nc_misses := d_val m |} else d
               | [] => d
               end) metrics {| nc_row_size_in_bytes := row; nc_count_misses := false; nc_misses := 0 |}))
  end.
Definition nc_lookup_context_destroy (free_result : Z) : Z := free_result.

(** ** Metrics: a device block of [size] bytes holds the counter *)

Record nc_metric := { nm_block : Z; nm_size : Z; nm_type : PerformanceMerticTypes }.
Definition sizeof_metric_value : Z := 8.
(** [cudaMemset] of [n] bytes. *)
Definition nc_memset (m : nc_metric) (n : Z) : outcome unit :=
  if n <=? nm_size m then Ok tt else Undef "memset past the end of a device block".

Definition nc_performance_metric_create (ty : PerformanceMerticTypes) (device_alloc : Z + Z) (memset_ok : bool) : Z * option nc_metric :=
  match ty with
  | MERTIC_COUNT_MISSES =>
      match device_alloc with
      | inl err => (err, None)
      | inr p => (if memset_ok then ECERROR_SUCCESS else ECERROR_CUDA_ERROR, Some {| nm_block := p; nm_size := 4; nm_type := ty |})
      end
  | _ => (ECERROR_NOT_IMPLEMENTED, None)
  end.
Definition nc_performance_metric_destroy (m : nc_metric) (free_result : Z) : Z * nc_metric :=
  match nm_type m with
  | MERTIC_COUNT_MISSES => (free_result, {| nm_block := 0; nm_size := 0; nm_type := nm_type m |})
  | _ => (ECERROR_NOT_IMPLEMENTED, m)
  end.
Definition nc_performance_metric_get_value (m : nc_metric) : outcome Z :=
  match nm_type m with
  | MERTIC_COUNT_MISSES =>
      if nm_block m =? 0 then Ok ECERROR_INVALID_ARGUMENT
      else if sizeof_metric_value <=? nm_size m then Ok ECERROR_SUCCESS else Undef "copy from past the end of a device block"
  | _ => Ok ECERROR_NOT_IMPLEMENTED
  end.
Definition nc_performance_metric_reset (m : nc_metric) : outcome Z :=
  let! _ := nc_memset m sizeof_metric_value in Ok ECERROR_SUCCESS.

(** ** Operations without an effect *)

Definition nc_init (allocator_null logger_null : bool) : Z :=
  if allocator_null then ECERROR_BAD_ALLOCATOR else if logger_null then ECERROR_BAD_LOGGER else ECERROR_SUCCESS.
(** Error code and handle. *)
Definition nc_modify_context_create : Z * Z := (ECERROR_SUCCESS, 0).
Definition nc_modify_context_destroy : Z := ECERROR_SUCCESS.
(** [insert], [update], [update_accumulate], [update_accumulate_no_sync], [invalidate],
    [clear_cache], [start_custom_flow], [end_custom_flow]. *)
Definition nc_modify : Z := ECERROR_SUCCESS.
(** [lookup_sort_gather], [update_accumulate_no_sync_fused]. *)
Definition nc_unsupported : Z := ECERROR_NOT_IMPLEMENTED.
Definition nc_get_keys_stored_in_cache : Z * list Z := (ECERROR_SUCCESS, []).
Definition nc_get_max_num_embedding_vectors_in_cache : Z := 0.
Definition nc_get_lookup_context_size : CacheAllocationSize := {| host_allocation_size := 16; device_allocation_size := 0 |}.
Definition nc_get_modify_context_size : CacheAllocationSize := {| host_allocation_size := 0; device_allocation_size := 0 |}.

(** ** Lookups *)

Section Lookup.
Context (data : nc_CacheData) (table : memory) (keys : Z -> Z) (len d_values stride : Z).
Local Abbreviation row := (nc_row_size_in_bytes data).
(** The part of the configuration the copy loops use. *)
Definition nc_cfg : CacheConfig :=
  {| cache_sz_in_bytes := 0; embed_width_in_bytes := row; num_tables := 1; allocate_data_on_host := false; sentinel_key := -1 |}.

(** [AddressFunctor::get_address]. *)
Definition nc_get_address (table_ptr key : Z) : Z := wrapu 64 (table_ptr + key * row).

Definition nc_lane (table_ptr base lane : Z) : Z * bool :=
  let tid := wrapu 32 (base + lane) in
  if len <=? tid then (0, false) else (nc_get_address table_ptr (keys tid), nc_count_misses data).
Definition nc_query_warp (table_ptr : Z) (st : uvm_state) (w : Z * Z) : uvm_state :=
  let lane := nc_lane table_ptr (warp_ptr w) in
  {| u_values := copy_lanes nc_cfg table d_values stride 32 (element_size nc_cfg) (warp_ptr w) (fun s => (lane s).1) (u_values st);
     u_misses := u_misses st + Z.of_nat (length (filter (fun s => (lane s).2 = true) (seqZ 0 32))) |}.

(** [lookup] with a table; the warps of the grid run in [order]. *)
Definition nc_lookup_uvm (table_ptr : Z) (order : list (Z * Z)) (launch_ok : bool) (st : uvm_state) : Z * uvm_state :=
  if 0 <? len
  then if launch_ok then (ECERROR_SUCCESS, fold_left (nc_query_warp table_ptr) order st) else (ECERROR_CUDA_ERROR, st)
  else (ECERROR_SUCCESS, st).

(** [lookup] with lists of the missing keys: three copies to the device, in order. *)
Record missing_lists := { l_index : list Z; l_keys : list Z; l_len : Z }.
Definition nc_lookup_missing (index_ok keys_ok len_ok : bool) (out : missing_lists) : Z * missing_lists :=
  if negb index_ok then (ECERROR_CUDA_ERROR, out)
  else
    let out := {| l_index := seqZ 0 len; l_keys := l_keys out; l_len := l_len out |} in
    if negb keys_ok then (ECERROR_CUDA_ERROR, out)
    else
      let out := {| l_index := l_index out; l_keys := keys <$> seqZ 0 len; l_len := l_len out |} in
      if negb len_ok then (ECERROR_CUDA_ERROR, out)
      else (ECERROR_SUCCESS, {| l_index := l_index out; l_keys := l_keys out; l_len := len |}).

(** [lookup] with a hit mask: its bytes are cleared, and the error of the call is not looked
    at. *)
Definition nc_lookup_hit_mask (memset_ok : bool) (mask : Z -> Z) : Z * (Z -> Z) :=
  (ECERROR_SUCCESS, if memset_ok then fun b => if (0 <=? b) && (b <? (len + 7) / 8) then 0 else mask b else mask).
End Lookup.

(** ** Properties *)

Section Properties.
Context (data : nc_CacheData) (table : memory) (keys : Z -> Z) (len d_values stride : Z).
Local Abbreviation row := (nc_row_size_in_bytes data).
Context (Hrow : 0 < row <= stride) (Hlen : 0 <= len < 2 ^ 32 - 128).
Local Abbreviation query_warp := (nc_query_warp data table keys len d_values stride).
Local Abbreviation out_row := (fun v j => mem_read v (d_values + j * stride) row).

Lemma nc_lane_spec table_ptr w j :
  w ∈ grid len -> w.1 * 128 + w.2 * 32 <= j < w.1 * 128 + w.2 * 32 + 32 ->
  nc_lane data keys len table_ptr (w.1 * 128 + w.2 * 32) (j - (w.1 * 128 + w.2 * 32)) =
    if decide (j < len) then (nc_get_address data table_ptr (keys j), nc_count_misses data) else (0, false).
Proof.
  intros [H1 H2]%(grid_spec len) Hj. pose proof (n_block_bounds len Hlen). unfold nc_lane.
  replace (wrapu 32 (_ + (j - _))) with j by (rewrite wrapu_small; unfold in_u; lia).
  destruct (Z.leb_spec len j); [by rewrite decide_False by lia|by rewrite decide_True].
Qed.

Lemma nc_warp_row table_ptr st w j :
  w ∈ grid len ->
  out_row (u_values (query_warp table_ptr st w)) j =
    if decide (j ∈ warp_keys len w /\ nc_get_address data table_ptr (keys j) <> 0)
    then mem_read table (nc_get_address data table_ptr (keys j)) row else out_row (u_values st) j.
Proof.
  intros Hw. unfold nc_query_warp. rewrite (warp_ptr_spec len Hlen) by done. cbn [u_values].
  destruct (element_size_spec (nc_cfg data)) as [He Hd].
  etransitivity; [apply (copy_lanes_row (nc_cfg data) table d_values stride Hrow); [lia|exact He|exact Hd]|].
  change (embed_width_in_bytes (nc_cfg data)) with row.
  destruct (decide (0 <= j - (w.1 * 128 + w.2 * 32) < 32)) as [Hj|Hj].
  - rewrite nc_lane_spec by (done || lia). destruct (decide (j < len)) as [Hl|Hl]; simpl.
    + apply decide_ext. rewrite elem_of_warp_keys. split; intros [? ?]; split; done || lia.
    + rewrite !decide_False; [done|rewrite elem_of_warp_keys; lia|tauto].
  - rewrite !decide_False; [done|rewrite elem_of_warp_keys; lia|tauto].
Qed.

Lemma nc_warp_misses table_ptr st w :
  w ∈ grid len ->
  u_misses (query_warp table_ptr st w) = u_misses st + (if nc_count_misses data then Z.of_nat (length (warp_keys len w)) else 0).
Proof.
  intros Hw. unfold nc_query_warp. rewrite (warp_ptr_spec len Hlen) by done. cbn [u_misses]. f_equal.
  rewrite <- (length_filter_shift (nc_cfg data) 0 table table len stride Hrow Hlen
    (fun j => j < len /\ nc_count_misses data = true) _ (w.1 * 128 + w.2 * 32) 32).
  - destruct (nc_count_misses data).
    + unfold warp_keys. do 2 f_equal. apply filter_ext_in. intros; tauto.
    + rewrite (filter_ext_in _ (fun _ => False)) by naive_solver. by rewrite filter_none by tauto.
  - intros s Hs. pose proof (nc_lane_spec table_ptr w (w.1 * 128 + w.2 * 32 + s) Hw ltac:(lia)) as E.
    replace (w.1 * 128 + w.2 * 32 + s - (w.1 * 128 + w.2 * 32)) with s in E by lia. rewrite E.
    destruct (decide (w.1 * 128 + w.2 * 32 + s < len)); simpl; naive_solver.
Qed.

(** The pass-through cache is transparent: its lookup with a table delivers the row of
    the table for every key, whatever the order of the warps, touches no row past the end and
    counts every key as a miss when a miss metric is bound; its lookup with lists reports all
    positions and keys in order, and its lookup with a hit mask leaves no hit in the first
    [len] bits. *)
Theorem no_cache_lookups (table_ptr : Z) (order : list (Z * Z)) (st : uvm_state) (out : missing_lists) (mask : Z -> Z) :
  order ≡ₚ grid len -> (forall j, 0 <= j < len -> 0 < table_ptr + keys j * row < 2 ^ 64) ->
  (exists st', nc_lookup_uvm data table keys len d_values stride table_ptr order true st = (ECERROR_SUCCESS, st') /\
    (forall j, out_row (u_values st') j = if decide (0 <= j < len) then mem_read table (table_ptr + keys j * row) row else out_row (u_values st) j) /\
    u_misses st' = u_misses st + if nc_count_misses data then len else 0) /\
  nc_lookup_missing keys len true true true out =
    (ECERROR_SUCCESS, {| l_index := seqZ 0 len; l_keys := keys <$> seqZ 0 len; l_len := len |}) /\
  (forall j, 0 <= j < len -> Z.testbit ((nc_lookup_hit_mask len true mask).2 (j / 8)) (j mod 8) = false).
Proof.
  intros Ho Ha. assert (Hin : forall w, w ∈ order -> w ∈ grid len) by (intros w; by rewrite Ho).
  assert (Hadr : forall j, 0 <= j < len -> nc_get_address data table_ptr (keys j) = table_ptr + keys j * row).
  { intros j Hj. specialize (Ha j Hj). apply wrapu_small. unfold in_u. lia. }
  split_and!; [|done|].
  - set (st' := fold_left (query_warp table_ptr) order st). exists (if 0 <? len then st' else st).
    split; [unfold nc_lookup_uvm; by destruct (0 <? len)|].
    replace (if 0 <? len then st' else st) with st'.
    2: { destruct (Z.ltb_spec 0 len); [done|]. assert (len = 0) as -> by lia. unfold st'. by apply Permutation_nil_r in Ho as ->. }
    split.
    + intros j. unfold st'.
      rewrite (fold_groups (fun st => out_row (u_values st)) (query_warp table_ptr) (warp_keys len)
        (fun j => nc_get_address data table_ptr (keys j) <> 0) (fun j => mem_read table (nc_get_address data table_ptr (keys j)) row)).
      2: { intros v w Hw. by apply nc_warp_row, Hin. }
      assert (Hjl : j ∈ order ≫= warp_keys len <-> 0 <= j < len) by (rewrite (grid_keys len Hlen order Ho), elem_of_seqZ; lia).
      destruct (decide (0 <= j < len)) as [Hj|Hj].
      * specialize (Ha j Hj). rewrite decide_True by (rewrite Hadr by done; split; [by apply Hjl|lia]). by rewrite Hadr.
      * by rewrite decide_False by tauto.
    + transitivity (u_misses st + if nc_count_misses data then Z.of_nat (length (order ≫= warp_keys len)) else 0).
      * unfold st'. clear st' Ho Ha Hadr. revert st. induction order as [|w l IH]; intros st; [simpl; destruct (nc_count_misses data); lia|].
        cbn [fold_left]. rewrite IH by (intros; apply Hin; by right). rewrite nc_warp_misses by (apply Hin; by left).
        rewrite bind_cons, length_app. destruct (nc_count_misses data); lia.
      * rewrite (grid_keys len Hlen order Ho), length_seqZ. destruct (nc_count_misses data); lia.
  - intros j Hj. cbn [nc_lookup_hit_mask snd].
    rewrite (proj2 (Z.leb_le _ _)), (proj2 (Z.ltb_lt _ _)); [by rewrite Z.testbit_0_l| |apply Z.div_pos; lia].
    apply Z.div_lt_upper_bound; [lia|]. pose proof (Z.div_mod (len + 7) 8 ltac:(lia)). pose proof (Z.mod_pos_bound (len + 7) 8 ltac:(lia)). lia.
Qed.
End Properties.

(** A miss metric of the pass-through cache has a block of four bytes; resetting or reading
    it moves eight. *)
Theorem no_cache_metric_overflow (p : Z) (m : nc_metric) :
  p <> 0 -> nc_performance_metric_create MERTIC_COUNT_MISSES (inr p) true = (ECERROR_SUCCESS, Some m) ->
  nc_performance_metric_reset m = Undef "memset past the end of a device block" /\
  nc_performance_metric_get_value m = Undef "copy from past the end of a device block".
Proof.
  intros Hp [= <-]. split; [done|]. unfold nc_performance_metric_get_value. cbn [nm_type nm_block].
  by rewrite (proj2 (Z.eqb_neq _ _)).
Qed.

Definition demo_nc : nc_CacheData := {| nc_row_size_in_bytes := 4; nc_count_misses := true; nc_misses := 64 |}.
Lemma no_cache_lookups_witness :
  exists st', nc_lookup_uvm demo_nc (fun a => a mod 251) (fun j => j + 5) 2 9000 4 1000 (grid 2) true {| u_values := fun _ => 0; u_misses := 1 |}
    = (ECERROR_SUCCESS, st') /\ u_misses st' = 3.
Proof.
  destruct (no_cache_lookups demo_nc (fun a => a mod 251) (fun j => j + 5) 2 9000 4 ltac:(simpl; lia) ltac:(lia) 1000 (grid 2)
    {| u_values := fun _ => 0; u_misses := 1 |} {| l_index := []; l_keys := []; l_len := 0 |} (fun _ => 0)) as [(st' & E & _ & Hm) _].
  - reflexivity.
  - intros j Hj. simpl. lia.
  - exists st'. split; [exact E|]. rewrite Hm. reflexivity.
Defined.
