(* ===== verification/DeviceOps.v ===== *)
(** * Kernels of [cuda_ops]: [update_accumulate.cuh], [scatter.cuh], [kernels_common.cuh]

    The kernels that write rows of a linear table ([UpdateTable]), add to them
    ([UpdateAccumulateTable]) and spread rows over the output of a lookup
    ([EmbeddingForwardScatter]). The threads of a launch run in any order; the source is
    [__restrict__] and given as a memory of its own. Offsets are computed with the width
    the code gives them. *)
From S2P Require Import Prelude BitOps EcHash SetAssoc HostModify CacheQuery DataTypes HostTable.

(** ** Shape of a launch *)

(** [nextPow2]: [1 << (32 - __builtin_clz(x) - 1)]. *)
Definition nextPow2 (x : Z) : outcome Z :=
  if x =? 1 then Ok 1
  else if x =? 0 then Undef "__builtin_clz(0)"
  else Ok (Z.shiftl 1 (32 - (31 - Z.log2 x) - 1)).

(** [subgroupWidth]; every value it takes has a [case]. *)
Definition subgroup_width (elements : Z) : outcome Z :=
  let! p := nextPow2 elements in
  let w := Z.min p 32 in
  check! bool_decide (w ∈ [32; 16; 8; 4; 2; 1]) as "Unsupported kernel dimensions" in
  Ok w.

(** The rows of the grid, [indices_per_warp] to a block, and the threads: row and lane. *)
Definition launch_rows (indices_per_warp num : Z) : list Z :=
  b ← seqZ 0 (ceil_div num indices_per_warp); y ← seqZ 0 indices_per_warp; [b * indices_per_warp + y].
Definition launch_threads (w indices_per_warp num : Z) : list (Z * Z) :=
  id ← launch_rows indices_per_warp num; x ← seqZ 0 w; [(id, x)].

(** The grid of a launch has [(num_indices + indices_per_warp - 1) / indices_per_warp]
    blocks, computed in 32 unsigned bits. A launch of no block, or of more than the
    [2^31 - 1] a grid may have, fails, and [NVE_CHECK_(cudaGetLastError())] after it throws. *)
Definition launch_grid (num indices_per_warp : Z) : outcome unit :=
  let blocks := wrapu 32 (num + indices_per_warp - 1) / indices_per_warp in
  check! (0 <? blocks) && (blocks <? 2 ^ 31) as "invalid configuration argument" in Ok tt.

(** [for (el = threadIdx.x; el < n; el += SubwarpWidth)]. *)
Definition lane_elements (w n x : Z) : list Z := (fun i => x + i * w) <$> seqZ 0 (ceil_div (n - x) w).

(** The largest element type that divides the row, [None] for an odd size. *)
Definition vec_size (embed_width_in_bytes : Z) : option Z :=
  if embed_width_in_bytes mod 16 =? 0 then Some 16
  else if embed_width_in_bytes mod 8 =? 0 then Some 8
  else if embed_width_in_bytes mod 4 =? 0 then Some 4
  else if embed_width_in_bytes mod 2 =? 0 then Some 2
  else None.

(** [id * stride] and [key * stride] for a 32-bit unsigned stride. *)
Definition id_offset (id stride : Z) : Z := wrapu 32 (id * stride).
Definition key_offset (K : int_type) (key stride : Z) : Z :=
  if width K <=? 32 then wrapu 32 (key * stride) else key * stride.

(** ** [UpdateTable] *)

Section UpdateTable.
Context (K : int_type).
Variables (src_mem : memory) (src : Z) (indices : Z -> Z) (embedding_table : Z).
Variables (embed_width_in_bytes embed_src_stride_in_bytes embed_dst_stride_in_bytes num_indices : Z).

Definition UpdateTableKernel (elt w : Z) (m : memory) (t : Z * Z) : memory :=
  let '(id, x) := t in
  if num_indices <=? id then m
  else
    let embed_src := src + id_offset id embed_src_stride_in_bytes in
    let embed_dst := embedding_table + key_offset K (indices id) embed_dst_stride_in_bytes in
    fold_left (fun m el => copy_from src_mem (embed_dst + el * elt) (embed_src + el * elt) elt m)
      (lane_elements w (embed_width_in_bytes / elt) x) m.

(** [UpdateTable]: [order w] is the order in which the threads of a launch with [w] lanes
    to a row run. *)
Definition UpdateTable (order : Z -> list (Z * Z)) (m : memory) : outcome memory :=
  match vec_size embed_width_in_bytes with
  | None => Ok m
  | Some elt =>
      let! w := subgroup_width (embed_width_in_bytes / elt) in
      let! _ := launch_grid num_indices (32 / w) in
      Ok (fold_left (UpdateTableKernel elt w) (order w) m)
  end.
End UpdateTable.

(** ** [EmbeddingForwardScatter] *)

Section Scatter.
Variables (src_mem : memory) (src dst : Z).
Variables (embed_width_in_bytes embed_src_stride_in_bytes embed_dst_stride_in_bytes : Z).
(** The 64-bit words of the hit mask. *)
Variables (hit_mask : Z -> Z) (num_indices : Z).

(** The offsets lane [x] copies in [memcpy_warp<w, DataType>]. *)
Definition lane_offsets (w elt size x : Z) : list Z :=
  i ← seqZ 0 (ceil_div size (elt * w));
  let offset := i * (elt * w) + x * elt in
  if offset <? size then [offset] else [].

Definition EmbedScatter (elt w : Z) (m : memory) (t : Z * Z) : memory :=
  let '(embed, x) := t in
  if num_indices <=? embed then m
  else if Z.testbit (hit_mask (embed / 64)) (embed mod 64) then m
  else
    let embed_src := src + id_offset embed embed_src_stride_in_bytes in
    let embed_dst := dst + id_offset embed embed_dst_stride_in_bytes in
    fold_left (fun m o => copy_from src_mem (embed_dst + o) (embed_src + o) elt m)
      (lane_offsets w elt embed_width_in_bytes x) m.

Definition EmbeddingForwardScatter (order : Z -> list (Z * Z)) (m : memory) : outcome memory :=
  match vec_size embed_width_in_bytes with
  | None => Ok m
  | Some elt =>
      let! w := subgroup_width (embed_width_in_bytes / elt) in
      let! _ := launch_grid num_indices (64 / w) in
      Ok (fold_left (EmbedScatter elt w) (order w) m)
  end.
End Scatter.

(** ** [UpdateAccumulateTable] *)

Section AccumulateTable.
(** Key type, element type and the addition of two elements. *)
Context (K : int_type) (T : DataType_t) (add_element : DataType_t -> DataType_t -> list Z -> list Z -> list Z).
Variables (src_mem : memory) (src : Z) (indices : Z -> Z) (embedding_table : Z).
(** Widths and strides are numbers of elements. *)
Variables (embed_width embed_src_stride embed_dst_stride num_indices : Z).

(** The row pointers of index [id]. *)
Definition acc_src (id : Z) : Z := src + id_offset id embed_src_stride * elem_size T.
Definition acc_dst (id : Z) : Z := embedding_table + key_offset K (indices id) embed_dst_stride * elem_size T.

Definition UpdateAccumulateTableKernel (w : Z) (m : memory) (t : Z * Z) : memory :=
  let '(id, x) := t in
  if num_indices <=? id then m
  else fold_left (fun m el => update_element add_element T T (acc_dst id) src_mem (acc_src id) el m)
         (lane_elements w embed_width x) m.

Definition UpdateAccumulateTable (order : Z -> list (Z * Z)) (m : memory) : outcome memory :=
  let! w := subgroup_width embed_width in
  let! _ := launch_grid num_indices (32 / w) in
  Ok (fold_left (UpdateAccumulateTableKernel w) (order w) m).
End AccumulateTable.

(** ** Lemmas: shapes *)

Lemma nextPow2_spec x : 0 < x -> exists p, nextPow2 x = Ok (2 ^ p) /\ 0 <= p /\ 2 ^ p <= x < 2 ^ (p + 1).
Proof.
  intros Hx. unfold nextPow2. destruct (Z.eqb_spec x 1) as [->|Hn]; [by exists 0|].
  rewrite (proj2 (Z.eqb_neq _ _)) by lia. exists (Z.log2 x).
  replace (32 - (31 - Z.log2 x) - 1) with (Z.log2 x) by lia. rewrite Z.shiftl_1_l.
  pose proof (Z.log2_spec x Hx). pose proof (Z.log2_nonneg x). done.
Qed.

Lemma subgroup_width_spec n : 0 < n -> exists w, subgroup_width n = Ok w /\ w ∈ [32; 16; 8; 4; 2; 1].
Proof.
  intros Hn. unfold subgroup_width. destruct (nextPow2_spec n Hn) as (p & -> & Hp & _). cbn [obind].
  exists (Z.min (2 ^ p) 32).
  assert (Hin : Z.min (2 ^ p) 32 ∈ [32; 16; 8; 4; 2; 1]).
  { destruct (Z.le_gt_cases 5 p) as [H5|H5].
    - rewrite Z.min_r; [by left|]. change 32 with (2 ^ 5). by apply Z.pow_le_mono_r.
    - assert (p = 0 \/ p = 1 \/ p = 2 \/ p = 3 \/ p = 4) as [-> | [-> | [-> | [-> | ->]]]] by lia; simpl; set_solver. }
  rewrite bool_decide_true by done. done.
Qed.

Lemma vec_size_spec n elt : vec_size n = Some elt -> 0 < elt /\ (elt | n).
Proof.
  unfold vec_size. repeat case_match; intros [= <-]; (split; [done|]); apply Z.mod_divide; lia.
Qed.

Lemma vec_size_even n : (2 | n) -> is_Some (vec_size n).
Proof.
  intros [q ->]. unfold vec_size. repeat case_match; try done.
  match goal with H : (q * 2) mod 2 =? 0 = false |- _ => rewrite Z.mod_mul in H by done end. done.
Qed.

Lemma elem_of_launch_threads w ipw num id x :
  0 < ipw -> 0 <= num -> (id, x) ∈ launch_threads w ipw num -> 0 <= id /\ 0 <= x < w.
Proof.
  intros Hi Hn H. unfold launch_threads, launch_rows in H. apply list_elem_of_bind in H as (id' & H & Hid).
  apply list_elem_of_bind in H as (x' & H & Hx). apply list_elem_of_singleton in H. injection H as -> ->.
  apply list_elem_of_bind in Hid as (b & Hid & Hb). apply list_elem_of_bind in Hid as (y & Hid & Hy).
  apply list_elem_of_singleton in Hid as ->. rewrite elem_of_seqZ in *. nia.
Qed.

Lemma launch_threads_cover w ipw num id x :
  0 < ipw -> 0 <= id < num -> 0 <= x < w -> (id, x) ∈ launch_threads w ipw num.
Proof.
  intros Hi Hid Hx. unfold launch_threads, launch_rows. apply list_elem_of_bind. exists id. split.
  - apply list_elem_of_bind. exists x. split; [by apply list_elem_of_singleton|apply elem_of_seqZ; lia].
  - apply list_elem_of_bind. exists (id / ipw). pose proof (Z.div_mod id ipw ltac:(lia)). pose proof (Z.mod_pos_bound id ipw Hi).
    split.
    + apply list_elem_of_bind. exists (id mod ipw). split; [apply list_elem_of_singleton; lia|apply elem_of_seqZ; lia].
    + apply elem_of_seqZ. split; [apply Z.div_pos; lia|]. pose proof (ceil_div_bounds num ipw ltac:(lia) Hi).
      apply Z.div_lt_upper_bound; [lia|]. nia.
Qed.

Lemma elem_of_lane_elements w n x el :
  0 <= x < w -> 0 <= n -> el ∈ lane_elements w n x <-> 0 <= el < n /\ el mod w = x.
Proof.
  intros Hx Hn. unfold lane_elements. rewrite list_elem_of_fmap. setoid_rewrite elem_of_seqZ. split.
  - intros (i & -> & Hi). assert (0 < n - x).
    { destruct (Z.lt_ge_cases 0 (n - x)); [done|]. unfold ceil_div in Hi.
      rewrite Z.quot_small in Hi by lia. lia. }
    pose proof (ceil_div_bounds (n - x) w ltac:(lia) ltac:(lia)).
    split; [nia|]. rewrite Z.mod_add by lia. by apply Z.mod_small.
  - intros [Hel <-]. pose proof (Z.div_mod el w ltac:(lia)). pose proof (Z.mod_pos_bound el w ltac:(lia)).
    assert (0 <= el / w) by (apply Z.div_pos; lia).
    assert (el mod w <= el) by (apply Z.mod_le; lia).
    exists (el / w). split; [lia|]. pose proof (ceil_div_bounds (n - el mod w) w ltac:(lia) ltac:(lia)). nia.
Qed.

Lemma elem_of_lane_offsets w elt size x o :
  0 <= x < w -> 0 < elt -> 0 <= size ->
  o ∈ lane_offsets w elt size x <-> 0 <= o < size /\ (elt | o) /\ (o / elt) mod w = x.
Proof.
  intros Hx He Hs. unfold lane_offsets. rewrite list_elem_of_bind. setoid_rewrite elem_of_seqZ.
  pose proof (ceil_div_bounds size (elt * w) Hs ltac:(nia)) as Hc. split.
  - intros (i & Ho & Hi). cbv zeta in Ho. destruct (Z.ltb_spec (i * (elt * w) + x * elt) size); [|by apply not_elem_of_nil in Ho].
    apply list_elem_of_singleton in Ho as ->. replace (i * (elt * w) + x * elt) with ((x + i * w) * elt) by ring.
    split; [nia|]. split; [by exists (x + i * w)|]. rewrite Z.div_mul, Z.mod_add by lia. by apply Z.mod_small.
  - intros (Ho & [q ->] & <-). rewrite Z.div_mul by lia. assert (0 <= q) by nia. exists (q / w).
    pose proof (Z.div_mod q w ltac:(lia)) as Hdm. pose proof (Z.mod_pos_bound q w ltac:(lia)).
    assert (0 <= q / w) by (apply Z.div_pos; lia). cbv zeta.
    replace (q / w * (elt * w) + (q mod w) * elt) with (q * elt)
      by (transitivity ((w * (q / w) + q mod w) * elt); [by rewrite <- Hdm|ring]).
    rewrite (proj2 (Z.ltb_lt _ _)) by lia. split; [by apply list_elem_of_singleton|]. nia.
Qed.

(** ** Lemmas: rows written by copies in any order *)

Section RowsWritten.
Context (src_mem : memory) (elt size : Z) (Helt : 0 < elt) (Hsize : (elt | size)).
(** The row each index writes: destination and source, [None] when it writes nothing. *)
Context (act : Z -> option (Z * Z)) (num : Z) (val : Z -> list Z).
Context (Hval : forall id d p, 0 <= id < num -> act id = Some (d, p) -> mem_read src_mem p size = val d).
Context (Hapart : forall id id' d d' p p', 0 <= id < num -> 0 <= id' < num ->
  act id = Some (d, p) -> act id' = Some (d', p') -> d = d' \/ disjoint d size d' size).

Lemma copies_agree (l : list (Z * Z)) m a v :
  (forall d p, (d, p) ∈ l -> d <= a < d + elt -> src_mem (p + (a - d)) = v) ->
  fold_left (fun m c => copy_from src_mem c.1 c.2 elt m) l m a =
    if existsb (fun c => (c.1 <=? a) && (a <? c.1 + elt)) l then v else m a.
Proof.
  revert m. induction l as [|[d p] l IH]; intros m H; [done|]. cbn [fold_left existsb fst snd].
  rewrite IH by (intros d' p' Hin; apply H; by right).
  destruct (existsb _ l); [by rewrite orb_true_r|]. rewrite orb_false_r. unfold copy_from.
  destruct ((d <=? a) && (a <? d + elt)) eqn:E; [|done]. apply H; [by left|lia].
Qed.

(** [l] has the copies of the elements of every row. *)
Definition copies_of (l : list (Z * Z)) : Prop :=
  forall c, c ∈ l <-> exists id d p o, 0 <= id < num /\ act id = Some (d, p) /\ (elt | o) /\ 0 <= o < size /\ c = (d + o, p + o).

Lemma copies_of_cover l c a :
  copies_of l -> c ∈ l -> c.1 <= a < c.1 + elt ->
  exists id d p, 0 <= id < num /\ act id = Some (d, p) /\ d <= a < d + size /\ c.2 + (a - c.1) = p + (a - d).
Proof.
  intros Hl Hc Ha. apply Hl in Hc as (id & d & p & o & Hid & Hact & [q ->] & Ho & ->). simpl in *.
  exists id, d, p. destruct Hsize as [n Hn]. rewrite Hn in *. assert (q < n) by nia. split_and!; try done; nia.
Qed.

Lemma row_byte a d p : d <= a < d + size -> mem_read src_mem p size = val d -> Some (src_mem (p + (a - d))) = val d !! Z.to_nat (a - d).
Proof.
  intros Ha <-. unfold mem_read. rewrite list_lookup_fmap, lookup_seqZ_lt by lia. simpl. do 2 f_equal. lia.
Qed.

Lemma rows_written l m :
  copies_of l ->
  let m' := fold_left (fun m c => copy_from src_mem c.1 c.2 elt m) l m in
  (forall id d p, 0 <= id < num -> act id = Some (d, p) -> mem_read m' d size = val d) /\
  (forall a, (forall id d p, 0 <= id < num -> act id = Some (d, p) -> ~ (d <= a < d + size)) -> m' a = m a).
Proof.
  intros Hl m'. split.
  - intros id d p Hid Hact. rewrite <- (Hval id d p Hid Hact). unfold mem_read. apply list_eq. intros i.
    rewrite !list_lookup_fmap. destruct (decide (Z.of_nat i < size)) as [Hi|Hi]; [|by rewrite !lookup_seqZ_ge by lia].
    rewrite !lookup_seqZ_lt by lia. simpl. f_equal. set (a := d + Z.of_nat i).
    unfold m'. rewrite (copies_agree l m a (src_mem (p + Z.of_nat i))).
    + replace (existsb _ l) with true; [done|]. symmetry. apply existsb_exists.
      exists (d + Z.of_nat i / elt * elt, p + Z.of_nat i / elt * elt). rewrite <- list_elem_of_In.
      pose proof (Z.div_mod (Z.of_nat i) elt ltac:(lia)). pose proof (Z.mod_pos_bound (Z.of_nat i) elt Helt).
      assert (0 <= Z.of_nat i / elt) by (apply Z.div_pos; lia). simpl. unfold a. split; [|lia].
      apply Hl. exists id, d, p, (Z.of_nat i / elt * elt). split; [done|]. split; [done|].
      split; [by exists (Z.of_nat i / elt)|]. split; [nia|done].
    + intros d0 p0 Hc Ha0. destruct (copies_of_cover l (d0, p0) a Hl Hc Ha0) as (id' & d' & p' & Hid' & Hact' & Ha' & E).
      simpl in E. rewrite E. destruct (Hapart id id' d d' p p' Hid Hid' Hact Hact') as [<-|Hd]; [|unfold disjoint, a in *; lia].
      pose proof (row_byte a d p' Ha' (Hval _ _ _ Hid' Hact')) as E'. rewrite <- (row_byte a d p ltac:(unfold a; lia) (Hval _ _ _ Hid Hact)) in E'.
      injection E' as ->. f_equal. unfold a. lia.
  - intros a Hno. unfold m'. rewrite (copies_agree l m a 0).
    + replace (existsb _ l) with false; [done|]. symmetry. apply not_true_iff_false. intros (c & Hc & Ha)%existsb_exists.
      rewrite <- list_elem_of_In in Hc. destruct (copies_of_cover l c a Hl Hc ltac:(lia)) as (id & d & p & Hid & Hact & Ha' & _).
      by eapply Hno.
    + intros d0 p0 Hc Ha. destruct (copies_of_cover l (d0, p0) a Hl Hc Ha) as (id & d & p & Hid & Hact & Ha' & _).
      exfalso. by eapply Hno.
Qed.
End RowsWritten.

(** A fold over threads whose bodies are copies is a fold over all copies. *)
Lemma threads_as_copies {A} (src_mem : memory) (elt : Z) (kernel : memory -> A -> memory) (copies : A -> list (Z * Z)) order m :
  (forall m t, kernel m t = fold_left (fun m c => copy_from src_mem c.1 c.2 elt m) (copies t) m) ->
  fold_left kernel order m = fold_left (fun m c => copy_from src_mem c.1 c.2 elt m) (order ≫= copies) m.
Proof.
  intros H. rewrite <- fold_left_bind. revert m. induction order as [|t order IH]; intros m; [done|]. cbn [fold_left]. by rewrite H, IH.
Qed.

Lemma fold_left_fmap {A B S} (f : S -> B -> S) (g : A -> B) l st :
  fold_left f (g <$> l) st = fold_left (fun st a => f st (g a)) l st.
Proof. revert st. induction l as [|a l IH]; intros st; [done|]. apply IH. Qed.

(** The launch of a kernel whose rows are at most [num]: 32 or 64 threads to a block. *)
Definition launch_order (threads num : Z) (order : Z -> list (Z * Z)) : Prop :=
  forall w, w ∈ [32; 16; 8; 4; 2; 1] -> order w ≡ₚ launch_threads w (threads / w) num.

Lemma width_cases w : w ∈ [32; 16; 8; 4; 2; 1] -> w = 32 \/ w = 16 \/ w = 8 \/ w = 4 \/ w = 2 \/ w = 1.
Proof. set_solver. Qed.

Lemma launch_order_elem threads num order w id x :
  threads = 32 \/ threads = 64 -> launch_order threads num order -> w ∈ [32; 16; 8; 4; 2; 1] -> 0 <= num ->
  ((id, x) ∈ order w -> 0 <= id /\ 0 <= x < w) /\ (0 <= id < num -> 0 <= x < w -> (id, x) ∈ order w).
Proof.
  intros Ht Ho Hw Hn. specialize (Ho w Hw).
  assert (Hd : 0 < w /\ 0 < threads / w).
  { destruct Ht as [-> | ->], (width_cases w Hw) as [-> | [-> | [-> | [-> | [-> | ->]]]]]; done. }
  rewrite Ho. split; [apply elem_of_launch_threads; [apply Hd|done]|apply launch_threads_cover, Hd].
Qed.

(** Offsets that fit their 32-bit products. *)
Definition keys_fit (K : int_type) (indices : Z -> Z) (dst_stride num : Z) : Prop :=
  forall id, 0 <= id < num -> 0 <= indices id /\ (width K <= 32 -> indices id * dst_stride < 2 ^ 32).

Lemma row_offsets K indices src_stride dst_stride num id :
  0 <= src_stride -> 0 <= dst_stride -> num * src_stride < 2 ^ 32 -> keys_fit K indices dst_stride num -> 0 <= id < num ->
  id_offset id src_stride = id * src_stride /\ key_offset K (indices id) dst_stride = indices id * dst_stride.
Proof.
  intros Hs Hd Hfit Hkeys Hid. destruct (Hkeys id Hid) as [Hk Hk32]. unfold id_offset, key_offset.
  split; [apply wrapu_small; unfold in_u; nia|].
  destruct (Z.leb_spec (width K) 32); [|done]. apply wrapu_small. unfold in_u. specialize (Hk32 ltac:(lia)). nia.
Qed.

(** A launch for at least one row has a block, one for no row has none. *)
Lemma launch_grid_ok num w k :
  0 < num < 2 ^ 31 -> w ∈ [32; 16; 8; 4; 2; 1] -> k = 32 \/ k = 64 -> launch_grid num (k / w) = Ok tt.
Proof.
  intros Hn Hw Hk. assert (Hb : 1 <= k / w <= 64).
  { apply width_cases in Hw as [-> | [-> | [-> | [-> | [-> | ->]]]]]; destruct Hk as [-> | ->]; by vm_compute. }
  unfold launch_grid. rewrite wrapu_small by (unfold in_u; lia).
  assert (1 <= (num + k / w - 1) / (k / w)) by (apply Z.div_le_lower_bound; lia).
  assert ((num + k / w - 1) / (k / w) <= num) by (apply Z.div_le_upper_bound; nia).
  by rewrite (proj2 (Z.ltb_lt 0 _)), (proj2 (Z.ltb_lt _ _)) by lia.
Qed.

Lemma launch_grid_zero w k :
  w ∈ [32; 16; 8; 4; 2; 1] -> k = 32 \/ k = 64 -> launch_grid 0 (k / w) = Throw "invalid configuration argument".
Proof. by intros [-> | [-> | [-> | [-> | [-> | ->]]]]]%width_cases [-> | ->]. Qed.

Section UpdateTableLemmas.
Context (K : int_type) (src_mem : memory) (src : Z) (indices : Z -> Z) (table size src_stride dst_stride num : Z).
Context (Hnum : 0 <= num) (Hsize : 0 < size <= dst_stride) (Heven : (2 | size)) (Hsrc : 0 <= src_stride) (Hfit : num * src_stride < 2 ^ 32).
Context (Hkeys : keys_fit K indices dst_stride num).

Local Abbreviation kernel := (UpdateTableKernel K src_mem src indices table size src_stride dst_stride num).

Definition update_copies (elt w : Z) (t : Z * Z) : list (Z * Z) :=
  let '(id, x) := t in
  if num <=? id then []
  else (fun el => (table + indices id * dst_stride + el * elt, src + id * src_stride + el * elt)) <$> lane_elements w (size / elt) x.

Lemma update_kernel_copies elt w m id x :
  0 <= id ->
  kernel elt w m (id, x) = fold_left (fun m c => copy_from src_mem c.1 c.2 elt m) (update_copies elt w (id, x)) m.
Proof.
  intros Hid. unfold UpdateTableKernel, update_copies. destruct (Z.leb_spec num id); [done|].
  destruct (row_offsets K indices src_stride dst_stride num id) as [-> ->]; [done || lia..|]. by rewrite fold_left_fmap.
Qed.

Lemma update_copies_of order elt w :
  launch_order 32 num order -> w ∈ [32; 16; 8; 4; 2; 1] -> 0 < elt -> (elt | size) ->
  copies_of elt size (fun id => Some (table + indices id * dst_stride, src + id * src_stride)) num (order w ≫= update_copies elt w).
Proof.
  intros Ho Hw He [n Hn] c. rewrite list_elem_of_bind. rewrite Hn. assert (0 <= n) by nia. split.
  - intros ( [id x] & Hc & Ht). apply (launch_order_elem 32 num order w id x) in Ht as [Hid Hx]; [|by left|done..].
    unfold update_copies in Hc. destruct (Z.leb_spec num id); [by apply not_elem_of_nil in Hc|].
    rewrite Hn, Z.div_mul in Hc by lia. apply list_elem_of_fmap in Hc as (el & -> & Hel).
    apply elem_of_lane_elements in Hel as [Hel _]; [|lia..].
    exists id, (table + indices id * dst_stride), (src + id * src_stride), (el * elt).
    split; [lia|]. split; [done|]. split; [by exists el|]. split; [nia|done].
  - intros (id & d & p & o & Hid & [= <- <-] & [el ->] & Ho' & ->). assert (0 <= el < n) by nia.
    assert (Hw0 : 0 < w) by (apply width_cases in Hw; lia).
    pose proof (Z.mod_pos_bound el w Hw0).
    exists (id, el mod w). split.
    + unfold update_copies. rewrite (proj2 (Z.leb_gt _ _)) by lia. rewrite Hn, Z.div_mul by lia.
      apply list_elem_of_fmap. exists el. split; [done|]. apply elem_of_lane_elements; [lia|lia|done].
    + by apply (launch_order_elem 32 num order w); [left|..].
Qed.

(** The kernel of [UpdateTable] leaves the source row of a key in its row of the table and
    writes nothing else, when the rows given for a key agree. *)
Lemma UpdateTable_rows order (val : Z -> list Z) m :
  0 < num < 2 ^ 31 -> launch_order 32 num order ->
  (forall id, 0 <= id < num -> mem_read src_mem (src + id * src_stride) size = val (indices id)) ->
  exists m', UpdateTable K src_mem src indices table size src_stride dst_stride num order m = Ok m' /\
    (forall id, 0 <= id < num -> mem_read m' (table + indices id * dst_stride) size = val (indices id)) /\
    (forall a, (forall id, 0 <= id < num -> ~ (table + indices id * dst_stride <= a < table + indices id * dst_stride + size)) -> m' a = m a).
Proof.
  intros Hpos Ho Hval. unfold UpdateTable. destruct (vec_size_even size Heven) as [elt Ee]. rewrite Ee.
  destruct (vec_size_spec size elt Ee) as [Helt Hdiv].
  destruct (subgroup_width_spec (size / elt)) as (w & Ew & Hw).
  { destruct Hdiv as [q ->]. rewrite Z.div_mul by lia. nia. }
  rewrite Ew. cbn [obind]. rewrite launch_grid_ok by (done || by left). cbn [obind]. eexists. split; [done|].
  set (l := order w ≫= update_copies elt w).
  assert (E : fold_left (kernel elt w) (order w) m = fold_left (fun m c => copy_from src_mem c.1 c.2 elt m) l m).
  { unfold l. rewrite <- fold_left_bind. assert (Hin : forall id x, (id, x) ∈ order w -> 0 <= id).
    { intros id x Ht. by apply (launch_order_elem 32 num order w id x (or_introl eq_refl) Ho Hw Hnum) in Ht as [? _]. }
    generalize dependent (order w). intros ts _. revert m. induction ts as [|[id x] ts IH]; intros m Hin; [done|]. cbn [fold_left].
    rewrite (update_kernel_copies elt w m id x) by (eapply Hin; by left). apply IH. intros id' x' ?. eapply Hin. by right. }
  rewrite E. set (val_at := fun d => val ((d - table) / dst_stride)).
  assert (Hva : forall id, val_at (table + indices id * dst_stride) = val (indices id)).
  { intros id. unfold val_at. f_equal. replace (table + indices id * dst_stride - table) with (indices id * dst_stride) by lia. apply Z.div_mul. lia. }
  destruct (rows_written src_mem elt size Helt Hdiv (fun id => Some (table + indices id * dst_stride, src + id * src_stride)) num val_at) with (l := l) (m := m) as [H1 H2].
  - intros id d p Hid [= <- <-]. by rewrite Hva, Hval.
  - intros id id' d d' p p' Hid Hid' [= <- _] [= <- _].
    assert (indices id = indices id' \/ indices id < indices id' \/ indices id' < indices id) as [-> | [H|H]] by lia; [by left|right..]; unfold disjoint; nia.
  - by apply update_copies_of.
  - split.
    + intros id Hid. rewrite <- Hva. by eapply H1.
    + intros a Ha. apply H2. intros id d p Hid [= <- _]. by apply Ha.
Qed.

(** For no keys the kernel is not launched and the call throws. *)
Lemma UpdateTable_zero order m :
  UpdateTable K src_mem src indices table size src_stride dst_stride 0 order m = Throw "invalid configuration argument".
Proof.
  unfold UpdateTable. destruct (vec_size_even size Heven) as [elt Ee]. rewrite Ee.
  destruct (vec_size_spec size elt Ee) as [Helt Hdiv].
  destruct (subgroup_width_spec (size / elt)) as (w & Ew & Hw).
  { destruct Hdiv as [q ->]. rewrite Z.div_mul by lia. nia. }
  rewrite Ew. cbn [obind]. by rewrite launch_grid_zero by (done || by left).
Qed.
End UpdateTableLemmas.

Section ScatterLemmas.
Context (src_mem : memory) (src dst size src_stride dst_stride : Z) (hit_mask : Z -> Z) (num : Z).
Context (Hnum : 0 <= num) (Hsize : 0 < size <= dst_stride) (Heven : (2 | size)) (Hsrc : 0 <= src_stride).
Context (Hfit : num * src_stride < 2 ^ 32) (Hfit' : num * dst_stride < 2 ^ 32).

Local Abbreviation bit id := (Z.testbit (hit_mask (id / 64)) (id mod 64)).
Local Abbreviation kernel := (EmbedScatter src_mem src dst size src_stride dst_stride hit_mask num).

Definition scatter_act (id : Z) : option (Z * Z) :=
  if bit id then None else Some (dst + id * dst_stride, src + id * src_stride).
Definition scatter_copies (elt w : Z) (t : Z * Z) : list (Z * Z) :=
  let '(id, x) := t in
  if num <=? id then []
  else match scatter_act id with
       | None => []
       | Some (d, p) => (fun o => (d + o, p + o)) <$> lane_offsets w elt size x
       end.

Lemma scatter_kernel_copies elt w m id x :
  0 <= id ->
  kernel elt w m (id, x) = fold_left (fun m c => copy_from src_mem c.1 c.2 elt m) (scatter_copies elt w (id, x)) m.
Proof.
  intros Hid. unfold EmbedScatter, scatter_copies, scatter_act. destruct (Z.leb_spec num id); [done|]. destruct (bit id); [done|].
  unfold id_offset. rewrite !wrapu_small by (unfold in_u; nia). by rewrite fold_left_fmap.
Qed.

Lemma scatter_copies_of order elt w :
  launch_order 64 num order -> w ∈ [32; 16; 8; 4; 2; 1] -> 0 < elt ->
  copies_of elt size scatter_act num (order w ≫= scatter_copies elt w).
Proof.
  intros Ho Hw He c. rewrite list_elem_of_bind. split.
  - intros ( [id x] & Hc & Ht). apply (launch_order_elem 64 num order w id x) in Ht as [Hid Hx]; [|by right|done..].
    unfold scatter_copies in Hc. destruct (Z.leb_spec num id); [by apply not_elem_of_nil in Hc|].
    destruct (scatter_act id) as [ [d p]|] eqn:Ea; [|by apply not_elem_of_nil in Hc].
    apply list_elem_of_fmap in Hc as (o & -> & Hin). apply elem_of_lane_offsets in Hin as (Hr & Hd & _); [|lia..].
    exists id, d, p, o. split; [lia|done].
  - intros (id & d & p & o & Hid & Ha & Hd & Hr & ->). apply width_cases in Hw as Hw'. assert (Hw0 : 0 < w) by lia.
    pose proof (Z.mod_pos_bound (o / elt) w Hw0).
    exists (id, (o / elt) mod w). split.
    + unfold scatter_copies. rewrite (proj2 (Z.leb_gt _ _)), Ha by lia.
      apply list_elem_of_fmap. exists o. split; [done|]. apply elem_of_lane_offsets; [lia|lia|lia|done].
    + by apply (launch_order_elem 64 num order w); [right|..].
Qed.

(** The rows whose bit is not set are copied from the source, all others stay. *)
Lemma scatter_rows order m :
  0 < num < 2 ^ 31 -> launch_order 64 num order ->
  exists m', EmbeddingForwardScatter src_mem src dst size src_stride dst_stride hit_mask num order m = Ok m' /\
    (forall id, mem_read m' (dst + id * dst_stride) size =
      if (0 <=? id) && (id <? num) && negb (bit id) then mem_read src_mem (src + id * src_stride) size else mem_read m (dst + id * dst_stride) size).
Proof.
  intros Hpos Ho. unfold EmbeddingForwardScatter. destruct (vec_size_even size Heven) as [elt Ee]. rewrite Ee.
  destruct (vec_size_spec size elt Ee) as [Helt Hdiv].
  destruct (subgroup_width_spec (size / elt)) as (w & Ew & Hw).
  { destruct Hdiv as [q ->]. rewrite Z.div_mul by lia. nia. }
  rewrite Ew. cbn [obind]. rewrite launch_grid_ok by (done || by right). cbn [obind]. eexists. split; [done|].
  set (l := order w ≫= scatter_copies elt w).
  assert (E : fold_left (kernel elt w) (order w) m = fold_left (fun m c => copy_from src_mem c.1 c.2 elt m) l m).
  { unfold l. rewrite <- fold_left_bind. assert (Hin : forall id x, (id, x) ∈ order w -> 0 <= id).
    { intros id x Ht. by apply (launch_order_elem 64 num order w id x (or_intror eq_refl) Ho Hw Hnum) in Ht as [? _]. }
    generalize dependent (order w). intros ts _. revert m. induction ts as [|[id x] ts IH]; intros m Hin; [done|]. cbn [fold_left].
    rewrite (scatter_kernel_copies elt w m id x) by (eapply Hin; by left). apply IH. intros id' x' ?. eapply Hin. by right. }
  rewrite E. set (val_at := fun d => mem_read src_mem (src + (d - dst) / dst_stride * src_stride) size).
  assert (Hidx : forall id, (dst + id * dst_stride - dst) / dst_stride = id)
    by (intros id; replace (dst + id * dst_stride - dst) with (id * dst_stride) by lia; apply Z.div_mul; lia).
  destruct (rows_written src_mem elt size Helt Hdiv scatter_act num val_at) with (l := l) (m := m) as [H1 H2].
  - intros id d p Hid Ha. unfold scatter_act in Ha. destruct (bit id); [done|]. injection Ha as <- <-. unfold val_at. by rewrite Hidx.
  - intros id id' d d' p p' Hid Hid' Ha Ha'. unfold scatter_act in Ha, Ha'. destruct (bit id), (bit id'); try done.
    injection Ha as <- <-. injection Ha' as <- <-.
    assert (id = id' \/ id < id' \/ id' < id) as [-> | [H|H]] by lia; [by left|right..]; unfold disjoint; nia.
  - by apply scatter_copies_of.
  - intros id. destruct ((0 <=? id) && (id <? num) && negb (bit id)) eqn:Eb.
    + rewrite (H1 id _ (src + id * src_stride)); [unfold val_at; by rewrite Hidx|lia|]. unfold scatter_act. revert Eb. destruct (bit id); [by rewrite andb_false_r|done].
    + apply mem_read_ext. intros a Ha. apply H2. intros id' d p Hid' Ha'. unfold scatter_act in Ha'.
      destruct (bit id') eqn:Eb'; [done|]. injection Ha' as <- <-. destruct (Z.eq_dec id id') as [->|Hne].
      * rewrite Eb' in Eb. lia.
      * intros Hin. assert (id < id' \/ id' < id) as [|] by lia; nia.
Qed.

Lemma scatter_zero order m :
  EmbeddingForwardScatter src_mem src dst size src_stride dst_stride hit_mask 0 order m = Throw "invalid configuration argument".
Proof.
  unfold EmbeddingForwardScatter. destruct (vec_size_even size Heven) as [elt Ee]. rewrite Ee.
  destruct (vec_size_spec size elt Ee) as [Helt Hdiv].
  destruct (subgroup_width_spec (size / elt)) as (w & Ew & Hw).
  { destruct Hdiv as [q ->]. rewrite Z.div_mul by lia. nia. }
  rewrite Ew. cbn [obind]. by rewrite launch_grid_zero by (done || by right).
Qed.
End ScatterLemmas.

(** ** Lemmas: additions to distinct elements in any order *)

Section Additions.
Context (T : DataType_t) (add_element : DataType_t -> DataType_t -> list Z -> list Z -> list Z) (src_mem : memory).
Local Abbreviation sz := (elem_size T).
Context (Hadd : forall t u, length (add_element T T t u) = Z.to_nat sz).

(** One addition: element address in the table and in the updates. *)
Definition add_at (m : memory) (c : Z * Z) : memory :=
  store_bytes m c.1 (add_element T T (mem_read m c.1 sz) (mem_read src_mem c.2 sz)).

Lemma update_element_add tab upd i m :
  update_element add_element T T tab src_mem upd i m = add_at m (tab + i * sz, upd + i * sz).
Proof. done. Qed.

Lemma sz_nonneg : 0 <= sz.
Proof. by destruct T. Qed.

Lemma store_bytes_read m a bytes n : length bytes = Z.to_nat n -> mem_read (store_bytes m a bytes) a n = bytes.
Proof.
  intros Hl. unfold mem_read. apply list_eq. intros i. rewrite list_lookup_fmap.
  destruct (decide (Z.of_nat i < n)) as [Hi|Hi].
  - rewrite lookup_seqZ_lt by lia. simpl. unfold store_bytes. replace (Z.to_nat (a + Z.of_nat i - a)) with i by lia.
    destruct (lookup_lt_is_Some_2 bytes i ltac:(lia)) as [b Hb]. rewrite Hb. by rewrite (proj2 (Z.leb_le _ _)) by lia.
  - rewrite lookup_seqZ_ge by lia. symmetry. apply lookup_ge_None. lia.
Qed.

Lemma store_bytes_outside m a bytes n x : length bytes = Z.to_nat n -> 0 <= n -> ~ (a <= x < a + n) -> store_bytes m a bytes x = m x.
Proof.
  intros Hl Hn Hx. unfold store_bytes. destruct (bytes !! Z.to_nat (x - a)) eqn:E; [|done].
  apply lookup_lt_Some in E. destruct (Z.leb_spec a x); [lia|done].
Qed.

Lemma add_at_outside m c x : ~ (c.1 <= x < c.1 + sz) -> add_at m c x = m x.
Proof. intros Hx. apply (store_bytes_outside _ _ _ sz); [apply Hadd|apply sz_nonneg|done]. Qed.

Lemma add_at_disjoint m c d n : disjoint c.1 sz d n -> mem_read (add_at m c) d n = mem_read m d n.
Proof. intros Hd. apply mem_read_ext. intros x Hx. apply add_at_outside. unfold disjoint in Hd. lia. Qed.

Lemma adds_outside l m x : (forall c, c ∈ l -> ~ (c.1 <= x < c.1 + sz)) -> fold_left add_at l m x = m x.
Proof.
  revert m. induction l as [|c l IH]; intros m H; [done|]. cbn [fold_left].
  rewrite IH by (intros; apply H; by right). apply add_at_outside, H. by left.
Qed.

(** Every element of the list gets its addend once. *)
Lemma adds_once l m c :
  NoDup l.*1 -> (forall c c', c ∈ l -> c' ∈ l -> c.1 <> c'.1 -> disjoint c.1 sz c'.1 sz) -> c ∈ l ->
  mem_read (fold_left add_at l m) c.1 sz = add_element T T (mem_read m c.1 sz) (mem_read src_mem c.2 sz).
Proof.
  revert m. induction l as [|e l IH]; intros m Hnd Hdis Hc; [by apply not_elem_of_nil in Hc|].
  rewrite fmap_cons in Hnd. apply NoDup_cons in Hnd as [Hni Hnd]. cbn [fold_left].
  assert (Hne : forall c', c' ∈ l -> e.1 <> c'.1).
  { intros c' Hc' E. apply Hni. rewrite E. by apply list_elem_of_fmap_2. }
  apply elem_of_cons in Hc as [->|Hc].
  - transitivity (mem_read (add_at m e) e.1 sz); [|by apply store_bytes_read].
    apply mem_read_ext. intros x Hx. apply adds_outside. intros c' Hc' Hx'.
    destruct (Hdis e c' ltac:(by left) ltac:(by right) (Hne c' Hc')); lia.
  - rewrite IH; [|done|intros; apply Hdis; [by right..|done]|done]. f_equal. apply add_at_disjoint.
    apply Hdis; [by left|by right|by apply Hne].
Qed.

(** Two lists of the same additions to distinct elements leave the same memory. *)
Lemma adds_perm l l' m :
  NoDup l.*1 -> (forall c c', c ∈ l -> c' ∈ l -> c.1 <> c'.1 -> disjoint c.1 sz c'.1 sz) -> l ≡ₚ l' ->
  forall a, fold_left add_at l m a = fold_left add_at l' m a.
Proof.
  intros Hnd Hdis Hp a.
  destruct (List.find (fun c => (c.1 <=? a) && (a <? c.1 + sz)) l) as [c|] eqn:Ef.
  - apply find_Some_In in Ef as [Hc Ha].
    assert (E : mem_read (fold_left add_at l m) c.1 sz = mem_read (fold_left add_at l' m) c.1 sz).
    { rewrite !adds_once; [done|by rewrite <- Hp|intros d d'; rewrite <- !Hp; apply Hdis|by rewrite <- Hp|done..]. }
    apply (f_equal (fun bs => bs !! Z.to_nat (a - c.1))) in E. unfold mem_read in E. rewrite !list_lookup_fmap, lookup_seqZ_lt in E by lia.
    simpl in E. injection E as E. by replace (c.1 + Z.of_nat (Z.to_nat (a - c.1))) with a in E by lia.
  - assert (Hno : forall c, c ∈ l -> ~ (c.1 <= a < c.1 + sz)).
    { intros c Hc Ha. apply (find_None_In _ _ c) in Ef; [|done]. cbv beta in Ef. lia. }
    rewrite !adds_outside; [done| |done]. intros c. rewrite <- Hp. apply Hno.
Qed.
End Additions.

Lemma launch_threads_NoDup w ipw num : 0 < ipw -> NoDup (launch_threads w ipw num).
Proof.
  intros Hi. unfold launch_threads, launch_rows.
  assert (Hrows : NoDup (b ← seqZ 0 (ceil_div num ipw); y ← seqZ 0 ipw; [b * ipw + y])).
  { apply NoDup_bind; [| |apply NoDup_seqZ].
    - intros b b' id _ _ H H'. apply list_elem_of_bind in H as (y & H & Hy). apply list_elem_of_bind in H' as (y' & H' & Hy').
      apply list_elem_of_singleton in H, H'. rewrite elem_of_seqZ in *. subst. nia.
    - intros b _. apply NoDup_bind; [| |apply NoDup_seqZ].
      + intros y y' id _ _ H H'. apply list_elem_of_singleton in H, H'. lia.
      + intros y _. apply NoDup_singleton. }
  apply NoDup_bind; [| |done].
  - intros id id' t _ _ H H'. apply list_elem_of_bind in H as (x & H & _). apply list_elem_of_bind in H' as (x' & H' & _).
    apply list_elem_of_singleton in H, H'. congruence.
  - intros id _. apply NoDup_bind; [| |apply NoDup_seqZ].
    + intros x x' t _ _ H H'. apply list_elem_of_singleton in H, H'. congruence.
    + intros x _. apply NoDup_singleton.
Qed.

Lemma lane_elements_NoDup w n x : 0 < w -> NoDup (lane_elements w n x).
Proof. intros Hw. unfold lane_elements. apply NoDup_fmap_2_strong; [|apply NoDup_seqZ]. intros i j _ _ E. nia. Qed.

(** The additions of the rows [ids], element by element. *)
Definition row_adds (T : DataType_t) (dst src : Z -> Z) (n : Z) (ids : list Z) : list (Z * Z) :=
  id ← ids; el ← seqZ 0 n; [(dst id + el * elem_size T, src id + el * elem_size T)].

Section RowAdds.
Context (T : DataType_t) (HT : 0 < elem_size T) (dst src : Z -> Z) (n : Z).
Local Abbreviation sz := (elem_size T).

Lemma elem_of_row_adds ids c :
  c ∈ row_adds T dst src n ids <-> exists id el, id ∈ ids /\ 0 <= el < n /\ c = (dst id + el * sz, src id + el * sz).
Proof.
  unfold row_adds. rewrite list_elem_of_bind. setoid_rewrite list_elem_of_bind. setoid_rewrite elem_of_seqZ. split.
  - intros (id & (el & Hc & Hel) & Hid). apply list_elem_of_singleton in Hc. exists id, el. split_and!; done || lia.
  - intros (id & el & Hid & Hel & ->). exists id. split; [|done]. exists el. split; [by apply list_elem_of_singleton|lia].
Qed.

(** Rows at least [n] elements apart have elements that are equal or disjoint. *)
Context (num : Z) (apart : forall id id', 0 <= id < num -> 0 <= id' < num -> id <> id' -> disjoint (dst id) (n * sz) (dst id') (n * sz)).

Lemma row_adds_inj id el id' el' :
  0 <= id < num -> 0 <= id' < num -> 0 <= el < n -> 0 <= el' < n -> dst id + el * sz = dst id' + el' * sz -> id = id' /\ el = el'.
Proof.
  intros Hid Hid' H H' E. destruct (Z.eq_dec id id') as [->|Hne]; [split; [done|nia]|].
  destruct (apart id id' Hid Hid' Hne); nia.
Qed.

Lemma row_adds_disjoint ids c c' :
  (forall id, id ∈ ids -> 0 <= id < num) ->
  c ∈ row_adds T dst src n ids -> c' ∈ row_adds T dst src n ids -> c.1 <> c'.1 -> disjoint c.1 sz c'.1 sz.
Proof.
  intros Hr (id & el & Hi & Hel & ->)%elem_of_row_adds (id' & el' & Hi' & Hel' & ->)%elem_of_row_adds. simpl. intros Hne.
  unfold disjoint. destruct (Z.eq_dec id id') as [->|Hid].
  - assert (el < el' \/ el' < el) as [|] by nia; [left|right]; nia.
  - destruct (apart id id' (Hr _ Hi) (Hr _ Hi') Hid); [left|right]; nia.
Qed.

Lemma row_adds_NoDup ids : (forall id, id ∈ ids -> 0 <= id < num) -> NoDup ids -> NoDup (row_adds T dst src n ids).*1.
Proof.
  intros Hr Hnd. unfold row_adds.
  induction ids as [|id ids IH]; [constructor|]. apply NoDup_cons in Hnd as [Hni Hnd].
  rewrite bind_cons, fmap_app. apply NoDup_app. split; [|split; [|apply IH; [intros; apply Hr; by right|done]]].
  - replace ((el ← seqZ 0 n; [(dst id + el * sz, src id + el * sz)]).*1) with ((fun el => dst id + el * sz) <$> seqZ 0 n).
    + apply NoDup_fmap_2_strong; [|apply NoDup_seqZ]. intros i j _ _ E. nia.
    + clear. induction (seqZ 0 n) as [|e l IHl]; [done|]. rewrite bind_cons, fmap_app, fmap_cons, IHl. done.
  - intros a Ha Ha'. apply list_elem_of_fmap in Ha as (c & -> & Hc). apply list_elem_of_fmap in Ha' as (c' & E & Hc').
    apply list_elem_of_bind in Hc as (el & Hc & Hel). apply list_elem_of_singleton in Hc as ->.
    apply (elem_of_row_adds ids) in Hc' as (id' & el' & Hid' & Hel' & ->). rewrite elem_of_seqZ in Hel. simpl in E.
    destruct (row_adds_inj id el id' el') as [-> _]; [apply Hr; by left|apply Hr; by right|lia|lia|lia|done].
Qed.
End RowAdds.

Section AccumulateLemmas.
Context (K : int_type) (T : DataType_t) (add_element : DataType_t -> DataType_t -> list Z -> list Z -> list Z).
Context (src_mem : memory) (src : Z) (indices : Z -> Z) (table n src_stride dst_stride num : Z).
Local Abbreviation sz := (elem_size T).
Context (Hadd : forall t u, length (add_element T T t u) = Z.to_nat sz) (HT : 0 < sz).
Context (Hnum : 0 <= num) (Hn : 0 < n <= dst_stride) (Hsrc : 0 <= src_stride) (Hfit : num * src_stride < 2 ^ 32).
Context (Hkeys : keys_fit K indices dst_stride num).
Context (Hdistinct : forall id id', 0 <= id < num -> 0 <= id' < num -> indices id = indices id' -> id = id').

Definition table_row (id : Z) : Z := table + indices id * dst_stride * sz.
Definition update_row (id : Z) : Z := src + id * src_stride * sz.

Lemma acc_pointers id :
  0 <= id < num ->
  acc_dst K T indices table dst_stride id = table_row id /\ acc_src T src src_stride id = update_row id.
Proof.
  intros Hid. unfold acc_dst, acc_src. destruct (row_offsets K indices src_stride dst_stride num id) as [-> ->]; done || lia.
Qed.

Lemma table_rows_apart id id' :
  0 <= id < num -> 0 <= id' < num -> id <> id' -> disjoint (table_row id) (n * sz) (table_row id') (n * sz).
Proof.
  intros Hid Hid' Hne. unfold disjoint, table_row.
  assert (indices id <> indices id') by (intros E; by apply Hne, Hdistinct).
  assert (indices id < indices id' \/ indices id' < indices id) as [H'|H'] by lia; [left|right].
  - assert ((indices id + 1) * dst_stride <= indices id' * dst_stride) by nia. nia.
  - assert ((indices id' + 1) * dst_stride <= indices id * dst_stride) by nia. nia.
Qed.

Definition acc_adds (w : Z) (t : Z * Z) : list (Z * Z) :=
  let '(id, x) := t in
  if num <=? id then [] else (fun el => (table_row id + el * sz, update_row id + el * sz)) <$> lane_elements w n x.

Lemma acc_adds_perm order w :
  launch_order 32 num order -> w ∈ [32; 16; 8; 4; 2; 1] ->
  (order w ≫= acc_adds w) ≡ₚ row_adds T table_row update_row n (seqZ 0 num).
Proof.
  intros Ho Hw. apply width_cases in Hw as Hw'. pose proof (Ho w Hw) as Hp.
  assert (Hid : forall t, t ∈ order w -> 0 <= t.1 /\ 0 <= t.2 < w).
  { intros [id x] Ht. by apply (launch_order_elem 32 num order w id x (or_introl eq_refl) Ho Hw Hnum) in Ht. }
  assert (Hel : forall t c, t ∈ order w -> c ∈ acc_adds w t ->
    exists el, 0 <= t.1 < num /\ 0 <= el < n /\ el mod w = t.2 /\ c = (table_row t.1 + el * sz, update_row t.1 + el * sz)).
  { intros [id x] c Ht Hc. unfold acc_adds in Hc. destruct (Hid _ Ht) as [Hi Hx]. simpl in *.
    destruct (Z.leb_spec num id); [by apply not_elem_of_nil in Hc|].
    apply list_elem_of_fmap in Hc as (el & -> & [H1 H2]%elem_of_lane_elements); [|lia..]. exists el. split_and!; done || lia. }
  apply NoDup_Permutation.
  - apply NoDup_bind.
    + intros t t' c Ht Ht' Hc Hc'. destruct (Hel _ _ Ht Hc) as (el & Hi & He & Hm & ->).
      destruct (Hel _ _ Ht' Hc') as (el' & Hi' & He' & Hm' & E). injection E as E _.
      destruct (row_adds_inj T HT table_row n num table_rows_apart t.1 el t'.1 el') as [E1 ->]; try done.
      destruct t, t'. simpl in *. congruence.
    + intros [id x] Ht. unfold acc_adds. destruct (num <=? id); [constructor|].
      apply NoDup_fmap_2_strong; [|apply lane_elements_NoDup; lia]. intros i j _ _ [= E _]. nia.
    + rewrite Hp. apply launch_threads_NoDup. destruct Hw' as [-> | [-> | [-> | [-> | [-> | ->]]]]]; done.
  - eapply NoDup_fmap_1, (row_adds_NoDup T HT table_row update_row n num table_rows_apart); [|apply NoDup_seqZ].
    intros id. rewrite elem_of_seqZ. lia.
  - intros c. rewrite list_elem_of_bind, elem_of_row_adds. split.
    + intros (t & Hc & Ht). destruct (Hel _ _ Ht Hc) as (el & Hi & He & _ & ->). exists t.1, el. rewrite elem_of_seqZ. split_and!; done || lia.
    + intros (id & el & Hi & He & ->). rewrite elem_of_seqZ in Hi. assert (0 < w) by lia. pose proof (Z.mod_pos_bound el w ltac:(lia)).
      exists (id, el mod w). split; [|by apply (launch_order_elem 32 num order w); [left|..]].
      unfold acc_adds. rewrite (proj2 (Z.leb_gt _ _)) by lia. apply list_elem_of_fmap. exists el. split; [done|].
      apply elem_of_lane_elements; [lia|lia|done].
Qed.

(** The accumulate kernel adds every update row to the row of its key, once. *)
Lemma UpdateAccumulateTable_adds order m :
  0 < num < 2 ^ 31 -> launch_order 32 num order ->
  exists m', UpdateAccumulateTable K T add_element src_mem src indices table n src_stride dst_stride num order m = Ok m' /\
    forall a, m' a = fold_left (add_at T add_element src_mem) (row_adds T table_row update_row n (seqZ 0 num)) m a.
Proof.
  intros Hpos Ho. unfold UpdateAccumulateTable. destruct (subgroup_width_spec n ltac:(lia)) as (w & -> & Hw). cbn [obind].
  rewrite launch_grid_ok by (done || by left). cbn [obind].
  eexists. split; [done|].
  assert (E : fold_left (UpdateAccumulateTableKernel K T add_element src_mem src indices table n src_stride dst_stride num w) (order w) m =
    fold_left (add_at T add_element src_mem) (order w ≫= acc_adds w) m).
  { rewrite <- fold_left_bind. assert (Hin : forall id x, (id, x) ∈ order w -> 0 <= id).
    { intros id x Ht. by apply (launch_order_elem 32 num order w id x (or_introl eq_refl) Ho Hw Hnum) in Ht as [? _]. }
    generalize dependent (order w). intros ts. revert m. induction ts as [|[id x] ts IH]; intros m Hin; [done|]. cbn [fold_left].
    rewrite IH by (intros id' x' ?; eapply Hin; by right). f_equal. unfold UpdateAccumulateTableKernel, acc_adds.
    destruct (Z.leb_spec num id); [done|]. destruct (acc_pointers id) as [-> ->]; [split; [eapply Hin; by left|done]|].
    by rewrite fold_left_fmap. }
  rewrite E. symmetry. apply adds_perm; [done|apply (row_adds_NoDup T HT _ _ n num table_rows_apart); [|apply NoDup_seqZ]| |by rewrite acc_adds_perm].
  - intros id. rewrite elem_of_seqZ. lia.
  - intros c c'. apply (row_adds_disjoint T HT _ _ n num table_rows_apart). intros id. rewrite elem_of_seqZ. lia.
Qed.
End AccumulateLemmas.

(** With 32-bit keys the row offset of [UpdateTable] is a 32-bit product: in a table of
    rows of 1024 bytes the update of key [2^22] is written over the row of key 0, and the
    row of the key, which lookups address with 64 bits, keeps its bytes. With 64-bit keys
    the same call writes the row of the key. *)
Theorem update_table_wraps_int32 :
  let m0 : memory := fun a => if a <? 1000 then 7 else 0 in
  let run K := UpdateTable K m0 0 (fun _ => 2 ^ 22) 1000 1024 1024 1024 1 (fun w => launch_threads w (32 / w) 1) m0 in
  exists m' m'', run int32_t = Ok m' /\ run int64_t = Ok m'' /\
    mem_read m' 1000 4 = [7; 7; 7; 7] /\ mem_read m' (1000 + 2 ^ 22 * 1024) 4 = [0; 0; 0; 0] /\
    mem_read m'' 1000 4 = [0; 0; 0; 0] /\ mem_read m'' (1000 + 2 ^ 22 * 1024) 4 = [7; 7; 7; 7].
Proof. do 2 eexists. split_and!; [reflexivity..|vm_compute; reflexivity|vm_compute; reflexivity|vm_compute; reflexivity|vm_compute; reflexivity]. Qed.
