(* ===== verification/Streams.v ===== *)
(** * CUDA streams and events: [StreamCoordinator], [DefaultECEvent]

    What the code uses of CUDA's ordering: the commands of a stream run in the order they
    were queued, an event captures what was queued on a stream when it is recorded, and a
    stream that waits for an event runs its later commands after what the event captured. A
    command is identified by its position in the order of issue. Beyond that order the device
    is free: a schedule is any order of the commands that respects it.

    The main result, [schedule_serial], says when a schedule cannot be told from the order of
    issue: every two commands are ordered or commute. *)
From S2P Require Import Prelude AutoInsert.

(** ** Commands, streams and events *)

Section Cuda.
(** [St] is the memory the commands work on, [L] what they are marked with. *)
Context {St L : Type}.

(** A command: its effect, its mark and the commands that run before it. *)
Record command := { act : St -> St; mark : L; after : gset nat }.

(** [issued]: all commands so far. [seen s]: what runs before the next command of stream [s];
    [captured e]: what event [e] captured. [synced]: what the host has waited for. *)
Record cuda := {
  issued : list command;
  seen : Z -> gset nat;
  captured : Z -> gset nat;
  next_event : Z;
  synced : gset nat
}.

(** A command is queued on stream [s]. *)
Definition enqueue (s : Z) (l : L) (f : St -> St) (c : cuda) : cuda :=
  {| issued := issued c ++ [{| act := f; mark := l; after := seen c s ∪ synced c |}];
     seen := upd (seen c) s (seen c s ∪ synced c ∪ {[length (issued c)]});
     captured := captured c; next_event := next_event c; synced := synced c |}.

(** [cudaEventCreate], [cudaEventRecord], [cudaStreamWaitEvent], [cudaStreamSynchronize]. An
    event that was never recorded captures nothing. *)
Definition event_create (c : cuda) : Z * cuda :=
  (next_event c,
   {| issued := issued c; seen := seen c; captured := upd (captured c) (next_event c) ∅;
      next_event := next_event c + 1; synced := synced c |}).
Definition event_record (e s : Z) (c : cuda) : cuda :=
  {| issued := issued c; seen := seen c; captured := upd (captured c) e (seen c s ∪ synced c);
     next_event := next_event c; synced := synced c |}.
Definition stream_wait (s e : Z) (c : cuda) : cuda :=
  {| issued := issued c; seen := upd (seen c) s (seen c s ∪ captured c e); captured := captured c;
     next_event := next_event c; synced := synced c |}.
Definition stream_synchronize (s : Z) (c : cuda) : cuda :=
  {| issued := issued c; seen := seen c; captured := captured c; next_event := next_event c;
     synced := synced c ∪ seen c s |}.

(** [create_stream_dependency]; the constructor and the destructor of [StreamCoordinator],
    where stream [0] is no stream of its own to run on. *)
Definition create_stream_dependency (src dst : Z) (c : cuda) : cuda :=
  if src =? dst then c
  else let '(e, c) := event_create c in stream_wait dst e (event_record e src c).
Definition queue_stream (caller_stream run_stream : Z) : Z := if run_stream =? 0 then caller_stream else run_stream.
Definition coordinator_enter (caller_stream run_stream : Z) (c : cuda) : cuda :=
  create_stream_dependency caller_stream (queue_stream caller_stream run_stream) c.
Definition coordinator_leave (caller_stream run_stream : Z) (c : cuda) : cuda :=
  create_stream_dependency (queue_stream caller_stream run_stream) caller_stream c.

(** [DefaultECEvent]: an event for each stream. *)
Definition DefaultECEvent : Type := list (Z * Z).
Fixpoint ec_event_create (streams : list Z) (c : cuda) : DefaultECEvent * cuda :=
  match streams with
  | [] => ([], c)
  | s :: streams =>
      let '(e, c) := event_create c in
      let '(l, c) := ec_event_create streams c in
      ((s, e) :: l, c)
  end.
Definition ec_event_record (l : DefaultECEvent) (c : cuda) : cuda := fold_left (fun c p => event_record p.2 p.1 c) l c.
Definition ec_event_wait_stream (l : DefaultECEvent) (s : Z) (c : cuda) : cuda := fold_left (fun c p => stream_wait s p.2 c) l c.

(** ** Schedules *)

Definition after_of (l : list command) (i : nat) : gset nat := from_option after ∅ (l !! i).
Definition act_of (l : list command) (i : nat) : St -> St := from_option act id (l !! i).

(** [order] runs every command once, and each one after the commands it waits for. *)
Definition legal (l : list command) (order : list nat) : Prop :=
  order ≡ₚ seq 0 (length l) /\
  forall l1 i l2, order = l1 ++ i :: l2 -> forall j, j ∈ after_of l i -> j ∈ l1.
Definition run (l : list command) (order : list nat) (m : St) : St := fold_left (fun m i => act_of l i m) order m.
(** The commands in the order of issue. *)
Definition run_issued (l : list command) (m : St) : St := fold_left (fun m x => act x m) l m.

End Cuda.
Arguments command St L : clear implicits.
Arguments cuda St L : clear implicits.

(** ** Lemmas on events *)

Section Events.
Context {St L : Type}.
Implicit Type c : cuda St L.

(** Every set of commands is one of commands that were issued. *)
Record bounded c : Prop := {
  b_seen s i : i ∈ seen c s -> (i < length (issued c))%nat;
  b_captured e i : i ∈ captured c e -> (i < length (issued c))%nat;
  b_synced i : i ∈ synced c -> (i < length (issued c))%nat
}.

(** [c'] has the commands of [c], every stream of [c'] waits for at least as much, and
    events older than [n] are as they were. *)
Record only_waits (n : Z) c c' : Prop := {
  ow_issued : issued c' = issued c;
  ow_synced : synced c' = synced c;
  ow_seen s : seen c s ⊆ seen c' s;
  ow_captured e : e < n -> captured c' e = captured c e;
  ow_next : next_event c <= next_event c';
  ow_bounded : bounded c -> bounded c'
}.

Lemma upd_bound (f : Z -> gset nat) k (X : gset nat) n :
  (forall s i, i ∈ f s -> (i < n)%nat) -> (forall i, i ∈ X -> (i < n)%nat) -> forall s i, i ∈ upd f k X s -> (i < n)%nat.
Proof. intros Hf HX s i. unfold upd. destruct (s =? k); eauto. Qed.

#[global] Instance only_waits_preorder n : PreOrder (only_waits n).
Proof.
  split.
  - intros c. by split.
  - intros c1 c2 c3 [] []. split; [congruence|congruence|intros s; by transitivity (seen c2 s)|intros e He|lia|].
    + transitivity (captured c2 e); eauto.
    + eauto.
Qed.

Lemma event_create_waits n c : n <= next_event c -> only_waits n c (event_create c).2.
Proof.
  intros Hn. split; simpl; [done..|intros e He; apply upd_ne; lia|lia|].
  intros [B1 B2 B3]. split; simpl; [done|apply upd_bound; [done|set_solver]|done].
Qed.

Lemma event_record_bounded e s c : bounded c -> bounded (event_record e s c).
Proof.
  intros [B1 B2 B3]. split; simpl; [done|apply upd_bound; [done|]|done].
  intros i [?|?]%elem_of_union; eauto.
Qed.

Lemma event_record_waits n e s c : n <= e -> only_waits n c (event_record e s c).
Proof.
  intros Hn. split; simpl; [done..|intros e' He; apply upd_ne; lia|done|]. apply event_record_bounded.
Qed.

Lemma stream_wait_waits n s e c : only_waits n c (stream_wait s e c).
Proof.
  split; simpl; [done..| |done|done|].
  - intros s'. unfold upd. destruct (Z.eqb_spec s' s) as [->|]; set_solver.
  - intros [B1 B2 B3]. split; simpl; [apply upd_bound; [done|]|done|done].
    intros i [?|?]%elem_of_union; eauto.
Qed.

Lemma seen_stream_wait s e c : captured c e ⊆ seen (stream_wait s e c) s.
Proof. simpl. rewrite upd_eq. set_solver. Qed.

Lemma only_waits_weaken n n' c c' : n' <= n -> only_waits n c c' -> only_waits n' c c'.
Proof. intros Hn []. split; try done. intros. apply ow_captured0. lia. Qed.

Lemma stream_synchronize_bounded s c : bounded c -> bounded (stream_synchronize s c).
Proof. intros [B1 B2 B3]. split; simpl; [done|done|]. intros i [?|?]%elem_of_union; eauto. Qed.

Lemma enqueue_bounded s l f c : bounded c -> bounded (enqueue s l f c).
Proof.
  intros [B1 B2 B3]. split; simpl; rewrite length_app; simpl.
  - apply upd_bound; [intros s' i Hi; specialize (B1 _ _ Hi); lia|].
    intros i [[Hi|Hi]%elem_of_union|Hi%elem_of_singleton]%elem_of_union; [specialize (B1 _ _ Hi)|specialize (B3 _ Hi)|]; lia.
  - intros e i Hi. specialize (B2 _ _ Hi). lia.
  - intros i Hi. specialize (B3 _ Hi). lia.
Qed.

Lemma dependency_waits n src dst c :
  n <= next_event c -> only_waits n c (create_stream_dependency src dst c).
Proof.
  intros Hn. unfold create_stream_dependency. destruct (src =? dst); [done|]. cbn.
  etrans; [by apply event_create_waits|]. etrans; [|apply stream_wait_waits]. by apply event_record_waits.
Qed.

Lemma dependency_seen src dst c :
  seen c src ⊆ seen (create_stream_dependency src dst c) dst.
Proof.
  unfold create_stream_dependency. destruct (Z.eqb_spec src dst) as [->|Hne]; [done|].
  cbn. rewrite !upd_eq. set_solver.
Qed.

Lemma coordinator_enter_waits n caller rs c : n <= next_event c -> only_waits n c (coordinator_enter caller rs c).
Proof. apply dependency_waits. Qed.
Lemma coordinator_leave_waits n caller rs c : n <= next_event c -> only_waits n c (coordinator_leave caller rs c).
Proof. apply dependency_waits. Qed.

Lemma ec_event_create_spec n streams c :
  n <= next_event c ->
  only_waits n c (ec_event_create streams c).2 /\ (ec_event_create streams c).1.*1 = streams /\
  NoDup (ec_event_create streams c).1.*2 /\ Forall (fun p => next_event c <= p.2) (ec_event_create streams c).1.
Proof.
  revert c n. induction streams as [|s streams IH]; intros c n Hn; simpl.
  - split_and!; [reflexivity|done|constructor|constructor].
  - destruct (event_create c) as [e c1] eqn:E1. destruct (ec_event_create streams c1) as [l c2] eqn:E2.
    unfold event_create in E1. injection E1 as <- <-.
    destruct (IH (event_create c).2 n) as (W & F & N & G); [simpl; lia|]. unfold event_create in *. simpl in *.
    rewrite E2 in *. simpl in *. split_and!.
    + etrans; [by apply (event_create_waits n)|done].
    + by f_equal.
    + constructor; [|done]. intros (p & He & Hp)%list_elem_of_fmap. rewrite Forall_forall in G. specialize (G p Hp). lia.
    + constructor; [simpl; lia|]. eapply Forall_impl; [exact G|]. simpl. lia.
Qed.

Lemma ec_event_record_spec n (l : DefaultECEvent) c :
  Forall (fun p => n <= p.2) l -> NoDup l.*2 ->
  only_waits n c (ec_event_record l c) /\ seen (ec_event_record l c) = seen c /\
  forall s e, (s, e) ∈ l -> seen c s ⊆ captured (ec_event_record l c) e.
Proof.
  unfold ec_event_record. intros Hl. revert c. induction l as [|[s e] l IH]; intros c HN; simpl.
  - split_and!; [reflexivity|done|]. intros s e Hse. by apply not_elem_of_nil in Hse.
  - inversion_clear Hl as [|? ? Hn Hl']. simpl in HN. apply NoDup_cons in HN as [Hni HN].
    destruct (IH Hl' (event_record e s c) HN) as (W & Sn & C). split_and!.
    + etrans; [by apply event_record_waits|done].
    + by rewrite Sn.
    + intros s' e' [[= -> ->]|Hin]%elem_of_cons; [|by apply C].
      assert (captured (fold_left (fun c p => event_record p.2 p.1 c) l (event_record e s c)) e
              = captured (event_record e s c) e) as ->; [|simpl; rewrite upd_eq; set_solver].
      clear -Hni. generalize (event_record e s c). revert Hni. induction l as [|[s1 e1] l IH]; intros Hni c0; [done|].
      simpl in *. rewrite IH by set_solver. simpl. apply upd_ne. set_solver.
Qed.

Lemma ec_event_wait_spec n (l : DefaultECEvent) s0 c :
  only_waits n c (ec_event_wait_stream l s0 c) /\ captured (ec_event_wait_stream l s0 c) = captured c /\
  forall s e, (s, e) ∈ l -> captured c e ⊆ seen (ec_event_wait_stream l s0 c) s0.
Proof.
  unfold ec_event_wait_stream. revert c. induction l as [|[s e] l IH]; intros c; simpl.
  - split_and!; [reflexivity|done|]. intros s e Hse. by apply not_elem_of_nil in Hse.
  - destruct (IH (stream_wait s0 e c)) as (W & Cp & H). split_and!.
    + etrans; [apply stream_wait_waits|done].
    + by rewrite Cp.
    + intros s' e' [[= -> ->]|Hin]%elem_of_cons.
      * etrans; [apply (seen_stream_wait s0)|]. apply (ow_seen _ _ _ W).
      * etrans; [|by eapply H]. done.
Qed.

(** A stream that waits for a sync event runs after everything queued on its streams. *)
Lemma sync_event_waits n streams s0 c :
  n <= next_event c ->
  let r := ec_event_create streams c in
  let c' := ec_event_wait_stream r.1 s0 (ec_event_record r.1 r.2) in
  only_waits n c c' /\ forall s, s ∈ streams -> seen c s ⊆ seen c' s0.
Proof.
  intros Hn r c'. destruct (ec_event_create_spec n streams c Hn) as (W1 & F & N & G). fold r in W1, F, N, G.
  assert (Forall (fun p => n <= p.2) r.1) as G' by (eapply Forall_impl; [exact G|]; simpl; lia).
  destruct (ec_event_record_spec n r.1 r.2 G' N) as (W2 & Sn & C2).
  destruct (ec_event_wait_spec n r.1 s0 (ec_event_record r.1 r.2)) as (W3 & _ & C3).
  split; [by do 2 (etrans; [eassumption|])|].
  intros s Hs. rewrite <- F in Hs. apply list_elem_of_fmap in Hs as ([s1 e] & -> & Hse). simpl.
  etrans; [apply (ow_seen _ _ _ W1)|]. etrans; [by apply (C2 s1 e)|]. by apply (C3 s1 e).
Qed.
End Events.

(** ** Schedules and the order of issue *)

Section Serial.
Context {St L : Type} (R : relation St) `{!Equivalence R} (P : St -> Prop).
Implicit Type l : list (command St L).

(** The effects respect [R] and preserve [P]. *)
Definition well_behaved l : Prop :=
  Forall (fun x => Proper (R ==> R) (act x) /\ forall m, P m -> P (act x m)) l.
(** Every two commands that are not ordered commute. *)
Definition well_ordered l : Prop :=
  forall i j x y, (i < j)%nat -> l !! i = Some x -> l !! j = Some y ->
    i ∈ after y \/ forall m, P m -> R (act x (act y m)) (act y (act x m)).

Lemma run_app l o1 o2 m : run l (o1 ++ o2) m = run l o2 (run l o1 m).
Proof. apply fold_left_app. Qed.

Lemma act_of_behaved l i : well_behaved l -> Proper (R ==> R) (act_of l i) /\ forall m, P m -> P (act_of l i m).
Proof.
  intros Hl. unfold act_of. destruct (l !! i) as [x|] eqn:E; simpl; [|by split; [intros m m' Hm|]].
  unfold well_behaved in Hl. rewrite Forall_lookup in Hl. by apply (Hl i x E).
Qed.

Lemma run_preserves l o m : well_behaved l -> P m -> P (run l o m).
Proof.
  intros Hl. unfold run. revert m. induction o as [|i o IH]; intros m Hm; simpl; [done|].
  apply IH. by apply (act_of_behaved l i Hl).
Qed.

Lemma run_proper l o : well_behaved l -> Proper (R ==> R) (run l o).
Proof.
  intros Hl. unfold run. induction o as [|i o IH]; intros m m' Hm; simpl; [done|].
  apply IH. by apply (act_of_behaved l i Hl).
Qed.

Lemma run_prefix l x o m : Forall (fun i => (i < length l)%nat) o -> run (l ++ [x]) o m = run l o m.
Proof.
  unfold run. revert m. induction o as [|i o IH]; intros m Ho; simpl; [done|].
  inversion_clear Ho. rewrite IH by done. f_equal. unfold act_of. by rewrite lookup_app_l.
Qed.

(** A command moves past those it commutes with. *)
Lemma run_move l n o m :
  well_behaved l ->
  (forall i, i ∈ o -> forall m, P m -> R (act_of l i (act_of l n m)) (act_of l n (act_of l i m))) ->
  P m -> R (run l o (act_of l n m)) (act_of l n (run l o m)).
Proof.
  intros Hl. revert m. induction o as [|i o IH]; intros m Ho Hm; simpl; [reflexivity|].
  etrans; [|apply IH; [intros; apply Ho; [by right|done]|by apply (act_of_behaved l i Hl)]].
  apply (run_proper l o Hl). apply Ho; [by left|done].
Qed.

Lemma run_issued_app l x m : run_issued (l ++ [x]) m = act x (run_issued l m).
Proof. unfold run_issued. by rewrite fold_left_app. Qed.

Lemma legal_prefix l x o1 o2 :
  legal (l ++ [x]) (o1 ++ length l :: o2) ->
  (forall i, i ∈ o2 -> length l ∉ after_of (l ++ [x]) i) ->
  legal l (o1 ++ o2).
Proof.
  intros [Hp Ho] Hlast.
  assert (o1 ++ o2 ≡ₚ seq 0 (length l)) as Hp'.
  { rewrite length_app, seq_app in Hp. simpl in Hp. rewrite <- Permutation_middle, <- Permutation_cons_append in Hp.
    by apply Permutation_cons_inv in Hp. }
  split; [done|]. intros l1 i l2 E j Hj.
  assert (i < length l)%nat as Hi.
  { assert (i ∈ o1 ++ o2) as Hin by (rewrite E; set_solver). rewrite Hp' in Hin. apply elem_of_seq in Hin. lia. }
  assert (after_of (l ++ [x]) i = after_of l i) as Ea by (unfold after_of; by rewrite lookup_app_l).
  apply app_eq_inv in E as [(k & -> & E)|(k & -> & E)].
  - destruct k as [|i' k]; simpl in E.
    + subst o2. rewrite app_nil_r in *. specialize (Ho (l1 ++ [length l]) i l2).
      rewrite <- app_assoc in Ho. specialize (Ho eq_refl j). rewrite Ea in Ho. specialize (Ho Hj).
      apply elem_of_app in Ho as [?|Hj'%list_elem_of_singleton]; [done|]. subst j.
      exfalso. apply (Hlast i); [by left|]. by rewrite Ea.
    + injection E as <- ->. apply (Ho l1 i (k ++ length l :: o2)); [by rewrite <- app_assoc|]. by rewrite Ea.
  - subst o2. specialize (Ho (o1 ++ length l :: k) i l2). rewrite <- app_assoc in Ho. specialize (Ho eq_refl j).
    rewrite Ea in Ho. specialize (Ho Hj). rewrite elem_of_app in *. destruct Ho as [?|[->|?]%elem_of_cons]; [by left| |by right].
    exfalso. apply (Hlast i); [set_solver|]. by rewrite Ea.
Qed.

(** Commands wait only for commands issued before them. *)
Definition backward l : Prop := forall i x, l !! i = Some x -> forall j, j ∈ after x -> (j < i)%nat.

(** Every schedule has the effect of the order of issue. *)
Lemma schedule_serial l order m :
  well_behaved l -> backward l -> well_ordered l -> legal l order -> P m ->
  R (run l order m) (run_issued l m).
Proof.
  revert order. induction l as [|x l IH] using rev_ind; intros order Hpr Hb Hw Hleg Hm.
  - destruct Hleg as [Hp _]. apply Permutation_nil_r in Hp as ->. simpl. reflexivity.
  - assert (length l ∈ order) as Hin.
    { destruct Hleg as [Hp _]. rewrite Hp. apply elem_of_seq. rewrite length_app. simpl. lia. }
    apply list_elem_of_split in Hin as (o1 & o2 & ->).
    assert (forall i, i ∈ o1 ++ o2 -> (i < length l)%nat) as Hlt.
    { destruct Hleg as [Hp _]. rewrite length_app, seq_app in Hp. simpl in Hp.
      rewrite <- Permutation_middle, <- Permutation_cons_append in Hp. apply Permutation_cons_inv in Hp.
      intros i Hi. rewrite Hp in Hi. apply elem_of_seq in Hi. lia. }
    assert (forall i, i ∈ o2 -> length l ∉ after_of (l ++ [x]) i) as Hlast.
    { intros i Hi Ha. specialize (Hlt i ltac:(set_solver)). unfold after_of in Ha.
      destruct ((l ++ [x]) !! i) as [y|] eqn:Ey; simpl in Ha; [|set_solver]. specialize (Hb _ _ Ey _ Ha). lia. }
    assert (act_of (l ++ [x]) (length l) = act x) as Ex by (unfold act_of; by rewrite list_lookup_middle).
    assert (forall i, i ∈ o2 -> forall m, P m -> R (act_of (l ++ [x]) i (act x m)) (act x (act_of (l ++ [x]) i m))) as Hcomm.
    { intros i Hi m' Hm'. specialize (Hlt i ltac:(set_solver)). destruct (lookup_lt_is_Some_2 l i Hlt) as [y Hy].
      assert ((l ++ [x]) !! i = Some y) as Hy' by (by rewrite lookup_app_l).
      unfold act_of at 1 2. rewrite Hy'. simpl.
      destruct (Hw i (length l) y x Hlt Hy') as [Ha|Hc]; [by rewrite list_lookup_middle| |by apply Hc].
      exfalso. destruct Hleg as [Hp Ho]. specialize (Ho o1 (length l) o2 eq_refl i).
      assert (NoDup (o1 ++ length l :: o2)) as Hnd by (rewrite Hp; apply NoDup_seq).
      apply NoDup_app in Hnd as (_ & Hnd & _). apply (Hnd i); [|by right]. apply Ho.
      unfold after_of. by rewrite list_lookup_middle. }
    rewrite run_issued_app, run_app. change (run (l ++ [x]) (length l :: o2)) with (fun m => run (l ++ [x]) o2 (act_of (l ++ [x]) (length l) m)).
    cbv beta. rewrite Ex. etrans.
    { rewrite <- Ex. apply run_move; [done|rewrite Ex; exact Hcomm|]. by apply run_preserves. }
    rewrite Ex, <- run_app, run_prefix by (apply Forall_forall, Hlt).
    apply Forall_app in Hpr as [Hpr Hx]. inversion_clear Hx as [|? ? Hx' _]. apply Hx', IH; [done| | | |done].
    + intros i y Hy. apply (Hb i y). by apply lookup_app_l_Some.
    + intros i j y z Hij Hy Hz. apply (Hw i j y z Hij); by apply lookup_app_l_Some.
    + by eapply legal_prefix.
Qed.

(** The order of issue is a schedule. *)
Lemma issue_order_legal l : backward l -> legal l (seq 0 (length l)).
Proof.
  intros Hb. split; [done|]. intros l1 i l2 E j Hj.
  assert (seq 0 (length l) !! length l1 = Some i) as Hi by (rewrite E; by rewrite list_lookup_middle).
  apply lookup_seq in Hi as [-> Hlt]. simpl in *.
  unfold after_of in Hj. destruct (lookup_lt_is_Some_2 l (length l1) Hlt) as [x Hx]. rewrite Hx in Hj. simpl in Hj.
  specialize (Hb _ _ Hx _ Hj).
  assert (l1 = seq 0 (length l1)) as ->.
  { rewrite <- (take_app_length l1 (length l1 :: l2)), <- E. rewrite length_take_le by (rewrite length_seq; lia).
    apply list_eq. intros k. destruct (decide (k < length l1)%nat) as [Hk|Hk].
    - rewrite lookup_take_lt by done. rewrite !lookup_seq_lt by lia. done.
    - rewrite lookup_take_ge, lookup_seq_ge by lia. done. }
  apply elem_of_seq. lia.
Qed.
End Serial.

Section Test.
Context {St L : Type}.
Implicit Type l : list (command St L).

(** A test for schedules. *)
Definition legalb l (order : list nat) : bool :=
  bool_decide (order ≡ₚ seq 0 (length l)) &&
  bool_decide (Forall (fun k => after_of l (default 0%nat (order !! k)) ⊆ list_to_set (take k order)) (seq 0 (length order))).

Lemma legalb_ok l order : legalb l order = true -> legal l order.
Proof.
  unfold legalb. intros [H1%bool_decide_eq_true H2%bool_decide_eq_true]%andb_prop. split; [done|].
  intros l1 i l2 E j Hj. rewrite Forall_forall in H2.
  specialize (H2 (length l1)). rewrite E, list_lookup_middle in H2 by done. simpl in H2.
  rewrite take_app_length in H2. specialize (H2 ltac:(apply elem_of_seq; rewrite length_app; simpl; lia)). set_solver.
Qed.
End Test.
