(* ===== verification/GpuLayer.v ===== *)
(** * The GPU embedding layer: [src/gpu_embedding_layer.cu], [include/gpu_embedding_layer.hpp]

    A linear table in device memory behind lookups and modifications that may be called from
    several threads and run on the streams of their contexts. Lookups are queued on the lookup
    stream of their context and wait for the event of the last modification; modifications run
    on a private stream that waits for the lookups of every registered context ([Streams]).
    Buffers that are not in device memory are staged through the scratch buffers of the context.

    The table kernels are those of [DeviceOps]; [cuembed::EmbeddingForward], a library, is a
    parameter. Calls of the CUDA runtime are taken to succeed; the exceptions are those of the
    checks, of refused allocations and of launches without threads. *)
From S2P Require Import Prelude BitOps SetAssoc CacheQuery DataTypes HostTable Buffers AutoInsert Pooling HostLayer Serialization DeviceOps Streams.

(** ** Data *)

Record GPUEmbeddingLayerConfig := {
  embedding_table : Z; num_embeddings : Z; embedding_width_in_bytes : Z; value_dtype : DataType_t
}.

(** What [cuembed::EmbeddingForward] is called with; null pointers are [0]. *)
Inductive CombineMode := kSum | kMean | kConcat.
Record forward_args := {
  fa_params : Z; fa_type : DataType_t; fa_embed_width : Z; fa_indices : Z; fa_offsets : Z; fa_weights : Z;
  fa_batch_size : Z; fa_num_hots : Z; fa_mode : CombineMode; fa_ret : Z
}.

(** The pooling parameters; [gp_first_index] is [key_indices[0]] as the host reads it. *)
Record gpu_pooling := {
  gp_pooling_type : PoolingType_t; gp_sparse_type : SparseType_t; gp_key_indices : Z; gp_first_index : Z;
  gp_num_key_indices : Z; gp_sparse_weights : Z; gp_weight_type : DataType_t
}.

(** Marks of commands: the stream they were queued on and what they are. *)
Inductive kind := Copying | Looking | Modifying.
#[global] Instance kind_eq_dec : EqDecision kind.
Proof. solve_decision. Defined.

(** [l_scratch]: address and size of the named scratch buffers of each context. *)
Record layer := {
  l_cuda : cuda memory (Z * kind);
  l_contexts : ContextRegistry.registry;
  l_scratch : gmap (Z * string) (Z * Z);
  l_allocations : nat
}.
Definition with_cuda (s : layer) (c : cuda memory (Z * kind)) : layer :=
  {| l_cuda := c; l_contexts := l_contexts s; l_scratch := l_scratch s; l_allocations := l_allocations s |}.

(** ** Calls: an outcome and the state an exception leaves behind *)

Definition gl (A : Type) : Type := layer -> outcome A * layer.
Definition gret {A} (a : A) : gl A := fun s => (Ok a, s).
Definition gbind {A B} (m : gl A) (k : A -> gl B) : gl B := fun s =>
  match m s with
  | (Ok a, s) => k a s
  | (Throw e, s) => (Throw e, s)
  | (Undef e, s) => (Undef e, s)
  end.
Definition glift {A} (o : outcome A) : gl A := fun s => (o, s).
Definition gcheck (b : bool) (e : string) : gl unit := glift (if b then Ok tt else Throw e).
Definition gcuda (f : cuda memory (Z * kind) -> cuda memory (Z * kind)) : gl unit := fun s => (Ok tt, with_cuda s (f (l_cuda s))).
Notation "'do*' x ':=' m 'in' k" := (gbind m (fun x => k))
  (at level 10, x pattern, m at level 100, k at level 200) : nve_scope.

(** Element [i] of an array of keys in device memory. *)
Definition gl_key (K : int_type) (m : memory) (p i : Z) : Z :=
  conv K (le_value (mem_read m (p + i * (width K / 8)) (width K / 8))).

Section GpuLayer.
Context (K : int_type) (EmbeddingForward : forward_args -> memory -> memory).
Context (add_element : DataType_t -> DataType_t -> list Z -> list Z -> list Z).
(** Memory type of a pointer, address of the [n]-th allocation, order of the threads of a launch. *)
Context (pointer_type : Z -> cudaMemoryType) (alloc : nat -> option Z) (threads : Z -> Z -> list (Z * Z)).
Context (get_lookup_stream get_modify_stream : Z -> Z).
Context (private_modify_stream modify_in_progress : Z) (config : GPUEmbeddingLayerConfig).
Local Abbreviation row := (embedding_width_in_bytes config).
Local Abbreviation table := (embedding_table config).

(** ** Scratch buffers and staging *)

(** [ExecutionContext::get_buffer]. *)
Definition gl_get_buffer (ctx : Z) (name : string) (host_alloc : bool) (size : Z) : gl Z := fun s =>
  let key := (ctx, internal_name name host_alloc) in
  let b := default (0, 0) (l_scratch s !! key) in
  if b.2 <? size then
    match alloc (l_allocations s) with
    | None => (Throw "allocation failed", s)
    | Some p =>
        (Ok p, {| l_cuda := l_cuda s; l_contexts := l_contexts s;
                  l_scratch := <[key := (p, size)]> (l_scratch s); l_allocations := Datatypes.S (l_allocations s) |})
    end
  else (Ok b.1, s).

(** A [BufferWrapper] on [p], accessed once for memory type [t] (device or host). *)
Definition gl_access (ctx : Z) (name : string) (p size : Z) (t : cudaMemoryType) (copy_content : bool) (stream : Z) : gl Z :=
  do* _ := gcheck (negb (p =? 0)) "Invalid buffer" in
  if bool_decide (pointer_type p = t) then gret p
  else
    do* d := gl_get_buffer ctx name (bool_decide (t = Host)) size in
    do* _ := gcheck (negb (d =? 0)) "Failed to allocated temporary buffer" in
    do* _ := (if copy_content && negb (p =? d) then
                do* _ := gcuda (enqueue stream (stream, Copying) (memcpy d p size)) in
                if bool_decide (t = Device) then gret tt else gcuda (stream_synchronize stream)
              else gret tt) in
    gret d.

(** ** Lookups *)

Definition INT_MAX : Z := 2 ^ 31 - 1.

(** [call_cuembed_forward]. *)
Definition call_cuembed_forward (indices offsets weights batch_size num_hots : Z) (mode : CombineMode) (ret : Z)
  : outcome (memory -> memory) :=
  match value_dtype config with
  | Float32 | Float16 =>
      let sz := type_size (value_dtype config) in
      Ok (EmbeddingForward
            {| fa_params := table; fa_type := value_dtype config; fa_embed_width := wraps 32 (wrapu 64 (wraps 32 row) / sz);
               fa_indices := indices; fa_offsets := offsets; fa_weights := weights; fa_batch_size := wraps 32 batch_size;
               fa_num_hots := wraps 32 num_hots; fa_mode := mode; fa_ret := ret |})
  | _ => Throw "Unsupported Data type"
  end.

Definition cuembed_find (num_keys keys values : Z) : outcome (memory -> memory) :=
  check! num_keys <=? INT_MAX as "Number of keys exceeding max int value is not supported" in
  check! row <=? INT_MAX as "Embedding width exceeding max int value is not supported" in
  call_cuembed_forward keys 0 0 num_keys 1 kConcat values.

Definition combine_mode (p : PoolingType_t) : CombineMode :=
  match p with
  | WeightedSum | Sum => kSum
  | Mean | WeightedMean => kMean
  | Concatenate => kConcat
  end.

Definition cuembed_find_and_combine (num_keys keys : Z) (hot_type : SparseType_t) (num_offsets offsets fixed_hotness : Z)
    (pooling : PoolingType_t) (weights values : Z) : outcome (memory -> memory) :=
  check! negb (weighted pooling) || negb (weights =? 0) as "Weights should be provided for weighted sum/mean pooling" in
  let mode := combine_mode pooling in
  match hot_type with
  | Fixed =>
      if fixed_hotness =? 0 then Undef "division by zero"
      else
        check! Z.rem num_keys fixed_hotness <=? 0 as "Invalid number of keys for fixed hotness" in
        let batch_size := Z.quot num_keys fixed_hotness in
        check! batch_size <=? INT_MAX as "Batch size exceeding max int value is not supported" in
        check! fixed_hotness <=? INT_MAX as "Hotness exceeding max int value is not supported" in
        check! row <=? INT_MAX as "Embedding width exceeding max int value is not supported" in
        call_cuembed_forward keys 0 weights batch_size fixed_hotness mode values
  | CSR =>
      check! num_offsets <=? INT_MAX as "Batch size exceeding max int value is not supported" in
      check! row <=? INT_MAX as "Embedding width exceeding max int value is not supported" in
      call_cuembed_forward keys offsets weights num_offsets 0 mode values
  | COO => Throw "Not implemented"
  end.

(** The part of a lookup under [kernel_launch_mutex_]. *)
Definition locked_lookup (stream : Z) (kernel : outcome (memory -> memory)) : gl unit :=
  do* _ := gcuda (stream_wait stream modify_in_progress) in
  do* f := glift kernel in
  gcuda (enqueue stream (stream, Looking) f).

(** The staging of the pooling parameters: offsets, hotness and weights. *)
Definition stage_pooling (ctx : Z) (num_keys : Z) (p : gpu_pooling) : gl (Z * Z * Z) :=
  let stream := get_lookup_stream ctx in
  do* _ := gcheck (negb (gp_key_indices p =? 0)) "Invalid offsets buffer" in
  let size := wrapu 64 (gp_num_key_indices p) * (width K / 8) in
  do* r := (if negb (gp_num_key_indices p =? 1) then
              do* _ := gcheck (width K =? 64) "CSR/COO pooling on the GPU layer requires int64 key_indices" in
              do* d := gl_access ctx "offsets" (gp_key_indices p) size Device true stream in
              gret (d, 1)
            else
              do* _ := gl_access ctx "offsets" (gp_key_indices p) size Host true stream in
              gret (0, gp_first_index p)) in
  do* w := (if gp_sparse_weights p =? 0 then gret 0
            else gl_access ctx "weights" (gp_sparse_weights p) (type_size (gp_weight_type p) * num_keys) Device true stream) in
  gret (r.1, r.2, w).

(** [lookup]; [ctx] is [None] for a null context, [hitmask] a pointer. A requested hit rate is 1. *)
Definition gl_lookup (ctx : option Z) (num_keys keys output output_stride hitmask : Z) (pool_params : option gpu_pooling) : gl unit :=
  do* _ := gcheck (0 <=? num_keys) "Invalid num_keys" in
  do* _ := gcheck (negb (keys =? 0)) "Invalid keys buffer" in
  do* _ := gcheck (negb (output =? 0)) "Invalid output buffer" in
  do* _ := gcheck (hitmask =? 0) "Hitmask is not supported for GPU embedding layer" in
  do* _ := gcheck (output_stride =? row) "Output stride must be the same as embedding width" in
  match ctx with
  | None => glift (Throw "Invalid layer context")
  | Some ctx =>
      let lookup_stream := get_lookup_stream ctx in
      let output_buffer_size := output_stride * num_keys in
      do* d_keys := gl_access ctx "keys" keys (width K / 8 * num_keys) Device true lookup_stream in
      do* d_output := gl_access ctx "output" output output_buffer_size Device false lookup_stream in
      do* _ := match pool_params with
               | Some p =>
                   do* staged := stage_pooling ctx num_keys p in
                   let '(d_offsets, hotness, d_weights) := staged in
                   locked_lookup lookup_stream
                     (cuembed_find_and_combine num_keys d_keys (gp_sparse_type p) (gp_num_key_indices p - 1) d_offsets hotness
                        (gp_pooling_type p) d_weights d_output)
               | None => locked_lookup lookup_stream (cuembed_find num_keys d_keys d_output)
               end in
      if output =? d_output then gret tt
      else gcuda (enqueue lookup_stream (lookup_stream, Copying) (memcpy output d_output output_buffer_size))
  end.

(** ** Modifications *)

(** What update and accumulate do under [kernel_launch_mutex_]; the destructor of the
    [StreamCoordinator] runs on every way out. *)
Definition locked_modify (modify_stream : Z) (kernel : outcome (memory -> memory)) : gl unit := fun s =>
  let c := stream_wait private_modify_stream modify_in_progress (l_cuda s) in
  let c := coordinator_enter modify_stream private_modify_stream c in
  let r := ec_event_create (elements (ContextRegistry.create_sync_event (l_contexts s))) c in
  let c := ec_event_wait_stream r.1 private_modify_stream (ec_event_record r.1 r.2) in
  let leave c := with_cuda s (coordinator_leave modify_stream private_modify_stream c) in
  match kernel with
  | Ok f =>
      let c := enqueue private_modify_stream (private_modify_stream, Modifying) f c in
      let c := event_record modify_in_progress private_modify_stream c in
      (Ok tt, leave (stream_wait modify_stream modify_in_progress c))
  | Throw e => (Throw e, leave c)
  | Undef e => (Undef e, leave c)
  end.

(** A launch whose shape the kernels support, on the thread that issues it. *)
Definition launch_check (num elements : Z) : outcome unit :=
  let! w := subgroup_width elements in
  launch_grid num (32 / w).

(** The effect of a kernel whose launch succeeds. *)
Definition kernel_effect (k : memory -> outcome memory) (m : memory) : memory := match k m with Ok m' => m' | _ => m end.

Definition update_kernel (num_keys value_stride d_keys d_values : Z) : outcome (memory -> memory) :=
  let n := wraps 32 num_keys in
  let w := wrapu 32 row in
  let effect := kernel_effect (fun m => UpdateTable K m d_values (gl_key K m d_keys) table w (wrapu 32 value_stride) w n (threads n) m) in
  match vec_size w with
  | None => Ok id
  | Some elt => let! _ := launch_check n (w / elt) in Ok effect
  end.

Definition accumulate_kernel (num_keys value_stride d_keys d_values : Z) (value_type : DataType_t) : outcome (memory -> memory) :=
  let n := wraps 32 num_keys in
  match value_type with
  | Float32 | Float16 =>
      let sz := type_size value_type in
      let w := wrapu 32 (wrapu 64 row / sz) in
      let stride := wrapu 32 (wrapu 64 value_stride / sz) in
      let! _ := launch_check n w in
      Ok (kernel_effect (fun m =>
            UpdateAccumulateTable K value_type add_element m d_values (gl_key K m d_keys) table w stride w n (threads n) m))
  | _ => Throw "Unsupported Data type"
  end.

(** The checks, the staging and the locked part update and accumulate share; [kernel] is
    given the staged keys and values. *)
Definition stage_modify (ctx : option Z) (num_keys keys value_stride value_size values table_id : Z)
    (kernel : Z -> Z -> outcome (memory -> memory)) : gl unit :=
  do* _ := gcheck (0 <=? num_keys) "Invalid num_keys" in
  do* _ := gcheck (negb (keys =? 0)) "Invalid keys buffer" in
  do* _ := gcheck (negb (values =? 0)) "Invalid values buffer" in
  do* _ := gcheck (value_size =? row) "Invalid value size" in
  do* _ := gcheck (table_id <? 1) "Invalid table_id" in
  match ctx with
  | None => glift (Throw "Invalid layer context")
  | Some ctx =>
      let modify_stream := get_modify_stream ctx in
      do* d_keys := gl_access ctx "keys" keys (width K / 8 * num_keys) Device true modify_stream in
      do* d_values := gl_access ctx "values" values (num_keys * value_stride) Device true modify_stream in
      locked_modify modify_stream (kernel d_keys d_values)
  end.

Definition gl_update (ctx : option Z) (num_keys keys value_stride value_size values table_id : Z) : gl unit :=
  stage_modify ctx num_keys keys value_stride value_size values table_id
    (fun d_keys d_values => update_kernel num_keys value_stride d_keys d_values).

Definition gl_accumulate (ctx : option Z) (num_keys keys value_stride value_size values : Z) (value_type : DataType_t) (table_id : Z) : gl unit :=
  stage_modify ctx num_keys keys value_stride value_size values table_id
    (fun d_keys d_values => accumulate_kernel num_keys value_stride d_keys d_values value_type).

(** [insert], [clear] and [erase] only log a warning. *)
Definition gl_no_effect : gl unit := gret tt.

(** ** Contexts *)

Definition create_execution_context (ctx : Z) : gl unit := fun s =>
  (Ok tt, {| l_cuda := l_cuda s; l_contexts := ContextRegistry.add_context get_lookup_stream ctx (l_contexts s);
             l_scratch := l_scratch s; l_allocations := l_allocations s |}).

(** The destructors of the layer context and of its table context. *)
Definition destroy_execution_context (ctx : Z) : gl unit := fun s =>
  let c := stream_synchronize (get_modify_stream ctx) (stream_synchronize (get_lookup_stream ctx) (l_cuda s)) in
  let c := stream_synchronize (get_modify_stream ctx) (stream_synchronize (get_lookup_stream ctx) c) in
  (Ok tt, {| l_cuda := c; l_contexts := ContextRegistry.remove_context get_lookup_stream ctx (l_contexts s);
             l_scratch := l_scratch s; l_allocations := l_allocations s |}).

(** The constructor: the event has captured nothing. *)
Definition gl_construct : outcome layer :=
  check! negb (table =? 0) as "Invalid embedding table" in
  Ok {| l_cuda := {| issued := []; seen := fun _ => ∅; captured := fun _ => ∅; next_event := modify_in_progress + 1; synced := ∅ |};
        l_contexts := {| ContextRegistry.contexts_ := ∅; ContextRegistry.lookup_streams_ := ∅ |};
        l_scratch := ∅; l_allocations := 0 |}.
End GpuLayer.
