(* ===== verification/GpuLayerOrder.v ===== *)
(** * Ordering of the GPU embedding layer

    Threads call the layer concurrently. Between the parts under [kernel_launch_mutex_] the
    steps of their calls interleave freely: [host_step] is a step of any thread. The invariant
    of every reachable state is that a modification and any lookup or modification issued
    before or after it are ordered on the device, whatever the streams of the contexts; with
    [schedule_serial] this makes the schedule of the device invisible. *)
From S2P Require Import Prelude BitOps SetAssoc CacheQuery DataTypes HostTable Buffers AutoInsert Pooling HostLayer Serialization DeviceOps Streams GpuLayer.

Section Order.
Context (get_lookup_stream get_modify_stream : Z -> Z).
Context (private_modify_stream modify_in_progress : Z) (config : GPUEmbeddingLayerConfig).
Local Abbreviation me := modify_in_progress.
Local Abbreviation prv := private_modify_stream.
Implicit Type s : layer.

Definition registered (ctx : Z) (s : layer) : Prop := ctx ∈ ContextRegistry.contexts_ (l_contexts s).

(** ** Steps of the host threads *)

(** Copies and scratch buffers outside the lock, the locked parts, and the life of contexts. A
    context is used and destroyed by its owner, so it is registered while in use. *)
Inductive host_step : layer -> layer -> Prop :=
  | hs_copy ctx stream f s :
      registered ctx s -> stream = get_lookup_stream ctx \/ stream = get_modify_stream ctx ->
      host_step s (with_cuda s (enqueue stream (stream, Copying) f (l_cuda s)))
  | hs_synchronize stream s : host_step s (with_cuda s (stream_synchronize stream (l_cuda s)))
  | hs_scratch s s' :
      l_cuda s' = l_cuda s -> l_contexts s' = l_contexts s -> host_step s s'
  | hs_lookup ctx kernel s :
      registered ctx s -> host_step s (locked_lookup me (get_lookup_stream ctx) kernel s).2
  | hs_modify ctx kernel s :
      registered ctx s -> host_step s (locked_modify prv me (get_modify_stream ctx) kernel s).2
  | hs_create ctx s : host_step s (create_execution_context get_lookup_stream ctx s).2
  | hs_destroy ctx s : host_step s (destroy_execution_context get_lookup_stream get_modify_stream ctx s).2.

(** ** The invariant *)

(** One of the two modifies the table and the other one is not a mere copy. *)
Definition conflict (a b : kind) : Prop := (a = Modifying /\ b <> Copying) \/ (b = Modifying /\ a <> Copying).

(** Commands of a stream, and conflicting ones, are ordered as they were issued; pending
    lookups are on the streams of registered contexts. *)
Record order_core (reg : ContextRegistry.registry) (c : cuda memory (Z * kind)) : Prop := {
  oc_event : me < next_event c;
  oc_bounded : bounded c;
  oc_own i x : issued c !! i = Some x -> i ∈ seen c (mark x).1;
  oc_pending i x : issued c !! i = Some x -> (mark x).2 = Looking ->
    i ∈ synced c \/ (mark x).1 ∈ ContextRegistry.create_sync_event reg;
  oc_backward : backward (issued c);
  oc_ordered i j x y : (i < j)%nat -> issued c !! i = Some x -> issued c !! j = Some y ->
    (mark x).1 = (mark y).1 \/ conflict (mark x).2 (mark y).2 -> i ∈ after y
}.
(** The event of the last modification has captured all of them. *)
Definition captures_modifications (c : cuda memory (Z * kind)) : Prop :=
  forall i x, issued c !! i = Some x -> (mark x).2 = Modifying -> i ∈ captured c me.

Record layer_inv (s : layer) : Prop := {
  li_core : order_core (l_contexts s) (l_cuda s);
  li_captures : captures_modifications (l_cuda s);
  li_streams : ContextRegistry.lookup_streams_ (l_contexts s) = set_map get_lookup_stream (ContextRegistry.contexts_ (l_contexts s))
}.

Lemma core_waits reg c c' : only_waits (me + 1) c c' -> order_core reg c -> order_core reg c'.
Proof.
  intros W [E B O P Bk Od]. split.
  - pose proof (ow_next _ _ _ W). lia.
  - by apply W.
  - intros i x. rewrite (ow_issued _ _ _ W). intros Hx. apply (ow_seen _ _ _ W). eauto.
  - intros i x. rewrite (ow_issued _ _ _ W), (ow_synced _ _ _ W). eauto.
  - by rewrite (ow_issued _ _ _ W).
  - rewrite (ow_issued _ _ _ W). eauto.
Qed.

Lemma captures_waits c c' : only_waits (me + 1) c c' -> captures_modifications c -> captures_modifications c'.
Proof.
  intros W H i x. rewrite (ow_issued _ _ _ W), (ow_captured _ _ _ W) by lia. apply H.
Qed.

Lemma core_synchronize reg stream c : order_core reg c -> order_core reg (stream_synchronize stream c).
Proof.
  intros [E B O P Bk Od]. split; simpl; [done|by apply stream_synchronize_bounded|done| |done|done].
  intros i x Hx Hk. destruct (P i x Hx Hk); set_solver.
Qed.

(** A command may be queued where everything it conflicts with has been seen. *)
Lemma core_enqueue reg stream k f c :
  order_core reg c -> (k = Looking -> stream ∈ ContextRegistry.create_sync_event reg) ->
  (forall i x, issued c !! i = Some x -> conflict (mark x).2 k -> i ∈ seen c stream ∪ synced c) ->
  order_core reg (enqueue stream (stream, k) f c).
Proof.
  intros [E B O P Bk Od] Hreg Hseen.
  assert (Hlook : forall i x, (issued c ++ [{| act := f; mark := (stream, k); after := seen c stream ∪ synced c |}]) !! i = Some x ->
            issued c !! i = Some x \/ (i = length (issued c) /\ x = {| act := f; mark := (stream, k); after := seen c stream ∪ synced c |})).
  { intros i x [Hx|[Hle Hx]]%lookup_app_Some; [by left|right].
    apply list_lookup_singleton_Some in Hx as [Hi <-]. split; [lia|done]. }
  split; simpl; [done|by apply enqueue_bounded| | | |].
  - intros i x [Hx|[-> ->]]%Hlook; simpl; unfold upd.
    + destruct (Z.eqb_spec (mark x).1 stream) as [<-|]; [|by apply O]. specialize (O i x Hx). set_solver.
    + rewrite Z.eqb_refl. set_solver.
  - intros i x [Hx|[-> ->]]%Hlook Hk; simpl in *; [by eauto|]. right. by apply Hreg.
  - intros i x [Hx|[-> ->]]%Hlook j Hj; simpl in *; [by eapply Bk|].
    destruct B as [B1 B2 B3]. apply elem_of_union in Hj as [Hj|Hj]; eauto.
  - intros i j x y Hij Hx Hy Hc. apply Hlook in Hx as [Hx|[-> ->]], Hy as [Hy|[-> ->]]; simpl in *.
    + by eapply Od.
    + destruct Hc as [Hs|Hc]; [|by eapply Hseen]. apply elem_of_union_l. rewrite <- Hs. by apply O.
    + apply lookup_lt_Some in Hy. lia.
    + lia.
Qed.

Lemma core_record reg stream c : order_core reg c -> order_core reg (event_record me stream c).
Proof.
  intros [E B O P Bk Od]. split; simpl; [done| |done..]. by apply event_record_bounded.
Qed.

Lemma core_registry reg reg' c :
  (forall st, st ∈ ContextRegistry.create_sync_event reg -> st ∈ ContextRegistry.create_sync_event reg' \/ seen c st ⊆ synced c) ->
  order_core reg c -> order_core reg' c.
Proof.
  intros Hreg [E B O P Bk Od]. split; [done..| |done|done].
  intros i x Hx Hk. destruct (P i x Hx Hk) as [?|Hs]; [by left|]. destruct (Hreg _ Hs) as [?|Hsub]; [by right|left].
  apply Hsub. by apply O.
Qed.

Lemma lookup_inv ctx kernel s :
  registered ctx s -> layer_inv s -> layer_inv (locked_lookup me (get_lookup_stream ctx) kernel s).2.
Proof.
  intros Hr [C M St]. unfold locked_lookup, gbind, gcuda, glift. simpl.
  set (c1 := stream_wait (get_lookup_stream ctx) me (l_cuda s)).
  assert (W : only_waits (me + 1) (l_cuda s) c1) by apply stream_wait_waits.
  pose proof (core_waits _ _ _ W C) as C1. pose proof (captures_waits _ _ W M) as M1.
  destruct kernel as [f|e|e]; simpl; [|by split..]. split; simpl; [| |done].
  - apply core_enqueue; [done| |].
    + intros _. unfold ContextRegistry.create_sync_event. rewrite St. apply elem_of_map. eauto.
    + intros i x Hx [[Hm _]|[? _]]; [|done]. specialize (M i x Hx Hm). apply elem_of_union_l.
      revert M. apply (seen_stream_wait (get_lookup_stream ctx) me (l_cuda s)).
  - intros i x. simpl. intros [Hx|[_ Hx]]%lookup_app_Some Hk; [by apply (M1 i x Hx)|].
    apply list_lookup_singleton_Some in Hx as [_ <-]. done.
Qed.

(** After the waits of a modification its stream has seen every lookup and modification. *)
Lemma modify_waits ctx s :
  layer_inv s ->
  let c := coordinator_enter (get_modify_stream ctx) prv (stream_wait prv me (l_cuda s)) in
  let r := ec_event_create (elements (ContextRegistry.create_sync_event (l_contexts s))) c in
  let c' := ec_event_wait_stream r.1 prv (ec_event_record r.1 r.2) in
  only_waits (me + 1) (l_cuda s) c' /\
  forall i x, issued c' !! i = Some x -> (mark x).2 <> Copying -> i ∈ seen c' prv ∪ synced c'.
Proof.
  intros [C M St] c r c'.
  assert (W1 : only_waits (me + 1) (l_cuda s) (stream_wait prv me (l_cuda s))) by apply stream_wait_waits.
  assert (W2 : only_waits (me + 1) (stream_wait prv me (l_cuda s)) c).
  { apply coordinator_enter_waits. pose proof (oc_event _ _ C). simpl. lia. }
  assert (W12 : only_waits (me + 1) (l_cuda s) c) by (by etrans).
  destruct (sync_event_waits (me + 1) (elements (ContextRegistry.create_sync_event (l_contexts s))) prv c) as [W3 Hs].
  { pose proof (oc_event _ _ C). pose proof (ow_next _ _ _ W12). lia. }
  fold r c' in W3, Hs. assert (W : only_waits (me + 1) (l_cuda s) c') by (by etrans). split; [done|].
  intros i x. rewrite (ow_issued _ _ _ W), (ow_synced _ _ _ W). intros Hx Hk.
  destruct ((mark x).2) eqn:Ek; [done| |].
  - destruct (oc_pending _ _ C i x Hx Ek) as [?|Hp]; [set_solver|]. apply elem_of_union_l.
    apply (Hs (mark x).1); [by apply elem_of_elements|]. apply (ow_seen _ _ _ W12). by apply (oc_own _ _ C).
  - apply elem_of_union_l. apply (ow_seen _ _ _ W3), (ow_seen _ _ _ W2).
    apply (seen_stream_wait prv me (l_cuda s)). by apply (M i x).
Qed.

Lemma modify_inv ctx kernel s :
  layer_inv s -> layer_inv (locked_modify prv me (get_modify_stream ctx) kernel s).2.
Proof.
  intros Hi. destruct (modify_waits ctx s Hi) as [W Hseen]. destruct Hi as [C M St]. unfold locked_modify.
  set (c0 := ec_event_wait_stream _ _ _) in *.
  pose proof (core_waits _ _ _ W C) as C0. pose proof (captures_waits _ _ W M) as M0.
  assert (Hleave : forall c, order_core (l_contexts s) c -> captures_modifications c ->
            layer_inv (with_cuda s (coordinator_leave (get_modify_stream ctx) prv c))).
  { intros c Cc Mc. assert (only_waits (me + 1) c (coordinator_leave (get_modify_stream ctx) prv c)) as Wc.
    { apply coordinator_leave_waits. pose proof (oc_event _ _ Cc). lia. }
    split; simpl; [by eapply core_waits|by eapply captures_waits|done]. }
  destruct kernel as [f|e|e]; simpl; [|by apply Hleave..].
  set (c1 := enqueue _ _ _ _).
  assert (C1 : order_core (l_contexts s) c1).
  { apply core_enqueue; [done|done|].
    intros i x Hx [[Hc _]|[_ Hc]]; apply (Hseen i x Hx); [by rewrite Hc|done]. }
  apply Hleave.
  - eapply core_waits; [apply stream_wait_waits|]. by apply core_record.
  - eapply captures_waits; [apply stream_wait_waits|]. intros i x Hx Hk. simpl. rewrite upd_eq, upd_eq.
    simpl in Hx. apply lookup_app_Some in Hx as [Hx|[Hle Hx]].
    + specialize (Hseen i x Hx). rewrite Hk in Hseen. specialize (Hseen ltac:(done)). set_solver.
    + apply list_lookup_singleton_Some in Hx as [Hx _]. assert (i = length (issued c0)) as -> by lia. set_solver.
Qed.

Lemma host_step_inv s s' : host_step s s' -> layer_inv s -> layer_inv s'.
Proof.
  intros [ctx stream f s0 Hr Hst|stream s0|s0 s1 Hc Hl|ctx kernel s0 Hr|ctx kernel s0 Hr|ctx s0|ctx s0] Hi.
  - destruct Hi as [C M St]. split; simpl; [| |done].
    + apply core_enqueue; [done|done|]. intros i x Hx [[_ ?]|[? _]]; done.
    + intros i x. simpl. intros [Hx|[_ Hx]]%lookup_app_Some Hk; [by apply (M i x Hx)|].
      apply list_lookup_singleton_Some in Hx as [_ <-]. done.
  - destruct Hi as [C M St]. split; simpl; [by apply core_synchronize|done|done].
  - destruct Hi as [C M St]. split; rewrite ?Hc, ?Hl; done.
  - by apply lookup_inv.
  - by apply modify_inv.
  - destruct Hi as [C M St]. split; simpl; [|done|done]. eapply core_registry; [|exact C].
    intros st Hs. left. unfold ContextRegistry.create_sync_event in *. rewrite St in Hs. simpl. set_solver.
  - destruct Hi as [C M St]. split; simpl; [|done|done].
    eapply core_registry; [|by do 4 apply core_synchronize].
    intros st Hs. unfold ContextRegistry.create_sync_event in *. rewrite St in Hs.
    apply elem_of_map in Hs as (c & -> & Hc). destruct (decide (c = ctx)) as [->|Hne]; [right; simpl; set_solver|left].
    apply elem_of_map. exists c. simpl. set_solver.
Qed.

Lemma reachable_inv s0 s : gl_construct me config = Ok s0 -> rtc host_step s0 s -> layer_inv s.
Proof.
  intros H0 Hr. assert (layer_inv s0) as Hi.
  { unfold gl_construct in H0. destruct (embedding_table config =? 0); [done|]. injection H0 as <-.
    split; simpl; [split; simpl; [lia|by split; set_solver|done..]|done|set_solver]. }
  clear H0. induction Hr; eauto using host_step_inv.
Qed.

(** ** The theorems *)

(** C20. The layer is free of races on its table: whatever the threads that call it, the
    streams of their contexts and the contexts created and destroyed meanwhile, a modification
    and any other lookup or modification run on the device in the order they were issued. *)
Theorem gpu_layer_race_free (s0 s : layer) (i j : nat) (x y : command memory (Z * kind)) :
  gl_construct me config = Ok s0 -> rtc host_step s0 s ->
  (i < j)%nat -> issued (l_cuda s) !! i = Some x -> issued (l_cuda s) !! j = Some y ->
  conflict (mark x).2 (mark y).2 -> i ∈ after y.
Proof.
  intros H0 Hr Hij Hx Hy Hc. pose proof (reachable_inv s0 s H0 Hr) as [C _ _]. eapply oc_ordered; eauto.
Qed.

(** Commands that no order of the layer covers: on different streams, and neither a
    modification next to a lookup nor two modifications. *)
Definition uncovered (x y : command memory (Z * kind)) : Prop :=
  (mark x).1 <> (mark y).1 /\ ~ conflict (mark x).2 (mark y).2.

Lemma conflict_dec a b : conflict a b \/ ~ conflict a b.
Proof. unfold conflict. destruct a, b; naive_solver. Qed.

(** When such commands commute, every schedule has the effect of the order of issue. *)
Lemma layer_schedule_serial (P : memory -> Prop) s order m :
  layer_inv s -> well_behaved (pointwise_relation Z eq) P (issued (l_cuda s)) ->
  (forall i j x y, (i < j)%nat -> issued (l_cuda s) !! i = Some x -> issued (l_cuda s) !! j = Some y -> uncovered x y ->
     forall m, P m -> pointwise_relation Z eq (act x (act y m)) (act y (act x m))) ->
  legal (issued (l_cuda s)) order -> P m ->
  forall a, run (issued (l_cuda s)) order m a = run_issued (issued (l_cuda s)) m a.
Proof.
  intros [C _ _] Hpr Hun Hl Hm. apply (schedule_serial (pointwise_relation Z eq) P); [done|apply C| |done|done].
  intros i j x y Hij Hx Hy. destruct (decide ((mark x).1 = (mark y).1)) as [Hs|Hs].
  - left. eapply oc_ordered; eauto.
  - destruct (conflict_dec (mark x).2 (mark y).2) as [Hc|Hc]; [left; eapply oc_ordered; eauto|].
    right. by apply (Hun i j x y Hij Hx Hy).
Qed.
End Order.

(** ** Calls are sequences of steps *)

Section Calls.
Context (K : int_type) (EmbeddingForward : forward_args -> memory -> memory).
Context (add_element : DataType_t -> DataType_t -> list Z -> list Z -> list Z).
Context (pointer_type : Z -> cudaMemoryType) (alloc : nat -> option Z) (threads : Z -> Z -> list (Z * Z)).
Context (get_lookup_stream get_modify_stream : Z -> Z).
Context (private_modify_stream modify_in_progress : Z) (config : GPUEmbeddingLayerConfig).
Local Abbreviation me := modify_in_progress.
Local Abbreviation prv := private_modify_stream.
Local Abbreviation host_step := (host_step get_lookup_stream get_modify_stream prv me).

(** A call that only takes steps, whether it returns or throws. *)
Definition steps {A} (ctx : Z) (m : gl A) : Prop :=
  forall s, registered ctx s -> rtc host_step s (m s).2 /\ registered ctx (m s).2.

Lemma steps_ret {A} ctx (a : A) : steps ctx (gret a).
Proof. intros s Hs. done. Qed.
Lemma steps_lift {A} ctx (o : outcome A) : steps ctx (glift o).
Proof. intros s Hs. done. Qed.
Lemma steps_bind {A B} ctx (m : gl A) (k : A -> gl B) :
  steps ctx m -> (forall a, steps ctx (k a)) -> steps ctx (gbind m k).
Proof.
  intros Hm Hk s Hs. unfold gbind. specialize (Hm s Hs). destruct (m s) as [[a|e|e] s1]; simpl in *; [|done..].
  destruct Hm as [Hm Hr]. destruct (Hk a s1 Hr) as [H1 H2]. split; [by etrans|done].
Qed.
Lemma steps_check ctx b e : steps ctx (gcheck b e).
Proof. apply steps_lift. Qed.

Create HintDb gpu_steps.
#[local] Hint Resolve steps_ret steps_lift steps_check : gpu_steps.

Lemma steps_copy ctx stream f :
  stream = get_lookup_stream ctx \/ stream = get_modify_stream ctx -> steps ctx (gcuda (enqueue stream (stream, Copying) f)).
Proof. intros Hst s Hs. split; [|done]. apply rtc_once. by apply (hs_copy _ _ _ _ ctx). Qed.
Lemma steps_synchronize ctx stream : steps ctx (gcuda (stream_synchronize stream)).
Proof. intros s Hs. split; [|done]. apply rtc_once, hs_synchronize. Qed.
Lemma steps_get_buffer ctx name host size : steps ctx (gl_get_buffer alloc ctx name host size).
Proof.
  intros s Hs. unfold gl_get_buffer. destruct (_ <? size); [|done]. destruct (alloc _); [|done]. simpl.
  split; [|done]. by apply rtc_once, hs_scratch.
Qed.
Lemma steps_lookup ctx kernel : steps ctx (locked_lookup me (get_lookup_stream ctx) kernel).
Proof.
  intros s Hs. split; [by apply rtc_once, hs_lookup|]. by destruct kernel.
Qed.
Lemma steps_modify ctx kernel : steps ctx (locked_modify prv me (get_modify_stream ctx) kernel).
Proof.
  intros s Hs. split; [by apply rtc_once, hs_modify|]. by destruct kernel.
Qed.
#[local] Hint Resolve steps_copy steps_synchronize steps_get_buffer steps_lookup steps_modify : gpu_steps.

Ltac steps_solve :=
  repeat first [ solve [eauto with gpu_steps]
               | match goal with
                 | |- steps _ (gbind _ _) => apply steps_bind; [|intros]
                 | |- steps _ (match ?x with _ => _ end) => destruct x
                 end ].

Lemma steps_access ctx name p size t copy stream :
  stream = get_lookup_stream ctx \/ stream = get_modify_stream ctx ->
  steps ctx (gl_access pointer_type alloc ctx name p size t copy stream).
Proof. intros Hst. unfold gl_access. steps_solve. Qed.
#[local] Hint Resolve steps_access : gpu_steps.

(** Every call is a sequence of steps of its thread. *)
Lemma lookup_steps ctx num_keys keys output output_stride hitmask pool :
  steps ctx (gl_lookup K EmbeddingForward pointer_type alloc get_lookup_stream me config (Some ctx) num_keys keys output output_stride hitmask pool).
Proof. unfold gl_lookup, stage_pooling. steps_solve. Qed.

Lemma update_steps ctx num_keys keys value_stride value_size values table_id :
  steps ctx (gl_update K pointer_type alloc threads get_modify_stream prv me config (Some ctx) num_keys keys value_stride value_size values table_id).
Proof. unfold gl_update, stage_modify. steps_solve. Qed.

Lemma accumulate_steps ctx num_keys keys value_stride value_size values value_type table_id :
  steps ctx (gl_accumulate K add_element pointer_type alloc threads get_modify_stream prv me config (Some ctx) num_keys keys value_stride value_size values value_type table_id).
Proof. unfold gl_accumulate, stage_modify. steps_solve. Qed.
End Calls.
