(* ===== verification/GpuLayerLookup.v ===== *)
(** * What a lookup of the GPU embedding layer delivers

    A sequence of lookups and updates on buffers in device memory, by any contexts: whatever
    order of the commands the device chooses among those the streams and events admit, a lookup
    delivers the rows the updates issued before it have left in the table. *)
From S2P Require Import Prelude BitOps EcHash SetAssoc HostModify CacheQuery DataTypes HostTable Buffers AutoInsert Pooling HostLayer Serialization DeviceOps Streams GpuLayer GpuLayerOrder.

Local Abbreviation pw := (pointwise_relation Z (@eq Z)).

(** What the layer relies on: [EmbeddingForward] is a function of the contents of memory, and
    in mode [kConcat] with one index per row it copies row [indices[i]] of the table to row [i]
    of the result and writes nothing else, when the result overlaps none of its inputs. *)
Class CuEmbedLaws (K : int_type) (F : forward_args -> memory -> memory) : Prop := {
  forward_proper a : Proper (pw ==> pw) (F a);
  forward_concat a m :
    fa_mode a = kConcat -> fa_offsets a = 0 -> fa_weights a = 0 -> fa_num_hots a = 1 ->
    0 <= fa_batch_size a -> 0 < fa_embed_width a ->
    let w := fa_embed_width a * type_size (fa_type a) in
    let n := fa_batch_size a in
    disjoint (fa_ret a) (n * w) (fa_indices a) (n * (width K / 8)) ->
    (forall i, 0 <= i < n -> disjoint (fa_ret a) (n * w) (fa_params a + gl_key K m (fa_indices a) i * w) w) ->
    (forall i o, 0 <= i < n -> 0 <= o < w -> F a m (fa_ret a + i * w + o) = m (fa_params a + gl_key K m (fa_indices a) i * w + o)) /\
    (forall x, ~ (fa_ret a <= x < fa_ret a + n * w) -> F a m x = m x)
}.

(** ** The kernels are functions of the contents of memory *)

Lemma copy_from_ext src src' d p n m m' :
  pw src src' -> pw m m' -> pw (copy_from src d p n m) (copy_from src' d p n m').
Proof. intros Hs Hm a. unfold copy_from. destruct (_ && _); [apply Hs|apply Hm]. Qed.

Lemma fold_ext {A} (f f' : memory -> A -> memory) l m m' :
  (forall a m m', pw m m' -> pw (f m a) (f' m' a)) -> pw m m' -> pw (fold_left f l m) (fold_left f' l m').
Proof. intros Hf. revert m m'. induction l as [|a l IH]; intros m m' Hm; simpl; [done|]. by apply IH, Hf. Qed.

Lemma gl_key_ext K m m' p i : pw m m' -> gl_key K m p i = gl_key K m' p i.
Proof. intros Hm. unfold gl_key. do 2 f_equal. apply mem_read_ext. intros x _. apply Hm. Qed.

Lemma UpdateTable_proper K dv dk table w stride n order :
  Proper (pw ==> pw) (kernel_effect (fun m => UpdateTable K m dv (gl_key K m dk) table w stride w n order m)).
Proof.
  intros m m' Hm. unfold kernel_effect, UpdateTable. destruct (vec_size w) as [elt|]; [|done].
  destruct (subgroup_width _) as [x|e|e]; simpl; [|done..].
  destruct (launch_grid _ _) as [?|e|e]; simpl; [|done..]. apply fold_ext; [|done].
  intros [id t] m1 m1' H1. unfold UpdateTableKernel. destruct (n <=? id); [done|].
  rewrite (gl_key_ext K m m' dk id Hm). apply fold_ext; [|done]. intros el m2 m2' H2. by apply copy_from_ext.
Qed.

(** ** Sequences of calls *)

Inductive call :=
  | CallLookup (ctx num_keys keys output : Z)
  | CallUpdate (ctx num_keys keys value_stride values : Z).

Section Calls.
Context (K : int_type) (EmbeddingForward : forward_args -> memory -> memory) {Laws : CuEmbedLaws K EmbeddingForward}.
Context (pointer_type : Z -> cudaMemoryType) (alloc : nat -> option Z) (threads : Z -> Z -> list (Z * Z)).
Context (get_lookup_stream get_modify_stream : Z -> Z).
Context (private_modify_stream modify_in_progress : Z) (config : GPUEmbeddingLayerConfig).
Local Abbreviation prv := private_modify_stream.
Local Abbreviation me := modify_in_progress.
Local Abbreviation row := (embedding_width_in_bytes config).
Local Abbreviation table := (embedding_table config).
Local Abbreviation num := (num_embeddings config).
Local Abbreviation ksz := (width K / 8).

Definition issue (c : call) : gl unit :=
  match c with
  | CallLookup ctx n keys output => gl_lookup K EmbeddingForward pointer_type alloc get_lookup_stream me config (Some ctx) n keys output row 0 None
  | CallUpdate ctx n keys stride values => gl_update K pointer_type alloc threads get_modify_stream prv me config (Some ctx) n keys stride row values 0
  end.
Definition issue_all (calls : list call) (s : layer) : layer := fold_left (fun s c => (issue c s).2) calls s.

(** The parts of a call. *)
Definition call_ctx (c : call) : Z := match c with CallLookup ctx _ _ _ | CallUpdate ctx _ _ _ _ => ctx end.
Definition call_num (c : call) : Z := match c with CallLookup _ n _ _ | CallUpdate _ n _ _ _ => n end.
Definition call_keys (c : call) : Z := match c with CallLookup _ _ k _ | CallUpdate _ _ k _ _ => k end.
(** Start and size of the output, and of the values, of a call. *)
Definition call_output (c : call) : Z * Z := match c with CallLookup _ n _ o => (o, n * row) | _ => (0, 0) end.
Definition call_values (c : call) : Z * Z := match c with CallUpdate _ n _ stride v => (v, n * stride) | _ => (0, 0) end.

(** The table the updates define: the row of the first position that names the key. *)
Definition apply_call (m0 : memory) (T : Z -> list Z) (c : call) : Z -> list Z :=
  match c with
  | CallLookup _ _ _ _ => T
  | CallUpdate _ n keys stride values => fun k =>
      match list_find (fun i => gl_key K m0 keys i = k) (seqZ 0 n) with
      | Some (_, i) => mem_read m0 (values + i * stride) row
      | None => T k
      end
  end.
Definition apply_calls (m0 : memory) (T : Z -> list Z) (calls : list call) : Z -> list Z := fold_left (apply_call m0) calls T.

(** The table of a memory. *)
Definition table_of (m : memory) (k : Z) : list Z := mem_read m (table + k * row) row.

(** ** Requirements *)

(** A row is a positive number of elements, and the offsets of the table fit the key type. *)
Record config_ok : Prop := {
  cf_type : value_dtype config = Float32 \/ value_dtype config = Float16;
  cf_width : (type_size (value_dtype config) | row);
  cf_row : 0 < row <= INT_MAX;
  cf_keys : width K = 32 \/ width K = 64;
  cf_table : table <> 0;
  cf_fits : width K <= 32 -> num * row < 2 ^ 32
}.

(** Buffers in device memory that overlap neither the table nor one another, keys of the table,
    and equal rows for equal keys of an update. *)
Record call_ok (m0 : memory) (c : call) : Prop := {
  ck_num : 0 < call_num c <= INT_MAX;
  ck_keys : call_keys c <> 0 /\ pointer_type (call_keys c) = Device;
  ck_key i : 0 <= i < call_num c -> 0 <= gl_key K m0 (call_keys c) i < num;
  ck_keys_apart : disjoint (call_keys c) (call_num c * ksz) table (num * row);
  ck_output_apart : disjoint (call_output c).1 (call_output c).2 table (num * row);
  ck_values_apart : disjoint (call_values c).1 (call_values c).2 table (num * row);
  ck_lookup ctx n keys output : c = CallLookup ctx n keys output -> output <> 0 /\ pointer_type output = Device;
  ck_update ctx n keys stride values : c = CallUpdate ctx n keys stride values ->
    values <> 0 /\ pointer_type values = Device /\ row <= stride /\ n * stride < 2 ^ 32 /\ launch_order 32 n (threads n) /\
    forall i j, 0 <= i < n -> 0 <= j < n -> gl_key K m0 keys i = gl_key K m0 keys j ->
      mem_read m0 (values + i * stride) row = mem_read m0 (values + j * stride) row
}.

Record calls_ok (m0 : memory) (calls : list call) : Prop := {
  cs_call c : c ∈ calls -> call_ok m0 c;
  cs_keys c c' : c ∈ calls -> c' ∈ calls -> disjoint (call_output c).1 (call_output c).2 (call_keys c') (call_num c' * ksz);
  cs_values c c' : c ∈ calls -> c' ∈ calls -> disjoint (call_output c).1 (call_output c).2 (call_values c').1 (call_values c').2;
  cs_outputs i j c c' : (i < j)%nat -> calls !! i = Some c -> calls !! j = Some c' ->
    get_lookup_stream (call_ctx c) <> get_lookup_stream (call_ctx c') ->
    disjoint (call_output c).1 (call_output c).2 (call_output c').1 (call_output c').2
}.

(** ** The command of a call *)

Definition lookup_args (n keys output : Z) : forward_args :=
  {| fa_params := table; fa_type := value_dtype config; fa_embed_width := row / type_size (value_dtype config);
     fa_indices := keys; fa_offsets := 0; fa_weights := 0; fa_batch_size := n; fa_num_hots := 1; fa_mode := kConcat; fa_ret := output |}.
Definition call_act (c : call) : memory -> memory :=
  match c with
  | CallLookup _ n keys output => EmbeddingForward (lookup_args n keys output)
  | CallUpdate _ n keys stride values =>
      kernel_effect (fun m => UpdateTable K m values (gl_key K m keys) table row stride row n (threads n) m)
  end.
Definition call_mark (c : call) : Z * kind :=
  match c with
  | CallLookup ctx _ _ _ => (get_lookup_stream ctx, Looking)
  | CallUpdate _ _ _ _ _ => (prv, Modifying)
  end.

Lemma row_elements : config_ok -> row / type_size (value_dtype config) * type_size (value_dtype config) = row /\ 0 < row / type_size (value_dtype config) /\ (2 | row).
Proof.
  intros [Ht [q Hq] Hr _ _ _].
  assert (type_size (value_dtype config) = 4 \/ type_size (value_dtype config) = 2) as [E|E] by (destruct Ht as [-> | ->]; vm_compute; tauto);
    rewrite E in *; rewrite Hq, Z.div_mul by lia; (split; [lia|split; [lia|]]); [exists (q * 2)|exists q]; lia.
Qed.

Lemma access_device s ctx name p size copy stream :
  p <> 0 -> pointer_type p = Device -> gl_access pointer_type alloc ctx name p size Device copy stream s = (Ok p, s).
Proof.
  intros Hp Ht. unfold gl_access, gbind, gcheck, glift. rewrite (proj2 (Z.eqb_neq _ _)) by done. simpl.
  by rewrite bool_decide_eq_true_2.
Qed.

Lemma INT_MAX_s32 x : 0 < x <= INT_MAX -> wraps 32 x = x /\ wrapu 32 x = x /\ wrapu 64 x = x.
Proof. unfold INT_MAX. intros. split; [apply wraps_small; unfold in_s; lia|]. split; apply wrapu_small; unfold in_u; lia. Qed.

Lemma find_kernel n keys output :
  config_ok -> 0 < n <= INT_MAX ->
  cuembed_find EmbeddingForward config n keys output = Ok (EmbeddingForward (lookup_args n keys output)).
Proof.
  intros Hc Hn. unfold cuembed_find. rewrite (proj2 (Z.leb_le n _)) by lia. rewrite (proj2 (Z.leb_le row _)) by apply Hc.
  destruct (row_elements Hc) as (E1 & E2 & _). destruct (INT_MAX_s32 row (cf_row Hc)) as (R1 & R2 & R3), (INT_MAX_s32 n Hn) as (N1 & N2 & N3).
  unfold call_cuembed_forward, lookup_args. rewrite R1, R3, N1.
  assert (wraps 32 (row / type_size (value_dtype config)) = row / type_size (value_dtype config)) as ->.
  { apply INT_MAX_s32. split; [done|]. pose proof (cf_row Hc).
    assert (0 < type_size (value_dtype config)) by (destruct (cf_type Hc) as [-> | ->]; vm_compute; done).
    etrans; [|apply (cf_row Hc)]. apply Z.div_le_upper_bound; nia. }
  destruct (cf_type Hc) as [-> | ->]; done.
Qed.

Lemma update_launches n keys stride values :
  config_ok -> 0 < n <= INT_MAX -> row <= stride -> n * stride < 2 ^ 32 ->
  update_kernel K threads config n stride keys values =
    Ok (kernel_effect (fun m => UpdateTable K m values (gl_key K m keys) table row stride row n (threads n) m)).
Proof.
  intros Hc Hn Hs Hf. destruct (row_elements Hc) as (_ & _ & Heven). pose proof (cf_row Hc) as Hr.
  destruct (INT_MAX_s32 row Hr) as (R1 & R2 & R3), (INT_MAX_s32 n Hn) as (N1 & N2 & N3).
  unfold update_kernel. rewrite R2, N1. rewrite (wrapu_small 32 stride) by (unfold in_u; nia).
  destruct (vec_size_even row Heven) as [elt Ee]. rewrite Ee. destruct (vec_size_spec row elt Ee) as [Helt [q Hq]].
  destruct (subgroup_width_spec (row / elt)) as (w & Ew & Hw); [rewrite Hq, Z.div_mul by lia; nia|].
  unfold launch_check. rewrite Ew. cbn [obind]. rewrite launch_grid_ok; [done| |done|by left]. unfold INT_MAX in Hn. lia.
Qed.

(** A call queues exactly its command. *)
Lemma issue_command m0 c s :
  config_ok -> call_ok m0 c ->
  exists x, issued (l_cuda (issue c s).2) = issued (l_cuda s) ++ [x] /\ (issue c s).1 = Ok tt /\
    act x = call_act c /\ mark x = call_mark c.
Proof.
  intros Hc [Hn [Hk0 Hk] _ _ _ _ Hl Hu]. destruct c as [ctx n keys output|ctx n keys stride values]; simpl in *.
  - destruct (Hl _ _ _ _ eq_refl) as [Ho0 Ho]. unfold gl_lookup, gbind, gcheck, glift.
    rewrite (proj2 (Z.leb_le 0 n)), (proj2 (Z.eqb_neq keys 0)), (proj2 (Z.eqb_neq output 0)), Z.eqb_refl by lia. simpl.
    rewrite !access_device by done. unfold locked_lookup, gbind, gcuda, glift. simpl. rewrite (find_kernel n keys output Hc Hn). simpl.
    rewrite !Z.eqb_refl. simpl. eexists. by split_and!.
  - destruct (Hu _ _ _ _ _ eq_refl) as (Hv0 & Hv & Hs & Hf & _). unfold gl_update, stage_modify, gbind, gcheck, glift.
    rewrite (proj2 (Z.leb_le 0 n)), (proj2 (Z.eqb_neq keys 0)), (proj2 (Z.eqb_neq values 0)), Z.eqb_refl by lia. simpl.
    rewrite !access_device by done. rewrite (update_launches n keys stride values Hc Hn Hs Hf). unfold locked_modify. simpl.
    set (c1 := coordinator_enter _ _ _). set (st := elements _). set (c0 := ec_event_wait_stream _ _ _).
    set (c2 := enqueue _ _ _ _).
    exists {| act := call_act (CallUpdate ctx n keys stride values); mark := (prv, Modifying); after := seen c0 prv ∪ synced c0 |}.
    split_and!; [|done..]. transitivity (issued c2); [unfold coordinator_leave, create_stream_dependency; by destruct (_ =? _)|].
    unfold c2. simpl. f_equal.
    destruct (sync_event_waits (next_event c1) st prv c1) as [W _]; [done|]. fold c0 in W. rewrite (ow_issued _ _ _ W).
    assert (only_waits (next_event (l_cuda s)) (stream_wait prv me (l_cuda s)) c1) as W1 by (by apply coordinator_enter_waits).
    by rewrite (ow_issued _ _ _ W1).
Qed.

(** ** The effects in the order of issue *)

Section Effects.
Context (m0 : memory) (calls : list call) (Hconf : config_ok) (Hcalls : calls_ok m0 calls).

(** Only the table and the outputs change. *)
Definition inputs_kept (m : memory) : Prop :=
  forall a, ~ (table <= a < table + num * row) ->
    (forall c, c ∈ calls -> ~ ((call_output c).1 <= a < (call_output c).1 + (call_output c).2)) -> m a = m0 a.

Lemma kept_read m p n :
  inputs_kept m -> disjoint p n table (num * row) ->
  (forall c, c ∈ calls -> disjoint (call_output c).1 (call_output c).2 p n) -> mem_read m p n = mem_read m0 p n.
Proof.
  intros Hm Ht Ho. apply mem_read_ext. intros x Hx. apply Hm; [unfold disjoint in Ht; lia|].
  intros c Hin. specialize (Ho c Hin). unfold disjoint in Ho. lia.
Qed.

Lemma key_in_buffer n i : 0 <= i < n -> 0 <= i * ksz /\ i * ksz + ksz <= n * ksz.
Proof. intros Hi. assert (0 < ksz) by (destruct (cf_keys Hconf) as [-> | ->]; done). nia. Qed.

Lemma kept_key m c i : inputs_kept m -> c ∈ calls -> 0 <= i < call_num c -> gl_key K m (call_keys c) i = gl_key K m0 (call_keys c) i.
Proof.
  intros Hm Hin Hi. unfold gl_key. do 2 f_equal. destruct (key_in_buffer _ i Hi).
  apply kept_read; [done| |].
  - pose proof (ck_keys_apart _ _ (cs_call _ _ Hcalls c Hin)) as H1. unfold disjoint in *. lia.
  - intros c' Hin'. pose proof (cs_keys _ _ Hcalls c' c Hin' Hin) as H1. unfold disjoint in *. lia.
Qed.

Lemma kept_values m ctx n keys stride values i :
  inputs_kept m -> CallUpdate ctx n keys stride values ∈ calls -> 0 <= i < n ->
  mem_read m (values + i * stride) row = mem_read m0 (values + i * stride) row.
Proof.
  intros Hm Hin Hi. pose proof (cs_call _ _ Hcalls _ Hin) as Hok.
  destruct (ck_update _ _ Hok _ _ _ _ _ eq_refl) as (_ & _ & Hs & _). pose proof (cf_row Hconf).
  assert (0 <= i * stride /\ i * stride + row <= n * stride) by nia.
  apply kept_read; [done| |].
  - pose proof (ck_values_apart _ _ Hok) as H1. unfold disjoint in *. simpl in *. lia.
  - intros c' Hin'. pose proof (cs_values _ _ Hcalls c' _ Hin' Hin) as H1. unfold disjoint in *. simpl in *. lia.
Qed.

(** A lookup copies the rows of its keys to its output. *)
Lemma lookup_effect m ctx n keys output :
  inputs_kept m -> CallLookup ctx n keys output ∈ calls ->
  let c := CallLookup ctx n keys output in
  (forall i o, 0 <= i < n -> 0 <= o < row -> call_act c m (output + i * row + o) = m (table + gl_key K m0 keys i * row + o)) /\
  (forall x, ~ (output <= x < output + n * row) -> call_act c m x = m x).
Proof.
  intros Hm Hin c. pose proof (cs_call _ _ Hcalls _ Hin) as Hok. destruct (row_elements Hconf) as (Ew & Hw & _).
  pose proof (ck_num _ _ Hok) as Hn. simpl in Hn.
  destruct (forward_concat (lookup_args n keys output) m) as [H1 H2]; simpl; [done..|lia|done| | |].
  - rewrite Ew. apply (cs_keys _ _ Hcalls _ _ Hin Hin).
  - intros i Hi. pose proof (kept_key m c i Hm Hin Hi) as Ek. simpl in Ek. rewrite Ew, Ek. pose proof (ck_key _ _ Hok i Hi) as Hk. simpl in Hk.
    pose proof (ck_output_apart _ _ Hok) as H1. unfold disjoint in *. simpl in *. pose proof (cf_row Hconf). nia.
  - simpl in H1, H2. rewrite Ew in H1, H2. split; [|exact H2].
    intros i o Hi Ho. pose proof (kept_key m c i Hm Hin Hi) as Ek. simpl in Ek. rewrite <- Ek. by apply H1.
Qed.

(** An update leaves the given rows in the table and changes nothing else. *)
Lemma update_effect m ctx n keys stride values :
  inputs_kept m -> CallUpdate ctx n keys stride values ∈ calls ->
  let c := CallUpdate ctx n keys stride values in
  (forall T, (forall k, 0 <= k < num -> table_of m k = T k) -> forall k, 0 <= k < num -> table_of (call_act c m) k = apply_call m0 T c k) /\
  (forall x, ~ (table <= x < table + num * row) -> call_act c m x = m x).
Proof.
  intros Hm Hin c. pose proof (cs_call _ _ Hcalls _ Hin) as Hok. pose proof (cf_row Hconf) as Hr.
  destruct (ck_update _ _ Hok _ _ _ _ _ eq_refl) as (_ & _ & Hs & Hf & Hord & Heq).
  pose proof (ck_num _ _ Hok) as Hn. simpl in Hn. destruct (row_elements Hconf) as (_ & _ & Heven).
  assert (Hkey : forall i, 0 <= i < n -> gl_key K m keys i = gl_key K m0 keys i) by (intros i Hi; by apply (kept_key m c i Hm Hin)).
  assert (Hrange : forall i, 0 <= i < n -> 0 <= gl_key K m0 keys i < num) by (intros i Hi; by apply (ck_key _ _ Hok i Hi)).
  set (val := fun k => match list_find (fun i => gl_key K m0 keys i = k) (seqZ 0 n) with
                       | Some (_, i) => mem_read m0 (values + i * stride) row | None => [] end).
  assert (Hval : forall i, 0 <= i < n -> mem_read m0 (values + i * stride) row = val (gl_key K m0 keys i)).
  { intros i Hi. unfold val. destruct (list_find _ _) as [[p j]|] eqn:E.
    - apply list_find_Some in E as (Hj & Ej & _). apply list_elem_of_lookup_2, elem_of_seqZ in Hj. apply Heq; [lia|lia|done].
    - apply list_find_None in E. rewrite Forall_forall in E. exfalso. apply (E i); [apply elem_of_seqZ; lia|done]. }
  destruct (UpdateTable_rows K m values (gl_key K m keys) table row stride row n) with (order := threads n) (val := val) (m := m)
    as (m' & Em & H1 & H2); [lia|lia|done|lia|done| |unfold INT_MAX in Hn; lia|done| |].
  { intros i Hi. rewrite Hkey by done. split; [apply Hrange; lia|]. intros Hk. pose proof (cf_fits Hconf Hk). specialize (Hrange i Hi). nia. }
  { intros i Hi. rewrite Hkey by done. rewrite (kept_values m ctx n keys stride values i Hm Hin Hi). by apply Hval. }
  assert (E : call_act c m = m') by (simpl; unfold kernel_effect; by rewrite Em). rewrite E. split.
  - intros T HT k Hk. simpl. destruct (list_find _ _) as [[p i]|] eqn:Ef.
    + pose proof Ef as Ef'. apply list_find_Some in Ef as (Hi & <- & _). apply list_elem_of_lookup_2, elem_of_seqZ in Hi.
      unfold table_of. rewrite <- Hkey by lia. rewrite H1 by lia. rewrite Hkey by lia. rewrite <- Hval by lia. done.
    + rewrite <- HT by done. apply mem_read_ext. intros x Hx. apply H2. intros i Hi. rewrite Hkey by done.
      apply list_find_None in Ef. rewrite Forall_forall in Ef. specialize (Ef i ltac:(apply elem_of_seqZ; lia)). simpl in Ef. nia.
  - intros x Hx. apply H2. intros i Hi. rewrite Hkey by done. specialize (Hrange i Hi). nia.
Qed.

Lemma act_keeps_inputs m c : c ∈ calls -> inputs_kept m -> inputs_kept (call_act c m).
Proof.
  intros Hin Hm a Ha Ho. rewrite <- (Hm a Ha Ho). destruct c as [ctx n keys output|ctx n keys stride values].
  - apply (lookup_effect m ctx n keys output Hm Hin). by apply (Ho _ Hin).
  - by apply (update_effect m ctx n keys stride values Hm Hin).
Qed.

Lemma act_table m c T :
  c ∈ calls -> inputs_kept m -> (forall k, 0 <= k < num -> table_of m k = T k) ->
  forall k, 0 <= k < num -> table_of (call_act c m) k = apply_call m0 T c k.
Proof.
  intros Hin Hm HT k Hk. destruct c as [ctx n keys output|ctx n keys stride values].
  - simpl. rewrite <- HT by done. apply mem_read_ext. intros x Hx. apply (lookup_effect m ctx n keys output Hm Hin).
    pose proof (ck_output_apart _ _ (cs_call _ _ Hcalls _ Hin)) as H1. unfold disjoint in *. simpl in *. pose proof (cf_row Hconf). nia.
  - by apply (update_effect m ctx n keys stride values Hm Hin).
Qed.

(** Lookups with disjoint outputs commute. *)
Lemma lookups_commute m ctx n keys output ctx' n' keys' output' :
  inputs_kept m -> CallLookup ctx n keys output ∈ calls -> CallLookup ctx' n' keys' output' ∈ calls ->
  disjoint output (n * row) output' (n' * row) ->
  let c := CallLookup ctx n keys output in
  let c' := CallLookup ctx' n' keys' output' in
  pw (call_act c (call_act c' m)) (call_act c' (call_act c m)).
Proof.
  intros Hm Hin Hin' Hd c c' a. pose proof (cf_row Hconf) as Hr.
  destruct (lookup_effect m _ _ _ _ Hm Hin) as [A1 A2], (lookup_effect m _ _ _ _ Hm Hin') as [B1 B2].
  destruct (lookup_effect _ _ _ _ _ (act_keeps_inputs m c' Hin' Hm) Hin) as [C1 C2].
  destruct (lookup_effect _ _ _ _ _ (act_keeps_inputs m c Hin Hm) Hin') as [D1 D2]. fold c in A1, A2, C1, C2, D1, D2. fold c' in B1, B2, C1, C2, D1, D2.
  assert (Hsplit : forall o k, 0 <= k - o < n * row \/ 0 <= k - o < n' * row -> exists i x, k = o + i * row + x /\ 0 <= x < row /\ i = (k - o) / row).
  { intros o k _. exists ((k - o) / row), ((k - o) mod row). pose proof (Z.mod_pos_bound (k - o) row ltac:(lia)).
    pose proof (Z.div_mod (k - o) row ltac:(lia)). split; [lia|done]. }
  assert (Htab : forall c1 ctx1 n1 keys1 output1 i x, c1 = CallLookup ctx1 n1 keys1 output1 -> c1 ∈ calls -> forall k n2, 0 <= i < n2 -> 0 <= k < num -> 0 <= x < row ->
            ~ (output1 <= table + k * row + x < output1 + n1 * row)).
  { intros c1 ctx1 n1 keys1 output1 i x -> Hc1 k n2 Hi Hk Hx. pose proof (ck_output_apart _ _ (cs_call _ _ Hcalls _ Hc1)) as H1.
    unfold disjoint in H1. simpl in H1. nia. }
  destruct (decide (output <= a < output + n * row)) as [Ha|Ha]; [|destruct (decide (output' <= a < output' + n' * row)) as [Ha'|Ha']].
  - rewrite (D2 a) by (unfold disjoint in Hd; lia).
    destruct (Hsplit output a) as (i & x & Ea & Hx & Ei); [left; lia|]. assert (0 <= i < n) by nia. rewrite Ea, C1, A1 by done.
    apply B2. apply (Htab c' ctx' n' keys' output' i x eq_refl Hin' _ n); [done| |done]. by apply (ck_key _ _ (cs_call _ _ Hcalls _ Hin) i).
  - rewrite (C2 a) by done.
    destruct (Hsplit output' a) as (i & x & Ea & Hx & Ei); [right; lia|]. assert (0 <= i < n') by nia. rewrite Ea, D1, B1 by done.
    symmetry. apply A2. apply (Htab c ctx n keys output i x eq_refl Hin _ n'); [done| |done]. by apply (ck_key _ _ (cs_call _ _ Hcalls _ Hin') i).
  - by rewrite C2, D2, A2, B2.
Qed.
End Effects.

(** ** Sequences on the device *)

Definition create_all (ctxs : list Z) (s : layer) : layer := fold_left (fun s c => (create_execution_context get_lookup_stream c s).2) ctxs s.

Local Abbreviation step := (host_step get_lookup_stream get_modify_stream prv me).

Lemma create_all_spec ctxs s :
  rtc step s (create_all ctxs s) /\ l_cuda (create_all ctxs s) = l_cuda s /\
  (forall c, c ∈ ctxs \/ registered c s -> registered c (create_all ctxs s)).
Proof.
  revert s. induction ctxs as [|x ctxs IH]; intros s; simpl; [set_solver|].
  destruct (IH (create_execution_context get_lookup_stream x s).2) as (H1 & H2 & H3). split_and!; [|done|].
  - eapply rtc_l; [|done]. apply hs_create.
  - intros c Hc. apply H3. unfold registered in *. simpl. set_solver.
Qed.

Lemma issue_steps c s : registered (call_ctx c) s -> rtc step s (issue c s).2.
Proof. destruct c; intros Hr; simpl in *; [by apply lookup_steps|by apply update_steps]. Qed.

Lemma host_step_keeps_contexts m0 c s : config_ok -> call_ok m0 c -> l_contexts (issue c s).2 = l_contexts s.
Proof.
  intros Hc [Hn [Hk0 Hk] _ _ _ _ Hl Hu]. destruct c as [ctx n keys output|ctx n keys stride values]; simpl in *.
  - destruct (Hl _ _ _ _ eq_refl) as [Ho0 Ho]. unfold gl_lookup, gbind, gcheck, glift.
    rewrite (proj2 (Z.leb_le 0 n)), (proj2 (Z.eqb_neq keys 0)), (proj2 (Z.eqb_neq output 0)), Z.eqb_refl by lia. simpl.
    rewrite !access_device by done. unfold locked_lookup, gbind, gcuda, glift. simpl. rewrite (find_kernel n keys output Hc Hn). simpl.
    rewrite !Z.eqb_refl. done.
  - destruct (Hu _ _ _ _ _ eq_refl) as (Hv0 & Hv & Hs & Hf & _). unfold gl_update, stage_modify, gbind, gcheck, glift.
    rewrite (proj2 (Z.leb_le 0 n)), (proj2 (Z.eqb_neq keys 0)), (proj2 (Z.eqb_neq values 0)), Z.eqb_refl by lia. simpl.
    rewrite !access_device by done. by rewrite (update_launches n keys stride values Hc Hn Hs Hf).
Qed.

(** The commands of a sequence of calls. *)
Definition command_of (c : call) (x : command memory (Z * kind)) : Prop := act x = call_act c /\ mark x = call_mark c.

Lemma issue_all_spec m0 calls s :
  config_ok -> (forall c, c ∈ calls -> call_ok m0 c /\ registered (call_ctx c) s) ->
  rtc step s (issue_all calls s) /\
  exists l, issued (l_cuda (issue_all calls s)) = issued (l_cuda s) ++ l /\ Forall2 command_of calls l.
Proof.
  intros Hc. revert s. induction calls as [|c calls IH]; intros s Hok; simpl.
  - split; [done|]. exists []. by rewrite app_nil_r.
  - destruct (Hok c ltac:(by left)) as [Hok1 Hr1]. destruct (issue_command m0 c s Hc Hok1) as (x & E & _ & Ea & Em).
    destruct (IH (issue c s).2) as (Hst & l & El & Hl).
    { intros c' Hin. destruct (Hok c' ltac:(by right)) as [Ho Hr]. split; [done|]. unfold registered in *.
      by rewrite (host_step_keeps_contexts m0 c s Hc Hok1). }
    split; [etrans; [by apply issue_steps|done]|]. exists (x :: l). split; [by rewrite El, E, <- app_assoc|].
    by constructor.
Qed.

Lemma commands_serial m0 calls all l m T :
  config_ok -> calls_ok m0 all -> Forall2 command_of calls l -> (forall c, c ∈ calls -> c ∈ all) ->
  inputs_kept m0 all m -> (forall k, 0 <= k < num -> table_of m k = T k) ->
  inputs_kept m0 all (run_issued l m) /\ forall k, 0 <= k < num -> table_of (run_issued l m) k = apply_calls m0 T calls k.
Proof.
  intros Hc Hall Hl. revert m T. induction Hl as [|c x calls l [Ea Em] Hl IH]; intros m T Hin Hm HT; simpl; [done|].
  apply IH; [intros; apply Hin; by right| |]; rewrite Ea.
  - apply act_keeps_inputs; [done..|apply Hin; by left|done].
  - apply (act_table m0 all); [done..|apply Hin; by left|done|done].
Qed.

Lemma commands_behaved m0 calls l :
  config_ok -> calls_ok m0 calls -> Forall2 command_of calls l -> well_behaved pw (inputs_kept m0 calls) l.
Proof.
  intros Hc Hall Hl. apply Forall_forall. intros x Hx. apply list_elem_of_lookup in Hx as [i Hx].
  destruct (Forall2_lookup_r _ _ _ _ _ Hl Hx) as (c & Hci & Ea & _). rewrite Ea. split.
  - destruct c; [simpl; apply (forward_proper (K := K))|apply UpdateTable_proper].
  - intros m. apply act_keeps_inputs; [done..|]. by eapply list_elem_of_lookup_2.
Qed.

Lemma commands_commute m0 calls l :
  config_ok -> calls_ok m0 calls -> Forall2 command_of calls l ->
  forall i j x y, (i < j)%nat -> l !! i = Some x -> l !! j = Some y -> uncovered x y ->
    forall m, inputs_kept m0 calls m -> pw (act x (act y m)) (act y (act x m)).
Proof.
  intros Hc Hall Hl i j x y Hij Hx Hy [Hs Hcf] m Hm.
  destruct (Forall2_lookup_r _ _ _ _ _ Hl Hx) as (c & Hci & Ea & Em), (Forall2_lookup_r _ _ _ _ _ Hl Hy) as (c' & Hci' & Ea' & Em').
  rewrite Ea, Ea'. rewrite Em, Em' in *.
  pose proof (list_elem_of_lookup_2 _ _ _ Hci) as Hin. pose proof (list_elem_of_lookup_2 _ _ _ Hci') as Hin'.
  destruct c as [ctx n keys output|], c' as [ctx' n' keys' output'|]; simpl in *; [|exfalso; apply Hcf; unfold conflict; naive_solver..].
  eapply lookups_commute; [done..|]. by apply (cs_outputs _ _ Hall i j _ _ Hij Hci Hci').
Qed.

(** The commands of later calls leave the output of a lookup alone, unless they are lookups
    into the same memory. *)
Lemma commands_keep_output m0 all later l m ctx n keys output :
  config_ok -> calls_ok m0 all -> CallLookup ctx n keys output ∈ all ->
  Forall2 command_of later l -> (forall c, c ∈ later -> c ∈ all) ->
  (forall c, c ∈ later -> disjoint output (n * row) (call_output c).1 (call_output c).2) ->
  inputs_kept m0 all m -> forall a, output <= a < output + n * row -> run_issued l m a = m a.
Proof.
  intros Hc Hall Hlk Hl. revert m. induction Hl as [|c x later l [Ea Em] Hl IH]; intros m Hin Hd Hm a Ha; simpl; [done|].
  assert (c ∈ all) as Hca by (apply Hin; by left). rewrite Ea.
  rewrite IH; [|intros; apply Hin; by right|intros; apply Hd; by right|by apply act_keeps_inputs|done].
  specialize (Hd c ltac:(by left)). destruct c as [ctx' n' keys' output'|ctx' n' keys' stride' values'].
  - apply (lookup_effect m0 all Hc Hall m ctx' n' keys' output' Hm Hca). unfold disjoint in Hd. simpl in Hd. lia.
  - apply (update_effect m0 all Hc Hall m ctx' n' keys' stride' values' Hm Hca).
    pose proof (ck_output_apart _ _ (cs_call _ _ Hall _ Hlk)) as H1. unfold disjoint in H1. simpl in H1. lia.
Qed.

(** C19. The GPU embedding layer delivers the updated rows: for any lookups and updates issued
    through any contexts, on buffers in device memory, and any schedule of the device that
    respects its streams and events, each row of every lookup, wherever it is in the sequence,
    is the row of its key in the table as the updates issued before it define it; the calls
    issued after it, updates of the same keys included, do not show in its output, unless a
    later lookup is given the same memory. *)
Theorem gpu_layer_lookup_correct (m0 : memory) (ctxs : list Z) (calls later : list call) (ctx n keys output : Z)
    (s0 : layer) (order : list nat) (i : Z) :
  config_ok -> gl_construct me config = Ok s0 ->
  let all := calls ++ CallLookup ctx n keys output :: later in
  calls_ok m0 all -> (forall c, c ∈ all -> call_ctx c ∈ ctxs) ->
  (forall c, c ∈ later -> disjoint output (n * row) (call_output c).1 (call_output c).2) ->
  let s := issue_all all (create_all ctxs s0) in
  legal (issued (l_cuda s)) order -> 0 <= i < n ->
  (forall c s, c ∈ all -> (issue c s).1 = Ok tt) /\
  mem_read (run (issued (l_cuda s)) order m0) (output + i * row) row =
    apply_calls m0 (table_of m0) calls (gl_key K m0 keys i).
Proof.
  intros Hc H0 all Hall Hctx Hlater s Hleg Hi.
  split. { intros c s' Hin. by destruct (issue_command m0 c s' Hc (cs_call _ _ Hall c Hin)) as (x & _ & E & _). }
  destruct (create_all_spec ctxs s0) as (R1 & E1 & Reg).
  destruct (issue_all_spec m0 all (create_all ctxs s0) Hc) as (R2 & l & El & Hl).
  { intros c Hin. split; [by apply (cs_call _ _ Hall)|]. apply Reg. left. by apply Hctx. }
  fold s in R2, El. assert (issued (l_cuda s) = l) as Es.
  { rewrite El, E1. unfold gl_construct in H0. destruct (table =? 0); [done|]. by injection H0 as <-. }
  assert (Hinv : layer_inv get_lookup_stream me s) by (apply (reachable_inv get_lookup_stream get_modify_stream prv me config s0); [done|by etrans]).
  rewrite (mem_read_ext _ (run_issued l m0)).
  2:{ intros a _. rewrite <- Es.
      apply (layer_schedule_serial get_lookup_stream get_modify_stream me (inputs_kept m0 all)); rewrite ?Es in *; [done|by apply commands_behaved| |done|done].
      by apply commands_commute. }
  apply Forall2_app_inv_l in Hl as (l1 & l2 & Hl1 & Hl2 & ->). apply Forall2_cons_inv_l in Hl2 as (x & l3 & [Ea _] & Hl3 & ->).
  destruct (commands_serial m0 calls all l1 m0 (table_of m0) Hc Hall Hl1) as [Hkept Htab]; [intros c Hin; apply elem_of_app; by left|done|done|].
  unfold run_issued. rewrite fold_left_app. cbn [fold_left]. rewrite Ea. fold (run_issued l1 m0). fold (run_issued l3 (call_act (CallLookup ctx n keys output) (run_issued l1 m0))).
  set (m1 := run_issued l1 m0) in *.
  assert (CallLookup ctx n keys output ∈ all) as Hin by (apply elem_of_app; right; by left).
  pose proof (cf_row Hc) as Hrow.
  rewrite (mem_read_ext _ (call_act (CallLookup ctx n keys output) m1)).
  2:{ intros a Ha. apply (commands_keep_output m0 all later l3 _ ctx n keys output Hc Hall Hin Hl3); [|done|by apply act_keeps_inputs|nia].
      intros c Hcl. apply elem_of_app. right. by right. }
  destruct (lookup_effect m0 all Hc Hall m1 ctx n keys output Hkept Hin) as [H1 _].
  rewrite <- Htab by (by apply (ck_key _ _ (cs_call _ _ Hall _ Hin) i)).
  apply list_eq. intros p. unfold table_of, mem_read. rewrite !list_lookup_fmap.
  destruct (decide (Z.of_nat p < row)) as [Hp|Hp].
  - rewrite !lookup_seqZ_lt by lia. simpl. f_equal. apply H1; lia.
  - rewrite !lookup_seqZ_ge by lia. done.
Qed.
End Calls.
