(* ===== verification/GpuLayerRace.v ===== *)
(** * Staged buffers of the GPU embedding layer, and examples

    Two hazards of calls whose buffers are not in device memory, which the theorems of
    [GpuLayerLookup] leave out: a lookup and an update of one context share the scratch buffer
    of the keys without being ordered, and a pooled lookup copies back more rows than it has.
    The last part runs the layer on a small table. *)
From S2P Require Import Prelude BitOps EcHash SetAssoc HostModify CacheQuery DataTypes HostTable Buffers AutoInsert Pooling HostLayer Serialization DeviceOps Streams GpuLayer GpuLayerOrder GpuLayerLookup.

(** ** A small layer *)

(** A reference for [EmbeddingForward]: byte [x] of the result comes from the row of its index. *)
Definition demo_forward (a : forward_args) (m : memory) : memory := fun x =>
  let w := fa_embed_width a * type_size (fa_type a) in
  if (fa_ret a <=? x) && (x <? fa_ret a + fa_batch_size a * w)
  then m (fa_params a + gl_key int64_t m (fa_indices a) ((x - fa_ret a) / w) * w + (x - fa_ret a) mod w)
  else m x.

#[global] Instance demo_forward_laws : CuEmbedLaws int64_t demo_forward.
Proof.
  split.
  - intros a m m' Hm x. unfold demo_forward. destruct (_ && _); [|apply Hm]. by rewrite (gl_key_ext _ m m' _ _ Hm).
  - intros a m _ _ _ _ Hn Hw w n _ _.
    assert (0 <= type_size (fa_type a)) by (destruct (fa_type a); vm_compute; done). assert (0 <= w) by (unfold w; nia).
    split; intros.
    + unfold demo_forward. fold w n. replace (fa_ret a + i * w + o - fa_ret a) with (o + i * w) by lia.
      rewrite (proj2 (Z.leb_le _ _)), (proj2 (Z.ltb_lt _ _)) by nia. simpl.
      rewrite Z.div_add, Z_mod_plus_full, Z.div_small, Z.mod_small by lia. done.
    + unfold demo_forward. fold w n. destruct (Z.leb_spec (fa_ret a) x), (Z.ltb_spec x (fa_ret a + n * w)); done || lia.
Qed.

(** Four rows of one float at address 1000; addresses from 20000 on are host memory. *)
Definition demo_config : GPUEmbeddingLayerConfig :=
  {| embedding_table := 1000; num_embeddings := 4; embedding_width_in_bytes := 4; value_dtype := Float32 |}.
Definition demo_pointer_type (p : Z) : cudaMemoryType := if p <? 20000 then Device else Unregistered.
Definition demo_alloc (n : nat) : option Z := Some (10000 + 1000 * Z.of_nat n).
Definition demo_threads (n w : Z) : list (Z * Z) := launch_threads w (32 / w) n.
(** Context [c] has the streams [2 * c] and [2 * c + 1]; the private stream is 100, the event 0. *)
Definition demo_lookup_stream (c : Z) : Z := 2 * c.
Definition demo_modify_stream (c : Z) : Z := 2 * c + 1.
Definition demo_memory : memory := fun a =>
  if (1000 <=? a) && (a <? 1016) then (a - 1000) / 4 + 1    (* rows *)
  else if (3000 <=? a) && (a <? 3004) then 77               (* new row *)
  else if (a =? 5000) || (a =? 20000) then 2                (* keys *)
  else if a =? 21000 then 3
  else if a =? 22016 then 9
  else 0.
Definition demo_layer (ctxs : list Z) : layer :=
  match gl_construct 0 demo_config with Ok s => create_all demo_lookup_stream ctxs s | _ =>
    {| l_cuda := {| issued := []; seen := fun _ => ∅; captured := fun _ => ∅; next_event := 0; synced := ∅ |};
       l_contexts := {| ContextRegistry.contexts_ := ∅; ContextRegistry.lookup_streams_ := ∅ |}; l_scratch := ∅; l_allocations := 0 |} end.
Definition demo_gl_lookup := gl_lookup int64_t demo_forward demo_pointer_type demo_alloc demo_lookup_stream 0 demo_config.
Definition demo_gl_update := gl_update int64_t demo_pointer_type demo_alloc demo_threads demo_modify_stream 100 0 demo_config.

(** ** The race on the staged keys *)

Definition demo_race_lookup := demo_gl_lookup (Some 1) 1 20000 7000 4 0 None (demo_layer [1]).
Definition demo_race_update := demo_gl_update (Some 1) 1 21000 4 4 3000 0 demo_race_lookup.2.

(** A race on the staged keys: a context looks up key [2] and then updates key [3], both
    with keys in host memory and streams of its own for lookups and modifications. Both calls
    return, and a schedule that respects all streams and events lets the update's keys
    overwrite the scratch buffer before the lookup reads it: the lookup delivers the row of
    key [3]. *)
Theorem gpu_layer_staged_keys_race :
  demo_race_lookup.1 = Ok tt /\ demo_race_update.1 = Ok tt /\
  let l := issued (l_cuda demo_race_update.2) in
  legal l [0; 2; 1; 3]%nat /\
  mem_read (run l [0; 2; 1; 3]%nat demo_memory) 7000 4 = table_of demo_config demo_memory 3 /\
  table_of demo_config demo_memory 3 <> table_of demo_config demo_memory 2.
Proof.
  split; [vm_compute; reflexivity|]. split; [vm_compute; reflexivity|]. intros l.
  split; [apply legalb_ok; vm_compute; reflexivity|]. split; [vm_compute; reflexivity|]. by vm_compute.
Qed.

(** ** The size of a pooled result *)

(** A pooled lookup of four keys in bags of two has two rows of four bytes, but the copy back
    to an output in host memory moves four rows: the byte behind them is overwritten. *)
Theorem pooled_lookup_overruns_output :
  let pool := {| gp_pooling_type := Sum; gp_sparse_type := Fixed; gp_key_indices := 23000; gp_first_index := 2;
                 gp_num_key_indices := 1; gp_sparse_weights := 0; gp_weight_type := Unknown |} in
  let r := demo_gl_lookup (Some 1) 4 5000 22008 4 0 (Some pool) (demo_layer [1]) in
  r.1 = Ok tt /\ demo_memory (22008 + 2 * 4) = 9 /\ run_issued (issued (l_cuda r.2)) demo_memory (22008 + 2 * 4) = 0.
Proof. by vm_compute. Qed.

(** ** Witnesses *)

(** The last call updates the key again, to zeros. *)
Definition demo_calls : list call := [CallLookup 1 1 5000 6000; CallLookup 2 1 5000 6100; CallUpdate 2 1 5000 4 3000].
Definition demo_later : list call := [CallUpdate 1 1 5000 4 3100].

Lemma demo_config_ok : config_ok int64_t demo_config.
Proof. split; simpl; [by left|exists 1; done|unfold INT_MAX; lia|by right|done|lia]. Qed.

(** Decides whether two concrete buffers overlap. *)
Ltac buffers_apart := unfold disjoint; first [left; vm_compute; discriminate | right; vm_compute; discriminate].

Lemma demo_launch_order n : launch_order 32 n (demo_threads n).
Proof. intros w Hw. done. Qed.

Lemma demo_calls_ok :
  calls_ok int64_t demo_pointer_type demo_threads demo_lookup_stream demo_config demo_memory
    (demo_calls ++ CallLookup 3 1 5000 7000 :: demo_later).
Proof.
  assert (Hkey : forall i, 0 <= i < 1 -> gl_key int64_t demo_memory 5000 i = 2) by (intros i Hi; replace i with 0 by lia; by vm_compute).
  unfold demo_calls, demo_later. simpl. split.
  - intros c Hc. rewrite !elem_of_cons, elem_of_nil in Hc.
    destruct Hc as [->|[->|[->|[->|[->|[]]]]]]; split; simpl; try (unfold INT_MAX; lia); try buffers_apart; try (split; done);
      try (intros i Hi; rewrite Hkey by done; lia); try (intros ? ? ? ? [= <- <- <- <-]; done); try done.
    all: intros ? ? ? ? ? [= <- <- <- <- <-]; split_and!; try lia; try done; [apply demo_launch_order|].
    all: intros i j Hi Hj _; by replace i with j by lia.
  - intros c c' Hc Hc'. rewrite !elem_of_cons, elem_of_nil in Hc, Hc'.
    destruct Hc as [->|[->|[->|[->|[->|[]]]]]], Hc' as [->|[->|[->|[->|[->|[]]]]]]; buffers_apart.
  - intros c c' Hc Hc'. rewrite !elem_of_cons, elem_of_nil in Hc, Hc'.
    destruct Hc as [->|[->|[->|[->|[->|[]]]]]], Hc' as [->|[->|[->|[->|[->|[]]]]]]; buffers_apart.
  - intros i j c c' Hij Hi Hj _.
    do 5 (destruct i as [|i]; [simpl in Hi; injection Hi as <-; do 5 (destruct j as [|j]; [simpl in Hj; try lia; try (injection Hj as <-; buffers_apart)|]); done|]); done.
Qed.

Lemma gpu_layer_lookup_correct_witness :
  let s := issue_all int64_t demo_forward demo_pointer_type demo_alloc demo_threads demo_lookup_stream demo_modify_stream 100 0 demo_config
             (demo_calls ++ CallLookup 3 1 5000 7000 :: demo_later) (demo_layer [1; 2; 3]) in
  mem_read (run (issued (l_cuda s)) [1; 0; 2; 3; 4]%nat demo_memory) (7000 + 0 * 4) 4 = [77; 77; 77; 77].
Proof.
  intros s. etrans.
  - apply (gpu_layer_lookup_correct int64_t demo_forward demo_pointer_type demo_alloc demo_threads demo_lookup_stream demo_modify_stream
             100 0 demo_config demo_memory [1; 2; 3] demo_calls demo_later 3 1 5000 7000 (demo_layer []) [1; 0; 2; 3; 4]%nat 0).
    + apply demo_config_ok.
    + reflexivity.
    + apply demo_calls_ok.
    + intros c Hc. unfold demo_calls, demo_later in Hc. simpl in Hc. rewrite !elem_of_cons, elem_of_nil in Hc.
      destruct Hc as [->|[->|[->|[->|[->|[]]]]]]; vm_compute; set_solver.
    + intros c Hc. apply list_elem_of_singleton in Hc as ->. buffers_apart.
    + apply legalb_ok. vm_compute. reflexivity.
    + lia.
  - vm_compute. reflexivity.
Defined.

Lemma gpu_layer_race_free_witness :
  exists x y, issued (l_cuda demo_race_update.2) !! 1%nat = Some x /\ issued (l_cuda demo_race_update.2) !! 3%nat = Some y /\ 1%nat ∈ after y.
Proof.
  destruct (issued (l_cuda demo_race_update.2) !! 1%nat) as [x|] eqn:Ex; [|discriminate Ex].
  destruct (issued (l_cuda demo_race_update.2) !! 3%nat) as [y|] eqn:Ey; [|discriminate Ey].
  exists x, y. split; [reflexivity|]. split; [reflexivity|].
  apply (gpu_layer_race_free demo_lookup_stream demo_modify_stream 100 0 demo_config (demo_layer []) demo_race_update.2 1 3 x y).
  - reflexivity.
  - transitivity (demo_layer [1]).
    + apply rtc_once. apply (hs_create demo_lookup_stream demo_modify_stream 100 0 1 (demo_layer [])).
    + transitivity demo_race_lookup.2.
      * apply lookup_steps. vm_compute. set_solver.
      * apply update_steps. vm_compute. set_solver.
  - lia.
  - exact Ex.
  - exact Ey.
  - assert (Mx : from_option (fun x => (mark x).2) Copying (issued (l_cuda demo_race_update.2) !! 1%nat) = Looking) by (vm_compute; reflexivity).
    assert (My : from_option (fun x => (mark x).2) Copying (issued (l_cuda demo_race_update.2) !! 3%nat) = Modifying) by (vm_compute; reflexivity).
    rewrite Ex in Mx. rewrite Ey in My. simpl in Mx, My. right. split; [exact My|]. rewrite Mx. discriminate.
Defined.
