(* ===== verification/FindAndCombine.v ===== *)
(** * Pooled lookups on the device: [cuda_ops/find_and_combine_kernel.cuh],
    [GpuTable::find_and_combine]

    One warp pools one bag: the lanes look up 32 keys at a time and broadcast the pointers,
    and every lane accumulates its share of the row, in vectors of 1, 2 or 4 elements, in the
    order of the keys. The arithmetic of the element type is a parameter ([Accumulate],
    [MulAccumulate], [Div] of [kernels_common.cuh]), so are the address of a key
    ([AddressFunctor::get_address], see [CacheQuery]) and the contents of rows. The kernel is
    proved to compute the plain fold over the keys of each bag, whatever the order in which
    the threads run. *)
From S2P Require Import Prelude BitOps EcHash SetAssoc CacheQuery DataTypes Pooling DeviceOps.

(** The operations on elements. *)
Class ElementOps (E : Type) := { e_zero : E; e_one : E; e_add : E -> E -> E; e_muladd : E -> E -> E -> E; e_div : E -> E -> E }.

Section Kernel.
Context {E : Type} `{!ElementOps E} (K : int_type).
(** The pointer for a key and whether its lookup counts a miss; element [i] of a row. *)
Variables (get_address : Z -> Z) (counts_miss : Z -> bool) (element : Z -> Z -> E).
Variables (indices offsets : Z -> Z) (weights : Z -> E) (num_hot rowSizeInElements : Z).
Variables (fixed_hotness sum_pooling is_weighted : bool).

(** ** [FindAndCombine] *)

Definition bag_hotness (sample : Z) : Z :=
  wrapu 32 (if fixed_hotness then num_hot else offsets (sample + 1) - offsets sample).
Definition sample_start (sample : Z) : Z :=
  conv K (if fixed_hotness then wrapu 32 (sample * bag_hotness sample) else offsets sample).

(** The accumulators of a thread: element [c] of vector [k], and the weight of vector [k]. *)
Record accumulators := { acc : Z -> Z -> E; acc_weight : Z -> E }.
Definition init_acc : accumulators := {| acc := fun _ _ => e_zero; acc_weight := fun _ => e_zero |}.

(** What lane [t] adds of the row at [ptr] at position [pos] of the keys, with [vec] elements
    to a vector and [sz] vectors to a lane. *)
Definition accumulate_row (vec sz t ptr pos : Z) (a : accumulators) : accumulators :=
  let inside k := (k <? sz) && (t + k * 32 <? rowSizeInElements / vec) in
  {| acc := fun k c =>
       if inside k then
         let el := element ptr ((t + k * 32) * vec + c) in
         if is_weighted then e_muladd (acc a k c) el (weights pos) else e_add (acc a k c) el
       else acc a k c;
     acc_weight := fun k =>
       if inside k && negb sum_pooling then e_add (acc_weight a k) (if is_weighted then weights pos else e_one)
       else acc_weight a k |}.

(** The key of lane [l] in the chunk at [i]; lanes past the bag look up key 0. *)
Definition lane_key (sample i l : Z) : Z :=
  if i + l <? bag_hotness sample then indices (sample_start sample + i + l) else 0.

(** One chunk of 32 keys. *)
Definition chunk (vec sz t sample i : Z) (a : accumulators) : accumulators :=
  fold_left (fun a s =>
    if sample_start sample + i + s <? conv K (sample_start sample + bag_hotness sample)
    then accumulate_row vec sz t (get_address (lane_key sample i s)) (sample_start sample + i + s) a
    else a) (seqZ 0 32) a.
(** The starts of the chunks: [for (i = 0; i < hotness; i += 32)]. *)
Definition chunks (sample : Z) : list Z := (fun n => n * 32) <$> seqZ 0 (ceil_div (bag_hotness sample) 32).

Definition thread_acc (vec sz t sample : Z) : accumulators :=
  fold_left (fun a i => chunk vec sz t sample i a) (chunks sample) init_acc.

(** What lane [t] stores: [for (j = t, k = 0; j < rowSizeInVecs; j += 32, ++k)]; a lane has
    [sz] accumulators. *)
Definition stored (vec t sample : Z) (a : accumulators) : list (Z * E) :=
  k ← seqZ 0 (ceil_div (rowSizeInElements / vec - t) 32); c ← seqZ 0 vec;
  [(wraps 32 (sample * rowSizeInElements) + (t + k * 32) * vec + c,
    if sum_pooling then acc a k c else e_div (acc a k c) (acc_weight a k))].
Definition store_row (vec sz t sample : Z) (a : accumulators) (out : Z -> E) : outcome (Z -> E) :=
  if sz <? ceil_div (rowSizeInElements / vec - t) 32 then Undef "accumulator out of range"
  else Ok (fold_left (fun out w => upd out w.1 w.2) (stored vec t sample a) out).

(** Output and miss counter of a launch. *)
Record combine_state := { c_out : Z -> E; c_misses : Z }.
Definition chunk_misses (sample i t : Z) : Z := if counts_miss (lane_key sample i t) then 1 else 0.
Definition FindAndCombine (vec sz : Z) (st : combine_state) (thread : Z * Z) : outcome combine_state :=
  let '(sample, t) := thread in
  let! out := store_row vec sz t sample (thread_acc vec sz t sample) (c_out st) in
  Ok {| c_out := out; c_misses := fold_left (fun n i => n + chunk_misses sample i t) (chunks sample) (c_misses st) |}.

Fixpoint run_threads (vec sz : Z) (order : list (Z * Z)) (st : combine_state) : outcome combine_state :=
  match order with
  | [] => Ok st
  | t :: order => let! st := FindAndCombine vec sz st t in run_threads vec sz order st
  end.

(** ** [callFindAndCombineKernel] *)

Definition vector_size : Z :=
  if Z.rem rowSizeInElements 4 =? 0 then 4 else if Z.rem rowSizeInElements 4 =? 2 then 2 else 1.
Definition DivRoundUp (n m : Z) : Z := wrapu 32 (wrapu 32 n + (m - 1)) / m.
Definition sz_accum : Z := DivRoundUp rowSizeInElements (32 * vector_size).
(** The threads of a launch: a block of 32 for each bag. *)
Definition combine_threads (batch : Z) : list (Z * Z) := s ← seqZ 0 batch; t ← seqZ 0 32; [(s, t)].

Definition callFindAndCombineKernel (batch : Z) (order : list (Z * Z)) (st : combine_state) : outcome combine_state :=
  check! (1 <=? sz_accum) && (sz_accum <=? 8) as "Unsupported kernel dimensions" in
  check! 0 <? batch as "invalid configuration argument" in
  run_threads vector_size sz_accum order st.
End Kernel.
Arguments combine_state E : clear implicits.

(** ** [GpuTable::find_and_combine] *)

Section FindAndCombine.
Context {E : Type} `{!ElementOps E} (K : int_type).
Variables (get_address : Z -> Z) (counts_miss : Z -> bool) (element : Z -> Z -> E).
(** Size of a row of the table and of an element, and whether the table is in unified memory. *)
Variables (row_size_in_bytes sizeof_value : Z) (uvm_table : bool).

(** [offsets] and [weights] are [None] for a null buffer; [order batch] is the order of the
    threads of a launch with [batch] blocks. *)
Definition find_and_combine (num_keys : Z) (keys : Z -> Z) (hot_type : SparseType_t) (num_offsets : Z) (offsets : option (Z -> Z))
    (fixed_hotness : Z) (pooling_type : PoolingType_t) (weights : option (Z -> E)) (value_stride : Z)
    (order : Z -> list (Z * Z)) (st : combine_state E) : outcome (combine_state E) :=
  check! value_stride =? row_size_in_bytes as "Output stride must be the same as cache row size" in
  check! uvm_table as "find_and_combine requires a UVM table" in
  let num_elements := wraps 32 (wrapu 64 value_stride / sizeof_value) in
  let launch batch fixed :=
    if bool_decide (pooling_type = Concatenate) then Throw "Not implemented"
    else
      check! negb (weighted pooling_type) || bool_decide (is_Some weights) as "Weights must be provided for weighted pooling" in
      callFindAndCombineKernel K get_address counts_miss element keys (default (fun _ => 0) offsets) (default (fun _ => e_zero) weights)
        (wraps 32 fixed_hotness) num_elements fixed (negb (mean pooling_type)) (weighted pooling_type) (wrapu 32 batch) (order (wrapu 32 batch)) st in
  match hot_type with
  | Fixed =>
      if fixed_hotness =? 0 then Undef "division by zero"
      else
        check! Z.rem num_keys fixed_hotness <=? 0 as "Invalid number of keys for fixed hotness" in
        launch (Z.quot num_keys fixed_hotness) true
  | CSR =>
      check! bool_decide (is_Some offsets) as "Offsets must be provided for CSR layout" in
      launch num_offsets false
  | COO => Throw "Not implemented"
  end.
End FindAndCombine.

(** ** Folds *)

Lemma fold_left_ext_in {A B} (f g : A -> B -> A) l a :
  (forall a x, x ∈ l -> f a x = g a x) -> fold_left f l a = fold_left g l a.
Proof.
  revert a. induction l as [|x l IH]; intros a H; simpl; [done|]. rewrite H by (by left). apply IH. intros; apply H. by right.
Qed.

Lemma fold_left_idle {A B} (f : A -> B -> A) l a : (forall a x, x ∈ l -> f a x = a) -> fold_left f l a = a.
Proof.
  revert a. induction l as [|x l IH]; intros a H; simpl; [done|]. rewrite H by (by left). apply IH. intros; apply H. by right.
Qed.

(** The loop over chunks of [s] visits all positions in order. *)
Lemma fold_chunks {A} (g : A -> Z -> A) (s : Z) (n : nat) a : 0 <= s ->
  fold_left (fun a i => fold_left (fun a j => g a (i + j)) (seqZ 0 s) a) ((fun n => n * s) <$> seqZ 0 (Z.of_nat n)) a =
  fold_left g (seqZ 0 (Z.of_nat n * s)) a.
Proof.
  intros Hs. revert a. induction n as [|n IH]; intros a; [done|].
  rewrite Nat2Z.inj_succ, <- Z.add_1_r. rewrite seqZ_app by lia. rewrite fmap_app, fold_left_app, IH.
  replace ((Z.of_nat n + 1) * s) with (Z.of_nat n * s + s) by lia. rewrite (seqZ_app 0 _ s) by lia. rewrite fold_left_app.
  replace (seqZ (0 + Z.of_nat n) 1) with [Z.of_nat n] by done. simpl fmap. simpl fold_left at 1.
  replace (seqZ (0 + Z.of_nat n * s) s) with (Z.add (Z.of_nat n * s) <$> seqZ 0 s) by (rewrite fmap_add_seqZ; f_equal; lia).
  by rewrite fold_left_fmap.
Qed.

Lemma fold_guarded {A} (g : A -> Z -> A) h n a :
  0 <= h <= n -> fold_left (fun a p => if p <? h then g a p else a) (seqZ 0 n) a = fold_left g (seqZ 0 h) a.
Proof.
  intros Hh. replace n with (h + (n - h)) by lia. rewrite seqZ_app by lia. rewrite fold_left_app.
  rewrite (fold_left_ext_in _ g (seqZ 0 h)) by (intros b x Hx%elem_of_seqZ; by rewrite (proj2 (Z.ltb_lt _ _)) by lia).
  apply fold_left_idle. intros x y Hy%elem_of_seqZ. by rewrite (proj2 (Z.ltb_ge _ _)) by lia.
Qed.

(** Sums over lists. *)
Definition sumZ {A} (f : A -> Z) (l : list A) : Z := foldr (fun x n => f x + n) 0 l.

Lemma fold_sumZ {A} (f : A -> Z) l a : fold_left (fun n x => n + f x) l a = a + sumZ f l.
Proof. revert a. induction l as [|x l IH]; intros a; simpl; [lia|]. rewrite IH. lia. Qed.
Lemma sumZ_app {A} (f : A -> Z) l l' : sumZ f (l ++ l') = sumZ f l + sumZ f l'.
Proof. induction l as [|x l IH]; simpl; lia. Qed.
Lemma sumZ_perm {A} (f : A -> Z) l l' : l ≡ₚ l' -> sumZ f l = sumZ f l'.
Proof. induction 1; simpl; lia. Qed.
Lemma sumZ_add {A} (f g : A -> Z) l : sumZ (fun x => f x + g x) l = sumZ f l + sumZ g l.
Proof. induction l as [|x l IH]; simpl; lia. Qed.
Lemma sumZ_ext {A} (f g : A -> Z) l : (forall x, x ∈ l -> f x = g x) -> sumZ f l = sumZ g l.
Proof. induction l as [|x l IH]; intros H; simpl; [done|]. rewrite H by (by left). rewrite IH; [done|]. intros; apply H. by right. Qed.
Lemma sumZ_const {A} c (l : list A) : sumZ (fun _ => c) l = Z.of_nat (length l) * c.
Proof. induction l as [|x l IH]; simpl; lia. Qed.
Lemma sumZ_fmap {A B} (f : B -> Z) (g : A -> B) l : sumZ f (g <$> l) = sumZ (fun x => f (g x)) l.
Proof. induction l as [|x l IH]; simpl; [done|]. by rewrite <- IH. Qed.
Lemma sumZ_bind {A B} (f : B -> Z) (g : A -> list B) l : sumZ f (l ≫= g) = sumZ (fun x => sumZ f (g x)) l.
Proof. induction l as [|x l IH]; [done|]. rewrite bind_cons, sumZ_app, IH. done. Qed.
Lemma sumZ_exchange {A B} (f : A -> B -> Z) l l' : sumZ (fun x => sumZ (f x) l') l = sumZ (fun y => sumZ (fun x => f x y) l) l'.
Proof.
  induction l as [|x l IH]; simpl; [|rewrite IH, sumZ_add; done].
  induction l' as [|y l' IH']; simpl; [done|lia].
Qed.
Lemma sumZ_count {A} (b : A -> bool) l : sumZ (fun x => if b x then 1 else 0) l = Z.of_nat (length (filter (fun x => b x = true) l)).
Proof. induction l as [|x l IH]; simpl; [done|]. rewrite IH, filter_cons. destruct (b x); simpl; lia. Qed.

(** ** The reference: a fold over the keys of a bag *)

Section Reference.
Context {E : Type} `{!ElementOps E} (K : int_type).
Variables (get_address : Z -> Z) (counts_miss : Z -> bool) (element : Z -> Z -> E).
Variables (indices offsets : Z -> Z) (weights : Z -> E) (num_hot row : Z).
Variables (fixed sum is_weighted : bool).

(** Start and number of keys of a bag. *)
Definition bag (sample : Z) : Z * Z :=
  if fixed then (sample * num_hot, num_hot) else (offsets sample, offsets (sample + 1) - offsets sample).

(** Element [e] of the pooled row. *)
Definition pooled_element (sample e : Z) : E :=
  let ps := seqZ (bag sample).1 (bag sample).2 in
  let total := fold_left (fun x p =>
    let el := element (get_address (indices p)) e in
    if is_weighted then e_muladd x el (weights p) else e_add x el) ps e_zero in
  if sum then total
  else e_div total (fold_left (fun x p => e_add x (if is_weighted then weights p else e_one)) ps e_zero).

(** Misses of the keys of a bag, and of the lanes beyond it, which look up key 0. *)
Definition bag_misses (sample : Z) : Z :=
  Z.of_nat (length (filter (fun p => counts_miss (indices p) = true) (seqZ (bag sample).1 (bag sample).2))).
Definition padding_misses (sample : Z) : Z :=
  if counts_miss 0 then ceil_div (bag sample).2 32 * 32 - (bag sample).2 else 0.

Local Abbreviation hotness := (bag_hotness offsets num_hot fixed).
Local Abbreviation start := (sample_start K offsets num_hot fixed).

(** Bags within the range of the key type and of the 32-bit counts. *)
Definition bag_ok (sample : Z) : Prop :=
  0 <= (bag sample).1 /\ 0 <= (bag sample).2 < 2 ^ 32 /\ in_range K ((bag sample).1 + (bag sample).2) /\
  in_range K (bag sample).1 /\ (fixed = true -> sample * num_hot < 2 ^ 32).

Lemma bag_ok_start sample : (width K = 32 \/ width K = 64) -> bag_ok sample -> hotness sample = (bag sample).2 /\ start sample = (bag sample).1 /\
  conv K (start sample + hotness sample) = (bag sample).1 + (bag sample).2.
Proof.
  intros HK (H0 & Hh & Hend & Hst & Hf). assert (0 < width K) by lia.
  assert (Eh : hotness sample = (bag sample).2).
  { unfold bag_hotness, bag in *. destruct fixed; simpl in *; apply wrapu_small; done. }
  assert (Es : start sample = (bag sample).1).
  { unfold sample_start. rewrite Eh. unfold bag in *. destruct fixed; simpl in *; [|by apply conv_small].
    rewrite (wrapu_small 32) by (unfold in_u; split; [done|by apply Hf]). by apply conv_small. }
  rewrite Es, Eh. split; [done|]. split; [done|]. by apply conv_small.
Qed.


(** ** The accumulators of a thread *)

Section Bag.
Context (sample : Z) (HK : width K = 32 \/ width K = 64) (Hbag : bag_ok sample).
Local Abbreviation row_at := (accumulate_row element weights row sum is_weighted).
Local Abbreviation acc_of := (thread_acc K get_address element indices offsets weights num_hot row fixed sum is_weighted).

(** A thread accumulates the rows of the keys of the bag in order. *)
Lemma thread_acc_fold vec sz t :
  acc_of vec sz t sample =
    fold_left (fun a p => row_at vec sz t (get_address (indices p)) p a) (seqZ (bag sample).1 (bag sample).2) init_acc.
Proof.
  destruct (bag_ok_start sample HK Hbag) as (Eh & Es & Ee). destruct Hbag as (H0 & Hh & _).
  unfold thread_acc, chunks, chunk. rewrite Ee, Es, Eh. set (h := (bag sample).2) in *. set (st := (bag sample).1) in *.
  pose proof (ceil_div_bounds h 32 ltac:(lia) ltac:(lia)). pose proof (ceil_div_nonneg h 32 ltac:(lia) ltac:(lia)).
  set (g := fun a p => if p <? h then row_at vec sz t (get_address (indices (st + p))) (st + p) a else a).
  transitivity (fold_left (fun a i => fold_left (fun a s => g a (i + s)) (seqZ 0 32) a) ((fun n => n * 32) <$> seqZ 0 (ceil_div h 32)) init_acc).
  - apply fold_left_ext. intros a i. apply fold_left_ext. intros a' s. unfold g, lane_key. rewrite Es, Eh.
    replace (st + i + s <? st + h) with (i + s <? h) by (destruct (Z.ltb_spec (i + s) h), (Z.ltb_spec (st + i + s) (st + h)); done || lia).
    destruct (i + s <? h); [|done]. by replace (st + i + s) with (st + (i + s)) by lia.
  - rewrite <- (Z2Nat.id (ceil_div h 32)) by lia. rewrite fold_chunks, Z2Nat.id by lia. unfold g. rewrite fold_guarded by lia.
    replace (seqZ st h) with (Z.add st <$> seqZ 0 h) by (rewrite fmap_add_seqZ; f_equal; lia). by rewrite fold_left_fmap.
Qed.

Lemma rows_acc vec sz t k c ps a :
  (k <? sz) && (t + k * 32 <? row / vec) = true ->
  acc (fold_left (fun a p => row_at vec sz t (get_address (indices p)) p a) ps a) k c =
    fold_left (fun x p => let el := element (get_address (indices p)) ((t + k * 32) * vec + c) in
                          if is_weighted then e_muladd x el (weights p) else e_add x el) ps (acc a k c) /\
  acc_weight (fold_left (fun a p => row_at vec sz t (get_address (indices p)) p a) ps a) k =
    fold_left (fun x p => if sum then x else e_add x (if is_weighted then weights p else e_one)) ps (acc_weight a k).
Proof.
  intros Hk. revert a. induction ps as [|p ps IH]; intros a; [done|]. cbn [fold_left]. destruct (IH (row_at vec sz t (get_address (indices p)) p a)) as [E1 E2].
  rewrite E1, E2. unfold accumulate_row. cbn [acc acc_weight]. rewrite Hk. by destruct sum.
Qed.

(** What is stored for an element is its pooled value. *)
Lemma stored_value vec sz t k c :
  0 <= k < sz -> t + k * 32 < row / vec ->
  (if sum then acc (acc_of vec sz t sample) k c else e_div (acc (acc_of vec sz t sample) k c) (acc_weight (acc_of vec sz t sample) k)) =
    pooled_element sample ((t + k * 32) * vec + c).
Proof.
  intros Hk Ht. rewrite thread_acc_fold.
  destruct (rows_acc vec sz t k c (seqZ (bag sample).1 (bag sample).2) init_acc) as [E1 E2].
  { by rewrite (proj2 (Z.ltb_lt _ _)), (proj2 (Z.ltb_lt _ _)) by lia. }
  rewrite E1, E2. unfold pooled_element. by destruct sum.
Qed.
End Bag.

(** ** A launch *)

Section Launch.
Context (HK : width K = 32 \/ width K = 64) (Hrow : 0 < row).
Local Abbreviation kernel := (FindAndCombine K get_address counts_miss element indices offsets weights num_hot row fixed sum is_weighted).
Local Abbreviation threads := (run_threads K get_address counts_miss element indices offsets weights num_hot row fixed sum is_weighted).
Local Abbreviation vec := (vector_size row).
Local Abbreviation sz := (sz_accum row).

Lemma vector_divides : 0 < vec /\ row = row / vec * vec.
Proof.
  unfold vector_size. rewrite Z.rem_mod_nonneg by lia. pose proof (Z.div_mod row 4 ltac:(lia)). pose proof (Z.div_mod row 2 ltac:(lia)).
  destruct (Z.eqb_spec (row mod 4) 0); [lia|]. destruct (Z.eqb_spec (row mod 4) 2); [|rewrite Z.div_1_r; lia].
  assert (row mod 2 = 0); [|lia]. rewrite H. replace (4 * (row / 4) + row mod 4) with (0 + (2 * (row / 4) + 1) * 2) by lia.
  by rewrite Z.mod_add.
Qed.

Lemma sz_covers t : row < 2 ^ 31 -> 0 <= t -> ceil_div (row / vec - t) 32 <= sz.
Proof.
  intros Hr Ht. destruct vector_divides as [Hv Ev]. unfold sz_accum, DivRoundUp.
  assert (vec <= 4) by (unfold vector_size; repeat case_match; lia). set (q := row / vec) in *.
  assert (0 < q) by nia. rewrite (wrapu_small 32 row) by (unfold in_u; lia).
  rewrite (wrapu_small 32 (row + _)) by (unfold in_u; lia).
  unfold ceil_div. apply Z.div_le_lower_bound; [lia|].
  destruct (Z.le_gt_cases 0 (q - t + 32 - 1)).
  - rewrite Z.quot_div_nonneg by lia. pose proof (Z.mul_div_le (q - t + 32 - 1) 32 ltac:(lia)). nia.
  - assert (Z.quot (q - t + 32 - 1) 32 <= 0); [|nia].
    rewrite <- (Z.opp_involutive (q - t + 32 - 1)), Z.quot_opp_l by lia. pose proof (Z.quot_pos (- (q - t + 32 - 1)) 32 ltac:(lia) ltac:(lia)). lia.
Qed.

(** The stores and the misses of a thread. *)
Definition thread_stores (st : Z * Z) : list (Z * E) :=
  stored row sum vec st.2 st.1 (thread_acc K get_address element indices offsets weights num_hot row fixed sum is_weighted vec sz st.2 st.1).
Definition thread_misses (st : Z * Z) : Z :=
  sumZ (fun i => chunk_misses K counts_miss indices offsets num_hot fixed st.1 i st.2) (chunks offsets num_hot fixed st.1).

Lemma run_threads_spec order st :
  row < 2 ^ 31 -> (forall x, x ∈ order -> 0 <= x.2) ->
  threads vec sz order st = Ok {| c_out := fold_left (fun out w => upd out w.1 w.2) (order ≫= thread_stores) (c_out st);
                                  c_misses := c_misses st + sumZ thread_misses order |}.
Proof.
  intros Hr. revert st. induction order as [|[s t] order IH]; intros st Ht; [simpl; rewrite Z.add_0_r; by destruct st|].
  cbn [run_threads]. unfold FindAndCombine, store_row. rewrite (proj2 (Z.ltb_ge _ _)) by (apply sz_covers; [done|by apply (Ht (s, t)); left]).
  cbn [obind]. rewrite IH by (intros; apply Ht; by right). cbn [c_out c_misses]. rewrite bind_cons, fold_left_app, fold_sumZ.
  do 2 f_equal. unfold thread_misses. simpl. lia.
Qed.

Lemma elem_of_combine_threads batch s t : (s, t) ∈ combine_threads batch <-> 0 <= s < batch /\ 0 <= t < 32.
Proof.
  unfold combine_threads. rewrite list_elem_of_bind. split.
  - intros (s' & Hin & Hs%elem_of_seqZ). apply list_elem_of_bind in Hin as (t' & Hin & Ht%elem_of_seqZ).
    apply list_elem_of_singleton in Hin as [= -> ->]. lia.
  - intros [Hs Ht]. exists s. split; [|apply elem_of_seqZ; lia]. apply list_elem_of_bind. exists t.
    split; [by left|apply elem_of_seqZ; lia].
Qed.

(** Element [e] of bag [s] is stored by one lane, with its pooled value. *)
Lemma elem_of_stores batch order a v :
  order ≡ₚ combine_threads batch -> row < 2 ^ 31 -> batch * row < 2 ^ 31 -> (forall s, 0 <= s < batch -> bag_ok s) ->
  (a, v) ∈ order ≫= thread_stores <-> exists s e, 0 <= s < batch /\ 0 <= e < row /\ a = s * row + e /\ v = pooled_element s e.
Proof.
  intros Ho Hr Hb Hbags. destruct vector_divides as [Hv Ev]. set (q := row / vec) in *. assert (0 < q) by nia.
  assert (Hw : forall s, 0 <= s < batch -> wraps 32 (s * row) = s * row) by (intros s Hs; apply wraps_small; [lia|]; unfold in_s; nia).
  rewrite list_elem_of_bind. split.
  - intros ([s t] & Hin & Hst). rewrite Ho, elem_of_combine_threads in Hst. destruct Hst as [Hs Ht]. unfold thread_stores, stored in Hin. simpl in Hin.
    apply list_elem_of_bind in Hin as (k & Hin & Hk%elem_of_seqZ). apply list_elem_of_bind in Hin as (c & Hin & Hc%elem_of_seqZ).
    apply list_elem_of_singleton in Hin as [= -> ->]. fold q in Hk.
    assert (t + k * 32 < q).
    { unfold ceil_div in Hk. destruct (Z.le_gt_cases 0 (q - t)); [|rewrite Z.quot_small in Hk by lia; lia].
      rewrite Z.quot_div_nonneg in Hk by lia. pose proof (Z.mul_div_le (q - t + 32 - 1) 32 ltac:(lia)). lia. }
    pose proof (sz_covers t Hr ltac:(lia)) as Hsz. fold q in Hsz.
    exists s, ((t + k * 32) * vec + c). rewrite Hw by done. split; [done|]. split; [nia|]. split; [lia|].
    apply stored_value; [done|by apply Hbags|lia|done].
  - intros (s & e & Hs & He & -> & ->).
    pose proof (Z.div_mod e vec ltac:(lia)). pose proof (Z.mod_pos_bound e vec ltac:(lia)).
    set (j := e / vec) in *. assert (0 <= j < q) by nia.
    pose proof (Z.div_mod j 32 ltac:(lia)). pose proof (Z.mod_pos_bound j 32 ltac:(lia)). assert (0 <= j / 32) by (apply Z.div_pos; lia).
    pose proof (ceil_div_bounds (q - j mod 32) 32 ltac:(lia) ltac:(lia)). pose proof (sz_covers (j mod 32) Hr ltac:(lia)) as Hsz. fold q in Hsz.
    exists (s, j mod 32). split; [|rewrite Ho, elem_of_combine_threads; lia].
    unfold thread_stores, stored. simpl. apply list_elem_of_bind. exists (j / 32). split; [|apply elem_of_seqZ; fold q; lia].
    apply list_elem_of_bind. exists (e mod vec). split; [|apply elem_of_seqZ; lia].
    apply list_elem_of_singleton. rewrite stored_value; [|done|by apply Hbags|nia|fold q; lia].
    rewrite Hw by done. f_equal; [nia|]. f_equal. nia.
Qed.

(** The misses of a bag, counted by the 32 lanes. *)
Lemma bag_lanes_misses s : bag_ok s -> sumZ (fun t => thread_misses (s, t)) (seqZ 0 32) = bag_misses s + padding_misses s.
Proof.
  intros Hbag. destruct (bag_ok_start s HK Hbag) as (Eh & Es & _). destruct Hbag as (_ & Hh & _).
  unfold thread_misses, bag_misses, padding_misses. cbn [fst snd]. set (h := (bag s).2) in *. set (b := (bag s).1) in *.
  pose proof (ceil_div_bounds h 32 ltac:(lia) ltac:(lia)). pose proof (ceil_div_nonneg h 32 ltac:(lia) ltac:(lia)).
  rewrite (sumZ_exchange (fun t i => chunk_misses K counts_miss indices offsets num_hot fixed s i t)). unfold chunks. rewrite Eh.
  set (g := fun p => if counts_miss (if p <? h then indices (b + p) else 0) then 1 else 0).
  transitivity (sumZ g (seqZ 0 (ceil_div h 32 * 32))).
  - rewrite <- (Z.add_0_l (sumZ g _)), <- fold_sumZ. rewrite <- (Z2Nat.id (ceil_div h 32)) by lia. rewrite <- (fold_chunks _ 32) by lia.
    rewrite <- (Z.add_0_l (sumZ _ _)), <- fold_sumZ. apply fold_left_ext. intros n i. rewrite fold_sumZ. f_equal.
    apply sumZ_ext. intros t _. unfold g, chunk_misses, lane_key. rewrite Eh, Es. by replace (b + i + t) with (b + (i + t)) by lia.
  - replace (ceil_div h 32 * 32) with (h + (ceil_div h 32 * 32 - h)) at 1 by lia. rewrite seqZ_app, sumZ_app by lia. f_equal.
    + replace (seqZ b h) with (Z.add b <$> seqZ 0 h) by (rewrite fmap_add_seqZ; f_equal; lia).
      rewrite <- sumZ_count, sumZ_fmap. apply sumZ_ext. intros p Hp%elem_of_seqZ. unfold g. by rewrite (proj2 (Z.ltb_lt _ _)) by lia.
    + rewrite (sumZ_ext g (fun _ => if counts_miss 0 then 1 else 0)).
      * rewrite sumZ_const, length_seqZ. destruct (counts_miss 0); lia.
      * intros p Hp%elem_of_seqZ. unfold g. by rewrite (proj2 (Z.ltb_ge _ _)) by lia.
Qed.

Lemma sz_positive : row < 2 ^ 31 -> 1 <= sz.
Proof.
  intros Hr. destruct vector_divides as [Hv Ev]. assert (0 < row / vec) by nia.
  pose proof (sz_covers 0 Hr ltac:(lia)). pose proof (ceil_div_bounds (row / vec - 0) 32 ltac:(lia) ltac:(lia)). lia.
Qed.

Lemma combine_launch batch order st :
  order ≡ₚ combine_threads batch -> 0 < batch -> row < 2 ^ 31 -> batch * row < 2 ^ 31 -> sz <= 8 ->
  (forall s, 0 <= s < batch -> bag_ok s) ->
  exists st', callFindAndCombineKernel K get_address counts_miss element indices offsets weights num_hot row fixed sum is_weighted batch order st = Ok st' /\
    (forall s e, 0 <= s < batch -> 0 <= e < row -> c_out st' (s * row + e) = pooled_element s e) /\
    (forall a, ~ (0 <= a < batch * row) -> c_out st' a = c_out st a) /\
    c_misses st' = c_misses st + sumZ (fun s => bag_misses s + padding_misses s) (seqZ 0 batch).
Proof.
  intros Ho Hb Hr Hbr Hsz Hbags. unfold callFindAndCombineKernel. pose proof (sz_positive Hr).
  rewrite (proj2 (Z.leb_le _ _)), (proj2 (Z.leb_le _ _)), (proj2 (Z.ltb_lt _ _)) by lia. simpl.
  rewrite run_threads_spec; [|done|]. 2:{ intros [s t] Hin. rewrite Ho, elem_of_combine_threads in Hin. simpl. lia. }
  eexists. split; [done|]. cbn [c_out c_misses].
  pose proof (fun a v => elem_of_stores batch order a v Ho Hr Hbr Hbags) as Hst. set (l := order ≫= thread_stores) in *. split_and!.
  - intros s e Hs He. assert (s * row + e ∈ fst <$> l) as Hin.
    { apply list_elem_of_fmap. exists (s * row + e, pooled_element s e). split; [done|]. apply Hst. by exists s, e. }
    destruct (fold_upd_in fst snd l (c_out st) _ Hin) as ([a v] & Hav & Ea & ->). simpl in *. subst a.
    apply Hst in Hav as (s' & e' & Hs' & He' & E1 & ->). assert (s = s' /\ e = e') as [-> ->]; [|done].
    assert (s = s') by nia. subst s'. split; [done|lia].
  - intros a Ha. apply fold_upd_notin. intros ([a' v] & -> & Hav)%list_elem_of_fmap.
    apply Hst in Hav as (s & e & Hs & He & E1 & _). simpl in Ha. apply Ha. nia.
  - f_equal. rewrite (sumZ_perm _ _ _ Ho). unfold combine_threads. rewrite sumZ_bind. apply sumZ_ext.
    intros s Hs%elem_of_seqZ. rewrite <- bag_lanes_misses by (apply Hbags; lia). rewrite sumZ_bind. apply sumZ_ext.
    intros t _. unfold sumZ at 1. simpl. lia.
Qed.
End Launch.
End Reference.

(** ** The theorem *)

Section Correct.
Context {E : Type} `{!ElementOps E} (K : int_type).
Variables (get_address : Z -> Z) (counts_miss : Z -> bool) (element : Z -> Z -> E) (row sizeof_value : Z).

(** The bags of a call and how many there are. *)
Definition is_fixed (hot_type : SparseType_t) : bool := bool_decide (hot_type = Fixed).
Definition num_bags (hot_type : SparseType_t) (num_keys num_offsets fixed_hotness : Z) : Z :=
  if is_fixed hot_type then num_keys / fixed_hotness else num_offsets.

Record combine_ok (num_keys : Z) (hot_type : SparseType_t) (num_offsets : Z) (offsets : option (Z -> Z)) (fixed_hotness : Z)
    (pooling : PoolingType_t) (weights : option (Z -> E)) : Prop := {
  cb_key : width K = 32 \/ width K = 64;
  cb_row : 0 < row < 2 ^ 31 /\ 0 < sizeof_value /\ row * sizeof_value < 2 ^ 64 /\ sz_accum row <= 8;
  cb_hot : hot_type <> COO /\ pooling <> Concatenate;
  cb_fixed : hot_type = Fixed -> 0 < fixed_hotness < 2 ^ 31 /\ (fixed_hotness | num_keys);
  cb_offsets : hot_type = CSR -> is_Some offsets;
  cb_weights : weighted pooling = true -> is_Some weights;
  cb_batch : let batch := num_bags hot_type num_keys num_offsets fixed_hotness in 0 < batch /\ batch * row < 2 ^ 31;
  cb_bags s : 0 <= s < num_bags hot_type num_keys num_offsets fixed_hotness ->
    bag_ok K (default (fun _ => 0) offsets) fixed_hotness (is_fixed hot_type) s
}.

Lemma find_and_combine_lemma (num_keys : Z) (keys : Z -> Z) (hot_type : SparseType_t) (num_offsets : Z) (offsets : option (Z -> Z))
    (fixed_hotness : Z) (pooling : PoolingType_t) (weights : option (Z -> E)) (order : Z -> list (Z * Z)) (st : combine_state E) :
  combine_ok num_keys hot_type num_offsets offsets fixed_hotness pooling weights ->
  let batch := num_bags hot_type num_keys num_offsets fixed_hotness in
  let offs := default (fun _ => 0) offsets in
  order batch ≡ₚ combine_threads batch ->
  exists st', find_and_combine K get_address counts_miss element (row * sizeof_value) sizeof_value true
      num_keys keys hot_type num_offsets offsets fixed_hotness pooling weights (row * sizeof_value) order st = Ok st' /\
    (forall s e, 0 <= s < batch -> 0 <= e < row -> c_out st' (s * row + e) =
       pooled_element get_address element keys offs (default (fun _ => e_zero) weights) fixed_hotness (is_fixed hot_type)
         (negb (mean pooling)) (weighted pooling) s e) /\
    (forall a, ~ (0 <= a < batch * row) -> c_out st' a = c_out st a) /\
    c_misses st' = c_misses st + sumZ (fun s => bag_misses counts_miss keys offs fixed_hotness (is_fixed hot_type) s +
                                              padding_misses counts_miss offs fixed_hotness (is_fixed hot_type) s) (seqZ 0 batch).
Proof.
  intros [HK (Hr & Hsv & Hr64 & Hsz) [Hcoo Hcat] Hfx Hoff Hw [Hb Hbr] Hbags] batch offs Ho. unfold find_and_combine.
  rewrite Z.eqb_refl, bool_decide_eq_false_2 by done.
  assert (wraps 32 (wrapu 64 (row * sizeof_value) / sizeof_value) = row) as ->.
  { rewrite (wrapu_small 64) by (unfold in_u; nia). rewrite Z.div_mul by lia. apply wraps_small; [lia|]. unfold in_s. lia. }
  replace (negb (weighted pooling) || bool_decide (is_Some weights)) with true.
  2:{ destruct (weighted pooling); [|done]. by rewrite bool_decide_eq_true_2 by (by apply Hw). }
  assert (Hb32 : wrapu 32 batch = batch) by (apply wrapu_small; unfold in_u, batch; nia).
  destruct hot_type; [| |done].
  - destruct (Hfx eq_refl) as [Hh [q Hq]]. rewrite (proj2 (Z.eqb_neq _ _)) by lia.
    assert (batch = q) as Eq by (unfold batch, num_bags; simpl; rewrite Hq; by rewrite Z.div_mul by lia).
    rewrite Hq, Z.rem_mul, Z.quot_mul by lia. simpl. rewrite <- Eq, Hb32, (wraps_small 32 fixed_hotness) by (unfold in_s; lia).
    apply combine_launch; done || lia.
  - rewrite bool_decide_eq_true_2 by (by apply Hoff). simpl. change num_offsets with batch. rewrite Hb32.
    eapply (combine_launch K get_address counts_miss element keys offs _ (wraps 32 fixed_hotness) row false) in Ho as (st' & E1 & E2); [|done || lia..|].
    + exists st'. split; [exact E1|]. exact E2.
    + intros s Hs. destruct (Hbags s Hs) as (B1 & B2 & B3 & B4 & _). split_and!; done || apply B2.
Qed.

(** C24. Pooled lookups on the device compute the pooled rows, for calls that the kernel takes
    ([combine_ok]: at least one bag, rows of at most 8 accumulators per lane, no Concatenate):
    for fixed hotness, and for offsets where [num_offsets] is the number of bags and
    [offsets[num_offsets]] the end of the last one (the interface documents the number of
    values in [offsets], which is one more), for sums and means, weighted or not, and whatever
    the order in which the threads run, every element of the row of a bag is the fold of the rows of its keys in order, each
    taken from the cache or the table, and nothing else is written. The miss counter grows by
    the misses of the keys and, for every lane beyond the end of a bag, by the miss of key 0. *)
Theorem find_and_combine_correct (num_keys : Z) (keys : Z -> Z) (hot_type : SparseType_t) (num_offsets : Z) (offsets : option (Z -> Z))
    (fixed_hotness : Z) (pooling : PoolingType_t) (weights : option (Z -> E)) (order : Z -> list (Z * Z)) (st : combine_state E) :
  combine_ok num_keys hot_type num_offsets offsets fixed_hotness pooling weights ->
  let batch := num_bags hot_type num_keys num_offsets fixed_hotness in
  let offs := default (fun _ => 0) offsets in
  order batch ≡ₚ combine_threads batch ->
  exists st', find_and_combine K get_address counts_miss element (row * sizeof_value) sizeof_value true
      num_keys keys hot_type num_offsets offsets fixed_hotness pooling weights (row * sizeof_value) order st = Ok st' /\
    (forall s e, 0 <= s < batch -> 0 <= e < row -> c_out st' (s * row + e) =
       pooled_element get_address element keys offs (default (fun _ => e_zero) weights) fixed_hotness (is_fixed hot_type)
         (negb (mean pooling)) (weighted pooling) s e) /\
    (forall a, ~ (0 <= a < batch * row) -> c_out st' a = c_out st a) /\
    c_misses st' = c_misses st + sumZ (fun s => bag_misses counts_miss keys offs fixed_hotness (is_fixed hot_type) s +
                                              padding_misses counts_miss offs fixed_hotness (is_fixed hot_type) s) (seqZ 0 batch).
Proof. apply find_and_combine_lemma. Qed.
End Correct.

(** ** Example: rows of integers *)

#[local] Instance Z_elements : ElementOps Z :=
  {| e_zero := 0; e_one := 1; e_add := Z.add; e_muladd := fun a e w => a + e * w; e_div := Z.div |}.
Definition demo_combine :=
  find_and_combine int64_t (fun k => 100 * k) (fun k => bool_decide (k = 0 \/ k = 3)) Z.add (2 * 4) 4 true
    4 (fun p => p + 1) Fixed 0 None 2 Sum None (2 * 4) (fun b => reverse (combine_threads b)) {| c_out := fun _ => -1; c_misses := 0 |}.

Lemma demo_combine_ok : combine_ok (E := Z) int64_t 2 4 4 Fixed 0 None 2 Sum None.
Proof.
  split; [by right|split_and!; by vm_compute|done|split; [lia|by exists 2]|done|done|by vm_compute|].
  intros s Hs. assert (0 <= s < 2) by done. unfold bag_ok, bag, is_fixed, in_range, in_s. simpl. lia.
Qed.

(** Two bags of two keys: the last element of the second one is 301 + 401; key 3 misses, and so
    do the 30 idle lanes of each of the two warps. *)
Lemma find_and_combine_correct_witness :
  exists st', demo_combine = Ok st' /\ c_out st' 3 = 702 /\ c_out st' 4 = -1 /\ c_misses st' = 61.
Proof.
  destruct (find_and_combine_correct int64_t (fun k => 100 * k) (fun k => bool_decide (k = 0 \/ k = 3)) Z.add 2 4 4 (fun p => p + 1)
              Fixed 0 None 2 Sum None (fun b => reverse (combine_threads b)) {| c_out := fun _ => -1; c_misses := 0 |} demo_combine_ok)
    as (st' & E1 & E2 & E3 & E4); [apply reverse_Permutation|].
  exists st'. split; [exact E1|]. split; [|split].
  - etrans; [apply (E2 1 1); vm_compute; intuition congruence|]. vm_compute. reflexivity.
  - rewrite E3 by (vm_compute; intuition congruence). reflexivity.
  - rewrite E4. vm_compute. reflexivity.
Defined.
