(* ===== verification/Dedup.v ===== *)
(** * De-duplication of keys on the device: [cuda_ops/cuda_utils.cuh]

    [Deduper::dedup] sorts the keys with their positions, encodes the runs and sums their
    lengths; when runs are limited to [MAX_RUN_SIZE] it splits long ones into chunks, and
    records for every chunk the key it belongs to. The primitives of CUB are parameters with
    the laws of [DeviceSelect.CubLaws]; the writes of a kernel happen in any order. The result
    is described by a list of chunks of positions for every key ([dedup_ok]). *)
From Stdlib Require Import Sorted.
From S2P Require Import Prelude BitOps EcHash SetAssoc CacheQuery DataTypes Pooling DeviceModify DeviceSelect DeviceOps FindAndCombine.

(** ** Buffers of indices in device memory *)

Inductive buffer := UniqueOut | CountsOut | LocMap | Inverse | Offsets | GradMapping | Location | Sorted | SplitCount | TmpOffset | SplitOffset.
#[export] Instance buffer_eq_dec : EqDecision buffer.
Proof. solve_decision. Defined.
Definition store : Type := buffer -> Z -> Z.

Section Stores.
Context {B : Type} `{!EqDecision B}.
(** The list [l] at the start of buffer [b]. *)
Definition put (b : B) (l : list Z) (st : B -> Z -> Z) : B -> Z -> Z := fun b' =>
  if decide (b' = b) then fun i => match (if i <? 0 then None else l !! Z.to_nat i) with Some v => v | None => st b i end else st b'.
Definition read (b : B) (n : Z) (st : B -> Z -> Z) : list Z := st b <$> seqZ 0 n.
(** The writes of a kernel to a buffer. *)
Definition write_all {A} (ws : list (Z * A)) (f : Z -> A) : Z -> A := fold_left (fun f w => upd f w.1 w.2) ws f.
Definition put_writes (b : B) (ws : list (Z * Z)) (st : B -> Z -> Z) : B -> Z -> Z := fun b' =>
  if decide (b' = b) then write_all ws (st b) else st b'.
End Stores.

(** The indices below [n] that lane [t] of a warp visits. *)
Definition lane_indices (t n : Z) : list Z := (fun j => t + 32 * j) <$> seqZ 0 (ceil_div (n - t) 32).

Section Deduper.
Context (IndexT : int_type) (MAX_RUN_SIZE : Z).
Context (sort_pairs : list (Z * Z) -> list (Z * Z)) (encode : list Z -> list (Z * Z)) (exclusive_sum : list Z -> list Z).
(** The order in which the writes of a kernel happen. *)
Context (write_order : list (Z * Z) -> list (Z * Z)).

(** ** The kernels *)

Definition ComputeSplitCounts (key_counts : Z -> Z) (num_unique_keys : Z) : list (Z * Z) :=
  (fun key_id => (key_id, Z.quot (conv IndexT (key_counts key_id + MAX_RUN_SIZE - 1)) MAX_RUN_SIZE)) <$> seqZ 0 num_unique_keys.

(** The writes to [output_location_mapping] and to [split_key_offsets]; every lane of the last
    warp writes the end of the last chunk. *)
Definition location_writes (chunk_counts chunk_offsets : Z -> Z) (num_unique_keys : Z) : list (Z * Z) :=
  key_id ← seqZ 0 num_unique_keys; t ← seqZ 0 32; i ← lane_indices t (chunk_counts key_id); [(chunk_offsets key_id + i, key_id)].
Definition split_offset_writes (chunk_counts chunk_offsets key_offsets : Z -> Z) (num_unique_keys : Z) : list (Z * Z) :=
  key_id ← seqZ 0 num_unique_keys; t ← seqZ 0 32;
  (i ← lane_indices t (chunk_counts key_id); [(chunk_offsets key_id + i, conv IndexT (key_offsets key_id + i * MAX_RUN_SIZE))]) ++
  (if key_id + 1 =? num_unique_keys then [(chunk_offsets key_id + chunk_counts key_id, key_offsets (key_id + 1))] else []).

(** A launch of no block is an error of the runtime. *)
Definition launch_blocks (num per_block : Z) : outcome unit :=
  check! negb (wrapu 32 ((num + per_block - 1) / per_block) =? 0) as "invalid configuration argument" in Ok tt.

(** ** [Deduper::dedup] *)

(** [h_location_buffer_]. *)
Context (h_location : Z -> Z).

(** Sorting and encoding; the runs are also left in the buffers. *)
Definition dedup_runs (keys : Z -> Z) (num_keys : Z) (unique_out counts_out inverse : buffer) (st : store) : list (Z * Z) * store :=
  let st := put Location (h_location <$> seqZ 0 num_keys) st in
  let sorted := sort_pairs (zip (keys <$> seqZ 0 num_keys) (read Location num_keys st)) in
  let st := put inverse sorted.*2 (put Sorted sorted.*1 st) in
  let st := put counts_out (replicate (Z.to_nat num_keys) 0) st in
  let runs := encode (read Sorted num_keys st) in
  (runs, put counts_out runs.*2 (put unique_out runs.*1 st)).

Definition dedup (keys : Z -> Z) (num_keys : Z) (unique_out counts_out loc_map_out inverse offsets : buffer) (st : store)
  : outcome (store * (Z * Z)) :=
  let '(runs, st) := dedup_runs keys num_keys unique_out counts_out inverse st in
  let num_unique := Z.of_nat (length runs) in
  let sums := exclusive_sum (read counts_out (num_unique + 1) st) in
  if MAX_RUN_SIZE =? -1 then Ok (put offsets sums st, (num_unique, num_unique))
  else
    let st := put TmpOffset sums st in
    let! _ := launch_blocks num_unique 128 in
    let st := put_writes SplitCount (write_order (ComputeSplitCounts (st counts_out) num_unique)) st in
    let st := put SplitOffset (exclusive_sum (read SplitCount (num_unique + 1) st)) st in
    let num_runs := st SplitOffset num_unique in
    let! _ := launch_blocks num_unique 4 in
    let offset_writes := split_offset_writes (st SplitCount) (st SplitOffset) (st TmpOffset) num_unique in
    let st := put_writes loc_map_out (write_order (location_writes (st SplitCount) (st SplitOffset) num_unique)) st in
    Ok (put_writes offsets (write_order offset_writes) st, (num_unique, num_runs)).
End Deduper.

(** ** Buffers *)

Lemma launch_blocks_ok num b : 0 < num < 2 ^ 31 -> 0 < b < 2 ^ 31 -> launch_blocks num b = Ok tt.
Proof.
  intros Hn Hb. unfold launch_blocks. assert (0 < (num + b - 1) / b) by (apply Z.div_str_pos; lia).
  assert ((num + b - 1) / b <= num) by (apply Z.div_le_upper_bound; [lia|nia]).
  rewrite wrapu_small by (unfold in_u; lia). by rewrite (proj2 (Z.eqb_neq _ _)) by lia.
Qed.

Section StoreLemmas.
Context {B : Type} `{!EqDecision B}.
Implicit Types (b : B) (st : B -> Z -> Z).

Lemma put_eq b l st i v : l !! i = Some v -> put b l st b (Z.of_nat i) = v.
Proof.
  intros H. unfold put. case_decide; [|done]. rewrite (proj2 (Z.ltb_ge _ _)) by lia. by rewrite Nat2Z.id, H.
Qed.
Lemma put_beyond b l st i : Z.of_nat (length l) <= i -> put b l st b i = st b i.
Proof.
  intros H. unfold put. case_decide; [|done]. rewrite (proj2 (Z.ltb_ge _ _)) by lia. by rewrite lookup_ge_None_2 by lia.
Qed.
Lemma put_ne b b' l st : b' <> b -> put b l st b' = st b'.
Proof. intros H. unfold put. by case_decide. Qed.

Lemma read_put b l st n : n = Z.of_nat (length l) -> read b n (put b l st) = l.
Proof.
  intros ->. unfold read. apply list_eq. intros i. rewrite list_lookup_fmap. destruct (decide (i < length l)%nat) as [Hi|Hi].
  - rewrite lookup_seqZ_lt by lia. simpl. destruct (lookup_lt_is_Some_2 l i Hi) as [v Hv]. rewrite Hv. f_equal. rewrite Z.add_0_l. by apply put_eq.
  - rewrite lookup_seqZ_ge by lia. by rewrite lookup_ge_None_2 by lia.
Qed.

(** One element more than was put: the list and whatever follows it. *)
Lemma read_put_succ b l st : read b (Z.of_nat (length l) + 1) (put b l st) = l ++ [st b (Z.of_nat (length l))].
Proof.
  unfold read. rewrite seqZ_app, fmap_app by lia. fold (read b (Z.of_nat (length l)) (put b l st)). rewrite read_put by done.
  f_equal. rewrite Z.add_0_l. change (seqZ (Z.of_nat (length l)) 1) with [Z.of_nat (length l)]. simpl. by rewrite put_beyond by lia.
Qed.

Lemma read_put_ne b b' l st m : b' <> b -> read b' m (put b l st) = read b' m st.
Proof. intros H. unfold read. by rewrite put_ne. Qed.
Lemma put_writes_eq b ws st : put_writes b ws st b = write_all ws (st b).
Proof. unfold put_writes. by case_decide. Qed.
Lemma put_writes_ne b b' ws st : b' <> b -> put_writes b ws st b' = st b'.
Proof. intros H. unfold put_writes. by case_decide. Qed.
End StoreLemmas.

(** Writes that agree wherever they meet have the same effect in any order. *)
Lemma write_all_other {A} (ws : list (Z * A)) f i : i ∉ ws.*1 -> write_all ws f i = f i.
Proof.
  unfold write_all. revert f. induction ws as [|w ws IH]; intros f Hi; simpl; [done|]. rewrite fmap_cons in Hi.
  apply not_elem_of_cons in Hi as [Hi Hws]. rewrite IH by done. by apply upd_ne.
Qed.
Lemma write_all_elem {A} (ws : list (Z * A)) f i v :
  (i, v) ∈ ws -> (forall v', (i, v') ∈ ws -> v' = v) -> write_all ws f i = v.
Proof.
  unfold write_all. revert f. induction ws as [|w ws IH]; intros f Hi Hv; simpl; [set_solver|].
  destruct (decide (i ∈ ws.*1)) as [Hin|Hin].
  - apply list_elem_of_fmap in Hin as ([i' v'] & -> & Hin). simpl in *. apply IH; [|intros; apply Hv; by right].
    by rewrite <- (Hv v' ltac:(by right)).
  - rewrite (write_all_other ws _ i Hin : fold_left _ _ _ _ = _). apply elem_of_cons in Hi as [<-|Hi]; [apply upd_eq|].
    destruct Hin. apply list_elem_of_fmap. by exists (i, v).
Qed.

Lemma elem_of_lane_indices n i t : 0 <= t -> i ∈ lane_indices t n <-> t <= i < n /\ (i - t) mod 32 = 0.
Proof.
  intros Ht. unfold lane_indices. rewrite list_elem_of_fmap. split.
  - intros (j & -> & Hj%elem_of_seqZ). replace (t + 32 * j - t) with (j * 32) by lia. rewrite Z.mod_mul by lia. split; [|done].
    unfold ceil_div in Hj. destruct (Z.le_gt_cases 0 (n - t + 32 - 1)).
    + rewrite Z.quot_div_nonneg in Hj by lia. pose proof (Z.mul_div_le (n - t + 32 - 1) 32 ltac:(lia)). nia.
    + pose proof (Z.quot_pos (- (n - t + 32 - 1)) 32 ltac:(lia) ltac:(lia)). rewrite Z.quot_opp_l in H0 by lia. lia.
  - intros [Hi Hm]. exists ((i - t) / 32). pose proof (Z.div_mod (i - t) 32 ltac:(lia)). split; [lia|].
    apply elem_of_seqZ. pose proof (ceil_div_bounds (n - t) 32 ltac:(lia) ltac:(lia)). lia.
Qed.
(** The lanes together visit every index. *)
Lemma lanes_cover n i : (exists t, t ∈ seqZ 0 32 /\ i ∈ lane_indices t n) <-> 0 <= i < n.
Proof.
  split.
  - intros (t & Ht%elem_of_seqZ & Hi). apply elem_of_lane_indices in Hi; lia.
  - intros Hi. exists (i mod 32). pose proof (Z.mod_pos_bound i 32 ltac:(lia)). split; [apply elem_of_seqZ; lia|].
    apply elem_of_lane_indices; [lia|]. pose proof (Z.mod_le i 32 ltac:(lia) ltac:(lia)). split; [lia|].
    rewrite Zminus_mod_idemp_r, Z.sub_diag. done.
Qed.

(** ** Runs of equal keys *)

Lemma expand_lookup_inv runs p v :
  Forall (fun r => 0 < r.2) runs -> expand runs !! p = Some v ->
  exists i c j, runs !! i = Some (v, c) /\ (j < Z.to_nat c)%nat /\ p = (run_offset i runs + j)%nat.
Proof.
  revert p. induction runs as [| [w c] runs IH]; intros p Hpos Hp; [done|]. apply Forall_cons in Hpos as [Hc Hpos].
  change (expand ((w, c) :: runs)) with (replicate (Z.to_nat c) w ++ expand runs) in Hp.
  apply lookup_app_Some in Hp as [Hp|[Hge Hp]].
  - apply lookup_replicate in Hp as [-> Hp]. by exists 0%nat, c, p.
  - rewrite length_replicate in *. destruct (IH _ Hpos Hp) as (i & c' & j & Hi & Hj & E). exists (S i), c', j. split_and!; [done|done|].
    change (run_offset (S i) ((w, c) :: runs)) with (length (replicate (Z.to_nat c) w ++ expand (take i runs))).
    rewrite length_app, length_replicate. unfold run_offset in E. lia.
Qed.

Lemma length_le_expand runs : Forall (fun r => 0 < r.2) runs -> (length runs <= length (expand runs))%nat.
Proof.
  induction 1 as [|r l Hr _ IH]; [done|]. change (expand (r :: l)) with (replicate (Z.to_nat r.2) r.1 ++ expand l).
  rewrite length_app, length_replicate. cbn [length]. lia.
Qed.
Lemma run_offset_all runs : run_offset (length runs) runs = length (expand runs).
Proof. unfold run_offset. by rewrite firstn_all. Qed.

Section Positions.
Context (sort_pairs : list (Z * Z) -> list (Z * Z)) (encode : list Z -> list (Z * Z)) (exclusive_sum : list Z -> list Z).
Context {limit : Z} {Hcub : CubLaws sort_pairs encode exclusive_sum limit}.
Context (keys : Z -> Z) (n : Z).

(** The positions of a key. *)
Definition positions (k : Z) : list Z := filter (fun p => keys p = k) (seqZ 0 n).

Local Abbreviation sorted := (sort_pairs (zip (keys <$> seqZ 0 n) (seqZ 0 n))).
Local Abbreviation runs := (encode sorted.*1).
(** The part of the sorted positions that belongs to run [i]. *)
Definition segment (i : nat) (c : Z) : list Z := take (Z.to_nat c) (drop (run_offset i runs) sorted.*2).

Lemma runs_positive : Forall (fun r => 0 < r.2) runs.
Proof. apply (encode_pos _ _ _ (limit := limit)). Qed.

Lemma runs_expand : expand runs = sorted.*1.
Proof. apply (encode_expand _ _ _ (limit := limit)). Qed.

Lemma sorted_perm : sorted ≡ₚ zip (keys <$> seqZ 0 n) (seqZ 0 n).
Proof. apply (sort_pairs_perm _ _ _ (limit := limit)). Qed.

Lemma length_sorted : length sorted = Z.to_nat n.
Proof. rewrite sorted_perm, length_zip_with, length_fmap, length_seqZ. lia. Qed.

Lemma sorted_entry j k p : sorted !! j = Some (k, p) -> 0 <= p < n /\ k = keys p.
Proof.
  intros H%list_elem_of_lookup_2. rewrite sorted_perm in H. apply list_elem_of_lookup in H as [m Hm].
  apply lookup_zip_with_Some in Hm as (x & y & [= -> ->] & Hx & Hy). apply list_lookup_fmap_Some in Hx as (y' & -> & Hy').
  rewrite Hy in Hy'. injection Hy' as <-. apply list_elem_of_lookup_2, elem_of_seqZ in Hy. split; [lia|done].
Qed.

Lemma sorted_index p : 0 <= p < n -> exists j, sorted !! j = Some (keys p, p).
Proof.
  intros Hp. apply list_elem_of_lookup. rewrite sorted_perm. apply list_elem_of_lookup. exists (Z.to_nat p).
  apply lookup_zip_with_Some. exists (keys p), p. split; [done|].
  rewrite list_lookup_fmap, lookup_seqZ_lt by lia. split; simpl; repeat f_equal; lia.
Qed.

Lemma runs_keys_ascending : StronglySorted Z.lt runs.*1.
Proof.
  apply runs_ascending; [apply runs_positive|apply (encode_adjacent _ _ _ (limit := limit))|].
  rewrite runs_expand. apply (sort_pairs_sorted _ _ _ (limit := limit)).
Qed.
Lemma runs_keys_NoDup : NoDup runs.*1.
Proof. apply ascending_NoDup, runs_keys_ascending. Qed.

(** The runs are those of the keys that occur. *)
Lemma runs_keys k : k ∈ runs.*1 <-> exists p, 0 <= p < n /\ keys p = k.
Proof.
  split.
  - intros (i & Hi)%list_elem_of_lookup. apply list_lookup_fmap_Some in Hi as ([k' c] & -> & Hi).
    pose proof (Forall_lookup_1 _ _ _ _ runs_positive Hi) as Hc. simpl in *.
    pose proof (expand_lookup _ _ _ _ 0%nat Hi ltac:(lia)) as E. rewrite runs_expand in E.
    apply list_lookup_fmap_Some in E as ([k2 p] & -> & E). destruct (sorted_entry _ _ _ E) as [Hp ->]. eauto.
  - intros (p & Hp & <-). destruct (sorted_index p Hp) as [j Hj].
    assert (E : expand runs !! j = Some (keys p)) by (rewrite runs_expand, list_lookup_fmap, Hj; done).
    destruct (expand_lookup_inv _ _ _ runs_positive E) as (i & c & _ & Hi & _). apply list_elem_of_fmap. exists (keys p, c).
    split; [done|]. by apply list_elem_of_lookup_2 in Hi.
Qed.

Lemma length_segment i k c : runs !! i = Some (k, c) -> length (segment i c) = Z.to_nat c.
Proof.
  intros Hi. assert (E : length sorted.*2 = length (expand runs)) by (rewrite runs_expand, !length_fmap; done).
  unfold segment. rewrite length_take, length_drop, E. pose proof (run_offset_le runs (S i)) as H. rewrite (run_offset_succ _ _ _ _ Hi) in H. lia.
Qed.

(** A run holds the positions of its key. *)
Lemma segment_positions i k c : runs !! i = Some (k, c) -> segment i c ≡ₚ positions k.
Proof.
  intros Hi. assert (Hnd : NoDup sorted.*2).
  { rewrite sorted_perm, snd_zip by (by rewrite length_fmap). apply NoDup_seqZ. }
  apply NoDup_Permutation.
  - unfold segment. eapply sublist_NoDup; [|apply sublist_take]. eapply sublist_NoDup; [exact Hnd|apply sublist_drop].
  - apply NoDup_filter, NoDup_seqZ.
  - intros p. unfold positions. rewrite list_elem_of_filter, elem_of_seqZ. split.
    + intros [j Hj]%list_elem_of_lookup. apply lookup_take_Some in Hj as [Hj Hjc]. rewrite lookup_drop in Hj.
      apply list_lookup_fmap_Some in Hj as ([k' p'] & -> & Hj). destruct (sorted_entry _ _ _ Hj) as [Hp ->]. simpl.
      pose proof (expand_lookup _ _ _ _ j Hi Hjc) as E. rewrite runs_expand, list_lookup_fmap, Hj in E. injection E as E. split; [done|lia].
    + intros [Hk Hp]. destruct (sorted_index p ltac:(lia)) as [j Hj]. rewrite Hk in Hj.
      assert (E : expand runs !! j = Some k) by (rewrite runs_expand, list_lookup_fmap, Hj; done).
      destruct (expand_lookup_inv _ _ _ runs_positive E) as (i' & c' & m & Hi' & Hm & ->).
      assert (i' = i) as ->.
      { apply (NoDup_lookup _ _ _ k runs_keys_NoDup); rewrite list_lookup_fmap; [by rewrite Hi'|by rewrite Hi]. }
      rewrite Hi in Hi'. injection Hi' as <-. apply list_elem_of_lookup. exists m. apply lookup_take_Some. split; [|done].
      by rewrite lookup_drop, list_lookup_fmap, Hj.
Qed.

(** The segments in terms of the buffer of sorted positions. *)
Lemma segment_lookup i k c j : runs !! i = Some (k, c) -> (j < Z.to_nat c)%nat ->
  segment i c !! j = sorted.*2 !! (run_offset i runs + j)%nat.
Proof. intros Hi Hj. unfold segment. rewrite lookup_take_lt by done. apply lookup_drop. Qed.
End Positions.

(** ** Chunks *)

(** The chunks of at most [s] elements of a list. *)
Definition chunks_of {A} (s : nat) (l : list A) : list (list A) :=
  (fun j => take s (drop (j * s) l)) <$> seq 0 ((length l + s - 1) / s).

Lemma join_chunks {A} (s m : nat) (l : list A) : mjoin ((fun j => take s (drop (j * s) l)) <$> seq 0 m) = take (m * s) l.
Proof.
  induction m as [|m IH]; [done|]. rewrite seq_S, fmap_app, join_app, IH. simpl. rewrite app_nil_r.
  rewrite take_take_drop. f_equal. lia.
Qed.
Lemma chunks_of_join {A} (s : nat) (l : list A) : (0 < s)%nat -> mjoin (chunks_of s l) = l.
Proof.
  intros Hs. unfold chunks_of. rewrite join_chunks. apply take_ge. pose proof (Nat.div_mod_eq (length l + s - 1) s).
  pose proof (Nat.mod_upper_bound (length l + s - 1) s). lia.
Qed.
Lemma chunks_of_lookup {A} (s : nat) (l : list A) j x :
  (0 < s)%nat -> chunks_of s l !! j = Some x ->
  (j * s < length l)%nat /\ x = take s (drop (j * s) l) /\ length x = Nat.min s (length l - j * s).
Proof.
  intros Hs. unfold chunks_of. rewrite list_lookup_fmap. destruct (seq 0 _ !! j) as [j'|] eqn:E; [|done]. intros [= <-].
  apply lookup_seq in E as [-> Hj]. simpl. rewrite length_take, length_drop. split_and!; [|done|done].
  pose proof (Nat.div_mod_eq (length l + s - 1) s). nia.
Qed.
Lemma length_chunks_of {A} (s : nat) (l : list A) : length (chunks_of s l) = ((length l + s - 1) / s)%nat.
Proof. unfold chunks_of. by rewrite length_fmap, length_seq. Qed.

Lemma imap_take {A B} (f : nat -> A -> B) i (l : list A) : imap f (take i l) = take i (imap f l).
Proof. revert f i. induction l as [|x l IH]; intros f [|i]; [done..|]. cbn [take]. rewrite !imap_cons. cbn [take]. by rewrite IH. Qed.

(** The index of chunk [j] of key [i] among all chunks. *)
Definition flat {A} (segs : list (list A)) (i j : nat) : Z := Z.of_nat (length (mjoin (take i segs)) + j).

Lemma flat_run_offset {A} (segs : list (list A)) (nr : list (Z * Z)) i :
  Forall2 (fun cs r => length cs = Z.to_nat r.2) segs nr -> length (mjoin (take i segs)) = run_offset i nr.
Proof.
  intros H. unfold run_offset. apply (Forall2_take _ _ _ i) in H. induction H as [|cs r l l' Hr _ IH]; [done|].
  change (mjoin (cs :: l)) with (cs ++ mjoin l). change (expand (r :: l')) with (replicate (Z.to_nat r.2) r.1 ++ expand l').
  by rewrite !length_app, IH, length_replicate, Hr.
Qed.

(** ** What [dedup] leaves behind *)

Section Correct.
Context (IndexT : int_type) (MAX_RUN_SIZE : Z).
Context (sort_pairs : list (Z * Z) -> list (Z * Z)) (encode : list Z -> list (Z * Z)) (exclusive_sum : list Z -> list Z).
Context (write_order : list (Z * Z) -> list (Z * Z)) (h_location : Z -> Z).
Context {Hcub : CubLaws sort_pairs encode exclusive_sum (2 ^ 31)}.
Context (Hwo : forall l, write_order l ≡ₚ l).
Context (keys : Z -> Z) (n : Z).
Context (HK : IndexT = int32_t \/ IndexT = int64_t) (Hmax : MAX_RUN_SIZE = -1 \/ 0 < MAX_RUN_SIZE) (Hn : 0 < n) (Hfit : n + Z.abs MAX_RUN_SIZE < 2 ^ 31).
Context (Hloc : forall i, 0 <= i < n -> h_location i = i).

(** The chunks of the unique keys: [dst] is the key of a chunk, [segs] has the positions. *)
Record dedup_ok (st : store) (num_unique num_runs : Z) (segs : list (list (list Z))) : Prop := {
  do_num : num_unique = Z.of_nat (length segs);
  do_bounds : 0 < num_unique <= num_runs /\ num_runs <= n;
  do_unique : StronglySorted Z.lt (read UniqueOut num_unique st);
  do_keys k : k ∈ read UniqueOut num_unique st <-> exists p, 0 <= p < n /\ keys p = k;
  do_runs : num_runs = Z.of_nat (length (mjoin segs));
  do_chunk i cs j l : segs !! i = Some cs -> cs !! j = Some l ->
    (MAX_RUN_SIZE <> -1 -> st LocMap (flat segs i j) = Z.of_nat i) /\
    (MAX_RUN_SIZE = -1 -> flat segs i j = Z.of_nat i) /\
    0 <= st Offsets (flat segs i j) /\
    st Offsets (flat segs i j + 1) = st Offsets (flat segs i j) + Z.of_nat (length l) /\
    (forall q p, l !! q = Some p -> st Inverse (st Offsets (flat segs i j) + Z.of_nat q) = p);
  do_positions i k cs : read UniqueOut num_unique st !! i = Some k -> segs !! i = Some cs -> mjoin cs ≡ₚ positions keys n k;
  do_size i cs l : segs !! i = Some cs -> l ∈ cs -> (0 < length l)%nat /\ (MAX_RUN_SIZE <> -1 -> Z.of_nat (length l) <= MAX_RUN_SIZE)
}.

Local Abbreviation sorted := (sort_pairs (zip (keys <$> seqZ 0 n) (seqZ 0 n))).
Local Abbreviation runs := (encode sorted.*1).
Local Abbreviation segment := (segment sort_pairs encode keys n).
Local Abbreviation offset i := (Z.of_nat (run_offset i runs)).
Local Abbreviation num := (Z.of_nat (length runs)).

Local Abbreviation all_positive := (runs_positive sort_pairs encode exclusive_sum keys n (limit := 2 ^ 31)).
Lemma run_positive i k c : runs !! i = Some (k, c) -> 0 < c.
Proof. intros Hi. exact (Forall_lookup_1 _ _ _ _ all_positive Hi). Qed.
Lemma run_length i k c : runs !! i = Some (k, c) -> Z.of_nat (length (segment i c)) = c.
Proof.
  intros Hi. rewrite (length_segment sort_pairs encode exclusive_sum keys n i k c (limit := 2 ^ 31) Hi). pose proof (run_positive _ _ _ Hi). lia.
Qed.

Lemma offset_bound i : offset i <= n.
Proof.
  pose proof (run_offset_le runs i) as H. rewrite (runs_expand sort_pairs encode exclusive_sum (limit := 2 ^ 31)), length_fmap in H.
  rewrite (length_sorted sort_pairs encode exclusive_sum (limit := 2 ^ 31)) in H. lia.
Qed.
Lemma offset_succ i k c : runs !! i = Some (k, c) -> offset (S i) = offset i + c.
Proof.
  intros Hi. rewrite (run_offset_succ _ _ _ _ Hi). pose proof (run_positive _ _ _ Hi). lia.
Qed.

Lemma location_list : h_location <$> seqZ 0 n = seqZ 0 n.
Proof.
  transitivity (id <$> seqZ 0 n); [|apply list_fmap_id]. apply list_fmap_ext. intros i p Hp. apply Hloc.
  apply list_elem_of_lookup_2, elem_of_seqZ in Hp. unfold id. lia.
Qed.


Lemma inverse_segment st i k c (l : list Z) (a q : nat) p :
  (forall j p, sorted.*2 !! j = Some p -> st Inverse (Z.of_nat j) = p) -> runs !! i = Some (k, c) ->
  l = take (length l) (drop a (segment i c)) -> l !! q = Some p -> st Inverse (offset i + Z.of_nat a + Z.of_nat q) = p.
Proof.
  intros Hinv Hi El Hq. rewrite El in Hq. apply lookup_take_Some in Hq as [Hq _]. rewrite lookup_drop in Hq.
  assert (Ha : (a + q < Z.to_nat c)%nat).
  { apply lookup_lt_Some in Hq. by rewrite (length_segment sort_pairs encode exclusive_sum keys n i k c (limit := 2 ^ 31) Hi) in Hq. }
  rewrite (segment_lookup sort_pairs encode keys n i k c _ Hi Ha) in Hq. rewrite <- (Hinv _ _ Hq). f_equal. lia.
Qed.

(** The buffers after sorting and encoding. *)
Lemma dedup_runs_ok st :
  exists st', dedup_runs sort_pairs encode h_location keys n UniqueOut LocMap Inverse st = (runs, st') /\ 
    read UniqueOut num st' = runs.*1 /\ 
    (exists z, read LocMap (num + 1) st' = runs.*2 ++ [z]) /\ 
    (forall i k c, runs !! i = Some (k, c) -> st' LocMap (Z.of_nat i) = c) /\ 
    (forall j p, sorted.*2 !! j = Some p -> st' Inverse (Z.of_nat j) = p).
Proof.
  unfold dedup_runs. cbv zeta. rewrite location_list. rewrite read_put by (rewrite length_seqZ; lia).
  rewrite !read_put_ne by done. rewrite read_put.
  2: { rewrite length_fmap, (length_sorted sort_pairs encode exclusive_sum (limit := 2 ^ 31)). lia. }
  eexists. split; [done|]. split_and!.
  - rewrite read_put_ne by done. apply read_put. by rewrite length_fmap.
  - eexists. rewrite <- (length_fmap snd runs). apply read_put_succ.
  - intros i k c Hi. apply put_eq. by rewrite list_lookup_fmap, Hi.
  - intros j p Hj. rewrite !(put_ne _ Inverse) by done. by apply put_eq.
Qed.

Local Abbreviation dedup := (dedup IndexT MAX_RUN_SIZE sort_pairs encode exclusive_sum write_order h_location keys n UniqueOut LocMap LocMap Inverse Offsets).

Lemma split_sums_lookup z i : (i <= length runs)%nat -> exclusive_sum (runs.*2 ++ [z]) !! i = Some (offset i).
Proof.
  intros Hi. pose proof (offset_bound i). apply (offsets_of_runs sort_pairs encode exclusive_sum); [exact all_positive|done|].
  destruct Hmax; lia.
Qed.

(** The keys of a result whose unique keys are those of the runs. *)
Lemma unique_ok st' : read UniqueOut num st' = runs.*1 ->
  StronglySorted Z.lt (read UniqueOut num st') /\ (forall k, k ∈ read UniqueOut num st' <-> exists p, 0 <= p < n /\ keys p = k).
Proof. intros ->. split; [eapply runs_keys_ascending, Hcub|intros k; eapply runs_keys, Hcub]. Qed.

Lemma num_positive : 0 < num.
Proof.
  destruct (decide (length runs = 0%nat)) as [E|]; [|lia]. apply nil_length_inv in E.
  assert (H : keys 0 ∈ runs.*1) by (eapply runs_keys; [apply Hcub|]; exists 0; lia). rewrite E in H. by apply not_elem_of_nil in H.
Qed.

Lemma num_bound : num <= n.
Proof. pose proof (offset_bound (length runs)) as H'. rewrite run_offset_all in H'. pose proof (length_le_expand _ all_positive). lia. Qed.

(** Without a limit every key has one chunk. *)
Lemma dedup_unlimited st : MAX_RUN_SIZE = -1 -> exists st', dedup st = Ok (st', (num, num)) /\ dedup_ok st' num num (imap (fun i r => [segment i r.2]) runs).
Proof.
  intros E. destruct (dedup_runs_ok st) as (s1 & Ed & Hu & [z Hz] & _ & Hinv). unfold Dedup.dedup. rewrite Ed, Hz, (proj2 (Z.eqb_eq _ _) E).
  eexists. split; [done|]. set (st' := put _ _ _). assert (Eu : read UniqueOut num st' = runs.*1) by (unfold st'; by rewrite read_put_ne).
  assert (Hoff : forall i, (i <= length runs)%nat -> st' Offsets (Z.of_nat i) = offset i) by (intros i Hi; by apply put_eq, split_sums_lookup).
  assert (Ej : forall i l, mjoin (imap (fun i r => [segment (l + i) r.2]) (take i runs)) = imap (fun i r => segment (l + i) r.2) (take i runs)).
  { intros i. generalize (take i runs). intros rs. induction rs as [|r rs IH]; intros l; [done|]. rewrite !imap_cons. simpl. f_equal.
    rewrite <- (imap_ext (fun j r => [segment (S l + j) r.2])) by (intros; unfold compose; by rewrite Nat.add_succ_comm). rewrite IH.
    apply imap_ext. intros j r' _. unfold compose. by rewrite Nat.add_succ_comm. }
  assert (Hflat : forall i j, (i < length runs)%nat -> flat (imap (fun i r => [segment i r.2]) runs) i j = Z.of_nat (i + j)).
  { intros i j Hi. unfold flat. rewrite <- imap_take. pose proof (Ej i 0%nat) as E'. simpl in E'. rewrite E', length_imap, length_take. lia. }
  destruct (unique_ok _ Eu) as [H1 H2]. pose proof num_positive. pose proof num_bound.
  constructor; [by rewrite length_imap|lia|done|done| | | |].
  - pose proof (Ej (length runs) 0%nat) as E'. rewrite firstn_all in E'. simpl in E'. by rewrite E', length_imap.
  - intros i cs j l Hi Hj. rewrite list_lookup_imap in Hi. destruct (runs !! i) as [ [k c]|] eqn:Er; [|done]. injection Hi as <-.
    destruct j; [|done]. injection Hj as <-. pose proof (lookup_lt_Some _ _ _ Er). rewrite Hflat, Nat.add_0_r by done.
    pose proof (offset_succ _ _ _ Er) as Es. cbn [snd].
    pose proof (run_length _ _ _ Er) as El. replace (Z.of_nat i + 1) with (Z.of_nat (S i)) by lia. rewrite !Hoff by lia.
    split_and!; [done|done|lia|rewrite El; lia|]. intros q p Hq. rewrite <- (Z.add_0_r (offset i)).
    apply (inverse_segment st' i k c (segment i c) 0 q p); [|done|by rewrite drop_0, firstn_all|done]. intros j p'. unfold st'. rewrite put_ne by done. apply Hinv.
  - intros i k cs Hk Hi. rewrite Eu, list_lookup_fmap in Hk. rewrite list_lookup_imap in Hi. destruct (runs !! i) as [ [k' c]|] eqn:Er; [|done].
    injection Hk as <-. injection Hi as <-. cbn. rewrite app_nil_r. eapply segment_positions; [apply Hcub|done].
  - intros i cs l Hi Hl. rewrite list_lookup_imap in Hi. destruct (runs !! i) as [ [k c]|] eqn:Er; [|done]. injection Hi as <-.
    apply list_elem_of_singleton in Hl as ->. cbn [snd]. pose proof (run_length _ _ _ Er). pose proof (run_positive _ _ _ Er).
    split; [lia|done].
Qed.

(** The counts stay in their buffer. *)
Lemma unlimited_counts st st' r i k c : MAX_RUN_SIZE = -1 -> dedup st = Ok (st', r) -> runs !! i = Some (k, c) -> st' LocMap (Z.of_nat i) = c.
Proof.
  intros E. destruct (dedup_runs_ok st) as (s1 & Ed & _ & _ & Hc & _). unfold Dedup.dedup. rewrite Ed, (proj2 (Z.eqb_eq _ _) E).
  intros [= <- _] Hi. rewrite put_ne by done. by apply (Hc i k).
Qed.

(** *** Runs split into chunks *)

Definition chunk_count (c : Z) : Z := (c + MAX_RUN_SIZE - 1) / MAX_RUN_SIZE.
(** The chunks as runs: a key of the list and how often it occurs. *)
Definition split_runs : list (Z * Z) := imap (fun i r => (Z.of_nat i, chunk_count r.2)) runs.
Definition split_segs : list (list (list Z)) := imap (fun i r => chunks_of (Z.to_nat MAX_RUN_SIZE) (segment i r.2)) runs.
Local Abbreviation chunk_offset i := (Z.of_nat (run_offset i split_runs)).

Lemma split_runs_lookup i k c : runs !! i = Some (k, c) -> split_runs !! i = Some (Z.of_nat i, chunk_count c).
Proof. intros Hi. unfold split_runs. by rewrite list_lookup_imap, Hi. Qed.
Lemma split_runs_inv i v m : split_runs !! i = Some (v, m) -> exists k c, runs !! i = Some (k, c) /\ v = Z.of_nat i /\ m = chunk_count c.
Proof.
  unfold split_runs. rewrite list_lookup_imap. destruct (runs !! i) as [ [k c]|]; [|done]. intros [= <- <-]. eauto.
Qed.
Lemma length_split_runs : length split_runs = length runs.
Proof. unfold split_runs. by rewrite length_imap. Qed.

Context (Hsplit : 0 < MAX_RUN_SIZE).

Lemma chunk_count_bounds c : 0 < c -> 0 < chunk_count c <= c.
Proof.
  intros Hc. unfold chunk_count. pose proof (Z.div_mod (c + MAX_RUN_SIZE - 1) MAX_RUN_SIZE ltac:(lia)).
  pose proof (Z.mod_pos_bound (c + MAX_RUN_SIZE - 1) MAX_RUN_SIZE ltac:(lia)). nia.
Qed.

Lemma split_positive : Forall (fun r => 0 < r.2) split_runs.
Proof.
  apply Forall_lookup. intros i [v m] Hi. destruct (split_runs_inv _ _ _ Hi) as (k & c & Hr & _ & ->).
  apply chunk_count_bounds. by eapply run_positive.
Qed.

Lemma run_offset_mono (l l' : list (Z * Z)) i : Forall2 (fun a b => a.2 <= b.2) l l' -> (run_offset i l <= run_offset i l')%nat.
Proof.
  intros H. unfold run_offset. apply (Forall2_take _ _ _ i) in H. induction H as [|a b m m' Hab _ IH]; [done|].
  change (expand (a :: m)) with (replicate (Z.to_nat a.2) a.1 ++ expand m). change (expand (b :: m')) with (replicate (Z.to_nat b.2) b.1 ++ expand m').
  rewrite !length_app, !length_replicate. lia.
Qed.
Lemma chunk_offset_bound i : chunk_offset i <= n.
Proof.
  assert (H : (run_offset i split_runs <= run_offset i runs)%nat); [|pose proof (offset_bound i); lia].
  apply run_offset_mono, Forall2_same_length_lookup. split; [apply length_split_runs|]. intros j [v m] [k c] Hm Hr. simpl.
  destruct (split_runs_inv _ _ _ Hm) as (k' & c' & Hr' & _ & ->). rewrite Hr in Hr'. injection Hr' as <- <-.
  pose proof (chunk_count_bounds c (run_positive _ _ _ Hr)). lia.
Qed.

Lemma chunk_count_nat c l : Z.of_nat (length l) = c -> 0 < c -> Z.of_nat (length (chunks_of (A := Z) (Z.to_nat MAX_RUN_SIZE) l)) = chunk_count c.
Proof.
  intros El Hc. rewrite length_chunks_of, Nat2Z.inj_div. unfold chunk_count. rewrite Z2Nat.id by lia. f_equal. lia.
Qed.

Lemma flat_split i j : flat split_segs i j = chunk_offset i + Z.of_nat j.
Proof.
  unfold flat. rewrite (flat_run_offset _ split_runs i); [lia|]. apply Forall2_same_length_lookup. unfold split_segs, split_runs.
  rewrite !length_imap. split; [done|]. intros i' cs [v m] Hcs Hr. destruct (split_runs_inv _ _ _ Hr) as (k & c & E & -> & ->). rewrite list_lookup_imap, E in Hcs.
  injection Hcs as <-. simpl. pose proof (chunk_count_nat c _ (run_length _ _ _ E) (run_positive _ _ _ E)). lia.
Qed.

(** A chunk of a key: its size, and where it starts. *)
Lemma split_segs_lookup i cs j l : split_segs !! i = Some cs -> cs !! j = Some l ->
  exists k c, runs !! i = Some (k, c) /\ cs = chunks_of (Z.to_nat MAX_RUN_SIZE) (segment i c) /\ Z.of_nat j < chunk_count c /\
    Z.of_nat j * MAX_RUN_SIZE < c /\ l = take (length l) (drop (j * Z.to_nat MAX_RUN_SIZE) (segment i c)) /\
    Z.of_nat (length l) = Z.min MAX_RUN_SIZE (c - Z.of_nat j * MAX_RUN_SIZE).
Proof.
  intros Hi Hj. unfold split_segs in Hi. rewrite list_lookup_imap in Hi. destruct (runs !! i) as [ [k c]|] eqn:E; [|done]. injection Hi as <-.
  exists k, c. simpl in Hj. pose proof (run_length _ _ _ E) as El. pose proof (chunk_count_nat c _ El (run_positive _ _ _ E)) as Ec.
  pose proof (lookup_lt_Some _ _ _ Hj). destruct (chunks_of_lookup (Z.to_nat MAX_RUN_SIZE) (segment i c) j l ltac:(lia) Hj) as (Hlt & Ex & Hlen). split_and!; [done|done|lia|nia| |nia].
  rewrite Ex at 1. rewrite Hlen. destruct (Nat.min_spec (Z.to_nat MAX_RUN_SIZE) (length (segment i c) - j * Z.to_nat MAX_RUN_SIZE)) as [ [_ ->]|[Hle ->] ]; [done|].
  rewrite !take_ge by (rewrite length_drop; lia). done.
Qed.

Lemma chunk_index_unique i k c j i' k' c' j' :
  runs !! i = Some (k, c) -> runs !! i' = Some (k', c') -> 0 <= j < chunk_count c -> 0 <= j' < chunk_count c' ->
  chunk_offset i + j = chunk_offset i' + j' -> i = i' /\ j = j'.
Proof.
  intros Hi Hi' Hj Hj' E.
  pose proof (expand_lookup _ _ _ _ (Z.to_nat j) (split_runs_lookup _ _ _ Hi) ltac:(lia)) as H1.
  pose proof (expand_lookup _ _ _ _ (Z.to_nat j') (split_runs_lookup _ _ _ Hi') ltac:(lia)) as H2.
  replace (run_offset i split_runs + Z.to_nat j)%nat with (run_offset i' split_runs + Z.to_nat j')%nat in H1 by lia.
  rewrite H1 in H2. injection H2 as Ei%Nat2Z.inj. subst i'. split; [done|]. lia.
Qed.
Lemma chunk_offset_succ i k c : runs !! i = Some (k, c) -> chunk_offset (S i) = chunk_offset i + chunk_count c.
Proof.
  intros Hi. rewrite (run_offset_succ _ _ _ _ (split_runs_lookup _ _ _ Hi)). pose proof (chunk_count_bounds c (run_positive _ _ _ Hi)). lia.
Qed.
Lemma chunk_offset_total i k c j : runs !! i = Some (k, c) -> 0 <= j < chunk_count c -> chunk_offset i + j < chunk_offset (length runs).
Proof.
  intros Hi Hj. rewrite <- length_split_runs, run_offset_all.
  pose proof (expand_lookup _ _ _ _ (Z.to_nat j) (split_runs_lookup _ _ _ Hi) ltac:(lia)) as H%lookup_lt_Some. lia.
Qed.

(** The counts and offsets that the second kernel reads. *)
Section Kernels.
Context (cc co ko : Z -> Z).
Context (Hcc : forall i k c, runs !! i = Some (k, c) -> cc (Z.of_nat i) = chunk_count c).
Context (Hco : forall i, (i <= length runs)%nat -> co (Z.of_nat i) = chunk_offset i).
Context (Hko : forall i, (i <= length runs)%nat -> ko (Z.of_nat i) = offset i).

Lemma key_of key : 0 <= key < num -> exists i k c, key = Z.of_nat i /\ runs !! i = Some (k, c) /\ cc key = chunk_count c /\ co key = chunk_offset i /\ ko key = offset i.
Proof.
  intros Hk. destruct (Z_of_nat_complete key ltac:(lia)) as [i ->]. destruct (lookup_lt_is_Some_2 runs i ltac:(lia)) as [ [k c] Hi].
  exists i, k, c. split_and!; [done|done|by eapply Hcc|apply Hco; lia|apply Hko; lia].
Qed.

Lemma elem_of_location_writes a v :
  (a, v) ∈ location_writes cc co num <-> exists i k c j, runs !! i = Some (k, c) /\ 0 <= j < chunk_count c /\ a = chunk_offset i + j /\ v = Z.of_nat i.
Proof.
  unfold location_writes. setoid_rewrite list_elem_of_bind. split.
  - intros (key & H & Hk%elem_of_seqZ). destruct (key_of key ltac:(lia)) as (i & k & c & -> & Hi & E1 & E2 & _).
    apply list_elem_of_bind in H as (t & H & Ht). apply list_elem_of_bind in H as (j & H & Hj). apply list_elem_of_singleton in H as [= -> ->].
    rewrite E1 in Hj. exists i, k, c, j. rewrite E2. split_and!; [done| | |done..]; apply (lanes_cover (chunk_count c) j); eauto.
  - intros (i & k & c & j & Hi & Hj & -> & ->). pose proof (lookup_lt_Some _ _ _ Hi). exists (Z.of_nat i). split; [|apply elem_of_seqZ; lia].
    destruct (proj2 (lanes_cover (chunk_count c) j) Hj) as (t & Ht & Hjt). apply list_elem_of_bind. exists t. split; [|done].
    apply list_elem_of_bind. exists j. rewrite (Hcc _ _ _ Hi), Hco by lia. split; [by apply list_elem_of_singleton|done].
Qed.
Lemma location_buffer f i k c j : runs !! i = Some (k, c) -> 0 <= j < chunk_count c ->
  write_all (write_order (location_writes cc co num)) f (chunk_offset i + j) = Z.of_nat i.
Proof.
  intros Hi Hj. apply write_all_elem.
  - rewrite Hwo. apply elem_of_location_writes. eauto 10.
  - intros v'. rewrite Hwo. intros (i' & k' & c' & j' & Hi' & Hj' & E & ->)%elem_of_location_writes.
    by destruct (chunk_index_unique _ _ _ _ _ _ _ _ Hi Hi' Hj Hj' E) as [-> _].
Qed.

Lemma elem_of_split_offset_writes a v :
  (a, v) ∈ split_offset_writes IndexT MAX_RUN_SIZE cc co ko num <->
  (exists i k c j, runs !! i = Some (k, c) /\ 0 <= j < chunk_count c /\ a = chunk_offset i + j /\ v = conv IndexT (offset i + j * MAX_RUN_SIZE)) \/
  (a = chunk_offset (length runs) /\ v = offset (length runs) /\ 0 < num).
Proof.
  unfold split_offset_writes. setoid_rewrite list_elem_of_bind. split.
  - intros (key & H & Hk%elem_of_seqZ). destruct (key_of key ltac:(lia)) as (i & k & c & -> & Hi & E1 & E2 & E3).
    apply list_elem_of_bind in H as (t & H & Ht). apply elem_of_app in H as [H|H].
    + left. apply list_elem_of_bind in H as (j & H & Hj). apply list_elem_of_singleton in H as [= -> ->].
      rewrite E1 in Hj. exists i, k, c, j. rewrite E2, E3. split_and!; [done| | |done..]; apply (lanes_cover (chunk_count c) j); eauto.
    + right. destruct (Z.eqb_spec (Z.of_nat i + 1) num) as [Hl|]; [|set_solver]. apply list_elem_of_singleton in H as [= -> ->].
      replace (length runs) with (S i) by lia. rewrite E1, E2, (chunk_offset_succ _ _ _ Hi).
      replace (Z.of_nat i + 1) with (Z.of_nat (S i)) by lia. rewrite Hko by lia. split_and!; lia.
  - intros [(i & k & c & j & Hi & Hj & -> & ->)|(-> & -> & Hpos)].
    + pose proof (lookup_lt_Some _ _ _ Hi). exists (Z.of_nat i). split; [|apply elem_of_seqZ; lia].
      destruct (proj2 (lanes_cover (chunk_count c) j) Hj) as (t & Ht & Hjt). apply list_elem_of_bind. exists t. split; [|done].
      apply elem_of_app. left. apply list_elem_of_bind. exists j. rewrite (Hcc _ _ _ Hi), Hco, Hko by lia. split; [by apply list_elem_of_singleton|done].
    + destruct (lookup_lt_is_Some_2 runs (pred (length runs)) ltac:(lia)) as [ [k c] Hi]. exists (num - 1). split; [|apply elem_of_seqZ; lia].
      apply list_elem_of_bind. exists 0. split; [|apply elem_of_seqZ; lia]. apply elem_of_app. right. rewrite (proj2 (Z.eqb_eq _ _)) by lia.
      apply list_elem_of_singleton. replace (num - 1 + 1) with num by lia. rewrite Hko by lia. replace (num - 1) with (Z.of_nat (pred (length runs))) by lia.
      rewrite (Hcc _ _ _ Hi), Hco by lia. replace (length runs) with (S (pred (length runs))) at 1 by lia. by rewrite (chunk_offset_succ _ _ _ Hi).
Qed.
Lemma split_offset_buffer f i k c j : runs !! i = Some (k, c) -> 0 <= j < chunk_count c ->
  write_all (write_order (split_offset_writes IndexT MAX_RUN_SIZE cc co ko num)) f (chunk_offset i + j) = conv IndexT (offset i + j * MAX_RUN_SIZE).
Proof.
  intros Hi Hj. apply write_all_elem.
  - rewrite Hwo. apply elem_of_split_offset_writes. left. eauto 10.
  - intros v'. rewrite Hwo. intros [(i' & k' & c' & j' & Hi' & Hj' & E & ->)|(E & _)]%elem_of_split_offset_writes.
    + by destruct (chunk_index_unique _ _ _ _ _ _ _ _ Hi Hi' Hj Hj' E) as [-> ->].
    + pose proof (chunk_offset_total _ _ _ _ Hi Hj). lia.
Qed.
Lemma split_offset_end f : 0 < num ->
  write_all (write_order (split_offset_writes IndexT MAX_RUN_SIZE cc co ko num)) f (chunk_offset (length runs)) = offset (length runs).
Proof.
  intros Hpos. apply write_all_elem.
  - rewrite Hwo. apply elem_of_split_offset_writes. by right.
  - intros v'. rewrite Hwo. intros [(i' & k' & c' & j' & Hi' & Hj' & E & ->)|(_ & -> & _)]%elem_of_split_offset_writes; [|done].
    pose proof (chunk_offset_total _ _ _ _ Hi' Hj'). lia.
Qed.
End Kernels.


Lemma conv_small_index x : 0 <= x < 2 ^ 31 -> conv IndexT x = x.
Proof. intros Hx. destruct HK as [-> | ->]; apply conv_small; unfold in_range, in_s; simpl; lia. Qed.

Lemma split_counts_buffer counts f i k c :
  (forall i k c, runs !! i = Some (k, c) -> counts (Z.of_nat i) = c) -> runs !! i = Some (k, c) ->
  write_all (write_order (ComputeSplitCounts IndexT MAX_RUN_SIZE counts num)) f (Z.of_nat i) = chunk_count c.
Proof.
  intros Hcounts Hi. pose proof (lookup_lt_Some _ _ _ Hi). pose proof (run_positive _ _ _ Hi).
  assert (c <= n) by (pose proof (offset_succ _ _ _ Hi); pose proof (offset_bound (S i)); lia).
  assert (E : Z.quot (conv IndexT (counts (Z.of_nat i) + MAX_RUN_SIZE - 1)) MAX_RUN_SIZE = chunk_count c).
  { rewrite (Hcounts _ _ _ Hi), conv_small_index by lia. unfold chunk_count. by rewrite Z.quot_div_nonneg by lia. }
  apply write_all_elem.
  - rewrite Hwo. unfold ComputeSplitCounts. apply list_elem_of_fmap. exists (Z.of_nat i). rewrite E. split; [done|]. apply elem_of_seqZ. lia.
  - intros v. rewrite Hwo. unfold ComputeSplitCounts. intros (key & [= <- ->] & _)%list_elem_of_fmap. done.
Qed.

(** What the buffers must hold for the chunks of [split_segs]. *)
Lemma split_result st' :
  read UniqueOut num st' = runs.*1 ->
  (forall j p, sorted.*2 !! j = Some p -> st' Inverse (Z.of_nat j) = p) ->
  (forall i k c j, runs !! i = Some (k, c) -> 0 <= j < chunk_count c -> st' LocMap (chunk_offset i + j) = Z.of_nat i) ->
  (forall i k c j, runs !! i = Some (k, c) -> 0 <= j < chunk_count c -> st' Offsets (chunk_offset i + j) = offset i + j * MAX_RUN_SIZE) ->
  st' Offsets (chunk_offset (length runs)) = offset (length runs) ->
  dedup_ok st' num (chunk_offset (length runs)) split_segs.
Proof.
  intros Eu Einv Eloc Eoff Eend. destruct (unique_ok _ Eu) as [H1 H2]. pose proof num_positive. pose proof (chunk_offset_bound (length runs)).
  assert (num <= chunk_offset (length runs)) by (rewrite <- length_split_runs, run_offset_all; pose proof (length_le_expand _ split_positive); lia).
  constructor; [by unfold split_segs; rewrite length_imap|lia|done|done| | | |].
  - pose proof (flat_split (length runs) 0) as E. unfold flat in E. rewrite take_ge in E by (by unfold split_segs; rewrite length_imap). lia.
  - intros i cs j l Hi Hj. destruct (split_segs_lookup _ _ _ _ Hi Hj) as (k & c & Hr & _ & Hjc & Hjs & El & Hlen). rewrite flat_split.
    pose proof (offset_succ _ _ _ Hr). pose proof (chunk_offset_succ _ _ _ Hr). pose proof (lookup_lt_Some _ _ _ Hr).
    rewrite (Eoff _ _ _ (Z.of_nat j) Hr) by lia. split_and!; [intros _; apply (Eloc _ _ _ _ Hr); lia|lia|lia| |].
    + destruct (decide (Z.of_nat j + 1 < chunk_count c)) as [Hnext|Hlast].
      * replace (chunk_offset i + Z.of_nat j + 1) with (chunk_offset i + (Z.of_nat j + 1)) by lia. rewrite (Eoff _ _ _ (Z.of_nat j + 1) Hr) by lia.
        unfold chunk_count in Hnext. pose proof (Z.mul_div_le (c + MAX_RUN_SIZE - 1) MAX_RUN_SIZE Hsplit). nia.
      * assert (Ec : c <= (Z.of_nat j + 1) * MAX_RUN_SIZE).
        { replace (Z.of_nat j + 1) with (chunk_count c) by lia. unfold chunk_count. pose proof (Z.div_mod (c + MAX_RUN_SIZE - 1) MAX_RUN_SIZE ltac:(lia)).
          pose proof (Z.mod_pos_bound (c + MAX_RUN_SIZE - 1) MAX_RUN_SIZE Hsplit). lia. }
        replace (chunk_offset i + Z.of_nat j + 1) with (chunk_offset (S i)) by lia. rewrite Hlen. transitivity (offset (S i)); [|lia].
        destruct (decide (S i = length runs)) as [->|]; [done|]. destruct (lookup_lt_is_Some_2 runs (S i) ltac:(lia)) as [ [k' c'] Hr'].
        pose proof (chunk_count_bounds c' (run_positive _ _ _ Hr')). rewrite <- (Z.add_0_r (chunk_offset (S i))), (Eoff _ _ _ 0 Hr') by lia. lia.
    + intros q p Hq. replace (Z.of_nat j * MAX_RUN_SIZE) with (Z.of_nat (j * Z.to_nat MAX_RUN_SIZE)) by lia. by eapply inverse_segment.
  - intros i k cs Hk Hi. rewrite Eu, list_lookup_fmap in Hk. unfold split_segs in Hi. rewrite list_lookup_imap in Hi.
    destruct (runs !! i) as [ [k' c]|] eqn:Er; [|done]. injection Hk as <-. injection Hi as <-. rewrite chunks_of_join by lia.
    eapply segment_positions; [apply Hcub|done].
  - intros i cs l Hi [j Hj]%list_elem_of_lookup. destruct (split_segs_lookup _ _ _ _ Hi Hj) as (k & c & Hr & _ & Hjc & Hjs & El & Hlen). lia.
Qed.

(** With a limit the chunks are those of [chunks_of]. *)
Lemma dedup_limited st : exists st' num_runs, dedup st = Ok (st', (num, num_runs)) /\ dedup_ok st' num num_runs split_segs.
Proof.
  destruct (dedup_runs_ok st) as (s1 & Ed & Hu & [z Hz] & Hcounts & Hinv). unfold Dedup.dedup. rewrite Ed, Hz, (proj2 (Z.eqb_neq _ _)) by lia.
  cbv zeta. pose proof num_positive. pose proof num_bound. rewrite !launch_blocks_ok by lia. cbn [obind].
  set (s2 := put TmpOffset _ s1). set (s3 := put_writes SplitCount _ s2).
  assert (Hcc : forall i k c, runs !! i = Some (k, c) -> s3 SplitCount (Z.of_nat i) = chunk_count c).
  { intros i k c Hi. unfold s3. rewrite put_writes_eq. by eapply split_counts_buffer. }
  assert (Es : read SplitCount (num + 1) s3 = split_runs.*2 ++ [s3 SplitCount num]).
  { unfold read. rewrite seqZ_app, fmap_app by lia. f_equal. apply list_eq. intros i. rewrite !list_lookup_fmap.
    destruct (runs !! i) as [ [k c]|] eqn:Hi.
    - pose proof (lookup_lt_Some _ _ _ Hi). rewrite lookup_seqZ_lt, (split_runs_lookup _ _ _ Hi) by lia. simpl. f_equal.
      rewrite Z.add_0_l. by eapply Hcc.
    - apply lookup_ge_None in Hi. rewrite lookup_seqZ_ge by lia. by rewrite lookup_ge_None_2 by (rewrite length_split_runs; lia). }
  rewrite Es. set (s4 := put SplitOffset _ s3).
  assert (Hco : forall i, (i <= length runs)%nat -> s4 SplitOffset (Z.of_nat i) = chunk_offset i).
  { intros i Hi. apply put_eq. pose proof (chunk_offset_bound i).
    apply (offsets_of_runs sort_pairs encode exclusive_sum); [exact split_positive|by rewrite length_split_runs|lia]. }
  assert (Hcc4 : forall i k c, runs !! i = Some (k, c) -> s4 SplitCount (Z.of_nat i) = chunk_count c).
  { intros i k c Hi. unfold s4. rewrite put_ne by done. by eapply Hcc. }
  assert (Hko : forall i, (i <= length runs)%nat -> s4 TmpOffset (Z.of_nat i) = offset i).
  { intros i Hi. unfold s4, s3. rewrite put_ne, put_writes_ne by done. by apply put_eq, split_sums_lookup. }
  eexists _, _. split; [done|]. set (st' := put_writes Offsets _ _).
  assert (Eu : read UniqueOut num st' = runs.*1).
  { rewrite <- Hu. unfold read. enough (E : st' UniqueOut = s1 UniqueOut) by (by rewrite E). unfold st', s4, s3, s2. by rewrite !put_writes_ne, put_ne, put_writes_ne, put_ne by done. }
  assert (Einv : forall j p, sorted.*2 !! j = Some p -> st' Inverse (Z.of_nat j) = p).
  { intros j p Hj. unfold st', s4, s3, s2. rewrite !put_writes_ne, put_ne, put_writes_ne, put_ne by done. by apply Hinv. }
  assert (Eloc : forall i k c j, runs !! i = Some (k, c) -> 0 <= j < chunk_count c -> st' LocMap (chunk_offset i + j) = Z.of_nat i).
  { intros i k c j Hi Hj. unfold st'. rewrite put_writes_ne, put_writes_eq by done. by eapply location_buffer. }
  assert (Eoff : forall i k c j, runs !! i = Some (k, c) -> 0 <= j < chunk_count c -> st' Offsets (chunk_offset i + j) = offset i + j * MAX_RUN_SIZE).
  { intros i k c j Hi Hj. unfold st'. rewrite put_writes_eq. rewrite (split_offset_buffer _ _ _ Hcc4 Hco Hko _ _ _ _ _ Hi Hj).
    apply conv_small_index. pose proof (offset_succ _ _ _ Hi). pose proof (offset_bound (S i)). pose proof (run_positive _ _ _ Hi).
    unfold chunk_count in Hj. pose proof (Z.mul_div_le (c + MAX_RUN_SIZE - 1) MAX_RUN_SIZE Hsplit). nia. }
  assert (Eend : st' Offsets (chunk_offset (length runs)) = offset (length runs)).
  { unfold st'. rewrite put_writes_eq. apply (split_offset_end _ _ _ Hcc4 Hco Hko). apply num_positive. }
  rewrite Hco by done. clearbody st' s4 s3 s2. by apply split_result.
Qed.
End Correct.

(** De-duplication: the unique keys are the keys that occur, in ascending order; every key has
    its positions in chunks of at most [MAX_RUN_SIZE], and the buffers describe the chunks. The
    buffer of counts is reused for the keys of the chunks, as the gradient calculation does. *)
Lemma dedup_correct IndexT MAX_RUN_SIZE sort_pairs encode exclusive_sum write_order h_location keys n st :
  CubLaws sort_pairs encode exclusive_sum (2 ^ 31) -> (forall l, write_order l ≡ₚ l) ->
  IndexT = int32_t \/ IndexT = int64_t -> MAX_RUN_SIZE = -1 \/ 0 < MAX_RUN_SIZE -> 0 < n -> n + Z.abs MAX_RUN_SIZE < 2 ^ 31 ->
  (forall i, 0 <= i < n -> h_location i = i) ->
  exists st' num_unique num_runs segs,
    dedup IndexT MAX_RUN_SIZE sort_pairs encode exclusive_sum write_order h_location keys n UniqueOut LocMap LocMap Inverse Offsets st
      = Ok (st', (num_unique, num_runs)) /\
    dedup_ok MAX_RUN_SIZE keys n st' num_unique num_runs segs.
Proof.
  intros Hcub Hwo HK [E|Hs] Hn Hfit Hloc.
  - destruct (dedup_unlimited IndexT MAX_RUN_SIZE sort_pairs encode exclusive_sum write_order h_location keys n (or_introl E) Hn Hfit Hloc st E)
      as (st' & Ed & Hok). eexists _, _, _, _. split; [exact Ed|]. exact Hok.
  - destruct (dedup_limited IndexT MAX_RUN_SIZE sort_pairs encode exclusive_sum write_order h_location Hwo keys n HK (or_intror Hs) Hn Hfit Hloc Hs st)
      as (st' & m & Ed & Hok). eexists _, _, _, _. split; [exact Ed|]. exact Hok.
Qed.

(** Without a limit every unique key has one chunk, and its length is in the buffer of counts. *)
Lemma dedup_whole_runs IndexT sort_pairs encode exclusive_sum write_order h_location keys n st :
  CubLaws sort_pairs encode exclusive_sum (2 ^ 31) -> 0 < n -> n + 1 < 2 ^ 31 -> (forall i, 0 <= i < n -> h_location i = i) ->
  exists st' num segs,
    dedup IndexT (-1) sort_pairs encode exclusive_sum write_order h_location keys n UniqueOut LocMap LocMap Inverse Offsets st = Ok (st', (num, num)) /\
    dedup_ok (-1) keys n st' num num segs /\
    forall i cs, segs !! i = Some cs -> exists l, cs = [l] /\ st' LocMap (Z.of_nat i) = Z.of_nat (length l).
Proof.
  intros Hcub Hn Hfit Hloc.
  destruct (dedup_unlimited IndexT (-1) sort_pairs encode exclusive_sum write_order h_location keys n (or_introl eq_refl) Hn Hfit Hloc st eq_refl) as (st' & Ed & Hok).
  eexists _, _, _. split; [exact Ed|]. split; [exact Hok|]. intros i cs Hi. rewrite list_lookup_imap in Hi.
  destruct (encode _ !! i) as [ [k c]|] eqn:Er; [|done]. injection Hi as <-. eexists. split; [done|]. cbn [snd].
  rewrite (run_length (-1) sort_pairs encode exclusive_sum keys n (or_introl eq_refl) i k c Er).
  by apply (unlimited_counts IndexT (-1) sort_pairs encode exclusive_sum write_order h_location keys n (or_introl eq_refl) Hn Hloc st st' _ i k c eq_refl Ed).
Qed.
