(* ===== verification/Unpack.v ===== *)
(** * Spreading unique rows and pooling them on the device: [cuda_ops/cuda_utils.cuh]

    [UnpackDedup] is the inverse of de-duplication for rows: it copies the row of every unique
    key to all positions of the key, through four registers per lane; [EmbedPooling] adds the
    rows of every bag. Threads run in any order. *)
From S2P Require Import Prelude BitOps EcHash SetAssoc CacheQuery DataTypes Pooling DeviceModify DeviceSelect DeviceOps DeviceTies Dedup.

(** ** [UnpackDedupKernel] *)

Section Unpack.
Context (d_inverse_buffer d_offsets d_counts_out : Z -> Z).
Context (uniq_mem : memory) (uniq_buffer out_buffer rowSizeInBytes : Z).

(** The rounds [k = 0, E * 32, ..] of a row and the offset of lane [t] in round [h]. *)
Definition unpack_rounds (elt : Z) : list Z := seqZ 0 (ceil_div rowSizeInBytes (elt * 32)).
Definition unpack_offset (elt t h : Z) : Z := wrapu 32 (h * (elt * 32) + t * elt).

(** [localBuffer] has room for four elements; it is the memory [0 .. 4 * elt). *)
Definition load_local (elt rl_idx t : Z) : outcome memory :=
  let src_ptr := uniq_buffer + wrapu 64 (rl_idx * rowSizeInBytes) in
  ofoldl (fun localBuffer h =>
      let offset := unpack_offset elt t h in
      if offset <? rowSizeInBytes then
        if h <? 4 then Ok (copy_from uniq_mem (h * elt) (src_ptr + offset) elt localBuffer)
        else Undef "localBuffer out of bounds"
      else Ok localBuffer)
    (unpack_rounds elt) (fun _ => 0).

Definition store_output (elt rl_idx t : Z) (localBuffer : memory) (m : memory) (i : Z) : memory :=
  fold_left (fun m h =>
      let offset := unpack_offset elt t h in
      let outputIdx := d_inverse_buffer (d_offsets rl_idx + i) in
      if offset <? rowSizeInBytes
      then copy_from localBuffer (out_buffer + wrapu 64 (outputIdx * rowSizeInBytes) + offset) (h * elt) elt m
      else m)
    (unpack_rounds elt) m.

Definition UnpackDedupKernel (elt : Z) (m : memory) (thread : Z * Z) : outcome memory :=
  let '(rl_idx, t) := thread in
  let! localBuffer := load_local elt rl_idx t in
  Ok (fold_left (store_output elt rl_idx t localBuffer) (seqZ 0 (d_counts_out rl_idx)) m).

(** ** [UnpackDedup] *)

(** The element type: [uint4], [uint32_t] or [uint8_t]. *)
Definition unpack_element : Z :=
  if rowSizeInBytes mod 16 =? 0 then 16 else if rowSizeInBytes mod 4 =? 0 then 4 else 1.
Definition unpack_threads (nBlock : Z) : list (Z * Z) := rl_idx ← seqZ 0 nBlock; pair rl_idx <$> seqZ 0 32.

Definition UnpackDedup (order : list (Z * Z) -> list (Z * Z)) (num_counts : Z) (m : memory) : outcome memory :=
  let nBlock := wrapu 32 num_counts in
  check! negb (nBlock =? 0) as "invalid configuration argument" in
  ofoldl (UnpackDedupKernel unpack_element) (order (unpack_threads nBlock)) m.
End Unpack.

(** ** [EmbedPooling] *)

Section EmbedPooling.
(** Elements with [InitAcc] and [Accumulate]. *)
Context {A : Type} (init : A) (accumulate : A -> A -> A).
Context (src : Z -> A) (num_elements embed_src_stride embed_dst_stride hotness num_bags : Z).

Definition bag_element (bag el : Z) : A :=
  fold_left (fun acc i => accumulate acc (src (wrapu 32 ((bag * hotness + i) * embed_src_stride) + el))) (seqZ 0 hotness) init.
Definition EmbedPooling (w : Z) (dst : Z -> A) (thread : Z * Z) : Z -> A :=
  let '(bag, x) := thread in
  if num_bags <=? bag then dst
  else fold_left (fun dst el => upd dst (wrapu 32 (bag * embed_dst_stride) + el) (bag_element bag el)) (lane_elements w num_elements x) dst.

(** Four warps to a block, [32 / SubwarpWidth] bags to a warp. *)
Definition CallPoolingKernelVecTypeSubwarp (SubwarpWidth : Z) (order : list (Z * Z) -> list (Z * Z)) (dst : Z -> A) : outcome (Z -> A) :=
  let bags_per_sm := 32 / SubwarpWidth * 4 in
  let grid := wrapu 32 (num_bags + bags_per_sm - 1) / bags_per_sm in
  check! negb (grid =? 0) as "invalid configuration argument" in
  Ok (fold_left (EmbedPooling SubwarpWidth) (order (bag ← seqZ 0 (grid * bags_per_sm); pair bag <$> seqZ 0 SubwarpWidth)) dst).
End EmbedPooling.

(** ** Lemmas: memories equal at every address *)

Lemma copy_from_agree s1 s2 d p1 p2 n m1 m2 : (forall b, 0 <= b < n -> s1 (p1 + b) = s2 (p2 + b)) -> (forall a, m1 a = m2 a) ->
  forall a, copy_from s1 d p1 n m1 a = copy_from s2 d p2 n m2 a.
Proof.
  intros Hs Hm a. unfold copy_from. destruct (_ && _) eqn:E; [|apply Hm]. apply Hs. lia.
Qed.

Lemma fold_pointwise {B} (f g : memory -> B -> memory) l m1 m2 :
  (forall x m1 m2, x ∈ l -> (forall a, m1 a = m2 a) -> forall a, f m1 x a = g m2 x a) -> (forall a, m1 a = m2 a) ->
  forall a, fold_left f l m1 a = fold_left g l m2 a.
Proof.
  revert m1 m2. induction l as [|x l IH]; intros m1 m2 Hf Hm; [done|]. simpl. apply IH.
  - intros y n1 n2 Hy. apply Hf. by right.
  - apply Hf; [by left|done].
Qed.

(** ** The registers of a lane *)

Section UnpackLemmas.
Context (d_inverse_buffer d_offsets d_counts_out : Z -> Z).
Context (uniq_mem : memory) (uniq_buffer out_buffer row : Z).
Local Abbreviation load := (load_local uniq_mem uniq_buffer row).
Local Abbreviation kernel := (UnpackDedupKernel d_inverse_buffer d_offsets d_counts_out uniq_mem uniq_buffer out_buffer row).
Local Abbreviation store := (store_output d_inverse_buffer d_offsets out_buffer row).

Section Element.
Context (elt : Z) (Helt : elt = 16 \/ elt = 4 \/ elt = 1) (Hrow : 0 < row < 2 ^ 31) (Hdiv : (elt | row)).

Lemma elem_of_rounds h : h ∈ unpack_rounds row elt <-> 0 <= h /\ h * (elt * 32) < row.
Proof.
  unfold unpack_rounds. rewrite elem_of_seqZ. pose proof (ceil_div_bounds row (elt * 32) ltac:(lia) ltac:(lia)) as Hc. split; [|nia].
  intros Hh. split; [lia|]. nia.
Qed.

Lemma unpack_offset_small t h : 0 <= t < 32 -> h ∈ unpack_rounds row elt -> unpack_offset elt t h = h * (elt * 32) + t * elt.
Proof. intros Ht Hh%elem_of_rounds. unfold unpack_offset. apply wrapu_small. split; nia. Qed.

(** The offsets of a lane are those of the copies of a whole row. *)
Lemma fold_rounds {A} (f : A -> Z -> A) t a : 0 <= t < 32 ->
  fold_left (fun a h => if unpack_offset elt t h <? row then f a (unpack_offset elt t h) else a) (unpack_rounds row elt) a =
  fold_left f (lane_offsets 32 elt row t) a.
Proof.
  intros Ht. unfold lane_offsets. rewrite <- fold_left_bind.
  assert (G : forall l a, (forall h, h ∈ l -> h ∈ unpack_rounds row elt) ->
    fold_left (fun a h => if unpack_offset elt t h <? row then f a (unpack_offset elt t h) else a) l a =
    fold_left (fun a h => fold_left f (let offset := h * (elt * 32) + t * elt in if offset <? row then [offset] else []) a) l a).
  { intros l. induction l as [|h l IH]; intros a' Hl; [done|]. cbn [fold_left]. rewrite unpack_offset_small by (try done; apply Hl; by left).
    cbv zeta. rewrite IH by (intros; apply Hl; by right). by destruct (_ <? _). }
  by apply G.
Qed.

(** Rows of at most four rounds fit into the registers. *)
Lemma load_local_Ok rl t : row <= 4 * (32 * elt) -> 0 <= t < 32 ->
  exists local, load elt rl t = Ok local /\
    forall h b, h ∈ unpack_rounds row elt -> unpack_offset elt t h < row -> 0 <= b < elt ->
      local (h * elt + b) = uniq_mem (uniq_buffer + wrapu 64 (rl * row) + unpack_offset elt t h + b).
Proof.
  intros Hfit Ht. unfold load_local. set (src := uniq_buffer + _).
  assert (H4 : forall h, h ∈ unpack_rounds row elt -> h < 4) by (intros h Hh%elem_of_rounds; nia).
  revert H4. generalize (unpack_rounds row elt) as l. intros l. induction l as [|h l IH] using rev_ind; intros H4.
  - exists (fun _ => 0). split; [done|]. intros h b Hh. by apply not_elem_of_nil in Hh.
  - destruct IH as (local & E & Hl); [intros h' Hh'; apply H4; set_solver|]. rewrite ofoldl_app, E. simpl.
    assert (Hh4 : h < 4) by (apply H4; set_solver).
    destruct (Z.ltb_spec (unpack_offset elt t h) row) as [Hlt|Hge].
    + rewrite (proj2 (Z.ltb_lt _ _) Hh4). eexists. split; [done|]. intros h' b Hh' Hlt' Hb. unfold copy_from.
      destruct (decide (h' = h)) as [->|Hne].
      * rewrite (proj2 (Z.leb_le _ _)), (proj2 (Z.ltb_lt _ _)) by lia. simpl. f_equal. lia.
      * replace (_ && _) with false by (symmetry; apply andb_false_iff; rewrite Z.leb_gt, Z.ltb_ge; nia).
        apply Hl; [|done|done]. apply elem_of_app in Hh' as [?|E'%list_elem_of_singleton]; [done|]. congruence.
    + exists local. split; [done|]. intros h' b Hh' Hlt' Hb. apply Hl; [|done|done].
      apply elem_of_app in Hh' as [?|E'%list_elem_of_singleton]; [done|]. subst h'. lia.
Qed.

(** Longer rows write past the registers of lane 0. *)
Lemma load_local_cases rl t :
  (exists local, load elt rl t = Ok local) \/ load elt rl t = Undef "localBuffer out of bounds".
Proof.
  unfold load_local. generalize (fun _ : Z => 0) as local. induction (unpack_rounds row elt) as [|h l IH]; intros local; simpl; [by left; eexists|].
  destruct (_ <? row); [|apply IH]. destruct (h <? 4); [apply IH|by right].
Qed.

Lemma load_local_overflow_0 rl : 4 * (32 * elt) < row -> load elt rl 0 = Undef "localBuffer out of bounds".
Proof.
  intros Hbig. unfold load_local. set (src := uniq_buffer + _).
  assert (H4 : 4 ∈ unpack_rounds row elt) by (apply elem_of_rounds; lia).
  assert (Hsub : forall h, h ∈ unpack_rounds row elt -> unpack_offset elt 0 h < row).
  { intros h Hh. rewrite unpack_offset_small by (try done; lia). apply elem_of_rounds in Hh. lia. }
  revert H4 Hsub. generalize (fun _ : Z => 0) as local. generalize (unpack_rounds row elt) as l.
  intros l. induction l as [|h l IH]; intros local H4 Hsub; [by apply not_elem_of_nil in H4|]. cbn [ofoldl].
  rewrite (proj2 (Z.ltb_lt _ _)) by (apply Hsub; by left). destruct (Z.ltb_spec h 4) as [Hh|Hh]; [|done]. cbn [obind].
  apply IH; [|intros; apply Hsub; by right]. apply elem_of_cons in H4 as [<-|?]; [lia|done].
Qed.

(** ** A thread as copies of elements *)

Definition unpack_copies (thread : Z * Z) : list (Z * Z) :=
  let '(rl, t) := thread in
  i ← seqZ 0 (d_counts_out rl);
  (fun o => (out_buffer + wrapu 64 (d_inverse_buffer (d_offsets rl + i) * row) + o, uniq_buffer + wrapu 64 (rl * row) + o)) <$> lane_offsets 32 elt row t.

Lemma store_output_copies rl t local i m1 m2 : 0 <= t < 32 ->
  (forall h b, h ∈ unpack_rounds row elt -> unpack_offset elt t h < row -> 0 <= b < elt ->
      local (h * elt + b) = uniq_mem (uniq_buffer + wrapu 64 (rl * row) + unpack_offset elt t h + b)) ->
  (forall a, m1 a = m2 a) ->
  forall a, store elt rl t local m1 i a =
    fold_left (fun m c => copy_from uniq_mem c.1 c.2 elt m)
      ((fun o => (out_buffer + wrapu 64 (d_inverse_buffer (d_offsets rl + i) * row) + o, uniq_buffer + wrapu 64 (rl * row) + o)) <$> lane_offsets 32 elt row t) m2 a.
Proof.
  intros Ht Hl Hm a. rewrite fold_left_fmap. rewrite <- (fold_rounds (fun m o => copy_from uniq_mem _ _ elt m) t m2 Ht). unfold store_output.
  apply fold_pointwise; [|done]. intros h n1 n2 Hh Hn. cbv zeta. destruct (Z.ltb_spec (unpack_offset elt t h) row) as [Hlt|]; [|done].
  apply copy_from_agree; [|done]. intros b Hb. by apply Hl.
Qed.

Lemma kernel_copies rl t m1 m2 : row <= 4 * (32 * elt) -> 0 <= t < 32 -> (forall a, m1 a = m2 a) ->
  exists m', kernel elt m1 (rl, t) = Ok m' /\
    forall a, m' a = fold_left (fun m c => copy_from uniq_mem c.1 c.2 elt m) (unpack_copies (rl, t)) m2 a.
Proof.
  intros Hfit Ht Hm. unfold UnpackDedupKernel. destruct (load_local_Ok rl t Hfit Ht) as (local & -> & Hl). cbn [obind].
  eexists. split; [done|]. unfold unpack_copies. rewrite <- fold_left_bind. apply fold_pointwise; [|done].
  intros i n1 n2 _ Hn. by apply store_output_copies.
Qed.

Lemma threads_copies ts m1 m2 : row <= 4 * (32 * elt) -> (forall rl t, (rl, t) ∈ ts -> 0 <= t < 32) -> (forall a, m1 a = m2 a) ->
  exists m', ofoldl (kernel elt) ts m1 = Ok m' /\
    forall a, m' a = fold_left (fun m c => copy_from uniq_mem c.1 c.2 elt m) (ts ≫= unpack_copies) m2 a.
Proof.
  intros Hfit. revert m1 m2. induction ts as [|[rl t] ts IH]; intros m1 m2 Ht Hm; [by eexists|]. cbn [ofoldl].
  destruct (kernel_copies rl t m1 m2 Hfit (Ht rl t ltac:(left)) Hm) as (m & -> & Hm'). cbn [obind].
  destruct (IH m _ (fun rl t H => Ht rl t (list_elem_of_further _ _ _ H)) Hm') as (m' & E & Hm''). exists m'. split; [exact E|].
  intros a. rewrite Hm''. change (((rl, t) :: ts) ≫= unpack_copies) with (unpack_copies (rl, t) ++ (ts ≫= unpack_copies)). by rewrite fold_left_app.
Qed.
End Element.

(** ** The launch *)

Lemma unpack_element_spec : 0 < row -> (unpack_element row = 16 \/ unpack_element row = 4 \/ unpack_element row = 1) /\ (unpack_element row | row).
Proof.
  intros Hr. unfold unpack_element. destruct (Z.eqb_spec (row mod 16) 0); [split; [by left|apply Z.mod_divide; lia]|].
  destruct (Z.eqb_spec (row mod 4) 0); [split; [by right; left|apply Z.mod_divide; lia]|]. split; [by right; right|apply Z.divide_1_l].
Qed.

Lemma elem_of_unpack_threads num rl t : (rl, t) ∈ unpack_threads num <-> 0 <= rl < num /\ 0 <= t < 32.
Proof.
  unfold unpack_threads. rewrite list_elem_of_bind. split.
  - intros (rl' & (t' & [= -> ->] & Ht)%list_elem_of_fmap & Hrl). rewrite elem_of_seqZ in *. lia.
  - intros [Hrl Ht]. exists rl. split; [|by apply elem_of_seqZ; lia]. apply list_elem_of_fmap. exists t. split; [done|]. apply elem_of_seqZ. lia.
Qed.

Context (order : list (Z * Z) -> list (Z * Z)) (Horder : forall l, order l ≡ₚ l).
Context (num n : Z) (Hnum : 0 < num < 2 ^ 31) (Hrow : 0 < row < 2 ^ 31) (Hfit : n * row < 2 ^ 63) (Hnn : num <= n).

(** The positions of every unique key, and the key of every position. *)
Context (seg : Z -> list Z) (owner : Z -> Z).
Context (Hcount : forall rl, 0 <= rl < num -> d_counts_out rl = Z.of_nat (length (seg rl))).
Context (Hinverse : forall rl q p, 0 <= rl < num -> seg rl !! q = Some p -> d_inverse_buffer (d_offsets rl + Z.of_nat q) = p).
Context (Hseg : forall rl p, 0 <= rl < num -> p ∈ seg rl -> 0 <= p < n /\ owner p = rl).
Context (Howner : forall p, 0 <= p < n -> 0 <= owner p < num /\ p ∈ seg (owner p)).

Definition unpack_act (p : Z) : option (Z * Z) := Some (out_buffer + p * row, uniq_buffer + owner p * row).

Lemma unpack_address p : 0 <= p < n -> wrapu 64 (p * row) = p * row.
Proof. intros Hp. apply wrapu_small. split; nia. Qed.

Lemma elem_of_unpack_copies elt rl t c : elt = 16 \/ elt = 4 \/ elt = 1 -> 0 <= rl < num -> 0 <= t < 32 ->
  c ∈ unpack_copies elt (rl, t) <-> exists p o, p ∈ seg rl /\ 0 <= o < row /\ (elt | o) /\ (o / elt) mod 32 = t /\
    c = (out_buffer + p * row + o, uniq_buffer + rl * row + o).
Proof.
  intros Helt Hrl Ht. unfold unpack_copies. rewrite list_elem_of_bind. split.
  - intros (i & (o & -> & Ho)%list_elem_of_fmap & Hi). apply elem_of_lane_offsets in Ho as (Hr & Hd & Hm); [|lia..].
    apply elem_of_seqZ in Hi. rewrite Hcount in Hi by done. destruct (lookup_lt_is_Some_2 (seg rl) (Z.to_nat i)) as [p Ep]; [lia|].
    pose proof (Hinverse rl _ p Hrl Ep) as Ei. rewrite Z2Nat.id in Ei by lia. assert (Hp : p ∈ seg rl) by (by apply list_elem_of_lookup_2 in Ep).
    destruct (Hseg rl p Hrl Hp) as [Hpn _]. exists p, o. rewrite Ei, unpack_address, (unpack_address rl) by lia. done.
  - intros (p & o & Hp & Hr & Hd & Hm & ->). destruct (Hseg rl p Hrl Hp) as [Hpn _]. apply list_elem_of_lookup in Hp as [q Eq].
    exists (Z.of_nat q). split.
    + apply list_elem_of_fmap. exists o. rewrite (Hinverse rl q p Hrl Eq), unpack_address, (unpack_address rl) by lia. split; [done|].
      by apply elem_of_lane_offsets; [lia|lia|lia|].
    + apply elem_of_seqZ. rewrite Hcount by done. apply lookup_lt_Some in Eq. lia.
Qed.

Lemma unpack_copies_of elt ts : elt = 16 \/ elt = 4 \/ elt = 1 -> (elt | row) -> ts ≡ₚ unpack_threads num ->
  copies_of elt row unpack_act n (ts ≫= unpack_copies elt).
Proof.
  intros Helt Hd Hts c. rewrite list_elem_of_bind. split.
  - intros ([rl t] & Hc & Hin). rewrite Hts in Hin. apply elem_of_unpack_threads in Hin as [Hrl Ht].
    apply elem_of_unpack_copies in Hc as (p & o & Hp & Ho & Hdo & _ & ->); [|done..]. destruct (Hseg rl p Hrl Hp) as [Hpn <-].
    by exists p, (out_buffer + p * row), (uniq_buffer + owner p * row), o.
  - intros (p & d & s & o & Hp & [= <- <-] & Hdo & Ho & ->). destruct (Howner p Hp) as [Hrl Hin].
    pose proof (Z.mod_pos_bound (o / elt) 32 ltac:(lia)). exists (owner p, (o / elt) mod 32). split.
    + apply elem_of_unpack_copies; [done|done|lia|]. by exists p, o.
    + rewrite Hts. apply elem_of_unpack_threads. lia.
Qed.

(** Every position receives the row of its unique key, and nothing else changes. *)
Lemma unpack_rows m : row <= 128 * unpack_element row ->
  exists m', UnpackDedup d_inverse_buffer d_offsets d_counts_out uniq_mem uniq_buffer out_buffer row order num m = Ok m' /\
    (forall p, 0 <= p < n -> mem_read m' (out_buffer + p * row) row = mem_read uniq_mem (uniq_buffer + owner p * row) row) /\
    (forall a, ~ (out_buffer <= a < out_buffer + n * row) -> m' a = m a).
Proof.
  intros Hbig. destruct (unpack_element_spec ltac:(lia)) as [Helt Hdiv]. unfold UnpackDedup.
  rewrite wrapu_small by (split; lia). rewrite (proj2 (Z.eqb_neq num 0)) by lia. simpl.
  destruct (threads_copies (unpack_element row) Helt Hrow Hdiv (order (unpack_threads num)) m m) as (m' & E & Hm').
  { lia. }
  { intros rl t Hin. rewrite Horder in Hin. apply elem_of_unpack_threads in Hin. lia. }
  { done. }
  exists m'. split; [exact E|].
  destruct (rows_written uniq_mem (unpack_element row) row ltac:(lia) Hdiv unpack_act n
    (fun d => mem_read uniq_mem (uniq_buffer + owner ((d - out_buffer) / row) * row) row)) with (l := order (unpack_threads num) ≫= unpack_copies (unpack_element row)) (m := m) as [H1 H2].
  - intros p d s Hp [= <- <-]. replace (out_buffer + p * row - out_buffer) with (p * row) by lia. by rewrite Z.div_mul by lia.
  - intros p p' d d' s s' Hp Hp' [= <- <-] [= <- <-].
    assert (p = p' \/ p < p' \/ p' < p) as [-> |[H|H]] by lia; [by left|right..]; unfold disjoint; nia.
  - by apply unpack_copies_of.
  - split.
    + intros p Hp. pose proof (H1 p _ _ Hp eq_refl) as H3. replace (out_buffer + p * row - out_buffer) with (p * row) in H3 by lia.
      rewrite Z.div_mul in H3 by lia. rewrite <- H3. apply mem_read_ext. intros a _. apply Hm'.
    + intros a Ha. rewrite Hm'. apply H2. intros p d s Hp [= <- <-]. nia.
Qed.
End UnpackLemmas.

(** A row of more than four rounds overflows the registers: the launch is undefined. *)
Theorem unpack_overflows inverse offsets counts uniq_mem uniq_buffer out_buffer row order num m :
  (forall l, order l ≡ₚ l) -> 0 < num < 2 ^ 31 -> 128 * unpack_element row < row < 2 ^ 31 ->
  UnpackDedup inverse offsets counts uniq_mem uniq_buffer out_buffer row order num m = Undef "localBuffer out of bounds".
Proof.
  intros Horder Hnum Hrow. destruct (unpack_element_spec row) as [Helt Hdiv]; [unfold unpack_element in Hrow; destruct (row mod 16 =? 0), (row mod 4 =? 0); lia|].
  unfold UnpackDedup. rewrite wrapu_small by (split; lia). rewrite (proj2 (Z.eqb_neq num 0)) by lia. cbn [negb].
  assert (Hin : (0, 0) ∈ order (unpack_threads num)) by (rewrite Horder; apply elem_of_unpack_threads; lia).
  revert m Hin. generalize (order (unpack_threads num)) as ts. intros ts. induction ts as [|[rl t] ts IH]; intros m Hin; [by apply not_elem_of_nil in Hin|].
  cbn [ofoldl]. unfold UnpackDedupKernel at 1. apply elem_of_cons in Hin as [[= <- <-]|Hin].
  - by rewrite load_local_overflow_0 by lia.
  - destruct (load_local_cases uniq_mem uniq_buffer row (unpack_element row) rl t) as [[local ->]| ->]; [|done]. cbn [obind]. by apply IH.
Qed.

(** ** Together with de-duplication *)

(** C32. De-duplicate keys, put a row for every unique key, spread the rows: position [p] receives the
    row that was put for the key of position [p]. *)
Theorem unpack_after_dedup IndexT sort_pairs encode exclusive_sum write_order h_location order keys n st
    uniq_mem uniq_buffer out_buffer row m :
  CubLaws sort_pairs encode exclusive_sum (2 ^ 31) -> (forall l, order l ≡ₚ l) -> 0 < n -> n + 1 < 2 ^ 31 ->
  (forall i, 0 <= i < n -> h_location i = i) -> 0 < row <= 128 * unpack_element row ->
  exists st' num m',
    dedup IndexT (-1) sort_pairs encode exclusive_sum write_order h_location keys n UniqueOut LocMap LocMap Inverse Offsets st = Ok (st', (num, num)) /\
    UnpackDedup (st' Inverse) (st' Offsets) (st' LocMap) uniq_mem uniq_buffer out_buffer row order num m = Ok m' /\
    forall p, 0 <= p < n -> exists i, 0 <= i < num /\ st' UniqueOut i = keys p /\
      mem_read m' (out_buffer + p * row) row = mem_read uniq_mem (uniq_buffer + i * row) row.
Proof.
  intros Hcub Horder Hn Hfit Hloc Hrow.
  destruct (dedup_whole_runs IndexT sort_pairs encode exclusive_sum write_order h_location keys n st Hcub Hn Hfit Hloc)
    as (st' & num & segs & Ed & [Hnum [Hb1 Hb2] Hsorted Hkeys _ Hchunk Hpos _] & Hone).
  assert (Hele : unpack_element row <= 16) by (unfold unpack_element; destruct (row mod 16 =? 0), (row mod 4 =? 0); lia).
  set (U := read UniqueOut num st') in *.
  assert (HU : forall i k, U !! i = Some k -> (i < length segs)%nat /\ st' UniqueOut (Z.of_nat i) = k).
  { intros i k Hi. unfold U, read in Hi. rewrite list_lookup_fmap in Hi. destruct (seqZ 0 num !! i) as [x|] eqn:Ex; [|done].
    apply lookup_seqZ in Ex as [-> Hx]. injection Hi as <-. split; [lia|]. done. }
  pose proof (ascending_NoDup _ Hsorted) as Hnd.
  set (owner := fun p => match list_find (eq (keys p)) U with Some (i, _) => Z.of_nat i | None => 0 end).
  assert (Hown : forall p, 0 <= p < n -> exists i, U !! i = Some (keys p) /\ owner p = Z.of_nat i).
  { intros p Hp. unfold owner. destruct (list_find_elem_of (eq (keys p)) U (keys p)) as [[i k] E]; [apply Hkeys; by exists p|done|].
    rewrite E. apply list_find_Some in E as (Ei & <- & _). by exists i. }
  set (seg := fun rl => mjoin (default [] (segs !! Z.to_nat rl))).
  assert (Hin : forall i p, (i < length segs)%nat -> p ∈ seg (Z.of_nat i) <-> 0 <= p < n /\ U !! i = Some (keys p)).
  { intros i p Hi. unfold seg. rewrite Nat2Z.id. destruct (lookup_lt_is_Some_2 segs i Hi) as [cs Ecs]. rewrite Ecs. cbn [default].
    destruct (lookup_lt_is_Some_2 U i) as [k Ek]; [unfold U, read; rewrite length_fmap, length_seqZ; lia|].
    rewrite (Hpos i k cs Ek Ecs). unfold positions. rewrite list_elem_of_filter, elem_of_seqZ, Ek. split.
    - intros [<- ?]. split; [lia|done].
    - intros [? [= ->]]. split; [done|lia]. }
  destruct (unpack_rows (st' Inverse) (st' Offsets) (st' LocMap) uniq_mem uniq_buffer out_buffer row order Horder num n)
    with (seg := seg) (owner := owner) (m := m) as (m' & E & Hrows & _).
  - lia.
  - lia.
  - nia.
  - lia.
  - intros rl Hrl. destruct (lookup_lt_is_Some_2 segs (Z.to_nat rl)) as [cs Ecs]; [lia|]. destruct (Hone _ _ Ecs) as (l & -> & El).
    unfold seg. rewrite Ecs. cbn. rewrite app_nil_r. by rewrite Z2Nat.id in El by lia.
  - intros rl q p Hrl Hq. destruct (lookup_lt_is_Some_2 segs (Z.to_nat rl)) as [cs Ecs]; [lia|]. destruct (Hone _ _ Ecs) as (l & -> & _).
    destruct (Hchunk _ _ 0%nat l Ecs eq_refl) as (_ & Hflat & _ & _ & Hinv). rewrite Hflat, Z2Nat.id in Hinv by (try done; lia).
    apply Hinv. unfold seg in Hq. rewrite Ecs in Hq. cbn in Hq. by rewrite app_nil_r in Hq.
  - intros rl p Hrl Hp. replace rl with (Z.of_nat (Z.to_nat rl)) in Hp |- * by lia. apply Hin in Hp as [Hp Ep]; [|lia]. split; [done|].
    destruct (Hown p Hp) as (i & Ei & ->). by rewrite (NoDup_lookup _ _ _ _ Hnd Ei Ep).
  - intros p Hp. destruct (Hown p Hp) as (i & Ei & ->). destruct (HU i _ Ei) as [Hi _]. split; [lia|]. by apply Hin.
  - lia.
  - exists st', num, m'. split; [done|]. split; [exact E|]. intros p Hp. destruct (Hown p Hp) as (i & Ei & Eo). destruct (HU i _ Ei) as [Hi Ek].
    exists (Z.of_nat i). split; [lia|]. split; [done|]. rewrite (Hrows p Hp). by rewrite Eo.
Qed.

(** ** Pooling *)

Section Pooled.
Context {A : Type} (init : A) (accumulate : A -> A -> A).
Context (src : Z -> A) (num_elements src_stride dst_stride hotness num_bags : Z).
Context (w : Z) (Hw : w ∈ [32; 16; 8; 4; 2; 1]) (order : list (Z * Z) -> list (Z * Z)) (Horder : forall l, order l ≡ₚ l).
Context (Hbags : 0 < num_bags < 2 ^ 31) (Hel : 0 < num_elements <= dst_stride) (Hhot : 0 <= hotness) (Hsrc : 0 <= src_stride).
Context (Hfit : num_bags * hotness * src_stride < 2 ^ 32) (Hfit' : num_bags * dst_stride < 2 ^ 32).

Local Abbreviation pooled := (bag_element init accumulate src src_stride hotness).
Local Abbreviation kernel := (EmbedPooling init accumulate src num_elements src_stride dst_stride hotness num_bags w).

(** The sum of the elements of a bag, without machine arithmetic. *)
Definition bag_sum (bag el : Z) : A :=
  fold_left (fun acc i => accumulate acc (src ((bag * hotness + i) * src_stride + el))) (seqZ 0 hotness) init.

Lemma pooled_bag_sum bag el : 0 <= bag < num_bags -> pooled bag el = bag_sum bag el.
Proof.
  intros Hb. unfold bag_element, bag_sum.
  assert (G : forall l a, (forall i, i ∈ l -> 0 <= i < hotness) ->
    fold_left (fun acc i => accumulate acc (src (wrapu 32 ((bag * hotness + i) * src_stride) + el))) l a =
    fold_left (fun acc i => accumulate acc (src ((bag * hotness + i) * src_stride + el))) l a).
  { induction l as [|i l IH]; intros a Hl; [done|]. cbn [fold_left]. pose proof (Hl i ltac:(left)).
    rewrite wrapu_small; [apply IH; intros; apply Hl; by right|]. split; [nia|].
    assert (bag * hotness + i <= num_bags * hotness) by nia. nia. }
  apply G. intros i Hi%elem_of_seqZ. lia.
Qed.

(** The writes of a thread. *)
Definition pool_writes (thread : Z * Z) : list (Z * A) :=
  let '(bag, x) := thread in
  if num_bags <=? bag then [] else (fun el => (bag * dst_stride + el, bag_sum bag el)) <$> lane_elements w num_elements x.

Lemma pool_kernel_writes dst bag x : 0 <= bag -> kernel dst (bag, x) = write_all (pool_writes (bag, x)) dst.
Proof.
  intros Hb. unfold EmbedPooling, pool_writes, write_all. destruct (Z.leb_spec num_bags bag); [done|]. rewrite fold_left_fmap. cbn [fst snd].
  rewrite wrapu_small by (split; nia). apply fold_left_ext. intros f el. by rewrite pooled_bag_sum by lia.
Qed.

Definition pool_threads (grid : Z) : list (Z * Z) := bag ← seqZ 0 (grid * (32 / w * 4)); pair bag <$> seqZ 0 w.

Lemma elem_of_pool_writes grid a v : num_bags <= grid * (32 / w * 4) ->
  (a, v) ∈ (order (pool_threads grid) ≫= pool_writes) <->
  exists bag el, 0 <= bag < num_bags /\ 0 <= el < num_elements /\ a = bag * dst_stride + el /\ v = bag_sum bag el.
Proof.
  intros Hg. apply width_cases in Hw as Hw'. assert (Hw0 : 0 < w) by lia. rewrite list_elem_of_bind. split.
  - intros ([bag x] & Hv & Ht). rewrite Horder in Ht. unfold pool_threads in Ht. apply list_elem_of_bind in Ht as (b & (x' & [= -> ->] & Hx)%list_elem_of_fmap & Hb).
    rewrite elem_of_seqZ in Hx, Hb. unfold pool_writes in Hv. destruct (Z.leb_spec num_bags b); [by apply not_elem_of_nil in Hv|].
    apply list_elem_of_fmap in Hv as (el & [= -> ->] & He). apply elem_of_lane_elements in He as [He _]; [|lia|lia].
    exists b, el. split_and!; try done; lia.
  - intros (bag & el & Hb & He & -> & ->). pose proof (Z.mod_pos_bound el w Hw0). exists (bag, el mod w). split.
    + unfold pool_writes. rewrite (proj2 (Z.leb_gt _ _)) by lia. apply list_elem_of_fmap. exists el. split; [done|].
      apply elem_of_lane_elements; [lia|lia|done].
    + rewrite Horder. unfold pool_threads. apply list_elem_of_bind. exists bag. split; [|apply elem_of_seqZ; lia].
      apply list_elem_of_fmap. exists (el mod w). split; [done|]. apply elem_of_seqZ. lia.
Qed.

(** Pooling on the device: for every width, in any order of the threads, element [el] of bag [bag]
    is the sum of the elements of its [hotness] rows, and nothing else is written. *)
Theorem embed_pooling_correct dst :
  exists dst', CallPoolingKernelVecTypeSubwarp init accumulate src num_elements src_stride dst_stride hotness num_bags w order dst = Ok dst' /\
    (forall bag el, 0 <= bag < num_bags -> 0 <= el < num_elements -> dst' (bag * dst_stride + el) = bag_sum bag el) /\
    (forall a, (forall bag el, 0 <= bag < num_bags -> 0 <= el < num_elements -> a <> bag * dst_stride + el) -> dst' a = dst a).
Proof.
  unfold CallPoolingKernelVecTypeSubwarp. cbv zeta. set (per := 32 / w * 4). set (grid := _ / per).
  assert (Hper : 0 < per <= 128) by (apply width_cases in Hw; unfold per; destruct Hw as [->|[->|[->|[->|[->| ->]]]]]; vm_compute; lia || done).
  assert (Hg : num_bags <= grid * per /\ 0 < grid).
  { unfold grid. rewrite wrapu_small by (split; lia). pose proof (Z.div_mod (num_bags + per - 1) per ltac:(lia)).
    pose proof (Z.mod_pos_bound (num_bags + per - 1) per ltac:(lia)). split; [lia|]. apply Z.div_str_pos. lia. }
  rewrite (proj2 (Z.eqb_neq grid 0)) by lia. cbn [negb]. eexists. split; [done|].
  set (ws := order (pool_threads grid) ≫= pool_writes).
  assert (E : forall dst, fold_left kernel (order (pool_threads grid)) dst = write_all ws dst).
  { unfold ws, write_all. intros d. rewrite <- fold_left_bind.
    assert (Hb : forall bag x, (bag, x) ∈ order (pool_threads grid) -> 0 <= bag).
    { intros bag x Ht. rewrite Horder in Ht. apply list_elem_of_bind in Ht as (b & (x' & [= -> ->] & _)%list_elem_of_fmap & Hb).
      rewrite elem_of_seqZ in Hb. lia. }
    revert d Hb. generalize (order (pool_threads grid)) as ts. intros ts. induction ts as [|[bag x] ts IH]; intros d Hb; [done|]. cbn [fold_left].
    rewrite pool_kernel_writes by (eapply Hb; by left). apply IH. intros b y Hy. eapply Hb. by right. }
  change (fold_left kernel _ dst) with (fold_left kernel (order (pool_threads grid)) dst). rewrite E. split.
  - intros bag el Hb He. apply write_all_elem; [by apply elem_of_pool_writes; [lia|]; exists bag, el|].
    intros v (bag' & el' & Hb' & He' & Ea & ->)%elem_of_pool_writes; [|lia].
    assert (bag = bag' \/ bag < bag' \/ bag' < bag) as [->|[H|H]] by lia; [|nia|nia]. f_equal. lia.
  - intros a Ha. apply write_all_other. intros ([a' v] & -> & (bag & el & Hb & He & Ea & _)%elem_of_pool_writes)%list_elem_of_fmap; [|lia].
    by apply (Ha bag el).
Qed.
End Pooled.

(** ** Examples *)

Module UnpackExamples.
#[local] Existing Instance DeviceTies.DemoCub.laws.
(** Five positions with three keys. *)
Definition example_keys : Z -> Z := fun i => default 0 ([7; 3; 7; 9; 3] !! Z.to_nat i).
Definition empty_store : store := fun _ _ => 0.

(** Rows of eight bytes, put at 1000 for the unique keys, spread to 2000. *)
Lemma unpack_after_dedup_witness : exists st' num m',
  dedup int64_t (-1) DemoCub.sort_pairs DemoCub.encode DemoCub.exclusive_sum id id example_keys 5 UniqueOut LocMap LocMap Inverse Offsets empty_store
    = Ok (st', (num, num)) /\
  UnpackDedup (st' Inverse) (st' Offsets) (st' LocMap) (fun a => a) 1000 2000 8 (rev (A := Z * Z)) num (fun _ => 0) = Ok m' /\
  exists i, 0 <= i < num /\ st' UniqueOut i = 9 /\ mem_read m' 2024 8 = mem_read (fun a => a) (1000 + i * 8) 8.
Proof.
  destruct (unpack_after_dedup int64_t DemoCub.sort_pairs DemoCub.encode DemoCub.exclusive_sum id id (rev (A := Z * Z)) example_keys 5 empty_store
    (fun a => a) 1000 2000 8 (fun _ => 0)) as (st' & num & m' & H1 & H2 & H3).
  - apply DeviceTies.DemoCub.laws.
  - intros l. symmetry. apply Permutation_rev.
  - lia.
  - lia.
  - reflexivity.
  - vm_compute. split; [reflexivity|discriminate].
  - exists st', num, m'. split; [exact H1|]. split; [exact H2|]. exact (H3 3 ltac:(lia)).
Defined.

(** The first row length of every kind that does not fit. *)
Lemma unpack_overflows_witness :
  128 * unpack_element 2064 < 2064 /\ 128 * unpack_element 516 < 516 /\ 128 * unpack_element 129 < 129 /\
  UnpackDedup (fun i => i) (fun i => i) (fun _ => 1) (fun _ => 0) 0 0 2064 id 1 (fun _ => 0) = Undef "localBuffer out of bounds".
Proof.
  split; [reflexivity|]. split; [reflexivity|]. split; [reflexivity|].
  apply unpack_overflows; [reflexivity|lia|vm_compute; split; reflexivity].
Defined.

(** Two bags of three rows of two elements. *)
Lemma embed_pooling_correct_witness : exists dst',
  CallPoolingKernelVecTypeSubwarp 0 Z.add (fun a => a) 2 2 2 3 2 32 id (fun _ => 0) = Ok dst' /\
  dst' (1 * 2 + 1) = bag_sum 0 Z.add (fun a => a) 2 3 1 1 /\ bag_sum 0 Z.add (fun a => a) 2 3 1 1 = 27.
Proof.
  destruct (embed_pooling_correct 0 Z.add (fun a => a) 2 2 2 3 2 32 ltac:(left) id ltac:(reflexivity) ltac:(lia) ltac:(lia) ltac:(lia) ltac:(lia)
    ltac:(lia) ltac:(lia) (fun _ => 0)) as (dst' & H1 & H2 & _).
  exists dst'. split; [exact H1|]. split; [apply (H2 1 1); lia|reflexivity].
Defined.
End UnpackExamples.
