(* ===== verification/Gradients.v ===== *)
(** * Gradients of a lookup: [cuda_ops/gradient_calculator.cuh],
    [cuda_ops/dedup_grads_kernel.cuh] and the back-propagation of the Python binding

    The gradient of a row is the sum, over the positions where its key was looked up, of the
    gradient of the output row it went into, scaled by the weight of the position. The keys are
    de-duplicated ([Dedup]); one warp sums a chunk of positions of a key in its order and adds the sum to the row
    of the key with atomic additions, in vectors of 1, 2 or 4 elements. The atomic additions of
    different chunks happen in any order. The arithmetic is that of [ElementOps]; nothing but
    commutativity of the addition is asked of it, so the statements hold for floating point. *)
From Stdlib Require Import Sorted.
From S2P Require Import Prelude BitOps EcHash SetAssoc CacheQuery DataTypes Pooling DeviceModify DeviceSelect DeviceTies DeviceOps FindAndCombine Dedup.

(** The product of an index and a 32-bit width: 32 bits for [int32_t], 64 for [int64_t]. *)
Definition mul_index (K : int_type) (a b : Z) : Z := if width K <=? 32 then wrapu 32 (a * b) else conv K (a * b).

(** The values of [i] in [for (i = 0; i < count; i += step)]. *)
Definition steps (count step : Z) : list Z := (fun m => m * step) <$> seqZ 0 (ceil_div count step).

Section Kernels.
Context {E : Type} `{!ElementOps E} (IndexT : int_type).
(** The orders of the writes and of the atomic additions of a launch. *)
Context (write_order : list (Z * Z) -> list (Z * Z)) (element_order : list (Z * E) -> list (Z * E)).

(** ** [GradientDedup] *)

Section Warp.
(** [add acc p] accumulates the element of the gradient at position [p]. *)
Context (inverse_buffer : Z -> Z) (add : E -> Z -> E).

(** [LOOP]: every lane loads an offset, lane [j] broadcasts it in turn. *)
Definition LOOP (offset count step : Z) (acc : E) : E :=
  fold_left (fun acc i =>
    let thread_offset lane := inverse_buffer (offset + (i + lane)) in
    fold_left (fun acc j => add acc (thread_offset j)) (seqZ 0 step) acc) (steps count step) acc.
(** [LOOP_SHORT]: lanes past the end keep the offset they had. *)
Definition LOOP_SHORT (offset count step : Z) (acc : E) : E :=
  (fold_left (fun (st : E * (Z -> Z)) i =>
    let thread_offset lane := if i + lane <? count then inverse_buffer (offset + (i + lane)) else st.2 lane in
    (fold_left (fun acc j => add acc (thread_offset j)) (seqZ 0 step) st.1, thread_offset)) (steps count step) (acc, fun _ => 0)).1.

Definition dedup_element (offset count : Z) : E :=
  let rest main acc := fold_left (fun acc i => add acc (inverse_buffer (offset + main + i))) (seqZ 0 (count - main)) acc in
  if count <? 8 then LOOP_SHORT offset count 1 e_zero
  else if count <? 32 then let main := count / 8 * 8 in rest main (LOOP_SHORT offset main 8 e_zero)
  else let main := count / 32 * 32 in rest main (LOOP offset main 32 e_zero).
End Warp.

(** The vectors of a row that the lanes of a warp visit, each with its elements. *)
Definition warp_elements {A} (num_vectors vec : Z) (f : Z -> Z -> A) : list A :=
  el ← steps num_vectors 32; t ← seqZ 0 32; if el + t <? num_vectors then f (el + t) <$> seqZ 0 vec else [].

(** The additions of warp [key_id]: the address of an element and what is added to it; [stride]
    is the row size in vectors. *)
Definition GradientDedup (vec stride : Z) (src : Z -> E) (st : store) (dst_loc_map : option (Z -> Z)) (key_id : Z) : list (Z * E) :=
  let count := conv IndexT (st Offsets (key_id + 1) - st Offsets key_id) in
  let offset := st Offsets key_id in
  let dst_id := match dst_loc_map with None => key_id | Some map => map key_id end in
  warp_elements stride vec (fun j c =>
    ((mul_index IndexT dst_id stride + j) * vec + c,
     dedup_element (st Inverse) (fun acc p => e_add acc (src ((mul_index IndexT p stride + j) * vec + c))) offset count)).

(** ** [ComputePoolingGradients] *)

(** The sum over the positions of a chunk; lanes past the chunk hold index 0. *)
Definition pooling_element (st : store) (weight : Z -> E) (src : Z -> E) (offset count : Z) : E :=
  fold_left (fun acc i =>
    let weight_index lane := if i + lane <? count then st Inverse (offset + i + lane) else 0 in
    let grad_index lane := if i + lane <? count then st GradMapping (weight_index lane) else 0 in
    fold_left (fun acc s => if i + s <? count then e_muladd acc (src (grad_index s)) (weight (weight_index s)) else acc) (seqZ 0 32) acc)
    (steps count 32) e_zero.

Definition ComputePoolingGradients (vec width : Z) (gradients_in weight : Z -> E) (st : store) (output_loc_map : option (Z -> Z)) (key_id : Z)
  : list (Z * E) :=
  let dst_id := match output_loc_map with None => key_id | Some map => map key_id end in
  let count := wrapu 32 (st Offsets (key_id + 1) - st Offsets key_id) in
  warp_elements width vec (fun j c =>
    ((mul_index IndexT dst_id width + j) * vec + c,
     pooling_element st weight (fun g => gradients_in ((mul_index IndexT g width + j) * vec + c)) (st Offsets key_id) count)).

(** ** Launches *)

(** [atomicAdd]. *)
Definition atomic_adds (ws : list (Z * E)) (out : Z -> E) : Z -> E := fold_left (fun out w => upd out w.1 (e_add (out w.1) w.2)) ws out.
(** [cudaMemsetAsync] of [n] elements to zero. *)
Definition clear_elements (n : Z) (out : Z -> E) : Z -> E := fun a => if (0 <=? a) && (a <? n) then e_zero else out a.
Definition vector_width (embed_width : Z) : Z := if embed_width mod 4 =? 0 then 4 else if embed_width mod 2 =? 0 then 2 else 1.

Definition CallComputeGradients (src : Z -> E) (st : store) (dst_loc_map : option (Z -> Z)) (num_unique num_runs embed_width : Z) (dst : Z -> E)
  : outcome (Z -> E) :=
  let dst := clear_elements (embed_width * num_unique) dst in
  let vec := vector_width embed_width in
  let! _ := launch_blocks num_runs 4 in
  Ok (atomic_adds (element_order (key_id ← seqZ 0 num_runs; GradientDedup vec (embed_width / vec) src st dst_loc_map key_id)) dst).

Definition CallComputePoolingGradients (gradients_in weight : Z -> E) (st : store) (output_loc_map : option (Z -> Z))
    (num_runs embedding_width : Z) (gradients_out : Z -> E) : outcome (Z -> E) :=
  let out := clear_elements (embedding_width * num_runs) gradients_out in
  let vec := vector_width embedding_width in
  let! _ := launch_blocks num_runs 4 in
  Ok (atomic_adds (element_order (key_id ← seqZ 0 num_runs;
    ComputePoolingGradients vec (embedding_width / vec) gradients_in weight st output_loc_map key_id)) out).

(** ** Bags *)

Section Bags.
Context (fixed : bool) (hotness : Z) (csr_offsets : Z -> Z).

Definition bag_start (bag_id : Z) : Z := if fixed then conv IndexT (wrapu 32 (bag_id * hotness)) else csr_offsets bag_id.
Definition bag_count (bag_id : Z) : Z := conv IndexT (if fixed then hotness else csr_offsets (bag_id + 1) - csr_offsets bag_id).

(** The exchange with the lane whose index differs in one bit, five times. *)
Definition warp_reduce (f : Z -> E) : Z -> E :=
  fold_left (fun f i t => e_add (f t) (f (Z.lxor t (2 ^ i)))) [0; 1; 2; 3; 4] f.
(** The sum of the weights of a bag, as lane [t] has it. *)
Definition lane_total (input_weights : Z -> E) (bag_id t : Z) : E :=
  fold_left (fun acc w =>
    e_add acc (warp_reduce (fun lane => if w + lane <? bag_count bag_id then input_weights (bag_start bag_id + (w + lane)) else e_zero) t))
    (steps (bag_count bag_id) 32) e_zero.
Definition ComputeNormalizedWeights (input_weights : Z -> E) (num_bags : Z) : list (Z * E) :=
  bag_id ← seqZ 0 num_bags; t ← seqZ 0 32; w ← lane_indices t (bag_count bag_id);
  [(bag_start bag_id + w, e_div (input_weights (bag_start bag_id + w)) (lane_total input_weights bag_id t))].

Definition ComputePoolingInverseMapping (num_bags : Z) : list (Z * Z) :=
  bag_id ← seqZ 0 num_bags; t ← seqZ 0 32; i ← lane_indices t (bag_count bag_id); [(bag_start bag_id + i, bag_id)].
End Bags.
End Kernels.

(** ** [GradientCalculator::compute_gradients] *)

Section Calculator.
Context {E : Type} `{!ElementOps E} (IndexT : int_type) (MAX_RUN_SIZE : Z).
Context (sort_pairs : list (Z * Z) -> list (Z * Z)) (encode : list Z -> list (Z * Z)) (exclusive_sum : list Z -> list Z).
Context (write_order : list (Z * Z) -> list (Z * Z)) (element_order : list (Z * E) -> list (Z * E)) (h_location : Z -> Z).

Definition is_mean (p : PoolingType_t) : bool := bool_decide (p = Mean) || bool_decide (p = WeightedMean).

(** The result: number of unique keys, index buffers (the unique keys among them), gradients.
    [normalized] is the content of [d_normalized_weights_] before. *)
Definition compute_gradients (fixed : bool) (keys : Z -> Z) (offsets : Z -> Z) (gradients_in : Z -> E) (weights : option (Z -> E))
    (batch num_keys hotness embedding_width : Z) (pooling_type : PoolingType_t) (st : store) (normalized gradients_out : Z -> E)
  : outcome (Z * store * (Z -> E)) :=
  let! r := dedup IndexT MAX_RUN_SIZE sort_pairs encode exclusive_sum write_order h_location keys num_keys
              UniqueOut LocMap LocMap Inverse Offsets st in
  let '(st, (num_unique_keys, num_runs)) := r in
  let loc_map st := if MAX_RUN_SIZE =? -1 then None else Some (st LocMap) in
  if bool_decide (pooling_type = Concatenate) then
    let! out := CallComputeGradients IndexT element_order gradients_in st (loc_map st) num_unique_keys num_runs embedding_width gradients_out in
    Ok (num_unique_keys, st, out)
  else
    check! negb (wrapu 32 (batch + 3) / 4 =? 0) as "invalid configuration argument" in
    let! weight :=
      (if is_mean pooling_type then
         match weights with
         | Some w => Ok (write_all (element_order (ComputeNormalizedWeights IndexT fixed hotness offsets w batch)) normalized)
         | None => if existsb (fun b => 0 <? bag_count IndexT fixed hotness offsets b) (seqZ 0 batch) then Undef "null weights" else Ok normalized
         end
       else Ok (match weights with Some w => w | None => fun _ => e_one end)) in
    let st := put_writes GradMapping (write_order (ComputePoolingInverseMapping IndexT fixed hotness offsets batch)) st in
    let! out := CallComputePoolingGradients IndexT element_order gradients_in weight st (loc_map st) num_runs embedding_width gradients_out in
    Ok (num_unique_keys, st, out).
End Calculator.

(** ** The loops of a warp are folds over the positions *)

Lemma fold_steps {A} (g : A -> Z -> A) count step a : 0 <= count -> 0 < step -> (step | count) ->
  fold_left (fun a i => fold_left (fun a j => g a (i + j)) (seqZ 0 step) a) (steps count step) a = fold_left g (seqZ 0 count) a.
Proof.
  intros Hc Hs [k Ek]. unfold steps. assert (Ec : ceil_div count step = k).
  { pose proof (ceil_div_bounds count step Hc Hs). nia. }
  rewrite Ec, <- (Z2Nat.id k) by nia. rewrite fold_chunks, Z2Nat.id by nia. by rewrite <- Ek.
Qed.

Lemma fold_steps_guarded {A} (g : A -> Z -> A) count step a : 0 <= count -> 0 < step ->
  fold_left (fun a i => fold_left (fun a j => if i + j <? count then g a (i + j) else a) (seqZ 0 step) a) (steps count step) a =
  fold_left g (seqZ 0 count) a.
Proof.
  intros Hc Hs. pose proof (ceil_div_bounds count step Hc Hs). pose proof (ceil_div_nonneg count step Hc Hs). unfold steps.
  rewrite <- (Z2Nat.id (ceil_div count step)) by lia.
  rewrite (fold_chunks (fun a p => if p <? count then g a p else a)), Z2Nat.id by lia. apply fold_guarded. lia.
Qed.

(** A fold over indices is a fold over the list they read. *)
Lemma fold_read {A} (g : A -> Z -> A) (f : Z -> Z) (l : list Z) a :
  (forall q p, l !! q = Some p -> f (Z.of_nat q) = p) -> fold_left (fun a q => g a (f q)) (seqZ 0 (Z.of_nat (length l))) a = fold_left g l a.
Proof.
  intros H. rewrite <- (fold_left_fmap g f). f_equal. apply list_eq. intros q. rewrite list_lookup_fmap.
  destruct (l !! q) as [p|] eqn:E.
  - rewrite lookup_seqZ_lt by (apply lookup_lt_Some in E; lia). simpl. by rewrite Z.add_0_l, (H _ _ E).
  - apply lookup_ge_None in E. by rewrite lookup_seqZ_ge by lia.
Qed.

Section Loops.
Context {E : Type} `{!ElementOps E} (inverse : Z -> Z) (add : E -> Z -> E).
Local Abbreviation plain offset count := (fun acc => fold_left (fun a q => add a (inverse (offset + q))) (seqZ 0 count) acc).

Lemma LOOP_spec offset count step acc : 0 <= count -> 0 < step -> (step | count) -> LOOP inverse add offset count step acc = plain offset count acc.
Proof. intros. unfold LOOP. by rewrite (fold_steps (fun a q => add a (inverse (offset + q)))). Qed.

Lemma LOOP_SHORT_spec offset count step acc : 0 <= count -> 0 < step -> (step | count) -> LOOP_SHORT inverse add offset count step acc = plain offset count acc.
Proof.
  intros Hc Hs Hd. rewrite <- (LOOP_spec offset count step) by done. unfold LOOP_SHORT, LOOP.
  assert (Hin : forall i j, i ∈ steps count step -> 0 <= j < step -> i + j < count).
  { intros i j Hi Hj. unfold steps in Hi. apply list_elem_of_fmap in Hi as (m & -> & Hm%elem_of_seqZ).
    pose proof (ceil_div_bounds count step Hc Hs). destruct Hd as [k ->]. assert (ceil_div (k * step) step <= k) by nia.
    assert (m * step <= (k - 1) * step) by nia. lia. }
  assert (G : forall l st, (forall i j, i ∈ l -> 0 <= j < step -> i + j < count) ->
    (fold_left (fun (st : E * (Z -> Z)) i =>
      let thread_offset lane := if i + lane <? count then inverse (offset + (i + lane)) else st.2 lane in
      (fold_left (fun acc j => add acc (thread_offset j)) (seqZ 0 step) st.1, thread_offset)) l st).1 =
    fold_left (fun acc i => fold_left (fun acc j => add acc (inverse (offset + (i + j)))) (seqZ 0 step) acc) l st.1).
  { induction l as [|i l IH]; intros st Hl; [done|]. cbn [fold_left]. rewrite IH by (intros; apply Hl; [by right|done]). cbn [fst]. f_equal.
    apply fold_left_ext_in. intros a j Hj%elem_of_seqZ. rewrite (proj2 (Z.ltb_lt _ _)); [done|]. apply Hl; [by left|lia]. }
  by apply G.
Qed.

Lemma dedup_element_spec offset count : 0 <= count -> dedup_element inverse add offset count = plain offset count e_zero.
Proof.
  intros Hc. unfold dedup_element.
  assert (G : forall s, 0 < s -> fold_left (fun acc i => add acc (inverse (offset + count / s * s + i))) (seqZ 0 (count - count / s * s)) (plain offset (count / s * s) e_zero)
    = plain offset count e_zero).
  { intros s Hs. pose proof (Z.mul_div_le count s Hs). pose proof (Z.div_pos count s Hc Hs).
    replace count with (count / s * s + (count - count / s * s)) at 4 by lia. rewrite seqZ_app, fold_left_app by nia.
    replace (seqZ (0 + count / s * s) (count - count / s * s)) with (Z.add (count / s * s) <$> seqZ 0 (count - count / s * s)) by (rewrite fmap_add_seqZ; f_equal; lia).
    rewrite fold_left_fmap. apply fold_left_ext_in. intros a q _. by rewrite Z.add_assoc. }
  pose proof (Z.div_pos count 8 Hc ltac:(lia)). pose proof (Z.div_pos count 32 Hc ltac:(lia)).
  destruct (Z.ltb_spec count 8); [by apply LOOP_SHORT_spec; [|lia|apply Z.divide_1_l]|]. cbv zeta. destruct (Z.ltb_spec count 32).
  - rewrite LOOP_SHORT_spec by (lia || by eexists). by apply G.
  - rewrite LOOP_spec by (lia || by eexists). by apply G.
Qed.

Lemma pooling_element_spec st weight src offset count : 0 <= count ->
  pooling_element st weight src offset count =
  fold_left (fun acc q => e_muladd acc (src (st GradMapping (st Inverse (offset + q)))) (weight (st Inverse (offset + q)))) (seqZ 0 count) e_zero.
Proof.
  intros Hc. unfold pooling_element.
  rewrite <- (fold_steps_guarded (fun acc q => e_muladd acc (src (st GradMapping (st Inverse (offset + q)))) (weight (st Inverse (offset + q)))) count 32) by lia.
  apply fold_left_ext_in. intros acc i _. apply fold_left_ext_in. intros acc' s _. destruct (i + s <? count); [|done]. by rewrite Z.add_assoc.
Qed.
End Loops.

(** ** Additions to the rows *)

Lemma fold_bind {A B} (f : A -> list B) l acc : fold_left (fun acc x => acc ++ f x) l acc = acc ++ (l ≫= f).
Proof. revert acc. induction l as [|x l IH]; intros acc; [by rewrite app_nil_r|]. cbn [fold_left]. by rewrite IH, bind_cons, app_assoc. Qed.

Lemma warp_elements_spec {A} num_vectors vec (f : Z -> Z -> A) : 0 <= num_vectors ->
  warp_elements num_vectors vec f = j ← seqZ 0 num_vectors; f j <$> seqZ 0 vec.
Proof.
  intros Hn. unfold warp_elements. transitivity (fold_left (fun acc j => acc ++ (f j <$> seqZ 0 vec)) (seqZ 0 num_vectors) []); [|by rewrite fold_bind].
  rewrite <- (fold_steps_guarded (fun acc j => acc ++ (f j <$> seqZ 0 vec)) num_vectors 32) by lia.
  rewrite <- (app_nil_l (_ ≫= _)), <- fold_bind. apply fold_left_ext_in. intros acc el _.
  rewrite <- fold_bind. apply fold_left_ext_in. intros acc' t _. destruct (el + t <? num_vectors); [done|by rewrite app_nil_r].
Qed.

Lemma filter_bind {A B} (P : B -> Prop) `{!forall x, Decision (P x)} (f : A -> list B) l : filter P (l ≫= f) = l ≫= (fun x => filter P (f x)).
Proof. induction l as [|x l IH]; [done|]. by rewrite !bind_cons, filter_app, IH. Qed.

Lemma bind_ext_in {A B} (f g : A -> list B) l : (forall x, x ∈ l -> f x = g x) -> l ≫= f = l ≫= g.
Proof. induction l as [|x l IH]; intros H; [done|]. rewrite !bind_cons, (H x) by (by left). rewrite IH; [done|]. intros; apply H. by right. Qed.

Lemma filter_fmap_bind {A B} (P : B -> Prop) `{!forall x, Decision (P x)} (f : A -> B) l :
  filter P (f <$> l) = x ← l; if bool_decide (P (f x)) then [f x] else [].
Proof.
  induction l as [|x l IH]; [done|]. rewrite fmap_cons, filter_cons, bind_cons, <- IH. case_bool_decide; [by rewrite decide_True|by rewrite decide_False].
Qed.

(** At most one element of a range satisfies an equation. *)
Lemma bind_seqZ_eq {B} k n (v : Z -> list B) :
  (j ← seqZ 0 n; if bool_decide (j = k) then v j else []) = if bool_decide (0 <= k < n) then v k else [].
Proof.
  enough (G : forall l, NoDup l -> (j ← l; if bool_decide (j = k) then v j else []) = if bool_decide (k ∈ l) then v k else []).
  { rewrite G by apply NoDup_seqZ. rewrite (bool_decide_ext (k ∈ seqZ 0 n) (0 <= k < n)); [done|]. rewrite elem_of_seqZ. lia. }
  induction 1 as [|x l Hx _ IH]; [done|]. rewrite bind_cons, IH. destruct (decide (x = k)) as [->|E].
  - rewrite (bool_decide_true (k = k)), (bool_decide_false (k ∈ l)), (bool_decide_true (k ∈ k :: l)) by (done || by left). by rewrite app_nil_r.
  - rewrite (bool_decide_false (x = k)) by done. simpl. apply (f_equal (fun b : bool => if b then v k else [])), bool_decide_ext. rewrite elem_of_cons. naive_solver.
Qed.

Section Rows.
Context {E : Type} `{!ElementOps E}.

Lemma atomic_adds_spec (ws : list (Z * E)) out a : atomic_adds ws out a = fold_left e_add (filter (fun w => w.1 = a) ws).*2 (out a).
Proof.
  unfold atomic_adds. revert out. induction ws as [|[b v] ws IH]; intros out; [done|]. cbn [fold_left]. rewrite IH, filter_cons. cbn [fst snd].
  destruct (decide (b = a)) as [->|Hne]; [rewrite upd_eq; done|by rewrite upd_ne].
Qed.

(** The additions of a warp to row [d]: one for every element of the row. *)
Lemma warp_row vec stride d (val : Z -> Z -> E) a :
  0 < vec -> 0 <= stride -> 0 <= d ->
  filter (fun w => w.1 = a) (warp_elements stride vec (fun j c => ((d * stride + j) * vec + c, val j c))) =
  if bool_decide (d * (stride * vec) <= a < (d + 1) * (stride * vec)) then [(a, val (a / vec - d * stride) (a mod vec))] else [].
Proof.
  intros Hv Hs Hd. rewrite warp_elements_spec, filter_bind by done. pose proof (Z.div_mod a vec ltac:(lia)). pose proof (Z.mod_pos_bound a vec Hv).
  rewrite (bind_ext_in _ (fun j => if bool_decide (j = a / vec - d * stride) then [(a, val j (a mod vec))] else [])).
  - rewrite (bind_seqZ_eq _ _ (fun j => [(a, val j (a mod vec))])).
    apply (f_equal (fun b : bool => if b then [(a, val (a / vec - d * stride) (a mod vec))] else [])), bool_decide_ext. nia.
  - intros j _. rewrite filter_fmap_bind. simpl.
    rewrite (bind_ext_in _ (fun c => if bool_decide (c = a - (d * stride + j) * vec) then [(a, val j c)] else [])).
    + rewrite (bind_seqZ_eq _ _ (fun c => [(a, val j c)])). case_bool_decide as E1; case_bool_decide as E2; [|nia|nia|done]. subst j.
      do 3 f_equal. nia.
    + intros c _. case_bool_decide as E1; case_bool_decide as E2; [|lia|lia|done]. by rewrite E1.
Qed.
End Rows.

(** ** The chunks of all keys *)

Lemma seqZ_bind_list {A B} (f : Z -> list B) (h : A -> list B) b (cs : list A) :
  (forall j l, cs !! j = Some l -> f (b + Z.of_nat j) = h l) -> seqZ b (Z.of_nat (length cs)) ≫= f = cs ≫= h.
Proof.
  revert b. induction cs as [|c cs IH]; intros b H; [done|]. rewrite seqZ_cons by (simpl; lia). rewrite !bind_cons.
  rewrite <- (H 0%nat c eq_refl), Z.add_0_r. f_equal. replace (Z.pred (Z.of_nat (length (c :: cs)))) with (Z.of_nat (length cs)) by (simpl; lia).
  apply IH. intros j l Hj. rewrite <- (H (S j) l Hj). f_equal. lia.
Qed.

Lemma flat_bind {A B} (f : Z -> list B) (g : nat -> A -> list B) (segs : list (list A)) :
  (forall i cs j l, segs !! i = Some cs -> cs !! j = Some l -> f (flat segs i j) = g i l) ->
  seqZ 0 (Z.of_nat (length (mjoin segs))) ≫= f = mjoin (imap (fun i cs => cs ≫= g i) segs).
Proof.
  enough (G : forall b, (forall i cs j l, segs !! i = Some cs -> cs !! j = Some l -> f (b + flat segs i j) = g i l) ->
    seqZ b (Z.of_nat (length (mjoin segs))) ≫= f = mjoin (imap (fun i cs => cs ≫= g i) segs)).
  { intros H. apply G. intros i cs j l Hi Hj. rewrite Z.add_0_l. by eapply H. }
  revert g. induction segs as [|cs segs IH]; intros g b H; [done|]. rewrite imap_cons.
  change (mjoin (cs :: segs)) with (cs ++ mjoin segs). rewrite length_app, Nat2Z.inj_add, seqZ_app, bind_app by lia. cbn [mjoin list_join]. f_equal.
  - apply seqZ_bind_list. intros j l Hj. exact (H 0%nat cs j l eq_refl Hj).
  - rewrite (IH (g ∘ S)); [done|]. intros i cs' j l Hi Hj. unfold compose. rewrite <- (H (S i) cs' j l Hi Hj). f_equal. unfold flat.
    change (take (S i) (cs :: segs)) with (cs :: take i segs). change (mjoin (cs :: take i segs)) with (cs ++ mjoin (take i segs)).
    rewrite length_app. lia.
Qed.

Lemma imap_idle {A B} (f : nat -> A -> list B) segs : (forall i x, segs !! i = Some x -> f i x = []) -> mjoin (imap f segs) = [].
Proof.
  revert f. induction segs as [|x segs IH]; intros f H; [done|]. rewrite imap_cons. cbn [mjoin list_join]. rewrite (H 0%nat x) by done. simpl.
  apply (IH (f ∘ S)). intros i y Hi. by apply (H (S i)).
Qed.
Lemma imap_select {A B} (f : nat -> A -> list B) segs i cs :
  segs !! i = Some cs -> (forall i' x, segs !! i' = Some x -> i' <> i -> f i' x = []) -> mjoin (imap f segs) = f i cs.
Proof.
  revert f i. induction segs as [|x segs IH]; intros f [|i] Hi H; [done|done|..]; rewrite imap_cons; cbn [mjoin list_join].
  - injection Hi as ->. rewrite (imap_idle (f ∘ S)) by (intros j y Hj; by apply (H (S j))). apply app_nil_r.
  - rewrite (H 0%nat x) by done. simpl. apply (IH (f ∘ S)); [done|]. intros j y Hj Hne. apply (H (S j)); [done|lia].
Qed.

(** The rows after the additions of all warps: the sum of the chunks of the key, in some
    order. [sum l e] is element [e] of the sum over chunk [l]. *)
Lemma gradient_rows {E} `{!ElementOps E} (element_order : list (Z * E) -> list (Z * E)) vec stride (segs : list (list (list Z)))
    (contrib : Z -> list (Z * E)) (val : list Z -> Z -> Z -> E) (sum : list Z -> Z -> E) (out : Z -> E) (i : nat) (cs : list (list Z)) (e : Z) :
  (forall l, element_order l ≡ₚ l) -> 0 < vec -> 0 <= stride -> segs !! i = Some cs -> 0 <= e < stride * vec ->
  out (Z.of_nat i * (stride * vec) + e) = e_zero ->
  (forall i cs j l, segs !! i = Some cs -> cs !! j = Some l ->
     contrib (flat segs i j) = warp_elements stride vec (fun j c => ((Z.of_nat i * stride + j) * vec + c, val l j c))) ->
  (forall l, l ∈ cs -> val l (e / vec) (e mod vec) = sum l e) ->
  exists chunks, chunks ≡ₚ cs /\
    atomic_adds (element_order (r ← seqZ 0 (Z.of_nat (length (mjoin segs))); contrib r)) out (Z.of_nat i * (stride * vec) + e)
      = fold_left e_add ((fun l => sum l e) <$> chunks) e_zero.
Proof.
  intros Ho Hv Hs Hi He Hz Hc Hsum. set (a := Z.of_nat i * (stride * vec) + e).
  pose proof (Z.div_mod e vec ltac:(lia)) as Hdm. pose proof (Z.mod_pos_bound e vec Hv) as Hm.
  assert (Ed : a / vec = Z.of_nat i * stride + e / vec).
  { unfold a. replace (Z.of_nat i * (stride * vec) + e) with (e + Z.of_nat i * stride * vec) by lia. rewrite Z.div_add by lia. lia. }
  assert (Em : a mod vec = e mod vec).
  { unfold a. replace (Z.of_nat i * (stride * vec) + e) with (e + Z.of_nat i * stride * vec) by lia. by rewrite Z.mod_add by lia. }
  rewrite atomic_adds_spec. change (out a = e_zero) in Hz. rewrite Hz.
  assert (Hf : (filter (fun w => w.1 = a) (r ← seqZ 0 (Z.of_nat (length (mjoin segs))); contrib r)).*2 = (fun l => sum l e) <$> cs).
  { rewrite filter_bind. rewrite (flat_bind _ (fun i' l => if bool_decide (i' = i) then [(a, sum l e)] else [])).
    - rewrite (imap_select _ _ i cs Hi).
      + rewrite bool_decide_true by done. clear. induction cs as [|l cs IH]; [done|]. rewrite bind_cons, fmap_app, IH. done.
      + intros i' x _ Hne. rewrite bool_decide_false by done. by induction x.
    - intros i' cs' j l Hi' Hj. rewrite (Hc _ _ _ _ Hi' Hj). rewrite (warp_row vec stride (Z.of_nat i') (val l)) by lia.
      destruct (decide (i' = i)) as [->|Hne].
      + rewrite !bool_decide_true by (done || unfold a; lia). do 3 f_equal. rewrite Ed, Em.
        replace (Z.of_nat i * stride + e / vec - Z.of_nat i * stride) with (e / vec) by lia. apply Hsum.
        rewrite Hi in Hi'. injection Hi' as <-. by apply list_elem_of_lookup_2 in Hj.
      + rewrite !bool_decide_false; [done|done|]. unfold a. intros [H1 H2]. apply Hne. nia. }
  assert (Hp : (filter (fun w => w.1 = a) (element_order (r ← seqZ 0 (Z.of_nat (length (mjoin segs))); contrib r))).*2 ≡ₚ (fun l => sum l e) <$> cs).
  { rewrite <- Hf. by rewrite Ho. }
  apply Permutation_map_inv in Hp as (chunks & -> & Hp). exists chunks. by split.
Qed.

(** ** Weights and bags *)

Definition index_limit (K : int_type) : Z := if width K <=? 32 then 2 ^ 32 else 2 ^ 63.
Lemma mul_index_small K a b : K = int32_t \/ K = int64_t -> 0 <= a * b < index_limit K -> mul_index K a b = a * b.
Proof.
  intros [-> | ->] H; unfold mul_index, index_limit in *; simpl in *; [apply wrapu_small; unfold in_u; lia|].
  apply conv_small; unfold in_range, in_s; simpl; lia.
Qed.

Lemma vector_width_ok w : 0 < w -> 0 < vector_width w /\ w / vector_width w * vector_width w = w.
Proof.
  intros Hw. unfold vector_width. destruct (Z.eqb_spec (w mod 4) 0); [|destruct (Z.eqb_spec (w mod 2) 0)].
  - pose proof (Z.div_mod w 4). lia.
  - pose proof (Z.div_mod w 2). lia.
  - rewrite Z.div_1_r. lia.
Qed.

Section Weights.
Context {E : Type} `{!ElementOps E} (e_add_comm : forall a b : E, e_add a b = e_add b a).

(** The lanes of a warp end with the same sum. *)
Lemma warp_reduce_lanes f t : 0 <= t < 32 -> warp_reduce f t = warp_reduce f 0.
Proof.
  pose (step (f : Z -> E) i := fun t => e_add (f t) (f (Z.lxor t (2 ^ i)))).
  assert (Hx : forall f i j t, (forall t, f (Z.lxor t (2 ^ j)) = f t) -> step f i (Z.lxor t (2 ^ j)) = step f i t).
  { intros f' i j t' H. unfold step. rewrite H. f_equal. by rewrite Z.lxor_assoc, (Z.lxor_comm (2 ^ j)), <- Z.lxor_assoc, H. }
  assert (Hi : forall f i t, step f i (Z.lxor t (2 ^ i)) = step f i t).
  { intros f' i t'. unfold step. rewrite Z.lxor_assoc, Z.lxor_nilpotent, Z.lxor_0_r. apply e_add_comm. }
  set (g := warp_reduce f). assert (Hg : forall j t, j ∈ [0; 1; 2; 3; 4] -> g (Z.lxor t (2 ^ j)) = g t).
  { assert (Eg : g = step (step (step (step (step f 0) 1) 2) 3) 4) by done. rewrite Eg. intros j t' Hj.
    repeat (apply elem_of_cons in Hj as [->|Hj]; [repeat first [apply Hi|apply Hx; intros]|]). by apply not_elem_of_nil in Hj. }
  assert (Hl : forallb (fun m => forallb (fun t => Z.lxor t (2 ^ m) =? t + 2 ^ m) (seqZ 0 (2 ^ m))) [0; 1; 2; 3; 4] = true) by (vm_compute; reflexivity).
  assert (G : forall m, (m <= 5)%nat -> forall t, 0 <= t < 2 ^ Z.of_nat m -> g t = g 0).
  { induction m as [|m IH]; intros Hm t' Ht; [simpl in Ht; f_equal; lia|]. destruct (Z.lt_ge_cases t' (2 ^ Z.of_nat m)); [by apply IH; lia|].
    rewrite Nat2Z.inj_succ, Z.pow_succ_r in Ht by lia. assert (Hm' : Z.of_nat m ∈ [0; 1; 2; 3; 4]) by (do 5 (destruct m as [|m]; [set_solver|]); lia).
    rewrite forallb_forall in Hl. specialize (Hl (Z.of_nat m) ltac:(by apply list_elem_of_In)). rewrite forallb_forall in Hl.
    specialize (Hl (t' - 2 ^ Z.of_nat m) ltac:(apply list_elem_of_In, elem_of_seqZ; lia)). apply Z.eqb_eq in Hl.
    replace t' with (Z.lxor (t' - 2 ^ Z.of_nat m) (2 ^ Z.of_nat m)) by lia. rewrite Hg by done. apply IH; lia. }
  intros Ht. apply (G 5%nat); [lia|]. simpl. lia.
Qed.

Context (IndexT : int_type) (fixed : bool) (hotness : Z) (offsets : Z -> Z) (batch n : Z).
Local Abbreviation start := (bag_start IndexT fixed hotness offsets).
Local Abbreviation count := (bag_count IndexT fixed hotness offsets).

(** The bags cover the positions: [bag_of p] is the bag of position [p]. *)
Record bags_ok (bag_of : Z -> Z) : Prop := {
  bo_bag p : 0 <= p < n -> 0 <= bag_of p < batch /\ start (bag_of p) <= p < start (bag_of p) + count (bag_of p);
  bo_unique b p : 0 <= b < batch -> start b <= p < start b + count b -> 0 <= p < n /\ b = bag_of p
}.
Context (bag_of : Z -> Z) (Hbags : bags_ok bag_of).

Lemma lane_total_lanes w b t : 0 <= t < 32 -> lane_total IndexT fixed hotness offsets w b t = lane_total IndexT fixed hotness offsets w b 0.
Proof. intros Ht. unfold lane_total. apply fold_left_ext_in. intros acc i _. f_equal. by apply warp_reduce_lanes. Qed.

Lemma elem_of_bag_writes {A} (v : Z -> Z -> Z -> A) a x :
  (a, x) ∈ (b ← seqZ 0 batch; t ← seqZ 0 32; i ← lane_indices t (count b); [(start b + i, v b t (start b + i))]) ->
  exists t, 0 <= a < n /\ 0 <= t < 32 /\ x = v (bag_of a) t a.
Proof.
  intros (b & H & Hb%elem_of_seqZ)%list_elem_of_bind. apply list_elem_of_bind in H as (t & H & Ht%elem_of_seqZ).
  apply list_elem_of_bind in H as (i & H & Hi). apply list_elem_of_singleton in H as [= -> ->]. apply elem_of_lane_indices in Hi; [|lia].
  destruct (bo_unique _ Hbags b (start b + i) ltac:(lia) ltac:(lia)) as [Hn <-]. exists t. split_and!; [lia..|done].
Qed.
Lemma bag_writes_complete {A} (v : Z -> Z -> Z -> A) p : 0 <= p < n -> exists t, 0 <= t < 32 /\
  (p, v (bag_of p) t p) ∈ (b ← seqZ 0 batch; t ← seqZ 0 32; i ← lane_indices t (count b); [(start b + i, v b t (start b + i))]).
Proof.
  intros Hp. destruct (bo_bag _ Hbags p Hp) as [Hb Hr]. destruct (proj2 (lanes_cover (count (bag_of p)) (p - start (bag_of p))) ltac:(lia)) as (t & Ht & Hi).
  exists t. split; [apply elem_of_seqZ in Ht; lia|]. apply list_elem_of_bind. exists (bag_of p). split; [|apply elem_of_seqZ; lia].
  apply list_elem_of_bind. exists t. split; [|done]. apply list_elem_of_bind. exists (p - start (bag_of p)). split; [|done].
  apply list_elem_of_singleton. by replace (start (bag_of p) + (p - start (bag_of p))) with p by lia.
Qed.

Lemma bag_buffer {A} (order : list (Z * A) -> list (Z * A)) (v : Z -> Z -> Z -> A) f p :
  (forall l, order l ≡ₚ l) -> (forall b t p, 0 <= t < 32 -> v b t p = v b 0 p) -> 0 <= p < n ->
  write_all (order (b ← seqZ 0 batch; t ← seqZ 0 32; i ← lane_indices t (count b); [(start b + i, v b t (start b + i))])) f p = v (bag_of p) 0 p.
Proof.
  intros Ho Hv Hp. apply write_all_elem.
  - rewrite Ho. destruct (bag_writes_complete v p Hp) as (t & Ht & H). by rewrite Hv in H.
  - intros x. rewrite Ho. intros (t & _ & Ht & ->)%elem_of_bag_writes. by apply Hv.
Qed.
End Weights.

(** ** The gradients *)

Section Correct.
Context {E : Type} `{!ElementOps E} (e_add_comm : forall a b : E, e_add a b = e_add b a).
Context (IndexT : int_type) (MAX_RUN_SIZE : Z).
Context (sort_pairs : list (Z * Z) -> list (Z * Z)) (encode : list Z -> list (Z * Z)) (exclusive_sum : list Z -> list Z).
Context (write_order : list (Z * Z) -> list (Z * Z)) (element_order : list (Z * E) -> list (Z * E)) (h_location : Z -> Z).
Context {Hcub : CubLaws sort_pairs encode exclusive_sum (2 ^ 31)}.
Context (Hwo : forall l, write_order l ≡ₚ l) (Heo : forall l, element_order l ≡ₚ l).
Context (HK : IndexT = int32_t \/ IndexT = int64_t) (Hmax : MAX_RUN_SIZE = -1 \/ 0 < MAX_RUN_SIZE).
Context (fixed : bool) (keys offsets : Z -> Z) (gradients_in : Z -> E) (weights : option (Z -> E)) (batch n hotness width : Z) (pooling : PoolingType_t).
Context (bag_of : Z -> Z).

(** The weight of a position, and what the position adds to element [e] of the gradient. *)
Definition position_weight (p : Z) : E :=
  match weights with
  | None => e_one
  | Some w => if is_mean pooling then e_div (w p) (lane_total IndexT fixed hotness offsets w (bag_of p) 0) else w p
  end.
Definition add_position (e : Z) (acc : E) (p : Z) : E :=
  if bool_decide (pooling = Concatenate) then e_add acc (gradients_in (p * width + e))
  else e_muladd acc (gradients_in (bag_of p * width + e)) (position_weight p).
Definition chunk_gradient (e : Z) (l : list Z) : E := fold_left (add_position e) l e_zero.

Record backprop_ok : Prop := {
  bp_n : 0 < n;
  bp_fit : n + Z.abs MAX_RUN_SIZE < 2 ^ 31;
  bp_width : 0 < width;
  bp_rows : n * width < index_limit IndexT;
  bp_pooled : pooling <> Concatenate -> 0 < batch < 2 ^ 31 /\ batch * width < index_limit IndexT /\ bags_ok IndexT fixed hotness offsets batch n bag_of;
  bp_weights : is_mean pooling = true -> is_Some weights;
  bp_location i : 0 <= i < n -> h_location i = i
}.

Local Abbreviation vec := (vector_width width).
Local Abbreviation stride := (width / vec).

Lemma stride_mul d : 0 <= d -> d * width < index_limit IndexT -> 0 < width -> mul_index IndexT d stride = d * stride.
Proof.
  intros Hd Hl Hw. destruct (vector_width_ok width Hw) as [Hv Ev]. assert (0 <= stride) by (apply Z.div_pos; lia). apply mul_index_small; [done|]. nia.
Qed.
Lemma row_address d e : 0 < width -> (d * stride + e / vec) * vec + e mod vec = d * width + e.
Proof.
  intros Hw. destruct (vector_width_ok width Hw) as [Hv Ev]. pose proof (Z.div_mod e vec ltac:(lia)). nia.
Qed.

Section Dedupped.
Context (st : store) (num_unique num_runs : Z) (segs : list (list (list Z))) (Hok : dedup_ok MAX_RUN_SIZE keys n st num_unique num_runs segs).
Context (Hbp : backprop_ok).
Local Abbreviation loc_map := (if MAX_RUN_SIZE =? -1 then None else Some (st LocMap)).

Lemma unique_index i cs : segs !! i = Some cs -> exists k, read UniqueOut num_unique st !! i = Some k.
Proof.
  intros Hi. apply lookup_lt_Some in Hi. apply lookup_lt_is_Some_2. unfold read. rewrite length_fmap, length_seqZ, (do_num _ _ _ _ _ _ _ Hok). lia.
Qed.
(** A chunk has positions of its key. *)
Lemma chunk_positions i cs l p : segs !! i = Some cs -> l ∈ cs -> p ∈ l -> 0 <= p < n.
Proof.
  intros Hi Hl Hp. destruct (unique_index i cs Hi) as [k Hk]. assert (H : p ∈ mjoin cs) by (apply list_elem_of_join; eauto).
  rewrite (do_positions _ _ _ _ _ _ _ Hok i k cs Hk Hi) in H. unfold positions in H. apply list_elem_of_filter in H as [_ H%elem_of_seqZ]. lia.
Qed.
Lemma chunk_length i cs l : segs !! i = Some cs -> l ∈ cs -> 0 < Z.of_nat (length l) <= n.
Proof.
  intros Hi Hl. destruct (unique_index i cs Hi) as [k Hk]. pose proof (do_size _ _ _ _ _ _ _ Hok i cs l Hi Hl) as [H0 _]. split; [lia|].
  assert (Hs : l ⊆+ mjoin cs) by (apply list_elem_of_split in Hl as (l1 & l2 & ->); rewrite join_app; cbn [mjoin list_join]; by apply submseteq_inserts_l, submseteq_inserts_r).
  rewrite (do_positions _ _ _ _ _ _ _ Hok i k cs Hk Hi) in Hs. apply submseteq_length in Hs. unfold positions in Hs.
  pose proof (length_filter (fun p => keys p = k) (seqZ 0 n)). rewrite length_seqZ in *. lia.
Qed.

(** Chunk [j] of key [i] as the kernels see it. *)
Lemma chunk_warp i cs j l : segs !! i = Some cs -> cs !! j = Some l ->
  let r := flat segs i j in
  match loc_map with None => r | Some map => map r end = Z.of_nat i /\ mul_index IndexT (Z.of_nat i) stride = Z.of_nat i * stride /\
  conv IndexT (st Offsets (r + 1) - st Offsets r) = Z.of_nat (length l) /\ wrapu 32 (st Offsets (r + 1) - st Offsets r) = Z.of_nat (length l) /\
  (forall q p, l !! q = Some p -> st Inverse (st Offsets r + Z.of_nat q) = p).
Proof.
  intros Hi Hj r. destruct (do_chunk _ _ _ _ _ _ _ Hok i cs j l Hi Hj) as (H1 & H2 & _ & Eo & Hq). fold r in H1, H2, Eo, Hq.
  pose proof (chunk_length i cs l Hi ltac:(by apply list_elem_of_lookup_2 in Hj)) as Hl. pose proof (bp_fit Hbp).
  pose proof (lookup_lt_Some _ _ _ Hi). pose proof (do_bounds _ _ _ _ _ _ _ Hok). pose proof (do_num _ _ _ _ _ _ _ Hok).
  rewrite Eo. replace (st Offsets r + Z.of_nat (length l) - st Offsets r) with (Z.of_nat (length l)) by lia. split_and!; [| | | |done].
  - destruct (Z.eqb_spec MAX_RUN_SIZE (-1)); [by apply H2|by apply H1].
  - pose proof (bp_width Hbp). pose proof (bp_rows Hbp). apply stride_mul; nia.
  - destruct HK as [-> | ->]; apply conv_small; unfold in_range, in_s; simpl; lia.
  - apply wrapu_small. unfold in_u. lia.
Qed.

(** The rows that either kernel leaves. *)
Lemma gradients_of_chunks (contrib : Z -> list (Z * E)) (val : list Z -> Z -> Z -> E) (cleared : Z) out i k e :
  num_unique <= cleared ->
  (forall i cs j l, segs !! i = Some cs -> cs !! j = Some l ->
     contrib (flat segs i j) = warp_elements stride vec (fun j c => ((Z.of_nat i * stride + j) * vec + c, val l j c))) ->
  (forall i cs l e, segs !! i = Some cs -> l ∈ cs -> 0 <= e < width -> val l (e / vec) (e mod vec) = chunk_gradient e l) ->
  read UniqueOut num_unique st !! i = Some k -> 0 <= e < width ->
  exists chunks, mjoin chunks ≡ₚ positions keys n k /\ Forall (fun l => (0 < length l)%nat /\ (MAX_RUN_SIZE <> -1 -> Z.of_nat (length l) <= MAX_RUN_SIZE)) chunks /\
    atomic_adds (element_order (r ← seqZ 0 num_runs; contrib r)) (clear_elements (width * cleared) out) (Z.of_nat i * width + e)
      = fold_left e_add (chunk_gradient e <$> chunks) e_zero.
Proof.
  intros Hcl Hc Hv Hk He. pose proof (bp_width Hbp) as Hw. destruct (vector_width_ok width Hw) as [Hvec Ev].
  assert (Hlt : (i < length segs)%nat).
  { apply lookup_lt_Some in Hk. unfold read in Hk. rewrite length_fmap, length_seqZ in Hk. pose proof (do_num _ _ _ _ _ _ _ Hok). lia. }
  destruct (lookup_lt_is_Some_2 segs i Hlt) as [cs Hi]. pose proof (do_num _ _ _ _ _ _ _ Hok) as Hnum.
  assert (Hz : clear_elements (width * cleared) out (Z.of_nat i * (stride * vec) + e) = e_zero).
  { unfold clear_elements. rewrite Ev. rewrite (proj2 (Z.leb_le _ _)), (proj2 (Z.ltb_lt _ _)) by nia. done. }
  destruct (gradient_rows element_order vec stride segs contrib val (fun l e => chunk_gradient e l) _ i cs e Heo Hvec ltac:(apply Z.div_pos; lia) Hi
    ltac:(lia) Hz Hc ltac:(intros l Hl; by eapply Hv)) as (chunks & Hp & Hr).
  exists chunks. rewrite Ev, <- (do_runs _ _ _ _ _ _ _ Hok) in Hr. split_and!; [|apply Forall_forall; intros l Hl; rewrite Hp in Hl; by eapply (do_size _ _ _ _ _ _ _ Hok)|done].
  rewrite <- (do_positions _ _ _ _ _ _ _ Hok i k cs Hk Hi). by rewrite Hp.
Qed.

Lemma warp_elements_ext {A} num_vectors vec' (f g : Z -> Z -> A) : (forall j c, f j c = g j c) -> warp_elements num_vectors vec' f = warp_elements num_vectors vec' g.
Proof.
  intros H. unfold warp_elements. apply bind_ext_in. intros el _. apply bind_ext_in. intros t _. destruct (el + t <? num_vectors); [|done].
  apply list_fmap_ext. intros; apply H.
Qed.

Lemma concat_warps i cs j l : segs !! i = Some cs -> cs !! j = Some l ->
  GradientDedup IndexT vec stride gradients_in st loc_map (flat segs i j) =
  warp_elements stride vec (fun j c => ((Z.of_nat i * stride + j) * vec + c,
    fold_left (fun acc p => e_add acc (gradients_in ((mul_index IndexT p stride + j) * vec + c))) l e_zero)).
Proof.
  intros Hi Hj. destruct (chunk_warp i cs j l Hi Hj) as (E1 & E2 & E3 & _ & Hq). unfold GradientDedup. rewrite E1, E2, E3.
  apply warp_elements_ext. intros j' c. f_equal. rewrite dedup_element_spec by lia.
  by rewrite (fold_read (fun acc p => e_add acc (gradients_in ((mul_index IndexT p stride + j') * vec + c))) (fun q => st Inverse (st Offsets (flat segs i j) + q))).
Qed.
Lemma concat_values i cs l e : pooling = Concatenate -> segs !! i = Some cs -> l ∈ cs -> 0 <= e < width ->
  fold_left (fun acc p => e_add acc (gradients_in ((mul_index IndexT p stride + e / vec) * vec + e mod vec))) l e_zero = chunk_gradient e l.
Proof.
  intros Hp Hi Hl He. unfold chunk_gradient. apply fold_left_ext_in. intros acc p Hpl. unfold add_position. rewrite bool_decide_true by done.
  pose proof (chunk_positions i cs l p Hi Hl Hpl). pose proof (bp_width Hbp). pose proof (bp_rows Hbp).
  rewrite stride_mul, row_address by nia. done.
Qed.

Context (weight : Z -> E) (Hpool : pooling <> Concatenate).
Context (Hweight : forall p, 0 <= p < n -> weight p = position_weight p) (Hmap : forall p, 0 <= p < n -> st GradMapping p = bag_of p).

Lemma pooling_warps i cs j l : segs !! i = Some cs -> cs !! j = Some l ->
  ComputePoolingGradients IndexT vec stride gradients_in weight st loc_map (flat segs i j) =
  warp_elements stride vec (fun j c => ((Z.of_nat i * stride + j) * vec + c,
    fold_left (fun acc p => e_muladd acc (gradients_in ((mul_index IndexT (st GradMapping p) stride + j) * vec + c)) (weight p)) l e_zero)).
Proof.
  intros Hi Hj. destruct (chunk_warp i cs j l Hi Hj) as (E1 & E2 & _ & E4 & Hq). unfold ComputePoolingGradients. rewrite E1, E2, E4.
  apply warp_elements_ext. intros j' c. f_equal. rewrite pooling_element_spec by lia.
  by rewrite (fold_read (fun acc p => e_muladd acc (gradients_in ((mul_index IndexT (st GradMapping p) stride + j') * vec + c)) (weight p))
    (fun q => st Inverse (st Offsets (flat segs i j) + q))).
Qed.
Lemma pooling_values i cs l e : segs !! i = Some cs -> l ∈ cs -> 0 <= e < width ->
  fold_left (fun acc p => e_muladd acc (gradients_in ((mul_index IndexT (st GradMapping p) stride + e / vec) * vec + e mod vec)) (weight p)) l e_zero = chunk_gradient e l.
Proof.
  intros Hi Hl He. unfold chunk_gradient. apply fold_left_ext_in. intros acc p Hpl. unfold add_position. rewrite bool_decide_false by done.
  pose proof (chunk_positions i cs l p Hi Hl Hpl) as Hp. pose proof (bp_width Hbp). destruct (bp_pooled Hbp Hpool) as (Hb & Hbw & Hbags).
  destruct (bo_bag _ _ _ _ _ _ _ Hbags p Hp) as [Hbp' _]. rewrite Hmap, Hweight by done. rewrite stride_mul, row_address by nia. done.
Qed.
End Dedupped.

(** The result of the gradient calculation: the unique keys are the keys that occur, in
    ascending order; element [e] of the gradient of a key is a sum of chunks of its
    positions, of at most [MAX_RUN_SIZE] positions each, in some order of the chunks. *)
Definition gradients_ok (r : Z * store * (Z -> E)) : Prop :=
  let '(num_unique, st, out) := r in
  StronglySorted Z.lt (read UniqueOut num_unique st) /\
  (forall k, k ∈ read UniqueOut num_unique st <-> exists p, 0 <= p < n /\ keys p = k) /\
  (forall i k e, read UniqueOut num_unique st !! i = Some k -> 0 <= e < width ->
    exists chunks, mjoin chunks ≡ₚ positions keys n k /\
      Forall (fun l => (0 < length l)%nat /\ (MAX_RUN_SIZE <> -1 -> Z.of_nat (length l) <= MAX_RUN_SIZE)) chunks /\
      out (Z.of_nat i * width + e) = fold_left e_add (chunk_gradient e <$> chunks) e_zero).

Lemma compute_gradients_lemma st normalized out : backprop_ok ->
  exists r, compute_gradients IndexT MAX_RUN_SIZE sort_pairs encode exclusive_sum write_order element_order h_location
              fixed keys offsets gradients_in weights batch n hotness width pooling st normalized out = Ok r /\ gradients_ok r.
Proof.
  intros Hbp. destruct (dedup_correct IndexT MAX_RUN_SIZE sort_pairs encode exclusive_sum write_order h_location keys n st Hcub Hwo HK Hmax
    (bp_n Hbp) (bp_fit Hbp) (bp_location Hbp)) as (st1 & nu & nr & segs & Ed & Hok).
  unfold compute_gradients. rewrite Ed. cbn [obind]. pose proof (do_bounds _ _ _ _ _ _ _ Hok) as Hb. pose proof (bp_fit Hbp) as Hf.
  assert (Hl : launch_blocks nr 4 = Ok tt) by (apply launch_blocks_ok; lia).
  destruct (decide (pooling = Concatenate)) as [Hp|Hp].
  - rewrite bool_decide_true by done. unfold CallComputeGradients. rewrite Hl. cbn [obind]. eexists. split; [done|].
    split; [apply (do_unique _ _ _ _ _ _ _ Hok)|]. split; [apply (do_keys _ _ _ _ _ _ _ Hok)|]. intros i k e Hk He.
    eapply (gradients_of_chunks st1 nu nr segs Hok Hbp); [done|by apply (concat_warps st1 nu nr segs Hok Hbp)| |done|done].
    intros. by eapply (concat_values st1 nu nr segs Hok Hbp).
  - rewrite bool_decide_false by done. destruct (bp_pooled Hbp Hp) as (Hba & _ & Hbags).
    rewrite wrapu_small by (unfold in_u; lia). rewrite (proj2 (Z.eqb_neq _ _)) by (intros H; pose proof (Z.div_str_pos (batch + 3) 4 ltac:(lia)); lia).
    cbn [negb]. set (w := if is_mean pooling then _ else _).
    assert (Hw : exists weight, w = Ok weight /\ forall p, 0 <= p < n -> weight p = position_weight p).
    { unfold w, position_weight. destruct (is_mean pooling) eqn:Em; [|eexists; split; [done|]; by destruct weights].
      destruct (bp_weights Hbp Em) as [v ->]. eexists. split; [done|]. intros p Hpn. unfold ComputeNormalizedWeights.
      rewrite (bag_buffer IndexT fixed hotness offsets batch n bag_of Hbags element_order (fun b t p => e_div (v p) (lane_total IndexT fixed hotness offsets v b t))); [done|done| |done].
      intros b t p' Ht. by rewrite (lane_total_lanes e_add_comm). }
    destruct Hw as (weight & -> & Hweight). cbn [obind]. set (st2 := put_writes GradMapping _ st1).
    assert (Hst : forall b, b <> GradMapping -> st2 b = st1 b) by (intros; by apply put_writes_ne).
    assert (Hmap : forall p, 0 <= p < n -> st2 GradMapping p = bag_of p).
    { intros p Hpn. unfold st2. rewrite put_writes_eq. unfold ComputePoolingInverseMapping.
      by apply (bag_buffer IndexT fixed hotness offsets batch n bag_of Hbags write_order (fun b _ _ => b)). }
    assert (Hru : read UniqueOut nu st2 = read UniqueOut nu st1) by (unfold read; by rewrite Hst).
    assert (Hok2 : dedup_ok MAX_RUN_SIZE keys n st2 nu nr segs).
    { destruct Hok. constructor; rewrite ?Hru; done. }
    clearbody st2. unfold CallComputePoolingGradients. rewrite Hl. cbn [obind]. eexists. split; [done|].
    split; [apply (do_unique _ _ _ _ _ _ _ Hok2)|]. split; [apply (do_keys _ _ _ _ _ _ _ Hok2)|]. intros i k e Hk He.
    eapply (gradients_of_chunks st2 nu nr segs Hok2 Hbp); [lia|by apply (pooling_warps st2 nu nr segs Hok2 Hbp)| |done|done].
    intros. by eapply (pooling_values st2 nu nr segs Hok2 Hbp).
Qed.
End Correct.

(** ** Device memory of the calculation *)

(** [((x + (1 << k) - 1) >> k) << k], without bounds and on [size_t]. *)
Definition align (k x : Z) : Z := Z.shiftl (Z.shiftr (x + (2 ^ k - 1)) k) k.
Definition align_size (k x : Z) : Z := Z.shiftl (Z.shiftr (wrapu 64 (x + (2 ^ k - 1))) k) k.

(** [n + 1] in an integer type: the largest signed number has no successor. *)
Definition int_succ (T : int_type) (n : Z) : outcome Z :=
  if is_signed T && (n + 1 =? 2 ^ (width T - 1)) then Undef "signed integer overflow" else Ok (conv T (n + 1)).

(** [sizeof(T) * n] and sums of sizes on [size_t]. *)
Definition buffer_size (element n : Z) : Z := wrapu 64 (element * wrapu 64 n).
Definition sum_sizes (start : Z) (l : list Z) : Z := fold_left (fun acc x => wrapu 64 (acc + x)) l start.

(** [temp_storage_bytes_sort_], [temp_storage_bytes_encode_], [temp_storage_bytes_ex_sum_]. *)
Record temp_storage := { ts_sort : Z; ts_encode : Z; ts_ex_sum : Z }.

Section Layout.
(** The temporary storage that CUB asks for. *)
Context (sort_bytes encode_bytes scan_bytes : Z -> Z) (IndexT : int_type) (MAX_RUN_SIZE : Z).
Local Abbreviation sizeof_index := (width IndexT / 8).

(** [Deduper::get_alloc_requirements], with the sizes it keeps: device and host memory. *)
Definition dedup_requirements (num_keys : Z) : outcome (temp_storage * (Z * Z)) :=
  let! num_keys_ := int_succ int32_t (wraps 32 num_keys) in
  let ts := {| ts_sort := align_size 9 (sort_bytes num_keys); ts_encode := align_size 9 (encode_bytes (wraps 32 num_keys));
               ts_ex_sum := align_size 9 (scan_bytes num_keys_) |} in
  let index_buffer_size := align_size 10 (buffer_size sizeof_index (num_keys + 1)) in
  let device := sum_sizes 0 ([ts_sort ts; ts_encode ts; ts_ex_sum ts; index_buffer_size; index_buffer_size]
    ++ (if MAX_RUN_SIZE =? -1 then [] else [index_buffer_size; index_buffer_size; index_buffer_size])) in
  Ok (ts, (device, index_buffer_size)).
(** [GradientCalculator::get_alloc_requirements]; the keys are counted in [IndexT]. *)
Definition gradient_requirements (num_keys data_element_size : Z) : outcome (temp_storage * (Z * Z)) :=
  let! r := dedup_requirements (wrapu 64 num_keys) in
  let '(ts, (device, host)) := r in
  let! n := int_succ IndexT num_keys in
  let index_buffer_size := align_size 9 (buffer_size sizeof_index n) in
  let weights_buffer_size := align_size 9 (buffer_size data_element_size n) in
  Ok (ts, (sum_sizes device [index_buffer_size; weights_buffer_size; index_buffer_size; index_buffer_size; index_buffer_size; index_buffer_size], host)).

(** What [set_and_init_buffers] advances [curr_device_ptr] by, buffer after buffer. *)
Definition dedup_buffers (ts : temp_storage) (num_keys : Z) : list Z :=
  let index := align_size 9 (buffer_size sizeof_index (num_keys + 1)) in
  [ts_sort ts; ts_encode ts; ts_ex_sum ts; index; index] ++ (if MAX_RUN_SIZE =? -1 then [] else [index; index; index]).
Definition gradient_buffers (ts : temp_storage) (num_keys data_element_size : Z) : outcome (list Z) :=
  let! n := int_succ IndexT num_keys in
  let index := align_size 9 (buffer_size sizeof_index n) in
  let weights := align_size 9 (buffer_size data_element_size n) in
  Ok ([index; weights; index; index; index; index] ++ dedup_buffers ts (wrapu 64 num_keys)).

(** What the calculation stores in these buffers: [num_keys + 1] indices or weights, and the
    temporary storage of CUB. *)
Definition gradient_contents (num_keys data_element_size : Z) : list Z :=
  let index := sizeof_index * (num_keys + 1) in
  [index; data_element_size * (num_keys + 1); index; index; index; index;
   sort_bytes num_keys; encode_bytes num_keys; scan_bytes (num_keys + 1); index; index]
  ++ (if MAX_RUN_SIZE =? -1 then [] else [index; index; index]).
End Layout.

(** The buffers ([curr_device_ptr] before each, and the size), from what each is advanced by
    and what is stored in it. *)
Fixpoint carve (curr : Z) (l : list (Z * Z)) : list (Z * Z) :=
  match l with
  | [] => []
  | (advance, size) :: l => (curr, size) :: carve (curr + advance) l
  end.

Lemma align_bounds k x : 0 <= k -> x <= align k x < x + 2 ^ k.
Proof.
  intros Hk. unfold align. rewrite Z.shiftr_div_pow2, Z.shiftl_mul_pow2 by done. pose proof (Z.pow_pos_nonneg 2 k ltac:(lia) Hk).
  pose proof (Z.div_mod (x + (2 ^ k - 1)) (2 ^ k) ltac:(lia)). pose proof (Z.mod_pos_bound (x + (2 ^ k - 1)) (2 ^ k) ltac:(lia)). lia.
Qed.
Lemma align_9_10 x : align 9 x <= align 10 x.
Proof.
  unfold align. rewrite !Z.shiftr_div_pow2, !Z.shiftl_mul_pow2 by done.
  pose proof (Z.div_mod (x + (2 ^ 9 - 1)) (2 ^ 9) ltac:(lia)). pose proof (Z.mod_pos_bound (x + (2 ^ 9 - 1)) (2 ^ 9) ltac:(lia)).
  pose proof (Z.div_mod (x + (2 ^ 10 - 1)) (2 ^ 10) ltac:(lia)). pose proof (Z.mod_pos_bound (x + (2 ^ 10 - 1)) (2 ^ 10) ltac:(lia)). lia.
Qed.

Definition advances (l : list (Z * Z)) : Z := foldr (fun b n => b.1 + n) 0 l.
(** Buffers carved one after the other are apart and end where the advances end. *)
Lemma carve_ok base l : Forall (fun b => 0 <= b.2 <= b.1) l ->
  Forall (fun b => base <= b.1 /\ b.1 + b.2 <= base + advances l) (carve base l) /\
  (forall i j a b, (i < j)%nat -> carve base l !! i = Some a -> carve base l !! j = Some b -> a.1 + a.2 <= b.1).
Proof.
  revert base. induction l as [|[adv size] l IH]; intros base H; [split; [constructor|done]|]. apply Forall_cons in H as [Hb H]. simpl in Hb.
  destruct (IH (base + adv) H) as [H1 H2]. assert (Ha : 0 <= advances l) by (clear -H; induction H as [|b l Hb _ IH]; simpl; lia).
  cbn [carve advances foldr]. fold (advances l). split.
  - constructor; [simpl; lia|]. eapply Forall_impl; [exact H1|]. simpl. lia.
  - intros i [|j] a b Hij Hi Hj; [lia|]. destruct i as [|i]; [|by apply (H2 i j a b); [lia|..]]. injection Hi as <-. simpl in *.
    apply (Forall_lookup_1 _ _ _ _ H1) in Hj. lia.
Qed.

Lemma align_size_small k x : 0 <= k -> 0 <= x -> x + 2 ^ k <= 2 ^ 64 -> align_size k x = align k x.
Proof. intros Hk Hx Hb. unfold align_size, align. rewrite wrapu_small; [done|]. pose proof (Z.pow_pos_nonneg 2 k ltac:(lia) Hk). split; lia. Qed.

Lemma buffer_size_small element n : 0 <= n < 2 ^ 64 -> 0 <= element * n < 2 ^ 64 -> buffer_size element n = element * n.
Proof. intros Hn He. unfold buffer_size. rewrite (wrapu_small 64 n) by (split; lia). apply wrapu_small. split; lia. Qed.

Lemma int_succ_Ok T n : 1 <= width T -> is_signed T = true -> 0 <= n -> n + 1 < 2 ^ (width T - 1) -> int_succ T n = Ok (n + 1).
Proof.
  intros Hw Hs Hn Hlt. unfold int_succ. rewrite Hs, (proj2 (Z.eqb_neq _ _)) by lia. simpl. f_equal. apply conv_small; [lia|].
  unfold in_range. rewrite Hs. unfold in_s. lia.
Qed.

Lemma sum_sizes_small start l : 0 <= start -> Forall (fun x => 0 <= x) l -> foldr Z.add start l < 2 ^ 64 -> sum_sizes start l = foldr Z.add start l.
Proof.
  unfold sum_sizes. revert start. induction l as [|x l IH]; intros start Hs Hl Hb; [done|]. apply Forall_cons in Hl as [Hx Hl]. cbn [fold_left foldr] in *.
  assert (Hcomm : forall y, foldr Z.add (y + start) l = y + foldr Z.add start l) by (intros y; clear; induction l as [|z l IH]; simpl; lia).
  assert (Hge : start <= foldr Z.add start l) by (clear -Hl; induction Hl as [|z l Hz _ IH]; simpl; lia).
  rewrite wrapu_small by (split; lia). replace (start + x) with (x + start) by lia. rewrite IH by (rewrite ?Hcomm; done || lia). apply Hcomm.
Qed.

(** C34. The device memory of the gradient calculation, for signed keys of 32 or 64 bits, fewer
    than [2^31 - 1] of them, with rows and temporary storage of CUB of less than [2^60] bytes:
    [get_alloc_requirements] and [set_and_init_buffers] compute their sizes without overflow,
    and the buffers carved out of the block hold what is stored in them, are apart from each
    other and lie within the size that was asked for, with or without the buffers for
    split runs. *)
Theorem gradient_buffers_apart sort_bytes encode_bytes scan_bytes IndexT MAX_RUN_SIZE num_keys data_element_size :
  IndexT = int32_t \/ IndexT = int64_t -> 0 <= num_keys < 2 ^ 31 - 1 ->
  0 <= sort_bytes num_keys < 2 ^ 60 -> 0 <= encode_bytes num_keys < 2 ^ 60 -> 0 <= scan_bytes (num_keys + 1) < 2 ^ 60 ->
  0 <= data_element_size -> data_element_size * (num_keys + 1) < 2 ^ 60 ->
  exists ts device host advances,
    gradient_requirements sort_bytes encode_bytes scan_bytes IndexT MAX_RUN_SIZE num_keys data_element_size = Ok (ts, (device, host)) /\
    gradient_buffers IndexT MAX_RUN_SIZE ts num_keys data_element_size = Ok advances /\
    host < 2 ^ 64 /\ width IndexT / 8 * num_keys <= host /\
    forall base i j a b,
      let buffers := carve base (zip advances (gradient_contents sort_bytes encode_bytes scan_bytes IndexT MAX_RUN_SIZE num_keys data_element_size)) in
      buffers !! i = Some a -> buffers !! j = Some b -> i <> j ->
      (a.1 + a.2 <= b.1 \/ b.1 + b.2 <= a.1) /\ base <= a.1 /\ a.1 + a.2 <= base + device.
Proof.
  intros HT Hn Hsort Hencode Hscan Hd Hdata.
  assert (Hw : (width IndexT / 8 = 4 \/ width IndexT / 8 = 8) /\ 32 <= width IndexT /\ is_signed IndexT = true) by (destruct HT as [-> | ->]; vm_compute; intuition congruence).
  destruct Hw as (Hsz & Hwidth & Hsigned). set (sz := width IndexT / 8) in *.
  assert (Hsucc : int_succ IndexT num_keys = Ok (num_keys + 1)).
  { apply int_succ_Ok; [lia|done|lia|]. pose proof (Z.pow_le_mono_r 2 31 (width IndexT - 1) ltac:(lia) ltac:(lia)). lia. }
  assert (Hix : 0 <= sz * (num_keys + 1) < 2 ^ 40) by nia.
  assert (Hwt : 0 <= data_element_size * (num_keys + 1)) by nia.
  unfold gradient_requirements, dedup_requirements, gradient_buffers, dedup_buffers. fold sz.
  rewrite (wrapu_small 64 num_keys), (wraps_small 32 num_keys) by (unfold in_u, in_s; lia).
  rewrite (int_succ_Ok int32_t) by (done || simpl; lia). cbn [obind]. rewrite Hsucc. cbn [obind ts_sort ts_encode ts_ex_sum].
  rewrite !buffer_size_small by (unfold in_u; lia). rewrite !align_size_small by (simpl; lia).
  do 4 eexists. split; [done|]. split; [done|].
  pose proof (align_bounds 9 (sort_bytes num_keys) ltac:(lia)). pose proof (align_bounds 9 (encode_bytes num_keys) ltac:(lia)).
  pose proof (align_bounds 9 (scan_bytes (num_keys + 1)) ltac:(lia)). pose proof (align_bounds 9 (sz * (num_keys + 1)) ltac:(lia)).
  pose proof (align_bounds 10 (sz * (num_keys + 1)) ltac:(lia)). pose proof (align_bounds 9 (data_element_size * (num_keys + 1)) ltac:(lia)).
  pose proof (align_9_10 (sz * (num_keys + 1))). split; [lia|]. split; [lia|].
  set (l := zip _ _). intros base i j a b Hi Hj Hne.
  assert (Hl : Forall (fun b => 0 <= b.2 <= b.1) l).
  { unfold l, gradient_contents. fold sz. destruct (MAX_RUN_SIZE =? -1); simpl; repeat (apply Forall_cons; split; [simpl; lia|]); apply Forall_nil; done. }
  destruct (carve_ok base l Hl) as [Hin Hap]. pose proof (Forall_lookup_1 _ _ _ _ Hin Hi) as Ha. cbv beta in Ha. split.
  - destruct (Nat.lt_total i j) as [Hij|[->|Hji]]; [left; by apply (Hap i j)|done|right; by apply (Hap j i)].
  - split; [lia|]. etrans; [apply Ha|]. apply Z.add_le_mono_l. unfold l, gradient_contents, advances. fold sz.
    rewrite (sum_sizes_small 0), sum_sizes_small; destruct (MAX_RUN_SIZE =? -1); cbn [app zip zip_with foldr fst snd ts_sort ts_encode ts_ex_sum];
      first [lia|repeat (apply Forall_cons; split; [lia|]); by apply Forall_nil].
Qed.

(** For [2^31 - 1] keys, the most that 32-bit keys can count, the sizes cannot be computed:
    the number of offsets, one more than the keys, overflows [int]. *)
Theorem gradient_requirements_overflow sort_bytes encode_bytes scan_bytes IndexT MAX_RUN_SIZE data_element_size :
  gradient_requirements sort_bytes encode_bytes scan_bytes IndexT MAX_RUN_SIZE (2 ^ 31 - 1) data_element_size = Undef "signed integer overflow".
Proof. reflexivity. Qed.

(** 130 keys of 8 bytes and single-precision weights, with split runs. *)
Lemma gradient_buffers_apart_witness :
  exists ts device host advances,
    gradient_requirements (fun n => 100 * n) (fun n => 7 * n) (fun n => 3 * n) int64_t 1024 130 4 = Ok (ts, (device, host)) /\
    gradient_buffers int64_t 1024 ts 130 4 = Ok advances /\
    let buffers := carve 4096 (zip advances (gradient_contents (fun n => 100 * n) (fun n => 7 * n) (fun n => 3 * n) int64_t 1024 130 4)) in
    buffers !! 1%nat = Some (5632, 524) /\ buffers !! 6%nat = Some (12800, 13000) /\ 5632 + 524 <= 4096 + device.
Proof.
  destruct (gradient_buffers_apart (fun n => 100 * n) (fun n => 7 * n) (fun n => 3 * n) int64_t 1024 130 4)
    as (ts & device & host & advances & E1 & E2 & _ & _ & H); [by right|lia|lia|lia|lia|lia|lia|].
  exists ts, device, host, advances. split; [exact E1|]. split; [exact E2|]. cbv zeta.
  assert (Ets : ts = {| ts_sort := 13312; ts_encode := 1024; ts_ex_sum := 512 |}) by (vm_compute in E1; congruence).
  assert (Ea : advances = [1536; 1024; 1536; 1536; 1536; 1536; 13312; 1024; 512; 1536; 1536; 1536; 1536; 1536]) by (rewrite Ets in E2; vm_compute in E2; congruence).
  assert (H1 : carve 4096 (zip advances (gradient_contents (fun n => 100 * n) (fun n => 7 * n) (fun n => 3 * n) int64_t 1024 130 4)) !! 1%nat = Some (5632, 524))
    by (rewrite Ea; vm_compute; reflexivity).
  assert (H6 : carve 4096 (zip advances (gradient_contents (fun n => 100 * n) (fun n => 7 * n) (fun n => 3 * n) int64_t 1024 130 4)) !! 6%nat = Some (12800, 13000))
    by (rewrite Ea; vm_compute; reflexivity).
  split; [exact H1|]. split; [exact H6|]. exact (proj2 (proj2 (H 4096 1%nat 6%nat (5632, 524) (12800, 13000) H1 H6 ltac:(discriminate)))).
Defined.
