(* ===== verification/DeviceHistogram.v ===== *)
(** * The histogram on the device: [cuda_ops/gather_keys_data_ptrs.cuh]

    [DefaultGPUHistogram] counts the keys of a batch for an insert: it sorts the keys with
    their positions, encodes the runs, takes the first position of every run, sorts the
    positions by count, and gathers keys, priorities and row pointers. Two of its buffers are
    used twice ([sorted_keys] is the memory of the row pointers, [offsets] that of the unique
    keys): the buffers below are the memory, not the names. The sorts of CUB are parameters;
    they are documented as stable. *)
From Stdlib Require Import Sorted.
From S2P Require Import Prelude BitOps EcHash SetAssoc Float32 CacheQuery DataTypes DeviceModify DeviceSelect DeviceTies DeviceOps FindAndCombine Dedup Gradients.

Inductive hist_buffer := DataPtrs | IdxMapping | IdxMappingSorted | UniqueKeys | Priority | Counters.
#[export] Instance hist_buffer_eq_dec : EqDecision hist_buffer.
Proof. solve_decision. Defined.
Definition hist_store : Type := hist_buffer -> Z -> Z.

(** The primitives of CUB and the order in which the writes of a kernel happen. *)
Record hist_env := {
  he_sort : list (Z * Z) -> list (Z * Z);
  he_encode : list Z -> list (Z * Z);
  he_sum : list Z -> list Z;
  he_descending : list (Z * Z) -> list (Z * Z);
  he_order : list (Z * Z) -> list (Z * Z)
}.

(** [GatherLocations] and [GatherKeysAndDataPtrs]: the writes of the launched threads. *)
Definition GatherLocations (num_unique_keys : Z) (offsets idx_mapping_all : Z -> Z) : list (Z * Z) :=
  (fun id => (id, idx_mapping_all (offsets id))) <$> seqZ 0 num_unique_keys.
Definition gather_data_ptrs (data embed_width_in_bytes num_unique_keys : Z) (mapping : Z -> Z) : list (Z * Z) :=
  (fun id => (id, data + mapping id * embed_width_in_bytes)) <$> seqZ 0 num_unique_keys.
Definition gather_keys (keys : Z -> Z) (num_unique_keys : Z) (mapping : Z -> Z) : list (Z * Z) :=
  (fun id => (id, keys (mapping id))) <$> seqZ 0 num_unique_keys.
(** [priority_out]: the counter is replaced in place. *)
Definition gather_priority (norm_factor : f32) (num_unique_keys : Z) (priorities : Z -> Z) : list f32 :=
  (fun id => f32_mul (f32_of_Z (priorities id)) norm_factor) <$> seqZ 0 num_unique_keys.

(** A launch with 256 threads per block. *)
Definition launch_256 (num_unique_keys : Z) : outcome unit :=
  check! negb (wrapu 32 (wrapu 32 num_unique_keys + 255) / 256 =? 0) as "invalid configuration argument" in Ok tt.

(** [compute_histogram] of an object for [capacity] keys; [st] is what the storage held before.
    The result are [get_keys], [get_priority] and [get_data] up to [get_num_bins]. *)
Definition compute_histogram (e : hist_env) (capacity : Z) (keys : Z -> Z) (num_keys data strideInBytes : Z) (st : hist_store)
  : outcome (list (Z * f32 * Z)) :=
  check! num_keys <=? capacity as "histogram object was allocated for fewer keys than provided!" in
  let st := put IdxMapping (seqZ 0 num_keys) st in
  let sorted := he_sort e (zip (keys <$> seqZ 0 num_keys) (read IdxMapping num_keys st)) in
  let st := put IdxMappingSorted sorted.*2 (put DataPtrs sorted.*1 st) in
  let runs := he_encode e (read DataPtrs (wraps 32 num_keys) st) in
  let st := put Counters runs.*2 (put UniqueKeys runs.*1 st) in
  let num_unique := wraps 32 (Z.of_nat (length runs)) in
  let st := put UniqueKeys (he_sum e (read Counters num_unique st)) st in
  let! _ := launch_256 num_unique in
  let st := put_writes IdxMapping (he_order e (GatherLocations num_unique (st UniqueKeys) (st IdxMappingSorted))) st in
  let sorted := he_descending e (zip (read Counters num_unique st) (read IdxMapping num_unique st)) in
  let st := put IdxMappingSorted sorted.*2 (put Priority sorted.*1 st) in
  let! _ := launch_256 num_unique in
  let priority := gather_priority (f32_div f32_one (f32_of_Z num_keys)) num_unique (st Priority) in
  let mapping := st IdxMappingSorted in
  let st := put_writes UniqueKeys (he_order e (gather_keys keys num_unique mapping))
              (put_writes DataPtrs (he_order e (gather_data_ptrs data strideInBytes num_unique mapping)) st) in
  Ok (zip (zip (read UniqueKeys num_unique st) priority) (read DataPtrs num_unique st)).

(** ** The storage *)

Section Storage.
Context (sort_bytes encode_bytes scan_bytes : Z) (sizeof_key : Z).

(** [compute_alloc_size]. *)
Definition tmp_alloc_size : Z :=
  let sz := if sort_bytes <? encode_bytes then encode_bytes else sort_bytes in
  let sz := if sz <? scan_bytes then scan_bytes else sz in
  Z.shiftl (Z.shiftr (sz + 127) 7) 7.
Definition get_alloc_size (capacity : Z) : Z :=
  tmp_alloc_size + capacity * 8 + 3 * capacity * sizeof_key + capacity * 4 + capacity * 4 + 4.
(** The pointers that [compute_histogram] sets up: advance and size of every buffer. *)
Definition hist_layout (num_keys : Z) : list (Z * Z) :=
  (fun sz => (sz, sz)) <$> [num_keys * 8; num_keys * sizeof_key; num_keys * sizeof_key; num_keys * sizeof_key; tmp_alloc_size; num_keys * 4; num_keys * 4; 4].

Lemma tmp_alloc_size_ok : sort_bytes <= tmp_alloc_size /\ encode_bytes <= tmp_alloc_size /\ scan_bytes <= tmp_alloc_size.
Proof.
  pose proof (align_bounds 7 (let sz := if sort_bytes <? encode_bytes then encode_bytes else sort_bytes in if sz <? scan_bytes then scan_bytes else sz) ltac:(lia)) as H.
  unfold tmp_alloc_size. change (2 ^ 7) with 128 in H. unfold align in H. change (2 ^ 7 - 1) with 127 in H. cbv zeta in *.
  destruct (Z.ltb_spec sort_bytes encode_bytes); [destruct (Z.ltb_spec encode_bytes scan_bytes)|destruct (Z.ltb_spec sort_bytes scan_bytes)]; lia.
Qed.

(** The buffers are apart, the storage that was asked for holds them, and the two views that
    share memory with others fit into it. *)
Lemma histogram_storage num_keys capacity base i j a b :
  0 <= sort_bytes -> sizeof_key = 4 \/ sizeof_key = 8 -> 0 <= num_keys <= capacity ->
  carve base (hist_layout num_keys) !! i = Some a -> carve base (hist_layout num_keys) !! j = Some b -> i <> j ->
  (a.1 + a.2 <= b.1 \/ b.1 + b.2 <= a.1) /\ base <= a.1 /\ a.1 + a.2 <= base + get_alloc_size capacity /\
  num_keys * sizeof_key <= num_keys * 8 /\ num_keys * 4 <= num_keys * sizeof_key.
Proof.
  intros Hs Hk Hn Hi Hj Hne. pose proof tmp_alloc_size_ok as (Ht & _).
  destruct (carve_ok base (hist_layout num_keys)) as [Hin Hap].
  { unfold hist_layout. apply Forall_fmap, Forall_forall. intros x Hx. simpl. repeat (apply elem_of_cons in Hx as [->|Hx]; [nia|]). by apply not_elem_of_nil in Hx. }
  pose proof (Forall_lookup_1 _ _ _ _ Hin Hi) as Ha. cbv beta in Ha. split.
  - destruct (Nat.lt_total i j) as [Hij|[->|Hji]]; [left; by apply (Hap i j)|done|right; by apply (Hap j i)].
  - split; [lia|]. split; [|nia]. unfold hist_layout, advances, get_alloc_size in *. cbn [fmap list_fmap foldr fst] in Ha. nia.
Qed.
End Storage.

(** ** Correctness *)

(** CUB's sorts are stable; counters are 32-bit. *)
Class HistLaws (e : hist_env) := {
  hl_cub :: CubLaws (he_sort e) (he_encode e) (he_sum e) (2 ^ 31);
  hl_stable l k : filter (fun x => x.1 = k) (he_sort e l) = filter (fun x => x.1 = k) l;
  hl_perm l : he_descending e l ≡ₚ l;
  hl_descending l : StronglySorted Z.ge (he_descending e l).*1;
  hl_order l : he_order e l ≡ₚ l
}.

Lemma launch_256_ok n : 0 < n < 2 ^ 31 -> launch_256 n = Ok tt.
Proof.
  intros Hn. unfold launch_256. rewrite !wrapu_small by (unfold in_u; rewrite ?wrapu_small by (unfold in_u; lia); lia).
  by rewrite (proj2 (Z.eqb_neq _ _)) by (pose proof (Z.div_str_pos (n + 255) 256 ltac:(lia)); lia).
Qed.

(** The writes of one thread per index. *)
Lemma read_put_writes {B} `{!EqDecision B} (b : B) (order : list (Z * Z) -> list (Z * Z)) (f : Z -> Z) n st :
  (forall l, order l ≡ₚ l) -> read b n (put_writes b (order ((fun id => (id, f id)) <$> seqZ 0 n)) st) = f <$> seqZ 0 n.
Proof.
  intros Ho. unfold read. apply list_fmap_ext. intros i id Hid. apply list_elem_of_lookup_2 in Hid. rewrite put_writes_eq. apply write_all_elem.
  - rewrite Ho. apply list_elem_of_fmap. by exists id.
  - intros v. rewrite Ho. by intros (id' & [= <- ->] & _)%list_elem_of_fmap.
Qed.

Lemma map_seqZ_lookup {A} (f : Z -> A) (l : list A) : (forall i a, l !! i = Some a -> f (Z.of_nat i) = a) -> f <$> seqZ 0 (Z.of_nat (length l)) = l.
Proof.
  intros H. apply list_eq. intros i. rewrite list_lookup_fmap. destruct (l !! i) as [a|] eqn:E.
  - rewrite lookup_seqZ_lt by (apply lookup_lt_Some in E; lia). simpl. by rewrite Z.add_0_l, (H i a E).
  - apply lookup_ge_None in E. by rewrite lookup_seqZ_ge by lia.
Qed.

Section Correct.
Context (e : hist_env) `{!HistLaws e} (keys : Z -> Z) (n : Z) (Hn : 0 < n < 2 ^ 31).
Local Abbreviation sorted := (he_sort e (zip (keys <$> seqZ 0 n) (seqZ 0 n))).
Local Abbreviation runs := (he_encode e sorted.*1).
Local Abbreviation segment := (segment (he_sort e) (he_encode e) keys n).
Local Abbreviation cub H := (H (he_sort e) (he_encode e) (he_sum e) (2 ^ 31) hl_cub keys n).

(** A stable sort keeps the positions of a run in order. *)
Lemma segment_stable i k c : runs !! i = Some (k, c) -> segment i c = positions keys n k.
Proof.
  intros Hi. set (off := run_offset i runs).
  assert (Hkey : forall j k' p, sorted !! j = Some (k', p) -> k' = k <-> (off <= j < off + Z.to_nat c)%nat).
  { intros j k' p Hj. assert (E : expand runs !! j = Some k') by (rewrite (cub runs_expand), list_lookup_fmap, Hj; done). split.
    - intros ->. destruct (expand_lookup_inv _ _ _ (cub runs_positive) E) as (i' & c' & m & Hi' & Hm & ->).
      assert (i' = i) as -> by (apply (NoDup_lookup _ _ _ k (cub runs_keys_NoDup)); rewrite list_lookup_fmap; [by rewrite Hi'|by rewrite Hi]).
      rewrite Hi in Hi'. injection Hi' as <-. unfold off. lia.
    - intros Hr. pose proof (expand_lookup _ _ _ _ (j - off) Hi ltac:(lia)) as E'. fold off in E'.
      replace (off + (j - off))%nat with j in E' by lia. rewrite E in E'. by injection E'. }
  assert (Hs : filter (fun x => x.1 = k) sorted = take (Z.to_nat c) (drop off sorted)).
  { rewrite <- (take_drop off sorted) at 1. rewrite <- (take_drop (Z.to_nat c) (drop off sorted)) at 1. rewrite !filter_app.
    rewrite (filter_none _ (take off sorted)), (filter_none _ (drop (Z.to_nat c) (drop off sorted))), filter_id, app_nil_r; [done|..].
    - intros [k' p] [j Hj]%list_elem_of_lookup. apply lookup_take_Some in Hj as [Hj Hjc]. rewrite lookup_drop in Hj. apply (Hkey _ _ _ Hj). lia.
    - intros [k' p] [j Hj]%list_elem_of_lookup. rewrite !lookup_drop in Hj. simpl. rewrite (Hkey _ _ _ Hj). lia.
    - intros [k' p] [j Hj]%list_elem_of_lookup. apply lookup_take_Some in Hj as [Hj Hjc]. simpl. rewrite (Hkey _ _ _ Hj). lia. }
  unfold Dedup.segment. fold off. rewrite <- fmap_drop, <- fmap_take, <- Hs, hl_stable. unfold positions. clear.
  generalize (seqZ 0 n) as l. induction l as [|p l IH]; [done|]. cbn [fmap list_fmap zip]. rewrite !filter_cons. cbn [fst].
  destruct (decide (keys p = k)); [|exact IH]. cbn [fmap list_fmap snd]. f_equal. exact IH.
Qed.

(** The first position of a run, with the length of the run. *)
Definition first_of (i : nat) : Z := default 0 (sorted.*2 !! run_offset i runs).
Definition run_bins : list (Z * Z) := imap (fun i r => (r.2, first_of i)) runs.

Lemma run_offset_lt i k c : runs !! i = Some (k, c) -> (run_offset i runs < length sorted.*2)%nat.
Proof.
  intros Hi. assert (E : length sorted.*2 = length (expand runs)) by (rewrite (cub runs_expand), !length_fmap; done). rewrite E.
  pose proof (Forall_lookup_1 _ _ _ _ (cub runs_positive) Hi) as Hc. simpl in Hc.
  pose proof (run_offset_le runs (S i)) as H. rewrite (run_offset_succ _ _ _ _ Hi) in H. lia.
Qed.

Lemma run_bins_lookup i c p : run_bins !! i = Some (c, p) ->
  exists k, runs !! i = Some (k, c) /\ keys p = k /\ c = Z.of_nat (length (positions keys n k)) /\ head (positions keys n k) = Some p.
Proof.
  unfold run_bins. rewrite list_lookup_imap. destruct (runs !! i) as [[k c']|] eqn:Hi; [|done]. simpl. intros [= <- <-]. exists k. split; [done|].
  pose proof (Forall_lookup_1 _ _ _ _ (cub runs_positive) Hi) as Hc. simpl in Hc.
  pose proof (segment_stable i k c' Hi) as Es. pose proof (cub length_segment i k c' Hi) as El.
  assert (Eh : head (positions keys n k) = Some (first_of i)).
  { rewrite <- Es. rewrite head_lookup, (segment_lookup _ _ _ _ i k c' 0%nat Hi ltac:(lia)), Nat.add_0_r. unfold first_of.
    destruct (lookup_lt_is_Some_2 sorted.*2 (run_offset i runs)) as [p ->]; [by eapply run_offset_lt|done]. }
  split_and!; [|rewrite <- Es, El; lia|done].
  assert (Hin : first_of i ∈ positions keys n k) by (destruct (positions keys n k); [done|]; injection Eh as ->; by left).
  unfold positions in Hin. by apply list_elem_of_filter in Hin as [<- _].
Qed.

Lemma run_bins_keys : (keys ∘ snd <$> run_bins) = runs.*1.
Proof.
  apply list_eq. intros i. rewrite !list_lookup_fmap. destruct (run_bins !! i) as [[c p]|] eqn:E.
  - destruct (run_bins_lookup i c p E) as (k & -> & Hk & _). simpl. by rewrite Hk.
  - unfold run_bins in E. rewrite list_lookup_imap in E. by destruct (runs !! i).
Qed.

Lemma num_runs : 0 < Z.of_nat (length runs) <= n.
Proof.
  pose proof (length_le_expand _ (cub runs_positive)) as H. rewrite (cub runs_expand), length_fmap, (cub length_sorted) in H. split; [|lia].
  destruct (decide (length runs = 0%nat)) as [E|]; [|lia]. apply nil_length_inv in E.
  assert (Hk : keys 0 ∈ runs.*1) by (apply (cub runs_keys); exists 0; lia). rewrite E in Hk. by apply not_elem_of_nil in Hk.
Qed.

Lemma sum_runs i : (i < length runs)%nat -> he_sum e runs.*2 !! i = Some (Z.of_nat (run_offset i runs)).
Proof.
  intros Hi. pose proof (cub runs_positive) as Hp. rewrite (exclusive_sum_lookup (he_sort e) (he_encode e) (he_sum e) (limit := 2 ^ 31)); rewrite ?foldr_run_offset by done; [done| | |].
  - by rewrite length_fmap.
  - apply Forall_take, Forall_fmap. eapply Forall_impl; [exact Hp|]. simpl. lia.
  - pose proof (run_offset_le runs i) as H. rewrite (cub runs_expand), length_fmap, (cub length_sorted) in H. lia.
Qed.

(** What is gathered: the bins in the order of decreasing counts. *)
Lemma compute_histogram_eq capacity data stride st : n <= capacity ->
  compute_histogram e capacity keys n data stride st =
  Ok ((fun b => (keys b.2, f32_mul (f32_of_Z b.1) (f32_div f32_one (f32_of_Z n)), data + b.2 * stride)) <$> he_descending e run_bins).
Proof.
  intros Hcap. unfold compute_histogram. rewrite (proj2 (Z.leb_le _ _) Hcap). cbv zeta. pose proof num_runs as Hr.
  rewrite (read_put IdxMapping) by (rewrite length_seqZ; lia). rewrite (wraps_small 32 n) by (unfold in_s; simpl; lia).
  rewrite (read_put_ne IdxMappingSorted DataPtrs) by done. rewrite (read_put DataPtrs) by (rewrite length_fmap, (cub length_sorted); lia).
  rewrite (wraps_small 32 (Z.of_nat (length runs))) by (unfold in_s; simpl; lia). rewrite launch_256_ok by lia. cbn [obind].
  set (s2 := put Counters _ _). assert (Ec : read Counters (Z.of_nat (length runs)) s2 = runs.*2) by (apply read_put; by rewrite length_fmap).
  rewrite Ec. set (s3 := put UniqueKeys _ s2). set (s4 := put_writes IdxMapping _ s3).
  assert (Ec4 : read Counters (Z.of_nat (length runs)) s4 = runs.*2).
  { unfold read, s4. rewrite put_writes_ne by done. unfold s3. rewrite put_ne by done. exact Ec. }
  assert (Em : read IdxMapping (Z.of_nat (length runs)) s4 = run_bins.*2).
  { unfold s4, GatherLocations. rewrite read_put_writes by apply hl_order. rewrite <- (length_imap (fun i r => (r.2, first_of i)) runs). fold run_bins.
    rewrite <- (length_fmap snd run_bins). apply map_seqZ_lookup. intros i p Hp. apply list_lookup_fmap_Some in Hp as ([c p'] & -> & Hp).
    pose proof Hp as Hp'. unfold run_bins in Hp'. rewrite list_lookup_imap in Hp'. destruct (runs !! i) as [r|] eqn:Hi; [|done]. injection Hp' as _ Ef.
    unfold s3 at 2. rewrite (put_eq UniqueKeys _ _ i _ (sum_runs i (lookup_lt_Some _ _ _ Hi))). simpl. rewrite <- Ef. unfold first_of.
    destruct (sorted.*2 !! run_offset i runs) as [q|] eqn:Eq.
    - unfold s3, s2. rewrite !put_ne by done. by apply put_eq.
    - exfalso. apply lookup_ge_None in Eq. destruct r as [k c0]. pose proof (run_offset_lt i k c0 Hi). lia. }
  assert (Ez : zip runs.*2 run_bins.*2 = run_bins).
  { apply list_eq. intros i. unfold run_bins. destruct (runs !! i) as [[k c]|] eqn:Hi.
    - rewrite list_lookup_imap, Hi. simpl. apply lookup_zip_with_Some. exists c, (first_of i). rewrite !list_lookup_fmap, list_lookup_imap, Hi. done.
    - rewrite list_lookup_imap, Hi. simpl. apply lookup_ge_None. rewrite length_zip_with, length_fmap. apply lookup_ge_None in Hi. lia. }
  rewrite Ec4, Em, Ez. set (bins := he_descending e run_bins).
  assert (Hl : Z.of_nat (length runs) = Z.of_nat (length bins)) by (unfold bins; rewrite hl_perm; unfold run_bins; by rewrite length_imap).
  set (s5 := put IdxMappingSorted _ _). f_equal. rewrite Hl. clearbody s4.
  assert (E1 : forall i b, bins !! i = Some b -> s5 IdxMappingSorted (Z.of_nat i) = b.2 /\ s5 Priority (Z.of_nat i) = b.1).
  { intros i b Hb. unfold s5. split; [apply put_eq|rewrite put_ne by done; apply put_eq]; by rewrite list_lookup_fmap, Hb. }
  unfold gather_keys, gather_data_ptrs. rewrite read_put_writes by apply hl_order. unfold read at 1. rewrite put_writes_ne by done.
  match goal with |- context [?g <$> seqZ 0 _] => fold (read DataPtrs (Z.of_nat (length bins)) (put_writes DataPtrs (he_order e ((fun id => (id, data + s5 IdxMappingSorted id * stride)) <$> seqZ 0 (Z.of_nat (length bins)))) s5)) end.
  rewrite (read_put_writes DataPtrs) by apply hl_order. unfold gather_priority.
  apply list_eq. intros i. rewrite list_lookup_fmap. destruct (bins !! i) as [b|] eqn:Hb.
  - destruct (E1 i b Hb) as [E2 E3]. pose proof (lookup_lt_Some _ _ _ Hb). simpl.
    apply lookup_zip_with_Some. do 2 eexists. split; [done|]. split.
    + apply lookup_zip_with_Some. do 2 eexists. split; [done|]. rewrite !list_lookup_fmap, lookup_seqZ_lt by lia. simpl. by rewrite !Z.add_0_l, E2, E3.
    + rewrite list_lookup_fmap, lookup_seqZ_lt by lia. simpl. by rewrite !Z.add_0_l, E2.
  - simpl. apply lookup_ge_None. rewrite !length_zip_with, !length_fmap, length_seqZ. apply lookup_ge_None in Hb. lia.
Qed.

(** The histogram: every key once with the position of its first occurrence; the bins come in
    order of decreasing counts. *)
Record bins_ok (bins : list (Z * Z)) : Prop := {
  bn_sorted : StronglySorted Z.ge bins.*1;
  bn_nodup : NoDup (keys ∘ snd <$> bins);
  bn_keys k : k ∈ (keys ∘ snd <$> bins) <-> exists p, 0 <= p < n /\ keys p = k;
  bn_bin c p : (c, p) ∈ bins -> c = Z.of_nat (length (positions keys n (keys p))) /\ head (positions keys n (keys p)) = Some p
}.

Lemma histogram_bins_ok : bins_ok (he_descending e run_bins).
Proof.
  assert (Ek : (keys ∘ snd <$> he_descending e run_bins) ≡ₚ runs.*1) by (rewrite <- run_bins_keys; by rewrite hl_perm).
  split.
  - apply hl_descending.
  - rewrite Ek. apply (cub runs_keys_NoDup).
  - intros k. rewrite Ek. apply (cub runs_keys).
  - intros c p Hin. rewrite hl_perm in Hin. apply list_elem_of_lookup in Hin as [i Hi]. destruct (run_bins_lookup i c p Hi) as (k & _ & <- & Hc & Hh). done.
Qed.
End Correct.

(** The priority of a key that occurs [c] times among [n]. *)
Definition hist_priority (n c : Z) : f32 := f32_mul (f32_of_Z c) (f32_div f32_one (f32_of_Z n)).

Lemma compute_histogram_lemma (e : hist_env) `{!HistLaws e} capacity keys n data stride st : 0 < n < 2 ^ 31 -> n <= capacity ->
  exists bins, bins_ok keys n bins /\
    compute_histogram e capacity keys n data stride st = Ok ((fun b => (keys b.2, hist_priority n b.1, data + b.2 * stride)) <$> bins).
Proof. intros Hn Hc. eexists. split; [by apply (histogram_bins_ok e)|]. by apply compute_histogram_eq. Qed.

(** Without keys there is nothing to launch. *)
Lemma compute_histogram_empty (e : hist_env) `{!HistLaws e} capacity keys data stride st : 0 <= capacity ->
  compute_histogram e capacity keys 0 data stride st = Throw "invalid configuration argument".
Proof.
  intros Hc. unfold compute_histogram. rewrite (proj2 (Z.leb_le _ _) Hc). cbv zeta.
  change (read DataPtrs (wraps 32 0) _) with (@nil Z). assert (E : he_encode e [] = []).
  { pose proof (encode_expand (he_sort e) (he_encode e) (he_sum e) (limit := 2 ^ 31) []) as E.
    pose proof (encode_pos (he_sort e) (he_encode e) (he_sum e) (limit := 2 ^ 31) []) as Hp.
    pose proof (length_le_expand _ Hp) as Hl. rewrite E in Hl. simpl in Hl. by apply nil_length_inv; lia. }
  by rewrite E.
Qed.

(** ** Example: insertion sorts *)

Module DemoHist.
Section Insertion.
Context (le : Z -> Z -> bool) (Hle : forall a b, le a b = false -> le b a = true) (Htrans : forall a b c, le a b = true -> le b c = true -> le a c = true).

Fixpoint insert (x : Z * Z) (l : list (Z * Z)) : list (Z * Z) :=
  match l with
  | [] => [x]
  | y :: l' => if le x.1 y.1 then x :: l else y :: insert x l'
  end.
Definition sort (l : list (Z * Z)) : list (Z * Z) := foldr insert [] l.

Lemma insertion_perm x l : insert x l ≡ₚ x :: l.
Proof. induction l as [|y l IH]; [done|]. simpl. destruct (le x.1 y.1); [done|]. rewrite IH. apply perm_swap. Qed.
Lemma insertion_sort_perm l : sort l ≡ₚ l.
Proof. induction l as [|x l IH]; [done|]. simpl. by rewrite insertion_perm, IH. Qed.

Local Abbreviation ordered l := (StronglySorted (fun a b => le a b = true) l).
Lemma insertion_sorted x l : ordered l.*1 -> ordered (insert x l).*1.
Proof.
  induction l as [|y l IH]; intros Hs; [by repeat constructor|]. simpl in *. apply StronglySorted_inv in Hs as [Hs Hy].
  destruct (le x.1 y.1) eqn:E; simpl.
  - constructor; [by constructor|]. constructor; [done|]. eapply Forall_impl; [exact Hy|]. intros z Hz. by eapply Htrans.
  - constructor; [by apply IH|]. apply Forall_forall. intros z Hz. rewrite insertion_perm in Hz. simpl in Hz.
    apply elem_of_cons in Hz as [->|Hz]; [by apply Hle|]. rewrite Forall_forall in Hy. by apply Hy.
Qed.
Lemma insertion_sort_sorted l : ordered (sort l).*1.
Proof. induction l as [|x l IH]; [constructor|]. by apply insertion_sorted. Qed.

Lemma insertion_stable x l k : (forall a, le a a = true) -> filter (fun y => y.1 = k) (insert x l) = filter (fun y => y.1 = k) (x :: l).
Proof.
  intros Hr. induction l as [|y l IH]; [done|]. simpl. destruct (le x.1 y.1) eqn:E; [done|]. rewrite filter_cons, IH, !filter_cons.
  destruct (decide (y.1 = k)) as [Hy|], (decide (x.1 = k)) as [Hx|]; try done. exfalso. by rewrite Hx, <- Hy, Hr in E.
Qed.
Lemma insertion_sort_stable l k : (forall a, le a a = true) -> filter (fun y => y.1 = k) (sort l) = filter (fun y => y.1 = k) l.
Proof. intros Hr. induction l as [|x l IH]; [done|]. simpl. rewrite insertion_stable by done. rewrite !filter_cons, IH. done. Qed.
End Insertion.

Definition env : hist_env :=
  {| he_sort := sort Z.leb; he_encode := DemoCub.encode; he_sum := DemoCub.exclusive_sum; he_descending := sort Z.geb; he_order := reverse |}.

Lemma geb_ge l : StronglySorted (fun a b => Z.geb a b = true) l -> StronglySorted Z.ge l.
Proof. induction 1 as [|x l _ IH Hx]; constructor; [done|]. eapply Forall_impl; [exact Hx|]. intros y Hy. cbv beta in Hy. lia. Qed.
Lemma leb_le l : StronglySorted (fun a b => Z.leb a b = true) l -> StronglySorted Z.le l.
Proof. induction 1 as [|x l _ IH Hx]; constructor; [done|]. eapply Forall_impl; [exact Hx|]. intros y Hy. by apply Z.leb_le. Qed.

#[export] Instance env_laws : HistLaws env.
Proof.
  split; simpl.
  - pose proof (DemoCub.laws (2 ^ 31)) as [_ _ H3 H4 H5 H6]. split; [apply insertion_sort_perm| |done..].
    intros l. apply leb_le, insertion_sort_sorted; intros; lia.
  - intros l k. apply insertion_sort_stable. intros. apply Z.leb_refl.
  - apply insertion_sort_perm.
  - intros l. apply geb_ge, insertion_sort_sorted; intros *; rewrite !Z.geb_leb; lia.
  - apply reverse_Permutation.
Qed.
End DemoHist.

(** Keys 7, 3, 7, 9, 7, 3: the counts in order, with the rows of the first occurrences. *)
Example demo_histogram :
  compute_histogram DemoHist.env 8 (fun i => default 0 ([7; 3; 7; 9; 7; 3] !! Z.to_nat i)) 6 1000 16 (fun _ _ => 99) =
  Ok [(7, hist_priority 6 3, 1000); (3, hist_priority 6 2, 1016); (9, hist_priority 6 1, 1048)].
Proof. vm_compute. reflexivity. Qed.
