(* ===== verification/GpuTable.v ===== *)
(** * The GPU table: [src/gpu_table.cu], [include/gpu_table.hpp], [DefaultHistogram]

    A [GpuTable] puts an embedding cache in front of an optional linear table in unified
    memory. The cache is reached through the class [CacheOps], what it promises is
    [CacheLaws]; the host-managed cache of [HostModify] is an instance. Streams, events and
    the lock of the unified-memory table order kernels and are not part of the state: the
    operations are the sequence of effects on one stream. *)
From stdpp Require Import sorting.
From S2P Require Import Prelude BitOps EcHash SetAssoc Float32 HostModify CacheCoherence CacheQuery DeviceOps DataTypes HostTable DeviceHistogram.

(** ** Configuration *)

Inductive KernelType := DynamicKernel | LookupUVM | SortGather | PipelineGather.

#[global] Instance KernelType_eq_dec : EqDecision KernelType.
Proof. solve_decision. Defined.

Record GPUTableConfig := {
  device_id : Z;
  cache_size : Z;
  row_size_in_bytes : Z;
  uvm_table : Z;             (* 0 is nullptr *)
  count_misses : bool;
  max_modify_size : Z;
  g_value_dtype : DataType_t;
  private_stream : bool;     (* a private stream is set *)
  disable_uvm_update : bool;
  uvm_cpu_accumulate : bool;
  data_storage_on_host : bool;
  modify_on_gpu : bool;
  kernel_mode_type : Z;
  kernel_mode_value : Z;
  g_invalid_key : Z
}.

Definition TRSDataToEC (dt : DataType_t) : outcome DataTypeFormat :=
  match dt with
  | Float32 => Ok DATATYPE_FP32
  | Float16 => Ok DATATYPE_FP16
  | _ => Throw "Not implemented"
  end.

(** The configuration the constructor gives the cache. *)
Definition gpu_cache_config (K : int_type) (c : GPUTableConfig) : outcome CacheConfig :=
  check! row_size_in_bytes c mod 2 =? 0 as "Invalid cache row size (must divide by 2)" in
  Ok {| embed_width_in_bytes := wrapu 64 (row_size_in_bytes c); cache_sz_in_bytes := cache_size c; num_tables := 1;
        allocate_data_on_host := data_storage_on_host c; sentinel_key := conv K (g_invalid_key c) |}.

(** [get_kernel_mode]. *)
Definition get_kernel_mode (c : GPUTableConfig) (num_keys : Z) : outcome KernelType :=
  if kernel_mode_type c =? 0 then
    let default_threshold := Z.shiftl 1 20 in
    let threshold := if kernel_mode_value c =? 0 then default_threshold else conv int64_t (kernel_mode_value c) in
    Ok (if num_keys <? threshold then LookupUVM else SortGather)
  else if kernel_mode_type c =? 1 then Ok LookupUVM
  else if kernel_mode_type c =? 2 then Ok SortGather
  else if kernel_mode_type c =? 3 then Ok PipelineGather
  else Throw "Not implemented".

(** ** [DefaultHistogram] *)

Record Bin := { b_key : Z; b_count : f32; b_data : Z }.

Section Histogram.
Variables (data stride_in_bytes : Z) (is_linear : bool).
(** [std::sort] with [a.count > b.count]. *)
Variable sort : list Bin -> list Bin.

(** [bins_] and [key_bin_map_]. *)
Definition hist_state : Type := list Bin * gmap Z nat.

Definition hist_step (st : hist_state) (ik : Z * Z) : hist_state :=
  let '(i, idx) := ik in
  match st.2 !! idx with
  | None =>
      let offset := if is_linear then wrapu 64 idx else i in
      (st.1 ++ [{| b_key := idx; b_count := f32_one; b_data := data + offset * stride_in_bytes |}],
       <[idx := length st.1]> st.2)
  | Some curr_bin_loc =>
      (alter (fun b => {| b_key := b_key b; b_count := f32_add (b_count b) f32_one; b_data := b_data b |}) curr_bin_loc st.1, st.2)
  end.

Definition histogram_bins (indices : list Z) : list Bin :=
  sort (fold_left hist_step (zip (seqZ 0 (Z.of_nat (length indices))) indices) ([], ∅)).1.

(** Keys, priorities and row pointers of the bins. *)
Definition DefaultHistogram (indices : list Z) : list (Z * f32 * Z) :=
  let sz := f32_of_Z (Z.of_nat (length indices)) in
  (fun b => (b_key b, f32_div (b_count b) sz, b_data b)) <$> histogram_bins indices.
End Histogram.

(** What an insert uses: [std::sort] of the histogram on the host, and the primitives and the
    storage of the histogram on the device. *)
Record insert_env := { ie_sort : list Bin -> list Bin; ie_hist : hist_env; ie_storage : hist_store }.

Definition key_at (keys : list Z) (i : Z) : Z := default 0 (keys !! Z.to_nat i).

(** ** What the table asks of the cache *)

(** The memory that holds the rows, the device tags, and the modifying calls on table 0
    with the modify context of the execution context; the result is the error code. *)
Class CacheOps (S : Type) := {
  co_mem : S -> memory;
  co_set_mem : S -> memory -> S;
  co_tags : S -> Z -> Z;
  co_insert : list (Z * f32 * Z) -> S -> outcome (Z * S);
  co_update : list Z -> Z -> Z -> S -> outcome (Z * S);
  co_accumulate : list Z -> Z -> Z -> DataTypeFormat -> DataTypeFormat -> S -> outcome (Z * S);
  co_accumulate_no_sync : list Z -> Z -> Z -> DataTypeFormat -> DataTypeFormat -> S -> outcome (Z * S);
  co_invalidate : list Z -> S -> outcome (Z * S);
  co_clear : S -> Z * S
}.

Section Table.
Context {S : Type} `{CacheOps S} (K : int_type) (c : GPUTableConfig).
(** What the lookup context knows of the cache. *)
Context (cfg : CacheConfig) (num_sets cache_base : Z).
(** The primitives of an insert, the sort of [lookup_sort_gather] and its space, and the
    orders in which the threads of the kernels run. *)
Context (sort : insert_env) (sort_pairs : list (Z * FindOutput) -> list (Z * FindOutput)) (cub_aux_bytes : Z).
Context (warps : list (Z * Z)) (gather_warps : list (Z * Z)) (update_threads : Z -> list (Z * Z)).
(** The pipelined gather kernel. *)
Context (gather_flow_pipeline : Z -> (Z -> Z) -> Z -> Z -> S -> outcome memory).

Local Abbreviation row := (row_size_in_bytes c).

(** [NVE_CHECK_] on an error code. *)
Definition ec_check (msg : string) (r : outcome (Z * S)) : outcome S :=
  let! r := r in
  check! r.1 =? ECERROR_SUCCESS as msg in Ok r.2.

Definition gpu_clear (s : S) : outcome S := ec_check "clear_cache" (Ok (co_clear s)).

(** [erase], [keys] being the buffer where the cache wants it ([None] for a null pointer). *)
Definition gpu_erase (keys : option (list Z)) (s : S) : outcome S :=
  match keys with
  | None => Throw "Invalid cache erase params"
  | Some keys => ec_check "Failed to call cache invalidate" (co_invalidate keys s)
  end.

(** [insert]: the batch for the cache, of a histogram on the device or on the host. *)
Definition insert_batch (keys : list Z) (value_stride values_buf : Z) : outcome (list (Z * f32 * Z)) :=
  if modify_on_gpu c then
    let num_keys := Z.of_nat (length keys) in
    let! h := compute_histogram (ie_hist sort) num_keys (key_at keys) num_keys values_buf value_stride (ie_storage sort) in
    Ok (take (Z.to_nat (Z.min (Z.of_nat (length h)) (max_modify_size c))) h)
  else Ok (DefaultHistogram values_buf value_stride false (ie_sort sort) keys).
Definition gpu_insert (keys : list Z) (value_stride value_size values_buf : Z) (s : S) : outcome S :=
  check! negb (values_buf =? 0) as "Invalid cache insert params" in
  check! value_size =? row as "Unsupported value_size" in
  let! items := insert_batch keys value_stride values_buf in
  ec_check "Failed to call cache insert" (co_insert items s).

(** The loop over parts of at most [max_modify_size] keys. *)
Fixpoint update_parts (fuel : nat) (k_start : Z) (keys : list Z) (updates_buf update_stride : Z) (s : S) : outcome S :=
  match fuel with
  | O => if k_start <? Z.of_nat (length keys) then Undef "the loop does not end" else Ok s
  | Datatypes.S fuel =>
      let num_keys := Z.of_nat (length keys) in
      if k_start <? num_keys then
        let k_end := Z.min (k_start + max_modify_size c) num_keys in
        let part := take (Z.to_nat (k_end - k_start)) (drop (Z.to_nat k_start) keys) in
        let! s := ec_check "Failed to call cache update" (co_update part (updates_buf + k_start * update_stride) update_stride s) in
        update_parts fuel (k_start + max_modify_size c) keys updates_buf update_stride s
      else Ok s
  end.

(** [update]: the cache, then the table in unified memory. Without keys the kernel of the
    table is launched with no block, and the call throws. *)
Definition gpu_update (keys : list Z) (update_stride update_size updates_buf : Z) (s : S) : outcome S :=
  check! negb (updates_buf =? 0) as "Invalid cache update params" in
  check! update_size =? row as "Unsupported update_size" in
  let! s := update_parts (length keys) 0 keys updates_buf update_stride s in
  if negb (uvm_table c =? 0) && negb (disable_uvm_update c) then
    let! m := UpdateTable K (co_mem s) updates_buf (key_at keys) (uvm_table c) (wrapu 32 row) (wrapu 32 update_stride) (wrapu 32 row)
                (wraps 32 (Z.of_nat (length keys))) update_threads (co_mem s) in
    Ok (co_set_mem s m)
  else Ok s.

(** [run_find_uvm]: the output and the miss counter. The table and the rows of the cache are
    read from the memory of the state. *)
Definition run_find_uvm (num_keys : Z) (keys : Z -> Z) (values value_stride : Z) (s : S) (v : memory) (misses : Z)
  : outcome (memory * Z) :=
  let! mode := get_kernel_mode c num_keys in
  match mode with
  | DynamicKernel => Throw "assertion"
  | LookupUVM =>
      let r := lookup_uvm K cfg num_sets cache_base (count_misses c) (co_tags s) (co_mem s) 0 keys num_keys values value_stride
                 (uvm_table c) warps true {| u_values := v; u_misses := misses |} in
      check! r.1 =? ECERROR_SUCCESS as "lookup" in Ok (u_values r.2, u_misses r.2)
  | SortGather =>
      let tile_size := if 0 <? kernel_mode_value c then kernel_mode_value c else 1024 in
      let gather aux v misses := lookup_sort_gather K cfg num_sets cache_base (count_misses c) (co_tags s) (co_mem s) keys num_keys
                 (uvm_table c) values sort_pairs cub_aux_bytes aux value_stride (conv int64_t tile_size) gather_warps v misses in
      let! r1 := gather None v misses in
      let '(e1, size, v, misses) := r1 in
      check! e1 =? ECERROR_SUCCESS as "lookup_sort_gather" in
      let! r2 := gather size v misses in
      let '(e2, _, v, misses) := r2 in
      check! e2 =? ECERROR_SUCCESS as "lookup_sort_gather" in Ok (v, misses)
  | PipelineGather =>
      let! v := gather_flow_pipeline num_keys keys values value_stride s in Ok (v, misses)
  end.

(** [find]: with a unified-memory table all keys are resolved and the hit mask is not
    touched; without one the cache is looked up with the mask. *)
Definition gpu_find (num_keys : Z) (keys : Z -> Z) (value_sizes : bool) (values value_stride : Z) (s : S) (st : query_state)
  : outcome query_state :=
  check! negb value_sizes as "value_sizes must be nullptr for GPU table" in
  if negb (uvm_table c =? 0) then
    let! r := run_find_uvm num_keys keys values value_stride s (q_values st) (q_misses st) in
    Ok {| q_mask := q_mask st; q_values := r.1; q_misses := r.2 |}
  else
    let r := lookup_hit_mask K cfg num_sets cache_base (count_misses c) (co_tags s) (co_mem s) 0 keys num_keys values value_stride warps true st in
    check! r.1 =? ECERROR_SUCCESS as "lookup" in Ok r.2.
End Table.

(** ** The promises of a cache *)

(** The bytes of the rows of table 0. *)
Definition cache_region (cfg : CacheConfig) (num_sets cache_base a : Z) : Prop :=
  slot_addr cfg num_sets cache_base 0 0 0 <= a < slot_addr cfg num_sets cache_base 0 num_sets 0.

(** A batch of at most [max] keys succeeds; hits deliver the rows [val] of the application
    and nothing is written outside the cache. A cache may restrict the batches it takes
    ([cl_items], [cl_keys]). *)
Class CacheLaws (S : Type) `{CacheOps S} (K T : int_type) (cfg : CacheConfig) (num_sets cache_base max : Z) := {
  cl_inv : (Z -> list Z) -> S -> Prop;
  cl_items : list (Z * f32 * Z) -> Prop;
  cl_keys : list Z -> Prop;
  cl_keys_nonempty keys : keys <> [] -> cl_keys keys;
  cl_ext val val' s : (forall k, val k = val' k) -> cl_inv val s -> cl_inv val' s;
  cl_coherent val s : cl_inv val s ->
    exists h, cache_inv K T cfg num_sets cache_base val 0 {| h_tags := h; d_tags := co_tags s; h_counters := fun _ => f32_zero; mem := co_mem s |};
  cl_insert val items s : cl_items items -> cl_inv val s -> batch_ok K T cfg num_sets cache_base val 0 (co_mem s) items ->
    exists s', co_insert items s = Ok (ECERROR_SUCCESS, s') /\ cl_inv val s' /\
      forall a, ~ cache_region cfg num_sets cache_base a -> co_mem s' a = co_mem s a;
  cl_update val val' keys dv stride s : cl_keys keys -> Z.of_nat (length keys) <= max ->
    0 <= stride -> Z.of_nat (length keys) * stride < 2 ^ 32 -> cl_inv val s ->
    update_rows_ok K T cfg num_sets cache_base val' 0 (co_mem s) keys dv stride -> (forall k, k ∉ keys -> val' k = val k) ->
    exists s', co_update keys dv stride s = Ok (ECERROR_SUCCESS, s') /\ cl_inv val' s' /\
      forall a, ~ cache_region cfg num_sets cache_base a -> co_mem s' a = co_mem s a;
  cl_invalidate val val' keys s : cl_keys keys -> Z.of_nat (length keys) <= max -> cl_inv val s ->
    (forall k, k ∈ keys -> valid_key K T cfg num_sets k) -> (forall k, k ∉ keys -> val' k = val k) ->
    exists s', co_invalidate keys s = Ok (ECERROR_SUCCESS, s') /\ cl_inv val' s' /\
      forall a, ~ cache_region cfg num_sets cache_base a -> co_mem s' a = co_mem s a;
  cl_clear val0 val s : cl_inv val0 s -> exists s', co_clear s = (ECERROR_SUCCESS, s') /\ cl_inv val s' /\ co_mem s' = co_mem s;
  cl_mem s m : co_mem (co_set_mem s m) = m;
  cl_set_mem val s m : (forall a, cache_region cfg num_sets cache_base a -> m a = co_mem s a) -> cl_inv val s -> cl_inv val (co_set_mem s m)
}.

(** ** The host-managed cache keeps them *)

Section HostCache.
Context (K T : int_type) (cfg : CacheConfig) (num_sets cache_base : Z) (decay_rate : f32).
Context (umap_order : list ModifyEntry -> list ModifyEntry).
Context (accumulate_row : DataTypeFormat -> DataTypeFormat -> Z -> Z -> Z -> memory -> memory).
Context (env : modify_env) (max_modify_size : Z) (thread_order : list Z -> list Z).

(** The modify context of a [GPUTableExecutionContext]. *)
Definition gpu_modify_context : option ModifyContext :=
  if max_modify_size <? 1 then None
  else Some {| entries := []; max_update_sz := wrapu 32 max_modify_size; table_index := 0; op := MODIFY_REPLACE;
               input_type := DATATYPE_FP32; output_type := DATATYPE_FP32 |}.

(** [update_accumulate_no_sync] of the base class and its kernel, for table 0: each thread
    finds the row of its key and the lanes of its warp add to it; [thread_order] is the
    order of the threads. *)
Definition update_accumulate_no_sync (keys : list Z) (d_values stride : Z) (i o : DataTypeFormat) (s : hm_state) : Z * hm_state :=
  match keys, i with
  | [], _ => (ECERROR_SUCCESS, s)
  | _, DATATYPE_INT8_SCALED => (ECERROR_CUDA_ERROR, s)
  | _, _ =>
      let add m tid :=
        match keys !! Z.to_nat tid with
        | Some key =>
            if lane_way_mask K num_sets (d_tags s) 0 key =? 0 then m
            else accumulate_row i o (lane_row_ptr K cfg num_sets cache_base (d_tags s) 0 key) (d_values + tid * stride) (embed_width_in_bytes cfg) m
        | None => m
        end in
      (ECERROR_SUCCESS, set_mem s (fold_left add (thread_order (seqZ 0 (Z.of_nat (length keys)))) (mem s)))
  end.

Definition host_cache_ops : CacheOps hm_state := {|
  co_mem := mem;
  co_set_mem := set_mem;
  co_tags := d_tags;
  co_insert items s := let '(e, _, s) := insert K T cfg num_sets cache_base decay_rate umap_order accumulate_row env gpu_modify_context items 0 s in Ok (e, s);
  co_update keys dv stride s := let '(e, _, s) := update K cfg num_sets cache_base accumulate_row env gpu_modify_context keys dv stride 0 s in Ok (e, s);
  co_accumulate keys dv stride i o s :=
    let '(e, _, s) := update_accumulate K cfg num_sets cache_base accumulate_row env gpu_modify_context keys dv stride 0 i o s in Ok (e, s);
  co_accumulate_no_sync keys dv stride i o s := Ok (update_accumulate_no_sync keys dv stride i o s);
  co_invalidate keys s :=
    let! r := invalidate K cfg num_sets accumulate_row env gpu_modify_context keys 0 s in
    let '(e, _, s) := r in Ok (e, s);
  co_clear s := clear_cache cfg num_sets true s
|}.

Context (HK : 0 < width K) (HT : 0 < width T) (Hns : 0 < num_sets <= 2 ^ 32) (Hrow : 0 < embed_width_in_bytes cfg).
Context (Horder : forall l, umap_order l ≡ₚ l) (Henv : env_ok env) (Hmax : 1 <= max_modify_size < 2 ^ 32) (Htables : num_tables cfg = 1).

Lemma gpu_modify_context_eq :
  exists c, gpu_modify_context = Some c /\ max_update_sz c = max_modify_size.
Proof.
  unfold gpu_modify_context. rewrite (proj2 (Z.ltb_ge _ _)) by lia. eexists. split; [done|]. simpl.
  apply wrapu_small. unfold in_u. lia.
Qed.

Program Definition host_cache_laws : @CacheLaws hm_state host_cache_ops K T cfg num_sets cache_base max_modify_size :=
  {| cl_inv val s := cache_inv K T cfg num_sets cache_base val 0 s; cl_items _ := True; cl_keys _ := True |}.
Next Obligation. done. Qed.
Next Obligation. intros val val' s E [H1 H2 H3]. constructor; [done..|]. intros k j Hk Hf. rewrite <- E. by apply H3. Qed.
Next Obligation.
  intros val s Hinv. exists (h_tags s). destruct Hinv as [H1 H2 H3]. by constructor.
Qed.
Next Obligation.
  intros val items s _ Hinv Hb. destruct gpu_modify_context_eq as (c & Ec & Em).
  destruct (insert_inv K T cfg num_sets cache_base decay_rate umap_order accumulate_row HK HT Hns Hrow Horder val 0 env c items s)
    as (c' & s' & E & Hci & Hk & _); [done|lia|done|done|].
  exists s'. cbn [co_insert host_cache_ops]. rewrite Ec, E. split; [done|]. split; [done|]. intros a Ha. by apply (kp_mem _ _ _ _ _ _ Hk).
Qed.
Next Obligation.
  intros val val' keys dv stride s _ Hlen _ _ Hinv Hr Hv. destruct gpu_modify_context_eq as (c & Ec & Em).
  destruct (update_inv K T cfg num_sets cache_base accumulate_row HK HT Hns Hrow val val' 0 env c keys dv stride s)
    as (c' & s' & E & Hci & Hk); [done|lia|done|done|done|].
  exists s'. cbn [co_update host_cache_ops]. rewrite Ec, E. split; [done|]. split; [done|]. intros a Ha. by apply (kp_mem _ _ _ _ _ _ Hk).
Qed.
Next Obligation.
  intros val val' keys s _ Hlen Hinv Hk Hv. destruct gpu_modify_context_eq as (c & Ec & Em).
  destruct (invalidate_inv K T cfg num_sets cache_base accumulate_row HK HT Hns val val' 0 env c keys s)
    as (c' & s' & E & Hci & Hkept & _); [done|lia|done|done|done|].
  exists s'. cbn [co_invalidate host_cache_ops]. rewrite Ec, E. split; [done|]. split; [done|]. intros a Ha. by apply (kp_mem _ _ _ _ _ _ Hkept).
Qed.
Next Obligation.
  intros val0 val s _. exists (clear_cache cfg num_sets true s).2. split; [done|]. split; [|done].
  apply clear_cache_inv; try done. lia.
Qed.
Next Obligation. done. Qed.
Next Obligation. intros val s m Hm Hinv. by apply set_mem_inv. Qed.
End HostCache.

(** ** Lemmas: the histogram *)

Section HistogramLemmas.
Context (data stride : Z) (is_linear : bool).
Local Abbreviation step := (hist_step data stride is_linear).

(** [float] after [n] increments from 1. *)
Fixpoint counted (n : nat) : f32 := match n with O => f32_one | Datatypes.S n => f32_add (counted n) f32_one end.

Definition occurrences (k : Z) (l : list (Z * Z)) : nat := length (filter (fun e => e.2 = k) l).

(** The bins of the entries [l] seen so far: one for each key, in the order of first
    occurrence, with the count and the row of the first occurrence. *)
Record hist_inv (l : list (Z * Z)) (st : hist_state) : Prop := {
  hi_nodup : NoDup (b_key <$> st.1);
  hi_map : forall k n, st.2 !! k = Some n <-> exists b, st.1 !! n = Some b /\ b_key b = k;
  hi_seen : forall k, k ∈ b_key <$> st.1 <-> k ∈ l.*2;
  hi_bin : forall b, b ∈ st.1 ->
    b_count b = counted (pred (occurrences (b_key b) l)) /\
    exists i l1 l2, l = l1 ++ (i, b_key b) :: l2 /\ b_key b ∉ l1.*2 /\
      b_data b = data + (if is_linear then wrapu 64 (b_key b) else i) * stride
}.

Lemma occurrences_app k l l' : occurrences k (l ++ l') = (occurrences k l + occurrences k l')%nat.
Proof. unfold occurrences. by rewrite filter_app, length_app. Qed.

Lemma occurrences_pos k l : k ∈ l.*2 <-> (0 < occurrences k l)%nat.
Proof.
  unfold occurrences. split.
  - intros (e & -> & He)%list_elem_of_fmap. destruct (filter _ l) eqn:E; [|simpl; lia].
    apply (filter_nil_not_elem_of _ _ e) in E; [done|]. done.
  - destruct (filter _ l) as [|e l'] eqn:E; [simpl; lia|]. intros _.
    assert (He : e ∈ filter (fun e => e.2 = k) l) by (rewrite E; by left). apply list_elem_of_filter in He as [<- He].
    by apply list_elem_of_fmap_2.
Qed.

Lemma hist_step_inv l st i k : hist_inv l st -> hist_inv (l ++ [(i, k)]) (step st (i, k)).
Proof.
  intros [Hnd Hmap Hseen Hbin]. destruct st as [bins m]. simpl in *. unfold hist_step. simpl.
  assert (Hone : forall k', occurrences k' [(i, k)] = if decide (k = k') then 1%nat else 0%nat).
  { intros k'. unfold occurrences. rewrite filter_cons. simpl. by destruct (decide (k = k')). }
  destruct (m !! k) as [n|] eqn:Em.
  - apply Hmap in Em as (b0 & Hn & Hk). simpl in *.
    set (f b := {| b_key := b_key b; b_count := f32_add (b_count b) f32_one; b_data := b_data b |}).
    assert (Hkeys : b_key <$> alter f n bins = b_key <$> bins).
    { rewrite (list_fmap_alter b_key f id); [by apply list_alter_id|]. by apply Forall_true. }
    assert (Hin0 : b0 ∈ bins) by (by eapply list_elem_of_lookup_2).
    assert (Hk0 : (0 < occurrences k l)%nat).
    { apply occurrences_pos, Hseen. rewrite <- Hk. by apply list_elem_of_fmap_2. }
    constructor; simpl.
    + by rewrite Hkeys.
    + intros k' n'. rewrite Hmap. split.
      * intros (b & Hb & <-). destruct (decide (n' = n)) as [->|Hne].
        -- exists (f b). rewrite list_lookup_alter_eq, Hb. done.
        -- exists b. by rewrite list_lookup_alter_ne.
      * intros (b & Hb & <-). destruct (decide (n' = n)) as [->|Hne].
        -- rewrite list_lookup_alter_eq in Hb. destruct (bins !! n) as [b1|]; [|done]. injection Hb as <-. by exists b1.
        -- rewrite list_lookup_alter_ne in Hb by done. by exists b.
    + intros k'. rewrite Hkeys, Hseen, fmap_app, elem_of_app. split; [by left|]. intros [|Hk']; [done|].
      apply list_elem_of_singleton in Hk' as ->. by apply occurrences_pos.
    + intros b Hb. apply list_elem_of_lookup in Hb as [n' Hb]. rewrite occurrences_app, Hone.
      destruct (decide (n' = n)) as [->|Hne].
      * rewrite list_lookup_alter_eq, Hn in Hb. injection Hb as <-. simpl. rewrite Hk. rewrite decide_True by done.
        destruct (Hbin b0 Hin0) as [Hc (j & l1 & l2 & -> & Hl1 & Hd)]. rewrite Hk in *. split.
        -- rewrite Hc. destruct (occurrences k _) as [|o] eqn:E; [lia|]. by replace (pred (Datatypes.S o + 1)) with (Datatypes.S o) by lia.
        -- exists j, l1, (l2 ++ [(i, k)]). by rewrite <- app_assoc.
      * rewrite list_lookup_alter_ne in Hb by done. rewrite decide_False.
        2:{ intros ->. apply Hne. apply (NoDup_lookup _ _ _ (b_key b) Hnd); by rewrite list_lookup_fmap, ?Hb, ?Hn; simpl; rewrite ?Hk. }
        rewrite Nat.add_0_r. destruct (Hbin b) as [Hc (j & l1 & l2 & -> & Hl1 & Hd)]; [by eapply list_elem_of_lookup_2|].
        split; [done|]. exists j, l1, (l2 ++ [(i, k)]). by rewrite <- app_assoc.
  - assert (Hnew : k ∉ b_key <$> bins).
    { intros (b & -> & Hb)%list_elem_of_fmap. apply list_elem_of_lookup in Hb as [n Hn].
      assert (m !! b_key b = Some n) by (apply Hmap; by exists b). congruence. }
    constructor; simpl.
    + rewrite fmap_app. apply NoDup_app. split; [done|]. split; [|apply NoDup_singleton].
      intros k' Hk' Hs. by apply list_elem_of_singleton in Hs as ->.
    + intros k' n'. rewrite lookup_insert_Some. rewrite Hmap. split.
      * intros [ [<- <-]|[Hne (b & Hb & <-)] ].
        -- eexists. rewrite lookup_app_r, Nat.sub_diag by lia. done.
        -- exists b. by rewrite lookup_app_l by (by eapply lookup_lt_Some).
      * intros (b & Hb & <-). apply lookup_app_Some in Hb as [Hb|[Hle Hb] ].
        -- right. split; [|by exists b]. intros ->. apply Hnew, list_elem_of_fmap_2. by eapply list_elem_of_lookup_2.
        -- left. destruct (n' - length bins)%nat eqn:E; [|done]. injection Hb as <-. simpl. split; [done|lia].
    + intros k'. rewrite !fmap_app, !elem_of_app, Hseen. simpl. done.
    + intros b Hb. rewrite occurrences_app, Hone. apply elem_of_app in Hb as [Hb|Hb%list_elem_of_singleton].
      * rewrite decide_False by (intros ->; by apply Hnew, list_elem_of_fmap_2). rewrite Nat.add_0_r.
        destruct (Hbin b Hb) as [Hc (j & l1 & l2 & -> & Hl1 & Hd)]. split; [done|].
        exists j, l1, (l2 ++ [(i, k)]). by rewrite <- app_assoc.
      * subst b. simpl. rewrite decide_True by done.
        assert (E : occurrences k l = 0%nat) by (destruct (decide (occurrences k l = 0%nat)); [done|]; exfalso; apply Hnew, Hseen, occurrences_pos; lia).
        rewrite E. split; [done|]. exists i, l, []. split; [done|]. split; [by rewrite <- Hseen|done].
Qed.

Lemma hist_fold l l0 st : hist_inv l0 st -> hist_inv (l0 ++ l) (fold_left step l st).
Proof.
  revert l0 st. induction l as [|[i k] l IH]; intros l0 st Hinv; [by rewrite app_nil_r|].
  cbn [fold_left]. rewrite cons_middle, app_assoc. by apply IH, hist_step_inv.
Qed.

Lemma hist_all l : hist_inv l (fold_left step l ([], ∅)).
Proof.
  apply (hist_fold l []). constructor; simpl; [constructor| |done|].
  - intros k n. rewrite lookup_empty. split; [done|]. by intros (b & Hb & _).
  - intros b Hb. by apply not_elem_of_nil in Hb.
Qed.
End HistogramLemmas.

Lemma zip_seqZ_lookup {A} (l : list A) (i : Z) (a : A) l1 l2 :
  zip (seqZ 0 (Z.of_nat (length l))) l = l1 ++ (i, a) :: l2 ->
  i = Z.of_nat (length l1) /\ l !! length l1 = Some a /\ l1.*2 = take (length l1) l.
Proof.
  intros E. assert (Hl : length (zip (seqZ 0 (Z.of_nat (length l))) l) = length l) by (rewrite length_zip, length_seqZ; lia).
  assert (Hn : (length l1 < length l)%nat) by (rewrite <- Hl, E, length_app; simpl; lia).
  assert (Hat : zip (seqZ 0 (Z.of_nat (length l))) l !! length l1 = Some (i, a)) by (by rewrite E, list_lookup_middle).
  apply lookup_zip_with_Some in Hat as (x & y & [= <- <-] & Hx & Hy). split; [|split; [done|]].
  - rewrite lookup_seqZ_lt in Hx by lia. injection Hx. lia.
  - assert (E2 : (zip (seqZ 0 (Z.of_nat (length l))) l).*2 = l) by (apply snd_zip; rewrite length_seqZ; lia).
    rewrite E, fmap_app in E2. rewrite <- E2. rewrite take_app_length'; [done|]. by rewrite length_fmap.
Qed.

(** The position of the first occurrence of a key in the list. *)
Definition first_at (keys : list Z) (k : Z) (n : nat) : Prop := keys !! n = Some k /\ k ∉ take n keys.

Lemma occurrences_snd k l : occurrences k l = length (filter (fun k' => k' = k) l.*2).
Proof.
  unfold occurrences. induction l as [|e l IH]; [done|]. rewrite fmap_cons, !filter_cons.
  destruct (decide (e.2 = k)); simpl; by rewrite IH.
Qed.

Section InsertBatch.
Context (sort : list Bin -> list Bin) (Hsort : forall l, sort l ≡ₚ l).

Lemma histogram_item data stride keys k p d :
  (k, p, d) ∈ DefaultHistogram data stride false sort keys ->
  exists n, first_at keys k n /\ d = data + Z.of_nat n * stride /\
    p = f32_div (counted (pred (length (filter (fun k' => k' = k) keys)))) (f32_of_Z (Z.of_nat (length keys))).
Proof.
  unfold DefaultHistogram. intros (b & [= -> -> ->] & Hb)%list_elem_of_fmap. unfold histogram_bins in Hb. rewrite Hsort in Hb.
  set (l := zip _ keys) in *. destruct (hi_bin _ _ _ _ _ (hist_all data stride false l) b Hb) as [Hc (i & l1 & l2 & E & Hni & Hd)].
  destruct (zip_seqZ_lookup keys i (b_key b) l1 l2 E) as (-> & Hn & Et). exists (length l1). split; [split; [done|by rewrite <- Et]|].
  split; [done|]. f_equal. rewrite Hc, occurrences_snd.
  by replace l.*2 with keys by (symmetry; apply snd_zip; rewrite length_seqZ; lia).
Qed.

Lemma histogram_keys data stride keys :
  NoDup (DefaultHistogram data stride false sort keys).*1.*1 /\
  forall k, k ∈ (DefaultHistogram data stride false sort keys).*1.*1 <-> k ∈ keys.
Proof.
  set (l := zip (seqZ 0 (Z.of_nat (length keys))) keys).
  assert (E : (DefaultHistogram data stride false sort keys).*1.*1 ≡ₚ b_key <$> (fold_left (hist_step data stride false) l ([], ∅)).1).
  { unfold DefaultHistogram. rewrite <- !list_fmap_compose. unfold histogram_bins. rewrite Hsort. fold l.
    done. }
  pose proof (hist_all data stride false l) as [Hnd _ Hseen _]. rewrite E. split; [done|]. intros k. rewrite E, Hseen.
  by replace l.*2 with keys by (symmetry; apply snd_zip; rewrite length_seqZ; lia).
Qed.

(** The histogram of a batch: each key of the batch once and nothing else; its row is
    that of the first occurrence, its priority the number of occurrences (counted in
    [float]) over the size of the batch; bins come in order of decreasing count. *)
Theorem histogram_correct (data stride : Z) (keys : list Z)
    (Hsorted : forall l, Sorted (fun a b => f32_lt (b_count a) (b_count b) = false) (sort l)) :
  let h := DefaultHistogram data stride false sort keys in
  NoDup h.*1.*1 /\ (forall k, k ∈ h.*1.*1 <-> k ∈ keys) /\
  (forall k p d, (k, p, d) ∈ h -> exists n, first_at keys k n /\ d = data + Z.of_nat n * stride /\
    p = f32_div (counted (pred (length (filter (fun k' => k' = k) keys)))) (f32_of_Z (Z.of_nat (length keys)))) /\
  exists bins, h = (fun b => (b_key b, f32_div (b_count b) (f32_of_Z (Z.of_nat (length keys))), b_data b)) <$> bins /\
    Sorted (fun a b => f32_lt (b_count a) (b_count b) = false) bins.
Proof.
  intros h. split; [apply histogram_keys|]. split; [apply histogram_keys|].
  split; [intros k p d; apply histogram_item|]. exists (histogram_bins data stride false sort keys). split; [done|apply Hsorted].
Qed.
End InsertBatch.

(** ** The table never serves a stale row *)

Section TableCoherence.
Context {S : Type} `{CacheOps S} (K T : int_type) (c : GPUTableConfig).
Context (cfg : CacheConfig) (num_sets cache_base : Z) `{!CacheLaws S K T cfg num_sets cache_base (max_modify_size c)}.
Context (sort : insert_env) (sort_pairs : list (Z * FindOutput) -> list (Z * FindOutput)) (cub_aux_bytes : Z).
Context (gather_warps : Z -> list (Z * Z)).
Context (gather_flow_pipeline : Z -> (Z -> Z) -> Z -> Z -> S -> outcome memory).
Local Abbreviation row := (row_size_in_bytes c).
Local Abbreviation region := (cache_region cfg num_sets cache_base).

Context (HK : 0 < width K) (HT : 0 < width T) (Hns : 0 < num_sets <= 2 ^ 32) (Hbase : 0 < cache_base) (Hslots : num_sets * NUM_WAYS <= 2 ^ 32).
Context (Hcfg : embed_width_in_bytes cfg = row) (Hrow : 0 < row < 2 ^ 32) (Heven : (2 | row)).
Context (Hsort : forall l, ie_sort sort l ≡ₚ l) `{!HistLaws (ie_hist sort)} (Hpairs : forall l, sort_pairs l ≡ₚ l).
Context (Hmax : 1 <= max_modify_size c).
(** The table in unified memory has [num_rows] rows, apart from the cache and within the
    address space; with 32-bit keys its byte offsets fit 32 bits. *)
Context (num_rows : Z) (Huvm : 0 < uvm_table c) (Hend : uvm_table c + num_rows * row < 2 ^ 64).
Context (Hapart : forall a, uvm_table c <= a < uvm_table c + num_rows * row -> ~ region a).
Context (Hk32 : width K <= 32 -> num_rows * row < 2 ^ 32).
Context (Hvalid : forall k, 0 <= k < num_rows -> valid_key K T cfg num_sets k).

(** Every hit and every row of the table is the row [val] of the application. *)
Definition table_inv (val : Z -> list Z) (s : S) : Prop :=
  cl_inv (K := K) (T := T) (cfg := cfg) (num_sets := num_sets) (cache_base := cache_base) (max := max_modify_size c) val s /\
  forall k, 0 <= k < num_rows -> mem_read (co_mem s) (uvm_table c + k * row) row = val k.

(** A row the application passes in: outside the cache. *)
Definition app_row (a : Z) : Prop := forall x, a <= x < a + row -> ~ region x.

Lemma app_row_outside a : app_row a -> outside cfg num_sets cache_base 0 a.
Proof.
  intros Ha set way [Hs Hw]. unfold disjoint. rewrite Hcfg.
  set (sa := slot_addr cfg num_sets cache_base 0 set way).
  assert (Hin : forall x, sa <= x < sa + row -> region x).
  { intros x Hx. unfold cache_region. unfold sa, slot_addr, NUM_WAYS in *. rewrite Hcfg in *. nia. }
  destruct (Z.le_gt_cases (sa + row) a) as [|H1]; [by left|]. destruct (Z.le_gt_cases (a + row) sa) as [|H2]; [by right|].
  exfalso. apply (Ha (Z.max a sa)); [lia|]. apply Hin. lia.
Qed.

Lemma frame_read (s s' : S) a :
  (forall x, ~ region x -> co_mem s' x = co_mem s x) -> app_row a -> mem_read (co_mem s') a row = mem_read (co_mem s) a row.
Proof. intros Hf Ha. apply mem_read_ext. intros x Hx. by apply Hf, Ha. Qed.

Lemma uvm_row_app k : 0 <= k < num_rows -> app_row (uvm_table c + k * row).
Proof. intros Hk x Hx. apply Hapart. nia. Qed.

Lemma table_frame val val' s s' :
  cl_inv val' s' -> (forall x, ~ region x -> co_mem s' x = co_mem s x) -> table_inv val s ->
  (forall k, 0 <= k < num_rows -> val' k = val k) -> table_inv val' s'.
Proof.
  intros Hi Hf [_ Hr] Hv. split; [done|]. intros k Hk. rewrite (frame_read s s') by (done || by apply uvm_row_app).
  by rewrite Hr, Hv.
Qed.

(** *** insert, erase, clear *)

(** An item of the batch is a key of the call with the row of one of its positions. *)
Lemma insert_batch_items keys stride values items k p d :
  Z.of_nat (length keys) < 2 ^ 31 -> insert_batch c sort keys stride values = Ok items -> (k, p, d) ∈ items ->
  exists n, keys !! n = Some k /\ d = values + Z.of_nat n * stride.
Proof.
  intros Hlen E Hin. unfold insert_batch in E. destruct (modify_on_gpu c).
  - set (n := Z.of_nat (length keys)) in *. destruct (decide (n = 0)) as [E0|Hne].
    { rewrite E0, compute_histogram_empty in E by (done || lia). done. }
    destruct (compute_histogram_lemma (ie_hist sort) n (key_at keys) n values stride (ie_storage sort) ltac:(lia) ltac:(lia)) as (bins & Hb & Eh).
    rewrite Eh in E. cbn [obind] in E. injection E as <-. apply elem_of_take in Hin as (i & Hin & _). apply list_elem_of_lookup_2 in Hin.
    apply list_elem_of_fmap in Hin as ([c0 q] & [= -> -> ->] & Hin). destruct (bn_bin _ _ _ Hb c0 q Hin) as [_ Hq]. simpl.
    assert (Hp : q ∈ Dedup.positions (key_at keys) n (key_at keys q)) by (destruct (Dedup.positions _ _ _); [done|]; injection Hq as ->; by left).
    unfold Dedup.positions in Hp. apply list_elem_of_filter in Hp as [_ Hp%elem_of_seqZ]. exists (Z.to_nat q). rewrite Z2Nat.id by lia. split; [|done].
    destruct (lookup_lt_is_Some_2 keys (Z.to_nat q) ltac:(lia)) as [x Hx]. unfold key_at. by rewrite Hx.
  - injection E as <-. apply histogram_item in Hin as (n & [Hn _] & -> & _); [|done]. by exists n.
Qed.

Lemma insert_batch_ok keys stride values :
  (modify_on_gpu c = true -> keys <> []) -> Z.of_nat (length keys) < 2 ^ 31 -> exists items, insert_batch c sort keys stride values = Ok items.
Proof.
  intros Hne Hlen. unfold insert_batch. destruct (modify_on_gpu c); [|by eexists].
  assert (0 < Z.of_nat (length keys)) by (destruct keys; [by destruct (Hne eq_refl)|simpl; lia]).
  destruct (compute_histogram_lemma (ie_hist sort) (Z.of_nat (length keys)) (key_at keys) (Z.of_nat (length keys)) values stride (ie_storage sort)) as (bins & _ & ->); [lia|lia|].
  by eexists.
Qed.

(** What an insert may be called with. *)
Definition insert_ok (keys : list Z) (stride values : Z) : Prop :=
  (modify_on_gpu c = true -> keys <> []) /\ Z.of_nat (length keys) < 2 ^ 31 /\
  forall items, insert_batch c sort keys stride values = Ok items -> cl_items items.

Lemma gpu_insert_lemma val keys stride values s :
  insert_ok keys stride values -> table_inv val s -> 0 < values ->
  (forall n k, keys !! n = Some k -> 0 <= k < num_rows /\ app_row (values + Z.of_nat n * stride) /\
    mem_read (co_mem s) (values + Z.of_nat n * stride) row = val k) ->
  exists s', gpu_insert c sort keys stride row values s = Ok s' /\ table_inv val s'.
Proof.
  intros (Hne & Hlen & Hit) Hinv Hv Hrows. unfold gpu_insert. rewrite (proj2 (Z.eqb_neq _ _)), Z.eqb_refl by lia. cbn [negb].
  destruct (insert_batch_ok keys stride values Hne Hlen) as [items Ei]. rewrite Ei. cbn [obind].
  destruct (cl_insert val items s (Hit _ Ei) (proj1 Hinv)) as (s' & E & Hi & Hf).
  - intros k p d Hin. destruct (insert_batch_items keys stride values items k p d Hlen Ei Hin) as (n & Hn & ->).
    destruct (Hrows n k Hn) as (Hk & Ha & Hr). rewrite Hcfg. split; [by apply Hvalid|]. split; [by apply app_row_outside|done].
  - exists s'. unfold ec_check. rewrite E. split; [done|]. by apply (table_frame val val s).
Qed.

Lemma gpu_erase_lemma val keys s :
  table_inv val s -> cl_keys keys -> Z.of_nat (length keys) <= max_modify_size c -> (forall k, k ∈ keys -> 0 <= k < num_rows) ->
  exists s', gpu_erase (Some keys) s = Ok s' /\ table_inv val s'.
Proof.
  intros Hinv Hck Hlen Hk. destruct (cl_invalidate val val keys s Hck Hlen (proj1 Hinv)) as (s' & E & Hi & Hf); [by intros k Hin; apply Hvalid, Hk|done|].
  exists s'. unfold gpu_erase, ec_check. rewrite E. split; [done|]. by apply (table_frame val val s).
Qed.

Lemma gpu_clear_lemma val s : table_inv val s -> exists s', gpu_clear s = Ok s' /\ table_inv val s'.
Proof.
  intros Hinv. destruct (cl_clear val val s (proj1 Hinv)) as (s' & E & Hi & Hm). exists s'. unfold gpu_clear, ec_check. rewrite E. split; [done|].
  apply (table_frame val val s); [done|by rewrite Hm|done|done].
Qed.

(** *** update *)

(** The rows of an update, relative to the new values. *)
Definition rows_given (val' : Z -> list Z) (keys : list Z) (updates stride : Z) (s : S) : Prop :=
  forall n k, keys !! n = Some k -> 0 <= k < num_rows /\ app_row (updates + Z.of_nat n * stride) /\
    mem_read (co_mem s) (updates + Z.of_nat n * stride) row = val' k.

Lemma rows_given_frame val' keys updates stride s s' :
  (forall x, ~ region x -> co_mem s' x = co_mem s x) -> rows_given val' keys updates stride s -> rows_given val' keys updates stride s'.
Proof.
  intros Hf Hr n k Hn. destruct (Hr n k Hn) as (Hk & Ha & Hv). split; [done|]. split; [done|]. by rewrite (frame_read s s').
Qed.

Lemma update_part_rows val' keys updates stride k_start n s :
  rows_given val' keys updates stride s -> 0 <= k_start ->
  update_rows_ok K T cfg num_sets cache_base val' 0 (co_mem s) (take n (drop (Z.to_nat k_start) keys)) (updates + k_start * stride) stride.
Proof.
  intros Hr Hk i k Hi. apply lookup_take_Some in Hi as [Hi _]. rewrite lookup_drop in Hi.
  destruct (Hr _ _ Hi) as (Hkr & Ha & Hv). rewrite Nat2Z.inj_add, Z2Nat.id in * by done.
  replace (updates + k_start * stride + Z.of_nat i * stride) with (updates + (k_start + Z.of_nat i) * stride) by ring.
  rewrite Hcfg. split; [by apply Hvalid|]. split; [by apply app_row_outside|done].
Qed.

(** The parts cover all keys, whatever the size of a part. *)
Lemma update_parts_lemma val' keys updates stride fuel k_start val s :
  0 <= stride -> Z.of_nat (length keys) * stride < 2 ^ 32 -> cl_inv val s -> rows_given val' keys updates stride s -> 0 <= k_start ->
  (forall k, k ∉ drop (Z.to_nat k_start) keys -> val' k = val k) ->
  Z.of_nat (length keys) - k_start <= Z.of_nat fuel ->
  exists s', update_parts c fuel k_start keys updates stride s = Ok s' /\ cl_inv val' s' /\
    forall x, ~ region x -> co_mem s' x = co_mem s x.
Proof.
  intros Hst Hfit. revert k_start val s. induction fuel as [|fuel IH]; intros k_start val s Hinv Hr Hk Hv Hfuel; cbn [update_parts].
  - rewrite (proj2 (Z.ltb_ge _ _)) by lia. exists s. split; [done|]. split; [|done].
    eapply cl_ext; [|exact Hinv]. intros k. symmetry. apply Hv. rewrite drop_ge by lia. apply not_elem_of_nil.
  - destruct (Z.ltb_spec k_start (Z.of_nat (length keys))) as [Hlt|Hge].
    2:{ exists s. split; [done|]. split; [|done].
        eapply cl_ext; [|exact Hinv]. intros k. symmetry. apply Hv. rewrite drop_ge by lia. apply not_elem_of_nil. }
    set (k_end := Z.min _ _). set (part := take _ _).
    set (val1 k := if bool_decide (k ∈ part) then val' k else val k).
    assert (Hp : Z.of_nat (length part) <= max_modify_size c) by (unfold part; rewrite length_take; lia).
    assert (Hl : (0 < length part <= length keys)%nat) by (unfold part, k_end; rewrite length_take, length_drop; lia).
    destruct (cl_update val val1 part (updates + k_start * stride) stride s (cl_keys_nonempty part ltac:(destruct part; simpl in Hl; [lia|done])) Hp Hst ltac:(nia) Hinv) as (s1 & E1 & Hi1 & Hf1).
    { intros i k Hi. pose proof (update_part_rows val' keys updates stride k_start _ s Hr Hk i k Hi) as (H1 & H2 & H3).
      split; [done|]. split; [done|]. rewrite H3. unfold val1. rewrite bool_decide_true; [done|]. by eapply list_elem_of_lookup_2. }
    { intros k Hni. unfold val1. by rewrite bool_decide_false. }
    unfold ec_check. rewrite E1. cbn [obind fst snd]. rewrite Z.eqb_refl.
    destruct (IH (k_start + max_modify_size c) val1 s1) as (s' & E & Hi & Hf).
    + done.
    + by apply (rows_given_frame val' keys updates stride s).
    + lia.
    + intros k Hni. unfold val1. destruct (bool_decide_reflect (k ∈ part)) as [|Hnp]; [done|]. apply Hv.
      intros Hin. rewrite <- (take_drop (Z.to_nat (k_end - k_start)) (drop _ _)), elem_of_app in Hin.
      destruct Hin as [Hin|Hin]; [done|]. rewrite drop_drop in Hin.
      destruct (Z.le_gt_cases (k_start + max_modify_size c) (Z.of_nat (length keys))) as [Hle|Hgt].
      * apply Hni. by replace (Z.to_nat (k_start + max_modify_size c)) with (Z.to_nat k_start + Z.to_nat (k_end - k_start))%nat by lia.
      * rewrite drop_ge in Hin by lia. by apply not_elem_of_nil in Hin.
    + lia.
    + exists s'. split; [done|]. split; [done|]. intros x Hx. rewrite Hf, Hf1 by done. done.
Qed.

Lemma gpu_update_lemma update_threads val val' keys stride updates s :
  keys <> [] -> table_inv val s -> 0 < updates -> rows_given val' keys updates stride s -> (forall k, k ∉ keys -> val' k = val k) ->
  disable_uvm_update c = false -> launch_order 32 (Z.of_nat (length keys)) update_threads ->
  Z.of_nat (length keys) < 2 ^ 31 -> 0 <= stride < 2 ^ 32 -> Z.of_nat (length keys) * stride < 2 ^ 32 ->
  exists s', gpu_update K c update_threads keys stride row updates s = Ok s' /\ table_inv val' s'.
Proof.
  intros Hkeys [Hinv Hrows] Hu Hr Hv Hen Ho Hn Hstride Hfit. unfold gpu_update.
  assert (Hpos : 0 < Z.of_nat (length keys)) by (destruct keys; [done|simpl; lia]).
  rewrite (proj2 (Z.eqb_neq updates 0)), Z.eqb_refl by lia. cbn [negb].
  destruct (update_parts_lemma val' keys updates stride (length keys) 0 val s) as (s1 & -> & Hi & Hf); [lia|done|done|done|lia|done|lia|].
  cbn [obind]. rewrite Hen, (proj2 (Z.eqb_neq (uvm_table c) 0)) by lia. cbn [negb andb].
  rewrite (wrapu_small 32 row), (wrapu_small 32 stride) by (unfold in_u; lia).
  rewrite (wraps_small 32) by (unfold in_s; lia).
  pose proof (rows_given_frame val' keys updates stride s s1 Hf Hr) as Hr1.
  assert (Hat : forall id, 0 <= id < Z.of_nat (length keys) -> exists k, key_at keys id = k /\ keys !! Z.to_nat id = Some k).
  { intros id Hid. destruct (lookup_lt_is_Some_2 keys (Z.to_nat id) ltac:(lia)) as [k Hk]. exists k. unfold key_at. by rewrite Hk. }
  destruct (UpdateTable_rows K (co_mem s1) updates (key_at keys) (uvm_table c) row stride row (Z.of_nat (length keys))) with (order := update_threads) (val := val') (m := co_mem s1) as (m' & -> & Hw & Hsame).
  - lia.
  - lia.
  - done.
  - lia.
  - done.
  - intros id Hid. destruct (Hat id Hid) as (k & -> & Hk). destruct (Hr1 _ _ Hk) as (Hkr & _). split; [lia|]. intros H32. specialize (Hk32 H32). nia.
  - done.
  - done.
  - intros id Hid. destruct (Hat id Hid) as (k & -> & Hk). destruct (Hr1 _ _ Hk) as (_ & _ & Hval). by rewrite Z2Nat.id in Hval by lia.
  - cbn [obind]. eexists. split; [done|]. split.
    + apply cl_set_mem; [|done]. intros a Ha. apply Hsame. intros id Hid Hin. destruct (Hat id Hid) as (k & E & Hk). rewrite E in Hin.
      destruct (Hr1 _ _ Hk) as (Hkr & _). eapply Hapart; [|exact Ha]. nia.
    + intros k Hk. rewrite cl_mem. destruct (decide (k ∈ keys)) as [Hin|Hni].
      * apply list_elem_of_lookup in Hin as [n Hkn]. pose proof (lookup_lt_Some _ _ _ Hkn).
        assert (E : key_at keys (Z.of_nat n) = k) by (unfold key_at; rewrite Nat2Z.id; by rewrite Hkn).
        rewrite <- E at 1. rewrite (Hw (Z.of_nat n)) by lia. by rewrite E.
      * rewrite Hv by done. rewrite <- (Hrows k Hk). rewrite <- (frame_read s s1) by (done || by apply uvm_row_app).
        apply mem_read_ext. intros x Hx. apply Hsame. intros id Hid Hin. destruct (Hat id Hid) as (k' & E & Hk'). rewrite E in Hin.
        assert (k = k') as -> by nia. apply Hni. by eapply list_elem_of_lookup_2.
Qed.

(** An update of no key leaves the cache alone and throws at the table. *)
Lemma gpu_update_zero update_threads stride updates s :
  0 < updates -> disable_uvm_update c = false ->
  gpu_update K c update_threads [] stride row updates s = Throw "invalid configuration argument".
Proof.
  intros Hu Hen. unfold gpu_update. rewrite (proj2 (Z.eqb_neq updates 0)), Z.eqb_refl by lia. cbn [negb update_parts length].
  rewrite (proj2 (Z.ltb_ge 0 _)) by lia. cbn [obind]. rewrite Hen, (proj2 (Z.eqb_neq (uvm_table c) 0)) by lia. cbn [negb andb].
  rewrite (wrapu_small 32 row) by (unfold in_u; lia).
  rewrite (wraps_small 32) by (unfold in_s; lia).
  by rewrite (UpdateTable_zero K (co_mem s) updates (key_at []) (uvm_table c) row (wrapu 32 stride) row) by (done || lia).
Qed.

(** *** find *)

(** The size of the tiles of the gather kernel. *)
Definition tile_size : Z := if 0 <? kernel_mode_value c then kernel_mode_value c else 1024.

(** What a launch must satisfy for the mode chosen: the sort-and-gather kernels need rows
    without padding and counts that fit 32 bits. *)
Definition launch_ok (mode : KernelType) (num_keys value_stride : Z) (gather_warps : list (Z * Z)) : Prop :=
  match mode with
  | LookupUVM => row <= value_stride
  | SortGather => value_stride = row /\ num_keys + 4 * tile_size < 2 ^ 32 /\ gather_warps ≡ₚ gather_grid num_keys tile_size
  | _ => False
  end.

Lemma run_find_uvm_lemma warps gwarps val num_keys keys values value_stride s v misses mode :
  table_inv val s -> get_kernel_mode c num_keys = Ok mode -> launch_ok mode num_keys value_stride gwarps ->
  0 <= num_keys < 2 ^ 32 - 128 -> warps ≡ₚ grid num_keys -> (forall j, 0 <= j < num_keys -> 0 <= keys j < num_rows) ->
  exists v' misses', run_find_uvm K c cfg num_sets cache_base sort_pairs cub_aux_bytes warps gwarps gather_flow_pipeline
      num_keys keys values value_stride s v misses = Ok (v', misses') /\
    forall j, mem_read v' (values + j * value_stride) row =
      if (0 <=? j) && (j <? num_keys) then val (keys j) else mem_read v (values + j * value_stride) row.
Proof.
  intros [Hinv Hrows] Hmode Hlaunch Hn Hw Hk. destruct (cl_coherent val s Hinv) as [h Hci].
  set (view := {| h_tags := h; d_tags := co_tags s; h_counters := _; mem := co_mem s |}) in Hci.
  assert (Hvk : forall j, 0 <= j < num_keys -> valid_key K T cfg num_sets (keys j)) by (intros j Hj; by apply Hvalid, Hk).
  assert (Ha : forall j, 0 <= j < num_keys -> 0 < uvm_table c + keys j * embed_width_in_bytes cfg < 2 ^ 64).
  { intros j Hj. specialize (Hk j Hj). rewrite Hcfg. nia. }
  assert (Ht : forall j, 0 <= j < num_keys -> mem_read (mem view) (uvm_table c + keys j * embed_width_in_bytes cfg) (embed_width_in_bytes cfg) = val (keys j)).
  { intros j Hj. rewrite Hcfg. by apply Hrows, Hk. }
  unfold run_find_uvm. rewrite Hmode. cbn [obind]. destruct mode; try done; simpl in Hlaunch.
  - destruct (query_uvm_correct K T cfg num_sets cache_base (count_misses c) HK Hns Hbase keys num_keys values value_stride
      ltac:(rewrite Hcfg; lia) Hn val 0 view ltac:(lia) Hci Hvk warps (uvm_table c) {| u_values := v; u_misses := misses |} Hw Huvm Ha Ht)
      as (st' & E & Hr & _). change (co_tags s) with (d_tags view). change (co_mem s) with (mem view). rewrite E. simpl.
    do 2 eexists. split; [done|]. intros j. specialize (Hr j). by rewrite Hcfg in Hr.
  - destruct Hlaunch as (-> & Hfit & Hg). fold tile_size.
    assert (Htile : conv int64_t tile_size = tile_size) by (apply conv_small; [done|unfold in_range, in_s, tile_size in *; simpl; destruct (Z.ltb_spec 0 (kernel_mode_value c)); lia]).
    rewrite Htile.
    assert (Esize : lookup_sort_gather K cfg num_sets cache_base (count_misses c) (co_tags s) (co_mem s) keys num_keys (uvm_table c) values
      sort_pairs cub_aux_bytes None row tile_size gwarps v misses = Ok (ECERROR_SUCCESS, Some (aux_required K num_keys cub_aux_bytes), v, misses)) by done.
    rewrite Esize. cbn [obind]. rewrite Z.eqb_refl.
    destruct (sort_gather_correct K T cfg num_sets cache_base (count_misses c) HK Hns keys num_keys (uvm_table c) values sort_pairs Hpairs
      ltac:(rewrite Hcfg; lia) ltac:(lia) val view Hslots Hci Hvk) with (cub_aux_bytes := cub_aux_bytes) (aux := aux_required K num_keys cub_aux_bytes)
      (block_size := tile_size) (misses := misses) (order := gwarps) (v := v) as (v' & E & Hr).
    + intros j Hj. specialize (Ha j Hj). unfold in_u. lia.
    + exact Ht.
    + lia.
    + unfold tile_size. destruct (Z.ltb_spec 0 (kernel_mode_value c)); lia.
    + done.
    + done.
    + rewrite Hcfg in E. change (d_tags view) with (co_tags s) in E. change (mem view) with (co_mem s) in E.
      rewrite E. cbn [obind]. rewrite Z.eqb_refl. do 2 eexists. split; [done|]. intros j. specialize (Hr j). by rewrite Hcfg in Hr.
Qed.

(** *** Runs of the table *)

(** One call with arguments that meet its contract; an update changes the rows of the
    application for the keys it gives. *)
Inductive gpu_step : (Z -> list Z) * S -> (Z -> list Z) * S -> Prop :=
  | step_gpu_insert val s s' keys stride values :
      insert_ok keys stride values -> 0 < values -> rows_given val keys values stride s ->
      gpu_insert c sort keys stride row values s = Ok s' -> gpu_step (val, s) (val, s')
  | step_gpu_update val val' s s' keys stride updates threads :
      0 < updates -> rows_given val' keys updates stride s -> (forall k, k ∉ keys -> val' k = val k) ->
      launch_order 32 (Z.of_nat (length keys)) threads -> Z.of_nat (length keys) < 2 ^ 31 -> 0 <= stride < 2 ^ 32 ->
      Z.of_nat (length keys) * stride < 2 ^ 32 ->
      gpu_update K c threads keys stride row updates s = Ok s' -> gpu_step (val, s) (val', s')
  | step_gpu_erase val s s' keys :
      cl_keys keys -> Z.of_nat (length keys) <= max_modify_size c -> (forall k, k ∈ keys -> 0 <= k < num_rows) ->
      gpu_erase (Some keys) s = Ok s' -> gpu_step (val, s) (val, s')
  | step_gpu_clear val s s' : gpu_clear s = Ok s' -> gpu_step (val, s) (val, s').

Lemma gpu_step_inv w w' : disable_uvm_update c = false -> gpu_step w w' -> table_inv w.1 w.2 -> table_inv w'.1 w'.2.
Proof.
  intros Hen Hstep Hinv. destruct Hstep as [val s s' keys stride values ? ? ? E'|val val' s s' keys stride updates threads ? ? ? ? ? ? ? E'
    |val s s' keys ? ? ? E'|val s s' E']; cbn [fst snd] in *.
  - destruct (gpu_insert_lemma val keys stride values s) as (s2 & E & Hi); [done..|]. rewrite E in E'. by injection E' as <-.
  - destruct (decide (keys = [])) as [->|Hkeys]; [by rewrite gpu_update_zero in E'|].
    destruct (gpu_update_lemma threads val val' keys stride updates s) as (s2 & E & Hi); [done..|]. rewrite E in E'. by injection E' as <-.
  - destruct (gpu_erase_lemma val keys s) as (s2 & E & Hi); [done..|]. rewrite E in E'. by injection E' as <-.
  - destruct (gpu_clear_lemma val s) as (s2 & E & Hi); [done..|]. rewrite E in E'. by injection E' as <-.
Qed.

Lemma gpu_steps_inv w w' : disable_uvm_update c = false -> rtc gpu_step w w' -> table_inv w.1 w.2 -> table_inv w'.1 w'.2.
Proof. intros Hen. induction 1 as [|w w1 w' Hs Hss IH]; [done|]. intros Hi. by apply IH, (gpu_step_inv w). Qed.

Lemma gpu_find_lemma warps gwarps val num_keys keys values value_stride s st mode :
  table_inv val s -> get_kernel_mode c num_keys = Ok mode -> launch_ok mode num_keys value_stride gwarps ->
  0 <= num_keys < 2 ^ 32 - 128 -> warps ≡ₚ grid num_keys -> (forall j, 0 <= j < num_keys -> 0 <= keys j < num_rows) ->
  exists st', gpu_find K c cfg num_sets cache_base sort_pairs cub_aux_bytes warps gwarps gather_flow_pipeline
      num_keys keys false values value_stride s st = Ok st' /\ q_mask st' = q_mask st /\
    forall j, mem_read (q_values st') (values + j * value_stride) row =
      if (0 <=? j) && (j <? num_keys) then val (keys j) else mem_read (q_values st) (values + j * value_stride) row.
Proof.
  intros Hinv Hmode Hlaunch Hn Hw Hk. unfold gpu_find. rewrite (proj2 (Z.eqb_neq (uvm_table c) 0)) by lia. cbn [negb].
  destruct (run_find_uvm_lemma warps gwarps val num_keys keys values value_stride s (q_values st) (q_misses st) mode) as (v' & m' & E & Hr); [done..|].
  rewrite E. cbn [obind]. eexists. split; [done|]. split; [done|]. exact Hr.
Qed.

(** C3. A table with rows in unified memory and any cache that keeps its promises: after any
    sequence of inserts, updates, erasures and clears of batches the cache takes (with the
    histogram on the host or on the device), a lookup of keys of the table by the
    lookup kernel, or by the sort-and-gather kernels when the stride of the output is the
    row size ([launch_ok]; the pipeline kernel is not covered),
    succeeds and delivers for every key the row the application last gave it,
    in whatever order the warps run; it touches neither the hit
    mask nor any other row of the output. *)
Theorem gpu_find_never_stale (warps gwarps : list (Z * Z)) (val0 val : Z -> list Z) (s0 s : S) (num_keys : Z) (keys : Z -> Z)
    (values value_stride : Z) (st : query_state) (mode : KernelType) :
  disable_uvm_update c = false -> table_inv val0 s0 -> rtc gpu_step (val0, s0) (val, s) ->
  get_kernel_mode c num_keys = Ok mode -> launch_ok mode num_keys value_stride gwarps ->
  0 <= num_keys < 2 ^ 32 - 128 -> warps ≡ₚ grid num_keys -> (forall j, 0 <= j < num_keys -> 0 <= keys j < num_rows) ->
  exists st', gpu_find K c cfg num_sets cache_base sort_pairs cub_aux_bytes warps gwarps gather_flow_pipeline
      num_keys keys false values value_stride s st = Ok st' /\ q_mask st' = q_mask st /\
    forall j, mem_read (q_values st') (values + j * value_stride) row =
      if (0 <=? j) && (j <? num_keys) then val (keys j) else mem_read (q_values st) (values + j * value_stride) row.
Proof.
  intros Hen Hinv Hsteps Hmode Hl Hn Hw Hk. apply (gpu_steps_inv (val0, s0) (val, s) Hen) in Hsteps; [|done].
  by apply (gpu_find_lemma warps gwarps val num_keys keys values value_stride s st mode).
Qed.

(** C11. An update of any positive number of keys succeeds: it reaches the cache in parts of at
    most [max_modify_size] keys and then the rows in unified memory, and afterwards every hit
    and every row of the table is the new row of its key. An update of no key throws: the
    kernel of the table is launched without a block. *)
Theorem gpu_update_correct (update_threads : Z -> list (Z * Z)) (val val' : Z -> list Z) (keys : list Z) (stride updates : Z) (s : S) :
  table_inv val s -> 0 < updates -> rows_given val' keys updates stride s -> (forall k, k ∉ keys -> val' k = val k) ->
  disable_uvm_update c = false -> launch_order 32 (Z.of_nat (length keys)) update_threads ->
  Z.of_nat (length keys) < 2 ^ 31 -> 0 <= stride < 2 ^ 32 -> Z.of_nat (length keys) * stride < 2 ^ 32 ->
  (keys <> [] -> exists s', gpu_update K c update_threads keys stride row updates s = Ok s' /\ table_inv val' s') /\
  (keys = [] -> gpu_update K c update_threads keys stride row updates s = Throw "invalid configuration argument").
Proof. intros. split; [intros; by apply gpu_update_lemma with (val := val)|intros ->; by apply gpu_update_zero]. Qed.
End TableCoherence.

(** A table of a host-managed cache whose [max_modify_size] is below 1 has no modify
    context: every insert and every non-empty update ends in an exception (the loop over
    the parts, which could not advance, stops at its first call), and nothing changes. *)
Theorem gpu_no_modify_context (K T : int_type) (cfg : CacheConfig) (num_sets cache_base : Z) (decay_rate : f32)
    (umap_order : list ModifyEntry -> list ModifyEntry)
    (accumulate_row : DataTypeFormat -> DataTypeFormat -> Z -> Z -> Z -> memory -> memory)
    (env : modify_env) (c : GPUTableConfig) (sort : insert_env) (threads : Z -> list (Z * Z))
    (keys : list Z) (stride buf : Z) (s : hm_state) :
  let ops := host_cache_ops K T cfg num_sets cache_base decay_rate umap_order accumulate_row env (max_modify_size c) id in
  max_modify_size c < 1 -> keys <> [] -> buf <> 0 -> modify_on_gpu c = false ->
  @gpu_insert hm_state ops c sort keys stride (row_size_in_bytes c) buf s = Throw "Failed to call cache insert" /\
  @gpu_update hm_state ops K c threads keys stride (row_size_in_bytes c) buf s = Throw "Failed to call cache update".
Proof.
  intros ops Hmax Hkeys Hbuf Hon. unfold gpu_insert, insert_batch, gpu_update. rewrite Hon. rewrite (proj2 (Z.eqb_neq buf 0)), Z.eqb_refl by done. cbn [negb].
  assert (Ec : gpu_modify_context (max_modify_size c) = None) by (unfold gpu_modify_context; by rewrite (proj2 (Z.ltb_lt _ _))).
  split.
  - unfold ec_check. cbn [co_insert ops host_cache_ops]. rewrite Ec. done.
  - destruct keys as [|k keys]; [done|]. cbn [update_parts length]. rewrite (proj2 (Z.ltb_lt 0 _)) by lia.
    unfold ec_check. cbn [co_update ops host_cache_ops]. rewrite Ec. done.
Qed.

(** ** A concrete table *)

(** 100 rows of 4 bytes at 1000, a cache of 3 sets at 16, batches of at most 2 keys; the
    updates are at 2000 and the output at 3000. *)
Definition demo_insert_env : insert_env := {| ie_sort := fun l => l; ie_hist := DemoHist.env; ie_storage := fun _ _ => 0 |}.
Definition demo_gpu (max_modify : Z) : GPUTableConfig :=
  {| device_id := 0; cache_size := 4096; row_size_in_bytes := 4; uvm_table := 1000; count_misses := true;
     max_modify_size := max_modify; g_value_dtype := Float32; private_stream := false; disable_uvm_update := false; uvm_cpu_accumulate := true;
     data_storage_on_host := false; modify_on_gpu := false; kernel_mode_type := 0; kernel_mode_value := 0; g_invalid_key := -1 |}.
Definition demo_gpu_cache : CacheConfig :=
  {| cache_sz_in_bytes := 4096; embed_width_in_bytes := 4; num_tables := 1; allocate_data_on_host := false; sentinel_key := -1 |}.

Example demo_gpu_cache_config : gpu_cache_config int64_t (demo_gpu 2) = Ok demo_gpu_cache.
Proof. reflexivity. Qed.

Definition demo_ops (max_modify : Z) : CacheOps hm_state :=
  host_cache_ops int64_t int64_t demo_gpu_cache 3 16 f32_one id demo_acc demo_ok_env max_modify id.

Lemma demo_laws : @CacheLaws hm_state (demo_ops 2) int64_t int64_t demo_gpu_cache 3 16 (max_modify_size (demo_gpu 2)).
Proof.
  apply (host_cache_laws int64_t int64_t demo_gpu_cache 3 16 f32_one id demo_acc demo_ok_env 2 id); simpl; try done || lia.
Defined.

Lemma demo_gpu_valid k : 0 <= k < 100 -> valid_key int64_t int64_t demo_gpu_cache 3 k.
Proof. intros Hk. apply nonneg_storable; simpl; try reflexivity; try lia. apply Z.div_lt_upper_bound; lia. Qed.

Lemma demo_gpu_apart a : 1000 <= a -> ~ cache_region demo_gpu_cache 3 16 a.
Proof. unfold cache_region, slot_addr, NUM_WAYS. simpl. lia. Qed.

Definition demo_empty : hm_state := (clear_cache demo_gpu_cache 3 true demo_state).2.
Definition demo_new (k : Z) : list Z := mem_read (mem demo_state) (2000 + (if k =? 5 then 0 else if k =? 9 then 4 else 8)) 4.
Definition demo_val' (k : Z) : list Z := if bool_decide (k ∈ [5; 9; 11]) then demo_new k else demo_val k.

Local Abbreviation demo_table_inv :=
  (table_inv (S := hm_state) (H := demo_ops 2) int64_t int64_t (demo_gpu 2) demo_gpu_cache 3 16 (CacheLaws0 := demo_laws) 100).

Lemma demo_table_start : demo_table_inv demo_val demo_empty.
Proof.
  split; [|done]. apply (clear_cache_inv int64_t int64_t demo_gpu_cache 3 16); try done; simpl; lia.
Qed.

Lemma demo_rows_given :
  rows_given (S := hm_state) (H := demo_ops 2) (demo_gpu 2) demo_gpu_cache 3 16 100 demo_val' [5; 9; 11] 2000 4 demo_empty.
Proof.
  intros n k Hn. destruct n as [|[|[|n] ] ]; [injection Hn as <-..|done];
    (split; [lia|]; split; [intros x Hx; apply demo_gpu_apart; lia|vm_compute; reflexivity]).
Qed.

Lemma demo_val_other k : k ∉ [5; 9; 11] -> demo_val' k = demo_val k.
Proof. intros Hk. unfold demo_val'. by rewrite bool_decide_false. Qed.

Definition demo_threads (n w : Z) : list (Z * Z) := launch_threads w (32 / w) n.

Lemma demo_launch n : launch_order 32 n (demo_threads n).
Proof. intros w Hw. reflexivity. Qed.

Lemma gpu_update_correct_witness :
  exists s', @gpu_update hm_state (demo_ops 2) int64_t (demo_gpu 2) (demo_threads 3) [5; 9; 11] 4 4 2000 demo_empty = Ok s' /\
    mem_read (mem s') 1044 4 = mem_read (mem demo_state) 2008 4.
Proof.
  destruct (gpu_update_correct (S := hm_state) (H := demo_ops 2) int64_t int64_t (demo_gpu 2) demo_gpu_cache 3 16 (CacheLaws0 := demo_laws)) with
    (num_rows := 100) (update_threads := demo_threads 3) (val := demo_val) (val' := demo_val') (keys := [5; 9; 11]) (stride := 4) (updates := 2000) (s := demo_empty)
    as [Hok _]; simpl; try done || lia.
  - by exists 2.
  - intros a Ha. apply demo_gpu_apart. lia.
  - apply demo_gpu_valid.
  - apply demo_table_start.
  - apply demo_rows_given.
  - apply demo_val_other.
  - apply demo_launch.
  - destruct (Hok ltac:(discriminate)) as (s' & E & Hi). exists s'. split; [exact E|]. exact (proj2 Hi 11 ltac:(lia)).
Defined.

Lemma demo_updated :
  exists s', @gpu_update hm_state (demo_ops 2) int64_t (demo_gpu 2) (demo_threads 3) [5; 9; 11] 4 4 2000 demo_empty = Ok s'.
Proof.
  destruct (gpu_update_lemma (S := hm_state) (H := demo_ops 2) int64_t int64_t (demo_gpu 2) demo_gpu_cache 3 16 (CacheLaws0 := demo_laws)) with
    (num_rows := 100) (update_threads := demo_threads 3) (val := demo_val) (val' := demo_val') (keys := [5; 9; 11]) (stride := 4) (updates := 2000) (s := demo_empty)
    as (s' & E & Hi); simpl; try done || lia.
  - by exists 2.
  - intros a Ha. apply demo_gpu_apart. lia.
  - apply demo_gpu_valid.
  - apply demo_table_start.
  - apply demo_rows_given.
  - apply demo_val_other.
  - apply demo_launch.
  - by exists s'.
Qed.

Lemma demo_find_launch : launch_ok (demo_gpu 2) LookupUVM 2 8 [].
Proof. simpl. lia. Qed.

Lemma gpu_find_never_stale_witness :
  exists s' st', @gpu_update hm_state (demo_ops 2) int64_t (demo_gpu 2) (demo_threads 3) [5; 9; 11] 4 4 2000 demo_empty = Ok s' /\
    @gpu_find hm_state (demo_ops 2) int64_t (demo_gpu 2) demo_gpu_cache 3 16 id 64 (reverse (grid 2)) [] (fun _ _ _ _ _ => Throw "")
      2 demo_keys false 3000 8 s' demo_query = Ok st' /\
    mem_read (q_values st') 3000 4 = mem_read (mem demo_state) 2000 4 /\ mem_read (q_values st') 3008 4 = demo_val 7.
Proof.
  destruct demo_updated as (s' & E).
  destruct (gpu_find_never_stale (S := hm_state) (H := demo_ops 2) int64_t int64_t (demo_gpu 2) demo_gpu_cache 3 16 (CacheLaws0 := demo_laws)
    demo_insert_env id 64 (fun _ _ _ _ _ => Throw "") eq_refl ltac:(lia) ltac:(lia) ltac:(vm_compute; discriminate) eq_refl ltac:(simpl; lia)
    ltac:(by exists 2) (fun l => Permutation_refl l) (HistLaws0 := DemoHist.env_laws) (fun l => Permutation_refl l) ltac:(simpl; lia) 100 ltac:(simpl; lia) ltac:(simpl; lia)
    ltac:(intros a Ha; apply demo_gpu_apart; simpl in Ha; lia) ltac:(simpl; lia) demo_gpu_valid)
    with (warps := reverse (grid 2)) (gwarps := @nil (Z * Z)) (val0 := demo_val) (val := demo_val') (s0 := demo_empty) (s := s')
      (num_keys := 2) (keys := demo_keys) (values := 3000) (value_stride := 8) (st := demo_query) (mode := LookupUVM)
    as (st' & Ef & _ & Hr).
  - reflexivity.
  - apply demo_table_start.
  - apply rtc_once.
    apply (step_gpu_update (S := hm_state) (H := demo_ops 2) int64_t int64_t (demo_gpu 2) demo_gpu_cache 3 16 demo_insert_env 100
      demo_val demo_val' demo_empty s' [5; 9; 11] 4 2000 (demo_threads 3)).
    + lia.
    + apply demo_rows_given.
    + apply demo_val_other.
    + apply demo_launch.
    + simpl; lia.
    + lia.
    + simpl; lia.
    + exact E.
  - reflexivity.
  - apply demo_find_launch.
  - lia.
  - apply reverse_Permutation.
  - intros j Hj. unfold demo_keys. destruct (j =? 0); lia.
  - exists s', st'. split; [exact E|]. split; [exact Ef|]. split; [exact (Hr 0)|exact (Hr 1)].
Defined.

(** A sort by decreasing count. *)
Definition not_less (a b : Bin) : Prop := f32_lt (b_count a) (b_count b) = false.

#[local] Instance not_less_dec a b : Decision (not_less a b).
Proof. unfold not_less. apply _. Defined.
#[local] Instance not_less_total : Total not_less.
Proof.
  intros a b. unfold not_less. destruct (f32_lt (b_count a) (b_count b)) eqn:E1; [|by left]. right.
  apply not_true_iff_false. intros E2. pose proof (f32_lt_trans _ _ _ E1 E2) as E. by rewrite f32_lt_irrefl in E.
Qed.

Lemma histogram_correct_witness :
  exists bins, DefaultHistogram 2000 4 false (merge_sort not_less) [7; 5; 5] =
    (fun b => (b_key b, f32_div (b_count b) (f32_of_Z 3), b_data b)) <$> bins /\
    5 ∈ (DefaultHistogram 2000 4 false (merge_sort not_less) [7; 5; 5]).*1.*1 /\
    bins = [ {| b_key := 5; b_count := f32_of_Z 2; b_data := 2004 |}; {| b_key := 7; b_count := f32_one; b_data := 2000 |} ].
Proof.
  destruct (histogram_correct (merge_sort not_less) (merge_sort_Permutation not_less) 2000 4 [7; 5; 5] (Sorted_merge_sort not_less))
    as (_ & Hk & _ & bins & E & _).
  exists (histogram_bins 2000 4 false (merge_sort not_less) [7; 5; 5]). split; [reflexivity|]. split; [apply Hk; by right; left|].
  vm_compute. reflexivity.
Defined.

Lemma gpu_no_modify_context_witness :
  @gpu_update hm_state (demo_ops 0) int64_t (demo_gpu 0) (demo_threads 1) [5] 4 4 2000 demo_empty = Throw "Failed to call cache update".
Proof.
  apply (gpu_no_modify_context int64_t int64_t demo_gpu_cache 3 16 f32_one id demo_acc demo_ok_env (demo_gpu 0) demo_insert_env (demo_threads 1) [5] 4 2000 demo_empty);
    [simpl; lia|done|lia|done].
Defined.
