(* ===== verification/GpuAccumulate.v ===== *)
(** * [GpuTable::update_accumulate]: [src/gpu_table.cu]

    The gradients of a batch are added to the resident rows of the cache and to the rows
    of the table in unified memory. The latter is done by one of three routes: a kernel,
    tasks of a thread pool fed by several copies of the updates, or tasks after a single
    copy. Element additions of different tasks may interleave: a schedule is any
    permutation of the additions. Work sizes are taken not to overflow 64 bits. *)
From S2P Require Import Prelude BitOps EcHash SetAssoc Float32 HostModify CacheCoherence CacheQuery DeviceOps DataTypes HostTable GpuTable.

Section Accumulate.
Context (K : int_type) (c : GPUTableConfig) (add_element : DataType_t -> DataType_t -> list Z -> list Z -> list Z).
(** Workers of the thread pool, the schedule of the additions of the tasks, and the order of
    the threads of the kernel. *)
Context (num_threads : Z) (schedule : list (Z * Z) -> list (Z * Z)) (threads : Z -> list (Z * Z)).
Local Abbreviation row := (row_size_in_bytes c).

Section Routes.
Variables (keys : list Z) (update_stride update_size updates_buf : Z) (update_dtype : DataType_t).
Local Abbreviation num_keys := (Z.of_nat (length keys)).

Definition keys_per_task : Z := 512.
Definition parallel_update_threshold : Z := Z.quot (num_threads * keys_per_task) 2.

(** *** Several copies *)

Definition keys_per_copy : Z := keys_per_task * num_threads.
Definition num_copies : Z := ceil_div num_keys keys_per_copy.

(** [h_updates] after the copies. *)
Definition copy_updates (m : memory) : memory :=
  fold_left (fun h i =>
    let used_keys := Z.min ((i + 1) * keys_per_copy) num_keys - i * keys_per_copy in
    copy_from m (i * keys_per_copy * update_stride) (updates_buf + i * keys_per_copy * update_stride) (used_keys * update_stride) h)
    (seqZ 0 num_copies) (fun _ => 0).

(** The positions task [idx] of copy [i] works on. *)
Definition copy_task (t : Z * Z) : list Z :=
  let start_key := t.1 * keys_per_copy + t.2 * keys_per_task in
  let end_key := Z.min (start_key + keys_per_task) num_keys in
  seqZ start_key (end_key - start_key).
Definition copy_tasks : list (Z * Z) := i ← seqZ 0 num_copies; idx ← seqZ 0 num_threads; [(i, idx)].

(** *** One copy *)

Definition updates_per_task : Z := Z.min (Z.shiftl 1 10) (Z.quot (num_keys + num_threads - 1) num_threads).
Definition num_tasks : Z := Z.quot (num_keys + updates_per_task - 1) updates_per_task.
Definition single_task (idx : Z) : list Z :=
  let start_key := idx * updates_per_task in
  let end_key := Z.min ((idx + 1) * updates_per_task) num_keys in
  seqZ start_key (end_key - start_key).

(** The additions of the rows at the positions [ids]: [dst[i][j] += src[i][j]]. *)
Definition host_dst (id : Z) : Z := uvm_table c + key_at keys id * row.
Definition host_src (id : Z) : Z := id * update_stride.
Definition task_adds (ids : list Z) : list (Z * Z) :=
  row_adds update_dtype host_dst host_src (Z.quot update_size (elem_size update_dtype)) ids.

(** [uvm_cpu_accumulate]. *)
Definition cpu_accumulate (m : memory) : outcome memory :=
  check! update_size =? update_stride as "Assuming updates are tightly packed" in
  if parallel_update_threshold <=? num_keys then
    if keys_per_copy =? 0 then Undef "division by zero"
    else
    check! Z.rem update_size (elem_size update_dtype) =? 0 as "update_size" in
    match update_dtype with
    | Float16 | Float32 =>
        Ok (fold_left (add_at update_dtype add_element (copy_updates m)) (schedule (task_adds (copy_tasks ≫= copy_task))) m)
    | _ => Throw "Unsupported Data type"
    end
  else
    if num_threads =? 0 then Undef "division by zero"
    else
    let h_updates := copy_from m 0 updates_buf (num_keys * update_stride) (fun _ => 0) in
    check! bool_decide (g_value_dtype c = update_dtype) as "Unsupported update type combination" in
    match update_dtype with
    | Float16 | Float32 =>
        check! Z.rem update_size (elem_size update_dtype) =? 0 as "update_size" in
        Ok (fold_left (add_at update_dtype add_element h_updates) (schedule (task_adds (seqZ 0 num_tasks ≫= single_task))) m)
    | _ => Throw "Unsupported Data type"
    end.

(** The accumulate kernel. *)
Definition kernel_accumulate (m : memory) : outcome memory :=
  match update_dtype with
  | Float16 | Float32 =>
      check! bool_decide (g_value_dtype c = update_dtype) as "value_dtype" in
      let embedding_width := wrapu 32 (row / elem_size update_dtype) in
      let value_stride_elements := wrapu 32 (update_stride / elem_size update_dtype) in
      UpdateAccumulateTable K update_dtype add_element m updates_buf (key_at keys) (uvm_table c) embedding_width value_stride_elements
        embedding_width (wraps 32 num_keys) threads m
  | _ => Throw "Unsupported Data type"
  end.

Definition uvm_accumulate (m : memory) : outcome memory :=
  if uvm_cpu_accumulate c then cpu_accumulate m else kernel_accumulate m.
End Routes.

(** The whole operation over any cache. *)
Section Operation.
Context {S : Type} `{CacheOps S}.

Fixpoint accumulate_parts (fuel : nat) (k_start : Z) (keys : list Z) (updates_buf update_stride : Z) (i o : DataTypeFormat) (s : S) : outcome S :=
  match fuel with
  | O => if k_start <? Z.of_nat (length keys) then Undef "the loop does not end" else Ok s
  | Datatypes.S fuel =>
      let num_keys := Z.of_nat (length keys) in
      if k_start <? num_keys then
        let k_end := Z.min (k_start + max_modify_size c) num_keys in
        let part := take (Z.to_nat (k_end - k_start)) (drop (Z.to_nat k_start) keys) in
        let! s := ec_check "Failed to call cache update"
                    (co_accumulate part (updates_buf + k_start * update_stride) update_stride i o s) in
        accumulate_parts fuel (k_start + max_modify_size c) keys updates_buf update_stride i o s
      else Ok s
  end.

Definition gpu_update_accumulate (keys : list Z) (update_stride update_size updates_buf : Z) (update_dtype : DataType_t) (s : S) : outcome S :=
  match keys with
  | [] => Ok s
  | _ =>
      check! negb (updates_buf =? 0) as "Invalid cache accumulate params" in
      check! update_size =? row as "Row/update size mismatch" in
      let! update_ec_type := TRSDataToEC update_dtype in
      let! table_ec_type := TRSDataToEC (g_value_dtype c) in
      let! s :=
        if private_stream c
        then ec_check "update_accumulate_no_sync" (co_accumulate_no_sync keys updates_buf update_stride update_ec_type table_ec_type s)
        else accumulate_parts (length keys) 0 keys updates_buf update_stride update_ec_type table_ec_type s in
      if negb (uvm_table c =? 0) && negb (disable_uvm_update c) then
        let! m := uvm_accumulate keys update_stride update_size updates_buf update_dtype (co_mem s) in
        Ok (co_set_mem s m)
      else Ok s
  end.
End Operation.
End Accumulate.

(** ** Lemmas: the tasks have every position once *)

Lemma chunk_cover {A} (tasks : list A) (start : A -> Z) (step num : Z) :
  0 < step -> NoDup tasks ->
  (forall t, t ∈ tasks -> exists q, 0 <= q /\ start t = q * step) ->
  (forall t t', t ∈ tasks -> t' ∈ tasks -> start t = start t' -> t = t') ->
  (forall q, 0 <= q -> q * step < num -> exists t, t ∈ tasks /\ start t = q * step) ->
  (t ← tasks; seqZ (start t) (Z.min (start t + step) num - start t)) ≡ₚ seqZ 0 num.
Proof.
  intros Hs Hnd Hq Hinj Hcov. apply NoDup_Permutation; [|apply NoDup_seqZ|].
  - apply NoDup_bind; [|intros; apply NoDup_seqZ|done]. intros t t' j Ht Ht' Hj Hj'. rewrite elem_of_seqZ in Hj, Hj'.
    apply Hinj; [done|done|]. destruct (Hq t Ht) as (q & Hq0 & E), (Hq t' Ht') as (q' & Hq0' & E'). rewrite E, E' in *.
    assert (q < q' + 1) by nia. assert (q' < q + 1) by nia. by replace q' with q by lia.
  - intros j. rewrite list_elem_of_bind, elem_of_seqZ. setoid_rewrite elem_of_seqZ. split.
    + intros (t & Hj & Ht). destruct (Hq t Ht) as (q & Hq0 & E). rewrite E in *. nia.
    + intros Hj. pose proof (Z.div_mod j step ltac:(lia)). pose proof (Z.mod_pos_bound j step Hs).
      destruct (Hcov (j / step)) as (t & Ht & E); [apply Z.div_pos; lia|lia|]. exists t. rewrite E. split; [lia|done].
Qed.

Section TaskLemmas.
Context (num_threads : Z) (Hthreads : 0 < num_threads) (keys : list Z).
Local Abbreviation num_keys := (Z.of_nat (length keys)).

Lemma copy_tasks_cover :
  (copy_tasks num_threads keys ≫= copy_task num_threads keys) ≡ₚ seqZ 0 num_keys.
Proof.
  unfold copy_task. assert (Hmem : forall t, t ∈ copy_tasks num_threads keys <-> 0 <= t.1 < num_copies num_threads keys /\ 0 <= t.2 < num_threads).
  { intros t. unfold copy_tasks. rewrite list_elem_of_bind. setoid_rewrite list_elem_of_bind. setoid_rewrite elem_of_seqZ. split.
    - intros (i & (idx & Ht & Hidx) & Hi). apply list_elem_of_singleton in Ht as ->. simpl. lia.
    - intros [Hi Hidx]. exists t.1. split; [|lia]. exists t.2. split; [apply list_elem_of_singleton; by destruct t|lia]. }
  unfold keys_per_copy, keys_per_task in *.
  apply (chunk_cover (copy_tasks num_threads keys) (fun t => t.1 * (512 * num_threads) + t.2 * 512) 512).
  - lia.
  - unfold copy_tasks. apply NoDup_bind; [| |apply NoDup_seqZ].
    + intros i i' t _ _ H H'. apply list_elem_of_bind in H as (x & H & _). apply list_elem_of_bind in H' as (x' & H' & _).
      apply list_elem_of_singleton in H, H'. congruence.
    + intros i _. apply NoDup_bind; [| |apply NoDup_seqZ].
      * intros x x' t _ _ H H'. apply list_elem_of_singleton in H, H'. congruence.
      * intros x _. apply NoDup_singleton.
  - intros t Ht%Hmem. exists (t.1 * num_threads + t.2). split; [nia|ring].
  - intros [i x] [i' x'] Ht%Hmem Ht'%Hmem E. simpl in *. assert (i = i') as -> by nia. f_equal. lia.
  - intros q Hq Hlt. exists (q / num_threads, q mod num_threads).
    pose proof (Z.div_mod q num_threads ltac:(lia)). pose proof (Z.mod_pos_bound q num_threads Hthreads).
    assert (0 <= q / num_threads) by (apply Z.div_pos; lia). rewrite Hmem. simpl. split; [|nia]. split; [|lia]. split; [lia|].
    unfold num_copies, keys_per_copy, keys_per_task. pose proof (ceil_div_bounds num_keys (512 * num_threads) ltac:(lia) ltac:(lia)). nia.
Qed.

Lemma single_tasks_cover :
  0 < num_keys -> (seqZ 0 (num_tasks num_threads keys) ≫= single_task num_threads keys) ≡ₚ seqZ 0 num_keys.
Proof.
  intros Hpos. set (u := updates_per_task num_threads keys).
  assert (Hu : 0 < u).
  { unfold u, updates_per_task. rewrite Z.quot_div_nonneg by lia. assert (1 <= (num_keys + num_threads - 1) / num_threads); [|change (Z.shiftl 1 10) with 1024; lia].
    apply Z.div_le_lower_bound; lia. }
  assert (E : forall idx, single_task num_threads keys idx = seqZ (idx * u) (Z.min (idx * u + u) num_keys - idx * u)).
  { intros idx. unfold single_task. fold u. f_equal. f_equal. f_equal. ring. }
  rewrite (list_bind_ext _ (fun idx => seqZ (idx * u) (Z.min (idx * u + u) num_keys - idx * u)) _ (seqZ 0 (num_tasks num_threads keys))) by done.
  apply (chunk_cover (seqZ 0 (num_tasks num_threads keys)) (fun idx => idx * u) u).
  - done.
  - apply NoDup_seqZ.
  - intros t. rewrite elem_of_seqZ. intros Ht. exists t. lia.
  - intros t t' _ _ Et. nia.
  - intros q Hq Hlt. exists q. rewrite elem_of_seqZ. split; [|done]. split; [done|].
    unfold num_tasks. fold u. rewrite Z.quot_div_nonneg by lia. assert (q + 1 <= (num_keys + u - 1) / u) by (apply Z.div_le_lower_bound; nia). lia.
Qed.
End TaskLemmas.

(** ** Lemmas: the copies of the updates *)

Lemma copies_shifted {I} (m : memory) (shift : Z) (d n : I -> Z) (l : list I) h a :
  fold_left (fun h i => copy_from m (d i) (shift + d i) (n i) h) l h a =
    if existsb (fun i => (d i <=? a) && (a <? d i + n i)) l then m (shift + a) else h a.
Proof.
  revert h. induction l as [|i l IH]; intros h; [done|]. cbn [fold_left existsb]. rewrite IH.
  destruct (existsb _ l); [by rewrite orb_true_r|]. rewrite orb_false_r. unfold copy_from.
  destruct ((d i <=? a) && (a <? d i + n i)); [|done]. f_equal. lia.
Qed.

Lemma copy_updates_byte num_threads keys stride updates m a :
  0 < num_threads -> 0 < stride -> 0 <= a < Z.of_nat (length keys) * stride ->
  copy_updates num_threads keys stride updates m a = m (updates + a).
Proof.
  intros Ht Hs Ha. unfold copy_updates.
  rewrite (copies_shifted m updates (fun i => i * keys_per_copy num_threads * stride)
    (fun i => (Z.min ((i + 1) * keys_per_copy num_threads) (Z.of_nat (length keys)) - i * keys_per_copy num_threads) * stride)).
  replace (existsb _ _) with true; [done|]. symmetry. apply existsb_exists.
  set (k := keys_per_copy num_threads). assert (Hk : 0 < k) by (unfold k, keys_per_copy, keys_per_task; lia).
  set (j := a / stride). pose proof (Z.div_mod a stride ltac:(lia)) as Hdm. pose proof (Z.mod_pos_bound a stride Hs). fold j in Hdm.
  assert (Hj : 0 <= j < Z.of_nat (length keys)) by (unfold j; split; [apply Z.div_pos; lia|apply Z.div_lt_upper_bound; lia]).
  pose proof (Z.div_mod j k ltac:(lia)). pose proof (Z.mod_pos_bound j k Hk). assert (0 <= j / k) by (apply Z.div_pos; lia).
  pose proof (ceil_div_bounds (Z.of_nat (length keys)) k ltac:(lia) Hk).
  exists (j / k). rewrite <- list_elem_of_In, elem_of_seqZ. split.
  - unfold num_copies. fold k. assert (j / k < ceil_div (Z.of_nat (length keys)) k) by nia. lia.
  - assert (Hlo : j / k * k <= j) by lia. assert (Hhi : j < Z.min ((j / k + 1) * k) (Z.of_nat (length keys))) by lia.
    set (i := j / k) in *. set (e := Z.min _ _) in *. assert (i * k * stride <= j * stride) by nia. assert ((j + 1) * stride <= e * stride) by nia.
    rewrite andb_true_iff, Z.leb_le, Z.ltb_lt. lia.
Qed.

(** ** Additions that reach every row once *)

Section Spec.
Context (T : DataType_t) (add_element : DataType_t -> DataType_t -> list Z -> list Z -> list Z) (HT : 0 < elem_size T).
Context (Hadd : forall t u, length (add_element T T t u) = Z.to_nat (elem_size T)).
Local Abbreviation sz := (elem_size T).

(** Every element of the row of a key becomes its sum with the element of the update, and
    no other byte changes. *)
Definition accumulated (table row n updates stride num : Z) (key : Z -> Z) (m m' : memory) : Prop :=
  (forall id el, 0 <= id < num -> 0 <= el < n ->
    mem_read m' (table + key id * row + el * sz) sz =
    add_element T T (mem_read m (table + key id * row + el * sz) sz) (mem_read m (updates + id * stride + el * sz) sz)) /\
  (forall a, (forall id, 0 <= id < num -> ~ (table + key id * row <= a < table + key id * row + row)) -> m' a = m a).

Context (table row n updates stride num : Z) (key : Z -> Z) (src_mem m : memory) (src : Z -> Z).
Context (Hn : n * sz = row) (Hrow : 0 < row).
Context (Hkeys : forall id id', 0 <= id < num -> 0 <= id' < num -> key id = key id' -> id = id').
Context (Hsrc : forall id el, 0 <= id < num -> 0 <= el < n -> mem_read src_mem (src id + el * sz) sz = mem_read m (updates + id * stride + el * sz) sz).

Lemma uvm_rows_apart id id' : 0 <= id < num -> 0 <= id' < num -> id <> id' -> disjoint (table + key id * row) (n * sz) (table + key id' * row) (n * sz).
Proof.
  intros Hid Hid' Hne. rewrite Hn. unfold disjoint.
  assert (key id <> key id') by (intros E; by apply Hne, Hkeys).
  assert (key id < key id' \/ key id' < key id) as [|] by lia; [left|right]; nia.
Qed.

Lemma adds_accumulated l :
  l ≡ₚ row_adds T (fun id => table + key id * row) src n (seqZ 0 num) ->
  accumulated table row n updates stride num key m (fold_left (add_at T add_element src_mem) l m).
Proof.
  intros Hl. assert (Hr : forall id, id ∈ seqZ 0 num -> 0 <= id < num) by (intros id; rewrite elem_of_seqZ; lia). split.
  - intros id el Hid Hel.
    assert (Hc : (table + key id * row + el * sz, src id + el * sz) ∈ l).
    { rewrite Hl. apply elem_of_row_adds. exists id, el. rewrite elem_of_seqZ. split; [lia|done]. }
    pose proof (adds_once T add_element src_mem Hadd l m (table + key id * row + el * sz, src id + el * sz)) as E. cbn [fst snd] in E.
    rewrite E; clear E.
    + by rewrite Hsrc.
    + rewrite Hl. by apply (row_adds_NoDup T HT _ _ n num uvm_rows_apart); [|apply NoDup_seqZ].
    + intros c c'. rewrite !Hl. by apply (row_adds_disjoint T HT _ _ n num uvm_rows_apart).
    + done.
  - intros a Ha. apply adds_outside; [done|]. intros c. rewrite Hl, elem_of_row_adds. intros (id & el & Hid & Hel & ->) Hin.
    apply Hr in Hid. apply (Ha id Hid). simpl in Hin. nia.
Qed.
End Spec.

Section Routes.
Context (K : int_type) (c : GPUTableConfig) (add_element : DataType_t -> DataType_t -> list Z -> list Z -> list Z).
Context (num_threads : Z) (schedule : list (Z * Z) -> list (Z * Z)) (threads : Z -> list (Z * Z)).
Context (keys : list Z) (stride updates : Z) (T : DataType_t) (m : memory).
Local Abbreviation row := (row_size_in_bytes c).
Local Abbreviation num := (Z.of_nat (length keys)).
Local Abbreviation sz := (elem_size T).
Local Abbreviation n := (row / sz).
Context (HT : T = Float32 \/ T = Float16) (Hadd : forall t u, length (add_element T T t u) = Z.to_nat sz).
Context (Hsched : forall l, schedule l ≡ₚ l) (Hthreads : 0 < num_threads).
Context (Hdistinct : NoDup keys) (Hpos : 0 < num) (Hrow : 0 < row) (Hdiv : (sz | row)) (Hstride : 0 < stride).

Local Abbreviation spec := (accumulated T add_element (uvm_table c) row n updates stride num (key_at keys)).

Lemma sz_pos : 0 < sz.
Proof. destruct HT as [-> | ->]; done. Qed.

Lemma n_sz : n * sz = row.
Proof. pose proof sz_pos. destruct Hdiv as [q ->]. rewrite Z.div_mul by lia. done. Qed.

Lemma key_at_inj id id' : 0 <= id < num -> 0 <= id' < num -> key_at keys id = key_at keys id' -> id = id'.
Proof.
  intros Hid Hid' E. unfold key_at in E.
  destruct (lookup_lt_is_Some_2 keys (Z.to_nat id) ltac:(lia)) as [k Hk], (lookup_lt_is_Some_2 keys (Z.to_nat id') ltac:(lia)) as [k' Hk'].
  rewrite Hk, Hk' in E. simpl in E. subst k'. pose proof (NoDup_lookup _ _ _ _ Hdistinct Hk Hk'). lia.
Qed.

(** The host routes: any list of tasks that has every position once. *)
Lemma host_route src_mem ids :
  ids ≡ₚ seqZ 0 num -> (forall a, 0 <= a < num * stride -> src_mem a = m (updates + a)) -> stride = row ->
  spec m (fold_left (add_at T add_element src_mem) (schedule (task_adds c keys stride row T ids)) m).
Proof.
  intros Hids Hsrc Hs. pose proof sz_pos as Hsz. pose proof n_sz as Hn.
  apply (adds_accumulated T add_element Hsz Hadd (uvm_table c) row n updates stride num (key_at keys) src_mem m (host_src stride) Hn Hrow key_at_inj).
  - intros id el Hid Hel. unfold host_src, mem_read. apply list_eq. intros i. rewrite !list_lookup_fmap.
    destruct (decide (Z.of_nat i < sz)); [|by rewrite !lookup_seqZ_ge by lia]. rewrite !lookup_seqZ_lt by lia. simpl. f_equal.
    rewrite Hsrc; [f_equal; lia|]. assert (el * sz + sz <= row) by nia. rewrite Hs in *. nia.
  - rewrite Hsched. unfold task_adds. rewrite Z.quot_div_nonneg by lia. unfold row_adds. by rewrite Hids.
Qed.

(** C30. However the rows in unified memory are accumulated (by the tasks of the pool after
    several copies or after one, in any interleaving of their additions, or by the
    kernel with its threads in any order), for a batch of distinct keys, and updates of
    the element type of the table, the call succeeds, every element of the row of a key becomes the sum with the update of that
    key, and no other byte changes: the three routes have the same effect. *)
Theorem uvm_accumulate_correct :
  g_value_dtype c = T -> (uvm_cpu_accumulate c = true -> stride = row) ->
  (uvm_cpu_accumulate c = false -> (sz | stride) /\ num < 2 ^ 31 /\ num * (stride / sz) < 2 ^ 32 /\ stride / sz < 2 ^ 32 /\ n < 2 ^ 32 /\
     keys_fit K (key_at keys) n num /\ launch_order 32 num threads) ->
  exists m', uvm_accumulate K c add_element num_threads schedule threads keys stride row updates T m = Ok m' /\ spec m m'.
Proof.
  intros Hty Hcpu Hgpu. pose proof sz_pos as Hsz. pose proof n_sz as Hn. unfold uvm_accumulate. destruct (uvm_cpu_accumulate c).
  - specialize (Hcpu eq_refl). unfold cpu_accumulate. rewrite (proj2 (Z.eqb_eq row stride)) by done.
    assert (Hrem : Z.rem row sz = 0) by (rewrite Z.rem_mod_nonneg by lia; destruct Hdiv as [q ->]; apply Z.mod_mul; lia).
    assert (Hk : 0 < keys_per_copy num_threads) by (unfold keys_per_copy, keys_per_task; lia).
    rewrite (proj2 (Z.eqb_neq (keys_per_copy num_threads) 0)), (proj2 (Z.eqb_neq num_threads 0)) by lia.
    destruct (_ <=? num).
    + rewrite Hrem, Z.eqb_refl. destruct HT as [ET | ET]; rewrite ET; rewrite <- ET; (eexists; split; [done|]);
        (apply host_route; [by apply copy_tasks_cover| |done]); intros a Ha; by apply copy_updates_byte.
    + rewrite bool_decide_true by done. assert (Hcopy : forall a, 0 <= a < num * stride -> copy_from m 0 updates (num * stride) (fun _ => 0) a = m (updates + a)).
      { intros a Ha. unfold copy_from. rewrite (proj2 (Z.leb_le _ _)), (proj2 (Z.ltb_lt _ _)) by lia. f_equal. lia. }
      destruct HT as [ET | ET]; rewrite ET; rewrite <- ET; rewrite Hrem, Z.eqb_refl; (eexists; split; [done|]);
        (apply host_route; [by apply single_tasks_cover|done|done]).
  - destruct (Hgpu eq_refl) as (Hds & Hnum & Hfit & Hs32 & Hn32 & Hkf & Ho). unfold kernel_accumulate.
    assert (Hss : stride / sz * sz = stride) by (destruct Hds as [q ->]; rewrite Z.div_mul by lia; done).
    assert (0 < n) by nia. assert (0 <= stride / sz) by (apply Z.div_pos; lia).
    rewrite bool_decide_true by done. rewrite (wrapu_small 32 n), (wrapu_small 32 (stride / sz)) by (unfold in_u; lia).
    rewrite (wraps_small 32) by (unfold in_s; lia).
    destruct (UpdateAccumulateTable_adds K T add_element m updates (key_at keys) (uvm_table c) n (stride / sz) n num Hadd Hsz ltac:(lia) ltac:(lia) ltac:(lia) Hfit
      Hkf key_at_inj threads m ltac:(lia) Ho) as (m' & E & Hm').
    exists m'. split; [destruct HT as [ET | ET]; rewrite ET; rewrite <- ET; exact E|].
    destruct (adds_accumulated T add_element Hsz Hadd (uvm_table c) row n updates stride num (key_at keys) m m (fun id => updates + id * stride) Hn Hrow key_at_inj
      ltac:(done) (row_adds T (fun id => uvm_table c + key_at keys id * row) (fun id => updates + id * stride) n (seqZ 0 num)) ltac:(done)) as [H1 H2].
    assert (Eq : row_adds T (table_row T (key_at keys) (uvm_table c) n) (update_row T updates (stride / sz)) n (seqZ 0 num) =
      row_adds T (fun id => uvm_table c + key_at keys id * row) (fun id => updates + id * stride) n (seqZ 0 num)).
    { unfold row_adds, table_row, update_row. apply list_bind_ext; [|done]. intros id. apply list_bind_ext; [|done]. intros el.
      rewrite <- !Z.mul_assoc, Hn, Hss. done. }
    rewrite Eq in Hm'. split.
    + intros id el Hid Hel. rewrite <- (H1 id el Hid Hel). apply mem_read_ext. intros a _. apply Hm'.
    + intros a Ha. rewrite Hm'. by apply H2.
Qed.
End Routes.

(** ** Concrete accumulations *)

(** Addition byte by byte, of the length of an element. *)
Definition demo_add (T _ : DataType_t) (t u : list Z) : list Z :=
  (fun i => (nth (Z.to_nat i) t 0 + nth (Z.to_nat i) u 0) mod 256) <$> seqZ 0 (elem_size T).

Lemma demo_add_length T t u : length (demo_add T T t u) = Z.to_nat (elem_size T).
Proof. unfold demo_add. by rewrite length_fmap, length_seqZ. Qed.

Lemma uvm_accumulate_correct_witness :
  exists m', uvm_accumulate int64_t (demo_gpu 2) demo_add 4 reverse (demo_threads 3) [5; 9; 11] 4 4 2000 Float32 (mem demo_state) = Ok m' /\
    mem_read m' (1000 + 9 * 4) 4 = demo_add Float32 Float32 (mem_read (mem demo_state) 1036 4) (mem_read (mem demo_state) 2004 4).
Proof.
  destruct (uvm_accumulate_correct int64_t (demo_gpu 2) demo_add 4 reverse (demo_threads 3) [5; 9; 11] 4 2000 Float32 (mem demo_state))
    as (m' & E & H1 & _).
  - by left.
  - intros t u. apply demo_add_length.
  - intros l. apply reverse_Permutation.
  - lia.
  - repeat constructor; set_solver.
  - simpl; lia.
  - simpl; lia.
  - by exists 1.
  - lia.
  - reflexivity.
  - reflexivity.
  - discriminate.
  - exists m'. split; [exact E|]. exact (H1 1 0 ltac:(simpl; lia) ltac:(vm_compute; done)).
Defined.

(** The host routes disagree on the element types: half-precision updates of a
    single-precision table are refused for a small batch, but a batch that reaches the
    parallel threshold is accepted and adds pairs of half-precision numbers to the bytes
    of each single-precision element. *)
Theorem accumulate_type_check_skipped :
  let run keys := cpu_accumulate (demo_gpu 2) demo_add 1 id keys 4 4 2000 Float16 (mem demo_state) in
  g_value_dtype (demo_gpu 2) = Float32 /\
  run [0] = Throw "Unsupported update type combination" /\
  exists m', run (seqZ 0 256) = Ok m' /\
    mem_read m' 1000 4 = demo_add Float16 Float16 (mem_read (mem demo_state) 1000 2) (mem_read (mem demo_state) 2000 2) ++
                         demo_add Float16 Float16 (mem_read (mem demo_state) 1002 2) (mem_read (mem demo_state) 2002 2).
Proof. split; [done|]. split; [reflexivity|]. eexists. split; [reflexivity|]. vm_compute. reflexivity. Qed.
