(* ===== verification/GpuDevice.v ===== *)
(** * The GPU table with the device-managed cache: [src/gpu_table.cu], [modify_on_gpu]

    The default configuration of a [GpuTable] manages its cache on the device: the histogram of
    an insert and the replacement run in kernels. The device-managed cache of [DeviceModify] is
    an instance of the interface of [GpuTable] for the batches it handles; the histograms on the
    device and on the host are compared, and the batches that the histogram produces are
    related to those the cache handles. *)
From Stdlib Require Import Sorted.
From S2P Require Import Prelude EcHash SetAssoc Float32 FloatRange HostModify CacheCoherence CacheQuery DataTypes DeviceModify DeviceSelect DeviceTop DeviceCoherence DeviceTies.
From S2P Require Import DeviceHistogram GpuTable.

(** ** The cache behind the table *)

Section DeviceCache.
Context (K T : int_type) (cfg : CacheConfig) (num_sets cache_base : Z) (decay_rate : f32).
Context (sort_pairs : list (Z * Z) -> list (Z * Z)) (encode : list Z -> list (Z * Z)) (exclusive_sum : list Z -> list Z).
Context (atomic_order : forall A : Type, list A -> list A).
Context (accumulate_row : DataTypeFormat -> DataTypeFormat -> Z -> Z -> Z -> memory -> memory).
Context (env : dm_env) (max_modify_size : Z) (thread_order : list Z -> list Z).

(** The modify context of a [GPUTableExecutionContext]. *)
Definition gpu_device_context : option Z := if max_modify_size <? 1 then None else Some (wrapu 32 max_modify_size).

Definition device_cache_ops : CacheOps dm_state := {|
  co_mem := dm_mem;
  co_set_mem := with_mem;
  co_tags := dm_tags;
  co_insert items s := dm_insert K T cfg num_sets cache_base decay_rate sort_pairs encode exclusive_sum atomic_order env items gpu_device_context 0 s;
  co_update keys dv stride s := dm_update K T cfg num_sets cache_base atomic_order env gpu_device_context keys dv stride 0 s;
  co_accumulate keys dv stride i o s :=
    dm_update_accumulate K T cfg num_sets cache_base atomic_order accumulate_row env gpu_device_context keys dv stride 0 i o s;
  co_accumulate_no_sync keys dv stride i o s :=
    let r := update_accumulate_no_sync K cfg num_sets cache_base accumulate_row thread_order keys dv stride i o (as_host s) in
    Ok (r.1, with_mem s (mem r.2));
  co_invalidate keys s := dm_invalidate K T cfg num_sets cache_base atomic_order env gpu_device_context keys 0 s;
  co_clear s := dm_clear_cache cfg num_sets true s
|}.

Context (HK : 0 < width K) (HT : 0 < width T) (Hns : 0 < num_sets).
Context (Hrow : 0 < embed_width_in_bytes cfg) (Hrow32 : embed_width_in_bytes cfg < 2 ^ 32).
(** The table of the cache has at most 4 GiB. *)
Context (Hslots : num_sets * NUM_WAYS <= 2 ^ 32) (Htable32 : num_sets * NUM_WAYS * embed_width_in_bytes cfg <= 2 ^ 32).
Context {Hcub : CubLaws sort_pairs encode exclusive_sum (2 ^ 32)} (Hatomic : forall A (l : list A), atomic_order A l ≡ₚ l).
Context (Hdecay : f32_positive decay_rate) (Henv : dm_env_ok env) (Hmax : 1 <= max_modify_size < 2 ^ 32) (Htables : num_tables cfg = 1).

Lemma gpu_device_context_eq : gpu_device_context = Some max_modify_size.
Proof. unfold gpu_device_context. rewrite (proj2 (Z.ltb_ge _ _)) by lia. by rewrite wrapu_small by (unfold in_u; lia). Qed.

(** The batches the cache handles. *)
Definition device_items (items : list (Z * f32 * Z)) : Prop :=
  0 < Z.of_nat (length items) <= max_modify_size /\ insertable K num_sets items.

Program Definition device_cache_laws : @CacheLaws dm_state device_cache_ops K T cfg num_sets cache_base max_modify_size :=
  {| cl_inv val s := cache_inv K T cfg num_sets cache_base val 0 (as_host s) /\ ctr_ok num_sets (dm_counters s);
     cl_items := device_items; cl_keys keys := keys <> [] |}.
Next Obligation. done. Qed.
Next Obligation. intros val val' s E [[H1 H2 H3] Hc]. split; [|done]. constructor; [done..|]. intros k j Hk Hf. rewrite <- E. by apply H3. Qed.
Next Obligation. intros val s [[H1 H2 H3] _]. exists (dm_tags s). by constructor. Qed.
Next Obligation.
  intros val items s [Hn Hi] [Hinv Hc] Hb. cbn [co_insert device_cache_ops]. rewrite gpu_device_context_eq.
  destruct (dm_insert_inv K T cfg num_sets cache_base decay_rate sort_pairs encode exclusive_sum atomic_order HK HT Hns Hrow Hslots Hrow32 Hatomic Hdecay
    val 0 env max_modify_size items s Henv Hn Hi Hb Hinv Hc) as (s' & E & Hi' & Hc' & Hk & _).
  exists s'. split; [done|]. split; [done|]. intros a Ha. exact (kp_mem _ _ _ _ _ _ Hk a Ha).
Qed.
Next Obligation.
  intros val val' keys dv stride s Hne Hlen Hs Hfit [Hinv Hc] Hr Hv. cbn [co_update device_cache_ops]. rewrite gpu_device_context_eq.
  destruct (dm_update_inv K T cfg num_sets cache_base atomic_order HK HT Hns Hrow Hslots Hrow32 Hatomic
    val val' 0 env max_modify_size keys dv stride s Henv) as (s' & E & Hi' & Hk & Ec); try done.
  { split; [|done]. destruct keys; [done|simpl; lia]. }
  exists s'. split; [done|]. split; [by rewrite Ec|]. intros a Ha. exact (kp_mem _ _ _ _ _ _ Hk a Ha).
Qed.
Next Obligation.
  intros val val' keys s Hne Hlen [Hinv Hc] Hk Hv. cbn [co_invalidate device_cache_ops]. rewrite gpu_device_context_eq.
  destruct (dm_invalidate_inv K T cfg num_sets cache_base atomic_order HK HT Hns Hslots Hatomic
    val val' 0 env max_modify_size keys s Henv) as (s' & E & Hi' & Hkept & Ec & _); try done.
  { split; [|done]. destruct keys; [done|simpl; lia]. }
  exists s'. split; [done|]. split; [by rewrite Ec|]. intros a Ha. exact (kp_mem _ _ _ _ _ _ Hkept a Ha).
Qed.
Next Obligation.
  intros val0 val s [_ Hc]. exists (dm_clear_cache cfg num_sets true s).2. split; [done|]. split; [|done]. split; [|done].
  apply dm_clear_inv; try done. lia.
Qed.
Next Obligation. done. Qed.
Next Obligation.
  intros val s m Hm [Hinv Hc]. split; [|done]. apply (as_host_inv K T cfg num_sets cache_base Hns Hslots _ 0 (set_mem (as_host s) m)); [done..|].
  apply set_mem_inv; try done. unfold NUM_WAYS in *. lia.
Qed.
End DeviceCache.

(** ** The two histograms *)

Lemma key_at_list keys : key_at keys <$> seqZ 0 (Z.of_nat (length keys)) = keys.
Proof. apply map_seqZ_lookup. intros i k Hi. unfold key_at. by rewrite Nat2Z.id, Hi. Qed.

Lemma positions_count keys k :
  length (Dedup.positions (key_at keys) (Z.of_nat (length keys)) k) = length (filter (fun k' => k' = k) keys).
Proof.
  rewrite <- (key_at_list keys) at 3. by rewrite filter_of_fmap, length_fmap.
Qed.

Lemma positions_first keys k p :
  head (Dedup.positions (key_at keys) (Z.of_nat (length keys)) k) = Some p -> 0 <= p /\ first_at keys k (Z.to_nat p).
Proof.
  intros Hh. unfold Dedup.positions in Hh. set (n := Z.of_nat (length keys)) in *.
  destruct (filter _ (seqZ 0 n)) as [|q l] eqn:E; [done|]. injection Hh as ->.
  assert (Hp : p ∈ filter (fun p => key_at keys p = k) (seqZ 0 n)) by (rewrite E; by left). apply list_elem_of_filter in Hp as [Hk Hp%elem_of_seqZ].
  split; [lia|]. destruct (lookup_lt_is_Some_2 keys (Z.to_nat p) ltac:(lia)) as [k' Ek]. unfold key_at in Hk. rewrite Ek in Hk. simpl in Hk. subst k'.
  split; [done|]. intros Hin. apply elem_of_take in Hin as (j & Hj & Hjp).
  (* an earlier position would be the head *)
  assert (Hs : seqZ 0 n = seqZ 0 (Z.of_nat j) ++ Z.of_nat j :: seqZ (Z.of_nat j + 1) (n - Z.of_nat j - 1)).
  { replace n with (Z.of_nat j + (1 + (n - Z.of_nat j - 1))) at 1 by lia. rewrite !seqZ_app by lia. by rewrite Z.add_0_l. }
  rewrite Hs, filter_app, filter_cons_True in E by (unfold key_at; by rewrite Nat2Z.id, Hj).
  destruct (filter _ (seqZ 0 (Z.of_nat j))) as [|q' l'] eqn:E'.
  - injection E as E _. lia.
  - injection E as -> _. assert (Hq : p ∈ filter (fun p => key_at keys p = k) (seqZ 0 (Z.of_nat j))) by (rewrite E'; by left).
    apply list_elem_of_filter in Hq as [_ Hq%elem_of_seqZ]. lia.
Qed.

Lemma first_at_unique keys k i j : first_at keys k i -> first_at keys k j -> i = j.
Proof.
  assert (G : forall i j, first_at keys k i -> first_at keys k j -> ~ (i < j)%nat).
  { intros i' j' [Hi _] [_ Hj] Hlt. apply Hj, elem_of_take. eauto. }
  intros Hi Hj. pose proof (G i j Hi Hj). pose proof (G j i Hj Hi). lia.
Qed.

Definition occurs (keys : list Z) (k : Z) : Z := Z.of_nat (length (filter (fun k' => k' = k) keys)).

(** The histogram on the device in terms of the list of keys. *)
Lemma device_histogram_lemma (e : hist_env) `{!HistLaws e} keys data stride st :
  0 < Z.of_nat (length keys) < 2 ^ 31 ->
  exists h, compute_histogram e (Z.of_nat (length keys)) (key_at keys) (Z.of_nat (length keys)) data stride st = Ok h /\
    NoDup h.*1.*1 /\ (forall k, k ∈ h.*1.*1 <-> k ∈ keys) /\ StronglySorted (fun a b => occurs keys a >= occurs keys b) h.*1.*1 /\
    forall k p d, (k, p, d) ∈ h -> p = hist_priority (Z.of_nat (length keys)) (occurs keys k) /\
      exists n, first_at keys k n /\ d = data + Z.of_nat n * stride.
Proof.
  intros Hn. set (n := Z.of_nat (length keys)) in *.
  destruct (compute_histogram_lemma e n (key_at keys) n data stride st Hn ltac:(lia)) as (bins & [Hs Hnd Hk Hb] & ->).
  eexists. split; [done|]. rewrite <- !list_fmap_compose. change (fst ∘ (fst ∘ _)) with (key_at keys ∘ (snd : Z * Z -> Z)).
  assert (Hocc : forall b, b ∈ bins -> b.1 = occurs keys (key_at keys b.2)).
  { intros [c p] Hin. destruct (Hb c p Hin) as [-> _]. unfold n. by rewrite positions_count. }
  split_and!.
  - done.
  - intros k. rewrite Hk. transitivity (k ∈ (key_at keys <$> seqZ 0 n)); [|unfold n; by rewrite key_at_list].
    rewrite list_elem_of_fmap. setoid_rewrite elem_of_seqZ.
    split; [intros (p & Hp & <-)|intros (p & -> & Hp)]; exists p; split; done || lia.
  - clear Hnd Hk Hb. induction bins as [|b bins IH]; [constructor|]. cbn [fmap list_fmap] in *. apply StronglySorted_inv in Hs as [Hs Hb].
    constructor; [apply IH; [done|intros; apply Hocc; by right]|]. apply Forall_fmap, Forall_forall. intros b' Hin. simpl.
    rewrite <- (Hocc b) by (by left). rewrite <- (Hocc b') by (by right). rewrite Forall_fmap, Forall_forall in Hb. by apply Hb.
  - intros k p d ([c q] & [= -> -> ->] & Hin)%list_elem_of_fmap. cbn [fst snd]. pose proof (Hocc _ Hin) as E. cbn [fst snd] in E. rewrite <- E.
    split; [done|]. destruct (Hb c q Hin) as [_ Hf]. apply positions_first in Hf as [Hq Hf]. exists (Z.to_nat q). by rewrite Z2Nat.id.
Qed.

(** C25. The histogram on the device agrees with the one on the host: the same keys, each once,
    with the same rows (those of the first occurrences); the keys come in order of decreasing
    counts, and the priority of a key is its count times the reciprocal of the number of keys,
    a positive number. *)
Theorem device_histogram_agrees (e : hist_env) (sort : list Bin -> list Bin) (keys : list Z) (data stride : Z) (st : hist_store) :
  HistLaws e -> (forall l, sort l ≡ₚ l) -> 0 < Z.of_nat (length keys) < 2 ^ 31 ->
  exists h, compute_histogram e (Z.of_nat (length keys)) (key_at keys) (Z.of_nat (length keys)) data stride st = Ok h /\
    ((fun it => (it.1.1, it.2)) <$> h) ≡ₚ ((fun it => (it.1.1, it.2)) <$> DefaultHistogram data stride false sort keys) /\
    StronglySorted (fun a b => occurs keys a >= occurs keys b) h.*1.*1 /\
    forall it, it ∈ h -> it.1.2 = hist_priority (Z.of_nat (length keys)) (occurs keys it.1.1) /\ f32_positive it.1.2.
Proof.
  intros He Hsort Hn. destruct (device_histogram_lemma e keys data stride st Hn) as (h & E & Hnd & Hk & Hs & Hit). exists h. split; [done|].
  destruct (histogram_keys sort Hsort data stride keys) as [Hnd' Hk']. split; [|split; [done|]].
  - apply NoDup_Permutation.
    + apply (NoDup_fmap_1 fst). by rewrite <- !list_fmap_compose in *.
    + apply (NoDup_fmap_1 fst). by rewrite <- !list_fmap_compose in *.
    + assert (Hin : forall (l l' : list (Z * f32 * Z)) (k d : Z), (forall k, k ∈ l.*1.*1 <-> k ∈ keys) -> (forall k, k ∈ l'.*1.*1 <-> k ∈ keys) ->
        (forall k p d, (k, p, d) ∈ l -> exists n, first_at keys k n /\ d = data + Z.of_nat n * stride) ->
        (forall k p d, (k, p, d) ∈ l' -> exists n, first_at keys k n /\ d = data + Z.of_nat n * stride) ->
        (k, d) ∈ ((fun it : Z * f32 * Z => (it.1.1, it.2)) <$> l) -> (k, d) ∈ ((fun it : Z * f32 * Z => (it.1.1, it.2)) <$> l')).
      { intros l l' k d H1 H2 H3 H4 ([[k0 p] d0] & [= -> ->] & Hl)%list_elem_of_fmap.
        assert (Hkl : k0 ∈ l'.*1.*1) by (apply H2, H1; apply list_elem_of_fmap; exists (k0, p); split; [done|]; apply list_elem_of_fmap; by exists (k0, p, d0)).
        apply list_elem_of_fmap in Hkl as ([k1 p1] & -> & Hl1). apply list_elem_of_fmap in Hl1 as ([[k2 p2] d2] & [= -> ->] & Hl2).
        destruct (H3 _ _ _ Hl) as (i & Hi & ->), (H4 _ _ _ Hl2) as (j & Hj & ->). simpl in Hi. rewrite (first_at_unique keys k2 i j) in * by done.
        apply list_elem_of_fmap. by exists (k2, p2, data + Z.of_nat j * stride). }
      intros [k d]. split; apply Hin; try done; try (intros k' p' d' H; by apply (Hit k' p' d')).
      all: intros k' p' d' H; destruct (histogram_item sort Hsort data stride keys k' p' d' H) as (i & H1 & H2 & _); by exists i.
  - intros [[k p] d] Hin. destruct (Hit k p d Hin) as [-> _]. cbn [fst snd]. split; [done|].
    assert (Hkk : k ∈ keys) by (apply Hk, list_elem_of_fmap; eexists; split; [|by apply list_elem_of_fmap_2]; done).
    apply count_share_positive; [|done]. unfold occurs. split.
    + assert (k ∈ filter (fun k' => k' = k) keys) by (by apply list_elem_of_filter). destruct (filter _ keys) as [|x l]; [by apply not_elem_of_nil in H|simpl; lia].
    + pose proof (length_filter (fun k' => k' = k) keys). lia.
Qed.

Lemma device_histogram_agrees_witness :
  exists h, compute_histogram DemoHist.env 4 (key_at [7; 3; 7; 9]) 4 1000 16 (fun _ _ => 99) = Ok h /\
    ((fun it => (it.1.1, it.2)) <$> h) ≡ₚ [(7, 1000); (3, 1016); (9, 1048)].
Proof.
  destruct (device_histogram_agrees DemoHist.env id [7; 3; 7; 9] 1000 16 (fun _ _ => 99) DemoHist.env_laws (fun l => Permutation_refl l) ltac:(simpl; lia))
    as (h & E & Hp & _). exists h. split; [exact E|]. rewrite Hp. reflexivity.
Defined.

(** ** Inserting through the table *)

Section Insert.
Context (K T : int_type) (c : GPUTableConfig) (num_sets : Z) (sort : insert_env) `{!HistLaws (ie_hist sort)}.
Context (Hon : modify_on_gpu c = true) (Hmax : 1 <= max_modify_size c).

(** The batch is a prefix of the histogram. *)
Lemma device_batch keys stride values items : 0 < Z.of_nat (length keys) < 2 ^ 31 -> insert_batch c sort keys stride values = Ok items ->
  0 < Z.of_nat (length items) <= max_modify_size c /\ NoDup items.*1.*1 /\ (forall k, k ∈ items.*1.*1 -> k ∈ keys) /\ (length items <= length keys)%nat /\
  forall it, it ∈ items -> it.1.2 = hist_priority (Z.of_nat (length keys)) (occurs keys it.1.1) /\ f32_positive it.1.2.
Proof.
  intros Hn E. unfold insert_batch in E. rewrite Hon in E.
  destruct (device_histogram_lemma (ie_hist sort) keys values stride (ie_storage sort) Hn) as (h & Eh & Hnd & Hk & _ & Hit). rewrite Eh in E.
  cbn [obind] in E. injection E as <-. set (m := Z.to_nat _).
  assert (Hne : (0 < length h)%nat).
  { destruct h as [|it h]; [|simpl; lia]. destruct keys as [|k keys]; [simpl in Hn; lia|]. exfalso. assert (H : k ∈ k :: keys) by (by left).
    rewrite <- Hk in H. by apply not_elem_of_nil in H. }
  assert (Hin : forall it, it ∈ take m h -> it ∈ h) by (intros it; apply subseteq_take).
  assert (Hkeys : forall k, k ∈ (take m h).*1.*1 -> k ∈ keys).
  { intros k H. apply Hk. rewrite !fmap_take in H. by eapply subseteq_take. }
  split_and!.
  - rewrite length_take. unfold m. lia.
  - rewrite length_take. unfold m. lia.
  - rewrite !fmap_take. eapply sublist_NoDup; [exact Hnd|apply sublist_take].
  - exact Hkeys.
  - rewrite <- (length_fmap fst (take m h)), <- (length_fmap fst (take m h).*1). apply submseteq_length, NoDup_submseteq; [|done].
    rewrite !fmap_take. eapply sublist_NoDup; [exact Hnd|apply sublist_take].
  - intros [[k p] d] H%Hin. destruct (Hit k p d H) as [-> _]. split; [done|]. cbn [fst snd]. apply count_share_positive; [|done].
    assert (Hkk : k ∈ keys) by (apply Hk, list_elem_of_fmap; eexists; split; [|by apply list_elem_of_fmap_2]; done).
    unfold occurs. pose proof (length_filter (fun k' => k' = k) keys). split; [|lia].
    assert (Hf : k ∈ filter (fun k' => k' = k) keys) by (by apply list_elem_of_filter). destruct (filter _ keys); [by apply not_elem_of_nil in Hf|simpl; lia].
Qed.

Lemma item_keys_seq (items : list (Z * f32 * Z)) : item_key items <$> seqZ 0 (Z.of_nat (length items)) = items.*1.*1.
Proof.
  rewrite <- (length_fmap fst items), <- (length_fmap fst items.*1). apply map_seqZ_lookup. intros i k Hi.
  rewrite !list_lookup_fmap in Hi. unfold item_key, item. rewrite Nat2Z.id. by destruct (items !! i) as [[[k' p] d]|]; [injection Hi as <-|done].
Qed.

(** At most eight different keys of the call fall into a set. *)
Definition sets_fit (keys : list Z) : Prop :=
  forall set, (length (filter (fun k => hash K num_sets k = set) (remove_dups keys)) <= 8)%nat.

Lemma device_batch_items keys stride values items :
  0 < Z.of_nat (length keys) <= 2 ^ 24 -> sets_fit keys -> insert_batch c sort keys stride values = Ok items ->
  device_items K num_sets (max_modify_size c) items.
Proof.
  intros Hn Hfit E. destruct (device_batch keys stride values items ltac:(lia) E) as (Hl & Hnd & Hk & Hle & Hp). split; [done|].
  split; [done|by intros it Hin; apply Hp|lia|]. intros set. left. unfold DeviceCoherence.positions.
  etransitivity; [|apply (Hfit set)].
  transitivity (length (filter (fun k => hash K num_sets k = set) items.*1.*1)).
  { rewrite <- item_keys_seq, filter_of_fmap, length_fmap. done. }
  apply submseteq_length, NoDup_submseteq; [by apply NoDup_filter|]. intros k [Hh Hin]%list_elem_of_filter.
  apply list_elem_of_filter. split; [done|]. by apply elem_of_remove_dups, Hk.
Qed.
End Insert.

Section DeviceTable.
Context (K T : int_type) (c : GPUTableConfig) (cfg : CacheConfig) (num_sets cache_base : Z) (decay_rate : f32).
Context (sort_pairs : list (Z * Z) -> list (Z * Z)) (encode : list Z -> list (Z * Z)) (exclusive_sum : list Z -> list Z).
Context (atomic_order : forall A : Type, list A -> list A).
Context (accumulate_row : DataTypeFormat -> DataTypeFormat -> Z -> Z -> Z -> memory -> memory).
Context (env : dm_env) (thread_order : list Z -> list Z) (sort : insert_env) (num_rows : Z).
Context (HK : 0 < width K) (HT : 0 < width T) (Hns : 0 < num_sets) (Hbase : 0 < cache_base).
Context (Hcfg : embed_width_in_bytes cfg = row_size_in_bytes c) (Hrow : 0 < row_size_in_bytes c < 2 ^ 32).
Context (Hslots : num_sets * NUM_WAYS <= 2 ^ 32) (Htable32 : num_sets * NUM_WAYS * embed_width_in_bytes cfg <= 2 ^ 32).
Context {Hcub : CubLaws sort_pairs encode exclusive_sum (2 ^ 32)} (Hatomic : forall A (l : list A), atomic_order A l ≡ₚ l).
Context (Hdecay : f32_positive decay_rate) (Henv : dm_env_ok env) (Hmax : 1 <= max_modify_size c < 2 ^ 32) (Htables : num_tables cfg = 1).
Context `{!HistLaws (ie_hist sort)} (Hsort : forall l, ie_sort sort l ≡ₚ l) (Hon : modify_on_gpu c = true).
Context (Huvm : 0 < uvm_table c) (Hend : uvm_table c + num_rows * row_size_in_bytes c < 2 ^ 64).
Context (Hapart : forall a, uvm_table c <= a < uvm_table c + num_rows * row_size_in_bytes c -> ~ cache_region cfg num_sets cache_base a).
Context (Hvalid : forall k, 0 <= k < num_rows -> valid_key K T cfg num_sets k).

Local Instance table_ops : CacheOps dm_state :=
  device_cache_ops K T cfg num_sets cache_base decay_rate sort_pairs encode exclusive_sum atomic_order accumulate_row env (max_modify_size c) thread_order.
Local Instance table_laws : CacheLaws dm_state K T cfg num_sets cache_base (max_modify_size c) :=
  device_cache_laws K T cfg num_sets cache_base decay_rate sort_pairs encode exclusive_sum atomic_order accumulate_row env (max_modify_size c) thread_order
    HK HT Hns (eq_ind_r (Z.lt 0) (proj1 Hrow) Hcfg) (eq_ind_r (fun x => x < 2 ^ 32) (proj2 Hrow) Hcfg) Hslots Htable32 Hatomic Hdecay Henv Hmax Htables.
Local Abbreviation inv := (table_inv K T c cfg num_sets cache_base num_rows).

(** C12. The default configuration, end to end: an insert of any number of keys up to [2 ^ 24]
    through a table whose cache is managed on the device, with the histogram computed on the
    device, succeeds when at most eight different keys of the call fall into any set, and a
    lookup after it, through either lookup kernel, delivers the row of every key. *)
Theorem gpu_device_insert_correct (val : Z -> list Z) (keys : list Z) (stride values : Z) (s : dm_state)
    (find_sort : list (Z * FindOutput) -> list (Z * FindOutput)) (cub_aux_bytes : Z) (pipeline : Z -> (Z -> Z) -> Z -> Z -> dm_state -> outcome memory)
    (warps gwarps : list (Z * Z)) (num_keys : Z) (find_keys : Z -> Z) (out out_stride : Z) (st : query_state) (mode : KernelType) :
  inv val s -> 0 < values -> rows_given c cfg num_sets cache_base num_rows val keys values stride s ->
  0 < Z.of_nat (length keys) <= 2 ^ 24 -> sets_fit K num_sets keys ->
  (forall l, find_sort l ≡ₚ l) -> get_kernel_mode c num_keys = Ok mode -> launch_ok c mode num_keys out_stride gwarps ->
  0 <= num_keys < 2 ^ 32 - 128 -> warps ≡ₚ grid num_keys -> (forall j, 0 <= j < num_keys -> 0 <= find_keys j < num_rows) ->
  exists s', gpu_insert c sort keys stride (row_size_in_bytes c) values s = Ok s' /\ inv val s' /\
  exists st', gpu_find K c cfg num_sets cache_base find_sort cub_aux_bytes warps gwarps pipeline num_keys find_keys false out out_stride s' st = Ok st' /\
    forall j, 0 <= j < num_keys -> mem_read (q_values st') (out + j * out_stride) (row_size_in_bytes c) = val (find_keys j).
Proof.
  intros Hinv Hv Hr Hn Hfit Hfs Hmode Hl Hnk Hw Hk.
  destruct (gpu_insert_lemma K T c cfg num_sets cache_base sort ltac:(unfold NUM_WAYS in *; lia) Hslots Hcfg Hrow Hsort num_rows Hapart Hvalid val keys stride values s) as (s' & E & Hi'); try done.
  { split; [intros _ ->; simpl in Hn; lia|]. split; [lia|]. intros items E. eapply (device_batch_items K c num_sets sort Hon); [lia|exact Hn|exact Hfit|exact E]. }
  exists s'. split; [done|]. split; [done|].
  destruct (gpu_find_lemma K T c cfg num_sets cache_base find_sort cub_aux_bytes pipeline HK ltac:(unfold NUM_WAYS in *; lia) Hbase Hslots Hcfg Hrow Hfs num_rows Huvm Hend Hvalid
    warps gwarps val num_keys find_keys out out_stride s' st mode) as (st' & Ef & _ & Hf); try done.
  exists st'. split; [done|]. intros j Hj. rewrite Hf. by rewrite (proj2 (Z.leb_le _ _)), (proj2 (Z.ltb_lt _ _)) by lia.
Qed.
End DeviceTable.

(** ** Ties are the common case *)

(** A batch without repetitions ties: all its keys have the same priority, so when more
    than eight of them fall into a free set, the replacement kernel writes one key to all
    eight ways and drops the others. The histogram of the default configuration feeds the
    device-managed cache such batches whenever a call has no repeated keys. *)
Theorem distinct_keys_tie (K T : int_type) (c : GPUTableConfig) (cfg : CacheConfig) (num_sets cache_base : Z) (sort : insert_env)
    (sort_pairs : list (Z * Z) -> list (Z * Z)) (encode : list Z -> list (Z * Z)) (exclusive_sum : list Z -> list Z)
    (keys : list Z) (stride values : Z) (items : list (Z * f32 * Z)) (tags : Z -> Z) (g : Z * list Z) (counters : Z -> f32) :
  0 < width K -> 0 < width T -> 0 < num_sets -> num_sets * NUM_WAYS <= 2 ^ 32 ->
  CubLaws sort_pairs encode exclusive_sum (2 ^ 32) -> HistLaws (ie_hist sort) -> modify_on_gpu c = true -> 1 <= max_modify_size c ->
  NoDup keys -> 0 < Z.of_nat (length keys) < 2 ^ 31 -> (forall k, k ∈ keys -> valid_key K T cfg num_sets k) ->
  insert_batch c sort keys stride values = Ok items ->
  g ∈ groups K num_sets sort_pairs encode exclusive_sum items -> (8 < length g.2)%nat ->
  wf_tags K T cfg num_sets tags 0 -> (forall w, 0 <= w < NUM_WAYS -> tags (slot num_sets 0 g.1 w) = sentinel_key cfg) ->
  exists k, k ∈ keys /\ hash K num_sets k = g.1 /\
    let l := (replace_set K T cfg num_sets cache_base items tags 0 g counters).2 in
    (e_way ∘ fst <$> l) ≡ₚ seqZ 0 NUM_WAYS /\ Forall (fun e => e_tag e.1 = tag_of K T num_sets k) l.
Proof.
  intros HK HT Hns Hslots Hcub Hhl Hon Hmax Hnd Hn Hvalid E Hg Hlen Hwf Hfree.
  destruct (device_batch c sort Hon Hmax keys stride values items Hn E) as (_ & _ & Hin & Hle & Hp).
  destruct (DeviceSelect.groups_ok K num_sets sort_pairs encode exclusive_sum items g ltac:(lia) Hg) as [Hr _].
  assert (Hitem : forall loc, loc ∈ g.2 -> item items loc ∈ items).
  { intros loc Hl. destruct (Hr loc Hl) as [Hl' _]. unfold item. destruct (lookup_lt_is_Some_2 items (Z.to_nat loc) ltac:(lia)) as [x Ex]. rewrite Ex. by eapply list_elem_of_lookup_2. }
  assert (Hkey : forall loc, loc ∈ g.2 -> item_key items loc ∈ keys).
  { intros loc Hl. apply Hin. unfold item_key. by apply list_elem_of_fmap_2, list_elem_of_fmap_2, Hitem. }
  assert (Hone : forall k, k ∈ keys -> occurs keys k = 1).
  { intros k Hk. unfold occurs. assert (Ef : filter (fun k' => k' = k) keys ≡ₚ [k]); [|by rewrite Ef].
    apply NoDup_Permutation; [by apply NoDup_filter|apply NoDup_singleton|]. intros x. rewrite list_elem_of_filter, list_elem_of_singleton. split; [by intros [-> _]|by intros ->]. }
  destruct (lookup_lt_is_Some_2 g.2 7 ltac:(lia)) as [loc Hloc]. exists (item_key items loc).
  pose proof (list_elem_of_lookup_2 _ _ _ Hloc) as Hl7. split; [by apply Hkey|]. split; [by apply Hr|].
  destruct (device_ties_lemma K T cfg num_sets cache_base items tags 0 (hist_priority (Z.of_nat (length keys)) 1)
    ltac:(apply count_share_positive; lia) g counters loc) as [H1 H2]; [split; [done|]|done|done|].
  - intros l Hl. split.
    + destruct (Hr l Hl) as [_ Hs]. rewrite <- Hs. pose proof (Hvalid _ (Hkey l Hl)) as Hv.
      rewrite (ways_of_spec K T cfg num_sets HK HT Hns Hslots tags 0 _ Hwf Hv).
      destruct (find_way K num_sets tags 0 (item_key items l)) as [j|] eqn:Ef; [|done].
      destruct (find_way_Some K T cfg num_sets HK HT ltac:(unfold NUM_WAYS in *; lia) tags 0 _ j Hwf Hv Ef) as [[_ Hj] Et].
      exfalso. apply (tag_of_not_sentinel K T cfg num_sets HK HT ltac:(unfold NUM_WAYS in *; lia) _ Hv). rewrite <- Et.
      unfold DeviceModify.item_key in *. rewrite Hs. by apply Hfree.
    + unfold item_priority. destruct (Hp _ (Hitem l Hl)) as [-> _]. change (item items l).1.1 with (item_key items l). by rewrite (Hone _ (Hkey l Hl)).
  - split; [exact H1|]. eapply Forall_impl; [exact H2|]. by intros e (He & _).
Qed.

(** ** Examples *)

(** The table of [GpuTable] with its cache on the device: 100 rows of 4 bytes at 1000, three
    sets at 16. *)
Definition demo_device : GPUTableConfig :=
  {| device_id := 0; cache_size := 4096; row_size_in_bytes := 4; uvm_table := 1000; count_misses := true;
     max_modify_size := 16; g_value_dtype := Float32; private_stream := false; disable_uvm_update := false; uvm_cpu_accumulate := true;
     data_storage_on_host := false; modify_on_gpu := true; kernel_mode_type := 0; kernel_mode_value := 0; g_invalid_key := -1 |}.
Definition demo_device_empty : dm_state :=
  (dm_clear_cache demo_gpu_cache 3 true {| dm_tags := fun _ => 7; dm_counters := fun _ => f32_zero; dm_mem := mem demo_state |}).2.
Local Abbreviation demo_device_ops :=
  (device_cache_ops int64_t int64_t demo_gpu_cache 3 16 f32_one DemoCub.sort_pairs DemoCub.encode DemoCub.exclusive_sum rev_order demo_acc demo_dm_env 16 id).

Lemma demo_sets_fit : sets_fit int64_t 3 [5; 9; 13].
Proof.
  intros set. etransitivity; [apply length_filter|]. change (length (remove_dups [5; 9; 13])) with 3%nat. lia.
Qed.

Lemma demo_device_apart a : 1000 <= a -> ~ cache_region demo_gpu_cache 3 16 a.
Proof. apply demo_gpu_apart. Qed.

(** Keys 5, 9 and 13 with their rows in the table. *)
Lemma gpu_device_insert_correct_witness :
  exists s', @gpu_insert dm_state demo_device_ops demo_device demo_insert_env [5; 9; 13] 16 4 1020 demo_device_empty = Ok s' /\
  exists st', @gpu_find dm_state demo_device_ops int64_t demo_device demo_gpu_cache 3 16 id 64 (reverse (grid 2)) [] (fun _ _ _ _ _ => Throw "")
      2 demo_keys false 3000 8 s' demo_query = Ok st' /\ mem_read (q_values st') 3000 4 = demo_val 5 /\ mem_read (q_values st') 3008 4 = demo_val 7.
Proof.
  destruct (gpu_device_insert_correct int64_t int64_t demo_device demo_gpu_cache 3 16 f32_one DemoCub.sort_pairs DemoCub.encode DemoCub.exclusive_sum rev_order
    demo_acc demo_dm_env id demo_insert_env 100 eq_refl eq_refl ltac:(lia) ltac:(lia) eq_refl ltac:(simpl; lia) ltac:(vm_compute; congruence) ltac:(vm_compute; congruence)
    (Hcub := DemoCub.laws _) (fun A l => Permutation_sym (Permutation_rev l)) I ltac:(repeat split) ltac:(simpl; lia) eq_refl
    (HistLaws0 := DemoHist.env_laws) (fun l => Permutation_refl l) eq_refl ltac:(simpl; lia) ltac:(simpl; lia)
    ltac:(intros a Ha; apply demo_device_apart; simpl in Ha; lia) demo_gpu_valid
    demo_val [5; 9; 13] 16 1020 demo_device_empty id 64 (fun _ _ _ _ _ => Throw "") (reverse (grid 2)) [] 2 demo_keys 3000 8 demo_query LookupUVM)
    as (s' & E & _ & st' & Ef & Hf).
  - split; [|done]. split; [apply dm_clear_inv; try done; simpl; lia|]. intros set way Hs. exact I.
  - lia.
  - intros n k Hn. destruct n as [|[|[|n]]]; [injection Hn as <-..|done];
      (split; [lia|]; split; [intros x Hx; apply demo_device_apart; simpl in Hx; lia|vm_compute; reflexivity]).
  - simpl. lia.
  - apply demo_sets_fit.
  - done.
  - reflexivity.
  - simpl. lia.
  - lia.
  - apply reverse_Permutation.
  - intros j Hj. unfold demo_keys. destruct (j =? 0); lia.
  - exists s'. split; [exact E|]. exists st'. split; [exact Ef|]. split; [exact (Hf 0 ltac:(lia))|exact (Hf 1 ltac:(lia))].
Defined.

(** Nine different keys in the only set of a free cache. *)
Definition demo_nine_items : list (Z * f32 * Z) := (fun k => (k, hist_priority 9 1, 1000 + k * 4)) <$> seqZ 0 9.

Lemma demo_free_tags : wf_tags int64_t int64_t demo_cc 1 (fun _ => -1) 0.
Proof. split; [by left|done]. Qed.

Lemma distinct_keys_tie_witness :
  exists k, k ∈ seqZ 0 9 /\
    Forall (fun e => e_tag e.1 = tag_of int64_t int64_t 1 k) (replace_set int64_t int64_t demo_cc 1 0 demo_nine_items (fun _ => -1) 0 (0, 8 :: seqZ 0 8) (fun _ => f32_zero)).2.
Proof.
  destruct (distinct_keys_tie int64_t int64_t demo_device demo_cc 1 0 demo_insert_env DemoCub.sort_pairs DemoCub.encode DemoCub.exclusive_sum
    (seqZ 0 9) 4 1000 demo_nine_items (fun _ => -1) (0, 8 :: seqZ 0 8) (fun _ => f32_zero)) as (k & Hk & _ & _ & Hf); try done.
  - apply DemoCub.laws.
  - apply DemoHist.env_laws.
  - apply NoDup_seqZ.
  - intros k Hk%elem_of_seqZ. apply demo_dm_valid. lia.
  - replace (groups int64_t 1 DemoCub.sort_pairs DemoCub.encode DemoCub.exclusive_sum demo_nine_items) with [(0, 8 :: seqZ 0 8)]; [by left|vm_compute; reflexivity].
  - vm_compute. lia.
  - apply demo_free_tags.
  - by exists k.
Defined.
