(* ===== verification/HierLayer.v ===== *)
(** * Hierarchical embedding layer: [src/hierarchical_embedding_layer.cu]

    A list of tables is searched in order; what one table misses is passed to the next.
    Output and hit mask have a copy on the device and one on the host, and tables work on
    the copy of their side ([BufferWrapper]). GPU tables come first; the rows found on the
    host are scattered to the device at the end. Buffers are memories addressed from their
    start; unified memory (one copy for both sides) is left out, and so are the copies of
    keys, which do not change. *)
From S2P Require Import Prelude Float32 DataTypes BitOps EcHash SetAssoc HostModify CacheCoherence CacheQuery DeviceOps HostTable.
From S2P Require Import StlTable StlFind Pooling HostLayer GpuTable AutoInsert.

(** ** Tables of the layer *)

(** What the layer uses of [Table]: device, row size, whether the lookup counter counts hits
    or misses (and whether it counts at all), the rows the table holds and the sequence
    [reset_lookup_counter], [find], [get_lookup_counter]. *)
Record LayerTable := {
  lt_device : Z;
  lt_row_size : Z;
  lt_counter_hits : bool;
  lt_counts : bool;
  lt_row : Z -> option (list Z);
  lt_find : Z -> (Z -> Z) -> (Z -> Z) -> Z -> memory -> outcome ((Z -> Z) * memory * Z)
}.

Definition on_device (t : LayerTable) : bool := 0 <=? lt_device t.
Definition has (t : LayerTable) (k : Z) : bool := bool_decide (is_Some (lt_row t k)).

(** Number of the first [n] positions that satisfy a test. *)
Definition count (P : Z -> bool) (n : Z) : Z := Z.of_nat (length (filter (fun j => P j = true) (seqZ 0 n))).

(** A mask is an array of 64-bit words. *)
Definition mask_ok (mask : Z -> Z) : Prop := forall w, in_u 64 (mask w).

(** The law of a lookup: keys whose bit is set are skipped; the others are marked and their
    rows written when the table has them. *)
Definition find_law (t : LayerTable) (n : Z) (keys : Z -> Z) (stride : Z) : Prop :=
  forall mask values, mask_ok mask -> exists mask' values' counter,
    lt_find t n keys mask stride values = Ok (mask', values', counter) /\ mask_ok mask' /\
    (forall j, 0 <= j < n -> mask_bit mask' j = mask_bit mask j || has t (keys j)) /\
    (forall j, 0 <= j < n -> mem_read values' (j * stride) (lt_row_size t) =
      match lt_row t (keys j) with
      | Some r => if mask_bit mask j then mem_read values (j * stride) (lt_row_size t) else r
      | None => mem_read values (j * stride) (lt_row_size t)
      end) /\
    counter = if lt_counter_hits t then count (fun j => negb (mask_bit mask j) && has t (keys j)) n
              else if lt_counts t then count (fun j => negb (mask_bit mask j) && negb (has t (keys j))) n else 0.

(** ** Copies on the device and on the host *)

Inductive loc := Dev | Host.
#[global] Instance loc_eq_dec : EqDecision loc.
Proof. solve_decision. Defined.

Record copies (A : Type) := { c_dev : A; c_host : A; c_last : loc }.
Arguments Build_copies {A}. Arguments c_dev {A}. Arguments c_host {A}. Arguments c_last {A}.

Definition get {A} (l : loc) (c : copies A) : A := match l with Dev => c_dev c | Host => c_host c end.
Definition put {A} (l : loc) (v : A) (c : copies A) : copies A :=
  match l with
  | Dev => {| c_dev := v; c_host := c_host c; c_last := c_last c |}
  | Host => {| c_dev := c_dev c; c_host := v; c_last := c_last c |}
  end.

(** [access_buffer]: with [copy_content] the contents of the last copy accessed. *)
Definition access {A} (l : loc) (copy_content : bool) (c : copies A) : copies A :=
  let v := if copy_content then get (c_last c) c else get l c in
  let c := put l v c in {| c_dev := c_dev c; c_host := c_host c; c_last := l |}.

(** ** Constructor *)

Section Layer.
Variable tables : list LayerTable.
Variable default_embedding : list Z.

(** The checks of the constructor; [prev] is the device of the previous table. *)
Fixpoint check_tables (prev : option Z) (row_size : Z) (ts : list LayerTable) : outcome unit :=
  match ts with
  | [] => Ok tt
  | t :: ts =>
      check! negb (on_device t) || match prev with None => true | Some d => lt_device t =? d end
        as "GPU table must have the same device as the previous table" in
      check! lt_row_size t =? row_size as "All layer tables must have the same row size" in
      check_tables (Some (lt_device t)) row_size ts
  end.

Definition row_size : Z := match tables with [] => 0 | t :: _ => lt_row_size t end.
Definition last_on_host : bool := match last tables with Some t => negb (on_device t) | None => true end.
Definition first_on_gpu : bool := match tables with t :: _ => on_device t | [] => false end.
(** [gpu_device_ >= 0]. *)
Definition uses_gpu : bool := existsb on_device tables.

Definition hier_check : outcome unit :=
  match tables with
  | [] => Throw "No tables provided to layer"
  | _ =>
      let! _ := check_tables None row_size tables in
      if bool_decide (default_embedding = []) then Ok tt
      else
        check! row_size =? Z.of_nat (length default_embedding) as "Default embedding row size must match table row size" in
        check! last_on_host as "Default embedding row requires last table to be on host" in
        Ok tt
  end.

(** The thresholds of the default insert heuristic: 0 for the last host table. *)
Definition default_thresholds : list f32 :=
  let last_host := fold_left (fun acc it => if on_device it.2 then acc else Some it.1) (zip (seq 0 (length tables)) tables) None in
  (fun i => if bool_decide (last_host = Some i) then f32_zero else f32_ratio 3 4) <$> seq 0 (length tables).

(** ** Lookup *)

Section Lookup.
Variables (n : Z) (keys : Z -> Z) (stride : Z) (num_workers : Z) (scatter_threads : Z -> list (Z * Z)).

Definition buffers : Type := copies memory * copies (Z -> Z).

(** One table: mask with its contents, output without, on the side of the table. *)
Definition lookup_table (t : LayerTable) (b : buffers) : outcome (buffers * Z) :=
  let l := if on_device t then Dev else Host in
  let mask := access l true b.2 in
  let out := access l false b.1 in
  let! r := lt_find t n keys (get l mask) stride (get l out) in
  let '(mask', values', counter) := r in
  Ok (put l values' out, put l mask' mask, counter).

Fixpoint lookup_tables (ts : list LayerTable) (b : buffers) : outcome (buffers * list Z) :=
  match ts with
  | [] => Ok (b, [])
  | t :: ts =>
      let! r := lookup_table t b in
      let! rs := lookup_tables ts r.1 in
      Ok (rs.1, r.2 :: rs.2)
  end.

(** Hits of every table and the keys left, from the counters. *)
Fixpoint table_hits (ts : list LayerTable) (counters : list Z) (left_keys : Z) : list Z * list f32 * Z :=
  match ts, counters with
  | t :: ts, c :: counters =>
      let hits := if lt_counter_hits t then c else left_keys - c in
      let rate := f32_div (f32_of_Z hits) (f32_of_Z left_keys) in
      let r := table_hits ts counters (left_keys - hits) in
      (hits :: r.1.1, rate :: r.1.2, r.2)
  | _, _ => ([], [], left_keys)
  end.

Definition fill_default (left_keys : Z) (b : buffers) : outcome buffers :=
  if (0 <? left_keys) && negb (bool_decide (default_embedding = [])) then
    let mask := access Host true b.2 in
    let out := access Host true b.1 in
    if num_workers =? 0 then Undef "division by zero"
    else Ok (put Host (fold_left (fill_one default_embedding (get Host mask) stride) (all_rows n num_workers) (get Host out)) out, mask)
  else Ok b.

Definition scatter (b : buffers) : outcome buffers :=
  if first_on_gpu && last_on_host then
    let out := access Dev false b.1 in
    let! d := EmbeddingForwardScatter (c_host b.1) 0 0 (wrapu 32 row_size) (wrapu 32 stride) (wrapu 32 stride) (c_dev b.2)
                (wraps 32 n) scatter_threads (c_dev out) in
    Ok (put Dev d out, b.2)
  else Ok b.

(** Output, hit mask, [hitrates], the hit rates given to the insert heuristic and the number
    of keys no table has. *)
Record hier_result := { h_output : memory; h_mask : Z -> Z; h_hitrates : list f32; h_table_hitrates : list f32; h_left_keys : Z }.

(** [lookup] without pooling. [b] has the buffers of the caller and the scratch buffers of
    the context, [mask_loc] is where the first access to the mask is. *)
Definition hier_lookup (pooling : bool) (mask_loc : loc) (b : buffers) : outcome hier_result :=
  check! negb pooling as "Not implemented" in
  let mask := put mask_loc (fun _ => 0) (access mask_loc false b.2) in
  let! r := lookup_tables tables (b.1, mask) in
  let '(hits, rates, left_keys) := table_hits tables r.2 n in
  let! b := fill_default left_keys r.1 in
  let! b := scatter b in
  Ok {| h_output := if uses_gpu then c_dev b.1 else c_host b.1;
        h_mask := get (c_last b.2) b.2;
        h_hitrates := (fun h => f32_div (f32_of_Z h) (f32_of_Z n)) <$> hits;
        h_table_hitrates := rates; h_left_keys := left_keys |}.
End Lookup.
End Layer.

(** ** Lemmas: counting *)

Lemma count_ext P Q n : (forall j, 0 <= j < n -> P j = Q j) -> count P n = count Q n.
Proof.
  intros H. unfold count. do 2 f_equal. apply filter_ext_in. intros j Hj%elem_of_seqZ. by rewrite H by lia.
Qed.

Lemma count_split P Q n : count P n = count (fun j => P j && Q j) n + count (fun j => P j && negb (Q j)) n.
Proof.
  unfold count. induction (seqZ 0 n) as [|j l IH]; [done|]. rewrite !filter_cons.
  destruct (P j) eqn:EP, (Q j) eqn:EQ; simpl; rewrite ?EP, ?EQ; simpl; repeat case_decide; try done; simpl length; lia.
Qed.

Lemma count_bounds P n : 0 <= n -> 0 <= count P n <= n.
Proof.
  intros Hn. unfold count. pose proof (length_filter (fun j => P j = true) (seqZ 0 n)) as H. rewrite length_seqZ in H. lia.
Qed.

Lemma count_all n : 0 <= n -> count (fun _ => true) n = n.
Proof.
  intros Hn. pose proof (length_seqZ 0 n) as Hl. unfold count. replace (length (filter _ _)) with (length (seqZ 0 n)); [lia|].
  clear. induction (seqZ 0 n) as [|j l IH]; [done|]. rewrite filter_cons, decide_True by done. simpl. by rewrite IH.
Qed.

Lemma count_zero P n j : count P n = 0 -> 0 <= j < n -> P j = false.
Proof.
  unfold count. intros H Hj. destruct (P j) eqn:E; [|done]. exfalso.
  assert (El : filter (fun j => P j = true) (seqZ 0 n) = []) by (apply nil_length_inv; lia).
  eapply (filter_nil_not_elem_of (fun j => P j = true) _ j) in El; [|done]. apply El, elem_of_seqZ. lia.
Qed.

(** ** Lemmas: the copies *)

Lemma get_put {A} l (v : A) c : get l (put l v c) = v.
Proof. by destruct l. Qed.
Lemma last_put {A} l (v : A) c : c_last (put l v c) = c_last c.
Proof. by destruct l. Qed.
Lemma get_access {A} l copy (c : copies A) : get l (access l copy c) = if copy then get (c_last c) c else get l c.
Proof. unfold access. destruct l; simpl; by destruct copy. Qed.

Definition other (l : loc) : loc := match l with Dev => Host | Host => Dev end.
Lemma get_other_put {A} l (v : A) c : get (other l) (put l v c) = get (other l) c.
Proof. by destruct l. Qed.
Lemma get_other_access {A} l copy (c : copies A) : get (other l) (access l copy c) = get (other l) c.
Proof. by destruct l. Qed.
Lemma last_access {A} l copy (c : copies A) : c_last (access l copy c) = l.
Proof. done. Qed.

(** ** Lemmas: the tables in order *)

(** The row of a key: that of the first table that has it. *)
Fixpoint rows_of (ts : list LayerTable) (k : Z) : option (list Z) :=
  match ts with
  | [] => None
  | t :: ts => match lt_row t k with Some r => Some r | None => rows_of ts k end
  end.
Definition some_has (ts : list LayerTable) (k : Z) : bool := existsb (fun t => has t k) ts.

Lemma some_has_rows ts k : some_has ts k = bool_decide (is_Some (rows_of ts k)).
Proof.
  induction ts as [|t ts IH]; [done|]. simpl. unfold has. destruct (lt_row t k).
  - by rewrite !bool_decide_true by done.
  - rewrite (bool_decide_false (is_Some None)) by (by intros [? [=]]). apply IH.
Qed.

Lemma rows_of_app ts ts' k : rows_of (ts ++ ts') k = match rows_of ts k with Some r => Some r | None => rows_of ts' k end.
Proof. induction ts as [|t ts IH]; [done|]. simpl. by destruct (lt_row t k). Qed.

Section Run.
Context (n : Z) (keys : Z -> Z) (stride row : Z) (Hn : 0 <= n).
Local Abbreviation lookup_table := (lookup_table n keys stride).
Local Abbreviation lookup_tables := (lookup_tables n keys stride).

Definition lawful (t : LayerTable) : Prop :=
  find_law t n keys stride /\ lt_row_size t = row /\ (lt_counter_hits t = false -> lt_counts t = true).

(** The mask as the next table sees it. *)
Definition current (b : buffers) : Z -> Z := get (c_last b.2) b.2.
Definition unresolved (mask : Z -> Z) : Z := count (fun j => negb (mask_bit mask j)) n.

Lemma lookup_table_spec t b :
  lawful t -> mask_ok (current b) -> let l := if on_device t then Dev else Host in
  exists b' c, lookup_table t b = Ok (b', c) /\ mask_ok (current b') /\
    c_last b'.1 = l /\ c_last b'.2 = l /\ get (other l) b'.1 = get (other l) b.1 /\ get (other l) b'.2 = get (other l) b.2 /\
    (forall j, 0 <= j < n -> mask_bit (current b') j = mask_bit (current b) j || has t (keys j)) /\
    (forall j, 0 <= j < n -> mem_read (get l b'.1) (j * stride) row =
      match lt_row t (keys j) with
      | Some r => if mask_bit (current b) j then mem_read (get l b.1) (j * stride) row else r
      | None => mem_read (get l b.1) (j * stride) row
      end) /\
    let hits := count (fun j => negb (mask_bit (current b) j) && has t (keys j)) n in
    (if lt_counter_hits t then c else unresolved (current b) - c) = hits /\
    unresolved (current b') = unresolved (current b) - hits.
Proof.
  intros (Hlaw & Hrow & Hcnt) Hok l.
  destruct (Hlaw (current b) (get l b.1) Hok) as (mask' & values' & cnt & E & Hok' & Hm & Hv & Hc).
  unfold HierLayer.lookup_table. fold l. rewrite !get_access. fold (current b). rewrite E. cbn [obind].
  assert (Ecur : current (put l values' (access l false b.1), put l mask' (access l true b.2)) = mask').
  { unfold current. simpl. rewrite last_put, last_access. apply get_put. }
  eexists _, cnt. split; [done|]. cbn [fst snd]. rewrite Ecur. split; [done|].
  rewrite !get_other_put, !get_other_access, !last_put, !last_access.
  do 4 (split; [done|]). rewrite get_put. rewrite Hrow in Hv. split; [done|]. split; [done|]. cbv zeta. rewrite Hc.
  unfold unresolved. rewrite (count_split (fun j => negb (mask_bit (current b) j)) (fun j => has t (keys j))).
  rewrite (count_ext (fun j => negb (mask_bit mask' j)) (fun j => negb (mask_bit (current b) j) && negb (has t (keys j)))).
  2:{ intros j Hj. rewrite Hm by done. by destruct (mask_bit (current b) j), (has t (keys j)). }
  split; [|lia]. destruct (lt_counter_hits t); [done|]. rewrite Hcnt by done. lia.
Qed.

(** Keys each table resolves. *)
Fixpoint resolved_by (ts : list LayerTable) (before : Z -> bool) : list Z :=
  match ts with
  | [] => []
  | t :: ts => count (fun j => negb (before j) && has t (keys j)) n :: resolved_by ts (fun j => before j || has t (keys j))
  end.

Lemma resolved_by_ext ts f g : (forall j, 0 <= j < n -> f j = g j) -> resolved_by ts f = resolved_by ts g.
Proof.
  revert f g. induction ts as [|t ts IH]; intros f g H; [done|]. simpl. f_equal.
  - apply count_ext. intros j Hj. by rewrite H.
  - apply IH. intros j Hj. by rewrite H.
Qed.

Lemma lookup_tables_cons t ts b :
  lookup_tables (t :: ts) b =
    let! r := lookup_table t b in let! rs := lookup_tables ts r.1 in Ok (rs.1, r.2 :: rs.2).
Proof. done. Qed.

Lemma lookup_tables_spec ts b :
  Forall lawful ts -> mask_ok (current b) ->
  exists b' cs rates, lookup_tables ts b = Ok (b', cs) /\ mask_ok (current b') /\
    (forall j, 0 <= j < n -> mask_bit (current b') j = mask_bit (current b) j || some_has ts (keys j)) /\
    table_hits ts cs (unresolved (current b)) = (resolved_by ts (mask_bit (current b)), rates, unresolved (current b')).
Proof.
  revert b. induction ts as [|t ts IH]; intros b Hl Hok.
  { exists b, [], []. split; [done|]. split; [done|]. split; [|done]. intros j _. by rewrite orb_false_r. }
  apply Forall_cons in Hl as [Ht Hl].
  destruct (lookup_table_spec t b Ht Hok) as (b1 & c & E1 & Hok1 & _ & _ & _ & _ & Hm1 & _ & Hh & Hu).
  destruct (IH b1 Hl Hok1) as (b' & cs & rates & E2 & Hok2 & Hm2 & Hcs). rewrite lookup_tables_cons, E1. cbn [obind fst]. rewrite E2. cbn [obind].
  eexists b', (c :: cs), _. split; [done|]. split; [done|]. split.
  - intros j Hj. rewrite Hm2, Hm1 by done. simpl. by rewrite orb_assoc.
  - cbn [table_hits resolved_by snd fst]. rewrite Hh. rewrite <- Hu, Hcs. simpl. f_equal. f_equal. f_equal.
    by apply resolved_by_ext.
Qed.

Lemma lookup_tables_app ts ts' b :
  lookup_tables (ts ++ ts') b =
    let! r := lookup_tables ts b in let! r' := lookup_tables ts' r.1 in Ok (r'.1, r.2 ++ r'.2).
Proof.
  revert b. induction ts as [|t ts IH]; intros b.
  { change (lookup_tables [] b) with (Ok (b, @nil Z)). cbn [obind fst snd app]. by destruct (lookup_tables ts' b) as [ [? ?]| |]. }
  rewrite <- app_comm_cons, !lookup_tables_cons. destruct (lookup_table t b) as [ [b1 c]| |]; [|done..]. cbn [obind fst snd]. rewrite IH.
  destruct (lookup_tables ts b1) as [ [b2 cs]| |]; [|done..]. cbn [obind fst snd].
  by destruct (lookup_tables ts' b2) as [ [? ?]| |].
Qed.

(** Tables of one side: the copies of the other side stay. *)
Lemma lookup_side l ts b b' cs :
  Forall lawful ts -> mask_ok (current b) -> Forall (fun t => (if on_device t then Dev else Host) = l) ts ->
  lookup_tables ts b = Ok (b', cs) ->
  (ts <> [] -> c_last b'.1 = l /\ c_last b'.2 = l) /\ get (other l) b'.1 = get (other l) b.1 /\ get (other l) b'.2 = get (other l) b.2 /\
  (forall j, 0 <= j < n -> mem_read (get l b'.1) (j * stride) row =
    match rows_of ts (keys j) with
    | Some r => if mask_bit (current b) j then mem_read (get l b.1) (j * stride) row else r
    | None => mem_read (get l b.1) (j * stride) row
    end).
Proof.
  revert b cs. induction ts as [|t ts IH]; intros b cs Hl Hok Hs E.
  { injection E as <- <-. done. }
  apply Forall_cons in Hl as [Ht Hl], Hs as [Hst Hs].
  destruct (lookup_table_spec t b Ht Hok) as (b1 & c & E1 & Hok1 & Hlast1 & Hlast & Ho1 & Ho2 & Hm1 & Hr1 & _). rewrite Hst in *.
  rewrite lookup_tables_cons, E1 in E. cbn [obind fst] in E.
  destruct (lookup_tables ts b1) as [ [b2 cs2]| |] eqn:E2; [|done..]. injection E as <- <-. cbn [fst].
  destruct (IH b1 cs2 Hl Hok1 Hs E2) as (Hl2 & Ho3 & Ho4 & Hr2). rewrite Ho3, Ho4.
  split; [|split; [done|split; [done|]]].
  - intros _. destruct ts as [|t' ts]; [by injection E2 as <- _|by apply Hl2].
  - intros j Hj. rewrite (Hr2 j Hj), (Hr1 j Hj), (Hm1 j Hj). cbn [rows_of]. unfold has.
    destruct (lt_row t (keys j)) as [r|] eqn:Er.
    + rewrite (bool_decide_true (is_Some (Some r))) by done. rewrite orb_true_r. by destruct (rows_of ts (keys j)).
    + rewrite (bool_decide_false (is_Some None)) by (by intros [? [=] ]). by rewrite orb_false_r.
Qed.


(** ** The constructor orders the tables *)

Lemma check_tables_split prev size ts :
  check_tables prev size ts = Ok tt ->
  exists gs hs, ts = gs ++ hs /\ Forall (fun t => on_device t = true) gs /\ Forall (fun t => on_device t = false) hs /\
    ((exists d, prev = Some d /\ d < 0) -> gs = []).
Proof.
  revert prev. induction ts as [|t ts IH]; intros prev; [by exists [], []|]. cbn [check_tables].
  destruct (negb (on_device t) || _) eqn:E1; [|done]. cbn [obind]. destruct (lt_row_size t =? size); [|done]. cbn [obind].
  intros (gs & hs & -> & Hg & Hh & Hd)%IH. destruct (on_device t) eqn:Et.
  - exists (t :: gs), hs. split_and!; [done|by constructor|done|]. intros (d & -> & ?). unfold on_device in Et. simpl in E1. lia.
  - rewrite Hd by (exists (lt_device t); unfold on_device in Et; split; [done|lia]).
    exists [], (t :: hs). split_and!; [done..|by constructor|done].
Qed.

Lemma side_of (b : bool) ts :
  Forall (fun t => on_device t = b) ts -> Forall (fun t => (if on_device t then Dev else Host) = if b then Dev else Host) ts.
Proof. intros H. eapply Forall_impl; [exact H|]. intros t Ht. simpl in Ht. by rewrite Ht. Qed.
End Run.

(** ** The lookup of the layer *)

Section HierLookup.
Context (tables : list LayerTable) (default_embedding : list Z).
Context (n : Z) (keys : Z -> Z) (stride num_workers : Z) (scatter_threads : Z -> list (Z * Z)).
Local Abbreviation row := (row_size tables).
Local Abbreviation run := (lookup_tables n keys stride).
Local Abbreviation fill := (fill_default default_embedding n stride num_workers).
Context (Hcheck : hier_check tables default_embedding = Ok tt).
Context (Hlaws : Forall (fun t => find_law t n keys stride /\ (lt_counter_hits t = false -> lt_counts t = true)) tables).
Context (Hn : 0 <= n) (Hrow : 0 < row <= stride) (Hworkers : 0 < num_workers).

Lemma hier_check_facts :
  Forall (lawful n keys stride row) tables /\
  (default_embedding <> [] -> Z.of_nat (length default_embedding) = row /\ last_on_host tables = true) /\
  exists gs hs, tables = gs ++ hs /\ gs ++ hs <> [] /\ Forall (fun t => on_device t = true) gs /\ Forall (fun t => on_device t = false) hs.
Proof using Hcheck Hlaws.
  clear Hn Hrow Hworkers. unfold hier_check in Hcheck.
  assert (Hne : tables <> []) by (by intros Ht; rewrite Ht in Hcheck).
  replace (match tables with [] => Throw "No tables provided to layer" | _ :: _ => _ end) with
    (let! _ := check_tables None row tables in
      if bool_decide (default_embedding = []) then Ok tt
      else check! row =? Z.of_nat (length default_embedding) as "Default embedding row size must match table row size" in
           check! last_on_host tables as "Default embedding row requires last table to be on host" in Ok tt) in Hcheck
    by (by destruct tables).
  destruct (check_tables None row tables) as [ [] | |] eqn:Ec; [|done..]. cbn [obind] in Hcheck. split; [|split].
  - clear Hcheck Hne. generalize dependent (@None Z). generalize row. induction tables as [|t ts IH]; intros size prev Ec; [constructor|].
    apply Forall_cons in Hlaws as [ [Ht1 Ht2] Hl]. cbn [check_tables] in Ec. destruct (negb (on_device t) || _); [|done]. cbn [obind] in Ec.
    destruct (Z.eqb_spec (lt_row_size t) size); [|done]. constructor; [done|]. by eapply IH.
  - intros Hd. rewrite (bool_decide_false _ Hd) in Hcheck. destruct (Z.eqb_spec row (Z.of_nat (length default_embedding))); [|done].
    cbn [obind] in Hcheck. by destruct (last_on_host tables).
  - apply check_tables_split in Ec as (gs & hs & E & Hg & Hh & _). exists gs, hs. split; [done|]. by rewrite <- E.
Qed.

Lemma fill_default_spec b :
  mask_ok (current b) ->
  (default_embedding <> [] -> Z.of_nat (length default_embedding) = row /\ c_last b.1 = Host /\ c_last b.2 = Host) ->
  exists b', fill (unresolved n (current b)) b = Ok b' /\ c_dev b'.1 = c_dev b.1 /\ b'.2 = b.2 /\
    forall j, 0 <= j < n -> mem_read (c_host b'.1) (j * stride) row =
      if mask_bit (current b) j || bool_decide (default_embedding = []) then mem_read (c_host b.1) (j * stride) row
      else default_embedding.
Proof using Hn Hrow Hworkers.
  intros Hok Hd. unfold fill_default. destruct (decide (default_embedding = [])) as [He|He].
  { rewrite !(bool_decide_true _ He), andb_false_r. exists b. do 3 (split; [done|]). intros j _. by rewrite orb_true_r. }
  rewrite !(bool_decide_false _ He), andb_true_r. destruct (Hd He) as (Hlen & Ho & Hm).
  destruct b as [ [od oh ol] [md mh ml] ]. simpl in Ho, Hm. subst ol ml. unfold current in *. simpl get in *. cbn [fst snd c_last c_host c_dev] in *.
  destruct (Z.ltb_spec 0 (unresolved n mh)) as [Hu|Hu].
  - rewrite (proj2 (Z.eqb_neq _ _)) by lia. eexists. split; [done|]. do 2 (split; [done|]). intros j Hj.
    pose proof (fold_store_rows stride row ltac:(lia) (fun _ => default_embedding)
      (fun k => negb (mask_bit mh k)) (all_rows n num_workers) oh j (fun _ _ _ => Hlen)) as Hf.
    simpl access. cbn [access put get fst c_host c_dev].
    erewrite (fold_left_ext (fill_one default_embedding mh stride)).
    + rewrite Hf. rewrite orb_false_r. destruct (mask_bit mh j) eqn:Eb.
      * rewrite decide_False; [done|]. by intros [_ ?].
      * rewrite decide_True; [done|]. split; [|done]. by apply elem_of_all_rows.
    + intros g k. unfold fill_one. by destruct (mask_bit mh k).
  - eexists. split; [done|]. do 2 (split; [done|]). intros j Hj. pose proof (count_bounds (fun j => negb (mask_bit mh j)) n Hn).
    assert (E : negb (mask_bit mh j) = false) by (apply (count_zero (fun j => negb (mask_bit mh j)) n); [unfold unresolved in Hu; lia|done]).
    apply negb_false_iff in E. by rewrite E.
Qed.
(** Device tables [gs] first, then host tables [hs], from an empty mask. *)
Lemma run_split gs hs b0 :
  Forall (lawful n keys stride row) (gs ++ hs) -> Forall (fun t => on_device t = true) gs -> Forall (fun t => on_device t = false) hs ->
  current b0 = (fun _ => 0) ->
  exists b cs rates, run (gs ++ hs) b0 = Ok (b, cs) /\ mask_ok (current b) /\
    table_hits (gs ++ hs) cs n = (resolved_by n keys (gs ++ hs) (fun _ => false), rates, unresolved n (current b)) /\
    (forall j, 0 <= j < n -> mask_bit (current b) j = some_has (gs ++ hs) (keys j)) /\
    (hs <> [] -> c_last b.1 = Host /\ c_last b.2 = Host) /\
    (gs <> [] -> forall j, 0 <= j < n -> mask_bit (c_dev b.2) j = some_has gs (keys j)) /\
    (forall j r, 0 <= j < n -> rows_of gs (keys j) = Some r -> mem_read (c_dev b.1) (j * stride) row = r) /\
    (forall j r, 0 <= j < n -> rows_of gs (keys j) = None -> rows_of hs (keys j) = Some r -> mem_read (c_host b.1) (j * stride) row = r).
Proof using Hn.
  intros Hl Hg Hh H0. apply Forall_app in Hl as [Hlg Hlh].
  assert (Hok0 : mask_ok (current b0)) by (rewrite H0; intros w; by split).
  assert (Hz : forall j, mask_bit (current b0) j = false) by (intros j; rewrite H0; apply Z.testbit_0_l).
  destruct (lookup_tables_spec n keys stride row gs b0 Hlg Hok0) as (b1 & cs1 & rates1 & E1 & Hok1 & Hm1 & _).
  destruct (lookup_side n keys stride row Dev gs b0 b1 cs1 Hlg Hok0 (side_of true gs Hg) E1) as (Hlast1 & Ho1 & Hmo1 & Hr1).
  destruct (lookup_tables_spec n keys stride row hs b1 Hlh Hok1) as (b2 & cs2 & rates2 & E2 & Hok2 & Hm2 & _).
  destruct (lookup_side n keys stride row Host hs b1 b2 cs2 Hlh Hok1 (side_of false hs Hh) E2) as (Hlast2 & Ho2 & Hmo2 & Hr2).
  destruct (lookup_tables_spec n keys stride row (gs ++ hs) b0) as (b & cs & rates & E & Hok & Hm & Hc); [by apply Forall_app|done|].
  assert (b = b2) as ->.
  { rewrite lookup_tables_app, E1 in E. cbn [obind fst] in E. rewrite E2 in E. by injection E. }
  simpl other in *. simpl get in *. exists b2, cs, rates. split; [done|]. split; [done|]. split; [|split; [|split; [done|split; [|split]]]].
  - rewrite <- (resolved_by_ext n keys (gs ++ hs) (mask_bit (current b0))), <- Hc by (intros; apply Hz). f_equal.
    unfold unresolved. rewrite (count_ext _ (fun _ => true)) by (intros; by rewrite Hz). by rewrite count_all.
  - intros j Hj. by rewrite Hm, Hz.
  - intros Hne j Hj. rewrite Hmo2. destruct (Hlast1 Hne) as [_ El].
    replace (c_dev b1.2) with (current b1) by (unfold current; by rewrite El). by rewrite Hm1, Hz.
  - intros j r Hj E'. by rewrite Ho2, Hr1, E', Hz.
  - intros j r Hj Eg E'. rewrite Hr2, E', Hm1, Hz, some_has_rows, Eg by done. by rewrite bool_decide_false by (by intros [? ?]).
Qed.
(** What the scatter from the host to the device needs. *)
Definition scatter_fits : Prop :=
  0 < n < 2 ^ 31 /\ stride < 2 ^ 32 /\ n * stride < 2 ^ 32 /\ (2 | row) /\ launch_order 64 n scatter_threads.

Lemma scatter_spec b :
  (first_on_gpu tables && last_on_host tables = true -> scatter_fits) ->
  exists b', scatter tables n stride scatter_threads b = Ok b' /\ b'.2 = b.2 /\ c_host b'.1 = c_host b.1 /\
    forall j, 0 <= j < n -> mem_read (c_dev b'.1) (j * stride) row =
      if first_on_gpu tables && last_on_host tables && negb (mask_bit (c_dev b.2) j) then mem_read (c_host b.1) (j * stride) row
      else mem_read (c_dev b.1) (j * stride) row.
Proof using Hn Hrow.
  intros Hfit. unfold scatter. destruct (first_on_gpu tables && last_on_host tables); [|by exists b].
  destruct (Hfit eq_refl) as (Hn31 & Hst & Hfits & Heven & Ho).
  rewrite !wrapu_small, wraps_small by (unfold in_u, in_s; simpl; lia).
  destruct (scatter_rows (c_host b.1) 0 0 row stride stride (c_dev b.2) n Hn Hrow Heven ltac:(lia) Hfits Hfits scatter_threads
    (c_dev (access Dev false b.1)) Hn31 Ho) as (m' & E & Hm').
  rewrite E. cbn [obind]. eexists. split; [done|]. do 2 (split; [done|]). intros j Hj. specialize (Hm' j).
  rewrite !Z.add_0_l in Hm'. cbn [fst put c_dev]. rewrite Hm'. rewrite (proj2 (Z.leb_le _ _)), (proj2 (Z.ltb_lt _ _)) by lia. done.
Qed.

Lemma sides gs hs :
  tables = gs ++ hs -> gs ++ hs <> [] -> Forall (fun t => on_device t = true) gs -> Forall (fun t => on_device t = false) hs ->
  first_on_gpu tables = negb (bool_decide (gs = [])) /\ last_on_host tables = negb (bool_decide (hs = [])) /\
  uses_gpu tables = negb (bool_decide (gs = [])).
Proof.
  clear. intros -> Hne Hg Hh. split; [|split].
  - unfold first_on_gpu. destruct gs as [|g gs]; simpl.
    + destruct hs as [|h hs]; [done|]. by apply Forall_cons in Hh as [-> _].
    + by apply Forall_cons in Hg as [-> _].
  - unfold last_on_host. destruct hs as [|h hs' _] using rev_ind.
    + rewrite app_nil_r in *. destruct gs as [|g gs' _] using rev_ind; [done|]. rewrite last_snoc.
      apply Forall_app in Hg as [_ [Hg _]%Forall_cons]. by rewrite Hg.
    + rewrite app_assoc, last_snoc. apply Forall_app in Hh as [_ [Hh _]%Forall_cons]. rewrite Hh.
      rewrite bool_decide_false; [done|]. by destruct hs'.
  - unfold uses_gpu. rewrite existsb_app. replace (existsb on_device hs) with false.
    + destruct gs as [|g gs]; [done|]. apply Forall_cons in Hg as [Hg _]. simpl. by rewrite Hg.
    + symmetry. clear Hne. induction Hh as [|h hs Hh _ IH]; [done|]. simpl. by rewrite Hh.
Qed.

Lemma hier_lookup_lemma (mask_loc : loc) (b : buffers) :
  (first_on_gpu tables && last_on_host tables = true -> scatter_fits) ->
  exists r, hier_lookup tables default_embedding n keys stride num_workers scatter_threads false mask_loc b = Ok r /\
    (forall j, 0 <= j < n ->
      match rows_of tables (keys j) with
      | Some v => mem_read (h_output r) (j * stride) row = v
      | None => default_embedding <> [] -> mem_read (h_output r) (j * stride) row = default_embedding
      end) /\
    (forall j, 0 <= j < n -> mask_bit (h_mask r) j = some_has tables (keys j)) /\
    h_hitrates r = (fun h => f32_div (f32_of_Z h) (f32_of_Z n)) <$> resolved_by n keys tables (fun _ => false) /\
    h_left_keys r = count (fun j => negb (some_has tables (keys j))) n.
Proof.
  intros Hfit. destruct hier_check_facts as (Hl & Hdef & gs & hs & Et & Hne & Hg & Hh).
  destruct (sides gs hs Et Hne Hg Hh) as (Efirst & Elast & Euses).
  set (b0 := (b.1, put mask_loc (fun _ => 0) (access mask_loc false b.2))).
  destruct (run_split gs hs b0) as (b1 & cs & rates & E1 & Hok & Hhits & Hm & Hlast & Hdev & Hdrow & Hhrow); [by rewrite <- Et|done..| |].
  { unfold b0, current. cbn [snd]. by rewrite last_put, last_access, get_put. }
  destruct (fill_default_spec b1 Hok) as (b2 & E2 & Hd2 & Hmask2 & Hh2).
  { intros Hd. destruct (Hdef Hd) as [Hlen Hlh]. rewrite Elast in Hlh. split; [done|]. apply Hlast. by intros ->. }
  destruct (scatter_spec b2 Hfit) as (b3 & E3 & Hmask3 & Hh3 & Hd3).
  unfold hier_lookup. cbn [negb obind]. fold b0. rewrite <- Et in E1, Hhits, Hm. rewrite E1. cbn [obind fst snd]. rewrite Hhits, E2.
  cbn [obind]. rewrite E3. cbn [obind]. eexists. split; [done|]. cbn [h_output h_mask h_hitrates h_left_keys].
  split; [|split; [|split; [done|]]].
  - intros j Hj. pose proof (rows_of_app gs hs (keys j)) as Erow. rewrite <- Et in Erow. rewrite Erow, Euses. specialize (Hm j Hj). specialize (Hh2 j Hj). specialize (Hd3 j Hj).
    rewrite Efirst, Elast, Hmask2, Hd2 in Hd3. rewrite some_has_rows, Erow in Hm. rewrite Hm in Hh2.
    destruct (decide (gs = [])) as [->|Hgs].
    + rewrite bool_decide_true by done. simpl rows_of in *. simpl negb. cbv iota. rewrite Hh3, Hh2.
      destruct (rows_of hs (keys j)) as [v|] eqn:Ev.
      * rewrite (bool_decide_true (is_Some _)) by done. by apply Hhrow.
      * rewrite (bool_decide_false (is_Some None)) by (by intros [? [=] ]). intros Hd. by rewrite bool_decide_false.
    + rewrite (bool_decide_false (gs = [])) in * by done. simpl negb in *. cbv iota. rewrite (Hdev Hgs j Hj), some_has_rows in Hd3.
      rewrite Hd3. destruct (rows_of gs (keys j)) as [v|] eqn:Ev.
      * rewrite (bool_decide_true (is_Some _)), andb_false_r by done. by apply Hdrow.
      * rewrite (bool_decide_false (is_Some None)) by (by intros [? [=] ]). rewrite andb_true_r. simpl andb.
        destruct (decide (hs = [])) as [->|Hhs].
        -- simpl rows_of. intros Hd. destruct (Hdef Hd) as [_ Hx]. by rewrite Elast in Hx.
        -- rewrite (bool_decide_false (hs = [])) by done. simpl negb. cbv iota. rewrite Hh2. destruct (rows_of hs (keys j)) as [v|] eqn:Ev'.
           ++ rewrite (bool_decide_true (is_Some _)) by done. by apply Hhrow.
           ++ rewrite (bool_decide_false (is_Some None)) by (by intros [? [=] ]). intros Hd. by rewrite bool_decide_false.
  - intros j Hj. rewrite Hmask3, Hmask2. apply Hm, Hj.
  - unfold unresolved. apply count_ext. intros j Hj. by rewrite Hm.
Qed.

(** C6. A lookup through the hierarchical layer, against the laws of its tables (which count
    their misses, if that is what their counter is for), from any
    contents of the buffers, of at least one key where device tables precede host tables (the
    host rows are then scattered): it returns; output row [j] is the row that the first table
    with key [j] has for it, wherever device and host tables put their copies, and the
    default embedding when one is configured and no table has the key; the hit mask marks
    the keys some table has; every hit rate is the share of the keys its table was the
    first to have, and [left_keys] counts the keys no table has. *)
Theorem hier_lookup_correct (mask_loc : loc) (b : buffers) :
  (first_on_gpu tables && last_on_host tables = true -> scatter_fits) ->
  exists r, hier_lookup tables default_embedding n keys stride num_workers scatter_threads false mask_loc b = Ok r /\
    (forall j, 0 <= j < n ->
      match rows_of tables (keys j) with
      | Some v => mem_read (h_output r) (j * stride) row = v
      | None => default_embedding <> [] -> mem_read (h_output r) (j * stride) row = default_embedding
      end) /\
    (forall j, 0 <= j < n -> mask_bit (h_mask r) j = some_has tables (keys j)) /\
    h_hitrates r = (fun h => f32_div (f32_of_Z h) (f32_of_Z n)) <$> resolved_by n keys tables (fun _ => false) /\
    h_left_keys r = count (fun j => negb (some_has tables (keys j))) n.
Proof. apply hier_lookup_lemma. Qed.

(** A lookup of no key ends in an exception when device tables precede host tables: after
    the tables have been searched the scatter is launched without a block. *)
Theorem hier_empty_lookup_throws (mask_loc : loc) (b : buffers) :
  first_on_gpu tables && last_on_host tables = true -> n = 0 -> stride < 2 ^ 32 -> (2 | row) ->
  hier_lookup tables default_embedding n keys stride num_workers scatter_threads false mask_loc b = Throw "invalid configuration argument".
Proof.
  intros Hfl Hn0 Hst Heven. destruct hier_check_facts as (Hl & Hdef & gs & hs & Et & Hne & Hg & Hh).
  destruct (sides gs hs Et Hne Hg Hh) as (_ & Elast & _).
  set (b0 := (b.1, put mask_loc (fun _ => 0) (access mask_loc false b.2))).
  destruct (run_split gs hs b0) as (b1 & cs & rates & E1 & Hok & Hhits & _ & Hlast & _); [by rewrite <- Et|done..| |].
  { unfold b0, current. cbn [snd]. by rewrite last_put, last_access, get_put. }
  destruct (fill_default_spec b1 Hok) as (b2 & E2 & _).
  { intros Hd. destruct (Hdef Hd) as [Hlen Hlh]. rewrite Elast in Hlh. split; [done|]. apply Hlast. by intros ->. }
  unfold hier_lookup. cbn [negb obind]. fold b0. rewrite <- Et in E1, Hhits. rewrite E1. cbn [obind fst snd]. rewrite Hhits, E2.
  cbn [obind]. unfold scatter. rewrite Hfl. rewrite !(wrapu_small 32) by (unfold in_u; simpl; lia). rewrite Hn0.
  by rewrite (scatter_zero (c_host b2.1) 0 0 row stride stride) by (done || lia).
Qed.
End HierLookup.

(** When the device table is configured without a miss counter, default embeddings are
    never written: its counter reads 0 misses, so all keys count as hits of the device
    table, [left_keys] ends up as minus the number of keys found on the host, and a key no
    table has gets the contents of the host copy of the output. *)
Theorem uncounted_misses_skip_default (g h : LayerTable) (default_embedding : list Z) (n : Z) (keys : Z -> Z) (stride num_workers : Z)
    (scatter_threads : Z -> list (Z * Z)) (mask_loc : loc) (b : buffers) :
  hier_check [g; h] default_embedding = Ok tt -> on_device g = true -> on_device h = false ->
  lt_counter_hits g = false -> lt_counts g = false -> lt_counter_hits h = true ->
  find_law g n keys stride -> find_law h n keys stride ->
  0 <= n -> 0 < lt_row_size g <= stride -> scatter_fits [g; h] n stride scatter_threads ->
  exists r, hier_lookup [g; h] default_embedding n keys stride num_workers scatter_threads false mask_loc b = Ok r /\
    h_left_keys r = - count (fun j => negb (has g (keys j)) && has h (keys j)) n /\
    forall j, 0 <= j < n -> rows_of [g; h] (keys j) = None ->
      mem_read (h_output r) (j * stride) (lt_row_size g) = mem_read (c_host b.1) (j * stride) (lt_row_size g).
Proof.
  intros Hc Hg Hh Hgc Hgn Hhc Lg Lh Hn Hrow Hfit.
  assert (Hsize : lt_row_size h = lt_row_size g).
  { unfold hier_check in Hc. cbn [check_tables row_size] in Hc. rewrite Hg, Hh in Hc. simpl in Hc. rewrite Z.eqb_refl in Hc. simpl in Hc.
    by destruct (Z.eqb_spec (lt_row_size h) (lt_row_size g)). }
  unfold hier_lookup. cbn [negb obind]. set (mask0 := put mask_loc (fun _ => 0) (access mask_loc false b.2)).
  assert (E0 : get (c_last mask0) mask0 = fun _ => 0) by (unfold mask0; by rewrite last_put, last_access, get_put).
  destruct (Lg (fun _ => 0) (c_dev b.1)) as (m1 & v1 & c1 & E1 & Hok1 & Hm1 & _ & Hc1); [by intros w|]. rewrite Hgc, Hgn in Hc1. subst c1.
  destruct (Lh m1 (c_host b.1) Hok1) as (m2 & v2 & c2 & E2 & Hok2 & Hm2 & Hv2 & Hc2). rewrite Hhc in Hc2.
  cbn [lookup_tables]. unfold lookup_table at 1. rewrite Hg. cbn [fst snd]. rewrite !get_access, E0. cbn [get]. rewrite E1. cbn [obind fst snd].
  unfold lookup_table. rewrite Hh. cbn [fst snd]. rewrite !get_access. cbn [put access get c_last c_host c_dev]. rewrite E2. cbn [obind fst snd].
  cbn [table_hits]. rewrite Hgc, Hhc. cbn [fst snd].
  assert (Ec2 : c2 = count (fun j => negb (has g (keys j)) && has h (keys j)) n).
  { rewrite Hc2. apply count_ext. intros j Hj. rewrite Hm1 by done. unfold mask_bit. by rewrite Z.testbit_0_l. }
  pose proof (count_bounds (fun j => negb (has g (keys j)) && has h (keys j)) n Hn) as Hb.
  unfold fill_default. replace (0 <? n - (n - 0) - c2) with false by lia. cbn [andb obind].
  match goal with |- context [scatter _ _ _ _ ?bb] => set (b1 := bb) end.
  destruct (scatter_spec [g; h] n stride scatter_threads Hn ltac:(done) b1) as (b2 & E & Hmask & Hhost & Hdev); [by intros _|].
  rewrite E. cbn [obind]. eexists. split; [done|]. cbn [h_left_keys h_output]. split; [lia|]. intros j Hj Hnone.
  unfold uses_gpu. cbn [existsb]. rewrite Hg. cbn [orb]. specialize (Hdev j Hj).
  replace (first_on_gpu [g; h] && last_on_host [g; h]) with true in Hdev
    by (unfold first_on_gpu, last_on_host; simpl; by rewrite Hg, Hh).
  unfold b1 in Hdev. cbn [fst snd put access get c_dev c_host c_last andb row_size] in Hdev. rewrite Hdev, Hm1 by done.
  cbn [rows_of] in Hnone. destruct (lt_row g (keys j)) eqn:Eg; [done|]. destruct (lt_row h (keys j)) eqn:Eh; [done|].
  unfold has. rewrite Eg. unfold mask_bit. rewrite Z.testbit_0_l. cbn [orb]. rewrite bool_decide_false by (by intros [? [=] ]). cbn [negb].
  specialize (Hv2 j Hj). rewrite Hsize, Eh in Hv2. done.
Qed.
