(* ===== verification/HierTables.v ===== *)
(** * Tables of the hierarchical layer

    The GPU table without rows in unified memory ([src/gpu_table.cu]) and the STL host
    table keep the law of [HierLayer]: a cache on the device backed by a table on the host
    is looked up correctly. Without a miss counter the device table does not keep it. *)
From S2P Require Import Prelude Float32 DataTypes BitOps EcHash SetAssoc HostModify CacheCoherence CacheQuery DeviceOps HostTable.
From S2P Require Import StlTable StlFind Pooling HostLayer GpuTable AutoInsert HierLayer.

(** ** Mask words *)

(** The layer's mask has words of 64 bits, the cache kernels read the same bytes as words
    of 32 bits. *)
Definition mask32 (mask : Z -> Z) : Z -> Z := fun w => wrapu 32 (Z.shiftr (mask (w / 2)) (32 * (w mod 2))).
Definition mask64 (mask : Z -> Z) : Z -> Z := fun w => Z.lor (wrapu 32 (mask (2 * w))) (Z.shiftl (wrapu 32 (mask (2 * w + 1))) 32).

Lemma words_of j :
  let h := (j / 32) mod 2 in
  j / 64 = j / 32 / 2 /\ j mod 64 = 32 * h + j mod 32 /\ (h = 0 /\ j / 32 = 2 * (j / 64) \/ h = 1 /\ j / 32 = 2 * (j / 64) + 1).
Proof.
  intros h. unfold h.
  pose proof (Z.div_mod j 64 ltac:(lia)). pose proof (Z.mod_pos_bound j 64 ltac:(lia)).
  pose proof (Z.div_mod j 32 ltac:(lia)). pose proof (Z.mod_pos_bound j 32 ltac:(lia)).
  pose proof (Z.div_mod (j / 32) 2 ltac:(lia)). pose proof (Z.mod_pos_bound (j / 32) 2 ltac:(lia)). lia.
Qed.

Lemma mask32_bit mask j : 0 <= j -> Z.testbit (mask32 mask (j / 32)) (j mod 32) = mask_bit mask j.
Proof.
  intros Hj. destruct (words_of j) as (E1 & E2 & _). pose proof (Z.mod_pos_bound j 32 ltac:(lia)) as H. unfold mask32, mask_bit.
  rewrite E1, E2. unfold wrapu. rewrite Z.mod_pow2_bits_low by lia. rewrite Z.shiftr_spec by lia. f_equal. lia.
Qed.

Lemma mask64_bit mask j : 0 <= j -> mask_bit (mask64 mask) j = Z.testbit (mask (j / 32)) (j mod 32).
Proof.
  intros Hj. destruct (words_of j) as (_ & E2 & Hh). pose proof (Z.mod_pos_bound j 32 ltac:(lia)) as H. unfold mask64, mask_bit, wrapu.
  rewrite Z.lor_spec, Z.shiftl_spec by lia. rewrite E2.
  destruct Hh as [ [Eh <-] | [Eh <-] ]; rewrite Eh.
  - rewrite (Z.testbit_neg_r _ (32 * 0 + j mod 32 - 32)), orb_false_r by lia. by rewrite Z.mod_pow2_bits_low by lia.
  - rewrite Z.mod_pow2_bits_high by lia. simpl orb. rewrite Z.mod_pow2_bits_low by lia. f_equal. lia.
Qed.

Lemma in_u_lor w a b : 0 < w -> in_u w a -> in_u w b -> in_u w (Z.lor a b).
Proof.
  intros Hw [Ha Ha'] [Hb Hb']. split; [by apply Z.lor_nonneg|].
  destruct (Z.eq_dec (Z.lor a b) 0) as [->|Hne]; [apply Z.pow_pos_nonneg; lia|].
  assert (0 <= Z.lor a b) by (by apply Z.lor_nonneg). apply Z.log2_lt_pow2; [lia|]. rewrite Z.log2_lor by done.
  assert (Hl : forall x, 0 <= x -> x < 2 ^ w -> Z.log2 x < w).
  { intros x Hx Hx'. destruct (Z.eq_dec x 0) as [->|]; [simpl; lia|]. apply Z.log2_lt_pow2; lia. }
  pose proof (Hl a Ha Ha'). pose proof (Hl b Hb Hb'). lia.
Qed.

Lemma mask64_ok mask : mask_ok (mask64 mask).
Proof.
  intros w. unfold mask64. pose proof (wrapu_range 32 (mask (2 * w)) ltac:(lia)) as H1.
  pose proof (wrapu_range 32 (mask (2 * w + 1)) ltac:(lia)) as H2. unfold in_u in H1, H2.
  apply in_u_lor; [lia|unfold in_u; lia|]. unfold in_u. rewrite Z.shiftl_mul_pow2 by lia. lia.
Qed.

(** ** The GPU table *)

Section GpuLayerTable.
Context {S : Type} `{CacheOps S} (K T : int_type) (c : GPUTableConfig).
Context (cfg : CacheConfig) (num_sets cache_base : Z) `{!CacheLaws S K T cfg num_sets cache_base (max_modify_size c)}.
Context (sort_pairs : list (Z * FindOutput) -> list (Z * FindOutput)) (cub_aux_bytes : Z).
Context (warps gather_warps : Z -> list (Z * Z)).
Context (gather_flow_pipeline : Z -> (Z -> Z) -> Z -> Z -> S -> outcome memory).

(** [reset_lookup_counter], [find] and [get_lookup_counter] of a table in state [s], the
    output at the start of its buffer. *)
Definition gpu_layer_find (s : S) (n : Z) (keys mask : Z -> Z) (stride : Z) (values : memory) : outcome ((Z -> Z) * memory * Z) :=
  let! st := gpu_find K c cfg num_sets cache_base sort_pairs cub_aux_bytes (warps n) (gather_warps n) gather_flow_pipeline
               n keys false 0 stride s {| q_mask := mask32 mask; q_values := values; q_misses := 0 |} in
  Ok (mask64 (q_mask st), q_values st, if count_misses c then q_misses st else 0).

Definition gpu_resident (s : S) (k : Z) : bool := bool_decide (is_Some (find_way K num_sets (co_tags s) 0 k)).

Definition gpu_layer_table (val : Z -> list Z) (s : S) : LayerTable := {|
  lt_device := device_id c; lt_row_size := row_size_in_bytes c; lt_counter_hits := false; lt_counts := count_misses c;
  lt_row k := if gpu_resident s k then Some (val k) else None; lt_find := gpu_layer_find s |}.
Context (HK : 0 < width K) (HT : 0 < width T) (Hns : 0 < num_sets <= 2 ^ 32) (Hbase : 0 < cache_base) (Hslots : num_sets * NUM_WAYS <= 2 ^ 32).
Context (Hcfg : embed_width_in_bytes cfg = row_size_in_bytes c) (Huvm : uvm_table c = 0).
Context (n : Z) (keys : Z -> Z) (stride : Z) (Hrow : 0 < row_size_in_bytes c <= stride) (Hn : 0 <= n < 2 ^ 32 - 128).
Context (Hwarps : warps n ≡ₚ grid n) (Hkeys : forall j, 0 <= j < n -> valid_key K T cfg num_sets (keys j)).

Lemma gpu_layer_law (val : Z -> list Z) (s : S) :
  cl_inv (K := K) (T := T) (cfg := cfg) (num_sets := num_sets) (cache_base := cache_base) (max := max_modify_size c) val s ->
  find_law (gpu_layer_table val s) n keys stride.
Proof.
  intros Hinv mask values Hok. destruct (cl_coherent val s Hinv) as [h Hci].
  set (hs := {| h_tags := h; d_tags := co_tags s; h_counters := fun _ => f32_zero; mem := co_mem s |}) in *.
  assert (Hres : forall k, CacheQuery.resident K num_sets 0 hs k = gpu_resident s k).
  { intros k. unfold CacheQuery.resident, gpu_resident. apply bool_decide_ext.
    by rewrite <- (find_way_device K T cfg num_sets cache_base Hns val 0 hs k Hci). }
  set (st := {| q_mask := mask32 mask; q_values := values; q_misses := 0 |}).
  destruct (query_hit_mask_lemma K T cfg num_sets cache_base (count_misses c) HK Hns Hbase keys n 0 stride)
    with (val := val) (tbl := 0) (s := hs) (order := warps n) (st := st) as (st' & E & Hb & Hr & Hm);
    [by rewrite Hcfg|done|lia|lia|done|done|done|].
  assert (Hbit : forall j, 0 <= j -> key_bit st j = mask_bit mask j) by (intros j Hj; by apply mask32_bit).
  exists (mask64 (q_mask st')), (q_values st'), (if count_misses c then q_misses st' else 0).
  split; [|split; [apply mask64_ok|split; [|split]]].
  - simpl lt_find. unfold gpu_layer_find, gpu_find. rewrite Huvm. cbn [negb Z.eqb]. fold st. cbn [co_tags co_mem d_tags mem] in E.
    unfold hs in E. cbn [d_tags mem] in E. rewrite E. done.
  - intros j Hj. rewrite mask64_bit by lia. fold (key_bit st' j). rewrite Hb, Hbit, Hres by lia.
    rewrite (proj2 (Z.ltb_lt _ _)) by lia. f_equal. unfold has. simpl lt_row. by destruct (gpu_resident s (keys j)).
  - intros j Hj. specialize (Hr j). rewrite !Z.add_0_l, Hcfg in Hr. simpl lt_row_size. rewrite Hr, Hbit, Hres by lia.
    rewrite (proj2 (Z.leb_le _ _)), (proj2 (Z.ltb_lt _ _)) by lia. simpl lt_row.
    by destruct (gpu_resident s (keys j)), (mask_bit mask j).
  - simpl lt_counter_hits. simpl lt_counts. cbv iota. rewrite Hm. destruct (count_misses c); [|done]. simpl q_misses. rewrite Z.add_0_l.
    unfold count. f_equal. f_equal. apply filter_ext_in. intros j Hj%elem_of_seqZ. rewrite Hbit, Hres by lia. unfold has. simpl lt_row.
    destruct (gpu_resident s (keys j)), (mask_bit mask j); split; (by intros [? ?] || done || by intros ?).
Qed.
End GpuLayerTable.

(** ** The STL table *)

Definition stl_layer_find (t : stl_table) (n : Z) (keys mask : Z -> Z) (stride : Z) (values : memory) : outcome ((Z -> Z) * memory * Z) :=
  let! r := stl_find_op t n keys (Some mask) stride values 0 in
  Ok ((fun w => wrapu 64 (default mask r.1.1 w)), r.1.2, r.2).

Definition stl_layer_table (t : stl_table) : LayerTable := {|
  lt_device := -1; lt_row_size := max_value_size (base_config (st_config t)); lt_counter_hits := true; lt_counts := true;
  lt_row := stl_lookup (st_config t) (st_partitioner t) (st_parts t); lt_find := stl_layer_find t |}.

Lemma stl_layer_law t n keys stride :
  stl_table_ok t -> 0 < n -> max_value_size (base_config (st_config t)) <= stride -> find_law (stl_layer_table t) n keys stride.
Proof.
  intros Hok Hn Hst mask values Hm. pose proof Hok as (Hc & Hk & Hinv & Hms).
  set (s0 := {| f_mask := mask; f_values := values; f_sizes := fun _ => 0; f_meta := fun _ _ => 0; f_hits := 0 |}).
  destruct (find_returns (st_config t) (st_partitioner t) (st_log_parts t) (st_parts t) n keys stride true false 0
    0 s0 Hc Hk Hinv Hn Hst) as (s & E & Hspec); [|done|].
  { intros w. rewrite Hms. apply Hm. }
  destruct Hspec as [Hmask Hhits Hrows _]. rewrite Hms in Hmask. simpl Z.mul in Hmask.
  set (row := stl_lookup (st_config t) (st_partitioner t) (st_parts t)) in *.
  assert (Hnew : forall j, 0 <= j < n ->
    newhit (st_config t) (st_partitioner t) (st_parts t) n keys s0 j <-> mask_bit mask j = false /\ is_Some (row (keys j))).
  { intros j Hj. unfold newhit. rewrite Hms, stl_resident. unfold mask_bit. tauto. }
  exists (fun w => wrapu 64 (f_mask s w)), (f_values s), (f_hits s).
  split; [|split; [by intros w; apply wrapu_range|split; [|split]]].
  - simpl lt_find. unfold stl_layer_find, stl_find_op. simpl default. rewrite bool_decide_true by (by eexists). fold s0.
    rewrite E. done.
  - intros j Hj. pose proof (Z.mod_pos_bound j 64 ltac:(lia)). unfold mask_bit at 1, wrapu. rewrite Z.mod_pow2_bits_low by lia.
    unfold has. simpl lt_row. fold row. specialize (Hmask j Hj). rewrite stl_resident in Hmask. fold row in Hmask.
    change (Z.testbit (f_mask s0 (j / 64)) (j mod 64)) with (mask_bit mask j) in Hmask.
    apply eq_bool_prop_intro. rewrite !Is_true_true, orb_true_iff, bool_decide_eq_true. exact Hmask.
  - intros j Hj. simpl lt_row_size. simpl lt_row. fold row. rewrite (Hrows eq_refl j Hj). destruct (decide _) as [Hh|Hh].
    + destruct (proj1 (Hnew j Hj) Hh) as [Hb [r Er] ]. rewrite Er, Hb. destruct Hh as (_ & _ & [q Eq]). rewrite Eq.
      by eapply stl_row_found.
    + rewrite Hnew in Hh by done. destruct (row (keys j)) eqn:Er; [|done]. destruct (mask_bit mask j); [done|].
      destruct Hh. split; [done|by eexists].
  - simpl lt_counter_hits. cbv iota. rewrite Hhits. simpl f_hits. rewrite Z.add_0_l. unfold count. f_equal. f_equal.
    apply filter_ext_in. intros j Hj%elem_of_seqZ. rewrite Hnew by lia. unfold has. simpl lt_row. fold row.
    rewrite andb_true_iff, negb_true_iff, bool_decide_eq_true. done.
Qed.

(** ** A device cache in front of a host table *)

Section GpuOverStl.
Context {S : Type} `{CacheOps S} (K T : int_type) (c : GPUTableConfig).
Context (cfg : CacheConfig) (num_sets cache_base : Z) `{!CacheLaws S K T cfg num_sets cache_base (max_modify_size c)}.
Context (sort_pairs : list (Z * FindOutput) -> list (Z * FindOutput)) (cub_aux_bytes : Z) (warps gather_warps : Z -> list (Z * Z)).
Context (gather_flow_pipeline : Z -> (Z -> Z) -> Z -> Z -> S -> outcome memory).
Context (HK : 0 < width K) (HT : 0 < width T) (Hns : 0 < num_sets <= 2 ^ 32) (Hbase : 0 < cache_base) (Hslots : num_sets * NUM_WAYS <= 2 ^ 32).
Context (Hcfg : embed_width_in_bytes cfg = row_size_in_bytes c) (Huvm : uvm_table c = 0) (Hcount : count_misses c = true).
Context (n : Z) (keys : Z -> Z) (stride : Z) (Hrow : 0 < row_size_in_bytes c <= stride) (Hn : 0 < n < 2 ^ 31).
Context (Hwarps : warps n ≡ₚ grid n) (Hkeys : forall j, 0 <= j < n -> valid_key K T cfg num_sets (keys j)).
Context (t : stl_table) (Ht : stl_table_ok t) (default_embedding : list Z) (num_workers : Z) (Hworkers : 0 < num_workers).
Context (scatter_threads : Z -> list (Z * Z)) (Hfits : n * stride < 2 ^ 32) (Heven : (2 | row_size_in_bytes c)).
Context (Hscatter : launch_order 64 n scatter_threads).

Local Abbreviation gpu := (gpu_layer_table K c cfg num_sets cache_base sort_pairs cub_aux_bytes warps gather_warps gather_flow_pipeline).
Local Abbreviation stl_row := (stl_lookup (st_config t) (st_partitioner t) (st_parts t)).

(** C1. A cache on the device that counts its misses ([count_misses], without which the
    default embedding is never written, see [uncounted_misses_skip_default]), in front of an
    STL table, when both agree with the rows [val] of the application: a lookup of at least
    one key, whose output is below 4 GiB, returns and delivers [val] for every key either of
    them holds, wherever it is found, the default embedding for the others when one is
    configured, and marks exactly the keys that are held. *)
Theorem gpu_over_stl_lookup_correct (val : Z -> list Z) (s : S) (mask_loc : loc) (b : buffers) :
  hier_check [gpu val s; stl_layer_table t] default_embedding = Ok tt -> 0 <= device_id c ->
  cl_inv (K := K) (T := T) (cfg := cfg) (num_sets := num_sets) (cache_base := cache_base) (max := max_modify_size c) val s ->
  (forall k r, stl_row k = Some r -> r = val k) ->
  exists r, hier_lookup [gpu val s; stl_layer_table t] default_embedding n keys stride num_workers scatter_threads false mask_loc b = Ok r /\
    forall j, 0 <= j < n ->
      let held := gpu_resident K num_sets s (keys j) || bool_decide (is_Some (stl_row (keys j))) in
      mask_bit (h_mask r) j = held /\
      (held = true -> mem_read (h_output r) (j * stride) (row_size_in_bytes c) = val (keys j)) /\
      (held = false -> default_embedding <> [] -> mem_read (h_output r) (j * stride) (row_size_in_bytes c) = default_embedding).
Proof.
  intros Hcheck Hdev Hinv Hagree.
  assert (Hsize : max_value_size (base_config (st_config t)) = row_size_in_bytes c).
  { unfold hier_check in Hcheck. cbn [check_tables row_size gpu_layer_table stl_layer_table lt_row_size] in Hcheck.
    unfold on_device in Hcheck. cbn [lt_device gpu_layer_table stl_layer_table] in Hcheck.
    rewrite orb_true_r, Z.eqb_refl in Hcheck. cbn [obind negb orb Z.leb Z.compare] in Hcheck.
    by destruct (Z.eqb_spec (max_value_size (base_config (st_config t))) (row_size_in_bytes c)). }
  destruct (hier_lookup_lemma [gpu val s; stl_layer_table t] default_embedding n keys stride num_workers scatter_threads Hcheck)
    with (mask_loc := mask_loc) (b := b) as (r & E & Hrows & Hm & _).
  - constructor; [|constructor; [|done] ].
    + split; [|by intros _]. by apply (gpu_layer_law K T c cfg num_sets cache_base); try done || lia.
    + split; [|done]. apply stl_layer_law; [done|lia|lia].
  - lia.
  - done.
  - done.
  - intros _. unfold scatter_fits. cbn [row_size gpu_layer_table lt_row_size]. split_and!; try done || nia.
  - exists r. split; [done|]. intros j Hj held. specialize (Hrows j Hj). specialize (Hm j Hj). cbn [rows_of row_size gpu_layer_table stl_layer_table lt_row lt_row_size] in Hrows.
    assert (Eh : some_has [gpu val s; stl_layer_table t] (keys j) = held).
    { unfold some_has, has, held. simpl. rewrite orb_false_r. f_equal. by destruct (gpu_resident K num_sets s (keys j)). }
    rewrite Eh in Hm. split; [done|]. unfold held. destruct (gpu_resident K num_sets s (keys j)); [done|].
    destruct (stl_row (keys j)) as [v|] eqn:Ev.
    + rewrite bool_decide_true by done. split; [|done]. intros _. rewrite Hrows. by apply Hagree.
    + rewrite bool_decide_false by (by intros [? [=] ]). done.
Qed.
End GpuOverStl.

(** ** Examples *)

(** An empty device cache without rows in unified memory, with and without miss counter. *)
Definition demo_hier_gpu (counted : bool) : GPUTableConfig :=
  {| device_id := 0; cache_size := 4096; row_size_in_bytes := 4; uvm_table := 0; count_misses := counted;
     max_modify_size := 2; g_value_dtype := Float32; private_stream := false; disable_uvm_update := false; uvm_cpu_accumulate := true;
     data_storage_on_host := false; modify_on_gpu := false; kernel_mode_type := 0; kernel_mode_value := 0; g_invalid_key := -1 |}.
Definition demo_rows (k : Z) : list Z := if k =? 5 then [0; 1; 2; 3] else [9; 9; 9; 9].
Definition demo_device (counted : bool) : LayerTable :=
  @gpu_layer_table hm_state (demo_ops 2) int64_t (demo_hier_gpu counted) demo_gpu_cache 3 16 id 64 grid (fun _ => []) (fun _ _ _ _ _ => Throw "")
    demo_rows demo_empty.
(** Keys 5 and 7. *)
Definition demo_hier_keys (j : Z) : Z := if j =? 0 then 5 else 7.
Definition demo_scatter (w : Z) : list (Z * Z) := launch_threads w (64 / w) 2.
Definition demo_buffers : buffers := (Build_copies (fun _ => 77) (fun _ => 88) Dev, Build_copies (fun _ => -1) (fun _ => -1) Host).

Lemma demo_hier_inv : @cl_inv hm_state (demo_ops 2) int64_t int64_t demo_gpu_cache 3 16 2 demo_laws demo_rows demo_empty.
Proof. apply (clear_cache_inv int64_t int64_t demo_gpu_cache 3 16); try done; simpl; lia. Qed.

Lemma demo_device_law counted : find_law (demo_device counted) 2 demo_hier_keys 8.
Proof.
  apply (gpu_layer_law (S := hm_state) (H := demo_ops 2) int64_t int64_t (demo_hier_gpu counted) demo_gpu_cache 3 16 (CacheLaws0 := demo_laws));
    simpl; try done || lia.
  - intros j Hj. apply demo_gpu_valid. unfold demo_hier_keys. destruct (j =? 0); lia.
  - apply demo_hier_inv.
Qed.

Lemma demo_device_empty counted k : k = 5 \/ k = 7 -> lt_row (demo_device counted) k = None.
Proof. by intros [-> | ->]. Qed.

(** The STL table holds key 5. *)
Lemma demo_host_table :
  exists t, stl_table_ok t /\ st_config t = demo_stl /\
    forall k, stl_lookup (st_config t) (st_partitioner t) (st_parts t) k = if k =? 5 then Some [0; 1; 2; 3] else None.
Proof.
  destruct (check_facts demo_stl eq_refl) as (F1 & F2 & _).
  destruct (insert_table demo_stl Murmur3 1 id id (fun l => Permutation_refl l) (fun l => Permutation_refl l) F1 F2
    (spb_pos demo_stl ltac:(lia) ltac:(vm_compute; discriminate)) ltac:(lia) demo_parts [5] 4 0 demo_values 2
    StlTable.demo_table_inv eq_refl ltac:(lia)) as (parts' & E & I1 & _ & I2).
  exists {| st_config := demo_stl; st_partitioner := Murmur3; st_log_parts := 1; st_parts := parts' |}.
  split; [|split; [done|]].
  - split; [reflexivity|]. split; [simpl; lia|]. split; [exact I1|reflexivity].
  - intros k. cbn [st_config st_partitioner st_parts]. destruct (I2 k) as [_ I3]. rewrite I3; clear I2 I3 E I1.
    + change (batch_write [5] k) with (if decide (5 = k) then Some 0 else None).
      destruct (decide (5 = k)), (Z.eqb_spec k 5); try congruence; [reflexivity|]. unfold stl_lookup.
      destruct (Z.to_nat (part_of Murmur3 _ k)) as [|[|i] ]; reflexivity.
    + intros [|[|j] ] part Ej; [injection Ej as <-|injection Ej as <-|discriminate Ej]; vm_compute; discriminate.
Qed.

Lemma demo_hier_check t counted :
  st_config t = demo_stl -> hier_check [demo_device counted; stl_layer_table t] [1; 2; 3; 4] = Ok tt.
Proof. intros E. unfold hier_check, stl_layer_table. by rewrite E. Qed.

Lemma demo_scatter_fits t counted : scatter_fits [demo_device counted; stl_layer_table t] 2 8 demo_scatter.
Proof. unfold scatter_fits. split_and!; try (simpl; lia); [by exists 2|]. intros w Hw. reflexivity. Qed.

(** Key 5 is found on the host, key 7 nowhere. *)
Lemma hier_lookup_correct_witness :
  exists t r, hier_lookup [demo_device true; stl_layer_table t] [1; 2; 3; 4] 2 demo_hier_keys 8 3 demo_scatter false Host demo_buffers = Ok r /\
    mem_read (h_output r) 0 4 = [0; 1; 2; 3] /\ mem_read (h_output r) 8 4 = [1; 2; 3; 4] /\
    mask_bit (h_mask r) 0 = true /\ mask_bit (h_mask r) 1 = false.
Proof.
  destruct demo_host_table as (t & Hok & Ec & Hrow).
  destruct (hier_lookup_correct [demo_device true; stl_layer_table t] [1; 2; 3; 4] 2 demo_hier_keys 8 3 demo_scatter)
    with (mask_loc := Host) (b := demo_buffers) as (r & E & Hr & Hm & _).
  - by apply demo_hier_check.
  - constructor; [split; [apply demo_device_law|reflexivity]|constructor; [|constructor] ].
    split; [|discriminate]. apply stl_layer_law; [exact Hok|lia|rewrite Ec; simpl; lia].
  - lia.
  - simpl; lia.
  - lia.
  - intros _. apply demo_scatter_fits.
  - exists t, r. split; [exact E|].
    pose proof (Hr 0 ltac:(lia)) as R0. pose proof (Hr 1 ltac:(lia)) as R1. pose proof (Hm 0 ltac:(lia)) as M0. pose proof (Hm 1 ltac:(lia)) as M1.
    unfold some_has, has in M0, M1. cbn [existsb] in M0, M1.
    cbn [rows_of] in R0, R1. rewrite demo_device_empty in R0, R1, M0, M1 by (vm_compute; auto).
    cbn [stl_layer_table lt_row] in R0, R1, M0, M1. rewrite Hrow in R0, R1, M0, M1. simpl in R0, R1, M0, M1.
    split; [exact R0|]. split; [by apply R1|]. by split.
Defined.

Lemma gpu_over_stl_lookup_correct_witness :
  exists t r, hier_lookup [demo_device true; stl_layer_table t] [1; 2; 3; 4] 2 demo_hier_keys 8 3 demo_scatter false Dev demo_buffers = Ok r /\
    mem_read (h_output r) 0 4 = demo_rows 5 /\ mem_read (h_output r) 8 4 = [1; 2; 3; 4].
Proof.
  destruct demo_host_table as (t & Hok & Ec & Hrow).
  destruct (gpu_over_stl_lookup_correct (S := hm_state) (H := demo_ops 2) int64_t int64_t (demo_hier_gpu true) demo_gpu_cache 3 16
    (CacheLaws0 := demo_laws) id 64 grid (fun _ => []) (fun _ _ _ _ _ => Throw "")) with
    (n := 2) (keys := demo_hier_keys) (stride := 8) (t := t) (default_embedding := [1; 2; 3; 4]) (num_workers := 3) (scatter_threads := demo_scatter)
    (val := demo_rows) (s := demo_empty) (mask_loc := Dev) (b := demo_buffers) as (r & E & Hr).
  - reflexivity.
  - lia.
  - lia.
  - vm_compute; discriminate.
  - reflexivity.
  - reflexivity.
  - reflexivity.
  - simpl; lia.
  - lia.
  - reflexivity.
  - intros j Hj. apply demo_gpu_valid. unfold demo_hier_keys. destruct (j =? 0); lia.
  - exact Hok.
  - lia.
  - lia.
  - by exists 2.
  - intros w Hw. reflexivity.
  - by apply demo_hier_check.
  - simpl; lia.
  - apply demo_hier_inv.
  - intros k row. rewrite Hrow. unfold demo_rows. destruct (k =? 5); [congruence|discriminate].
  - exists t, r. split; [exact E|]. split.
    + destruct (Hr 0 ltac:(lia)) as (_ & H & _). apply H. by rewrite Hrow.
    + destruct (Hr 1 ltac:(lia)) as (_ & _ & H). apply H; [by rewrite Hrow|discriminate].
Defined.

Lemma uncounted_misses_skip_default_witness :
  exists t r, hier_lookup [demo_device false; stl_layer_table t] [1; 2; 3; 4] 2 demo_hier_keys 8 3 demo_scatter false Host demo_buffers = Ok r /\
    h_left_keys r = -1 /\ mem_read (h_output r) 8 4 = [88; 88; 88; 88].
Proof.
  destruct demo_host_table as (t & Hok & Ec & Hrow).
  destruct (uncounted_misses_skip_default (demo_device false) (stl_layer_table t) [1; 2; 3; 4] 2 demo_hier_keys 8 3 demo_scatter Host demo_buffers)
    as (r & E & Hl & Hr).
  - by apply demo_hier_check.
  - reflexivity.
  - reflexivity.
  - reflexivity.
  - reflexivity.
  - reflexivity.
  - apply demo_device_law.
  - apply stl_layer_law; [exact Hok|lia|rewrite Ec; simpl; lia].
  - lia.
  - simpl; lia.
  - apply demo_scatter_fits.
  - exists t, r. split; [exact E|]. split.
    + rewrite Hl. unfold count. cbn [seqZ]. change (seqZ 0 2) with [0; 1]. unfold has. rewrite !filter_cons.
      rewrite !demo_device_empty by (vm_compute; auto). cbn [stl_layer_table lt_row]. rewrite !Hrow. reflexivity.
    + apply (Hr 1 ltac:(lia)). cbn [rows_of]. rewrite demo_device_empty by (vm_compute; auto).
      cbn [stl_layer_table lt_row]. by rewrite Hrow.
Defined.
