(* ===== verification/HierModify.v ===== *)
(** * Modifying operations of the hierarchical layer: [src/hierarchical_embedding_layer.cu]

    [insert], [update], [accumulate], [clear] and [erase] call the operation of one table or
    of all tables in order. All but [insert] hold the lock of the table's automatic-insert
    handler ([AutoInsert]) around the call. *)
From S2P Require Import Prelude Float32 InsertHeuristic Buffers AutoInsert.

Section HierModify.
Context {T H : Type} `{InsertHeuristic H}.
(** The operation of a table: its outcome and the table it leaves, also when it throws. *)
Variable op : T -> outcome unit * T.

Definition slots : Type := list (T * handler H).

(** The loop over the tables; [None] when a lock is never granted. [locks] is whether the
    operation takes the locks. *)
Fixpoint modify_tables (locks : bool) (ts : slots) : option (outcome unit * slots) :=
  match ts with
  | [] => Some (Ok tt, [])
  | (t, h) :: ts =>
      match (if locks then lock_modify h else Some h) with
      | None => None
      | Some h1 =>
          match op t with
          | (Ok _, t') =>
              let h2 := if locks then unlock_modify h1 else h1 in
              (fun r => (r.1, (t', h2) :: r.2)) <$> modify_tables locks ts
          | (e, t') => Some (e, (t', h1) :: ts)
          end
      end
  end.

(** The tables [t_start] to [t_end]. *)
Definition modify_range (locks : bool) (table_id : Z) (ts : slots) : option (outcome unit * slots) :=
  if Z.of_nat (length ts) <=? table_id then Some (Throw "Invalid table_id", ts)
  else
    let t_start := if table_id <? 0 then 0%nat else Z.to_nat table_id in
    let t_end := if table_id <? 0 then length ts else Z.to_nat (table_id + 1) in
    (fun r => (r.1, take t_start ts ++ r.2 ++ drop t_end ts)) <$> modify_tables locks (take (t_end - t_start) (drop t_start ts)).

Definition hier_insert (num_keys keys_ptr table_id : Z) (ts : slots) : option (outcome unit * slots) :=
  if num_keys <? 1 then Some (Ok tt, ts)
  else if keys_ptr =? 0 then Some (Throw "Invalid Keys buffer", ts)
  else modify_range false table_id ts.

Definition hier_update (table_id : Z) (ts : slots) : option (outcome unit * slots) := modify_range true table_id ts.
Definition hier_accumulate (table_id : Z) (ts : slots) : option (outcome unit * slots) := modify_range true table_id ts.
Definition hier_clear (ts : slots) : option (outcome unit * slots) := modify_tables true ts.

Definition hier_erase (num_keys keys_ptr table_id : Z) (ts : slots) : option (outcome unit * slots) :=
  if num_keys <? 1 then Some (Ok tt, ts)
  else if keys_ptr =? 0 then Some (Throw "Invalid Keys buffer", ts)
  else modify_range true table_id ts.
End HierModify.

(** ** Lemmas *)

Section Lemmas.
Context {T H : Type}.
Local Abbreviation slots := (@slots T H).
Implicit Types (op : T -> outcome unit * T) (ts : slots) (h : handler H).

(** A handler whose lock is free, and what a modifying operation leaves of it. *)
Definition free (locks : bool) h : Prop := locks = true -> insert_lock_ h = false.
Definition released (locks : bool) h : handler H :=
  if locks then match heuristic_ h with
                | None => h
                | Some _ => with_counts (insert_freq_cnt_ h) 0 (collected_output_stride_ h) h
                end
  else h.

Lemma lock_release h : insert_lock_ h = false -> exists h1, lock_modify h = Some h1 /\ unlock_modify h1 = released true h.
Proof.
  intros Hl. unfold lock_modify, unlock_modify, released, lock, unlock. destruct (heuristic_ h) eqn:E.
  - rewrite Hl. simpl. eexists. split; [done|]. simpl. rewrite E. unfold with_lock, with_counts. simpl. by rewrite Hl.
  - exists h. by rewrite E.
Qed.

Lemma modify_one op locks t h ts :
  free locks h -> (op t).1 = Ok tt ->
  modify_tables op locks ((t, h) :: ts) = (fun r => (r.1, ((op t).2, released locks h) :: r.2)) <$> modify_tables op locks ts.
Proof.
  intros Hf Ho. cbn [modify_tables]. destruct (op t) as [r t']. simpl in Ho. subst r. destruct locks; [|done].
  destruct (lock_release h (Hf eq_refl)) as (h1 & -> & E). cbn [fst snd]. by rewrite E.
Qed.

Lemma modify_tables_app op locks ts ts' :
  Forall (fun x => free locks x.2 /\ (op x.1).1 = Ok tt) ts ->
  modify_tables op locks (ts ++ ts') =
    (fun r => (r.1, ((fun x => ((op x.1).2, released locks x.2)) <$> ts) ++ r.2)) <$> modify_tables op locks ts'.
Proof.
  induction 1 as [|[t h] ts [Hf Ho] _ IH]; [cbn [app fmap list_fmap]; by destruct (modify_tables op locks ts') as [ [? ?]|]|].
  rewrite <- app_comm_cons, modify_one by done. rewrite IH. by destruct (modify_tables op locks ts').
Qed.

(** The range selected by a table id. *)
Definition selected (table_id : Z) (ts pre mid post : slots) : Prop :=
  ts = pre ++ mid ++ post /\
  (table_id < 0 /\ pre = [] /\ post = [] \/ 0 <= table_id /\ Z.of_nat (length pre) = table_id /\ length mid = 1%nat).

Lemma modify_range_selected op locks table_id ts pre mid post :
  selected table_id ts pre mid post ->
  modify_range op locks table_id ts = (fun r => (r.1, pre ++ r.2 ++ post)) <$> modify_tables op locks mid.
Proof.
  intros [-> [(Hid & -> & ->)|(Hid & Hpre & Hmid)]]; unfold modify_range.
  - rewrite (proj2 (Z.leb_gt _ _)), (proj2 (Z.ltb_lt _ _)) by lia. cbn [app]. by rewrite app_nil_r, Nat.sub_0_r, drop_0, take_0, firstn_all, drop_all.
  - rewrite !length_app, Hmid, (proj2 (Z.leb_gt _ _)), (proj2 (Z.ltb_ge _ _)) by lia.
    replace (Z.to_nat table_id) with (length pre) by lia. replace (Z.to_nat (table_id + 1)) with (length pre + 1)%nat by lia.
    rewrite take_app_length, drop_app_length. replace (length pre + 1 - length pre)%nat with (length mid) by lia.
    rewrite take_app_length. rewrite drop_app_add, <- Hmid, drop_app_length. done.
Qed.
Definition modified op locks (x : T * handler H) : T * handler H := ((op x.1).2, released locks x.2).

(** C37. A modifying operation whose tables all succeed: every table of the range is
    operated on exactly once, in order, the others stay as they are, all locks are free
    again and the collections for automatic inserts of the tables in the range are
    dropped, except by [insert]; the ids from the number of tables on are rejected
    without any change. *)
Theorem hier_modify_correct op locks table_id ts :
  (Z.of_nat (length ts) <= table_id -> modify_range op locks table_id ts = Some (Throw "Invalid table_id", ts)) /\
  forall pre mid post, selected table_id ts pre mid post ->
    Forall (fun x => free locks x.2 /\ (op x.1).1 = Ok tt) mid ->
    modify_range op locks table_id ts = Some (Ok tt, pre ++ (modified op locks <$> mid) ++ post).
Proof.
  split.
  - intros Hid. unfold modify_range. by rewrite (proj2 (Z.leb_le _ _)).
  - intros pre mid post Hs Hm. rewrite (modify_range_selected op locks table_id ts pre mid post Hs).
    pose proof (modify_tables_app op locks mid [] Hm) as E. rewrite app_nil_r in E. rewrite E. simpl. by rewrite app_nil_r.
Qed.

(** When the operation of one table of the range throws, the exception reaches the
    caller, the tables before it keep the modification and those after it do not get it,
    and the lock of its handler is not released: every later modifying operation on that
    table waits forever, whatever it does. *)
Theorem hier_modify_failure op table_id ts pre mid t h rest post why x :
  selected table_id ts pre (mid ++ (t, h) :: rest) post ->
  Forall (fun x => free true x.2 /\ (op x.1).1 = Ok tt) mid ->
  insert_lock_ h = false -> heuristic_ h = Some x -> (op t).1 = Throw why ->
  exists h', modify_range op true table_id ts = Some (Throw why, pre ++ ((modified op true <$> mid) ++ ((op t).2, h') :: rest) ++ post) /\
    forall op', modify_range op' true (Z.of_nat (length pre + length mid))
      (pre ++ ((modified op true <$> mid) ++ ((op t).2, h') :: rest) ++ post) = None.
Proof.
  intros Hs Hm Hl Hx Ht. exists (with_lock true h). split.
  - rewrite (modify_range_selected op true table_id ts _ _ _ Hs), (modify_tables_app op true mid _ Hm). cbn [modify_tables].
    unfold lock_modify, lock. rewrite Hx, Hl. simpl. destruct (op t) as [r t']. simpl in Ht. by rewrite Ht.
  - intros op'. rewrite (modify_range_selected op' true _ _ (pre ++ (modified op true <$> mid)) [((op t).2, with_lock true h)] (rest ++ post)).
    + cbn [modify_tables]. unfold lock_modify, lock. simpl. by rewrite Hx.
    + split; [by rewrite <- !app_assoc|]. right. rewrite length_app, length_fmap. split; [lia|done].
Qed.
End Lemmas.

(** ** Examples *)

Module ModifyExamples.
Import AutoInsert.Examples.

(** A table is a number; incrementing 7 fails. *)
Definition demo_op (t : Z) : outcome unit * Z := if t =? 7 then (Throw "full", t) else (Ok tt, t + 1).
Definition demo_slots : @slots Z FSMInsertHeuristic.heur := [(1, collecting); (2, fresh_handler 2); (7, fresh_handler 2)].

Lemma hier_modify_correct_witness :
  modify_range demo_op true 0 demo_slots =
    Some (Ok tt, [(2, with_counts 0 0 2 collecting); (2, fresh_handler 2); (7, fresh_handler 2)]).
Proof.
  destruct (hier_modify_correct demo_op true 0 demo_slots) as [_ Hok].
  refine (Hok [] [(1, collecting)] [(2, fresh_handler 2); (7, fresh_handler 2)] _ _).
  - split; [reflexivity|]. right. split; [lia|]. split; reflexivity.
  - repeat constructor.
Defined.

(** The last of three tables throws: the first two are modified, the third stays locked. *)
Lemma hier_modify_failure_witness :
  exists h', modify_range demo_op true (-1) demo_slots =
      Some (Throw "full", [(2, with_counts 0 0 2 collecting); (3, fresh_handler 2); (7, h')]) /\
    forall op', modify_range op' true 2 [(2, with_counts 0 0 2 collecting); (3, fresh_handler 2); (7, h')] = None.
Proof.
  apply (hier_modify_failure demo_op (-1) demo_slots [] [(1, collecting); (2, fresh_handler 2)] 7 (fresh_handler 2) [] [] "full" fsm).
  - split; [reflexivity|]. left. split; [lia|]. split; reflexivity.
  - repeat constructor.
  - reflexivity.
  - reflexivity.
  - reflexivity.
Defined.
End ModifyExamples.
