(* ===== verification/LinearLayer.v ===== *)
(** * The linear layer on unified memory: [src/linear_embedding_layer.cu],
    [include/linear_embedding_layer.hpp]

    One GPU table over rows in unified memory with an automatic-insert handler. The layer is
    written against the operations of the table ([UvmTable]); [gpu_uvm_table] provides them
    from [GpuTable]. A table operation returns its outcome and the table it leaves. *)
From S2P Require Import Prelude Float32 EcHash SetAssoc HostModify CacheCoherence CacheQuery DataTypes InsertHeuristic Buffers AutoInsert Pooling HostLayer DeviceOps GpuTable HierModify.

(** What the layer uses of [GpuTable]. Keys and rows are given by their buffers. *)
Class UvmTable (T : Type) := {
  ut_row_size : Z;
  ut_value_dtype : DataType_t;
  ut_count_misses : bool;
  ut_find : Z -> Z -> Z -> Z -> T -> outcome unit * T;
  ut_find_and_combine : Z -> Z -> SparseType_t -> Z -> Z -> Z -> PoolingType_t -> Z -> Z -> Z -> T -> outcome unit * T;
  ut_reset_lookup_counter : T -> T;
  ut_get_lookup_counter : T -> Z;
  ut_copy : Z -> Z -> Z -> T -> T;
  ut_insert : Z -> Z -> Z -> Z -> Z -> T -> outcome unit * T;
  ut_update : Z -> Z -> Z -> Z -> Z -> T -> outcome unit * T;
  ut_update_accumulate : Z -> Z -> Z -> Z -> Z -> DataType_t -> T -> outcome unit * T;
  ut_clear : T -> outcome unit * T;
  ut_erase : Z -> Z -> T -> outcome unit * T
}.

(** [GpuTable] checks the size of updates and inserts before anything else. *)
Class UvmTableLaws (T : Type) `{UvmTable T} : Prop := {
  ut_update_size n keys stride size values t :
    values <> 0 -> size <> ut_row_size -> exists e t', ut_update n keys stride size values t = (Throw e, t');
  ut_insert_size n keys stride size values t :
    values <> 0 -> size <> ut_row_size -> exists e t', ut_insert n keys stride size values t = (Throw e, t')
}.

(** Pooling parameters; [lp_first_index] is [key_indices[0]] on the host. *)
Record linear_pooling := {
  lp_pooling_type : PoolingType_t; lp_sparse_type : SparseType_t; lp_key_indices : Z; lp_first_index : Z;
  lp_num_key_indices : Z; lp_sparse_weights : Z; lp_weight_type : DataType_t
}.

Section Linear.
Context {T H : Type} `{UvmTable T} `{InsertHeuristic H}.

(** The table and the handler. *)
Record linear_layer := { ll_table : T; ll_handler : handler H; ll_never_insert : bool }.
Definition with_table (s : linear_layer) (t : T) : linear_layer :=
  {| ll_table := t; ll_handler := ll_handler s; ll_never_insert := ll_never_insert s |}.
Definition with_handler (s : linear_layer) (h : handler H) : linear_layer :=
  {| ll_table := ll_table s; ll_handler := h; ll_never_insert := ll_never_insert s |}.

(** The constructor. *)
Definition ll_construct (table : option (T * bool)) (heuristic : H) (never : bool) (min_freq min_size key_size device : Z) (invalid_key : list Z)
  : outcome linear_layer :=
  match table with
  | None => Throw "Invalid GPU table"
  | Some (t, uvm) =>
      check! uvm as "GPU Table must be backed by a UVM buffer" in
      let! h := new_handler (Some heuristic) 0 min_freq min_size key_size device (Some invalid_key) in
      Ok {| ll_table := t; ll_handler := h; ll_never_insert := never |}
  end.

(** ** Lookups *)

(** The call of the automatic-insert handler ([AutoInsert.auto_insert]) on the staged keys and
    the output: hit rate, number of keys, stride. *)
Variable auto_insert_call : f32 -> Z -> Z -> handler H -> outcome unit * handler H.
(** Device buffer for a pointer: itself, or the scratch buffer of its name. *)
Variable device_buffer : string -> Z -> Z.

(** The lookup of the table, pooled or not. *)
Definition ll_find (num_keys keys output output_stride : Z) (pool : option linear_pooling) (t : T) : outcome unit * T :=
  match pool with
  | None => ut_find num_keys (device_buffer "keys" keys) output_stride (device_buffer "output" output) t
  | Some p =>
      if lp_key_indices p =? 0 then (Throw "Invalid buffer", t)
      else
        match lp_sparse_type p with
        | COO => (Throw "Unsupported pooling sparse type", t)
        | sparse =>
            let hotness := match sparse with CSR => 0 | _ => lp_first_index p end in
            if negb (lp_sparse_weights p =? 0) && negb (bool_decide (lp_weight_type p = ut_value_dtype))
            then (Throw "Pooling weight type differs from table data type", t)
            else
              match ut_value_dtype with
              | Float32 | Float16 =>
                  ut_find_and_combine num_keys (device_buffer "keys" keys) sparse (lp_num_key_indices p - 1)
                    (device_buffer "offsets" (lp_key_indices p)) hotness (lp_pooling_type p)
                    (if lp_sparse_weights p =? 0 then 0 else device_buffer "weights" (lp_sparse_weights p))
                    output_stride (device_buffer "output" output) t
              | _ => (Throw "Unsupported data type", t)
              end
        end
  end.

(** [1.f - (float(misses) / float(num_keys))]. *)
Definition hit_rate (misses num_keys : Z) : f32 := f32_sub f32_one (f32_ratio misses num_keys).

(** [lookup]: the hit rate when one was collected. *)
Definition ll_lookup (ctx_valid : bool) (num_keys keys output output_stride hitmask : Z) (pool : option linear_pooling) (hitrates : bool)
    (s : linear_layer) : outcome (option f32) * linear_layer :=
  if negb (0 <=? num_keys) then (Throw "Invalid num_keys", s)
  else if keys =? 0 then (Throw "Invalid keys buffer", s)
  else if output =? 0 then (Throw "Invalid output buffer", s)
  else if negb (hitmask =? 0) then (Throw "Hitmask is not supported for the UVM layer", s)
  else if negb ctx_valid then (Throw "Invalid layer context", s)
  else
    let collect_misses := hitrates || negb (ll_never_insert s) in
    if collect_misses && negb ut_count_misses then (Throw "GPU table was not configured to report hit counts", s)
    else
      let t0 := if collect_misses then ut_reset_lookup_counter (ll_table s) else ll_table s in
      match ll_find num_keys keys output output_stride pool t0 with
      | (Throw e, t) => (Throw e, with_table s t)
      | (Undef e, t) => (Undef e, with_table s t)
      | (Ok _, t) =>
          let d_output := device_buffer "output" output in
          let t := if output =? d_output then t else ut_copy output d_output (num_keys * output_stride) t in
          let s := with_table s t in
          if negb collect_misses then (Ok None, s)
          else
            let hitrate := hit_rate (ut_get_lookup_counter t) num_keys in
            match pool with
            | Some _ => (Ok (Some hitrate), s)
            | None =>
                let r := auto_insert_call hitrate num_keys output_stride (ll_handler s) in
                (let! _ := r.1 in Ok (Some hitrate), with_handler s r.2)
            end
      end.

(** ** Modifications *)

(** The checks of the operations that take rows; [value_size] is compared with the size of a
    row, [table_id] with the number of tables. *)
Definition row_checks (ctx_valid : bool) (num_keys keys value_size values table_id : Z) : outcome unit :=
  check! 0 <=? num_keys as "Invalid num_keys" in
  check! negb (keys =? 0) as "Invalid keys buffer" in
  check! negb (values =? 0) as "Invalid values buffer" in
  check! value_size =? ut_row_size as "Invalid value size" in
  check! table_id <? 1 as "Invalid table_id" in
  check! ctx_valid as "Invalid layer context" in
  Ok tt.

(** [insert], whose check of the table id comes first; it takes no lock. *)
Definition ll_insert (ctx_valid : bool) (num_keys keys value_stride value_size values table_id : Z) (s : linear_layer) : outcome unit * linear_layer :=
  if negb (table_id <? 1) then (Throw "Invalid table_id", s)
  else match row_checks ctx_valid num_keys keys value_size values table_id with
       | Ok _ => let r := ut_insert num_keys keys value_stride value_stride values (ll_table s) in (r.1, with_table s r.2)
       | Throw e => (Throw e, s)
       | Undef e => (Undef e, s)
       end.

(** [lock_modify], the operation, [unlock_modify], with no guard: [None] when the lock is
    never granted. *)
Definition locked_operation (op : T -> outcome unit * T) (s : linear_layer) : option (outcome unit * linear_layer) :=
  match lock_modify (ll_handler s) with
  | None => None
  | Some h =>
      let s := with_handler s h in
      match op (ll_table s) with
      | (Ok _, t) => Some (Ok tt, with_handler (with_table s t) (unlock_modify h))
      | (e, t) => Some (e, with_table s t)
      end
  end.

(** The stride is handed to the table for the size of the rows as well. *)
Definition ll_update (ctx_valid : bool) (num_keys keys value_stride value_size values table_id : Z) (s : linear_layer)
  : option (outcome unit * linear_layer) :=
  match row_checks ctx_valid num_keys keys value_size values table_id with
  | Ok _ => locked_operation (ut_update num_keys keys value_stride value_stride values) s
  | e => Some (e, s)
  end.
Definition ll_accumulate (ctx_valid : bool) (num_keys keys value_stride value_size values : Z) (value_type : DataType_t) (table_id : Z)
    (s : linear_layer) : option (outcome unit * linear_layer) :=
  match row_checks ctx_valid num_keys keys value_size values table_id with
  | Ok _ => locked_operation (ut_update_accumulate num_keys keys value_stride value_stride values value_type) s
  | e => Some (e, s)
  end.
Definition ll_clear (ctx_valid : bool) (s : linear_layer) : option (outcome unit * linear_layer) :=
  if negb ctx_valid then Some (Throw "Invalid layer context", s) else locked_operation ut_clear s.
Definition ll_erase (ctx_valid : bool) (num_keys keys table_id : Z) (s : linear_layer) : option (outcome unit * linear_layer) :=
  if negb (table_id <? 1) then Some (Throw "Invalid table_id", s)
  else if negb (0 <=? num_keys) then Some (Throw "Invalid num_keys", s)
  else if keys =? 0 then Some (Throw "Invalid keys buffer", s)
  else if negb ctx_valid then Some (Throw "Invalid layer context", s)
  else locked_operation (ut_erase num_keys keys) s.

(** ** Theorems *)

Lemma row_checks_Ok num_keys keys size values table_id :
  0 <= num_keys -> keys <> 0 -> values <> 0 -> size = ut_row_size -> table_id < 1 ->
  row_checks true num_keys keys size values table_id = Ok tt.
Proof.
  intros. unfold row_checks. rewrite (proj2 (Z.leb_le _ _)), (proj2 (Z.eqb_neq keys 0)), (proj2 (Z.eqb_neq values 0)) by lia.
  by rewrite (proj2 (Z.eqb_eq _ _)), (proj2 (Z.ltb_lt _ _)).
Qed.

(** An operation that succeeds leaves the lock free and drops the collected keys. *)
Lemma locked_operation_Ok op (s : linear_layer) t :
  insert_lock_ (ll_handler s) = false -> op (ll_table s) = (Ok tt, t) ->
  locked_operation op s = Some (Ok tt, with_handler (with_table s t) (released true (ll_handler s))).
Proof.
  intros Hl Ho. unfold locked_operation. destruct (lock_release (ll_handler s) Hl) as (h & E & Eu). rewrite E. simpl. rewrite Ho. by rewrite Eu.
Qed.

Lemma locked_operation_stuck op (s : linear_layer) x :
  insert_lock_ (ll_handler s) = true -> heuristic_ (ll_handler s) = Some x -> locked_operation op s = None.
Proof. intros Hl Hh. unfold locked_operation, lock_modify, lock. by rewrite Hh, Hl. Qed.

(** While the lock is held every modification that passes the checks waits forever. *)
Lemma held_lock_blocks (s : linear_layer) (x : H) :
  insert_lock_ (ll_handler s) = true -> heuristic_ (ll_handler s) = Some x ->
  forall n ks st v id, 0 <= n -> ks <> 0 -> v <> 0 -> id < 1 ->
    ll_update true n ks st ut_row_size v id s = None /\
    (forall ty, ll_accumulate true n ks st ut_row_size v ty id s = None) /\
    ll_clear true s = None /\ ll_erase true n ks id s = None.
Proof.
  intros Hl Hh n ks st v id Hn Hk Hv Hid.
  assert (Hstuck : forall op, locked_operation op s = None) by (intros op; by apply (locked_operation_stuck op _ x)).
  unfold ll_update, ll_accumulate, ll_clear, ll_erase. rewrite !row_checks_Ok by done. split_and!; [apply Hstuck|intros; apply Hstuck|apply Hstuck|].
  rewrite (proj2 (Z.ltb_lt id 1)), (proj2 (Z.leb_le 0 n)), (proj2 (Z.eqb_neq ks 0)) by lia. simpl. apply Hstuck.
Qed.

(** An operation that throws leaves the lock held. *)
Lemma locked_operation_throws op (s : linear_layer) (x : H) e t :
  insert_lock_ (ll_handler s) = false -> heuristic_ (ll_handler s) = Some x -> op (ll_table s) = (Throw e, t) ->
  locked_operation op s = Some (Throw e, with_table (with_handler s (with_lock true (ll_handler s))) t).
Proof. intros Hl Hh Ho. unfold locked_operation, lock_modify, lock. rewrite Hh, Hl. simpl. by rewrite Ho. Qed.

(** C40. An update with a stride other than the size of a row, which the checks of the layer
    admit, blocks the layer for good: the table, which is given the stride for the size, throws
    while the lock of the automatic-insert handler is held; every later update, accumulation,
    clear and erasure that passes the checks waits forever. *)
Theorem linear_strided_update_deadlocks `{!UvmTableLaws T} (num_keys keys stride values table_id : Z) (s : linear_layer) (x : H) :
  0 <= num_keys -> keys <> 0 -> values <> 0 -> table_id < 1 -> stride <> ut_row_size ->
  insert_lock_ (ll_handler s) = false -> heuristic_ (ll_handler s) = Some x ->
  exists e s', ll_update true num_keys keys stride ut_row_size values table_id s = Some (Throw e, s') /\
    (forall n ks st v id, 0 <= n -> ks <> 0 -> v <> 0 -> id < 1 ->
       ll_update true n ks st ut_row_size v id s' = None /\
       (forall ty, ll_accumulate true n ks st ut_row_size v ty id s' = None) /\
       ll_clear true s' = None /\ ll_erase true n ks id s' = None).
Proof.
  intros Hn Hk Hv Hid Hst Hl Hh. destruct (ut_update_size num_keys keys stride stride values (ll_table s) Hv Hst) as (e & t' & Ee).
  exists e, (with_table (with_handler s (with_lock true (ll_handler s))) t'). split.
  - unfold ll_update. rewrite row_checks_Ok by done. by apply (locked_operation_throws _ s x).
  - by apply (held_lock_blocks _ x).
Qed.

(** A lookup without pooling that finds its rows: the output is the table's, copied back when
    it was staged; when misses are counted the hit rate is their share of the keys and the
    handler sees it. *)
Lemma linear_lookup_rows num_keys keys output stride hitrates (s : linear_layer) t :
  0 <= num_keys -> keys <> 0 -> output <> 0 -> (hitrates || negb (ll_never_insert s) = true -> ut_count_misses = true) ->
  ut_find num_keys (device_buffer "keys" keys) stride (device_buffer "output" output)
    (if hitrates || negb (ll_never_insert s) then ut_reset_lookup_counter (ll_table s) else ll_table s) = (Ok tt, t) ->
  let t' := if output =? device_buffer "output" output then t else ut_copy output (device_buffer "output" output) (num_keys * stride) t in
  let rate := hit_rate (ut_get_lookup_counter t') num_keys in
  ll_lookup true num_keys keys output stride 0 None hitrates s =
    if hitrates || negb (ll_never_insert s)
    then let r := auto_insert_call rate num_keys stride (ll_handler s) in
         (let! _ := r.1 in Ok (Some rate), with_handler (with_table s t') r.2)
    else (Ok None, with_table s t').
Proof.
  intros Hn Hk Ho Hc Hf t' rate. unfold ll_lookup.
  rewrite (proj2 (Z.leb_le 0 num_keys)), (proj2 (Z.eqb_neq keys 0)), (proj2 (Z.eqb_neq output 0)) by lia. simpl.
  destruct (hitrates || negb (ll_never_insert s)) eqn:E; simpl.
  - rewrite Hc by done. simpl. rewrite Hf. done.
  - rewrite Hf. done.
Qed.
End Linear.
Arguments linear_layer T H : clear implicits.

(** ** The GPU table as the table of the layer *)

(** The cache with its memory, the memory of the outputs, the hit mask and the miss counter. *)
Record uvm_state (S : Type) := { us_cache : S; us_values : memory; us_mask : Z -> Z; us_misses : Z }.
Arguments us_cache {S}. Arguments us_values {S}. Arguments us_mask {S}. Arguments us_misses {S}.
Arguments Build_uvm_state {S}.

Section GpuUvm.
Context {S : Type} `{CacheOps S} (K T : int_type) (c : GPUTableConfig).
Context (cfg : CacheConfig) (num_sets cache_base : Z).
Context (sort : insert_env) (sort_pairs : list (Z * FindOutput) -> list (Z * FindOutput)) (cub_aux_bytes : Z).
Context (warps gather_warps : Z -> list (Z * Z)) (update_threads : Z -> Z -> list (Z * Z)).
Context (gather_flow_pipeline : Z -> (Z -> Z) -> Z -> Z -> S -> outcome memory).
(** Element [i] of a buffer of keys; what an operation that throws leaves; the pooled lookup
    ([FindAndCombine]) and the accumulation ([GpuAccumulate]) of the table. *)
Context (keys_at : Z -> Z -> Z) (after_failure : S -> S).
Context (combine : Z -> Z -> SparseType_t -> Z -> Z -> Z -> PoolingType_t -> Z -> Z -> Z -> uvm_state S -> outcome unit * uvm_state S).
Context (accumulate : list Z -> Z -> Z -> Z -> DataType_t -> S -> outcome S).
Local Abbreviation row := (row_size_in_bytes c).

Definition keys_list (p n : Z) : list Z := keys_at p <$> seqZ 0 n.
Definition with_cache (t : uvm_state S) (s : S) : uvm_state S :=
  {| us_cache := s; us_values := us_values t; us_mask := us_mask t; us_misses := us_misses t |}.
Definition on_cache (f : S -> outcome S) (t : uvm_state S) : outcome unit * uvm_state S :=
  match f (us_cache t) with
  | Ok s => (Ok tt, with_cache t s)
  | Throw e => (Throw e, with_cache t (after_failure (us_cache t)))
  | Undef e => (Undef e, with_cache t (after_failure (us_cache t)))
  end.

#[global] Instance gpu_uvm_table : UvmTable (uvm_state S) := {
  ut_row_size := row;
  ut_value_dtype := g_value_dtype c;
  ut_count_misses := count_misses c;
  ut_find n keys stride out t :=
    match gpu_find K c cfg num_sets cache_base sort_pairs cub_aux_bytes (warps n) (gather_warps n) gather_flow_pipeline
            n (keys_at keys) false out stride (us_cache t) {| q_mask := us_mask t; q_values := us_values t; q_misses := us_misses t |} with
    | Ok q => (Ok tt, {| us_cache := us_cache t; us_values := q_values q; us_mask := q_mask q; us_misses := q_misses q |})
    | Throw e => (Throw e, t)
    | Undef e => (Undef e, t)
    end;
  ut_find_and_combine := combine;
  ut_reset_lookup_counter t := {| us_cache := us_cache t; us_values := us_values t; us_mask := us_mask t; us_misses := 0 |};
  ut_get_lookup_counter := us_misses;
  ut_copy dst src n t := {| us_cache := us_cache t; us_values := memcpy dst src n (us_values t); us_mask := us_mask t; us_misses := us_misses t |};
  ut_insert n keys stride size values := on_cache (gpu_insert c sort (keys_list keys n) stride size values);
  ut_update n keys stride size values := on_cache (gpu_update K c (update_threads n) (keys_list keys n) stride size values);
  ut_update_accumulate n keys stride size values ty := on_cache (accumulate (keys_list keys n) stride size values ty);
  ut_clear := on_cache gpu_clear;
  ut_erase n keys := on_cache (gpu_erase (if keys =? 0 then None else Some (keys_list keys n)))
}.

#[global] Instance gpu_uvm_laws : UvmTableLaws (uvm_state S).
Proof.
  split; intros n keys stride size values t Hv Hs; simpl in *; unfold on_cache, gpu_update, gpu_insert;
    rewrite (proj2 (Z.eqb_neq values 0)), (proj2 (Z.eqb_neq size row)) by done; simpl; eauto.
Qed.
End GpuUvm.

(** ** The layer over the GPU table *)

Section Coherent.
Context {S H : Type} `{CacheOps S} `{InsertHeuristic H} (K T : int_type) (c : GPUTableConfig).
Context (cfg : CacheConfig) (num_sets cache_base : Z) `{!CacheLaws S K T cfg num_sets cache_base (max_modify_size c)}.
Context (sort : insert_env) (sort_pairs : list (Z * FindOutput) -> list (Z * FindOutput)) (cub_aux_bytes : Z).
Context (warps gather_warps : Z -> list (Z * Z)) (update_threads : Z -> Z -> list (Z * Z)).
Context (gather_flow_pipeline : Z -> (Z -> Z) -> Z -> Z -> S -> outcome memory).
Context (keys_at : Z -> Z -> Z) (after_failure : S -> S).
Context (combine : Z -> Z -> SparseType_t -> Z -> Z -> Z -> PoolingType_t -> Z -> Z -> Z -> uvm_state S -> outcome unit * uvm_state S).
Context (accumulate : list Z -> Z -> Z -> Z -> DataType_t -> S -> outcome S).
Context (auto_insert_call : f32 -> Z -> Z -> handler H -> outcome unit * handler H) (device_buffer : string -> Z -> Z).
Local Abbreviation row := (row_size_in_bytes c).
Local Instance the_table : UvmTable (uvm_state S) :=
  gpu_uvm_table K c cfg num_sets cache_base sort sort_pairs cub_aux_bytes warps gather_warps update_threads gather_flow_pipeline
    keys_at after_failure combine accumulate.

Context (HK : 0 < width K) (Hns : 0 < num_sets <= 2 ^ 32) (Hbase : 0 < cache_base) (Hslots : num_sets * NUM_WAYS <= 2 ^ 32).
Context (Hcfg : embed_width_in_bytes cfg = row) (Hrow : 0 < row < 2 ^ 32) (Heven : (2 | row)).
Context (Hpairs : forall l, sort_pairs l ≡ₚ l) (Hmax : 1 <= max_modify_size c).
Context (num_rows : Z) (Huvm : 0 < uvm_table c) (Hend : uvm_table c + num_rows * row < 2 ^ 64).
Context (Hapart : forall a, uvm_table c <= a < uvm_table c + num_rows * row -> ~ cache_region cfg num_sets cache_base a).
Context (Hk32 : width K <= 32 -> num_rows * row < 2 ^ 32).
Context (Hvalid : forall k, 0 <= k < num_rows -> valid_key K T cfg num_sets k).
Local Abbreviation inv := (table_inv K T c cfg num_sets cache_base num_rows).

(** An update whose stride is the size of a row. *)
Lemma linear_update_lemma val val' num_keys keys values table_id (l : linear_layer (uvm_state S) H) :
  inv val (us_cache (ll_table l)) -> insert_lock_ (ll_handler l) = false -> keys <> 0 -> 0 < values -> table_id < 1 ->
  rows_given c cfg num_sets cache_base num_rows val' (keys_list keys_at keys num_keys) values row (us_cache (ll_table l)) ->
  (forall k, k ∉ keys_list keys_at keys num_keys -> val' k = val k) -> disable_uvm_update c = false ->
  launch_order 32 num_keys (update_threads num_keys) -> 0 < num_keys < 2 ^ 31 -> num_keys * row < 2 ^ 32 ->
  exists l', ll_update true num_keys keys row row values table_id l = Some (Ok tt, l') /\
    inv val' (us_cache (ll_table l')) /\ insert_lock_ (ll_handler l') = false /\ us_values (ll_table l') = us_values (ll_table l) /\
    ll_never_insert l' = ll_never_insert l.
Proof.
  intros Hinv Hl Hk Hv Hid Hr Hvv Hen Ho Hn Hfit.
  assert (Elen : Z.of_nat (length (keys_list keys_at keys num_keys)) = num_keys) by (unfold keys_list; rewrite length_fmap, length_seqZ; lia).
  destruct (gpu_update_lemma K T c cfg num_sets cache_base Hns Hslots Hcfg Hrow Heven Hmax num_rows Huvm Hapart Hk32 Hvalid
              (update_threads num_keys) val val' (keys_list keys_at keys num_keys) row values (us_cache (ll_table l)))
    as (s' & E & Hi); rewrite ?Elen; [|done|done|done|done|done|done|lia|lia|lia|].
  { intros E0. rewrite E0 in Elen. simpl in Elen. lia. }
  set (t' := with_cache (ll_table l) s').
  exists (with_handler (with_table l t') (released true (ll_handler l))). split_and!; [|done| |done|done].
  - unfold ll_update. rewrite row_checks_Ok by (done || lia). apply locked_operation_Ok; [done|].
    simpl. unfold on_cache. by rewrite E.
  - simpl. unfold released. by destruct (heuristic_ (ll_handler l)).
Qed.

(** A lookup without pooling. *)
Lemma linear_lookup_lemma val num_keys keys output stride hitrates mode (l : linear_layer (uvm_state S) H) :
  inv val (us_cache (ll_table l)) -> keys <> 0 -> output <> 0 -> row <= stride ->
  (hitrates || negb (ll_never_insert l) = true -> count_misses c = true) ->
  get_kernel_mode c num_keys = Ok mode -> launch_ok c mode num_keys stride (gather_warps num_keys) ->
  0 <= num_keys < 2 ^ 32 - 128 -> warps num_keys ≡ₚ grid num_keys ->
  (forall j, 0 <= j < num_keys -> 0 <= keys_at (device_buffer "keys" keys) j < num_rows) ->
  let r := ll_lookup auto_insert_call device_buffer true num_keys keys output stride 0 None hitrates l in
  us_cache (ll_table r.2) = us_cache (ll_table l) /\
  forall j, 0 <= j < num_keys ->
    mem_read (us_values (ll_table r.2)) (output + j * stride) row = val (keys_at (device_buffer "keys" keys) j).
Proof.
  intros Hinv Hk Ho Hs Hc Hmode Hla Hn Hw Hkeys.
  set (t0 := if hitrates || negb (ll_never_insert l) then ut_reset_lookup_counter (ll_table l) else ll_table l).
  assert (Et0 : us_cache t0 = us_cache (ll_table l)) by (unfold t0; by destruct (hitrates || _)).
  destruct (gpu_find_lemma K T c cfg num_sets cache_base sort_pairs cub_aux_bytes gather_flow_pipeline HK Hns Hbase Hslots Hcfg Hrow Hpairs
              num_rows Huvm Hend Hvalid (warps num_keys) (gather_warps num_keys) val num_keys (keys_at (device_buffer "keys" keys))
              (device_buffer "output" output) stride (us_cache t0) {| q_mask := us_mask t0; q_values := us_values t0; q_misses := us_misses t0 |} mode)
    as (q & E & _ & Hrows); [by rewrite Et0|done..|].
  set (t := {| us_cache := us_cache t0; us_values := q_values q; us_mask := q_mask q; us_misses := q_misses q |}).
  assert (Ef : ut_find num_keys (device_buffer "keys" keys) stride (device_buffer "output" output) t0 = (Ok tt, t)) by (simpl; by rewrite E).
  rewrite (linear_lookup_rows auto_insert_call device_buffer num_keys keys output stride hitrates l t) by (done || lia).
  set (t' := if output =? device_buffer "output" output then t else ut_copy output (device_buffer "output" output) (num_keys * stride) t).
  assert (Hres : us_cache t' = us_cache (ll_table l) /\ forall j, 0 <= j < num_keys ->
            mem_read (us_values t') (output + j * stride) row = val (keys_at (device_buffer "keys" keys) j)).
  { split; [unfold t'; by destruct (output =? _)|]. intros j Hj. specialize (Hrows j).
    rewrite (proj2 (Z.leb_le 0 j)), (proj2 (Z.ltb_lt j num_keys)) in Hrows by lia. simpl in Hrows. rewrite <- Hrows.
    unfold t'. destruct (Z.eqb_spec output (device_buffer "output" output)) as [Eo|Hne]; [by rewrite <- Eo|]. simpl.
    apply list_eq. intros p. unfold mem_read. rewrite !list_lookup_fmap. destruct (decide (Z.of_nat p < row)).
    - rewrite !lookup_seqZ_lt by lia. simpl. f_equal. unfold memcpy.
      rewrite (proj2 (Z.leb_le _ _)), (proj2 (Z.ltb_lt _ _)) by nia. simpl. f_equal. lia.
    - by rewrite !lookup_seqZ_ge by lia. }
  by destruct (hitrates || negb (ll_never_insert l)).
Qed.

(** C21. The linear layer serves the updated rows: an update of at least one key through the
    layer whose stride is the size of a row returns, leaves the lock of the handler free and
    drops nothing of the table; a lookup after it delivers for every key the row of the
    application, the new one for the updated keys, in the caller's buffer, staged or not, and
    leaves the cache as it was, for any cache that keeps its promises, when the table chooses
    the lookup kernel, or the sort-and-gather kernels with a stride of the row size
    ([launch_ok]; the pipeline kernel is not covered). *)
Theorem linear_update_then_lookup val val' num_keys keys values table_id n ks output stride hitrates mode (l : linear_layer (uvm_state S) H) :
  inv val (us_cache (ll_table l)) -> insert_lock_ (ll_handler l) = false -> keys <> 0 -> 0 < values -> table_id < 1 ->
  rows_given c cfg num_sets cache_base num_rows val' (keys_list keys_at keys num_keys) values row (us_cache (ll_table l)) ->
  (forall k, k ∉ keys_list keys_at keys num_keys -> val' k = val k) -> disable_uvm_update c = false ->
  launch_order 32 num_keys (update_threads num_keys) -> 0 < num_keys < 2 ^ 31 -> num_keys * row < 2 ^ 32 ->
  ks <> 0 -> output <> 0 -> row <= stride -> (hitrates || negb (ll_never_insert l) = true -> count_misses c = true) ->
  get_kernel_mode c n = Ok mode -> launch_ok c mode n stride (gather_warps n) -> 0 <= n < 2 ^ 32 - 128 -> warps n ≡ₚ grid n ->
  (forall j, 0 <= j < n -> 0 <= keys_at (device_buffer "keys" ks) j < num_rows) ->
  exists l', ll_update true num_keys keys row row values table_id l = Some (Ok tt, l') /\ insert_lock_ (ll_handler l') = false /\
    let r := ll_lookup auto_insert_call device_buffer true n ks output stride 0 None hitrates l' in
    us_cache (ll_table r.2) = us_cache (ll_table l') /\
    forall j, 0 <= j < n -> mem_read (us_values (ll_table r.2)) (output + j * stride) row = val' (keys_at (device_buffer "keys" ks) j).
Proof.
  intros Hinv Hl Hk Hv Hid Hr Hvv Hen Ho Hn Hfit Hks Hout Hs Hc Hmode Hla Hnn Hw Hkeys.
  destruct (linear_update_lemma val val' num_keys keys values table_id l) as (l' & E & Hi & Hl' & _ & Hnv); [done..|].
  exists l'. split; [done|]. split; [done|]. eapply linear_lookup_lemma; rewrite ?Hnv; done.
Qed.

(** An update of no key, which the checks of the layer admit, blocks the layer for good: the
    table launches its kernel without a block and throws while the lock of the
    automatic-insert handler is held. *)
Theorem linear_empty_update_deadlocks keys values table_id (l : linear_layer (uvm_state S) H) (x : H) :
  keys <> 0 -> 0 < values -> table_id < 1 -> disable_uvm_update c = false ->
  insert_lock_ (ll_handler l) = false -> heuristic_ (ll_handler l) = Some x ->
  exists l', ll_update true 0 keys row row values table_id l = Some (Throw "invalid configuration argument", l') /\
    (forall n ks st v id, 0 <= n -> ks <> 0 -> v <> 0 -> id < 1 ->
       ll_update true n ks st row v id l' = None /\
       (forall ty, ll_accumulate true n ks st row v ty id l' = None) /\
       ll_clear true l' = None /\ ll_erase true n ks id l' = None).
Proof using Hrow Heven Huvm.
  intros Hk Hv Hid Hen Hl Hh. eexists. split.
  - unfold ll_update. rewrite row_checks_Ok by (done || lia). apply (locked_operation_throws _ l x); [done..|].
    simpl. unfold on_cache, keys_list. change (seqZ 0 0) with (@nil Z). rewrite fmap_nil.
    by rewrite (gpu_update_zero K c Hrow Heven Huvm) by done.
  - intros n ks st v id P1 P2 P3 P4.
    exact (held_lock_blocks (with_table (with_handler l (with_lock true (ll_handler l))) _) x eq_refl Hh n ks st v id P1 P2 P3 P4).
Qed.
End Coherent.

(** ** Examples *)

Definition demo_handler : handler unit :=
  {| insert_lock_ := false; heuristic_ := Some tt; table_id_ := 0; min_insert_wait_ := 0; min_insert_size_ := 4; key_size_ := 8;
     invalid_key_bytes_ := repeat 255 8; insert_freq_cnt_ := 0; collected_keys_ := 0; collected_output_stride_ := 0;
     insert_keys_ := new_buffer true; insert_data_ := new_buffer true; submitted := None |}.
Definition demo_linear : linear_layer (uvm_state hm_state) unit :=
  {| ll_table := {| us_cache := demo_empty; us_values := fun _ => 0; us_mask := fun _ => 0; us_misses := 0 |};
     ll_handler := demo_handler; ll_never_insert := false |}.
(** Keys 5, 9, 11 at address 50, key 11 and 7 at 60; the output at 9000 is staged at 3000. *)
Definition demo_keys_at (p j : Z) : Z :=
  if p =? 50 then default 0 ([5; 9; 11] !! Z.to_nat j) else if j =? 0 then 11 else 7.
Definition demo_device_buffer (name : string) (p : Z) : Z := if p =? 9000 then 3000 else p.
Definition demo_auto_insert (rate : f32) (n stride : Z) (h : handler unit) : outcome unit * handler unit := (Ok tt, h).
#[local] Instance demo_uvm : UvmTable (uvm_state hm_state) :=
  gpu_uvm_table (H := demo_ops 2) int64_t (demo_gpu 2) demo_gpu_cache 3 16 demo_insert_env id 64 (fun n => reverse (grid n)) (fun _ => []) demo_threads
    (fun _ _ _ _ _ => Throw "") demo_keys_at id (fun _ _ _ _ _ _ _ _ _ _ t => (Throw "", t)) (fun _ _ _ _ _ s => Ok s).

Lemma linear_update_then_lookup_witness :
  exists l', ll_update true 3 50 4 4 2000 0 demo_linear = Some (Ok tt, l') /\
    let r := ll_lookup demo_auto_insert demo_device_buffer true 2 60 9000 8 0 None true l' in
    mem_read (us_values (ll_table r.2)) 9000 4 = mem_read (mem demo_state) 2008 4 /\
    mem_read (us_values (ll_table r.2)) 9008 4 = demo_val 7.
Proof.
  destruct (linear_update_then_lookup (S := hm_state) (H0 := demo_ops 2) int64_t int64_t (demo_gpu 2) demo_gpu_cache 3 16 (CacheLaws0 := demo_laws)
    demo_insert_env id 64 (fun n => reverse (grid n)) (fun _ => []) demo_threads (fun _ _ _ _ _ => Throw "") demo_keys_at id
    (fun _ _ _ _ _ _ _ _ _ _ t => (Throw "", t)) (fun _ _ _ _ _ s => Ok s) demo_auto_insert demo_device_buffer
    eq_refl ltac:(lia) ltac:(lia) ltac:(vm_compute; discriminate) eq_refl ltac:(simpl; lia)
    ltac:(by exists 2) (fun l => Permutation_refl l) ltac:(simpl; lia) 100 ltac:(simpl; lia) ltac:(simpl; lia)
    ltac:(intros a Ha; apply demo_gpu_apart; simpl in Ha; lia) ltac:(simpl; lia) demo_gpu_valid
    demo_val demo_val' 3 50 2000 0 2 60 9000 8 true LookupUVM demo_linear)
    as (l' & E & _ & _ & Hr).
  - apply demo_table_start.
  - reflexivity.
  - lia.
  - lia.
  - lia.
  - apply demo_rows_given.
  - apply demo_val_other.
  - reflexivity.
  - apply demo_launch.
  - lia.
  - simpl; lia.
  - lia.
  - lia.
  - simpl; lia.
  - reflexivity.
  - reflexivity.
  - apply demo_find_launch.
  - lia.
  - apply reverse_Permutation.
  - intros j Hj. unfold demo_keys_at, demo_device_buffer. simpl. destruct (j =? 0); lia.
  - exists l'. split; [exact E|]. split; [exact (Hr 0 ltac:(lia))|exact (Hr 1 ltac:(lia))].
Defined.

#[local] Instance demo_uvm_laws : UvmTableLaws (uvm_state hm_state).
Proof. apply gpu_uvm_laws. Qed.

Lemma linear_strided_update_deadlocks_witness :
  exists e s', ll_update true 3 50 8 4 2000 0 demo_linear = Some (Throw e, s') /\ ll_clear true s' = None.
Proof.
  destruct (linear_strided_update_deadlocks (T := uvm_state hm_state) 3 50 8 2000 0 demo_linear tt) as (e & s' & E & Hs); [lia|lia|lia|lia|simpl; lia|reflexivity|reflexivity|].
  exists e, s'. split; [exact E|]. by apply (Hs 1 1 1 1 0).
Defined.
