(* ===== verification/Binding.v ===== *)
(** * The Python binding: [python/pynve/bindings/binding_layers.hpp] and the pooled lookup of
    [python/pynve/torch_bindings/nve_torch_ops.cu]

    [NVEmbedBinding] keeps an embedding layer, one execution context for every CUDA stream it
    is called on, and the buffers of back-propagation. The layer is used through the class
    [EmbeddingLayer] ([include/embedding_layer.hpp]), which the linear layer implements. The
    derived classes build a layer from their arguments ([hierarchical_tables],
    [linear_table_config], [gpu_layer_config]) and save and load its table. *)
From Stdlib Require Import Sorted.
From S2P Require Import Prelude Float32 EcHash SetAssoc HostModify CacheCoherence DataTypes InsertHeuristic Buffers AutoInsert Pooling HostLayer Serialization CacheQuery.
From S2P Require Import DeviceModify DeviceSelect DeviceTies DeviceOps FindAndCombine Dedup Gradients GpuLayer GpuTable HierModify LinearLayer.

(** ** The interface of a layer *)

(** [None] is a call that never returns. A lookup returns the hit rates it wrote into the
    array it was given. *)
Class EmbeddingLayer (L : Type) := {
  el_create_context : Z -> Z -> L -> Z * L;
  el_lookup (ctx num_keys keys output output_stride : Z) (pool : option linear_pooling) (hitrates : list f32) : L -> outcome (list f32) * L;
  el_insert (ctx num_keys keys value_stride value_size values table_id : Z) : L -> option (outcome unit * L);
  el_update (ctx num_keys keys value_stride value_size values table_id : Z) : L -> option (outcome unit * L);
  el_accumulate (ctx num_keys keys value_stride value_size values : Z) (value_type : DataType_t) (table_id : Z) : L -> option (outcome unit * L);
  el_clear (ctx : Z) : L -> option (outcome unit * L);
  el_erase (ctx num_keys keys table_id : Z) : L -> option (outcome unit * L)
}.

(** ** [NVEmbedBinding] *)

(** The back-propagation: [cb_created] once there is a [GradientCalculator]; [cb_location] is
    its [h_location_buffer_]. *)
Record backprop := { cb_created : bool; max_num_keys : Z; cb_location : Z -> Z }.

Section Binding.
Context {L : Type} `{EmbeddingLayer L}.

Record binding := {
  nb_layer : L; nb_row_size_in_bytes : Z; nb_data_type : DataType_t; nb_device_id : Z; nb_modify_stream : Z;
  stream_ctx_map : gmap Z Z; logging_interval : Z; logging_counter : Z; nb_log : list (list f32); nb_backprop : backprop
}.
Definition with_layer (b : binding) (l : L) (m : gmap Z Z) : binding :=
  {| nb_layer := l; nb_row_size_in_bytes := nb_row_size_in_bytes b; nb_data_type := nb_data_type b; nb_device_id := nb_device_id b;
     nb_modify_stream := nb_modify_stream b; stream_ctx_map := m; logging_interval := logging_interval b; logging_counter := logging_counter b;
     nb_log := nb_log b; nb_backprop := nb_backprop b |}.
Definition with_backprop (b : binding) (c : backprop) : binding :=
  {| nb_layer := nb_layer b; nb_row_size_in_bytes := nb_row_size_in_bytes b; nb_data_type := nb_data_type b; nb_device_id := nb_device_id b;
     nb_modify_stream := nb_modify_stream b; stream_ctx_map := stream_ctx_map b; logging_interval := logging_interval b;
     logging_counter := logging_counter b; nb_log := nb_log b; nb_backprop := c |}.

Definition element_size (dtype : DataType_t) : Z := if bool_decide (dtype = Float32) then 4 else 2.

(** The constructor of the base class; the derived one sets the layer. *)
Definition new_binding (device_id row_size : Z) (dtype : DataType_t) (interval modify_stream : Z) (l : L) (c : backprop) : binding :=
  {| nb_layer := l; nb_row_size_in_bytes := row_size * element_size dtype; nb_data_type := dtype; nb_device_id := device_id;
     nb_modify_stream := if 0 <=? device_id then modify_stream else 0; stream_ctx_map := ∅; logging_interval := interval; logging_counter := 0;
     nb_log := []; nb_backprop := c |}.

Definition get_embedding_dim (b : binding) : outcome Z :=
  match nb_data_type b with
  | Float32 => Ok (nb_row_size_in_bytes b / 4)
  | Float16 => Ok (nb_row_size_in_bytes b / 2)
  | _ => Throw "Invalid data type"
  end.

(** [get_exec_context]: one context for every stream. *)
Definition get_exec_context (stream : Z) (b : binding) : Z * binding :=
  match stream_ctx_map b !! stream with
  | Some ctx => (ctx, b)
  | None => let r := el_create_context stream (nb_modify_stream b) (nb_layer b) in
            (r.1, with_layer b r.2 (<[stream := r.1]> (stream_ctx_map b)))
  end.
(** [release_contexts]. *)
Definition release_contexts (b : binding) : binding := with_layer b (nb_layer b) ∅.

Definition log_hit_rates (hit_rates : list f32) (b : binding) : binding :=
  if bool_decide (hit_rates = []) || negb (0 <? logging_interval b) then b
  else {| nb_layer := nb_layer b; nb_row_size_in_bytes := nb_row_size_in_bytes b; nb_data_type := nb_data_type b; nb_device_id := nb_device_id b;
          nb_modify_stream := nb_modify_stream b; stream_ctx_map := stream_ctx_map b; logging_interval := logging_interval b;
          logging_counter := logging_counter b + 1;
          nb_log := if Z.rem (logging_counter b) (logging_interval b) =? 0 then nb_log b ++ [hit_rates] else nb_log b;
          nb_backprop := nb_backprop b |}.

Definition lookup_pooled (num_keys keys output : Z) (pool : option linear_pooling) (stream : Z) (b : binding) : outcome unit * binding :=
  let '(ctx, b) := get_exec_context stream b in
  match el_lookup ctx num_keys keys output (nb_row_size_in_bytes b) pool [f32_zero; f32_zero; f32_zero] (nb_layer b) with
  | (Ok hitrates, l) => (Ok tt, log_hit_rates hitrates (with_layer b l (stream_ctx_map b)))
  | (Throw e, l) => (Throw e, with_layer b l (stream_ctx_map b))
  | (Undef e, l) => (Undef e, with_layer b l (stream_ctx_map b))
  end.
Definition lookup (num_keys keys output stream : Z) (b : binding) : outcome unit * binding := lookup_pooled num_keys keys output None stream b.

(** The parameters of [lookup_with_pooling]; [first] is [offsets[0]]. *)
Definition pooling_params (pooling_type : PoolingType_t) (num_offsets offsets first : Z) (weight_data_type : DataType_t) (weights : Z) : linear_pooling :=
  {| lp_pooling_type := pooling_type; lp_sparse_type := CSR; lp_key_indices := offsets; lp_first_index := first; lp_num_key_indices := num_offsets;
     lp_sparse_weights := weights; lp_weight_type := weight_data_type |}.
Definition lookup_with_pooling (num_keys keys output : Z) (pooling_type : PoolingType_t) (num_offsets offsets first : Z) (weight_data_type : DataType_t)
    (weights stream : Z) (b : binding) : outcome unit * binding :=
  lookup_pooled num_keys keys output (Some (pooling_params pooling_type num_offsets offsets first weight_data_type weights)) stream b.

(** The modifying operations: on all tables for updates and accumulations. *)
Definition modify (op : Z -> L -> option (outcome unit * L)) (stream : Z) (b : binding) : option (outcome unit * binding) :=
  let '(ctx, b) := get_exec_context stream b in
  match op ctx (nb_layer b) with
  | None => None
  | Some (o, l) => Some (o, with_layer b l (stream_ctx_map b))
  end.
Definition nb_accumulate (num_keys keys updates stream : Z) (b : binding) : option (outcome unit * binding) :=
  modify (fun ctx => el_accumulate ctx num_keys keys (nb_row_size_in_bytes b) (nb_row_size_in_bytes b) updates (nb_data_type b) (-1)) stream b.
Definition nb_update (num_keys keys updates stream : Z) (b : binding) : option (outcome unit * binding) :=
  modify (fun ctx => el_update ctx num_keys keys (nb_row_size_in_bytes b) (nb_row_size_in_bytes b) updates (-1)) stream b.
Definition nb_insert (num_keys keys values table_id stream : Z) (b : binding) : option (outcome unit * binding) :=
  modify (fun ctx => el_insert ctx num_keys keys (nb_row_size_in_bytes b) (nb_row_size_in_bytes b) values table_id) stream b.
Definition nb_clear (stream : Z) (b : binding) : option (outcome unit * binding) := modify el_clear stream b.
Definition nb_erase (num_keys keys table_id stream : Z) (b : binding) : option (outcome unit * binding) :=
  modify (fun ctx => el_erase ctx num_keys keys table_id) stream b.

(** *** Back-propagation *)

Section Backprop.
Context {E : Type} `{!ElementOps E} (IndexT : int_type).
Context (sort_pairs : list (Z * Z) -> list (Z * Z)) (encode : list Z -> list (Z * Z)) (exclusive_sum : list Z -> list Z).
Context (write_order : list (Z * Z) -> list (Z * Z)) (element_order : list (Z * E) -> list (Z * E)).
Definition MAX_RUN_SIZE : Z := 1024.

(** More keys than ever before: new buffers, of which [h_location_buffer_] is filled. *)
Definition grow_backprop (num_keys : Z) (c : backprop) : backprop :=
  if max_num_keys c <? num_keys then
    {| cb_created := true; max_num_keys := num_keys; cb_location := fun i => if (0 <=? i) && (i <? num_keys) then i else cb_location c i |}
  else {| cb_created := true; max_num_keys := max_num_keys c; cb_location := cb_location c |}.

(** The common part: keys, offsets and gradients are the contents of the buffers, [st] and
    [normalized] what the device buffers of the calculator hold before; the result is the
    number of unique keys, their buffer and the gradients. *)
Definition run_backprop (st : store) (normalized : Z -> E) (num_keys : Z) (keys : Z -> Z) (grads : Z -> E) (pooling_type : PoolingType_t) (num_offsets : Z) (offsets : Z -> Z)
    (weights : option (Z -> E)) (output_grads : Z -> E) (b : binding) : outcome (Z * store * (Z -> E)) * binding :=
  if negb (0 <=? nb_device_id b) then (Throw "backprop is not supported on a host-only layer", b)
  else
    let c := grow_backprop num_keys (nb_backprop b) in
    let embed_width := wrapu 32 (nb_row_size_in_bytes b / element_size (nb_data_type b)) in
    let r := compute_gradients IndexT MAX_RUN_SIZE sort_pairs encode exclusive_sum write_order element_order (cb_location c)
               false keys offsets grads weights num_offsets num_keys 0 embed_width pooling_type st normalized output_grads in
    (r, with_backprop b c).
Definition concat_backprop (st : store) (normalized : Z -> E) (num_keys : Z) (keys : Z -> Z) (grads output_grads : Z -> E) (b : binding) : outcome (Z * store * (Z -> E)) * binding :=
  run_backprop st normalized num_keys keys grads Concatenate 1 (fun _ => 0) None output_grads b.
Definition pooling_backprop (st : store) (normalized : Z -> E) (num_keys : Z) (keys : Z -> Z) (grads output_grads : Z -> E) (pooling_type : PoolingType_t) (num_offsets : Z)
    (offsets : Z -> Z) (weights : option (Z -> E)) (b : binding) : outcome (Z * store * (Z -> E)) * binding :=
  run_backprop st normalized num_keys keys grads pooling_type (wrapu 32 num_offsets) offsets weights output_grads b.
End Backprop.
End Binding.
Arguments binding : clear implicits.

(** The lookup of the PyTorch operator: the tensor of offsets has one entry more than there are
    bags; the result has a row for every bag. *)
Definition torch_output_rows (offsets_numel : Z) : Z := offsets_numel - 1.
Definition torch_pooling_params (pooling_type : PoolingType_t) (offsets_numel offsets first : Z) (weight_data_type : DataType_t) (weights : Z) : linear_pooling :=
  pooling_params pooling_type (offsets_numel - 1) offsets first weight_data_type weights.

(** ** The linear layer behind the binding *)

Section LinearInstance.
Context {T H : Type} `{UvmTable T} `{InsertHeuristic H}.
Context (auto_insert_call : f32 -> Z -> Z -> handler H -> outcome unit * handler H) (device_buffer : string -> Z -> Z).

(** [hitrates[0]] receives the hit rate; contexts are named by their lookup streams. *)
#[global] Instance linear_embedding_layer : EmbeddingLayer (linear_layer T H) := {
  el_create_context lookup_stream modify_stream l := (lookup_stream, l);
  el_lookup ctx num_keys keys output output_stride pool hitrates l :=
    let r := ll_lookup auto_insert_call device_buffer true num_keys keys output output_stride 0 pool true l in
    (let! h := r.1 in Ok (match h with Some v => v :: drop 1 hitrates | None => hitrates end), r.2);
  el_insert ctx num_keys keys value_stride value_size values table_id l := Some (ll_insert true num_keys keys value_stride value_size values table_id l);
  el_update ctx := ll_update true;
  el_accumulate ctx := ll_accumulate true;
  el_clear ctx := ll_clear true;
  el_erase ctx := ll_erase true
}.
End LinearInstance.

(** ** Construction of the layers *)

(** [HierarchicalEmbedding]: the tables in order, each with its threshold of the insert heuristic. *)
Inductive table_kind := GpuLevel | HostLevel | RemoteLevel.
Definition DEFAULT_THRESHOLD : f32 := f32_ratio 3 4.

(** The check of [create_nvhm_table], with one partition. *)
Definition nvhm_check (table_size row_size : Z) : outcome unit :=
  if row_size =? 0 then Undef "division by zero"
  else check! 0 <? table_size / row_size as "Host table is too small" in Ok tt.
Definition host_threshold (remote : bool) (host_cache_size num_rows row_size_in_bytes : Z) : f32 :=
  if remote then
    let target := if 0 <? num_rows then f32_ratio host_cache_size (wrapu 64 (num_rows * row_size_in_bytes)) else f32_one in
    if f32_lt f32_one target then f32_one else target
  else f32_zero.
Definition hierarchical_tables (host_cache_size num_rows row_size_in_bytes : Z) (remote : bool) : outcome (list (table_kind * f32)) :=
  let! host := (if 0 <? host_cache_size then
                  let! _ := nvhm_check host_cache_size row_size_in_bytes in
                  Ok [(HostLevel, host_threshold remote host_cache_size num_rows row_size_in_bytes)]
                else Ok []) in
  Ok ([(GpuLevel, DEFAULT_THRESHOLD)] ++ host ++ if remote then [(RemoteLevel, f32_zero)] else []).

(** [LinearUVMEmbedding]: the configuration of the GPU table, over the defaults of
    [GPUTableConfig]; [pipeline_params] is the address of the parameters of the pipelined gather. *)
Record EmbedLayerConfig := { cfg_logging_interval : Z; cfg_kernel_mode : Z; cfg_value_1 : Z; cfg_value_2 : Z; cfg_max_modify_size : Z }.
Definition linear_table_config (row_size : Z) (dtype : DataType_t) (mem_block gpu_cache_size : Z) (use_private_stream : bool) (dev : Z)
    (config : EmbedLayerConfig) (pipeline_params : Z) : GPUTableConfig :=
  let mode := wrapu 64 (cfg_kernel_mode config) in
  {| GpuTable.device_id := dev; cache_size := gpu_cache_size; row_size_in_bytes := row_size * element_size dtype; uvm_table := mem_block;
     count_misses := true; max_modify_size := if 0 <? cfg_max_modify_size config then cfg_max_modify_size config else 2 ^ 20;
     g_value_dtype := dtype; private_stream := use_private_stream; disable_uvm_update := false; uvm_cpu_accumulate := true;
     data_storage_on_host := false; modify_on_gpu := true; kernel_mode_type := mode;
     kernel_mode_value := if mode =? 2 then (if 0 <? cfg_value_1 config then cfg_value_1 config else 1024)
                          else if mode =? 3 then pipeline_params else 0;
     g_invalid_key := -1 |}.
Definition gather_pipeline_params (config : EmbedLayerConfig) : Z * Z :=
  (if 0 <? cfg_value_1 config then cfg_value_1 config else 1024, if 0 <? cfg_value_2 config then cfg_value_2 config else 16).

(** [GPUEmbedding]. *)
Definition gpu_layer_config (row_size num_rows : Z) (dtype : DataType_t) (mem_block : Z) : GPUEmbeddingLayerConfig :=
  {| embedding_table := mem_block; num_embeddings := num_rows; embedding_width_in_bytes := row_size * element_size dtype;
     GpuLayer.value_dtype := dtype |}.

(** ** Saving and loading the table of [GPUEmbedding] *)

Section Tensors.
Context {S : Type} `{StreamWrapperBase S}.

(** [gpu_table_] with its contents, copied to and from the host. *)
Definition gpu_write_tensor (name : Z) (gpu_table : TensorWrapper) (s : S) : outcome S :=
  let sz := tensor_bytes gpu_table in
  if Z.of_nat (length (t_data gpu_table)) <? sz then Undef "copy past the end of the table"
  else write_tensor_to_stream name {| t_data := take (Z.to_nat sz) (t_data gpu_table); t_row := t_row gpu_table; t_col := t_col gpu_table;
                                      t_element_size := t_element_size gpu_table |} s.
(** The host buffer starts with zeros and is copied back whatever the reader did with it. *)
Definition gpu_load_tensor (fuel : nat) (name : Z) (gpu_table : TensorWrapper) (s : S) : option (outcome (TensorWrapper * S)) :=
  let sz := tensor_bytes gpu_table in
  let host_view := {| t_data := replicate (Z.to_nat sz) 0; t_row := t_row gpu_table; t_col := t_col gpu_table; t_element_size := t_element_size gpu_table |} in
  match load_tensor_from_stream fuel name host_view s with
  | Some (Ok (t, s)) => Some (Ok (with_data gpu_table (t_data t), s))
  | Some (Throw e) => Some (Throw e)
  | Some (Undef e) => Some (Undef e)
  | None => None
  end.
End Tensors.

(** ** Contexts *)

Section Theorems.
Context {L : Type} `{EmbeddingLayer L}.

(** A stream keeps the context it was given first. *)
Lemma exec_context_kept stream (b : binding L) : let r := get_exec_context stream b in get_exec_context stream r.2 = r.
Proof.
  simpl. unfold get_exec_context at 2 3. destruct (stream_ctx_map b !! stream) as [ctx|] eqn:E; simpl; unfold get_exec_context.
  - by rewrite E.
  - simpl. by rewrite lookup_insert_eq.
Qed.

(** ** Back-propagation over any history of calls *)

(** The positions that the next call may ask for. *)
Definition location_ok (c : backprop) : Prop := forall i, 0 <= i < max_num_keys c -> cb_location c i = i.

Lemma grow_backprop_ok n c : 0 <= n -> location_ok c -> location_ok (grow_backprop n c) /\ (forall i, 0 <= i < n -> cb_location (grow_backprop n c) i = i).
Proof.
  intros Hn Hc. unfold location_ok, grow_backprop in *. destruct (Z.ltb_spec (max_num_keys c) n); simpl.
  - split; intros i Hi; by rewrite (proj2 (Z.leb_le _ _)), (proj2 (Z.ltb_lt _ _)) by lia.
  - split; intros i Hi; apply Hc; lia.
Qed.

Section Gradients.
Context {E : Type} `{!ElementOps E} (e_add_comm : forall a b : E, e_add a b = e_add b a) (IndexT : int_type).
Context (sort_pairs : list (Z * Z) -> list (Z * Z)) (encode : list Z -> list (Z * Z)) (exclusive_sum : list Z -> list Z).
Context (write_order : list (Z * Z) -> list (Z * Z)) (element_order : list (Z * E) -> list (Z * E)).
Context {Hcub : CubLaws sort_pairs encode exclusive_sum (2 ^ 31)}.
Context (Hwo : forall l, write_order l ≡ₚ l) (Heo : forall l, element_order l ≡ₚ l) (HK : IndexT = int32_t \/ IndexT = int64_t).

Local Abbreviation concat_backprop := (concat_backprop IndexT sort_pairs encode exclusive_sum write_order element_order).
Local Abbreviation pooling_backprop := (pooling_backprop IndexT sort_pairs encode exclusive_sum write_order element_order).

(** The states a binding reaches by back-propagation: from new buffers, by calls with any
    numbers of keys and any contents of the device buffers. *)
Inductive backprop_reachable : binding L -> Prop :=
  | br_start b : max_num_keys (nb_backprop b) = 0 -> backprop_reachable b
  | br_concat b st normalized n keys grads out : 0 <= n -> backprop_reachable b ->
      backprop_reachable (concat_backprop st normalized n keys grads out b).2
  | br_pooling b st normalized n keys grads out pooling num_offsets offsets weights : 0 <= n -> backprop_reachable b ->
      backprop_reachable (pooling_backprop st normalized n keys grads out pooling num_offsets offsets weights b).2.

Lemma run_backprop_location st normalized n keys grads pooling num_offsets offsets weights out (b : binding L) :
  0 <= n -> location_ok (nb_backprop b) ->
  location_ok (nb_backprop (run_backprop IndexT sort_pairs encode exclusive_sum write_order element_order st normalized n keys grads pooling num_offsets offsets weights out b).2).
Proof. intros Hn Hb. unfold run_backprop. destruct (negb (0 <=? nb_device_id b)); [done|]. by apply grow_backprop_ok. Qed.

Lemma reachable_location b : backprop_reachable b -> location_ok (nb_backprop b).
Proof.
  induction 1 as [b Hb|b st normalized n keys grads out Hn _ IH|b st normalized n keys grads out pooling num_offsets offsets weights Hn _ IH].
  - intros i Hi. lia.
  - by apply run_backprop_location.
  - by apply run_backprop_location.
Qed.

Local Abbreviation width b := (nb_row_size_in_bytes b / element_size (nb_data_type b)).

Lemma run_backprop_correct st normalized n keys grads pooling num_offsets offsets weights out (b : binding L) bag_of :
  location_ok (nb_backprop b) -> 0 <= nb_device_id b -> width b < 2 ^ 32 ->
  backprop_ok IndexT MAX_RUN_SIZE id false offsets weights num_offsets n 0 (width b) pooling bag_of ->
  exists r, (run_backprop IndexT sort_pairs encode exclusive_sum write_order element_order st normalized n keys grads pooling num_offsets offsets weights out b).1 = Ok r /\
    gradients_ok IndexT MAX_RUN_SIZE false keys offsets grads weights n 0 (width b) pooling bag_of r.
Proof.
  intros Hb Hd Hw Hbp. unfold run_backprop. rewrite (proj2 (Z.leb_le _ _) Hd). cbn [negb fst].
  rewrite wrapu_small by (unfold in_u; pose proof (bp_width _ _ _ _ _ _ _ _ _ _ _ _ Hbp); lia).
  apply (compute_gradients_lemma e_add_comm IndexT MAX_RUN_SIZE sort_pairs encode exclusive_sum write_order element_order _ Hwo Heo HK (or_intror eq_refl)).
  destruct Hbp. constructor; try done. apply grow_backprop_ok; [lia|done].
Qed.

(** C27. Back-propagation of at least one key through the binding, for every pooling but the
    mean without weights (see [mean_backprop_reads_null]): after any history of calls with any
    numbers of keys, and whatever the device buffers hold, the gradients of a pooled lookup and
    of a plain one are computed as specified. The unique keys are the keys that occur, in ascending
    order; element [e] of the gradient of a key is the sum over the positions of the key of
    the gradient of the row the position went into, scaled by its weight (one, the given
    weight, or its share of the weights of the bag), where the sum is taken in chunks of at
    most 1024 positions, each in order, and the chunks are added in some order. *)
Theorem backprop_correct st normalized n keys grads pooling num_offsets offsets weights out (b : binding L) bag_of :
  backprop_reachable b -> 0 <= nb_device_id b -> width b < 2 ^ 32 -> 0 <= num_offsets < 2 ^ 32 ->
  backprop_ok IndexT MAX_RUN_SIZE id false offsets weights num_offsets n 0 (width b) pooling bag_of ->
  (exists r, (pooling_backprop st normalized n keys grads out pooling num_offsets offsets weights b).1 = Ok r /\
     gradients_ok IndexT MAX_RUN_SIZE false keys offsets grads weights n 0 (width b) pooling bag_of r) /\
  (exists r, (concat_backprop st normalized n keys grads out b).1 = Ok r /\
     gradients_ok IndexT MAX_RUN_SIZE false keys (fun _ => 0) grads None n 0 (width b) Concatenate bag_of r).
Proof.
  intros Hb Hd Hw Hno Hbp. apply reachable_location in Hb. split.
  - unfold Binding.pooling_backprop. rewrite wrapu_small by done. by apply run_backprop_correct.
  - apply run_backprop_correct; [done..|]. destruct Hbp. by constructor.
Qed.

(** Mean pooling without weights cannot be trained: the gradients of a mean are computed
    by normalising the given weights, and the operator passes none for a plain mean; the
    kernel reads through the null pointer as soon as a bag has a key. *)
Theorem mean_backprop_reads_null st normalized n keys grads out num_offsets offsets (b : binding L) bag :
  backprop_reachable b -> 0 <= nb_device_id b -> 0 < n < 2 ^ 30 -> 0 < num_offsets < 2 ^ 31 ->
  0 <= bag < num_offsets -> 0 < offsets (bag + 1) - offsets bag < 2 ^ 31 ->
  exists e, (pooling_backprop st normalized n keys grads out Mean num_offsets offsets None b).1 = Undef e.
Proof.
  intros Hb%reachable_location Hd Hn Hno Hbag Hcount. unfold Binding.pooling_backprop, run_backprop. rewrite (proj2 (Z.leb_le _ _) Hd). cbn [negb fst].
  rewrite (wrapu_small 32 num_offsets) by (unfold in_u; lia). unfold compute_gradients.
  destruct (grow_backprop_ok n (nb_backprop b) ltac:(lia) Hb) as [_ Hloc].
  destruct (dedup_correct IndexT MAX_RUN_SIZE sort_pairs encode exclusive_sum write_order _ keys n st Hcub Hwo HK (or_intror eq_refl)
    ltac:(lia) ltac:(unfold MAX_RUN_SIZE; simpl; lia) Hloc) as (st' & nu & nr & segs & -> & _). cbn [obind].
  rewrite (wrapu_small 32 (num_offsets + 3)) by (unfold in_u; lia). rewrite (proj2 (Z.eqb_neq ((num_offsets + 3) / 4) 0)) by (intros E0; pose proof (Z.div_str_pos (num_offsets + 3) 4 ltac:(lia)); lia).
  cbn [negb bool_decide decide is_mean]. change (bool_decide (Mean = Concatenate)) with false. change (is_mean Mean) with true. cbv iota.
  assert (Ex : existsb (fun b => 0 <? bag_count IndexT false 0 offsets b) (seqZ 0 num_offsets) = true).
  { apply existsb_exists. exists bag. split; [apply list_elem_of_In, elem_of_seqZ; lia|]. apply Z.ltb_lt. unfold bag_count. cbv iota.
    rewrite conv_small; [lia|destruct HK as [-> | ->]; simpl; lia|destruct HK as [-> | ->]; unfold in_range, in_s; simpl; lia]. }
  rewrite Ex. by eexists.
Qed.
End Gradients.
End Theorems.

(** ** Pooled lookups *)

(** The same parameters as the host layer sees them: buffers by their contents. *)
Definition host_params (index_at : Z -> Z -> Z) (bytes_at : Z -> Z -> list Z) (p : linear_pooling) : PoolingParams :=
  {| pooling_type := lp_pooling_type p; sparse_type := lp_sparse_type p;
     key_indices := if lp_key_indices p =? 0 then None else Some (index_at (lp_key_indices p)); num_key_indices := lp_num_key_indices p;
     sparse_weights := if lp_sparse_weights p =? 0 then None else Some (bytes_at (lp_sparse_weights p)); weight_type := lp_weight_type p;
     output_type := Unknown |}.

(** A pooled lookup through the PyTorch operator leaves out the last bag: the operator
    allocates a row for each of the [offsets_numel - 1] bags and passes that number, which the
    binding hands on as the number of offsets; the layers take one bag less than there are
    offsets. The linear layer asks its table for [offsets_numel - 2] bags, the host layer pools
    as many, and the combining lookup of the GPU table writes nothing into the row of the last
    bag. *)
Theorem pooled_lookup_drops_last_bag {T} `{UvmTable T} {E} `{!ElementOps E} (device_buffer : string -> Z -> Z) (index_at : Z -> Z -> Z)
    (bytes_at : Z -> Z -> list Z) (pooling : PoolingType_t) (offsets_numel offsets first : Z)
    (num_keys keys output stride : Z) (in_dtype : DataType_t) (row_size : Z) :
  let p := torch_pooling_params pooling offsets_numel offsets first in_dtype 0 in
  pooling <> Concatenate -> offsets <> 0 -> ut_value_dtype = Float32 \/ ut_value_dtype = Float16 ->
  (forall t, ll_find device_buffer num_keys keys output stride (Some p) t =
     ut_find_and_combine num_keys (device_buffer "keys" keys) CSR (torch_output_rows offsets_numel - 1) (device_buffer "offsets" offsets) 0 pooling 0
       stride (device_buffer "output" output) t) /\
  (forall m, pool_setup (host_params index_at bytes_at p) in_dtype row_size num_keys stride = Ok m -> pm_bags m = torch_output_rows offsets_numel - 1) /\
  (forall (K : int_type) get_address counts_miss (element : Z -> Z -> E) (row sizeof_value : Z) (ks offs : Z -> Z) (weights : option (Z -> E)) order st e,
     combine_ok K row sizeof_value num_keys CSR (torch_output_rows offsets_numel - 1) (Some offs) 0 pooling weights ->
     (forall b, order b ≡ₚ combine_threads b) -> 0 <= e < row ->
     exists st', find_and_combine K get_address counts_miss element (row * sizeof_value) sizeof_value true num_keys ks CSR
         (torch_output_rows offsets_numel - 1) (Some offs) 0 pooling weights (row * sizeof_value) order st = Ok st' /\
       c_out st' ((torch_output_rows offsets_numel - 1) * row + e) = c_out st ((torch_output_rows offsets_numel - 1) * row + e)).
Proof.
  intros p Hp Ho Ht. split_and!.
  - intros t. unfold ll_find, p, torch_pooling_params, pooling_params. simpl. rewrite (proj2 (Z.eqb_neq _ _) Ho).
    by destruct Ht as [-> | ->].
  - intros m Hm. unfold pool_setup in Hm. destruct (bool_decide (pooling_type (host_params index_at bytes_at p) = Concatenate)) eqn:Ec.
    { apply bool_decide_eq_true in Ec. done. }
    repeat match type of Hm with (check! ?b as _ in _) = _ => destruct b; [|done] | obind ?x _ = _ => destruct x; [|done..]; cbn [obind] in Hm end.
    cbv zeta in Hm. unfold host_params, p in Hm. simpl in Hm. rewrite (proj2 (Z.eqb_neq _ _) Ho) in Hm.
    repeat match type of Hm with (if ?b then _ else _) = _ => destruct b; try done end. injection Hm as <-. simpl. unfold torch_output_rows. lia.
  - intros K get_address counts_miss element row sizeof_value ks offs weights order st e Hok Hord He.
    destruct (find_and_combine_lemma K get_address counts_miss element row sizeof_value num_keys ks CSR _ (Some offs) 0 pooling weights order st Hok (Hord _))
      as (st' & E' & _ & Hout & _). exists st'. split; [exact E'|]. apply Hout. unfold num_bags. simpl. lia.
Qed.

(** ** Thresholds *)

(** C33. The tables that the hierarchical binding builds are well formed: the device cache
    comes first, each level occurs at most once and in order, no threshold of the insert
    heuristic exceeds one, and of two or more tables the last has threshold zero; a device
    cache without other tables keeps the default threshold. *)
Theorem hierarchical_tables_ok host_cache_size num_rows row_bytes remote ts :
  hierarchical_tables host_cache_size num_rows row_bytes remote = Ok ts ->
  head ts = Some (GpuLevel, DEFAULT_THRESHOLD) /\ sublist ts.*1 [GpuLevel; HostLevel; RemoteLevel] /\
  Forall (fun t => f32_lt f32_one t.2 = false) ts /\
  ((length ts > 1)%nat -> exists k, last ts = Some (k, f32_zero)) /\ (RemoteLevel ∈ ts.*1 <-> remote = true).
Proof.
  unfold hierarchical_tables. intros Hts.
  assert (Hh : f32_lt f32_one (host_threshold remote host_cache_size num_rows row_bytes) = false).
  { unfold host_threshold. destruct remote; [|done]. set (x := if 0 <? num_rows then _ else _). clearbody x. destruct (f32_lt f32_one x) eqn:E; done. }
  destruct (0 <? host_cache_size); [unfold nvhm_check in Hts; destruct (row_bytes =? 0); [done|]; destruct (0 <? host_cache_size / row_bytes); [|done]|];
    cbn [obind] in Hts; injection Hts as <-; destruct remote; simpl.
  - split_and!; [done|by repeat constructor|by repeat constructor|eauto|set_solver].
  - split_and!; [done|by repeat constructor|by repeat constructor|eauto|split; [|done]; intros Hin; repeat (apply elem_of_cons in Hin as [Hin|Hin]; [done|]); by apply not_elem_of_nil in Hin].
  - split_and!; [done|by repeat constructor|by repeat constructor|eauto|set_solver].
  - split_and!; [done|by repeat constructor|by repeat constructor|lia|split; [|done]; intros Hin; repeat (apply elem_of_cons in Hin as [Hin|Hin]; [done|]); by apply not_elem_of_nil in Hin].
Qed.

(** ** Files *)

Section SaveLoad.
Context {S : Type} `{Wr : WritableStream S}.

(** The copy of the table on the host. *)
Lemma gpu_write_tensor_host name t (s : S) : tensor_bytes t <= Z.of_nat (length (t_data t)) ->
  gpu_write_tensor name t s = write_tensor_to_stream name {| t_data := stored_data t; t_row := t_row t; t_col := t_col t; t_element_size := t_element_size t |} s.
Proof. intros Ht. unfold gpu_write_tensor. by rewrite (proj2 (Z.ltb_ge _ _) Ht). Qed.

(** Saving and loading the table of the GPU binding: after a header and [write_tensor_to_stream]
    a table of the same size loads the bytes that were saved; a table of another size is an
    exception. A name that is not in the file does not fail: the whole table of the loading
    layer is overwritten with zeros. *)
Theorem gpu_table_save_load (s : S) name name' (t t' : TensorWrapper) :
  stream_ok s -> contents s = [] -> tensor_ok (name, t) -> tensor_bytes t < 2 ^ 62 -> tensor_bytes t' <= Z.of_nat (length (t_data t')) ->
  exists s', (let! s := write_table_file_header s in gpu_write_tensor name t s) = Ok s' /\
    if name =? name' then
      if tensor_bytes t =? tensor_bytes t' then exists s'', gpu_load_tensor 1 name' t' s' = Some (Ok (with_data t' (stored_data t), s''))
      else gpu_load_tensor 1 name' t' s' = Some (Throw "Incorrect tensor size")
    else exists s'', gpu_load_tensor 1 name' t' s' = Some (Ok (with_data t' (replicate (Z.to_nat (tensor_bytes t')) 0), s'')).
Proof.
  intros Hs Hc Ht Hsz Ht'. pose proof Ht as (Hn & Hr & Hco & He & Hk & Hd). cbn [snd] in *.
  set (h := {| t_data := stored_data t; t_row := t_row t; t_col := t_col t; t_element_size := t_element_size t |}).
  set (v := {| t_data := replicate (Z.to_nat (tensor_bytes t')) 0; t_row := t_row t'; t_col := t_col t'; t_element_size := t_element_size t' |}).
  assert (Hp : forall t, 0 <= tensor_bytes t) by (intros; apply wrapu_range; lia).
  assert (Hlh : Z.of_nat (length (t_data h)) = tensor_bytes t) by (simpl; unfold stored_data; rewrite length_take; pose proof (Hp t); lia).
  assert (Hh : tensor_ok (name, h)) by (unfold tensor_ok; cbn [fst snd]; split_and!; [done..|]; change (tensor_bytes h) with (tensor_bytes t); lia).
  destruct (tensor_file_roundtrip_lemma s [(name, h)] name' v 1 Hs) as (s' & Ew & El).
  - by constructor.
  - rewrite file_size_cons by done. unfold file_size. simpl. change (tensor_bytes h) with (tensor_bytes t). lia.
  - done.
  - simpl. rewrite length_replicate. change (tensor_bytes v) with (tensor_bytes t'). pose proof (Hp t'). lia.
  - exists s'. split.
    + rewrite <- Ew. destruct (write_table_file_header s) as [s1| |]; try done. cbn [obind write_tensors fst snd]. rewrite gpu_write_tensor_host by done.
      fold h. by destruct (write_tensor_to_stream name h s1).
    + unfold gpu_load_tensor. fold v. cbn [List.find fst] in El. destruct (name =? name').
      * cbn [snd] in El. change (tensor_bytes h) with (tensor_bytes t) in El. change (tensor_bytes v) with (tensor_bytes t') in El.
        destruct (Z.eqb_spec (tensor_bytes t) (tensor_bytes t')) as [Eb|]; [|by rewrite El]. destruct El as [s'' ->]. exists s''. do 3 f_equal.
        assert (Eh : stored_data h = stored_data t) by (unfold stored_data at 1; change (tensor_bytes h) with (tensor_bytes t); by rewrite take_ge by lia).
        unfold with_data. cbn [t_data]. rewrite Eh, (drop_ge (t_data v)), app_nil_r; [done|]. cbn [t_data v]. rewrite length_replicate.
        change (stored_data t) with (t_data h). lia.
      * destruct (El Hc) as [s'' ->]. by exists s''.
Qed.
End SaveLoad.

(** ** Examples *)

#[local] Instance demo_layer : EmbeddingLayer unit := {
  el_create_context lookup_stream _ l := (lookup_stream, l);
  el_lookup _ _ _ _ _ _ hitrates l := (Ok hitrates, l);
  el_insert _ _ _ _ _ _ _ l := Some (Ok tt, l);
  el_update _ _ _ _ _ _ _ l := Some (Ok tt, l);
  el_accumulate _ _ _ _ _ _ _ _ l := Some (Ok tt, l);
  el_clear _ l := Some (Ok tt, l);
  el_erase _ _ _ _ l := Some (Ok tt, l)
}.
#[local] Instance demo_elements : ElementOps Z :=
  {| e_zero := 0; e_one := 1; e_add := Z.add; e_muladd := fun a e w => a + e * w; e_div := Z.div |}.
Definition demo_binding : binding unit := new_binding 0 3 Float32 0 1 tt {| cb_created := false; max_num_keys := 0; cb_location := fun _ => 77 |}.
Definition demo_at (l : list Z) (i : Z) : Z := default 0 (l !! Z.to_nat i).
Definition demo_store : store := fun _ _ => 99.

(** Two bags of two keys; keys 5, 3, 5, 5 with weights 1, 2, 3, 4. *)
Definition demo_backprop := pooling_backprop (E := Z) int64_t DemoCub.sort_pairs DemoCub.encode DemoCub.exclusive_sum reverse reverse demo_store (fun _ => 99)
  4 (demo_at [5; 3; 5; 5]) (fun i => 100 + i) (fun _ => 99) WeightedSum 2 (demo_at [0; 2; 4]) (Some (demo_at [1; 2; 3; 4])) demo_binding.
Definition demo_bag_of (p : Z) : Z := p / 2.

Lemma demo_backprop_ok : backprop_ok (E := Z) int64_t MAX_RUN_SIZE id false (demo_at [0; 2; 4]) (Some (demo_at [1; 2; 3; 4])) 2 4 0 3 WeightedSum demo_bag_of.
Proof.
  constructor; [lia|done|lia|done| |done|done]. intros _. split; [lia|]. split; [done|].
  assert (Hp : forall p, 0 <= p < 4 -> p = 0 \/ p = 1 \/ p = 2 \/ p = 3) by lia.
  split.
  - intros p [->|[->|[->| ->]]]%Hp; vm_compute; intuition congruence.
  - intros b p Hb Hs. assert (b = 0 \/ b = 1) as [->| ->] by lia.
    + change (0 <= p < 2) in Hs. assert (p = 0 \/ p = 1) as [->| ->] by lia; vm_compute; intuition congruence.
    + change (2 <= p < 4) in Hs. assert (p = 2 \/ p = 3) as [->| ->] by lia; vm_compute; intuition congruence.
Qed.

(** The gradient of key 5: row 0 once, and row 1 with weights 3 and 4. *)
Example demo_backprop_value : exists r, demo_backprop.1 = Ok r /\ read UniqueOut r.1.1 r.1.2 = [3; 5] /\ r.2 3 = 100 + 103 * 7 /\ r.2 0 = 200.
Proof.
  destruct demo_backprop.1 as [r| |] eqn:E; [|by vm_compute in E..]. exists r. split; [done|]. vm_compute in E. injection E as <-. vm_compute. done.
Qed.

Lemma backprop_correct_witness :
  exists r, demo_backprop.1 = Ok r /\
    gradients_ok int64_t MAX_RUN_SIZE false (demo_at [5; 3; 5; 5]) (demo_at [0; 2; 4]) (fun i => 100 + i) (Some (demo_at [1; 2; 3; 4])) 4 0 3 WeightedSum demo_bag_of r.
Proof.
  refine (proj1 (backprop_correct (L := unit) (E := Z) Z.add_comm int64_t DemoCub.sort_pairs DemoCub.encode DemoCub.exclusive_sum reverse reverse
    (Hcub := DemoCub.laws _) (@reverse_Permutation _) (@reverse_Permutation _) (or_intror eq_refl) demo_store (fun _ => 99) 4 (demo_at [5; 3; 5; 5]) (fun i => 100 + i) WeightedSum 2 (demo_at [0; 2; 4])
    (Some (demo_at [1; 2; 3; 4])) (fun _ => 99) demo_binding demo_bag_of _ _ _ _ _)).
  - by apply br_start.
  - done.
  - done.
  - done.
  - apply demo_backprop_ok.
Defined.

Lemma mean_backprop_reads_null_witness :
  exists e, (pooling_backprop (E := Z) int64_t DemoCub.sort_pairs DemoCub.encode DemoCub.exclusive_sum reverse reverse demo_store (fun _ => 99)
    4 (demo_at [5; 3; 5; 5]) (fun i => 100 + i) (fun _ => 99) Mean 2 (demo_at [0; 2; 4]) None demo_binding).1 = Undef e.
Proof.
  apply (mean_backprop_reads_null (L := unit) (E := Z) int64_t DemoCub.sort_pairs DemoCub.encode DemoCub.exclusive_sum reverse reverse
    (Hcub := DemoCub.laws _) (@reverse_Permutation _) (or_intror eq_refl) demo_store (fun _ => 99) 4 (demo_at [5; 3; 5; 5]) (fun i => 100 + i) (fun _ => 99) 2 (demo_at [0; 2; 4])
    demo_binding 1); [by apply br_start|done|lia|lia|lia|vm_compute; intuition congruence].
Defined.

Lemma hierarchical_tables_ok_witness :
  exists ts, hierarchical_tables (2 ^ 20) 1000 64 true = Ok ts /\ length ts = 3%nat /\ RemoteLevel ∈ ts.*1 /\ exists k, last ts = Some (k, f32_zero).
Proof.
  destruct (hierarchical_tables (2 ^ 20) 1000 64 true) as [ts| |] eqn:E; [|by vm_compute in E..]. exists ts. split; [done|].
  destruct (hierarchical_tables_ok _ _ _ _ _ E) as (_ & _ & _ & Hlast & Hremote).
  assert (Hl : length ts = 3%nat) by (vm_compute in E; by injection E as <-). split_and!; [done|by apply Hremote|apply Hlast; lia].
Defined.

Lemma gpu_table_save_load_witness :
  let t := {| t_data := [9; 8; 7]; t_row := 3; t_col := 1; t_element_size := 1 |} in
  exists s' s'', (let! s := write_table_file_header {| c_bytes := []; c_pos := 0 |} in gpu_write_tensor 4 t s) = Ok s' /\
    gpu_load_tensor 1 5 t s' = Some (Ok ({| t_data := [0; 0; 0]; t_row := 3; t_col := 1; t_element_size := 1 |}, s'')).
Proof.
  intros t. destruct (gpu_table_save_load {| c_bytes := []; c_pos := 0 |} 4 5 t t) as (s' & E & s'' & E2).
  - done.
  - done.
  - repeat constructor; try (vm_compute; congruence); by eexists.
  - done.
  - vm_compute. congruence.
  - exists s', s''. split; [exact E|]. exact E2.
Defined.

#[local] Instance demo_binding_uvm : UvmTable (uvm_state hm_state) :=
  gpu_uvm_table (H := demo_ops 2) int64_t (demo_gpu 2) demo_gpu_cache 3 16 demo_insert_env id 64 (fun n => reverse (grid n)) (fun _ => []) demo_threads
    (fun _ _ _ _ _ => Throw "") demo_keys_at id (fun _ _ _ _ _ _ _ _ _ _ t => (Throw "", t)) (fun _ _ _ _ _ s => Ok s).
Definition demo_offsets : Z -> Z := demo_at [0; 1; 3; 4].

Lemma demo_csr_ok : combine_ok (E := Z) int64_t 2 4 4 CSR 2 (Some demo_offsets) 0 Sum None.
Proof.
  split; [by right|split_and!; by vm_compute|done|done|by eexists|done|by vm_compute|].
  intros s Hs. assert (s = 0 \/ s = 1) as [->| ->] by (change (0 <= s < 2) in Hs; lia);
  unfold bag_ok, bag, is_fixed, in_range, in_s; simpl; vm_compute; intuition congruence.
Qed.

(** Four offsets, three bags; the row of the third is left as it was. *)
Lemma pooled_lookup_drops_last_bag_witness :
  pm_bags <$> (match pool_setup (host_params (fun _ => demo_offsets) (fun _ _ => []) (torch_pooling_params Sum 4 800 0 Float32 0)) Float32 8 4 8 with Ok m => Some m | _ => None end) = Some 2 /\
  exists st', find_and_combine (E := Z) int64_t (fun k => 100 * k) (fun _ => false) Z.add 8 4 true 4 (fun p => p + 1) CSR 2 (Some demo_offsets) 0 Sum None 8
      (fun b => reverse (combine_threads b)) {| c_out := fun _ => -1; c_misses := 0 |} = Ok st' /\ c_out st' 4 = -1.
Proof.
  destruct (pooled_lookup_drops_last_bag (T := uvm_state hm_state) (E := Z) demo_device_buffer (fun _ => demo_offsets) (fun _ _ => []) Sum 4 800 0 4 50 9000 8 Float32 8)
    as (_ & Hh & Hg); [done|done|by left|]. split.
  - destruct (pool_setup _ Float32 8 4 8) as [m| |] eqn:E; [|by vm_compute in E..]. simpl. by rewrite (Hh m eq_refl).
  - destruct (Hg int64_t (fun k => 100 * k) (fun _ => false) Z.add 2 4 (fun p => p + 1) demo_offsets None (fun b => reverse (combine_threads b))
      {| c_out := fun _ => -1; c_misses := 0 |} 0 demo_csr_ok ltac:(intros; apply reverse_Permutation) ltac:(lia)) as (st' & E & Eo).
    exists st'. split; [exact E|]. exact Eo.
Defined.
